(* ===== verification/_CoqProject ===== *)
-Q . S2P
Prelude.v
Bytecode.v
Remap.v
Package.v
Prims.v
TypeDesc.v
ByteIO.v
ModuleRecords.v
ModuleSaver.v
Shards.v
Strings.v
StringsGC.v
Utf8.v
StringOps.v
StringText.v
StringTextSpec.v
Layout.v
Heap.v
HeapGC.v
HeapSweep.v
Arrays.v
ArrayElems.v
ArraySlice.v
SliceSpec.v
Frames.v
FramesSpec.v
ModuleLoader.v
ModuleFile.v
ModuleImage.v
Discovery.v
DiscoverySpec.v
DefaultExpr.v
Linker.v
LinkTables.v
LinkMerge.v
LinkFinal.v
LinkSpec.v
LinkSafe.v
DiscoveryLink.v
GcStop.v
SchedState.v
Sched.v
SchedSpec.v
ParkIface.v
SyncPrims.v
SyncSpec.v
StaticInit.v
StaticInitSpec.v
Objects.v
Containers.v
Exec.v
ExecTypes.v
ExecSpec.v
ObjectSpec.v
AllocGrow.v
ContainerSpec.v
ContainerSlots.v
StringMethods.v
StringMethodSpec.v
Serialize.v
SerializeWire.v
SerializeWrite.v
SerializeStep.v
SerializeRead.v
SerializeSpec.v
SerializeSafe.v
Channels.v
ChannelSpec.v
ParkProto.v
SyncCalls.v
ParkSpec.v
