(* ===== verification/Prelude.v ===== *)
(** * NLang virtual machine: verification library

    NLang is a statically typed scripting language with a bytecode compiler and a
    multi-threaded virtual machine.  This library models the parts of the machine
    (and of the compiler's input and output formats) that carry its own logic, as
    executable functions translated from the C++ sources, and proves what makes
    them correct.

    ** Parts of the program and the files that model them

    Code and files:
    - [Bytecode]: opcode table, instruction extents, emitter, reader and the
      line/pc walk ([vm/BytecodeOps.h], [OpCodeTable.cpp], [BytecodeEmitter.h],
      [BytecodeReader.h], [DisassemblerWalk.cpp]).
    - [Remap]: link-time rewriting of table operands ([vm/NcuLinkerRemap.cpp]).
    - [Package]: the [.npkg] archive writer and reader ([vm/NcuPackage.cpp]).
    - [TypeDesc]: runtime type descriptors, their builder, writer, parser and
      validator ([vm/TypeDesc.cpp] and their use in the saver and the loader).
    - [Utf8]: the UTF-8 contract of source files ([compiler/Utf8.cpp]) and the
      code point encoder ([runtime/PrimitiveTypes.h]).
    - [ByteIO], [ModuleRecords], [ModuleSaver], [ModuleLoader]: module images, the binary
      streams they are written to and read from, and the whole record format
      ([vm/ModuleSaver*.cpp], [ModuleLoader*.cpp], [nlang/vm/CompiledModuleRecords.h]);
      [ModuleFile] and [ModuleImage] relate the two sides, record by record and for the
      module.  [DefaultExpr]: the grammar of default-value expressions in images and the
      rewriting of their string indices ([nlang/vm/ExprDesc.h]).
    - [Discovery], [DiscoverySpec]: the walk that finds the units of a program from its
      entry file or package ([vm/NcuLoader.cpp]) over a file system given as an argument,
      against reachability along imports.
    - [Linker], [LinkTables], [LinkMerge], [LinkFinal], [LinkSpec], [LinkSafe]: the three
      passes of the linker ([vm/NcuLinker.cpp], [NcuLinkerSlots.cpp],
      [NcuLinkerInterfaces.cpp]), the invariant of the merged tables, import resolution,
      the final rewriting, the theorems on a link that succeeds, and the failures.
      [DiscoveryLink] composes discovery with the linker.
    Values:
    - [Prims]: the registry of scalar kinds, arithmetic, comparison, casts and the
      numeric opcode handlers ([runtime/PrimitiveTypes.h/.cpp],
      [vm/VmExecutorOpsPrim.cpp]); floats are IEEE 754 through [SpecFloat].
    - [Shards]: the per-carrier free lists both stores allocate from
      ([vm/ShardFreeList.h]).
    - [Strings], [StringsGC], [StringOps]: the string object store with interning
      and lazy concatenation, its mark and sweep, and the string opcodes
      ([vm/VmExecutorStrings.cpp], [VmExecutorOpsStrings.cpp]).
    - [StringText], [StringTextSpec], [StringMethods], [StringMethodSpec]: the methods of
      strings ([vm/IntrinsicsString.cpp]): the functions on texts, the intrinsics on the
      store, and the relation [StringMethodSpec.means] that describes what each promises.
    - [Layout]: instance layouts along the superclass chain
      ([vm/VmClassLayout.cpp]).
    - [Heap]: the object heap, allocation of structs and classes, default values
      and deep copies ([vm/VmExecutorAlloc.cpp], [VmDefaultMaterializer.cpp]).
      [AllocGrow]: what an allocation leaves unchanged, the string store included.
    - [HeapGC], [HeapSweep]: root scans, marking, sweeping and the whole collection
      ([vm/VmExecutorGC.cpp], [VmExecutorGCRoots.cpp],
      [VmExecutorGCContainers.cpp], [VmExecutorGCSweep.cpp]).
    - [Arrays], [ArrayElems]: array and view creation, element addressing and the
      element opcodes ([vm/VmExecutorAlloc.cpp], [VmExecutorOpsArrayN.cpp]).
    - [ArraySlice], [SliceSpec]: slice subscripts, the array downcast checks and
      initializers of dynamic shape ([vm/VmExecutorOpsSlice.cpp],
      [VmExecutorOpsArrayCheck.cpp], [VmExecutorOpsAssemble.cpp]).
    - [Containers], [ContainerSpec], [ContainerSlots]: the side tables of lists and
      dictionaries and their intrinsics ([vm/VmExecutorContainers.cpp],
      [IntrinsicsContainer.cpp]), against mathematical lists and finite maps, and the
      ownership of the side slots across collections.
    - [Serialize], [SerializeWire], [SerializeWrite], [SerializeStep], [SerializeRead],
      [SerializeSpec], [SerializeSafe]: the writers and readers of object graphs with their
      identity tables ([vm/VmExecutorSer.h], [VmExecutorSerArray.h]), the trees a stream
      describes a value with, what a writer puts, how a reader goes from record to record,
      the round trip, and reading bytes from anywhere.
    Execution:
    - [Frames], [FramesSpec]: program tables, lookups by name, the walks along the
      super chain with the loader's check of it, call frames, calls, returns and
      handler entry ([vm/CallFrame.h], [VmExecutorFrames.cpp], [CompiledModule.h],
      [VmExecutorOpsObjects.cpp], [ModuleLoaderRecordsClasses.cpp]).
    - [Objects], [ObjectSpec]: fields, static access, boxes, casts, constants, moves and
      function handles ([vm/VmExecutorOpsObjects.cpp], [VmExecutorOpsControl.cpp],
      [VmExecutorOpsCalls.cpp]).
    - [Exec]: the instruction switch, the frame loop, the call opcodes and exceptions as
      computations on the state of one carrier ([vm/VmExecutorOps.cpp],
      [VmExecutorOpsCalls.cpp], [VmExecutorOpsControl.cpp], [VmExecutor.cpp]); what it
      calls out to is the class [Exec.Services], whose laws are
      [ExecTypes.ServicesOk]: a service that returns or throws an exception of the program
      leaves the frames it was called from; at any other throw the stack may be empty.
      [ExecTypes] follows the typing of frames through every opcode; [ExecSpec] has the
      theorems about windows and handlers.
    Concurrency:
    - [GcStop]: the rendezvous that stops every executing thread for a collection
      ([vm/GcWorldStop.cpp]), as a step relation over threads and the set of those asleep
      on the condition variable.
    - [SchedState], [Sched], [SchedSpec]: contexts, run queue, dispatch, parking and
      waking, joins, timers, promises, I/O waits and the condition variable
      ([vm/VmScheduler.cpp], [VmSchedulerSync.cpp], [VmSchedulerJoin.cpp],
      [VmSchedulerTimer.cpp], [VmSchedulerIo.cpp]).
    - [SyncPrims], [SyncSpec]: mutexes, reentrant mutexes, semaphores, atomic
      integers and their side tables ([vm/IntrinsicsMutex.cpp],
      [IntrinsicsSemaphore.cpp], [IntrinsicsAtomic.cpp]).
    - [StaticInit], [StaticInitSpec]: lazy static initialization, one state machine
      per owner and per static local ([vm/VmStaticSlots.h/.cpp],
      [VmExecutorOpsStaticInit.cpp]), as a step per atomic access.
    - [Channels], [ChannelSpec]: channels ([vm/IntrinsicsChannel.cpp]).
    - [ParkIface]: what the parking protocol uses of a primitive ([ParkPrim]) and
      relies on ([ParkPrimLaws]); the primitives are instances.
    - [ParkProto], [ParkSpec]: the protocol that carriers, contexts, primitives and
      the scheduler follow together, as a step relation with one step per critical
      section; [SyncCalls]: the intrinsics from the receiver to the scheduler, which
      implement it.

    The compiler emits bytecode and descriptors, the saver writes them to units, the
    packer puts units into archives, the linker merges units and remaps operands, and
    the executor runs the result.  Opcode handlers take their operands from a
    [Bytecode.reader] and their values from the bytes of the running frame; handles
    in the frame index the string store ([Strings.StringStore]) or the object heap
    ([Heap.heap], which contains the string store because allocation pressure and
    the collector span both).

    ** Conventions

    Every fallible C++ function returns an [outcome]: [Ok], or [Raise] of a
    catchable exception, an uncatchable runtime error, or undefined behaviour
    ([OutOfBounds], [Undefined]), which the theorems exclude.  State is passed
    explicitly.  Machine integers are [Z] with their wrap-around written as [u8],
    [u16], [i32], [i64].  Memory is a list of bytes, a heap record a list of 32-bit
    cells.  The free list to allocate from (the shard of the calling carrier) is an
    argument; store operations are atomic, as the domain locks make them.

    ** What the theorems show

    - Formats: the reader inverts the emitter; packages and type descriptors round
      trip; the descriptor parser accepts exactly what the writer produces; the
      member table of an arbitrary package image is read in bounds; a module within its
      bounds is saved and loaded back unchanged, what the loader accepts has the bounds and
      indices it checks (which ones it does not check is
      [ModuleImage.static_references_unchecked]), a truncated image is refused with a
      message, and every failure is one, but for a bool read from a byte that is neither 0
      nor 1 ([ModuleImage]).
    - Linking: the byte walk computes a map over the instructions and keeps the code
      length, the instruction boundaries and the line map; the closure a program loads is
      exactly what its imports reach, those of static slots excepted, which the code does not
      follow, and the walk ends on import cycles; a link that succeeds keeps every reference
      of every unit and leaves no import, merges only what it may, and leaves no name twice
      (units name an interface once; [LinkSafe.repeated_interface_remapped_twice] is what
      happens otherwise); a link of valid units with assembled code fails only with a message
      or the [std::out_of_range] of a missing type entry, and reads no table out of bounds
      because validation came first ([LinkSafe.unvalidated_tables_overread]); the
      string indices inside default values are rewritten and nothing else in them is.
    - Scalars: integer operations are exact arithmetic modulo the width; division,
      shift and conversion behave as documented on every branch.
    - Strings: minting, concatenation, reading and equality against an abstract
      content ([Strings.reads]); iteration and comparison by code point; every string
      method against a description of it that leaves no choice, the number parsers by a
      grammar of the texts they accept and for texts without a NUL.
    - Memory: allocation returns fresh slots and leaves every live record unchanged;
      deep copies share no struct; marking is exact reachability along the edges of a record
      as its kind and layout give them, written without the collector's code
      ([HeapGC.MarkPhase_spec]); a collection keeps what the roots reach, but for the structs
      that a dead record also owns: the sweep releases those unseen
      ([SliceSpec.materialized_struct_freed]), and whatever it releases was unreachable or
      owned by a record that was.
    - Serialization: a graph written and read back is the same graph, sharing and cycles
      included, in new records; any bytes at all are read in bounds.
    - Arrays: one description ([ArrayElems.array_ref]) covers owned arrays and views;
      view creation accepts exactly the maps that stay inside the owner; loads and
      stores touch exactly the addressed element; a slice subscript is the view of
      the positions it enumerates, negative steps and views of views included.
    - Containers: every list and dictionary intrinsic does what the operation does on a
      list or on a finite map with its keys in order, boxed values compared by content, a
      NaN by its bits too ([ContainerSpec.nan_found_by_bits]); no two live instances share a
      side slot, over any history of calls, sweeps and steps that make no instance with a
      handle, as long as no slot is on a free list twice.
    - Execution: a call stages its parameters and a return writes back exactly the marked
      slots; class walks are membership and nearest override on every module the loader
      accepts with at most 32768 classes ([FramesSpec.row_32768_no_instance]); no instruction
      breaks the frames of a window or their bound, and a window gives the stack back, unless
      it ends in a throw the program cannot catch, which may leave it empty; an exception
      reaches the first matching handler of the innermost frame; what is boxed or stored in a static slot comes back.
    - Rendezvous: while the collector runs nobody executes; no tripwire fires; in a run
      where no thread that can move is forgotten forever, every stop ends and every waiter
      returns (one that waits to begin executing, once stops cease), which takes the
      notification of [Complete] ([GcStop]).
    - Scheduler: expiry, completion, promises and dispatch as specified; no operation of
      [SchedSpec.sched_op] leaves a sleeping carrier un-notified with a true predicate, which
      [MarkBlockedNative] and [WakeIoWaitersForFd] do ([SchedSpec]).
    - Primitives: permits (short of an int32_t overflow, [SyncSpec.release_overflows]),
      nested holds and increments are accounted for; a channel
      is a bounded first-in first-out queue over any history ([SyncSpec],
      [ChannelSpec]).
    - Static initialization: an initializer runs at most once at a time and never
      again after it succeeded; waiters of a gate are woken, by death too.
    - Parking: in every interleaving, mutual exclusion holds, wakes reach the park
      they were granted for, none is lost, the queue holds exactly what may run, and
      when everything is still whoever waits has a reason ([ParkSpec]).
    - Some theorems state defects found on the way ([HeapSweep.sweep_double_free],
      [SliceSpec.materialized_struct_freed], [SerializeSpec.list_read_back_shares_slot],
      [ContainerSpec.nan_found_by_bits], [SyncSpec.release_overflows],
      [FramesSpec.row_32768_no_instance], [LinkSafe.repeated_interface_remapped_twice],
      [ArrayElems.empty_array_stride_overflow], [SliceSpec.slice_count_overflow],
      [StaticInitSpec.carrierless_gate_passes],
      [Remap.AllocArrayDyn_type_not_remapped], [Package.entry_record_lost],
      [Package.header_read_out_of_bounds], [TypeDesc.wide_func_rejected],
      [ModuleImage.many_catches_unloadable], [ModuleImage.static_references_unchecked],
      [SchedSpec.nested_pump_loses_outer_token],
      [SchedSpec.MarkBlockedNative_lost_wakeup],
      [SchedSpec.WakeIoWaitersForFd_lost_wakeup], [SchedSpec.Reset_keeps_io_waits],
      [ExecSpec.rethrow_of_collected_object], [ExecSpec.null_throw_uncaught],
      [FramesSpec.cast_stops_at_class_zero], [LinkSafe.cut_code_overread],
      [LinkSafe.superclass_wraps], [DiscoveryLink.static_slot_import_not_followed],
      [StringTextSpec.number_then_nul_accepted]).

    ** Bounds and fuel

    Loops that are not structural carry fuel with a proved sufficient value: the code
    length for bytecode walks (every instruction has at least one byte), the store
    size for marking (each object is enqueued once), the class count for the super
    chain, the nesting depth of struct types for allocation, copy and release
    ([Heap.nests]), the number of nodes for reading a lazy string, and the code's
    own depth caps for type descriptors and serialized graphs (there as the number of levels
    left below the limit).  A class walk takes at most as many steps as the
    table has rows ([Frames.walk_fuel]).  The closure walk takes one turn per unit, of which
    there are at most as many as modules the file system serves ([DiscoverySpec]); the loops
    of [split] and [replace] consume a separator, and that of [charCount] a byte, in each
    turn, so the length of the text is enough.  A script may run forever: [Exec.DispatchFrames]
    counts turns and says when it has not finished, and its theorems hold for any count.

    The concurrent parts use no fuel: a waiting loop is a step that may be taken
    again, and the end of a stop is proved for infinite runs that are fair.

    ** Not modelled

    Formatting and file streams, the [toString] of containers, the descriptors of generic
    instances, the thread intrinsics.  Of the executor: the debugger, the text
    of uncaught errors, the bodies of native functions and the text of scalars and arrays;
    an exception raised by an opcode is raised in the state before the opcode, so a lazy
    string it had flattened is lazy again.  Of the scheduler: lock
    contention counters, thread creation, and the kernel poller.  Weak memory is
    outside: a critical section is atomic, as the locks make it.  The parser, the code
    generator, the debugger, native libraries, operating system I/O, the embedding
    interface and the tools are out of scope: generated tables, foreign code or user
    interface. *)
From stdpp Require Export base list gmap strings numbers.
From Stdlib Require Import ZArith Lia.

#[global] Set Default Goal Selector "!".
Open Scope Z_scope.

(** ** Errors

    The virtual machine fails in three ways: a catchable NLang exception
    (RaiseNlangException with the index of an exception class), an uncatchable
    C++ [std::runtime_error], and a [std::terminate] tripwire.  [OutOfRange] is the
    [std::out_of_range] that [at] of a map throws, which says nothing about the image at
    fault.  [OutOfBounds] is
    a C++ out-of-range memory access, which the language leaves undefined; the
    model makes it an explicit outcome so that the theorems can exclude it.
    [Undefined] is another operation C++ leaves undefined (a float to integer
    conversion out of range).  [OutOfFuel] marks a bounded loop of the model that did not finish; the
    termination theorems exclude it. *)
Inductive exc_class :=
  | ExcBase | ExcNullPtr | ExcDivZero | ExcOob | ExcAssert | ExcIO
  | ExcInvalidCast | ExcInit | ExcChannelClosed.

Inductive vm_error :=
  | NlangExc (c : exc_class) (msg : string)
  | RuntimeError (msg : string)
  | Terminate (what : string)
  | OutOfRange
  | OutOfBounds
  | Undefined (what : string)
  | OutOfFuel.

Inductive outcome (A : Type) :=
  | Ok (a : A)
  | Raise (e : vm_error).
Arguments Ok {A} a.
Arguments Raise {A} e.

#[export] Instance exc_class_eq_dec : EqDecision exc_class.
Proof. solve_decision. Defined.
#[export] Instance vm_error_eq_dec : EqDecision vm_error.
Proof. solve_decision. Defined.
#[export] Instance outcome_eq_dec {A} `{EqDecision A} : EqDecision (outcome A).
Proof. solve_decision. Defined.

#[export] Instance outcome_ret : MRet outcome := @Ok.
#[export] Instance outcome_bind : MBind outcome :=
  λ A B f m, match m with Ok a => f a | Raise e => Raise e end.
#[export] Instance outcome_fmap : FMap outcome :=
  λ A B f m, match m with Ok a => Ok (f a) | Raise e => Raise e end.

Definition is_Ok {A} (m : outcome A) : Prop := match m with Ok _ => True | Raise _ => False end.

(** [check b e]: the C++ shape [if (!b) raise e;]. *)
Definition check (b : bool) (e : vm_error) : outcome unit :=
  if b then Ok tt else Raise e.

(** A C++ read through a pointer or an unchecked [operator[]]. *)
Definition deref {A} (o : option A) : outcome A :=
  match o with Some a => Ok a | None => Raise OutOfBounds end.

(** Run [f] over a list from left to right, stopping at the first error. *)
Fixpoint foldM {S A} (f : S → A → outcome S) (s : S) (l : list A) : outcome S :=
  match l with
  | [] => Ok s
  | a :: l => s' ← f s a; foldM f s' l
  end.

Lemma bind_Ok {A B} (m : outcome A) (f : A → outcome B) b :
  (x ← m; f x) = Ok b ↔ ∃ a, m = Ok a ∧ f a = Ok b.
Proof. destruct m; simpl; naive_solver. Qed.

Lemma bind_Raise {A B} (m : outcome A) (f : A → outcome B) e :
  (x ← m; f x) = Raise e ↔ m = Raise e ∨ ∃ a, m = Ok a ∧ f a = Raise e.
Proof. destruct m; simpl; naive_solver. Qed.

(** Computation rules of the monad, for rewriting where [simpl] would unfold
    too much. *)
Lemma bindE {A B} (a : A) (f : A → outcome B) : (x ← Ok a; f x) = f a.
Proof. done. Qed.
Lemma bindE_Raise {A B} e (f : A → outcome B) : (x ← Raise e; f x) = Raise e.
Proof. done. Qed.
Lemma bind_step {A B} (m : outcome A) (f : A → outcome B) a r :
  m = Ok a → f a = r → (x ← m; f x) = r.
Proof. intros ->. done. Qed.
Lemma derefE {A} (a : A) : deref (Some a) = Ok a.
Proof. done. Qed.

Lemma check_Ok b e u : check b e = Ok u ↔ b = true.
Proof. destruct b, u; simpl; naive_solver. Qed.

Lemma deref_Ok {A} (o : option A) a : deref o = Ok a ↔ o = Some a.
Proof. destruct o; simpl; naive_solver. Qed.

Lemma foldM_app {S A} (f : S → A → outcome S) s l1 l2 :
  foldM f s (l1 ++ l2) = (s' ← foldM f s l1; foldM f s' l2).
Proof.
  revert s; induction l1 as [|a l1 IH]; intros s; [done|]. simpl.
  destruct (f s a); [apply IH|done].
Qed.

(** An invariant of the step is an invariant of the loop. *)
Lemma foldM_ind {S A} (P : S → Prop) (f : S → A → outcome S) l :
  (∀ s a s', a ∈ l → P s → f s a = Ok s' → P s') →
  ∀ s s', P s → foldM f s l = Ok s' → P s'.
Proof.
  induction l as [|a l IH]; intros Hstep s s' HP Hrun; simpl in *; [by simplify_eq|].
  apply bind_Ok in Hrun as (s1 & Hf & Hrun).
  eapply (IH (λ s a s' Hin, Hstep s a s' (list_elem_of_further _ _ _ Hin)));
    [|exact Hrun].
  eapply Hstep; [apply list_elem_of_here|done..].
Qed.

(** Destructs every monadic hypothesis into its successful steps. *)
Ltac monad_inv :=
  repeat match goal with
  | H : mbind _ _ = Ok _ |- _ => apply bind_Ok in H as (? & ? & ?)
  | H : check _ _ = Ok _ |- _ => apply check_Ok in H
  | H : deref _ = Ok _ |- _ => apply deref_Ok in H
  | H : Ok _ = Ok _ |- _ => injection H as H
  | H : Raise _ = Ok _ |- _ => discriminate H
  | H : (let '(_, _) := ?p in _) = Ok _ |- _ => destruct p
  end; simplify_eq.

(** Case analysis on the decisions and booleans of the goal. *)
Ltac cases_if :=
  repeat first [case_decide | case_match]; simplify_eq; try done.

(** A loop that appends [g i] for each [i]. *)
Lemma foldM_append {A B} (f : A → outcome B) (g : A → B) out l :
  (∀ i, i ∈ l → f i = Ok (g i)) →
  foldM (λ out i, e ← f i; Ok (out ++ [e])) out l = Ok (out ++ (g <$> l)).
Proof.
  revert out. induction l as [|i l IH]; intros out H; [simpl; by rewrite app_nil_r|].
  cbn [foldM]. rewrite (H i ltac:(left)), !bindE, IH by (intros; apply H; by right).
  by rewrite <- app_assoc.
Qed.

(** A counting loop that keeps an invariant runs to its end. *)
Lemma foldM_seq_inv {S} (f : S → nat → outcome S) (I : nat → S → Prop) n : ∀ a s,
  I a s → (∀ k s, (a ≤ k < a + n)%nat → I k s → ∃ s', f s k = Ok s' ∧ I (Datatypes.S k) s') →
  ∃ s', foldM f s (seq a n) = Ok s' ∧ I (a + n)%nat s'.
Proof.
  induction n as [|n IH]; intros a s Ha Hstep; [exists s; by rewrite Nat.add_0_r|].
  destruct (Hstep a s ltac:(lia) Ha) as (s1 & E & H1). cbn [seq foldM]. rewrite E.
  destruct (IH (Datatypes.S a) s1 H1) as (s' & E' & H'); [intros; apply Hstep; [lia|done]|].
  exists s'. rewrite Nat.add_succ_r. by split.
Qed.

(** ** Machine integers *)

Definition wrap (w z : Z) : Z := z mod 2 ^ w.
Definition swrap (w z : Z) : Z := (z + 2 ^ (w - 1)) mod 2 ^ w - 2 ^ (w - 1).

Abbreviation u8 := (wrap 8).
Abbreviation u16 := (wrap 16).
Abbreviation u32 := (wrap 32).
Abbreviation u64 := (wrap 64).
Abbreviation i8 := (swrap 8).
Abbreviation i16 := (swrap 16).
Abbreviation i32 := (swrap 32).
Abbreviation i64 := (swrap 64).

Definition INT32_MIN : Z := -2147483648.
Definition INT32_MAX : Z := 2147483647.
Definition is_int32 (z : Z) : Prop := INT32_MIN ≤ z ≤ INT32_MAX.
Definition is_uint (w z : Z) : Prop := 0 ≤ z < 2 ^ w.
Definition is_sint (w z : Z) : Prop := - 2 ^ (w - 1) ≤ z < 2 ^ (w - 1).
#[export] Instance is_uint_dec w z : Decision (is_uint w z).
Proof. unfold is_uint. apply _. Defined.
#[export] Instance is_sint_dec w z : Decision (is_sint w z).
Proof. unfold is_sint. apply _. Defined.
#[export] Instance is_int32_dec z : Decision (is_int32 z).
Proof. unfold is_int32. apply _. Defined.

Lemma wrap_range w z : 0 ≤ w → is_uint w (wrap w z).
Proof. intros. apply Z.mod_pos_bound, Z.pow_pos_nonneg; lia. Qed.

Lemma wrap_small w z : is_uint w z → wrap w z = z.
Proof. apply Z.mod_small. Qed.

Lemma pow2_half w : 0 < w → 2 ^ w = 2 * 2 ^ (w - 1).
Proof. intros. rewrite <- Z.pow_succ_r by lia. f_equal; lia. Qed.

Lemma swrap_range w z : 0 < w → is_sint w (swrap w z).
Proof.
  intros. unfold is_sint, swrap. pose proof (pow2_half w ltac:(lia)).
  assert (0 < 2 ^ w) by (apply Z.pow_pos_nonneg; lia).
  pose proof (Z.mod_pos_bound (z + 2 ^ (w - 1)) (2 ^ w)). lia.
Qed.

Lemma swrap_small w z : 0 < w → is_sint w z → swrap w z = z.
Proof.
  unfold is_sint, swrap. intros. pose proof (pow2_half w ltac:(lia)).
  rewrite Z.mod_small; lia.
Qed.

(** [swrap] only depends on the residue. *)
Lemma swrap_wrap w z : swrap w (wrap w z) = swrap w z.
Proof. unfold swrap, wrap. by rewrite Zplus_mod_idemp_l. Qed.

Lemma wrap_swrap w z : 0 < w → wrap w (swrap w z) = wrap w z.
Proof.
  intros. unfold swrap, wrap. rewrite Zminus_mod_idemp_l. f_equal; lia.
Qed.

Lemma swrap_mod_eq w a b : wrap w a = wrap w b → swrap w a = swrap w b.
Proof. intros E. by rewrite <- (swrap_wrap w a), E, swrap_wrap. Qed.

Create HintDb nlang.
Create Rewrite HintDb nlang.
#[export] Hint Resolve wrap_range swrap_range : nlang.
#[export] Hint Rewrite wrap_small swrap_small using (by auto with nlang) : nlang.

(** ** Little-endian byte sequences; a byte is a [Z] *)

Abbreviation bytes := (list Z).
Definition is_byte (b : Z) : Prop := 0 ≤ b < 256.
#[export] Instance is_byte_dec b : Decision (is_byte b).
Proof. unfold is_byte. apply _. Defined.

Fixpoint le_bytes (n : nat) (v : Z) : bytes :=
  match n with
  | O => []
  | S n => Z.land v 255 :: le_bytes n (Z.shiftr v 8)
  end.

Fixpoint le_value (bs : bytes) : Z :=
  match bs with
  | [] => 0
  | b :: bs => Z.lor b (Z.shiftl (le_value bs) 8)
  end.

Lemma land_255 v : Z.land v 255 = v mod 256.
Proof. change 255 with (Z.ones 8). by rewrite Z.land_ones. Qed.

Lemma land_255_byte v : is_byte (Z.land v 255).
Proof. rewrite land_255. apply Z.mod_pos_bound. lia. Qed.

Lemma shiftr_8 v : Z.shiftr v 8 = v / 256.
Proof. by rewrite Z.shiftr_div_pow2. Qed.

Lemma lor_shiftl_add b v w :
  0 ≤ w → 0 ≤ b < 2 ^ w → Z.lor b (Z.shiftl v w) = b + 2 ^ w * v.
Proof.
  intros Hw Hb. rewrite Z.shiftl_mul_pow2 by lia.
  assert (Z.land b (v * 2 ^ w) = 0) as E.
  { apply Z.bits_inj'; intros n Hn. rewrite Z.land_spec, Z.bits_0.
    destruct (decide (n < w)) as [Hlt|Hge].
    - rewrite Z.mul_pow2_bits_low by lia. apply andb_false_r.
    - replace (Z.testbit b n) with false; [done|].
      symmetry. rewrite <- (Z.mod_small b (2 ^ w)) by lia.
      apply Z.mod_pow2_bits_high; lia. }
  rewrite <- Z.lxor_lor by done. rewrite <- Z.add_nocarry_lxor by done. lia.
Qed.

Lemma length_le_bytes n v : length (le_bytes n v) = n.
Proof. revert v; induction n; intros; simpl; auto. Qed.

Lemma le_bytes_bytes n v : Forall is_byte (le_bytes n v).
Proof. revert v; induction n; intros; simpl; auto using land_255_byte. Qed.

Lemma le_value_bytes n v : le_value (le_bytes n v) = v mod 2 ^ (8 * Z.of_nat n).
Proof.
  revert v; induction n as [|n IH]; intros v; simpl le_bytes; simpl le_value.
  - by rewrite Z.mod_1_r.
  - pose proof (land_255_byte v) as Hb. unfold is_byte in Hb.
    rewrite IH, lor_shiftl_add by (try lia; done).
    rewrite land_255, shiftr_8.
    replace (8 * Z.of_nat (S n)) with (8 + 8 * Z.of_nat n) by lia.
    rewrite Z.pow_add_r by lia. change (2 ^ 8) with 256.
    by rewrite Z.rem_mul_r by (try lia; apply Z.pow_nonzero; lia).
Qed.

Lemma le_value_bound bs :
  Forall is_byte bs → 0 ≤ le_value bs < 2 ^ (8 * Z.of_nat (length bs)).
Proof.
  induction 1 as [|b bs Hb _ IH]; [done|]. simpl length.
  replace (8 * Z.of_nat (S (length bs))) with (8 + 8 * Z.of_nat (length bs)) by lia.
  rewrite Z.pow_add_r by lia. unfold is_byte in Hb. simpl le_value.
  rewrite lor_shiftl_add by (try lia; done). change (2 ^ 8) with 256. nia.
Qed.

Lemma le_bytes_value bs :
  Forall is_byte bs → le_bytes (length bs) (le_value bs) = bs.
Proof.
  induction 1 as [|b bs Hb Hbs IH]; [done|]. simpl. unfold is_byte in Hb.
  rewrite lor_shiftl_add by (try lia; done). change (2 ^ 8) with 256.
  f_equal.
  - rewrite land_255. rewrite Z.mul_comm, Z.mod_add by lia. by apply Z.mod_small.
  - rewrite shiftr_8. rewrite Z.mul_comm, Z.div_add by lia.
    rewrite Z.div_small by lia. by rewrite Z.add_0_l.
Qed.

#[export] Hint Rewrite length_le_bytes : nlang.
#[export] Hint Resolve land_255_byte le_bytes_bytes : nlang.

(** ** Lists: slices, in-place writes, and searches *)

(** [n] consecutive elements from [i], or [None] when they run off the end. *)
Definition slice {A} (i n : nat) (l : list A) : option (list A) :=
  if decide (i + n ≤ length l)%nat then Some (take n (drop i l)) else None.

Lemma slice_app_mid {A} (l1 l2 l3 : list A) :
  slice (length l1) (length l2) (l1 ++ l2 ++ l3) = Some l2.
Proof.
  unfold slice. rewrite !length_app, decide_True by lia.
  by rewrite drop_app_length, take_app_length.
Qed.

Lemma slice_Some {A} i n (l s : list A) :
  slice i n l = Some s ↔ ∃ l1 l3, l = l1 ++ s ++ l3 ∧ length l1 = i ∧ length s = n.
Proof.
  split.
  - unfold slice. case_decide; [|done]. intros [= <-].
    exists (take i l), (drop n (drop i l)).
    rewrite length_take, length_take, length_drop, !take_drop.
    split; [done|]. lia.
  - intros (l1 & l3 & -> & <- & <-). apply slice_app_mid.
Qed.

Lemma slice_length {A} i n (l s : list A) : slice i n l = Some s → length s = n.
Proof. intros (? & ? & _ & _ & ?)%slice_Some. done. Qed.

(** Signed index, as the C++ code uses [int32_t] positions. *)
Definition zlookup {A} (l : list A) (i : Z) : option A :=
  if decide (0 ≤ i) then l !! Z.to_nat i else None.
Notation "l !!z i" := (zlookup l i) (at level 20, i at level 20).

Lemma zlookup_Some_lt {A} (l : list A) i x :
  l !!z i = Some x → 0 ≤ i < Z.of_nat (length l).
Proof.
  unfold zlookup. case_decide; [|done]. intros ?%lookup_lt_Some. lia.
Qed.

Lemma zlookup_is_Some {A} (l : list A) i :
  0 ≤ i < Z.of_nat (length l) → is_Some (l !!z i).
Proof. intros. unfold zlookup. rewrite decide_True by lia. apply lookup_lt_is_Some. lia. Qed.

(** Reflect a list search for the first element with a property. *)
Lemma list_find_index_lt {A} (P : A → Prop) `{∀ x, Decision (P x)} l i x :
  list_find P l = Some (i, x) → (i < length l)%nat ∧ l !! i = Some x ∧ P x.
Proof.
  intros (Hi & HP & _)%list_find_Some. split; [by eapply lookup_lt_Some|done].
Qed.

(** ** Parsing positions

    [occurs img pos bs]: the bytes [bs] stand at offset [pos] of [img]. *)
Definition occurs {A} (img : list A) (pos : nat) (bs : list A) : Prop :=
  ∃ pre post, img = pre ++ bs ++ post ∧ pos = length pre.

Lemma occurs_app {A} (img : list A) pos bs1 bs2 :
  occurs img pos (bs1 ++ bs2) →
  occurs img pos bs1 ∧ occurs img (pos + length bs1) bs2.
Proof.
  intros (pre & post & -> & ->). split.
  - exists pre, (bs2 ++ post). by rewrite <- app_assoc.
  - exists (pre ++ bs1), post. rewrite length_app, <- !app_assoc. done.
Qed.

Lemma occurs_whole {A} (img : list A) : occurs img 0 img.
Proof. exists [], []. by rewrite app_nil_r. Qed.

Lemma occurs_length {A} (img : list A) pos bs :
  occurs img pos bs → (pos + length bs ≤ length img)%nat.
Proof. intros (pre & post & -> & ->). rewrite !length_app. lia. Qed.

Lemma occurs_weaken {A} (img tail : list A) pos bs :
  occurs img pos bs → occurs (img ++ tail) pos bs.
Proof.
  intros (pre & post & -> & ->). exists pre, (post ++ tail). by rewrite <- !app_assoc.
Qed.

Lemma occurs_slice {A} (img : list A) pos bs :
  occurs img pos bs → slice pos (length bs) img = Some bs.
Proof. intros (pre & post & -> & ->). apply slice_app_mid. Qed.

Lemma occurs_take_drop {A} (img : list A) pos bs :
  occurs img pos bs → take (length bs) (drop pos img) = bs.
Proof.
  intros (pre & post & -> & ->). by rewrite drop_app_length, take_app_length.
Qed.

Lemma occurs_lookup {A} (img : list A) pos b bs :
  occurs img pos (b :: bs) → img !! pos = Some b.
Proof.
  intros (pre & post & -> & ->). by rewrite lookup_app_r, Nat.sub_diag by lia.
Qed.

(** ** Byte-addressed storage: [T] at an offset, as [memcpy] reads and writes it *)
Definition load (n : nat) (mem : bytes) (off : nat) : outcome Z :=
  bs ← deref (slice off n mem); Ok (le_value bs).
Definition store (n : nat) (mem : bytes) (off : nat) (v : Z) : outcome bytes :=
  if decide (off + n ≤ length mem)%nat
  then Ok (take off mem ++ le_bytes n v ++ drop (off + n) mem)
  else Raise OutOfBounds.

Lemma load_ok n mem off :
  (off + n ≤ length mem)%nat → load n mem off = Ok (le_value (take n (drop off mem))).
Proof. intros H. unfold load, slice. by rewrite decide_True by lia. Qed.

Lemma load_bound n mem off v :
  Forall is_byte mem → load n mem off = Ok v → is_uint (8 * Z.of_nat n) v.
Proof.
  intros Hm. unfold load, slice. case_decide as H; [|done]. intros [= <-].
  pose proof (le_value_bound (take n (drop off mem))) as B.
  rewrite length_take, length_drop in B. replace (n `min` _)%nat with n in B by lia.
  apply B. by apply Forall_take, Forall_drop.
Qed.

Lemma store_length n mem off v mem' :
  store n mem off v = Ok mem' → length mem' = length mem.
Proof.
  unfold store. case_decide as H; [|done]. intros [= <-].
  rewrite !length_app, length_take, length_drop, length_le_bytes. lia.
Qed.

Lemma store_bytes n mem off v mem' :
  Forall is_byte mem → store n mem off v = Ok mem' → Forall is_byte mem'.
Proof.
  intros Hm. unfold store. case_decide; [|done]. intros [= <-].
  rewrite !Forall_app. split_and!; [by apply Forall_take|apply le_bytes_bytes|by apply Forall_drop].
Qed.

Lemma load_store_same n mem off v mem' :
  store n mem off v = Ok mem' → load n mem' off = Ok (v mod 2 ^ (8 * Z.of_nat n)).
Proof.
  unfold store. case_decide as H; [|done]. intros [= <-].
  unfold load. rewrite <- (length_le_bytes n v) at 1.
  rewrite <- (length_take_le mem off) at 1 by lia.
  rewrite slice_app_mid, derefE, bindE, le_value_bytes. done.
Qed.

(** A read that does not overlap the write. *)
Lemma load_store_other n n' mem off off' v mem' :
  store n mem off v = Ok mem' → (off' + n' ≤ off ∨ off + n ≤ off')%nat →
  load n' mem' off' = load n' mem off'.
Proof.
  intros Hs Hd. pose proof (store_length _ _ _ _ _ Hs) as Hl.
  unfold store in Hs. case_decide as H; [|done]. injection Hs as <-.
  unfold load, slice in *. rewrite Hl. case_decide; [|done].
  enough (take n' (drop off' (take off mem ++ le_bytes n v ++ drop (off + n) mem))
    = take n' (drop off' mem)) as -> by done.
  apply list_eq. intros i.
  destruct (decide (i < n')%nat); [|by rewrite !lookup_take_ge by lia].
  rewrite !lookup_take_lt, !lookup_drop by lia.
  destruct Hd as [Hd|Hd].
  - rewrite lookup_app_l by (rewrite length_take; lia). by rewrite lookup_take_lt by lia.
  - rewrite lookup_app_r by (rewrite length_take; lia).
    rewrite lookup_app_r by (rewrite length_take, length_le_bytes; lia).
    rewrite lookup_drop, length_take, length_le_bytes. f_equal. lia.
Qed.
