(* ===== verification/Bytecode.v ===== *)
(** * Bytecode: opcodes, instruction extents, emitter, reader

    Models [src/src/vm/BytecodeOps.h] (the opcode enumeration with its operand
    shapes and the [InstructionStride] table), [OpCodeTable.cpp],
    [BytecodeEmitter.h], [BytecodeReader.h] and [DisassemblerWalk.cpp].  An
    instruction is an opcode byte followed by its little-endian operands. *)
From S2P Require Import Prelude.
Open Scope Z_scope.

Inductive OpCode :=
  | OP_Return | OP_Jump | OP_JumpIfNot | OP_Stop | OP_AssertFail
  | OP_ConstInt32 | OP_ConstFloat | OP_ConstString | OP_ConstZero
  | OP_ConstInt64 | OP_ConstDouble | OP_VarLocal | OP_Assign | OP_PrimCast
  | OP_Prim_to_str | OP_Enum_to_str | OP_Array_to_str | OP_Add | OP_Sub
  | OP_Mul | OP_Div | OP_Mod | OP_Neg | OP_Cmp | OP_LogicalNot | OP_CallFunc
  | OP_ParaEnd | OP_Switch | OP_Case | OP_Concat_str | OP_Eq_str | OP_Ne_str
  | OP_Less_str | OP_LessEqual_str | OP_Greater_str | OP_GreaterEqual_str
  | OP_StrLen | OP_DebugInfo | OP_AllocStruct | OP_LoadField | OP_StoreField
  | OP_CopyStruct | OP_New | OP_CallMethod | OP_CallMethodDirect
  | OP_CallIntrinsic | OP_NullCheck | OP_AllocArrayN | OP_LoadElementN
  | OP_StoreElementN | OP_AssembleArrayN | OP_LoadElementFlat
  | OP_ArrayLength | OP_ArrayShape | OP_MakeArrayView | OP_Box | OP_Unbox
  | OP_CheckCast | OP_Throw | OP_Rethrow | OP_PopHandler | OP_CallFuncOut
  | OP_CallMethodDirectOut | OP_MakeFunc | OP_CallDelegate | OP_Eq_func
  | OP_Ne_func | OP_Func_to_str | OP_MakeBoundFunc | OP_MakeVFunc
  | OP_CallDelegateOut | OP_StrByteAt | OP_StrForeachStep | OP_Shl | OP_Shr
  | OP_LoadStatic | OP_StoreStatic | OP_ClassInitGate | OP_ClassInitDone
  | OP_ClassInitFail | OP_SlotInitGate | OP_SlotInitDone | OP_SlotInitFail
  | OP_CheckArrayRank | OP_CheckArrayType | OP_LoadElementDyn
  | OP_StoreElementDyn | OP_AllocArrayDyn.

Definition all_ops : list OpCode :=
  [OP_Return; OP_Jump; OP_JumpIfNot; OP_Stop; OP_AssertFail; OP_ConstInt32;
   OP_ConstFloat; OP_ConstString; OP_ConstZero; OP_ConstInt64;
   OP_ConstDouble; OP_VarLocal; OP_Assign; OP_PrimCast; OP_Prim_to_str;
   OP_Enum_to_str; OP_Array_to_str; OP_Add; OP_Sub; OP_Mul; OP_Div; OP_Mod;
   OP_Neg; OP_Cmp; OP_LogicalNot; OP_CallFunc; OP_ParaEnd; OP_Switch;
   OP_Case; OP_Concat_str; OP_Eq_str; OP_Ne_str; OP_Less_str;
   OP_LessEqual_str; OP_Greater_str; OP_GreaterEqual_str; OP_StrLen;
   OP_DebugInfo; OP_AllocStruct; OP_LoadField; OP_StoreField; OP_CopyStruct;
   OP_New; OP_CallMethod; OP_CallMethodDirect; OP_CallIntrinsic;
   OP_NullCheck; OP_AllocArrayN; OP_LoadElementN; OP_StoreElementN;
   OP_AssembleArrayN; OP_LoadElementFlat; OP_ArrayLength; OP_ArrayShape;
   OP_MakeArrayView; OP_Box; OP_Unbox; OP_CheckCast; OP_Throw; OP_Rethrow;
   OP_PopHandler; OP_CallFuncOut; OP_CallMethodDirectOut; OP_MakeFunc;
   OP_CallDelegate; OP_Eq_func; OP_Ne_func; OP_Func_to_str; OP_MakeBoundFunc;
   OP_MakeVFunc; OP_CallDelegateOut; OP_StrByteAt; OP_StrForeachStep; OP_Shl;
   OP_Shr; OP_LoadStatic; OP_StoreStatic; OP_ClassInitGate; OP_ClassInitDone;
   OP_ClassInitFail; OP_SlotInitGate; OP_SlotInitDone; OP_SlotInitFail;
   OP_CheckArrayRank; OP_CheckArrayType; OP_LoadElementDyn;
   OP_StoreElementDyn; OP_AllocArrayDyn].

Definition s_OpCodeNames : list string :=
  ["return"%string; "jump"%string; "jump_if_not"%string; "stop"%string;
   "assert_fail"%string; "const_i32"%string; "const_f32"%string;
   "const_str"%string; "const_zero"%string; "const_i64"%string;
   "const_f64"%string; "var_local"%string; "assign"%string;
   "prim_cast"%string; "prim_to_str"%string; "enum_to_str"%string;
   "array_to_str"%string; "add"%string; "sub"%string; "mul"%string;
   "div"%string; "mod"%string; "neg"%string; "cmp"%string; "not"%string;
   "call"%string; "para_end"%string; "switch"%string; "case"%string;
   "concat_str"%string; "eq_str"%string; "ne_str"%string; "lt_str"%string;
   "le_str"%string; "gt_str"%string; "ge_str"%string; "strlen"%string;
   "debug"%string; "alloc_struct"%string; "load_field"%string;
   "store_field"%string; "copy_struct"%string; "new"%string;
   "call_method"%string; "call_method_direct"%string;
   "call_intrinsic"%string; "null_check"%string; "alloc_array_n"%string;
   "load_element_n"%string; "store_element_n"%string;
   "assemble_array_n"%string; "load_element_flat"%string;
   "array_length"%string; "array_shape"%string; "make_array_view"%string;
   "box"%string; "unbox"%string; "check_cast"%string; "throw"%string;
   "rethrow"%string; "pop_handler"%string; "call_out"%string;
   "call_method_direct_out"%string; "make_func"%string;
   "call_delegate"%string; "eq_func"%string; "ne_func"%string;
   "func_to_str"%string; "make_bound_func"%string; "make_vfunc"%string;
   "call_delegate_out"%string; "str_byte_at"%string;
   "str_foreach_step"%string; "shl"%string; "shr"%string;
   "load_static"%string; "store_static"%string; "class_init_gate"%string;
   "class_init_done"%string; "class_init_fail"%string;
   "slot_init_gate"%string; "slot_init_done"%string; "slot_init_fail"%string;
   "check_array_rank"%string; "check_array_type"%string;
   "load_element_dyn"%string; "store_element_dyn"%string;
   "alloc_array_dyn"%string].

Definition kStrideNoOperands : list OpCode :=
  [OP_Return; OP_Stop; OP_ConstZero; OP_Array_to_str; OP_Func_to_str;
   OP_ParaEnd; OP_Rethrow; OP_PopHandler].

Definition kStrideByteTag : list OpCode :=
  [OP_Prim_to_str; OP_Box; OP_Unbox].

Definition kStrideOneWord : list OpCode :=
  [OP_Jump; OP_Case; OP_ConstString; OP_AssertFail; OP_VarLocal; OP_Assign;
   OP_Enum_to_str; OP_LogicalNot; OP_Switch; OP_DebugInfo; OP_NullCheck;
   OP_CheckCast; OP_Throw; OP_MakeFunc; OP_MakeBoundFunc; OP_MakeVFunc;
   OP_SlotInitDone; OP_SlotInitFail].

Definition kStrideKindWord : list OpCode :=
  [OP_Neg].

Definition kStrideKindByte : list OpCode :=
  [OP_PrimCast].

Definition kStrideTwoWords : list OpCode :=
  [OP_JumpIfNot; OP_Concat_str; OP_Eq_str; OP_Ne_str; OP_Less_str;
   OP_LessEqual_str; OP_Greater_str; OP_GreaterEqual_str; OP_StrLen;
   OP_CallFunc; OP_CallMethod; OP_CallMethodDirect; OP_CallIntrinsic;
   OP_CallDelegate; OP_Eq_func; OP_Ne_func; OP_New; OP_ArrayLength;
   OP_ArrayShape; OP_LoadStatic; OP_StoreStatic; OP_ClassInitDone;
   OP_ClassInitFail; OP_SlotInitGate].

Definition kStrideKindTwoWords : list OpCode :=
  [OP_Add; OP_Sub; OP_Mul; OP_Div; OP_Mod; OP_Shl; OP_Shr].

Definition kStrideThreeWords : list OpCode :=
  [OP_AllocStruct; OP_LoadField; OP_StoreField; OP_CopyStruct;
   OP_LoadElementFlat; OP_StrByteAt; OP_ClassInitGate; OP_CheckArrayRank;
   OP_CheckArrayType; OP_AllocArrayDyn].

Definition kStrideFourWords : list OpCode :=
  [OP_LoadElementN; OP_StoreElementN; OP_LoadElementDyn; OP_StoreElementDyn;
   OP_AssembleArrayN; OP_AllocArrayN; OP_StrForeachStep].

Definition kStrideFiveWords : list OpCode :=
  [OP_MakeArrayView].

Definition kStrideOutMaskWords : list OpCode :=
  [OP_CallFuncOut; OP_CallMethodDirectOut; OP_CallDelegateOut].

Definition kStrideCmpHead : list OpCode :=
  [OP_Cmp].

Definition kStrideConst32 : list OpCode :=
  [OP_ConstInt32; OP_ConstFloat].

Definition kStrideConst64 : list OpCode :=
  [OP_ConstInt64; OP_ConstDouble].

#[export] Instance OpCode_eq_dec : EqDecision OpCode.
Proof. solve_decision. Defined.

(** [static_cast<uint8_t>(op)]: the position in the enumeration. *)
Definition op_index (op : OpCode) : nat :=
  match list_find (op =.) all_ops with Some (i, _) => i | None => 0 end.
Definition op_byte (op : OpCode) : Z := Z.of_nat (op_index op).

(** [static_cast<OpCode>(byte)]: bytes past [OP_Count] name no opcode. *)
Definition op_of_byte (b : Z) : option OpCode := all_ops !!z b.

Definition OpCodeName (b : Z) : string :=
  match s_OpCodeNames !!z b with Some n => n | None => "unknown" end.

(** ** Operand shapes, as documented next to each opcode *)
Inductive width := U8 | U16 | U32 | S32 | S64.
Definition width_bytes (w : width) : nat :=
  match w with U8 => 1 | U16 => 2 | U32 | S32 => 4 | S64 => 8 end.

Definition operand_shape (op : OpCode) : list width :=
  match op with
  | OP_Return | OP_Stop | OP_ConstZero | OP_Array_to_str | OP_ParaEnd
  | OP_Rethrow | OP_PopHandler | OP_Func_to_str => []
  | OP_Prim_to_str | OP_Box | OP_Unbox => [U8]
  | OP_PrimCast => [U8; U8]
  | OP_Jump | OP_AssertFail | OP_ConstString | OP_VarLocal | OP_Assign
  | OP_Enum_to_str | OP_LogicalNot | OP_Switch | OP_Case | OP_DebugInfo
  | OP_NullCheck | OP_CheckCast | OP_Throw | OP_MakeFunc | OP_MakeBoundFunc
  | OP_MakeVFunc | OP_SlotInitDone | OP_SlotInitFail => [U16]
  | OP_Neg => [U8; U16]
  | OP_JumpIfNot | OP_CallFunc | OP_Concat_str | OP_Eq_str | OP_Ne_str
  | OP_Less_str | OP_LessEqual_str | OP_Greater_str | OP_GreaterEqual_str
  | OP_StrLen | OP_New | OP_CallMethod | OP_CallMethodDirect
  | OP_CallIntrinsic | OP_ArrayLength | OP_ArrayShape | OP_CallDelegate
  | OP_Eq_func | OP_Ne_func | OP_LoadStatic | OP_StoreStatic
  | OP_ClassInitDone | OP_ClassInitFail | OP_SlotInitGate => [U16; U16]
  | OP_Add | OP_Sub | OP_Mul | OP_Div | OP_Mod | OP_Shl | OP_Shr =>
      [U8; U16; U16]
  | OP_Cmp => [U8; U8; U16; U16]
  | OP_AllocStruct | OP_LoadField | OP_StoreField | OP_CopyStruct
  | OP_LoadElementFlat | OP_StrByteAt | OP_ClassInitGate | OP_CheckArrayRank
  | OP_CheckArrayType | OP_AllocArrayDyn => [U16; U16; U16]
  | OP_AllocArrayN | OP_LoadElementN | OP_StoreElementN | OP_AssembleArrayN
  | OP_StrForeachStep | OP_LoadElementDyn | OP_StoreElementDyn =>
      [U16; U16; U16; U16]
  | OP_MakeArrayView => [U16; U16; U16; U16; U16]
  | OP_CallFuncOut | OP_CallMethodDirectOut | OP_CallDelegateOut =>
      [U16; U16; U32]
  | OP_ConstInt32 => [S32]
  | OP_ConstFloat => [U32]
  | OP_ConstInt64 | OP_ConstDouble => [S64]
  end.

(** ** The stride table *)
Definition kStrideGroups : list (list OpCode * nat) :=
  [(kStrideNoOperands, 1%nat); (kStrideByteTag, (1 + 1)%nat);
   (kStrideOneWord, (1 + 2)%nat); (kStrideKindWord, (1 + 1 + 2)%nat);
   (kStrideKindByte, (1 + 1 + 1)%nat); (kStrideTwoWords, (1 + 2 + 2)%nat);
   (kStrideKindTwoWords, (1 + 1 + 2 + 2)%nat);
   (kStrideThreeWords, (1 + 2 + 2 + 2)%nat);
   (kStrideFourWords, (1 + 2 + 2 + 2 + 2)%nat);
   (kStrideFiveWords, (1 + 2 + 2 + 2 + 2 + 2)%nat);
   (kStrideOutMaskWords, (1 + 2 + 2 + 4)%nat);
   (kStrideCmpHead, (1 + 1 + 1 + 2 + 2)%nat);
   (kStrideConst32, (1 + 4)%nat); (kStrideConst64, (1 + 8)%nat)].

(** The linear search of [InstructionStride]; [None] is the throw. *)
Fixpoint stride_search (gs : list (list OpCode * nat)) (op : OpCode) : option nat :=
  match gs with
  | [] => None
  | (ops, stride) :: gs =>
      if decide (op ∈ ops) then Some stride else stride_search gs op
  end.

Definition InstructionStride (b : Z) : outcome nat :=
  match op_of_byte b ≫= stride_search kStrideGroups with
  | Some n => Ok n
  | None => Raise (RuntimeError "unknown opcode in disassembler")
  end.

(** ** Emitter *)
Record emitter := Emitter {
  m_bytes : bytes;
  m_stringConstants : list bytes
}.

Definition push (e : emitter) (bs : bytes) : emitter :=
  Emitter (m_bytes e ++ bs) (m_stringConstants e).

Definition Emit (e : emitter) (op : OpCode) : emitter := push e [op_byte op].
Definition EmitByte (e : emitter) (v : Z) : emitter := push e [u8 v].
Definition EmitUint16 (e : emitter) (v : Z) : emitter :=
  push (push e [Z.land v 255]) [Z.land (Z.shiftr v 8) 255].
Definition EmitInt16 (e : emitter) (v : Z) : emitter := EmitUint16 e (u16 v).
(** The bits of a [float]; a float is its 32-bit pattern in this file. *)
Definition EmitFloat (e : emitter) (bits : Z) : emitter := push e (le_bytes 4 bits).
(** [for i < sizeof(int32_t): push (v >> (i*8)) & 0xFF]. *)
Definition EmitInt32 (e : emitter) (v : Z) : emitter := push e (le_bytes 4 v).
Definition EmitInt64 (e : emitter) (v : Z) : emitter := push e (le_bytes 8 v).

(** The search runs over [uint16_t i < static_cast<uint16_t>(size)]. *)
Definition AddStringConstant (e : emitter) (s : bytes) : Z * emitter :=
  let n := u16 (Z.of_nat (length (m_stringConstants e))) in
  match list_find (s =.) (take (Z.to_nat n) (m_stringConstants e)) with
  | Some (i, _) => (Z.of_nat i, e)
  | None =>
      let t := m_stringConstants e ++ [s] in
      (u16 (Z.of_nat (length t) - 1), Emitter (m_bytes e) t)
  end.

Definition PatchUint16 (e : emitter) (off : nat) (v : Z) : outcome emitter :=
  if decide (off + 1 < length (m_bytes e))%nat then
    Ok (Emitter (<[S off := Z.land (Z.shiftr v 8) 255]>
                   (<[off := Z.land v 255]> (m_bytes e)))
                (m_stringConstants e))
  else Raise OutOfBounds.

(** ** Reader *)
Record reader := Reader { m_data : bytes; m_offset : nat }.

Definition ReadByte (r : reader) : outcome (Z * reader) :=
  b ← deref (m_data r !! m_offset r);
  Ok (b, Reader (m_data r) (S (m_offset r))).

Definition ReadUint16 (r : reader) : outcome (Z * reader) :=
  '(lo, r) ← ReadByte r;
  '(hi, r) ← ReadByte r;
  Ok (Z.lor lo (Z.shiftl hi 8), r).

Definition ReadInt16 (r : reader) : outcome (Z * reader) :=
  '(v, r) ← ReadUint16 r; Ok (i16 v, r).

(** The loops [v |= byte << (i*8)], for the 4 and 8 byte immediates. *)
Fixpoint read_le (n : nat) (i v : Z) (r : reader) : outcome (Z * reader) :=
  match n with
  | O => Ok (v, r)
  | S n =>
      '(b, r) ← ReadByte r;
      read_le n (i + 1) (Z.lor v (Z.shiftl b (i * 8))) r
  end.
Definition ReadUint32 (r : reader) : outcome (Z * reader) := read_le 4 0 0 r.
Definition ReadInt32 (r : reader) : outcome (Z * reader) :=
  '(v, r) ← read_le 4 0 0 r; Ok (i32 v, r).
Definition ReadInt64 (r : reader) : outcome (Z * reader) :=
  '(v, r) ← read_le 8 0 0 r; Ok (i64 v, r).
Definition Seek (r : reader) (off : nat) : reader := Reader (m_data r) off.
Definition Eof (r : reader) : bool := bool_decide (length (m_data r) ≤ m_offset r)%nat.
Definition ReadOp (r : reader) : outcome (option OpCode * reader) :=
  '(b, r) ← ReadByte r; Ok (op_of_byte b, r).

(** ** Instructions: an opcode with the operand values of its shape *)
Record instr := Instr { i_op : OpCode; i_args : list Z }.
#[export] Instance instr_eq_dec : EqDecision instr.
Proof. solve_decision. Defined.

Definition in_width (w : width) (v : Z) : Prop :=
  match w with
  | U8 => is_uint 8 v | U16 => is_uint 16 v | U32 => is_uint 32 v
  | S32 => is_sint 32 v | S64 => is_sint 64 v
  end.
#[export] Instance in_width_dec w v : Decision (in_width w v).
Proof. destruct w; simpl; apply _. Defined.

Definition wf_instr (i : instr) : Prop :=
  Forall2 in_width (operand_shape (i_op i)) (i_args i).
#[export] Instance wf_instr_dec i : Decision (wf_instr i).
Proof. unfold wf_instr. apply _. Defined.

Fixpoint enc_operands (ws : list width) (args : list Z) : bytes :=
  match ws, args with
  | w :: ws, a :: args => le_bytes (width_bytes w) a ++ enc_operands ws args
  | _, _ => []
  end.
Definition enc_instr (i : instr) : bytes :=
  op_byte (i_op i) :: enc_operands (operand_shape (i_op i)) (i_args i).
Definition asm (prog : list instr) : bytes := prog ≫= enc_instr.

(** The emitter calls that write an instruction, operand by operand. *)
Definition emit_operand (e : emitter) (wa : width * Z) : emitter :=
  match wa with
  | (U8, v) => EmitByte e v
  | (U16, v) => EmitUint16 e v
  | (U32, v) => EmitFloat e v
  | (S32, v) => EmitInt32 e v
  | (S64, v) => EmitInt64 e v
  end.
Definition emit_instr (e : emitter) (i : instr) : emitter :=
  foldl emit_operand (Emit e (i_op i)) (zip (operand_shape (i_op i)) (i_args i)).

(** The reader calls that fetch it back. *)
Definition read_operand (w : width) (r : reader) : outcome (Z * reader) :=
  match w with
  | U8 => ReadByte r | U16 => ReadUint16 r | U32 => ReadUint32 r
  | S32 => ReadInt32 r | S64 => ReadInt64 r
  end.
Fixpoint read_operands (ws : list width) (r : reader) : outcome (list Z * reader) :=
  match ws with
  | [] => Ok ([], r)
  | w :: ws =>
      '(a, r) ← read_operand w r;
      '(args, r) ← read_operands ws r;
      Ok (a :: args, r)
  end.
Definition read_instr (r : reader) : outcome (instr * reader) :=
  '(o, r) ← ReadOp r;
  match o with
  | None => Raise (RuntimeError "NLang VM: unknown opcode")
  | Some op => '(args, r) ← read_operands (operand_shape op) r; Ok (Instr op args, r)
  end.

(** ** Line/pc map *)
(** One iteration: the anchors so far and the next [pc]. *)
Definition BuildLinePcMap_step (bc : bytes) (pc : nat) (acc : list (Z * Z))
    : outcome (list (Z * Z) * nat) :=
  b ← deref (bc !! pc);
  acc ← (if decide (op_of_byte b = Some OP_DebugInfo ∧ pc + 2 < length bc)%nat then
           lo ← deref (bc !! (pc + 1)%nat);
           hi ← deref (bc !! (pc + 2)%nat);
           Ok (acc ++ [(Z.lor lo (Z.shiftl hi 8), u16 (Z.of_nat pc))])
         else Ok acc);
  n ← InstructionStride b;
  Ok (acc, (pc + n)%nat).
Fixpoint BuildLinePcMap_loop (fuel : nat) (bc : bytes) (pc : nat)
    (acc : list (Z * Z)) : outcome (list (Z * Z)) :=
  if decide (pc < length bc)%nat then
    match fuel with
    | O => Raise OutOfFuel
    | S fuel =>
        '(acc, pc) ← BuildLinePcMap_step bc pc acc;
        BuildLinePcMap_loop fuel bc pc acc
    end
  else Ok acc.
(** Every stride is at least 1, so the code length bounds the iterations. *)
Definition BuildLinePcMap (bc : bytes) : outcome (list (Z * Z)) :=
  BuildLinePcMap_loop (length bc) bc 0 [].

(** [ModuleHasDebugAnchors] over the bytecode of the module's functions. *)
Fixpoint ModuleHasDebugAnchors (functions : list bytes) : outcome bool :=
  match functions with
  | [] => Ok false
  | bc :: fs =>
      match bc with
      | [] => ModuleHasDebugAnchors fs
      | _ =>
          m ← BuildLinePcMap bc;
          if decide (m = []) then ModuleHasDebugAnchors fs else Ok true
      end
  end.

(** ** Opcode bytes, names and extents *)
Lemma all_ops_complete op : op ∈ all_ops.
Proof. apply (bool_decide_unpack (op ∈ all_ops)). destruct op; vm_compute; exact I. Qed.

Lemma op_of_byte_op op : op_of_byte (op_byte op) = Some op.
Proof. destruct op; vm_compute; reflexivity. Qed.

Lemma op_byte_byte op : is_byte (op_byte op).
Proof. apply (bool_decide_unpack (is_byte (op_byte op))). destruct op; vm_compute; exact I. Qed.

Lemma all_ops_NoDup : NoDup all_ops.
Proof. apply (bool_decide_unpack (NoDup all_ops)). vm_compute. exact I. Qed.

Lemma op_of_byte_Some b op : op_of_byte b = Some op → b = op_byte op.
Proof.
  unfold op_of_byte. intros H. pose proof (zlookup_Some_lt _ _ _ H) as Hb.
  unfold zlookup in H. rewrite decide_True in H by lia.
  assert (all_ops !! op_index op = Some op) as H'
    by (destruct op; vm_compute; reflexivity).
  pose proof (NoDup_lookup _ _ _ _ all_ops_NoDup H H'). unfold op_byte. lia.
Qed.

Definition shape_bytes (ws : list width) : nat := sum_list (width_bytes <$> ws).

(** The stride table agrees with the documented operand shape of every opcode,
    so it lists each of them. *)
Lemma InstructionStride_shape op :
  InstructionStride (op_byte op) = Ok (S (shape_bytes (operand_shape op))).
Proof. destruct op; vm_compute; reflexivity. Qed.

(** a byte has an extent exactly when it is an opcode, and the extent is
    one opcode byte plus the operand bytes the emitter writes for it. *)
Theorem stride_total_on_opcodes b n :
  InstructionStride b = Ok n ↔
  ∃ op, b = op_byte op ∧ n = S (shape_bytes (operand_shape op)).
Proof.
  split.
  - intros H. destruct (op_of_byte b) as [op|] eqn:E.
    + apply op_of_byte_Some in E as ->. rewrite InstructionStride_shape in H.
      injection H as <-. by exists op.
    + unfold InstructionStride in H. by rewrite E in H.
  - intros (op & -> & ->). apply InstructionStride_shape.
Qed.

Lemma InstructionStride_pos b n : InstructionStride b = Ok n → (1 ≤ n)%nat.
Proof.
  destruct (op_of_byte b) as [op|] eqn:E.
  - apply op_of_byte_Some in E as ->. rewrite InstructionStride_shape.
    intros [= <-]. lia.
  - unfold InstructionStride. by rewrite E.
Qed.

(** the positional name table has a name for each opcode and no two
    opcodes share one. *)
Theorem opcode_names_injective op1 op2 :
  OpCodeName (op_byte op1) = OpCodeName (op_byte op2) → op1 = op2.
Proof.
  intros H. apply (inj Some). rewrite <- !op_of_byte_op. f_equal.
  assert (NoDup s_OpCodeNames) as Hnd
    by (apply (bool_decide_unpack (NoDup s_OpCodeNames)); vm_compute; exact I).
  assert (∀ op, s_OpCodeNames !! op_index op = Some (OpCodeName (op_byte op)))
    as Hn by (intros []; vm_compute; reflexivity).
  unfold op_byte. f_equal.
  eapply NoDup_lookup; [done|apply Hn|]. rewrite Hn. by f_equal.
Qed.

Lemma opcode_names_injective_witness : OP_Return = OP_Return.
Proof.
  apply (opcode_names_injective OP_Return OP_Return). vm_compute. reflexivity.
Defined.

(** ** Emit and read *)
Lemma length_enc_operands ws args :
  Forall2 in_width ws args → length (enc_operands ws args) = shape_bytes ws.
Proof.
  unfold shape_bytes. induction 1 as [|w a ws args _ _ IH]; [done|]. simpl.
  by rewrite length_app, length_le_bytes, IH.
Qed.

Lemma length_enc_instr i :
  wf_instr i → InstructionStride (op_byte (i_op i)) = Ok (length (enc_instr i)).
Proof.
  intros Hwf. rewrite InstructionStride_shape. simpl.
  by rewrite (length_enc_operands _ _ Hwf).
Qed.

Lemma emit_operand_bytes e w v :
  in_width w v →
  emit_operand e (w, v) = push e (le_bytes (width_bytes w) v).
Proof.
  unfold emit_operand. destruct w; try done.
  - intros H. unfold EmitByte. simpl. by rewrite land_255.
  - intros _. unfold EmitUint16, push. simpl. by rewrite <- app_assoc.
Qed.

#[local] Arguments emit_operand : simpl never.
Lemma emit_operands_bytes e ws args :
  Forall2 in_width ws args →
  foldl emit_operand e (zip ws args) = push e (enc_operands ws args).
Proof.
  intros H. revert e. induction H as [|w a ws args Ha _ IH]; intros e; simpl.
  - destruct e. unfold push. simpl. by rewrite app_nil_r.
  - rewrite emit_operand_bytes by done. rewrite IH. unfold push. simpl.
    by rewrite <- app_assoc.
Qed.

Lemma emit_instr_bytes e i : wf_instr i → emit_instr e i = push e (enc_instr i).
Proof.
  intros H. unfold emit_instr. rewrite emit_operands_bytes by done.
  unfold push, Emit, push. simpl. by rewrite <- app_assoc.
Qed.

(** A reader whose next bytes are [bs]. *)
Definition at_bytes (r : reader) (bs : bytes) : Prop :=
  ∃ pre post, m_data r = pre ++ bs ++ post ∧ m_offset r = length pre.
Definition skip (r : reader) (n : nat) : reader := Reader (m_data r) (m_offset r + n).

Lemma at_bytes_app r bs1 bs2 :
  at_bytes r (bs1 ++ bs2) → at_bytes r bs1 ∧ at_bytes (skip r (length bs1)) bs2.
Proof.
  intros (pre & post & Hd & Ho). split.
  - exists pre, (bs2 ++ post). by rewrite Hd, <- app_assoc.
  - exists (pre ++ bs1), post. simpl. rewrite Hd, Ho, length_app, <- !app_assoc.
    done.
Qed.

Lemma skip_skip r m n : skip (skip r m) n = skip r (m + n).
Proof. unfold skip. simpl. f_equal. lia. Qed.
Lemma skip_0 r : skip r 0 = r.
Proof. destruct r. unfold skip. simpl. by rewrite Nat.add_0_r. Qed.

Lemma ReadByte_spec r b : at_bytes r [b] → ReadByte r = Ok (b, skip r 1).
Proof.
  intros (pre & post & Hd & Ho). unfold ReadByte, skip. rewrite Ho, Hd.
  rewrite lookup_app_r, Nat.sub_diag by lia. simpl. by rewrite Nat.add_1_r.
Qed.

Lemma read_le_spec bs : ∀ r i v,
  Forall is_byte bs → at_bytes r bs → 0 ≤ i → 0 ≤ v < 2 ^ (i * 8) →
  read_le (length bs) i v r = Ok (v + 2 ^ (i * 8) * le_value bs, skip r (length bs)).
Proof.
  induction bs as [|b bs IH]; intros r i v Hbs Hr Hi Hv; simpl.
  - by rewrite Z.mul_0_r, Z.add_0_r, skip_0.
  - apply Forall_cons_1 in Hbs as [Hb Hbs]. unfold is_byte in Hb.
    apply (at_bytes_app r [b] bs) in Hr as [Hr1 Hr2].
    rewrite (ReadByte_spec _ _ Hr1). simpl.
    rewrite (lor_shiftl_add v b (i * 8)) by lia.
    rewrite (lor_shiftl_add b (le_value bs) 8) by (change (2 ^ 8) with 256; lia).
    assert (2 ^ ((i + 1) * 8) = 2 ^ (i * 8) * 256) as E.
    { replace ((i + 1) * 8) with (i * 8 + 8) by lia.
      by rewrite Z.pow_add_r by lia. }
    rewrite IH; [|done|done|lia|rewrite E; nia].
    rewrite skip_skip, E. change (2 ^ 8) with 256. do 2 f_equal. lia.
Qed.

Lemma read_le_bytes n v r :
  at_bytes r (le_bytes n v) →
  read_le n 0 0 r = Ok (v mod 2 ^ (8 * Z.of_nat n), skip r n).
Proof.
  intros H. rewrite <- (length_le_bytes n v) at 1.
  rewrite read_le_spec; [|apply le_bytes_bytes|done|done|done].
  by rewrite length_le_bytes, le_value_bytes, Z.add_0_l, Z.mul_1_l.
Qed.

Lemma ReadUint16_read_le r : ReadUint16 r = read_le 2 0 0 r.
Proof.
  unfold ReadUint16, read_le, ReadByte. destruct (m_data r !! m_offset r); [|done].
  simpl. by destruct (m_data r !! S (m_offset r)); simpl; rewrite ?Z.shiftl_0_r.
Qed.

Lemma ReadUint16_spec r v :
  is_uint 16 v → at_bytes r (le_bytes 2 v) → ReadUint16 r = Ok (v, skip r 2).
Proof.
  intros Hv H. rewrite ReadUint16_read_le, (read_le_bytes _ v) by done.
  by rewrite Z.mod_small.
Qed.

Lemma read_operand_spec w v r :
  in_width w v → at_bytes r (le_bytes (width_bytes w) v) →
  read_operand w r = Ok (v, skip r (width_bytes w)).
Proof.
  destruct w; simpl; intros Hv H.
  - rewrite land_255, Z.mod_small in H by done. by apply ReadByte_spec.
  - by apply ReadUint16_spec.
  - unfold ReadUint32. rewrite (read_le_bytes _ v) by done. by rewrite Z.mod_small.
  - unfold ReadInt32. rewrite (read_le_bytes _ v) by done. simpl mbind.
    change (v mod _) with (wrap 32 v). rewrite swrap_wrap.
    by rewrite swrap_small.
  - unfold ReadInt64. rewrite (read_le_bytes _ v) by done. simpl mbind.
    change (v mod _) with (wrap 64 v). rewrite swrap_wrap.
    by rewrite swrap_small.
Qed.

Lemma read_operands_spec ws args r :
  Forall2 in_width ws args → at_bytes r (enc_operands ws args) →
  read_operands ws r = Ok (args, skip r (shape_bytes ws)).
Proof.
  intros H. revert r. induction H as [|w a ws args Ha _ IH]; intros r Hr; simpl.
  - by rewrite skip_0.
  - apply at_bytes_app in Hr as [Hr1 Hr2]. rewrite length_le_bytes in Hr2.
    rewrite (read_operand_spec w a) by done. simpl. rewrite IH by done. simpl.
    by rewrite skip_skip.
Qed.

Lemma read_instr_spec i r :
  wf_instr i → at_bytes r (enc_instr i) →
  read_instr r = Ok (i, skip r (length (enc_instr i))).
Proof.
  intros Hwf Hr. apply (at_bytes_app r [op_byte (i_op i)]) in Hr as [H1 H2].
  unfold read_instr, ReadOp. rewrite (ReadByte_spec _ _ H1). simpl.
  rewrite op_of_byte_op. simpl. rewrite (read_operands_spec _ (i_args i)) by done.
  simpl. rewrite skip_skip, (length_enc_operands _ _ Hwf). by destruct i.
Qed.

(** the interpreter's reader, placed where the emitter started to write an
    instruction, reads back the same opcode and operands, and stops after
    exactly [InstructionStride] bytes. *)
Theorem emit_read_roundtrip e i post r :
  wf_instr i →
  m_data r = m_bytes (emit_instr e i) ++ post →
  m_offset r = length (m_bytes e) →
  ∃ n, InstructionStride (op_byte (i_op i)) = Ok n ∧
       read_instr r = Ok (i, Seek r (length (m_bytes e) + n)).
Proof.
  intros Hwf Hd Ho. exists (length (enc_instr i)).
  split; [by apply length_enc_instr|].
  rewrite emit_instr_bytes in Hd by done. unfold push in Hd. simpl in Hd.
  rewrite (read_instr_spec i); [|done|].
  - by rewrite <- Ho.
  - exists (m_bytes e), post. by rewrite Hd, <- app_assoc.
Qed.

Lemma emit_read_roundtrip_witness :
  let e := Emitter [op_byte OP_Rethrow] [] in
  let i := Instr OP_CallFuncOut [7; 300; 4294967295] in
  read_instr (Reader (m_bytes (emit_instr e i) ++ [9]) 1) =
    Ok (i, Reader (m_bytes (emit_instr e i) ++ [9]) 10).
Proof.
  destruct (emit_read_roundtrip (Emitter [op_byte OP_Rethrow] [])
    (Instr OP_CallFuncOut [7; 300; 4294967295]) [9]
    (Reader (m_bytes (emit_instr (Emitter [op_byte OP_Rethrow] [])
       (Instr OP_CallFuncOut [7; 300; 4294967295])) ++ [9]) 1))
    as (n & Hn & Hr).
  - apply (bool_decide_unpack (wf_instr _)). vm_compute. exact I.
  - reflexivity.
  - reflexivity.
  - injection Hn as <-. exact Hr.
Defined.

(** ** String pool of the emitter *)

(** while the pool is smaller than the 16-bit index space, the returned
    index designates the string, no existing entry moves, and a pool without
    duplicates keeps that property. *)
Theorem AddStringConstant_correct e s i e' :
  Z.of_nat (length (m_stringConstants e)) < 65536 →
  AddStringConstant e s = (i, e') →
  m_stringConstants e' !!z i = Some s
  ∧ m_stringConstants e `prefix_of` m_stringConstants e'
  ∧ m_bytes e' = m_bytes e
  ∧ (NoDup (m_stringConstants e) → NoDup (m_stringConstants e')).
Proof.
  intros Hlen. unfold AddStringConstant.
  rewrite wrap_small, Nat2Z.id, firstn_all
    by (unfold is_uint; change (2 ^ 16) with 65536; lia).
  destruct (list_find (s =.) (m_stringConstants e)) as [[k x]|] eqn:F.
  - intros [= <- <-]. apply list_find_index_lt in F as (_ & Hk & <-).
    unfold zlookup. rewrite decide_True, Nat2Z.id by lia. by eauto.
  - intros [= <- <-]. simpl. rewrite length_app. simpl.
    rewrite wrap_small by (unfold is_uint; change (2 ^ 16) with 65536; lia).
    split_and!; [|by eexists|done|].
    + unfold zlookup. rewrite decide_True by lia.
      replace (Z.to_nat _) with (length (m_stringConstants e)) by lia.
      by rewrite lookup_app_r, Nat.sub_diag by lia.
    + intros Hnd. apply list.NoDup_app. split_and!; [done| |apply NoDup_singleton].
      intros x Hx Hs%list_elem_of_singleton. apply list_find_None in F.
      rewrite list.Forall_forall in F. by apply (F x Hx).
Qed.

Lemma AddStringConstant_correct_witness :
  m_stringConstants (AddStringConstant (Emitter [] [[65]; [66]]) [67]).2 !!z 2
    = Some [67].
Proof.
  destruct (AddStringConstant_correct (Emitter [] [[65]; [66]]) [67] 2
    (AddStringConstant (Emitter [] [[65]; [66]]) [67]).2) as (H & _).
  - simpl. lia.
  - reflexivity.
  - exact H.
Defined.

(** ** Line/pc map of assembled code *)

(** The anchors of a program whose first instruction is at [pc]. *)
Fixpoint anchors (pc : nat) (prog : list instr) : list (Z * Z) :=
  match prog with
  | [] => []
  | i :: prog =>
      match i with
      | Instr OP_DebugInfo [line] => [(line, u16 (Z.of_nat pc))]
      | _ => []
      end ++ anchors (pc + length (enc_instr i)) prog
  end.

Lemma asm_cons i prog : asm (i :: prog) = enc_instr i ++ asm prog.
Proof. done. Qed.

Lemma enc_instr_length_pos i : (1 ≤ length (enc_instr i))%nat.
Proof. simpl. lia. Qed.

Lemma length_asm prog : (length prog ≤ length (asm prog))%nat.
Proof.
  induction prog as [|i prog IH]; [done|]. rewrite asm_cons, length_app.
  pose proof (enc_instr_length_pos i). simpl in *. lia.
Qed.

Lemma enc_debug line :
  is_uint 16 line →
  enc_instr (Instr OP_DebugInfo [line]) =
    [op_byte OP_DebugInfo; Z.land line 255; Z.land (Z.shiftr line 8) 255]
  ∧ Z.lor (Z.land line 255) (Z.shiftl (Z.land (Z.shiftr line 8) 255) 8) = line.
Proof.
  intros H. split; [done|]. pose proof (le_value_bytes 2 line) as E.
  rewrite Z.mod_small in E by done. rewrite <- E at 3. simpl.
  by rewrite Z.shiftl_0_l, Z.lor_0_r.
Qed.

Lemma at_pc (pre : bytes) i post :
  (pre ++ enc_instr i ++ post) !! length pre = Some (op_byte (i_op i)).
Proof. by rewrite lookup_app_r, Nat.sub_diag by lia. Qed.

Lemma anchors_not_debug pc i : i_op i ≠ OP_DebugInfo → anchors pc [i] = [].
Proof. destruct i as [[] ?]; simpl; intros; done. Qed.
Lemma anchors_cons pc i prog :
  anchors pc (i :: prog) = anchors pc [i] ++ anchors (pc + length (enc_instr i)) prog.
Proof. simpl. by rewrite app_nil_r. Qed.
#[local] Opaque op_byte op_of_byte InstructionStride.
Lemma BuildLinePcMap_step_asm pre i post acc :
  wf_instr i →
  BuildLinePcMap_step (pre ++ enc_instr i ++ post) (length pre) acc =
  Ok (acc ++ anchors (length pre) [i], length (pre ++ enc_instr i)).
Proof.
  intros Hwf. unfold BuildLinePcMap_step. rewrite at_pc.
  rewrite derefE, bindE, op_of_byte_op, length_enc_instr by done.
  destruct (decide (i_op i = OP_DebugInfo)) as [E|N].
  - destruct i as [op args]. simpl in E. subst op.
    unfold wf_instr in Hwf. simpl in Hwf.
    apply Forall2_cons_inv_l in Hwf as (line & ? & Hl & ->%Forall2_nil_inv_l & ->).
    destruct (enc_debug line Hl) as [Eb Ev]. rewrite Eb.
    rewrite decide_True by (split; [done|rewrite !length_app; simpl; lia]).
    rewrite (lookup_app_r _ _ (length pre + 1)) by lia.
    rewrite (lookup_app_r _ _ (length pre + 2)) by lia.
    replace (length pre + 1 - length pre)%nat with 1%nat by lia.
    replace (length pre + 2 - length pre)%nat with 2%nat by lia.
    cbn [lookup list_lookup app]. rewrite !derefE, !bindE, Ev, length_app. done.
  - rewrite decide_False by (intros [[= E] _]; done).
    by rewrite !bindE, anchors_not_debug, app_nil_r, length_app.
Qed.

(** on assembled code the walk terminates without error and records every
    statement anchor, with its own line and pc, in code order, and nothing else:
    an operand byte is never taken for an opcode. *)
Theorem BuildLinePcMap_asm prog :
  Forall wf_instr prog → BuildLinePcMap (asm prog) = Ok (anchors 0 prog).
Proof.
  intros Hwf. unfold BuildLinePcMap.
  assert (∀ fuel pre acc, (length prog ≤ fuel)%nat →
    BuildLinePcMap_loop fuel (pre ++ asm prog) (length pre) acc
      = Ok (acc ++ anchors (length pre) prog)) as G.
  { induction Hwf as [|i prog Hi _ IH]; intros fuel pre acc Hf.
    - rewrite app_nil_r. destruct fuel; simpl;
        rewrite decide_False by lia; by rewrite app_nil_r.
    - destruct fuel as [|fuel]; simpl in Hf; [lia|].
      rewrite asm_cons. cbn [BuildLinePcMap_loop].
      rewrite decide_True by (rewrite !length_app; simpl; lia).
      rewrite BuildLinePcMap_step_asm by done.
      rewrite bindE, app_assoc, IH by lia. simpl.
      by rewrite length_app, app_nil_r, <- app_assoc. }
  apply (G _ [] []). apply length_asm.
Qed.

Lemma BuildLinePcMap_asm_witness :
  BuildLinePcMap (asm [Instr OP_ConstInt32 [37]; Instr OP_DebugInfo [12];
                       Instr OP_Return []; Instr OP_DebugInfo [300]])
  = Ok [(12, 5); (300, 9)].
Proof.
  apply (BuildLinePcMap_asm [Instr OP_ConstInt32 [37]; Instr OP_DebugInfo [12];
                       Instr OP_Return []; Instr OP_DebugInfo [300]]).
  apply (bool_decide_unpack (Forall wf_instr _)). vm_compute. exact I.
Defined.
