(* ===== verification/Remap.v ===== *)
(** * Link-time operand remap

    Models [src/src/vm/NcuLinkerRemap.cpp]: the linker merges the string,
    function and type tables of several units and rewrites, in place, the table
    indices in the bytecode of each unit.  The abstract specification is a map
    over the list of instructions; the refinement theorem says the byte walk
    computes it. *)
From S2P Require Import Prelude Bytecode.
Open Scope Z_scope.

(** ** The tables and their old-to-new index maps *)
Inductive table :=
  | TString | TFunction | TClass | TInterface | TStruct | TArrayType | TEnum | TSlot.
#[export] Instance table_eq_dec : EqDecision table.
Proof. solve_decision. Defined.

Record NcuOperandMaps := OperandMaps {
  strings : gmap Z Z; functions : gmap Z Z; classes : gmap Z Z;
  interfaces : gmap Z Z; structs : gmap Z Z; arrayTypes : gmap Z Z;
  enums : gmap Z Z; slots : gmap Z Z
}.

Definition map_of (maps : NcuOperandMaps) (t : table) : gmap Z Z :=
  match t with
  | TString => strings maps | TFunction => functions maps
  | TClass => classes maps | TInterface => interfaces maps
  | TStruct => structs maps | TArrayType => arrayTypes maps
  | TEnum => enums maps | TSlot => slots maps
  end.
Definition table_kind (t : table) : string :=
  match t with
  | TString => "string" | TFunction => "function" | TClass => "class"
  | TInterface => "interface" | TStruct => "struct"
  | TArrayType => "array type" | TEnum => "enum" | TSlot => "static slot"
  end.

(** The calls of [onUnmapped], in order. *)
Abbreviation diags := (list (string * Z)).

(** ** The byte walk *)
Definition PatchOperand (off : nat) (maps : NcuOperandMaps) (t : table)
    (s : bytes * diags) : outcome (bytes * diags) :=
  let '(bc, log) := s in
  lo ← deref (bc !! off);
  hi ← deref (bc !! S off);
  let oldv := Z.lor lo (Z.shiftl hi 8) in
  match map_of maps t !! oldv with
  | None => Ok (bc, log ++ [(table_kind t, oldv)])
  | Some n =>
      let newv := u16 n in
      Ok (<[S off := Z.land (Z.shiftr newv 8) 255]>
            (<[off := Z.land newv 255]> bc), log)
  end.

Definition PatchNameOperands (op : option OpCode) (pos : nat)
    (maps : NcuOperandMaps) (s : bytes * diags) : outcome (bytes * diags) :=
  match op with
  | Some (OP_ConstString | OP_AssertFail | OP_CallMethod | OP_MakeVFunc) =>
      PatchOperand (pos + 1) maps TString s
  | Some (OP_CallFunc | OP_CallMethodDirect | OP_CallFuncOut
         | OP_CallMethodDirectOut | OP_MakeFunc | OP_MakeBoundFunc) =>
      PatchOperand (pos + 1) maps TFunction s
  | _ => Ok s
  end.

Definition PatchTypeOperands (op : option OpCode) (pos : nat)
    (maps : NcuOperandMaps) (s : bytes * diags) : outcome (bytes * diags) :=
  match op with
  | Some OP_New => PatchOperand (pos + 3) maps TClass s
  | Some OP_CheckCast => PatchOperand (pos + 1) maps TClass s
  | Some OP_CheckArrayType => PatchOperand (pos + 5) maps TArrayType s
  | Some OP_AllocStruct => PatchOperand (pos + 3) maps TStruct s
  | Some OP_CopyStruct => PatchOperand (pos + 5) maps TStruct s
  | Some (OP_AllocArrayN | OP_AssembleArrayN) => PatchOperand (pos + 3) maps TArrayType s
  | Some OP_MakeArrayView => PatchOperand (pos + 5) maps TArrayType s
  | Some OP_Enum_to_str => PatchOperand (pos + 1) maps TEnum s
  | Some OP_LoadStatic => PatchOperand (pos + 3) maps TSlot s
  | Some (OP_StoreStatic | OP_SlotInitGate | OP_SlotInitDone | OP_SlotInitFail) =>
      PatchOperand (pos + 1) maps TSlot s
  | _ => Ok s
  end.

Definition PatchClassInitOperands (op : option OpCode) (pos : nat)
    (maps : NcuOperandMaps) (s : bytes * diags) : outcome (bytes * diags) :=
  match op with
  | Some (OP_ClassInitGate | OP_ClassInitDone | OP_ClassInitFail) =>
      let kindOff :=
        if decide (op = Some OP_ClassInitGate) then (pos + 5)%nat else (pos + 3)%nat in
      lo ← deref (s.1 !! kindOff);
      hi ← deref (s.1 !! S kindOff);
      let isInterface := bool_decide (Z.lor lo (Z.shiftl hi 8) = 1) in
      PatchOperand (pos + 1) maps (if isInterface then TInterface else TClass) s
  | _ => Ok s
  end.

Fixpoint NcuRemapBytecodeOperands_loop (fuel : nat) (maps : NcuOperandMaps)
    (pos : nat) (s : bytes * diags) : outcome (bytes * diags) :=
  if decide (pos < length s.1)%nat then
    match fuel with
    | O => Raise OutOfFuel
    | S fuel =>
        b ← deref (s.1 !! pos);
        let op := op_of_byte b in
        s ← PatchNameOperands op pos maps s;
        s ← PatchTypeOperands op pos maps s;
        s ← PatchClassInitOperands op pos maps s;
        n ← InstructionStride b;
        NcuRemapBytecodeOperands_loop fuel maps (pos + n) s
    end
  else Ok s.
(** Every stride is at least 1: the code length bounds the iterations. *)
Definition NcuRemapBytecodeOperands (maps : NcuOperandMaps) (bc : bytes)
    : outcome (bytes * diags) :=
  NcuRemapBytecodeOperands_loop (length bc) maps 0 (bc, []).

(** ** Specification: the table operand of an instruction *)
Definition nth_arg (i : instr) (k : nat) : Z := nth k (i_args i) 0.

(** Which operand is a table index, and of which table; none of the other
    operands (frame slots, jump targets, ranks, masks) depends on the unit. *)
Definition table_operand (i : instr) : option (nat * table) :=
  match i_op i with
  | OP_ConstString | OP_AssertFail | OP_CallMethod | OP_MakeVFunc => Some (0%nat, TString)
  | OP_CallFunc | OP_CallMethodDirect | OP_CallFuncOut | OP_CallMethodDirectOut
  | OP_MakeFunc | OP_MakeBoundFunc => Some (0%nat, TFunction)
  | OP_New => Some (1%nat, TClass)
  | OP_CheckCast => Some (0%nat, TClass)
  | OP_AllocStruct => Some (1%nat, TStruct)
  | OP_CopyStruct => Some (2%nat, TStruct)
  | OP_AllocArrayN | OP_AssembleArrayN => Some (1%nat, TArrayType)
  | OP_CheckArrayType | OP_MakeArrayView => Some (2%nat, TArrayType)
  | OP_Enum_to_str => Some (0%nat, TEnum)
  | OP_LoadStatic => Some (1%nat, TSlot)
  | OP_StoreStatic | OP_SlotInitGate | OP_SlotInitDone | OP_SlotInitFail =>
      Some (0%nat, TSlot)
  | OP_ClassInitGate =>
      Some (0%nat, if bool_decide (nth_arg i 2 = 1) then TInterface else TClass)
  | OP_ClassInitDone | OP_ClassInitFail =>
      Some (0%nat, if bool_decide (nth_arg i 1 = 1) then TInterface else TClass)
  | _ => None
  end.

Definition set_arg (i : instr) (k : nat) (v : Z) : instr :=
  Instr (i_op i) (<[k := v]> (i_args i)).

Definition remap_instr (maps : NcuOperandMaps) (i : instr) : instr :=
  match table_operand i with
  | Some (k, t) =>
      match map_of maps t !! nth_arg i k with
      | Some n => set_arg i k (u16 n)
      | None => i
      end
  | None => i
  end.
Definition remap_diag (maps : NcuOperandMaps) (i : instr) : diags :=
  match table_operand i with
  | Some (k, t) =>
      match map_of maps t !! nth_arg i k with
      | Some _ => []
      | None => [(table_kind t, nth_arg i k)]
      end
  | None => []
  end.

(** ** Refinement *)
Lemma lookup_mid {A} (l1 : list A) x l2 : (l1 ++ x :: l2) !! length l1 = Some x.
Proof. by rewrite lookup_app_r, Nat.sub_diag by lia. Qed.

Lemma lookup_mid_S {A} (l1 : list A) x y l2 :
  (l1 ++ x :: y :: l2) !! S (length l1) = Some y.
Proof. rewrite lookup_app_r by lia. by rewrite Nat.sub_succ_l, Nat.sub_diag by lia. Qed.

Lemma insert_mid {A} (l1 : list A) x y l2 :
  <[length l1 := y]> (l1 ++ x :: l2) = l1 ++ y :: l2.
Proof. by rewrite insert_app_r_alt, Nat.sub_diag by lia. Qed.

Lemma insert_mid_S {A} (l1 : list A) x y z l2 :
  <[S (length l1) := z]> (l1 ++ x :: y :: l2) = l1 ++ x :: z :: l2.
Proof.
  rewrite insert_app_r_alt by lia. by rewrite Nat.sub_succ_l, Nat.sub_diag by lia.
Qed.

Lemma word_of_bytes v :
  is_uint 16 v →
  Z.lor (Z.land v 255) (Z.shiftl (Z.land (Z.shiftr v 8) 255) 8) = v.
Proof.
  intros H. pose proof (le_value_bytes 2 v) as E. rewrite Z.mod_small in E by done.
  rewrite <- E at 3. simpl. by rewrite Z.shiftl_0_l, Z.lor_0_r.
Qed.

Lemma PatchOperand_mid maps t log a v c :
  is_uint 16 v →
  PatchOperand (length a) maps t (a ++ le_bytes 2 v ++ c, log) =
  Ok (match map_of maps t !! v with
      | Some n => (a ++ le_bytes 2 (u16 n) ++ c, log)
      | None => (a ++ le_bytes 2 v ++ c, log ++ [(table_kind t, v)])
      end).
Proof.
  intros Hv. unfold PatchOperand. cbn [le_bytes app].
  rewrite lookup_mid, derefE, bindE, lookup_mid_S, derefE, bindE.
  rewrite word_of_bytes by done.
  destruct (map_of maps t !! v) as [n|]; [|done].
  by rewrite insert_mid, insert_mid_S.
Qed.

Definition operand_off (op : OpCode) (k : nat) : nat :=
  S (shape_bytes (take k (operand_shape op))).

(** An instruction around its [k]-th operand. *)
Definition enc_before (i : instr) (k : nat) : bytes :=
  op_byte (i_op i) :: enc_operands (take k (operand_shape (i_op i))) (take k (i_args i)).
Definition enc_after (i : instr) (k : nat) : bytes :=
  enc_operands (drop (S k) (operand_shape (i_op i))) (drop (S k) (i_args i)).

Lemma enc_operands_split ws args k :
  Forall2 in_width ws args → ws !! k = Some U16 →
  is_uint 16 (nth k args 0) ∧ ∀ v,
  enc_operands ws (<[k := v]> args) =
    enc_operands (take k ws) (take k args) ++ le_bytes 2 v ++
    enc_operands (drop (S k) ws) (drop (S k) args).
Proof.
  intros H. revert k. induction H as [|w a ws args Ha _ IH]; intros k Hk; [done|].
  destruct k as [|k]; simpl in *.
  - injection Hk as ->. by split.
  - destruct (IH k Hk) as [Hr Heq]. split; [done|]. intros v.
    by rewrite Heq, <- app_assoc.
Qed.

Lemma enc_instr_split i k :
  wf_instr i → operand_shape (i_op i) !! k = Some U16 →
  is_uint 16 (nth_arg i k)
  ∧ length (enc_before i k) = operand_off (i_op i) k
  ∧ enc_instr i = enc_before i k ++ le_bytes 2 (nth_arg i k) ++ enc_after i k
  ∧ ∀ v, enc_instr (set_arg i k v) = enc_before i k ++ le_bytes 2 v ++ enc_after i k.
Proof.
  intros Hwf Hk. destruct (enc_operands_split _ _ k Hwf Hk) as [Hr Heq].
  split_and!; [done| | |].
  - unfold operand_off. simpl. f_equal. apply length_enc_operands.
    by apply Forall2_take.
  - unfold enc_instr, enc_before, enc_after. cbn [app]. f_equal.
    rewrite <- Heq. f_equal. symmetry. apply list_insert_id.
    destruct (nth_lookup_or_length (i_args i) k 0) as [|Hlen]; [done|].
    apply lookup_lt_Some in Hk. apply Forall2_length in Hwf. lia.
  - intros v. unfold enc_instr, enc_before, enc_after, set_arg.
    cbn [app i_op i_args]. f_equal. apply Heq.
Qed.

Lemma table_operand_shape i k t :
  table_operand i = Some (k, t) → operand_shape (i_op i) !! k = Some U16.
Proof. destruct i as [[] args]; simpl; intros H; try discriminate H; injection H as <- _; reflexivity. Qed.

Lemma enc_instr_at pre i k post :
  wf_instr i → operand_shape (i_op i) !! k = Some U16 →
  ∃ a c, length a = (length pre + operand_off (i_op i) k)%nat
    ∧ pre ++ enc_instr i ++ post = a ++ le_bytes 2 (nth_arg i k) ++ c
    ∧ ∀ v, pre ++ enc_instr (set_arg i k v) ++ post = a ++ le_bytes 2 v ++ c.
Proof.
  intros Hwf Hk. destruct (enc_instr_split i k Hwf Hk) as (_ & Hl & He & Hs).
  exists (pre ++ enc_before i k), (enc_after i k ++ post). split_and!.
  - rewrite length_app. by rewrite Hl.
  - by rewrite He, <- !app_assoc.
  - intros v. by rewrite Hs, <- !app_assoc.
Qed.

Lemma PatchOperand_remap maps pre i post log k t :
  wf_instr i → table_operand i = Some (k, t) →
  PatchOperand (length pre + operand_off (i_op i) k) maps t
    (pre ++ enc_instr i ++ post, log) =
  Ok (pre ++ enc_instr (remap_instr maps i) ++ post, log ++ remap_diag maps i).
Proof.
  intros Hwf Ht. pose proof (table_operand_shape _ _ _ Ht) as Hk.
  destruct (enc_instr_split i k Hwf Hk) as (Hr & _).
  destruct (enc_instr_at pre i k post Hwf Hk) as (a & c & <- & -> & Hs).
  rewrite PatchOperand_mid by done. unfold remap_instr, remap_diag. rewrite Ht.
  destruct (map_of maps t !! nth_arg i k) as [n|].
  - by rewrite Hs, app_nil_r.
  - destruct (enc_instr_at pre i k post Hwf Hk) as (a' & c' & Hl & Heq & Hs').
    f_equal. f_equal. rewrite Heq. specialize (Hs (nth_arg i k)).
    by rewrite <- Hs, Hs'.
Qed.

Lemma operand_word pre i k post :
  wf_instr i → operand_shape (i_op i) !! k = Some U16 →
  ∃ lo hi, (pre ++ enc_instr i ++ post) !! (length pre + operand_off (i_op i) k)%nat = Some lo
    ∧ (pre ++ enc_instr i ++ post) !! S (length pre + operand_off (i_op i) k) = Some hi
    ∧ Z.lor lo (Z.shiftl hi 8) = nth_arg i k.
Proof.
  intros Hwf Hk. destruct (enc_instr_split i k Hwf Hk) as (Hr & _).
  destruct (enc_instr_at pre i k post Hwf Hk) as (a & c & <- & -> & _).
  eexists _, _. split_and!; [apply lookup_mid|apply lookup_mid_S|].
  by apply word_of_bytes.
Qed.

(** The three patch passes over one instruction. *)
Definition patch_all (op : option OpCode) (pos : nat) (maps : NcuOperandMaps)
    (s : bytes * diags) : outcome (bytes * diags) :=
  s ← PatchNameOperands op pos maps s;
  s ← PatchTypeOperands op pos maps s;
  PatchClassInitOperands op pos maps s.

Lemma no_table_operand maps i :
  table_operand i = None → remap_instr maps i = i ∧ remap_diag maps i = [].
Proof. unfold remap_instr, remap_diag. by intros ->. Qed.

Lemma kind_word pre op args k post (f : Z → outcome (bytes * diags)) r :
  wf_instr (Instr op args) → operand_shape op !! k = Some U16 →
  f (nth k args 0) = r →
  (let s := pre ++ enc_instr (Instr op args) ++ post in
   lo ← deref (s !! (length pre + operand_off op k)%nat);
   hi ← deref (s !! S (length pre + operand_off op k));
   f (Z.lor lo (Z.shiftl hi 8))) = r.
Proof.
  intros Hwf Hk <-. destruct (operand_word pre _ k post Hwf Hk) as (lo & hi & H1 & H2 & Hw).
  cbv zeta. simpl i_op in *. rewrite H1, derefE, bindE, H2, derefE, bindE.
  by rewrite Hw.
Qed.

(** What [PatchClassInitOperands] does with the kind tag. *)
Definition gate maps (pre : bytes) (bc : bytes) log (kind : Z) :=
  PatchOperand (length pre + 1) maps
    (if bool_decide (kind = 1) then TInterface else TClass) (bc, log).

Lemma patch_all_asm maps pre i post log :
  wf_instr i →
  patch_all (Some (i_op i)) (length pre) maps (pre ++ enc_instr i ++ post, log) =
  Ok (pre ++ enc_instr (remap_instr maps i) ++ post, log ++ remap_diag maps i).
Proof.
  intros Hwf. destruct (table_operand i) as [[k t]|] eqn:Ht.
  - pose proof (table_operand_shape _ _ _ Ht) as Hk.
    pose proof (PatchOperand_remap maps pre i post log k t Hwf Ht) as HP.
    destruct i as [op args]. unfold table_operand in Ht. cbn [i_op] in *.
    destruct op; simplify_eq; unfold patch_all;
      cbn [PatchNameOperands PatchTypeOperands PatchClassInitOperands];
      rewrite ?bindE; try (eapply bind_step; [exact HP|reflexivity]).
    + exact (kind_word pre OP_ClassInitGate args 2 post (gate maps pre _ log) _ Hwf eq_refl HP).
    + exact (kind_word pre OP_ClassInitDone args 1 post (gate maps pre _ log) _ Hwf eq_refl HP).
    + exact (kind_word pre OP_ClassInitFail args 1 post (gate maps pre _ log) _ Hwf eq_refl HP).
  - destruct (no_table_operand maps i Ht) as [-> ->]. rewrite app_nil_r.
    unfold table_operand in Ht. destruct (i_op i) eqn:Hop; simplify_eq; reflexivity.
Qed.

Lemma remap_instr_op maps i : i_op (remap_instr maps i) = i_op i.
Proof. unfold remap_instr. by repeat case_match. Qed.

Lemma remap_instr_wf maps i : wf_instr i → wf_instr (remap_instr maps i).
Proof.
  intros Hwf. unfold remap_instr.
  destruct (table_operand i) as [[k t]|] eqn:Ht; [|done].
  destruct (map_of maps t !! nth_arg i k) as [n|]; [|done].
  apply table_operand_shape in Ht. unfold wf_instr, set_arg. simpl.
  rewrite <- (list_insert_id (operand_shape (i_op i)) k U16) by done.
  apply Forall2_insert; [done|]. simpl. auto with nlang lia.
Qed.

Lemma remap_instr_length maps i :
  wf_instr i → length (enc_instr (remap_instr maps i)) = length (enc_instr i).
Proof.
  intros Hwf. pose proof (length_enc_instr i Hwf) as H1.
  pose proof (length_enc_instr _ (remap_instr_wf maps i Hwf)) as H2.
  rewrite remap_instr_op in H2. congruence.
Qed.

#[local] Opaque InstructionStride op_byte op_of_byte.

Lemma remap_loop_step fuel maps pre i post log :
  wf_instr i →
  NcuRemapBytecodeOperands_loop (S fuel) maps (length pre) (pre ++ enc_instr i ++ post, log) =
  NcuRemapBytecodeOperands_loop fuel maps (length (pre ++ enc_instr (remap_instr maps i)))
    ((pre ++ enc_instr (remap_instr maps i)) ++ post, log ++ remap_diag maps i).
Proof.
  intros Hwf. cbn [NcuRemapBytecodeOperands_loop fst].
  rewrite decide_True by (rewrite !length_app; simpl; lia).
  rewrite at_pc, derefE, bindE, op_of_byte_op. cbv zeta.
  pose proof (patch_all_asm maps pre i post log Hwf) as HP. unfold patch_all in HP.
  apply bind_Ok in HP as (s1 & H1 & HP). apply bind_Ok in HP as (s2 & H2 & H3).
  rewrite H1, bindE, H2, bindE, H3, bindE, length_enc_instr, bindE by done.
  by rewrite length_app, remap_instr_length, app_assoc by done.
Qed.

Lemma remap_asm maps prog :
  Forall wf_instr prog →
  NcuRemapBytecodeOperands maps (asm prog) =
    Ok (asm (remap_instr maps <$> prog), prog ≫= remap_diag maps).
Proof.
  intros Hwf. unfold NcuRemapBytecodeOperands.
  assert (∀ fuel pre log, (length prog ≤ fuel)%nat →
    NcuRemapBytecodeOperands_loop fuel maps (length pre) (pre ++ asm prog, log)
      = Ok (pre ++ asm (remap_instr maps <$> prog), log ++ (prog ≫= remap_diag maps))) as G.
  { induction Hwf as [|i prog Hi _ IH]; intros fuel pre log Hf.
    - destruct fuel; simpl; rewrite decide_False by (rewrite app_nil_r; lia);
        by rewrite !app_nil_r.
    - destruct fuel as [|fuel]; simpl in Hf; [lia|].
      rewrite asm_cons, remap_loop_step, IH by (done || lia).
      by rewrite fmap_cons, asm_cons, bind_cons, <- !app_assoc. }
  apply (G _ [] []). apply length_asm.
Qed.

(** linking a unit rewrites, in its assembled code, exactly the table
    operand of each instruction through the map of its table, whatever other
    bytes look like table indices; it reports the unmapped ones and always
    runs to the end of the code. *)
Theorem NcuRemapBytecodeOperands_asm maps prog :
  Forall wf_instr prog →
  NcuRemapBytecodeOperands maps (asm prog) =
    Ok (asm (remap_instr maps <$> prog), prog ≫= remap_diag maps).
Proof. apply remap_asm. Qed.

Definition demo_maps : NcuOperandMaps :=
  OperandMaps {[0 := 5]} {[3 := 300]} {[1 := 2]} {[1 := 9]} ∅ {[4 := 6]} ∅ ∅.
Definition demo_prog : list instr :=
  [Instr OP_ConstString [0]; Instr OP_CallFunc [3; 0]; Instr OP_ClassInitGate [1; 44; 1];
   Instr OP_ClassInitDone [1; 0]; Instr OP_AllocArrayN [0; 7; 2; 0]; Instr OP_Return []].

Lemma NcuRemapBytecodeOperands_asm_witness :
  Forall wf_instr demo_prog ∧
  NcuRemapBytecodeOperands demo_maps (asm demo_prog) =
  Ok (asm [Instr OP_ConstString [5]; Instr OP_CallFunc [300; 0];
           Instr OP_ClassInitGate [9; 44; 1]; Instr OP_ClassInitDone [2; 0];
           Instr OP_AllocArrayN [0; 7; 2; 0]; Instr OP_Return []],
      [("array type"%string, 7)]).
Proof.
  split.
  - apply (bool_decide_unpack (Forall wf_instr _)). vm_compute. exact I.
  - apply (NcuRemapBytecodeOperands_asm demo_maps demo_prog).
    apply (bool_decide_unpack (Forall wf_instr _)). vm_compute. exact I.
Defined.

Lemma remap_instr_anchor maps pc i : anchors pc [remap_instr maps i] = anchors pc [i].
Proof.
  destruct (decide (i_op i = OP_DebugInfo)) as [E|N].
  - destruct i as [op args]. simpl in E. by subst op.
  - rewrite !anchors_not_debug by (rewrite ?remap_instr_op; done). done.
Qed.

(** linking keeps every instruction boundary: breakpoints resolve to the
    same lines and pcs before and after. *)
Theorem remap_preserves_line_map maps prog bc log :
  Forall wf_instr prog →
  NcuRemapBytecodeOperands maps (asm prog) = Ok (bc, log) →
  length bc = length (asm prog) ∧ BuildLinePcMap bc = BuildLinePcMap (asm prog).
Proof.
  intros Hwf. rewrite NcuRemapBytecodeOperands_asm by done. intros [= <- _].
  assert (Forall wf_instr (remap_instr maps <$> prog)) as Hwf'
    by (apply Forall_fmap; eapply Forall_impl; [|exact Hwf];
        intros i; apply remap_instr_wf).
  split.
  - clear Hwf'. induction Hwf as [|i prog Hi _ IH]; [done|].
    rewrite fmap_cons, !asm_cons, !length_app, IH. by rewrite remap_instr_length.
  - rewrite !BuildLinePcMap_asm by done. f_equal. clear Hwf'. generalize 0%nat.
    induction Hwf as [|i prog Hi _ IH]; intros pc; [done|].
    rewrite fmap_cons, anchors_cons, (anchors_cons pc i).
    by rewrite remap_instr_length, IH, remap_instr_anchor by done.
Qed.

Lemma remap_preserves_line_map_witness :
  ∃ bc log, NcuRemapBytecodeOperands demo_maps (asm demo_prog) = Ok (bc, log)
    ∧ length bc = 30%nat.
Proof.
  destruct (NcuRemapBytecodeOperands demo_maps (asm demo_prog)) as [[bc log]|e] eqn:E;
    [|vm_compute in E; discriminate E].
  exists bc, log. split; [done|].
  assert (Forall wf_instr demo_prog) as Hwf
    by (apply (bool_decide_unpack (Forall wf_instr _)); vm_compute; exact I).
  destruct (remap_preserves_line_map demo_maps demo_prog bc log Hwf E) as [Hl _].
  rewrite Hl. vm_compute. reflexivity.
Defined.

(** identity maps leave the code untouched (the main unit of a link). *)
Theorem remap_identity maps prog :
  Forall wf_instr prog →
  (∀ t v n, map_of maps t !! v = Some n → n = v) →
  ∃ log, NcuRemapBytecodeOperands maps (asm prog) = Ok (asm prog, log).
Proof.
  intros Hwf Hid. exists (prog ≫= remap_diag maps).
  rewrite NcuRemapBytecodeOperands_asm by done. do 3 f_equal.
  rewrite <- (list_fmap_id prog) at 2. apply list_fmap_ext. intros k i Hk. simpl.
  assert (wf_instr i) as Hi by (eapply Forall_lookup_1; done).
  unfold remap_instr. destruct (table_operand i) as [[j t]|] eqn:Ht; [|done].
  destruct (map_of maps t !! nth_arg i j) as [n|] eqn:Hm; [|done].
  apply Hid in Hm as ->. apply table_operand_shape in Ht.
  destruct (enc_instr_split i j Hi Ht) as (Hr & _). unfold set_arg.
  rewrite wrap_small by done. rewrite list_insert_id; [by destruct i|].
  unfold nth_arg. destruct (nth_lookup_or_length (i_args i) j 0) as [|Hlen]; [done|].
  apply lookup_lt_Some in Ht. apply Forall2_length in Hi. lia.
Qed.

Lemma remap_identity_witness :
  ∃ log, NcuRemapBytecodeOperands (OperandMaps {[0 := 0]} ∅ ∅ ∅ ∅ ∅ ∅ ∅) (asm demo_prog)
    = Ok (asm demo_prog, log).
Proof.
  apply (remap_identity (OperandMaps {[0 := 0]} ∅ ∅ ∅ ∅ ∅ ∅ ∅) demo_prog).
  - apply (bool_decide_unpack (Forall wf_instr _)). vm_compute. exact I.
  - intros [] v n; simpl; try done. intros [<- <-]%lookup_singleton_Some. done.
Defined.

(** the type operand of [OP_AllocArrayDyn] (an array-type table index, as in
    [OP_AllocArrayN]) is in no remap pass: whatever the merged table, the linked
    instruction keeps the index of its own unit, and no diagnostic is given,
    while the same index in [OP_AllocArrayN] is moved. *)
Theorem AllocArrayDyn_type_not_remapped maps dst typeIdx dims rank n :
  is_uint 16 dst → is_uint 16 typeIdx → is_uint 16 dims → is_uint 16 rank →
  arrayTypes maps !! typeIdx = Some n →
  NcuRemapBytecodeOperands maps
    (asm [Instr OP_AllocArrayDyn [dst; typeIdx; dims];
          Instr OP_AllocArrayN [dst; typeIdx; rank; dims]]) =
  Ok (asm [Instr OP_AllocArrayDyn [dst; typeIdx; dims];
           Instr OP_AllocArrayN [dst; u16 n; rank; dims]], []).
Proof.
  intros Hd Ht Hs Hr Hn. rewrite NcuRemapBytecodeOperands_asm.
  - cbn [fmap list_fmap]. unfold remap_instr, remap_diag. simpl.
    unfold nth_arg. simpl. rewrite Hn. done.
  - repeat first [assumption | constructor].
Qed.

Lemma AllocArrayDyn_type_not_remapped_witness :
  NcuRemapBytecodeOperands demo_maps
    (asm [Instr OP_AllocArrayDyn [0; 4; 8]; Instr OP_AllocArrayN [0; 4; 1; 8]]) =
  Ok (asm [Instr OP_AllocArrayDyn [0; 4; 8]; Instr OP_AllocArrayN [0; 6; 1; 8]], []).
Proof.
  apply (AllocArrayDyn_type_not_remapped demo_maps 0 4 8 1 6);
    try (unfold is_uint; vm_compute; split; congruence); reflexivity.
Defined.
