(* ===== verification/Package.v ===== *)
(** * Package archives

    Models [src/src/vm/NcuPackage.cpp] with [nlang/vm/NcuPackage.h]: the writer
    and the reader of the [.npkg] container.  A file is its byte sequence; the
    host is little-endian (the code copies integers with [memcpy]).  The
    [false] results with an [*error] text are [Raise (RuntimeError text)].  The
    reader object after a failed [Open] is not modelled (the next [Open] clears
    it first). *)
From stdpp Require Import sorting pretty.
From S2P Require Import Prelude.
Open Scope Z_scope.

(** ** Primitives *)
Definition NPKG_MAGIC : bytes := [78; 76; 65; 78; 71; 80; 75; 71].
Definition NPKG_FORMAT_MAJOR : Z := 1.
Definition NPKG_FORMAT_MINOR : Z := 0.
Definition NPKG_SIGNATURE_ALGO_NONE : Z := 0.

Definition PutU16 (out : bytes) (v : Z) : bytes := out ++ le_bytes 2 v.
Definition PutU32 (out : bytes) (v : Z) : bytes := out ++ le_bytes 4 v.
Definition PutU64 (out : bytes) (v : Z) : bytes := out ++ le_bytes 8 v.
Definition PutLenBytes (out bs : bytes) : bytes :=
  PutU16 out (u16 (Z.of_nat (length bs))) ++ bs.

(** [memcpy] from [image.data() + pos]; a [std::string] ends with a readable NUL. *)
Definition GetLE (n : nat) (image : bytes) (pos : nat) : outcome Z :=
  bs ← deref (slice pos n (image ++ [0])); Ok (le_value bs).
Definition GetU16 := GetLE 2.
Definition GetU32 := GetLE 4.
Definition GetU64 := GetLE 8.

(** [std::string::substr] *)
Definition substr (image : bytes) (pos n : nat) : outcome bytes :=
  _ ← check (bool_decide (pos ≤ length image)%nat) (RuntimeError "out_of_range");
  Ok (take n (drop pos image)).

Definition text (bs : bytes) : string :=
  foldr (λ b s, String (Ascii.ascii_of_N (Z.to_N b)) s) EmptyString bs.

Definition NcuChecksum (data : bytes) : Z :=
  foldl (λ hash b, u64 (Z.lxor hash b * 1099511628211)) 14695981039346656037 data.

Record NcuEntryRecord := EntryRecord { er_modulePath : bytes; er_functionName : bytes }.
Record NcuMember := Member { modulePath : bytes; member_bytes : bytes; checksum : Z }.
#[export] Instance NcuMember_eq_dec : EqDecision NcuMember.
Proof. solve_decision. Defined.
#[export] Instance NcuEntryRecord_eq_dec : EqDecision NcuEntryRecord.
Proof. solve_decision. Defined.

(** ** Writer: the vector [m_members] *)
Definition AddMember (members : list NcuMember) (m : NcuMember) : bool * list NcuMember :=
  if decide (modulePath m ∈ (modulePath <$> members)) then (false, members)
  else (true, members ++ [Member (modulePath m) (member_bytes m)
                                 (NcuChecksum (member_bytes m))]).

Definition BuildNpkgHeader (packageName : bytes) (entryRecord : option NcuEntryRecord)
    (memberCount : Z) : bytes :=
  let header := NPKG_MAGIC in
  let header := PutU16 header NPKG_FORMAT_MAJOR in
  let header := PutU16 header NPKG_FORMAT_MINOR in
  let header := PutLenBytes header packageName in
  let header := PutU32 header 0 in
  let header := PutU16 header NPKG_SIGNATURE_ALGO_NONE in
  let header := PutU64 header 0 in
  let header := PutU64 header 0 in
  let header := PutU32 header (u32 memberCount) in
  match entryRecord with
  | Some r => PutLenBytes (PutLenBytes header (er_modulePath r)) (er_functionName r)
  | None => header ++ [0]
  end.

(** The loop of [BuildNpkgTable]: the table so far and the running offset. *)
Fixpoint BuildNpkgTable_loop (table : bytes) (offset : Z) (members : list NcuMember) : bytes :=
  match members with
  | [] => table
  | m :: members =>
      let table := PutLenBytes table (modulePath m) in
      let table := PutU64 table offset in
      let table := PutU64 table (Z.of_nat (length (member_bytes m))) in
      let table := PutU64 table (checksum m) in
      BuildNpkgTable_loop table (u64 (offset + Z.of_nat (length (member_bytes m)))) members
  end.
Definition BuildNpkgTable (members : list NcuMember) (blobBase : Z) : bytes :=
  BuildNpkgTable_loop [] blobBase members.

(** [std::string::operator<] compares bytes as unsigned. *)
Fixpoint path_leb (a b : bytes) : bool :=
  match a, b with
  | [], _ => true
  | _ :: _, [] => false
  | x :: a, y :: b => (x <? y) || ((x =? y) && path_leb a b)
  end.
Definition member_le (a b : NcuMember) : Prop := path_leb (modulePath a) (modulePath b) = true.
#[export] Instance member_le_dec : RelDecision member_le.
Proof. unfold member_le. intros a b. apply _. Defined.

(** The image [Write] builds and the members it leaves (sorted by [std::sort]). *)
Definition BuildImage (members : list NcuMember) (packageName : bytes)
    (entryRecord : option NcuEntryRecord) : list NcuMember * bytes :=
  let members := merge_sort member_le members in
  let header := BuildNpkgHeader packageName entryRecord (Z.of_nat (length members)) in
  let probe := BuildNpkgTable members 0 in
  let table := BuildNpkgTable members (u64 (Z.of_nat (length header + length probe))) in
  (members, (header ++ table) ++ (members ≫= member_bytes)).

(** [fs_open], [fs_write]: whether the stream is good after the constructor and
    after the write.  Returns the bytes handed to the file. *)
Definition Write (fs_open fs_write : bool) (path : string) (members : list NcuMember)
    (packageName : bytes) (entryRecord : option NcuEntryRecord)
    : list NcuMember * outcome bytes :=
  let '(members, out) := BuildImage members packageName entryRecord in
  (members,
   if fs_open && fs_write then Ok out
   else Raise (RuntimeError ("cannot write package file: " +:+ path))).

(** ** Reader *)
Definition ParseNpkgHeader (image : bytes) : outcome (bytes * nat) :=
  _ ← check (bool_decide (8 ≤ length image)%nat && bool_decide (take 8 image = NPKG_MAGIC))
        (RuntimeError "Invalid package: bad magic");
  _ ← check (bool_decide (12 ≤ length image)%nat)
        (RuntimeError "Invalid package: truncated header");
  major ← GetU16 image 8;
  minor ← GetU16 image 10;
  _ ← check (bool_decide (major = NPKG_FORMAT_MAJOR) && bool_decide (minor ≤ NPKG_FORMAT_MINOR))
        (RuntimeError ("Invalid package: unsupported format version "
                         +:+ pretty (Z.to_N major) +:+ "." +:+ pretty (Z.to_N minor)));
  pkgNameLen ← GetU16 image 12;
  let n := Z.to_nat pkgNameLen in
  _ ← check (bool_decide (12 + 2 + n + 4 + 1 + 8 + 8 + 4 ≤ length image)%nat)
        (RuntimeError "Invalid package: truncated header");
  name ← substr image (12 + 2) n;
  Ok (name, (12 + (2 + n + 4 + 18))%nat).

Definition bad (path what : string) : vm_error :=
  RuntimeError ("Invalid package '" +:+ path +:+ "': " +:+ what).

Definition ParseEntryRecord (image : bytes) (pos : nat) (path : string)
    : outcome (option NcuEntryRecord * nat) :=
  _ ← check (bool_decide (pos < length image)%nat) (bad path "truncated header");
  b ← deref (image !! pos);
  if decide (b = 0) then Ok (None, S pos) else
  modulePathLen ← GetU16 image pos;
  let pos := (pos + 2)%nat in let n := Z.to_nat modulePathLen in
  _ ← check (bool_decide (pos + n ≤ length image)%nat) (bad path "truncated entry record");
  mp ← substr image pos n;
  let pos := (pos + n)%nat in
  functionNameLen ← GetU16 image pos;
  let pos := (pos + 2)%nat in let n := Z.to_nat functionNameLen in
  _ ← check (bool_decide (pos + n ≤ length image)%nat) (bad path "truncated entry record");
  fn ← substr image pos n;
  Ok (Some (EntryRecord mp fn), (pos + n)%nat).

(** One row: the member and the next position. *)
Definition ParseMember (image : bytes) (pos : nat) (path : string) : outcome (NcuMember * nat) :=
  _ ← check (bool_decide (pos + 2 ≤ length image)%nat) (bad path "truncated member table");
  pathLen ← GetU16 image pos;
  let pos := (pos + 2)%nat in let n := Z.to_nat pathLen in
  _ ← check (bool_decide (pos + n + 8 * 3 ≤ length image)%nat) (bad path "truncated member table");
  mp ← substr image pos n;
  let pos := (pos + n)%nat in
  offset ← GetU64 image pos;
  len ← GetU64 image (pos + 8);
  sum ← GetU64 image (pos + 16);
  let size := Z.of_nat (length image) in
  _ ← check (bool_decide (offset ≤ size) && bool_decide (len ≤ u64 (size - offset)))
        (bad path ("member '" +:+ text mp +:+ "' is out of bounds"));
  bs ← substr image (Z.to_nat offset) (Z.to_nat len);
  Ok (Member mp bs sum, (pos + 8 * 3)%nat).

(** The three parallel vectors of the reader are one list of rows. *)
Fixpoint ParseMemberTable (image : bytes) (pos : nat) (memberCount : nat) (path : string)
    (rows : list NcuMember) : outcome (list NcuMember * nat) :=
  match memberCount with
  | O => Ok (rows, pos)
  | S memberCount =>
      '(m, pos) ← ParseMember image pos path;
      ParseMemberTable image pos memberCount path (rows ++ [m])
  end.

Record NcuPackageReader := PackageReader {
  m_packageName : bytes; m_members : list NcuMember; m_entry : option NcuEntryRecord
}.

(** [file]: the contents, or [None] when the stream does not open. *)
Definition Open (r : NcuPackageReader) (path : string) (file : option bytes)
    : outcome NcuPackageReader :=
  match file with
  | None => Raise (RuntimeError ("cannot open package file: " +:+ path))
  | Some image =>
      '(name, pos) ← ParseNpkgHeader image;
      memberCount ← GetU32 image pos;
      '(entry, pos) ← ParseEntryRecord image (pos + 4) path;
      '(rows, _) ← ParseMemberTable image pos (Z.to_nat memberCount) path [];
      Ok (PackageReader name rows entry)
  end.

Definition ExtractMember (r : NcuPackageReader) (mp : bytes) : outcome bytes :=
  match list_find (λ m, modulePath m = mp) (m_members r) with
  | Some (_, m) =>
      if decide (NcuChecksum (member_bytes m) = checksum m) then Ok (member_bytes m)
      else Raise (RuntimeError ("Package '" +:+ text (m_packageName r) +:+ "': member '"
                                 +:+ text mp +:+ "' failed its checksum"))
  | None => Raise (RuntimeError ("Package '" +:+ text (m_packageName r) +:+ "': member '"
                                 +:+ text mp +:+ "' is not a member of the package"))
  end.

(** ** The container layout *)
Definition len_bytes (bs : bytes) : bytes := le_bytes 2 (u16 (Z.of_nat (length bs))) ++ bs.
Definition entry_bytes (e : option NcuEntryRecord) : bytes :=
  match e with
  | Some r => len_bytes (er_modulePath r) ++ len_bytes (er_functionName r)
  | None => [0]
  end.
Definition row_bytes (offset : Z) (m : NcuMember) : bytes :=
  len_bytes (modulePath m) ++ le_bytes 8 offset
    ++ le_bytes 8 (Z.of_nat (length (member_bytes m))) ++ le_bytes 8 (checksum m).
Fixpoint table_bytes (offset : Z) (ms : list NcuMember) : bytes :=
  match ms with
  | [] => []
  | m :: ms => row_bytes offset m
      ++ table_bytes (u64 (offset + Z.of_nat (length (member_bytes m)))) ms
  end.

Lemma BuildNpkgHeader_layout name e n :
  BuildNpkgHeader name e n =
    NPKG_MAGIC ++ le_bytes 2 1 ++ le_bytes 2 0 ++ len_bytes name ++ le_bytes 4 0
      ++ le_bytes 2 0 ++ le_bytes 8 0 ++ le_bytes 8 0 ++ le_bytes 4 (u32 n) ++ entry_bytes e.
Proof.
  unfold BuildNpkgHeader, PutLenBytes, PutU16, PutU32, PutU64, len_bytes, entry_bytes.
  destruct e; by rewrite <- !app_assoc.
Qed.

Lemma BuildNpkgTable_layout ms off : BuildNpkgTable ms off = table_bytes off ms.
Proof.
  unfold BuildNpkgTable. enough (∀ t, BuildNpkgTable_loop t off ms = t ++ table_bytes off ms)
    as -> by done.
  revert off. induction ms as [|m ms IH]; intros off t; cbn [BuildNpkgTable_loop table_bytes].
  - by rewrite app_nil_r.
  - rewrite IH. unfold row_bytes, PutLenBytes, PutU16, PutU64, len_bytes.
    by rewrite <- !app_assoc.
Qed.

Lemma length_table_bytes off off' ms :
  length (table_bytes off ms) = length (table_bytes off' ms).
Proof.
  revert off off'. induction ms as [|m ms IH]; intros off off'; [done|].
  cbn [table_bytes]. unfold row_bytes. rewrite !length_app, !length_le_bytes. by erewrite IH.
Qed.

(** ** Reading back what was put *)
Lemma GetLE_occurs n image pos v :
  occurs image pos (le_bytes n v) → GetLE n image pos = Ok (v mod 2 ^ (8 * Z.of_nat n)).
Proof.
  intros H. unfold GetLE. apply (occurs_weaken _ [0]), occurs_slice in H.
  rewrite length_le_bytes in H. by rewrite H, derefE, bindE, le_value_bytes.
Qed.

Lemma GetU16_occurs image pos v :
  is_uint 16 v → occurs image pos (le_bytes 2 v) → GetU16 image pos = Ok v.
Proof. intros Hv H. unfold GetU16. rewrite (GetLE_occurs _ _ _ v) by done. by rewrite Z.mod_small. Qed.
Lemma GetU32_occurs image pos v :
  is_uint 32 v → occurs image pos (le_bytes 4 v) → GetU32 image pos = Ok v.
Proof. intros Hv H. unfold GetU32. rewrite (GetLE_occurs _ _ _ v) by done. by rewrite Z.mod_small. Qed.
Lemma GetU64_occurs image pos v :
  is_uint 64 v → occurs image pos (le_bytes 8 v) → GetU64 image pos = Ok v.
Proof. intros Hv H. unfold GetU64. rewrite (GetLE_occurs _ _ _ v) by done. by rewrite Z.mod_small. Qed.

Lemma substr_occurs image pos bs :
  occurs image pos bs → substr image pos (length bs) = Ok bs.
Proof.
  intros H. unfold substr. pose proof (occurs_length _ _ _ H).
  rewrite bool_decide_true by lia. rewrite occurs_take_drop by done. done.
Qed.

Definition short (bs : bytes) : Prop := Z.of_nat (length bs) < 65536.

Lemma short_u16 bs : short bs → is_uint 16 (Z.of_nat (length bs)).
Proof. unfold short, is_uint. change (2 ^ 16) with 65536. lia. Qed.

Lemma len_bytes_occurs image pos bs :
  short bs → occurs image pos (len_bytes bs) →
  GetU16 image pos = Ok (Z.of_nat (length bs)) ∧ occurs image (pos + 2) bs
  ∧ (pos + 2 + length bs ≤ length image)%nat.
Proof.
  intros Hs%short_u16 H. unfold len_bytes in H. rewrite wrap_small in H by done.
  apply occurs_app in H as [H1 H2]. rewrite length_le_bytes in H2.
  pose proof (occurs_length _ _ _ H2). by rewrite (GetU16_occurs _ _ _ Hs H1).
Qed.

Definition entry_ok (e : option NcuEntryRecord) : Prop :=
  match e with
  | Some r => short (er_modulePath r) ∧ short (er_functionName r)
              ∧ Z.of_nat (length (er_modulePath r)) mod 256 ≠ 0
  | None => True
  end.

Lemma ParseEntryRecord_spec image pos e path :
  entry_ok e → occurs image pos (entry_bytes e) →
  ParseEntryRecord image pos path = Ok (e, (pos + length (entry_bytes e))%nat).
Proof.
  intros He H. pose proof (occurs_length _ _ _ H) as Hl. unfold ParseEntryRecord.
  destruct e as [[mp fn]|];
    cbn [entry_bytes entry_ok er_modulePath er_functionName] in *.
  - destruct He as (Hmp & Hfn & Hnz).
    assert (image !! pos = Some (Z.land (u16 (Z.of_nat (length mp))) 255)) as Hb
      by exact (occurs_lookup _ _ _ _ H).
    apply occurs_app in H as [H1 H2]. rewrite length_app in Hl.
    destruct (len_bytes_occurs _ _ _ Hmp H1) as (E1 & O1 & L1).
    assert (length (len_bytes mp) = 2 + length mp)%nat as Lm
      by (unfold len_bytes; by rewrite length_app, length_le_bytes).
    assert (length (len_bytes fn) = 2 + length fn)%nat as Lf
      by (unfold len_bytes; by rewrite length_app, length_le_bytes).
    rewrite Lm in H2, Hl. rewrite Lf in Hl.
    replace (pos + (2 + length mp))%nat with (pos + 2 + length mp)%nat in H2 by lia.
    destruct (len_bytes_occurs _ _ _ Hfn H2) as (E2 & O2 & L2).
    rewrite bool_decide_true by lia. cbn [check]. rewrite bindE, Hb, derefE, bindE.
    rewrite decide_False.
    2:{ rewrite land_255, wrap_small by (by apply short_u16). done. }
    rewrite E1, bindE. cbv zeta. rewrite Nat2Z.id, bool_decide_true by lia. cbn [check].
    rewrite bindE, (substr_occurs _ _ _ O1), bindE, E2, bindE, Nat2Z.id.
    rewrite bool_decide_true by lia. cbn [check].
    rewrite bindE, (substr_occurs _ _ _ O2), bindE. rewrite length_app, Lm, Lf.
    do 2 f_equal. lia.
  - simpl in Hl. rewrite bool_decide_true by lia. cbn [check].
    rewrite bindE, (occurs_lookup _ _ _ _ H), derefE, bindE. cbn. do 2 f_equal. lia.
Qed.

Definition size_ok (image : bytes) : Prop := Z.of_nat (length image) < 2 ^ 64.

Lemma ParseMember_spec image pos off m path :
  size_ok image → short (modulePath m) → is_uint 64 (checksum m) → 0 ≤ off →
  occurs image pos (row_bytes off m) →
  occurs image (Z.to_nat off) (member_bytes m) →
  ParseMember image pos path = Ok (m, (pos + length (row_bytes off m))%nat).
Proof.
  intros Hsz Hs Hc Hoff H Hb. unfold size_ok in Hsz.
  pose proof (occurs_length _ _ _ H) as Hl. pose proof (occurs_length _ _ _ Hb) as Hbl.
  unfold row_bytes in H, Hl |- *. unfold len_bytes in Hl |- *.
  rewrite !length_app, !length_le_bytes in Hl. rewrite !length_app, !length_le_bytes.
  apply occurs_app in H as [H1 H2].
  destruct (len_bytes_occurs _ _ _ Hs H1) as (E1 & O1 & _).
  unfold len_bytes in H2. rewrite length_app, length_le_bytes in H2.
  apply occurs_app in H2 as [H2 H3]. apply occurs_app in H3 as [H3 H4].
  rewrite length_le_bytes in H3, H4. rewrite length_le_bytes in H4.
  apply GetU64_occurs in H2; [|unfold is_uint; lia].
  apply GetU64_occurs in H3; [|unfold is_uint; lia].
  apply GetU64_occurs in H4; [|done].
  unfold ParseMember. rewrite bool_decide_true by lia. cbn [check].
  rewrite bindE, E1, bindE. cbv zeta. rewrite Nat2Z.id, bool_decide_true by lia.
  cbn [check]. rewrite bindE, (substr_occurs _ _ _ O1), bindE.
  replace (pos + 2 + length (modulePath m))%nat
    with (pos + (2 + length (modulePath m)))%nat by lia.
  rewrite H2, bindE, H3, bindE.
  replace (pos + (2 + length (modulePath m)) + 16)%nat
    with (pos + (2 + length (modulePath m)) + 8 + 8)%nat by lia.
  rewrite H4, bindE. cbv zeta.
  rewrite wrap_small by (unfold is_uint; lia).
  rewrite !bool_decide_true by lia. cbn [check andb].
  rewrite bindE, Nat2Z.id, (substr_occurs _ _ _ Hb), bindE. destruct m.
  simpl. do 2 f_equal. lia.
Qed.

Definition rows_ok (ms : list NcuMember) : Prop :=
  Forall (λ m, short (modulePath m) ∧ is_uint 64 (checksum m)) ms.

Lemma ParseMemberTable_spec image path ms : ∀ pos off rows,
  size_ok image → rows_ok ms → 0 ≤ off →
  occurs image pos (table_bytes off ms) →
  occurs image (Z.to_nat off) (ms ≫= member_bytes) →
  ParseMemberTable image pos (length ms) path rows =
    Ok (rows ++ ms, (pos + length (table_bytes off ms))%nat).
Proof.
  induction ms as [|m ms IH]; intros pos off rows Hsz Hok Hoff H Hb.
  - simpl. by rewrite app_nil_r, Nat.add_0_r.
  - apply Forall_cons_1 in Hok as [[Hs Hc] Hok].
    cbn [table_bytes] in H |- *. apply occurs_app in H as [H1 H2].
    rewrite bind_cons in Hb. apply occurs_app in Hb as [Hb1 Hb2].
    pose proof (occurs_length _ _ _ Hb1) as Hl. unfold size_ok in Hsz.
    cbn [length ParseMemberTable].
    rewrite (ParseMember_spec _ _ off m) by done. rewrite bindE.
    rewrite wrap_small in H2 |- * by (unfold is_uint; lia).
    rewrite (IH _ (off + Z.of_nat (length (member_bytes m)))); [|done..|lia|done|].
    + rewrite <- app_assoc, length_app, Nat.add_assoc. done.
    + replace (Z.to_nat _) with (Z.to_nat off + length (member_bytes m))%nat by lia. done.
Qed.

(** ** Sorting by module path *)
Lemma path_leb_total a b : path_leb a b = true ∨ path_leb b a = true.
Proof.
  revert b. induction a as [|x a IH]; intros [|y b]; simpl; auto.
  destruct (Z.ltb_spec x y), (Z.ltb_spec y x), (Z.eqb_spec x y), (Z.eqb_spec y x);
    simpl; auto; lia.
Qed.
Lemma path_leb_antisym a b : path_leb a b = true → path_leb b a = true → a = b.
Proof.
  revert b. induction a as [|x a IH]; intros [|y b]; simpl; try done.
  destruct (Z.ltb_spec x y), (Z.ltb_spec y x), (Z.eqb_spec x y), (Z.eqb_spec y x);
    simpl; try lia; try done. intros H1 H2. subst. f_equal. auto.
Qed.
Lemma path_leb_trans a b c :
  path_leb a b = true → path_leb b c = true → path_leb a c = true.
Proof.
  revert b c. induction a as [|x a IH]; intros [|y b] [|z c]; simpl; try done.
  destruct (Z.ltb_spec x y), (Z.ltb_spec y z), (Z.eqb_spec x y), (Z.eqb_spec y z),
    (Z.ltb_spec x z), (Z.eqb_spec x z); simpl; try lia; try done. eauto.
Qed.
#[export] Instance member_le_total : Total member_le.
Proof. intros a b. apply path_leb_total. Qed.
#[export] Instance member_le_trans : Transitive member_le.
Proof. intros a b c. apply path_leb_trans. Qed.

(** ** Writer invariant *)
Definition wf_writer (ms : list NcuMember) : Prop :=
  NoDup (modulePath <$> ms) ∧ Forall (λ m, checksum m = NcuChecksum (member_bytes m)) ms.

Lemma NcuChecksum_uint bs : is_uint 64 (NcuChecksum bs).
Proof.
  unfold NcuChecksum. assert (is_uint 64 14695981039346656037) as H by done.
  revert H. generalize 14695981039346656037.
  induction bs as [|b bs IH]; intros h Hh; [done|]. apply IH, wrap_range. lia.
Qed.

(** [AddMember] keeps the paths distinct and the checksums those of the
    bytes; it adds a new path and refuses an existing one without effect. *)
Theorem AddMember_invariant ms m b ms' :
  wf_writer ms → AddMember ms m = (b, ms') →
  wf_writer ms' ∧
  (if b then (modulePath m ∉ (modulePath <$> ms))
             ∧ ms' = (ms ++ [Member (modulePath m) (member_bytes m) (NcuChecksum (member_bytes m))])
   else modulePath m ∈ (modulePath <$> ms) ∧ ms' = ms).
Proof.
  intros [Hnd Hck]. unfold AddMember. case_decide as Hin; intros [= <- <-].
  { by split. }
  split; [|done]. split.
  - rewrite fmap_app. apply list.NoDup_app. split_and!; [done| |apply NoDup_singleton].
    simpl. intros p Hp ->%list_elem_of_singleton. done.
  - apply Forall_app. split; [done|]. by repeat constructor.
Qed.

Lemma AddMember_invariant_witness :
  wf_writer (AddMember [Member [97] [1] (NcuChecksum [1])] (Member [98] [2; 3] 0)).2.
Proof.
  eapply (AddMember_invariant [Member [97] [1] (NcuChecksum [1])] (Member [98] [2; 3] 0)).
  - split; [apply NoDup_singleton|by repeat constructor].
  - reflexivity.
Defined.

Lemma merge_sort_rows ms :
  merge_sort member_le ms ≡ₚ ms ∧ StronglySorted member_le (merge_sort member_le ms).
Proof. split; [apply merge_sort_Permutation|by apply (StronglySorted_merge_sort member_le)]. Qed.

(** packing is deterministic: the image depends on the set of members, not
    on the order they were added in. *)
Theorem BuildImage_deterministic ms1 ms2 name e :
  wf_writer ms1 → ms1 ≡ₚ ms2 → BuildImage ms1 name e = BuildImage ms2 name e.
Proof.
  intros [Hnd _] Hp. unfold BuildImage.
  enough (merge_sort member_le ms1 = merge_sort member_le ms2) as -> by done.
  destruct (merge_sort_rows ms1) as [P1 S1], (merge_sort_rows ms2) as [P2 S2].
  apply (StronglySorted_unique_strong member_le); [|done..|by rewrite P1, P2].
  intros a b Ha Hb Hab Hba. rewrite P1 in Ha. rewrite P2, <- Hp in Hb.
  pose proof (path_leb_antisym _ _ Hab Hba) as Heq.
  apply list_elem_of_lookup in Ha as [i Hi], Hb as [j Hj].
  assert (i = j) as ->; [|congruence].
  eapply (NoDup_lookup _ _ _ (modulePath a) Hnd); rewrite list_lookup_fmap.
  - by rewrite Hi.
  - by rewrite Hj, Heq.
Qed.

Lemma BuildImage_deterministic_witness :
  let a := Member [97] [1] (NcuChecksum [1]) in let b := Member [98] [2; 3] (NcuChecksum [2; 3]) in
  BuildImage [a; b] [112] None = BuildImage [b; a] [112] None.
Proof.
  apply (BuildImage_deterministic
    [Member [97] [1] (NcuChecksum [1]); Member [98] [2; 3] (NcuChecksum [2; 3])]
    [Member [98] [2; 3] (NcuChecksum [2; 3]); Member [97] [1] (NcuChecksum [1])]).
  - split; [|by repeat constructor].
    apply (bool_decide_unpack (NoDup [[97]; [98]])). vm_compute. exact I.
  - apply Permutation_swap.
Defined.

(** ** Round trip *)
Lemma ParseNpkgHeader_spec image name e n :
  short name → occurs image 0 (BuildNpkgHeader name e n) →
  ParseNpkgHeader image = Ok (name, (36 + length name)%nat)
  ∧ GetU32 image (36 + length name) = Ok (u32 n)
  ∧ occurs image (40 + length name) (entry_bytes e).
Proof.
  intros Hs. rewrite BuildNpkgHeader_layout. intros H.
  assert (1 ≤ length (entry_bytes e))%nat as He
    by (destruct e as [[mp fn]|]; simpl; lia).
  repeat match goal with
  | H : occurs _ _ (le_bytes _ _ ++ _) |- _ => apply occurs_app in H as [? H]
  | H : occurs _ _ (len_bytes _ ++ _) |- _ => apply occurs_app in H as [? H]
  | H : occurs _ _ (NPKG_MAGIC ++ _) |- _ => apply occurs_app in H as [? H]
  end.
  unfold len_bytes in *. rewrite ?length_app, ?length_le_bytes in *.
  change (length NPKG_MAGIC) with 8%nat in *.
  pose proof (occurs_length _ _ _ H) as Hl.
  match goal with
  | H0 : occurs image 0 NPKG_MAGIC |- _ =>
      pose proof (occurs_take_drop _ _ _ H0) as Hm; change (length NPKG_MAGIC) with 8%nat in Hm
  end.
  match goal with
  | H0 : occurs image _ (le_bytes 2 _ ++ name) |- _ =>
      apply len_bytes_occurs in H0 as (En & On & _); [|done]
  end.
  repeat match goal with
  | H0 : occurs image _ (le_bytes 2 1) |- _ => apply GetU16_occurs in H0; [|done]
  | H0 : occurs image _ (le_bytes 2 0) |- _ => apply GetU16_occurs in H0; [|done]
  | H0 : occurs image _ (le_bytes 4 (u32 _)) |- _ =>
      apply GetU32_occurs in H0; [|apply wrap_range; lia]
  end. simpl Nat.add in *.
  split_and!.
  - unfold ParseNpkgHeader.
    rewrite !bool_decide_true by first [lia|exact Hm]. cbn [andb check]. rewrite !bindE.
    match goal with
    | H1 : GetU16 image 8 = _, H2 : GetU16 image 10 = _ |- _ => rewrite H1, bindE, H2, bindE
    end.
    rewrite !bool_decide_true by done. cbn [andb check].
    rewrite bindE, En, bindE. cbv zeta. rewrite Nat2Z.id.
    rewrite bool_decide_true by lia. cbn [check].
    rewrite bindE. change (12 + 2)%nat with 14%nat.
    rewrite (substr_occurs _ _ _ On), bindE. do 2 f_equal. lia.
  - match goal with
    | H0 : GetU32 image ?p = _ |- GetU32 image ?q = _ =>
        replace q with p by lia; exact H0
    end.
  - match goal with
    | H0 : occurs image ?p (entry_bytes e) |- occurs image ?q _ =>
        replace q with p by lia; exact H0
    end.
Qed.

Lemma ExtractMember_found r ms m :
  wf_writer ms → m_members r ≡ₚ ms → m ∈ ms →
  ExtractMember r (modulePath m) = Ok (member_bytes m).
Proof.
  intros [Hnd Hck] Hp Hin. unfold ExtractMember.
  destruct (list_find _ (m_members r)) as [[i m']|] eqn:F.
  - apply list_find_index_lt in F as (_ & Hi & Hm').
    apply list_elem_of_lookup_2 in Hi. rewrite Hp in Hi.
    assert (m' = m) as ->.
    { apply list_elem_of_lookup in Hi as [k Hk], Hin as [j Hj].
      assert (k = j) as ->; [|congruence].
      eapply (NoDup_lookup _ _ _ (modulePath m) Hnd); rewrite list_lookup_fmap.
      - by rewrite Hk, <- Hm'.
      - by rewrite Hj. }
    rewrite list.Forall_forall in Hck. by rewrite decide_True by (symmetry; auto).
  - apply list_find_None in F. rewrite list.Forall_forall in F.
    rewrite <- Hp in Hin. by destruct (F m Hin).
Qed.

(** opening a written archive, with a reader in any state, gives back the
    package name, the entry record and exactly the members that were added, each
    extractable with its checksum intact.  The length conditions are those of the
    format's 16-, 32- and 64-bit fields; the entry condition is the one of
    [ParseEntryRecord]'s absent marker. *)
Theorem package_roundtrip ms name e rpath wpath r sorted image :
  wf_writer ms → short name → entry_ok e → Forall (short ∘ modulePath) ms →
  is_uint 32 (Z.of_nat (length ms)) →
  Write true true wpath ms name e = (sorted, Ok image) → size_ok image →
  ∃ r', Open r rpath (Some image) = Ok r'
    ∧ m_packageName r' = name ∧ m_entry r' = e ∧ m_members r' = sorted
    ∧ sorted ≡ₚ ms ∧ StronglySorted member_le sorted
    ∧ ∀ m, m ∈ ms → ExtractMember r' (modulePath m) = Ok (member_bytes m).
Proof.
  intros Hwf Hname He Hshort Hcount. unfold Write, BuildImage. cbn [andb].
  intros [= <- <-] Hsz. destruct (merge_sort_rows ms) as [Hp Hsorted].
  set (S := merge_sort member_le ms) in *.
  assert (is_uint 32 (Z.of_nat (length S))) as Hcount' by (by rewrite Hp).
  assert (rows_ok S) as Hrows.
  { unfold rows_ok. rewrite Hp. destruct Hwf as [_ Hck].
    rewrite list.Forall_forall in Hck, Hshort |- *. intros m Hm.
    split; [by apply (Hshort m)|]. rewrite (Hck m Hm). apply NcuChecksum_uint. }
  rewrite !BuildNpkgTable_layout in *.
  set (H := BuildNpkgHeader name e (Z.of_nat (length S))) in *.
  set (off := u64 (Z.of_nat (length H + length (table_bytes 0 S)))) in *.
  set (image := (H ++ table_bytes off S) ++ (S ≫= member_bytes)) in *.
  assert (off = Z.of_nat (length H + length (table_bytes off S))) as Hoff.
  { rewrite (length_table_bytes off 0). apply wrap_small.
    unfold size_ok, image in Hsz.
    rewrite !length_app, (length_table_bytes off 0) in Hsz. unfold is_uint. lia. }
  pose proof (occurs_whole image) as Ho. unfold image in Ho at 2.
  rewrite <- app_assoc in Ho. apply occurs_app in Ho as [O1 O2].
  apply occurs_app in O2 as [O2 O3]. simpl Nat.add in *.
  destruct (ParseNpkgHeader_spec image name e _ Hname O1) as (P1 & P2 & P3).
  assert (length H = 40 + length name + length (entry_bytes e))%nat as HlH.
  { unfold H. rewrite BuildNpkgHeader_layout. unfold len_bytes.
    rewrite !length_app, !length_le_bytes. change (length NPKG_MAGIC) with 8%nat. lia. }
  exists (PackageReader name S e). cbn [m_packageName m_entry m_members].
  split_and!; [|done..|].
  - unfold Open. rewrite P1, bindE. cbn beta iota. rewrite P2, bindE.
    replace (36 + length name + 4)%nat with (40 + length name)%nat by lia.
    rewrite (ParseEntryRecord_spec _ _ _ _ He P3), bindE. cbn beta iota.
    rewrite wrap_small, Nat2Z.id by done.
    rewrite (ParseMemberTable_spec image rpath S _ off) by
      (first [done | rewrite Hoff; lia | rewrite <- HlH; exact O2
             | rewrite Hoff, Nat2Z.id; exact O3]). done.
  - intros m Hm. by apply (ExtractMember_found _ ms).
Qed.

Definition demo_members : list NcuMember :=
  [Member [98] [2; 3] (NcuChecksum [2; 3]); Member [97; 46; 98] [] (NcuChecksum [])].

Lemma package_roundtrip_witness :
  ∃ r', Open (PackageReader [9] demo_members None) "p.npkg"
          (Some (BuildImage demo_members [112] (Some (EntryRecord [97] [109]))).2) = Ok r'
    ∧ m_entry r' = Some (EntryRecord [97] [109])
    ∧ ExtractMember r' [98] = Ok [2; 3].
Proof.
  destruct (package_roundtrip demo_members [112] (Some (EntryRecord [97] [109]))
    "p.npkg" "p.npkg" (PackageReader [9] demo_members None)
    (BuildImage demo_members [112] (Some (EntryRecord [97] [109]))).1
    (BuildImage demo_members [112] (Some (EntryRecord [97] [109]))).2)
    as (r' & Ho & _ & He & _ & _ & _ & Hx).
  - split; [|by repeat constructor].
    apply (bool_decide_unpack (NoDup [[98]; [97; 46; 98]])). vm_compute. exact I.
  - reflexivity.
  - split_and!; [reflexivity..|discriminate].
  - repeat constructor.
  - split; [discriminate|reflexivity].
  - reflexivity.
  - vm_compute. reflexivity.
  - exists r'. split_and!; [exact Ho|exact He|].
    apply (Hx (Member [98] [2; 3] (NcuChecksum [2; 3]))). left.
Defined.

(** ** Arbitrary input *)
Lemma GetLE_in_bounds n image pos :
  (pos + n ≤ S (length image))%nat → ∃ v, GetLE n image pos = Ok v.
Proof.
  intros H. unfold GetLE, slice. rewrite decide_True by (rewrite length_app; simpl; lia).
  eexists. reflexivity.
Qed.

Lemma substr_in_bounds image pos n :
  (pos ≤ length image)%nat → substr image pos n = Ok (take n (drop pos image)).
Proof. intros H. unfold substr. by rewrite bool_decide_true by lia. Qed.

Lemma check_step {A} b e (k : outcome A) e' :
  (b = true → k ≠ Raise e') → e ≠ e' → (_ ← check b e; k) ≠ Raise e'.
Proof. destruct b; simpl; [auto|congruence]. Qed.

Lemma ParseMember_safe image pos path : ParseMember image pos path ≠ Raise OutOfBounds.
Proof.
  unfold ParseMember, bad. apply check_step; [|done]. intros H1%bool_decide_eq_true.
  destruct (GetLE_in_bounds 2 image pos ltac:(lia)) as [n En].
  unfold GetU16, GetU64. rewrite En, bindE. cbv zeta.
  apply check_step; [|done]. intros H2%bool_decide_eq_true.
  rewrite substr_in_bounds, bindE by lia.
  set (p := (pos + 2 + Z.to_nat n)%nat) in *.
  destruct (GetLE_in_bounds 8 image p ltac:(lia)) as [o Eo].
  destruct (GetLE_in_bounds 8 image (p + 8) ltac:(lia)) as [l El].
  destruct (GetLE_in_bounds 8 image (p + 16) ltac:(lia)) as [c Ec].
  rewrite Eo, bindE, El, bindE, Ec, bindE.
  apply check_step; [|done]. intros [H3 _]%andb_true_iff.
  apply bool_decide_eq_true in H3. rewrite substr_in_bounds by lia. done.
Qed.

(** the member table of an arbitrary (truncated, hostile) image is read in
    bounds: whatever the member count and the row lengths and offsets say, the
    parser ends with rows or with an error text, and every row it accepts lies
    within the image. *)
Theorem ParseMemberTable_safe image pos n path rows :
  ParseMemberTable image pos n path rows ≠ Raise OutOfBounds
  ∧ ∀ rows' pos', ParseMemberTable image pos n path rows = Ok (rows', pos') →
    ∃ new, rows' = rows ++ new ∧ length new = n
      ∧ Forall (λ m, length (member_bytes m) ≤ length image)%nat new.
Proof.
  revert pos rows. induction n as [|n IH]; intros pos rows; cbn [ParseMemberTable].
  - split; [done|]. intros rows' pos' [= <- <-]. exists []. by rewrite app_nil_r.
  - destruct (ParseMember image pos path) as [[m p]|e] eqn:E.
    + destruct (IH p (rows ++ [m])) as [IH1 IH2]. split; [exact IH1|].
      intros rows' pos' H. destruct (IH2 rows' pos' H) as (new & -> & Hl & Hall).
      exists (m :: new). rewrite <- app_assoc. simpl. split_and!; [done|lia|].
      constructor; [|done]. clear - E. unfold ParseMember in E. monad_inv. simpl.
      match goal with H : substr _ _ _ = Ok ?b |- context [?b] =>
        unfold substr in H; monad_inv; rewrite length_take, length_drop; lia end.
    + split; [|done]. intros [= ->]. by apply ParseMember_safe in E.
Qed.

(** an entry record whose module path has a length that is a multiple of
    256 (the empty path, or a 256-byte one) is read back as the absent marker:
    the archive of a program opens as a library, and the table is then parsed
    from the middle of the record. *)
Theorem entry_record_lost image pos r path :
  Z.of_nat (length (er_modulePath r)) mod 256 = 0 →
  occurs image pos (entry_bytes (Some r)) →
  ParseEntryRecord image pos path = Ok (None, S pos).
Proof.
  intros Hz H. pose proof (occurs_length _ _ _ H) as Hl. unfold entry_bytes in *.
  assert (image !! pos = Some (Z.land (u16 (Z.of_nat (length (er_modulePath r)))) 255)) as Hb
    by exact (occurs_lookup _ _ _ _ H).
  assert (2 ≤ length (len_bytes (er_modulePath r)))%nat as H2
    by (unfold len_bytes; rewrite length_app, length_le_bytes; lia).
  rewrite length_app in Hl. unfold ParseEntryRecord.
  rewrite bool_decide_true by lia. cbn [check]. rewrite bindE, Hb, derefE, bindE.
  rewrite decide_True; [done|]. rewrite land_255. unfold wrap.
  rewrite Z.mod_mod_divide; [done|]. by exists 256.
Qed.

Lemma entry_record_lost_witness :
  ParseEntryRecord (entry_bytes (Some (EntryRecord (replicate 256 97) [109]))) 0 "p"
  = Ok (None, 1%nat).
Proof.
  apply (entry_record_lost _ 0 (EntryRecord (replicate 256 97) [109])).
  - reflexivity.
  - apply occurs_whole.
Defined.

(** a 12-byte image (magic and version only) passes the size check of the
    fixed header and the package name length is read out of bounds. *)
Theorem header_read_out_of_bounds :
  ParseNpkgHeader (NPKG_MAGIC ++ [1; 0; 0; 0]) = Raise OutOfBounds.
Proof. vm_compute. reflexivity. Qed.
