(* ===== verification/Prims.v ===== *)
(** * Scalar primitives: registry, arithmetic, comparison, casts

    Models [src/include/nlang/runtime/PrimitiveTypes.h] with
    [src/src/runtime/PrimitiveTypes.cpp] (the 12-row registry) and
    [src/src/vm/VmExecutorOpsPrim.cpp] (the registry-instantiated tables and the
    handlers of the generalized numeric opcodes).  A frame is its bytes; a slot
    holds the bit pattern of the carrier.  Float rows compute with IEEE 754
    binary32/binary64 through the Standard Library's [SpecFloat]; a NaN result is
    the quiet NaN.  Signed [+=], [-=], [*=] wrap as two's complement, the meaning
    the language manual gives them. *)
From Stdlib Require Import SpecFloat.
From S2P Require Import Prelude Bytecode.
Open Scope Z_scope.

(** ** Registry *)
Inductive ScalarPrimCategory := PC_SInt | PC_UInt | PC_Float | PC_Bool | PC_Char.
#[export] Instance ScalarPrimCategory_eq_dec : EqDecision ScalarPrimCategory.
Proof. solve_decision. Defined.

Inductive ScalarPrimId :=
  | SPR_Int32 | SPR_Float | SPR_Byte | SPR_UByte | SPR_Short | SPR_UShort
  | SPR_UInt32 | SPR_Long | SPR_ULong | SPR_Double | SPR_Bool | SPR_Char.
#[export] Instance ScalarPrimId_eq_dec : EqDecision ScalarPrimId.
Proof. solve_decision. Defined.

Definition RTK_Int32 : Z := 0.
Definition RTK_Float : Z := 1.
Definition RTK_Byte : Z := 10.
Definition RTK_UByte : Z := 11.
Definition RTK_Short : Z := 12.
Definition RTK_UShort : Z := 13.
Definition RTK_UInt32 : Z := 14.
Definition RTK_Long : Z := 15.
Definition RTK_ULong : Z := 16.
Definition RTK_Double : Z := 17.
Definition RTK_Bool : Z := 18.
Definition RTK_Char : Z := 19.

Record ScalarPrimInfo := PrimInfo {
  kind : ScalarPrimId; rtk : Z; slotWidth : nat; category : ScalarPrimCategory;
  rank : Z; name : string
}.

Definition kScalarPrims : list ScalarPrimInfo :=
  [PrimInfo SPR_Int32 RTK_Int32 4 PC_SInt 3 "int"; PrimInfo SPR_Float RTK_Float 4 PC_Float 1 "float";
   PrimInfo SPR_Byte RTK_Byte 1 PC_SInt 1 "byte"; PrimInfo SPR_UByte RTK_UByte 1 PC_UInt 1 "ubyte";
   PrimInfo SPR_Short RTK_Short 2 PC_SInt 2 "short"; PrimInfo SPR_UShort RTK_UShort 2 PC_UInt 2 "ushort";
   PrimInfo SPR_UInt32 RTK_UInt32 4 PC_UInt 3 "uint"; PrimInfo SPR_Long RTK_Long 8 PC_SInt 4 "long";
   PrimInfo SPR_ULong RTK_ULong 8 PC_UInt 4 "ulong"; PrimInfo SPR_Double RTK_Double 8 PC_Float 2 "double";
   PrimInfo SPR_Bool RTK_Bool 4 PC_Bool 1 "bool"; PrimInfo SPR_Char RTK_Char 4 PC_Char 1 "char"].

(** [None] is the index -1; the row found is returned with the index. *)
Definition ScalarPrimIndexOf (k : ScalarPrimId) : option (nat * ScalarPrimInfo) :=
  list_find (λ r, kind r = k) kScalarPrims.
Definition ScalarPrimIndexOfRtk (v : Z) : option (nat * ScalarPrimInfo) :=
  list_find (λ r, rtk r = v) kScalarPrims.
Definition RtkOfKind (k : ScalarPrimId) : Z :=
  match ScalarPrimIndexOf k with Some (_, r) => rtk r | None => 255 end.

Definition PrimCategoryIsNumeric (c : ScalarPrimCategory) : bool :=
  match c with PC_SInt | PC_UInt | PC_Float => true | _ => false end.
Definition PrimCategoryIsInteger (c : ScalarPrimCategory) : bool :=
  match c with PC_SInt | PC_UInt => true | _ => false end.
Definition PrimKindIsTraceable (k : ScalarPrimId) : bool := false.
Definition PrimKindIsNumeric (k : ScalarPrimId) : bool :=
  match ScalarPrimIndexOf k with Some (_, r) => PrimCategoryIsNumeric (category r) | None => false end.
Definition PrimKindIsInteger (k : ScalarPrimId) : bool :=
  match ScalarPrimIndexOf k with Some (_, r) => PrimCategoryIsInteger (category r) | None => false end.
Definition PrimDomainContained (ca : ScalarPrimCategory) (ra : Z)
    (cb : ScalarPrimCategory) (rb : Z) : bool :=
  if decide (ca = cb) then ra <=? rb
  else match ca, cb with PC_UInt, PC_SInt => ra + 1 <=? rb | _, _ => false end.

(** ** IEEE 754 interchange bits *)
Record format := Format { f_prec : Z; f_emax : Z; f_width : Z }.
Definition binary32 : format := Format 24 128 32.
Definition binary64 : format := Format 53 1024 64.
Definition fmt (r : ScalarPrimInfo) : format :=
  if decide (slotWidth r = 8%nat) then binary64 else binary32.
Definition f_mbits (f : format) : Z := f_prec f - 1.
Definition f_emin (f : format) : Z := 3 - f_emax f - f_prec f.

Definition float_of_bits (f : format) (b : Z) : spec_float :=
  let s := Z.testbit b (f_width f - 1) in
  let e := Z.land (Z.shiftr b (f_mbits f)) (Z.ones (f_width f - f_prec f)) in
  let m := Z.land b (Z.ones (f_mbits f)) in
  if decide (e = 0) then
    match m with Zpos p => S754_finite s p (f_emin f) | _ => S754_zero s end
  else if decide (e = Z.ones (f_width f - f_prec f)) then
    if decide (m = 0) then S754_infinity s else S754_nan
  else match m + 2 ^ f_mbits f with
       | Zpos p => S754_finite s p (e - 1 + f_emin f)
       | _ => S754_zero s
       end.

Definition bits_of_float (f : format) (x : spec_float) : Z :=
  let sign (s : bool) := if s then 2 ^ (f_width f - 1) else 0 in
  let emask := Z.ones (f_width f - f_prec f) in
  match x with
  | S754_zero s => sign s
  | S754_infinity s => sign s + emask * 2 ^ f_mbits f
  | S754_nan => emask * 2 ^ f_mbits f + 2 ^ (f_mbits f - 1)
  | S754_finite s p e =>
      if decide (Zpos p < 2 ^ f_mbits f) then sign s + Zpos p
      else sign s + (e - f_emin f + 1) * 2 ^ f_mbits f + (Zpos p - 2 ^ f_mbits f)
  end.

(** [std::fmod]: the exact remainder with the sign of the dividend. *)
Definition SFfmod (f : format) (x y : spec_float) : spec_float :=
  match x, y with
  | S754_nan, _ | _, S754_nan | S754_infinity _, _ | _, S754_zero _ => S754_nan
  | S754_zero s, _ => S754_zero s
  | S754_finite _ _ _, S754_infinity _ => x
  | S754_finite sx mx ex, S754_finite _ my ey =>
      let e := Z.min ex ey in
      match (Zpos mx * 2 ^ (ex - e)) mod (Zpos my * 2 ^ (ey - e)) with
      | Zpos p => binary_round (f_prec f) (f_emax f) sx p e
      | _ => S754_zero sx
      end
  end.

(** Truncation toward zero, [None] for NaN and infinities. *)
Definition SFtrunc (x : spec_float) : option Z :=
  match x with
  | S754_zero _ => Some 0
  | S754_finite s m e =>
      let a := if decide (0 ≤ e) then Zpos m * 2 ^ e else Zpos m / 2 ^ (- e) in
      Some (if s then - a else a)
  | _ => None
  end.

(** ** Carriers *)
Definition bit_width (r : ScalarPrimInfo) : Z := 8 * Z.of_nat (slotWidth r).
Definition is_signed (r : ScalarPrimInfo) : bool :=
  match category r with PC_SInt | PC_Bool => true | _ => false end.
(** Conversion to the carrier type of the row, and the value of a slot. *)
Definition to_carrier (r : ScalarPrimInfo) (z : Z) : Z :=
  if is_signed r then swrap (bit_width r) z else wrap (bit_width r) z.
Definition float_of (r : ScalarPrimInfo) (v : Z) : spec_float := float_of_bits (fmt r) v.
Definition of_float (r : ScalarPrimInfo) (x : spec_float) : Z := bits_of_float (fmt r) x.

(** ** Arithmetic entries ([ArithEntry]): slot contents to slot contents *)
Definition kFloat (r : ScalarPrimInfo) : bool := bool_decide (category r = PC_Float).

Definition AddImpl (r : ScalarPrimInfo) (d s : Z) : Z :=
  if kFloat r then of_float r (SFadd (f_prec (fmt r)) (f_emax (fmt r)) (float_of r d) (float_of r s))
  else wrap (bit_width r) (to_carrier r d + to_carrier r s).
Definition SubImpl (r : ScalarPrimInfo) (d s : Z) : Z :=
  if kFloat r then of_float r (SFsub (f_prec (fmt r)) (f_emax (fmt r)) (float_of r d) (float_of r s))
  else wrap (bit_width r) (to_carrier r d - to_carrier r s).
Definition MulImpl (r : ScalarPrimInfo) (d s : Z) : Z :=
  if kFloat r then of_float r (SFmul (f_prec (fmt r)) (f_emax (fmt r)) (float_of r d) (float_of r s))
  else wrap (bit_width r) (to_carrier r d * to_carrier r s).
(** Signed rows route the divisor -1 through the unsigned carrier. *)
Definition DivImpl (r : ScalarPrimInfo) (d s : Z) : Z :=
  if kFloat r then of_float r (SFdiv (f_prec (fmt r)) (f_emax (fmt r)) (float_of r d) (float_of r s))
  else if is_signed r && bool_decide (to_carrier r s = -1)
  then wrap (bit_width r) (0 - wrap (bit_width r) d)
  else wrap (bit_width r) (Z.quot (to_carrier r d) (to_carrier r s)).
Definition ModInt (r : ScalarPrimInfo) (d s : Z) : Z :=
  if is_signed r && bool_decide (to_carrier r s = -1) then 0
  else wrap (bit_width r) (Z.rem (to_carrier r d) (to_carrier r s)).
Definition ModFloat (r : ScalarPrimInfo) (d s : Z) : Z :=
  of_float r (SFfmod (fmt r) (float_of r d) (float_of r s)).
Definition NegImpl (r : ScalarPrimInfo) (d : Z) : Z :=
  if kFloat r then of_float r (SFopp (float_of r d))
  else if is_signed r then wrap (bit_width r) (0 - wrap (bit_width r) d)
  else wrap (bit_width r) (- to_carrier r d).
Definition ShlImpl (r : ScalarPrimInfo) (d s : Z) : Z :=
  wrap (bit_width r) (Z.shiftl (wrap (bit_width r) d) (to_carrier r s)).
Definition ShrImpl (r : ScalarPrimInfo) (d s : Z) : Z :=
  wrap (bit_width r) (Z.shiftr (to_carrier r d) (to_carrier r s)).

Abbreviation PrimBinFn := (Z → Z → Z).
Definition numeric_entry {A} (r : ScalarPrimInfo) (f : A) : option A :=
  if PrimCategoryIsNumeric (category r) then Some f else None.
Definition integer_entry {A} (r : ScalarPrimInfo) (f : A) : option A :=
  if PrimCategoryIsInteger (category r) then Some f else None.
Definition kAddTable (r : ScalarPrimInfo) := numeric_entry r (AddImpl r).
Definition kSubTable (r : ScalarPrimInfo) := numeric_entry r (SubImpl r).
Definition kMulTable (r : ScalarPrimInfo) := numeric_entry r (MulImpl r).
Definition kDivTable (r : ScalarPrimInfo) := numeric_entry r (DivImpl r).
Definition kModTable (r : ScalarPrimInfo) :=
  numeric_entry r (if kFloat r then ModFloat r else ModInt r).
Definition kNegTable (r : ScalarPrimInfo) := numeric_entry r (NegImpl r).
Definition kShlTable (r : ScalarPrimInfo) := integer_entry r (ShlImpl r).
Definition kShrTable (r : ScalarPrimInfo) := integer_entry r (ShrImpl r).

(** ** Comparison entries *)
Definition CmpRun (r : ScalarPrimInfo) (op : Z) (l s : Z) : bool :=
  if kFloat r then
    let a := float_of r l in let b := float_of r s in
    if decide (op = 0) then SFltb a b else if decide (op = 1) then SFleb a b
    else if decide (op = 2) then SFltb b a else if decide (op = 3) then SFleb b a
    else if decide (op = 4) then SFeqb a b else negb (SFeqb a b)
  else
    let a := to_carrier r l in let b := to_carrier r s in
    if decide (op = 0) then a <? b else if decide (op = 1) then a <=? b
    else if decide (op = 2) then b <? a else if decide (op = 3) then b <=? a
    else if decide (op = 4) then a =? b else negb (a =? b).
Definition kCmpTable (op : Z) (r : ScalarPrimInfo) : option (Z → Z → bool) :=
  match category r with
  | PC_Bool => if decide (op = 4 ∨ op = 5) then Some (CmpRun r op) else None
  | _ => Some (CmpRun r op)
  end.

(** ** Cast cells; a float out of the range of the integer type is undefined *)
Definition carrier_min (r : ScalarPrimInfo) : Z :=
  if is_signed r then - 2 ^ (bit_width r - 1) else 0.
Definition carrier_max (r : ScalarPrimInfo) : Z :=
  if is_signed r then 2 ^ (bit_width r - 1) - 1 else 2 ^ bit_width r - 1.
Definition in_carrier (r : ScalarPrimInfo) (z : Z) : Prop :=
  carrier_min r ≤ z ≤ carrier_max r.

Definition CastNumImpl (sr dr : ScalarPrimInfo) (v : Z) : outcome Z :=
  let f := fmt dr in
  if kFloat sr then
    let x := float_of sr v in
    if kFloat dr then
      Ok (of_float dr (match x with
          | S754_finite s m e =>
              binary_normalize (f_prec f) (f_emax f) (if s then Zneg m else Zpos m) e s
          | _ => x end))
    else match SFtrunc x with
         | Some z =>
             if decide (carrier_min dr ≤ z ∧ z ≤ carrier_max dr) then Ok (wrap (bit_width dr) z)
             else Raise (Undefined "float to integer conversion")
         | None => Raise (Undefined "float to integer conversion")
         end
  else if kFloat dr then
    Ok (of_float dr (binary_normalize (f_prec f) (f_emax f) (to_carrier sr v) 0 false))
  else Ok (wrap (bit_width dr) (to_carrier sr v)).
Definition PrimCastCell (sr dr : ScalarPrimInfo) : option (Z → outcome Z) :=
  if decide (category sr = PC_Bool ∨ category dr = PC_Bool) then None
  else Some (CastNumImpl sr dr).

(** ** Handlers *)
Definition ReadScalarAsInt64 (r : ScalarPrimInfo) (v : Z) : outcome Z :=
  match category r with
  | PC_UInt => if decide (slotWidth r = 8%nat) then Ok (i64 v) else Ok v
  | PC_Float =>
      match SFtrunc (float_of r v) with
      | Some z => if decide (is_sint 64 z) then Ok z
                  else Raise (Undefined "float to integer conversion")
      | None => Raise (Undefined "float to integer conversion")
      end
  | _ => Ok (swrap (bit_width r) v)
  end.

Definition SlotIsZeroDivisor (r : ScalarPrimInfo) (v : Z) : bool :=
  if kFloat r then SFeqb (float_of r v) (S754_zero false) else v =? 0.

Definition CheckShiftCount (r : ScalarPrimInfo) (v : Z) : outcome unit :=
  count ← ReadScalarAsInt64 r v;
  check (negb ((count <? 0) || (bit_width r <=? count)))
    (NlangExc ExcBase "NLang VM: shift count out of range").

(** The shape of the seven binary handlers: operands, table entry, the check of
    the handler on the source slot, then the entry on the two slots. *)
Definition bin_handler (table : ScalarPrimInfo → option PrimBinFn) (unsupported : string)
    (guard : ScalarPrimInfo → Z → outcome unit) (r : reader) (locals : bytes)
    : outcome (reader * bytes) :=
  '(k, r) ← ReadByte r;
  '(dst, r) ← ReadUint16 r;
  '(src, r) ← ReadUint16 r;
  match ScalarPrimIndexOfRtk k with
  | Some (_, row) =>
      match table row with
      | Some f =>
          s ← load (slotWidth row) locals (Z.to_nat src);
          _ ← guard row s;
          d ← load (slotWidth row) locals (Z.to_nat dst);
          locals ← store (slotWidth row) locals (Z.to_nat dst) (f d s);
          Ok (r, locals)
      | None => Raise (NlangExc ExcBase unsupported)
      end
  | None => Raise (NlangExc ExcBase unsupported)
  end.
Definition no_guard (row : ScalarPrimInfo) (s : Z) : outcome unit := Ok tt.
Definition zero_guard (msg : string) (row : ScalarPrimInfo) (s : Z) : outcome unit :=
  check (negb (SlotIsZeroDivisor row s)) (NlangExc ExcDivZero msg).

Definition OpAdd := bin_handler kAddTable "NLang VM: add on unsupported kind" no_guard.
Definition OpSub := bin_handler kSubTable "NLang VM: sub on unsupported kind" no_guard.
Definition OpMul := bin_handler kMulTable "NLang VM: mul on unsupported kind" no_guard.
Definition OpDiv := bin_handler kDivTable "NLang VM: div on unsupported kind"
  (zero_guard "NLang VM: division by zero").
Definition OpMod := bin_handler kModTable "NLang VM: mod on unsupported kind"
  (zero_guard "NLang VM: modulo by zero").
Definition OpShl := bin_handler kShlTable "NLang VM: shl on unsupported kind" CheckShiftCount.
Definition OpShr := bin_handler kShrTable "NLang VM: shr on unsupported kind" CheckShiftCount.

Definition OpNeg (r : reader) (locals : bytes) : outcome (reader * bytes) :=
  '(k, r) ← ReadByte r;
  '(dst, r) ← ReadUint16 r;
  match ScalarPrimIndexOfRtk k ≫= λ '(_, row), (λ f, (row, f)) <$> kNegTable row with
  | Some (row, f) =>
      d ← load (slotWidth row) locals (Z.to_nat dst);
      locals ← store (slotWidth row) locals (Z.to_nat dst) (f d);
      Ok (r, locals)
  | None => Raise (NlangExc ExcBase "NLang VM: neg on unsupported kind")
  end.

Definition OpCmp (r : reader) (locals : bytes) : outcome (reader * bytes) :=
  '(k, r) ← ReadByte r;
  '(cmpOp, r) ← ReadByte r;
  '(lhs, r) ← ReadUint16 r;
  '(rhs, r) ← ReadUint16 r;
  let err := NlangExc ExcBase "NLang VM: compare on unsupported kind" in
  match ScalarPrimIndexOfRtk k with
  | Some (_, row) =>
      if decide (5 < cmpOp) then Raise err else
      match kCmpTable cmpOp row with
      | Some f =>
          a ← load (slotWidth row) locals (Z.to_nat lhs);
          b ← load (slotWidth row) locals (Z.to_nat rhs);
          locals ← store 4 locals (Z.to_nat lhs) (if f a b then 1 else 0);
          Ok (r, locals)
      | None => Raise err
      end
  | None => Raise err
  end.

Definition OpLogicalNot (r : reader) (locals : bytes) : outcome (reader * bytes) :=
  '(dst, r) ← ReadUint16 r;
  a ← load 4 locals (Z.to_nat dst);
  locals ← store 4 locals (Z.to_nat dst) (if decide (a = 0) then 1 else 0);
  Ok (r, locals).

(** [pResult] is the result carrier of the frame. *)
Definition OpPrimCast (r : reader) (pResult : bytes) : outcome (reader * bytes) :=
  '(sk, r) ← ReadByte r;
  '(dk, r) ← ReadByte r;
  let err := NlangExc ExcBase "NLang VM: invalid primitive cast" in
  match ScalarPrimIndexOfRtk sk, ScalarPrimIndexOfRtk dk with
  | Some (_, sr), Some (_, dr) =>
      match PrimCastCell sr dr with
      | Some fn =>
          v ← load (slotWidth sr) pResult 0;
          _ ← (if decide (category dr = PC_Char) then
                 x ← ReadScalarAsInt64 sr v;
                 check (negb ((x <? 0) || (1114111 <? x) || ((55296 <=? x) && (x <=? 57343))))
                   (NlangExc ExcBase "NLang VM: value is not a valid Unicode scalar value")
               else Ok tt);
          v' ← fn v;
          pResult ← store (slotWidth dr) pResult 0 v';
          Ok (r, pResult)
      | None => Raise err
      end
  | _, _ => Raise err
  end.

Definition OpConstInt64 (r : reader) (pResult : bytes) : outcome (reader * bytes) :=
  '(v, r) ← ReadInt64 r;
  pResult ← store 8 pResult 0 v;
  Ok (r, pResult).
Definition OpConstDouble (r : reader) (pResult : bytes) : outcome (reader * bytes) :=
  '(v, r) ← ReadInt64 r;
  pResult ← store 8 pResult 0 v;
  Ok (r, pResult).

(** ** Registry facts *)
Definition int_row (r : ScalarPrimInfo) : Prop :=
  r ∈ kScalarPrims ∧ PrimCategoryIsInteger (category r) = true.

Lemma registry_cases (P : ScalarPrimInfo → Prop) :
  Forall P kScalarPrims → ∀ r, r ∈ kScalarPrims → P r.
Proof. intros H r. by apply list.Forall_forall. Qed.

Lemma bit_width_pos r : r ∈ kScalarPrims → 0 < bit_width r.
Proof. revert r. apply registry_cases. by repeat constructor. Qed.

Lemma int_row_not_float r : int_row r → kFloat r = false.
Proof. intros [_ H]. unfold kFloat. by destruct (category r). Qed.

Lemma ScalarPrimIndexOfRtk_Some k i r :
  ScalarPrimIndexOfRtk k = Some (i, r) → r ∈ kScalarPrims ∧ rtk r = k.
Proof.
  intros (_ & Hi & Hk)%list_find_index_lt. by apply list_elem_of_lookup_2 in Hi.
Qed.

Lemma to_carrier_wrap r z : to_carrier r (wrap (bit_width r) z) = to_carrier r z.
Proof.
  unfold to_carrier. destruct (is_signed r); [apply swrap_wrap|].
  unfold wrap. apply Zmod_mod.
Qed.

Lemma wrap_to_carrier r z :
  r ∈ kScalarPrims → wrap (bit_width r) (to_carrier r z) = wrap (bit_width r) z.
Proof.
  intros Hr%bit_width_pos. unfold to_carrier.
  destruct (is_signed r); [by apply wrap_swrap|]. unfold wrap. apply Zmod_mod.
Qed.

Lemma to_carrier_range r z : r ∈ kScalarPrims → in_carrier r (to_carrier r z).
Proof.
  intros Hr%bit_width_pos. unfold in_carrier, carrier_min, carrier_max, to_carrier.
  destruct (is_signed r).
  - pose proof (swrap_range (bit_width r) z Hr) as H. unfold is_sint in H. lia.
  - pose proof (wrap_range (bit_width r) z ltac:(lia)) as H. unfold is_uint in H. lia.
Qed.

Lemma to_carrier_id r z : r ∈ kScalarPrims → in_carrier r z → to_carrier r z = z.
Proof.
  intros Hr%bit_width_pos. unfold in_carrier, carrier_min, carrier_max, to_carrier.
  destruct (is_signed r); intros H.
  - apply swrap_small; [done|]. unfold is_sint. lia.
  - apply wrap_small. unfold is_uint. lia.
Qed.

Lemma to_carrier_eq r a b :
  r ∈ kScalarPrims → wrap (bit_width r) a = wrap (bit_width r) b → to_carrier r a = to_carrier r b.
Proof. intros Hr H. by rewrite <- (to_carrier_wrap r a), H, to_carrier_wrap. Qed.

Lemma wrap_opp w z : wrap w (0 - wrap w z) = wrap w (- z).
Proof. unfold wrap. rewrite Zminus_mod_idemp_r. by f_equal. Qed.

Lemma neg_carrier r d :
  r ∈ kScalarPrims →
  to_carrier r (0 - wrap (bit_width r) d) = to_carrier r (- to_carrier r d).
Proof.
  intros Hr. apply to_carrier_eq; [done|].
  by rewrite wrap_opp, <- (wrap_opp _ (to_carrier r d)), wrap_to_carrier, wrap_opp.
Qed.

(** integer rows add, subtract, multiply and negate modulo the width of the
    row: the slot afterwards holds the exact result brought back into its range. *)
Theorem integer_arithmetic_wraps r d s :
  int_row r →
  let a := to_carrier r d in let b := to_carrier r s in
  to_carrier r (AddImpl r d s) = to_carrier r (a + b)
  ∧ to_carrier r (SubImpl r d s) = to_carrier r (a - b)
  ∧ to_carrier r (MulImpl r d s) = to_carrier r (a * b)
  ∧ to_carrier r (NegImpl r d) = to_carrier r (- a).
Proof.
  intros Hr a b. pose proof (int_row_not_float r Hr) as Hf. destruct Hr as [Hr _].
  unfold AddImpl, SubImpl, MulImpl, NegImpl. rewrite Hf, !to_carrier_wrap.
  split_and!; [done..|]. destruct (is_signed r).
  - rewrite to_carrier_wrap. by apply neg_carrier.
  - by rewrite to_carrier_wrap.
Qed.

Definition row_int : ScalarPrimInfo := PrimInfo SPR_Int32 RTK_Int32 4 PC_SInt 3 "int".
Lemma row_int_ok : int_row row_int.
Proof. split; [apply list_elem_of_here|done]. Qed.

Lemma integer_arithmetic_wraps_witness :
  to_carrier row_int (AddImpl row_int 2147483647 1) = -2147483648.
Proof.
  rewrite (proj1 (integer_arithmetic_wraps row_int 2147483647 1 row_int_ok)).
  vm_compute. reflexivity.
Defined.

(** The remainder lies between 0 and the dividend. *)
Lemma rem_toward a b : b ≠ 0 → 0 ≤ Z.rem a b ≤ a ∨ a ≤ Z.rem a b ≤ 0.
Proof.
  intros Hb. pose proof (Z.rem_abs a b Hb) as H1.
  pose proof (Z.rem_le (Z.abs a) (Z.abs b) ltac:(lia) ltac:(lia)) as H2.
  pose proof (Z.rem_sign_mul a b Hb) as H3. destruct (Z.eq_dec (Z.rem a b) 0) as [->|H4]; nia.
Qed.

Lemma integer_division_aux r d s :
  int_row r →
  let a := to_carrier r d in let b := to_carrier r s in
  b ≠ 0 →
  to_carrier r (DivImpl r d s) = to_carrier r (Z.quot a b)
  ∧ to_carrier r (ModInt r d s) = Z.rem a b
  ∧ to_carrier r (to_carrier r (DivImpl r d s) * b + to_carrier r (ModInt r d s)) = a.
Proof.
  intros Hr a b Hb. pose proof (int_row_not_float r Hr) as Hf. destruct Hr as [Hr _].
  pose proof (to_carrier_range r d Hr) as Ra. pose proof (to_carrier_range r s Hr) as Rb.
  fold a in Ra. fold b in Rb.
  assert (to_carrier r (DivImpl r d s) = to_carrier r (Z.quot a b)) as E1.
  { unfold DivImpl. rewrite Hf. fold a b.
    destruct (is_signed r) eqn:Hs; cbn [andb]; [|by rewrite to_carrier_wrap].
    case_bool_decide as Hm; [|by rewrite to_carrier_wrap].
    rewrite to_carrier_wrap, neg_carrier by done. fold a. rewrite Hm.
    change (-1) with (- (1)). rewrite Z.quot_opp_r, Z.quot_1_r by lia. done. }
  assert (to_carrier r (ModInt r d s) = Z.rem a b) as E2.
  { unfold ModInt. fold a b.
    assert (in_carrier r (Z.rem a b)) as Rrem.
    { unfold in_carrier, carrier_min, carrier_max in *.
      pose proof (rem_toward a b Hb). destruct (is_signed r); lia. }
    destruct (is_signed r) eqn:Hs; cbn [andb].
    - case_bool_decide as Hm; [|by rewrite to_carrier_wrap, to_carrier_id].
      rewrite Hm. change (-1) with (- (1)). rewrite Z.rem_opp_r, Z.rem_1_r by lia.
      apply to_carrier_id; [done|].
      unfold in_carrier, carrier_min, carrier_max. rewrite Hs.
      pose proof (bit_width_pos r Hr). assert (0 < 2 ^ (bit_width r - 1)) by (apply Z.pow_pos_nonneg; lia). lia.
    - by rewrite to_carrier_wrap, to_carrier_id. }
  split_and!; [done..|]. rewrite E1, E2.
  transitivity (to_carrier r (Z.quot a b * b + Z.rem a b)).
  - apply to_carrier_eq; [done|]. unfold wrap.
    rewrite <- Zplus_mod_idemp_l, <- Zmult_mod_idemp_l.
    fold (wrap (bit_width r) (to_carrier r (Z.quot a b))). rewrite wrap_to_carrier by done.
    unfold wrap. by rewrite Zmult_mod_idemp_l, Zplus_mod_idemp_l.
  - replace (Z.quot a b * b + Z.rem a b) with a by (rewrite (Z.quot_rem' a b) at 1; lia).
    by apply to_carrier_id.
Qed.

(** integer division truncates toward zero and wraps (MIN / -1 is MIN), the
    remainder is the exact one with the sign of the dividend, and together they
    give the dividend back. *)
Theorem integer_division r d s :
  int_row r →
  let a := to_carrier r d in let b := to_carrier r s in
  b ≠ 0 →
  to_carrier r (DivImpl r d s) = to_carrier r (Z.quot a b)
  ∧ to_carrier r (ModInt r d s) = Z.rem a b
  ∧ to_carrier r (to_carrier r (DivImpl r d s) * b + to_carrier r (ModInt r d s)) = a.
Proof. apply integer_division_aux. Qed.

Lemma integer_division_witness :
  to_carrier row_int (DivImpl row_int 2147483648 4294967295) = -2147483648
  ∧ to_carrier row_int (ModInt row_int 2147483648 4294967295) = 0.
Proof.
  destruct (integer_division row_int 2147483648 4294967295 row_int_ok) as (H1 & H2 & _).
  - vm_compute. discriminate.
  - rewrite H1, H2. split; vm_compute; reflexivity.
Defined.

Lemma ReadScalarAsInt64_int r s :
  int_row r → is_uint (bit_width r) s →
  ∃ z, ReadScalarAsInt64 r s = Ok z ∧
       (0 ≤ z < bit_width r ↔ 0 ≤ to_carrier r s < bit_width r)
       ∧ (0 ≤ z < bit_width r → z = to_carrier r s).
Proof.
  intros [Hr Hi] Hs. unfold ReadScalarAsInt64, to_carrier, is_signed.
  pose proof (bit_width_pos r Hr). rewrite (wrap_small _ s) by done.
  destruct (category r); try discriminate Hi; [by eexists|].
  case_decide as H8; [|by eexists].
  unfold bit_width in *. rewrite H8 in *. change (8 * Z.of_nat 8) with 64 in *.
  eexists. split; [done|]. unfold is_uint in Hs. unfold swrap.
  change (2 ^ (64 - 1)) with 9223372036854775808. change (2 ^ 64) with 18446744073709551616 in *.
  destruct (Z_lt_le_dec s 9223372036854775808).
  - rewrite Z.mod_small by lia. lia.
  - replace (s + 9223372036854775808)
      with (s - 9223372036854775808 + 1 * 18446744073709551616) by lia.
    rewrite Z_mod_plus_full, Z.mod_small by lia. lia.
Qed.

Lemma integer_shifts_aux r d s :
  int_row r → is_uint (bit_width r) s →
  let a := to_carrier r d in let n := to_carrier r s in
  (is_Ok (CheckShiftCount r s) ↔ 0 ≤ n < bit_width r)
  ∧ (0 ≤ n < bit_width r →
     to_carrier r (ShlImpl r d s) = to_carrier r (a * 2 ^ n)
     ∧ to_carrier r (ShrImpl r d s) = a / 2 ^ n).
Proof.
  intros Hr Hs a n. split.
  - unfold CheckShiftCount. destruct (ReadScalarAsInt64_int r s Hr Hs) as (z & -> & Hz).
    rewrite bindE. fold n in Hz. unfold check.
    destruct (Z.ltb_spec z 0), (Z.leb_spec (bit_width r) z); simpl; naive_solver lia.
  - intros Hn. destruct Hr as [Hr _]. unfold ShlImpl, ShrImpl. fold a n. split.
    + rewrite to_carrier_wrap, Z.shiftl_mul_pow2 by lia. apply to_carrier_eq; [done|].
      unfold wrap. rewrite <- Zmult_mod_idemp_l, <- (Zmult_mod_idemp_l a). fold (wrap (bit_width r) a).
      unfold a. rewrite wrap_to_carrier by done. unfold wrap. by rewrite Zmod_mod.
    + rewrite to_carrier_wrap, Z.shiftr_div_pow2 by lia. apply to_carrier_id; [done|].
      pose proof (to_carrier_range r d Hr) as Ra. fold a in Ra.
      assert (0 < 2 ^ n) by (apply Z.pow_pos_nonneg; lia).
      pose proof (Z.div_mod a (2 ^ n)). pose proof (Z.mod_pos_bound a (2 ^ n)).
      unfold in_carrier, carrier_min, carrier_max in *. destruct (is_signed r); nia.
Qed.

(** a shift by a count inside the width multiplies modulo the width, or
    divides rounding down (sign-extending on signed rows, zero-filling on unsigned
    ones); every count outside [0, width) raises, for every integer row. *)
Theorem integer_shifts r d s :
  int_row r → is_uint (bit_width r) s →
  let a := to_carrier r d in let n := to_carrier r s in
  (is_Ok (CheckShiftCount r s) ↔ 0 ≤ n < bit_width r)
  ∧ (0 ≤ n < bit_width r →
     to_carrier r (ShlImpl r d s) = to_carrier r (a * 2 ^ n)
     ∧ to_carrier r (ShrImpl r d s) = a / 2 ^ n).
Proof. apply integer_shifts_aux. Qed.

Lemma integer_shifts_witness :
  to_carrier row_int (ShlImpl row_int 1 31) = -2147483648
  ∧ to_carrier row_int (ShrImpl row_int 4294967288 1) = -4.
Proof.
  assert (0 ≤ to_carrier row_int 31 < bit_width row_int) as H31 by (vm_compute; split; congruence).
  assert (0 ≤ to_carrier row_int 1 < bit_width row_int) as H1 by (vm_compute; split; congruence).
  split.
  - destruct (integer_shifts row_int 1 31 row_int_ok ltac:(vm_compute; split; congruence)) as (_ & H).
    rewrite (proj1 (H H31)). vm_compute. reflexivity.
  - destruct (integer_shifts row_int 4294967288 1 row_int_ok ltac:(vm_compute; split; congruence)) as (_ & H).
    rewrite (proj2 (H H1)). vm_compute. reflexivity.
Defined.

Lemma integer_domain ra rb :
  int_row ra → int_row rb →
  PrimDomainContained (category ra) (rank ra) (category rb) (rank rb) = true ↔
  ∀ z, in_carrier ra z → in_carrier rb z.
Proof.
  intros [Ha Ia] [Hb Ib].
  assert (carrier_min ra ≤ carrier_max ra ∧
    (PrimDomainContained (category ra) (rank ra) (category rb) (rank rb) = true ↔
     carrier_min rb ≤ carrier_min ra ∧ carrier_max ra ≤ carrier_max rb)) as [Hne ->].
  { revert ra Ha Ia. refine (registry_cases _ _). 
    repeat (apply list.Forall_cons; split; [intros Ia|]); try discriminate Ia; [..|constructor];
    revert rb Hb Ib; refine (registry_cases _ _);
    repeat (apply list.Forall_cons; split; [intros Ib|]); try discriminate Ib; try constructor;
    vm_compute; intuition congruence. }
  unfold in_carrier. split; [lia|]. intros H.
  pose proof (H (carrier_min ra)). pose proof (H (carrier_max ra)). lia.
Qed.

(** the implicit-conversion rule is value containment: an integer kind is
    contained in another exactly when each of its values is a value of the other. *)
Theorem PrimDomainContained_iff ra rb :
  int_row ra → int_row rb →
  PrimDomainContained (category ra) (rank ra) (category rb) (rank rb) = true ↔
  ∀ z, in_carrier ra z → in_carrier rb z.
Proof. apply integer_domain. Qed.

Lemma PrimDomainContained_iff_witness : in_carrier row_int (-5) ∧ in_carrier row_int 7.
Proof.
  assert (PrimDomainContained (category row_int) (rank row_int) (category row_int) (rank row_int)
            = true) as H by (vm_compute; reflexivity).
  pose proof (proj1 (PrimDomainContained_iff row_int row_int row_int_ok row_int_ok) H) as G.
  split; apply G; unfold in_carrier; vm_compute; split; congruence.
Defined.

(** an integer cast keeps the value modulo the width of the target, and the
    value itself whenever the domain of the target contains that of the source. *)
Theorem integer_casts sr dr v :
  int_row sr → int_row dr →
  let a := to_carrier sr v in
  ∃ v', CastNumImpl sr dr v = Ok v' ∧ to_carrier dr v' = to_carrier dr a
    ∧ (PrimDomainContained (category sr) (rank sr) (category dr) (rank dr) = true →
       to_carrier dr v' = a).
Proof.
  intros Hs Hd a. unfold CastNumImpl.
  rewrite (int_row_not_float sr), (int_row_not_float dr) by done.
  eexists. split; [done|]. rewrite to_carrier_wrap. split; [done|].
  intros Hc. pose proof (proj1 (integer_domain sr dr Hs Hd) Hc) as G.
  apply to_carrier_id; [apply Hd|]. apply G, to_carrier_range, Hs.
Qed.

Lemma integer_casts_witness :
  ∃ v', CastNumImpl row_int row_int 4294967295 = Ok v' ∧ to_carrier row_int v' = -1.
Proof.
  destruct (integer_casts row_int row_int 4294967295 row_int_ok row_int_ok) as (v' & E & H & _).
  exists v'. split; [exact E|]. rewrite H. vm_compute. reflexivity.
Defined.

(** ** Handlers on a frame *)
Lemma load_in_frame n locals off :
  (off + n ≤ length locals)%nat → ∃ v, load n locals off = Ok v.
Proof. intros H. rewrite load_ok by done. by eexists. Qed.

Definition slot (row : ScalarPrimInfo) (locals : bytes) (off : Z) : Z :=
  match load (slotWidth row) locals (Z.to_nat off) with Ok v => v | Raise _ => 0 end.
Definition in_frame (row : ScalarPrimInfo) (locals : bytes) (off : Z) : Prop :=
  is_uint 16 off ∧ (Z.to_nat off + slotWidth row ≤ length locals)%nat.
(** The operand bytes of a binary instruction are next in the reader. *)
Definition at_operands (r : reader) (k dst src : Z) : Prop :=
  at_bytes r ([k] ++ le_bytes 2 dst ++ le_bytes 2 src).

Lemma slot_load row locals off :
  in_frame row locals off → load (slotWidth row) locals (Z.to_nat off) = Ok (slot row locals off).
Proof.
  intros [_ H]. destruct (load_in_frame _ _ _ H) as [v E]. unfold slot. by rewrite E.
Qed.

Lemma bin_handler_spec table msg guard r locals k i row f dst src :
  at_operands r k dst src → ScalarPrimIndexOfRtk k = Some (i, row) → table row = Some f →
  in_frame row locals dst → in_frame row locals src →
  bin_handler table msg guard r locals =
    (_ ← guard row (slot row locals src);
     locals' ← store (slotWidth row) locals (Z.to_nat dst)
                 (f (slot row locals dst) (slot row locals src));
     Ok (skip r 5, locals')).
Proof.
  intros Hr Hk Hf Hd Hs. unfold bin_handler, at_operands in *.
  apply at_bytes_app in Hr as [H1 Hr]. apply at_bytes_app in Hr as [H2 H3].
  rewrite length_le_bytes in H3. simpl length in *.
  rewrite (ReadByte_spec _ _ H1), bindE. cbn beta iota.
  rewrite (ReadUint16_spec _ dst) by (apply Hd || done). rewrite bindE. cbn beta iota.
  rewrite (ReadUint16_spec _ src) by (apply Hs || done). rewrite bindE. cbn beta iota.
  rewrite Hk, Hf, !slot_load, bindE by done. rewrite !skip_skip.
  destruct (guard row (slot row locals src)); [|done]. by rewrite !bindE.
Qed.

(** What a successful handler leaves: [v] in the destination, nothing else moved. *)
Definition frame_updated (row : ScalarPrimInfo) (locals locals' : bytes) (dst v : Z) : Prop :=
  length locals' = length locals ∧ Forall is_byte locals'
  ∧ to_carrier row (slot row locals' dst) = v
  ∧ ∀ n off, (off + n ≤ Z.to_nat dst ∨ Z.to_nat dst + slotWidth row ≤ off)%nat →
      load n locals' off = load n locals off.

Lemma store_updated row locals dst v :
  Forall is_byte locals → in_frame row locals dst →
  ∃ locals', store (slotWidth row) locals (Z.to_nat dst) v = Ok locals'
    ∧ frame_updated row locals locals' dst (to_carrier row v).
Proof.
  intros Hb [Hu Hd]. destruct (store (slotWidth row) locals (Z.to_nat dst) v) as [l|e] eqn:E.
  - exists l. split; [done|]. split_and!.
    + by eapply store_length.
    + by eapply store_bytes.
    + unfold slot. rewrite (load_store_same _ _ _ _ _ E).
      change (8 * Z.of_nat (slotWidth row)) with (bit_width row).
      change (v mod 2 ^ bit_width row) with (wrap (bit_width row) v). apply to_carrier_wrap.
    + intros n off Ho. by eapply load_store_other.
  - unfold store in E. by rewrite decide_True in E.
Qed.

Lemma slot_uint row locals off :
  Forall is_byte locals → in_frame row locals off → is_uint (bit_width row) (slot row locals off).
Proof. intros Hb Hf. eapply load_bound; [exact Hb|]. by apply slot_load. Qed.

Lemma zero_divisor_int row locals off :
  int_row row → Forall is_byte locals → in_frame row locals off →
  SlotIsZeroDivisor row (slot row locals off) = true ↔ to_carrier row (slot row locals off) = 0.
Proof.
  intros Hr Hb Hf. unfold SlotIsZeroDivisor. rewrite int_row_not_float, Z.eqb_eq by done.
  pose proof (slot_uint _ _ _ Hb Hf) as Hu. split; [intros ->|].
  - apply to_carrier_id; [apply Hr|]. unfold in_carrier, carrier_min, carrier_max.
    pose proof (bit_width_pos row (proj1 Hr)).
    assert (0 < 2 ^ (bit_width row - 1)) by (apply Z.pow_pos_nonneg; lia).
    assert (0 < 2 ^ bit_width row) by (apply Z.pow_pos_nonneg; lia).
    destruct (is_signed row); lia.
  - intros E. apply (f_equal (wrap (bit_width row))) in E.
    rewrite wrap_to_carrier, wrap_small in E by (apply Hr || done). by rewrite E.
Qed.

Lemma numeric_entry_int {A} row (f : A) : int_row row → numeric_entry row f = Some f.
Proof. intros [_ H]. unfold numeric_entry. by destruct (category row). Qed.

Lemma le_bytes_app_bytes n m v w : Forall is_byte (le_bytes n v ++ le_bytes m w).
Proof. apply Forall_app. split; apply le_bytes_bytes. Qed.

(** [OP_Div] on an integer kind: a zero divisor raises DivideByZero, anything
    else leaves the truncated, wrapped quotient in the destination slot, consumes
    the five operand bytes and touches no other slot. *)
Theorem OpDiv_spec r locals k i row dst src :
  at_operands r k dst src → ScalarPrimIndexOfRtk k = Some (i, row) → int_row row →
  Forall is_byte locals → in_frame row locals dst → in_frame row locals src →
  let a := to_carrier row (slot row locals dst) in
  let b := to_carrier row (slot row locals src) in
  match OpDiv r locals with
  | Ok (r', locals') =>
      b ≠ 0 ∧ r' = skip r 5 ∧ frame_updated row locals locals' dst (to_carrier row (Z.quot a b))
  | Raise e => b = 0 ∧ e = NlangExc ExcDivZero "NLang VM: division by zero"
  end.
Proof.
  intros Hop Hk Hr Hb Hd Hs a b. unfold OpDiv.
  rewrite (bin_handler_spec _ _ _ _ _ k i row (DivImpl row) dst src) by
    (first [assumption | by apply numeric_entry_int]).
  unfold zero_guard, check.
  destruct (SlotIsZeroDivisor row (slot row locals src)) eqn:Z0; cbn [negb].
  - split; [|done]. by apply (zero_divisor_int row locals src).
  - assert (b ≠ 0) as Hnz.
    { intros E. pose proof (proj2 (zero_divisor_int row locals src Hr Hb Hs) E). congruence. }
    rewrite bindE.
    destruct (store_updated row locals dst (DivImpl row (slot row locals dst) (slot row locals src)) Hb Hd)
      as (l & -> & Hu). rewrite bindE. split_and!; [done..|].
    by rewrite (proj1 (integer_division_aux row _ _ Hr Hnz)) in Hu.
Qed.

(** [OP_Shl] and [OP_Shr] on an integer kind raise exactly for the counts
    outside the width, before anything is written. *)
Theorem OpShift_spec r locals k i row dst src :
  at_operands r k dst src → ScalarPrimIndexOfRtk k = Some (i, row) → int_row row →
  Forall is_byte locals → in_frame row locals dst → in_frame row locals src →
  let a := to_carrier row (slot row locals dst) in
  let n := to_carrier row (slot row locals src) in
  if decide (0 ≤ n < bit_width row) then
    ∃ left right, OpShl r locals = Ok (skip r 5, left) ∧ OpShr r locals = Ok (skip r 5, right)
      ∧ frame_updated row locals left dst (to_carrier row (a * 2 ^ n))
      ∧ frame_updated row locals right dst (a / 2 ^ n)
  else OpShl r locals = Raise (NlangExc ExcBase "NLang VM: shift count out of range")
     ∧ OpShr r locals = Raise (NlangExc ExcBase "NLang VM: shift count out of range").
Proof.
  intros Hop Hk Hr Hb Hd Hs a n. unfold OpShl, OpShr.
  assert (kShlTable row = Some (ShlImpl row) ∧ kShrTable row = Some (ShrImpl row)) as [T1 T2].
  { unfold kShlTable, kShrTable, integer_entry. destruct Hr as [_ ->]. done. }
  rewrite (bin_handler_spec _ _ _ _ _ k i row (ShlImpl row) dst src) by done.
  rewrite (bin_handler_spec _ _ _ _ _ k i row (ShrImpl row) dst src) by done.
  destruct (integer_shifts_aux row (slot row locals dst) (slot row locals src) Hr
              (slot_uint _ _ _ Hb Hs)) as [Hc Hv].
  fold a n in Hc, Hv. case_decide as Hn.
  - destruct (CheckShiftCount row (slot row locals src)) as [[]|e];
      [|by destruct (proj2 Hc Hn)].
    destruct (Hv Hn) as [Hl Hrr]. rewrite !bindE.
    destruct (store_updated row locals dst (ShlImpl row (slot row locals dst) (slot row locals src)) Hb Hd)
      as (l1 & -> & Hu1).
    destruct (store_updated row locals dst (ShrImpl row (slot row locals dst) (slot row locals src)) Hb Hd)
      as (l2 & -> & Hu2).
    rewrite !bindE, Hl in *. rewrite Hrr in Hu2. by eexists _, _.
  - destruct (CheckShiftCount row (slot row locals src)) as [[]|e] eqn:E; [by destruct Hn; apply Hc|].
    unfold CheckShiftCount in E.
    destruct (ReadScalarAsInt64_int row _ Hr (slot_uint _ _ _ Hb Hs)) as (z & Ez & _).
    rewrite Ez, bindE in E. unfold check in E. case_match; [done|]. by injection E as <-.
Qed.

Definition demo_reader (op k dst src : Z) : reader :=
  Reader ([op; k] ++ le_bytes 2 dst ++ le_bytes 2 src) 1.
Definition demo_frame : bytes := le_bytes 8 (-7) ++ le_bytes 8 2.
Lemma demo_operands op k dst src : at_operands (demo_reader op k dst src) k dst src.
Proof. by exists [op], []. Qed.

Lemma OpDiv_spec_witness :
  match OpDiv (demo_reader 20 0 0 8) demo_frame with
  | Ok (_, l) => to_carrier row_int (slot row_int l 0) = -3
  | Raise _ => False
  end.
Proof.
  pose proof (OpDiv_spec (demo_reader 20 0 0 8) demo_frame 0 0%nat row_int 0 8
    (demo_operands 20 0 0 8) eq_refl row_int_ok (le_bytes_app_bytes 8 8 (-7) 2)) as H.
  assert (in_frame row_int demo_frame 0 ∧ in_frame row_int demo_frame 8) as [F1 F2]
    by (unfold in_frame, is_uint; vm_compute; split_and!; congruence || lia).
  specialize (H F1 F2).
  destruct (OpDiv (demo_reader 20 0 0 8) demo_frame) as [[r' l]|e] eqn:E;
    [|vm_compute in E; discriminate E].
  destruct H as (_ & _ & (_ & _ & H & _)). rewrite H. vm_compute. reflexivity.
Defined.

Lemma OpShift_spec_witness :
  OpShl (demo_reader 73 0 0 0) demo_frame
    = Raise (NlangExc ExcBase "NLang VM: shift count out of range").
Proof.
  assert (in_frame row_int demo_frame 0) as F1
    by (unfold in_frame, is_uint; vm_compute; split_and!; congruence || lia).
  pose proof (OpShift_spec (demo_reader 73 0 0 0) demo_frame 0 0%nat row_int 0 0
    (demo_operands 73 0 0 0) eq_refl row_int_ok (le_bytes_app_bytes 8 8 (-7) 2) F1 F1) as H.
  rewrite decide_False in H by (vm_compute; intros [H0 _]; apply H0; reflexivity).
  exact (proj1 H).
Defined.

(** ** Floats *)
Lemma sign_bit b w :
  0 < w → 0 ≤ b < 2 ^ w →
  ∃ s : bool, Z.testbit b (w - 1) = s ∧ b = (if s then 2 ^ (w - 1) else 0) + b mod 2 ^ (w - 1).
Proof.
  intros Hw Hb. pose proof (pow2_half w Hw) as Hp.
  assert (0 < 2 ^ (w - 1)) by (apply Z.pow_pos_nonneg; lia).
  exists (Z.testbit b (w - 1)). split; [done|].
  pose proof (Z.div_mod b (2 ^ (w - 1)) ltac:(lia)) as Hdm.
  pose proof (Z.mod_pos_bound b (2 ^ (w - 1)) ltac:(lia)).
  destruct (Z.testbit b (w - 1)) eqn:T.
  - apply Z.testbit_true in T; [|lia].
    assert (b / 2 ^ (w - 1) = 1) as E.
    { assert (0 ≤ b / 2 ^ (w - 1) < 2).
      { split; [apply Z.div_pos; lia|apply Z.div_lt_upper_bound; lia]. }
      destruct (Z.eq_dec (b / 2 ^ (w - 1)) 0) as [E|]; [by rewrite E in T|lia]. }
    lia.
  - apply Z.testbit_false in T; [|lia].
    assert (0 ≤ b / 2 ^ (w - 1) < 2).
    { split; [apply Z.div_pos; lia|apply Z.div_lt_upper_bound; lia]. }
    destruct (Z.eq_dec (b / 2 ^ (w - 1)) 1) as [E|]; [by rewrite E in T|].
    assert (b / 2 ^ (w - 1) = 0) by lia. lia.
Qed.

(** Decoding a float's bits and encoding the value gives the bits back: moving a
    float through the value semantics loses nothing, for every pattern that is not
    a NaN. *)
Lemma float_bits_roundtrip f b :
  f = binary32 ∨ f = binary64 → is_uint (f_width f) b →
  float_of_bits f b ≠ S754_nan → bits_of_float f (float_of_bits f b) = b.
Proof.
  intros Hf Hb Hnan.
  assert (0 < f_mbits f ∧ f_width f - 1 = (f_width f - f_prec f) + f_mbits f
    ∧ 0 < f_width f - f_prec f) as (Hm & Hw & He) by (destruct Hf as [-> | ->]; vm_compute; done).
  destruct (sign_bit b (f_width f) ltac:(lia) Hb) as (s & Hs & Hbs).
  unfold float_of_bits in *. rewrite Hs, !Z.land_ones, Z.shiftr_div_pow2 in * by lia.
  set (M := f_mbits f) in *. set (Ex := f_width f - f_prec f) in *.
  assert (0 < 2 ^ M) by (apply Z.pow_pos_nonneg; lia).
  assert (0 < 2 ^ Ex) by (apply Z.pow_pos_nonneg; lia).
  assert (b mod 2 ^ (f_width f - 1) = b mod 2 ^ M + 2 ^ M * ((b / 2 ^ M) mod 2 ^ Ex)) as Hfields.
  { rewrite Hw, Z.add_comm, Z.pow_add_r by lia. rewrite Z.rem_mul_r by lia. done. }
  pose proof (Z.mod_pos_bound b (2 ^ M) ltac:(lia)) as Bm.
  set (m := b mod 2 ^ M) in *. set (e := (b / 2 ^ M) mod 2 ^ Ex) in *.
  rewrite Hfields in Hbs. clear Hfields Hs.
  case_decide as E0.
  - rewrite E0 in Hbs. destruct m as [|p|p] eqn:Em; [| |lia]; unfold bits_of_float.
    + lia.
    + rewrite decide_True by (fold M; lia). lia.
  - case_decide as E1.
    + case_decide as E2; [|done]. unfold bits_of_float. fold M Ex. lia.
    + destruct (m + 2 ^ M) as [|p|p] eqn:Ep; [lia| |lia]. unfold bits_of_float. fold M.
      rewrite decide_False by lia. lia.
Qed.

(** A NaN operand makes every ordered comparison and [==] false, and [!=] true. *)
Lemma float_compare r a b :
  r ∈ kScalarPrims → category r = PC_Float → float_of r a = S754_nan →
  CmpRun r 0 a b = false ∧ CmpRun r 1 a b = false ∧ CmpRun r 2 a b = false
  ∧ CmpRun r 3 a b = false ∧ CmpRun r 4 a b = false ∧ CmpRun r 5 a b = true.
Proof.
  intros Hr Hc Ha. unfold CmpRun, kFloat. rewrite bool_decide_true by done.
  cbv zeta. rewrite Ha. unfold SFltb, SFleb, SFeqb.
  destruct (float_of r b) as [|[]| |[]]; done.
Qed.
