(* ===== verification/TypeDesc.v ===== *)
(** * Runtime type descriptors

    Models [src/src/vm/TypeDesc.cpp] with [nlang/vm/TypeDesc.h], and the
    length-prefixed form of [ModuleSaver.cpp] / [ModuleLoaderRecords.cpp].  The
    parser's recursion is bounded by the code's own depth cap: its argument
    [rem] is [kMaxTypeDescDepth + 1 - depth]. *)
From S2P Require Import Prelude Bytecode Prims.
Open Scope Z_scope.

Definition RTK_String : Z := 2.
Definition RTK_Struct : Z := 3.
Definition RTK_Class : Z := 4.
Definition RTK_Array : Z := 5.
Definition RTK_Boxed : Z := 6.
Definition RTK_Func : Z := 7.
Definition RTK_List : Z := 8.
Definition RTK_Dict : Z := 9.
Definition RTK_TypeParam : Z := 20.
Definition RTK_Void : Z := 254.
Definition RTK_NonSerialized : Z := 251.
Definition kMaxArrayRank : Z := 64.
Definition kMaxTypeDescDepth : nat := 8.
Definition kMaxTypeDescBytes : Z := 4096.

Inductive TypeDesc := TD (kind typeIdx rank : Z) (elems : list TypeDesc).
Definition td_kind (td : TypeDesc) : Z := let 'TD k _ _ _ := td in k.
Definition td_elems (td : TypeDesc) : list TypeDesc := let 'TD _ _ _ es := td in es.
(** The member initializers of the struct, with a kind and elements. *)
Definition desc (kind : Z) (elems : list TypeDesc) : TypeDesc := TD kind 65535 1 elems.

Fixpoint TypeDesc_ind' (P : TypeDesc → Prop)
    (H : ∀ k i r es, Forall P es → P (TD k i r es)) (td : TypeDesc) : P td :=
  match td with
  | TD k i r es =>
      H k i r es ((fix all (es : list TypeDesc) : Forall P es :=
        match es with
        | [] => @List.Forall_nil _ P
        | e :: es => @List.Forall_cons _ P e es (TypeDesc_ind' P H e) (all es)
        end) es)
  end.

(** ** Writer *)
Definition arity_violation : vm_error := RuntimeError "type descriptor arity violation".

Fixpoint AppendTypeDescBytes (out : bytes) (td : TypeDesc) {struct td} : outcome bytes :=
  match td with
  | TD kind typeIdx rank elems =>
      let out := out ++ [kind] in
      if decide (kind = RTK_Struct ∨ kind = RTK_Class) then
        Ok (out ++ [Z.land typeIdx 255; u8 (Z.shiftr typeIdx 8)])
      else if decide (kind = RTK_Array) then
        match elems with
        | [] => Raise arity_violation
        | e :: _ => out ← AppendTypeDescBytes out e; Ok (out ++ [rank])
        end
      else if decide (kind = RTK_List) then
        match elems with
        | [] => Raise arity_violation
        | e :: _ => AppendTypeDescBytes out e
        end
      else if decide (kind = RTK_Dict) then
        match elems with
        | e1 :: e2 :: _ => out ← AppendTypeDescBytes out e1; AppendTypeDescBytes out e2
        | _ => Raise arity_violation
        end
      else if decide (kind = RTK_Func) then
        match elems with
        | [] => Raise arity_violation
        | _ =>
            (fix all (out : bytes) (es : list TypeDesc) {struct es} : outcome bytes :=
               match es with
               | [] => Ok out
               | e :: es => out ← AppendTypeDescBytes out e; all out es
               end) (out ++ [u8 (Z.of_nat (length elems) - 1)]) elems
        end
      else Ok out
  end.

(** ** Reader *)
Definition truncated : vm_error := RuntimeError "Invalid module: truncated type descriptor".

Definition ParseTypeIndex (data : bytes) (pos : nat) : outcome (Z * nat) :=
  _ ← check (bool_decide (2 ≤ length data - pos)%nat) truncated;
  lo ← deref (data !! pos);
  hi ← deref (data !! S pos);
  Ok (Z.lor lo (Z.shiftl hi 8), (pos + 2)%nat).

(** [n] consecutive descriptors. *)
Fixpoint parse_many (parse : nat → outcome (TypeDesc * nat)) (n : nat) (pos : nat)
    : outcome (list TypeDesc * nat) :=
  match n with
  | O => Ok ([], pos)
  | S n =>
      '(td, pos) ← parse pos;
      '(tds, pos) ← parse_many parse n pos;
      Ok (td :: tds, pos)
  end.

Definition ParseFuncElems (parse : nat → outcome (TypeDesc * nat)) (data : bytes)
    (pos : nat) : outcome (list TypeDesc * nat) :=
  _ ← check (bool_decide (pos < length data)%nat) truncated;
  paramCount ← deref (data !! pos);
  parse_many parse (Z.to_nat paramCount + 1) (S pos).

Definition ParseArrayBody (parse : nat → outcome (TypeDesc * nat)) (data : bytes)
    (pos : nat) : outcome (TypeDesc * Z * nat) :=
  '(e, pos) ← parse pos;
  _ ← check (bool_decide (pos < length data)%nat) truncated;
  rank ← deref (data !! pos);
  _ ← check (bool_decide (rank ≤ kMaxArrayRank))
        (RuntimeError "Invalid module: array descriptor rank out of range");
  Ok (e, rank, S pos).

Definition leaf_kind (k : Z) : bool :=
  bool_decide (k = RTK_String ∨ k = RTK_Boxed ∨ k = RTK_TypeParam ∨ k = RTK_Void
               ∨ k = RTK_NonSerialized)
  || bool_decide (is_Some (ScalarPrimIndexOfRtk k)).

Fixpoint ParseOne (rem : nat) (data : bytes) (pos : nat) : outcome (TypeDesc * nat) :=
  match rem with
  | O => Raise (RuntimeError "Invalid module: type descriptor too deep")
  | S rem =>
      _ ← check (bool_decide (pos < length data)%nat) truncated;
      kind ← deref (data !! pos);
      let pos := S pos in
      let parse := ParseOne rem data in
      if decide (kind = RTK_Struct ∨ kind = RTK_Class) then
        '(idx, pos) ← ParseTypeIndex data pos; Ok (TD kind idx 1 [], pos)
      else if decide (kind = RTK_Array) then
        '(e, rank, pos) ← ParseArrayBody parse data pos; Ok (TD kind 65535 rank [e], pos)
      else if decide (kind = RTK_List) then
        '(e, pos) ← parse pos; Ok (desc kind [e], pos)
      else if decide (kind = RTK_Dict) then
        '(es, pos) ← parse_many parse 2 pos; Ok (desc kind es, pos)
      else if decide (kind = RTK_Func) then
        '(es, pos) ← ParseFuncElems parse data pos; Ok (desc kind es, pos)
      else
        _ ← check (leaf_kind kind) (RuntimeError "Invalid module: unknown type descriptor kind");
        Ok (desc kind [], pos)
  end.

Definition ParseTypeDescBytes (data : bytes) : outcome TypeDesc :=
  '(td, pos) ← ParseOne (kMaxTypeDescDepth + 1) data 0;
  _ ← check (bool_decide (pos = length data))
        (RuntimeError "Invalid module: type descriptor trailing bytes");
  Ok td.

(** [WriteLenPrefixedTypeDesc] and [ReadTypeDesc]: a u16 length, then the bytes. *)
Definition WriteLenPrefixedTypeDesc (fs : bytes) (td : TypeDesc) : outcome bytes :=
  bs ← AppendTypeDescBytes [] td;
  let len := u16 (Z.of_nat (length bs)) in
  Ok (fs ++ le_bytes 2 len ++ take (Z.to_nat len) bs).
Definition ReadTypeDesc (fs : bytes) : outcome (TypeDesc * bytes) :=
  let err := RuntimeError "Invalid module: bad type descriptor length" in
  match slice 0 2 fs with
  | None => Raise err
  | Some l =>
      let len := le_value l in
      _ ← check (bool_decide (len ≤ kMaxTypeDescBytes)) err;
      if decide (len = 0) then Ok (desc RTK_NonSerialized [], drop 2 fs) else
      match slice 2 (Z.to_nat len) fs with
      | None => Raise truncated
      | Some bs => td ← ParseTypeDescBytes bs; Ok (td, drop (2 + Z.to_nat len) fs)
      end
  end.

(** ** Index validation and remap *)
Fixpoint ValidateTypeDescIndices (td : TypeDesc) (structCount classCount : Z) : outcome unit :=
  match td with
  | TD kind typeIdx _ elems =>
      _ ← (if decide (kind = RTK_Struct) then
             check (bool_decide (typeIdx < structCount))
               (RuntimeError "Invalid module: type descriptor struct index out of range")
           else if decide (kind = RTK_Class) then
             check (bool_decide (typeIdx < classCount))
               (RuntimeError "Invalid module: type descriptor class index out of range")
           else Ok tt);
      (fix all (es : list TypeDesc) : outcome unit :=
         match es with
         | [] => Ok tt
         | e :: es => _ ← ValidateTypeDescIndices e structCount classCount; all es
         end) elems
  end.

(** [unordered_map::at]. *)
Definition map_at (m : gmap Z Z) (k : Z) : outcome Z :=
  match m !! k with Some v => Ok v | None => Raise OutOfRange end.

Fixpoint RemapTypeDesc (structMap classMap : gmap Z Z) (td : TypeDesc) : outcome TypeDesc :=
  match td with
  | TD kind typeIdx rank elems =>
      typeIdx ← (if decide (kind = RTK_Struct) then n ← map_at structMap typeIdx; Ok (u16 n)
                 else if decide (kind = RTK_Class) then n ← map_at classMap typeIdx; Ok (u16 n)
                 else Ok typeIdx);
      elems ← (fix all (es : list TypeDesc) : outcome (list TypeDesc) :=
         match es with
         | [] => Ok []
         | e :: es => e ← RemapTypeDesc structMap classMap e; es ← all es; Ok (e :: es)
         end) elems;
      Ok (TD kind typeIdx rank elems)
  end.

(** ** Building a descriptor from a resolved type

    What [BuildTypeDesc] inspects of a compiler type: its array-ness, its node
    kind, and for classes the generic structure.  Struct and class declarations
    are named by an identifier the slot callbacks resolve. *)
Inductive SnType :=
  | TArrayToken (rank : Z) (elem : option SnType)
  | TArrayUnresolved
  | TEnumDecl
  | TStructDecl (id : nat)
  | TInterfaceDecl
  | TFuncClass (args : list SnType)
  | TTypeParam
  | TGenericInst (baseName : string) (args : list SnType) (id : nat)
  | TClassDecl (id : nat)
  | TStringType
  | TVoidType
  | TScalar (k : ScalarPrimId)
  | TOther.

Record TypeLeafSlots := LeafSlots { structSlotOf : nat → Z; classSlotOf : nat → Z }.

Definition non_serialized : TypeDesc := desc RTK_NonSerialized [].

(** [room]: the [depth >= kMaxTypeDescDepth] gates of the container arms. *)
Definition at_cap (depth : nat) (td : TypeDesc) : TypeDesc :=
  if decide (kMaxTypeDescDepth ≤ depth)%nat then non_serialized else td.

Fixpoint BuildTypeDesc (slots : TypeLeafSlots) (t : SnType) (depth : nat) : TypeDesc :=
  let class_leaf id := TD RTK_Class (u16 (classSlotOf slots id)) 1 [] in
  match t with
  | TArrayUnresolved => non_serialized
  | TArrayToken rank elem =>
      at_cap depth (TD RTK_Array 65535 rank
        [match elem with
         | Some e => BuildTypeDesc slots e (S depth)
         | None => non_serialized
         end])
  | TEnumDecl => desc RTK_Int32 []
  | TStructDecl id => TD RTK_Struct (u16 (structSlotOf slots id)) 1 []
  | TInterfaceDecl => non_serialized
  | TFuncClass args =>
      at_cap depth
        match args with
        | [] => non_serialized
        | ret :: params =>
            desc RTK_Func
              (((fix all (ts : list SnType) : list TypeDesc :=
                   match ts with
                   | [] => []
                   | t :: ts => BuildTypeDesc slots t (S depth) :: all ts
                   end) params) ++
               [match ret with
                | TVoidType => desc RTK_Void []
                | _ => BuildTypeDesc slots ret (S depth)
                end])
        end
  | TTypeParam => desc RTK_TypeParam []
  | TGenericInst base args id =>
      match args with
      | [a] =>
          if decide (base = "List"%string)
          then at_cap depth (desc RTK_List [BuildTypeDesc slots a (S depth)])
          else if decide (base = "Array"%string)
          then at_cap depth (TD RTK_Array 65535 0 [BuildTypeDesc slots a (S depth)])
          else class_leaf id
      | [a; b] =>
          if decide (base = "Dict"%string)
          then at_cap depth (desc RTK_Dict [BuildTypeDesc slots a (S depth);
                                            BuildTypeDesc slots b (S depth)])
          else class_leaf id
      | _ => class_leaf id
      end
  | TClassDecl id => class_leaf id
  | TStringType => desc RTK_String []
  | TScalar k => desc (if decide (RtkOfKind k = 255) then RTK_NonSerialized else RtkOfKind k) []
  | TVoidType | TOther => non_serialized
  end.

(** ** The wire language *)
Inductive wf_desc : nat → TypeDesc → Prop :=
  | wf_ref rem k i : k = RTK_Struct ∨ k = RTK_Class → is_uint 16 i →
      wf_desc (S rem) (TD k i 1 [])
  | wf_array rem r e : 0 ≤ r ≤ kMaxArrayRank → wf_desc rem e →
      wf_desc (S rem) (TD RTK_Array 65535 r [e])
  | wf_list rem e : wf_desc rem e → wf_desc (S rem) (desc RTK_List [e])
  | wf_dict rem k v : wf_desc rem k → wf_desc rem v → wf_desc (S rem) (desc RTK_Dict [k; v])
  | wf_func rem es : (1 ≤ length es ≤ 256)%nat → (∀ e, e ∈ es → wf_desc rem e) →
      wf_desc (S rem) (desc RTK_Func es)
  | wf_leaf rem k : leaf_kind k = true → wf_desc (S rem) (desc k []).

Lemma leaf_kind_byte k :
  leaf_kind k = true → is_byte k ∧ k ∉ [RTK_Struct; RTK_Class; RTK_Array; RTK_List; RTK_Dict; RTK_Func].
Proof.
  unfold leaf_kind. rewrite orb_true_iff, !bool_decide_eq_true.
  intros [H|[[i r] H]].
  - destruct H as [->|[->|[->|[->| ->]]]]; (split; [done|]);
      apply (bool_decide_unpack (_ ∉ _)); vm_compute; exact I.
  - apply ScalarPrimIndexOfRtk_Some in H as [Hr <-]. revert r Hr.
    refine (registry_cases _ _).
    repeat (apply list.Forall_cons; split; [|]); [..|constructor];
      (split; [done|]); apply (bool_decide_unpack (_ ∉ _)); vm_compute; exact I.
Qed.

(** Appending is a pure encoding of well-formed descriptors that the parser
    inverts. *)
Definition decodes (rem : nat) (td : TypeDesc) : Prop :=
  ∃ bs, (∀ out, AppendTypeDescBytes out td = Ok (out ++ bs))
    ∧ Forall is_byte bs
    ∧ ∀ data pos, occurs data pos bs → ParseOne rem data pos = Ok (td, (pos + length bs)%nat).

Fixpoint append_all (out : bytes) (es : list TypeDesc) : outcome bytes :=
  match es with
  | [] => Ok out
  | e :: es => out ← AppendTypeDescBytes out e; append_all out es
  end.

Lemma decodes_all rem es :
  Forall (decodes rem) es →
  ∃ bs, (∀ out, append_all out es = Ok (out ++ bs)) ∧ Forall is_byte bs
    ∧ ∀ data pos, occurs data pos bs →
        parse_many (ParseOne rem data) (length es) pos = Ok (es, (pos + length bs)%nat).
Proof.
  induction 1 as [|e es (bs & Ha & Hb & Hp) _ (bss & Has & Hbs & Hps)].
  - exists []. split_and!; [intros; by rewrite app_nil_r|done|].
    intros. simpl. by rewrite Nat.add_0_r.
  - exists (bs ++ bss). split_and!.
    + intros out. simpl. rewrite Ha, bindE, Has. by rewrite <- app_assoc.
    + by apply Forall_app.
    + intros data pos [H1 H2]%occurs_app. cbn [length parse_many].
      rewrite (Hp _ _ H1), bindE. cbn beta iota. rewrite (Hps _ _ H2), bindE.
      by rewrite length_app, Nat.add_assoc.
Qed.

Lemma decide_ref k : k ∉ [RTK_Struct; RTK_Class; RTK_Array; RTK_List; RTK_Dict; RTK_Func] →
  ¬ (k = RTK_Struct ∨ k = RTK_Class) ∧ k ≠ RTK_Array ∧ k ≠ RTK_List ∧ k ≠ RTK_Dict ∧ k ≠ RTK_Func.
Proof. rewrite !elem_of_cons. naive_solver. Qed.

Lemma occurs_pos_lt {A} (data : list A) pos b bs :
  occurs data pos (b :: bs) → (pos < length data)%nat.
Proof. intros H%occurs_length. simpl in H. lia. Qed.

(** The first byte of a descriptor is its kind. *)
Lemma ParseOne_kind (data : bytes) pos k bs :
  occurs data pos (k :: bs) →
  bool_decide (pos < length data)%nat = true ∧ data !! pos = Some k
  ∧ occurs data (S pos) bs.
Proof.
  intros H. split_and!.
  - apply bool_decide_eq_true. by eapply occurs_pos_lt.
  - by eapply occurs_lookup.
  - apply (occurs_app _ _ [k] bs) in H as [_ H]. simpl in H. by rewrite Nat.add_1_r in H.
Qed.

Lemma decodes_ref rem k i :
  k = RTK_Struct ∨ k = RTK_Class → is_uint 16 i → decodes (S rem) (TD k i 1 []).
Proof.
  intros Hk Hi. exists (k :: le_bytes 2 i). split_and!.
  - intros out. cbn [AppendTypeDescBytes le_bytes]. rewrite decide_True by done.
    by rewrite <- app_assoc, (land_255 (Z.shiftr i 8)).
  - constructor; [by destruct Hk as [-> | ->]|apply le_bytes_bytes].
  - intros data pos H. destruct (ParseOne_kind data pos k _ H) as (Hlt & Hb & Ho).
    cbn [ParseOne]. rewrite Hlt. cbn [check]. rewrite bindE, Hb, derefE, bindE.
    rewrite decide_True by done. unfold ParseTypeIndex.
    pose proof (occurs_length _ _ _ Ho) as Hl. rewrite length_le_bytes in Hl.
    rewrite bool_decide_true by lia. cbn [check]. rewrite bindE.
    destruct (ParseOne_kind data (S pos) _ _ Ho) as (_ & Hlo & Ho2).
    destruct (ParseOne_kind data (S (S pos)) _ _ Ho2) as (_ & Hhi & _).
    rewrite Hlo, derefE, bindE, Hhi, derefE, !bindE.
    pose proof (le_value_bytes 2 i) as E. rewrite Z.mod_small in E by done.
    simpl in E. rewrite Z.shiftl_0_l, Z.lor_0_r in E. rewrite E.
    cbn [length]. rewrite length_le_bytes. do 2 f_equal. lia.
Qed.

Lemma decodes_leaf rem k : leaf_kind k = true → decodes (S rem) (desc k []).
Proof.
  intros Hk. destruct (leaf_kind_byte k Hk) as [Hb (N1 & N2 & N3 & N4 & N5)%decide_ref].
  exists [k]. split_and!; [|by apply Forall_singleton|].
  - intros out. unfold desc. cbn [AppendTypeDescBytes]. by rewrite !decide_False by done.
  - intros data pos H. destruct (ParseOne_kind data pos k _ H) as (Hlt & Hd & _).
    cbn [ParseOne]. rewrite Hlt. cbn [check]. rewrite bindE, Hd, derefE, bindE.
    rewrite !decide_False by done. rewrite Hk. cbn [check]. rewrite bindE.
    simpl. do 2 f_equal. lia.
Qed.

Lemma decodes_array rem r e :
  0 ≤ r ≤ kMaxArrayRank → decodes rem e → decodes (S rem) (TD RTK_Array 65535 r [e]).
Proof.
  intros Hr (bs & Ha & Hb & Hp). exists (RTK_Array :: bs ++ [r]). split_and!.
  - intros out. cbn [AppendTypeDescBytes]. rewrite decide_False by (intros [?|?]; done).
    rewrite decide_True by done. rewrite Ha, bindE. by rewrite <- !app_assoc.
  - constructor; [done|]. apply Forall_app. split; [done|].
    apply Forall_singleton. unfold is_byte, kMaxArrayRank in *. lia.
  - intros data pos H. destruct (ParseOne_kind data pos _ _ H) as (Hlt & Hd & Ho).
    apply occurs_app in Ho as [Ho1 Ho2].
    destruct (ParseOne_kind data _ _ _ Ho2) as (Hlt2 & Hd2 & _).
    cbn [ParseOne]. rewrite Hlt. cbn [check]. rewrite bindE, Hd, derefE, bindE.
    rewrite decide_False by (intros [?|?]; done). rewrite decide_True by done.
    unfold ParseArrayBody. rewrite (Hp _ _ Ho1), bindE. cbn beta iota. rewrite Hlt2.
    cbn [check]. rewrite bindE, Hd2, derefE, bindE, bool_decide_true by lia. cbn [check].
    rewrite !bindE. cbn [length]. rewrite length_app. simpl. do 2 f_equal. lia.
Qed.

Lemma decodes_list rem e : decodes rem e → decodes (S rem) (desc RTK_List [e]).
Proof.
  intros (bs & Ha & Hb & Hp). exists (RTK_List :: bs). split_and!.
  - intros out. unfold desc. cbn [AppendTypeDescBytes].
    rewrite decide_False by (intros [?|?]; done). rewrite decide_False by done.
    rewrite decide_True by done. rewrite Ha. by rewrite <- app_assoc.
  - by constructor.
  - intros data pos H. destruct (ParseOne_kind data pos _ _ H) as (Hlt & Hd & Ho).
    cbn [ParseOne]. rewrite Hlt. cbn [check]. rewrite bindE, Hd, derefE, bindE.
    rewrite decide_False by (intros [?|?]; done). rewrite decide_False by done.
    rewrite decide_True by done. rewrite (Hp _ _ Ho), bindE. cbn beta iota. simpl.
    do 2 f_equal. lia.
Qed.

Lemma decodes_dict rem k v :
  decodes rem k → decodes rem v → decodes (S rem) (desc RTK_Dict [k; v]).
Proof.
  intros Hk Hv. destruct (decodes_all rem [k; v]) as (bs & Ha & Hb & Hp); [by apply Forall_cons_2, Forall_singleton|].
  change (length [k; v]) with 2%nat in Hp. exists (RTK_Dict :: bs). split_and!.
  - intros out. unfold desc. cbn [AppendTypeDescBytes].
    rewrite decide_False by (intros [?|?]; done). rewrite !decide_False by done.
    rewrite decide_True by done. specialize (Ha (out ++ [RTK_Dict])).
    cbn [append_all] in Ha. rewrite <- app_assoc in Ha. cbn [app] in Ha. rewrite <- Ha.
    destruct (AppendTypeDescBytes _ k) as [o|]; [|done]. rewrite !bindE.
    by destruct (AppendTypeDescBytes o v).
  - by constructor.
  - intros data pos H. destruct (ParseOne_kind data pos _ _ H) as (Hlt & Hd & Ho).
    cbn [ParseOne]. rewrite Hlt. cbn [check]. rewrite bindE, Hd, derefE, bindE.
    rewrite decide_False by (intros [?|?]; done). rewrite !decide_False by done.
    rewrite decide_True by done. rewrite (Hp _ _ Ho), bindE. cbn beta iota. simpl.
    do 2 f_equal. lia.
Qed.

Lemma decodes_func rem es :
  (1 ≤ length es ≤ 256)%nat → Forall (decodes rem) es → decodes (S rem) (desc RTK_Func es).
Proof.
  intros Hl Hes. destruct (decodes_all rem es Hes) as (bs & Ha & Hb & Hp).
  assert (u8 (Z.of_nat (length es) - 1) = Z.of_nat (length es) - 1) as Hn
    by (apply wrap_small; unfold is_uint; change (2 ^ 8) with 256; lia).
  exists (RTK_Func :: (Z.of_nat (length es) - 1) :: bs). split_and!.
  - intros out. unfold desc. cbn [AppendTypeDescBytes].
    rewrite decide_False by (intros [?|?]; done). rewrite !decide_False by done.
    rewrite decide_True by done. rewrite Hn.
    destruct es as [|e es]; [simpl in Hl; lia|].
    etransitivity; [exact (Ha _)|]. by rewrite <- !app_assoc.
  - apply Forall_cons_2; [done|]. apply Forall_cons_2; [unfold is_byte; lia|done].
  - intros data pos H. destruct (ParseOne_kind data pos _ _ H) as (Hlt & Hd & Ho).
    destruct (ParseOne_kind data _ _ _ Ho) as (Hlt2 & Hd2 & Ho2).
    cbn [ParseOne]. rewrite Hlt. cbn [check]. rewrite bindE, Hd, derefE, bindE.
    rewrite decide_False by (intros [?|?]; done). rewrite !decide_False by done.
    rewrite decide_True by done. unfold ParseFuncElems. rewrite Hlt2. cbn [check].
    rewrite bindE, Hd2, derefE, bindE.
    replace (Z.to_nat (Z.of_nat (length es) - 1) + 1)%nat with (length es) by lia.
    rewrite (Hp _ _ Ho2), bindE. cbn beta iota. simpl. do 2 f_equal. lia.
Qed.

Lemma wf_desc_decodes td : ∀ rem, wf_desc rem td → decodes rem td.
Proof.
  induction td as [k i r es IH] using TypeDesc_ind'. intros rem H.
  inversion H; subst; unfold desc in *;
    repeat match goal with
    | H : Forall _ (_ :: _) |- _ => apply Forall_cons_1 in H as [? H]
    end.
  - by apply decodes_ref.
  - apply decodes_array; auto.
  - apply decodes_list; auto.
  - apply decodes_dict; auto.
  - apply decodes_func; [done|]. rewrite list.Forall_forall in IH |- *. auto.
  - by apply decodes_leaf.
Qed.

Lemma decodes_whole td :
  wf_desc (kMaxTypeDescDepth + 1) td →
  ∃ bs, (∀ out, AppendTypeDescBytes out td = Ok (out ++ bs)) ∧ Forall is_byte bs
    ∧ ParseTypeDescBytes bs = Ok td ∧ bs ≠ [].
Proof.
  intros H%wf_desc_decodes. destruct H as (bs & Ha & Hb & Hp). exists bs.
  split_and!; [done..| |].
  - unfold ParseTypeDescBytes. rewrite (Hp bs 0%nat (occurs_whole bs)), bindE. cbn beta iota.
    by rewrite bool_decide_true by lia.
  - intros ->. specialize (Hp [] 0%nat (occurs_whole [])). done.
Qed.

(** the writer and the reader agree: each well-formed descriptor within the
    depth cap is written without error and the bytes parse back to it, alone or
    length-prefixed inside a stream as long as they fit the reader's length cap. *)
Theorem typedesc_roundtrip td :
  wf_desc (kMaxTypeDescDepth + 1) td →
  ∃ bs, AppendTypeDescBytes [] td = Ok bs ∧ ParseTypeDescBytes bs = Ok td
    ∧ (Z.of_nat (length bs) ≤ kMaxTypeDescBytes →
       ∀ rest, ∃ fs, WriteLenPrefixedTypeDesc [] td = Ok fs ∧ ReadTypeDesc (fs ++ rest) = Ok (td, rest)).
Proof.
  intros (bs & Ha & Hb & Hparse & Hne)%decodes_whole. exists bs.
  split_and!; [apply (Ha [])|done|]. intros Hl rest.
  unfold kMaxTypeDescBytes in Hl. unfold WriteLenPrefixedTypeDesc. rewrite (Ha []), bindE.
  cbn [app]. rewrite wrap_small by (unfold is_uint; change (2 ^ 16) with 65536; lia).
  rewrite Nat2Z.id, firstn_all. eexists. split; [done|].
  set (l := le_bytes 2 (Z.of_nat (length bs))). unfold ReadTypeDesc.
  assert (slice 0 2 ((l ++ bs) ++ rest) = Some l) as ->.
  { apply slice_Some. exists [], (bs ++ rest). rewrite <- app_assoc. done. }
  assert (le_value l = Z.of_nat (length bs)) as ->.
  { unfold l. rewrite le_value_bytes. apply Z.mod_small.
    change (2 ^ (8 * Z.of_nat 2)) with 65536. lia. }
  rewrite bool_decide_true by (unfold kMaxTypeDescBytes; lia). cbn [check]. rewrite bindE.
  rewrite decide_False by (destruct bs; simpl in *; [done|lia]). rewrite Nat2Z.id.
  assert (slice 2 (length bs) ((l ++ bs) ++ rest) = Some bs) as ->.
  { apply slice_Some. exists l, rest. rewrite <- app_assoc. done. }
  rewrite Hparse, bindE. do 2 f_equal.
  rewrite drop_app_length'; [done|]. rewrite length_app. done.
Qed.

Lemma typedesc_roundtrip_witness :
  let td := desc RTK_Func [TD RTK_Array 65535 2 [desc RTK_Int32 []];
                           desc RTK_Dict [desc RTK_String []; TD RTK_Class 513 1 []];
                           desc RTK_Void []] in
  ∃ bs, AppendTypeDescBytes [] td = Ok bs ∧ ParseTypeDescBytes bs = Ok td.
Proof.
  destruct (typedesc_roundtrip
    (desc RTK_Func [TD RTK_Array 65535 2 [desc RTK_Int32 []];
                    desc RTK_Dict [desc RTK_String []; TD RTK_Class 513 1 []];
                    desc RTK_Void []])) as (bs & H1 & H2 & _); [|by exists bs].
  apply wf_func; [simpl; lia|].
  intros e He. rewrite !elem_of_cons in He. destruct He as [->|[->|[->|He]]].
  - apply wf_array; [done|]. apply wf_leaf. reflexivity.
  - apply wf_dict; [apply wf_leaf; reflexivity|]. apply wf_ref; [by right|done].
  - apply wf_leaf. reflexivity.
  - by apply elem_of_nil in He.
Defined.

(** ** Everything accepted is canonical *)
Lemma append_array out i r e :
  AppendTypeDescBytes out (TD RTK_Array i r [e]) =
    (o ← AppendTypeDescBytes (out ++ [RTK_Array]) e; Ok (o ++ [r])).
Proof. reflexivity. Qed.
Lemma append_list out e :
  AppendTypeDescBytes out (desc RTK_List [e]) = AppendTypeDescBytes (out ++ [RTK_List]) e.
Proof. reflexivity. Qed.
Lemma append_dict out k v :
  AppendTypeDescBytes out (desc RTK_Dict [k; v]) = append_all (out ++ [RTK_Dict]) [k; v].
Proof. cbn. destruct (AppendTypeDescBytes _ k) as [o|]; [|done]. cbn. by destruct (AppendTypeDescBytes o v). Qed.
Lemma append_func out es :
  es ≠ [] →
  AppendTypeDescBytes out (desc RTK_Func es) =
    append_all ((out ++ [RTK_Func]) ++ [u8 (Z.of_nat (length es) - 1)]) es.
Proof. by destruct es. Qed.
Lemma append_leaf out k :
  leaf_kind k = true → AppendTypeDescBytes out (desc k []) = Ok (out ++ [k]).
Proof.
  intros [_ (N1 & N2 & N3 & N4 & N5)%decide_ref]%leaf_kind_byte.
  unfold desc. cbn [AppendTypeDescBytes]. by rewrite !decide_False by done.
Qed.

Definition parsed (rem : nat) (data : bytes) (pos : nat) (td : TypeDesc) (pos' : nat) : Prop :=
  wf_desc rem td ∧ ∃ bs, occurs data pos bs ∧ pos' = (pos + length bs)%nat
    ∧ ∀ out, AppendTypeDescBytes out td = Ok (out ++ bs).

Lemma occurs_join {A} (data : list A) pos bs1 bs2 :
  occurs data pos bs1 → occurs data (pos + length bs1) bs2 → occurs data pos (bs1 ++ bs2).
Proof.
  intros (p1 & q1 & -> & ->) (p2 & q2 & E & Hl). rewrite app_assoc in E.
  apply app_inj_1 in E as [<- ->]; [|rewrite length_app; lia].
  exists p1, q2. by rewrite <- !app_assoc.
Qed.

Lemma occurs_byte {A} (data : list A) pos b : data !! pos = Some b → occurs data pos [b].
Proof.
  intros H. exists (take pos data), (drop (S pos) data).
  split; [symmetry; by apply take_drop_middle|].
  apply lookup_lt_Some in H. rewrite length_take. lia.
Qed.

Lemma occurs_kind {A} (data : list A) pos b bs :
  data !! pos = Some b → occurs data (S pos) bs → occurs data pos (b :: bs).
Proof.
  intros H%occurs_byte H2. apply (occurs_join _ _ [b] bs); [done|].
  by rewrite Nat.add_1_r.
Qed.

Lemma parse_many_parsed rem data n :
  (∀ pos td pos', ParseOne rem data pos = Ok (td, pos') → parsed rem data pos td pos') →
  ∀ pos es pos', (pos ≤ length data)%nat →
    parse_many (ParseOne rem data) n pos = Ok (es, pos') →
    length es = n ∧ (∀ e, e ∈ es → wf_desc rem e)
    ∧ ∃ bs, occurs data pos bs ∧ pos' = (pos + length bs)%nat
        ∧ ∀ out, append_all out es = Ok (out ++ bs).
Proof.
  intros IH. induction n as [|n IHn]; intros pos es pos' Hpos H; cbn [parse_many] in H.
  - injection H as <- <-. split_and!; [done|by intros ? ?%elem_of_nil|].
    exists []. split_and!; [|simpl; lia|intros; by rewrite app_nil_r].
    exists (take pos data), (drop pos data). rewrite length_take. split; [symmetry; apply take_drop|lia].
  - monad_inv. match goal with
    | H1 : ParseOne _ _ _ = _, H2 : parse_many _ _ _ = _ |- _ =>
        destruct (IH _ _ _ H1) as (Hw & bs & Ho & -> & Ha);
        destruct (IHn _ _ _ (occurs_length _ _ _ Ho) H2) as (<- & Hws & bss & Hos & -> & Has)
    end.
    split_and!; [done| |].
    + intros e [->|He]%elem_of_cons; auto.
    + exists (bs ++ bss). split_and!.
      * by apply occurs_join.
      * rewrite length_app. lia.
      * intros out. cbn [append_all]. rewrite Ha, bindE, Has. by rewrite app_assoc.
Qed.

Lemma byte_word lo hi :
  is_byte lo → is_byte hi →
  is_uint 16 (Z.lor lo (Z.shiftl hi 8)) ∧ le_bytes 2 (Z.lor lo (Z.shiftl hi 8)) = [lo; hi].
Proof.
  intros Hl Hh. assert (Forall is_byte [lo; hi]) as Hf by (by apply Forall_cons_2, Forall_singleton).
  pose proof (le_value_bound _ Hf) as Hb. pose proof (le_bytes_value _ Hf) as He.
  simpl in Hb, He. rewrite Z.shiftl_0_l, Z.lor_0_r in Hb, He. split; [exact Hb|exact He].
Qed.

(** The parser's accepted input, one level. *)
Lemma ParseOne_parsed data rem : Forall is_byte data → ∀ pos td pos',
  ParseOne rem data pos = Ok (td, pos') → parsed rem data pos td pos'.
Proof.
  intros Hd. induction rem as [|rem IH]; intros pos td pos' H; [done|].
  cbn [ParseOne] in H. apply bind_Ok in H as (? & _ & H). apply bind_Ok in H as (k & Hk & H).
  apply deref_Ok in Hk. pose proof (lookup_lt_Some _ _ _ Hk) as Hlt.
  assert (is_byte k) as Hkb by (by eapply Forall_lookup_1).
  case_decide as E1; [|case_decide as E2; [|case_decide as E3; [|case_decide as E4;
    [|case_decide as E5]]]].
  - unfold ParseTypeIndex in H. monad_inv.
    match goal with H1 : data !! S pos = Some ?lo, H2 : data !! S (S pos) = Some ?hi |- _ =>
      assert (is_byte lo) as Hlo by (by eapply Forall_lookup_1);
      assert (is_byte hi) as Hhi by (by eapply Forall_lookup_1);
      destruct (byte_word lo hi Hlo Hhi) as [Hw He];
      pose proof (occurs_kind _ _ _ _ Hk (occurs_kind _ _ _ _ H1 (occurs_byte _ _ _ H2))) as Ho
    end.
    split; [by apply wf_ref|]. eexists. split_and!; [exact Ho|simpl; lia|].
    intros out. cbn [AppendTypeDescBytes]. rewrite decide_True by done.
    unfold wrap. change (2 ^ 8) with 256. rewrite <- app_assoc, <- land_255. simpl in He.
    injection He as -> ->. done.
  - subst k. unfold ParseArrayBody in H. monad_inv.
    match goal with
    | H1 : ParseOne _ _ _ = _, H2 : data !! _ = Some ?r, H3 : bool_decide (?r ≤ _) = true |- _ =>
        destruct (IH _ _ _ H1) as (Hw & bs & Ho & -> & Ha); rename H2 into Hrank;
        assert (is_byte r) as Hr by (by eapply Forall_lookup_1);
        apply bool_decide_eq_true in H3
    end.
    split; [apply wf_array; [unfold is_byte in Hr; lia|done]|]. eexists. split_and!.
    + eapply occurs_kind; [done|]. apply occurs_join; [exact Ho|]. by apply occurs_byte.
    + simpl. rewrite length_app. simpl. lia.
    + intros out. rewrite append_array, Ha, bindE. by rewrite <- !app_assoc.
  - subst k. monad_inv. match goal with
    | H1 : ParseOne _ _ _ = _ |- _ => destruct (IH _ _ _ H1) as (Hw & bs & Ho & -> & Ha) end.
    split; [by apply wf_list|]. exists (RTK_List :: bs). split_and!.
    + by apply occurs_kind.
    + simpl. lia.
    + intros out. rewrite append_list, Ha. by rewrite <- app_assoc.
  - subst k. monad_inv. match goal with
    | H1 : parse_many _ _ _ = _ |- _ =>
        destruct (parse_many_parsed _ _ _ IH _ _ _ Hlt H1) as (Hl & Hw & bs & Ho & -> & Ha) end.
    match goal with H1 : length ?es = 2%nat |- _ => destruct es as [|e1 [|e2 [|]]]; simplify_eq/= end.
    split; [apply wf_dict; apply Hw; rewrite !elem_of_cons; auto|].
    exists (RTK_Dict :: bs). split_and!.
    + by apply occurs_kind.
    + simpl. lia.
    + intros out. rewrite append_dict. cbn [append_all].
      rewrite Ha. by rewrite <- app_assoc.
  - subst k. unfold ParseFuncElems in H. monad_inv. match goal with
    | H1 : parse_many _ _ _ = _, H2 : data !! S pos = Some ?n |- _ =>
        assert (is_byte n) as Hn by (by eapply Forall_lookup_1); rename H2 into Hcount;
        destruct (parse_many_parsed _ _ _ IH _ _ _ (lookup_lt_Some _ _ _ Hcount) H1) as (Hl & Hw & bs & Ho & -> & Ha) end.
    unfold is_byte in Hn.
    split; [apply wf_func; [lia|done]|]. eexists. split_and!.
    + eapply occurs_kind; [done|]. eapply occurs_kind; [exact Hcount|exact Ho].
    + simpl. lia.
    + intros out. rewrite append_func by (intros ->; simpl in Hl; lia). rewrite Ha, Hl.
      rewrite wrap_small by (unfold is_uint; change (2 ^ 8) with 256; lia).
      match goal with
      | |- context [Z.of_nat (Z.to_nat ?n + 1) - 1] =>
          replace (Z.of_nat (Z.to_nat n + 1) - 1) with n by lia
      end. by rewrite <- !app_assoc.
  - apply bind_Ok in H as (u & Hc & H). apply check_Ok in Hc. injection H as <- <-.
    split; [by apply wf_leaf|]. exists [k]. split_and!.
    + by apply occurs_byte.
    + simpl. lia.
    + intros out. by apply append_leaf.
Qed.

(** the parser accepts exactly the writer's language: an accepted buffer is,
    byte for byte, what the writer produces for the descriptor it parses to, and
    that descriptor is well formed, within the depth and rank caps. *)
Theorem typedesc_canonical data td :
  Forall is_byte data →
  ParseTypeDescBytes data = Ok td ↔
  wf_desc (kMaxTypeDescDepth + 1) td ∧ AppendTypeDescBytes [] td = Ok data.
Proof.
  intros Hd. split.
  - intros H. unfold ParseTypeDescBytes in H. monad_inv.
    match goal with
    | H1 : ParseOne _ _ _ = _, H2 : bool_decide _ = true |- _ =>
        destruct (ParseOne_parsed _ _ Hd _ _ _ H1) as (Hw & bs & Ho & -> & Ha);
        apply bool_decide_eq_true in H2
    end.
    split; [done|]. rewrite (Ha []). f_equal. destruct Ho as (pre & post & E & Hl).
    destruct pre as [|? pre]; [|discriminate Hl].
    assert (length data = length bs + length post)%nat as Hlen
      by (rewrite E, !length_app; done).
    destruct post as [|? post]; [by rewrite E, app_nil_r|]. cbn [length] in Hlen. lia.
  - intros [Hw Ha]. destruct (decodes_whole td Hw) as (bs & Ha' & _ & Hp & _).
    specialize (Ha' []). cbn [app] in Ha'. congruence.
Qed.

Lemma typedesc_canonical_witness :
  Forall is_byte [7; 1; 0; 254] ∧
  AppendTypeDescBytes [] (desc RTK_Func [desc RTK_Int32 []; desc RTK_Void []]) = Ok [7; 1; 0; 254].
Proof.
  assert (Forall is_byte [7; 1; 0; 254]) as Hd
    by (apply (bool_decide_unpack (Forall is_byte _)); vm_compute; exact I).
  split; [exact Hd|].
  apply (typedesc_canonical [7; 1; 0; 254] _ Hd). vm_compute. reflexivity.
Defined.

(** ** What the compiler builds always loads *)
Definition optP {A} (P : A → Prop) (o : option A) : Prop :=
  match o with Some a => P a | None => True end.

Fixpoint SnType_ind' (P : SnType → Prop)
    (Harr : ∀ r e, optP P e → P (TArrayToken r e)) (Hun : P TArrayUnresolved)
    (Hen : P TEnumDecl) (Hst : ∀ id, P (TStructDecl id)) (Hin : P TInterfaceDecl)
    (Hfun : ∀ args, Forall P args → P (TFuncClass args)) (Htp : P TTypeParam)
    (Hgen : ∀ b args id, Forall P args → P (TGenericInst b args id))
    (Hcl : ∀ id, P (TClassDecl id)) (Hs : P TStringType) (Hv : P TVoidType)
    (Hsc : ∀ k, P (TScalar k)) (Ho : P TOther) (t : SnType) : P t :=
  let rec := SnType_ind' P Harr Hun Hen Hst Hin Hfun Htp Hgen Hcl Hs Hv Hsc Ho in
  let all := fix all (ts : list SnType) : Forall P ts :=
    match ts with
    | [] => @List.Forall_nil _ P
    | t :: ts => @List.Forall_cons _ P t ts (rec t) (all ts)
    end in
  match t with
  | TArrayToken r e => Harr r e (match e with Some e => rec e | None => I end)
  | TArrayUnresolved => Hun | TEnumDecl => Hen | TStructDecl id => Hst id
  | TInterfaceDecl => Hin | TFuncClass args => Hfun args (all args)
  | TTypeParam => Htp | TGenericInst b args id => Hgen b args id (all args)
  | TClassDecl id => Hcl id | TStringType => Hs | TVoidType => Hv
  | TScalar k => Hsc k | TOther => Ho
  end.

(** The types whose ranks and signature arities fit their wire bytes. *)
Inductive fits : SnType → Prop :=
  | fits_array r e : 0 ≤ r ≤ kMaxArrayRank → (∀ x, e = Some x → fits x) → fits (TArrayToken r e)
  | fits_func args : (length args ≤ 256)%nat → (∀ t, t ∈ args → fits t) → fits (TFuncClass args)
  | fits_gen b args id : (∀ t, t ∈ args → fits t) → fits (TGenericInst b args id)
  | fits_leaf t :
      match t with TArrayToken _ _ | TFuncClass _ | TGenericInst _ _ _ => False | _ => True end →
      fits t.

Lemma wf_non_serialized rem : wf_desc (S rem) non_serialized.
Proof. apply wf_leaf. reflexivity. Qed.

Lemma wf_class_leaf rem v : wf_desc (S rem) (TD RTK_Class (u16 v) 1 []).
Proof. apply wf_ref; [by right|]. apply wrap_range. lia. Qed.

Lemma wf_at_cap depth td :
  (depth ≤ kMaxTypeDescDepth)%nat →
  ((depth < kMaxTypeDescDepth)%nat → wf_desc (S (kMaxTypeDescDepth - depth)) td) →
  wf_desc (S (kMaxTypeDescDepth - depth)) (at_cap depth td).
Proof.
  intros Hd H. unfold at_cap. case_decide; [apply wf_non_serialized|]. apply H. lia.
Qed.

Definition builds (slots : TypeLeafSlots) (t : SnType) : Prop :=
  fits t → ∀ depth, (depth ≤ kMaxTypeDescDepth)%nat →
    wf_desc (S (kMaxTypeDescDepth - depth)) (BuildTypeDesc slots t depth).

Lemma builds_deeper slots t depth :
  builds slots t → fits t → (depth < kMaxTypeDescDepth)%nat →
  wf_desc (kMaxTypeDescDepth - depth) (BuildTypeDesc slots t (S depth)).
Proof.
  intros H Hf Hd. specialize (H Hf (S depth) ltac:(lia)).
  replace (S (kMaxTypeDescDepth - S depth)) with (kMaxTypeDescDepth - depth)%nat in H by lia.
  exact H.
Qed.

(** The parameter list of the func arm. *)
Definition build_all (slots : TypeLeafSlots) (depth : nat) : list SnType → list TypeDesc :=
  fix all ts := match ts with
                | [] => []
                | t :: ts => BuildTypeDesc slots t (S depth) :: all ts
                end.
Lemma build_all_fmap slots depth ts :
  build_all slots depth ts = (λ t, BuildTypeDesc slots t (S depth)) <$> ts.
Proof. induction ts as [|t ts IH]; [done|]. cbn. by rewrite IH. Qed.

Definition func_return (slots : TypeLeafSlots) (ret : SnType) (depth : nat) : TypeDesc :=
  match ret with TVoidType => desc RTK_Void [] | _ => BuildTypeDesc slots ret (S depth) end.

Lemma BuildTypeDesc_func slots ret params depth :
  BuildTypeDesc slots (TFuncClass (ret :: params)) depth =
    at_cap depth (desc RTK_Func (build_all slots depth params ++ [func_return slots ret depth])).
Proof. reflexivity. Qed.

Lemma BuildTypeDesc_builds slots t : builds slots t.
Proof.
  induction t using SnType_ind'; intros Hf depth Hd; try apply wf_non_serialized;
    try (by apply wf_leaf).
  - (* array token *)
    inversion Hf; [|done]. subst. cbn [BuildTypeDesc]. apply wf_at_cap; [done|]. intros Hlt.
    apply wf_array; [done|]. destruct e as [e|]; [apply builds_deeper; auto|].
    replace (kMaxTypeDescDepth - depth)%nat with (S (kMaxTypeDescDepth - S depth)) by lia.
    apply wf_non_serialized.
  - (* struct *)
    cbn [BuildTypeDesc]. apply wf_ref; [by left|]. apply wrap_range. lia.
  - (* func *)
    inversion Hf as [|? Hlen Hall| |]; [|done]. subst.
    destruct args as [|ret params].
    { cbn [BuildTypeDesc]. apply wf_at_cap; [done|]. intros. apply wf_non_serialized. }
    rewrite BuildTypeDesc_func. apply wf_at_cap; [done|]. intros Hlt.
    apply Forall_cons_1 in H as [Hret Hparams]. rewrite build_all_fmap.
    apply wf_func; [rewrite length_app, length_fmap; simpl in *; lia|].
    intros e [He|He]%elem_of_app.
    + apply list_elem_of_fmap in He as (p & -> & Hp). apply builds_deeper; [|by apply Hall; right|done].
      rewrite list.Forall_forall in Hparams. auto.
    + apply list_elem_of_singleton in He as ->. unfold func_return.
      pose proof (builds_deeper slots ret depth Hret (Hall ret ltac:(left)) Hlt) as Hb.
      destruct ret; try exact Hb.
      replace (kMaxTypeDescDepth - depth)%nat with (S (kMaxTypeDescDepth - S depth)) by lia.
      apply wf_leaf. reflexivity.
  - (* generic instantiation *)
    inversion Hf as [| |? ? ? Hall|]; [|done]. subst. cbn [BuildTypeDesc].
    destruct args as [|a [|c [|]]]; try apply wf_class_leaf.
    + apply Forall_cons_1 in H as [Ha _].
      case_decide; [|case_decide; [|apply wf_class_leaf]]; (apply wf_at_cap; [done|]); intros Hlt.
      * apply wf_list, builds_deeper; [done|apply Hall; left|done].
      * apply wf_array; [done|]. apply builds_deeper; [done|apply Hall; left|done].
    + apply Forall_cons_1 in H as [Ha H]. apply Forall_cons_1 in H as [Hc _].
      case_decide; [|apply wf_class_leaf]. apply wf_at_cap; [done|]. intros Hlt.
      apply wf_dict; apply builds_deeper; (done || (apply Hall; (left || (right; left)))).
  - (* class *) apply wf_class_leaf.
  - (* scalar *)
    cbn [BuildTypeDesc]. apply wf_leaf. by destruct k.
Qed.

(** each descriptor the compiler builds, from any type whose array ranks and
    func arities fit their wire bytes, is written without error and accepted by the
    loader: the depth gates of [BuildTypeDesc] and of [ParseOne] agree. *)
Theorem built_descriptor_loads slots t :
  fits t →
  ∃ bs, AppendTypeDescBytes [] (BuildTypeDesc slots t 0) = Ok bs
    ∧ ParseTypeDescBytes bs = Ok (BuildTypeDesc slots t 0).
Proof.
  intros Hf. pose proof (BuildTypeDesc_builds slots t Hf 0%nat ltac:(lia)) as Hw.
  destruct (decodes_whole _ Hw) as (bs & Ha & _ & Hp & _). exists bs.
  split; [apply (Ha [])|done].
Qed.

Definition demo_slots : TypeLeafSlots := LeafSlots (λ id, Z.of_nat id) (λ id, Z.of_nat id).
Lemma built_descriptor_loads_witness :
  ∃ bs, AppendTypeDescBytes []
      (BuildTypeDesc demo_slots (TGenericInst "List" [TArrayToken 2 (Some (TClassDecl 5))] 0) 0) = Ok bs
    ∧ bs = [8; 5; 4; 5; 0; 2].
Proof.
  destruct (built_descriptor_loads demo_slots
    (TGenericInst "List" [TArrayToken 2 (Some (TClassDecl 5))] 0)) as (bs & H & _).
  - apply fits_gen. intros t Ht%list_elem_of_singleton. subst t.
    apply fits_array; [done|]. intros x [= <-]. by apply fits_leaf.
  - exists bs. split; [exact H|]. vm_compute in H. congruence.
Defined.

(** A dictionary type of depth [n], and a func type with 64 such parameters. *)
Fixpoint dict_tower (n : nat) : SnType :=
  match n with
  | O => TScalar SPR_Int32
  | S n => TGenericInst "Dict" [dict_tower n; dict_tower n] 0
  end.
Definition wide_func : SnType := TFuncClass (TVoidType :: replicate 64 (dict_tower 6)).

(** the depth gate alone does not bound the size: the compiler writes, within
    the depth cap, a func type of 64 dictionary parameters as a descriptor longer
    than [kMaxTypeDescBytes], and the loader rejects the length. *)
Theorem wide_func_rejected slots :
  ∃ fs, WriteLenPrefixedTypeDesc [] (BuildTypeDesc slots wide_func 0) = Ok fs
    ∧ ReadTypeDesc fs = Raise (RuntimeError "Invalid module: bad type descriptor length").
Proof.
  assert (match WriteLenPrefixedTypeDesc [] (BuildTypeDesc slots wide_func 0) with
          | Ok fs => match ReadTypeDesc fs with
                     | Raise e => bool_decide (e = RuntimeError "Invalid module: bad type descriptor length")
                     | Ok _ => false end
          | Raise _ => false end = true) as H by (vm_compute; reflexivity).
  destruct (WriteLenPrefixedTypeDesc [] _) as [fs|]; [|done]. exists fs. split; [done|].
  destruct (ReadTypeDesc fs); [done|]. by apply bool_decide_eq_true in H as ->.
Qed.

(** ** Index checks *)
Fixpoint desc_indices_ok (structCount classCount : Z) (td : TypeDesc) : Prop :=
  match td with
  | TD kind typeIdx _ elems =>
      (kind = RTK_Struct → typeIdx < structCount) ∧ (kind = RTK_Class → typeIdx < classCount)
      ∧ (fix all (es : list TypeDesc) : Prop :=
           match es with [] => True | e :: es => desc_indices_ok structCount classCount e ∧ all es end) elems
  end.

(** validation accepts exactly the descriptors all of whose struct and class
    indices, at any nesting, are inside the module's tables. *)
Theorem ValidateTypeDescIndices_iff td structCount classCount :
  ValidateTypeDescIndices td structCount classCount = Ok tt ↔
  desc_indices_ok structCount classCount td.
Proof.
  induction td as [k i r es IH] using TypeDesc_ind'.
  cbn [ValidateTypeDescIndices desc_indices_ok].
  assert (∀ m : outcome unit, (_ ← (if decide (k = RTK_Struct) then
      check (bool_decide (i < structCount))
        (RuntimeError "Invalid module: type descriptor struct index out of range")
    else if decide (k = RTK_Class) then
      check (bool_decide (i < classCount))
        (RuntimeError "Invalid module: type descriptor class index out of range")
    else Ok tt); m) = Ok tt ↔
    ((k = RTK_Struct → i < structCount) ∧ (k = RTK_Class → i < classCount)) ∧ m = Ok tt) as ->.
  { intros m. unfold RTK_Struct, RTK_Class. repeat case_decide; subst; unfold check;
      repeat case_bool_decide; cbn; naive_solver. }
  enough (∀ A B P Q : Prop, (P ↔ Q) → (A ∧ B) ∧ P ↔ A ∧ B ∧ Q) as G; [|tauto].
  apply G. clear G. induction IH as [|e es He _ IHes]; [done|]. cbn. rewrite <- He, <- IHes.
  destruct (ValidateTypeDescIndices e structCount classCount) as [[]|]; cbn; naive_solver.
Qed.
