(* ===== verification/ByteIO.v ===== *)
(** * Binary input and output streams

    The stream layer of the module saver and loader ([src/src/vm/ModuleSaver.cpp],
    [ModuleLoader.cpp] and their record files): [ostream::write] of scalars and counted
    strings, [istream::read] with its sticky failure.  A writer gives the bytes it
    appends; a reader is a state monad over the rest of the input and [good()].  The
    second half has the laws the record codecs are built from. *)
From S2P Require Import Prelude.
From S2P Require Import Bytecode.
Open Scope Z_scope.

(** ** Writers *)
Definition seq_out (a b : outcome bytes) : outcome bytes := x ← a; y ← b; Ok (x ++ y).
Infix "+++" := seq_out (at level 60, right associativity).
Definition put8 (v : Z) : outcome bytes := Ok (le_bytes 1 v).
Definition put16 (v : Z) : outcome bytes := Ok (le_bytes 2 v).
Definition put32 (v : Z) : outcome bytes := Ok (le_bytes 4 v).
Definition put64 (v : Z) : outcome bytes := Ok (le_bytes 8 v).
(** A count or length narrowed to [n] bytes. *)
Definition put_size (n : nat) {A} (l : list A) : outcome bytes := Ok (le_bytes n (Z.of_nat (length l))).
(** A length of [n] bytes, then as many bytes as that length says. *)
Definition put_string (n : nat) (s : bytes) : outcome bytes :=
  let len := wrap (8 * Z.of_nat n) (Z.of_nat (length s)) in
  Ok (le_bytes n len ++ take (Z.to_nat len) s).
(** A range-based loop, and a loop over the first [n] elements of a vector. *)
Definition put_all {A} (f : A → outcome bytes) (l : list A) : outcome bytes :=
  foldr (λ a out, f a +++ out) (Ok []) l.
Definition put_first {A} (n : nat) (f : A → outcome bytes) (l : list A) : outcome bytes :=
  put_all (λ i, a ← deref (l !! i); f a) (seq 0 n).
#[global] Arguments seq_out : simpl never.
#[global] Arguments put8 : simpl never.
#[global] Arguments put16 : simpl never.
#[global] Arguments put32 : simpl never.
#[global] Arguments put64 : simpl never.
#[global] Arguments put_size : simpl never.
#[global] Arguments put_string : simpl never.
#[global] Arguments put_all : simpl never.
#[global] Arguments put_first : simpl never.

(** ** Readers *)
Record istream := MkStream { rest : bytes; good : bool }.
Definition reader (A : Type) : Type := istream → outcome (A * istream).
#[export] Instance reader_ret : MRet reader := λ A a s, Ok (a, s).
#[export] Instance reader_bind : MBind reader :=
  λ A B f m s, match m s with Ok (a, s) => f a s | Raise e => Raise e end.
Definition lift {A} (m : outcome A) : reader A := λ s, match m with Ok a => Ok (a, s) | Raise e => Raise e end.
Definition demand (b : bool) (msg : string) : reader unit := lift (check b (RuntimeError msg)).
Definition is_good : reader bool := λ s, Ok (good s, s).
(** [fs.read] into a buffer that holds [old]: a failed stream reads nothing, and a short
    read fills the front of the buffer and fails the stream. *)
Definition read_into (old : bytes) : reader bytes := λ s,
  if good s then
    if decide (length old ≤ length (rest s))%nat
    then Ok (take (length old) (rest s), MkStream (drop (length old) (rest s)) true)
    else Ok (rest s ++ drop (length (rest s)) old, MkStream [] false)
  else Ok (old, s).
(** Scalars over their previous value [old], strings over zeros. *)
Definition get_uint (n : nat) (old : Z) : reader Z := bs ← read_into (le_bytes n old); mret (le_value bs).
Definition get8 (old : Z) : reader Z := get_uint 1 old.
Definition get16 (old : Z) : reader Z := get_uint 2 old.
Definition get32 (old : Z) : reader Z := get_uint 4 old.
Definition get64 (old : Z) : reader Z := get_uint 8 old.
Definition get_bytes (n : Z) : reader bytes := read_into (replicate (Z.to_nat n) 0).
(** A count with its cap, and a string with a capped length. *)
Definition get_count (n : nat) (max : Z) (msg : string) : reader Z :=
  len ← get_uint n 0; ok ← is_good; _ ← demand (ok && bool_decide (len ≤ max)) msg; mret len.
Definition get_string (n : nat) (max : Z) (msg : string) : reader bytes :=
  len ← get_count n max msg; get_bytes len.
Fixpoint times {A} (n : nat) (r : reader A) : reader (list A) :=
  match n with O => mret [] | S n => a ← r; l ← times n r; mret (a :: l) end.
Definition get_list {A} (n : Z) (r : reader A) : reader (list A) := times (Z.to_nat n) r.
(** A [bool] member read in place: another byte than 0 or 1 is not a value of the type. *)
Definition get_bool : reader bool :=
  b ← get8 0;
  if decide (b = 0) then mret false else if decide (b = 1) then mret true else lift (Raise (Undefined "bool object")).
(** [f = (flag != 0)]. *)
Definition get_flag : reader bool := b ← get8 0; mret (bool_decide (b ≠ 0)).
Definition flag (b : bool) : Z := if b then 1 else 0.

(** ** Round trips

    [codec w r a]: the writer succeeds, and the reader gets [a] back from its bytes and
    leaves the rest of the stream. *)
Definition reads {A} (r : reader A) (bs : bytes) (a : A) : Prop :=
  ∀ t, r (MkStream (bs ++ t) true) = Ok (a, MkStream t true).
Definition codec {A} (w : outcome bytes) (r : reader A) (a : A) : Prop := ∃ bs, w = Ok bs ∧ reads r bs a.

Lemma codec_ret {A} (a : A) : codec (Ok []) (mret a) a.
Proof. by exists []. Qed.
Lemma codec_bind {A B} w1 w2 (r : reader A) (k : A → reader B) a b :
  codec w1 r a → codec w2 (k a) b → codec (w1 +++ w2) (r ≫= k) b.
Proof.
  intros (b1 & -> & R1) (b2 & -> & R2). exists (b1 ++ b2). split; [done|]. intros t.
  unfold mbind, reader_bind. by rewrite <- app_assoc, R1, R2.
Qed.
(** The last field: nothing is written after it. *)
Lemma codec_last {A B} w (r : reader A) (k : A → reader B) a b :
  codec w r a → codec (Ok []) (k a) b → codec w (r ≫= k) b.
Proof.
  intros (b1 & -> & R1) (b2 & [= <-] & R2). exists b1. split; [done|]. intros t.
  unfold mbind, reader_bind. rewrite R1. apply (R2 t).
Qed.
Lemma codec_good {A} w (k : bool → reader A) a : codec w (k true) a → codec w (ok ← is_good; k ok) a.
Proof. done. Qed.
Lemma codec_demand {A} w b msg (k : unit → reader A) a :
  b = true → codec w (k tt) a → codec w (u ← demand b msg; k u) a.
Proof. intros ->. done. Qed.
Lemma codec_lift {A B} w (m : outcome B) b (k : B → reader A) a :
  m = Ok b → codec w (k b) a → codec w (x ← lift m; k x) a.
Proof. intros ->. done. Qed.

Lemma reads_into old bs : length bs = length old → reads (read_into old) bs bs.
Proof.
  intros Hl t. unfold read_into. cbn. rewrite length_app, decide_True by lia.
  by rewrite <- Hl, take_app_length, drop_app_length.
Qed.
Lemma codec_uint n old v : is_uint (8 * Z.of_nat n) v → codec (Ok (le_bytes n v)) (get_uint n old) v.
Proof.
  intros Hv. exists (le_bytes n v). split; [done|]. intros t. unfold get_uint, mbind, reader_bind.
  rewrite reads_into by (by rewrite !length_le_bytes). rewrite le_value_bytes, Z.mod_small by done. done.
Qed.
Lemma codec_bytes s : codec (Ok s) (get_bytes (Z.of_nat (length s))) s.
Proof. exists s. split; [done|]. apply reads_into. by rewrite length_replicate, Nat2Z.id. Qed.
(** The length of [l] is within its cap and its wire width. *)
Definition fits (n : nat) (max : Z) {A} (l : list A) : Prop :=
  Z.of_nat (length l) ≤ max ∧ Z.of_nat (length l) < 2 ^ (8 * Z.of_nat n).
Lemma codec_count n max msg {A} (l : list A) : fits n max l →
  codec (put_size n l) (get_count n max msg) (Z.of_nat (length l)).
Proof.
  intros [H1 H2]. unfold get_count. eapply codec_last; [apply codec_uint; unfold is_uint; lia|].
  apply codec_good, codec_demand; [|apply codec_ret]. by rewrite bool_decide_true.
Qed.
Lemma codec_string n max msg s : fits n max s → codec (put_string n s) (get_string n max msg) s.
Proof.
  intros Hf. pose proof Hf as [H1 H2]. unfold put_string. rewrite wrap_small by (unfold is_uint; lia). rewrite Nat2Z.id, firstn_all.
  exact (codec_bind _ _ _ _ _ _ (codec_count n max msg s Hf) (codec_bytes s)).
Qed.
Lemma put_all_cons {A} (f : A → outcome bytes) a l : put_all f (a :: l) = f a +++ put_all f l.
Proof. done. Qed.
Lemma codec_times {A} (f : A → outcome bytes) (r : reader A) l :
  Forall (λ a, codec (f a) r a) l → codec (put_all f l) (times (length l) r) l.
Proof.
  induction 1 as [|a l Ha _ IH]; [apply codec_ret|]. rewrite put_all_cons. cbn [length times].
  eapply codec_bind; [exact Ha|]. eapply codec_last; [exact IH|]. apply codec_ret.
Qed.
Lemma codec_list {A} (f : A → outcome bytes) (r : reader A) l :
  Forall (λ a, codec (f a) r a) l → codec (put_all f l) (get_list (Z.of_nat (length l)) r) l.
Proof. intros H. unfold get_list. rewrite Nat2Z.id. by apply codec_times. Qed.
Lemma put_first_all {A} n (f : A → outcome bytes) l : length l = n → put_first n f l = put_all f l.
Proof.
  intros <-. unfold put_first.
  enough (∀ pre, put_all (λ i, a ← deref ((pre ++ l) !! i); f a) (seq (length pre) (length l)) = put_all f l) as H by apply (H []).
  induction l as [|a l IH]; intros pre; [done|]. cbn [length seq]. rewrite !put_all_cons.
  rewrite lookup_app_r, Nat.sub_diag by lia. cbn [lookup list_lookup deref]. rewrite bindE. f_equal.
  specialize (IH (pre ++ [a])). rewrite <- app_assoc, length_app, Nat.add_1_r in IH. exact IH.
Qed.
Lemma codec_first {A} n (f : A → outcome bytes) (r : reader A) l : Z.of_nat (length l) = n →
  Forall (λ a, codec (f a) r a) l → codec (put_first (Z.to_nat n) f l) (get_list n r) l.
Proof. intros <- H. rewrite put_first_all by (by rewrite Nat2Z.id). by apply codec_list. Qed.
Lemma codec_bool b : codec (put8 (flag b)) get_bool b.
Proof.
  unfold get_bool. eapply codec_last; [by apply codec_uint; destruct b|]. destruct b; apply codec_ret.
Qed.
Lemma codec_flag b : codec (put8 (flag b)) get_flag b.
Proof.
  unfold get_flag. eapply codec_last; [by apply codec_uint; destruct b|]. destruct b; apply codec_ret.
Qed.

(** ** Readers of arbitrary input

    What the loader can end with on a bad image: its own diagnosis, or the byte of a [bool]
    that is no value of its type.  The byte is one of the image: a reader that meets it meets
    it in every longer image, and the failed stream does not make one up. *)
Definition load_failure (e : vm_error) : Prop := match e with RuntimeError _ => True | _ => False end.
Definition bad_bool : vm_error := Undefined "bool object".
Record reader_ok {A} (r : reader A) : Prop := {
  rk_extends : ∀ bs a t' t, r (MkStream bs true) = Ok (a, MkStream t' true) →
    r (MkStream (bs ++ t) true) = Ok (a, MkStream (t' ++ t) true);
  rk_sticky : ∀ s a s', r s = Ok (a, s') → good s' = true → good s = true;
  rk_bytes : ∀ s a s', r s = Ok (a, s') → Forall is_byte (rest s) → Forall is_byte (rest s');
  rk_error : ∀ s e, r s = Raise e → load_failure e ∨ e = bad_bool;
  rk_bool : ∀ bs g t, r (MkStream bs g) = Raise bad_bool → g = true ∧ r (MkStream (bs ++ t) true) = Raise bad_bool
}.
Lemma ok_ret {A} (a : A) : reader_ok (mret a).
Proof. split; cbn; unfold mret, reader_ret; intros; by simplify_eq/=. Qed.
Lemma ok_bind {A B} (r : reader A) (k : A → reader B) : reader_ok r → (∀ a, reader_ok (k a)) → reader_ok (r ≫= k).
Proof.
  intros Hr Hk. unfold mbind, reader_bind. split.
  - intros bs b t' t. destruct (r _) as [[a [t1 g1]]|] eqn:E; [|done]. intros H.
    assert (g1 = true) as -> by (apply (rk_sticky _ (Hk a) _ _ _ H); done).
    rewrite (rk_extends _ Hr _ _ _ t E). by apply (rk_extends _ (Hk a)).
  - intros s b s'. destruct (r s) as [[a s1]|] eqn:E; [|done]. intros H Hg.
    apply (rk_sticky _ Hr _ _ _ E), (rk_sticky _ (Hk a) _ _ _ H Hg).
  - intros s b s'. destruct (r s) as [[a s1]|] eqn:E; [|done]. intros H Hg.
    apply (rk_bytes _ (Hk a) _ _ _ H), (rk_bytes _ Hr _ _ _ E Hg).
  - intros s e. destruct (r s) as [[a s1]|e1] eqn:E; [apply (rk_error _ (Hk a))|]. intros [= <-].
    apply (rk_error _ Hr _ _ E).
  - intros bs g t. destruct (r _) as [[a [t1 g1]]|e1] eqn:E.
    + intros [-> H]%(rk_bool _ (Hk a) t1 g1 t). assert (g = true) as -> by exact (rk_sticky _ Hr _ _ _ E eq_refl).
      split; [done|]. by rewrite (rk_extends _ Hr _ _ _ t E).
    + intros [= ->]. apply (rk_bool _ Hr _ _ t) in E as [-> E]. by rewrite E.
Qed.
Lemma ok_lift {A} (m : outcome A) : (∀ e, m = Raise e → load_failure e) → reader_ok (lift m).
Proof.
  intros H. destruct m as [a|e]; [exact (ok_ret a)|]. specialize (H e eq_refl). split; [done..| |].
  - intros s e' [= <-]. by left.
  - intros bs g t [= ->]. done.
Qed.
Lemma ok_demand b msg : reader_ok (demand b msg).
Proof. apply ok_lift. destruct b; [done|]. by intros e [= <-]. Qed.
Lemma ok_good : reader_ok is_good.
Proof.
  unfold is_good. split; cbn.
  - by intros bs a t' t [= <- <-].
  - by intros s a s' [= <- <-].
  - by intros s a s' [= <- <-].
  - done.
  - done.
Qed.
Lemma ok_read old : Forall is_byte old → reader_ok (read_into old).
Proof.
  intros Hold. unfold read_into. split.
  - intros bs a t' t. cbn. case_decide as H; [|done]. intros [= <- <-].
    rewrite decide_True by (rewrite length_app; lia). by rewrite take_app_le, drop_app_le by lia.
  - intros s a s'. destruct (good s) eqn:Hg; [done|]. intros [= _ <-] Hg'. congruence.
  - intros s a s'. destruct (good s); [case_decide|]; intros [= _ <-]; [cbn; apply Forall_drop|done..].
  - intros s e. destruct (good s); [case_decide|]; done.
  - intros bs g t. cbn. destruct g; [case_decide|]; done.
Qed.
Lemma ok_uint n old : reader_ok (get_uint n old).
Proof. apply ok_bind; [apply ok_read, le_bytes_bytes|]. intros. apply ok_ret. Qed.
Lemma ok_bytes n : reader_ok (get_bytes n).
Proof. apply ok_read. by apply Forall_replicate. Qed.
Create HintDb reader.
#[export] Hint Resolve ok_ret ok_good ok_demand ok_uint ok_bytes : reader.
(** One step of a reader: split a bind, follow a branch, or use a known reader. *)
Ltac reader_ok_step := first
  [ solve [eauto with reader] | progress intros | apply ok_bind | case_decide | case_match ].
Ltac solve_reader_ok := repeat reader_ok_step.
Lemma ok_count n max msg : reader_ok (get_count n max msg).
Proof. unfold get_count. solve_reader_ok. Qed.
#[export] Hint Resolve ok_count : reader.
Lemma ok_string n max msg : reader_ok (get_string n max msg).
Proof. unfold get_string. solve_reader_ok. Qed.
Lemma ok_times {A} n (r : reader A) : reader_ok r → reader_ok (times n r).
Proof. intros Hr. induction n; cbn [times]; solve_reader_ok. Qed.
Lemma ok_list {A} n (r : reader A) : reader_ok r → reader_ok (get_list n r).
Proof. apply ok_times. Qed.
Lemma ok_flag : reader_ok get_flag.
Proof. unfold get_flag, get8. solve_reader_ok. Qed.
Lemma get_bool_cases bs g : get_bool (MkStream bs g) =
  match bs, g with
  | b :: bs, true => if decide (b = 0) then Ok (false, MkStream bs true) else if decide (b = 1) then Ok (true, MkStream bs true) else Raise bad_bool
  | [], true => Ok (false, MkStream [] false)
  | _, false => Ok (false, MkStream bs false)
  end.
Proof.
  destruct bs as [|b bs], g; try done. unfold get_bool, get8, get_uint, mbind, reader_bind, read_into.
  cbn [good rest length take drop le_bytes mret reader_ret]. rewrite decide_True by (simpl; lia). cbn [le_value mret reader_ret firstn skipn].
  rewrite Z.shiftl_0_l, Z.lor_0_r. by repeat case_decide.
Qed.
Lemma ok_bool : reader_ok get_bool.
Proof.
  split.
  - intros [|b bs] a t' t; rewrite get_bool_cases; [done|]. cbn [app]. rewrite get_bool_cases. repeat case_decide; intros; by simplify_eq.
  - intros [[|b bs] []] a s'; rewrite get_bool_cases; repeat case_decide; intros; by simplify_eq/=.
  - intros [[|b bs] []] a s'; rewrite get_bool_cases; repeat case_decide; intros Hr Hb; simplify_eq/=; try done; by apply list.Forall_cons in Hb as [_ ?].
  - intros [[|b bs] []] e; rewrite get_bool_cases; repeat case_decide; intros; simplify_eq/=; by right.
  - intros [|b bs] [] t; rewrite get_bool_cases; try done. cbn [app]. rewrite get_bool_cases. repeat case_decide; done.
Qed.
#[export] Hint Resolve ok_string ok_list ok_flag ok_bool : reader.

(** What a successful read from a file of bytes guarantees. *)
Definition ensures {A} (r : reader A) (P : A → Prop) : Prop :=
  ∀ s a s', Forall is_byte (rest s) → r s = Ok (a, s') → good s' = true → P a.
Lemma ensures_ret {A} (P : A → Prop) a : P a → ensures (mret a) P.
Proof. intros HP s b s' _ H _. injection H as <- <-. exact HP. Qed.
Lemma ensures_bind {A B} (r : reader A) (k : A → reader B) (P : A → Prop) (Q : B → Prop) :
  reader_ok r → (∀ a, reader_ok (k a)) → ensures r P → (∀ a, P a → ensures (k a) Q) → ensures (r ≫= k) Q.
Proof.
  intros Hr Hk HP HQ s b s' Hs H Hg. unfold mbind, reader_bind in H. destruct (r s) as [[a s1]|] eqn:E; [|done].
  assert (P a) as Ha by (apply (HP _ _ _ Hs E); by apply (rk_sticky _ (Hk a) _ _ _ H)).
  exact (HQ a Ha _ _ _ (rk_bytes _ Hr _ _ _ E Hs) H Hg).
Qed.
Lemma ensures_good : ensures is_good (λ b, b = true).
Proof. intros s a s' _ H Hg. injection H as <- <-. exact Hg. Qed.
Lemma ensures_demand b msg : ensures (demand b msg) (λ _, b = true).
Proof. intros s a s' _ H _. by destruct b. Qed.
Lemma ensures_lift {A} (m : outcome A) : ensures (lift m) (λ a, m = Ok a).
Proof. intros s a s' _ H _. unfold lift in H. destruct m; by simplify_eq. Qed.
Lemma ensures_read old : ensures (read_into old) (λ bs, length bs = length old ∧ Forall is_byte bs).
Proof.
  intros s a s' Hs. unfold read_into. destruct (good s) eqn:Hg; [case_decide as H|]; intros [= <- <-] Hg'; [|done|congruence].
  rewrite length_take. split; [lia|by apply Forall_take].
Qed.
Lemma ensures_uint n old : ensures (get_uint n old) (is_uint (8 * Z.of_nat n)).
Proof.
  eapply ensures_bind; [apply ok_read, le_bytes_bytes|intros; apply ok_ret|apply ensures_read|].
  intros bs [Hl Hb]. apply ensures_ret. rewrite length_le_bytes in Hl. subst n. by apply le_value_bound.
Qed.
Lemma ensures_bytes n : 0 ≤ n → ensures (get_bytes n) (λ bs, Z.of_nat (length bs) = n ∧ Forall is_byte bs).
Proof.
  intros Hn s a s' Hs H Hg. destruct (ensures_read _ _ _ _ Hs H Hg) as [Hl Hb]. rewrite length_replicate in Hl.
  split; [lia|done].
Qed.
Lemma ensures_count n max msg : ensures (get_count n max msg) (λ v, 0 ≤ v ≤ max ∧ v < 2 ^ (8 * Z.of_nat n)).
Proof.
  unfold get_count. eapply ensures_bind; [solve_reader_ok..|apply ensures_uint|]. intros len Hlen.
  eapply ensures_bind; [solve_reader_ok..|apply ensures_good|]. intros ok ->.
  eapply ensures_bind; [solve_reader_ok..|apply ensures_demand|]. cbn. intros _ Hm%bool_decide_eq_true.
  apply ensures_ret. destruct Hlen. done.
Qed.
Definition string_ok (n : nat) (max : Z) (s : bytes) : Prop := fits n max s ∧ Forall is_byte s.
Lemma ensures_string n max msg : ensures (get_string n max msg) (string_ok n max).
Proof.
  unfold get_string. eapply ensures_bind; [solve_reader_ok..|apply ensures_count|]. cbn beta. intros len Hlen s a s' Hs H Hg.
  destruct (ensures_bytes len ltac:(lia) _ _ _ Hs H Hg) as [Hl Hb]. split; [split; lia|done].
Qed.
Lemma ensures_times {A} n (r : reader A) P : reader_ok r → ensures r P →
  ensures (times n r) (λ l, length l = n ∧ Forall P l).
Proof.
  intros Hr HP. induction n as [|n IH]; cbn [times]; [by apply ensures_ret|].
  eapply ensures_bind; [done|intros; apply ok_bind; [by apply ok_times|solve_reader_ok]|exact HP|]. intros a Ha.
  eapply ensures_bind; [by apply ok_times|solve_reader_ok|exact IH|]. intros l [Hl Hf].
  apply ensures_ret. split; [cbn; by rewrite Hl|by constructor].
Qed.
Lemma ensures_list {A} n (r : reader A) P : 0 ≤ n → reader_ok r → ensures r P →
  ensures (get_list n r) (λ l, Z.of_nat (length l) = n ∧ Forall P l).
Proof.
  intros Hn Hr HP s a s' Hs H Hg. destruct (ensures_times _ _ _ Hr HP _ _ _ Hs H Hg). split; [lia|done].
Qed.
