(* ===== verification/ModuleRecords.v ===== *)
(** * Records of a compiled module

    The tables of [nlang/vm/CompiledModuleRecords.h] and [CompiledModule.h] as the saver
    and the loader see them.  The run-time components read parts of them: their own
    records ([Frames], [Layout]) hold those parts.  Floating-point members are their bit
    patterns, strings and code are bytes. *)
From S2P Require Import Prelude.
From S2P Require Import Bytecode Prims TypeDesc.
Open Scope Z_scope.

Record DefaultValueDesc := MkDefaultValue {
  dv_tag : Z; dv_intValue : Z; dv_floatValue : Z; dv_stringIdx : Z; dv_longValue : Z; dv_doubleValue : Z;
  dv_exprBytes : bytes
}.
Record LocalDescriptor := MkLocal {
  ld_offset : Z; ld_size : Z; ld_isParam : Z; ld_typeKind : Z; ld_declPc : Z; ld_name : bytes
}.
Record TryBlock := MkTryBlock {
  tb_startPc : Z; tb_endPc : Z; tb_handlerPc : Z; tb_exceptionClassIdx : Z; tb_catchLocalOff : Z
}.
Record ParamTypeDesc := MkParamType { ptd_flags : Z; ptd_type : TypeDesc }.
Record CompiledFunction := MkFunction {
  func_name : bytes; func_localsSize : Z; func_paramCount : Z; func_returnTypeKind : Z; func_intrinsicId : Z;
  func_isNative : bool; func_isStatic : bool; func_defaultValues : list DefaultValueDesc; func_bytecode : bytes;
  func_tryBlocks : list TryBlock; func_locals : list LocalDescriptor; func_sourceFile : bytes;
  func_paramTypeDescs : list ParamTypeDesc; func_returnTypeDesc : TypeDesc; func_evalAreaHandleMask : bytes
}.
Record CompiledStruct := MkStructRecord {
  st_name : bytes; st_fieldCount : Z; st_isConstAggregate : bool; st_fieldNames : list bytes;
  st_fieldTypeKinds : list Z; st_fieldStructIndices : list Z; st_fieldClassIndices : list Z;
  st_fieldTypeDescs : list TypeDesc; st_constructorIndices : list Z; st_fieldDefaults : list DefaultValueDesc;
  st_constructorAccess : list Z
}.
Record CompiledStaticField := MkStaticField {
  sf_name : bytes; sf_type : TypeDesc; sf_access : Z; sf_isConst : bool; sf_slotIdx : Z;
  sf_foldedValue : DefaultValueDesc
}.
Record CompiledClass := MkClassRecord {
  cc_name : bytes; cc_fieldCount : Z; cc_superClassIdx : Z; cc_isConstAggregate : bool;
  cc_fieldNames : list bytes; cc_fieldTypeKinds : list Z; cc_fieldStructIndices : list Z;
  cc_fieldClassIndices : list Z; cc_fieldTypeDescs : list TypeDesc; cc_fieldAccess : list Z;
  cc_methodIndices : list Z; cc_methodAccess : list Z; cc_methodVirtual : list Z;
  cc_constructorIndices : list Z; cc_constructorAccess : list Z; cc_staticFields : list CompiledStaticField;
  cc_staticInitFuncIdx : Z
}.
Record CompiledInterfaceMethod := MkInterfaceMethod {
  sig_name : bytes; sig_paramCount : Z; sig_paramTypeDescs : list ParamTypeDesc; sig_returnType : TypeDesc;
  sig_defaultValues : list DefaultValueDesc
}.
Record CompiledInterfaceConstant := MkInterfaceConstant {
  constant_name : bytes; constant_type : TypeDesc; constant_value : DefaultValueDesc; constant_slotIdx : Z
}.
Record CompiledInterface := MkInterface {
  ci_name : bytes; ci_staticMethodIndices : list Z; ci_constants : list CompiledInterfaceConstant;
  ci_instanceMethods : list CompiledInterfaceMethod; ci_staticInitFuncIdx : Z
}.
Record CompiledArrayType := MkArrayTypeRecord { at_elemKind : Z; at_elemTypeIdx : Z; at_rank : Z }.
Record CompiledStaticSlot := MkStaticSlotRecord {
  slot_name : bytes; slot_ownerKey : bytes; slot_ownerKind : Z; slot_isRuntimeConst : Z; slot_hasInitializer : Z;
  slot_type : TypeDesc
}.
Record SymbolImport := MkImport {
  imp_modulePath : bytes; imp_name : bytes; imp_paramCount : Z; imp_ownerClassKey : bytes; imp_isStatic : bool;
  imp_ownerKind : Z; imp_ownerOrdinal : Z
}.
Record CompiledModule := MkCompiledModule {
  mod_modulePath : bytes; mod_name : bytes; mod_stringConstants : list bytes;
  mod_functions : list CompiledFunction; mod_structs : list CompiledStruct; mod_classes : list CompiledClass;
  mod_interfaces : list CompiledInterface; mod_arrayTypes : list CompiledArrayType;
  mod_enumNames : list (list bytes); mod_enumKeys : list bytes; mod_enumMethodIndices : list (list Z);
  mod_enumMethodAccess : list (list Z); mod_staticSlots : list CompiledStaticSlot;
  mod_functionImports : list SymbolImport; mod_classImports : list SymbolImport;
  mod_structImports : list SymbolImport; mod_enumImports : list SymbolImport;
  mod_staticSlotImports : list SymbolImport; mod_entryPoint : Z
}.

(** ** Constants *)
Definition NCU_MAGIC : bytes := [78; 76; 65; 78; 71; 67; 85; 0].
Definition NCU_FORMAT_MAJOR : Z := 2.
Definition NCU_FORMAT_MINOR : Z := 13.
Definition kMaxExprDescBytes : Z := 4096.
Definition kMaxParamDescCount : Z := 256.
Definition FA_Public : Z := 3.
(** No slot, no class, no function. *)
Definition kNone16 : Z := 65535.
(** The member initializers. *)
Definition no_default : DefaultValueDesc := MkDefaultValue RTK_Void 0 0 0 0 0 [].
Definition no_type : TypeDesc := desc RTK_NonSerialized [].

(** The first function of a name. *)
Definition FindFunction (fs : list CompiledFunction) (name : bytes) : Z :=
  match list_find (λ f, func_name f = name) fs with Some (i, _) => Z.of_nat i | None => -1 end.
