(* ===== verification/ModuleSaver.v ===== *)
(** * Module saver

    Models [src/src/vm/ModuleSaver.cpp], [ModuleSaverRecordsClasses.cpp],
    [ModuleSaverRecordsInterfaces.cpp] and [ModuleSaverRecordsEnums.cpp]: the bytes of a
    module image, section by section.  An outcome that is not [Ok] is an exception or an
    access outside a vector; [None] is the refusal [false]. *)
From S2P Require Import Prelude.
From S2P Require Import Bytecode Prims TypeDesc ByteIO ModuleRecords.
Open Scope Z_scope.

Definition WriteLenPrefixedTypeDesc (td : TypeDesc) : outcome bytes :=
  bs ← AppendTypeDescBytes [] td; put_string 2 bs.
Definition WriteDefaultValueDesc (dv : DefaultValueDesc) : outcome bytes :=
  put8 (dv_tag dv) +++ put32 (dv_intValue dv) +++ put32 (dv_floatValue dv) +++ put32 (dv_stringIdx dv)
  +++ put64 (dv_longValue dv) +++ put64 (dv_doubleValue dv) +++ put_string 2 (dv_exprBytes dv).

(** ** Functions *)
Definition WriteTryBlock (tb : TryBlock) : outcome bytes :=
  put16 (tb_startPc tb) +++ put16 (tb_endPc tb) +++ put16 (tb_handlerPc tb)
  +++ put16 (tb_exceptionClassIdx tb) +++ put16 (tb_catchLocalOff tb).
Definition WriteLocal (ld : LocalDescriptor) : outcome bytes :=
  put16 (ld_offset ld) +++ put16 (ld_size ld) +++ put8 (ld_isParam ld) +++ put8 (ld_typeKind ld)
  +++ put16 (ld_declPc ld) +++ put_string 4 (ld_name ld).
Definition WriteParamType (ptd : ParamTypeDesc) : outcome bytes :=
  put8 (ptd_flags ptd) +++ WriteLenPrefixedTypeDesc (ptd_type ptd).
Definition WriteFunction (func : CompiledFunction) : outcome bytes :=
  put_string 4 (func_name func)
  +++ put16 (func_localsSize func) +++ put16 (func_paramCount func)
  +++ put16 (func_returnTypeKind func) +++ put16 (func_intrinsicId func)
  +++ put8 (flag (func_isNative func)) +++ put8 (flag (func_isStatic func))
  +++ put_size 2 (func_defaultValues func) +++ put_all WriteDefaultValueDesc (func_defaultValues func)
  +++ put_string 4 (func_bytecode func)
  +++ put_size 2 (func_tryBlocks func) +++ put_all WriteTryBlock (func_tryBlocks func)
  +++ put_size 2 (func_locals func) +++ put_all WriteLocal (func_locals func)
  +++ put_string 4 (func_sourceFile func)
  +++ put_size 2 (func_paramTypeDescs func) +++ put_all WriteParamType (func_paramTypeDescs func)
  +++ (if decide (func_returnTypeKind func ≠ RTK_Void) then WriteLenPrefixedTypeDesc (func_returnTypeDesc func) else Ok [])
  +++ put_string 4 (func_evalAreaHandleMask func).

(** ** Structs *)
(** An element of a vector that may be shorter than the field count. *)
Definition put_fields_or {A} (n : nat) (f : A → outcome bytes) (default : A) (l : list A) : outcome bytes :=
  put_all (λ i, f (List.nth i l default)) (seq 0 n).
Definition WriteStruct (st : CompiledStruct) : outcome bytes :=
  let n := Z.to_nat (st_fieldCount st) in
  put_string 4 (st_name st) +++ put16 (st_fieldCount st) +++ put8 (flag (st_isConstAggregate st))
  +++ put_first n (put_string 4) (st_fieldNames st)
  +++ put_first n put16 (st_fieldTypeKinds st)
  +++ put_first n put16 (st_fieldStructIndices st)
  +++ put_first n put16 (st_fieldClassIndices st)
  +++ put_fields_or n WriteLenPrefixedTypeDesc no_type (st_fieldTypeDescs st)
  +++ put_size 2 (st_constructorIndices st) +++ put_all put16 (st_constructorIndices st)
  +++ put16 (st_fieldCount st) +++ put_fields_or n WriteDefaultValueDesc no_default (st_fieldDefaults st)
  +++ put_all put8 (st_constructorAccess st).

(** ** Classes *)
Definition WriteStaticField (sf : CompiledStaticField) : outcome bytes :=
  put_string 4 (sf_name sf) +++ WriteLenPrefixedTypeDesc (sf_type sf) +++ put8 (sf_access sf)
  +++ put8 (flag (sf_isConst sf)) +++ put16 (sf_slotIdx sf)
  +++ (if decide (sf_slotIdx sf = kNone16) then WriteDefaultValueDesc (sf_foldedValue sf) else Ok []).
Definition WriteClass (cc : CompiledClass) : outcome bytes :=
  let n := Z.to_nat (cc_fieldCount cc) in
  put_string 4 (cc_name cc) +++ put16 (cc_fieldCount cc) +++ put16 (cc_superClassIdx cc)
  +++ put8 (flag (cc_isConstAggregate cc))
  +++ put_first n (put_string 4) (cc_fieldNames cc)
  +++ put_first n put16 (cc_fieldTypeKinds cc)
  +++ put_first n put16 (cc_fieldStructIndices cc)
  +++ put_first n put16 (cc_fieldClassIndices cc)
  +++ put_fields_or n WriteLenPrefixedTypeDesc no_type (cc_fieldTypeDescs cc)
  +++ put_first n put8 (cc_fieldAccess cc)
  +++ put_size 2 (cc_methodIndices cc) +++ put_all put16 (cc_methodIndices cc)
  +++ put_all put8 (cc_methodAccess cc) +++ put_all put8 (cc_methodVirtual cc)
  +++ put_size 2 (cc_constructorIndices cc) +++ put_all put16 (cc_constructorIndices cc)
  +++ put_all put8 (cc_constructorAccess cc)
  +++ put_size 2 (cc_staticFields cc) +++ put_all WriteStaticField (cc_staticFields cc)
  +++ put16 (cc_staticInitFuncIdx cc).
Definition WriteClassRecords (cs : list CompiledClass) : outcome bytes := put_size 4 cs +++ put_all WriteClass cs.

(** ** Interfaces *)
Definition WriteInterfaceConstant (constant : CompiledInterfaceConstant) : outcome bytes :=
  put_string 2 (constant_name constant) +++ WriteLenPrefixedTypeDesc (constant_type constant)
  +++ WriteDefaultValueDesc (constant_value constant) +++ put16 (constant_slotIdx constant).
Definition WriteInterfaceConstants (ci : CompiledInterface) : outcome bytes :=
  put_size 2 (ci_constants ci) +++ put_all WriteInterfaceConstant (ci_constants ci).
Definition WriteSignature (sig : CompiledInterfaceMethod) : outcome bytes :=
  put_string 2 (sig_name sig)
  +++ put_size 2 (sig_paramTypeDescs sig) +++ put_all WriteParamType (sig_paramTypeDescs sig)
  +++ WriteLenPrefixedTypeDesc (sig_returnType sig)
  +++ put_size 2 (sig_defaultValues sig) +++ put_all WriteDefaultValueDesc (sig_defaultValues sig).
Definition WriteInterfaceSignatures (ci : CompiledInterface) : outcome bytes :=
  put_size 2 (ci_instanceMethods ci) +++ put_all WriteSignature (ci_instanceMethods ci).
Definition WriteInterface (ci : CompiledInterface) : outcome bytes :=
  put_string 2 (ci_name ci)
  +++ put_size 2 (ci_staticMethodIndices ci) +++ put_all put16 (ci_staticMethodIndices ci)
  +++ WriteInterfaceConstants ci +++ WriteInterfaceSignatures ci +++ put16 (ci_staticInitFuncIdx ci).
Definition WriteInterfaceRecords (cis : list CompiledInterface) : outcome bytes :=
  put_size 4 cis +++ put_all WriteInterface cis.

(** ** Enums *)
Definition WriteEnumNames (names : list bytes) : outcome bytes := put_size 4 names +++ put_all (put_string 4) names.
Definition WriteEnumMethods (m : CompiledModule) (ei : nat) : outcome bytes :=
  methods ← deref (mod_enumMethodIndices m !! ei);
  put_size 4 methods
  +++ put_all (λ mi, idx ← deref (methods !! mi);
                     row ← deref (mod_enumMethodAccess m !! ei);
                     access ← deref (row !! mi);
                     put16 idx +++ put8 access) (seq 0 (length methods)).
Definition WriteEnumRecords (m : CompiledModule) : outcome bytes :=
  put_size 4 (mod_enumNames m) +++ put_all WriteEnumNames (mod_enumNames m)
  +++ put_all (put_string 2) (mod_enumKeys m)
  +++ put_all (WriteEnumMethods m) (seq 0 (length (mod_enumNames m))).

(** ** The module *)
Definition WriteArrayType (at_ : CompiledArrayType) : outcome bytes :=
  put8 (at_elemKind at_) +++ put16 (at_elemTypeIdx at_) +++ put8 (at_rank at_).
Definition WriteStaticSlot (slot : CompiledStaticSlot) : outcome bytes :=
  put_string 4 (slot_name slot) +++ put_string 4 (slot_ownerKey slot) +++ put8 (slot_ownerKind slot)
  +++ put8 (slot_isRuntimeConst slot) +++ put8 (slot_hasInitializer slot) +++ WriteLenPrefixedTypeDesc (slot_type slot).
Definition WriteImport (withOwnerKey : bool) (imp : SymbolImport) : outcome bytes :=
  put_string 2 (imp_modulePath imp) +++ put_string 2 (imp_name imp) +++ put32 (imp_paramCount imp)
  +++ (if withOwnerKey then put_string 2 (imp_ownerClassKey imp) +++ put8 (flag (imp_isStatic imp))
                            +++ put8 (imp_ownerKind imp) +++ put16 (imp_ownerOrdinal imp)
       else Ok []).
Definition writeImports (imports : list SymbolImport) (withOwnerKey : bool) : outcome bytes :=
  put_size 4 imports +++ put_all (WriteImport withOwnerKey) imports.

Definition WriteModule (m : CompiledModule) (entryKey : bytes) : outcome bytes :=
  Ok NCU_MAGIC +++ put16 NCU_FORMAT_MAJOR +++ put16 NCU_FORMAT_MINOR
  +++ put_string 2 (mod_modulePath m) +++ put_string 4 (mod_name m) +++ put_string 2 entryKey
  +++ put_size 4 (mod_stringConstants m) +++ put_all (put_string 4) (mod_stringConstants m)
  +++ put_size 4 (mod_functions m) +++ put_all WriteFunction (mod_functions m)
  +++ put_size 4 (mod_structs m) +++ put_all WriteStruct (mod_structs m)
  +++ WriteClassRecords (mod_classes m)
  +++ WriteInterfaceRecords (mod_interfaces m)
  +++ put_size 4 (mod_arrayTypes m) +++ put_all WriteArrayType (mod_arrayTypes m)
  +++ WriteEnumRecords m
  +++ put_size 4 (mod_staticSlots m) +++ put_all WriteStaticSlot (mod_staticSlots m)
  +++ writeImports (mod_functionImports m) true
  +++ writeImports (mod_classImports m) false
  +++ writeImports (mod_structImports m) false
  +++ writeImports (mod_enumImports m) false
  +++ writeImports (mod_staticSlotImports m) true.
(** The four enum tables must be parallel. *)
Definition WriteCompiledModule (m : CompiledModule) (entryKey : bytes) : outcome (option bytes) :=
  let n := length (mod_enumNames m) in
  if decide (length (mod_enumKeys m) ≠ n ∨ length (mod_enumMethodIndices m) ≠ n
             ∨ length (mod_enumMethodAccess m) ≠ n)
  then Ok None
  else Some <$> WriteModule m entryKey.
