(* ===== verification/Shards.v ===== *)
(** * Per-carrier free lists

    Models [src/src/vm/ShardFreeList.h]: one stack of free indices per carrier
    (plus one for host threads).  The head of a list is the back of the C++
    vector.  [free s] is the multiset of all free indices; the string store and
    the heap state their "each index free at most once" invariants over it. *)
From S2P Require Import Prelude.
Open Scope Z_scope.

Definition DEFAULT_SHARD_BLOCK : Z := 1024.
Abbreviation stacks := (list (list Z)).

Definition Configure (shardCount : nat) : stacks := replicate shardCount [].
Definition ShardCount (m : stacks) : nat := length m.
Definition Empty (m : stacks) (shard : nat) : outcome bool :=
  s ← deref (m !! shard); Ok (bool_decide (s = [])).
Definition Pop (m : stacks) (shard : nat) : outcome (Z * stacks) :=
  s ← deref (m !! shard);
  match s with
  | [] => Raise OutOfBounds
  | v :: s => Ok (v, <[shard := s]> m)
  end.
Definition Push (m : stacks) (shard : nat) (v : Z) : outcome stacks :=
  s ← deref (m !! shard); Ok (<[shard := v :: s]> m).
(** [for (k = count; k > 0; --k) push_back(base + k - 1)] *)
Fixpoint push_descending (s : list Z) (base : Z) (k : nat) : list Z :=
  match k with
  | O => s
  | S k' => push_descending (base + Z.of_nat k - 1 :: s) base k'
  end.
Definition PushBlockDescending (m : stacks) (shard : nat) (base : Z) (count : nat)
    : outcome stacks :=
  s ← deref (m !! shard); Ok (<[shard := push_descending s base count]> m).
Definition ClearAll (m : stacks) : stacks := (λ _, []) <$> m.
Definition SweepShardOf (m : stacks) (idx : Z) : nat :=
  Z.to_nat ((idx / DEFAULT_SHARD_BLOCK) mod Z.of_nat (length m)).

(** ** The free indices *)
Definition free (m : stacks) : list Z := mjoin m.

Lemma free_insert m shard s s' :
  m !! shard = Some s → ∃ rest, free m ≡ₚ s ++ rest ∧ free (<[shard := s']> m) ≡ₚ s' ++ rest.
Proof.
  intros H. exists (free (take shard m) ++ free (drop (S shard) m)). unfold free. split.
  - rewrite <- (take_drop_middle m shard s H) at 1. rewrite join_app. simpl.
    rewrite !app_assoc. apply Permutation_app_tail. apply Permutation_app_comm.
  - rewrite (insert_take_drop m shard s') by (by eapply lookup_lt_Some).
    rewrite join_app. simpl. rewrite !app_assoc. apply Permutation_app_tail. apply Permutation_app_comm.
Qed.

Lemma push_descending_spec s base k :
  push_descending s base k = seqZ base (Z.of_nat k) ++ s.
Proof.
  revert s. induction k as [|k IH]; intros s; [done|].
  cbn [push_descending]. rewrite IH.
  replace (Z.of_nat (S k)) with (Z.of_nat k + 1) by lia.
  rewrite seqZ_app by lia. rewrite <- app_assoc. do 2 f_equal.
  rewrite seqZ_cons by lia. rewrite seqZ_nil by lia. simpl. f_equal. lia.
Qed.

Lemma Pop_spec m shard v m' :
  Pop m shard = Ok (v, m') → free m ≡ₚ v :: free m' ∧ length m' = length m.
Proof.
  unfold Pop. destruct (m !! shard) as [[|x s]|] eqn:Hm; simpl; [done| |done].
  intros [= -> <-].
  destruct (free_insert m shard _ s Hm) as (rest & -> & ->). by rewrite length_insert.
Qed.

Lemma Push_spec m shard v :
  (shard < length m)%nat →
  ∃ m', Push m shard v = Ok m' ∧ free m' ≡ₚ v :: free m ∧ length m' = length m.
Proof.
  intros [s Hs]%lookup_lt_is_Some. unfold Push. rewrite Hs, derefE, bindE.
  eexists. split; [done|]. destruct (free_insert m shard s (v :: s) Hs) as (rest & -> & ->).
  by rewrite length_insert.
Qed.

Lemma PushBlockDescending_spec m shard base count :
  (shard < length m)%nat →
  ∃ m', PushBlockDescending m shard base count = Ok m'
    ∧ free m' ≡ₚ seqZ base (Z.of_nat count) ++ free m ∧ length m' = length m
    ∧ ∃ s, m !! shard = Some s ∧ m' !! shard = Some (seqZ base (Z.of_nat count) ++ s).
Proof.
  intros [s Hs]%lookup_lt_is_Some. unfold PushBlockDescending. rewrite Hs, derefE, bindE.
  eexists. split; [done|]. rewrite push_descending_spec.
  destruct (free_insert m shard s (seqZ base (Z.of_nat count) ++ s) Hs) as (rest & -> & ->).
  rewrite length_insert, <- app_assoc. split_and!; [done..|]. exists s.
  split; [done|]. rewrite list_lookup_insert_eq; [done|]. by eapply lookup_lt_Some.
Qed.

Lemma free_ClearAll m : free (ClearAll m) = [] ∧ length (ClearAll m) = length m.
Proof.
  unfold ClearAll. rewrite length_fmap. split; [|done].
  induction m as [|s m IH]; [done|]. exact IH.
Qed.

Lemma SweepShardOf_lt m idx : (0 < length m)%nat → (SweepShardOf m idx < length m)%nat.
Proof.
  intros H. unfold SweepShardOf.
  pose proof (Z.mod_pos_bound (idx / DEFAULT_SHARD_BLOCK) (Z.of_nat (length m))). lia.
Qed.

(** A pop from a shard that just received a block yields its first index: fresh
    allocations come in ascending order. *)
Lemma pop_after_block m shard base count :
  (shard < length m)%nat → (0 < count)%nat → m !! shard = Some [] →
  ∃ m' m'', PushBlockDescending m shard base count = Ok m' ∧ Pop m' shard = Ok (base, m'').
Proof.
  intros H Hc Hs. destruct (PushBlockDescending_spec m shard base count H) as (m' & E & _ & _ & s & Hs' & Hm').
  rewrite Hs in Hs'. injection Hs' as <-. exists m'.
  unfold Pop. rewrite Hm', derefE, bindE. rewrite app_nil_r, seqZ_cons by lia. eexists. by split.
Qed.
