(* ===== verification/Strings.v ===== *)
(** * String object store

    Models [src/src/vm/VmExecutorStrings.cpp] and [InitStringStore]
    ([VmExecutor.cpp]); mark and sweep are in [StringsGC], the opcodes in
    [StringOps].  A
    handle is a 1-based index into [m_stringObjs]; 0 and every handle that is out
    of range or dead reads as the empty string.  The shard argument is the calling
    carrier ([CurrentShard()]).  The domain locks make each operation atomic, so
    operations are sequential here; handles are assumed to stay below 2^31.
    [heap_over] is the struct heap's half of the GC pressure test. *)
From S2P Require Import Prelude Bytecode Shards.
Open Scope Z_scope.

Definition kShortStringMaxBytes : nat := 40.

(** [Dead] is the [kStrFormDead] value stored in the form byte. *)
Inductive Form := Flat | Cons | Dead.
#[export] Instance Form_eq_dec : EqDecision Form.
Proof. solve_decision. Defined.

Record StrObj := MkStrObj {
  form : Form; immortal : bool; interned : bool; str : bytes; left : Z; right : Z
}.
#[export] Instance StrObj_eq_dec : EqDecision StrObj.
Proof. solve_decision. Defined.
Definition StrObj0 : StrObj := MkStrObj Flat false false [] 0 0.
Definition DeadObj : StrObj := MkStrObj Dead false false [] 0 0.

Record StringStore := Store {
  m_stringObjs : list StrObj;
  m_strMarkBits : list bool;
  m_strShards : stacks;
  m_shortStrTable : gmap bytes Z;
  m_constStrCache : list Z;
  m_emptyStrHandle : Z;
  m_allocQuantum : nat;
  m_strGcThreshold : nat;
  heap_over : bool;
  m_gcPressure : bool
}.
Definition with_objs (st : StringStore) (x : list StrObj) : StringStore :=
  Store x (m_strMarkBits st) (m_strShards st) (m_shortStrTable st) (m_constStrCache st)
    (m_emptyStrHandle st) (m_allocQuantum st) (m_strGcThreshold st) (heap_over st) (m_gcPressure st).
Definition with_marks (st : StringStore) (x : list bool) : StringStore :=
  Store (m_stringObjs st) x (m_strShards st) (m_shortStrTable st) (m_constStrCache st)
    (m_emptyStrHandle st) (m_allocQuantum st) (m_strGcThreshold st) (heap_over st) (m_gcPressure st).
Definition with_shards (st : StringStore) (x : stacks) : StringStore :=
  Store (m_stringObjs st) (m_strMarkBits st) x (m_shortStrTable st) (m_constStrCache st)
    (m_emptyStrHandle st) (m_allocQuantum st) (m_strGcThreshold st) (heap_over st) (m_gcPressure st).
Definition with_table (st : StringStore) (x : gmap bytes Z) : StringStore :=
  Store (m_stringObjs st) (m_strMarkBits st) (m_strShards st) x (m_constStrCache st)
    (m_emptyStrHandle st) (m_allocQuantum st) (m_strGcThreshold st) (heap_over st) (m_gcPressure st).
Definition with_consts (st : StringStore) (x : list Z) : StringStore :=
  Store (m_stringObjs st) (m_strMarkBits st) (m_strShards st) (m_shortStrTable st) x
    (m_emptyStrHandle st) (m_allocQuantum st) (m_strGcThreshold st) (heap_over st) (m_gcPressure st).
Definition with_empty (st : StringStore) (x : Z) : StringStore :=
  Store (m_stringObjs st) (m_strMarkBits st) (m_strShards st) (m_shortStrTable st) (m_constStrCache st)
    x (m_allocQuantum st) (m_strGcThreshold st) (heap_over st) (m_gcPressure st).
Definition with_threshold (st : StringStore) (x : nat) : StringStore :=
  Store (m_stringObjs st) (m_strMarkBits st) (m_strShards st) (m_shortStrTable st) (m_constStrCache st)
    (m_emptyStrHandle st) (m_allocQuantum st) x (heap_over st) (m_gcPressure st).
Definition with_pressure (st : StringStore) (x : bool) : StringStore :=
  Store (m_stringObjs st) (m_strMarkBits st) (m_strShards st) (m_shortStrTable st) (m_constStrCache st)
    (m_emptyStrHandle st) (m_allocQuantum st) (m_strGcThreshold st) (heap_over st) x.

(** ** Slots *)
(** [m_stringObjs[static_cast<size_t>(h)]] for a handle; index 0 is the sentinel. *)
Definition obj_at (st : StringStore) (h : Z) : option StrObj := m_stringObjs st !!z h.
Definition set_obj (st : StringStore) (h : Z) (o : StrObj) : StringStore :=
  with_objs st (<[Z.to_nat h := o]> (m_stringObjs st)).
Definition NoteGcPressure (st : StringStore) : StringStore :=
  with_pressure st (heap_over st || bool_decide (m_strGcThreshold st < length (m_stringObjs st))%nat).

Definition GrowStrShardBlockLocked (st : StringStore) (shard : nat) : outcome StringStore :=
  let base := Z.of_nat (length (m_stringObjs st)) in
  let q := m_allocQuantum st in
  sh ← PushBlockDescending (m_strShards st) shard base q;
  Ok (with_shards (with_marks (with_objs st (m_stringObjs st ++ replicate q StrObj0))
                     (m_strMarkBits st ++ replicate q false)) sh).

Definition TakeStringSlot (st : StringStore) (shard : nat) : outcome (Z * StringStore) :=
  e ← Empty (m_strShards st) shard;
  st ← (if (e : bool) then GrowStrShardBlockLocked st shard else Ok st);
  '(h, sh) ← Pop (m_strShards st) shard;
  Ok (h, with_shards st sh).

Definition AllocStringObj (st : StringStore) (shard : nat) : outcome (Z * StringStore) :=
  '(h, st) ← TakeStringSlot st shard;
  Ok (h, NoteGcPressure (set_obj st h StrObj0)).

Definition IsLiveStringHandle (st : StringStore) (h : Z) : bool :=
  bool_decide (0 < h) &&
  match obj_at st h with Some o => negb (bool_decide (form o = Dead)) | None => false end.

Definition MintNewString (st : StringStore) (shard : nat) (content : bytes) : outcome (Z * StringStore) :=
  if decide (kShortStringMaxBytes < length content)%nat then
    '(h, st) ← AllocStringObj st shard;
    Ok (h, set_obj st h (MkStrObj Flat false false content 0 0))
  else
    let mint :=
      '(h, st) ← AllocStringObj st shard;
      Ok (h, with_table (set_obj st h (MkStrObj Flat false true content 0 0))
                        (<[content := h]> (m_shortStrTable st))) in
    match m_shortStrTable st !! content with
    | Some h => if IsLiveStringHandle st h then Ok (h, st) else mint
    | None => mint
    end.

Definition MintConstantString (st : StringStore) (shard : nat) (content : bytes) : outcome (Z * StringStore) :=
  '(h, st) ← MintNewString st shard content;
  o ← deref (obj_at st h);
  Ok (h, set_obj st h (MkStrObj (form o) true (interned o) (str o) (left o) (right o))).

Definition IsInternedString (st : StringStore) (h : Z) : bool :=
  IsLiveStringHandle st h && match obj_at st h with Some o => interned o | None => false end.

Definition AllocConsString (st : StringStore) (shard : nat) (l r : Z) : outcome (Z * StringStore) :=
  '(h, st) ← AllocStringObj st shard;
  Ok (h, set_obj st h (MkStrObj Cons false false [] l r)).

(** ** Reading *)
(** The work stack of [FlattenInto]; its head is the back of the vector. *)
Fixpoint FlattenInto_loop (fuel : nat) (st : StringStore) (out : bytes) (work : list Z) : outcome bytes :=
  match work with
  | [] => Ok out
  | h :: work =>
      match fuel with
      | O => Raise OutOfFuel
      | S fuel =>
          if negb (IsLiveStringHandle st h) then FlattenInto_loop fuel st out work
          else match obj_at st h with
               | Some o =>
                   if decide (form o = Cons)
                   then FlattenInto_loop fuel st out (left o :: right o :: work)
                   else FlattenInto_loop fuel st (out ++ str o) work
               | None => Raise OutOfBounds
               end
      end
  end.
Definition FlattenInto (fuel : nat) (st : StringStore) (out : bytes) (h : Z) : outcome bytes :=
  FlattenInto_loop fuel st out [h].

(** The content, and the store with the node rewritten in place. *)
Definition StrVal (fuel : nat) (st : StringStore) (h : Z) : outcome (bytes * StringStore) :=
  if negb (IsLiveStringHandle st h) then
    o ← deref (obj_at st (m_emptyStrHandle st)); Ok (str o, st)
  else
    o ← deref (obj_at st h);
    if decide (form o = Cons) then
      flat ← FlattenInto fuel st [] h;
      Ok (flat, set_obj st h (MkStrObj Flat (immortal o) (interned o) flat 0 0))
    else Ok (str o, st).

Definition StrValCopy (fuel : nat) (st : StringStore) (h : Z) : outcome bytes :=
  if negb (IsLiveStringHandle st h) then Ok []
  else
    o ← deref (obj_at st h);
    if decide (form o = Cons) then FlattenInto fuel st [] h else Ok (str o).

Definition StringsEqual (fuel : nat) (st : StringStore) (hA hB : Z) : outcome (bool * StringStore) :=
  if IsInternedString st hA && IsInternedString st hB then Ok (bool_decide (hA = hB), st)
  else
    '(a, st) ← StrVal fuel st hA;
    '(b, st) ← StrVal fuel st hB;
    Ok (bool_decide (a = b), st).

(** ** Initialization *)
Fixpoint mint_constants (st : StringStore) (shard : nat) (ss : list bytes) : outcome StringStore :=
  match ss with
  | [] => Ok st
  | s :: ss =>
      '(h, st) ← MintConstantString st shard s;
      mint_constants (with_consts st (m_constStrCache st ++ [h])) shard ss
  end.
Definition InitStringStore (carriers quantum threshold : nat) (over : bool) (shard : nat)
    (constants : list bytes) : outcome StringStore :=
  let st := Store [DeadObj] [false] (Configure (carriers + 1)) ∅ [] 0 quantum threshold over false in
  st ← mint_constants st shard constants;
  '(h, st) ← MintConstantString st shard [];
  Ok (with_empty st h).

(** ** Reading as a relation

    [reads st h bs n]: the handle reads as [bs], visiting [n] nodes. *)
Inductive reads (st : StringStore) : Z → bytes → nat → Prop :=
  | reads_none h : IsLiveStringHandle st h = false → reads st h [] 1
  | reads_flat h o : IsLiveStringHandle st h = true → obj_at st h = Some o → form o ≠ Cons →
      reads st h (str o) 1
  | reads_cons h o a b n m : IsLiveStringHandle st h = true → obj_at st h = Some o →
      form o = Cons → reads st (left o) a n → reads st (right o) b m →
      reads st h (a ++ b) (S (n + m)).

Lemma reads_det st h a n : reads st h a n → ∀ b m, reads st h b m → a = b ∧ n = m.
Proof.
  induction 1 as [h Hl|h o Hl Ho Hf|h o a1 b1 n1 m1 Hl Ho Hf _ IH1 _ IH2];
    intros b m Hr; inversion Hr; simplify_eq; try done; try congruence.
  match goal with H1 : reads _ (left _) _ _, H2 : reads _ (right _) _ _ |- _ =>
    destruct (IH1 _ _ H1), (IH2 _ _ H2) end. by subst.
Qed.

(** The walk visits exactly the nodes of the reading, in order. *)
Lemma FlattenInto_reads st h bs n :
  reads st h bs n → ∀ fuel out work,
  FlattenInto_loop (n + fuel) st out (h :: work) = FlattenInto_loop fuel st (out ++ bs) work.
Proof.
  induction 1 as [h Hl|h o Hl Ho Hf|h o a b n m Hl Ho Hf _ IH1 _ IH2]; intros fuel out work.
  - simpl. rewrite Hl. simpl. by rewrite app_nil_r.
  - simpl. rewrite Hl, Ho, decide_False by done. done.
  - simpl. rewrite Hl, Ho, decide_True by done. simpl.
    rewrite <- Nat.add_assoc, IH1, IH2. by rewrite app_assoc.
Qed.

Lemma FlattenInto_enough st h bs n fuel out :
  reads st h bs n → (n ≤ fuel)%nat → FlattenInto fuel st out h = Ok (out ++ bs).
Proof.
  intros H Hf. unfold FlattenInto. replace fuel with (n + (fuel - n))%nat by lia.
  rewrite (FlattenInto_reads _ _ _ _ H). by destruct (fuel - n)%nat.
Qed.

(** ** The store invariant *)
Definition child_ok (P : Z → Prop) (c : Z) : Prop := c ≤ 0 ∨ P c.
Definition live (st : StringStore) (h : Z) (o : StrObj) : Prop :=
  0 < h ∧ obj_at st h = Some o ∧ form o ≠ Dead.
(** Handed out and not reclaimed: live and not on a free list. *)
Definition in_use (st : StringStore) (h : Z) : Prop :=
  (∃ o, live st h o) ∧ h ∉ free (m_strShards st).

Record store_ok (st : StringStore) : Prop := {
  ok_marks : length (m_strMarkBits st) = length (m_stringObjs st);
  ok_quantum : (0 < m_allocQuantum st)%nat;
  ok_shards : (0 < length (m_strShards st))%nat;
  ok_zero : obj_at st 0 = Some DeadObj;
  ok_nodup : NoDup (free (m_strShards st));
  ok_free : ∀ h, h ∈ free (m_strShards st) →
    0 < h ∧ (obj_at st h = Some DeadObj ∨ obj_at st h = Some StrObj0);
  ok_dead : ∀ h o, obj_at st h = Some o → form o = Dead → h = 0 ∨ h ∈ free (m_strShards st);
  ok_immortal : ∀ h o, live st h o → immortal o = true → form o = Flat;
  ok_interned : ∀ h o, live st h o → interned o = true →
    form o = Flat ∧ m_shortStrTable st !! str o = Some h;
  ok_table : ∀ s h, m_shortStrTable st !! s = Some h →
    in_use st h ∧ ∃ o, obj_at st h = Some o ∧ form o = Flat ∧ interned o = true ∧ str o = s;
  ok_children : ∀ h o, in_use st h → obj_at st h = Some o → form o = Cons →
    child_ok (in_use st) (left o) ∧ child_ok (in_use st) (right o);
  ok_reads : ∀ h, in_use st h → ∃ bs n, reads st h bs n
}.

Lemma IsLive_live st h : IsLiveStringHandle st h = true ↔ ∃ o, live st h o.
Proof.
  unfold IsLiveStringHandle, live. rewrite andb_true_iff, bool_decide_eq_true. split.
  - intros [Hh H]. destruct (obj_at st h) as [o|]; [|done].
    rewrite negb_true_iff, bool_decide_eq_false in H. eauto.
  - intros (o & Hh & -> & Hd). split; [done|]. by rewrite negb_true_iff, bool_decide_eq_false.
Qed.

Lemma IsLive_nonpos st h : h ≤ 0 → IsLiveStringHandle st h = false.
Proof. intros H. unfold IsLiveStringHandle. by rewrite bool_decide_false by lia. Qed.

Lemma IsLive_obj st st' h :
  obj_at st' h = obj_at st h → IsLiveStringHandle st' h = IsLiveStringHandle st h.
Proof. unfold IsLiveStringHandle. by intros ->. Qed.

(** Reading only depends on the objects it visits. *)
Lemma reads_frame st st' (P : Z → Prop) :
  (∀ h, P h → obj_at st' h = obj_at st h) →
  (∀ h o, P h → live st h o → form o = Cons → child_ok P (left o) ∧ child_ok P (right o)) →
  ∀ h bs n, reads st h bs n → child_ok P h → reads st' h bs n.
Proof.
  intros Hobj Hcl h bs n H.
  induction H as [h Hl|h o Hl Ho Hf|h o a b n m Hl Ho Hf H1 IH1 H2 IH2]; intros [Hn|HP];
    try (by rewrite IsLive_nonpos in Hl); try (by apply reads_none, IsLive_nonpos).
  - apply reads_none. by rewrite (IsLive_obj st) by auto.
  - eapply reads_flat; [by rewrite (IsLive_obj st) by auto|by rewrite Hobj|done].
  - pose proof Hl as (o' & Hlv)%IsLive_live. pose proof Hlv as (_ & Ho' & _).
    assert (o' = o) as -> by congruence.
    destruct (Hcl h o HP Hlv Hf) as [Cl Cr].
    eapply reads_cons; [by rewrite (IsLive_obj st) by auto|by rewrite Hobj|done|auto|auto].
Qed.

(** ** Slot updates *)
Lemma zlookup_insert_eq {A} (l : list A) h x :
  0 ≤ h < Z.of_nat (length l) → <[Z.to_nat h := x]> l !!z h = Some x.
Proof.
  intros H. unfold zlookup. rewrite decide_True by lia. apply list_lookup_insert_eq. lia.
Qed.
Lemma zlookup_insert_ne {A} (l : list A) h x y :
  0 ≤ h → y ≠ h → <[Z.to_nat h := x]> l !!z y = l !!z y.
Proof.
  intros H Hn. unfold zlookup. case_decide; [|done]. apply list_lookup_insert_ne. lia.
Qed.
Lemma zlookup_app_l {A} (l l' : list A) h x : l !!z h = Some x → (l ++ l') !!z h = Some x.
Proof. unfold zlookup. case_decide; [|done]. apply lookup_app_l_Some. Qed.
Lemma zlookup_app_Some {A} (l l' : list A) h x :
  (l ++ l') !!z h = Some x → l !!z h = Some x ∨ Z.of_nat (length l) ≤ h ∧ x ∈ l'.
Proof.
  unfold zlookup. case_decide; [|done]. intros [?|[? ?]]%lookup_app_Some; [by left|].
  right. split; [lia|]. by eapply list_elem_of_lookup_2.
Qed.

Lemma obj_at_set_eq st h o :
  is_Some (obj_at st h) → obj_at (set_obj st h o) h = Some o.
Proof.
  intros [o' H]. apply zlookup_insert_eq.
  by eapply zlookup_Some_lt.
Qed.
Lemma obj_at_set_ne st h x o : 0 ≤ h → x ≠ h → obj_at (set_obj st h o) x = obj_at st x.
Proof. intros. by apply zlookup_insert_ne. Qed.

Lemma in_use_pos st h : in_use st h → 0 < h.
Proof. intros [(o & H & _) _]. done. Qed.
Lemma in_use_live st h : in_use st h → ∃ o, live st h o.
Proof. by intros [H _]. Qed.

(** A later store that still has every object of [st] in use. *)
Definition extends (st st' : StringStore) : Prop :=
  ∀ h, in_use st h → in_use st' h ∧ obj_at st' h = obj_at st h.

Lemma extends_refl st : extends st st.
Proof. by intros h H. Qed.
Lemma extends_trans st1 st2 st3 : extends st1 st2 → extends st2 st3 → extends st1 st3.
Proof. intros H1 H2 h Hh. destruct (H1 h Hh) as [H3 E1], (H2 h H3) as [H4 E2]. by rewrite E2. Qed.

Lemma extends_reads st st' h bs n :
  store_ok st → extends st st' → child_ok (in_use st) h → reads st h bs n → reads st' h bs n.
Proof.
  intros Hok Hext Hh Hr. eapply (reads_frame st st' (in_use st)); [| |exact Hr|exact Hh].
  - intros x Hx. by apply Hext.
  - intros x o Hx (_ & Ho & _) Hf. by apply (ok_children st Hok x o).
Qed.

Lemma extends_child st st' c : extends st st' → child_ok (in_use st) c → child_ok (in_use st') c.
Proof. intros He [H|H]; [by left|right]. by apply He. Qed.

(** ** Growth *)
Lemma Grow_spec st shard :
  store_ok st → (shard < length (m_strShards st))%nat →
  ∃ st', GrowStrShardBlockLocked st shard = Ok st' ∧ store_ok st' ∧ extends st st'
    ∧ (∀ h, in_use st' h → in_use st h)
    ∧ m_shortStrTable st' = m_shortStrTable st
    ∧ length (m_strShards st') = length (m_strShards st)
    ∧ ∃ h s, m_strShards st' !! shard = Some (h :: s).
Proof.
  intros Hok Hsh. unfold GrowStrShardBlockLocked.
  set (base := Z.of_nat (length (m_stringObjs st))). set (q := m_allocQuantum st).
  destruct (PushBlockDescending_spec (m_strShards st) shard base q Hsh)
    as (sh & -> & Hfree & Hlen & s & Hs & Hs'). rewrite bindE.
  assert (0 < q)%nat as Hq by apply Hok.
  set (st' := with_shards _ sh).
  assert (∀ h o, obj_at st h = Some o → obj_at st' h = Some o) as Hold.
  { intros h o Ho. by apply zlookup_app_l. }
  assert (∀ h o, obj_at st' h = Some o → obj_at st h = Some o ∨ base ≤ h ∧ o = StrObj0) as Hnew.
  { intros h o Ho. apply zlookup_app_Some in Ho as [Ho|[Hb Ho]]; [by left|right].
    split; [done|]. by apply elem_of_replicate_inv in Ho. }
  assert (free (m_strShards st') ≡ₚ seqZ base (Z.of_nat q) ++ free (m_strShards st)) as Hfree'
    by exact Hfree.
  assert (∀ h, h ∈ free (m_strShards st') ↔ base ≤ h < base + Z.of_nat q ∨ h ∈ free (m_strShards st))
    as Hin by (intros h; rewrite Hfree', elem_of_app, elem_of_seqZ; done).
  assert (∀ h o, obj_at st h = Some o → h < base) as Hlt
    by (intros h o Ho; apply zlookup_Some_lt in Ho; unfold base; lia).
  assert (∀ h, base ≤ h < base + Z.of_nat q → obj_at st' h = Some StrObj0) as Hblock.
  { intros h Hh. destruct (obj_at st' h) as [o|] eqn:E.
    - destruct (Hnew h o E) as [Ho|[_ ->]]; [apply Hlt in Ho; lia|done].
    - exfalso. destruct (zlookup_is_Some (m_stringObjs st ++ replicate q StrObj0) h) as [? E'].
      { rewrite length_app, length_replicate. lia. }
      unfold obj_at in E. simpl in E. congruence. }
  assert (∀ h, in_use st h ↔ in_use st' h) as Huse.
  { intros h. unfold in_use. split; intros [(o & Hp & Ho & Hd) Hf].
    - split; [exists o; split_and!; auto|]. rewrite Hin. intros [?|?]; [|done].
      apply Hlt in Ho. lia.
    - split; [|by rewrite Hin in Hf; naive_solver]. destruct (Hnew h o Ho) as [Ho'|[Hb ->]].
      + by exists o.
      + destruct Hf. apply Hin. left. split; [done|].
        apply zlookup_Some_lt in Ho. simpl in Ho.
        rewrite length_app, length_replicate in Ho. lia. }
  assert (extends st st') as Hext.
  { intros h Hh. split; [by apply Huse|]. destruct Hh as [(o & _ & Ho & _) _].
    by rewrite Ho, (Hold h o). }
  assert (m_shortStrTable st' = m_shortStrTable st) as Htab by done.
  exists st'. split_and!; [done| |done|by intros h ?%Huse|done|done|].
  2:{ exists base. eexists. simpl. rewrite Hs', seqZ_cons by lia. done. }
  assert (∀ h o, live st' h o → live st h o ∨ o = StrObj0) as Hlive.
  { intros h o (Hp & Ho & Hd). destruct (Hnew h o Ho) as [?|[_ ?]]; [left|by right]. done. }
  split.
  - simpl. rewrite !length_app, !length_replicate. by rewrite (ok_marks _ Hok).
  - apply Hok.
  - simpl. rewrite Hlen. apply Hok.
  - apply Hold, Hok.
  - rewrite Hfree'. apply list.NoDup_app. split_and!; [apply NoDup_seqZ| |apply Hok].
    intros h Hh%elem_of_seqZ Hf. apply (ok_free st Hok) in Hf as (_ & [Ho|Ho]); apply Hlt in Ho; lia.
  - intros h [Hb|Hf]%Hin.
    + split; [unfold base in *; pose proof (zlookup_Some_lt _ _ _ (ok_zero st Hok)); lia|right].
      by apply Hblock.
    + apply (ok_free st Hok) in Hf as (Hp & [Ho|Ho]); (split; [done|]); [left|right]; by apply Hold.
  - intros h o Ho Hd. destruct (Hnew h o Ho) as [Ho'|[_ ->]]; [|done].
    destruct (ok_dead st Hok h o Ho' Hd); [by left|right]. apply Hin. by right.
  - intros h o [Hl| ->]%Hlive Hi; [by apply (ok_immortal st Hok h)|done].
  - intros h o [Hl| ->]%Hlive Hi; [|done]. rewrite Htab. by apply (ok_interned st Hok h).
  - intros x h Hx. rewrite Htab in Hx. destruct (ok_table st Hok x h Hx) as (Hu & o & Ho & ?).
    split; [by apply Huse|]. exists o. split; [by apply Hold|done].
  - intros h o Hu Ho Hf. apply Huse in Hu. destruct (Hext h Hu) as [_ E]. rewrite E in Ho.
    destruct (ok_children st Hok h o Hu Ho Hf). split; by eapply extends_child.
  - intros h Hu. apply Huse in Hu. destruct (ok_reads st Hok h Hu) as (bs & n & Hr).
    exists bs, n. eapply extends_reads; [done..|by right|done].
Qed.

(** ** Allocation *)
(** [h] was just handed out in [st1], as a fresh flat empty object. *)
Record fresh_alloc (st : StringStore) (h : Z) (st1 : StringStore) : Prop := {
  fa_ok : store_ok st1;
  fa_new : ¬ in_use st h;
  fa_use : in_use st1 h;
  fa_obj : obj_at st1 h = Some StrObj0;
  fa_ext : extends st st1;
  fa_only : ∀ x, in_use st1 x → x = h ∨ in_use st x;
  fa_table : m_shortStrTable st1 = m_shortStrTable st;
  fa_shards : length (m_strShards st1) = length (m_strShards st)
}.

Lemma pop_alloc st h sh shard :
  store_ok st → Pop (m_strShards st) shard = Ok (h, sh) →
  fresh_alloc st h (NoteGcPressure (set_obj (with_shards st sh) h StrObj0)).
Proof.
  intros Hok Hp. apply Pop_spec in Hp as [Hperm Hlen].
  set (st1 := NoteGcPressure _).
  assert (h ∈ free (m_strShards st)) as Hfree by (rewrite Hperm; left).
  destruct (ok_free st Hok h Hfree) as [Hpos Hobj].
  assert (is_Some (obj_at st h)) as Hsome by (destruct Hobj as [-> | ->]; by eexists).
  pose proof (ok_nodup st Hok) as Hnd. rewrite Hperm in Hnd. apply list.NoDup_cons in Hnd as [Hni Hnd].
  assert (∀ x, x ∈ free (m_strShards st1) ↔ x ≠ h ∧ x ∈ free (m_strShards st)) as Hin.
  { intros x. simpl. rewrite Hperm, elem_of_cons. naive_solver. }
  assert (obj_at st1 h = Some StrObj0) as Hh by exact (obj_at_set_eq (with_shards st sh) h StrObj0 Hsome).
  assert (∀ x, x ≠ h → obj_at st1 x = obj_at st x) as Hne
    by (intros x Hx; exact (obj_at_set_ne (with_shards st sh) h x StrObj0 ltac:(lia) Hx)).
  assert (¬ in_use st h) as Hnew by (intros [_ H]; done).
  assert (extends st st1) as Hext.
  { intros x Hx. assert (x ≠ h) as Hxh by (intros ->; done).
    split; [|by apply Hne]. destruct Hx as [(o & Hp & Ho & Hd) Hf]. split.
    - exists o. split_and!; [done| |done]. by rewrite Hne.
    - rewrite Hin. naive_solver. }
  assert (in_use st1 h) as Huse.
  { split; [by exists StrObj0; split_and!|]. rewrite Hin. naive_solver. }
  assert (∀ x, in_use st1 x → x = h ∨ in_use st x) as Honly.
  { intros x [(o & Hp & Ho & Hd) Hf]. destruct (decide (x = h)) as [->|Hx]; [by left|right].
    rewrite Hne in Ho by done. split; [by exists o|]. rewrite Hin in Hf. naive_solver. }
  assert (∀ x o, live st1 x o → x = h ∧ o = StrObj0 ∨ live st x o) as Hlive.
  { intros x o (Hp & Ho & Hd). destruct (decide (x = h)) as [->|Hx]; [left|right].
    - rewrite Hh in Ho. by simplify_eq.
    - rewrite Hne in Ho by done. done. }
  split; try done. split.
  - simpl. rewrite length_insert. apply Hok.
  - apply Hok.
  - simpl. rewrite Hlen. apply Hok.
  - rewrite Hne by lia. apply Hok.
  - exact Hnd.
  - intros x [Hx Hxf]%Hin. rewrite Hne by done. by apply Hok.
  - intros x o Ho Hd. destruct (decide (x = h)) as [->|Hx].
    + rewrite Hh in Ho. by simplify_eq.
    + rewrite Hne in Ho by done. rewrite Hin. destruct (ok_dead st Hok x o Ho Hd); naive_solver.
  - intros x o [[-> ->]|Hl]%Hlive Hi; [done|]. by apply (ok_immortal st Hok x).
  - intros x o [[-> ->]|Hl]%Hlive Hi; [done|]. by apply (ok_interned st Hok x).
  - intros s x Hx. destruct (ok_table st Hok s x Hx) as (Hu & o & Ho & ?).
    destruct (Hext x Hu) as [Hu' E]. split; [done|]. exists o. by rewrite E.
  - intros x o Hu Ho Hf. destruct (Honly x Hu) as [->|Hu'].
    + rewrite Hh in Ho. by simplify_eq.
    + destruct (Hext x Hu') as [_ E]. rewrite E in Ho.
      destruct (ok_children st Hok x o Hu' Ho Hf). split; by eapply extends_child.
  - intros x Hu. destruct (Honly x Hu) as [->|Hu'].
    + exists [], 1%nat. apply (reads_flat st1 h StrObj0); [|done|done].
      apply IsLive_live. by apply in_use_live.
    + destruct (ok_reads st Hok x Hu') as (bs & n & Hr). exists bs, n.
      eapply extends_reads; [done..|by right|done].
Qed.

Lemma AllocStringObj_spec st shard :
  store_ok st → (shard < length (m_strShards st))%nat →
  ∃ h st1, AllocStringObj st shard = Ok (h, st1) ∧ fresh_alloc st h st1.
Proof.
  intros Hok Hsh. unfold AllocStringObj, TakeStringSlot, Empty.
  destruct (lookup_lt_is_Some_2 _ _ Hsh) as [s Hs]. rewrite Hs, derefE, !bindE.
  destruct s as [|h s].
  - rewrite bool_decide_true by done.
    destruct (Grow_spec st shard Hok Hsh) as (st' & -> & Hok' & Hext & Hsub & Htab & Hlen & h & s & Hs').
    cbn beta iota. rewrite !bindE. unfold Pop. rewrite Hs', derefE, !bindE. cbn beta iota.
    rewrite ?bindE. eexists _, _. split; [done|].
    assert (Pop (m_strShards st') shard = Ok (h, <[shard := s]> (m_strShards st'))) as Hp
      by (unfold Pop; by rewrite Hs').
    destruct (pop_alloc st' h _ shard Hok' Hp) as [F1 F2 F3 F4 F5 F6 F7 F8].
    split; try done.
    + intros Hu. by apply F2, Hext.
    + by eapply extends_trans.
    + intros x [?|?]%F6; [by left|right; auto].
    + rewrite F8. exact Hlen.
  - rewrite bool_decide_false by done. cbn beta iota. rewrite !bindE. unfold Pop.
    rewrite Hs, derefE, !bindE. cbn beta iota. rewrite ?bindE. eexists _, _. split; [done|].
    apply (pop_alloc st h _ shard Hok). unfold Pop. by rewrite Hs.
Qed.

(** ** Filling the new object *)
Lemma fresh_unreferenced st h st1 x o :
  store_ok st → fresh_alloc st h st1 → in_use st1 x → obj_at st1 x = Some o → form o = Cons →
  child_ok (in_use st) (left o) ∧ child_ok (in_use st) (right o).
Proof.
  intros Hok F Hu Ho Hf. destruct (fa_only _ _ _ F x Hu) as [->|Hu'].
  - rewrite (fa_obj _ _ _ F) in Ho. by simplify_eq.
  - destruct (fa_ext _ _ _ F x Hu') as [_ E]. rewrite E in Ho. by apply (ok_children st Hok x o).
Qed.

Lemma fill_spec st h st1 o table :
  store_ok st → fresh_alloc st h st1 →
  form o ≠ Dead → immortal o = false →
  (form o = Cons → interned o = false ∧ child_ok (in_use st) (left o) ∧ child_ok (in_use st) (right o)) →
  (if interned o then m_shortStrTable st !! str o = None ∧ table = <[str o := h]> (m_shortStrTable st)
   else table = m_shortStrTable st) →
  let st2 := with_table (set_obj st1 h o) table in
  store_ok st2 ∧ extends st st2 ∧ in_use st2 h ∧ obj_at st2 h = Some o.
Proof.
  intros Hok F Hd Him Hcons Htab st2. pose proof (fa_ok _ _ _ F) as Hok1.
  pose proof (in_use_pos _ _ (fa_use _ _ _ F)) as Hpos.
  assert (obj_at st2 h = Some o) as Hh
    by (apply (obj_at_set_eq st1); rewrite (fa_obj _ _ _ F); by eexists).
  assert (∀ x, x ≠ h → obj_at st2 x = obj_at st1 x) as Hne
    by (intros x Hx; apply (obj_at_set_ne st1); [lia|done]).
  assert (∀ x, in_use st2 x ↔ in_use st1 x) as Huse.
  { intros x. destruct (decide (x = h)) as [->|Hx].
    - split; [intros _; apply F|]. intros [_ Hf]. split; [by exists o|done].
    - unfold in_use, live. rewrite Hne by done. done. }
  assert (extends st st2) as Hext.
  { intros x Hx. destruct (fa_ext _ _ _ F x Hx) as [Hu E]. split; [by apply Huse|].
    rewrite Hne; [done|]. intros ->. by apply (fa_new _ _ _ F). }
  assert (in_use st2 h) as Huh by (apply Huse, F).
  split_and!; [|done..].
  assert (∀ x o', live st2 x o' → x = h ∧ o' = o ∨ x ≠ h ∧ live st1 x o') as Hlive.
  { intros x o' (Hp & Ho & Hd'). destruct (decide (x = h)) as [->|Hx]; [left|right].
    - rewrite Hh in Ho. by simplify_eq.
    - rewrite Hne in Ho by done. done. }
  assert (∀ x, in_use st2 x → x ≠ h → in_use st x) as Hold.
  { intros x Hx%Huse Hn. by destruct (fa_only _ _ _ F x Hx). }
  split.
  - simpl. rewrite length_insert. apply Hok1.
  - apply Hok1.
  - apply Hok1.
  - rewrite Hne by lia. apply Hok1.
  - apply Hok1.
  - intros x Hx. assert (x ≠ h) by (intros ->; by destruct Huh).
    rewrite Hne by done. by apply Hok1.
  - intros x o' Ho Hd'. destruct (decide (x = h)) as [->|Hx]; [congruence|].
    rewrite Hne in Ho by done. by apply (ok_dead st1 Hok1 x o').
  - intros x o' [[-> ->]|[Hx Hl]]%Hlive Hi; [congruence|]. by apply (ok_immortal st1 Hok1 x).
  - intros x o' [[-> ->]|[Hx Hl]]%Hlive Hi; simpl.
    + rewrite Hi in Htab. destruct Htab as [_ ->]. rewrite lookup_insert_eq. split; [|done].
      destruct (form o) eqn:E; [done| |done]. destruct (Hcons eq_refl). congruence.
    + destruct (ok_interned st1 Hok1 x o' Hl Hi) as [Hf Ht]. split; [done|].
      rewrite (fa_table _ _ _ F) in Ht.
      destruct (interned o); [|by rewrite Htab]. destruct Htab as [Hnone ->].
      rewrite lookup_insert_ne by congruence. done.
  - intros s x Hx. simpl in Hx.
    assert (x = h ∧ interned o = true ∧ str o = s ∨ m_shortStrTable st !! s = Some x) as [(-> & Hi & <-)|Ht].
    { destruct (interned o); [|right; by rewrite <- Htab]. destruct Htab as [_ ->].
      apply lookup_insert_Some in Hx. naive_solver. }
    + split; [done|]. exists o. split_and!; [done| |done|done].
      destruct (form o) eqn:E; [done| |done]. destruct (Hcons eq_refl). congruence.
    + destruct (ok_table st Hok s x Ht) as (Hu & o' & Ho' & ?).
      destruct (Hext x Hu) as [Hu2 E]. split; [done|]. exists o'. by rewrite E.
  - intros x o' Hu Ho Hf. destruct (decide (x = h)) as [->|Hx].
    + assert (o' = o) as -> by congruence. destruct (Hcons Hf) as (_ & Hl & Hr).
      split; by eapply extends_child.
    + rewrite Hne in Ho by done. apply Huse in Hu.
      destruct (fresh_unreferenced st h st1 x o' Hok F Hu Ho Hf). split; by eapply extends_child.
  - intros x Hu. destruct (decide (x = h)) as [->|Hx].
    + assert (IsLiveStringHandle st2 h = true) as Hl by (apply IsLive_live; by exists o).
      destruct (decide (form o = Cons)) as [Hf|Hf].
      * destruct (Hcons Hf) as (_ & Cl & Cr).
        assert (∀ c, child_ok (in_use st) c → ∃ bs n, reads st2 c bs n) as Hc.
        { intros c [Hc|Hc]; [by exists [], 1%nat; apply reads_none, IsLive_nonpos|].
          destruct (ok_reads st Hok c Hc) as (bs & n & Hr). exists bs, n.
          eapply (extends_reads st); [done..|by right|done]. }
        destruct (Hc _ Cl) as (a & n & Ha), (Hc _ Cr) as (b & m & Hb).
        eexists _, _. eapply reads_cons; [done|exact Hh|done|exact Ha|exact Hb].
      * eexists _, _. by eapply reads_flat.
    + destruct (ok_reads st Hok x (Hold x Hu Hx)) as (bs & n & Hr). exists bs, n.
      eapply (extends_reads st); [done..|right; auto|done].
Qed.

Lemma in_use_IsLive st h : in_use st h → IsLiveStringHandle st h = true.
Proof. intros. by apply IsLive_live, in_use_live. Qed.

Lemma reads_flat_in_use st h o :
  in_use st h → obj_at st h = Some o → form o ≠ Cons → reads st h (str o) 1.
Proof. intros Hu Ho Hf. apply reads_flat; [by apply in_use_IsLive|done..]. Qed.

(** ** Minting *)
Lemma MintNewString_aux st shard content :
  store_ok st → (shard < length (m_strShards st))%nat →
  ∃ h st', MintNewString st shard content = Ok (h, st') ∧ store_ok st' ∧ extends st st'
    ∧ in_use st' h ∧ length (m_strShards st') = length (m_strShards st)
    ∧ ∃ o, obj_at st' h = Some o ∧ form o = Flat ∧ str o = content
         ∧ ((length content ≤ kShortStringMaxBytes)%nat → interned o = true).
Proof.
  intros Hok Hsh. unfold MintNewString.
  destruct (AllocStringObj_spec st shard Hok Hsh) as (h & st1 & E & F).
  case_decide as Hlong.
  - rewrite E, bindE. eexists _, _. split; [done|].
    set (o := MkStrObj Flat false false content 0 0).
    destruct (fill_spec st h st1 o (m_shortStrTable st) Hok F) as (H1 & H2 & H3 & H4); try done.
    assert (with_table (set_obj st1 h o) (m_shortStrTable st) = set_obj st1 h o) as E2.
    { pose proof (fa_table _ _ _ F) as Ht. destruct st1. simpl in *. by subst. }
    rewrite E2 in *. split_and!; try done; [by rewrite <- (fa_shards _ _ _ F)|].
    exists o. split_and!; try done. simpl. lia.
  - assert (∀ m, m_shortStrTable st !! content = m →
      (∀ h, m = Some h → in_use st h)) as Hlive.
    { intros m Hm h' ->. by apply (ok_table st Hok content h'). }
    destruct (m_shortStrTable st !! content) as [h'|] eqn:Ht.
    + pose proof (Hlive _ eq_refl h' eq_refl) as Hu. rewrite in_use_IsLive by done.
      exists h', st. split_and!; [done|done|apply extends_refl|done|done|].
      destruct (ok_table st Hok content h' Ht) as (_ & o & ? & ? & ? & ?). by exists o.
    + rewrite E, bindE. cbn beta iota. eexists _, _. split; [done|].
      set (o := MkStrObj Flat false true content 0 0).
      rewrite (fa_table _ _ _ F).
      destruct (fill_spec st h st1 o (<[content := h]> (m_shortStrTable st)) Hok F)
        as (H1 & H2 & H3 & H4); try done.
      split_and!; try done; [by rewrite <- (fa_shards _ _ _ F)|]. by exists o.
Qed.

(** ** Rewriting a node in place *)
(** An object may be replaced by a flat one with the same content: what
    flattening and immortalizing do. *)
Section Flatten.
Context (st : StringStore) (h : Z) (o o2 : StrObj) (bs : bytes) (n : nat).
Context (Hok : store_ok st) (Hu : in_use st h) (Ho : obj_at st h = Some o).
Context (Hr : reads st h bs n).
Context (H2f : form o2 = Flat) (H2i : interned o2 = interned o) (H2s : str o2 = bs).
Let st' := set_obj st h o2.

Lemma flatten_at : obj_at st' h = Some o2.
Proof using All. apply obj_at_set_eq. by eexists. Qed.
Lemma flatten_ne x : x ≠ h → obj_at st' x = obj_at st x.
Proof using All. intros Hx. pose proof (in_use_pos _ _ Hu). apply (obj_at_set_ne st); [lia|done]. Qed.
Lemma flatten_live x : IsLiveStringHandle st' x = IsLiveStringHandle st x.
Proof using All.
  destruct (decide (x = h)) as [->|Hx]; [|apply IsLive_obj, flatten_ne, Hx].
  rewrite (in_use_IsLive st h Hu). apply IsLive_live. exists o2.
  split_and!; [by eapply in_use_pos|apply flatten_at|by rewrite H2f].
Qed.
Lemma flatten_in_use x : in_use st x ↔ in_use st' x.
Proof using All. unfold in_use. by rewrite <- !IsLive_live, flatten_live. Qed.
Lemma flatten_reads x a m : reads st x a m → ∃ m', (m' ≤ m)%nat ∧ reads st' x a m'.
Proof using All.
  assert (∀ y b k, reads st y b k → y = h → b = bs ∧ reads st' y b 1) as Hh.
  { intros y b k Hy ->. destruct (reads_det _ _ _ _ Hy bs n Hr) as [-> _]. split; [done|].
    rewrite <- H2s. apply reads_flat; [|apply flatten_at|by rewrite H2f].
    rewrite flatten_live. by apply in_use_IsLive. }
  induction 1 as [x Hl|x o1 Hl Ho1 Hf1|x o1 a1 b1 n1 m1 Hl Ho1 Hf1 R1 IH1 R2 IH2].
  - exists 1%nat. split; [done|]. apply reads_none. by rewrite flatten_live.
  - exists 1%nat. split; [done|]. destruct (decide (x = h)) as [Hx|Hx].
    + eapply Hh; [|exact Hx]. by apply reads_flat.
    + apply reads_flat; [by rewrite flatten_live|by rewrite flatten_ne|done].
  - destruct (decide (x = h)) as [Hx|Hx].
    + exists 1%nat. split; [lia|]. eapply Hh; [|exact Hx]. by eapply reads_cons.
    + destruct IH1 as (n1' & ? & IH1), IH2 as (m1' & ? & IH2).
      exists (S (n1' + m1')). split; [lia|].
      eapply reads_cons; [by rewrite flatten_live|by rewrite flatten_ne|done..].
Qed.
Lemma flatten_ok : store_ok st'.
Proof using All.
  pose proof (in_use_pos _ _ Hu) as Hpos.
  assert (interned o = true → form o = Flat ∧ str o = bs ∧ m_shortStrTable st !! bs = Some h) as Hint.
  { intros Hi. pose proof Hu as [(o' & Hl) _]. pose proof Hl as (_ & E & _).
    assert (o' = o) as -> by congruence.
    destruct (ok_interned st Hok h o Hl Hi) as [Hf Ht]. split; [done|].
    assert (reads st h (str o) 1) as R by (apply reads_flat_in_use; [done..|by rewrite Hf]).
    destruct (reads_det _ _ _ _ R _ _ Hr) as [<- _]. done. }
  split.
  - simpl. rewrite length_insert. apply Hok.
  - apply Hok.
  - apply Hok.
  - rewrite flatten_ne by lia. apply Hok.
  - apply Hok.
  - intros x Hx. assert (x ≠ h) by (intros ->; by destruct Hu).
    rewrite flatten_ne by done. by apply Hok.
  - intros x o' E Hd. destruct (decide (x = h)) as [->|Hx].
    + rewrite flatten_at in E. simplify_eq. congruence.
    + rewrite flatten_ne in E by done. by apply (ok_dead st Hok x o').
  - intros x o' (Hp & E & Hd) Hi. destruct (decide (x = h)) as [->|Hx].
    + rewrite flatten_at in E. by simplify_eq.
    + rewrite flatten_ne in E by done. by apply (ok_immortal st Hok x o').
  - intros x o' (Hp & E & Hd) Hi. destruct (decide (x = h)) as [->|Hx].
    + rewrite flatten_at in E. simplify_eq. rewrite H2i in Hi.
      destruct (Hint Hi) as (_ & _ & Ht). split; [done|]. exact Ht.
    + rewrite flatten_ne in E by done. by apply (ok_interned st Hok x o').
  - intros s x Hx. destruct (ok_table st Hok s x Hx) as (Hux & o1 & E1 & Hf1 & Hi1 & Hs1).
    split; [by apply flatten_in_use|]. destruct (decide (x = h)) as [->|Hn].
    + exists o2. assert (o1 = o) as -> by congruence. destruct (Hint Hi1) as (_ & Hs & _).
      split_and!; [apply flatten_at|done|congruence|congruence].
    + exists o1. by rewrite flatten_ne.
  - intros x o' Hux E Hc. apply flatten_in_use in Hux.
    destruct (decide (x = h)) as [->|Hx].
    + rewrite flatten_at in E. simplify_eq. congruence.
    + rewrite flatten_ne in E by done.
      destruct (ok_children st Hok x o' Hux E Hc) as [[?|?] [?|?]];
        split; (by left) || (right; by apply flatten_in_use).
  - intros x Hux. apply flatten_in_use in Hux. destruct (ok_reads st Hok x Hux) as (b & k & R).
    destruct (flatten_reads x b k R) as (k' & _ & R'). eauto.
Qed.
End Flatten.

(** Every handle in use keeps its content, possibly with fewer nodes to visit. *)
Definition same_contents (st st' : StringStore) : Prop :=
  (∀ x, in_use st x ↔ in_use st' x)
  ∧ ∀ x bs n, reads st x bs n → ∃ m, (m ≤ n)%nat ∧ reads st' x bs m.

Lemma same_contents_refl st : same_contents st st.
Proof. split; [done|]. intros x bs n H. by exists n. Qed.
Lemma same_contents_trans st1 st2 st3 :
  same_contents st1 st2 → same_contents st2 st3 → same_contents st1 st3.
Proof.
  intros [U1 R1] [U2 R2]. split; [intros x; by rewrite U1|].
  intros x bs n (m & ? & (k & ? & ?)%R2)%R1. exists k. split; [lia|done].
Qed.

(** [h] is the immortal flat object of a module constant. *)
Definition constant (st : StringStore) (h : Z) (s : bytes) : Prop :=
  in_use st h ∧ ∃ o, obj_at st h = Some o ∧ form o = Flat ∧ str o = s ∧ immortal o = true.

Lemma MintConstantString_aux st shard content :
  store_ok st → (shard < length (m_strShards st))%nat →
  ∃ h st', MintConstantString st shard content = Ok (h, st') ∧ store_ok st'
    ∧ (∀ x, in_use st x → in_use st' x)
    ∧ (∀ x bs n, in_use st x → reads st x bs n → ∃ m, reads st' x bs m)
    ∧ (∀ x s, constant st x s → constant st' x s)
    ∧ in_use st' h ∧ length (m_strShards st') = length (m_strShards st)
    ∧ constant st' h content.
Proof.
  intros Hok Hsh.
  destruct (MintNewString_aux st shard content Hok Hsh)
    as (h & st1 & E & Hok1 & Hext & Hu & Hlen & o & Ho & Hf & Hs & _).
  unfold MintConstantString. rewrite E, bindE. cbn beta iota. rewrite Ho, derefE, bindE.
  eexists _, _. split; [done|]. set (o2 := MkStrObj _ _ _ _ _ _).
  assert (reads st1 h content 1) as Hr
    by (rewrite <- Hs; apply reads_flat_in_use; [done..|by rewrite Hf]).
  assert (obj_at (set_obj st1 h o2) h = Some o2) as Hh by (by apply (flatten_at st1 h o o2 content 1)).
  split_and!.
  - by apply (flatten_ok st1 h o o2 content 1).
  - intros x Hx. apply (flatten_in_use st1 h o o2 content 1); try done. by apply Hext.
  - intros x bs n Hx R.
    destruct (flatten_reads st1 h o o2 content 1 Hok1 Hu Ho Hr Hf eq_refl Hs x bs n) as (m & _ & ?); [|by exists m].
    eapply (extends_reads st); [done..|by right|done].
  - intros x s [Hx (ox & Hox & Hfx & Hsx & Hix)]. destruct (Hext x Hx) as [Hx1 Ex].
    split; [by apply (flatten_in_use st1 h o o2 content 1)|].
    destruct (decide (x = h)) as [->|Hn].
    + exists o2. split_and!; [done|done| |done]. simpl. congruence.
    + exists ox. rewrite (flatten_ne st1 h o o2 content 1) by done. by rewrite Ex.
  - by apply (flatten_in_use st1 h o o2 content 1).
  - done.
  - split; [by apply (flatten_in_use st1 h o o2 content 1)|]. by exists o2.
Qed.

(** ** Properties *)
(** minting succeeds on every carrier and keeps the store invariant and every
    object in use; the handle it returns is in use, flat, and reads as the
    content.  A short content is interned, so minting it again, in any later
    store in which that object is in use, yields the same handle. *)
Theorem MintNewString_spec st shard content :
  store_ok st → (shard < length (m_strShards st))%nat →
  ∃ h st', MintNewString st shard content = Ok (h, st') ∧ store_ok st' ∧ extends st st'
    ∧ in_use st' h ∧ reads st' h content 1
    ∧ ((length content ≤ kShortStringMaxBytes)%nat → ∀ st2 shard2 o,
        store_ok st2 → in_use st2 h → obj_at st' h = Some o → obj_at st2 h = Some o →
        MintNewString st2 shard2 content = Ok (h, st2)).
Proof.
  intros Hok Hsh.
  destruct (MintNewString_aux st shard content Hok Hsh)
    as (h & st' & E & Hok' & Hext & Hu & _ & o & Ho & Hf & Hs & Hi).
  exists h, st'. split_and!; try done.
  - rewrite <- Hs. apply reads_flat_in_use; [done..|by rewrite Hf].
  - intros Hshort st2 shard2 o2 Hok2 Hu2 E1 E2. assert (o2 = o) as -> by congruence.
    unfold MintNewString. rewrite decide_False by lia.
    assert (live st2 h o) as Hl by (split_and!; [by eapply in_use_pos|done|congruence]).
    destruct (ok_interned st2 Hok2 h o Hl (Hi Hshort)) as [_ Ht]. rewrite Hs in Ht.
    rewrite Ht, in_use_IsLive; done.
Qed.

Lemma AllocConsString_aux st shard l r a b n m :
  store_ok st → (shard < length (m_strShards st))%nat →
  child_ok (in_use st) l → child_ok (in_use st) r →
  reads st l a n → reads st r b m →
  ∃ h st', AllocConsString st shard l r = Ok (h, st') ∧ store_ok st' ∧ extends st st'
    ∧ in_use st' h ∧ reads st' h (a ++ b) (S (n + m)).
Proof.
  intros Hok Hsh Cl Cr Ra Rb. unfold AllocConsString.
  destruct (AllocStringObj_spec st shard Hok Hsh) as (h & st1 & -> & F). rewrite bindE.
  eexists _, _. split; [done|]. set (o := MkStrObj Cons false false [] l r).
  destruct (fill_spec st h st1 o (m_shortStrTable st) Hok F) as (H1 & H2 & H3 & H4); try done.
  assert (with_table (set_obj st1 h o) (m_shortStrTable st) = set_obj st1 h o) as E2.
  { pose proof (fa_table _ _ _ F) as Ht. destruct st1. simpl in *. by subst. }
  rewrite E2 in *. split_and!; try done.
  eapply reads_cons; [by apply in_use_IsLive|exact H4|done|..]; by eapply (extends_reads st).
Qed.

(** concatenation is O(1) and content-blind: the new handle reads as the left
    content followed by the right one, whatever the children are, and nothing that
    was in use changes. *)
Theorem AllocConsString_spec st shard l r a b n m :
  store_ok st → (shard < length (m_strShards st))%nat →
  child_ok (in_use st) l → child_ok (in_use st) r →
  reads st l a n → reads st r b m →
  ∃ h st', AllocConsString st shard l r = Ok (h, st') ∧ store_ok st' ∧ extends st st'
    ∧ in_use st' h ∧ reads st' h (a ++ b) (S (n + m)).
Proof. apply AllocConsString_aux. Qed.

Lemma StrVal_aux st h bs n fuel :
  store_ok st → in_use st h → reads st h bs n → (n ≤ fuel)%nat →
  ∃ st', StrVal fuel st h = Ok (bs, st') ∧ store_ok st' ∧ same_contents st st'
    ∧ reads st' h bs 1.
Proof.
  intros Hok Hu Hr Hn. unfold StrVal. rewrite in_use_IsLive by done. cbn [negb].
  destruct (in_use_live _ _ Hu) as (o & Hl). pose proof Hl as (_ & Ho & _).
  rewrite Ho, derefE, bindE. case_decide as Hf.
  - rewrite (FlattenInto_enough st h bs n fuel []) by done. rewrite bindE.
    eexists. split; [done|]. set (o2 := MkStrObj _ _ _ _ _ _).
    split_and!; [by apply (flatten_ok st h o o2 bs n)| |].
    + split; [by apply (flatten_in_use st h o o2 bs n)|by apply (flatten_reads st h o o2 bs n)].
    + change bs with (str o2). apply reads_flat_in_use; [|by apply (flatten_at st h o o2 bs n)|done].
      by apply (flatten_in_use st h o o2 bs n).
  - pose proof (reads_flat_in_use st h o Hu Ho Hf) as R.
    destruct (reads_det _ _ _ _ R _ _ Hr) as [<- _]. exists st.
    split_and!; [done..|apply same_contents_refl|done].
Qed.

(** reading a handle in use terminates once the fuel covers its nodes and
    returns its content; flattening rewrites the node in place without changing
    the content of any handle, and afterwards the handle is read in one step. *)
Theorem StrVal_spec st h bs n fuel :
  store_ok st → in_use st h → reads st h bs n → (n ≤ fuel)%nat →
  ∃ st', StrVal fuel st h = Ok (bs, st') ∧ store_ok st' ∧ same_contents st st'
    ∧ reads st' h bs 1 ∧ StrValCopy fuel st h = Ok bs.
Proof.
  intros Hok Hu Hr Hn. destruct (StrVal_aux st h bs n fuel Hok Hu Hr Hn) as (st' & ? & ? & ? & ?).
  exists st'. split_and!; try done. unfold StrValCopy. rewrite in_use_IsLive by done. cbn [negb].
  destruct (in_use_live _ _ Hu) as (o & Hl). pose proof Hl as (_ & Ho & _).
  rewrite Ho, derefE, bindE. case_decide as Hf.
  - by rewrite (FlattenInto_enough st h bs n fuel []).
  - pose proof (reads_flat_in_use st h o Hu Ho Hf) as R.
    by destruct (reads_det _ _ _ _ R _ _ Hr) as [<- _].
Qed.

Lemma IsInterned_reads st h bs n :
  store_ok st → in_use st h → IsInternedString st h = true → reads st h bs n →
  m_shortStrTable st !! bs = Some h.
Proof.
  intros Hok Hu Hi Hr. unfold IsInternedString in Hi. rewrite in_use_IsLive in Hi by done.
  destruct (in_use_live _ _ Hu) as (o & Hl). pose proof Hl as (_ & Ho & _). rewrite Ho in Hi.
  destruct (ok_interned st Hok h o Hl Hi) as [Hf Ht].
  pose proof (reads_flat_in_use st h o Hu Ho ltac:(congruence)) as R.
  by destruct (reads_det _ _ _ _ R _ _ Hr) as [<- _].
Qed.

(** string equality decides equality of contents: comparing the handles of two
    interned strings agrees with comparing their bytes, and every other pair is
    flattened and compared. *)
Theorem StringsEqual_spec st hA hB a b n m fuel :
  store_ok st → in_use st hA → in_use st hB → reads st hA a n → reads st hB b m →
  (n ≤ fuel)%nat → (m ≤ fuel)%nat →
  ∃ st', StringsEqual fuel st hA hB = Ok (bool_decide (a = b), st')
    ∧ store_ok st' ∧ same_contents st st'.
Proof.
  intros Hok HuA HuB RA RB HnA HnB. unfold StringsEqual.
  destruct (IsInternedString st hA && IsInternedString st hB) eqn:E.
  - apply andb_true_iff in E as [IA IB]. exists st.
    pose proof (IsInterned_reads st hA a n Hok HuA IA RA) as TA.
    pose proof (IsInterned_reads st hB b m Hok HuB IB RB) as TB.
    split_and!; [|done|apply same_contents_refl]. do 2 f_equal. apply bool_decide_ext.
    split; intros ->; [|congruence]. destruct (reads_det _ _ _ _ RA _ _ RB). done.
  - destruct (StrVal_aux st hA a n fuel Hok HuA RA HnA) as (st1 & -> & Hok1 & [U1 R1] & _).
    rewrite bindE. cbn beta iota. destruct (R1 hB b m RB) as (m' & Hm & RB').
    destruct (StrVal_aux st1 hB b m' fuel Hok1) as (st2 & -> & Hok2 & S2 & _); [by apply U1|done|lia|].
    rewrite bindE. exists st2. split_and!; [done..|].
    eapply same_contents_trans; [|done]. done.
Qed.

(** ** Initialization *)
(** The invariant only looks at the objects, marks, shards, table and quantum. *)
Lemma reads_agree st st' h bs n :
  m_stringObjs st' = m_stringObjs st → reads st h bs n → reads st' h bs n.
Proof.
  intros E Hr. eapply (reads_frame st st' (λ _, True)); [|by intros; split; right|done|by right].
  intros x _. unfold obj_at. by rewrite E.
Qed.

Lemma store_ok_with_consts st x : store_ok st → store_ok (with_consts st x).
Proof.
  intros [H1 H2 H3 H4 H5 H6 H7 H8 H9 H10 H11 H12]. split; try assumption.
  intros h Hh. destruct (H12 h Hh) as (bs & n & R). exists bs, n. by apply (reads_agree st).
Qed.
Lemma store_ok_with_empty st x : store_ok st → store_ok (with_empty st x).
Proof.
  intros [H1 H2 H3 H4 H5 H6 H7 H8 H9 H10 H11 H12]. split; try assumption.
  intros h Hh. destruct (H12 h Hh) as (bs & n & R). exists bs, n. by apply (reads_agree st).
Qed.

Lemma empty_store_ok carriers quantum threshold over :
  (0 < quantum)%nat →
  store_ok (Store [DeadObj] [false] (Configure (carriers + 1)) ∅ [] 0 quantum threshold over false).
Proof.
  intros Hq. set (st := Store _ _ _ _ _ _ _ _ _ _).
  assert (free (m_strShards st) = []) as Hfree.
  { unfold free. simpl. unfold Configure. induction (carriers + 1)%nat; [done|]. by simpl. }
  assert (∀ h o, obj_at st h = Some o → h = 0 ∧ o = DeadObj) as Hobj.
  { intros h o E. pose proof (zlookup_Some_lt _ _ _ E) as Hlt. simpl in Hlt.
    assert (h = 0) as -> by lia. split; [done|]. by injection E as <-. }
  split; rewrite ?Hfree; try done.
  - simpl. unfold Configure. rewrite length_replicate. lia.
  - constructor.
  - by intros h Hh%elem_of_nil.
  - intros h o [-> ->]%Hobj _. by left.
  - intros h o (_ & [-> ->]%Hobj & Hd). by destruct Hd.
  - intros h o (_ & [-> ->]%Hobj & Hd). by destruct Hd.
  - intros h o [(o' & _ & [-> ->]%Hobj & Hd) _]. by destruct Hd.
  - intros h [(o' & _ & [-> ->]%Hobj & Hd) _]. by destruct Hd.
Qed.

Lemma MintConstantString_cache st shard s h st' :
  MintConstantString st shard s = Ok (h, st') → m_constStrCache st' = m_constStrCache st.
Proof.
  unfold MintConstantString, MintNewString, AllocStringObj, TakeStringSlot, GrowStrShardBlockLocked.
  intros E. monad_inv. repeat first [case_decide|case_match]; simplify_eq; monad_inv;
    repeat first [case_decide|case_match]; simplify_eq; monad_inv; done.
Qed.

Lemma mint_constants_spec shard ss : ∀ st,
  store_ok st → (shard < length (m_strShards st))%nat →
  ∃ st' hs, mint_constants st shard ss = Ok st' ∧ store_ok st'
    ∧ length (m_strShards st') = length (m_strShards st)
    ∧ (∀ x s, constant st x s → constant st' x s)
    ∧ m_constStrCache st' = m_constStrCache st ++ hs ∧ Forall2 (constant st') hs ss.
Proof.
  induction ss as [|s ss IH]; intros st Hok Hsh.
  - exists st, []. rewrite app_nil_r. by split_and!.
  - destruct (MintConstantString_aux st shard s Hok Hsh)
      as (h & st1 & E & Hok1 & _ & _ & Hc & _ & Hlen & Hh).
    assert (m_constStrCache st1 = m_constStrCache st) as Hcache
      by exact (MintConstantString_cache _ _ _ _ _ E).
    cbn [mint_constants]. rewrite E, bindE. cbn beta iota.
    destruct (IH (with_consts st1 (m_constStrCache st1 ++ [h]))) as
      (st' & hs & -> & Hok' & Hlen' & Hc' & Hcs & Hall).
    + by apply store_ok_with_consts.
    + simpl. lia.
    + exists st', (h :: hs). split_and!; [done|done|by rewrite Hlen'|intros x y Hx; apply Hc'; by apply Hc| |].
      * rewrite Hcs. simpl. rewrite Hcache, <- app_assoc. done.
      * constructor; [|done]. by apply Hc'.
Qed.

Lemma InitStringStore_aux carriers quantum threshold over shard constants :
  (0 < quantum)%nat → (shard ≤ carriers)%nat →
  ∃ st, InitStringStore carriers quantum threshold over shard constants = Ok st ∧ store_ok st
    ∧ length (m_strShards st) = S carriers
    ∧ Forall2 (constant st) (m_constStrCache st) constants
    ∧ constant st (m_emptyStrHandle st) [].
Proof.
  intros Hq Hsh. unfold InitStringStore. set (st0 := Store _ _ _ _ _ _ _ _ _ _).
  pose proof (empty_store_ok carriers quantum threshold over Hq) as Hok0. fold st0 in Hok0.
  assert (length (m_strShards st0) = S carriers) as Hlen0.
  { simpl. unfold Configure. rewrite length_replicate. lia. }
  destruct (mint_constants_spec shard constants st0 Hok0) as (st1 & hs & -> & Hok1 & Hlen1 & _ & Hcs & Hall);
    [lia|]. rewrite bindE.
  destruct (MintConstantString_aux st1 shard [] Hok1)
    as (h & st2 & E & Hok2 & _ & _ & Hc & _ & Hlen2 & Hh); [lia|].
  rewrite E, bindE. eexists. split; [done|]. split_and!.
  - by apply store_ok_with_empty.
  - simpl. lia.
  - simpl. rewrite (MintConstantString_cache _ _ _ _ _ E), Hcs. simpl.
    eapply list.Forall2_impl; [exact Hall|]. intros x s Hx. by apply Hc.
  - done.
Qed.

(** initialization succeeds and establishes the invariant: the constant cache
    holds, for every module constant in order, an immortal handle that reads as it,
    and the empty-string handle is immortal and reads as the empty string. *)
Theorem InitStringStore_spec carriers quantum threshold over shard constants :
  (0 < quantum)%nat → (shard ≤ carriers)%nat →
  ∃ st, InitStringStore carriers quantum threshold over shard constants = Ok st ∧ store_ok st
    ∧ length (m_strShards st) = S carriers
    ∧ Forall2 (constant st) (m_constStrCache st) constants
    ∧ constant st (m_emptyStrHandle st) [].
Proof. apply InitStringStore_aux. Qed.

(** ** Witnesses *)
(** Two constants, "hi" and a 41-byte one, on one carrier plus the host shard. *)
Definition long_bytes : bytes := replicate 41 (97 : Z).
Definition demo : StringStore :=
  match InitStringStore 1 4 1000 false 0 [[104; 105]; long_bytes] with
  | Ok st => st | Raise _ => Store [] [] [] ∅ [] 0 0 0 false false
  end.
(** The concatenation of the two. *)
Definition demo_cons : StringStore :=
  match AllocConsString demo 0 1 2 with Ok (_, st) => st | Raise _ => demo end.

Lemma demo_ok : store_ok demo ∧ constant demo 1 [104; 105] ∧ constant demo 2 long_bytes.
Proof.
  destruct (InitStringStore_aux 1 4 1000 false 0 [[104; 105]; long_bytes]) as (st & E & Hok & _ & Hc & _);
    [lia..|].
  unfold demo. rewrite E. split; [done|].
  assert (m_constStrCache st = [1; 2]) as Hcs.
  { transitivity (m_constStrCache demo); [unfold demo; by rewrite E|vm_compute; reflexivity]. }
  rewrite Hcs in Hc. inversion Hc as [|???? H1 H2]; subst. inversion H2; subst. done.
Qed.
Lemma constant_reads st h s : constant st h s → in_use st h ∧ reads st h s 1.
Proof.
  intros [Hu (o & Ho & Hf & <- & _)]. split; [done|]. apply reads_flat_in_use; [done..|congruence].
Qed.

Lemma demo_cons_ok :
  store_ok demo_cons ∧ in_use demo_cons 1 ∧ reads demo_cons 1 [104; 105] 1
  ∧ in_use demo_cons 4 ∧ reads demo_cons 4 ([104; 105] ++ long_bytes) 3.
Proof.
  destruct demo_ok as (Hok & [U1 R1]%constant_reads & [U2 R2]%constant_reads).
  destruct (AllocConsString_aux demo 0 1 2 _ _ 1 1 Hok ltac:(vm_compute; lia)
    (or_intror U1) (or_intror U2) R1 R2) as (h & st & E & Hok' & Hext & Hu & Hr).
  assert (h = 4) as ->.
  { pose proof (f_equal (λ r, match r with Ok (h, _) => h | Raise _ => 0 end) E) as H.
    vm_compute in H. by rewrite H. }
  unfold demo_cons. rewrite E. split_and!; try done; [by apply Hext|].
  eapply (extends_reads demo); [done..|by right|done].
Qed.

Lemma MintNewString_spec_witness :
  ∃ h st', MintNewString demo 1 [104] = Ok (h, st') ∧ store_ok st' ∧ extends demo st'
    ∧ in_use st' h ∧ reads st' h [104] 1.
Proof.
  destruct (MintNewString_spec demo 1 [104]) as (h & st' & H1 & H2 & H3 & H4 & H5 & _).
  - apply demo_ok.
  - vm_compute. lia.
  - by exists h, st'.
Defined.
Lemma AllocConsString_spec_witness :
  ∃ h st', AllocConsString demo_cons 1 4 1 = Ok (h, st') ∧ store_ok st' ∧ extends demo_cons st'
    ∧ in_use st' h ∧ reads st' h (([104; 105] ++ long_bytes) ++ [104; 105]) 5.
Proof.
  destruct demo_cons_ok as (Hok & U1 & R1 & U4 & R4).
  apply (AllocConsString_spec demo_cons 1 4 1 _ _ 3 1); [done| |by right|by right|done|done].
  vm_compute. lia.
Defined.
Lemma StrVal_spec_witness :
  ∃ st', StrVal 3 demo_cons 4 = Ok ([104; 105] ++ long_bytes, st') ∧ store_ok st'
    ∧ same_contents demo_cons st' ∧ reads st' 4 ([104; 105] ++ long_bytes) 1
    ∧ StrValCopy 3 demo_cons 4 = Ok ([104; 105] ++ long_bytes).
Proof.
  destruct demo_cons_ok as (Hok & U1 & R1 & U4 & R4). by apply (StrVal_spec demo_cons 4 _ 3 3).
Defined.
Lemma StringsEqual_spec_witness :
  ∃ st', StringsEqual 3 demo_cons 4 1 = Ok (false, st') ∧ store_ok st' ∧ same_contents demo_cons st'.
Proof.
  destruct demo_cons_ok as (Hok & U1 & R1 & U4 & R4).
  apply (StringsEqual_spec demo_cons 4 1 _ _ 3 1 3 Hok U4 U1 R4 R1); lia.
Defined.
Lemma InitStringStore_spec_witness :
  ∃ st, InitStringStore 1 4 1000 false 0 [[104; 105]] = Ok st ∧ store_ok st
    ∧ length (m_strShards st) = 2%nat ∧ Forall2 (constant st) (m_constStrCache st) [[104; 105]]
    ∧ constant st (m_emptyStrHandle st) [].
Proof. apply (InitStringStore_spec 1 4 1000 false 0); lia. Defined.
