(* ===== verification/StringsGC.v ===== *)
(** * String store collection

    Models [MarkString] and [SweepStrings] of
    [src/src/vm/VmExecutorStrings.cpp].  The theorems: marking terminates within
    its bound and marks exactly what is reachable; sweeping a store whose marks
    are closed keeps the survivors' contents and frees every other slot once. *)
From S2P Require Import Prelude Bytecode Shards Strings.
Open Scope Z_scope.

(** ** Marking and sweeping *)
(** The [mark] lambda: the bits and the work list. *)
Definition mark_one (st : StringStore) (h : Z) (work : list Z) : StringStore * list Z :=
  if negb (IsLiveStringHandle st h) || default false (m_strMarkBits st !!z h)
  then (st, work)
  else (with_marks st (<[Z.to_nat h := true]> (m_strMarkBits st)), h :: work).

Fixpoint MarkString_loop (fuel : nat) (st : StringStore) (work : list Z) : outcome StringStore :=
  match work with
  | [] => Ok st
  | h :: work =>
      match fuel with
      | O => Raise OutOfFuel
      | S fuel =>
          o ← deref (obj_at st h);
          if decide (form o = Cons) then
            let '(st, work) := mark_one st (left o) work in
            let '(st, work) := mark_one st (right o) work in
            MarkString_loop fuel st work
          else MarkString_loop fuel st work
      end
  end.
(** Each object is pushed at most once: the store size bounds the iterations. *)
Definition MarkString (st : StringStore) (h : Z) : outcome StringStore :=
  let '(st, work) := mark_one st h [] in
  MarkString_loop (S (length (m_stringObjs st))) st work.

(** One iteration of [SweepStrings] for slot [i]; [liveCount] is the counter. *)
Definition sweep_slot (st : StringStore) (i : Z) (liveCount : nat) : outcome (StringStore * nat) :=
  o ← deref (obj_at st i);
  let push st := sh ← Push (m_strShards st) (SweepShardOf (m_strShards st) i) i;
                 Ok (with_shards st sh, liveCount) in
  if decide (form o = Dead) then push st
  else if immortal o || default false (m_strMarkBits st !!z i) then Ok (st, S liveCount)
  else
    let st := if interned o then with_table st (delete (str o) (m_shortStrTable st)) else st in
    push (set_obj st i DeadObj).

Fixpoint SweepStrings_loop (st : StringStore) (i : Z) (n : nat) (liveCount : nat)
    : outcome (StringStore * nat) :=
  match n with
  | O => Ok (st, liveCount)
  | S n =>
      '(st, liveCount) ← sweep_slot st i liveCount;
      SweepStrings_loop st (i + 1) n liveCount
  end.

Definition SweepStrings (st : StringStore) : outcome StringStore :=
  let st := with_shards st (ClearAll (m_strShards st)) in
  let size := length (m_stringObjs st) in
  '(st, liveCount) ← SweepStrings_loop st 1 (size - 1) 0;
  Ok (with_threshold (with_marks st (replicate size false))
        (m_strGcThreshold st `max` (size `max` (2 * liveCount)))%nat).

Definition LiveStringObjectCount (st : StringStore) : nat :=
  length (filter (λ o, form o ≠ Dead) (m_stringObjs st)).

(** ** Marking *)
Definition marked (st : StringStore) (x : Z) : bool := default false (m_strMarkBits st !!z x).

(** What a handle keeps alive: itself and, through cons nodes, its subtree. *)
Inductive reach (st : StringStore) (h : Z) : Z → Prop :=
  | reach_root : IsLiveStringHandle st h = true → reach st h h
  | reach_left x o : reach st h x → obj_at st x = Some o → form o = Cons →
      IsLiveStringHandle st (left o) = true → reach st h (left o)
  | reach_right x o : reach st h x → obj_at st x = Some o → form o = Cons →
      IsLiveStringHandle st (right o) = true → reach st h (right o).

(** Every live child of a marked cons outside [work] is marked; work items are
    marked and live. *)
Record closed_but (st : StringStore) (work : list Z) : Prop := {
  cb_live : ∀ x, marked st x = true → IsLiveStringHandle st x = true;
  cb_work : ∀ x, x ∈ work → marked st x = true;
  cb_child : ∀ x o c, marked st x = true → x ∉ work → obj_at st x = Some o → form o = Cons →
    c = left o ∨ c = right o → IsLiveStringHandle st c = true → marked st c = true
}.
Definition closed (st : StringStore) : Prop := closed_but st [].

Definition unmarked (ms : list bool) : nat := length (filter (λ b, b = false) ms).
Lemma unmarked_le ms : (unmarked ms ≤ length ms)%nat.
Proof. apply length_filter. Qed.
Lemma unmarked_set ms i :
  ms !! i = Some false → S (unmarked (<[i := true]> ms)) = unmarked ms.
Proof.
  intros H. unfold unmarked. rewrite <- (take_drop_middle ms i false H) at 2.
  rewrite (insert_take_drop ms i true) by (by eapply lookup_lt_Some).
  rewrite !list.filter_app, !length_app. rewrite (filter_cons_True _ false), filter_cons_False by done.
  simpl. lia.
Qed.

Lemma with_marks_same st : with_marks st (m_strMarkBits st) = st.
Proof. by destruct st. Qed.
Lemma IsLive_with_marks st ms x : IsLiveStringHandle (with_marks st ms) x = IsLiveStringHandle st x.
Proof. done. Qed.

Lemma mark_one_spec st c work :
  length (m_strMarkBits st) = length (m_stringObjs st) →
  ∃ ms work', mark_one st c work = (with_marks st ms, work')
    ∧ length ms = length (m_stringObjs st)
    ∧ (∀ x, marked (with_marks st ms) x = true ↔
         marked st x = true ∨ x = c ∧ IsLiveStringHandle st c = true)
    ∧ (∀ x, x ∈ work' ↔ x ∈ work ∨ x = c ∧ IsLiveStringHandle st c = true ∧ marked st c = false)
    ∧ (length work' + unmarked ms = length work + unmarked (m_strMarkBits st))%nat.
Proof.
  intros Hlen. unfold mark_one. fold (marked st c).
  destruct (IsLiveStringHandle st c) eqn:Hl; [destruct (marked st c) eqn:Hm|]; simpl.
  - exists (m_strMarkBits st), work. rewrite with_marks_same. split_and!; [done|done| | |done].
    + intros x. split; [by left|]. by intros [?|[-> _]].
    + intros x. split; [by left|]. intros [?|(_ & _ & ?)]; done.
  - assert (0 ≤ c < Z.of_nat (length (m_strMarkBits st))) as Hc.
    { apply IsLive_live in Hl as (o & Hp & Ho & _). apply zlookup_Some_lt in Ho. lia. }
    assert (m_strMarkBits st !! Z.to_nat c = Some false) as Hf.
    { destruct (zlookup_is_Some (m_strMarkBits st) c Hc) as [b Hb]. unfold marked in Hm.
      rewrite Hb in Hm. simpl in Hm. subst. unfold zlookup in Hb. by rewrite decide_True in Hb by lia. }
    eexists _, _. split; [done|]. rewrite length_insert. split_and!; [done| | |].
    + intros x. unfold marked at 1. simpl. destruct (decide (x = c)) as [->|Hx].
      * rewrite zlookup_insert_eq by done. simpl. tauto.
      * rewrite zlookup_insert_ne by (done || lia). fold (marked st x). tauto.
    + intros x. rewrite elem_of_cons. tauto.
    + simpl. rewrite <- (unmarked_set (m_strMarkBits st) (Z.to_nat c) Hf). lia.
  - exists (m_strMarkBits st), work. rewrite with_marks_same. split_and!; [done|done| | |done].
    + intros x. split; [by left|]. by intros [?|[_ ?]].
    + intros x. split; [by left|]. by intros [?|(_ & ? & _)].
Qed.

(** [x] is popped, its children not yet marked: marking one keeps the rest closed. *)
Lemma mark_one_closed st x c work ms work' :
  closed_but st (x :: work) →
  (∀ y, marked (with_marks st ms) y = true ↔
     marked st y = true ∨ y = c ∧ IsLiveStringHandle st c = true) →
  (∀ y, y ∈ work' ↔ y ∈ work ∨ y = c ∧ IsLiveStringHandle st c = true ∧ marked st c = false) →
  closed_but (with_marks st ms) (x :: work').
Proof.
  intros Hcb HM HW. split.
  - intros y [Hy|[-> ?]]%HM; [by apply Hcb|done].
  - intros y Hy. apply HM. rewrite elem_of_cons, HW in Hy.
    destruct Hy as [->|[Hy|(-> & ? & _)]]; [left; apply Hcb; left|left; apply Hcb; by right|by right].
  - intros y oy d Hy Hny Hoy Hfy Hd Hl. apply HM. left.
    rewrite elem_of_cons, HW in Hny.
    eapply (cb_child _ _ Hcb y oy d); try done; [|rewrite elem_of_cons; tauto].
    apply HM in Hy as [Hy|[-> Hl']]; [done|]. destruct (marked st c) eqn:E; [done|]. tauto.
Qed.

Lemma mark_children_spec st x o work :
  length (m_strMarkBits st) = length (m_stringObjs st) →
  closed_but st (x :: work) → obj_at st x = Some o →
  ∃ ms1 w1 ms w, mark_one st (left o) work = (with_marks st ms1, w1)
    ∧ mark_one (with_marks st ms1) (right o) w1 = (with_marks st ms, w)
    ∧ length ms = length (m_stringObjs st)
    ∧ closed_but (with_marks st ms) w
    ∧ (∀ y, marked st y = true → marked (with_marks st ms) y = true)
    ∧ (∀ y, marked (with_marks st ms) y = true → marked st y = true
         ∨ (y = left o ∨ y = right o) ∧ IsLiveStringHandle st y = true)
    ∧ (∀ y, y ∈ w → y ∈ work ∨ (y = left o ∨ y = right o) ∧ IsLiveStringHandle st y = true)
    ∧ (length w + unmarked ms = length work + unmarked (m_strMarkBits st))%nat.
Proof.
  intros Hlen Hcb Ho.
  destruct (mark_one_spec st (left o) work Hlen) as (ms1 & w1 & E1 & L1 & M1 & W1 & N1).
  destruct (mark_one_spec (with_marks st ms1) (right o) w1) as (ms & w & E2 & L2 & M2 & W2 & N2); [done|].
  pose proof (mark_one_closed _ _ _ _ _ _ Hcb M1 W1) as C1.
  pose proof (mark_one_closed _ _ _ _ _ _ C1 M2 W2) as C2.
  change (with_marks (with_marks st ms1) ms) with (with_marks st ms) in *.
  setoid_rewrite IsLive_with_marks in M2. setoid_rewrite IsLive_with_marks in W2.
  assert (∀ y, marked st y = true → marked (with_marks st ms) y = true) as Hmono.
  { intros y Hy. apply M2. left. apply M1. by left. }
  exists ms1, w1, ms, w. split_and!; [done|done|done| |done| | |simpl in N2; lia].
  - split; [apply C2|intros y Hy; apply C2; by right|].
    intros y oy d Hy Hny Hoy Hfy Hd Hl. destruct (decide (y = x)) as [->|Hyx].
    + assert (oy = o) as -> by (change (obj_at st x = Some oy) in Hoy; congruence).
      apply M2. destruct Hd as [-> | ->]; [left; apply M1; by right|by right].
    + eapply (cb_child _ _ C2 y oy d); try done. rewrite elem_of_cons. tauto.
  - intros y [[Hy|[-> ?]]%M1|[-> ?]]%M2; tauto.
  - intros y [[Hy|(-> & ? & _)]%W1|(-> & ? & _)]%W2; tauto.
Qed.

Lemma reach_with_marks st ms h x : reach (with_marks st ms) h x ↔ reach st h x.
Proof.
  split; induction 1; (by apply reach_root) || (by eapply reach_left) || (by eapply reach_right).
Qed.

(** The loop, from a store that is closed except for the work list. *)
Lemma MarkString_loop_spec fuel root : ∀ st work,
  length (m_strMarkBits st) = length (m_stringObjs st) →
  (length work + unmarked (m_strMarkBits st) < fuel)%nat →
  closed_but st work → (∀ x, x ∈ work → reach st root x) →
  ∃ ms, MarkString_loop fuel st work = Ok (with_marks st ms)
    ∧ length ms = length (m_stringObjs st) ∧ closed (with_marks st ms)
    ∧ (∀ x, marked st x = true → marked (with_marks st ms) x = true)
    ∧ (∀ x, marked (with_marks st ms) x = true → marked st x = true ∨ reach st root x).
Proof.
  induction fuel as [|fuel IH]; intros st work Hlen Hf Hcb Hw; [lia|].
  destruct work as [|x work].
  { exists (m_strMarkBits st). rewrite with_marks_same. split_and!; try done. by left. }
  assert (marked st x = true) as Hmx by (apply Hcb; left).
  pose proof (cb_live _ _ Hcb x Hmx) as (o & _ & Ho & _)%IsLive_live.
  cbn [MarkString_loop]. rewrite Ho, derefE, bindE. simpl in Hf.
  case_decide as Hc.
  - destruct (mark_children_spec st x o work Hlen Hcb Ho)
      as (ms1 & w1 & ms2 & w2 & -> & -> & L2 & C2 & Mono & M2 & W2 & N2).
    assert (∀ c, (c = left o ∨ c = right o) ∧ IsLiveStringHandle st c = true → reach st root c) as Hchild.
    { pose proof (Hw x ltac:(left)) as Hr.
      intros c [[-> | ->] Hlc]; [by eapply reach_left|by eapply reach_right]. }
    destruct (IH (with_marks st ms2) w2) as (ms & -> & L & C & M & R); [done|simpl; lia|done| |].
    + intros y [Hy|Hy]%W2; apply reach_with_marks; [|by apply Hchild]. apply Hw. by right.
    + exists ms. split_and!; [done|done|done|by auto|].
      intros y [Hy|Hy%reach_with_marks]%R; [|by right]. apply M2 in Hy as [?|?]; auto.
  - destruct (IH st work) as (ms & -> & L & C & M & R);
      [done|lia| |by intros; apply Hw; right|by exists ms].
    split; [apply Hcb|intros y Hy; apply Hcb; by right|].
    intros y oy c Hy Hny Hoy Hfy. destruct (decide (y = x)) as [->|Hyx]; [congruence|].
    eapply (cb_child _ _ Hcb y); try done. rewrite not_elem_of_cons. done.
Qed.

Lemma MarkString_aux st h :
  length (m_strMarkBits st) = length (m_stringObjs st) → closed st →
  ∃ ms, MarkString st h = Ok (with_marks st ms) ∧ length ms = length (m_stringObjs st)
    ∧ closed (with_marks st ms)
    ∧ ∀ x, marked (with_marks st ms) x = true ↔ marked st x = true ∨ reach st h x.
Proof.
  intros Hlen Hcl. unfold MarkString.
  destruct (mark_one_spec st h [] Hlen) as (ms1 & w1 & -> & L1 & M1 & W1 & N1).
  assert (∀ x, x ∈ w1 ↔ x = h ∧ IsLiveStringHandle st h = true ∧ marked st h = false) as W
    by (intros x; rewrite W1, elem_of_nil; tauto).
  destruct (MarkString_loop_spec (S (length (m_stringObjs st))) h (with_marks st ms1) w1)
    as (ms & E & L & C & M & R); [done| | | |].
  - simpl. simpl in N1. pose proof (unmarked_le (m_strMarkBits st)). lia.
  - split.
    + intros y [Hy|[-> ?]]%M1; [by apply Hcl|done].
    + intros y (-> & ? & _)%W. apply M1. by right.
    + intros y oy c Hy Hny Hoy Hfy Hcc Hlc. apply M1. left.
      apply M1 in Hy as [Hy|[-> Hl]]; [|destruct (marked st h) eqn:Hy; [|by destruct Hny; apply W]];
        eapply (cb_child _ _ Hcl); (done || apply not_elem_of_nil).
  - intros y (-> & ? & _)%W. by apply reach_root.
  - simpl in E |- *. rewrite E. exists ms. split_and!; [done|done|done|].
    intros x. split.
    + intros [[Hx|[-> ?]]%M1|Hx%reach_with_marks]%R; [by left|right; by apply reach_root|by right].
    + intros [Hx|Hx]; [apply M, M1; by left|].
      induction Hx as [Hl|x o Hx IH Ho Hf Hl|x o Hx IH Ho Hf Hl]; [apply M, M1; by right|..];
        (eapply (cb_child _ _ C x o); try done; [apply not_elem_of_nil|tauto]).
Qed.

(** marking a root terminates within the store size, changes nothing but the
    mark bits, and marks exactly what the root keeps alive: a live root and,
    through concatenation nodes, its live descendants. *)
Theorem MarkString_spec st h :
  length (m_strMarkBits st) = length (m_stringObjs st) → closed st →
  ∃ ms, MarkString st h = Ok (with_marks st ms) ∧ length ms = length (m_stringObjs st)
    ∧ closed (with_marks st ms)
    ∧ ∀ x, marked (with_marks st ms) x = true ↔ marked st x = true ∨ reach st h x.
Proof. apply MarkString_aux. Qed.

(** ** Sweeping *)
Definition survives (st : StringStore) (x : Z) : bool :=
  match obj_at st x with
  | Some o => negb (bool_decide (form o = Dead)) && (immortal o || marked st x)
  | None => false
  end.

(** The state of the loop before slot [i]: [st0] is the store at the start. *)
Record swept (st0 : StringStore) (i : Z) (st : StringStore) : Prop := {
  sw_marks : m_strMarkBits st = m_strMarkBits st0;
  sw_quantum : m_allocQuantum st = m_allocQuantum st0;
  sw_size : length (m_stringObjs st) = length (m_stringObjs st0);
  sw_nshards : length (m_strShards st) = length (m_strShards st0);
  sw_obj : ∀ x, obj_at st x =
    if bool_decide (0 < x < i) && negb (survives st0 x) then (λ _, DeadObj) <$> obj_at st0 x else obj_at st0 x;
  sw_free : free (m_strShards st) ≡ₚ filter (λ x, survives st0 x = false) (seqZ 1 (i - 1));
  sw_table : ∀ s h, m_shortStrTable st !! s = Some h ↔
    m_shortStrTable st0 !! s = Some h ∧ ¬ (h < i ∧ survives st0 h = false)
}.

Lemma sweep_filter st0 i :
  1 ≤ i →
  filter (λ x, survives st0 x = false) (seqZ 1 (i + 1 - 1))
  = filter (λ x, survives st0 x = false) (seqZ 1 (i - 1))
    ++ (if survives st0 i then [] else [i]).
Proof.
  intros Hi. replace (i + 1 - 1) with ((i - 1) + 1) by lia. rewrite seqZ_app by lia.
  rewrite list.filter_app. f_equal. rewrite seqZ_cons, seqZ_nil by lia.
  replace (1 + (i - 1)) with i by lia.
  destruct (survives st0 i) eqn:E; [rewrite filter_cons_False|rewrite filter_cons_True]; try done.
  by rewrite E.
Qed.

Lemma sweep_slot_spec st0 i st n :
  store_ok st0 → 1 ≤ i → is_Some (obj_at st0 i) → swept st0 i st →
  ∃ st' n', sweep_slot st i n = Ok (st', n') ∧ swept st0 (i + 1) st'.
Proof.
  intros Hok Hi [o Ho] [S1 S2 S3 S4 S5 S6 S7].
  assert (0 < length (m_strShards st))%nat as Hsh by (rewrite S4; apply Hok).
  assert (obj_at st i = Some o) as Ho'.
  { rewrite S5. rewrite bool_decide_false by lia. done. }
  assert (survives st0 i = negb (bool_decide (form o = Dead)) && (immortal o || marked st0 i)) as Hs
    by (unfold survives; by rewrite Ho).
  assert (default false (m_strMarkBits st !!z i) = marked st0 i) as Hmark by (by rewrite S1).
  unfold sweep_slot. rewrite Ho', derefE, bindE, Hmark.
  assert (∀ x, x ≠ i → bool_decide (0 < x < i + 1) = bool_decide (0 < x < i)) as Hbd
    by (intros x Hx; apply bool_decide_ext; lia).
  destruct (Push_spec (m_strShards st) (SweepShardOf (m_strShards st) i) i) as (sh & Ep & Fp & Lp);
    [by apply SweepShardOf_lt|].
  case_decide as Hd; [|destruct (immortal o || marked st0 i) eqn:Hk].
  - rewrite bool_decide_true in Hs by done. simpl in Hs. rewrite Ep, bindE.
    eexists _, _. split; [done|]. split; try done.
    + simpl. congruence.
    + intros x. change (obj_at st x = if bool_decide (0 < x < i + 1) && negb (survives st0 x)
        then (λ _, DeadObj) <$> obj_at st0 x else obj_at st0 x).
      destruct (decide (x = i)) as [->|Hx]; [|rewrite Hbd by done; apply S5].
      rewrite bool_decide_true, Hs, Ho by lia. simpl. rewrite Ho'. f_equal.
      destruct (ok_dead st0 Hok i o Ho Hd) as [->|Hfr]; [lia|].
      destruct (ok_free st0 Hok i Hfr) as [_ [E|E]]; rewrite E in Ho; by simplify_eq.
    + simpl. rewrite Fp, S6, sweep_filter, Hs by done. by rewrite Permutation_app_comm.
    + intros s h. simpl. rewrite S7. split; intros [Ht Hn]; (split; [done|]); intros [Hlt Hsv]; apply Hn.
      * destruct (decide (h = i)) as [->|]; [|split; [lia|done]].
        exfalso. destruct (ok_table st0 Hok s i Ht) as ([(o2 & _ & E & Hd2) _] & _). congruence.
      * split; [lia|done].
  - rewrite bool_decide_false in Hs by done. simpl in Hs.
    eexists _, _. split; [done|]. split; try done.
    + intros x. destruct (decide (x = i)) as [->|Hx]; [|rewrite Hbd by done; apply S5].
      rewrite Hs, andb_false_r. congruence.
    + rewrite S6, sweep_filter, Hs by done. by rewrite app_nil_r.
    + intros s h. rewrite S7. split; intros [Ht Hn]; (split; [done|]); intros [Hlt Hsv]; apply Hn;
        (split; [|done]); [|lia]. destruct (decide (h = i)) as [->|]; [congruence|lia].
  - rewrite bool_decide_false in Hs by done. simpl in Hs.
    assert (live st0 i o) as Hl by (split_and!; [lia|done|done]).
    set (st1 := if interned o then _ else st).
    assert (m_strShards (set_obj st1 i DeadObj) = m_strShards st) as E1
      by (unfold st1; by destruct (interned o)).
    rewrite E1, Ep, bindE. eexists _, _. split; [done|].
    assert (m_stringObjs st1 = m_stringObjs st) as E2 by (unfold st1; by destruct (interned o)).
    split; try (unfold st1; by destruct (interned o)).
    + simpl. rewrite length_insert, E2. done.
    + simpl. congruence.
    + intros x. unfold obj_at at 1. simpl. rewrite E2.
      destruct (decide (x = i)) as [->|Hx].
      * rewrite bool_decide_true, Hs, Ho by lia. simpl.
        apply zlookup_insert_eq. by eapply zlookup_Some_lt.
      * rewrite zlookup_insert_ne by (done || lia). rewrite Hbd by done. apply S5.
    + simpl. rewrite Fp, S6, sweep_filter, Hs by done. by rewrite Permutation_app_comm.
    + intros s h. cbn [with_shards set_obj with_objs m_shortStrTable].
      assert (m_shortStrTable st1 !! s = Some h ↔ m_shortStrTable st !! s = Some h ∧ h ≠ i) as ->.
      { unfold st1. destruct (interned o) eqn:Hin; simpl.
        - destruct (ok_interned st0 Hok i o Hl Hin) as [_ Ht]. rewrite lookup_delete_Some.
          split; intros [H1 H2]; [split; [done|]|split; [|done]].
          + intros ->. apply S7 in H2 as [H2 _].
            destruct (ok_table st0 Hok s i H2) as (_ & o2 & E & _ & _ & Es). congruence.
          + intros <-. apply S7 in H1 as [H1 _]. congruence.
        - split; [intros H1|tauto]. split; [done|]. intros ->. apply S7 in H1 as [H1 _].
          destruct (ok_table st0 Hok s i H1) as (_ & o2 & E & _ & Hi2 & _). congruence. }
      rewrite S7. split.
      * intros [[Ht Hn] Hne]. split; [done|]. intros [? ?]. apply Hn. split; [lia|done].
      * intros [Ht Hn]. split; [split; [done|]|].
        -- intros [? ?]. apply Hn. split; [lia|done].
        -- intros ->. apply Hn. split; [lia|done].
Qed.

Lemma SweepStrings_loop_spec st0 n : ∀ i st c,
  store_ok st0 → 1 ≤ i → i + Z.of_nat n = Z.of_nat (length (m_stringObjs st0)) → swept st0 i st →
  ∃ st' c', SweepStrings_loop st i n c = Ok (st', c')
    ∧ swept st0 (Z.of_nat (length (m_stringObjs st0))) st'.
Proof.
  induction n as [|n IH]; intros i st c Hok Hi Hn Hsw.
  - exists st, c. split; [done|]. by replace (Z.of_nat (length (m_stringObjs st0))) with i by lia.
  - destruct (sweep_slot_spec st0 i st c Hok Hi) as (st1 & c1 & E & Hsw1);
      [apply zlookup_is_Some; lia|done|].
    cbn [SweepStrings_loop]. rewrite E, bindE. cbn beta iota. apply IH; [done|lia|lia|done].
Qed.

(** What the marks say about the store, and what is left after sweeping. *)
Section Swept.
Context (st0 st : StringStore) (Hok : store_ok st0) (Hcl : closed st0).
Context (Hsw : swept st0 (Z.of_nat (length (m_stringObjs st0))) st).
Context (st' : StringStore).
Context (E1 : m_stringObjs st' = m_stringObjs st) (E2 : m_strShards st' = m_strShards st).
Context (E3 : m_shortStrTable st' = m_shortStrTable st) (E4 : m_allocQuantum st' = m_allocQuantum st).
Context (E5 : length (m_strMarkBits st') = length (m_stringObjs st)).

Lemma survives_live x : survives st0 x = true → 0 < x ∧ IsLiveStringHandle st0 x = true.
Proof using All.
  unfold survives, IsLiveStringHandle. destruct (obj_at st0 x) as [o|] eqn:Ho; [|done].
  intros [Hd _]%andb_true_iff. assert (0 < x) as Hp.
  { pose proof (zlookup_Some_lt _ _ _ Ho). destruct (decide (x = 0)) as [->|]; [|lia].
    rewrite (ok_zero st0 Hok) in Ho. injection Ho as <-. done. }
  by rewrite bool_decide_true, Hd.
Qed.
Lemma swept_obj x :
  obj_at st' x = if survives st0 x then obj_at st0 x else (λ _, DeadObj) <$> obj_at st0 x.
Proof using All.
  unfold obj_at at 1. rewrite E1. fold (obj_at st x). rewrite (sw_obj _ _ _ Hsw).
  destruct (survives st0 x) eqn:Hs; [by rewrite andb_false_r|].
  destruct (obj_at st0 x) as [o|] eqn:Ho; [|by destruct (bool_decide _)].
  pose proof (zlookup_Some_lt _ _ _ Ho). destruct (decide (x = 0)) as [->|].
  - rewrite (ok_zero st0 Hok) in Ho. by injection Ho as <-.
  - by rewrite bool_decide_true by lia.
Qed.
Lemma swept_free x :
  x ∈ free (m_strShards st') ↔ 0 < x < Z.of_nat (length (m_stringObjs st0)) ∧ survives st0 x = false.
Proof using All.
  rewrite E2, (sw_free _ _ _ Hsw), list_elem_of_filter, elem_of_seqZ. intuition lia.
Qed.
Lemma swept_in_use x : in_use st' x ↔ survives st0 x = true.
Proof using All.
  unfold in_use. rewrite swept_free. destruct (survives st0 x) eqn:Hs.
  - split; [done|]. intros _. split; [|by intros [_ ?]].
    destruct (survives_live x Hs) as [Hp (o & Hl)%IsLive_live]. exists o.
    destruct Hl as (? & ? & ?). split_and!; [done| |done]. by rewrite swept_obj, Hs.
  - split; [|done]. intros [(o & Hp & Ho & Hd) Hf]. exfalso.
    rewrite swept_obj, Hs in Ho. destruct (obj_at st0 x) as [o0|] eqn:E; [|done].
    injection Ho as <-. by apply Hd.
Qed.
Lemma survives_in_use_cons x o :
  survives st0 x = true → obj_at st0 x = Some o → form o = Cons →
  in_use st0 x ∧ marked st0 x = true.
Proof using All.
  intros Hs Ho Hf. destruct (survives_live x Hs) as [Hp (o' & Hl)%IsLive_live].
  pose proof Hl as (_ & Ho' & _). assert (o' = o) as -> by congruence. split.
  - split; [by exists o|]. intros Hfr. destruct (ok_free st0 Hok x Hfr) as [_ [E|E]];
      rewrite E in Ho; simplify_eq; done.
  - unfold survives in Hs. rewrite Ho in Hs. apply andb_true_iff in Hs as [_ [Hi|Hm]%orb_true_iff]; [|done].
    pose proof (ok_immortal st0 Hok x o Hl Hi). congruence.
Qed.
Lemma survives_child x o c :
  survives st0 x = true → obj_at st0 x = Some o → form o = Cons → c = left o ∨ c = right o →
  child_ok (λ c, survives st0 c = true) c.
Proof using All.
  intros Hs Ho Hf Hc. destruct (survives_in_use_cons x o Hs Ho Hf) as [Hu Hm].
  assert (child_ok (in_use st0) c) as [?|Hcu]
    by (destruct (ok_children st0 Hok x o Hu Ho Hf), Hc as [-> | ->]; done); [by left|right].
  pose proof (in_use_IsLive _ _ Hcu) as Hlc. pose proof Hlc as (oc & _ & Hoc & Hdc)%IsLive_live.
  assert (marked st0 c = true) as Hmc
    by (eapply (cb_child _ _ Hcl x o c); (done || apply not_elem_of_nil)).
  unfold survives. rewrite Hoc, Hmc, orb_true_r, bool_decide_false by done. done.
Qed.
Lemma swept_reads x bs n : survives st0 x = true → reads st0 x bs n → reads st' x bs n.
Proof using All.
  intros Hs Hr. eapply (reads_frame st0 st' (λ x, survives st0 x = true)); [| |exact Hr|by right].
  - intros y Hy. by rewrite swept_obj, Hy.
  - intros y o Hy (_ & Ho & _) Hf. split; (eapply survives_child; [done..|tauto]).
Qed.
Lemma survives_reads x : survives st0 x = true → ∃ bs n, reads st0 x bs n.
Proof using All.
  intros Hs. destruct (survives_live x Hs) as [Hp Hlv]. pose proof Hlv as (o & _ & Ho & _)%IsLive_live.
  destruct (decide (form o = Cons)) as [Hf|Hf]; [|eexists _, _; by apply reads_flat].
  apply (ok_reads st0 Hok). by apply (survives_in_use_cons x o).
Qed.
Lemma swept_live x o : live st' x o → survives st0 x = true ∧ live st0 x o.
Proof using All.
  intros (Hp & Ho & Hd). rewrite swept_obj in Ho. destruct (survives st0 x); [done|].
  destruct (obj_at st0 x); simplify_eq/=.
Qed.
Lemma swept_ok : store_ok st'.
Proof using All.
  split.
  - by rewrite E5, E1.
  - rewrite E4, (sw_quantum _ _ _ Hsw). apply Hok.
  - rewrite E2, (sw_nshards _ _ _ Hsw). apply Hok.
  - rewrite swept_obj. pose proof (ok_zero st0 Hok) as Hz.
    destruct (survives st0 0) eqn:Hs; [done|]. by rewrite Hz.
  - rewrite E2, (sw_free _ _ _ Hsw). apply list.NoDup_filter, NoDup_seqZ.
  - intros x [Hx Hs]%swept_free. split; [lia|left]. rewrite swept_obj, Hs.
    destruct (zlookup_is_Some (m_stringObjs st0) x) as [o Ho]; [lia|].
    change (obj_at st0 x = Some o) in Ho. by rewrite Ho.
  - intros x o Ho Hd. rewrite swept_free. rewrite swept_obj in Ho.
    assert (survives st0 x = false) as Hs.
    { destruct (survives st0 x) eqn:Hs; [|done]. unfold survives in Hs. rewrite Ho in Hs.
      by rewrite bool_decide_true in Hs. }
    rewrite Hs in Ho. destruct (obj_at st0 x) as [o0|] eqn:Ho0; [|done].
    pose proof (zlookup_Some_lt _ _ _ Ho0). destruct (decide (x = 0)); [by left|right].
    split; [lia|done].
  - intros x o [_ Hl]%swept_live Hi. by apply (ok_immortal st0 Hok x).
  - intros x o [Hs Hl]%swept_live Hi. destruct (ok_interned st0 Hok x o Hl Hi) as [Hf Ht].
    split; [done|]. rewrite E3. apply (sw_table _ _ _ Hsw). split; [done|]. intros [_ ?]. congruence.
  - intros s h Ht. rewrite E3 in Ht. apply (sw_table _ _ _ Hsw) in Ht as [Ht Hn].
    destruct (ok_table st0 Hok s h Ht) as (Hu & o & Ho & Hf & Hi & Hs).
    assert (survives st0 h = true) as Hsv.
    { destruct (survives st0 h) eqn:Hsv; [done|]. destruct Hn.
      pose proof (zlookup_Some_lt _ _ _ Ho). split; [lia|done]. }
    split; [by apply swept_in_use|]. exists o. by rewrite swept_obj, Hsv.
  - intros x o Hs%swept_in_use Ho Hf. rewrite swept_obj, Hs in Ho.
    assert (∀ c, child_ok (λ c, survives st0 c = true) c → child_ok (in_use st') c) as Hc
      by (intros c [?|?]; [by left|right; by apply swept_in_use]).
    split; apply Hc; (eapply survives_child; [done..|tauto]).
  - intros x Hs%swept_in_use. destruct (survives_reads x Hs) as (bs & n & Hr).
    exists bs, n. by apply swept_reads.
Qed.
End Swept.

Lemma SweepStrings_aux st :
  store_ok st → closed st →
  ∃ st', SweepStrings st = Ok st' ∧ store_ok st'
    ∧ (∀ x, in_use st' x ↔ survives st x = true)
    ∧ (∀ x bs n, in_use st' x → reads st x bs n → reads st' x bs n)
    ∧ free (m_strShards st')
      ≡ₚ filter (λ x, survives st x = false) (seqZ 1 (Z.of_nat (length (m_stringObjs st)) - 1))
    ∧ (∀ x, marked st' x = false)
    ∧ (length (m_stringObjs st') ≤ m_strGcThreshold st')%nat.
Proof.
  intros Hok Hcl. set (st1 := with_shards st (ClearAll (m_strShards st))).
  pose proof (zlookup_Some_lt _ _ _ (ok_zero st Hok)) as Hpos.
  destruct (free_ClearAll (m_strShards st)) as [Hfree Hnsh].
  assert (swept st 1 st1) as Hsw.
  { split; try done.
    - intros x. rewrite bool_decide_false by lia. done.
    - simpl. rewrite Hfree. done.
    - intros s h. simpl. split; [|tauto]. intros Ht. split; [done|]. intros [Hlt _].
      destruct (ok_table st Hok s h Ht) as [Hu%in_use_pos _]. lia. }
  destruct (SweepStrings_loop_spec st (length (m_stringObjs st) - 1) 1 st1 0)
    as (st2 & c2 & E & Hsw2); [done|lia|lia|done|].
  unfold SweepStrings. fold st1. change (m_stringObjs st1) with (m_stringObjs st).
  rewrite E, bindE. eexists. split; [done|]. set (st' := with_threshold _ _).
  assert (length (m_strMarkBits st') = length (m_stringObjs st2)) as E5
    by (simpl; rewrite length_replicate; symmetry; apply Hsw2).
  split_and!.
  - exact (swept_ok st st2 Hok Hcl Hsw2 st' eq_refl eq_refl eq_refl eq_refl E5).
  - intros x. exact (swept_in_use st st2 Hok Hcl Hsw2 st' eq_refl eq_refl eq_refl eq_refl E5 x).
  - intros x bs n Hu%(swept_in_use st st2 Hok Hcl Hsw2 st' eq_refl eq_refl eq_refl eq_refl E5).
    by apply (swept_reads st st2 Hok Hcl Hsw2 st' eq_refl eq_refl eq_refl eq_refl E5).
  - apply Hsw2.
  - intros x. unfold marked. simpl. unfold zlookup. case_decide; [|done].
    destruct (replicate _ false !! Z.to_nat x) as [b|] eqn:Eb; [|done].
    by apply lookup_replicate in Eb as [-> _].
  - simpl. rewrite (sw_size _ _ _ Hsw2). lia.
Qed.

(** sweeping a store whose marks are closed keeps the invariant; exactly the
    live objects that are immortal or marked stay in use and they read as before;
    every other slot is on a free list exactly once; all mark bits are clear and
    the next trigger is not below the store size. *)
Theorem SweepStrings_spec st :
  store_ok st → closed st →
  ∃ st', SweepStrings st = Ok st' ∧ store_ok st'
    ∧ (∀ x, in_use st' x ↔ survives st x = true)
    ∧ (∀ x bs n, in_use st' x → reads st x bs n → reads st' x bs n)
    ∧ free (m_strShards st')
      ≡ₚ filter (λ x, survives st x = false) (seqZ 1 (Z.of_nat (length (m_stringObjs st)) - 1))
    ∧ (∀ x, marked st' x = false)
    ∧ (length (m_stringObjs st') ≤ m_strGcThreshold st')%nat.
Proof. apply SweepStrings_aux. Qed.

(** ** A whole collection of the string store *)
Fixpoint mark_roots (st : StringStore) (roots : list Z) : outcome StringStore :=
  match roots with
  | [] => Ok st
  | h :: roots => st ← MarkString st h; mark_roots st roots
  end.

Lemma mark_roots_spec roots : ∀ st,
  length (m_strMarkBits st) = length (m_stringObjs st) → closed st →
  ∃ ms, mark_roots st roots = Ok (with_marks st ms) ∧ length ms = length (m_stringObjs st)
    ∧ closed (with_marks st ms)
    ∧ ∀ x, marked (with_marks st ms) x = true ↔
        marked st x = true ∨ ∃ h, h ∈ roots ∧ reach st h x.
Proof.
  induction roots as [|h roots IH]; intros st Hlen Hcl.
  - exists (m_strMarkBits st). rewrite with_marks_same. split_and!; [done..|].
    intros x. split; [by left|]. intros [?|(h & []%elem_of_nil & _)]. done.
  - destruct (MarkString_aux st h Hlen Hcl) as (ms1 & E1 & L1 & C1 & M1).
    destruct (IH (with_marks st ms1) L1 C1) as (ms & E & L & C & M).
    cbn [mark_roots]. rewrite E1, bindE, E. exists ms. split_and!; [done..|].
    change (with_marks (with_marks st ms1) ms) with (with_marks st ms) in M.
    intros x. rewrite M, M1. setoid_rewrite reach_with_marks. setoid_rewrite elem_of_cons.
    naive_solver.
Qed.

Lemma store_ok_with_marks st ms :
  length ms = length (m_stringObjs st) → store_ok st → store_ok (with_marks st ms).
Proof.
  intros Hl [H1 H2 H3 H4 H5 H6 H7 H8 H9 H10 H11 H12]. split; try assumption.
  intros h Hh. destruct (H12 h Hh) as (bs & n & R). exists bs, n. by apply (reads_agree st).
Qed.

(** Survival in a store that differs from [st] in its marks. *)
Lemma survives_iff st st1 x (P : Prop) :
  store_ok st → obj_at st1 x = obj_at st x → (marked st1 x = true ↔ P) →
  survives st1 x = true ↔ ∃ o, live st x o ∧ (immortal o = true ∨ P).
Proof.
  intros Hok E Hmx. unfold survives. rewrite E. destruct (obj_at st x) as [o|] eqn:Ho.
  - rewrite andb_true_iff, orb_true_iff, negb_true_iff, bool_decide_eq_false, Hmx. split.
    + intros [Hd Hk]. exists o. split; [|done]. split_and!; [|done|done].
      pose proof (zlookup_Some_lt _ _ _ Ho). destruct (decide (x = 0)) as [->|]; [|lia].
      rewrite (ok_zero st Hok) in Ho. by simplify_eq.
    + intros (o' & (_ & Ho' & Hd) & Hk). assert (o' = o) as -> by congruence. done.
  - split; [done|]. intros (o & (_ & ? & _) & _). congruence.
Qed.

(** from a store with clear marks, marking any list of roots and then sweeping
    succeeds: every handle the roots reach and every immortal object keeps its
    content, nothing else stays in use, and the invariant holds again. *)
Theorem collect_strings_spec st roots :
  store_ok st → (∀ x, marked st x = false) →
  ∃ st1 st', mark_roots st roots = Ok st1 ∧ SweepStrings st1 = Ok st' ∧ store_ok st'
    ∧ (∀ x, in_use st' x ↔ ∃ o, live st x o ∧ (immortal o = true ∨ ∃ h, h ∈ roots ∧ reach st h x))
    ∧ (∀ x bs n, in_use st' x → reads st x bs n → reads st' x bs n)
    ∧ (∀ x, marked st' x = false).
Proof.
  intros Hok Hclear.
  assert (closed st) as Hcl.
  { split; intros x; rewrite ?Hclear; try done. by intros ?%elem_of_nil. }
  destruct (mark_roots_spec roots st (ok_marks st Hok) Hcl) as (ms & E & L & C & M).
  pose proof (store_ok_with_marks st ms L Hok) as Hok1.
  destruct (SweepStrings_aux _ Hok1 C) as (st' & E' & Hok' & U & R & _ & Hm & _).
  exists (with_marks st ms), st'. split_and!; try done.
  - intros x. rewrite U. apply survives_iff; [done|done|]. rewrite M, Hclear. naive_solver.
  - intros x bs n Hu Hr. apply R; [done|]. by apply (reads_agree st).
Qed.

(** ** Witnesses *)
Lemma demo_clear : ∀ x, marked demo_cons x = false.
Proof.
  intros x. unfold marked. replace (m_strMarkBits demo_cons) with (replicate 5 false)
    by (vm_compute; reflexivity).
  unfold zlookup. case_decide; [|done].
  destruct (replicate 5 false !! Z.to_nat x) as [b|] eqn:E; [|done].
  by apply lookup_replicate in E as [-> _].
Qed.
Lemma demo_closed : closed demo_cons.
Proof.
  split; intros x; rewrite ?demo_clear; try done. by intros ?%elem_of_nil.
Qed.

Lemma MarkString_spec_witness :
  ∃ ms, MarkString demo_cons 4 = Ok (with_marks demo_cons ms) ∧ length ms = 5%nat
    ∧ ∀ x, marked (with_marks demo_cons ms) x = true ↔ marked demo_cons x = true ∨ reach demo_cons 4 x.
Proof.
  destruct (MarkString_spec demo_cons 4) as (ms & H1 & H2 & _ & H3).
  - apply demo_cons_ok.
  - apply demo_closed.
  - exists ms. split; [exact H1|]. split; [|exact H3]. rewrite H2. vm_compute. reflexivity.
Defined.
Lemma SweepStrings_spec_witness :
  ∃ st', SweepStrings demo_cons = Ok st' ∧ store_ok st' ∧ ¬ in_use st' 4.
Proof.
  destruct (SweepStrings_spec demo_cons) as (st' & H1 & H2 & H3 & _).
  - apply demo_cons_ok.
  - apply demo_closed.
  - exists st'. split_and!; [done..|]. rewrite H3. vm_compute. congruence.
Defined.
Lemma collect_strings_spec_witness :
  ∃ st1 st', mark_roots demo_cons [4] = Ok st1 ∧ SweepStrings st1 = Ok st' ∧ store_ok st'
    ∧ reads st' 4 ([104; 105] ++ long_bytes) 3.
Proof.
  destruct demo_cons_ok as (Hok & _ & _ & Hu & Hr).
  destruct (collect_strings_spec demo_cons [4] Hok demo_clear) as (st1 & st' & H1 & H2 & H3 & H4 & H5 & _).
  exists st1, st'. split; [exact H1|]. split; [exact H2|]. split; [exact H3|].
  apply H5; [|exact Hr]. apply H4.
  destruct (in_use_live _ _ Hu) as (o & Hl). exists o. split; [done|right]. exists 4.
  split; [left|]. apply reach_root. by apply in_use_IsLive.
Defined.
