(* ===== verification/Utf8.v ===== *)
(** * UTF-8

    Models [src/src/compiler/Utf8.cpp] (the input contract of source files) and
    [Utf8EncodeCodePoint] of [src/include/nlang/runtime/PrimitiveTypes.h].  The
    theorems relate validation and decoding to the encoder: valid text is exactly
    the encodings of Unicode scalar values, and it decodes to them. *)
From S2P Require Import Prelude.
Open Scope Z_scope.

(** ** Encoding *)
Definition Utf8EncodeCodePoint (cp : Z) : bytes :=
  if cp <? 128 then [u8 cp]
  else if cp <? 2048 then
    [u8 (Z.lor 192 (Z.shiftr cp 6)); u8 (Z.lor 128 (Z.land cp 63))]
  else if cp <? 65536 then
    [u8 (Z.lor 224 (Z.shiftr cp 12)); u8 (Z.lor 128 (Z.land (Z.shiftr cp 6) 63));
     u8 (Z.lor 128 (Z.land cp 63))]
  else
    [u8 (Z.lor 240 (Z.shiftr cp 18)); u8 (Z.lor 128 (Z.land (Z.shiftr cp 12) 63));
     u8 (Z.lor 128 (Z.land (Z.shiftr cp 6) 63)); u8 (Z.lor 128 (Z.land cp 63))].

(** ** Validation *)
Definition SequenceLength (lead : Z) : nat :=
  if lead <? 128 then 1
  else if Z.land lead 224 =? 192 then 2
  else if Z.land lead 240 =? 224 then 3
  else if Z.land lead 248 =? 240 then 4
  else 0.

(** [cp = (cp << 6) | (at[k] & 0x3F)], over the continuation bytes in order. *)
Definition push_group (cp b : Z) : Z := Z.lor (u32 (Z.shiftl cp 6)) (Z.land b 63).

(** [at] points at the sequence: the list is what follows. *)
Definition DecodeCodePoint (at_ : bytes) (seqLength : nat) : outcome Z :=
  lead ← deref (at_ !! 0%nat);
  let cp := match seqLength with
            | 2%nat => Z.land lead 31 | 3%nat => Z.land lead 15 | 4%nat => Z.land lead 7
            | _ => lead end in
  tl ← deref (slice 1 (seqLength - 1) at_);
  Ok (foldl push_group cp tl).

Definition kFloor (seq : nat) : Z := default 0 ([0; 0; 128; 2048; 65536] !! seq).

Definition is_cont (b : Z) : bool := Z.land b 192 =? 128.
Definition bad_range (seq : nat) (cp : Z) : bool :=
  (cp <? kFloor seq) || (1114111 <? cp) || ((55296 <=? cp) && (cp <=? 57343)).

(** Every iteration that goes on consumes at least one byte, so the length of the
    text bounds them. *)
Fixpoint Utf8FirstInvalid_loop (fuel : nat) (bytes : bytes) (i : nat) : outcome nat :=
  if decide (i < length bytes)%nat then
    match fuel with
    | O => Raise OutOfFuel
    | S fuel =>
        lead ← deref (bytes !! i);
        let seq := SequenceLength lead in
        if decide (seq = 0%nat) then Ok i
        else if decide (length bytes < i + seq)%nat then Ok i
        else
          tl ← deref (slice (i + 1) (seq - 1) bytes);
          if negb (forallb is_cont tl) then Ok i
          else
            cp ← DecodeCodePoint (drop i bytes) seq;
            if bad_range seq cp then Ok i
            else Utf8FirstInvalid_loop fuel bytes (i + seq)
    end
  else Ok (length bytes).
Definition Utf8FirstInvalid (bytes : bytes) : outcome nat :=
  Utf8FirstInvalid_loop (length bytes) bytes 0.

Definition Utf8Valid (bytes : bytes) : outcome bool :=
  i ← Utf8FirstInvalid bytes; Ok (bool_decide (i = length bytes)).

(** 1-based; counts the newlines before the offset. *)
Fixpoint LineOfOffset (bytes : bytes) (offset : nat) : nat :=
  match offset, bytes with
  | S offset, b :: bytes => (if decide (b = 10) then 1 else 0) + LineOfOffset bytes offset
  | _, _ => 1
  end.

(** [Some content] on success; the reason otherwise. *)
Inductive Utf8Reason := IsUtf16 | NotUtf8 (line : nat).
Definition starts_with (p bs : bytes) : bool := bool_decide (take (length p) bs = p).
Definition Utf8ContentCheck (bs : bytes) : outcome (bytes + Utf8Reason) :=
  if starts_with [255; 254] bs || starts_with [254; 255] bs then Ok (inr IsUtf16)
  else
    let text := if starts_with [239; 187; 191] bs then drop 3 bs else bs in
    invalid ← Utf8FirstInvalid text;
    if decide (invalid = length text) then Ok (inl text)
    else Ok (inr (NotUtf8 (LineOfOffset text invalid))).

(** ** One decoding step, as a function of the rest of the text *)
Definition scalar (cp : Z) : Prop := 0 ≤ cp ≤ 1114111 ∧ ¬ (55296 ≤ cp ≤ 57343).
#[export] Instance scalar_dec cp : Decision (scalar cp).
Proof. unfold scalar. apply _. Defined.
Definition encode_all (cps : list Z) : bytes := mjoin (Utf8EncodeCodePoint <$> cps).

Definition lead_bits (seq : nat) (lead : Z) : Z :=
  match seq with
  | 2%nat => Z.land lead 31 | 3%nat => Z.land lead 15 | 4%nat => Z.land lead 7 | _ => lead
  end.
Definition decode1 (bs : bytes) : option (Z * nat) :=
  lead ← head bs;
  let seq := SequenceLength lead in
  if decide (seq = 0 ∨ length bs < seq)%nat then None
  else
    let tl := take (seq - 1) (tail bs) in
    if negb (forallb is_cont tl) then None
    else
      let cp := foldl push_group (lead_bits seq lead) tl in
      if bad_range seq cp then None else Some (cp, seq).

(** *** Bit operations as arithmetic *)
Lemma land_mod k x : 0 ≤ k → Z.land x (2 ^ k - 1) = x mod 2 ^ k.
Proof. intros. rewrite <- Z.land_ones by done. f_equal. rewrite Z.ones_equiv. lia. Qed.
Lemma land63 x : Z.land x 63 = x mod 64.
Proof. apply (land_mod 6). lia. Qed.

(** Facts of one byte, by enumeration. *)
Lemma byte_forall (P : Z → Prop) `{∀ b, Decision (P b)} :
  forallb (λ b, bool_decide (P b)) (seqZ 0 256) = true → ∀ b, is_byte b → P b.
Proof.
  intros Ht b Hb. rewrite forallb_forall in Ht.
  apply (bool_decide_eq_true_1 (P b)), Ht. apply list_elem_of_In, elem_of_seqZ. unfold is_byte in Hb. lia.
Qed.

Ltac by_bytes :=
  lazymatch goal with |- ∀ b, is_byte b → @?P b => apply (byte_forall P) end;
  vm_compute; reflexivity.

Lemma SequenceLength_spec b :
  is_byte b →
  SequenceLength b = if b <? 128 then 1%nat else if b <? 192 then 0%nat else if b <? 224 then 2%nat
                     else if b <? 240 then 3%nat else if b <? 248 then 4%nat else 0%nat.
Proof. revert b. by_bytes. Qed.
Lemma is_cont_spec b : is_byte b → is_cont b = (128 <=? b) && (b <? 192).
Proof. revert b. by_bytes. Qed.
Lemma lead31 b : is_byte b → 192 ≤ b < 224 → Z.land b 31 = b - 192.
Proof. revert b. by_bytes. Qed.
Lemma lead15 b : is_byte b → 224 ≤ b < 240 → Z.land b 15 = b - 224.
Proof. revert b. by_bytes. Qed.
Lemma lead7 b : is_byte b → 240 ≤ b < 248 → Z.land b 7 = b - 240.
Proof. revert b. by_bytes. Qed.
Lemma cont63 b : is_byte b → 128 ≤ b < 192 → Z.land b 63 = b - 128.
Proof. revert b. by_bytes. Qed.
Lemma or128 x : 0 ≤ x < 64 → u8 (Z.lor 128 x) = 128 + x.
Proof.
  intros H. assert (is_byte x) as Hb by (unfold is_byte; lia). revert x Hb H.
  by_bytes.
Qed.
Lemma or192 x : 0 ≤ x < 32 → u8 (Z.lor 192 x) = 192 + x.
Proof.
  intros H. assert (is_byte x) as Hb by (unfold is_byte; lia). revert x Hb H.
  by_bytes.
Qed.
Lemma or224 x : 0 ≤ x < 16 → u8 (Z.lor 224 x) = 224 + x.
Proof.
  intros H. assert (is_byte x) as Hb by (unfold is_byte; lia). revert x Hb H.
  by_bytes.
Qed.
Lemma or240 x : 0 ≤ x < 8 → u8 (Z.lor 240 x) = 240 + x.
Proof.
  intros H. assert (is_byte x) as Hb by (unfold is_byte; lia). revert x Hb H.
  by_bytes.
Qed.

Lemma push_group_spec cp b :
  0 ≤ cp < 2 ^ 20 → is_byte b → 128 ≤ b < 192 → push_group cp b = cp * 64 + (b - 128).
Proof.
  intros Hcp Hb Hc. unfold push_group. rewrite cont63 by done.
  rewrite Z.shiftl_mul_pow2 by lia. rewrite wrap_small by (unfold is_uint; lia).
  rewrite Z.lor_comm, <- Z.shiftl_mul_pow2 by lia. rewrite lor_shiftl_add by lia. lia.
Qed.

Lemma Utf8EncodeCodePoint_spec cp :
  0 ≤ cp ≤ 1114111 →
  Utf8EncodeCodePoint cp =
    if cp <? 128 then [cp]
    else if cp <? 2048 then [192 + cp / 64; 128 + cp mod 64]
    else if cp <? 65536 then [224 + cp / 4096; 128 + cp / 64 mod 64; 128 + cp mod 64]
    else [240 + cp / 262144; 128 + cp / 4096 mod 64; 128 + cp / 64 mod 64; 128 + cp mod 64].
Proof.
  intros H. unfold Utf8EncodeCodePoint.
  assert (∀ x, 0 ≤ x mod 64 < 64) as Hm by (intros; apply Z.mod_pos_bound; lia).
  rewrite !Z.shiftr_div_pow2, !land63, !or128 by (lia || apply Hm).
  change (2 ^ 6) with 64. change (2 ^ 12) with 4096. change (2 ^ 18) with 262144.
  destruct (Z.ltb_spec cp 128); [f_equal; apply wrap_small; unfold is_uint; lia|].
  destruct (Z.ltb_spec cp 2048); [rewrite or192; [done|Z.div_mod_to_equations; lia]|].
  destruct (Z.ltb_spec cp 65536); [rewrite or224; [done|Z.div_mod_to_equations; lia]|].
  rewrite or240; [done|Z.div_mod_to_equations; lia].
Qed.

Lemma Utf8Encode_bytes cp : 0 ≤ cp ≤ 1114111 → Forall is_byte (Utf8EncodeCodePoint cp).
Proof.
  intros H. rewrite Utf8EncodeCodePoint_spec by done. unfold is_byte.
  destruct (Z.ltb_spec cp 128), (Z.ltb_spec cp 2048), (Z.ltb_spec cp 65536);
    repeat (apply Forall_cons_2 || apply Forall_nil_2); Z.div_mod_to_equations; lia.
Qed.
Lemma Utf8Encode_pos cp : (0 < length (Utf8EncodeCodePoint cp))%nat.
Proof. unfold Utf8EncodeCodePoint. repeat case_match; simpl; lia. Qed.

(** The decoding step in arithmetic form. *)
Definition cont_range (b : Z) : bool := (128 <=? b) && (b <? 192).
Definition in_form (seq : nat) (cp : Z) : option (Z * nat) :=
  if bad_range seq cp then None else Some (cp, seq).
Definition decode_arith (bs : bytes) : option (Z * nat) :=
  match bs with
  | [] => None
  | b :: rest =>
      if b <? 128 then in_form 1 b
      else if b <? 192 then None
      else if b <? 224 then
        match rest with
        | c :: _ => if cont_range c then in_form 2 ((b - 192) * 64 + (c - 128)) else None
        | _ => None
        end
      else if b <? 240 then
        match rest with
        | c :: d :: _ => if cont_range c && cont_range d
            then in_form 3 (((b - 224) * 64 + (c - 128)) * 64 + (d - 128)) else None
        | _ => None
        end
      else if b <? 248 then
        match rest with
        | c :: d :: e :: _ => if cont_range c && (cont_range d && cont_range e)
            then in_form 4 ((((b - 240) * 64 + (c - 128)) * 64 + (d - 128)) * 64 + (e - 128)) else None
        | _ => None
        end
      else None
  end.

Lemma decode1_unfold b rest :
  decode1 (b :: rest) =
    let seq := SequenceLength b in
    if decide (seq = 0 ∨ S (length rest) < seq)%nat then None
    else
      let tl := take (seq - 1) rest in
      if forallb is_cont tl then in_form seq (foldl push_group (lead_bits seq b) tl) else None.
Proof.
  unfold decode1, in_form. cbn [head mbind option_bind length tail]. cbn zeta.
  case_decide; [done|]. by destruct (forallb is_cont _).
Qed.

Lemma cont_range_true c : is_byte c → is_cont c = cont_range c.
Proof. intros. by apply is_cont_spec. Qed.

Lemma decode1_arith bs : Forall is_byte bs → decode1 bs = decode_arith bs.
Proof.
  destruct bs as [|b rest]; [done|]. intros [Hb Hrest]%Forall_cons_1.
  rewrite decode1_unfold, SequenceLength_spec by done. cbn [decode_arith]. cbn zeta.
  destruct (Z.ltb_spec b 128).
  { rewrite decide_False by lia. done. }
  destruct (Z.ltb_spec b 192); [by rewrite decide_True by (by left)|].
  destruct (Z.ltb_spec b 224); [|destruct (Z.ltb_spec b 240); [|destruct (Z.ltb_spec b 248)]].
  - destruct rest as [|c rest]; [by rewrite decide_True by (right; simpl; lia)|].
    rewrite decide_False by (simpl; lia). cbn [Nat.sub take forallb foldl lead_bits].
    apply Forall_cons_1 in Hrest as [Hc _]. rewrite cont_range_true, andb_true_r by done.
    unfold cont_range. destruct ((128 <=? c) && (c <? 192)) eqn:E; [|done].
    rewrite lead31, push_group_spec by (done || lia). done.
  - destruct rest as [|c [|d rest]]; [by rewrite decide_True by (right; simpl; lia)..|].
    rewrite decide_False by (simpl; lia). cbn [Nat.sub take forallb foldl lead_bits].
    apply Forall_cons_1 in Hrest as [Hc [Hd _]%Forall_cons_1].
    rewrite !cont_range_true, andb_true_r by done.
    unfold cont_range. destruct ((128 <=? c) && (c <? 192)) eqn:E; [|done].
    destruct ((128 <=? d) && (d <? 192)) eqn:E'; [|done]. cbn [andb].
    rewrite lead15, !push_group_spec by (done || (rewrite ?push_group_spec by (done || lia)); lia). done.
  - destruct rest as [|c [|d [|e rest]]]; [by rewrite decide_True by (right; simpl; lia)..|].
    rewrite decide_False by (simpl; lia). cbn [Nat.sub take forallb foldl lead_bits].
    apply Forall_cons_1 in Hrest as [Hc [Hd [He _]%Forall_cons_1]%Forall_cons_1].
    rewrite !cont_range_true, andb_true_r by done.
    unfold cont_range. destruct ((128 <=? c) && (c <? 192)) eqn:E; [|done].
    destruct ((128 <=? d) && (d <? 192)) eqn:E'; [|done].
    destruct ((128 <=? e) && (e <? 192)) eqn:E''; [|done]. cbn [andb].
    rewrite lead7 by (done || lia).
    rewrite (push_group_spec (b - 240)), (push_group_spec ((b - 240) * 64 + (c - 128))),
      push_group_spec by (done || lia). done.
  - by rewrite decide_True by (by left).
Qed.

Lemma kFloor_eqs : kFloor 1 = 0 ∧ kFloor 2 = 128 ∧ kFloor 3 = 2048 ∧ kFloor 4 = 65536.
Proof. done. Qed.

(** Every scalar decodes back from its encoding, whatever follows. *)
Lemma decode1_encode cp rest :
  scalar cp → Forall is_byte rest →
  decode1 (Utf8EncodeCodePoint cp ++ rest) = Some (cp, length (Utf8EncodeCodePoint cp)).
Proof.
  intros [Hr Hs] Hrest. rewrite decode1_arith
    by (apply Forall_app_2; [by apply Utf8Encode_bytes|done]).
  rewrite Utf8EncodeCodePoint_spec by done.
  destruct kFloor_eqs as (F1 & F2 & F3 & F4).
  destruct (Z.ltb_spec cp 128); [|destruct (Z.ltb_spec cp 2048); [|destruct (Z.ltb_spec cp 65536)]];
    cbn [app decode_arith length]; unfold cont_range, in_form, bad_range; rewrite ?F1, ?F2, ?F3, ?F4.
  - rewrite (proj2 (Z.ltb_lt cp 128)) by lia.
    replace (_ || _ || _) with false by lia. done.
  - replace (_ + cp / 64 <? 128) with false by (Z.div_mod_to_equations; lia).
    replace (_ + cp / 64 <? 192) with false by (Z.div_mod_to_equations; lia).
    replace (_ + cp / 64 <? 224) with true by (Z.div_mod_to_equations; lia).
    pose proof (Z.mod_pos_bound cp 64).
    replace ((128 <=? 128 + cp mod 64) && _) with true by lia.
    replace ((192 + cp / 64 - 192) * 64 + (128 + cp mod 64 - 128)) with cp by (Z.div_mod_to_equations; lia).
    replace (_ || _ || _) with false by lia. done.
  - replace (_ + cp / 4096 <? 128) with false by (Z.div_mod_to_equations; lia).
    replace (_ + cp / 4096 <? 192) with false by (Z.div_mod_to_equations; lia).
    replace (_ + cp / 4096 <? 224) with false by (Z.div_mod_to_equations; lia).
    replace (_ + cp / 4096 <? 240) with true by (Z.div_mod_to_equations; lia).
    pose proof (Z.mod_pos_bound cp 64). pose proof (Z.mod_pos_bound (cp / 64) 64).
    replace ((128 <=? 128 + cp mod 64) && _) with true by lia.
    replace ((128 <=? 128 + cp / 64 mod 64) && _) with true by lia. cbn [andb].
    replace (((224 + cp / 4096 - 224) * 64 + _) * 64 + _) with cp by (Z.div_mod_to_equations; lia).
    replace (_ || _ || _) with false by lia. done.
  - replace (_ + cp / 262144 <? 128) with false by (Z.div_mod_to_equations; lia).
    replace (_ + cp / 262144 <? 192) with false by (Z.div_mod_to_equations; lia).
    replace (_ + cp / 262144 <? 224) with false by (Z.div_mod_to_equations; lia).
    replace (_ + cp / 262144 <? 240) with false by (Z.div_mod_to_equations; lia).
    replace (_ + cp / 262144 <? 248) with true by (Z.div_mod_to_equations; lia).
    pose proof (Z.mod_pos_bound cp 64). pose proof (Z.mod_pos_bound (cp / 64) 64).
    pose proof (Z.mod_pos_bound (cp / 4096) 64).
    replace ((128 <=? 128 + cp mod 64) && _) with true by lia.
    replace ((128 <=? 128 + cp / 64 mod 64) && _) with true by lia.
    replace ((128 <=? 128 + cp / 4096 mod 64) && _) with true by lia. cbn [andb].
    replace ((((240 + cp / 262144 - 240) * 64 + _) * 64 + _) * 64 + _) with cp
      by (Z.div_mod_to_equations; lia).
    replace (_ || _ || _) with false by lia. done.
Qed.

Lemma in_form_Some seq cp cp' n :
  in_form seq cp = Some (cp', n) →
  cp' = cp ∧ n = seq ∧ kFloor seq ≤ cp ∧ cp ≤ 1114111 ∧ ¬ (55296 ≤ cp ≤ 57343).
Proof.
  unfold in_form, bad_range. destruct (_ || _ || _) eqn:E; [done|]. intros [= <- <-].
  split_and!; [done|done|lia..].
Qed.

(** Conversely a step only succeeds at the encoding of the scalar it returns. *)
Lemma decode1_sound bs cp n :
  Forall is_byte bs → decode1 bs = Some (cp, n) →
  scalar cp ∧ n = length (Utf8EncodeCodePoint cp) ∧ bs = Utf8EncodeCodePoint cp ++ drop n bs.
Proof.
  intros Hb H. rewrite decode1_arith in H by done. destruct kFloor_eqs as (F1 & F2 & F3 & F4).
  destruct bs as [|b rest]; [done|]. pose proof Hb as [Hbb Hrest]%Forall_cons_1. unfold is_byte in Hbb.
  cbn [decode_arith] in H. unfold cont_range in H.
  destruct (Z.ltb_spec b 128); [|destruct (Z.ltb_spec b 192); [done|]; destruct (Z.ltb_spec b 224);
    [|destruct (Z.ltb_spec b 240); [|destruct (Z.ltb_spec b 248); [|done]]]].
  - apply in_form_Some in H as (-> & -> & ? & ? & ?). rewrite F1 in *.
    rewrite Utf8EncodeCodePoint_spec, (proj2 (Z.ltb_lt b 128)) by lia.
    split_and!; [split; lia|done..].
  - destruct rest as [|c rest]; [done|]. destruct (_ && _) eqn:Ec in H; [|done].
    apply in_form_Some in H as (-> & -> & ? & ? & ?). rewrite F2 in *. split; [split; lia|].
    rewrite Utf8EncodeCodePoint_spec by lia. set (cp := (b - 192) * 64 + (c - 128)) in *.
    rewrite (proj2 (Z.ltb_ge cp 128)), (proj2 (Z.ltb_lt cp 2048)) by (unfold cp; lia).
    split; [done|]. cbn [app drop]. f_equal; [|f_equal]; unfold cp; Z.div_mod_to_equations; lia.
  - destruct rest as [|c [|d rest]]; [done..|].
    destruct (_ && _ && _) eqn:Ec in H; [|done].
    apply in_form_Some in H as (-> & -> & ? & ? & ?). rewrite F3 in *. split; [split; lia|].
    rewrite Utf8EncodeCodePoint_spec by lia.
    set (cp := ((b - 224) * 64 + (c - 128)) * 64 + (d - 128)) in *.
    rewrite (proj2 (Z.ltb_ge cp 128)), (proj2 (Z.ltb_ge cp 2048)), (proj2 (Z.ltb_lt cp 65536))
      by (unfold cp; lia).
    split; [done|]. cbn [app drop]. f_equal; [|f_equal; [|f_equal]]; unfold cp; Z.div_mod_to_equations; lia.
  - destruct rest as [|c [|d [|e rest]]]; [done..|].
    destruct (_ && _ && _) eqn:Ec in H; [|done].
    apply in_form_Some in H as (-> & -> & ? & ? & ?). rewrite F4 in *. split; [split; lia|].
    rewrite Utf8EncodeCodePoint_spec by lia.
    set (cp := (((b - 240) * 64 + (c - 128)) * 64 + (d - 128)) * 64 + (e - 128)) in *.
    rewrite (proj2 (Z.ltb_ge cp 128)), (proj2 (Z.ltb_ge cp 2048)), (proj2 (Z.ltb_ge cp 65536))
      by (unfold cp; lia).
    split; [done|]. cbn [app drop].
    f_equal; [|f_equal; [|f_equal; [|f_equal]]]; unfold cp; Z.div_mod_to_equations; lia.
Qed.

(** ** The validation loop *)
Lemma Utf8FirstInvalid_step fuel bs i :
  (i < length bs)%nat →
  Utf8FirstInvalid_loop (S fuel) bs i =
    match decode1 (drop i bs) with
    | Some (_, n) => Utf8FirstInvalid_loop fuel bs (i + n)
    | None => Ok i
    end.
Proof.
  intros Hi. destruct (lookup_lt_is_Some_2 bs i Hi) as [b Hb].
  cbn [Utf8FirstInvalid_loop]. rewrite decide_True by done. rewrite Hb, derefE, bindE.
  rewrite (drop_S bs b i Hb), decode1_unfold. cbn zeta.
  set (seq := SequenceLength b). rewrite length_drop.
  destruct (decide (seq = 0%nat)) as [E|E]; [by rewrite decide_True by (by left)|].
  destruct (decide (length bs < i + seq)%nat); [by rewrite decide_True by (right; lia)|].
  rewrite decide_False by lia. unfold slice at 1. rewrite decide_True by lia.
  rewrite derefE, bindE. replace (i + 1)%nat with (S i) by lia.
  destruct (forallb is_cont _); [|done]. cbn [negb]. unfold DecodeCodePoint. cbn [lookup list_lookup].
  rewrite derefE, bindE. unfold slice. rewrite decide_True by (cbn [length]; rewrite length_drop; lia).
  rewrite derefE, !bindE. cbn [drop]. rewrite drop_0. unfold in_form, lead_bits.
  by destruct (bad_range _ _).
Qed.

Lemma decode1_pos bs cp n : decode1 bs = Some (cp, n) → (0 < n)%nat.
Proof.
  destruct bs as [|b rest]; [done|]. rewrite decode1_unfold. cbn zeta. case_decide; [done|].
  destruct (forallb _ _); [|done]. intros (_ & -> & _)%in_form_Some. lia.
Qed.

Lemma encode_all_snoc cps cp : encode_all (cps ++ [cp]) = encode_all cps ++ Utf8EncodeCodePoint cp.
Proof. unfold encode_all. rewrite fmap_app, join_app. simpl. by rewrite app_nil_r. Qed.

Lemma Utf8FirstInvalid_loop_spec fuel : ∀ bs i cps,
  Forall is_byte bs → (length bs - i ≤ fuel)%nat → (i ≤ length bs)%nat →
  Forall scalar cps → take i bs = encode_all cps →
  ∃ j cps', Utf8FirstInvalid_loop fuel bs i = Ok j ∧ (j ≤ length bs)%nat
    ∧ Forall scalar cps' ∧ take j bs = encode_all cps'
    ∧ (j = length bs ∨ decode1 (drop j bs) = None).
Proof.
  induction fuel as [|fuel IH]; intros bs i cps Hb Hf Hi Hs He.
  - exists (length bs), cps. unfold Utf8FirstInvalid_loop. rewrite decide_False by lia.
    assert (i = length bs) as <- by lia. split_and!; auto.
  - destruct (decide (i < length bs)%nat) as [Hlt|Hge].
    + rewrite Utf8FirstInvalid_step by done. destruct (decode1 (drop i bs)) as [[cp n]|] eqn:E.
      * destruct (decode1_sound (drop i bs) cp n) as (Hcp & Hn & Hd); [by apply Forall_drop|done|].
        pose proof (decode1_pos _ _ _ E).
        assert (i + n ≤ length bs)%nat.
        { apply (f_equal length) in Hd. rewrite length_app, !length_drop in Hd. lia. }
        apply (IH bs (i + n)%nat (cps ++ [cp])); [done|lia|done|by apply Forall_app_2; [|apply Forall_singleton]|].
        rewrite encode_all_snoc, <- He. rewrite <- (take_drop i bs) at 1.
        rewrite take_app, length_take, take_take. f_equal; [f_equal; lia|].
        replace (i + n - (i `min` length bs))%nat with n by lia. rewrite Hd, Hn.
        by rewrite take_app_length.
      * exists i, cps. split_and!; [done|done|done|done|by right].
    + assert (i = length bs) as -> by lia. exists (length bs), cps.
      cbn [Utf8FirstInvalid_loop]. rewrite decide_False by lia. split_and!; auto.
Qed.

Lemma Utf8FirstInvalid_aux bs :
  Forall is_byte bs →
  ∃ j cps, Utf8FirstInvalid bs = Ok j ∧ (j ≤ length bs)%nat ∧ Forall scalar cps
    ∧ take j bs = encode_all cps ∧ (j = length bs ∨ decode1 (drop j bs) = None).
Proof.
  intros Hb. apply (Utf8FirstInvalid_loop_spec _ bs 0 []); [done|lia|lia|constructor|done].
Qed.

(** A prefix that is valid text is walked to its end. *)
Lemma encode_all_cons cp cps : encode_all (cp :: cps) = Utf8EncodeCodePoint cp ++ encode_all cps.
Proof. done. Qed.
Lemma encode_all_bytes cps : Forall scalar cps → Forall is_byte (encode_all cps).
Proof.
  induction 1 as [|cp l [Hr _] _ IH]; [constructor|]. rewrite encode_all_cons.
  apply Forall_app_2; [by apply Utf8Encode_bytes|done].
Qed.

Lemma encode_all_unique cps : ∀ cps' rest,
  Forall scalar cps → Forall scalar cps' → Forall is_byte rest → decode1 rest = None →
  encode_all cps = encode_all cps' ++ rest → cps = cps' ∧ rest = [].
Proof.
  induction cps as [|cp cps IH]; intros cps' rest H1 H2 Hb Hd E.
  - symmetry in E. change (encode_all []) with (@nil Z) in E. apply app_nil in E as [E ->].
    destruct cps' as [|cp' cps']; [done|]. pose proof (Utf8Encode_pos cp').
    apply (f_equal length) in E. rewrite encode_all_cons, length_app in E. simpl in E. lia.
  - apply Forall_cons_1 in H1 as [Hcp H1]. rewrite encode_all_cons in E.
    pose proof (decode1_encode cp (encode_all cps) Hcp (encode_all_bytes _ H1)) as D. rewrite E in D.
    destruct cps' as [|cp' cps'].
    + change (encode_all [] ++ rest) with rest in D. congruence.
    + apply Forall_cons_1 in H2 as [Hcp' H2]. rewrite encode_all_cons, <- app_assoc in D, E.
      rewrite decode1_encode in D; [|done|apply Forall_app_2; [by apply encode_all_bytes|done]].
      injection D as -> _. apply app_inv_head in E.
      destruct (IH cps' rest H1 H2 Hb Hd E) as [-> ->]. done.
Qed.

(** ** Properties *)
(** the first-invalid walk terminates within the length of the text and
    returns the longest prefix that is the encoding of a sequence of Unicode
    scalar values: unless it is the whole text, no scalar's encoding starts there. *)
Theorem Utf8FirstInvalid_spec bs :
  Forall is_byte bs →
  ∃ j cps, Utf8FirstInvalid bs = Ok j ∧ (j ≤ length bs)%nat ∧ Forall scalar cps
    ∧ take j bs = encode_all cps
    ∧ (j = length bs ∨ ∀ cp rest, scalar cp → drop j bs ≠ Utf8EncodeCodePoint cp ++ rest).
Proof.
  intros Hb. destruct (Utf8FirstInvalid_aux bs Hb) as (j & cps & E & Hj & Hs & He & [Hd|Hd]).
  - exists j, cps. split_and!; auto.
  - exists j, cps. split_and!; [done..|right]. intros cp rest Hcp E'.
    assert (Forall is_byte rest) as Hr.
    { apply (Forall_drop _ j) in Hb. rewrite E' in Hb. by apply Forall_app in Hb as [_ ?]. }
    rewrite E', decode1_encode in Hd; done.
Qed.

Lemma Utf8FirstInvalid_valid bs :
  Forall is_byte bs →
  Utf8FirstInvalid bs = Ok (length bs) ↔ ∃ cps, Forall scalar cps ∧ bs = encode_all cps.
Proof.
  intros Hb. destruct (Utf8FirstInvalid_aux bs Hb) as (j & cps & E & Hj & Hs & He & Hd). rewrite E.
  split.
  - intros [= ->]. exists cps. split; [done|]. by rewrite take_ge in He.
  - intros (cps' & Hs' & ->). destruct Hd as [->|Hd]; [done|].
    destruct (encode_all_unique cps' cps (drop j (encode_all cps')) Hs' Hs) as [-> Hn];
      [by apply Forall_drop|done|by rewrite <- He, take_drop|].
    apply (f_equal length) in Hn. rewrite length_drop in Hn. simpl in Hn. do 2 f_equal. lia.
Qed.

(** validation always returns, and accepts exactly the concatenations of the
    encodings of Unicode scalar values: no overlong form, surrogate, code point
    above U+10FFFF, stray continuation or truncated sequence. *)
Theorem Utf8Valid_iff bs :
  Forall is_byte bs →
  Utf8Valid bs = Ok (bool_decide (Utf8FirstInvalid bs = Ok (length bs)))
  ∧ (Utf8Valid bs = Ok true ↔ ∃ cps, Forall scalar cps ∧ bs = encode_all cps).
Proof.
  intros Hb. rewrite <- Utf8FirstInvalid_valid by done. unfold Utf8Valid.
  destruct (Utf8FirstInvalid_aux bs Hb) as (j & cps & -> & _). rewrite bindE. split.
  - f_equal. apply bool_decide_ext. naive_solver.
  - destruct (decide (j = length bs)) as [->|Hn].
    + by rewrite bool_decide_true.
    + rewrite bool_decide_false by done. naive_solver.
Qed.

(** a source file is accepted exactly when it carries no UTF-16 mark and its
    text, less one leading UTF-8 mark, is valid; the accepted content is that text. *)
Theorem Utf8ContentCheck_spec bs text :
  Forall is_byte bs →
  Utf8ContentCheck bs = Ok (inl text) ↔
    starts_with [255; 254] bs = false ∧ starts_with [254; 255] bs = false
    ∧ text = (if starts_with [239; 187; 191] bs then drop 3 bs else bs)
    ∧ ∃ cps, Forall scalar cps ∧ text = encode_all cps.
Proof.
  intros Hb. unfold Utf8ContentCheck.
  destruct (starts_with [255; 254] bs), (starts_with [254; 255] bs); cbn [orb]; try naive_solver.
  cbn zeta. set (t := if starts_with _ _ then _ else _).
  assert (Forall is_byte t) as Ht by (unfold t; destruct (starts_with _ _); [by apply Forall_drop|done]).
  pose proof (Utf8FirstInvalid_valid t Ht) as Hv.
  destruct (Utf8FirstInvalid_aux t Ht) as (j & cps & E & _). rewrite E in *. rewrite bindE.
  case_decide as Hj; split.
  - intros [= <-]. split_and!; [done..|]. apply Hv. by rewrite Hj.
  - by intros (_ & _ & -> & _).
  - done.
  - intros (_ & _ & -> & Hc). apply Hv in Hc. naive_solver.
Qed.

(** ** Witnesses *)
(** "h", U+00E9, U+20AC, U+1F600. *)
Definition utf8_demo : bytes := encode_all [104; 233; 8364; 128512].
Lemma utf8_demo_bytes : Forall is_byte utf8_demo.
Proof. apply encode_all_bytes. apply (bool_decide_unpack _). vm_compute. exact I. Qed.

Lemma Utf8FirstInvalid_spec_witness :
  ∃ j cps, Utf8FirstInvalid [104; 192; 128] = Ok j ∧ (j ≤ 3)%nat ∧ Forall scalar cps
    ∧ take j [104; 192; 128] = encode_all cps
    ∧ (j = 3%nat ∨ ∀ cp rest, scalar cp → drop j [104; 192; 128] ≠ Utf8EncodeCodePoint cp ++ rest).
Proof.
  apply (Utf8FirstInvalid_spec [104; 192; 128]). apply (bool_decide_unpack _). vm_compute. exact I.
Defined.
Lemma Utf8Valid_iff_witness :
  Utf8Valid utf8_demo = Ok true ∧ ∃ cps, Forall scalar cps ∧ utf8_demo = encode_all cps.
Proof.
  destruct (Utf8Valid_iff utf8_demo utf8_demo_bytes) as [_ H].
  assert (Utf8Valid utf8_demo = Ok true) as E by (vm_compute; reflexivity).
  split; [exact E|]. by apply H.
Defined.
Lemma Utf8ContentCheck_spec_witness :
  ∃ cps, Forall scalar cps ∧ utf8_demo = encode_all cps.
Proof.
  apply (Utf8ContentCheck_spec ([239; 187; 191] ++ utf8_demo) utf8_demo).
  - apply Forall_app_2; [|apply utf8_demo_bytes]. apply (bool_decide_unpack _). vm_compute. exact I.
  - vm_compute. reflexivity.
Defined.
