(* ===== verification/StringOps.v ===== *)
(** * String opcodes

    Models [src/src/vm/VmExecutorOpsStrings.cpp] over the string store: operands
    are read from the bytecode, handles live in 4-byte local slots.  [fuel] bounds
    the flattening walk of [StrVal]; [shard] is the carrier that runs the opcode. *)
From S2P Require Import Prelude Bytecode Shards Strings Utf8.
Open Scope Z_scope.

(** The reader, the string store and the locals of the running frame. *)
Definition sframe : Type := reader * StringStore * bytes.

Definition ld32 (mem : bytes) (off : Z) : outcome Z := v ← load 4 mem (Z.to_nat off); Ok (i32 v).
Definition st32 (mem : bytes) (off v : Z) : outcome bytes := Prelude.store 4 mem (Z.to_nat off) v.

Section Ops.
Context (fuel : nat) (shard : nat).

(** [pResult] is the result carrier of the frame. *)
Definition OpEnum_to_str (enumNames : list (list bytes)) (r : reader) (st : StringStore)
    (pResult : bytes) : outcome sframe :=
  '(enumDefIdx, r) ← ReadUint16 r;
  enumValue ← ld32 pResult 0;
  match enumNames !!z enumDefIdx with
  | None => Raise (RuntimeError "NLang VM: enum def idx out of range")
  | Some names =>
      match names !!z enumValue with
      | None => Raise (RuntimeError "NLang VM: enum value out of range")
      | Some name =>
          '(handle, st) ← MintNewString st shard name;
          pResult ← st32 pResult 0 handle;
          Ok (r, st, pResult)
      end
  end.

Definition OpConcat_str (r : reader) (st : StringStore) (locals : bytes) : outcome sframe :=
  '(dst, r) ← ReadUint16 r;
  '(src, r) ← ReadUint16 r;
  hA ← ld32 locals dst;
  hB ← ld32 locals src;
  if decide (hA = hB) then
    '(a, st) ← StrVal fuel st hA;
    '(b, st) ← StrVal fuel st hA;
    '(handle, st) ← MintNewString st shard (a ++ b);
    locals ← st32 locals dst handle;
    Ok (r, st, locals)
  else
    '(handle, st) ← AllocConsString st shard hA hB;
    locals ← st32 locals dst handle;
    Ok (r, st, locals).

Definition OpEq_str (r : reader) (st : StringStore) (locals : bytes) : outcome sframe :=
  '(lhs, r) ← ReadUint16 r;
  '(rhs, r) ← ReadUint16 r;
  hA ← ld32 locals lhs;
  hB ← ld32 locals rhs;
  '(e, st) ← StringsEqual fuel st hA hB;
  locals ← st32 locals lhs (if (e : bool) then 1 else 0);
  Ok (r, st, locals).

Definition OpNe_str (r : reader) (st : StringStore) (locals : bytes) : outcome sframe :=
  '(lhs, r) ← ReadUint16 r;
  '(rhs, r) ← ReadUint16 r;
  hA ← ld32 locals lhs;
  hB ← ld32 locals rhs;
  '(e, st) ← StringsEqual fuel st hA hB;
  locals ← st32 locals lhs (if (e : bool) then 0 else 1);
  Ok (r, st, locals).

Definition OpStrLen (r : reader) (st : StringStore) (locals : bytes) : outcome sframe :=
  '(dst, r) ← ReadUint16 r;
  '(src, r) ← ReadUint16 r;
  handle ← ld32 locals src;
  '(s, st) ← StrVal fuel st handle;
  locals ← st32 locals dst (i32 (Z.of_nat (length s)));
  Ok (r, st, locals).

Definition OpStrByteAt (r : reader) (st : StringStore) (locals : bytes) : outcome sframe :=
  '(dst, r) ← ReadUint16 r;
  '(str, r) ← ReadUint16 r;
  '(idx, r) ← ReadUint16 r;
  handle ← ld32 locals str;
  index ← ld32 locals idx;
  '(s, st) ← StrVal fuel st handle;
  match s !!z index with
  | None => Raise (NlangExc ExcOob "NLang VM: string index out of range")
  | Some byte =>
      locals ← st32 locals dst (u8 byte);
      Ok (r, st, locals)
  end.

(** The decoding half of [OpStrForeachStep]. *)
Definition iter_error {A} : outcome A :=
  Raise (NlangExc ExcBase "string iteration: invalid UTF-8 sequence.").
Definition foreach_decode (s : bytes) (pos : nat) : outcome (Z * nat) :=
  b0 ← deref (s !! pos);
  '(cp, len) ← (if b0 <? 128 then Ok (b0, 1%nat)
                else if Z.land b0 224 =? 192 then Ok (Z.land b0 31, 2%nat)
                else if Z.land b0 240 =? 224 then Ok (Z.land b0 15, 3%nat)
                else if Z.land b0 248 =? 240 then Ok (Z.land b0 7, 4%nat)
                else iter_error);
  if decide (length s < pos + len)%nat then iter_error
  else
    tl ← deref (slice (pos + 1) (len - 1) s);
    cp ← foldM (λ cp bi, if negb (is_cont bi) then iter_error else Ok (push_group cp bi)) cp tl;
    if bad_range len cp then iter_error else Ok (cp, len).

Definition OpStrForeachStep (r : reader) (st : StringStore) (locals : bytes) : outcome sframe :=
  '(str, r) ← ReadUint16 r;
  '(off, r) ← ReadUint16 r;
  '(cond, r) ← ReadUint16 r;
  '(ch, r) ← ReadUint16 r;
  handle ← ld32 locals str;
  offset ← ld32 locals off;
  '(s, st) ← StrVal fuel st handle;
  if decide (offset < 0 ∨ Z.of_nat (length s) ≤ offset) then
    locals ← st32 locals cond 0;
    Ok (r, st, locals)
  else
    '(cp, len) ← foreach_decode s (Z.to_nat offset);
    locals ← st32 locals ch cp;
    locals ← st32 locals off (offset + Z.of_nat len);
    locals ← st32 locals cond 1;
    Ok (r, st, locals).

(** [std::string::compare]: bytes are compared as unsigned. *)
Fixpoint str_compare (a b : bytes) : comparison :=
  match a, b with
  | [], [] => Eq
  | [], _ => Lt
  | _, [] => Gt
  | x :: a, y :: b => match Z.compare x y with Eq => str_compare a b | c => c end
  end.
(** The body of the [STR_REL] macro. *)
Definition str_rel (op : comparison → bool) (r : reader) (st : StringStore) (locals : bytes)
    : outcome sframe :=
  '(lhs, r) ← ReadUint16 r;
  '(rhs, r) ← ReadUint16 r;
  hA ← ld32 locals lhs;
  hB ← ld32 locals rhs;
  '(a, st) ← StrVal fuel st hA;
  '(b, st) ← StrVal fuel st hB;
  locals ← st32 locals lhs (if op (str_compare a b) then 1 else 0);
  Ok (r, st, locals).
Definition OpLess_str := str_rel (λ c, match c with Lt => true | _ => false end).
Definition OpLessEqual_str := str_rel (λ c, match c with Gt => false | _ => true end).
Definition OpGreater_str := str_rel (λ c, match c with Gt => true | _ => false end).
Definition OpGreaterEqual_str := str_rel (λ c, match c with Lt => false | _ => true end).
End Ops.

(** ** Reading operands and handles *)
(** The operand list the reader is positioned at, and where it ends. *)
Fixpoint operands (r : reader) (vs : list Z) (r' : reader) : Prop :=
  match vs with
  | [] => r' = r
  | v :: vs => ∃ r1, ReadUint16 r = Ok (v, r1) ∧ operands r1 vs r'
  end.

(** The state between opcodes: the store invariant, with a live empty string. *)
Definition vm_ok (st : StringStore) : Prop :=
  store_ok st ∧ constant st (m_emptyStrHandle st) [].
(** A null handle, or one in use, with its content. *)
Definition readable (st : StringStore) (h : Z) (bs : bytes) (n : nat) : Prop :=
  child_ok (in_use st) h ∧ reads st h bs n.

Lemma StrVal_unchanged fuel st h bs st' x o :
  StrVal fuel st h = Ok (bs, st') → obj_at st x = Some o → form o = Flat → 0 < h →
  obj_at st' x = Some o.
Proof.
  unfold StrVal. intros H Ho Hf Hh. destruct (negb _); monad_inv; [done|].
  case_decide as Hc; monad_inv; [|done].
  rewrite obj_at_set_ne; [done|lia|]. intros ->. congruence.
Qed.
Lemma StrVal_fields fuel st h bs st' :
  StrVal fuel st h = Ok (bs, st') →
  m_strShards st' = m_strShards st ∧ m_emptyStrHandle st' = m_emptyStrHandle st.
Proof.
  unfold StrVal. intros H. destruct (negb _); monad_inv; [done|]. case_decide; by monad_inv.
Qed.

Lemma StrVal_readable st h bs n fuel :
  vm_ok st → readable st h bs n → (n ≤ fuel)%nat →
  ∃ st', StrVal fuel st h = Ok (bs, st') ∧ vm_ok st' ∧ same_contents st st'
    ∧ m_strShards st' = m_strShards st.
Proof.
  intros [Hok He] [[Hh|Hu] Hr] Hn.
  - pose proof (IsLive_nonpos st h Hh) as Hl. exists st.
    assert (bs = []) as -> by (inversion Hr; congruence).
    destruct He as [Hue (o & Ho & Hf & Hs & Hi)]. split_and!.
    + unfold StrVal. rewrite Hl, Ho. simpl. by rewrite Hs.
    + split; [done|]. split; [done|]. by exists o.
    + apply same_contents_refl.
    + done.
  - destruct (StrVal_aux st h bs n fuel Hok Hu Hr Hn) as (st' & E & Hok' & Hsc & _).
    pose proof (StrVal_fields _ _ _ _ _ E) as [F1 F2].
    exists st'. split_and!; try done. split; [done|]. rewrite F2.
    destruct He as [Hue (o & Ho & Hf & Hs & Hi)]. split; [by apply Hsc|]. exists o.
    split_and!; try done. eapply StrVal_unchanged; [done..|by eapply in_use_pos].
Qed.

Lemma same_contents_readable st st' h bs n :
  same_contents st st' → readable st h bs n → ∃ m, (m ≤ n)%nat ∧ readable st' h bs m.
Proof.
  intros [Hu Hr] [Hc R]. destruct (Hr h bs n R) as (m & Hm & R'). exists m. split; [done|].
  split; [|done]. destruct Hc as [?|?]; [by left|right]. by apply Hu.
Qed.

(** ** 4-byte slots *)
Definition slot_ok (mem : bytes) (off : Z) : Prop := (Z.to_nat off + 4 ≤ length mem)%nat.
Definition apart (a b : Z) : Prop :=
  (Z.to_nat a + 4 ≤ Z.to_nat b ∨ Z.to_nat b + 4 ≤ Z.to_nat a)%nat.

Lemma st32_spec mem off v :
  slot_ok mem off →
  ∃ mem', st32 mem off v = Ok mem' ∧ length mem' = length mem
    ∧ ld32 mem' off = Ok (i32 v) ∧ ∀ o, apart off o → ld32 mem' o = ld32 mem o.
Proof.
  intros H. unfold st32. destruct (Prelude.store 4 mem (Z.to_nat off) v) as [mem'|] eqn:E.
  2:{ unfold Prelude.store in E. by rewrite decide_True in E by exact H. }
  exists mem'. split_and!; [done|by eapply store_length| |].
  - unfold ld32. rewrite (load_store_same _ _ _ _ _ E), bindE. f_equal. apply (swrap_wrap 32).
  - intros o Ho. unfold ld32. erewrite load_store_other; [done|exact E|]. unfold apart in Ho. lia.
Qed.

(** ** Concatenation *)
(** concatenation stores a handle that reads as the left content followed by
    the right one, whether the operands are distinct handles (a new node), the same
    handle (the doubled content is minted) or null; every handle in use keeps its
    content, and no other slot changes. *)
Theorem OpConcat_str_spec fuel shard r r' st locals dst src hA hB a b n m :
  vm_ok st → (shard < length (m_strShards st))%nat → operands r [dst; src] r' →
  ld32 locals dst = Ok hA → ld32 locals src = Ok hB → slot_ok locals dst →
  readable st hA a n → readable st hB b m → (n ≤ fuel)%nat →
  ∃ st' locals' h k, OpConcat_str fuel shard r st locals = Ok (r', st', locals')
    ∧ store_ok st' ∧ in_use st' h ∧ reads st' h (a ++ b) k
    ∧ ld32 locals' dst = Ok (i32 h) ∧ (∀ o, apart dst o → ld32 locals' o = ld32 locals o)
    ∧ ∀ x bs j, in_use st x → reads st x bs j → in_use st' x ∧ ∃ j', reads st' x bs j'.
Proof.
  intros Hok Hsh (r1 & E1 & r2 & E2 & ->) LA LB Hslot RA RB Hn.
  unfold OpConcat_str. rewrite E1, bindE, E2, bindE, LA, bindE, LB, bindE.
  assert (∀ h, ∃ locals', st32 locals dst h = Ok locals' ∧ ld32 locals' dst = Ok (i32 h)
    ∧ ∀ o, apart dst o → ld32 locals' o = ld32 locals o) as Hst.
  { intros h. destruct (st32_spec locals dst h Hslot) as (l & ? & _ & ? & ?). by exists l. }
  case_decide as Heq.
  - subst hB. destruct RA as [CA RA], RB as [CB RB].
    destruct (reads_det _ _ _ _ RA _ _ RB) as [<- _].
    destruct (StrVal_readable st hA a n fuel) as (st1 & -> & Hok1 & S1 & F1); [done|by split|done|].
    rewrite bindE. cbn beta iota.
    destruct (same_contents_readable st st1 hA a n S1) as (n1 & Hn1 & R1); [by split|].
    destruct (StrVal_readable st1 hA a n1 fuel) as (st2 & -> & [Hok2 _] & S2 & F2); [done|done|lia|].
    rewrite bindE. cbn beta iota.
    destruct (MintNewString_aux st2 shard (a ++ a) Hok2) as (h & st3 & -> & Hok3 & Hext & Hu & _ & o & Ho & Hf & Hs & _);
      [congruence|].
    rewrite bindE. cbn beta iota. destruct (Hst h) as (locals' & -> & L1 & L2). rewrite bindE.
    exists st3, locals', h, 1%nat. split_and!; try done.
    + rewrite <- Hs. apply reads_flat_in_use; [done..|congruence].
    + intros x bs j Hx Rx. destruct (same_contents_trans _ _ _ S1 S2) as [U R].
      apply U in Hx. destruct (R x bs j Rx) as (j' & _ & Rx').
      split; [by apply Hext|]. exists j'. eapply (extends_reads st2); [done..|by right|done].
  - destruct Hok as [Hok _]. destruct RA as [CA RA], RB as [CB RB].
    destruct (AllocConsString_aux st shard hA hB a b n m Hok Hsh CA CB RA RB)
      as (h & st1 & -> & Hok1 & Hext & Hu & Hr).
    rewrite bindE. cbn beta iota. destruct (Hst h) as (locals' & -> & L1 & L2). rewrite bindE.
    exists st1, locals', h, (S (n + m)). split_and!; try done.
    intros x bs j Hx Rx. split; [by apply Hext|]. exists j. eapply (extends_reads st); [done..|by right|done].
Qed.

(** ** Iteration *)
Lemma foreach_fold cp tl :
  foldM (λ cp bi, if negb (is_cont bi) then iter_error else Ok (push_group cp bi)) cp tl
  = if forallb is_cont tl then Ok (foldl push_group cp tl) else iter_error.
Proof.
  revert cp. induction tl as [|b tl IH]; intros cp; [done|]. cbn [foldM forallb foldl].
  destruct (is_cont b); [|done]. cbn [negb andb]. rewrite bindE. apply IH.
Qed.

(** The step of the iteration is the validator's. *)
Lemma foreach_decode_spec s pos :
  (pos < length s)%nat →
  foreach_decode s pos = match decode1 (drop pos s) with Some p => Ok p | None => iter_error end.
Proof.
  intros Hp. destruct (lookup_lt_is_Some_2 s pos Hp) as [b Hb].
  unfold foreach_decode. rewrite Hb, derefE, bindE. rewrite (drop_S s b pos Hb), decode1_unfold.
  cbn zeta. rewrite length_drop. unfold SequenceLength.
  assert (∀ len (lead : Z), (0 < len)%nat →
    (if decide (length s < pos + len)%nat then iter_error
     else tl ← deref (slice (pos + 1) (len - 1) s);
          cp ← foldM (λ cp bi, if negb (is_cont bi) then iter_error else Ok (push_group cp bi)) lead tl;
          if bad_range len cp then iter_error else Ok (cp, len)) =
    match (if decide (len = 0 ∨ S (length s - S pos) < len)%nat then None
           else if forallb is_cont (take (len - 1) (drop (S pos) s))
                then in_form len (foldl push_group lead (take (len - 1) (drop (S pos) s))) else None)
    with Some p => Ok p | None => iter_error end) as Hlen.
  { intros len lead Hl0. destruct (decide (length s < pos + len)%nat).
    - by rewrite decide_True by (right; lia).
    - rewrite decide_False by lia. unfold slice. rewrite decide_True by lia.
      replace (pos + 1)%nat with (S pos) by lia. rewrite derefE, bindE, foreach_fold.
      destruct (forallb is_cont _); [|done]. rewrite bindE. unfold in_form. by destruct (bad_range _ _). }
  destruct (b <? 128); [rewrite bindE; apply Hlen; lia|].
  destruct (_ =? 192); [rewrite bindE; apply Hlen; lia|].
  destruct (_ =? 224); [rewrite bindE; apply Hlen; lia|].
  destruct (_ =? 240); [rewrite bindE; apply Hlen; lia|].
  by rewrite decide_True by (by left).
Qed.

(** One step from [offset], whatever the content. *)
Lemma OpStrForeachStep_step fuel r r' st locals str off cond ch h s n offset :
  vm_ok st → operands r [str; off; cond; ch] r' → readable st h s n → (n ≤ fuel)%nat →
  ld32 locals str = Ok h → ld32 locals off = Ok (Z.of_nat offset) →
  slot_ok locals off → slot_ok locals cond → slot_ok locals ch →
  apart off cond → apart ch off → apart ch cond → apart off str → apart cond str → apart ch str →
  Z.of_nat (length s) < 2 ^ 31 → (offset ≤ length s)%nat →
  ∃ st', StrVal fuel st h = Ok (s, st') ∧ vm_ok st' ∧ same_contents st st' ∧
  if decide (offset = length s) then
    ∃ locals', OpStrForeachStep fuel r st locals = Ok (r', st', locals') ∧ ld32 locals' cond = Ok 0
  else match decode1 (drop offset s) with
  | None => OpStrForeachStep fuel r st locals = iter_error
  | Some (cp, len) => is_sint 32 cp → (offset + len ≤ length s)%nat →
      ∃ locals', OpStrForeachStep fuel r st locals = Ok (r', st', locals')
        ∧ length locals' = length locals ∧ ld32 locals' cond = Ok 1 ∧ ld32 locals' ch = Ok cp
        ∧ ld32 locals' off = Ok (Z.of_nat (offset + len)) ∧ ld32 locals' str = Ok h
  end.
Proof.
  intros Hok (r1 & E1 & r2 & E2 & r3 & E3 & r4 & E4 & ->) Hr Hn Ls Lo So Sc Sch A1 A2 A3 A4 A5 A6 Hs Hoff.
  destruct (StrVal_readable st h s n fuel Hok Hr Hn) as (st' & EV & Hok' & Hsc & _).
  exists st'. split_and!; [done..|].
  unfold OpStrForeachStep.
  rewrite E1, bindE, E2, bindE, E3, bindE, E4, bindE, Ls, bindE, Lo, bindE, EV, bindE. cbn beta iota.
  destruct (decide (offset = length s)) as [He|Hne].
  - rewrite decide_True by lia. destruct (st32_spec locals cond 0 Sc) as (l & -> & _ & L & _).
    rewrite bindE. by exists l.
  - rewrite decide_False by lia. rewrite Nat2Z.id, foreach_decode_spec by lia.
    destruct (decode1 (drop offset s)) as [[cp len]|]; [|done]. intros Hcp Hlen. rewrite bindE. cbn beta iota.
    destruct (st32_spec locals ch cp Sch) as (l1 & -> & N1 & L1 & O1). rewrite bindE.
    destruct (st32_spec l1 off (Z.of_nat offset + Z.of_nat len)) as (l2 & -> & N2 & L2 & O2);
      [unfold slot_ok; by rewrite N1|]. rewrite bindE.
    destruct (st32_spec l2 cond 1) as (l3 & -> & N3 & L3 & O3);
      [unfold slot_ok; by rewrite N2, N1|]. rewrite bindE.
    exists l3. split_and!; [done|congruence|done| | |].
    + rewrite O3, O2, L1 by (unfold apart in *; lia). f_equal. by apply (swrap_small 32).
    + rewrite O3, L2 by (unfold apart in *; lia). f_equal. rewrite Nat2Z.inj_add.
      apply (swrap_small 32); [lia|]. unfold is_sint. change (2 ^ (32 - 1)) with (2 ^ 31). lia.
    + by rewrite O3, O2, O1 by (unfold apart in *; lia).
Qed.

(** The slots of a foreach loop: in range and apart. *)
Record foreach_slots (locals : bytes) (str off cond ch : Z) : Prop := {
  fs_off : slot_ok locals off; fs_cond : slot_ok locals cond; fs_ch : slot_ok locals ch;
  fs_a1 : apart off cond; fs_a2 : apart ch off; fs_a3 : apart ch cond;
  fs_a4 : apart off str; fs_a5 : apart cond str; fs_a6 : apart ch str
}.

(** The loop the compiler emits around the step: run it at the loop head, leave
    when the condition slot is 0; collects the loop variable. *)
Fixpoint foreach_collect (k fuel : nat) (r : reader) (st : StringStore) (locals : bytes)
    (cond ch : Z) : outcome (list Z) :=
  match k with
  | O => Raise OutOfFuel
  | S k =>
      '(_, st, locals) ← OpStrForeachStep fuel r st locals;
      c ← ld32 locals cond;
      if decide (c = 0) then Ok []
      else
        v ← ld32 locals ch;
        vs ← foreach_collect k fuel r st locals cond ch;
        Ok (v :: vs)
  end.

Lemma foreach_collect_S k fuel r st locals cond ch :
  foreach_collect (S k) fuel r st locals cond ch =
    ('(_, st, locals) ← OpStrForeachStep fuel r st locals;
     c ← ld32 locals cond;
     if decide (c = 0) then Ok []
     else v ← ld32 locals ch; vs ← foreach_collect k fuel r st locals cond ch; Ok (v :: vs)).
Proof. done. Qed.

Lemma foreach_collect_spec fuel r r' str off cond ch h bad cps : ∀ pre st locals n,
  vm_ok st → operands r [str; off; cond; ch] r' → foreach_slots locals str off cond ch →
  readable st h (pre ++ encode_all cps ++ bad) n → (n ≤ fuel)%nat →
  ld32 locals str = Ok h → ld32 locals off = Ok (Z.of_nat (length pre)) →
  Z.of_nat (length (pre ++ encode_all cps ++ bad)) < 2 ^ 31 →
  Forall scalar cps → Forall is_byte bad → decode1 bad = None →
  foreach_collect (S (length cps)) fuel r st locals cond ch
  = if decide (bad = []) then Ok cps else iter_error.
Proof.
  induction cps as [|cp cps IH]; intros pre st locals n Hok Hop Hsl Hr Hn Ls Lo Hlen Hsc Hb Hd;
    pose proof Hsl as [S1 S2 S3 A1 A2 A3 A4 A5 A6]; rewrite foreach_collect_S.
  - change (encode_all [] ++ bad) with bad in *.
    destruct (OpStrForeachStep_step fuel r r' st locals str off cond ch h _ n (length pre)
      Hok Hop Hr Hn Ls Lo) as (st' & EV & Hok' & Hcon & Hstep); [done..|by rewrite length_app; lia|].
    rewrite length_app in Hstep. destruct (decide (bad = [])) as [->|Hne].
    + rewrite decide_True in Hstep by (simpl; lia). destruct Hstep as (l & -> & Lc).
      rewrite bindE. cbn beta iota. by rewrite Lc, bindE, decide_True.
    + rewrite decide_False in Hstep by (destruct bad; [done|simpl; lia]).
      rewrite drop_app_length, Hd in Hstep. rewrite Hstep. done.
  - apply Forall_cons_1 in Hsc as [Hcp Hsc].
    rewrite encode_all_cons, <- app_assoc in Hr, Hlen.
    destruct (OpStrForeachStep_step fuel r r' st locals str off cond ch h _ n (length pre)
      Hok Hop Hr Hn Ls Lo) as (st' & EV & Hok' & Hcon & Hstep); [done..|by rewrite length_app; lia|].
    rewrite decide_False in Hstep.
    2:{ rewrite !length_app. pose proof (Utf8Encode_pos cp). lia. }
    rewrite drop_app_length, decode1_encode in Hstep;
      [|done|apply Forall_app_2; [by apply encode_all_bytes|done]].
    destruct Hstep as (l & -> & Ll & Lc & Lch & Loff & Lstr).
    { destruct Hcp. unfold is_sint. lia. }
    { rewrite !length_app. lia. }
    rewrite bindE. cbn beta iota. rewrite Lc, bindE, decide_False by done. rewrite Lch, bindE.
    destruct (same_contents_readable _ _ _ _ _ Hcon Hr) as (n' & Hn' & Hr').
    cbn [length]. rewrite app_assoc in Hr', Hlen.
    rewrite (IH (pre ++ Utf8EncodeCodePoint cp) st' l n'); try done.
    + by destruct (decide (bad = [])).
    + split; unfold slot_ok in *; rewrite ?Ll; done.
    + lia.
    + by rewrite Loff, length_app.
Qed.

(** a foreach over a string visits exactly the code points of its content, in
    order, and then leaves; if the content goes on with bytes no scalar's encoding
    starts with, the loop raises there. *)
Theorem foreach_code_points fuel r r' st locals str off cond ch h cps bad n :
  vm_ok st → operands r [str; off; cond; ch] r' → foreach_slots locals str off cond ch →
  readable st h (encode_all cps ++ bad) n → (n ≤ fuel)%nat →
  ld32 locals str = Ok h → ld32 locals off = Ok 0 →
  Z.of_nat (length (encode_all cps ++ bad)) < 2 ^ 31 →
  Forall scalar cps → Forall is_byte bad →
  (∀ cp rest, scalar cp → bad ≠ Utf8EncodeCodePoint cp ++ rest) →
  foreach_collect (S (length cps)) fuel r st locals cond ch
  = if decide (bad = []) then Ok cps else iter_error.
Proof.
  intros ?????????? Hbad. apply (foreach_collect_spec fuel r r' str off cond ch h bad cps [] st locals n);
    try done.
  destruct (decode1 bad) as [[cp k]|] eqn:E; [|done].
  apply decode1_sound in E as (Hcp & _ & E); [|done]. by apply Hbad in E.
Qed.

(** ** Order *)
Lemma str_compare_app x a b : str_compare (x ++ a) (x ++ b) = str_compare a b.
Proof. induction x as [|c x IH]; [done|]. simpl. by rewrite Z.compare_refl. Qed.
Lemma str_compare_lt_first x y a b : x < y → str_compare (x :: a) (y :: b) = Lt.
Proof. intros H. simpl. by rewrite (proj2 (Z.compare_lt_iff x y) H). Qed.
Lemma str_compare_same_first x y a b :
  x = y → str_compare a b = Lt → str_compare (x :: a) (y :: b) = Lt.
Proof. intros -> H. simpl. by rewrite Z.compare_refl. Qed.
Lemma str_compare_antisym a b : str_compare b a = CompOpp (str_compare a b).
Proof.
  revert b. induction a as [|x a IH]; intros [|y b]; [done..|]. simpl.
  rewrite (Z.compare_antisym x y). destruct (x ?= y); simpl; done || apply IH.
Qed.

Lemma Utf8Encode_lt c d a b :
  scalar c → scalar d → c < d →
  str_compare (Utf8EncodeCodePoint c ++ a) (Utf8EncodeCodePoint d ++ b) = Lt.
Proof.
  intros [Hc _] [Hd _] Hlt. rewrite !Utf8EncodeCodePoint_spec by done.
  assert (∀ k, 0 < k → c / k ≤ d / k) as Hdiv by (intros; apply Z.div_le_mono; lia).
  destruct (Z.ltb_spec c 128), (Z.ltb_spec c 2048), (Z.ltb_spec c 65536),
    (Z.ltb_spec d 128), (Z.ltb_spec d 2048), (Z.ltb_spec d 65536); try lia; cbn [app];
    try (apply str_compare_lt_first; Z.div_mod_to_equations; lia).
  - pose proof (Hdiv 64 ltac:(lia)).
    destruct (decide (c / 64 = d / 64)); [|apply str_compare_lt_first; lia].
    apply str_compare_same_first; [lia|]. apply str_compare_lt_first. Z.div_mod_to_equations; lia.
  - pose proof (Hdiv 4096 ltac:(lia)).
    destruct (decide (c / 4096 = d / 4096)); [|apply str_compare_lt_first; lia].
    apply str_compare_same_first; [lia|]. pose proof (Hdiv 64 ltac:(lia)).
    destruct (decide (c / 64 = d / 64)) as [E|]; [|apply str_compare_lt_first; Z.div_mod_to_equations; lia].
    apply str_compare_same_first; [by rewrite E|]. apply str_compare_lt_first. Z.div_mod_to_equations; lia.
  - pose proof (Hdiv 262144 ltac:(lia)).
    destruct (decide (c / 262144 = d / 262144)); [|apply str_compare_lt_first; lia].
    apply str_compare_same_first; [lia|]. pose proof (Hdiv 4096 ltac:(lia)).
    destruct (decide (c / 4096 = d / 4096)) as [E|]; [|apply str_compare_lt_first; Z.div_mod_to_equations; lia].
    apply str_compare_same_first; [by rewrite E|]. pose proof (Hdiv 64 ltac:(lia)).
    destruct (decide (c / 64 = d / 64)) as [E'|]; [|apply str_compare_lt_first; Z.div_mod_to_equations; lia].
    apply str_compare_same_first; [by rewrite E'|]. apply str_compare_lt_first. Z.div_mod_to_equations; lia.
Qed.

Lemma encode_all_compare a : ∀ b,
  Forall scalar a → Forall scalar b → str_compare (encode_all a) (encode_all b) = str_compare a b.
Proof.
  assert (∀ c l, ∃ x t, encode_all (c :: l) = x :: t) as Hcons.
  { intros c l. rewrite encode_all_cons. pose proof (Utf8Encode_pos c).
    destruct (Utf8EncodeCodePoint c) as [|x t]; [simpl in *; lia|]. by eexists x, _. }
  induction a as [|c a IH]; intros [|d b] Ha Hb.
  - done.
  - destruct (Hcons d b) as (x & t & ->). done.
  - destruct (Hcons c a) as (x & t & ->). done.
  - apply Forall_cons_1 in Ha as [Hc Ha], Hb as [Hd Hb]. rewrite !encode_all_cons. simpl.
    destruct (Z.compare_spec c d) as [->|Hlt|Hgt].
    + rewrite str_compare_app. by apply IH.
    + by apply Utf8Encode_lt.
    + by rewrite str_compare_antisym, Utf8Encode_lt.
Qed.

(** the relational opcodes compare contents bytewise and store the answer; on
    UTF-8 text that is the order of the code points. *)
Theorem str_rel_code_points fuel op r r' st locals lhs rhs hA hB a b n m :
  vm_ok st → operands r [lhs; rhs] r' → ld32 locals lhs = Ok hA → ld32 locals rhs = Ok hB →
  slot_ok locals lhs → Forall scalar a → Forall scalar b →
  readable st hA (encode_all a) n → readable st hB (encode_all b) m → (n ≤ fuel)%nat → (m ≤ fuel)%nat →
  ∃ st' locals', str_rel fuel op r st locals = Ok (r', st', locals') ∧ vm_ok st'
    ∧ same_contents st st' ∧ ld32 locals' lhs = Ok (if op (str_compare a b) then 1 else 0)
    ∧ ∀ o, apart lhs o → ld32 locals' o = ld32 locals o.
Proof.
  intros Hok (r1 & E1 & r2 & E2 & ->) LA LB Hsl Ha Hb RA RB Hn Hm. unfold str_rel.
  rewrite E1, bindE, E2, bindE, LA, bindE, LB, bindE.
  destruct (StrVal_readable st hA _ n fuel Hok RA Hn) as (st1 & -> & Hok1 & S1 & _).
  rewrite bindE. cbn beta iota. destruct (same_contents_readable _ _ _ _ _ S1 RB) as (m' & Hm' & RB').
  destruct (StrVal_readable st1 hB _ m' fuel Hok1 RB') as (st2 & -> & Hok2 & S2 & _); [lia|].
  rewrite bindE. cbn beta iota. rewrite encode_all_compare by done.
  destruct (st32_spec locals lhs (if op (str_compare a b) then 1 else 0) Hsl) as (l & -> & _ & L1 & L2).
  rewrite bindE. exists st2, l. split_and!; try done.
  - by eapply same_contents_trans.
  - rewrite L1. by destruct (op _).
Qed.

(** ** Witnesses *)
Lemma demo_vm_ok : vm_ok demo.
Proof.
  destruct (InitStringStore_aux 1 4 1000 false 0 [[104; 105]; long_bytes]) as (st & E & Hok & _ & _ & He);
    [lia..|]. unfold demo. rewrite E. by split.
Qed.
Lemma demo_hi : readable demo 1 (encode_all [104; 105]) 1.
Proof.
  destruct demo_ok as (_ & [U R]%constant_reads & _). split; [by right|].
  by replace (encode_all [104; 105]) with [104; 105] by (vm_compute; reflexivity).
Qed.
(** Slots 0 and 4 hold the handle 1 and the offset 0. *)
Definition demo_locals : bytes := [1; 0; 0; 0] ++ replicate 12 0.
Definition demo_reader : reader := Reader [0; 0; 4; 0; 8; 0; 12; 0] 0.
Lemma demo_operands2 : operands demo_reader [0; 4] (Reader [0; 0; 4; 0; 8; 0; 12; 0] 4).
Proof. repeat (eexists; split; [reflexivity|]). reflexivity. Qed.
Lemma demo_operands4 : operands demo_reader [0; 4; 8; 12] (Reader [0; 0; 4; 0; 8; 0; 12; 0] 8).
Proof. repeat (eexists; split; [reflexivity|]). reflexivity. Qed.

Lemma OpConcat_str_spec_witness :
  ∃ st' locals' h k, OpConcat_str 9 1 demo_reader demo demo_locals
      = Ok (Reader [0; 0; 4; 0; 8; 0; 12; 0] 4, st', locals')
    ∧ in_use st' h ∧ reads st' h (encode_all [104; 105] ++ []) k.
Proof.
  destruct (OpConcat_str_spec 9 1 demo_reader _ demo demo_locals 0 4 1 0 _ [] 1 1 demo_vm_ok
    ltac:(vm_compute; lia) demo_operands2 eq_refl eq_refl ltac:(vm_compute; lia) demo_hi)
    as (st' & l & h & k & H1 & _ & H2 & H3 & _).
  - split; [left; lia|]. apply reads_none. reflexivity.
  - lia.
  - by exists st', l, h, k.
Defined.
Lemma foreach_code_points_witness :
  foreach_collect 3 9 demo_reader demo demo_locals 8 12 = Ok [104; 105].
Proof.
  apply (foreach_code_points 9 demo_reader _ demo demo_locals 0 4 8 12 1 [104; 105] [] 1
    demo_vm_ok demo_operands4).
  - split; vm_compute; lia.
  - rewrite app_nil_r. apply demo_hi.
  - lia.
  - reflexivity.
  - reflexivity.
  - vm_compute. reflexivity.
  - apply (bool_decide_unpack _). vm_compute. exact I.
  - constructor.
  - intros cp rest _ E. pose proof (Utf8Encode_pos cp). destruct (Utf8EncodeCodePoint cp); [simpl in *; lia|done].
Defined.
Lemma str_rel_code_points_witness :
  ∃ st' locals', OpLess_str 9 demo_reader demo demo_locals
      = Ok (Reader [0; 0; 4; 0; 8; 0; 12; 0] 4, st', locals') ∧ ld32 locals' 0 = Ok 0.
Proof.
  destruct (str_rel_code_points 9 (λ c, match c with Lt => true | _ => false end) demo_reader _ demo
    demo_locals 0 4 1 0 [104; 105] [] 1 1 demo_vm_ok demo_operands2 eq_refl eq_refl)
    as (st' & l & H1 & _ & _ & H2 & _).
  - vm_compute. lia.
  - apply (bool_decide_unpack _). vm_compute. exact I.
  - constructor.
  - apply demo_hi.
  - split; [left; lia|]. apply reads_none. reflexivity.
  - lia.
  - lia.
  - by exists st', l.
Defined.
