(* ===== verification/StringText.v ===== *)
(** * The text functions behind the string methods

    Models the byte-level work of [src/src/vm/IntrinsicsString.cpp], and what it uses of the
    C++ library ([std::string::find], [strtoll], [strtod] of the C locale): searching,
    splitting, replacing, trimming, case, parsing of numbers, decoding of one code point.
    Offsets are in bytes. *)
From Stdlib Require Import SpecFloat.
From S2P Require Import Prelude.
From S2P Require Import Package Prims Utf8.
Open Scope Z_scope.

(** ** Searching *)
(** [s.find(needle, pos)] *)
Fixpoint find_from (needle s : bytes) (pos : nat) : option nat :=
  if starts_with needle s then Some pos else
  match s with [] => None | _ :: s => find_from needle s (S pos) end.
Definition str_find (s needle : bytes) (pos : nat) : option nat :=
  if decide (pos ≤ length s)%nat then find_from needle (drop pos s) pos else None.
(** The prefix and suffix tests, with the size guard before [compare]. *)
Definition has_prefix (s prefix : bytes) : bool := bool_decide (length prefix ≤ length s)%nat && bool_decide (take (length prefix) s = prefix).
Definition has_suffix (s suffix : bytes) : bool :=
  bool_decide (length suffix ≤ length s)%nat && bool_decide (drop (length s - length suffix) s = suffix).

(** The loop of [split]; [s.substr(pos, n)] is [take n (drop pos s)]. *)
Fixpoint split_loop (fuel : nat) (s sep : bytes) (pos : nat) (parts : list bytes) : outcome (list bytes) :=
  match fuel with
  | O => Raise OutOfFuel
  | S fuel =>
      match str_find s sep pos with
      | None => Ok (parts ++ [drop pos s])
      | Some hit => split_loop fuel s sep (hit + length sep) (parts ++ [take (hit - pos) (drop pos s)])
      end
  end.
Definition split_text (s sep : bytes) : outcome (list bytes) := split_loop (S (length s)) s sep 0 [].
(** The loop of [replace]. *)
Fixpoint replace_loop (fuel : nat) (s oldStr newStr : bytes) (pos : nat) (out : bytes) : outcome bytes :=
  match fuel with
  | O => Raise OutOfFuel
  | S fuel =>
      match str_find s oldStr pos with
      | None => Ok (out ++ drop pos s)
      | Some hit => replace_loop fuel s oldStr newStr (hit + length oldStr) (out ++ take (hit - pos) (drop pos s) ++ newStr)
      end
  end.
Definition replace_text (s oldStr newStr : bytes) : outcome bytes := replace_loop (S (length s)) s oldStr newStr 0 [].

(** ** Case and white space *)
Definition ascii_upper (b : Z) : Z := if decide (97 ≤ b ≤ 122) then b - 97 + 65 else b.
Definition ascii_lower (b : Z) : Z := if decide (65 ≤ b ≤ 90) then b - 65 + 97 else b.
(** [isWs], and [std::isspace] of the C locale: the same six characters. *)
Definition isWs (b : Z) : bool := bool_decide (b = 32 ∨ b = 9 ∨ b = 10 ∨ b = 13 ∨ b = 12 ∨ b = 11).
(** The two loops of [trim]. *)
Fixpoint trim_front (s : bytes) : bytes :=
  match s with b :: s' => if isWs b then trim_front s' else s | [] => [] end.
Fixpoint trim_back (s : bytes) : bytes :=
  match s with
  | [] => []
  | b :: s => match trim_back s with [] => if isWs b then [] else [b] | t => b :: t end
  end.
Definition trim_text (s : bytes) : bytes := trim_back (trim_front s).

(** ** Numbers *)
(** The characters before the terminating NUL, which the first NUL of the text is. *)
Fixpoint c_str (s : bytes) : bytes :=
  match s with b :: s => if decide (b = 0) then [] else b :: c_str s | [] => [] end.
Fixpoint span (p : Z → bool) (s : bytes) : bytes * bytes :=
  match s with
  | b :: s' => if p b then let '(l, r) := span p s' in (b :: l, r) else ([], s)
  | [] => ([], [])
  end.
Definition is_digit (b : Z) : bool := bool_decide (48 ≤ b ≤ 57).
Definition digits_value (base : Z) (digit : Z → Z) (ds : bytes) : Z := foldl (λ v b, v * base + digit b) 0 ds.
Definition dec_digit (b : Z) : Z := b - 48.
Definition dec_value : bytes → Z := digits_value 10 dec_digit.
Definition read_sign (s : bytes) : bool * bytes :=
  match s with
  | b :: s' => if decide (b = 45) then (true, s') else if decide (b = 43) then (false, s') else (false, s)
  | [] => (false, [])
  end.
Definition signed (neg : bool) (v : Z) : Z := if neg then - v else v.
(** The value before the range test, and what is left ([None]: no conversion). *)
Definition strtoll (s : bytes) : option (Z * bytes) :=
  let '(neg, s) := read_sign (trim_front s) in
  let '(ds, r) := span is_digit s in
  if decide (ds = []) then None else Some (signed neg (dec_value ds), r).
(** The guard of every parser. *)
Definition bad_start (s : bytes) : bool := match s with [] => true | b :: _ => isWs b end.
(** A whole-text conversion without [ERANGE]. *)
Definition strict_int (s : bytes) : option Z :=
  if bad_start s then None else
  match strtoll (c_str s) with
  | Some (v, []) => if decide (is_sint 64 v) then Some v else None
  | _ => None
  end.

(** *** Floating point

    A correctly rounded [strtod]; [inf] and [nan], which the caller's test for finite
    values refuses, are no conversion here. *)
Definition is_hex (b : Z) : bool := is_digit b || bool_decide (97 ≤ b ≤ 102 ∨ 65 ≤ b ≤ 70).
Definition hex_digit (b : Z) : Z := if is_digit b then b - 48 else if decide (97 ≤ b) then b - 87 else b - 55.
(** The digits of a mantissa, how many of them follow the point, and the rest. *)
Definition read_mantissa (p : Z → bool) (s : bytes) : option (bytes * nat * bytes) :=
  let '(ip, r) := span p s in
  let '(fp, r) := match r with b :: r' => if decide (b = 46) then span p r' else ([], r) | [] => ([], r) end in
  if decide (ip ++ fp = []) then None else Some (ip ++ fp, length fp, r).
(** An exponent after one of [marks], if there is one. *)
Definition read_exponent (marks : list Z) (s : bytes) : Z * bytes :=
  match s with
  | b :: s' =>
      if decide (b ∈ marks) then
        let '(neg, s'') := read_sign s' in
        let '(ds, r) := span is_digit s'' in
        if decide (ds = []) then (0, s) else (signed neg (dec_value ds), r)
      else (0, s)
  | [] => (0, [])
  end.
(** The float nearest to [num / den], ties to even. *)
Definition nearest (f : format) (neg : bool) (num den : Z) : spec_float :=
  if decide (num = 0) then S754_zero neg else
  let '(q, e, l) := SFdiv_core_binary (f_prec f) (f_emax f) num 0 den 0 in
  binary_round_aux (f_prec f) (f_emax f) neg q e l.
Definition scaled (f : format) (neg : bool) (m base e : Z) : spec_float :=
  if decide (0 ≤ e) then nearest f neg (m * base ^ e) 1 else nearest f neg m (base ^ (- e)).
Definition strtod_decimal (f : format) (neg : bool) (s : bytes) : option (spec_float * bytes) :=
  '(ds, frac, r) ← read_mantissa is_digit s;
  let '(e, r) := read_exponent [101; 69] r in
  Some (scaled f neg (dec_value ds) 10 (e - Z.of_nat frac), r).
Definition strtod_hex (f : format) (neg : bool) (s : bytes) : option (spec_float * bytes) :=
  '(ds, frac, r) ← read_mantissa is_hex s;
  let '(e, r) := read_exponent [112; 80] r in
  Some (scaled f neg (digits_value 16 hex_digit ds) 2 (e - 4 * Z.of_nat frac), r).
Definition strtod (f : format) (s : bytes) : option (spec_float * bytes) :=
  let '(neg, s) := read_sign (trim_front s) in
  match s with
  | 48 :: x :: s' =>
      match (if decide (x = 120 ∨ x = 88) then strtod_hex f neg s' else None) with
      | Some r => Some r
      | None => strtod_decimal f neg s
      end
  | _ => strtod_decimal f neg s
  end.
Definition is_finite (x : spec_float) : bool := match x with S754_zero _ | S754_finite _ _ _ => true | _ => false end.
Definition strict_float (f : format) (s : bytes) : option Z :=
  if bad_start s then None else
  match strtod f (c_str s) with
  | Some (x, []) => if is_finite x then Some (bits_of_float f x) else None
  | _ => None
  end.

(** ** Code points *)
Definition kMinCp : list Z := [0; 0; 128; 2048; 65536].
(** [None] is the result -1; [s[i]] is read before any test. *)
Fixpoint push_conts (s : bytes) (i n : nat) (cp : Z) : option Z :=
  match n with
  | O => Some cp
  | S n =>
      match s !! i with
      | Some b => if decide (Z.land b 192 = 128) then push_conts s (i + 1) n (Z.lor (Z.shiftl cp 6) (Z.land b 63)) else None
      | None => None
      end
  end.
Definition DecodeCodePointAt (s : bytes) (i : nat) : outcome (option (Z * nat)) :=
  lead ← deref (s !! i);
  let finish (n : nat) (cp : Z) :=
    match push_conts s (i + 1) n cp with
    | Some cp => if decide (cp < default 0 (kMinCp !! (n + 1)%nat) ∨ 1114111 < cp ∨ 55296 ≤ cp ≤ 57343) then None else Some (cp, (n + 1)%nat)
    | None => None
    end in
  Ok (if lead <? 128 then finish 0%nat lead
      else if Z.land lead 224 =? 192 then finish 1%nat (Z.land lead 31)
      else if Z.land lead 240 =? 224 then finish 2%nat (Z.land lead 15)
      else if Z.land lead 248 =? 240 then finish 3%nat (Z.land lead 7)
      else None).
(** The loop of [charCount]; [inr i]: no code point starts at byte [i]. *)
Fixpoint count_loop (fuel : nat) (s : bytes) (i : nat) (count : Z) : outcome (Z + nat) :=
  if decide (length s ≤ i)%nat then Ok (inl count) else
  match fuel with
  | O => Raise OutOfFuel
  | S fuel =>
      r ← DecodeCodePointAt s i;
      match r with
      | Some (_, len) => count_loop fuel s (i + len) (i32 (count + 1))
      | None => Ok (inr i)
      end
  end.
Definition char_count (s : bytes) : outcome (Z + nat) := count_loop (length s) s 0 0.
