(* ===== verification/StringTextSpec.v ===== *)
(** * What the text functions compute

    Searching finds the first occurrence; splitting is the leftmost decomposition at the
    separator and replacing is splitting and joining; the number parsers accept exactly a
    grammar, up to the first NUL; the decoder of the string methods is the validator's. *)
From Stdlib Require Import SpecFloat.
From S2P Require Import Prelude.
From S2P Require Import Package Prims Utf8 StringText.
Open Scope Z_scope.

(** ** Occurrences *)
Lemma occurs_0 {A} (s bs : list A) : occurs s 0 bs ↔ ∃ post, s = bs ++ post.
Proof.
  split; [intros (pre & post & -> & E)|intros [post ->]; by exists [], post].
  destruct pre; [by exists post|done].
Qed.
Lemma occurs_S {A} b (s bs : list A) j : occurs (b :: s) (S j) bs ↔ occurs s j bs.
Proof.
  split.
  - intros ([|x pre] & post & E & Hj); [done|]. injection E as -> ->. injection Hj as ->. by exists pre, post.
  - intros (pre & post & -> & ->). by exists (b :: pre), post.
Qed.
Lemma occurs_prefix_iff {A} (pre s bs : list A) j : occurs (pre ++ s) (length pre + j) bs ↔ occurs s j bs.
Proof. induction pre as [|b pre IH]; [done|]. simpl. by rewrite occurs_S. Qed.
Lemma occurs_drop {A} (s bs : list A) pos j : (pos ≤ length s)%nat → occurs (drop pos s) j bs ↔ occurs s (pos + j) bs.
Proof.
  intros Hp. rewrite <- (take_drop pos s) at 2. rewrite <- (occurs_prefix_iff (take pos s)).
  by rewrite length_take_le.
Qed.
Lemma starts_with_occurs needle s : starts_with needle s = true ↔ occurs s 0 needle.
Proof.
  unfold starts_with. rewrite bool_decide_eq_true, occurs_0. split.
  - intros E. exists (drop (length needle) s). rewrite <- E at 1. by rewrite take_drop.
  - intros [post ->]. by rewrite take_app_length.
Qed.
(** What follows an occurrence is beyond the reach of a shorter one. *)
Lemma occurs_app_l {A} (a b bs : list A) j : (j + length bs ≤ length a)%nat → occurs (a ++ b) j bs ↔ occurs a j bs.
Proof.
  intros Hj. split; [|apply occurs_weaken]. intros (pre & post & E & ->).
  exists pre, (drop (length pre + length bs) a). split; [|done].
  assert (take (length pre + length bs) (a ++ b) = pre ++ bs) as Ht
    by (rewrite E, app_assoc, <- length_app; apply take_app_length).
  rewrite take_app_le in Ht by lia. by rewrite app_assoc, <- Ht, take_drop.
Qed.

(** ** Searching *)
Lemma find_from_spec needle s : ∀ k,
  match find_from needle s k with
  | Some i => ∃ j, i = (k + j)%nat ∧ occurs s j needle ∧ ∀ j', (j' < j)%nat → ¬ occurs s j' needle
  | None => ∀ j, ¬ occurs s j needle
  end.
Proof.
  induction s as [|b s IH]; intros k; cbn [find_from]; destruct (starts_with needle _) eqn:E.
  1,3: apply starts_with_occurs in E; exists 0%nat; split; [lia|]; split; [done|lia].
  - intros j Hj. assert (j = 0%nat) as -> by (apply occurs_length in Hj; simpl in Hj; lia).
    by apply starts_with_occurs in Hj; rewrite E in Hj.
  - assert (¬ occurs (b :: s) 0 needle) as H0 by (rewrite <- starts_with_occurs, E; done).
    specialize (IH (S k)). destruct (find_from needle s (S k)) as [i|].
    + destruct IH as (j & -> & Hj & Hmin). exists (S j). split; [lia|]. split; [by apply occurs_S|].
      intros [|j'] Hlt; [done|]. rewrite occurs_S. apply Hmin. lia.
    + intros [|j]; [done|]. rewrite occurs_S. apply IH.
Qed.
Lemma str_find_spec s needle pos : (pos ≤ length s)%nat →
  match str_find s needle pos with
  | Some i => (pos ≤ i)%nat ∧ occurs s i needle ∧ ∀ j, (pos ≤ j < i)%nat → ¬ occurs s j needle
  | None => ∀ j, (pos ≤ j)%nat → ¬ occurs s j needle
  end.
Proof.
  intros Hp. unfold str_find. rewrite decide_True by done. pose proof (find_from_spec needle (drop pos s) pos) as H.
  destruct (find_from needle (drop pos s) pos) as [i|].
  - destruct H as (j & -> & Hj & Hmin). split; [lia|]. split; [by apply occurs_drop|]. intros j' Hj'.
    replace j' with (pos + (j' - pos))%nat by lia. rewrite <- occurs_drop by done. apply Hmin. lia.
  - intros j Hj. replace j with (pos + (j - pos))%nat by lia. rewrite <- occurs_drop by done. apply H.
Qed.

(** ** Splitting and joining *)
Fixpoint join_text (sep : bytes) (parts : list bytes) : bytes :=
  match parts with [] => [] | [p] => p | p :: parts => p ++ sep ++ join_text sep parts end.
(** [parts] are cut out of a text at the separators met from the left: a part has no
    separator in it, and none that begins in it and ends in the separator that follows. *)
Fixpoint cut_leftmost (sep : bytes) (parts : list bytes) : Prop :=
  match parts with
  | [] => False
  | [p] => ∀ j, ¬ occurs p j sep
  | p :: parts => (∀ j, (j < length p)%nat → ¬ occurs (p ++ sep) j sep) ∧ cut_leftmost sep parts
  end.

Section split.
Context (sep : bytes) (Hsep : sep ≠ []).
Lemma sep_pos : (0 < length sep)%nat.
Proof. destruct sep; [done|simpl; lia]. Qed.

Lemma cut_first p rest parts : parts ≠ [] →
  (cut_leftmost sep (p :: parts) ↔ (∀ j, (j < length p)%nat → ¬ occurs (p ++ sep ++ rest) j sep) ∧ cut_leftmost sep parts).
Proof.
  intros Hne. destruct parts as [|q parts]; [done|]. cbn [cut_leftmost]. apply and_iff_compat_r. apply forall_proper. intros j.
  assert (∀ P Q R : Prop, (P → (Q ↔ R)) → ((P → ¬ Q) ↔ (P → ¬ R))) as Himp by tauto. apply Himp. intros Hj.
  rewrite app_assoc. symmetry. apply occurs_app_l. rewrite length_app. lia.
Qed.
Lemma join_cons p parts : parts ≠ [] → join_text sep (p :: parts) = p ++ sep ++ join_text sep parts.
Proof. by destruct parts. Qed.

(** The loop, from position [pos]. *)
Lemma split_loop_spec s fuel : ∀ pos parts, (pos ≤ length s)%nat → (length s - pos < fuel)%nat →
  ∃ qs, split_loop fuel s sep pos parts = Ok (parts ++ qs) ∧ qs ≠ [] ∧ join_text sep qs = drop pos s ∧ cut_leftmost sep qs
    ∧ ∀ new out, replace_loop fuel s sep new pos out = Ok (out ++ join_text new qs).
Proof.
  induction fuel as [|fuel IH]; intros pos parts Hp Hf; [lia|]. cbn [split_loop replace_loop].
  pose proof (str_find_spec s sep pos Hp) as H. destruct (str_find s sep pos) as [i|].
  - destruct H as (Hpi & Hocc & Hmin). pose proof (occurs_length _ _ _ Hocc) as Hl. pose proof sep_pos.
    destruct (IH (i + length sep)%nat (parts ++ [take (i - pos) (drop pos s)])) as (qs & E & Hq & Hj & Hc & Hr); [lia|lia|].
    set (p := take (i - pos) (drop pos s)) in *.
    assert (length p = (i - pos)%nat) as Hlp by (unfold p; rewrite length_take, length_drop; lia).
    assert (drop pos s = p ++ sep ++ drop (i + length sep) s) as Hd.
    { rewrite <- (take_drop (i - pos) (drop pos s)) at 1. fold p. f_equal. rewrite drop_drop.
      replace (pos + (i - pos))%nat with i by lia. rewrite <- (take_drop (length sep) (drop i s)) at 1.
      by rewrite (occurs_take_drop s i sep Hocc), drop_drop. }
    exists (p :: qs). rewrite E, <- app_assoc. split; [done|]. split; [done|]. split; [by rewrite join_cons, Hj|]. split.
    + rewrite (cut_first p (drop (i + length sep) s)) by done. split; [|done]. intros j Hjl. rewrite <- Hd, occurs_drop by done.
      apply Hmin. lia.
    + intros new out. rewrite Hr. f_equal. rewrite <- !app_assoc. f_equal. by destruct qs.
  - exists [drop pos s]. split; [done|]. split; [done|]. split; [done|]. split; [|done].
    intros j. rewrite occurs_drop by done. apply H. lia.
Qed.
(** There is one way to cut a text. *)
Lemma cut_unique ps : ∀ qs, join_text sep ps = join_text sep qs → cut_leftmost sep ps → cut_leftmost sep qs → ps = qs.
Proof.
  assert (∀ p rest q, p = q ++ sep ++ rest → ¬ ∀ j, ¬ occurs p j sep) as Hno.
  { intros p rest q -> H. apply (H (length q)). by exists q, rest. }
  assert (∀ p q r r', p ++ sep ++ r = q ++ sep ++ r' → (length q < length p)%nat →
    ¬ ∀ j, (j < length p)%nat → ¬ occurs (p ++ sep ++ r) j sep) as Hlt.
  { intros p q r r' E Hl H. apply (H (length q) Hl). rewrite E. by exists q, r'. }
  induction ps as [|p ps IH]; intros qs E Hp Hq; [done|]. destruct qs as [|q qs]; [done|].
  destruct (decide (ps = [])) as [->|Hps], (decide (qs = [])) as [->|Hqs].
  - simpl in E. by rewrite E.
  - rewrite (join_cons q) in E by done. by destruct (Hno p _ q E).
  - rewrite (join_cons p) in E by done. by destruct (Hno q _ p (eq_sym E)).
  - rewrite !join_cons in E by done. apply (cut_first _ (join_text sep ps)) in Hp as [Hp Cp]; [|done].
    apply (cut_first _ (join_text sep qs)) in Hq as [Hq Cq]; [|done].
    assert (length p = length q) as Hl.
    { destruct (lt_eq_lt_dec (length p) (length q)) as [[Hl|Hl]|Hl]; [|done|].
      - by destruct (Hlt q p _ _ (eq_sym E) Hl).
      - by destruct (Hlt p q _ _ E Hl). }
    apply app_inj_1 in E as [-> E]; [|done]. apply app_inv_head in E. f_equal. by apply IH.
Qed.

(** [split] and [replace] are total and mean what they say: the parts of a split are the
    only sequence that gives the text back when joined with the separator and is cut at
    the leftmost separators, and replacing is joining the parts with the new text instead. *)
Theorem split_replace_spec s : ∃ parts, split_text s sep = Ok parts ∧
  (∀ ps, ps = parts ↔ join_text sep ps = s ∧ cut_leftmost sep ps) ∧
  ∀ new, replace_text s sep new = Ok (join_text new parts).
Proof.
  destruct (split_loop_spec s (S (length s)) 0 []) as (qs & E & Hq & Hj & Hc & Hr); [lia|lia|].
  exists qs. split; [exact E|]. split.
  - intros ps. split; [intros ->; by split|]. intros [Ej Hcp]. apply cut_unique; [|done..]. by rewrite Ej, Hj.
  - intros new. apply (Hr new []).
Qed.
End split.

(** ** Numbers *)
Lemma span_spec p s l r : span p s = (l, r) ↔ s = l ++ r ∧ Forall (λ b, p b = true) l ∧ ∀ b, head r = Some b → p b = false.
Proof.
  revert l r. induction s as [|b s IH]; intros l r; simpl.
  - split; [intros [= <- <-]; by split_and!|]. intros (E & _ & _). symmetry in E. by apply app_nil in E as [-> ->].
  - destruct (p b) eqn:E.
    + destruct (span p s) as [l1 r1]. split.
      * intros [= <- <-]. destruct (proj1 (IH l1 r1) eq_refl) as (-> & Hl & Hr). split_and!; [done|by constructor|done].
      * intros (Es & Hl & Hr). destruct l as [|b' l]; simpl in Es.
        -- subst r. specialize (Hr b eq_refl). congruence.
        -- injection Es as -> ->. apply list.Forall_cons in Hl as [_ Hl].
           by injection (proj2 (IH l r) (conj eq_refl (conj Hl Hr))) as -> ->.
    + split; [intros [= <- <-]; split_and!; [done|done|by intros ? [= <-]]|].
      intros (Es & Hl & Hr). destruct l as [|b' l]; simpl in Es; [by subst|]. injection Es as -> ->.
      apply list.Forall_cons in Hl as [Hb _]. congruence.
Qed.
(** The texts of a number: a sign or none, then digits. *)
Definition sign_text (sgn : bytes) : Prop := sgn = [] ∨ sgn = [45] ∨ sgn = [43].
Definition digits (ds : bytes) : Prop := ds ≠ [] ∧ Forall (λ b, is_digit b = true) ds.
Lemma digit_range b : is_digit b = true ↔ 48 ≤ b ≤ 57.
Proof. apply bool_decide_eq_true. Qed.
Lemma digits_no_sign ds : digits ds → read_sign ds = (false, ds).
Proof.
  intros [Hne Hd]. destruct ds as [|b ds]; [done|]. apply list.Forall_cons in Hd as [Hb%digit_range _]. unfold read_sign.
  by rewrite !decide_False by lia.
Qed.
Lemma read_sign_spec s neg r : read_sign s = (neg, r) → ∃ sgn, sign_text sgn ∧ s = sgn ++ r ∧ neg = bool_decide (sgn = [45]).
Proof.
  unfold read_sign, sign_text. destruct s as [|b s]; [intros [= <- <-]; exists []; by auto|].
  destruct (decide (b = 45)) as [->|]; [intros [= <- <-]; exists [45]; by auto|].
  destruct (decide (b = 43)) as [->|]; intros [= <- <-]; [exists [43]|exists []]; by auto.
Qed.
Lemma c_str_head s b cs : c_str s = b :: cs → head s = Some b ∧ b ≠ 0.
Proof. destruct s as [|a s]; [done|]. cbn [c_str]. case_decide; [done|]. by intros [= <- <-]. Qed.
Lemma trim_front_id b s : isWs b = false → trim_front (b :: s) = b :: s.
Proof. simpl. by intros ->. Qed.
Lemma number_head sgn ds : sign_text sgn → digits ds → ∃ b cs, sgn ++ ds = b :: cs ∧ isWs b = false.
Proof.
  intros Hs [Hne Hd]. assert (∀ b, 43 ≤ b → isWs b = false) as Hw by (intros b Hb; apply bool_decide_eq_false; lia).
  destruct Hs as [->|[->| ->]]; [|by eexists _, _|by eexists _, _].
  destruct ds as [|b ds]; [done|]. apply list.Forall_cons in Hd as [Hb%digit_range _]. exists b, ds. split; [done|apply Hw; lia].
Qed.
Lemma strtoll_number sgn ds : sign_text sgn → digits ds →
  strtoll (sgn ++ ds) = Some (signed (bool_decide (sgn = [45])) (dec_value ds), []).
Proof.
  intros Hs Hd. unfold strtoll. destruct (number_head sgn ds Hs Hd) as (b & cs & E & Hb). rewrite E, trim_front_id, <- E by done.
  assert (span is_digit ds = (ds, [])) as Hsp by (apply span_spec; rewrite app_nil_r; by split_and!; [|apply Hd|]).
  assert (read_sign (sgn ++ ds) = (bool_decide (sgn = [45]), ds)) as ->.
  { destruct Hs as [->|[->| ->]]; [by apply digits_no_sign|done..]. }
  rewrite Hsp, decide_False by apply Hd. done.
Qed.

(** the strict integer parse accepts exactly the texts that are, up to their first NUL, an
    optional sign and decimal digits with a value of 64 bits, and gives that value: no white
    space, no trailing characters, no wrap-around. *)
Theorem strict_int_spec s v : strict_int s = Some v ↔
  ∃ sgn ds, c_str s = sgn ++ ds ∧ sign_text sgn ∧ digits ds ∧ v = signed (bool_decide (sgn = [45])) (dec_value ds) ∧ is_sint 64 v.
Proof.
  unfold strict_int. split.
  - destruct (bad_start s) eqn:Hb; [done|]. destruct (strtoll (c_str s)) as [[x [|? ?]]|] eqn:E; [|done..].
    case_decide as Hr; [|done]. intros [= <-]. unfold strtoll in E.
    assert (trim_front (c_str s) = c_str s) as Ht.
    { destruct (c_str s) as [|b cs] eqn:Ec; [done|]. apply trim_front_id. apply c_str_head in Ec as [Eh _].
      destruct s as [|a s]; [done|]. injection Eh as ->. exact Hb. }
    rewrite Ht in E. destruct (read_sign (c_str s)) as [neg r] eqn:Es. apply read_sign_spec in Es as (sgn & Hsgn & -> & ->).
    destruct (span is_digit r) as [ds r'] eqn:Esp. apply span_spec in Esp as (-> & Hds & _).
    case_decide; [done|]. injection E as <- ->. exists sgn, ds. rewrite app_nil_r. by split_and!.
  - intros (sgn & ds & Ec & Hs & Hd & -> & Hr). destruct (number_head sgn ds Hs Hd) as (b & cs & E & Hb).
    assert (bad_start s = false) as ->.
    { rewrite E in Ec. apply c_str_head in Ec as [Eh _]. destruct s as [|a s]; [done|]. by injection Eh as ->. }
    by rewrite Ec, strtoll_number, decide_True.
Qed.
(** Up to the first NUL only: what follows one is not looked at. *)
Lemma number_then_nul_accepted : strict_int [49; 50; 0; 120] = Some 12 ∧ strict_float binary32 [49; 0; 120] = strict_float binary32 [49].
Proof. by vm_compute. Qed.

(** *** The texts of floating-point numbers

    Of the C grammar: digits with at most one point among them, decimal or after [0x]
    hexadecimal, and an optional exponent, of ten or of two. *)
Definition mantissa_text (p : Z → bool) (s ds : bytes) (frac : nat) : Prop :=
  ∃ ip fp, (s = ip ++ 46 :: fp ∨ s = ip ∧ fp = []) ∧ ds = ip ++ fp ∧ ds ≠ [] ∧ frac = length fp ∧ Forall (λ b, p b = true) ds.
Definition exponent_text (marks : list Z) (s : bytes) (e : Z) : Prop :=
  s = [] ∧ e = 0 ∨
  ∃ mark sgn ds, s = mark :: sgn ++ ds ∧ mark ∈ marks ∧ sign_text sgn ∧ digits ds ∧ e = signed (bool_decide (sgn = [45])) (dec_value ds).
(** The text is the number without its sign, [x] its rounding to the format, as the C
    library does it ([scaled]). *)
Definition magnitude (f : format) (neg : bool) (s : bytes) (x : spec_float) : Prop :=
  ∃ ms es ds frac e,
    s = ms ++ es ∧ mantissa_text is_digit ms ds frac ∧ exponent_text [101; 69] es e ∧ x = scaled f neg (dec_value ds) 10 (e - Z.of_nat frac)
  ∨ (s = [48; 120] ++ ms ++ es ∨ s = [48; 88] ++ ms ++ es) ∧ mantissa_text is_hex ms ds frac ∧ exponent_text [112; 80] es e ∧
      x = scaled f neg (digits_value 16 hex_digit ds) 2 (e - 4 * Z.of_nat frac).
Definition float_text (f : format) (s : bytes) (x : spec_float) : Prop :=
  ∃ sgn r, sign_text sgn ∧ s = sgn ++ r ∧ magnitude f (bool_decide (sgn = [45])) r x.

Lemma span_all p l r : Forall (λ b, p b = true) l → (∀ b, head r = Some b → p b = false) → span p (l ++ r) = (l, r).
Proof. intros Hl Hr. by apply span_spec. Qed.
Section mantissa.
Context (p : Z → bool) (Hpoint : p 46 = false).
Lemma read_mantissa_sound s ds frac r : read_mantissa p s = Some (ds, frac, r) → ∃ ms, s = ms ++ r ∧ mantissa_text p ms ds frac.
Proof.
  unfold read_mantissa. destruct (span p s) as [ip r1] eqn:E1. apply span_spec in E1 as (-> & Hip & _).
  destruct r1 as [|b r2].
  - case_decide; [done|]. intros [= <- <- <-]. exists ip. split; [done|]. exists ip, []. rewrite app_nil_r in *.
    split; [by right|]. split_and!; done.
  - destruct (decide (b = 46)) as [->|].
    + destruct (span p r2) as [fp r3] eqn:E2. apply span_spec in E2 as (-> & Hfp & _). case_decide; [done|]. intros [= <- <- <-].
      exists (ip ++ 46 :: fp). split; [by rewrite <- app_assoc|]. exists ip, fp. split; [by left|]. split_and!; [done..|by apply Forall_app_2].
    + case_decide; [done|]. intros [= <- <- <-]. exists ip. split; [done|]. exists ip, []. rewrite app_nil_r in *.
      split; [by right|]. split_and!; done.
Qed.
Lemma read_mantissa_complete ms ds frac r : mantissa_text p ms ds frac → (∀ b, head r = Some b → p b = false ∧ b ≠ 46) →
  read_mantissa p (ms ++ r) = Some (ds, frac, r).
Proof.
  intros (ip & fp & Hms & -> & Hne & -> & [Hip Hfp]%list.Forall_app) Hr. unfold read_mantissa. destruct Hms as [->|[-> ->]].
  - rewrite <- app_assoc, span_all by (done || by intros b [= <-]). cbn [app]. rewrite decide_True by done.
    rewrite span_all by (done || intros b Hb; by apply Hr). by rewrite decide_False.
  - rewrite app_nil_r in *. rewrite span_all by (done || intros b Hb; by apply Hr). destruct r as [|b r]; [by rewrite app_nil_r, decide_False|].
    rewrite decide_False by (by apply Hr). by rewrite app_nil_r, decide_False.
Qed.
End mantissa.
Lemma read_sign_digits sgn ds : sign_text sgn → digits ds → read_sign (sgn ++ ds) = (bool_decide (sgn = [45]), ds).
Proof. intros [->|[->| ->]] Hd; [by apply digits_no_sign|done..]. Qed.
Lemma span_digits ds : digits ds → span is_digit ds = (ds, []).
Proof. intros [_ Hd]. rewrite <- (app_nil_r ds) at 1. by apply span_all. Qed.
Lemma read_exponent_sound marks s e : read_exponent marks s = (e, []) → exponent_text marks s e.
Proof.
  unfold read_exponent. destruct s as [|b s]; [intros [= <-]; by left|]. case_decide as Hm; [|done].
  destruct (read_sign s) as [neg r] eqn:Es. apply read_sign_spec in Es as (sgn & Hs & -> & ->).
  destruct (span is_digit r) as [ds r'] eqn:E. apply span_spec in E as (-> & Hd & _). case_decide; [done|]. intros [= <- ->].
  right. exists b, sgn, ds. rewrite app_nil_r. by split_and!.
Qed.
Lemma read_exponent_complete marks s e : exponent_text marks s e → read_exponent marks s = (e, []).
Proof.
  intros [[-> ->]|(b & sgn & ds & -> & Hm & Hs & Hd & ->)]; [done|]. unfold read_exponent.
  rewrite decide_True, read_sign_digits, span_digits by done. by rewrite decide_False by apply Hd.
Qed.
Lemma exponent_head marks s e b : exponent_text marks s e → head s = Some b → b ∈ marks.
Proof. intros [[-> _]|(m & ? & ? & -> & Hm & _)]; [done|]. by intros [= <-]. Qed.

Lemma hex_range b : is_hex b = true → 48 ≤ b.
Proof. unfold is_hex. rewrite orb_true_iff, digit_range, bool_decide_eq_true. lia. Qed.
Lemma mantissa_head p ms ds frac b : (∀ c, p c = true → 48 ≤ c) → mantissa_text p ms ds frac → head ms = Some b → b = 46 ∨ p b = true.
Proof.
  intros Hp (ip & fp & Hms & -> & Hne & _ & [Hip Hfp]%list.Forall_app) Hb. destruct ip as [|c ip].
  - destruct Hms as [->|[-> ->]]; [left; by injection Hb|done].
  - right. apply list.Forall_cons in Hip as [Hc _]. destruct Hms as [->|[-> ->]]; injection Hb as <-; exact Hc.
Qed.
Lemma mantissa_nonempty p ms ds frac : mantissa_text p ms ds frac → ms ≠ [].
Proof. intros (ip & fp & [->|[-> ->]] & -> & Hne & _) E; [by apply app_nil in E as [_ ?]|subst; done]. Qed.

Definition read_magnitude (f : format) (neg : bool) (s : bytes) : option (spec_float * bytes) :=
  match s with
  | 48 :: x :: s' =>
      match (if decide (x = 120 ∨ x = 88) then strtod_hex f neg s' else None) with
      | Some r => Some r
      | None => strtod_decimal f neg s
      end
  | _ => strtod_decimal f neg s
  end.
Lemma strtod_decimal_iff f neg s x : strtod_decimal f neg s = Some (x, []) ↔ ∃ ms es ds frac e,
  s = ms ++ es ∧ mantissa_text is_digit ms ds frac ∧ exponent_text [101; 69] es e ∧ x = scaled f neg (dec_value ds) 10 (e - Z.of_nat frac).
Proof.
  unfold strtod_decimal. split.
  - destruct (read_mantissa is_digit s) as [[[ds frac] r]|] eqn:E; [|done]. cbn [mbind option_bind].
    destruct (read_exponent _ r) as [e r'] eqn:Ee. intros [= <- ->]. apply read_mantissa_sound in E as (ms & -> & Hm).
    apply read_exponent_sound in Ee. by exists ms, r, ds, frac, e.
  - intros (ms & es & ds & frac & e & -> & Hm & He & ->). rewrite (read_mantissa_complete is_digit eq_refl ms ds frac es Hm).
    + cbn [mbind option_bind]. by rewrite (read_exponent_complete _ _ _ He).
    + intros b Hb%(exponent_head _ _ _ _ He). assert (b = 101 ∨ b = 69) as [->| ->] by set_solver; done.
Qed.
Lemma strtod_hex_iff f neg s x : strtod_hex f neg s = Some (x, []) ↔ ∃ ms es ds frac e,
  s = ms ++ es ∧ mantissa_text is_hex ms ds frac ∧ exponent_text [112; 80] es e ∧
  x = scaled f neg (digits_value 16 hex_digit ds) 2 (e - 4 * Z.of_nat frac).
Proof.
  unfold strtod_hex. split.
  - destruct (read_mantissa is_hex s) as [[[ds frac] r]|] eqn:E; [|done]. cbn [mbind option_bind].
    destruct (read_exponent _ r) as [e r'] eqn:Ee. intros [= <- ->]. apply read_mantissa_sound in E as (ms & -> & Hm).
    apply read_exponent_sound in Ee. by exists ms, r, ds, frac, e.
  - intros (ms & es & ds & frac & e & -> & Hm & He & ->). rewrite (read_mantissa_complete is_hex eq_refl ms ds frac es Hm).
    + cbn [mbind option_bind]. by rewrite (read_exponent_complete _ _ _ He).
    + intros b Hb%(exponent_head _ _ _ _ He). assert (b = 112 ∨ b = 80) as [->| ->] by set_solver; done.
Qed.

Lemma read_magnitude_strtod f s : strtod f s = let '(neg, s) := read_sign (trim_front s) in read_magnitude f neg s.
Proof. done. Qed.
Lemma exponent_chars s e : exponent_text [101; 69] s e → Forall (λ b, b ≠ 120 ∧ b ≠ 88) s.
Proof.
  intros [[-> _]|(m & sgn & ds & -> & Hm & Hs & [_ Hd] & _)]; [constructor|].
  constructor; [assert (m = 101 ∨ m = 69) by set_solver; lia|]. apply Forall_app_2.
  - destruct Hs as [->|[->| ->]]; by repeat constructor.
  - eapply list.Forall_impl; [exact Hd|]. intros b Hb%digit_range. lia.
Qed.
Lemma mantissa_chars ms ds frac : mantissa_text is_digit ms ds frac → Forall (λ b, b ≠ 120 ∧ b ≠ 88) ms.
Proof.
  assert (∀ l, Forall (λ b, is_digit b = true) l → Forall (λ b, b ≠ 120 ∧ b ≠ 88) l) as Hl.
  { intros l Hl. eapply list.Forall_impl; [exact Hl|]. intros b Hb%digit_range. lia. }
  intros (ip & fp & Hms & -> & _ & _ & [Hip Hfp]%list.Forall_app). destruct Hms as [->|[-> _]]; [|by apply Hl].
  apply Forall_app_2; [by apply Hl|]. constructor; [lia|by apply Hl].
Qed.
Lemma read_magnitude_iff f neg s x : read_magnitude f neg s = Some (x, []) ↔ magnitude f neg s x.
Proof.
  assert (∀ m s', m ∈ [120; 88] → read_magnitude f neg (48 :: m :: s') =
    match strtod_hex f neg s' with Some r => Some r | None => strtod_decimal f neg (48 :: m :: s') end) as Hhex.
  { intros m s' Hm. cbn [read_magnitude]. rewrite decide_True; [done|]. set_solver. }
  assert ((∀ m s', m ∈ [120; 88] → s ≠ 48 :: m :: s') → read_magnitude f neg s = strtod_decimal f neg s) as Hdec.
  { intros Hs. unfold read_magnitude. destruct s as [|b [|m s']]; try done; repeat case_match; try done; subst.
    all: case_decide; [|done]; exfalso; eapply Hs; [|reflexivity]; set_solver. }
  assert ((∃ m s', m ∈ [120; 88] ∧ s = 48 :: m :: s') ∨ ∀ m s', m ∈ [120; 88] → s ≠ 48 :: m :: s') as [(m & s' & Hm & ->)|Hs].
  { destruct s as [|b [|m s']]; [by right..|]. destruct (decide (b = 48 ∧ m ∈ [120; 88])) as [[-> ?]|H]; [left; by exists m, s'|].
    right. intros m' s'' ? [= -> -> _]. by apply H. }
  - rewrite Hhex by done. split.
    + destruct (strtod_hex f neg s') as [r|] eqn:E.
      * intros [= ->]. apply strtod_hex_iff in E as (ms & es & ds & frac & e & -> & ?). exists ms, es, ds, frac, e. right.
        split; [|done]. assert (m = 120 ∨ m = 88) as [->| ->] by set_solver; by auto.
      * intros (ms & es & ds & frac & e & ?)%strtod_decimal_iff. exists ms, es, ds, frac, e. by left.
    + intros (ms & es & ds & frac & e & [(Es & Hms & Hes & _)|(Hs' & H)]).
      * exfalso. assert (Forall (λ b, b ≠ 120 ∧ b ≠ 88) (48 :: m :: s')) as Hall.
        { rewrite Es. apply Forall_app_2; [by eapply mantissa_chars|by eapply exponent_chars]. }
        apply list.Forall_cons in Hall as [_ Hall]. apply list.Forall_cons in Hall as [? _]. assert (m = 120 ∨ m = 88) by set_solver. lia.
      * assert (s' = ms ++ es) as Es by (by destruct Hs' as [[= _ ->]|[= _ ->]]).
        by rewrite (proj2 (strtod_hex_iff f neg s' x)) by (by exists ms, es, ds, frac, e).
  - rewrite Hdec, strtod_decimal_iff by done. unfold magnitude. split; [naive_solver|].
    intros (ms & es & ds & frac & e & [H|(Hs' & _)]); [by exists ms, es, ds, frac, e|].
    exfalso. destruct Hs' as [E|E]; eapply Hs; [|exact E|..|exact E]; set_solver.
Qed.
Lemma magnitude_head f neg s x : magnitude f neg s x → ∃ b cs, s = b :: cs ∧ (b = 46 ∨ 48 ≤ b).
Proof.
  intros (ms & es & ds & frac & e & [(-> & Hm & _)|([->| ->] & _)]); [|eexists _, _; split; [done|lia]..].
  pose proof (mantissa_nonempty _ _ _ _ Hm). destruct ms as [|b ms]; [done|]. exists b, (ms ++ es). split; [done|].
  destruct (mantissa_head is_digit _ _ _ b (λ c Hc, proj1 (proj1 (digit_range c) Hc)) Hm eq_refl) as [?|?%digit_range]; lia.
Qed.
Lemma c_str_no_nul s : 0 ∉ s → c_str s = s.
Proof. induction s as [|b s IH]; intros H; [done|]. cbn [c_str]. rewrite decide_False by set_solver. rewrite IH by set_solver. done. Qed.

(** [strtod] reads a text that does not start with white space to its end exactly when it is
    a number of the grammar. *)
Lemma float_text_iff f s x : float_text f s x ↔ bad_start s = false ∧ strtod f s = Some (x, []).
Proof.
  rewrite read_magnitude_strtod. split.
  - intros (sgn & r & Hs & -> & Hr). destruct (magnitude_head _ _ _ _ Hr) as (b & cs & -> & Hb).
    assert (isWs b = false) as Hw by (apply bool_decide_eq_false; lia).
    assert (read_sign (sgn ++ b :: cs) = (bool_decide (sgn = [45]), b :: cs)) as Hsign.
    { destruct Hs as [->|[->| ->]]; [|done..]. cbn [app read_sign]. by rewrite !decide_False by lia. }
    assert (bad_start (sgn ++ b :: cs) = false ∧ trim_front (sgn ++ b :: cs) = sgn ++ b :: cs) as [-> ->].
    { destruct Hs as [->|[->| ->]]; [|done..]. split; [done|by apply trim_front_id]. }
    by rewrite Hsign, (proj2 (read_magnitude_iff _ _ _ _) Hr).
  - intros [Hb H]. destruct s as [|b s]; [done|]. rewrite trim_front_id in H by done.
    destruct (read_sign (b :: s)) as [neg r] eqn:Es. apply read_sign_spec in Es as (sgn & Hs & -> & ->).
    apply read_magnitude_iff in H. by exists sgn, r.
Qed.
(** the strict float parse of a text without NUL accepts exactly the numbers of the grammar,
    nothing before or after them, whose rounding is finite, and gives its bits. *)
Lemma strict_float_spec f s v : 0 ∉ s → strict_float f s = Some v ↔
  ∃ x, float_text f s x ∧ is_finite x = true ∧ v = bits_of_float f x.
Proof.
  intros Hnul. unfold strict_float. rewrite c_str_no_nul by done. setoid_rewrite float_text_iff. split.
  - destruct (bad_start s); [done|]. destruct (strtod f s) as [[x [|]]|]; [|done..]. destruct (is_finite x) eqn:Hf; [|done].
    intros [= <-]. by exists x.
  - intros (x & [-> ->] & -> & ->). done.
Qed.

(** ** Trimming and case *)
Lemma trim_front_spec s : ∃ l, s = l ++ trim_front s ∧ Forall (λ b, isWs b = true) l ∧ ∀ b, head (trim_front s) = Some b → isWs b = false.
Proof.
  induction s as [|b s (l & E & Hl & Hh)]; [by exists []|]. simpl. destruct (isWs b) eqn:Hb.
  - exists (b :: l). split; [by rewrite E at 1|]. by split; [constructor|].
  - exists []. split_and!; [done..|]. by intros ? [= <-].
Qed.
Lemma trim_back_spec s : ∃ r, s = trim_back s ++ r ∧ Forall (λ b, isWs b = true) r ∧ ∀ b, list.last (trim_back s) = Some b → isWs b = false.
Proof.
  induction s as [|b s (r & E & Hr & Hl)]; [by exists []|]. cbn [trim_back]. destruct (trim_back s) as [|c t].
  - destruct (isWs b) eqn:Hb.
    + exists (b :: r). simpl in E. rewrite <- E. by split_and!; [|constructor; [|rewrite E]|].
    + exists r. simpl in E. rewrite <- E. split_and!; [done|by rewrite E|]. by intros ? [= <-].
  - exists r. split; [by rewrite E at 1|]. by split.
Qed.
Lemma trim_back_head s b : head (trim_back s) = Some b → head s = Some b.
Proof. destruct s as [|c s]; [done|]. cbn [trim_back]. destruct (trim_back s); [destruct (isWs c)|]; simpl; congruence. Qed.
(** Trimming removes white space from both ends, all of it, and nothing else. *)
Theorem trim_text_spec s : ∃ l r, s = l ++ trim_text s ++ r ∧ Forall (λ b, isWs b = true) (l ++ r) ∧
  (∀ b, head (trim_text s) = Some b → isWs b = false) ∧ ∀ b, list.last (trim_text s) = Some b → isWs b = false.
Proof.
  destruct (trim_front_spec s) as (l & E & Hl & Hh), (trim_back_spec (trim_front s)) as (r & E' & Hr & Hlast).
  exists l, r. unfold trim_text. rewrite <- E'. split; [exact E|]. split; [by apply Forall_app_2|]. split; [|exact Hlast].
  intros b Hb%trim_back_head. by apply Hh.
Qed.

(** Case conversion touches ASCII letters only, so it maps text to text. *)
Theorem case_keeps_text f cps : f = ascii_upper ∨ f = ascii_lower → Forall scalar cps →
  f <$> encode_all cps = encode_all (f <$> cps) ∧ Forall scalar (f <$> cps).
Proof.
  intros Hf Hs. assert (∀ b, 128 ≤ b → f b = b) as Hbig
    by (intros b Hb; destruct Hf as [->| ->]; [apply decide_False|apply decide_False]; lia).
  assert (∀ b, 0 ≤ b < 128 → 0 ≤ f b < 128) as Hsmall.
  { intros b Hb. destruct Hf as [->| ->]; [unfold ascii_upper|unfold ascii_lower]; case_decide; lia. }
  induction Hs as [|cp cps [Hr Hsur] _ [IH IHs]]; [done|]. rewrite fmap_cons, !encode_all_cons, fmap_app, IH.
  destruct (Z.ltb_spec cp 128).
  - pose proof (Hsmall cp ltac:(lia)). rewrite !Utf8EncodeCodePoint_spec by lia.
    rewrite !(proj2 (Z.ltb_lt _ 128)) by lia. split; [done|]. constructor; [|done]. split; lia.
  - rewrite (Hbig cp) by done. split; [|by constructor]. f_equal. rewrite <- (list_fmap_id (Utf8EncodeCodePoint cp)) at 2.
    apply list_fmap_ext. intros i b Hi. unfold id. apply Hbig. rewrite Utf8EncodeCodePoint_spec in Hi by done.
    rewrite (proj2 (Z.ltb_ge cp 128)) in Hi by done. apply list_elem_of_lookup_2 in Hi.
    pose proof (Z.mod_pos_bound cp 64). pose proof (Z.mod_pos_bound (cp / 64) 64). pose proof (Z.mod_pos_bound (cp / 4096) 64).
    assert (0 ≤ cp / 4096 ∧ 0 ≤ cp / 262144 ∧ 0 ≤ cp / 64) as (? & ? & ?) by (split_and!; apply Z.div_pos; lia).
    destruct (Z.ltb_spec cp 2048), (Z.ltb_spec cp 65536);
      repeat (apply elem_of_cons in Hi as [->|Hi]; [lia|]); by apply elem_of_nil in Hi.
Qed.

(** ** Decoding *)
Lemma push_group_wide cp b : 0 ≤ cp → cp * 64 < 2 ^ 32 → Z.lor (Z.shiftl cp 6) (Z.land b 63) = push_group cp b.
Proof.
  intros H0 H. unfold push_group. rewrite Z.shiftl_mul_pow2 by lia. by rewrite (wrap_small 32) by (split; lia).
Qed.
Lemma push_group_bound cp b n : is_byte b → 0 ≤ cp → (cp + 1) * 64 ^ Z.of_nat (S n) ≤ 2 ^ 26 → is_cont b = true →
  0 ≤ push_group cp b ∧ (push_group cp b + 1) * 64 ^ Z.of_nat n ≤ 2 ^ 26.
Proof.
  intros Hb H0 H Hc. assert (cp * 64 < 2 ^ 26).
  { rewrite Nat2Z.inj_succ, Z.pow_succ_r in H by lia. assert (1 ≤ 64 ^ Z.of_nat n) by (apply (Z.pow_le_mono_r 64 0); lia). nia. }
  rewrite is_cont_spec in Hc by done. unfold cont_range in Hc.
  rewrite push_group_spec by (done || lia). rewrite Nat2Z.inj_succ, Z.pow_succ_r in H by lia.
  assert (0 < 64 ^ Z.of_nat n) by (apply Z.pow_pos_nonneg; lia). split; [lia|nia].
Qed.
Lemma push_conts_spec s n : Forall is_byte s → ∀ i cp, (i ≤ length s)%nat → 0 ≤ cp → (cp + 1) * 64 ^ Z.of_nat n ≤ 2 ^ 26 →
  push_conts s i n cp =
    if decide (length s < i + n)%nat then None
    else if forallb is_cont (take n (drop i s)) then Some (foldl push_group cp (take n (drop i s))) else None.
Proof.
  intros Hs. induction n as [|n IH]; intros i cp Hi H0 Hcp; cbn [push_conts].
  { by rewrite decide_False by lia. }
  destruct (s !! i) as [b|] eqn:Hb; [|apply lookup_ge_None in Hb; by rewrite decide_True by lia].
  apply lookup_lt_Some in Hb as Hlt. rewrite (drop_S s b i Hb). cbn [take forallb foldl].
  assert (is_byte b) as Hbyte by (eapply list.Forall_lookup_1; done).
  unfold is_cont at 1. destruct (Z.land b 192 =? 128) eqn:Hc.
  - apply Z.eqb_eq in Hc as Hc'. rewrite decide_True by done.
    destruct (push_group_bound cp b n Hbyte H0 Hcp) as [P0 P1]; [done|].
    rewrite push_group_wide; [|done|].
    + rewrite IH by (done || lia). replace (i + 1)%nat with (S i) by lia. replace (S i + n)%nat with (i + S n)%nat by lia. done.
    + rewrite Nat2Z.inj_succ, Z.pow_succ_r in Hcp by lia. assert (1 ≤ 64 ^ Z.of_nat n) by (apply (Z.pow_le_mono_r 64 0); lia). nia.
  - apply Z.eqb_neq in Hc. rewrite decide_False by done. simpl. by case_decide.
Qed.
(** The decoder of the string methods is the validator's. *)
Theorem DecodeCodePointAt_spec s i : Forall is_byte s → (i < length s)%nat → DecodeCodePointAt s i = Ok (decode1 (drop i s)).
Proof.
  intros Hs Hi. destruct (lookup_lt_is_Some_2 s i Hi) as [b Hb]. assert (is_byte b) as Hbyte by (eapply list.Forall_lookup_1; done).
  unfold DecodeCodePointAt. rewrite Hb, derefE, bindE, (drop_S s b i Hb), decode1_unfold. cbv zeta. f_equal. rewrite length_drop.
  assert (∀ n cp, 0 ≤ cp → (cp + 1) * 64 ^ Z.of_nat n ≤ 2 ^ 26 → lead_bits (S n) b = cp →
    match push_conts s (i + 1) n cp with
    | Some cp => if decide (cp < default 0 (kMinCp !! (n + 1)%nat) ∨ 1114111 < cp ∨ 55296 ≤ cp ≤ 57343) then None else Some (cp, (n + 1)%nat)
    | None => None
    end =
    if decide (S n = 0 ∨ S (length s - S i) < S n)%nat then None
    else if forallb is_cont (take (S n - 1) (drop (S i) s)) then in_form (S n) (foldl push_group (lead_bits (S n) b) (take (S n - 1) (drop (S i) s)))
    else None) as Hn.
  { intros n cp H0 H1 ->. rewrite push_conts_spec by (done || lia). replace (i + 1)%nat with (S i) by lia.
    replace (S n - 1)%nat with n by lia. destruct (decide (length s < S i + n)%nat); [by rewrite decide_True by (right; lia)|].
    rewrite decide_False by lia. destruct (forallb is_cont _); [|done]. set (v := foldl _ _ _). replace (n + 1)%nat with (S n) by lia.
    unfold in_form. assert (bad_range (S n) v = bool_decide (v < kFloor (S n) ∨ 1114111 < v ∨ 55296 ≤ v ≤ 57343)) as ->
      by (unfold bad_range; case_bool_decide; lia). unfold kFloor. change kMinCp with [0; 0; 128; 2048; 65536].
    case_bool_decide; [by rewrite decide_True|by rewrite decide_False]. }
  unfold SequenceLength. pose proof (land_mod 5 b) as L5. pose proof (land_mod 4 b) as L4. pose proof (land_mod 3 b) as L3.
  change (2 ^ 5 - 1) with 31 in L5. change (2 ^ 4 - 1) with 15 in L4. change (2 ^ 3 - 1) with 7 in L3.
  pose proof (Z.mod_pos_bound b (2 ^ 5)). pose proof (Z.mod_pos_bound b (2 ^ 4)). pose proof (Z.mod_pos_bound b (2 ^ 3)).
  unfold is_byte in Hbyte. destruct (Z.ltb_spec b 128); [apply Hn; [lia|simpl; lia|done]|].
  destruct (_ =? 192); [apply Hn; [lia|simpl; lia|done]|]. destruct (_ =? 224); [apply Hn; [lia|simpl; lia|done]|].
  destruct (_ =? 240); [apply Hn; [lia|simpl; lia|done]|]. by rewrite decide_True by (by left).
Qed.

Lemma encode_all_app a b : encode_all (a ++ b) = encode_all a ++ encode_all b.
Proof. induction a as [|x a IH]; [done|]. simpl. by rewrite !encode_all_cons, IH, app_assoc. Qed.
Lemma length_encode_all cps : (length cps ≤ length (encode_all cps))%nat.
Proof. induction cps as [|cp cps IH]; [done|]. rewrite encode_all_cons, length_app. pose proof (Utf8Encode_pos cp). simpl. lia. Qed.
Lemma count_loop_spec rest : Forall is_byte rest → decode1 rest = None → ∀ post pre fuel,
  Forall scalar post → (length (encode_all post ++ rest) ≤ fuel)%nat → Z.of_nat (length (pre ++ post)) ≤ INT32_MAX →
  Forall is_byte (encode_all pre) →
  count_loop fuel (encode_all pre ++ encode_all post ++ rest) (length (encode_all pre)) (Z.of_nat (length pre)) =
    Ok (if decide (rest = []) then inl (Z.of_nat (length (pre ++ post))) else inr (length (encode_all (pre ++ post)))).
Proof.
  intros Hr Hd. induction post as [|cp post IH]; intros pre fuel Hs Hf Hmax Hpre.
  - change (encode_all [] ++ rest) with rest in *. rewrite app_nil_r. destruct rest as [|b rest].
    + rewrite app_nil_r, decide_True by done. destruct fuel; cbn [count_loop]; by rewrite decide_True.
    + rewrite (decide_False (P := b :: rest = [])) by done. destruct fuel as [|fuel]; [simpl in Hf; lia|]. cbn [count_loop].
      rewrite decide_False by (rewrite length_app; simpl; lia).
      rewrite DecodeCodePointAt_spec by (first [by apply Forall_app_2|rewrite length_app; simpl; lia]).
      by rewrite bindE, drop_app_length, Hd.
  - apply list.Forall_cons in Hs as [Hcp Hs]. rewrite encode_all_cons, <- app_assoc in *. pose proof (Utf8Encode_pos cp) as Hpos.
    assert (Forall is_byte (encode_all post ++ rest)) as Hb by (apply Forall_app_2; [by apply encode_all_bytes|done]).
    assert (Forall is_byte (Utf8EncodeCodePoint cp)) as Hbc by (destruct Hcp; by apply Utf8Encode_bytes).
    destruct fuel as [|fuel]; [rewrite length_app in Hf; lia|]. cbn [count_loop].
    rewrite decide_False by (rewrite !length_app; lia).
    rewrite DecodeCodePointAt_spec; [|apply Forall_app_2; [done|by apply Forall_app_2]|rewrite !length_app; lia].
    rewrite bindE, drop_app_length, decode1_encode by done.
    assert (encode_all pre ++ Utf8EncodeCodePoint cp = encode_all (pre ++ [cp])) as Hpc
      by (rewrite encode_all_app; f_equal; unfold encode_all; simpl; by rewrite app_nil_r).
    rewrite <- length_app, (app_assoc (encode_all pre)), Hpc.
    assert (i32 (Z.of_nat (length pre) + 1) = Z.of_nat (length (pre ++ [cp]))) as ->.
    { rewrite length_app in *. simpl in *. rewrite swrap_small; [lia|lia|]. unfold is_sint, INT32_MAX in *. simpl. lia. }
    rewrite IH; [by rewrite <- !app_assoc|done|rewrite length_app in Hf; lia|by rewrite <- app_assoc|].
    rewrite <- Hpc. by apply Forall_app_2.
Qed.
(** counting code points agrees with the source contract: [charCount] of a valid text is
    its number of code points, and of any other text the byte at which validation stops. *)
Theorem char_count_spec s : Forall is_byte s → Z.of_nat (length s) ≤ INT32_MAX →
  ∃ j cps, Utf8FirstInvalid s = Ok j ∧ Forall scalar cps ∧ take j s = encode_all cps ∧
    char_count s = Ok (if decide (j = length s) then inl (Z.of_nat (length cps)) else inr j).
Proof.
  intros Hs Hmax. destruct (Utf8FirstInvalid_aux s Hs) as (j & cps & E & Hj & Hc & Ht & Hd). exists j, cps.
  split; [done|]. split; [done|]. split; [done|]. assert (s = encode_all cps ++ drop j s) as Es by (by rewrite <- Ht, take_drop).
  assert (decode1 (drop j s) = None) as Hn by (destruct Hd as [->|]; [by rewrite drop_ge|done]).
  pose proof (length_encode_all cps) as Hl. assert (length (encode_all cps) = j) as Hlj by (rewrite <- Ht; by apply length_take_le).
  unfold char_count. pose proof (count_loop_spec (drop j s) ltac:(by apply Forall_drop) Hn cps [] (length s) Hc) as H.
  rewrite <- Es in H.
  trans (count_loop (length s) (encode_all [] ++ s) (length (encode_all [])) (Z.of_nat (length (@nil Z)))); [done|].
  rewrite H; [|done|simpl; lia|constructor]. rewrite app_nil_l, Hlj. f_equal.
  assert (drop j s = [] ↔ j = length s) as Hz.
  { split; [|intros ->; by rewrite drop_ge]. intros D. apply (f_equal length) in D. rewrite length_drop in D. simpl in D. lia. }
  destruct (decide (drop j s = [])), (decide (j = length s)); tauto || done.
Qed.
