(* ===== verification/Layout.v ===== *)
(** * Class instance layout

    Models [src/src/vm/VmClassLayout.h/.cpp]: the per-class field view that joins
    the superclass chain base-first.  Allocation, the collector and field access
    take field offsets from it. *)
From S2P Require Import Prelude.
Open Scope Z_scope.

(** The parts of [CompiledClass] the layout reads. *)
Record CompiledClass := MkClass {
  fieldCount : nat;
  superClassIdx : Z;
  fieldNames : list string;
  fieldTypeKinds : list Z;
  fieldStructIndices : list Z;
  fieldClassIndices : list Z
}.
Record Entry := MkEntry { name : string; kind : Z; structIdx : Z; classIdx : Z }.

Definition corrupt_chain : vm_error := RuntimeError "NLang runtime: corrupt class super chain".

(** The [while (true)] walk.  The head of [chain] is its back, so the result is
    already base-first.  A pass either ends the walk or extends the chain, whose
    length is bounded by the class count. *)
Fixpoint collect_chain (fuel : nat) (classes : list CompiledClass) (cur : Z) (chain : list Z)
    : outcome (list Z) :=
  match fuel with
  | O => Raise OutOfFuel
  | S fuel =>
      match classes !!z cur with
      | None => Raise corrupt_chain
      | Some cc =>
          if decide (length classes ≤ length chain)%nat then Raise corrupt_chain
          else
            let chain := cur :: chain in
            if decide (superClassIdx cc < 0) then Ok chain
            else collect_chain fuel classes (superClassIdx cc) chain
      end
  end.

Definition own_entry (cc : CompiledClass) (i : nat) : outcome Entry :=
  n ← deref (fieldNames cc !! i);
  k ← deref (fieldTypeKinds cc !! i);
  s ← deref (fieldStructIndices cc !! i);
  c ← deref (fieldClassIndices cc !! i);
  Ok (MkEntry n k s c).
(** The two nested [for] loops: append the own fields of each class of the chain. *)
Definition append_own (classes : list CompiledClass) (out : list Entry) (c : Z) : outcome (list Entry) :=
  cc ← deref (classes !!z c);
  foldM (λ out i, e ← own_entry cc i; Ok (out ++ [e])) out (seq 0 (fieldCount cc)).

Definition class_fields (classes : list CompiledClass) (c : Z) : outcome (list Entry) :=
  chain ← collect_chain (S (length classes)) classes c [];
  foldM (append_own classes) [] chain.

Definition Build (classes : list CompiledClass) : outcome (list (list Entry)) :=
  foldM (λ per c, out ← class_fields classes (Z.of_nat c); Ok (per ++ [out])) []
        (seq 0 (length classes)).
Definition Fields (perClass : list (list Entry)) (c : Z) : outcome (list Entry) :=
  deref (perClass !!z c).

(** ** Own fields *)
Definition own_fields (cc : CompiledClass) : list Entry :=
  zip_with (λ '(n, k) '(s, c), MkEntry n k s c)
    (zip (take (fieldCount cc) (fieldNames cc)) (fieldTypeKinds cc))
    (zip (fieldStructIndices cc) (fieldClassIndices cc)).

(** Record vectors as long as the field count, as the loader ensures. *)
Record class_ok (cc : CompiledClass) : Prop := {
  co_names : length (fieldNames cc) = fieldCount cc;
  co_kinds : length (fieldTypeKinds cc) = fieldCount cc;
  co_structs : length (fieldStructIndices cc) = fieldCount cc;
  co_classes : length (fieldClassIndices cc) = fieldCount cc
}.

Lemma own_entry_ok cc i :
  class_ok cc → (i < fieldCount cc)%nat →
  ∃ e, own_entry cc i = Ok e ∧ own_fields cc !! i = Some e.
Proof.
  intros [H1 H2 H3 H4] Hi. unfold own_entry, own_fields.
  destruct (lookup_lt_is_Some_2 (fieldNames cc) i) as [n Hn]; [lia|].
  destruct (lookup_lt_is_Some_2 (fieldTypeKinds cc) i) as [k Hk]; [lia|].
  destruct (lookup_lt_is_Some_2 (fieldStructIndices cc) i) as [s Hs]; [lia|].
  destruct (lookup_lt_is_Some_2 (fieldClassIndices cc) i) as [c Hc]; [lia|].
  rewrite Hn, Hk, Hs, Hc. simpl. eexists. split; [done|].
  rewrite take_ge by lia. apply lookup_zip_with_Some. exists (n, k), (s, c).
  split; [done|]. split; apply lookup_zip_with_Some; [by exists n, k|by exists s, c].
Qed.

Lemma own_fields_length cc : class_ok cc → length (own_fields cc) = fieldCount cc.
Proof.
  intros [H1 H2 H3 H4]. unfold own_fields.
  rewrite length_zip_with, !length_zip, length_take. lia.
Qed.

Lemma append_own_ok classes c cc out :
  classes !!z c = Some cc → class_ok cc → append_own classes out c = Ok (out ++ own_fields cc).
Proof.
  intros Hc Hok. unfold append_own. rewrite Hc, derefE, bindE.
  rewrite (foldM_append (own_entry cc) (λ i, default (MkEntry "" 0 0 0) (own_fields cc !! i))).
  - f_equal. f_equal. apply list_eq. intros i. rewrite list_lookup_fmap.
    destruct (decide (i < fieldCount cc)%nat).
    + rewrite lookup_seq_lt by done. simpl.
      destruct (own_entry_ok cc i Hok) as (e & _ & He); [done|]. by rewrite He.
    + rewrite lookup_seq_ge by lia. rewrite lookup_ge_None_2; [done|].
      rewrite own_fields_length by done. lia.
  - intros i Hi%elem_of_seq. destruct (own_entry_ok cc i Hok) as (e & He & He'); [lia|].
    by rewrite He, He'.
Qed.

(** ** The chain *)
(** [chain_to classes c l]: [l] is the superclass chain of [c], base first. *)
Inductive chain_to (classes : list CompiledClass) : Z → list Z → Prop :=
  | chain_root c cc : classes !!z c = Some cc → superClassIdx cc < 0 → chain_to classes c [c]
  | chain_link c cc l : classes !!z c = Some cc → 0 ≤ superClassIdx cc →
      chain_to classes (superClassIdx cc) l → chain_to classes c (l ++ [c]).

Lemma chain_to_det classes c l : chain_to classes c l → ∀ l', chain_to classes c l' → l = l'.
Proof.
  induction 1 as [c cc Hc Hs|c cc l Hc Hs _ IH]; intros l' H'; inversion H'; simplify_eq; try lia; [done|].
  f_equal. by apply IH.
Qed.

Lemma collect_chain_spec classes c l :
  chain_to classes c l → ∀ fuel acc,
  (length l < fuel)%nat → (length acc + length l ≤ length classes)%nat →
  collect_chain fuel classes c acc = Ok (l ++ acc).
Proof.
  induction 1 as [c cc Hc Hs|c cc l Hc Hs _ IH]; intros fuel acc Hf Hl;
    destruct fuel as [|fuel]; try lia; cbn [collect_chain]; rewrite Hc.
  - rewrite decide_False by (simpl in Hl; lia). by rewrite decide_True.
  - rewrite length_app in Hf, Hl. simpl in Hf, Hl.
    rewrite decide_False by lia. rewrite decide_False by lia.
    rewrite IH by (simpl; lia). by rewrite <- app_assoc.
Qed.

(** A chain does not repeat a class, so it is no longer than the table. *)
Lemma chain_to_suffix classes c l :
  chain_to classes c l → ∀ x, x ∈ l → ∃ l1, chain_to classes x l1 ∧ (length l1 ≤ length l)%nat.
Proof.
  induction 1 as [c cc Hc Hs|c cc l Hc Hs Hch IH]; intros x Hx.
  - apply list_elem_of_singleton in Hx as ->. exists [c]. split; [by eapply chain_root|done].
  - apply elem_of_app in Hx as [Hx|Hx].
    + destruct (IH x Hx) as (l1 & ? & ?). exists l1. split; [done|]. rewrite length_app. lia.
    + apply list_elem_of_singleton in Hx as ->. exists (l ++ [c]). split; [by eapply chain_link|done].
Qed.
Lemma chain_to_NoDup classes c l : chain_to classes c l → NoDup l.
Proof.
  induction 1 as [c cc Hc Hs|c cc l Hc Hs Hch IH]; [apply NoDup_singleton|].
  apply list.NoDup_app. split_and!; [done| |apply NoDup_singleton].
  intros x Hx Hxc%list_elem_of_singleton. subst x.
  destruct (chain_to_suffix _ _ _ Hch c Hx) as (l1 & Hl1 & Hle).
  pose proof (chain_link classes c cc l Hc Hs Hch) as Hl2.
  rewrite (chain_to_det _ _ _ Hl1 _ Hl2), length_app in Hle. simpl in Hle. lia.
Qed.
Lemma chain_to_range classes c l : chain_to classes c l → ∀ x, x ∈ l → is_Some (classes !!z x).
Proof.
  induction 1 as [c cc Hc Hs|c cc l Hc Hs Hch IH]; intros x.
  - intros ->%list_elem_of_singleton. by eexists.
  - intros [Hx| ->%list_elem_of_singleton]%elem_of_app; [by apply IH|by eexists].
Qed.
Lemma chain_to_length classes c l : chain_to classes c l → (length l ≤ length classes)%nat.
Proof.
  intros H. pose proof (chain_to_NoDup _ _ _ H) as Hnd.
  pose proof (submseteq_length l (seqZ 0 (Z.of_nat (length classes)))) as Hs.
  rewrite length_seqZ, Nat2Z.id in Hs. apply Hs. apply NoDup_submseteq; [done|].
  intros x Hx. destruct (chain_to_range _ _ _ H x Hx) as [cc Hcc].
  apply elem_of_seqZ. pose proof (zlookup_Some_lt _ _ _ Hcc). lia.
Qed.

Definition chain_fields (classes : list CompiledClass) (l : list Z) : list Entry :=
  mjoin ((λ c, default [] (own_fields <$> classes !!z c)) <$> l).

Lemma append_chain classes l : ∀ out,
  (∀ c, c ∈ l → ∃ cc, classes !!z c = Some cc ∧ class_ok cc) →
  foldM (append_own classes) out l = Ok (out ++ chain_fields classes l).
Proof.
  induction l as [|c l IH]; intros out H; [unfold chain_fields; simpl; by rewrite app_nil_r|].
  destruct (H c ltac:(left)) as (cc & Hc & Hok). cbn [foldM].
  rewrite (append_own_ok classes c cc out Hc Hok), bindE, IH by (intros; apply H; by right).
  unfold chain_fields. simpl. rewrite Hc. simpl. by rewrite app_assoc.
Qed.

Lemma class_fields_ok classes c l :
  chain_to classes c l → (∀ cc, cc ∈ classes → class_ok cc) →
  class_fields classes c = Ok (chain_fields classes l).
Proof.
  intros Hch Hok. unfold class_fields. pose proof (chain_to_length _ _ _ Hch).
  rewrite (collect_chain_spec classes c l Hch) by (simpl; lia). rewrite app_nil_r, bindE.
  rewrite append_chain; [done|]. intros x Hx. destruct (chain_to_range _ _ _ Hch x Hx) as [cc Hcc].
  exists cc. split; [done|]. apply Hok. unfold zlookup in Hcc. case_decide; [|done].
  by eapply list_elem_of_lookup_2.
Qed.

(** on a class table whose superclass links end and stay in range, the layout
    view exists and every class's fields are its superclass's fields followed by
    its own: a field keeps its offset in every subclass. *)
Theorem Build_inherits classes :
  (∀ cc, cc ∈ classes → class_ok cc) →
  (∀ c, 0 ≤ c < Z.of_nat (length classes) → ∃ l, chain_to classes c l) →
  ∃ per, Build classes = Ok per ∧ length per = length classes ∧
    ∀ c cc, classes !!z c = Some cc →
      (superClassIdx cc < 0 → Fields per c = Ok (own_fields cc))
      ∧ (0 ≤ superClassIdx cc → ∃ base, Fields per (superClassIdx cc) = Ok base
           ∧ Fields per c = Ok (base ++ own_fields cc)).
Proof.
  intros Hok Hch. set (g := λ c, default [] (match class_fields classes (Z.of_nat c) with
                                              | Ok l => Some l | Raise _ => None end)).
  exists (g <$> seq 0 (length classes)). split_and!.
  - unfold Build. rewrite (foldM_append (λ c, class_fields classes (Z.of_nat c)) g); [done|].
    intros c Hc%elem_of_seq. destruct (Hch (Z.of_nat c)) as [l Hl]; [lia|].
    unfold g. by rewrite (class_fields_ok classes _ l Hl Hok).
  - by rewrite length_fmap, length_seq.
  - assert (∀ c l, chain_to classes c l →
      Fields (g <$> seq 0 (length classes)) c = Ok (chain_fields classes l)) as HF.
    { intros c l Hl. destruct (chain_to_range _ _ _ Hl c) as [cc Hcc].
      { inversion Hl; subst; [left|apply elem_of_app; right; left]. }
      pose proof (zlookup_Some_lt _ _ _ Hcc). unfold Fields, zlookup. rewrite decide_True by lia.
      rewrite list_lookup_fmap, lookup_seq_lt by lia. simpl. unfold g.
      rewrite Z2Nat.id, (class_fields_ok classes c l Hl Hok) by lia. done. }
    intros c cc Hcc. pose proof (zlookup_Some_lt _ _ _ Hcc) as Hr. split.
    + intros Hs. rewrite (HF c [c]) by (by eapply chain_root).
      unfold chain_fields. simpl. rewrite Hcc. simpl. by rewrite app_nil_r.
    + intros Hs. destruct (Hch c Hr) as [l Hl].
      inversion Hl as [? cc' Hcc' Hs'|? cc' l1 Hcc' Hs' Hl1]; subst; simplify_eq; [lia|].
      exists (chain_fields classes l1). split; [by apply HF|]. rewrite (HF c _ Hl).
      unfold chain_fields. rewrite fmap_app, join_app. simpl. rewrite Hcc. simpl. by rewrite app_nil_r.
Qed.

Lemma collect_chain_cases classes fuel : ∀ c acc,
  (length classes < length acc + fuel)%nat → (length acc ≤ length classes)%nat →
  (∃ l, chain_to classes c l ∧ collect_chain fuel classes c acc = Ok (l ++ acc))
  ∨ collect_chain fuel classes c acc = Raise corrupt_chain.
Proof.
  induction fuel as [|fuel IH]; intros c acc Hf Ha; [lia|]. cbn [collect_chain].
  destruct (classes !!z c) as [cc|] eqn:Hc; [|by right].
  case_decide; [by right|]. case_decide as Hs.
  - left. exists [c]. split; [by eapply chain_root|done].
  - destruct (IH (superClassIdx cc) (c :: acc)) as [(l & Hl & ->)| -> ]; [simpl; lia..| |by right].
    left. exists (l ++ [c]). split; [apply (chain_link classes c cc l); [done|lia|done]|]. by rewrite <- app_assoc.
Qed.

(** a table in which some class's superclass links leave the table or never end
    is refused with the corrupt-chain error; the walk always stops. *)
Theorem Build_corrupt classes c :
  (∀ cc, cc ∈ classes → class_ok cc) →
  0 ≤ c < Z.of_nat (length classes) → (∀ l, ¬ chain_to classes c l) →
  Build classes = Raise corrupt_chain.
Proof.
  intros Hok Hc Hn.
  assert (∀ x, (∃ l, class_fields classes x = Ok l) ∨ class_fields classes x = Raise corrupt_chain) as Hx.
  { intros x. destruct (collect_chain_cases classes (S (length classes)) x []) as [(l & Hl & _)|E];
      [simpl; lia..| |].
    - left. eexists. by apply (class_fields_ok classes x l).
    - right. unfold class_fields. by rewrite E. }
  assert (class_fields classes c = Raise corrupt_chain) as Hbad.
  { unfold class_fields.
    destruct (collect_chain_cases classes (S (length classes)) c []) as [(l & Hl & _)|E]; [simpl; lia..| |].
    - by apply Hn in Hl.
    - by rewrite E. }
  unfold Build. assert (Z.to_nat c ∈ seq 0 (length classes)) as Hin by (apply elem_of_seq; lia).
  revert Hin. generalize (seq 0 (length classes)). intros xs.
  enough (∀ per, Z.to_nat c ∈ xs →
    foldM (λ per x, out ← class_fields classes (Z.of_nat x); Ok (per ++ [out])) per xs
    = Raise corrupt_chain) as Hg by apply Hg.
  induction xs as [|x xs IH]; intros per Hin; [by apply elem_of_nil in Hin|]. cbn [foldM].
  destruct (decide (Z.of_nat x = c)) as [->|Hxc]; [by rewrite Hbad|].
  destruct (Hx (Z.of_nat x)) as [[l ->]| ->]; [|done]. rewrite !bindE. apply IH.
  apply elem_of_cons in Hin as [?|?]; [lia|done].
Qed.

(** ** Witnesses *)
(** A base with one field and a subclass with another. *)
Definition demo_classes : list CompiledClass :=
  [MkClass 1 (-1) ["x"%string] [0] [65535] [65535]; MkClass 1 0 ["p"%string] [3] [0] [65535]].
Lemma demo_classes_ok cc : cc ∈ demo_classes → class_ok cc.
Proof. intros Hcc. repeat apply elem_of_cons in Hcc as [->|Hcc]; [done..|]. by apply elem_of_nil in Hcc. Qed.

Lemma Build_inherits_witness :
  ∃ per, Build demo_classes = Ok per
    ∧ Fields per 1 = Ok [MkEntry "x" 0 65535 65535; MkEntry "p" 3 0 65535].
Proof.
  destruct (Build_inherits demo_classes demo_classes_ok) as (per & E & _ & H).
  - intros c Hc. change (length demo_classes) with 2%nat in Hc.
    assert (c = 0 ∨ c = 1) as [-> | ->] by lia.
    + exists [0]. by eapply chain_root.
    + exists ([0] ++ [1]). eapply chain_link; [done|done|]. by eapply chain_root.
  - exists per. split; [done|].
    destruct (H 1 (MkClass 1 0 ["p"%string] [3] [0] [65535]) eq_refl) as [_ (base & E1 & E2)]; [done|].
    destruct (H 0 (MkClass 1 (-1) ["x"%string] [0] [65535] [65535]) eq_refl) as [E0 _].
    rewrite E2. simpl in E1. rewrite E0 in E1 by done. by injection E1 as <-.
Defined.
Lemma Build_corrupt_witness :
  Build [MkClass 0 0 [] [] [] []] = Raise corrupt_chain.
Proof.
  apply (Build_corrupt _ 0).
  - intros cc ->%list_elem_of_singleton. done.
  - simpl. lia.
  - intros l Hl. pose proof (chain_to_det _ _ _ Hl) as Hd.
    inversion Hl as [? cc' Hcc' Hs'|? cc' l1 Hcc' Hs' Hl1]; subst; injection Hcc' as <-; [done|].
    apply Hd in Hl1. apply (f_equal length) in Hl1. rewrite length_app in Hl1. simpl in Hl1. lia.
Defined.
