(* ===== verification/Heap.v ===== *)
(** * Object heap: allocation

    Models the record heap of [src/src/vm/VmExecutorAlloc.cpp] (slots, struct and
    class records, deep copy), [MaterializeDefaultValue]
    ([VmDefaultMaterializer.cpp]) and [InitStructHeap] ([VmExecutor.cpp]).  A
    record is a list of int32 cells; index 0 is the null sentinel; a free slot has
    kind 0.  Field [i] of a struct is the cell pair at [2i], of a class at [1+2i]. *)
From S2P Require Import Prelude Bytecode Prims TypeDesc Shards Strings Layout.
Open Scope Z_scope.

Definition RTK_ArrayView : Z := 21.
Definition RTK_Null : Z := 253.
Definition RTK_Unfoldable : Z := 252.
Definition RTK_Expr : Z := 251.

(** ** Module tables *)
(** The float channels carry their bits. *)
Record DefaultValueDesc := MkDefault {
  tag : Z; intValue : Z; floatValue : Z; stringIdx : Z; longValue : Z; doubleValue : Z
}.
Record CompiledStruct := MkStruct {
  sFieldCount : nat;
  sFieldTypeKinds : list Z;
  sFieldStructIndices : list Z;
  fieldDefaults : list DefaultValueDesc
}.
Record CompiledArrayType := MkArrayType { elemKind : Z; elemTypeIdx : Z; at_rank : Z }.
Record tables := MkTables {
  structs : list CompiledStruct;
  layout : list (list Entry);
  arrayTypes : list CompiledArrayType;
  stringConstants : list bytes
}.

(** ** State *)
Record heap := MkHeap {
  m_structHeap : list (list Z);
  m_slotKinds : list Z;
  m_slotStructIdx : list Z;
  m_heapShards : stacks;
  m_gcThreshold : nat;
  strs : StringStore
}.
Definition hwith_slots (h : heap) (recs : list (list Z)) (kinds idxs : list Z) : heap :=
  MkHeap recs kinds idxs (m_heapShards h) (m_gcThreshold h) (strs h).
Definition hwith_shards (h : heap) (sh : stacks) : heap :=
  MkHeap (m_structHeap h) (m_slotKinds h) (m_slotStructIdx h) sh (m_gcThreshold h) (strs h).
Definition hwith_threshold (h : heap) (t : nat) : heap :=
  MkHeap (m_structHeap h) (m_slotKinds h) (m_slotStructIdx h) (m_heapShards h) t (strs h).
Definition hwith_strs (h : heap) (s : StringStore) : heap :=
  MkHeap (m_structHeap h) (m_slotKinds h) (m_slotStructIdx h) (m_heapShards h) (m_gcThreshold h) s.

(** The string store's view of the heap's half of the pressure test. *)
Definition with_over (st : StringStore) (x : bool) : StringStore :=
  Store (m_stringObjs st) (m_strMarkBits st) (m_strShards st) (m_shortStrTable st)
    (m_constStrCache st) (m_emptyStrHandle st) (m_allocQuantum st) (m_strGcThreshold st) x
    (m_gcPressure st).
Definition sync_over (h : heap) : heap :=
  hwith_strs h (with_over (strs h) (bool_decide (m_gcThreshold h < length (m_structHeap h))%nat)).
Definition HNoteGcPressure (h : heap) : heap :=
  let h := sync_over h in hwith_strs h (NoteGcPressure (strs h)).

(** ** Slots *)
Definition rec_at (h : heap) (i : Z) : option (list Z) := m_structHeap h !!z i.
Definition kind_at (h : heap) (i : Z) : option Z := m_slotKinds h !!z i.
Definition sidx_at (h : heap) (i : Z) : option Z := m_slotStructIdx h !!z i.
Definition set_slot (h : heap) (i : Z) (r : list Z) (k s : Z) : heap :=
  hwith_slots h (<[Z.to_nat i := r]> (m_structHeap h)) (<[Z.to_nat i := k]> (m_slotKinds h))
    (<[Z.to_nat i := s]> (m_slotStructIdx h)).
(** [m_structHeap[i][c] = v], out of range being undefined behaviour. *)
Definition set_cell (h : heap) (i : Z) (c : nat) (v : Z) : outcome heap :=
  r ← deref (rec_at h i);
  if decide (c < length r)%nat
  then Ok (hwith_slots h (<[Z.to_nat i := <[c := v]> r]> (m_structHeap h)) (m_slotKinds h) (m_slotStructIdx h))
  else Raise OutOfBounds.
Definition get_cell (h : heap) (i : Z) (c : nat) : outcome Z :=
  r ← deref (rec_at h i); deref (r !! c).

Definition GrowHeapShardBlockLocked (h : heap) (shard : nat) : outcome heap :=
  let base := Z.of_nat (length (m_structHeap h)) in
  let q := m_allocQuantum (strs h) in
  sh ← PushBlockDescending (m_heapShards h) shard base q;
  Ok (sync_over (hwith_shards (hwith_slots h (m_structHeap h ++ replicate q [])
        (m_slotKinds h ++ replicate q 0) (m_slotStructIdx h ++ replicate q 0)) sh)).

Definition TakeHeapSlot (h : heap) (shard : nat) : outcome (Z * heap) :=
  e ← Empty (m_heapShards h) shard;
  h ← (if (e : bool) then GrowHeapShardBlockLocked h shard else Ok h);
  '(i, sh) ← Pop (m_heapShards h) shard;
  Ok (i, hwith_shards h sh).

Definition HeapSweepPush (h : heap) (idx : Z) : outcome heap :=
  sh ← Push (m_heapShards h) (SweepShardOf (m_heapShards h) idx) idx;
  Ok (hwith_shards h sh).

Definition InitStructHeap (carriers threshold : nat) (st : StringStore) : heap :=
  sync_over (MkHeap [[]] [0] [0] (Configure (carriers + 1)) threshold (with_pressure st false)).

(** ** Defaults *)
(** [memcpy] of 4 or 8 bytes to the cell pair at [c]. *)
Definition put4 (h : heap) (i : Z) (c : nat) (v : Z) : outcome heap := set_cell h i c (i32 v).
Definition put8 (h : heap) (i : Z) (c : nat) (v : Z) : outcome heap :=
  h ← set_cell h i c (i32 v); set_cell h i (S c) (i32 (Z.shiftr v 32)).

(** The value tells whether something was written. *)
Definition MaterializeDefaultValue (md : tables) (h : heap) (shard : nat) (d : DefaultValueDesc)
    (i : Z) (c : nat) : outcome (bool * heap) :=
  let k := tag d in
  if decide (k = RTK_Int32 ∨ k = RTK_Bool ∨ k = RTK_Char) then
    h ← put4 h i c (i32 (intValue d)); Ok (true, h)
  else if decide (k = RTK_Long ∨ k = RTK_ULong) then h ← put8 h i c (longValue d); Ok (true, h)
  else if decide (k = RTK_Float) then h ← put4 h i c (floatValue d); Ok (true, h)
  else if decide (k = RTK_Double) then h ← put8 h i c (doubleValue d); Ok (true, h)
  else if decide (k = RTK_Null) then h ← put4 h i c 0; Ok (true, h)
  else if decide (k = RTK_String) then
    match stringConstants md !!z stringIdx d with
    | None => Raise (RuntimeError "NLang VM: default string index out of range")
    | Some s =>
        '(handle, st) ← MintNewString (strs h) shard s;
        h ← put4 (hwith_strs h st) i c handle; Ok (true, h)
    end
  else if decide (k = RTK_Void ∨ k = RTK_Expr ∨ k = RTK_Unfoldable) then Ok (false, h)
  else Raise (RuntimeError "NLang VM: unknown default value tag in module").

(** ** Records *)
(** A struct-typed field with a struct definition: the index, else [None]. *)
Definition nested_struct (k s : Z) : option Z :=
  if decide (k = RTK_Struct ∧ s ≠ 65535) then Some s else None.
Definition struct_field (cs : CompiledStruct) (i : nat) : outcome (option Z) :=
  k ← deref (sFieldTypeKinds cs !! i);
  s ← deref (sFieldStructIndices cs !! i);
  Ok (nested_struct k s).

(** [fuel] bounds the nesting depth of struct types. *)
Fixpoint AllocStructOnHeap (fuel : nat) (md : tables) (h : heap) (shard : nat) (structIdx : Z)
    : outcome (Z * heap) :=
  match fuel with
  | O => Raise OutOfFuel
  | S fuel =>
      match structs md !!z structIdx with
      | None => Raise (RuntimeError "NLang VM: invalid struct index in AllocStruct")
      | Some cs =>
          '(heapIdx, h) ← TakeHeapSlot h shard;
          let h := set_slot h heapIdx (replicate (2 * sFieldCount cs) 0) RTK_Struct structIdx in
          h ← foldM (λ h i,
                 f ← struct_field cs i;
                 match f with
                 | None => Ok h
                 | Some s =>
                     '(innerIdx, h) ← AllocStructOnHeap fuel md h shard s;
                     set_cell h heapIdx (2 * i) innerIdx
                 end) h (seq 0 (sFieldCount cs));
          h ← foldM (λ h i,
                 d ← deref (fieldDefaults cs !! i);
                 if decide (tag d = RTK_Void) then Ok h
                 else '(_, h) ← MaterializeDefaultValue md h shard d heapIdx (2 * i); Ok h)
                h (seq 0 (sFieldCount cs `min` length (fieldDefaults cs)));
          Ok (heapIdx, h)
      end
  end.

Definition AllocClassOnHeap (fuel : nat) (md : tables) (h : heap) (shard : nat) (classIdx : Z)
    : outcome (Z * heap) :=
  match layout md !!z classIdx with
  | None => Raise (RuntimeError "NLang VM: invalid class index in AllocClassOnHeap")
  | Some fields =>
      '(heapIdx, h) ← TakeHeapSlot h shard;
      let h := set_slot h heapIdx (replicate (1 + 2 * length fields) 0) RTK_Class 0 in
      h ← set_cell h heapIdx 0 classIdx;
      h ← foldM (λ h i,
             f ← deref (fields !! i);
             match nested_struct (Layout.kind f) (Layout.structIdx f) with
             | None => Ok h
             | Some s =>
                 '(innerIdx, h) ← AllocStructOnHeap fuel md h shard s;
                 set_cell h heapIdx (2 * i + 1) innerIdx
             end) h (seq 0 (length fields));
      Ok (heapIdx, h)
  end.

Fixpoint DeepCopyStruct (fuel : nat) (md : tables) (h : heap) (shard : nat) (srcHeapIdx structIdx : Z)
    : outcome (Z * heap) :=
  match fuel with
  | O => Raise OutOfFuel
  | S fuel =>
      match rec_at h srcHeapIdx, structs md !!z structIdx with
      | None, _ => Raise (RuntimeError "NLang VM: invalid struct heap index in CopyStruct")
      | _, None => Raise (RuntimeError "NLang VM: invalid struct index in CopyStruct")
      | Some srcSlotCopy, Some cs =>
          '(newHeapIdx, h) ← TakeHeapSlot h shard;
          let h := set_slot h newHeapIdx srcSlotCopy RTK_Struct structIdx in
          h ← foldM (λ h i,
                 f ← struct_field cs i;
                 match f with
                 | None => Ok h
                 | Some s =>
                     innerSrcIdx ← deref (srcSlotCopy !! (2 * i)%nat);
                     '(innerNewIdx, h) ← DeepCopyStruct fuel md h shard innerSrcIdx s;
                     set_cell h newHeapIdx (2 * i) innerNewIdx
                 end) h (seq 0 (sFieldCount cs));
          Ok (newHeapIdx, HNoteGcPressure h)
      end
  end.

(** ** The heap invariant *)
Definition hlive (h : heap) (i : Z) : Prop := ∃ k, kind_at h i = Some k ∧ k ≠ 0.
Record heap_ok (h : heap) : Prop := {
  hk_kinds : length (m_slotKinds h) = length (m_structHeap h);
  hk_sidx : length (m_slotStructIdx h) = length (m_structHeap h);
  hk_strs : store_ok (strs h);
  hk_shards : (0 < length (m_heapShards h))%nat;
  hk_same_shards : length (m_strShards (strs h)) = length (m_heapShards h);
  hk_zero : kind_at h 0 = Some 0;
  hk_nodup : NoDup (free (m_heapShards h));
  hk_free : ∀ i, i ∈ free (m_heapShards h) → 0 < i ∧ kind_at h i = Some 0
}.

Definition hsame (h h' : heap) (i : Z) : Prop :=
  rec_at h' i = rec_at h i ∧ kind_at h' i = kind_at h i ∧ sidx_at h' i = sidx_at h i.
(** Every live record of [h] is unchanged in [h']. *)
Definition hextends (h h' : heap) : Prop := ∀ i, hlive h i → hsame h h' i.

Lemma hsame_refl h i : hsame h h i.
Proof. done. Qed.
Lemma hsame_trans h1 h2 h3 i : hsame h1 h2 i → hsame h2 h3 i → hsame h1 h3 i.
Proof. intros (?&?&?) (?&?&?). split_and!; congruence. Qed.
Lemma hsame_live h h' i : hsame h h' i → hlive h i → hlive h' i.
Proof. intros (_ & E & _) (k & Hk & Hn). exists k. by rewrite E. Qed.
Lemma hextends_refl h : hextends h h.
Proof. intros i _. done. Qed.
Lemma hextends_trans h1 h2 h3 : hextends h1 h2 → hextends h2 h3 → hextends h1 h3.
Proof.
  intros H1 H2 i Hi. eapply hsame_trans; [by apply H1|]. apply H2. eapply hsame_live; [|done]. by apply H1.
Qed.
Lemma hextends_live h h' i : hextends h h' → hlive h i → hlive h' i.
Proof. intros H Hi. eapply hsame_live; [|done]. by apply H. Qed.

Lemma hlive_pos h i : heap_ok h → hlive h i → 0 < i < Z.of_nat (length (m_structHeap h)).
Proof.
  intros Hok (k & Hk & Hn). pose proof (zlookup_Some_lt _ _ _ Hk) as Hr. rewrite (hk_kinds h Hok) in Hr.
  destruct (decide (i = 0)) as [->|]; [|lia]. rewrite (hk_zero h Hok) in Hk. congruence.
Qed.
Lemma hlive_rec h i : heap_ok h → hlive h i → is_Some (rec_at h i).
Proof. intros Hok Hl. apply zlookup_is_Some. pose proof (hlive_pos h i Hok Hl). lia. Qed.
Lemma hlive_not_free h i : heap_ok h → hlive h i → i ∉ free (m_heapShards h).
Proof. intros Hok (k & Hk & Hn) [_ Hf]%(hk_free h Hok). congruence. Qed.

Lemma store_ok_with_over st x : store_ok st → store_ok (with_over st x).
Proof.
  intros [H1 H2 H3 H4 H5 H6 H7 H8 H9 H10 H11 H12]. split; try assumption.
  intros h Hh. destruct (H12 h Hh) as (bs & n & R). exists bs, n. by apply (reads_agree st).
Qed.
Lemma store_ok_with_pressure st x : store_ok st → store_ok (with_pressure st x).
Proof.
  intros [H1 H2 H3 H4 H5 H6 H7 H8 H9 H10 H11 H12]. split; try assumption.
  intros h Hh. destruct (H12 h Hh) as (bs & n & R). exists bs, n. by apply (reads_agree st).
Qed.

Lemma heap_ok_with_strs h st :
  heap_ok h → store_ok st → length (m_strShards st) = length (m_heapShards h) →
  heap_ok (hwith_strs h st).
Proof. intros [H1 H2 H3 H4 H5 H6 H7 H8] Hs Hl. by split. Qed.
Lemma heap_ok_sync h : heap_ok h → heap_ok (sync_over h).
Proof. intros Hok. apply heap_ok_with_strs; [done|apply store_ok_with_over, Hok|apply Hok]. Qed.
Lemma heap_ok_note h : heap_ok h → heap_ok (HNoteGcPressure h).
Proof.
  intros Hok. pose proof (heap_ok_sync h Hok) as Hs.
  apply heap_ok_with_strs; [done|apply store_ok_with_pressure, Hs|apply Hs].
Qed.

(** *** Slot updates *)
Lemma set_slot_at h i r k s :
  heap_ok h → 0 ≤ i < Z.of_nat (length (m_structHeap h)) →
  rec_at (set_slot h i r k s) i = Some r ∧ kind_at (set_slot h i r k s) i = Some k
  ∧ sidx_at (set_slot h i r k s) i = Some s.
Proof.
  intros Hok Hi. unfold rec_at, kind_at, sidx_at. simpl.
  pose proof (hk_kinds h Hok). pose proof (hk_sidx h Hok).
  by rewrite !zlookup_insert_eq by lia.
Qed.
Lemma set_slot_ne h i r k s x : 0 ≤ i → x ≠ i → hsame h (set_slot h i r k s) x.
Proof.
  intros Hi Hx. unfold hsame, rec_at, kind_at, sidx_at. simpl. by rewrite !zlookup_insert_ne.
Qed.
Lemma set_slot_ok h i r k s :
  heap_ok h → 0 < i < Z.of_nat (length (m_structHeap h)) → i ∉ free (m_heapShards h) →
  heap_ok (set_slot h i r k s).
Proof.
  intros Hok Hi Hf. split; try apply Hok.
  - simpl. rewrite !length_insert. apply Hok.
  - simpl. rewrite !length_insert. apply Hok.
  - destruct (set_slot_ne h i r k s 0) as (_ & -> & _); [lia|lia|]. apply Hok.
  - intros x Hx. assert (x ≠ i) by (intros ->; done).
    destruct (set_slot_ne h i r k s x) as (_ & -> & _); [lia|done|]. by apply Hok.
Qed.

Lemma set_cell_spec h i r c v :
  heap_ok h → rec_at h i = Some r → (c < length r)%nat →
  ∃ h', set_cell h i c v = Ok h' ∧ heap_ok h' ∧ rec_at h' i = Some (<[c := v]> r)
    ∧ (∀ x, x ≠ i → hsame h h' x) ∧ kind_at h' i = kind_at h i ∧ sidx_at h' i = sidx_at h i
    ∧ m_heapShards h' = m_heapShards h ∧ strs h' = strs h.
Proof.
  intros Hok Hr Hc. unfold set_cell. rewrite Hr, derefE, bindE, decide_True by done.
  pose proof (zlookup_Some_lt _ _ _ Hr). eexists. split; [done|]. split_and!; try done.
  - split; try apply Hok; simpl; rewrite length_insert; apply Hok.
  - unfold rec_at. simpl. by rewrite zlookup_insert_eq.
  - intros x Hx. split_and!; [|done|done]. unfold rec_at. simpl. apply zlookup_insert_ne; [lia|done].
Qed.

(** *** Taking a slot *)
(** [i] is a slot handed out for a new record: allocated, not free, not yet live. *)
Record taken (h : heap) (i : Z) (h' : heap) : Prop := {
  tk_ok : heap_ok h';
  tk_range : 0 < i < Z.of_nat (length (m_structHeap h'));
  tk_not_free : i ∉ free (m_heapShards h');
  tk_dead : ¬ hlive h i;
  tk_ext : hextends h h';
  tk_only : ∀ x, hlive h' x → hlive h x;
  tk_shards : length (m_heapShards h') = length (m_heapShards h)
}.

Lemma pop_taken h shard i sh :
  heap_ok h → Pop (m_heapShards h) shard = Ok (i, sh) → taken h i (hwith_shards h sh).
Proof.
  intros Hok Hp. apply Pop_spec in Hp as [Hperm Hlen].
  assert (i ∈ free (m_heapShards h)) as Hf by (rewrite Hperm; left).
  destruct (hk_free h Hok i Hf) as [Hpos Hk].
  pose proof (hk_nodup h Hok) as Hnd. rewrite Hperm in Hnd. apply list.NoDup_cons in Hnd as [Hni Hnd].
  split; try done.
  - split; try apply Hok; simpl; [rewrite Hlen; apply Hok|rewrite Hlen; apply Hok|done|].
    intros x Hx. apply (hk_free h Hok). rewrite Hperm. by right.
  - simpl. pose proof (zlookup_Some_lt _ _ _ Hk) as Hr. rewrite (hk_kinds h Hok) in Hr. lia.
  - intros (k & Hk' & Hn). congruence.
Qed.

Lemma GrowHeap_spec h shard :
  heap_ok h → (shard < length (m_heapShards h))%nat →
  ∃ h', GrowHeapShardBlockLocked h shard = Ok h' ∧ heap_ok h' ∧ hextends h h'
    ∧ (∀ x, hlive h' x → hlive h x) ∧ length (m_heapShards h') = length (m_heapShards h)
    ∧ ∃ i s, m_heapShards h' !! shard = Some (i :: s).
Proof.
  intros Hok Hsh. unfold GrowHeapShardBlockLocked.
  set (base := Z.of_nat (length (m_structHeap h))). set (q := m_allocQuantum (strs h)).
  destruct (PushBlockDescending_spec (m_heapShards h) shard base q Hsh)
    as (sh & -> & Hfree & Hlen & s & Hs & Hs'). rewrite bindE.
  assert (0 < q)%nat as Hq by apply (ok_quantum _ (hk_strs h Hok)).
  eexists. split; [done|]. set (h' := sync_over _).
  pose proof (hk_kinds h Hok) as Lk. pose proof (hk_sidx h Hok) as Ls.
  assert (∀ x k, kind_at h x = Some k → kind_at h' x = Some k) as Hk by (intros; by apply zlookup_app_l).
  assert (∀ x k, kind_at h' x = Some k → kind_at h x = Some k ∨ base ≤ x ∧ k = 0) as Hk'.
  { intros x k [?|[? Hr]]%zlookup_app_Some; [by left|right]. apply elem_of_replicate_inv in Hr.
    split; [unfold base; lia|done]. }
  assert (∀ x, base ≤ x < base + Z.of_nat q → kind_at h' x = Some 0) as Hblock.
  { intros x Hx. destruct (kind_at h' x) as [k|] eqn:E.
    - destruct (Hk' x k E) as [E'|[_ ->]]; [|done]. apply zlookup_Some_lt in E'. lia.
    - exfalso. destruct (zlookup_is_Some (m_slotKinds h ++ replicate q 0) x) as [? E'].
      { rewrite length_app, length_replicate. lia. }
      unfold kind_at in E. simpl in E. congruence. }
  split_and!.
  - apply heap_ok_sync. split; simpl; try apply Hok.
    + rewrite !length_app, !length_replicate. lia.
    + rewrite !length_app, !length_replicate. lia.
    + rewrite Hlen. apply Hok.
    + rewrite Hlen. apply Hok.
    + apply (Hk 0), Hok.
    + rewrite Hfree. apply list.NoDup_app. split_and!; [apply NoDup_seqZ| |apply Hok].
      intros x Hx%elem_of_seqZ [_ E]%(hk_free h Hok). apply zlookup_Some_lt in E. lia.
    + intros x. rewrite Hfree, elem_of_app, elem_of_seqZ. intros [Hx|[Hp E]%(hk_free h Hok)].
      * split; [|by apply Hblock]. pose proof (zlookup_Some_lt _ _ _ (hk_zero h Hok)). lia.
      * split; [done|]. by apply Hk.
  - intros x (k & E & Hn). pose proof (zlookup_Some_lt _ _ _ E) as Hx. split_and!.
    + destruct (zlookup_is_Some (m_structHeap h) x) as [r Hr]; [lia|]. unfold rec_at.
      rewrite Hr. by apply zlookup_app_l.
    + rewrite E. by apply Hk.
    + destruct (zlookup_is_Some (m_slotStructIdx h) x) as [r Hr]; [lia|]. unfold sidx_at.
      rewrite Hr. by apply zlookup_app_l.
  - intros x (k & E & Hn). destruct (Hk' x k E) as [?|[_ ?]]; [by exists k|done].
  - done.
  - exists base. eexists. simpl. rewrite Hs', seqZ_cons by lia. done.
Qed.

Lemma TakeHeapSlot_spec h shard :
  heap_ok h → (shard < length (m_heapShards h))%nat →
  ∃ i h', TakeHeapSlot h shard = Ok (i, h') ∧ taken h i h'.
Proof.
  intros Hok Hsh. unfold TakeHeapSlot, Empty.
  destruct (lookup_lt_is_Some_2 _ _ Hsh) as [s Hs]. rewrite Hs, derefE, !bindE.
  destruct s as [|i s].
  - rewrite bool_decide_true by done. cbn beta iota.
    destruct (GrowHeap_spec h shard Hok Hsh) as (h1 & -> & Hok1 & Hext & Hsub & Hlen & i & s & Hs').
    rewrite bindE. assert (Pop (m_heapShards h1) shard = Ok (i, <[shard := s]> (m_heapShards h1))) as Hp
      by (unfold Pop; by rewrite Hs').
    rewrite Hp, bindE. cbn beta iota. eexists _, _. split; [done|].
    destruct (pop_taken h1 shard i _ Hok1 Hp) as [T1 T2 T3 T4 T5 T6 T7]. split; try done.
    + intros Hl. by apply T4, (hextends_live h).
    + rewrite T7. exact Hlen.
  - rewrite bool_decide_false by done. cbn beta iota. rewrite bindE.
    assert (Pop (m_heapShards h) shard = Ok (i, <[shard := s]> (m_heapShards h))) as Hp
      by (unfold Pop; by rewrite Hs).
    rewrite Hp, bindE. cbn beta iota. eexists _, _. split; [done|]. by apply (pop_taken h shard).
Qed.

(** ** Struct types and struct values *)
(** The loader's guarantees on the struct table. *)
Record struct_ok (md : tables) (cs : CompiledStruct) : Prop := {
  so_kinds : length (sFieldTypeKinds cs) = sFieldCount cs;
  so_idxs : length (sFieldStructIndices cs) = sFieldCount cs;
  so_defaults : ∀ i d, fieldDefaults cs !! i = Some d → tag d ≠ RTK_Void →
    struct_field cs i = Ok None
    ∧ tag d ∈ [RTK_Int32; RTK_Bool; RTK_Char; RTK_Long; RTK_ULong; RTK_Float; RTK_Double; RTK_Null;
               RTK_String; RTK_Expr; RTK_Unfoldable]
    ∧ (tag d = RTK_String → is_Some (stringConstants md !!z stringIdx d))
}.
Definition tables_ok (md : tables) : Prop := ∀ s cs, structs md !!z s = Some cs → struct_ok md cs.

(** Struct type [s] exists and nests at most [n] levels deep. *)
Fixpoint nests (n : nat) (md : tables) (s : Z) : Prop :=
  match n with
  | O => False
  | S n => ∃ cs, structs md !!z s = Some cs ∧
      ∀ i s', (i < sFieldCount cs)%nat → struct_field cs i = Ok (Some s') → nests n md s'
  end.

(** Slot [i] holds a value of struct type [s]; every record it is made of
    satisfies [P]. *)
Fixpoint struct_value (n : nat) (md : tables) (h : heap) (P : Z → Prop) (i s : Z) : Prop :=
  match n with
  | O => False
  | S n => ∃ cs r, structs md !!z s = Some cs ∧ P i ∧ kind_at h i = Some RTK_Struct
      ∧ sidx_at h i = Some s ∧ rec_at h i = Some r ∧ length r = (2 * sFieldCount cs)%nat
      ∧ ∀ j s', (j < sFieldCount cs)%nat → struct_field cs j = Ok (Some s') →
          ∃ c, r !! (2 * j)%nat = Some c ∧ struct_value n md h P c s'
  end.

Lemma struct_value_frame n md h h' (P Q : Z → Prop) : ∀ i s,
  (∀ x, P x → hlive h x → hsame h h' x ∧ Q x) →
  struct_value n md h P i s → struct_value n md h' Q i s.
Proof.
  induction n as [|n IH]; intros i s HP; [done|].
  intros (cs & r & Hcs & Hi & Hk & Hs & Hr & Hlen & Hf).
  destruct (HP i Hi) as [(E1 & E2 & E3) HQ]; [by exists RTK_Struct|].
  exists cs, r. split_and!; try congruence. intros j s' Hj Hfj.
  destruct (Hf j s' Hj Hfj) as (c & Hc & Hv). exists c. split; [done|]. by apply IH.
Qed.

Lemma struct_value_live n md h P i s : struct_value n md h P i s → hlive h i ∧ P i.
Proof.
  destruct n; [done|]. intros (cs & r & _ & Hi & Hk & _). split; [by exists RTK_Struct|done].
Qed.

Lemma struct_field_ok cs i md :
  struct_ok md cs → (i < sFieldCount cs)%nat → ∃ f, struct_field cs i = Ok f.
Proof.
  intros [H1 H2 _] Hi. unfold struct_field.
  destruct (lookup_lt_is_Some_2 (sFieldTypeKinds cs) i) as [k ->]; [lia|].
  destruct (lookup_lt_is_Some_2 (sFieldStructIndices cs) i) as [s ->]; [lia|]. by eexists.
Qed.

(** *** Records under construction *)
(** Allocation fills the struct-typed parts of a record of kind [K] one by one:
    part [j] is a value of type [s'] when [fld j = Some s'], its index stored in
    cell [pos j]; the header cells [fix_ c = Some v] are already there.  A struct, a
    class instance and an array of structs are built this way. *)
Record plan := MkPlan {
  p_kind : Z; p_idx : Z; p_len : nat; p_fix : nat → option Z;
  p_fld : nat → option Z; p_pos : nat → nat; p_parts : nat
}.
Record plan_ok (p : plan) : Prop := {
  po_kind : p_kind p ≠ 0;
  po_range : ∀ j s, (j < p_parts p)%nat → p_fld p j = Some s → (p_pos p j < p_len p)%nat;
  po_fix : ∀ j s, (j < p_parts p)%nat → p_fld p j = Some s → p_fix p (p_pos p j) = None;
  po_inj : ∀ j k, p_pos p j = p_pos p k → j = k
}.

(** What the loops keep about the record [i] being built above [h0]: parts below
    [k] hold their values, made of records new since [h0] and other than [i]. *)
Record building (n : nat) (md : tables) (h0 : heap) (i : Z) (p : plan) (k : nat) (h : heap) : Prop := {
  bd_ok : heap_ok h;
  bd_new : ¬ hlive h0 i;
  bd_ext : hextends h0 h;
  bd_kind : kind_at h i = Some (p_kind p);
  bd_sidx : sidx_at h i = Some (p_idx p);
  bd_rec : ∃ r, rec_at h i = Some r ∧ length r = p_len p
    ∧ (∀ c v, p_fix p c = Some v → r !! c = Some v)
    ∧ ∀ j s', (j < k)%nat → p_fld p j = Some s' →
        ∃ c, r !! p_pos p j = Some c ∧ struct_value n md h (λ x, ¬ hlive h0 x ∧ x ≠ i) c s';
  bd_shards : length (m_heapShards h) = length (m_heapShards h0)
}.

Lemma building_live n md h0 i p k h : plan_ok p → building n md h0 i p k h → hlive h i.
Proof. intros Hp B. exists (p_kind p). split; [apply B|apply Hp]. Qed.

Lemma taken_building n md h i h1 p r :
  taken h i h1 → length r = p_len p → (∀ c v, p_fix p c = Some v → r !! c = Some v) →
  building n md h i p 0 (set_slot h1 i r (p_kind p) (p_idx p)).
Proof.
  intros [T1 T2 T3 T4 T5 T6 T7] Hlen Hfix.
  destruct (set_slot_at h1 i r (p_kind p) (p_idx p) T1) as (R & K & S); [lia|].
  split; try done.
  - by apply set_slot_ok.
  - intros x Hx. eapply hsame_trans; [by apply T5|]. apply set_slot_ne; [lia|]. by intros ->.
  - eexists. split; [exact R|]. split; [done|]. split; [done|]. intros; lia.
Qed.

(** Storing into the record under construction. *)
Lemma building_set_cell n md h0 i p k h c v :
  building n md h0 i p k h → (c < p_len p)%nat → p_fix p c = None →
  (∀ j s', (j < k)%nat → p_fld p j = Some s' → c ≠ p_pos p j) →
  ∃ h', set_cell h i c v = Ok h' ∧ building n md h0 i p k h'
    ∧ (∃ r, rec_at h' i = Some r ∧ r !! c = Some v) ∧ (∀ x, x ≠ i → hsame h h' x)
    ∧ strs h' = strs h.
Proof.
  intros [B1 B2 B3 B4 B5 (r & R1 & R2 & R2' & R3) B7] Hc Hfx Hne.
  destruct (set_cell_spec h i r c v B1 R1) as (h' & E & C1 & C2 & C3 & C4 & C5 & C6 & C7); [lia|].
  assert (∀ x s', struct_value n md h (λ x, ¬ hlive h0 x ∧ x ≠ i) x s' →
    struct_value n md h' (λ x, ¬ hlive h0 x ∧ x ≠ i) x s') as Hfr.
  { intros x s'. apply struct_value_frame. intros y [Hy1 Hy2] _. split; [by apply C3|done]. }
  exists h'. split_and!; [done| | |done|done].
  - split; try congruence.
    + intros x Hx. eapply hsame_trans; [by apply B3|]. apply C3. by intros ->.
    + eexists. split; [exact C2|]. rewrite length_insert. split; [done|]. split.
      { intros d w Hd. rewrite list_lookup_insert_ne by congruence. by apply R2'. }
      intros j s' Hj Hf. destruct (R3 j s' Hj Hf) as (x & Hx & Hv). exists x. split; [|by apply Hfr].
      rewrite list_lookup_insert_ne; [done|]. by eapply Hne.
  - eexists. split; [exact C2|]. rewrite list_lookup_insert_eq; [done|lia].
Qed.

(** A step that leaves the live records alone. *)
Lemma building_frame n md h0 i p k h h' :
  plan_ok p → building n md h0 i p k h → heap_ok h' → hextends h h' →
  length (m_heapShards h') = length (m_heapShards h) → building n md h0 i p k h'.
Proof.
  intros Hp B Hok Hext Hsh. destruct (Hext i) as (E1 & E2 & E3); [by eapply building_live|].
  destruct B as [B1 B2 B3 B4 B5 (r & R1 & R2 & R2' & R3) B7].
  split; try congruence; [by eapply hextends_trans|].
  exists r. split_and!; [congruence|done|done|]. intros j s' Hj Hf.
  destruct (R3 j s' Hj Hf) as (x & Hx & Hv). exists x. split; [done|].
  eapply struct_value_frame; [|exact Hv]. intros y Hy Hl. split; [by apply Hext|done].
Qed.

(** A part that is not struct-typed needs nothing. *)
Lemma building_skip n md h0 i p k h :
  building n md h0 i p k h → p_fld p k = None → building n md h0 i p (S k) h.
Proof.
  intros [C1 C2 C3 C4 C5 (r & R1 & R2 & R2' & R3) C7] Hk. split; try done. exists r.
  split_and!; [done|done|done|]. intros j sj Hj Hfj. apply R3; [|done].
  destruct (decide (j = k)) as [->|]; [congruence|lia].
Qed.

(** A fresh value is stored as part [k]. *)
Lemma building_nested n md h0 i p k h c s' h1 :
  plan_ok p → building n md h0 i p k h → (k < p_parts p)%nat → p_fld p k = Some s' →
  heap_ok h1 → hextends h h1 → length (m_heapShards h1) = length (m_heapShards h) →
  struct_value n md h1 (λ x, ¬ hlive h x) c s' →
  ∃ h2, set_cell h1 i (p_pos p k) c = Ok h2 ∧ building n md h0 i p (S k) h2.
Proof.
  intros Hp B Hk Hf Hok Hext Hsh Hv. pose proof (building_live _ _ _ _ _ _ _ Hp B) as Hi.
  pose proof (building_frame n md h0 i p k h h1 Hp B Hok Hext Hsh) as B1.
  destruct (building_set_cell n md h0 i p k h1 (p_pos p k) c B1)
    as (h2 & E & B2 & (r & Hr & Hrc) & Hne & _);
    [by eapply po_range|by eapply po_fix|intros j sj Hj _ Hpos%(po_inj p Hp); lia|].
  exists h2. split; [done|]. destruct B2 as [C1 C2 C3 C4 C5 (r' & R1 & R2 & R2' & R3) C7].
  rewrite R1 in Hr. injection Hr as ->. split; try done. exists r. split_and!; [done|done|done|].
  intros j sj Hj Hfj. destruct (decide (j = k)) as [->|Hjk]; [|apply R3; [lia|done]].
  assert (sj = s') as -> by congruence. exists c. split; [done|].
  eapply struct_value_frame; [|exact Hv]. intros x Hx Hl.
  assert (x ≠ i) as Hxi by (intros ->; done). split; [by apply Hne|]. split; [|done].
  intros Hl0. apply Hx. by eapply hextends_live; [apply B|].
Qed.

(** *** The plan of a struct *)
Definition sfield (cs : CompiledStruct) (j : nat) : option Z :=
  match struct_field cs j with Ok f => f | Raise _ => None end.
Definition struct_plan (s : Z) (cs : CompiledStruct) : plan :=
  MkPlan RTK_Struct s (2 * sFieldCount cs) (λ _, None) (sfield cs) (λ j, 2 * j)%nat (sFieldCount cs).
Lemma struct_plan_ok s cs : plan_ok (struct_plan s cs).
Proof. split; simpl; [done|intros; lia|done|intros; lia]. Qed.
Lemma sfield_Some cs j s : sfield cs j = Some s ↔ struct_field cs j = Ok (Some s).
Proof. unfold sfield. destruct (struct_field cs j) as [f|]; [|done]. naive_solver. Qed.

(** The finished record is a value of its type. *)
Lemma building_done n md h0 i s cs h :
  structs md !!z s = Some cs → building n md h0 i (struct_plan s cs) (sFieldCount cs) h →
  struct_value (S n) md h (λ x, ¬ hlive h0 x) i s.
Proof.
  intros Hcs [B1 B2 B3 B4 B5 (r & R1 & R2 & _ & R3) B7]. exists cs, r. split_and!; try done.
  intros j s' Hj Hf. destruct (R3 j s' Hj) as (c & Hc & Hv); [by apply sfield_Some|].
  exists c. split; [done|]. eapply struct_value_frame; [|exact Hv]. by intros x [Hx _] _.
Qed.

(** *** Defaults *)
Section Materialize.
Context (n : nat) (md : tables) (h0 : heap) (i s : Z) (cs : CompiledStruct).
Let B := building n md h0 i (struct_plan s cs) (sFieldCount cs).

Lemma put4_building h f v :
  B h → (f < sFieldCount cs)%nat → struct_field cs f = Ok None →
  ∃ h', put4 h i (2 * f) v = Ok h' ∧ B h'.
Proof using.
  intros HB Hf Hn. destruct (building_set_cell n md h0 i (struct_plan s cs) _ h (2 * f) (i32 v) HB)
    as (h' & E & HB' & _); [simpl; lia|done| |by exists h'].
  intros j s' Hj Hs%sfield_Some E. simpl in E. assert (f = j) as -> by lia. congruence.
Qed.
Lemma put8_building h f v :
  B h → (f < sFieldCount cs)%nat → struct_field cs f = Ok None →
  ∃ h', put8 h i (2 * f) v = Ok h' ∧ B h'.
Proof using.
  intros HB Hf Hn. unfold put8. destruct (put4_building h f v HB Hf Hn) as (h1 & E1 & HB1).
  unfold put4 in E1. rewrite E1, bindE.
  destruct (building_set_cell n md h0 i (struct_plan s cs) _ h1 (S (2 * f)) (i32 (Z.shiftr v 32)) HB1)
    as (h' & E & HB' & _); [simpl; lia|done|intros; simpl; lia|by exists h'].
Qed.

Lemma Materialize_building h shard f d :
  B h → struct_ok md cs → (shard < length (m_heapShards h0))%nat → (f < sFieldCount cs)%nat →
  fieldDefaults cs !! f = Some d → tag d ≠ RTK_Void →
  ∃ b h', MaterializeDefaultValue md h shard d i (2 * f) = Ok (b, h') ∧ B h'.
Proof using.
  intros HB Hso Hsh Hf Hd Hv. destruct (so_defaults md cs Hso f d Hd Hv) as (Hn & Htag & Hstr).
  unfold MaterializeDefaultValue.
  destruct (put4_building h f (i32 (intValue d)) HB Hf Hn) as (ha & Ea & Ha).
  destruct (put8_building h f (longValue d) HB Hf Hn) as (hb & Eb & Hb).
  destruct (put4_building h f (floatValue d) HB Hf Hn) as (hc & Ec & Hc).
  destruct (put8_building h f (doubleValue d) HB Hf Hn) as (hd & Ed & Hdd).
  destruct (put4_building h f 0 HB Hf Hn) as (he & Ee & He).
  case_decide; [rewrite Ea, bindE; by eexists _, _|].
  case_decide; [rewrite Eb, bindE; by eexists _, _|].
  case_decide; [rewrite Ec, bindE; by eexists _, _|].
  case_decide; [rewrite Ed, bindE; by eexists _, _|].
  case_decide; [rewrite Ee, bindE; by eexists _, _|].
  case_decide as Hs.
  { destruct (Hstr Hs) as [t ->]. pose proof (bd_ok _ _ _ _ _ _ _ HB) as Hok.
    destruct (MintNewString_aux (strs h) shard t) as (hh & st & -> & Hst & _ & _ & Hl & _);
      [apply Hok|rewrite (hk_same_shards h Hok), (bd_shards _ _ _ _ _ _ _ HB); done|].
    rewrite bindE. cbn beta iota.
    assert (B (hwith_strs h st)) as HB'.
    { eapply building_frame; [apply struct_plan_ok|exact HB| |by intros x _|done].
      apply heap_ok_with_strs; [done|done|]. by rewrite Hl, (hk_same_shards h Hok). }
    destruct (put4_building _ f hh HB' Hf Hn) as (h' & -> & Hh'). rewrite bindE. by eexists _, _. }
  case_decide as Hr; [by eexists _, _|]. exfalso.
  repeat (apply elem_of_cons in Htag as [Htag|Htag]; [tauto|]). by apply elem_of_nil in Htag.
Qed.
End Materialize.

(** ** Allocation of structs *)
Lemma AllocStruct_aux n : ∀ md h shard s,
  tables_ok md → nests n md s → heap_ok h → (shard < length (m_heapShards h))%nat →
  ∃ i h', AllocStructOnHeap n md h shard s = Ok (i, h') ∧ heap_ok h' ∧ hextends h h'
    ∧ length (m_heapShards h') = length (m_heapShards h)
    ∧ struct_value n md h' (λ x, ¬ hlive h x) i s.
Proof.
  induction n as [|n IH]; intros md h shard s Hmd Hn Hok Hsh; [done|].
  destruct Hn as (cs & Hcs & Hnest). pose proof (Hmd s cs Hcs) as Hso.
  cbn [AllocStructOnHeap]. rewrite Hcs.
  destruct (TakeHeapSlot_spec h shard Hok Hsh) as (i & h1 & -> & Ht). rewrite bindE. cbn beta iota.
  pose proof (taken_building n md h i h1 (struct_plan s cs) _ Ht (length_replicate (2 * sFieldCount cs) 0)
    ltac:(done)) as B0. cbn zeta.
  match goal with |- context [foldM ?f (set_slot ?a ?b ?c ?d ?e) (seq 0 ?m)] =>
    destruct (foldM_seq_inv f (λ k h', building n md h i (struct_plan s cs) k h') m 0 (set_slot a b c d e) B0)
      as (h2 & -> & B2) end.
  { intros k hk [_ Hk] HB. destruct (struct_field_ok cs k md Hso) as [f Hf]; [lia|]. rewrite Hf, bindE.
    destruct f as [s'|].
    - destruct (IH md hk shard s' Hmd) as (c & hc & -> & Hokc & Hextc & Hshc & Hvc);
        [apply (Hnest k); [lia|done]|apply HB|by rewrite (bd_shards _ _ _ _ _ _ _ HB)|].
      rewrite bindE. cbn beta iota.
      destruct (building_nested n md h i (struct_plan s cs) k hk c s' hc (struct_plan_ok s cs) HB)
        as (h' & E & HB'); [simpl; lia|by apply sfield_Some|done..|]. cbn [p_pos struct_plan] in E. rewrite E.
      by exists h'.
    - exists hk. split; [done|]. apply building_skip; [done|]. simpl. unfold sfield. by rewrite Hf. }
  rewrite bindE. simpl in B2.
  match goal with |- context [foldM ?f h2 (seq 0 ?m)] =>
    destruct (foldM_seq_inv f (λ _ h', building n md h i (struct_plan s cs) (sFieldCount cs) h') m 0 h2 B2)
      as (h3 & -> & B3) end.
  { intros k hk [_ Hk] HB. destruct (lookup_lt_is_Some_2 (fieldDefaults cs) k) as [d Hd]; [lia|].
    rewrite Hd, derefE, bindE. case_decide as Hv; [by exists hk|].
    destruct (Materialize_building n md h i s cs hk shard k d HB Hso Hsh) as (b & h' & -> & HB');
      [lia|done..|]. rewrite bindE. by exists h'. }
  rewrite bindE. exists i, h3. split; [done|]. pose proof (building_done n md h i s cs h3 Hcs B3).
  destruct B3. by split_and!.
Qed.

(** allocating a struct whose type nests at most [n] levels terminates with
    that fuel and returns a slot that held no live record, holding a well-formed
    value: the right kind and size, each struct field pointing to a value of its
    type, all made of records that were not live before, defaults included.  No
    live record changes and the heap invariant is kept. *)
Theorem AllocStructOnHeap_spec n md h shard s :
  tables_ok md → nests n md s → heap_ok h → (shard < length (m_heapShards h))%nat →
  ∃ i h', AllocStructOnHeap n md h shard s = Ok (i, h') ∧ heap_ok h' ∧ hextends h h'
    ∧ length (m_heapShards h') = length (m_heapShards h)
    ∧ struct_value n md h' (λ x, ¬ hlive h x) i s.
Proof. apply AllocStruct_aux. Qed.

(** ** Deep copy *)
(** The value at [b] is a copy of the one at [a]: equal cells, except that each
    struct field of [b] holds a copy of [a]'s.  Records of the source satisfy [P],
    those of the copy [Q]. *)
Fixpoint copies (n : nat) (md : tables) (h : heap) (P Q : Z → Prop) (a b s : Z) : Prop :=
  match n with
  | O => False
  | S n => ∃ cs ra rb, structs md !!z s = Some cs ∧ P a ∧ Q b
      ∧ kind_at h a = Some RTK_Struct ∧ kind_at h b = Some RTK_Struct ∧ sidx_at h b = Some s
      ∧ rec_at h a = Some ra ∧ rec_at h b = Some rb ∧ length rb = (2 * sFieldCount cs)%nat
      ∧ (∀ c, (∀ j s', (j < sFieldCount cs)%nat → struct_field cs j = Ok (Some s') → c ≠ (2 * j)%nat) →
           rb !! c = ra !! c)
      ∧ ∀ j s', (j < sFieldCount cs)%nat → struct_field cs j = Ok (Some s') →
          ∃ ca cb, ra !! (2 * j)%nat = Some ca ∧ rb !! (2 * j)%nat = Some cb ∧ copies n md h P Q ca cb s'
  end.

Lemma copies_frame n md h h' (P Q P' Q' : Z → Prop) : ∀ a b s,
  (∀ x, P x → hlive h x → hsame h h' x ∧ P' x) → (∀ x, Q x → hlive h x → hsame h h' x ∧ Q' x) →
  copies n md h P Q a b s → copies n md h' P' Q' a b s.
Proof.
  induction n as [|n IH]; intros a b s HP HQ; [done|].
  intros (cs & ra & rb & H1 & H2 & H3 & H4 & H5 & H6 & H7 & H8 & H9 & H10 & H11).
  destruct (HP a H2) as [(A1 & A2 & A3) PA]; [by exists RTK_Struct|].
  destruct (HQ b H3) as [(B1 & B2 & B3) QB]; [by exists RTK_Struct|].
  exists cs, ra, rb. split_and!; try congruence; try done. intros j s' Hj Hf.
  destruct (H11 j s' Hj Hf) as (ca & cb & ? & ? & Hc). exists ca, cb. split_and!; [done..|]. by apply IH.
Qed.

(** A copy is a value of its type. *)
Lemma copies_value n md h P Q : ∀ a b s, copies n md h P Q a b s → struct_value n md h Q b s.
Proof.
  induction n as [|n IH]; intros a b s; [done|].
  intros (cs & ra & rb & H1 & H2 & H3 & H4 & H5 & H6 & H7 & H8 & H9 & H10 & H11).
  exists cs, rb. split_and!; try done. intros j s' Hj Hf.
  destruct (H11 j s' Hj Hf) as (xa & xb & _ & Hb & Hx). exists xb. split; [done|]. by eapply IH.
Qed.

(** What the copy loop keeps, beside [building]. *)
Definition copying (n : nat) (md : tables) (h0 : heap) (P : Z → Prop) (i : Z) (cs : CompiledStruct)
    (src : list Z) (k : nat) (h : heap) : Prop :=
  ∃ r, rec_at h i = Some r
    ∧ (∀ c, (∀ j s', (j < k)%nat → struct_field cs j = Ok (Some s') → c ≠ (2 * j)%nat) → r !! c = src !! c)
    ∧ ∀ j s', (j < k)%nat → struct_field cs j = Ok (Some s') →
        ∃ ca cb, src !! (2 * j)%nat = Some ca ∧ r !! (2 * j)%nat = Some cb
          ∧ copies n md h P (λ x, ¬ hlive h0 x ∧ x ≠ i) ca cb s'.

Lemma copying_nested n md h0 (P : Z → Prop) i s cs src k h h1 h2 ca c s' :
  (∀ x, P x → hlive h0 x) → building n md h0 i (struct_plan s cs) k h → copying n md h0 P i cs src k h →
  (k < sFieldCount cs)%nat → struct_field cs k = Ok (Some s') → src !! (2 * k)%nat = Some ca →
  heap_ok h1 → hextends h h1 → copies n md h1 P (λ x, ¬ hlive h x) ca c s' →
  set_cell h1 i (2 * k) c = Ok h2 → copying n md h0 P i cs src (S k) h2.
Proof.
  intros HP B (r & R1 & R2 & R3) Hk Hf Hca Hok Hext Hcp E.
  pose proof (building_live _ _ _ _ _ _ _ (struct_plan_ok s cs) B) as Hi.
  destruct (bd_rec _ _ _ _ _ _ _ B) as (r0 & R1' & Hlen & _). rewrite R1 in R1'. injection R1' as <-.
  cbn [p_len struct_plan] in Hlen.
  assert (rec_at h1 i = Some r) as Hr1 by (by destruct (Hext i Hi) as (-> & _)).
  destruct (set_cell_spec h1 i r (2 * k) c Hok Hr1) as (h2' & E' & C1 & C2 & C3 & _); [lia|].
  rewrite E in E'. injection E' as <-.
  assert (∀ x, P x → x ≠ i) as HPi.
  { intros x Hx ->. by apply (bd_new _ _ _ _ _ _ _ B), HP. }
  exists (<[(2 * k)%nat := c]> r). split_and!; [done| |].
  - intros d Hd. rewrite list_lookup_insert_ne by (symmetry; eapply Hd; [|exact Hf]; lia).
    apply R2. intros j sj Hj. apply Hd. lia.
  - intros j sj Hj Hfj. destruct (decide (j = k)) as [->|Hjk].
    + assert (sj = s') as -> by congruence. exists ca, c.
      split_and!; [done|apply list_lookup_insert_eq; lia|].
      eapply copies_frame; [| |exact Hcp].
      * intros x Hx _. split; [|done]. apply C3. by apply HPi.
      * intros x Hx Hl. assert (x ≠ i) by (intros ->; done). split; [by apply C3|]. split; [|done].
        intros Hl0. apply Hx. by eapply hextends_live; [apply B|].
    + destruct (R3 j sj) as (xa & xb & Hxa & Hxb & Hx); [lia|done|]. exists xa, xb.
      split_and!; [done|rewrite list_lookup_insert_ne by lia; done|].
      eapply copies_frame; [| |exact Hx].
      * intros y Hy Hl. split; [|done]. eapply hsame_trans; [by apply Hext|]. apply C3. by apply HPi.
      * intros y [Hy Hyi] Hl. split; [|done]. eapply hsame_trans; [by apply Hext|]. by apply C3.
Qed.

Lemma DeepCopyStruct_aux n : ∀ md h shard (P : Z → Prop) src s,
  tables_ok md → heap_ok h → (shard < length (m_heapShards h))%nat →
  (∀ x, P x → hlive h x) → struct_value n md h P src s →
  ∃ i h', DeepCopyStruct n md h shard src s = Ok (i, h') ∧ heap_ok h' ∧ hextends h h'
    ∧ length (m_heapShards h') = length (m_heapShards h)
    ∧ copies n md h' P (λ x, ¬ hlive h x) src i s.
Proof.
  induction n as [|n IH]; intros md h shard P src s Hmd Hok Hsh HP Hv; [done|].
  destruct Hv as (cs & r0 & Hcs & HPs & Hk0 & Hs0 & Hr0 & Hlen0 & Hnest).
  pose proof (Hmd s cs Hcs) as Hso. cbn [DeepCopyStruct]. rewrite Hr0, Hcs.
  destruct (TakeHeapSlot_spec h shard Hok Hsh) as (i & h1 & -> & Ht). rewrite bindE. cbn beta iota zeta.
  pose proof (taken_building n md h i h1 (struct_plan s cs) r0 Ht Hlen0 ltac:(done)) as B0.
  assert (copying n md h P i cs r0 0 (set_slot h1 i r0 RTK_Struct s)) as C0.
  { destruct (set_slot_at h1 i r0 RTK_Struct s (tk_ok _ _ _ Ht)) as (R & _); [pose proof (tk_range _ _ _ Ht); lia|].
    exists r0. split_and!; [done|done|intros; lia]. }
  match goal with |- context [foldM ?f (set_slot ?a ?b ?c ?d ?e) (seq 0 ?m)] =>
    destruct (foldM_seq_inv f (λ k h', building n md h i (struct_plan s cs) k h' ∧ copying n md h P i cs r0 k h')
      m 0 (set_slot a b c d e) (conj B0 C0)) as (h2 & -> & B2 & C2) end.
  { intros k hk [_ Hk] [HB HC]. destruct (struct_field_ok cs k md Hso) as [f Hf]; [lia|]. rewrite Hf, bindE.
    destruct f as [s'|].
    - destruct (Hnest k s') as (ca & Hca & Hvc); [lia|done|]. rewrite Hca, derefE, bindE.
      pose proof (bd_ext _ _ _ _ _ _ _ HB) as Hext.
      destruct (IH md hk shard P ca s' Hmd) as (c & hc & -> & Hokc & Hextc & Hshc & Hcp);
        [apply HB|by rewrite (bd_shards _ _ _ _ _ _ _ HB)|intros x Hx; eapply hextends_live; [exact Hext|auto]| |].
      { eapply struct_value_frame; [|exact Hvc]. intros x Hx Hl. split; [by apply Hext|done]. }
      rewrite bindE. cbn beta iota.
      destruct (building_nested n md h i (struct_plan s cs) k hk c s' hc (struct_plan_ok s cs) HB)
        as (h' & E & HB'); [simpl; lia|by apply sfield_Some|done..|by eapply copies_value|].
      cbn [p_pos struct_plan] in E.
      exists h'. split; [done|]. split; [done|].
      by apply (copying_nested n md h P i s cs r0 k hk hc h' ca c s').
    - exists hk. split; [done|]. split.
      + apply building_skip; [done|]. simpl. unfold sfield. by rewrite Hf.
      + destruct HC as (r & R1 & R2 & R3). exists r. split_and!; [done| |].
        * intros c Hc. apply R2. intros j sj Hj. apply Hc. lia.
        * intros j sj Hj Hfj. apply R3; [|done]. destruct (decide (j = k)) as [->|]; [congruence|lia]. }
  rewrite bindE. eexists i, _. split; [done|]. simpl in B2, C2.
  assert (hextends h (HNoteGcPressure h2)) as Hext by apply B2.
  split_and!; [apply heap_ok_note, B2|done|apply B2|].
  destruct C2 as (r & R1 & R2 & R3). exists cs, r0, r.
  destruct (bd_rec _ _ _ _ _ _ _ B2) as (r' & R1' & Hlen & _). rewrite R1 in R1'. injection R1' as <-.
  destruct (Hext src) as (E1 & E2 & E3); [by apply HP|].
  split_and!; try done; try congruence; try apply B2.
  intros j s' Hj Hf. destruct (R3 j s' Hj Hf) as (xa & xb & ? & ? & Hx). exists xa, xb.
  split_and!; [done..|]. eapply copies_frame; [| |exact Hx].
  - intros y Hy Hl. done.
  - intros y [Hy _] Hl. done.
Qed.

(** copying a struct value gives value semantics: the copy is made entirely of
    records that were not live before, agrees with the source in every cell except
    that its struct fields hold copies of the source's, and no live record
    changes. *)
Theorem DeepCopyStruct_spec n md h shard (P : Z → Prop) src s :
  tables_ok md → heap_ok h → (shard < length (m_heapShards h))%nat →
  (∀ x, P x → hlive h x) → struct_value n md h P src s →
  ∃ i h', DeepCopyStruct n md h shard src s = Ok (i, h') ∧ heap_ok h' ∧ hextends h h'
    ∧ length (m_heapShards h') = length (m_heapShards h)
    ∧ copies n md h' P (λ x, ¬ hlive h x) src i s.
Proof. apply DeepCopyStruct_aux. Qed.

(** ** Class instances *)
Definition cfield (fields : list Entry) (j : nat) : option Z :=
  e ← fields !! j; nested_struct (Layout.kind e) (Layout.structIdx e).
Definition class_plan (c : Z) (fields : list Entry) : plan :=
  MkPlan RTK_Class 0 (1 + 2 * length fields) (λ d, if decide (d = 0%nat) then Some c else None)
    (cfield fields) (λ j, 2 * j + 1)%nat (length fields).
Lemma class_plan_ok c fields : plan_ok (class_plan c fields).
Proof.
  split; simpl; [done|intros; lia| |intros; lia]. intros j s Hj Hs. by rewrite decide_False by lia.
Qed.

Lemma set_slot_cell h i r k s c v :
  heap_ok h → 0 ≤ i < Z.of_nat (length (m_structHeap h)) → (c < length r)%nat →
  set_cell (set_slot h i r k s) i c v = Ok (set_slot h i (<[c := v]> r) k s).
Proof.
  intros Hok Hi Hc. unfold set_cell. destruct (set_slot_at h i r k s Hok Hi) as (-> & _).
  rewrite derefE, bindE, decide_True by done. unfold set_slot, hwith_slots. simpl.
  by rewrite list_insert_insert_eq.
Qed.

(** Slot [i] holds an instance of class [c] with the given fields. *)
Definition instance_value (n : nat) (md : tables) (h : heap) (P : Z → Prop) (i c : Z)
    (fields : list Entry) : Prop :=
  ∃ r, P i ∧ kind_at h i = Some RTK_Class ∧ rec_at h i = Some r
    ∧ length r = (1 + 2 * length fields)%nat ∧ r !! 0%nat = Some c
    ∧ ∀ j s, cfield fields j = Some s → ∃ x, r !! (2 * j + 1)%nat = Some x ∧ struct_value n md h P x s.

Lemma AllocClass_aux n md h shard c fields :
  tables_ok md → layout md !!z c = Some fields → (∀ j s, cfield fields j = Some s → nests n md s) →
  heap_ok h → (shard < length (m_heapShards h))%nat →
  ∃ i h', AllocClassOnHeap n md h shard c = Ok (i, h') ∧ heap_ok h' ∧ hextends h h'
    ∧ length (m_heapShards h') = length (m_heapShards h)
    ∧ instance_value n md h' (λ x, ¬ hlive h x) i c fields.
Proof.
  intros Hmd Hl Hn Hok Hsh. unfold AllocClassOnHeap. rewrite Hl.
  destruct (TakeHeapSlot_spec h shard Hok Hsh) as (i & h1 & -> & Ht). rewrite bindE. cbn beta iota zeta.
  set (r0 := replicate (1 + 2 * length fields) 0).
  assert (length r0 = (1 + 2 * length fields)%nat) as Hlen by apply length_replicate.
  pose proof (tk_range _ _ _ Ht).
  rewrite set_slot_cell by (apply Ht || lia). rewrite bindE.
  assert (building n md h i (class_plan c fields) 0
    (set_slot h1 i (<[0%nat := c]> r0) RTK_Class 0)) as B0.
  { apply (taken_building n md h i h1 (class_plan c fields)); [done|rewrite length_insert; exact Hlen|].
    intros d v Hd. simpl in Hd. case_decide as Hd0; [|done]. injection Hd as <-. subst d.
    apply list_lookup_insert_eq. lia. }
  match goal with |- context [foldM ?f (set_slot ?a ?b ?d ?e ?g) (seq 0 ?m)] =>
    destruct (foldM_seq_inv f (λ k h', building n md h i (class_plan c fields) k h') m 0
      (set_slot a b d e g) B0) as (h2 & -> & B2) end.
  { intros k hk [_ Hk] HB. destruct (lookup_lt_is_Some_2 fields k) as [e He]; [lia|].
    rewrite He, derefE, bindE.
    assert (cfield fields k = nested_struct (Layout.kind e) (Layout.structIdx e)) as Hcf
      by (unfold cfield; by rewrite He).
    destruct (nested_struct _ _) as [s|].
    - destruct (AllocStruct_aux n md hk shard s Hmd) as (x & hx & -> & Hokx & Hextx & Hshx & Hvx);
        [by apply (Hn k)|apply HB|by rewrite (bd_shards _ _ _ _ _ _ _ HB)|].
      rewrite bindE. cbn beta iota.
      destruct (building_nested n md h i (class_plan c fields) k hk x s hx (class_plan_ok c fields) HB)
        as (h' & E & HB'); [simpl; lia|done..|]. by exists h'.
    - exists hk. split; [done|]. by apply building_skip. }
  rewrite bindE. exists i, h2. split; [done|]. simpl in B2.
  destruct B2 as [C1 C2 C3 C4 C5 (r & R1 & R2 & R2' & R3) C7]. split_and!; [done..|].
  exists r. split_and!; [done..|by apply R2'|]. intros j s Hf.
  assert (j < length fields)%nat as Hj.
  { unfold cfield in Hf. destruct (fields !! j) eqn:E; [|done]. by eapply lookup_lt_Some. }
  destruct (R3 j s Hj Hf) as (x & Hx & Hv). exists x. split; [done|].
  eapply struct_value_frame; [|exact Hv]. by intros y [Hy _] _.
Qed.

(** allocating a class instance returns a slot that held no live record, with
    the class index in cell 0, the layout's size, and each struct field holding a
    fresh value of its type; no live record changes and the invariant is kept. *)
Theorem AllocClassOnHeap_spec n md h shard c fields :
  tables_ok md → layout md !!z c = Some fields → (∀ j s, cfield fields j = Some s → nests n md s) →
  heap_ok h → (shard < length (m_heapShards h))%nat →
  ∃ i h', AllocClassOnHeap n md h shard c = Ok (i, h') ∧ heap_ok h' ∧ hextends h h'
    ∧ length (m_heapShards h') = length (m_heapShards h)
    ∧ instance_value n md h' (λ x, ¬ hlive h x) i c fields.
Proof. apply AllocClass_aux. Qed.

Lemma InitStructHeap_ok carriers threshold st :
  store_ok st → length (m_strShards st) = S carriers → heap_ok (InitStructHeap carriers threshold st).
Proof.
  intros Hs Hl. apply heap_ok_sync.
  assert (free (Configure (carriers + 1)) = []) as Hfree.
  { unfold free, Configure. induction (carriers + 1)%nat; [done|]. by simpl. }
  split; simpl; try done.
  - by apply store_ok_with_pressure.
  - unfold Configure. rewrite length_replicate. lia.
  - unfold Configure. rewrite length_replicate. lia.
  - rewrite Hfree. constructor.
  - rewrite Hfree. by intros i ?%elem_of_nil.
Qed.

(** ** Witnesses *)
Definition no_default : DefaultValueDesc := MkDefault RTK_Void 0 0 0 0 0.
(** A point with a defaulted int field, a box around a point with a defaulted
    string, and a class with a box field. *)
Definition demo_tables : tables := MkTables
  [MkStruct 1 [0] [65535] [MkDefault RTK_Int32 7 0 0 0 0];
   MkStruct 2 [3; 2] [0; 65535] [no_default; MkDefault RTK_String 0 0 0 0 0]]
  [[MkEntry "x" 0 65535 65535; MkEntry "b" 3 1 65535]] [] [[104; 105]].
Definition demo_heap : heap := InitStructHeap 1 1000 demo.

Lemma demo_tables_ok : tables_ok demo_tables.
Proof.
  intros s cs Hs. pose proof (zlookup_Some_lt _ _ _ Hs) as Hr. simpl in Hr.
  assert (s = 0 ∨ s = 1) as [-> | ->] by lia; injection Hs as <-; (split; [done|done|]);
    intros i d Hd Hv; destruct i as [|[|i]]; simplify_eq/=; try done.
  - split_and!; [done|left|done].
  - split_and!; [done|apply (bool_decide_unpack _); vm_compute; exact I|by eexists].
Qed.
Lemma demo_nests : nests 1 demo_tables 0 ∧ nests 2 demo_tables 1.
Proof.
  assert (∀ n, nests (S n) demo_tables 0) as H0.
  { intros n. eexists. split; [done|]. intros i s' Hi Hf. simpl in Hi.
    assert (i = 0%nat) as -> by lia. done. }
  split; [apply H0|]. eexists. split; [done|]. intros i s' Hi Hf. simpl in Hi.
  destruct i as [|[|i]]; [|done|lia]. injection Hf as <-. apply H0.
Qed.
Lemma demo_heap_ok : heap_ok demo_heap ∧ (0 < length (m_heapShards demo_heap))%nat.
Proof.
  split; [|vm_compute; lia]. apply InitStructHeap_ok; [apply demo_ok|vm_compute; reflexivity].
Qed.

(** The heap after allocating one point. *)
Definition one_point : heap :=
  match AllocStructOnHeap 1 demo_tables demo_heap 0 0 with Ok (_, h) => h | Raise _ => demo_heap end.
Lemma one_point_slots :
  m_structHeap one_point = [[]; [7; 0]; []; []; []] ∧ m_slotKinds one_point = [0; 3; 0; 0; 0]
  ∧ m_slotStructIdx one_point = [0; 0; 0; 0; 0] ∧ length (m_heapShards one_point) = 2%nat.
Proof. vm_compute. done. Qed.
Lemma one_point_kind x k : kind_at one_point x = Some k → k ≠ 0 → x = 1 ∧ k = RTK_Struct.
Proof.
  unfold kind_at. rewrite (proj1 (proj2 one_point_slots)). intros Hk Hn.
  pose proof (zlookup_Some_lt _ _ _ Hk) as Hr. simpl in Hr.
  assert (x = 0 ∨ x = 1 ∨ x = 2 ∨ x = 3 ∨ x = 4) as Hx by lia.
  destruct Hx as [->|[->|[->|[->| ->]]]]; vm_compute in Hk; simplify_eq; done.
Qed.

Lemma AllocStructOnHeap_spec_witness :
  ∃ i h', AllocStructOnHeap 2 demo_tables demo_heap 0 1 = Ok (i, h') ∧ heap_ok h'
    ∧ struct_value 2 demo_tables h' (λ x, ¬ hlive demo_heap x) i 1.
Proof.
  destruct (AllocStructOnHeap_spec 2 demo_tables demo_heap 0 1 demo_tables_ok (proj2 demo_nests)
    (proj1 demo_heap_ok) (proj2 demo_heap_ok)) as (i & h' & H1 & H2 & _ & _ & H3).
  exists i, h'. split; [exact H1|]. split; [exact H2|exact H3].
Defined.
Lemma DeepCopyStruct_spec_witness :
  ∃ h src, ∃ i h', DeepCopyStruct 2 demo_tables h 0 src 1 = Ok (i, h')
    ∧ copies 2 demo_tables h' (hlive h) (λ x, ¬ hlive h x) src i 1.
Proof.
  destruct (AllocStruct_aux 2 demo_tables demo_heap 0 1 demo_tables_ok (proj2 demo_nests)
    (proj1 demo_heap_ok) (proj2 demo_heap_ok)) as (src & h & _ & Hok & _ & Hl & Hv).
  destruct (DeepCopyStruct_spec 2 demo_tables h 0 (hlive h) src 1) as (i & h' & H1 & _ & _ & _ & H2).
  - exact demo_tables_ok.
  - exact Hok.
  - rewrite Hl. exact (proj2 demo_heap_ok).
  - intros x Hx. exact Hx.
  - eapply struct_value_frame; [|exact Hv]. intros x _ Hx. split; [done|exact Hx].
  - exists h, src, i, h'. split; [exact H1|exact H2].
Defined.
Lemma AllocClassOnHeap_spec_witness :
  ∃ i h', AllocClassOnHeap 2 demo_tables demo_heap 0 0 = Ok (i, h') ∧ heap_ok h'.
Proof.
  destruct (AllocClassOnHeap_spec 2 demo_tables demo_heap 0 0 _ demo_tables_ok eq_refl)
    as (i & h' & H1 & H2 & _).
  - intros j s Hs. destruct j as [|[|j]]; [done| |done]. injection Hs as <-. apply demo_nests.
  - exact (proj1 demo_heap_ok).
  - exact (proj2 demo_heap_ok).
  - exists i, h'. split; [exact H1|exact H2].
Defined.
