(* ===== verification/HeapGC.v ===== *)
(** * Object heap: marking

    Models the mark phase: [src/src/vm/VmExecutorGC.cpp] (the trace arms and the
    worklist), [VmExecutorGCContainers.cpp] and the root scans of
    [VmExecutorGCRoots.cpp].  An arm is the list of references it tests, in its
    order; [visit] is the test-mark-enqueue step they share.  The scans run at the
    rendezvous, where nothing else runs, so the phase is sequential. *)
From S2P Require Import Prelude Bytecode Prims TypeDesc Shards Strings StringsGC StringOps Layout Heap.

Open Scope Z_scope.

(** ** State *)
(** The container side tables, as far as the collector reads them, and the class
    indices that select them ([int16_t], -1 when the class is absent). *)
Record gc := MkGc {
  hp : heap;
  m_markBits : list bool;
  m_listStore : list (list Z);
  m_dictStore : list (list (Z * Z));
  m_channelStore : list (list Z);
  m_listClassIdx : Z;
  m_dictClassIdx : Z;
  m_channelClassIdx : Z
}.
Definition gwith (g : gc) (h : heap) (marks : list bool) : gc :=
  MkGc h marks (m_listStore g) (m_dictStore g) (m_channelStore g)
    (m_listClassIdx g) (m_dictClassIdx g) (m_channelClassIdx g).

(** ** References *)
(** A string handle; a heap index accepted by the kind of its slot; a value tested
    in both domains. *)
Inductive child :=
  | StrRef (v : Z)
  | HeapRef (v : Z) (accept : Z → bool)
  | AnyRef (v : Z).
Definition any_kind : Z → bool := λ _, true.

Definition work : Type := gc * list Z.
Definition PushMarked (w : work) (idx : Z) : work :=
  let '(g, wl) := w in (gwith g (hp g) (<[Z.to_nat idx := true]> (m_markBits g)), idx :: wl).

(** [val > 0 && val < m_slotKinds.size() && accept(kind) && !m_markBits[val]] *)
Definition heap_target (g : gc) (v : Z) (accept : Z → bool) : bool :=
  bool_decide (0 < v) && match kind_at (hp g) v with Some k => accept k | None => false end.
Definition test_heap (w : work) (v : Z) (accept : Z → bool) : work :=
  if heap_target (fst w) v accept && negb (default false (m_markBits (fst w) !!z v))
  then PushMarked w v else w.
Definition mark_str (w : work) (v : Z) : outcome work :=
  let '(g, wl) := w in
  st ← MarkString (strs (hp g)) v; Ok (gwith g (hwith_strs (hp g) st) (m_markBits g), wl).

Definition TestRootValue (w : work) (val : Z) : outcome work :=
  if decide (val ≤ 0) then Ok w
  else
    w ← (if decide (val < Z.of_nat (length (m_stringObjs (strs (hp (fst w))))))
         then mark_str w val else Ok w);
    Ok (test_heap w val any_kind).

Definition visit (w : work) (c : child) : outcome work :=
  match c with
  | StrRef v => mark_str w v
  | HeapRef v accept => Ok (test_heap w v accept)
  | AnyRef v => TestRootValue w v
  end.

(** ** Trace arms *)
Definition DeclaredFieldAcceptsRuntime (declaredKind runtimeKind : Z) : bool :=
  ((declaredKind =? RTK_Class) && ((runtimeKind =? RTK_Class) || (runtimeKind =? RTK_Boxed)
     || (runtimeKind =? RTK_Array) || (runtimeKind =? RTK_ArrayView)))
  || ((declaredKind =? RTK_Struct) && (runtimeKind =? RTK_Struct))
  || ((declaredKind =? RTK_Func) && (runtimeKind =? RTK_Func))
  || ((declaredKind =? RTK_Array) && ((runtimeKind =? RTK_Array) || (runtimeKind =? RTK_ArrayView))).
Definition ArrayElemKindAccepts := DeclaredFieldAcceptsRuntime.
Definition IsChildBearingHeapKind (k : Z) : bool :=
  (k =? RTK_Class) || (k =? RTK_Struct) || (k =? RTK_Boxed) || (k =? RTK_Func)
  || (k =? RTK_Array) || (k =? RTK_ArrayView).

Definition MarkFuncReceiver (g : gc) (idx : Z) : outcome (list child) :=
  thisIdx ← get_cell (hp g) idx 1; Ok [HeapRef thisIdx (λ k, k =? RTK_Class)].

Definition MarkBoxedPayload (g : gc) (idx : Z) : outcome (list child) :=
  t ← get_cell (hp g) idx 0;
  if decide (t = RTK_String) then v ← get_cell (hp g) idx 1; Ok [StrRef v] else Ok [].

(** Loops over an index collect their references in order. *)
Definition collect {A} (f : nat → outcome A) (n : nat) : outcome (list A) :=
  foldM (λ out i, a ← f i; Ok (out ++ [a])) [] (seq 0 n).

Definition MarkClassFields (md : tables) (g : gc) (idx : Z) : outcome (list child) :=
  classIdx ← get_cell (hp g) idx 0;
  fields ← Fields (layout md) classIdx;
  collect (λ i,
    f ← deref (fields !! i);
    refIdx ← get_cell (hp g) idx (2 * i + 1);
    Ok (if decide (Layout.kind f = RTK_String) then StrRef refIdx
        else if decide (Layout.kind f = RTK_TypeParam) then AnyRef refIdx
        else HeapRef refIdx (DeclaredFieldAcceptsRuntime (Layout.kind f)))) (length fields).

Definition MarkStructFields (md : tables) (g : gc) (idx : Z) : outcome (list child) :=
  structIdx ← deref (sidx_at (hp g) idx);
  cs ← deref (structs md !!z structIdx);
  collect (λ i,
    refIdx ← get_cell (hp g) idx (2 * i);
    k ← deref (sFieldTypeKinds cs !! i);
    Ok (if decide (k = RTK_String) then StrRef refIdx
        else HeapRef refIdx (DeclaredFieldAcceptsRuntime k))) (sFieldCount cs).

Definition ArrayHeaderCells (rank : Z) : Z := let cells := 4 + rank in cells + Z.land cells 1.
Definition ArrayViewStridesBase (rank : Z) : Z := 4 + rank.
Definition ArrayViewOffsetCell (rank : Z) : Z := 4 + 2 * rank.
Definition ArrayViewTargetCell (rank : Z) : Z := 5 + 2 * rank.
Definition ArrayViewRecordCells (rank : Z) : Z := 6 + 2 * rank.
Definition ArrayElemCells (elemRtk : Z) : Z :=
  match ScalarPrimIndexOfRtk elemRtk with
  | Some (_, row) => if decide (4 < slotWidth row)%nat then 2 else 1
  | None => 1
  end.
Definition ArrayPayloadBase (record : list Z) : outcome Z :=
  let err what := Raise (RuntimeError what) in
  if decide (length record < 4)%nat then err "NLang VM: corrupt array record (truncated header)"%string
  else
    rank ← deref (record !! 2%nat);
    if decide (rank < 1 ∨ kMaxArrayRank < rank)
    then err "NLang VM: corrupt array record (rank out of range)"%string
    else if decide (Z.of_nat (length record) < ArrayHeaderCells rank)
    then err "NLang VM: corrupt array record (truncated dimensions)"%string
    else Ok (ArrayHeaderCells rank).

Definition MarkArrayElements (md : tables) (g : gc) (idx : Z) : outcome (list child) :=
  arrayTypeIdx ← deref (sidx_at (hp g) idx);
  at_ ← deref (arrayTypes md !!z arrayTypeIdx);
  record ← deref (rec_at (hp g) idx);
  payloadBase ← ArrayPayloadBase record;
  len ← deref (record !! 3%nat);
  collect (λ i,
    elemRef ← get_cell (hp g) idx (Z.to_nat (payloadBase + Z.of_nat i * ArrayElemCells (elemKind at_)));
    Ok (if decide (elemKind at_ = RTK_String) then StrRef elemRef
        else HeapRef elemRef (ArrayElemKindAccepts (elemKind at_)))) (Z.to_nat len).

Definition MarkArrayViewTarget (g : gc) (idx : Z) : outcome (list child) :=
  viewRank ← get_cell (hp g) idx 2;
  if decide (viewRank < 1 ∨ kMaxArrayRank < viewRank)
  then Raise (RuntimeError "NLang VM: corrupt view record (rank out of range)")
  else
    targetIdx ← get_cell (hp g) idx (Z.to_nat (ArrayViewTargetCell viewRank));
    Ok [HeapRef targetIdx (λ k, k =? RTK_Array)].

Definition kListHandleFieldOffset : nat := 1.
(** The guard the three container arms share: the side table row of the instance. *)
Definition container_row {A} (g : gc) (idx classIdx : Z) (table : list (list A)) : outcome (list A) :=
  c ← get_cell (hp g) idx 0;
  if decide (i16 c ≠ classIdx) then Ok []
  else
    handle ← get_cell (hp g) idx kListHandleFieldOffset;
    Ok (if decide (handle ≤ 0) then [] else default [] (table !!z (handle - 1))).
Definition elem_ref (v : Z) : child := HeapRef v IsChildBearingHeapKind.
Definition MarkListElements (g : gc) (idx : Z) : outcome (list child) :=
  l ← container_row g idx (m_listClassIdx g) (m_listStore g); Ok (map elem_ref l).
Definition MarkDictEntries (g : gc) (idx : Z) : outcome (list child) :=
  l ← container_row g idx (m_dictClassIdx g) (m_dictStore g);
  Ok (concat (map (λ '(k, v), [elem_ref k; elem_ref v]) l)).
Definition MarkChannelElements (g : gc) (idx : Z) : outcome (list child) :=
  l ← container_row g idx (m_channelClassIdx g) (m_channelStore g); Ok (map elem_ref l).

(** The dispatch on the kind of the popped slot. *)
Definition children (md : tables) (g : gc) (idx : Z) : outcome (list child) :=
  k ← deref (kind_at (hp g) idx);
  if decide (k = RTK_Func) then MarkFuncReceiver g idx
  else if decide (k = RTK_Boxed) then MarkBoxedPayload g idx
  else if decide (k = RTK_Class) then
    a ← MarkClassFields md g idx;
    b ← MarkListElements g idx;
    c ← MarkDictEntries g idx;
    d ← MarkChannelElements g idx;
    Ok (a ++ b ++ c ++ d)
  else if decide (k = RTK_Struct) then MarkStructFields md g idx
  else if decide (k = RTK_Array) then MarkArrayElements md g idx
  else if decide (k = RTK_ArrayView) then MarkArrayViewTarget g idx
  else Ok [].

(** ** The phase *)
(** Each slot is enqueued at most once: the heap size bounds the iterations. *)
Fixpoint trace (fuel : nat) (md : tables) (w : work) : outcome gc :=
  let '(g, wl) := w in
  match wl with
  | [] => Ok g
  | idx :: wl =>
      match fuel with
      | O => Raise OutOfFuel
      | S fuel =>
          cs ← children md g idx;
          w ← foldM visit (g, wl) cs;
          trace fuel md w
      end
  end.

(** [roots] is what the root scans test, in order. *)
Definition MarkPhase (md : tables) (g : gc) (roots : list child) : outcome gc :=
  let h := hp g in
  let st := with_marks (strs h) (replicate (length (m_stringObjs (strs h))) false) in
  let size := length (m_structHeap h) in
  w ← foldM visit (gwith g (hwith_strs h st) (replicate size false), []) roots;
  trace (S size) md w.

(** ** Root scans *)
Record LocalDescriptor := MkLocal { ld_offset : Z; isParam : bool; typeKind : Z }.
Record CallFrame := MkFrame {
  f_locals : list LocalDescriptor; f_paramCount : nat; f_mask : list Z; f_returnTypeKind : Z;
  localsBuf : bytes; resultCell : option bytes
}.
(** A value of a declared kind; [None] when the kind holds no reference. *)
Definition declared_root (k v : Z) : option child :=
  if decide (k = RTK_String) then Some (StrRef v)
  else if decide (k = RTK_TypeParam) then Some (AnyRef v)
  else if decide (k ∈ [RTK_Struct; RTK_Class; RTK_Array; RTK_Func]) then Some (HeapRef v any_kind)
  else None.
Definition MarkFrameLocals (f : CallFrame) : outcome (list child) :=
  foldM (λ out ld,
    if isParam ld && bool_decide (typeKind ld ∈ [RTK_Struct; RTK_Class; RTK_Array; RTK_Func; RTK_String; RTK_TypeParam])
    then v ← ld32 (localsBuf f) (ld_offset ld);
         Ok (out ++ option_list (declared_root (typeKind ld) v))
    else Ok out) [] (f_locals f).

Definition ESC_None : Z := 0.
Definition ESC_StrHandle : Z := 1.
Definition ESC_HeapIndex : Z := 2.
Definition kFrameSlotBytes : nat := 8.
(** [conservative] is the test knob. *)
Definition MarkFrameBand (conservative : bool) (f : CallFrame) : outcome (list child) :=
  let slots := (length (localsBuf f) / kFrameSlotBytes)%nat in
  let bandSlots := (slots - f_paramCount f)%nat in
  let maskUsable := negb conservative && bool_decide (length (f_mask f) = (bandSlots + 3) / 4)%nat in
  foldM (λ out i,
    v ← ld32 (localsBuf f) (Z.of_nat ((f_paramCount f + i) * kFrameSlotBytes));
    if negb maskUsable then Ok (out ++ [AnyRef v])
    else
      m ← deref (f_mask f !! (i / 4)%nat);
      let cls := Z.land (Z.shiftr m (Z.of_nat ((i mod 4) * 2))) 3 in
      Ok (out ++ (if decide (cls = ESC_None) then []
                  else (if decide (Z.land cls ESC_StrHandle ≠ 0) then [StrRef v] else [])
                    ++ (if decide (Z.land cls ESC_HeapIndex ≠ 0) then [HeapRef v any_kind] else []))))
    [] (seq 0 bandSlots).

(** The return cell: a string, or one of the four reference kinds. *)
Definition return_root (k v : Z) : list child :=
  if decide (k = RTK_String) then [StrRef v]
  else if decide (k ∈ [RTK_Class; RTK_Struct; RTK_Array; RTK_Func]) then [HeapRef v any_kind]
  else [].
Definition MarkFrameResult (f : CallFrame) : outcome (list child) :=
  match resultCell f with
  | None => Ok []
  | Some cell => v ← ld32 cell 0; Ok (return_root (f_returnTypeKind f) v)
  end.
Definition MarkFrame (conservative : bool) (f : CallFrame) : outcome (list child) :=
  a ← MarkFrameLocals f;
  b ← MarkFrameResult f;
  c ← MarkFrameBand conservative f;
  Ok (a ++ b ++ c).

(** Static slots: declared kind and cell. *)
Definition MarkStaticSlotRoots (slots : list (Z * bytes)) : outcome (list child) :=
  foldM (λ out '(k, cell),
    match declared_root k 0 with
    | None => Ok out
    | Some _ => v ← ld32 cell 0; Ok (out ++ option_list (declared_root k v))
    end) [] slots.

(** Host roots: kind and value. *)
Definition MarkHostRoots (roots : list (Z * Z)) : list child :=
  (λ '(k, v), if decide (k = RTK_String) then StrRef v else HeapRef v any_kind) <$> roots.

Definition MarkNativeCallRoots (cells : list bytes) : outcome (list child) :=
  foldM (λ out cell, v ← ld32 cell 0; Ok (out ++ [AnyRef v])) [] cells.

Record ExecutionContext := MkCtx {
  ctx_frames : list CallFrame; threadObjHeapIdx : Z; failExcHeapIdx : Z; resumeExcHeapIdx : Z;
  unclassifiedResult : bool; ctx_done : bool; ctx_resultCell : bytes; ctx_resultKind : Z
}.
Definition MarkContextResultCell (ctx : ExecutionContext) : outcome (list child) :=
  if unclassifiedResult ctx || negb (ctx_done ctx) then
    lo ← ld32 (ctx_resultCell ctx) 0;
    hi ← ld32 (ctx_resultCell ctx) 4;
    Ok [AnyRef lo; AnyRef hi]
  else
    v ← ld32 (ctx_resultCell ctx) 0; Ok (return_root (ctx_resultKind ctx) v).
Definition MarkSchedulerRoots (conservative : bool) (ctxs : list ExecutionContext) : outcome (list child) :=
  foldM (λ out ctx,
    fs ← foldM (λ out f, l ← MarkFrame conservative f; Ok (out ++ l)) [] (ctx_frames ctx);
    rc ← MarkContextResultCell ctx;
    Ok (out ++ fs ++ [HeapRef (threadObjHeapIdx ctx) any_kind; HeapRef (failExcHeapIdx ctx) any_kind;
                      HeapRef (resumeExcHeapIdx ctx) any_kind] ++ rc)) [] ctxs.

(** The frames of every registered stack, then the scheduler's contexts. *)
Definition ScanFrameRootSurfaces (conservative : bool) (stacks : list (list CallFrame))
    (ctxs : list ExecutionContext) : outcome (list child) :=
  a ← foldM (λ out f, l ← MarkFrame conservative f; Ok (out ++ l)) [] (concat stacks);
  b ← MarkSchedulerRoots conservative ctxs;
  Ok (a ++ b).
(** Everything [MarkPhase] scans, in its order. *)
Record root_surfaces := MkSurfaces {
  rs_stacks : list (list CallFrame); rs_contexts : list ExecutionContext;
  rs_native : list bytes; rs_host : list (Z * Z); rs_static : list (Z * bytes)
}.
Definition phase_roots (conservative : bool) (s : root_surfaces) : outcome (list child) :=
  a ← ScanFrameRootSurfaces conservative (rs_stacks s) (rs_contexts s);
  b ← MarkNativeCallRoots (rs_native s);
  d ← MarkStaticSlotRoots (rs_static s);
  Ok (a ++ b ++ MarkHostRoots (rs_host s) ++ d).

(** ** What a reference keeps alive *)
Definition hmarked (g : gc) (x : Z) : bool := default false (m_markBits g !!z x).
Definition smarked (g : gc) (x : Z) : bool := StringsGC.marked (strs (hp g)) x.

Definition heap_child (g : gc) (c : child) (y : Z) : Prop :=
  match c with
  | StrRef _ => False
  | HeapRef v accept => y = v ∧ heap_target g v accept = true
  | AnyRef v => y = v ∧ heap_target g v any_kind = true
  end.
Definition str_child (c : child) (v : Z) : Prop :=
  match c with StrRef u | AnyRef u => v = u | HeapRef _ _ => False end.

(** The mark bits are the only thing the phase changes. *)
Record phase_ok (g : gc) : Prop := {
  ph_marks : length (m_markBits g) = length (m_structHeap (hp g));
  ph_kinds : length (m_slotKinds (hp g)) = length (m_structHeap (hp g));
  ph_smarks : length (m_strMarkBits (strs (hp g))) = length (m_stringObjs (strs (hp g)));
  ph_closed : closed (strs (hp g))
}.
Definition remarked (g : gc) (ms marks : list bool) : gc :=
  gwith g (hwith_strs (hp g) (with_marks (strs (hp g)) ms)) marks.

(** [visits g wl H S g' wl']: the heap targets [H] and what the string handles [S]
    reach got marked, the new heap ones were enqueued. *)
Record visits (g : gc) (wl : list Z) (H S : Z → Prop) (g' : gc) (wl' : list Z) : Prop := {
  vs_ok : phase_ok g';
  vs_same : ∃ ms marks, g' = remarked g ms marks;
  vs_heap : ∀ y, hmarked g' y = true ↔ hmarked g y = true ∨ H y;
  vs_str : ∀ x, smarked g' x = true ↔ smarked g x = true ∨ ∃ v, S v ∧ reach (strs (hp g)) v x;
  vs_work : ∀ y, y ∈ wl' ↔ y ∈ wl ∨ (H y ∧ hmarked g y = false);
  vs_measure : (length wl' + unmarked (m_markBits g') = length wl + unmarked (m_markBits g))%nat
}.

Lemma remarked_same g : remarked g (m_strMarkBits (strs (hp g))) (m_markBits g) = g.
Proof. destruct g as [[? ? ? ? ? []]]. done. Qed.
Lemma remarked_twice g ms marks ms' marks' :
  remarked (remarked g ms marks) ms' marks' = remarked g ms' marks'.
Proof. done. Qed.
Lemma children_remarked md g ms marks idx : children md (remarked g ms marks) idx = children md g idx.
Proof. done. Qed.
Lemma heap_child_remarked g ms marks c y : heap_child (remarked g ms marks) c y ↔ heap_child g c y.
Proof. done. Qed.

Lemma visits_refl g wl : phase_ok g → visits g wl (λ _, False) (λ _, False) g wl.
Proof.
  intros Hok. split; try done.
  - eexists _, _. symmetry. apply remarked_same.
  - intros y. tauto.
  - intros x. split; [by left|]. by intros [?|(v & [] & _)].
  - intros y. tauto.
Qed.
Lemma visits_trans g wl H1 S1 g1 wl1 H2 S2 g2 wl2 :
  visits g wl H1 S1 g1 wl1 → visits g1 wl1 H2 S2 g2 wl2 →
  visits g wl (λ y, H1 y ∨ H2 y) (λ v, S1 v ∨ S2 v) g2 wl2.
Proof.
  intros [A1 (m1 & b1 & ->) A3 A4 A5 A6] [B1 (m2 & b2 & ->) B3 B4 B5 B6]. split; try done.
  - by exists m2, b2.
  - intros y. rewrite B3, A3. tauto.
  - intros x. rewrite B4, A4. split.
    + intros [[?|(v & ? & ?)]|(v & ? & Hr)]; [by left|right; exists v; tauto|right].
      exists v. split; [by right|]. by apply reach_with_marks in Hr.
    + intros [?|(v & [?|?] & Hr)]; [tauto|left; right; by exists v|right; exists v].
      split; [done|]. by apply reach_with_marks.
  - intros y. rewrite B5, A5. specialize (A3 y).
    destruct (hmarked (remarked g m1 b1) y) eqn:E, (hmarked g y) eqn:E'; intuition congruence.
  - lia.
Qed.
(** Target sets may be replaced by equivalent ones. *)
Lemma visits_proper g wl (H H' S S' : Z → Prop) g' wl' :
  (∀ y, H y ↔ H' y) → (∀ v x, reach (strs (hp g)) v x → (S v ↔ S' v)) →
  visits g wl H S g' wl' → visits g wl H' S' g' wl'.
Proof.
  intros EH ES [A1 A2 A3 A4 A5 A6]. split; try done.
  - intros y. by rewrite A3, EH.
  - intros x. rewrite A4. split; (intros [?|(v & Hv & Hr)]; [by left|right; exists v; split; [|done]]);
      by apply (ES v x Hr).
  - intros y. by rewrite A5, EH.
Qed.

Lemma mark_str_spec g wl v :
  phase_ok g → ∃ g', mark_str (g, wl) v = Ok (g', wl) ∧ visits g wl (λ _, False) (λ u, u = v) g' wl.
Proof.
  intros [P1 P2 P3 P4]. unfold mark_str.
  destruct (MarkString_aux (strs (hp g)) v P3 P4) as (ms & -> & L & C & M). rewrite bindE.
  eexists. split; [done|]. split; try done.
  - by exists ms, (m_markBits g).
  - intros y. tauto.
  - intros x. unfold smarked. simpl. rewrite M. split; [intros [?|?]; [by left|right; by exists v]|].
    intros [?|(u & -> & ?)]; [by left|by right].
  - intros y. tauto.
Qed.

Lemma test_heap_spec g wl v accept :
  phase_ok g →
  ∃ g' wl', test_heap (g, wl) v accept = (g', wl')
    ∧ visits g wl (λ y, y = v ∧ heap_target g v accept = true) (λ _, False) g' wl'.
Proof.
  intros Hok. unfold test_heap. cbn [fst]. fold (hmarked g v).
  destruct (heap_target g v accept) eqn:Ht; [destruct (hmarked g v) eqn:Hm|]; simpl.
  - exists g, wl. split; [done|]. split; try done.
    + eexists _, _. symmetry. apply remarked_same.
    + intros y. split; [by left|]. by intros [?|[-> _]].
    + intros x. split; [by left|]. by intros [?|(u & [] & _)].
    + intros y. split; [by left|]. intros [?|[[-> _] ?]]; [done|congruence].
  - assert (0 ≤ v < Z.of_nat (length (m_markBits g))) as Hv.
    { unfold heap_target in Ht. apply andb_true_iff in Ht as [Hp%bool_decide_eq_true Hk].
      destruct (kind_at (hp g) v) as [k|] eqn:E; [|done]. apply zlookup_Some_lt in E.
      rewrite (ph_marks g Hok), <- (ph_kinds g Hok). lia. }
    assert (m_markBits g !! Z.to_nat v = Some false) as Hf.
    { destruct (zlookup_is_Some (m_markBits g) v Hv) as [b Hb]. unfold hmarked in Hm.
      rewrite Hb in Hm. simpl in Hm. subst. unfold zlookup in Hb. by rewrite decide_True in Hb by lia. }
    eexists _, _. split; [done|]. destruct Hok as [P1 P2 P3 P4]. split.
    + split; try done. simpl. by rewrite length_insert.
    + exists (m_strMarkBits (strs (hp g))), (<[Z.to_nat v := true]> (m_markBits g)).
      unfold remarked. rewrite with_marks_same. by destruct g as [[]].
    + intros y. unfold hmarked at 1. simpl. destruct (decide (y = v)) as [->|Hy].
      * rewrite zlookup_insert_eq by done. simpl. tauto.
      * rewrite zlookup_insert_ne by (done || lia). fold (hmarked g y). tauto.
    + intros x. split; [by left|]. by intros [?|(u & [] & _)].
    + intros y. rewrite elem_of_cons. split; [intros [->|?]; tauto|].
      intros [?|[[-> _] _]]; tauto.
    + simpl. rewrite <- (unmarked_set (m_markBits g) (Z.to_nat v) Hf). lia.
  - exists g, wl. split; [done|]. eapply visits_proper; [| |apply visits_refl, Hok]; [|done].
    intros y. split; [done|]. by intros [_ ?].
Qed.

Lemma visit_spec g wl c :
  phase_ok g →
  ∃ g' wl', visit (g, wl) c = Ok (g', wl') ∧ visits g wl (heap_child g c) (str_child c) g' wl'.
Proof.
  intros Hok. destruct c as [v|v accept|v]; cbn [visit].
  - destruct (mark_str_spec g wl v Hok) as (g' & E & V). by exists g', wl.
  - destruct (test_heap_spec g wl v accept Hok) as (g' & wl' & -> & V). exists g', wl'.
    split; [done|]. exact V.
  - unfold TestRootValue. cbn [fst]. case_decide as Hv.
    + exists g, wl. split; [done|]. eapply visits_proper; [| |apply visits_refl, Hok].
      * intros y. split; [done|]. intros [_ Ht]. unfold heap_target in Ht.
        by rewrite bool_decide_false in Ht by lia.
      * intros u x Hr. split; [done|]. intros ->.
        assert (IsLiveStringHandle (strs (hp g)) v = true) as Hl by (induction Hr; done).
        rewrite IsLive_nonpos in Hl by lia. done.
    + match goal with |- context [mbind _ ?t] => set (m := t) end.
      assert (∃ g1, m = Ok (g1, wl) ∧ visits g wl (λ _, False) (λ u, u = v) g1 wl) as (g1 & -> & V1).
      { unfold m. case_decide as Hs.
        - destruct (mark_str_spec g wl v Hok) as (g' & E & V). by exists g'.
        - exists g. split; [done|]. eapply visits_proper; [| |apply visits_refl, Hok]; [done|].
          intros u x Hr. split; [done|]. intros ->.
          assert (IsLiveStringHandle (strs (hp g)) v = true) as Hl by (induction Hr; done).
          apply IsLive_live in Hl as (o & _ & Ho & _). apply zlookup_Some_lt in Ho. lia. }
      rewrite bindE. destruct (test_heap_spec g1 wl v any_kind) as (g2 & wl2 & -> & V2); [apply V1|].
      exists g2, wl2. split; [done|]. pose proof (visits_trans _ _ _ _ _ _ _ _ _ _ V1 V2) as V.
      destruct (vs_same _ _ _ _ _ _ V1) as (ms & marks & ->).
      eapply visits_proper; [| |exact V]; simpl; [tauto|tauto].
Qed.

Lemma foldM_visit_spec cs : ∀ g wl,
  phase_ok g →
  ∃ g' wl', foldM visit (g, wl) cs = Ok (g', wl')
    ∧ visits g wl (λ y, ∃ c, c ∈ cs ∧ heap_child g c y) (λ v, ∃ c, c ∈ cs ∧ str_child c v) g' wl'.
Proof.
  induction cs as [|c cs IH]; intros g wl Hok.
  - exists g, wl. split; [done|]. eapply visits_proper; [| |apply visits_refl, Hok].
    + intros y. split; [done|]. by intros (c & ?%elem_of_nil & _).
    + intros v x _. split; [done|]. by intros (c & ?%elem_of_nil & _).
  - destruct (visit_spec g wl c Hok) as (g1 & wl1 & E & V1). cbn [foldM]. rewrite E, bindE.
    destruct (IH g1 wl1) as (g2 & wl2 & -> & V2); [apply V1|]. exists g2, wl2. split; [done|].
    destruct (vs_same _ _ _ _ _ _ V1) as (ms & marks & Eg).
    eapply visits_proper; [| |exact (visits_trans _ _ _ _ _ _ _ _ _ _ V1 V2)]; simpl.
    + intros y. subst g1. setoid_rewrite heap_child_remarked. setoid_rewrite elem_of_cons.
      split; [intros [?|(d & ? & ?)]; [by exists c; auto|by exists d; auto]|].
      intros (d & [->|?] & ?); [by left|right; by exists d].
    + intros v x _. setoid_rewrite elem_of_cons.
      split; [intros [?|(d & ? & ?)]; [by exists c; auto|by exists d; auto]|].
      intros (d & [->|?] & ?); [by left|right; by exists d].
Qed.

(** ** Reachability *)
Section Reach.
Context (md : tables) (g0 : gc) (roots : list child).

Inductive hreach : Z → Prop :=
  | hr_root c y : c ∈ roots → heap_child g0 c y → hreach y
  | hr_edge x cs c y : hreach x → children md g0 x = Ok cs → c ∈ cs → heap_child g0 c y → hreach y.
(** The string handles held by the roots or by a reachable record. *)
Inductive sroot : Z → Prop :=
  | sr_root c v : c ∈ roots → str_child c v → sroot v
  | sr_edge x cs c v : hreach x → children md g0 x = Ok cs → c ∈ cs → str_child c v → sroot v.
Definition sreach (x : Z) : Prop := ∃ v, sroot v ∧ reach (strs (hp g0)) v x.

(** Both targets of a reference are marked. *)
Definition covered (g : gc) (c : child) : Prop :=
  (∀ y, heap_child g0 c y → hmarked g y = true)
  ∧ (∀ v x, str_child c v → reach (strs (hp g0)) v x → smarked g x = true).

Record tracing (g : gc) (wl : list Z) : Prop := {
  tr_ok : phase_ok g;
  tr_same : ∃ ms marks, g = remarked g0 ms marks;
  tr_work : ∀ y, y ∈ wl → hmarked g y = true;
  tr_heap : ∀ y, hmarked g y = true → hreach y;
  tr_str : ∀ x, smarked g x = true → sreach x;
  tr_roots : ∀ c, c ∈ roots → covered g c;
  tr_done : ∀ y cs c, hmarked g y = true → y ∉ wl → children md g0 y = Ok cs → c ∈ cs → covered g c
}.

Lemma covered_mono g g' c :
  (∀ y, hmarked g y = true → hmarked g' y = true) → (∀ x, smarked g x = true → smarked g' x = true) →
  covered g c → covered g' c.
Proof. intros H1 H2 [C1 C2]. split; eauto. Qed.

(** Visiting references keeps the state, and covers them. *)
Lemma tracing_visit g wl idx cs g' wl' :
  tracing g (idx :: wl) → children md g0 idx = Ok cs →
  visits g wl (λ y, ∃ c, c ∈ cs ∧ heap_child g c y) (λ v, ∃ c, c ∈ cs ∧ str_child c v) g' wl' →
  tracing g' wl'.
Proof.
  intros [T1 (ms & marks & ->) T3 T4 T5 T6 T7] Hcs [V1 (ms' & marks' & ->) V3 V4 V5 V6].
  set (g1 := remarked g0 ms marks) in *. set (g2 := remarked g1 ms' marks') in *.
  assert (∀ y, hmarked g1 y = true → hmarked g2 y = true) as M1 by (intros y Hy; apply V3; by left).
  assert (∀ x, smarked g1 x = true → smarked g2 x = true) as M2 by (intros x Hx; apply V4; by left).
  assert (hreach idx) as Hidx by (apply T4, T3; left).
  assert (∀ c, c ∈ cs → covered g2 c) as Hcov.
  { intros c Hc. split.
    - intros y Hy. apply V3. right. exists c. by split.
    - intros v x Hv Hx. apply V4. right. exists v. split; [by exists c|]. by apply reach_with_marks. }
  split; try done.
  - by exists ms', marks'.
  - intros y [Hy|[Hy _]]%V5; [apply M1, T3; by right|apply V3; by right].
  - intros y [Hy|(c & Hc & Hy)]%V3; [by apply T4|]. by eapply hr_edge.
  - intros x [Hx|(v & (c & Hc & Hv) & Hr)]%V4; [by apply T5|]. exists v.
    split; [by eapply sr_edge|]. by apply reach_with_marks in Hr.
  - intros c Hc. eapply covered_mono; [exact M1|exact M2|by apply T6].
  - intros y cs' c Hy Hny Hcs' Hc. destruct (decide (y = idx)) as [->|Hyi].
    + rewrite Hcs in Hcs'. injection Hcs' as <-. by apply Hcov.
    + destruct (hmarked g1 y) eqn:E.
      * eapply covered_mono; [exact M1|exact M2|]. eapply T7; [done| |done|done].
        rewrite not_elem_of_cons. split; [done|]. intros ?. apply Hny, V5. by left.
      * exfalso. apply Hny, V5. right. apply V3 in Hy as [?|Hy]; [congruence|]. by split.
Qed.

Lemma trace_spec fuel : ∀ g wl,
  (∀ x, hreach x → is_Ok (children md g0 x)) → tracing g wl →
  (length wl + unmarked (m_markBits g) < fuel)%nat →
  ∃ g', trace fuel md (g, wl) = Ok g' ∧ tracing g' [].
Proof.
  induction fuel as [|fuel IH]; intros g wl Htot Ht Hf; [lia|].
  destruct wl as [|idx wl]; [by exists g|]. cbn [trace].
  assert (hreach idx) as Hidx by (apply (tr_heap _ _ Ht), (tr_work _ _ Ht); left).
  destruct (tr_same _ _ Ht) as (ms & marks & Eg).
  destruct (children md g0 idx) as [cs|] eqn:Hcs; [|by apply Htot in Hidx; rewrite Hcs in Hidx].
  rewrite Eg, children_remarked, <- Eg, Hcs, bindE.
  destruct (foldM_visit_spec cs g wl (tr_ok _ _ Ht)) as (g' & wl' & -> & V). rewrite bindE.
  apply IH; [done|by eapply tracing_visit|]. pose proof (vs_measure _ _ _ _ _ _ V).
  simpl in Hf. lia.
Qed.

(** With an empty work list the marks are exactly the reachable sets. *)
Lemma tracing_done g :
  (∀ x, hreach x → is_Ok (children md g0 x)) → tracing g [] →
  (∀ y, hmarked g y = true ↔ hreach y) ∧ (∀ x, smarked g x = true ↔ sreach x).
Proof.
  intros Htot [T1 T2 T3 T4 T5 T6 T7].
  assert (∀ y, hreach y → hmarked g y = true) as Hh.
  { induction 1 as [c y Hc Hy|x cs c y Hx IH Hcs Hc Hy]; [by apply (T6 c Hc)|].
    apply (T7 x cs c IH (not_elem_of_nil _) Hcs Hc). done. }
  split; [intros y; split; auto|]. intros x. split; [apply T5|].
  intros (v & Hv & Hr). destruct Hv as [c v Hc Hv|y cs c v Hy Hcs Hc Hv].
  - by apply (T6 c Hc) with v.
  - apply (T7 y cs c (Hh y Hy) (not_elem_of_nil _) Hcs Hc) with v; done.
Qed.
End Reach.

Lemma MarkPhase_aux md g roots :
  length (m_slotKinds (hp g)) = length (m_structHeap (hp g)) →
  (∀ x, hreach md g roots x → is_Ok (children md g x)) →
  ∃ ms marks, MarkPhase md g roots = Ok (remarked g ms marks)
    ∧ phase_ok (remarked g ms marks)
    ∧ (∀ y, hmarked (remarked g ms marks) y = true ↔ hreach md g roots y)
    ∧ (∀ x, smarked (remarked g ms marks) x = true ↔ sreach md g roots x).
Proof.
  intros Hk Htot. unfold MarkPhase.
  set (ms0 := replicate (length (m_stringObjs (strs (hp g)))) false).
  set (mk0 := replicate (length (m_structHeap (hp g))) false).
  change (gwith g _ mk0) with (remarked g ms0 mk0).
  assert (∀ n x, default false (replicate n false !!z x) = false) as Hrep.
  { intros n x. unfold zlookup. case_decide; [|done].
    destruct (replicate n false !! Z.to_nat x) as [b|] eqn:E; [|done].
    by apply lookup_replicate in E as [-> _]. }
  assert (phase_ok (remarked g ms0 mk0)) as P0.
  { assert (∀ x, StringsGC.marked (strs (hp (remarked g ms0 mk0))) x = false) as Hm by (intros; apply Hrep).
    split; [apply length_replicate|done|apply length_replicate|].
    split; intros x; rewrite ?Hm; try done. by intros ?%elem_of_nil. }
  destruct (foldM_visit_spec roots (remarked g ms0 mk0) [] P0) as (g1 & wl1 & -> & V).
  rewrite bindE. destruct V as [V1 (ms1 & mk1 & ->) V3 V4 V5 V6]. rewrite remarked_twice in *.
  assert (∀ y, hmarked (remarked g ms0 mk0) y = false) as H0 by (intros y; apply Hrep).
  assert (∀ x, smarked (remarked g ms0 mk0) x = false) as S0 by (intros x; apply Hrep).
  assert (tracing md g roots (remarked g ms1 mk1) wl1) as T.
  { split; try done.
    - by exists ms1, mk1.
    - intros y [?%elem_of_nil|[Hy _]]%V5; [done|]. apply V3. by right.
    - intros y [Hy|(c & Hc & Hy)]%V3; [by rewrite H0 in Hy|]. by eapply hr_root.
    - intros x [Hx|(v & (c & Hc & Hv) & Hr)]%V4; [by rewrite S0 in Hx|]. exists v.
      split; [by eapply sr_root|]. by apply reach_with_marks in Hr.
    - intros c Hc. split.
      + intros y Hy. apply V3. right. by exists c.
      + intros v x Hv Hr. apply V4. right. exists v. split; [by exists c|]. by apply reach_with_marks.
    - intros y cs c Hy Hny. exfalso. apply Hny, V5. right. split; [|apply H0].
      apply V3 in Hy as [Hy|Hy]; [by rewrite H0 in Hy|done]. }
  destruct (trace_spec md g roots (S (length (m_structHeap (hp g)))) _ _ Htot T) as (g2 & -> & T2).
  { simpl in V6. pose proof (unmarked_le mk0) as Hle. unfold mk0 in Hle at 2.
    rewrite length_replicate in Hle. simpl. lia. }
  destruct (tr_same _ _ _ _ _ T2) as (ms & mk & ->). exists ms, mk.
  destruct (tracing_done md g roots _ Htot T2) as [A B].
  split_and!; [done|apply T2|done|done].
Qed.

(** ** What records refer to, by their types *)
(** A place declared with one kind may hold a reference to a record of another. *)
Definition fits (declared runtime : Z) : Prop :=
  (declared = RTK_Class ∧ runtime ∈ [RTK_Class; RTK_Boxed; RTK_Array; RTK_ArrayView])
  ∨ (declared = RTK_Struct ∧ runtime = RTK_Struct) ∨ (declared = RTK_Func ∧ runtime = RTK_Func)
  ∨ (declared = RTK_Array ∧ runtime ∈ [RTK_Array; RTK_ArrayView]).
(** The kinds of the values that containers hold. *)
Definition boxable (k : Z) : Prop := k ∈ [RTK_Class; RTK_Struct; RTK_Boxed; RTK_Func; RTK_Array; RTK_ArrayView].
Definition cell_at (h : heap) (x : Z) (c : nat) (v : Z) : Prop := ∃ r, rec_at h x = Some r ∧ r !! c = Some v.

Section Refers.
Context (md : tables) (g : gc).
Abbreviation kind x k := (kind_at (hp g) x = Some k).
Abbreviation cell := (cell_at (hp g)).

(** A field of instance or struct [x], or an element of array [x], is declared with kind
    [k] and holds [v]. *)
Inductive class_field (x k v : Z) : Prop :=
  | class_field_at i ci fields f : kind x RTK_Class → cell x 0 ci → layout md !!z ci = Some fields →
      fields !! i = Some f → Layout.kind f = k → cell x (2 * i + 1) v → class_field x k v.
Inductive struct_place (x k v : Z) : Prop :=
  | struct_place_at i s cs : kind x RTK_Struct → sidx_at (hp g) x = Some s → structs md !!z s = Some cs →
      (i < sFieldCount cs)%nat → sFieldTypeKinds cs !! i = Some k → cell x (2 * i) v → struct_place x k v.
Inductive element_of (x k v : Z) : Prop :=
  | element_at (i : nat) t at_ r base len : kind x RTK_Array → sidx_at (hp g) x = Some t → arrayTypes md !!z t = Some at_ →
      rec_at (hp g) x = Some r → ArrayPayloadBase r = Ok base → r !! 3%nat = Some len → Z.of_nat i < len →
      elemKind at_ = k → r !! Z.to_nat (base + Z.of_nat i * ArrayElemCells k) = Some v → element_of x k v.
Definition declared_place (x k v : Z) : Prop := class_field x k v ∨ struct_place x k v ∨ element_of x k v.
(** The row of a side table that instance [x] of class [classIdx] has. *)
Definition owned_row {A} (table : list (list A)) (classIdx x : Z) (row : list A) : Prop :=
  ∃ c handle, kind x RTK_Class ∧ cell x 0 c ∧ i16 c = classIdx ∧ cell x 1 handle ∧ 0 < handle
    ∧ table !!z (handle - 1) = Some row.
Inductive contains (x v : Z) : Prop :=
  | in_list l : owned_row (m_listStore g) (m_listClassIdx g) x l → v ∈ l → contains x v
  | in_keys l w : owned_row (m_dictStore g) (m_dictClassIdx g) x l → (v, w) ∈ l → contains x v
  | in_values l w : owned_row (m_dictStore g) (m_dictClassIdx g) x l → (w, v) ∈ l → contains x v
  | in_channel l : owned_row (m_channelStore g) (m_channelClassIdx g) x l → v ∈ l → contains x v.

(** Record [x] refers to record [y]. *)
Inductive refers (x y : Z) : Prop :=
  | by_place k k' : declared_place x k y → kind y k' → fits k k' → refers x y
  | by_type_param k' : class_field x RTK_TypeParam y → kind y k' → refers x y
  | by_receiver : kind x RTK_Func → cell x 1 y → kind y RTK_Class → refers x y
  | by_view rank : kind x RTK_ArrayView → cell x 2 rank → cell x (Z.to_nat (5 + 2 * rank)) y → kind y RTK_Array → refers x y
  | by_container k' : contains x y → kind y k' → boxable k' → refers x y.
(** Record [x] holds string handle [v]. *)
Inductive holds_text (x v : Z) : Prop :=
  | text_place : declared_place x RTK_String v → holds_text x v
  | text_type_param : class_field x RTK_TypeParam v → holds_text x v
  | text_box : kind x RTK_Boxed → cell x 0 RTK_String → cell x 1 v → holds_text x v.

(** Record [x] has the shape of its type. *)
Record shaped (x : Z) : Prop := {
  sh_func : kind x RTK_Func → ∃ v, cell x 1 v;
  sh_boxed : kind x RTK_Boxed → ∃ t v, cell x 0 t ∧ cell x 1 v;
  sh_class : kind x RTK_Class → ∃ ci fields r, rec_at (hp g) x = Some r ∧ r !! 0%nat = Some ci ∧ layout md !!z ci = Some fields
    ∧ (1 + 2 * length fields ≤ length r)%nat
    ∧ (i16 ci ∈ [m_listClassIdx g; m_dictClassIdx g; m_channelClassIdx g] → (1 < length r)%nat);
  sh_struct : kind x RTK_Struct → ∃ s cs r, sidx_at (hp g) x = Some s ∧ structs md !!z s = Some cs ∧ rec_at (hp g) x = Some r
    ∧ (2 * sFieldCount cs ≤ length r)%nat ∧ length (sFieldTypeKinds cs) = sFieldCount cs;
  sh_array : kind x RTK_Array → ∃ t at_ r base len, sidx_at (hp g) x = Some t ∧ arrayTypes md !!z t = Some at_
    ∧ rec_at (hp g) x = Some r ∧ ArrayPayloadBase r = Ok base ∧ r !! 3%nat = Some len ∧ 0 ≤ base
    ∧ base + len * ArrayElemCells (elemKind at_) ≤ Z.of_nat (length r);
  sh_view : kind x RTK_ArrayView → ∃ rank v, cell x 2 rank ∧ 1 ≤ rank ≤ kMaxArrayRank ∧ cell x (Z.to_nat (5 + 2 * rank)) v
}.

(** What a value that is tested refers to. *)
Definition points_to (c : child) (y : Z) : Prop :=
  match c with
  | StrRef _ => False
  | HeapRef v accept => y = v ∧ 0 < v ∧ ∃ k, kind v k ∧ accept k = true
  | AnyRef v => y = v ∧ 0 < v ∧ ∃ k, kind v k
  end.
Context (roots : list child).
Inductive alive : Z → Prop :=
  | alive_root c y : c ∈ roots → points_to c y → alive y
  | alive_ref x y : alive x → 0 < y → refers x y → alive y.
Inductive text_held (v : Z) : Prop :=
  | held_by_root c : c ∈ roots → str_child c v → text_held v
  | held_by_record x : alive x → holds_text x v → text_held v.
Definition text_alive (x : Z) : Prop := ∃ v, text_held v ∧ reach (strs (hp g)) v x.

(** *** The trace arms test exactly these *)
Lemma points_to_iff c y : points_to c y ↔ heap_child g c y.
Proof.
  destruct c as [v|v accept|v]; cbn [points_to heap_child]; [done| |]; unfold heap_target;
    rewrite andb_true_iff, bool_decide_eq_true; destruct (kind_at (hp g) v) as [k|] eqn:E; naive_solver.
Qed.
Lemma fits_iff k k' : fits k k' ↔ DeclaredFieldAcceptsRuntime k k' = true.
Proof.
  unfold fits, DeclaredFieldAcceptsRuntime. rewrite !elem_of_cons, elem_of_nil, !orb_true_iff, !andb_true_iff, !orb_true_iff, !Z.eqb_eq. tauto.
Qed.
Lemma boxable_iff k : boxable k ↔ IsChildBearingHeapKind k = true.
Proof.
  unfold boxable, IsChildBearingHeapKind. rewrite !elem_of_cons, elem_of_nil, !orb_true_iff, !Z.eqb_eq. tauto.
Qed.
Lemma get_cell_iff x c v : get_cell (hp g) x c = Ok v ↔ cell x c v.
Proof.
  unfold get_cell, cell_at. destruct (rec_at (hp g) x) as [r|]; [|split; [done|by intros (? & ? & _)]].
  rewrite derefE, bindE. destruct (r !! c) as [w|] eqn:E; cbn; [|split; [done|intros (? & [= <-] & ?); congruence]].
  split; [intros [= ->]; by exists r|intros (? & [= <-] & ?); congruence].
Qed.
Lemma collect_spec {A} (f : nat → outcome A) k : (∀ i, (i < k)%nat → is_Ok (f i)) →
  ∃ l, collect f k = Ok l ∧ ∀ a, a ∈ l ↔ ∃ i, (i < k)%nat ∧ f i = Ok a.
Proof.
  unfold collect. intros H.
  destruct (foldM_seq_inv (λ out i, a ← f i; Ok (out ++ [a])) (λ j out, ∀ a, a ∈ out ↔ ∃ i, (i < j)%nat ∧ f i = Ok a) k 0 []) as (l & -> & Hl).
  - intros a. split; [by intros ?%elem_of_nil|]. intros (i & ? & _). lia.
  - intros j out [_ Hj] Ho. pose proof (H j Hj) as Hok. destruct (f j) as [b|] eqn:E; [|done].
    exists (out ++ [b]). split; [done|]. intros a. rewrite elem_of_app, list_elem_of_singleton, Ho. split.
    + intros [(i & ? & ?)| ->]; [exists i; split; [lia|done]|exists j; split; [lia|done]].
    + intros (i & Hi & Ha). destruct (decide (i = j)) as [->|]; [right; congruence|left; exists i; split; [lia|done]].
  - by exists l.
Qed.
(** The references [cs] test the records of [H] and the strings of [T]. *)
Definition tests (cs : list child) (H T : Z → Prop) : Prop :=
  (∀ y, (∃ c, c ∈ cs ∧ points_to c y) ↔ 0 < y ∧ H y) ∧ (∀ v, (∃ c, c ∈ cs ∧ str_child c v) ↔ T v).
Definition ref_of (generic : bool) (k v : Z) : child :=
  if decide (k = RTK_String) then StrRef v
  else if decide (generic = true ∧ k = RTK_TypeParam) then AnyRef v
  else HeapRef v (DeclaredFieldAcceptsRuntime k).
Lemma tests_iff cs (H H' T T' : Z → Prop) : tests cs H T → (∀ y, H y ↔ H' y) → (∀ v, T v ↔ T' v) → tests cs H' T'.
Proof. intros [A B] EH ET. split; intros ?; [by rewrite A, EH|by rewrite B, ET]. Qed.
Lemma tests_nil : tests [] (λ _, False) (λ _, False).
Proof. split; intros ?; (split; [by intros (? & ?%elem_of_nil & _)|tauto]). Qed.
Lemma tests_app a b H1 T1 H2 T2 : tests a H1 T1 → tests b H2 T2 → tests (a ++ b) (λ y, H1 y ∨ H2 y) (λ v, T1 v ∨ T2 v).
Proof.
  intros [A1 B1] [A2 B2]. split; intros y; setoid_rewrite elem_of_app.
  - transitivity ((0 < y ∧ H1 y) ∨ (0 < y ∧ H2 y)); [rewrite <- A1, <- A2; naive_solver|tauto].
  - rewrite <- B1, <- B2. naive_solver.
Qed.
Lemma fits_places k k' : fits k k' → k ≠ RTK_String ∧ k ≠ RTK_TypeParam.
Proof. intros [[-> _]|[[-> _]|[[-> _]|[-> _]]]]; done. Qed.
Lemma tests_places b cs (P : Z → Z → Prop) : (∀ c, c ∈ cs ↔ ∃ k v, P k v ∧ c = ref_of b k v) →
  tests cs (λ y, ∃ k k', P k y ∧ kind y k' ∧ (fits k k' ∨ b = true ∧ k = RTK_TypeParam))
    (λ v, P RTK_String v ∨ b = true ∧ P RTK_TypeParam v).
Proof.
  intros Hcs. split.
  - intros y. split.
    + intros (c & (k & v & HP & ->)%Hcs & Hp). unfold ref_of in Hp. case_decide as H1; [done|]. case_decide as H2.
      * destruct Hp as (-> & Hv & k' & Hk'). split; [done|]. exists k, k'. tauto.
      * destruct Hp as (-> & Hv & k' & Hk' & Ha). split; [done|]. exists k, k'. rewrite fits_iff. tauto.
    + intros (Hy & k & k' & HP & Hk' & Hf). exists (ref_of b k y). split; [apply Hcs; by exists k, y|].
      unfold ref_of. destruct Hf as [Hf|[-> ->]].
      * destruct (fits_places _ _ Hf) as [? ?]. rewrite decide_False by done. rewrite decide_False by (by intros [_ ?]).
        cbn. rewrite fits_iff in Hf. eauto.
      * rewrite decide_False by done. rewrite decide_True by done. cbn. eauto.
  - intros v. split.
    + intros (c & (k & w & HP & ->)%Hcs & Hs). unfold ref_of in Hs. case_decide as H1; [left; cbn in Hs; congruence|].
      case_decide as H2; [|done]. right. destruct H2 as [? ->]. cbn in Hs. split; congruence.
    + intros [HP|[-> HP]].
      * exists (ref_of b RTK_String v). split; [apply Hcs; by exists RTK_String, v|done].
      * exists (ref_of true RTK_TypeParam v). split; [apply Hcs; by exists RTK_TypeParam, v|done].
Qed.
Lemma tests_elems l : tests (map elem_ref l) (λ y, y ∈ l ∧ ∃ k, kind y k ∧ boxable k) (λ _, False).
Proof.
  split; intros y.
  - split.
    + intros (c & (v & -> & Hv)%list_elem_of_fmap & -> & Hy & k & Hk & Ha). split; [done|]. split; [done|]. exists k. by rewrite boxable_iff.
    + intros (Hy & Hl & k & Hk & Ha). exists (elem_ref y). split; [by apply list_elem_of_fmap_2|]. cbn. rewrite boxable_iff in Ha. eauto.
  - split; [|done]. by intros (c & (v & -> & Hv)%list_elem_of_fmap & Hs).
Qed.

(** *** Arm by arm *)
Lemma class_arm x : shaped x → kind x RTK_Class → ∃ cs, MarkClassFields md g x = Ok cs ∧ ∀ c, c ∈ cs ↔ ∃ k v, class_field x k v ∧ c = ref_of true k v.
Proof.
  intros Hs Hk. destruct (sh_class _ Hs Hk) as (ci & fields & r & Hr & Hci & Hf & Hl & _).
  assert (cell x 0 ci) as H0 by (by exists r). unfold MarkClassFields.
  rewrite (proj2 (get_cell_iff x 0 ci) H0), bindE. unfold Fields. rewrite Hf, derefE, bindE.
  match goal with |- context [collect ?f ?n] => destruct (collect_spec f n) as (l & -> & Hin) end.
  { intros i Hi. destruct (lookup_lt_is_Some_2 fields i Hi) as [e ->]. rewrite derefE, bindE. unfold get_cell. rewrite Hr, derefE, bindE.
    destruct (lookup_lt_is_Some_2 r (2 * i + 1)) as [v ->]; [lia|]. done. }
  exists l. split; [done|]. intros c. rewrite Hin. split.
  - intros (i & Hi & H). apply bind_Ok in H as (e & He & H). apply bind_Ok in H as (v & Hv%get_cell_iff & [= <-]).
    exists (Layout.kind e), v. split; [|by unfold ref_of; repeat case_decide; naive_solver].
    eapply class_field_at; [done|exact H0|done| |done|done]. by destruct (fields !! i); [injection He as ->|].
  - intros (k & v & [i ci' fields' e _ H0' Hf' He Hek Hv] & ->). destruct H0 as (r1 & E1 & E2), H0' as (r2 & E3 & E4). simplify_eq.
    exists i. split; [by eapply lookup_lt_Some|]. rewrite He, derefE, bindE, (proj2 (get_cell_iff x _ v) Hv), bindE.
    unfold ref_of. by repeat case_decide; naive_solver.
Qed.
Lemma struct_arm x : shaped x → kind x RTK_Struct → ∃ cs, MarkStructFields md g x = Ok cs ∧ ∀ c, c ∈ cs ↔ ∃ k v, struct_place x k v ∧ c = ref_of false k v.
Proof.
  intros Hs Hk. destruct (sh_struct _ Hs Hk) as (s & cs & r & Hsx & Hcs & Hr & Hl & Hlk). unfold MarkStructFields.
  rewrite Hsx, derefE, bindE, Hcs, derefE, bindE.
  match goal with |- context [collect ?f ?n] => destruct (collect_spec f n) as (l & -> & Hin) end.
  { intros i Hi. unfold get_cell. rewrite Hr, derefE, bindE.
    destruct (lookup_lt_is_Some_2 r (2 * i)) as [v ->]; [lia|]. rewrite derefE, bindE.
    destruct (lookup_lt_is_Some_2 (sFieldTypeKinds cs) i) as [k ->]; [lia|]. done. }
  exists l. split; [done|]. intros c. rewrite Hin. split.
  - intros (i & Hi & H). apply bind_Ok in H as (v & Hv%get_cell_iff & H). apply bind_Ok in H as (k & Hk' & [= <-]).
    exists k, v. split; [|by unfold ref_of; repeat case_decide; naive_solver].
    eapply struct_place_at; [done|done|done|exact Hi| |done]. by destruct (sFieldTypeKinds cs !! i); [injection Hk' as ->|].
  - intros (k & v & [i s' cs' _ Hs' Hcs' Hi Hk' Hv] & ->). simplify_eq.
    exists i. split; [done|]. rewrite (proj2 (get_cell_iff x _ v) Hv), bindE, Hk', derefE, bindE.
    unfold ref_of. by repeat case_decide; naive_solver.
Qed.
Lemma array_arm x : shaped x → kind x RTK_Array → ∃ cs, MarkArrayElements md g x = Ok cs ∧ ∀ c, c ∈ cs ↔ ∃ k v, element_of x k v ∧ c = ref_of false k v.
Proof.
  intros Hs Hk. destruct (sh_array _ Hs Hk) as (t & at_ & r & base & len & Hsx & Hat & Hr & Hb & Hlen & Hb0 & Hl). unfold MarkArrayElements.
  rewrite Hsx, derefE, bindE, Hat, derefE, bindE, Hr, derefE, bindE, Hb, bindE, Hlen, derefE, bindE.
  assert (1 ≤ ArrayElemCells (elemKind at_)) as Hc1.
  { unfold ArrayElemCells. destruct (ScalarPrimIndexOfRtk _) as [[? ?]|]; [case_decide|]; lia. }
  match goal with |- context [collect ?f ?n] => destruct (collect_spec f n) as (l & -> & Hin) end.
  { intros i Hi. unfold get_cell. rewrite Hr, derefE, bindE.
    destruct (lookup_lt_is_Some_2 r (Z.to_nat (base + Z.of_nat i * ArrayElemCells (elemKind at_)))) as [v ->]; [nia|]. done. }
  exists l. split; [done|]. intros c. rewrite Hin. split.
  - intros (i & Hi & H). apply bind_Ok in H as (v & (r' & Hr' & Hv)%get_cell_iff & [= <-]). simplify_eq.
    exists (elemKind at_), v. split; [|by unfold ref_of; repeat case_decide; naive_solver].
    eapply element_at; [done|done|done|done|done|done| |done|exact Hv]. lia.
  - intros (k & v & [i t' at' r' base' len' _ Hs' Hat' Hr' Hb' Hl' Hi Hek Hv] & ->). simplify_eq. rewrite Hb in Hb'. injection Hb' as <-.
    exists i. split; [lia|]. rewrite (proj2 (get_cell_iff x _ v)) by (by eexists). rewrite bindE.
    unfold ref_of. by repeat case_decide; naive_solver.
Qed.
Lemma container_arm {A} (table : list (list A)) classIdx x : shaped x → kind x RTK_Class →
  classIdx ∈ [m_listClassIdx g; m_dictClassIdx g; m_channelClassIdx g] →
  ∃ l, container_row g x classIdx table = Ok l ∧ ∀ a, a ∈ l ↔ ∃ row, owned_row table classIdx x row ∧ a ∈ row.
Proof.
  intros Hs Hk Hc. destruct (sh_class _ Hs Hk) as (ci & fields & r & Hr & Hci & _ & _ & Hl).
  assert (cell x 0 ci) as H0 by (by exists r). unfold container_row. rewrite (proj2 (get_cell_iff x 0 ci) H0), bindE.
  case_decide as He.
  { exists []. split; [done|]. intros a. split; [by intros ?%elem_of_nil|]. intros (row & (c & hd & _ & (r' & ? & ?) & ? & _) & _). simplify_eq. }
  destruct (lookup_lt_is_Some_2 r 1) as [hd Hhd]; [apply Hl; by rewrite He|].
  assert (cell x 1 hd) as H1 by (by exists r). change kListHandleFieldOffset with 1%nat. rewrite (proj2 (get_cell_iff x _ hd) H1), bindE. eexists. split; [done|].
  assert (∀ row, owned_row table classIdx x row ↔ 0 < hd ∧ table !!z (hd - 1) = Some row) as Ho.
  { intros row. split.
    - intros (c & hd' & _ & _ & _ & (r' & ? & ?) & ? & ?). by simplify_eq.
    - intros [? ?]. by exists ci, hd. }
  intros a. setoid_rewrite Ho. case_decide as Hpos.
  - split; [by intros ?%elem_of_nil|]. intros (row & [? _] & _). lia.
  - destruct (table !!z (hd - 1)) as [row|]; cbn.
    + split; [intros Ha; exists row; split; [split; [lia|done]|done]|]. by intros (row' & [_ [= <-]] & ?).
    + split; [by intros ?%elem_of_nil|]. by intros (row & [_ ?] & _).
Qed.

(** Each kind of record has references of its own. *)
Lemma refers_cases x k y : kind x k → refers x y →
  (k = RTK_Class ∧ ((∃ d k', class_field x d y ∧ kind y k' ∧ (fits d k' ∨ true = true ∧ d = RTK_TypeParam))
     ∨ contains x y ∧ ∃ k', kind y k' ∧ boxable k'))
  ∨ (k = RTK_Struct ∧ ∃ d k', struct_place x d y ∧ kind y k' ∧ (fits d k' ∨ false = true ∧ d = RTK_TypeParam))
  ∨ (k = RTK_Array ∧ ∃ d k', element_of x d y ∧ kind y k' ∧ (fits d k' ∨ false = true ∧ d = RTK_TypeParam))
  ∨ (k = RTK_Func ∧ cell x 1 y ∧ kind y RTK_Class)
  ∨ (k = RTK_ArrayView ∧ ∃ rank, cell x 2 rank ∧ cell x (Z.to_nat (5 + 2 * rank)) y ∧ kind y RTK_Array).
Proof.
  intros Hk [d k' [Hp|[Hp|Hp]] Hk' Hf|k' Hp Hk'|Hx Hc Hy|rank Hx H2 Hc Hy|k' Hc Hk' Hb].
  - left. destruct Hp as [i ci fields f Hx]. simplify_eq. split; [done|]. left. exists (Layout.kind f), k'. split; [|tauto]. by eapply class_field_at.
  - right; left. destruct Hp as [i s cs Hx]. simplify_eq. split; [done|]. exists d, k'. split; [|tauto]. by eapply struct_place_at.
  - right; right; left. destruct Hp as [i t at_ r base len Hx]. simplify_eq. split; [done|]. eexists _, k'. split; [|split; [done|by left]]. by eapply element_at.
  - left. destruct Hp as [i ci fields f Hx]. simplify_eq. split; [done|]. left. exists (Layout.kind f), k'. split; [|tauto]. by eapply class_field_at.
  - simplify_eq. tauto.
  - simplify_eq. do 4 right. split; [done|]. eauto.
  - left. split; [|right; eauto]. destruct Hc as [l (c & hd & Hx & _)|l w (c & hd & Hx & _)|l w (c & hd & Hx & _)|l (c & hd & Hx & _)]; congruence.
Qed.
Lemma holds_text_cases x k v : kind x k → holds_text x v →
  (k = RTK_Class ∧ (class_field x RTK_String v ∨ true = true ∧ class_field x RTK_TypeParam v))
  ∨ (k = RTK_Struct ∧ (struct_place x RTK_String v ∨ false = true ∧ struct_place x RTK_TypeParam v))
  ∨ (k = RTK_Array ∧ (element_of x RTK_String v ∨ false = true ∧ element_of x RTK_TypeParam v))
  ∨ (k = RTK_Boxed ∧ cell x 0 RTK_String ∧ cell x 1 v).
Proof.
  intros Hk [[Hp|[Hp|Hp]]|Hp|Hx H0 H1].
  - left. split; [|by left]. destruct Hp; congruence.
  - right; left. split; [|by left]. destruct Hp; congruence.
  - right; right; left. split; [|by left]. destruct Hp; congruence.
  - left. split; [|by right]. destruct Hp; congruence.
  - simplify_eq. tauto.
Qed.
(** The references of kind [k]: the cases of the other kinds are absurd. *)
Ltac of_kind H := destruct H as [[? H]|[[? H]|[[? H]|[[? H]|[? H]]]]]; try done.
Ltac text_of_kind H := destruct H as [[? H]|[[? H]|[[? H]|[? H]]]]; try done.

(** Every arm tests exactly what a record of its kind refers to. *)
Lemma children_spec x : shaped x → is_Some (kind_at (hp g) x) →
  ∃ cs, children md g x = Ok cs ∧ tests cs (refers x) (holds_text x).
Proof.
  intros Hs [k Hk]. pose proof (λ y, refers_cases x k y Hk) as Hrc. pose proof (λ v, holds_text_cases x k v Hk) as Htc.
  unfold children. rewrite Hk, derefE, bindE.
  case_decide as HF; [subst k|case_decide as HB; [subst k|case_decide as HC; [subst k|case_decide as HS; [subst k|
    case_decide as HA; [subst k|case_decide as HV; [subst k|]]]]]].
  - destruct (sh_func _ Hs Hk) as [v Hv]. unfold MarkFuncReceiver. rewrite (proj2 (get_cell_iff x 1 v) Hv), bindE. eexists. split; [done|].
    split; intros y; setoid_rewrite list_elem_of_singleton.
    + split.
      * intros (c & -> & -> & Hy & k & Hk' & E%Z.eqb_eq). subst k. split; [done|]. by apply by_receiver.
      * intros (Hy & Hr%Hrc). of_kind Hr. destruct Hr as [(r & E1 & E2) Hy'], Hv as (r' & E3 & E4). simplify_eq.
        eexists. split; [done|]. split; [done|]. split; [done|]. eexists. by split.
    + split; [by intros (c & -> & ?)|]. intros Ht%Htc. text_of_kind Ht.
  - destruct (sh_boxed _ Hs Hk) as (t & v & Ht & Hv). unfold MarkBoxedPayload. rewrite (proj2 (get_cell_iff x 0 t) Ht), bindE.
    assert (∀ y, 0 < y ∧ refers x y ↔ False) as Hno by (intros y; split; [|done]; intros [_ Hr%Hrc]; of_kind Hr).
    case_decide as Hst; [rewrite (proj2 (get_cell_iff x 1 v) Hv), bindE|]; eexists; (split; [done|]); split; intros y; try rewrite Hno.
    + split; [|done]. by intros (c & ->%list_elem_of_singleton & ?).
    + setoid_rewrite list_elem_of_singleton. split.
      * intros (c & -> & Hs'). cbn in Hs'. subst. by apply text_box.
      * intros Ht'%Htc. text_of_kind Ht'. destruct Ht' as [_ (r & E1 & E2)], Hv as (r' & E3 & E4). simplify_eq. by eexists.
    + split; [|done]. by intros (c & ?%elem_of_nil & ?).
    + split; [by intros (c & ?%elem_of_nil & ?)|]. intros Ht'%Htc. text_of_kind Ht'.
      destruct Ht' as [(r & E1 & E2) _], Ht as (r' & E3 & E4). simplify_eq.
  - destruct (class_arm x Hs Hk) as (a & -> & Ha). rewrite bindE. unfold MarkListElements, MarkDictEntries, MarkChannelElements.
    destruct (container_arm (m_listStore g) (m_listClassIdx g) x Hs Hk) as (l & -> & Hl); [set_solver|]. rewrite !bindE.
    destruct (container_arm (m_dictStore g) (m_dictClassIdx g) x Hs Hk) as (d & -> & Hd); [set_solver|]. rewrite !bindE.
    destruct (container_arm (m_channelStore g) (m_channelClassIdx g) x Hs Hk) as (c & -> & Hc); [set_solver|]. rewrite !bindE.
    eexists. split; [done|].
    assert (tests (concat (map (λ '(k, v), [elem_ref k; elem_ref v]) d)) (λ y, (∃ w, (y, w) ∈ d ∨ (w, y) ∈ d) ∧ ∃ k, kind y k ∧ boxable k) (λ _, False)) as Td.
    { assert (concat (map (λ '(k, v), [elem_ref k; elem_ref v]) d) = map elem_ref (concat (map (λ '(k, v), [k; v]) d))) as ->.
      { clear. induction d as [|[k v] d IH]; [done|]. cbn. by rewrite <- IH. }
      eapply tests_iff; [apply tests_elems| |done]. intros y. apply and_iff_compat_r.
      clear. induction d as [|[k v] d IH]; [split; [by intros ?%elem_of_nil|intros (w & [?%elem_of_nil|?%elem_of_nil]); done]|].
      cbn. rewrite !elem_of_cons, IH. setoid_rewrite elem_of_cons. naive_solver. }
    pose proof (tests_app _ _ _ _ _ _ Td (tests_elems c)) as T3. pose proof (tests_app _ _ _ _ _ _ (tests_elems l) T3) as T2.
    eapply tests_iff; [exact (tests_app _ _ _ _ _ _ (tests_places true a (class_field x) Ha) T2)| |].
    + intros y. setoid_rewrite Hl. setoid_rewrite Hd. setoid_rewrite Hc. split.
      * intros [(d0 & k' & Hp & Hk' & [Hf|[_ ->]])|[[(row & Ho & Hy) (k' & Hk' & Hb)]|[[(w & [(row & Ho & Hy)|(row & Ho & Hy)]) (k' & Hk' & Hb)]|[(row & Ho & Hy) (k' & Hk' & Hb)]]]].
        -- eapply by_place; [by left|done|done].
        -- by eapply by_type_param.
        -- eapply by_container; [by eapply in_list|done|done].
        -- eapply by_container; [by eapply in_keys|done|done].
        -- eapply by_container; [by eapply in_values|done|done].
        -- eapply by_container; [by eapply in_channel|done|done].
      * intros Hr%Hrc. of_kind Hr. destruct Hr as [Hr|[[row Ho Hy|row w Ho Hy|row w Ho Hy|row Ho Hy] Hb]]; eauto 12.
    + intros v. split.
      * intros [[Hp|[_ Hp]]|[[]|[[]|[]]]]; [by apply text_place; left|by apply text_type_param].
      * intros Ht%Htc. text_of_kind Ht. by left.
  - destruct (struct_arm x Hs Hk) as (a & -> & Ha). eexists. split; [done|]. eapply tests_iff; [by apply (tests_places false a (struct_place x))| |].
    + intros y. split; [|intros Hr%Hrc; by of_kind Hr]. intros (d0 & k' & Hp & Hk' & [Hf|[? _]]); [|done].
      eapply by_place; [by right; left|done|done].
    + intros v. split; [|intros Ht%Htc; by text_of_kind Ht]. intros [Hp|[? _]]; [|done]. by apply text_place; right; left.
  - destruct (array_arm x Hs Hk) as (a & -> & Ha). eexists. split; [done|]. eapply tests_iff; [by apply (tests_places false a (element_of x))| |].
    + intros y. split; [|intros Hr%Hrc; by of_kind Hr]. intros (d0 & k' & Hp & Hk' & [Hf|[? _]]); [|done].
      eapply by_place; [by right; right|done|done].
    + intros v. split; [|intros Ht%Htc; by text_of_kind Ht]. intros [Hp|[? _]]; [|done]. by apply text_place; right; right.
  - destruct (sh_view _ Hs Hk) as (rank & v & Hrank & Hrange & Hv). unfold MarkArrayViewTarget.
    rewrite (proj2 (get_cell_iff x 2 rank) Hrank), bindE, decide_False by lia.
    change (ArrayViewTargetCell rank) with (5 + 2 * rank). rewrite (proj2 (get_cell_iff x _ v) Hv), bindE. eexists. split; [done|].
    split; intros y; setoid_rewrite list_elem_of_singleton.
    + split.
      * intros (c & -> & -> & Hy & k & Hk' & E%Z.eqb_eq). subst k. split; [done|]. by eapply by_view.
      * intros (Hy & Hr%Hrc). of_kind Hr. destruct Hr as (rank' & (r1 & E1 & E2) & (r2 & E3 & E4) & Hy').
        destruct Hrank as (r3 & E5 & E6), Hv as (r4 & E7 & E8). simplify_eq.
        eexists. split; [done|]. split; [done|]. split; [done|]. eexists. by split.
    + split; [by intros (c & -> & ?)|]. intros Ht%Htc. text_of_kind Ht.
  - exists []. split; [done|]. eapply tests_iff; [apply tests_nil| |]; intros y; (split; [done|]).
    + intros Hr%Hrc. of_kind Hr; subst; done.
    + intros Ht%Htc. text_of_kind Ht; subst; done.
Qed.

(** *** What is alive is what the phase reaches *)
Lemma alive_hreach : (∀ x, alive x → shaped x) →
  (∀ x, hreach md g roots x ↔ alive x) ∧ (∀ v, sroot md g roots v ↔ text_held v).
Proof.
  intros Hsh.
  assert (∀ x, alive x → is_Some (kind_at (hp g) x)) as Hkind.
  { destruct 1 as [[v|v acc|v] y Hc Hp|x y Hx Hy Hr]; [done|by destruct Hp as (-> & _ & k & ? & _); exists k|by destruct Hp as (-> & _ & k & ?); exists k|].
    by destruct Hr; eexists. }
  assert (∀ x, alive x → ∃ cs, children md g x = Ok cs ∧ tests cs (refers x) (holds_text x)) as Hch.
  { intros x Hx. apply children_spec; auto. }
  assert (∀ x, hreach md g roots x → alive x) as H1.
  { induction 1 as [c y Hc Hp|x cs c y Hx IH Hcs Hc Hp]; [eapply alive_root; [done|by apply points_to_iff]|].
    destruct (Hch x IH) as (cs' & Hcs' & [Hh _]). rewrite Hcs in Hcs'. injection Hcs' as <-.
    destruct (proj1 (Hh y)) as [Hy Hr]; [exists c; split; [done|by apply points_to_iff]|]. by eapply alive_ref. }
  assert (∀ x, alive x → hreach md g roots x) as H2.
  { induction 1 as [c y Hc Hp|x y Hx IH Hy Hr]; [eapply hr_root; [done|by apply points_to_iff]|].
    destruct (Hch x Hx) as (cs & Hcs & [Hh _]). destruct (proj2 (Hh y) (conj Hy Hr)) as (c & Hc & Hp).
    eapply hr_edge; [done|done|done|by apply points_to_iff]. }
  split; [split; auto|]. intros v. split.
  - destruct 1 as [c v Hc Hv|x cs c v Hx Hcs Hc Hv]; [by eapply held_by_root|]. apply H1 in Hx.
    destruct (Hch x Hx) as (cs' & Hcs' & [_ Ht]). rewrite Hcs in Hcs'. injection Hcs' as <-.
    eapply held_by_record; [done|]. apply Ht. by exists c.
  - destruct 1 as [c Hc Hv|x Hx Hv]; [by eapply sr_root|].
    destruct (Hch x Hx) as (cs & Hcs & [_ Ht]). destruct (proj2 (Ht v) Hv) as (c & Hc & Hs).
    eapply sr_edge; [by apply H2|done|done|done].
Qed.
End Refers.
Lemma MarkPhase_alive md g roots :
  length (m_slotKinds (hp g)) = length (m_structHeap (hp g)) → (∀ x, alive md g roots x → shaped md g x) →
  ∃ ms marks, MarkPhase md g roots = Ok (remarked g ms marks)
    ∧ phase_ok (remarked g ms marks)
    ∧ (∀ y, hmarked (remarked g ms marks) y = true ↔ alive md g roots y)
    ∧ (∀ x, smarked (remarked g ms marks) x = true ↔ text_alive md g roots x).
Proof.
  intros Hk Hsh. destruct (alive_hreach md g roots Hsh) as [Hh Hs].
  destruct (MarkPhase_aux md g roots Hk) as (ms & marks & E & P & M & T).
  { intros x Hx. assert (is_Some (kind_at (hp g) x)) as Hkind.
    { destruct Hx as [c y _ Hp|z cs c y _ _ _ Hp]; apply points_to_iff in Hp;
        (destruct c; [done|destruct Hp as (-> & _ & k & ? & _); by exists k|destruct Hp as (-> & _ & k & ?); by exists k]). }
    by destruct (children_spec md g x (Hsh x (proj1 (Hh x) Hx)) Hkind) as (cs & -> & _). }
  exists ms, marks. split_and!; [done|done| |].
  - intros y. by rewrite M, Hh.
  - intros x. rewrite T. unfold sreach, text_alive. by setoid_rewrite Hs.
Qed.

(** C28: when the records that are alive have the shapes of their types, the mark phase
    terminates within the heap size, changes only mark bits, and marks exactly the slots
    that are alive and the strings they hold: from the tested values through fields,
    elements, receivers, view targets and the rows of lists, dictionaries and channels,
    each by its declared kind. *)
Theorem MarkPhase_spec md g roots :
  length (m_slotKinds (hp g)) = length (m_structHeap (hp g)) → (∀ x, alive md g roots x → shaped md g x) →
  ∃ ms marks, MarkPhase md g roots = Ok (remarked g ms marks)
    ∧ phase_ok (remarked g ms marks)
    ∧ (∀ y, hmarked (remarked g ms marks) y = true ↔ alive md g roots y)
    ∧ (∀ x, smarked (remarked g ms marks) x = true ↔ text_alive md g roots x).
Proof. apply MarkPhase_alive. Qed.

(** ** Witnesses *)
Definition one_point_gc : gc := MkGc one_point [] [] [] [] (-1) (-1) (-1).
Lemma one_point_alive x : alive demo_tables one_point_gc [HeapRef 1 any_kind; StrRef 1] x → x = 1.
Proof.
  assert (∀ y k, kind_at one_point y = Some k → k ≠ 0 → y = 1) as Ht by (intros y k Hk Hn; by destruct (one_point_kind y k Hk Hn)).
  induction 1 as [c y Hc Hp|x y Hx -> Hy Hr].
  - apply elem_of_cons in Hc as [->|Hc]; [by destruct Hp|]. by apply list_elem_of_singleton in Hc as ->.
  - destruct Hr as [d k' _ Hk' Hf|k' [i ci fields f Hx1] _|_ _ Hk'|rank _ _ _ Hk'|k' _ Hk' Hb].
    + apply (Ht y k' Hk'). intros ->. destruct Hf as [[_ Hf]|[[_ Hf]|[[_ Hf]|[_ Hf]]]]; [|done|done|]; set_solver.
    + by destruct (one_point_kind 1 _ Hx1).
    + by apply (Ht y _ Hk').
    + by apply (Ht y _ Hk').
    + apply (Ht y k' Hk'). intros ->. unfold boxable in Hb. set_solver.
Qed.
Lemma one_point_shaped : shaped demo_tables one_point_gc 1.
Proof.
  assert (kind_at one_point 1 = Some RTK_Struct) as Hk by (by vm_compute).
  split; change (hp one_point_gc) with one_point; rewrite Hk; try done. intros _.
  eexists 0, _, _. split_and!; [by vm_compute|by vm_compute|by vm_compute|vm_compute; lia|by vm_compute].
Qed.
Lemma MarkPhase_spec_witness :
  ∃ ms marks, MarkPhase demo_tables one_point_gc [HeapRef 1 any_kind; StrRef 1]
      = Ok (remarked one_point_gc ms marks)
    ∧ hmarked (remarked one_point_gc ms marks) 1 = true.
Proof.
  destruct (MarkPhase_spec demo_tables one_point_gc [HeapRef 1 any_kind; StrRef 1])
    as (ms & marks & H1 & _ & H2 & _).
  - vm_compute. reflexivity.
  - intros x ->%one_point_alive. exact one_point_shaped.
  - exists ms, marks. split; [exact H1|]. apply H2.
    apply (alive_root _ _ _ (HeapRef 1 any_kind)); [left|]. split; [reflexivity|]. split; [reflexivity|]. exists RTK_Struct. by vm_compute.
Defined.
