(* ===== verification/HeapSweep.v ===== *)
(** * Object heap: sweeping

    Models [src/src/vm/VmExecutorGCSweep.cpp] and [CollectGarbage]
    ([VmExecutorGC.cpp]).  A dead class instance, struct or array frees the structs
    it owns before its own slot. *)
From S2P Require Import Prelude Bytecode Prims TypeDesc Shards Strings StringsGC Layout Heap HeapGC.
Open Scope Z_scope.

(** The recycling lists of the seven container classes, with the class index that
    selects each: List, Dict, Mutex, Channel, Semaphore, ReentrantMutex, AtomicInt. *)
Abbreviation recyclers := (list (Z * list Z)).

(** [m_structHeap[i].clear(); m_slotKinds[i] = 0; HeapSweepPush(i)] *)
Definition free_slot (h : heap) (i : Z) : outcome heap :=
  HeapSweepPush (hwith_slots h (<[Z.to_nat i := []]> (m_structHeap h))
                   (<[Z.to_nat i := 0]> (m_slotKinds h)) (m_slotStructIdx h)) i.
(** [c > 0 && c < m_slotKinds.size() && m_slotKinds[c] == RTK_Struct] *)
Definition is_struct_slot (h : heap) (c : Z) : bool :=
  bool_decide (0 < c) && bool_decide (kind_at h c = Some RTK_Struct).

(** [fuel] bounds the nesting depth of struct types. *)
Fixpoint FreeNestedStructs (fuel : nat) (md : tables) (h : heap) (heapIdx structIdx : Z) : outcome heap :=
  match fuel with
  | O => Raise OutOfFuel
  | S fuel =>
      cs ← deref (structs md !!z structIdx);
      foldM (λ h i,
        f ← struct_field cs i;
        match f with
        | None => Ok h
        | Some s =>
            nestedIdx ← get_cell h heapIdx (2 * i);
            if is_struct_slot h nestedIdx
            then h ← FreeNestedStructs fuel md h nestedIdx s; free_slot h nestedIdx
            else Ok h
        end) h (seq 0 (sFieldCount cs))
  end.

Definition FreeOwnedStructs (fuel : nat) (md : tables) (h : heap) (heapIdx : Z) : outcome heap :=
  classIdx ← get_cell h heapIdx 0;
  fields ← Fields (layout md) classIdx;
  foldM (λ h i,
    f ← deref (fields !! i);
    match nested_struct (Layout.kind f) (Layout.structIdx f) with
    | None => Ok h
    | Some s =>
        structSlotIdx ← get_cell h heapIdx (2 * i + 1);
        if is_struct_slot h structSlotIdx
        then h ← FreeNestedStructs fuel md h structSlotIdx s; free_slot h structSlotIdx
        else Ok h
    end) h (seq 0 (length fields)).

Definition FreeOwnedArrayStructElements (fuel : nat) (md : tables) (h : heap) (heapIdx : Z) : outcome heap :=
  arrayTypeIdx ← deref (sidx_at h heapIdx);
  match arrayTypes md !!z arrayTypeIdx with
  | None => Ok h
  | Some at_ =>
      if decide (elemKind at_ ≠ RTK_Struct) then Ok h
      else
        record ← deref (rec_at h heapIdx);
        payloadBase ← ArrayPayloadBase record;
        len ← deref (record !! 3%nat);
        foldM (λ h i,
          elemRef ← get_cell h heapIdx (Z.to_nat (payloadBase + Z.of_nat i));
          if is_struct_slot h elemRef
          then h ← FreeNestedStructs fuel md h elemRef (elemTypeIdx at_); free_slot h elemRef
          else Ok h) h (seq 0 (Z.to_nat len))
  end.

Definition RecycleClassContainerHandles (h : heap) (i : Z) (rs : recyclers) : outcome recyclers :=
  classIdx ← get_cell h i 0;
  foldM (λ out '(ci, l),
    if decide (i16 classIdx = ci) then
      handle ← get_cell h i kListHandleFieldOffset;
      Ok (out ++ [(ci, if decide (0 < handle) then l ++ [handle] else l)])
    else Ok (out ++ [(ci, l)])) [] rs.

(** One iteration for slot [i]; [live] is the counter. *)
Definition sweep_one (fuel : nat) (md : tables) (marks : list bool) (st : heap * recyclers * nat) (i : Z)
    : outcome (heap * recyclers * nat) :=
  let '(h, rs, live) := st in
  k ← deref (kind_at h i);
  if decide (k = 0) then h ← HeapSweepPush h i; Ok (h, rs, live)
  else if negb (default false (marks !!z i)) then
    '(h, rs) ← (if decide (k = RTK_Class) then
                  rs ← RecycleClassContainerHandles h i rs;
                  h ← FreeOwnedStructs fuel md h i;
                  Ok (h, rs)
                else if decide (k = RTK_Struct) then
                  s ← deref (sidx_at h i);
                  h ← FreeNestedStructs fuel md h i s;
                  Ok (h, rs)
                else if decide (k = RTK_Array) then
                  h ← FreeOwnedArrayStructElements fuel md h i;
                  Ok (h, rs)
                else Ok (h, rs));
    h ← free_slot h i;
    Ok (h, rs, live)
  else Ok (h, rs, S live).

Definition SweepPhase (fuel : nat) (md : tables) (marks : list bool) (h : heap) (rs : recyclers)
    : outcome (heap * recyclers) :=
  let h := hwith_shards h (ClearAll (m_heapShards h)) in
  let size := length (m_structHeap h) in
  '(h, rs, liveSlots) ← foldM (λ st i, sweep_one fuel md marks st (Z.of_nat i)) (h, rs, 0%nat)
                              (seq 1 (size - 1));
  Ok (sync_over (hwith_threshold h (m_gcThreshold h `max` (size `max` (2 * liveSlots)))%nat), rs).

Definition CollectGarbage (fuel : nat) (md : tables) (g : gc) (rs : recyclers) (roots : list child)
    : outcome (gc * recyclers) :=
  g ← MarkPhase md g roots;
  '(h, rs) ← SweepPhase fuel md (m_markBits g) (hp g) rs;
  st ← SweepStrings (strs h);
  Ok (gwith g (hwith_strs h st) (m_markBits g), rs).

Definition LiveHeapSlotCount (h : heap) : nat := length (filter (λ k, k ≠ 0) (m_slotKinds h)).

(** ** Ownership *)
Inductive owns (md : tables) (h : heap) (x c s' : Z) : Prop :=
  | owns_struct s cs r j : kind_at h x = Some RTK_Struct → sidx_at h x = Some s →
      structs md !!z s = Some cs → rec_at h x = Some r → sfield cs j = Some s' →
      r !! (2 * j)%nat = Some c → owns md h x c s'
  | owns_class ci fields r j : kind_at h x = Some RTK_Class → rec_at h x = Some r →
      r !! 0%nat = Some ci → layout md !!z ci = Some fields → cfield fields j = Some s' →
      r !! (2 * j + 1)%nat = Some c → owns md h x c s'
  | owns_array t at_ r base len (j : nat) : kind_at h x = Some RTK_Array → sidx_at h x = Some t →
      arrayTypes md !!z t = Some at_ → elemKind at_ = RTK_Struct → elemTypeIdx at_ = s' →
      rec_at h x = Some r → ArrayPayloadBase r = Ok base → r !! 3%nat = Some len → Z.of_nat j < len →
      r !! Z.to_nat (base + Z.of_nat j) = Some c → owns md h x c s'.
(** A struct slot that an owner names. *)
Definition owned_struct (md : tables) (h : heap) (x c s' : Z) : Prop :=
  owns md h x c s' ∧ 0 < c ∧ kind_at h c = Some RTK_Struct.

(** What a sweep that is to keep [keep] frees: the other records and, to be kept or not,
    the structs that a freed record owns. *)
Inductive lost (md : tables) (h : heap) (keep : Z → Prop) : Z → Prop :=
  | lost_unmarked x k : kind_at h x = Some k → k ≠ 0 → 0 < x → ¬ keep x → lost md h keep x
  | lost_owned x c s' : lost md h keep x → owned_struct md h x c s' → lost md h keep c.
Definition owner_lost (md : tables) (h : heap) (keep : Z → Prop) (c : Z) : Prop :=
  ∃ x s', lost md h keep x ∧ owned_struct md h x c s'.
Definition marked (marks : list bool) (x : Z) : Prop := default false (marks !!z x) = true.

(** Records have the shape their kind and type say. *)
Record sweep_wf (n : nat) (md : tables) (rs : recyclers) (h : heap) : Prop := {
  wf_typed : ∀ x c s', owned_struct md h x c s' → sidx_at h c = Some s';
  wf_struct : ∀ x, kind_at h x = Some RTK_Struct → ∃ s cs r, sidx_at h x = Some s
    ∧ structs md !!z s = Some cs ∧ rec_at h x = Some r ∧ length r = (2 * sFieldCount cs)%nat ∧ nests n md s;
  wf_class : ∀ x, kind_at h x = Some RTK_Class → ∃ ci fields r, rec_at h x = Some r
    ∧ r !! 0%nat = Some ci ∧ layout md !!z ci = Some fields ∧ length r = (1 + 2 * length fields)%nat
    ∧ ∀ ci' l, (ci', l) ∈ rs → i16 ci = ci' → (1 < length r)%nat;
  wf_array : ∀ x, kind_at h x = Some RTK_Array → ∃ t, sidx_at h x = Some t
    ∧ ∀ at_, arrayTypes md !!z t = Some at_ → elemKind at_ = RTK_Struct →
      ∃ r base len, rec_at h x = Some r ∧ ArrayPayloadBase r = Ok base ∧ r !! 3%nat = Some len
        ∧ 0 ≤ base ∧ 0 ≤ len ∧ base + len ≤ Z.of_nat (length r);
  wf_tables : tables_ok md
}.

(** Struct type [s'] occurs inside [s]. *)
Inductive below (md : tables) : Z → Z → Prop :=
  | below_one s cs j s' : structs md !!z s = Some cs → (j < sFieldCount cs)%nat →
      sfield cs j = Some s' → below md s s'
  | below_trans s s' s'' : below md s s' → below md s' s'' → below md s s''.

Lemma nests_mono n md s : nests n md s → nests (S n) md s.
Proof.
  revert s. induction n as [|n IH]; intros s; [done|].
  intros (cs & Hcs & Hf). exists cs. split; [done|]. intros i s' Hi Hs. apply IH. by eapply Hf.
Qed.
Lemma nests_below n md s s' : below md s s' → nests n md s → ∃ m, n = S m ∧ nests m md s'.
Proof.
  intros Hb. revert n. induction Hb as [s cs j s' Hcs Hj Hs|s s' s'' _ IH1 _ IH2]; intros n Hn.
  - destruct n as [|n]; [done|]. destruct Hn as (cs' & Hcs' & Hf). simplify_eq. exists n.
    split; [done|]. eapply Hf; [exact Hj|]. by apply sfield_Some.
  - destruct (IH1 n Hn) as (m & -> & Hm). destruct (IH2 m Hm) as (k & -> & Hk).
    exists (S k). split; [done|]. by apply nests_mono.
Qed.
Lemma nests_not_below n md s : nests n md s → ¬ below md s s.
Proof.
  revert s. induction n as [|n IH]; intros s Hn Hb; [done|].
  destruct (nests_below _ _ _ _ Hb Hn) as (m & [= <-] & Hm). by apply (IH s).
Qed.

(** ** Freeing *)
(** How often a slot is on the free lists. *)
Definition occ (h : heap) (x : Z) : nat := length (filter (x =.) (free (m_heapShards h))).
Lemma occ_pos h x : x ∈ free (m_heapShards h) ↔ (0 < occ h x)%nat.
Proof.
  unfold occ. destruct (filter (x =.) (free (m_heapShards h))) as [|y l] eqn:E.
  - split; [|simpl; lia]. intros Hx. assert (x ∈ filter (x =.) (free (m_heapShards h))) as H by (by apply list_elem_of_filter).
    rewrite E in H. by apply elem_of_nil in H.
  - split; [simpl; lia|]. intros _. assert (y ∈ filter (x =.) (free (m_heapShards h))) as H by (rewrite E; left).
    by apply list_elem_of_filter in H as [-> ?].
Qed.
Lemma occ_perm h h' (c : Z) : free (m_heapShards h') ≡ₚ c :: free (m_heapShards h) →
  ∀ x, occ h' x = (occ h x + if decide (x = c) then 1 else 0)%nat.
Proof.
  intros Hp x. unfold occ. rewrite Hp, filter_cons. repeat match goal with |- context [@decide ?P ?d] => destruct (@decide P d) end; simpl; (lia || congruence).
Qed.
Lemma occ_NoDup h : (∀ x, (occ h x ≤ 1)%nat) → NoDup (free (m_heapShards h)).
Proof.
  unfold occ. induction (free (m_heapShards h)) as [|y l IH]; intros H; [apply NoDup_nil_2|]. apply list.NoDup_cons. split.
  - intros Hy. specialize (H y). rewrite filter_cons, decide_True in H by done. simpl in H.
    destruct (filter (y =.) l) as [|z l'] eqn:E; [|simpl in H; lia].
    assert (y ∈ filter (y =.) l) as Hin by (by apply list_elem_of_filter). rewrite E in Hin. by apply elem_of_nil in Hin.
  - apply IH. intros x. specialize (H x). rewrite filter_cons in H. case_decide; simpl in H; lia.
Qed.

(** From [h] to [h'] only slots in [F] were freed; each was put on a free list once. *)
Record frees (h h' : heap) (F : Z → Prop) : Prop := {
  fr_keep : ∀ x, (kind_at h' x = kind_at h x ∧ rec_at h' x = rec_at h x)
    ∨ (F x ∧ (∃ k, kind_at h x = Some k ∧ k ≠ 0) ∧ kind_at h' x = Some 0 ∧ rec_at h' x = Some []);
  fr_occ : ∀ x, occ h' x = (occ h x + if decide (kind_at h' x = kind_at h x) then 0 else 1)%nat;
  fr_sidx : m_slotStructIdx h' = m_slotStructIdx h;
  fr_lens : length (m_structHeap h') = length (m_structHeap h)
    ∧ length (m_slotKinds h') = length (m_slotKinds h)
    ∧ length (m_heapShards h') = length (m_heapShards h);
  fr_rest : strs h' = strs h ∧ m_gcThreshold h' = m_gcThreshold h
}.

Lemma frees_refl h F : frees h h F.
Proof. split; try done; [by left|]. intros x. rewrite decide_True by done. lia. Qed.
Lemma frees_trans h1 h2 h3 F : frees h1 h2 F → frees h2 h3 F → frees h1 h3 F.
Proof.
  intros [A1 A3 A4 (A5 & A6 & A7) (A8 & A9)] [B1 B3 B4 (B5 & B6 & B7) (B8 & B9)]. split.
  - intros x. destruct (B1 x) as [[E1 E2]|(HF & (k & Hk & Hn) & E1 & E2)].
    + destruct (A1 x) as [[E3 E4]|(HF & Hk & E3 & E4)]; [left|right]; split_and!; auto; congruence.
    + destruct (A1 x) as [[E3 E4]|(_ & _ & E3 & _)]; [|congruence]. right. split_and!; [done|exists k; split; congruence|done|done].
  - intros x. rewrite B3, A3. destruct (A1 x) as [[-> _]|(_ & (k & Hk & Hn) & E3 & _)].
    + rewrite (decide_True (P := kind_at h1 x = kind_at h1 x)) by done. lia.
    + rewrite (decide_False (P := kind_at h2 x = kind_at h1 x)) by congruence.
      destruct (B1 x) as [[-> _]|(_ & (k2 & Hk2 & Hn2) & _)]; [|congruence].
      rewrite (decide_True (P := kind_at h2 x = kind_at h2 x)), decide_False by congruence. lia.
  - congruence.
  - split_and!; congruence.
  - split; congruence.
Qed.
Lemma frees_mono h h' (F G : Z → Prop) : (∀ x, F x → G x) → frees h h' F → frees h h' G.
Proof. intros HG [A1 A3 A4 A5 A6]. split; try done. intros x. destruct (A1 x) as [?|(? & ?)]; auto. Qed.
Lemma frees_kept h h' F x k :
  frees h h' F → ¬ F x → kind_at h x = Some k → kind_at h' x = Some k ∧ rec_at h' x = rec_at h x.
Proof. intros Hf Hx Hk. destruct (fr_keep _ _ _ Hf x) as [[E1 E2]|(? & _)]; [|done]. by rewrite E1. Qed.
Lemma frees_zero h h' F x : frees h h' F → kind_at h x = Some 0 → kind_at h' x = Some 0.
Proof. intros Hf Hx. destruct (fr_keep _ _ _ Hf x) as [[-> _]|(_ & _ & ? & _)]; done. Qed.

Lemma push_spec h c :
  (0 < length (m_heapShards h))%nat →
  ∃ h', HeapSweepPush h c = Ok h' ∧ h' = hwith_shards h (m_heapShards h') ∧ length (m_heapShards h') = length (m_heapShards h)
    ∧ ∀ x, occ h' x = (occ h x + if decide (x = c) then 1 else 0)%nat.
Proof.
  intros Hsh. unfold HeapSweepPush.
  destruct (Push_spec (m_heapShards h) (SweepShardOf (m_heapShards h) c) c) as (sh & -> & Hp & Hl);
    [by apply SweepShardOf_lt|]. rewrite bindE. eexists. split; [done|]. split_and!; [done|done|]. by apply occ_perm.
Qed.

Lemma free_slot_spec h c k :
  0 < c → kind_at h c = Some k → k ≠ 0 → length (m_slotKinds h) = length (m_structHeap h) →
  (0 < length (m_heapShards h))%nat →
  ∃ h', free_slot h c = Ok h' ∧ frees h h' (λ y, y = c) ∧ kind_at h' c = Some 0.
Proof.
  intros Hc Hk Hn Hlen Hsh. pose proof (zlookup_Some_lt _ _ _ Hk) as Hr. unfold free_slot.
  set (h1 := hwith_slots h _ _ _).
  assert (kind_at h1 c = Some 0) as Hk1 by (apply zlookup_insert_eq; lia).
  assert (rec_at h1 c = Some []) as Hr1 by (apply zlookup_insert_eq; lia).
  assert (∀ x, x ≠ c → kind_at h1 x = kind_at h x ∧ rec_at h1 x = rec_at h x) as Hother
    by (intros x Hx; split; apply zlookup_insert_ne; (lia || done)).
  destruct (push_spec h1 c) as (h' & -> & E & Hl & Ho); [done|]. exists h'. split; [done|].
  assert (∀ x, kind_at h' x = kind_at h1 x ∧ rec_at h' x = rec_at h1 x) as Hsame by (intros x; by rewrite E).
  split; [|by rewrite (proj1 (Hsame c))]. split.
  - intros x. destruct (Hsame x) as [-> ->]. destruct (decide (x = c)) as [->|Hx]; [right; split_and!; [done|by exists k|done..]|left; by apply Hother].
  - intros x. rewrite Ho. change (occ h1 x) with (occ h x). f_equal. rewrite (proj1 (Hsame x)).
    destruct (decide (x = c)) as [->|Hx]; [by rewrite Hk1, Hk, decide_False by congruence|].
    rewrite (proj1 (Hother x Hx)). by rewrite decide_True.
  - by rewrite E.
  - split_and!; [rewrite E; apply length_insert|rewrite E; apply length_insert|exact Hl].
  - by rewrite E.
Qed.

(** Live slots still hold what they held at the start. *)
Record agrees (h0 h : heap) : Prop := {
  ag_sidx : m_slotStructIdx h = m_slotStructIdx h0;
  ag_len : length (m_structHeap h) = length (m_structHeap h0);
  ag_kinds : length (m_slotKinds h) = length (m_structHeap h);
  ag_shards : (0 < length (m_heapShards h))%nat;
  ag_live : ∀ x k, kind_at h x = Some k → k ≠ 0 → kind_at h0 x = Some k ∧ rec_at h x = rec_at h0 x;
  ag_gone : ∀ x k, kind_at h0 x = Some k → kind_at h x = Some k ∨ kind_at h x = Some 0
}.
Lemma agrees_frees h0 h h' F : agrees h0 h → frees h h' F → agrees h0 h'.
Proof.
  intros [A1 A2 A3 A4 A5 A6] [B1 B3 B4 (B5 & B6 & B7) _]. split; try congruence.
  - intros x k Hk Hn. destruct (B1 x) as [[E1 E2]|(_ & _ & E1 & _)]; [|congruence].
    rewrite E1 in Hk. rewrite E2. by apply A5.
  - intros x k Hk. destruct (B1 x) as [[E1 E2]|(_ & _ & E1 & _)]; [|by right]. rewrite E1. by apply A6.
Qed.

Section Sweep.
Context (n : nat) (md : tables) (marks : list bool) (rs0 : recyclers) (h0 : heap).
Context (Hwf : sweep_wf n md rs0 h0).
Abbreviation lost := (lost md h0 (marked marks)).
Abbreviation owner_lost := (owner_lost md h0 (marked marks)).

(** The structs that [x] owns are free. *)
Definition settled (h : heap) (x : Z) : Prop := ∀ c s', owned_struct md h0 x c s' → kind_at h c = Some 0.
(** So are those of every freed record. *)
Definition settled_heap (h : heap) : Prop :=
  ∀ x k, kind_at h0 x = Some k → k ≠ 0 → kind_at h x = Some 0 → settled h x.
Lemma settled_frees h h' F x : frees h h' F → settled h x → settled h' x.
Proof. intros Hf Hs c s' Ho. eapply frees_zero; [exact Hf|]. by eapply Hs. Qed.
Lemma settled_heap_slot h h' c : settled_heap h → frees h h' (λ y, y = c) → settled h c → settled_heap h'.
Proof.
  intros Hh Hf Hc x k Hk Hn Hx. eapply settled_frees; [exact Hf|]. destruct (decide (x = c)) as [->|Hne]; [done|].
  apply (Hh x k Hk Hn). destruct (fr_keep _ _ _ Hf x) as [[E _]|(? & _)]; [by rewrite <- E|done].
Qed.

Lemma agrees_get h x k c :
  agrees h0 h → kind_at h x = Some k → k ≠ 0 → get_cell h x c = get_cell h0 x c.
Proof. intros Hag Hk Hn. unfold get_cell. by destruct (ag_live _ _ Hag x k Hk Hn) as [_ ->]. Qed.

Lemma is_struct_slot_true h c :
  is_struct_slot h c = true ↔ 0 < c ∧ kind_at h c = Some RTK_Struct.
Proof. unfold is_struct_slot. by rewrite andb_true_iff, !bool_decide_eq_true. Qed.
Lemma not_struct_slot h c : agrees h0 h → is_struct_slot h c = false → 0 < c → kind_at h0 c = Some RTK_Struct → kind_at h c = Some 0.
Proof.
  intros Hag Hf Hc Hk. destruct (ag_gone _ _ Hag c _ Hk) as [H|H]; [|done].
  assert (is_struct_slot h c = true) by (by apply is_struct_slot_true). congruence.
Qed.

(** Freeing the parts of [x] one after another. *)
Lemma free_parts h x k (body : heap → nat → outcome heap) (F : Z → Prop) (part : nat → Z → Z → Prop) m :
  agrees h0 h → settled_heap h → ¬ F x → kind_at h x = Some k →
  (∀ j hj, (j < m)%nat → agrees h0 hj → settled_heap hj → kind_at hj x = Some k →
     ∃ h', body hj j = Ok h' ∧ frees hj h' F ∧ settled_heap h' ∧
       ∀ c s', part j c s' → owned_struct md h0 x c s' → kind_at h' c = Some 0) →
  ∃ h', foldM body h (seq 0 m) = Ok h' ∧ frees h h' F ∧ settled_heap h' ∧
    ∀ j c s', (j < m)%nat → part j c s' → owned_struct md h0 x c s' → kind_at h' c = Some 0.
Proof using.
  intros Hag Hsh HF Hx Hbody.
  destruct (foldM_seq_inv body (λ j h', frees h h' F ∧ settled_heap h' ∧
    ∀ i c s', (i < j)%nat → part i c s' → owned_struct md h0 x c s' → kind_at h' c = Some 0) m 0 h) as (h' & -> & H).
  - split_and!; [apply frees_refl|done|intros; lia].
  - intros j hj [_ Hj] (Hf & Hshj & Hall).
    destruct (Hbody j hj) as (h' & -> & Hf' & Hs' & Hcj); [done|by eapply agrees_frees|done|by destruct (frees_kept _ _ _ x k Hf HF Hx)|].
    exists h'. split; [done|]. split_and!; [by eapply frees_trans|done|]. intros i c s' Hi Hp Ho.
    destruct (decide (i = j)) as [->|]; [by eapply Hcj|]. eapply frees_zero; [exact Hf'|]. eapply (Hall i); [lia|done..].
  - exists h'. by split.
Qed.

(** Freeing what [x] owns, type by type. *)
Definition part_of (s : Z) (y : Z) : Prop := owner_lost y ∧ ∃ s', below md s s' ∧ sidx_at h0 y = Some s'.
(** One part: [nested] says what [FreeNestedStructs] does to a struct of its type. *)
Lemma free_one h x c s' m (F : Z → Prop) :
  agrees h0 h → settled_heap h → lost x → owns md h0 x c s' → nests m md s' →
  (owner_lost c → sidx_at h0 c = Some s' → F c) → (∀ y, part_of s' y → F y) →
  (∀ h, agrees h0 h → settled_heap h → kind_at h c = Some RTK_Struct → sidx_at h0 c = Some s' → lost c →
    ∃ h', FreeNestedStructs m md h c s' = Ok h' ∧ frees h h' (part_of s') ∧ settled_heap h' ∧ settled h' c) →
  ∃ h', (if is_struct_slot h c
         then h ← FreeNestedStructs m md h c s'; free_slot h c else Ok h) = Ok h'
    ∧ frees h h' F ∧ settled_heap h' ∧ (owned_struct md h0 x c s' → kind_at h' c = Some 0).
Proof using Hwf.
  intros Hag Hsh Hl Hown Hn HFc HF Hnested. destruct (is_struct_slot h c) eqn:Hst.
  2:{ exists h. split_and!; [done|apply frees_refl|done|]. intros (_ & Hp & Hk). by apply not_struct_slot. }
  apply is_struct_slot_true in Hst as [Hcp Hck].
  assert (kind_at h0 c = Some RTK_Struct) as Hc0 by (by apply (ag_live _ _ Hag) in Hck as [? _]).
  assert (owned_struct md h0 x c s') as Ho by done. pose proof (wf_typed _ _ _ _ Hwf x c s' Ho) as Hcs'.
  destruct (Hnested h) as (h1 & -> & Hf1 & Hsh1 & Hset); [done..|by eapply lost_owned|].
  rewrite bindE. pose proof (agrees_frees _ _ _ _ Hag Hf1) as Hag1.
  destruct (frees_kept h h1 _ c RTK_Struct Hf1) as [Hc1 _]; [|done|].
  { intros (_ & s2 & Hb2 & Hs2). rewrite Hcs' in Hs2. injection Hs2 as <-. by eapply nests_not_below. }
  destruct (free_slot_spec h1 c _ Hcp Hc1 ltac:(done) (ag_kinds _ _ Hag1) (ag_shards _ _ Hag1)) as (h2 & -> & Hf2 & Hz).
  exists h2. split_and!; [done| |by eapply settled_heap_slot|done].
  eapply frees_trans; [by eapply frees_mono|]. eapply frees_mono; [|exact Hf2].
  intros y ->. apply HFc; [by exists x, s'|done].
Qed.

Lemma FreeNested_spec m : ∀ h x s,
  agrees h0 h → settled_heap h → nests m md s → kind_at h x = Some RTK_Struct → sidx_at h0 x = Some s → lost x →
  ∃ h', FreeNestedStructs m md h x s = Ok h' ∧ frees h h' (part_of s) ∧ settled_heap h' ∧ settled h' x.
Proof using Hwf.
  induction m as [|m IH]; intros h x s Hag Hsh Hn Hx Hs Hd; [done|].
  pose proof Hn as (cs & Hcs & Hnest). cbn [FreeNestedStructs]. rewrite Hcs, derefE, bindE.
  assert (¬ part_of s x) as HFx.
  { intros (_ & s' & Hb & Hs'). rewrite Hs in Hs'. injection Hs' as <-. by apply (nests_not_below (S m) md s). }
  assert (kind_at h0 x = Some RTK_Struct) as Hx0 by (by apply (ag_live _ _ Hag) in Hx as [? _]).
  destruct (wf_struct _ _ _ _ Hwf x Hx0) as (s0 & cs0 & r & Hs0 & Hcs0 & Hr & Hlen & _). simplify_eq.
  match goal with |- context [foldM ?f h (seq 0 ?k)] =>
    destruct (free_parts h x _ f (part_of s) (λ i c s', sfield cs i = Some s' ∧ r !! (2 * i)%nat = Some c) k Hag Hsh HFx Hx)
      as (h' & -> & Hf & Hsh' & Hall) end.
  - intros j hj Hj Hagj Hshj Hxj. destruct (struct_field_ok cs j md) as [f Hfld]; [by apply (wf_tables _ _ _ _ Hwf s)|lia|].
    rewrite Hfld, bindE. destruct f as [s'|].
    2: { exists hj. split_and!; [done|apply frees_refl|done|]. intros c s' [Hsf _]. apply sfield_Some in Hsf. congruence. }
    assert (sfield cs j = Some s') as Hsf by (by apply sfield_Some).
    rewrite (agrees_get hj x RTK_Struct) by done. unfold get_cell. rewrite Hr, derefE, bindE.
    destruct (lookup_lt_is_Some_2 r (2 * j)) as [c Hc]; [lia|]. rewrite Hc, derefE, bindE.
    assert (below md s s') as Hb by (apply (below_one md s cs j s'); [done|lia|done]).
    assert (nests m md s') as Hn' by (apply (Hnest j s'); [lia|done]).
    destruct (free_one hj x c s' m (part_of s)) as (h' & -> & Hf' & Hs' & Hz); [done..|by eapply owns_struct|done| | | |].
    + intros Hy Hcs'. split; [done|]. by exists s'.
    + intros y (Hy & s2 & Hb2 & Hs2). split; [done|]. exists s2. split; [by eapply below_trans|done].
    + intros h2 ? ? ? ?. by apply IH.
    + exists h'. split_and!; [done..|]. intros c' s2 [Hsf2 Hc'] Ho. simplify_eq. by apply Hz.
  - exists h'. split_and!; [done..|]. intros c s' Ho. pose proof Ho as [Hown _].
    destruct Hown as [s1 cs1 r1 j _ Hs1 Hcs1 Hr1 Hsf Hc|ci fields r1 j Hk|t at_ r1 base len j Hk]; [|by rewrite Hx0 in Hk..].
    simplify_eq. eapply (Hall j); [|done..]. apply sfield_Some in Hsf. unfold struct_field in Hsf.
    apply bind_Ok in Hsf as (k & Hk & _). destruct (sFieldTypeKinds _ !! j) eqn:E; [|done]. apply lookup_lt_Some in E.
    by erewrite so_kinds in E by (by eapply (wf_tables _ _ _ _ Hwf)).
Qed.

(** One part of a freed record that is not itself a struct. *)
Lemma free_part_spec h x c s' :
  agrees h0 h → settled_heap h → owns md h0 x c s' → lost x →
  ∃ h', (if is_struct_slot h c
         then h ← FreeNestedStructs n md h c s'; free_slot h c else Ok h) = Ok h'
    ∧ frees h h' owner_lost ∧ settled_heap h' ∧ (owned_struct md h0 x c s' → kind_at h' c = Some 0).
Proof using Hwf.
  intros Hag Hsh Hown Hd. destruct (Bool.bool_dec (is_struct_slot h c) true) as [Hst|Hst%not_true_is_false].
  2:{ exists h. rewrite Hst. split_and!; [done|apply frees_refl|done|]. intros (_ & Hp & Hk). by apply not_struct_slot. }
  pose proof (proj1 (is_struct_slot_true h c) Hst) as [Hcp Hck].
  assert (kind_at h0 c = Some RTK_Struct) as Hc0 by (by apply (ag_live _ _ Hag) in Hck as [? _]).
  destruct (wf_struct _ _ _ _ Hwf c Hc0) as (s0 & cs & r & Hs0 & _ & _ & _ & Hn).
  rewrite (wf_typed _ _ _ _ Hwf x c s' (conj Hown (conj Hcp Hc0))) in Hs0. injection Hs0 as <-.
  apply free_one; try done; [by intros y [? _]|]. intros h2 ? ? ? ? ?. by apply FreeNested_spec.
Qed.
Lemma not_struct_lost x k : kind_at h0 x = Some k → k ≠ RTK_Struct → ¬ owner_lost x.
Proof using. intros Hk Hn (y & s' & _ & _ & _ & E). congruence. Qed.

Lemma FreeOwned_spec h x :
  agrees h0 h → settled_heap h → kind_at h x = Some RTK_Class → lost x →
  ∃ h', FreeOwnedStructs n md h x = Ok h' ∧ frees h h' owner_lost ∧ settled_heap h' ∧ settled h' x.
Proof using Hwf.
  intros Hag Hsh Hx Hd. pose proof (ag_live _ _ Hag x _ Hx ltac:(done)) as [Hx0 Hrx].
  destruct (wf_class _ _ _ _ Hwf x Hx0) as (ci & fields & r & Hr & Hci & Hl & Hlen & _).
  pose proof (not_struct_lost x _ Hx0 ltac:(done)) as HFx. unfold FreeOwnedStructs.
  assert (get_cell h x 0 = Ok ci) as -> by (unfold get_cell; rewrite Hrx, Hr, derefE, bindE, Hci; done).
  rewrite bindE. unfold Fields. rewrite Hl, derefE, bindE.
  match goal with |- context [foldM ?f h (seq 0 ?k)] =>
    destruct (free_parts h x _ f owner_lost (λ i c s', cfield fields i = Some s' ∧ r !! (2 * i + 1)%nat = Some c) k Hag Hsh HFx Hx)
      as (h' & -> & Hf & Hsh' & Hall) end.
  - intros j hj Hj Hagj Hshj Hxj. destruct (lookup_lt_is_Some_2 fields j) as [e He]; [lia|]. rewrite He, derefE, bindE.
    assert (cfield fields j = nested_struct (Layout.kind e) (Layout.structIdx e)) as Hcf by (unfold cfield; by rewrite He).
    destruct (nested_struct (Layout.kind e) (Layout.structIdx e)) as [s'|].
    2:{ exists hj. split_and!; [done|apply frees_refl|done|]. intros c s' [E _]. congruence. }
    rewrite (agrees_get hj x RTK_Class) by done. unfold get_cell. rewrite Hr, derefE, bindE.
    destruct (lookup_lt_is_Some_2 r (2 * j + 1)) as [c Hc]; [lia|]. rewrite Hc, derefE, bindE.
    destruct (free_part_spec hj x c s') as (h' & -> & Hf' & Hs' & Hz); [done|done|by eapply owns_class|done|].
    exists h'. split_and!; [done..|]. intros c' s2 [Hsf2 Hc'] Ho. simplify_eq. by apply Hz.
  - exists h'. split_and!; [done..|]. intros c s' Ho. pose proof Ho as [Hown _].
    destruct Hown as [s1 cs1 r1 j Hk|ci1 fields1 r1 j Hk Hr1 Hci1 Hf1 Hsf Hc|t at_ r1 base len j Hk]; [by rewrite Hx0 in Hk| |by rewrite Hx0 in Hk].
    simplify_eq. eapply (Hall j); [|done..]. unfold cfield in Hsf. destruct (fields !! j) eqn:E; [|done]. by eapply lookup_lt_Some.
Qed.

Lemma FreeArray_spec h x :
  agrees h0 h → settled_heap h → kind_at h x = Some RTK_Array → lost x →
  ∃ h', FreeOwnedArrayStructElements n md h x = Ok h' ∧ frees h h' owner_lost ∧ settled_heap h' ∧ settled h' x.
Proof using Hwf.
  intros Hag Hsh Hx Hd. pose proof (ag_live _ _ Hag x _ Hx ltac:(done)) as [Hx0 Hrx].
  destruct (wf_array _ _ _ _ Hwf x Hx0) as (t & Ht & Harr).
  pose proof (not_struct_lost x _ Hx0 ltac:(done)) as HFx. unfold FreeOwnedArrayStructElements.
  assert (sidx_at h x = Some t) as -> by (unfold sidx_at; by rewrite (ag_sidx _ _ Hag)).
  assert (∀ c s', owned_struct md h0 x c s' → ∃ at_ r base len (j : nat), arrayTypes md !!z t = Some at_ ∧ elemKind at_ = RTK_Struct
    ∧ elemTypeIdx at_ = s' ∧ rec_at h0 x = Some r ∧ ArrayPayloadBase r = Ok base ∧ r !! 3%nat = Some len ∧ Z.of_nat j < len
    ∧ r !! Z.to_nat (base + Z.of_nat j) = Some c) as Hinv.
  { intros c s' [[s1 cs1 r1 j Hk|ci1 fields1 r1 j Hk|t1 at_ r1 base len j Hk Ht1] _]; [by rewrite Hx0 in Hk..|].
    simplify_eq. by exists at_, r1, base, len, j. }
  rewrite derefE, bindE. destruct (arrayTypes md !!z t) as [at_|] eqn:Hat.
  2:{ exists h. split_and!; [done|apply frees_refl|done|]. intros c s' (? & ? & ? & ? & ? & ? & _)%Hinv. done. }
  case_decide as Hek.
  { exists h. split_and!; [done|apply frees_refl|done|]. intros c s' (at2 & ? & ? & ? & ? & E & E' & _)%Hinv. simplify_eq. }
  destruct (Harr at_ eq_refl Hek) as (r & base & len & Hr & Hb & Hl & Hb0 & Hl0 & Hlen).
  rewrite Hrx, Hr, derefE, bindE, Hb, bindE, Hl, derefE, bindE.
  match goal with |- context [foldM ?f h (seq 0 ?k)] =>
    destruct (free_parts h x _ f owner_lost (λ i c s', s' = elemTypeIdx at_ ∧ r !! Z.to_nat (base + Z.of_nat i) = Some c) k Hag Hsh HFx Hx)
      as (h' & -> & Hf & Hsh' & Hall) end.
  - intros j hj Hj Hagj Hshj Hxj.
    rewrite (agrees_get hj x RTK_Array) by done. unfold get_cell. rewrite Hr, derefE, bindE.
    destruct (lookup_lt_is_Some_2 r (Z.to_nat (base + Z.of_nat j))) as [c Hc]; [lia|]. rewrite Hc, derefE, bindE.
    destruct (free_part_spec hj x c (elemTypeIdx at_)) as (h' & -> & Hf' & Hs' & Hz); [done|done| |done|].
    + eapply owns_array with (j := j); [done..| |done]. lia.
    + exists h'. split_and!; [done..|]. intros c' s2 [-> Hc'] Ho. simplify_eq. by apply Hz.
  - exists h'. split_and!; [done..|]. intros c s' Ho.
    destruct (Hinv c s' Ho) as (at2 & r2 & base2 & len2 & j & E1 & E2 & E3 & E4 & E5 & E6 & Hj & E7). simplify_eq.
    rewrite Hb in E5. injection E5 as <-. refine (Hall j c _ _ _ Ho); [lia|by split].
Qed.
End Sweep.

(** ** The sweep loop *)
Definition same_classes (rs0 rs : recyclers) : Prop := rs.*1 = rs0.*1.

Lemma Recycle_spec h i ci r rs :
  rec_at h i = Some r → r !! 0%nat = Some ci →
  (∀ ci' l, (ci', l) ∈ rs → i16 ci = ci' → (1 < length r)%nat) →
  ∃ rs', RecycleClassContainerHandles h i rs = Ok rs' ∧ same_classes rs rs'.
Proof.
  intros Hr Hci Hlen. unfold RecycleClassContainerHandles.
  assert (get_cell h i 0 = Ok ci) as -> by (unfold get_cell; rewrite Hr, derefE, bindE, Hci; done).
  rewrite bindE. unfold same_classes.
  enough (∀ out, ∃ rs', foldM (λ out '(ci0, l),
      if decide (i16 ci = ci0) then
        handle ← get_cell h i kListHandleFieldOffset;
        Ok (out ++ [(ci0, if decide (0 < handle) then l ++ [handle] else l)])
      else Ok (out ++ [(ci0, l)])) out rs = Ok rs' ∧ rs'.*1 = out.*1 ++ rs.*1) as Hg.
  { destruct (Hg []) as (rs' & E & Hrs). by exists rs'. }
  induction rs as [|[c0 l0] rs IH]; intros out; [exists out; by rewrite app_nil_r|].
  assert (∃ l1, (if decide (i16 ci = c0) then
        handle ← get_cell h i kListHandleFieldOffset;
        Ok (out ++ [(c0, if decide (0 < handle) then l0 ++ [handle] else l0)])
      else Ok (out ++ [(c0, l0)])) = Ok (out ++ [(c0, l1)])) as [l1 El1].
  { case_decide as Hc; [|by exists l0].
    destruct (lookup_lt_is_Some_2 r 1) as [hd Hhd]; [by apply (Hlen c0 l0); [left|]|].
    unfold get_cell, kListHandleFieldOffset. rewrite Hr, derefE, bindE, Hhd, derefE, bindE. by eexists. }
  cbn [foldM]. rewrite El1, bindE.
  destruct (IH ltac:(intros ci' l' Hin; apply (Hlen ci' l'); by right) (out ++ [(c0, l1)]))
    as (rs' & E & Hrs). exists rs'. split; [exact E|]. rewrite Hrs, fmap_app, <- app_assoc. done.
Qed.

Lemma same_classes_elem rs0 rs ci l : same_classes rs0 rs → (ci, l) ∈ rs → ∃ l0, (ci, l0) ∈ rs0.
Proof.
  intros E Hin. assert (ci ∈ rs.*1) as Hc by (apply list_elem_of_fmap; by exists (ci, l)).
  rewrite E in Hc. apply list_elem_of_fmap in Hc as ([c1 l1] & -> & ?). by exists l1.
Qed.

Section Loop.
Context (n : nat) (md : tables) (marks : list bool) (rs0 : recyclers) (h0 : heap).
Context (Hwf : sweep_wf n md rs0 h0).
Abbreviation lost := (lost md h0 (marked marks)).
Abbreviation owner_lost := (owner_lost md h0 (marked marks)).

(** Before slot [i]: what lies below it is settled; a slot at or above it was pushed, and
    once, only if the turn of an owner came first. *)
Record sweep_inv (i : Z) (st : heap * recyclers * nat) : Prop := {
  inv_frees : ∀ x, (kind_at st.1.1 x = kind_at h0 x ∧ rec_at st.1.1 x = rec_at h0 x)
    ∨ (lost x ∧ (∃ k, kind_at h0 x = Some k ∧ k ≠ 0) ∧ kind_at st.1.1 x = Some 0);
  inv_settled : settled_heap md h0 st.1.1;
  inv_agrees : agrees h0 st.1.1;
  inv_rs : same_classes rs0 st.1.2;
  inv_dead : ∀ x, 0 < x < i → ¬ marked marks x → kind_at st.1.1 x = Some 0;
  inv_below : ∀ x, 0 < x < i → (occ st.1.1 x ≤ 2)%nat ∧ ((0 < occ st.1.1 x)%nat ↔ kind_at st.1.1 x = Some 0)
    ∧ (occ st.1.1 x = 2%nat → owner_lost x);
  inv_above : ∀ x, ¬ 0 < x < i → (occ st.1.1 x = 0%nat ∧ kind_at st.1.1 x = kind_at h0 x)
    ∨ (occ st.1.1 x = 1%nat ∧ owner_lost x ∧ kind_at st.1.1 x = Some 0);
  inv_rest : strs st.1.1 = strs h0 ∧ m_gcThreshold st.1.1 = m_gcThreshold h0
}.

(** Slot [i] was free already: it is pushed. *)
Lemma sweep_free_step i h rs live :
  sweep_inv i (h, rs, live) → 0 < i → kind_at h i = Some 0 →
  ∃ h', HeapSweepPush h i = Ok h' ∧ sweep_inv (i + 1) (h', rs, live).
Proof using.
  intros [I1 I2 I3 I4 I5 I6 I7 I8] Hi Hk. cbn [fst snd] in *. pose proof I3 as [A1 A2 A3 A4 A5 A6].
  destruct (push_spec h i A4) as (h' & -> & E & Hl & Ho). exists h'. split; [done|].
  assert (∀ x, kind_at h' x = kind_at h x ∧ rec_at h' x = rec_at h x) as Hs by (intros x; by rewrite E).
  split; cbn [fst snd].
  - intros x. destruct (Hs x) as [-> ->]. apply I1.
  - intros x k Hx Hn. rewrite (proj1 (Hs x)). intros Hz c s' Hown. rewrite (proj1 (Hs c)). by eapply I2.
  - split; [by rewrite E|by rewrite E|by rewrite E|lia| |]; intros x k; rewrite (proj1 (Hs x)); [rewrite (proj2 (Hs x))|]; auto.
  - done.
  - intros x Hx Hm. rewrite (proj1 (Hs x)). destruct (decide (x = i)) as [->|]; [done|]. apply I5; [lia|done].
  - intros x Hx. rewrite (proj1 (Hs x)), Ho. destruct (decide (x = i)) as [->|Hne].
    + destruct (I7 i) as [[-> _]|(-> & Hol & _)]; [lia|..]; (split_and!; [lia|split; [done|lia]|]); [lia|done].
    + rewrite Nat.add_0_r. apply I6. lia.
  - intros x Hx. rewrite (proj1 (Hs x)), Ho, decide_False by lia. rewrite Nat.add_0_r. apply I7. lia.
  - by rewrite E.
Qed.
(** Slot [i] is marked. *)
Lemma sweep_keep_step i h rs live live' :
  sweep_inv i (h, rs, live) → marked marks i → kind_at h i ≠ Some 0 → sweep_inv (i + 1) (h, rs, live').
Proof using.
  intros [I1 I2 I3 I4 I5 I6 I7 I8] Hm Hk. cbn [fst snd] in *. split; cbn [fst snd]; try done.
  - intros x Hx Hmx. destruct (decide (x = i)) as [->|]; [done|]. apply I5; [lia|done].
  - intros x Hx. destruct (decide (x = i)) as [->|]; [|apply I6; lia].
    destruct (I7 i) as [[-> _]|(_ & _ & ?)]; [lia| |done]. split_and!; [lia|split; [lia|done]|lia].
  - intros x Hx. apply I7. lia.
Qed.
(** Slot [i] is freed, after the structs it owns. *)
Lemma sweep_dead_step i h rs live h' rs' k :
  sweep_inv i (h, rs, live) → 0 < i → kind_at h i = Some k → k ≠ 0 → ¬ marked marks i →
  frees h h' (λ y, owner_lost y ∨ y = i) → settled_heap md h0 h' → kind_at h' i = Some 0 → same_classes rs0 rs' →
  sweep_inv (i + 1) (h', rs', live).
Proof using.
  intros [I1 I2 I3 I4 I5 I6 I7 I8] Hi Hk Hn Hm Hf Hsh Hz Hrs. cbn [fst snd] in *.
  destruct (ag_live _ _ I3 i k Hk Hn) as [Hk0 _].
  assert (occ h i = 0%nat) as Hoi by (destruct (I7 i) as [[? _]|(_ & _ & ?)]; [lia|done|congruence]).
  pose proof (fr_occ _ _ _ Hf) as Hocc. split; cbn [fst snd]; [|done|by eapply agrees_frees|done|..].
  - intros x. destruct (fr_keep _ _ _ Hf x) as [[-> ->]|(Hx & (kx & Hkx & Hnx) & Hzx & _)]; [apply I1|].
    right. destruct (ag_live _ _ I3 x kx Hkx Hnx) as [Hkx0 _]. split_and!; [|by exists kx|done].
    destruct Hx as [(y & s' & Hy & Ho)| ->]; [by eapply lost_owned|by eapply lost_unmarked].
  - intros x Hx Hmx. destruct (decide (x = i)) as [->|]; [done|]. eapply frees_zero; [exact Hf|]. apply I5; [lia|done].
  - intros x Hx. rewrite Hocc. destruct (decide (x = i)) as [->|Hne].
    { rewrite Hoi, Hz, Hk, decide_False by congruence. split_and!; [lia|split; [done|lia]|lia]. }
    destruct (I6 x) as (J1 & J2 & J3); [lia|]. destruct (fr_keep _ _ _ Hf x) as [[-> _]|(Hfx & (kx & Hkx & Hnx) & Hzx & _)].
    + rewrite decide_True by done. by rewrite Nat.add_0_r.
    + rewrite decide_False by congruence. assert (occ h x = 0%nat) as ->.
      { destruct (decide (occ h x = 0%nat)); [done|]. assert (kind_at h x = Some 0) by (apply J2; lia). congruence. }
      split_and!; [lia|split; [done|lia]|lia].
  - intros x Hx. rewrite Hocc. destruct (fr_keep _ _ _ Hf x) as [[-> _]|(Hfx & (kx & Hkx & Hnx) & Hzx & _)].
    + rewrite decide_True by done. rewrite Nat.add_0_r. apply I7. lia.
    + rewrite decide_False by congruence. destruct Hfx as [Hol| ->]; [|lia]. right.
      destruct (I7 x) as [[-> _]|(_ & _ & ?)]; [lia|done|congruence].
  - destruct (fr_rest _ _ _ Hf), I8. split; congruence.
Qed.

Lemma sweep_one_spec i st :
  sweep_inv i st → 0 < i < Z.of_nat (length (m_structHeap h0)) →
  ∃ st', sweep_one n md marks st i = Ok st' ∧ sweep_inv (i + 1) st'.
Proof using Hwf.
  destruct st as [[h rs] live]. intros Hinv Hi. pose proof (inv_agrees _ _ Hinv) as Hag. cbn [fst] in Hag.
  unfold sweep_one. destruct (zlookup_is_Some (m_slotKinds h) i) as [k Hk].
  { rewrite (ag_kinds _ _ Hag), (ag_len _ _ Hag). lia. }
  change (kind_at h i = Some k) in Hk. rewrite Hk, derefE, bindE.
  case_decide as Hk0.
  { subst k. destruct (sweep_free_step i h rs live Hinv) as (h' & -> & H'); [lia|done|]. rewrite bindE. by eexists. }
  destruct (default false (marks !!z i)) eqn:Hm; cbn [negb].
  { eexists. split; [done|]. eapply sweep_keep_step; [exact Hinv|done|congruence]. }
  assert (¬ marked marks i) as Hnm by (unfold marked; congruence).
  destruct (ag_live _ _ Hag i k Hk Hk0) as [Hk00 Hri].
  assert (lost i) as Hli by (eapply lost_unmarked; [done|done|lia|done]).
  pose proof (inv_settled _ _ Hinv) as Hsh. cbn [fst] in Hsh.
  match goal with |- context [mbind _ ?t] => set (body := t) end.
  assert (∃ h' rs', body = Ok (h', rs') ∧ frees h h' owner_lost ∧ settled_heap md h0 h' ∧ settled md h0 h' i
    ∧ same_classes rs0 rs' ∧ kind_at h' i = Some k) as (h' & rs' & -> & Hf & Hsh' & Hset & Hrs & Hki).
  { pose proof (inv_rs _ _ Hinv) as Hrs0. cbn [fst snd] in Hrs0. unfold body.
    case_decide as HC; [|case_decide as HS; [|case_decide as HA]].
    - subst k. destruct (wf_class _ _ _ _ Hwf i Hk00) as (ci & fields & r & Hr & Hci & Hl & Hlen & Hrc).
      destruct (Recycle_spec h i ci r rs) as (rs' & -> & Hrs); [congruence|done| |].
      { intros ci' l Hin E. destruct (same_classes_elem rs0 rs ci' l Hrs0 Hin) as [l0 Hl0]. by eapply Hrc. }
      rewrite bindE. destruct (FreeOwned_spec n md marks rs0 h0 Hwf h i) as (h' & -> & Hf & Hs1 & Hs2); [done..|].
      rewrite bindE. exists h', rs'. split_and!; try done; [unfold same_classes in *; congruence|].
      eapply frees_kept; [exact Hf|by eapply not_struct_lost|done].
    - subst k. destruct (wf_struct _ _ _ _ Hwf i Hk00) as (s & cs & r & Hs & _ & _ & _ & Hn).
      assert (sidx_at h i = Some s) as -> by (unfold sidx_at; by rewrite (ag_sidx _ _ Hag)).
      rewrite derefE, bindE. destruct (FreeNested_spec n md marks rs0 h0 Hwf n h i s) as (h' & -> & Hf & Hs1 & Hs2); [done..|].
      rewrite bindE. exists h', rs. split_and!; try done; [eapply frees_mono; [|exact Hf]; by intros y [? _]|].
      eapply frees_kept; [exact Hf| |done]. intros (_ & s2 & Hb & Hs'). rewrite Hs in Hs'. injection Hs' as <-. by eapply nests_not_below.
    - subst k. destruct (FreeArray_spec n md marks rs0 h0 Hwf h i) as (h' & -> & Hf & Hs1 & Hs2); [done..|].
      rewrite bindE. exists h', rs. split_and!; try done. eapply frees_kept; [exact Hf|by eapply not_struct_lost|done].
    - exists h, rs. split_and!; try done; [apply frees_refl|]. intros c s' [[? ? ? ? Hk'|? ? ? ? Hk'|? ? ? ? ? ? Hk'] _]; congruence. }
  rewrite bindE. cbn beta iota. pose proof (agrees_frees _ _ _ _ Hag Hf) as Hag'.
  destruct (free_slot_spec h' i k) as (h2 & -> & Hf2 & Hk2); [lia|done|done|apply Hag'|apply Hag'|]. rewrite bindE.
  eexists. split; [done|]. eapply sweep_dead_step; [exact Hinv|lia|exact Hk|done|done| |by eapply settled_heap_slot|done|done].
  eapply frees_trans; [eapply frees_mono; [|exact Hf]; auto|]. eapply frees_mono; [|exact Hf2]. auto.
Qed.
End Loop.

(** What a sweep of [h] that is to keep [keep] leaves in [h']. *)
Record swept (md : tables) (h : heap) (keep : Z → Prop) (h' : heap) : Prop := {
  sw_kept : ∀ x, ¬ lost md h keep x → kind_at h' x = kind_at h x ∧ rec_at h' x = rec_at h x;
  sw_freed : ∀ x, lost md h keep x → kind_at h' x = Some 0;
  sw_free : ∀ x, x ∈ free (m_heapShards h') ↔ 0 < x < Z.of_nat (length (m_structHeap h)) ∧ kind_at h' x = Some 0;
  sw_twice : ∀ x, (occ h' x ≤ 2)%nat ∧ (occ h' x = 2%nat → owner_lost md h keep x)
}.

Lemma SweepPhase_aux n md marks rs h :
  sweep_wf n md rs h → length (m_slotKinds h) = length (m_structHeap h) →
  (0 < length (m_structHeap h))%nat → (0 < length (m_heapShards h))%nat →
  ∃ h' rs', SweepPhase n md marks h rs = Ok (h', rs')
    ∧ length (m_structHeap h') = length (m_structHeap h) ∧ m_slotStructIdx h' = m_slotStructIdx h
    ∧ swept md h (marked marks) h'
    ∧ (length (m_structHeap h') ≤ m_gcThreshold h')%nat
    ∧ ∃ over, strs h' = with_over (strs h) over.
Proof.
  intros Hwf Hlk Hpos Hsh. unfold SweepPhase.
  set (h1 := hwith_shards h (ClearAll (m_heapShards h))).
  destruct (free_ClearAll (m_heapShards h)) as [Hfr Hns].
  assert (∀ x, occ h1 x = 0%nat) as Hocc1 by (intros x; unfold occ; simpl; by rewrite Hfr).
  change (m_structHeap h1) with (m_structHeap h).
  match goal with |- context [foldM ?f ?s0 (seq 1 ?m)] =>
    destruct (foldM_seq_inv f (λ k st, sweep_inv md marks rs h (Z.of_nat k) st) m 1 s0)
      as ([[h' rs'] live] & -> & Hinv) end.
  { split; cbn [fst snd]; [by left| |split; try done; [simpl; lia|auto]|done|intros; lia|intros; lia| |done].
    - intros x k Hk Hn Hz. change (kind_at h x = Some 0) in Hz. congruence.
    - intros x _. left. by split. }
  { intros k st Hk Hst. destruct (sweep_one_spec n md marks rs h Hwf (Z.of_nat k) st Hst) as (st' & E & Hst'); [lia|].
    exists st'. split; [exact E|]. by replace (Z.of_nat (S k)) with (Z.of_nat k + 1) by lia. }
  rewrite bindE. cbn beta iota. eexists _, rs'. split; [done|].
  replace (Z.of_nat (1 + (length (m_structHeap h) - 1))) with (Z.of_nat (length (m_structHeap h))) in Hinv by lia.
  destruct Hinv as [I1 I2 I3 I4 I5 I6 I7 I8]. cbn [fst snd] in *.
  assert (∀ x k, kind_at h x = Some k → 0 < x → 0 < x < Z.of_nat (length (m_structHeap h))) as Hrange.
  { intros x k Hk%zlookup_Some_lt Hx. lia. }
  assert (∀ x, lost md h (marked marks) x → kind_at h' x = Some 0) as Hfreed.
  { intros x Hx. assert (∃ k, kind_at h x = Some k ∧ k ≠ 0 ∧ 0 < x) as (k & Hk & Hn & Hp).
    { destruct Hx as [x k Hk Hn Hp _|x c s' _ (_ & Hp & Hk)]; eauto. }
    revert k Hk Hn Hp. induction Hx as [x k0 _ _ _ Hm|x c s' Hx IH Ho]; intros k Hk Hn Hp; [by apply I5; [eapply Hrange|]|].
    assert (∃ k, kind_at h x = Some k ∧ k ≠ 0 ∧ 0 < x) as (kx & Hkx & Hnx & Hpx).
    { destruct Hx as [x kx Hkx Hnx Hpx _|y x sy _ (_ & Hpx & Hkx)]; eauto. }
    by eapply I2; [exact Hkx|exact Hnx|by eapply IH|]. }
  split_and!; simpl.
  - apply (ag_len _ _ I3).
  - apply (ag_sidx _ _ I3).
  - split; [|done|..].
    + intros x Hx. destruct (I1 x) as [?|(? & _)]; done.
    + intros x. unfold sync_over. simpl. rewrite occ_pos. split.
      * intros Hx. assert (0 < x < Z.of_nat (length (m_structHeap h))) as Hr.
        { destruct (decide (0 < x < Z.of_nat (length (m_structHeap h)))) as [|Hn]; [done|].
          destruct (I7 x Hn) as [[E _]|(_ & (? & ? & _ & _ & Hp & Hk) & _)]; [lia|by eapply Hrange]. }
        split; [done|]. by apply I6.
      * intros [Hx Hk]. by apply I6.
    + intros x. change (occ _ x) with (occ h' x).
      destruct (decide (0 < x < Z.of_nat (length (m_structHeap h)))) as [Hr|Hn]; [by destruct (I6 x Hr) as (? & _ & ?)|].
      destruct (I7 x Hn) as [[-> _]|(-> & _)]; split; (lia || done).
  - rewrite (ag_len _ _ I3). simpl. lia.
  - destruct I8 as [-> _]. by eexists.
Qed.

(** C35: on a well-formed heap, sweeping terminates and succeeds. It frees exactly the
    records that are not marked and, marked or not, the structs that a freed record owns;
    every other record keeps its kind, type and cells. The free lists hold exactly the
    free slots, each once, except that a struct freed with its owner may be on them
    twice. *)
Theorem SweepPhase_spec n md marks rs h :
  sweep_wf n md rs h → length (m_slotKinds h) = length (m_structHeap h) →
  (0 < length (m_structHeap h))%nat → (0 < length (m_heapShards h))%nat →
  ∃ h' rs', SweepPhase n md marks h rs = Ok (h', rs')
    ∧ length (m_structHeap h') = length (m_structHeap h) ∧ m_slotStructIdx h' = m_slotStructIdx h
    ∧ swept md h (marked marks) h'
    ∧ (length (m_structHeap h') ≤ m_gcThreshold h')%nat
    ∧ ∃ over, strs h' = with_over (strs h) over.
Proof. apply SweepPhase_aux. Qed.

(** ** A whole collection *)
Lemma owns_with_strs md h st x c s' : owns md (hwith_strs h st) x c s' ↔ owns md h x c s'.
Proof. split; (destruct 1; [by eapply owns_struct|by eapply owns_class|by eapply owns_array]). Qed.
Lemma owned_with_strs md h st x c s' : owned_struct md (hwith_strs h st) x c s' ↔ owned_struct md h x c s'.
Proof. unfold owned_struct. by rewrite owns_with_strs. Qed.
Lemma sweep_wf_with_strs n md rs h st : sweep_wf n md rs h → sweep_wf n md rs (hwith_strs h st).
Proof.
  intros [W1 W2 W3 W4 W5]. split; try assumption. intros x c s' Ho. apply (W1 x). by apply (owned_with_strs md h st).
Qed.
Lemma lost_with_strs md h st (keep keep' : Z → Prop) x : (∀ y, keep y ↔ keep' y) →
  lost md (hwith_strs h st) keep x ↔ lost md h keep' x.
Proof.
  intros Hk. split; induction 1 as [x k Hx Hn Hp Hm|x c s' _ IH Ho].
  - apply (lost_unmarked _ _ _ x k); [done..|]. by rewrite <- Hk.
  - eapply lost_owned; [done|]. by apply (owned_with_strs md h st).
  - apply (lost_unmarked _ _ _ x k); [done..|]. by rewrite Hk.
  - eapply lost_owned; [done|]. by apply (owned_with_strs md h st).
Qed.
Lemma closed_with_over st over : closed st → closed (with_over st over).
Proof. intros [C1 C2 C3]. by split. Qed.

(** C26: a collection of a well-formed heap succeeds; it frees exactly the records the
    roots do not reach and the structs, reached or not, that a freed record owns; every
    other record keeps its kind, type and cells; every string the roots reach through
    records, and every immortal one, keeps its content, and no other string stays in
    use. *)
Theorem CollectGarbage_spec n md g rs roots :
  heap_ok (hp g) → (∀ x, alive md g roots x → shaped md g x) → sweep_wf n md rs (hp g) →
  ∃ g' rs', CollectGarbage n md g rs roots = Ok (g', rs')
    ∧ (∀ x, alive md g roots x → ¬ owner_lost md (hp g) (alive md g roots) x → hsame (hp g) (hp g') x)
    ∧ (∀ x, 0 < x < Z.of_nat (length (m_structHeap (hp g))) →
         ¬ alive md g roots x ∨ owner_lost md (hp g) (alive md g roots) x →
         kind_at (hp g') x = Some 0 ∧ x ∈ free (m_heapShards (hp g')))
    ∧ (∀ x, (occ (hp g') x ≤ 2)%nat ∧ (occ (hp g') x = 2%nat → owner_lost md (hp g) (alive md g roots) x))
    ∧ store_ok (strs (hp g'))
    ∧ (∀ x, in_use (strs (hp g')) x ↔
         ∃ o, live (strs (hp g)) x o ∧ (immortal o = true ∨ text_alive md g roots x))
    ∧ (∀ x bs k, in_use (strs (hp g')) x → reads (strs (hp g)) x bs k → reads (strs (hp g')) x bs k).
Proof.
  intros Hok Hshape Hwf. unfold CollectGarbage.
  destruct (MarkPhase_alive md g roots (hk_kinds _ Hok) Hshape) as (ms & marks & -> & P & Hh & Hs).
  rewrite bindE. set (h1 := hp (remarked g ms marks)).
  assert (sweep_wf n md rs h1) as Hwf1 by (by apply sweep_wf_with_strs).
  assert (0 < length (m_structHeap h1))%nat as Hpos.
  { pose proof (hk_zero _ Hok) as Hz%zlookup_Some_lt. rewrite (hk_kinds _ Hok) in Hz. simpl. lia. }
  destruct (SweepPhase_aux n md marks rs h1 Hwf1 (hk_kinds _ Hok) Hpos (hk_shards _ Hok))
    as (h2 & rs' & E2 & _ & Hsidx & [Hkeep Hfreed Hlist Htwice] & _ & over & Hst).
  assert (∀ x, lost md h1 (marked marks) x ↔ lost md (hp g) (alive md g roots) x) as Hlost
    by (intros x; apply lost_with_strs, Hh).
  assert (∀ x, owner_lost md h1 (marked marks) x ↔ owner_lost md (hp g) (alive md g roots) x) as Howner.
  { intros x. unfold owner_lost. setoid_rewrite Hlost. unfold h1. by setoid_rewrite owned_with_strs. }
  change (m_markBits (remarked g ms marks)) with marks. rewrite E2, bindE. cbn beta iota.
  pose proof (ph_smarks _ P) as Lms. simpl in Lms.
  assert (store_ok (strs h2)) as Hok2.
  { rewrite Hst. apply store_ok_with_over. apply store_ok_with_marks; [done|apply Hok]. }
  destruct (SweepStrings_aux (strs h2) Hok2) as (st & E3 & Hok3 & U & R & _).
  { rewrite Hst. apply closed_with_over, P. }
  rewrite E3, bindE. eexists _, rs'. split; [reflexivity|]. split_and!; [| |intros x; rewrite <- Howner; apply Htwice|done| |].
  - intros x Hx Hno. destruct (Hkeep x) as [K1 K2].
    { rewrite Hlost. destruct 1 as [? ? ? ? ? ?|? ? ? ? ?]; [done|]. apply Hno. eexists _, _. by split. }
    split_and!; [exact K2|exact K1|]. unfold sidx_at. simpl. by rewrite Hsidx.
  - intros x Hr Hx. assert (kind_at h2 x = Some 0) as Hz; [|split; [done|by apply Hlist]].
    destruct (zlookup_is_Some (m_slotKinds (hp g)) x) as [k Hk]; [rewrite (hk_kinds _ Hok); lia|].
    destruct (decide (k = 0)) as [->|Hn].
    { destruct (Hkeep x) as [K1 _]; [|by rewrite K1]. change (kind_at (hp g) x = Some 0) in Hk.
      intros Hl%Hlost. destruct Hl as [x k Hk' ? ? ?|? x ? _ (_ & _ & Hk')]; rewrite Hk in Hk'; [congruence|done]. }
    apply Hfreed, Hlost. destruct Hx as [Hx|(y & s' & Hy & Ho)]; [by apply (lost_unmarked _ _ _ x k); [..|lia|]|by eapply lost_owned].
  - intros x. rewrite (U x), Hst. apply survives_iff; [apply Hok|done|apply Hs].
  - intros x bs k Hx Hrd. apply R; [done|]. rewrite Hst. by apply (reads_agree (strs (hp g))).
Qed.

(** ** A slot owned by a dead record is freed twice *)
(** Allocate an instance with a struct field, drop it, and collect. *)
Definition drop_and_collect : outcome heap :=
  '(_, h) ← AllocClassOnHeap 2 demo_tables demo_heap 0 0;
  '(g, _) ← CollectGarbage 2 demo_tables (MkGc h [] [] [] [] (-1) (-1) (-1)) [] [];
  Ok (hp g).
Fixpoint alloc_points (k : nat) (h : heap) : outcome (list Z) :=
  match k with
  | O => Ok []
  | S k =>
      '(i, h) ← AllocStructOnHeap 2 demo_tables h 0 0;
      l ← alloc_points k h;
      Ok (i :: l)
  end.

(** collecting a dropped class instance puts the struct it owns on the free list
    twice (once when the owner is swept, once when the loop reaches the slot, now
    free), so two later allocations, both alive, are given the same slot. *)
Theorem sweep_double_free :
  ∃ h, drop_and_collect = Ok h ∧ ¬ NoDup (free (m_heapShards h))
    ∧ ∃ l, alloc_points 5 h = Ok l ∧ ¬ NoDup l.
Proof.
  destruct drop_and_collect as [h|e] eqn:E.
  2:{ exfalso. pose proof (f_equal (λ r, match r with Ok _ => true | Raise _ => false end) E) as H.
      vm_compute in H. discriminate H. }
  assert (m_heapShards h = [[4; 3; 2; 1; 2; 3]; []]) as Hs.
  { pose proof (f_equal (λ r, match r with Ok h => m_heapShards h | Raise _ => [] end) E) as H.
    vm_compute in H. symmetry. exact H. }
  exists h. split; [reflexivity|]. split.
  - rewrite Hs. apply (bool_decide_unpack _). vm_compute. exact I.
  - exists [4; 3; 2; 1; 2]. split; [|apply (bool_decide_unpack _); vm_compute; exact I].
    pose proof (f_equal (λ r, match r with Ok h => alloc_points 5 h | Raise e => Raise e end) E) as H.
    cbn beta iota in H. rewrite <- H. vm_compute. reflexivity.
Qed.

(** ** Witnesses *)
Lemma one_point_owns x c s' : ¬ owns demo_tables one_point x c s'.
Proof.
  intros [s cs r j Hk Hs Hcs Hr Hf Hc|ci fields r j Hk|t at_ r base len j Hk].
  - destruct (one_point_kind x _ Hk) as [-> _]; [done|].
    unfold sidx_at in Hs. rewrite (proj1 (proj2 (proj2 one_point_slots))) in Hs. injection Hs as <-.
    injection Hcs as <-. apply sfield_Some in Hf. destruct j as [|j]; [done|].
    unfold struct_field in Hf. simpl in Hf. done.
  - by destruct (one_point_kind x _ Hk) as [_ ?].
  - by destruct (one_point_kind x _ Hk) as [_ ?].
Qed.
Lemma one_point_wf : sweep_wf 1 demo_tables [] one_point.
Proof.
  split.
  - by intros x c s' [?%one_point_owns _].
  - intros x Hk. destruct (one_point_kind x _ Hk) as [-> _]; [done|]. destruct one_point_slots as (E1 & _ & E3 & _).
    eexists 0, _, _. unfold sidx_at, rec_at. rewrite E1, E3. split_and!; [done..|apply demo_nests].
  - intros x Hk. by destruct (one_point_kind x _ Hk) as [_ ?].
  - intros x Hk. by destruct (one_point_kind x _ Hk) as [_ ?].
  - apply demo_tables_ok.
Qed.

Lemma SweepPhase_spec_witness :
  ∃ h' rs', SweepPhase 1 demo_tables [false; true] one_point [] = Ok (h', rs')
    ∧ kind_at h' 1 = kind_at one_point 1 ∧ rec_at h' 1 = rec_at one_point 1.
Proof.
  destruct one_point_slots as (E1 & E2 & E3 & E4).
  destruct (SweepPhase_spec 1 demo_tables [false; true] [] one_point) as (h' & rs' & H1 & _ & _ & [H2 _ _ _] & _).
  - apply one_point_wf.
  - rewrite E1, E2. reflexivity.
  - rewrite E1. simpl. lia.
  - rewrite E4. lia.
  - exists h', rs'. split; [exact H1|]. apply H2. intros Hl. inversion Hl as [x k _ _ _ Hm|x c s' _ [Ho _]]; [by apply Hm|by apply one_point_owns in Ho].
Defined.
Lemma one_point_ok : heap_ok one_point.
Proof.
  destruct (AllocStruct_aux 1 demo_tables demo_heap 0 0 demo_tables_ok (proj1 demo_nests)
    (proj1 demo_heap_ok) (proj2 demo_heap_ok)) as (i & h & E & Hok & _).
  unfold one_point. by rewrite E.
Qed.
Lemma CollectGarbage_spec_witness :
  ∃ g' rs', CollectGarbage 1 demo_tables one_point_gc [] [HeapRef 1 any_kind; StrRef 1] = Ok (g', rs')
    ∧ hsame one_point (hp g') 1.
Proof.
  destruct (CollectGarbage_spec 1 demo_tables one_point_gc [] [HeapRef 1 any_kind; StrRef 1])
    as (g' & rs' & H1 & H2 & _).
  - exact one_point_ok.
  - intros x ->%one_point_alive. exact one_point_shaped.
  - exact one_point_wf.
  - exists g', rs'. split; [exact H1|]. apply H2.
    + apply (alive_root _ _ _ (HeapRef 1 any_kind)); [left|]. split; [reflexivity|]. split; [reflexivity|]. exists RTK_Struct. by vm_compute.
    + intros (y & s' & _ & [Ho%one_point_owns _]). exact Ho.
Defined.
