(* ===== verification/Arrays.v ===== *)
(** * Arrays and array views

    Models the array half of [src/src/vm/VmExecutorAlloc.cpp] (creation, view
    validation and creation) and the element opcodes of
    [VmExecutorOpsArrayN.cpp].  An owned record is a header followed by its
    row-major payload; a view record carries strides, an offset and the owned
    record it maps into.  The 32-bit stride product is [Undefined] on overflow;
    64-bit sums are written with their wrap-around, which the theorems exclude. *)
From stdpp Require Import pretty.
From S2P Require Import Prelude Bytecode Prims TypeDesc Shards Strings StringOps Layout Heap HeapGC.
Open Scope Z_scope.

Definition kMaxArrayElems : Z := 100 * 1000 * 1000.
Definition oob {A} (msg : string) : outcome A := Raise (NlangExc ExcOob msg).
Definition null_array {A} : outcome A := Raise (NlangExc ExcNullPtr "NLang VM: null array access").

(** ** Creation *)
Definition length_error {A} : outcome A := oob "NLang VM: array length out of range".
(** [dims] holds the [rank] dimensions; the product is accumulated in 64 bits. *)
Definition ValidateArrayDims (dims : list Z) : outcome Z :=
  foldM (λ elemCount d,
    if decide (d < 0 ∨ kMaxArrayElems < d) then length_error
    else
      let elemCount := i64 (elemCount * d) in
      if decide (kMaxArrayElems < elemCount) then length_error else Ok elemCount) 1 dims.

(** [record[base + k] = vs[k]] *)
Fixpoint write_cells (h : heap) (i : Z) (base : nat) (vs : list Z) : outcome heap :=
  match vs with
  | [] => Ok h
  | v :: vs => h ← set_cell h i base v; write_cells h i (S base) vs
  end.

Definition AllocArrayOnHeap (fuel : nat) (md : tables) (h : heap) (shard : nat) (arrayTypeIdx : Z)
    (dims : list Z) : outcome (Z * heap) :=
  let rank := Z.of_nat (length dims) in
  match arrayTypes md !!z arrayTypeIdx with
  | None => Raise (RuntimeError "NLang VM: invalid array type index")
  | Some at_ =>
      size ← ValidateArrayDims dims;
      let cells := ArrayElemCells (elemKind at_) in
      let totalSlots := i32 (i32 (ArrayHeaderCells rank) + size * cells) in
      let h := HNoteGcPressure h in
      '(heapIdx, h) ← TakeHeapSlot h shard;
      let h := set_slot h heapIdx (replicate (Z.to_nat totalSlots) 0) RTK_Array arrayTypeIdx in
      h ← write_cells h heapIdx 0 [RTK_Array; arrayTypeIdx; rank; size];
      h ← write_cells h heapIdx 4 dims;
      h ← (if decide (elemKind at_ = RTK_Struct ∧ elemTypeIdx at_ ≠ 65535) then
             let base := ArrayHeaderCells rank in
             foldM (λ h i,
               '(elemIdx, h) ← AllocStructOnHeap fuel md h shard (elemTypeIdx at_);
               set_cell h heapIdx (Z.to_nat (base + Z.of_nat i * cells)) elemIdx) h (seq 0 (Z.to_nat size))
           else Ok h);
      Ok (heapIdx, h)
  end.

(** ** Views *)
Definition ValidateViewTypeMatch (md : tables) (h : heap) (arrayTypeIdx rank ownerIdx : Z) : outcome () :=
  callerRow ← deref (arrayTypes md !!z arrayTypeIdx);
  t ← get_cell h ownerIdx 1;
  ownerRow ← deref (arrayTypes md !!z u16 t);
  if decide (at_rank callerRow ≠ rank ∨ elemKind callerRow ≠ elemKind ownerRow
             ∨ elemTypeIdx callerRow ≠ elemTypeIdx ownerRow)
  then oob "view element type does not match the target array"
  else Ok ().

(** The extreme addresses, in 64 bits. *)
Definition cover_step (acc : Z * Z) (ds : Z * Z) : Z * Z :=
  let '(minAddr, maxAddr) := acc in
  let '(d, stride) := ds in
  let span := i64 (i32 (d - 1) * stride) in
  if decide (span < 0) then (i64 (minAddr + span), maxAddr) else (minAddr, i64 (maxAddr + span)).
Definition ValidateViewCoverage (dims strides : list Z) (offset ownerCount : Z) : outcome () :=
  let '(minAddr, maxAddr) := foldl cover_step (offset, offset) (zip dims strides) in
  if decide (minAddr < 0 ∨ ownerCount ≤ maxAddr)
  then oob "view range exceeds the target array bounds"
  else Ok ().

(** The owned target and the element count. *)
Definition ValidateViewCreation (md : tables) (h : heap) (arrayTypeIdx : Z) (dims strides : list Z)
    (offset targetIdx : Z) : outcome (Z * Z) :=
  let rank := Z.of_nat (length dims) in
  match arrayTypes md !!z arrayTypeIdx with
  | None => Raise (RuntimeError "NLang VM: invalid array type index")
  | Some _ =>
      if decide (rank < 1 ∨ kMaxArrayRank < rank) then oob "view rank out of range"
      else match kind_at h targetIdx with
      | None => Raise (RuntimeError "NLang VM: invalid heap index in AllocView")
      | Some k =>
          if decide (targetIdx = 0) then Raise (NlangExc ExcNullPtr "view of a null array")
          else
            targetIdx ← (if decide (k = RTK_ArrayView) then
                           viewRank ← get_cell h targetIdx 2;
                           t ← get_cell h targetIdx (Z.to_nat (ArrayViewTargetCell (u8 viewRank)));
                           if decide (t ≤ 0 ∨ kind_at h t = None)
                           then Raise (RuntimeError "NLang VM: corrupt view record (target out of range)")
                           else Ok t
                         else Ok targetIdx);
            if decide (kind_at h targetIdx ≠ Some RTK_Array) then oob "view target is not an array"
            else
              size ← ValidateArrayDims dims;
              _ ← ValidateViewTypeMatch md h arrayTypeIdx rank targetIdx;
              _ ← (if decide (0 < size) then
                     ownerCount ← get_cell h targetIdx 3;
                     ValidateViewCoverage dims strides offset ownerCount
                   else Ok ());
              Ok (targetIdx, size)
      end
  end.

Definition AllocViewOnHeap (md : tables) (h : heap) (shard : nat) (arrayTypeIdx : Z)
    (dims strides : list Z) (offset targetIdx : Z) : outcome (Z * heap) :=
  let rank := Z.of_nat (length dims) in
  '(targetIdx, elemCount) ← ValidateViewCreation md h arrayTypeIdx dims strides offset targetIdx;
  let h := HNoteGcPressure h in
  '(heapIdx, h) ← TakeHeapSlot h shard;
  let h := set_slot h heapIdx (replicate (Z.to_nat (ArrayViewRecordCells rank)) 0) RTK_ArrayView arrayTypeIdx in
  h ← write_cells h heapIdx 0 [RTK_ArrayView; arrayTypeIdx; rank; elemCount];
  h ← write_cells h heapIdx 4 dims;
  h ← write_cells h heapIdx (Z.to_nat (ArrayViewStridesBase rank)) strides;
  h ← write_cells h heapIdx (Z.to_nat (ArrayViewOffsetCell rank)) [offset];
  h ← write_cells h heapIdx (Z.to_nat (ArrayViewTargetCell rank)) [targetIdx];
  Ok (heapIdx, h).

(** ** Element addresses *)
Definition cells_at (r : list Z) (base n : nat) : outcome (list Z) := deref (slice base n r).

(** [stride *= dims[d]] in 32 bits, from the last dimension. *)
Fixpoint rowMajor (dims : list Z) : outcome (list Z * Z) :=
  match dims with
  | [] => Ok ([], 1)
  | d :: dims =>
      '(strides, stride) ← rowMajor dims;
      let next := stride * d in
      if decide (is_sint 32 next) then Ok (stride :: strides, next)
      else Raise (Undefined "signed overflow in row-major stride")
  end.

(** The coordinates are read from the frame: [idxs] are their values. *)
Definition index_error {A} (d : nat) : outcome A :=
  oob ("NLang VM: array index out of bounds (dim " ++ pretty d ++ ")").
Fixpoint fold_coords (k : nat) (flat : Z) (idxs dims strides : list Z) : outcome Z :=
  match idxs, dims, strides with
  | idx :: idxs, d :: dims, s :: strides =>
      if decide (idx < 0 ∨ d ≤ idx) then index_error k
      else fold_coords (S k) (i64 (flat + idx * s)) idxs dims strides
  | [], [], [] => Ok flat
  | _, _, _ => Raise OutOfBounds
  end.
Definition ElementFlatAddress (slot : list Z) (kind : Z) (rank : nat) (idxs : list Z) : outcome Z :=
  dims ← cells_at slot 4 rank;
  '(strides, flat) ← (if decide (kind = RTK_ArrayView) then
                        strides ← cells_at slot (Z.to_nat (ArrayViewStridesBase (u8 (Z.of_nat rank)))) rank;
                        off ← deref (slot !! Z.to_nat (ArrayViewOffsetCell (u8 (Z.of_nat rank))));
                        Ok (strides, off)
                      else if decide (kMaxArrayRank < Z.of_nat rank) then Raise OutOfBounds
                      else '(strides, _) ← rowMajor dims; Ok (strides, 0));
  fold_coords 0 flat idxs dims strides.

(** The record that holds the payload, as its index, and the payload base. *)
Definition ElementPayloadRecord (h : heap) (i : Z) (slot : list Z) (kind : Z) : outcome (Z * Z) :=
  if decide (kind ≠ RTK_ArrayView) then base ← ArrayPayloadBase slot; Ok (i, base)
  else
    rank ← deref (slot !! 2%nat);
    target ← deref (slot !! Z.to_nat (ArrayViewTargetCell (u8 rank)));
    if decide (target ≤ 0 ∨ kind_at h target ≠ Some RTK_Array)
    then Raise (RuntimeError "NLang VM: corrupt view record (target out of range)")
    else
      owner ← deref (rec_at h target);
      base ← ArrayPayloadBase owner;
      Ok (target, base).

(** The div/mod walk from the last dimension. *)
Fixpoint decode_flat (addr rem : Z) (dims strides : list Z) : outcome (Z * Z) :=
  match dims, strides with
  | d :: dims, s :: strides =>
      '(addr, rem) ← decode_flat addr rem dims strides;
      if decide (d = 0) then Raise (Undefined "division by zero")
      else Ok (i64 (addr + i32 (Z.rem rem d) * s), Z.quot rem d)
  | [], [] => Ok (addr, rem)
  | _, _ => Raise OutOfBounds
  end.
Definition ViewFlatElementAddress (view : list Z) (flat : Z) : outcome Z :=
  rank ← deref (view !! 2%nat);
  dims ← cells_at view 4 (Z.to_nat rank);
  strides ← cells_at view (Z.to_nat (ArrayViewStridesBase (u8 rank))) (Z.to_nat rank);
  off ← deref (view !! Z.to_nat (ArrayViewOffsetCell (u8 rank)));
  '(addr, _) ← decode_flat off flat dims strides;
  Ok addr.

Definition RejectZeroStrideStore (slot : list Z) (rank : nat) : outcome () :=
  dims ← cells_at slot 4 rank;
  strides ← cells_at slot (Z.to_nat (ArrayViewStridesBase (u8 (Z.of_nat rank)))) rank;
  if existsb (λ '(d, s), bool_decide (1 < d) && bool_decide (s = 0)) (zip dims strides)
  then Raise (NlangExc ExcBase "cannot store through a broadcast (zero-stride) view; reshape it to materialize a writable copy")
  else Ok ().

(** ** Element opcodes *)
(** The reader, the heap and the locals of the running frame. *)
Definition aframe : Type := reader * heap * bytes.

Fixpoint read_idxs (locals : bytes) (idxBase : Z) (n : nat) : outcome (list Z) :=
  match n with
  | O => Ok []
  | S n =>
      i ← ld32 locals idxBase;
      is_ ← read_idxs locals (idxBase + Z.of_nat kFrameSlotBytes) n;
      Ok (i :: is_)
  end.

(** The null and kind gates; [op] names the opcode. *)
Definition array_slot (op : string) (h : heap) (heapIdx : Z) : outcome (Z * list Z) :=
  if decide (heapIdx ≤ 0) then null_array
  else match rec_at h heapIdx with
  | None => null_array
  | Some slot =>
      kind ← deref (kind_at h heapIdx);
      if decide (kind ≠ RTK_Array ∧ kind ≠ RTK_ArrayView)
      then Raise (RuntimeError ("NLang VM: " ++ op ++ " expects an array slot"))
      else Ok (kind, slot)
  end.
Definition elem_cells (op : string) (md : tables) (slot : list Z) : outcome Z :=
  t ← deref (slot !! 1%nat);
  match arrayTypes md !!z u16 t with
  | None => Raise (RuntimeError ("NLang VM: " ++ op ++ " on invalid array type"))
  | Some at_ => Ok (ArrayElemCells (elemKind at_))
  end.

(** [memcpy] of [n] cells between a payload and a frame slot. *)
Fixpoint store_cells (locals : bytes) (off : Z) (vs : list Z) : outcome bytes :=
  match vs with
  | [] => Ok locals
  | v :: vs => locals ← st32 locals off v; store_cells locals (off + 4) vs
  end.
Fixpoint load_cells (locals : bytes) (off : Z) (n : nat) : outcome (list Z) :=
  match n with
  | O => Ok []
  | S n => v ← ld32 locals off; vs ← load_cells locals (off + 4) n; Ok (v :: vs)
  end.
(** The cell of element [flat] of a payload; negative cells are outside the record. *)
Definition payload_cell (base flat cells : Z) : outcome nat :=
  let c := base + flat * cells in if decide (c < 0) then Raise OutOfBounds else Ok (Z.to_nat c).
Definition copy_out (h : heap) (owner base flat cells dst : Z) (locals : bytes) : outcome bytes :=
  payload ← deref (rec_at h owner);
  c ← payload_cell base flat cells;
  vs ← cells_at payload c (Z.to_nat cells);
  store_cells locals dst vs.
Definition copy_in (h : heap) (owner base flat cells src : Z) (locals : bytes) : outcome heap :=
  vs ← load_cells locals src (Z.to_nat cells);
  c ← payload_cell base flat cells;
  write_cells h owner c vs.

Definition OpLoadElementN (md : tables) (r : reader) (h : heap) (locals : bytes) : outcome aframe :=
  let op := "OP_LoadElementN"%string in
  '(dst, r) ← ReadUint16 r;
  '(arr, r) ← ReadUint16 r;
  '(idxBase, r) ← ReadUint16 r;
  '(rank, r) ← ReadUint16 r;
  heapIdx ← ld32 locals arr;
  '(kind, slot) ← array_slot op h heapIdx;
  recRank ← deref (slot !! 2%nat);
  if decide (u16 recRank ≠ rank) then Raise (RuntimeError "NLang VM: OP_LoadElementN rank mismatch")
  else
    idxs ← read_idxs locals idxBase (Z.to_nat rank);
    flat ← ElementFlatAddress slot kind (Z.to_nat rank) idxs;
    '(owner, base) ← ElementPayloadRecord h heapIdx slot kind;
    cells ← elem_cells op md slot;
    locals ← copy_out h owner base flat cells dst locals;
    Ok (r, h, locals).

Definition OpStoreElementN (md : tables) (r : reader) (h : heap) (locals : bytes) : outcome aframe :=
  let op := "OP_StoreElementN"%string in
  '(arr, r) ← ReadUint16 r;
  '(idxBase, r) ← ReadUint16 r;
  '(src, r) ← ReadUint16 r;
  '(rank, r) ← ReadUint16 r;
  heapIdx ← ld32 locals arr;
  '(kind, slot) ← array_slot op h heapIdx;
  recRank ← deref (slot !! 2%nat);
  if decide (u16 recRank ≠ rank) then Raise (RuntimeError "NLang VM: OP_StoreElementN rank mismatch")
  else
    _ ← (if decide (kind = RTK_ArrayView) then RejectZeroStrideStore slot (Z.to_nat rank) else Ok ());
    idxs ← read_idxs locals idxBase (Z.to_nat rank);
    flat ← ElementFlatAddress slot kind (Z.to_nat rank) idxs;
    '(owner, base) ← ElementPayloadRecord h heapIdx slot kind;
    cells ← elem_cells op md slot;
    h ← copy_in h owner base flat cells src locals;
    Ok (r, h, locals).

Definition OpArrayLength (r : reader) (h : heap) (locals : bytes) : outcome aframe :=
  '(dst, r) ← ReadUint16 r;
  '(arr, r) ← ReadUint16 r;
  heapIdx ← ld32 locals arr;
  '(_, slot) ← array_slot "OP_ArrayLength" h heapIdx;
  len ← deref (slot !! 3%nat);
  locals ← st32 locals dst len;
  Ok (r, h, locals).

Definition OpLoadElementFlat (md : tables) (r : reader) (h : heap) (locals : bytes) : outcome aframe :=
  let op := "OP_LoadElementFlat"%string in
  '(dst, r) ← ReadUint16 r;
  '(arr, r) ← ReadUint16 r;
  '(flatSlot, r) ← ReadUint16 r;
  heapIdx ← ld32 locals arr;
  flat ← ld32 locals flatSlot;
  '(kind, slot) ← array_slot op h heapIdx;
  elemCount ← deref (slot !! 3%nat);
  if decide (flat < 0 ∨ elemCount ≤ flat) then oob "NLang VM: array index out of bounds"
  else
    cells ← elem_cells op md slot;
    addr ← (if decide (kind = RTK_ArrayView) then ViewFlatElementAddress slot flat else Ok flat);
    '(owner, base) ← ElementPayloadRecord h heapIdx slot kind;
    locals ← copy_out h owner base addr cells dst locals;
    Ok (r, h, locals).

Definition OpAllocArrayN (fuel : nat) (md : tables) (shard : nat) (r : reader) (h : heap) (locals : bytes)
    : outcome aframe :=
  '(dst, r) ← ReadUint16 r;
  '(arrayTypeIdx, r) ← ReadUint16 r;
  '(rank, r) ← ReadUint16 r;
  '(dimsBase, r) ← ReadUint16 r;
  if decide (rank < 1 ∨ kMaxArrayRank < rank)
  then Raise (RuntimeError "NLang VM: OP_AllocArrayN rank out of range")
  else
    dims ← read_idxs locals dimsBase (Z.to_nat rank);
    '(heapIdx, h) ← AllocArrayOnHeap fuel md h shard arrayTypeIdx dims;
    locals ← st32 locals dst heapIdx;
    Ok (r, HNoteGcPressure h, locals).

(** The coordinate count is checked against the record, as a user error. *)
Definition coords_error {A} (recRank nCoords : Z) : outcome A :=
  oob ("array subscript expects " ++ pretty recRank ++ " indices, got " ++ pretty nCoords
       ++ " (rank " ++ pretty recRank ++ ")").
Definition OpLoadElementDyn (md : tables) (r : reader) (h : heap) (locals : bytes) : outcome aframe :=
  let op := "OP_LoadElementDyn"%string in
  '(dst, r) ← ReadUint16 r;
  '(arr, r) ← ReadUint16 r;
  '(idxBase, r) ← ReadUint16 r;
  '(nCoords, r) ← ReadUint16 r;
  heapIdx ← ld32 locals arr;
  '(kind, slot) ← array_slot op h heapIdx;
  recRank ← deref (slot !! 2%nat);
  if decide (u16 recRank ≠ nCoords) then coords_error recRank nCoords
  else
    cells ← elem_cells op md slot;
    idxs ← read_idxs locals idxBase (Z.to_nat nCoords);
    flat ← ElementFlatAddress slot kind (Z.to_nat nCoords) idxs;
    '(owner, base) ← ElementPayloadRecord h heapIdx slot kind;
    locals ← copy_out h owner base flat cells dst locals;
    Ok (r, h, locals).
Definition OpStoreElementDyn (md : tables) (r : reader) (h : heap) (locals : bytes) : outcome aframe :=
  let op := "OP_StoreElementDyn"%string in
  '(arr, r) ← ReadUint16 r;
  '(idxBase, r) ← ReadUint16 r;
  '(src, r) ← ReadUint16 r;
  '(nCoords, r) ← ReadUint16 r;
  heapIdx ← ld32 locals arr;
  '(kind, slot) ← array_slot op h heapIdx;
  recRank ← deref (slot !! 2%nat);
  if decide (u16 recRank ≠ nCoords) then coords_error recRank nCoords
  else
    _ ← (if decide (kind = RTK_ArrayView) then RejectZeroStrideStore slot (Z.to_nat nCoords) else Ok ());
    cells ← elem_cells op md slot;
    idxs ← read_idxs locals idxBase (Z.to_nat nCoords);
    flat ← ElementFlatAddress slot kind (Z.to_nat nCoords) idxs;
    '(owner, base) ← ElementPayloadRecord h heapIdx slot kind;
    h ← copy_in h owner base flat cells src locals;
    Ok (r, h, locals).

(** The table row of an array shape. *)
Definition FindArrayTypeDef (md : tables) (elemRtk elemTyIdx rank : Z) : outcome Z :=
  match list_find (λ at_, elemKind at_ = elemRtk ∧ elemTypeIdx at_ = elemTyIdx ∧ at_rank at_ = rank)
          (arrayTypes md) with
  | Some (i, _) => Ok (u16 (Z.of_nat i))
  | None => Raise (RuntimeError ("NLang VM: no array type registered for elem kind " ++ pretty elemRtk
      ++ " type idx " ++ pretty elemTyIdx ++ " rank " ++ pretty rank))
  end.
Definition FindScalarArrayTypeIdx (md : tables) (elemRtk rank : Z) : outcome Z :=
  FindArrayTypeDef md elemRtk 65535 rank.

Definition OpArrayShape (fuel : nat) (md : tables) (shard : nat) (r : reader) (h : heap) (locals : bytes)
    : outcome aframe :=
  '(dst, r) ← ReadUint16 r;
  '(arr, r) ← ReadUint16 r;
  heapIdx ← ld32 locals arr;
  '(_, slot) ← array_slot "OP_ArrayShape" h heapIdx;
  rank ← deref (slot !! 2%nat);
  if decide (rank < 1 ∨ kMaxArrayRank < rank)
  then Raise (RuntimeError "NLang VM: OP_ArrayShape on corrupt record rank")
  else
    dimsSnapshot ← cells_at slot 4 (Z.to_nat rank);
    shapeTypeIdx ← FindScalarArrayTypeIdx md RTK_Int32 1;
    '(shapeIdx, h) ← AllocArrayOnHeap fuel md h shard shapeTypeIdx [rank];
    let h := HNoteGcPressure h in
    shape ← deref (rec_at h shapeIdx);
    base ← ArrayPayloadBase shape;
    h ← write_cells h shapeIdx (Z.to_nat base) dimsSnapshot;
    locals ← st32 locals dst shapeIdx;
    Ok (r, h, locals).

Definition OpAllocArrayDyn (fuel : nat) (md : tables) (shard : nat) (r : reader) (h : heap) (locals : bytes)
    : outcome aframe :=
  '(dst, r) ← ReadUint16 r;
  '(arrayTypeIdx, r) ← ReadUint16 r;
  '(dimsSlot, r) ← ReadUint16 r;
  dimsIdx ← ld32 locals dimsSlot;
  if decide (dimsIdx ≤ 0) then null_array
  else match rec_at h dimsIdx with
  | None => null_array
  | Some dimsRec =>
      kind ← deref (kind_at h dimsIdx);
      if decide (kind ≠ RTK_Array)
      then Raise (RuntimeError "NLang VM: OP_AllocArrayDyn expects an array slot")
      else
        recRank ← deref (dimsRec !! 2%nat);
        if decide (recRank ≠ 1) then oob "Array(dims): the dims argument must be a one-dimensional array"
        else
          rank ← deref (dimsRec !! 3%nat);
          if decide (rank < 1 ∨ kMaxArrayRank < rank)
          then oob ("Array(dims): rank " ++ pretty rank ++ " out of range")
          else
            dims ← cells_at dimsRec (Z.to_nat (ArrayHeaderCells 1)) (Z.to_nat rank);
            '(heapIdx, h) ← AllocArrayOnHeap fuel md h shard arrayTypeIdx dims;
            locals ← st32 locals dst heapIdx;
            Ok (r, HNoteGcPressure h, locals)
  end.

(** A fresh owned array with the elements of a view. *)
Definition MaterializeViewRecord (fuel : nat) (md : tables) (h : heap) (shard : nat) (viewHeapIdx : Z)
    : outcome (Z * heap) :=
  if decide (viewHeapIdx ≤ 0 ∨ kind_at h viewHeapIdx ≠ Some RTK_ArrayView)
  then Raise (RuntimeError "NLang VM: invalid view record in MaterializeView")
  else
    view ← deref (rec_at h viewHeapIdx);
    rank ← deref (view !! 2%nat);
    let rank := u8 rank in
    t ← deref (view !! 1%nat);
    let arrayTypeIdx := u16 t in
    if decide (kMaxArrayRank < rank) then Raise OutOfBounds
    else
      dims ← cells_at view 4 (Z.to_nat rank);
      elemCount ← deref (view !! 3%nat);
      '(heapIdx, h) ← AllocArrayOnHeap fuel md h shard arrayTypeIdx dims;
      if decide (elemCount = 0) then Ok (heapIdx, h)
      else
        at_ ← deref (arrayTypes md !!z arrayTypeIdx);
        let cells := ArrayElemCells (elemKind at_) in
        '(owner, ownerBase) ← ElementPayloadRecord h viewHeapIdx view RTK_ArrayView;
        let dstBase := ArrayHeaderCells rank in
        h ← foldM (λ h flat,
              let flat := Z.of_nat flat in
              addr ← ViewFlatElementAddress view flat;
              payload ← deref (rec_at h owner);
              c ← payload_cell ownerBase addr cells;
              vs ← cells_at payload c (Z.to_nat cells);
              write_cells h heapIdx (Z.to_nat (dstBase + flat * cells)) vs) h (seq 0 (Z.to_nat elemCount));
        Ok (heapIdx, h).

(** ** Dimensions *)
Definition product (dims : list Z) : Z := foldr Z.mul 1 dims.
Definition in_cap (d : Z) : Prop := 0 ≤ d ≤ kMaxArrayElems.

Lemma product_pos dims : Forall (λ d, 1 ≤ d) dims → 1 ≤ product dims.
Proof. induction 1 as [|d l Hd _ IH]; unfold product in *; simpl; [lia|nia]. Qed.

Lemma mul3_gt a b c m : 1 ≤ a → 1 ≤ c → 0 ≤ m → m < b → m < a * (b * c).
Proof. intros Ha Hc Hm Hb. assert (m < b * c) by nia. nia. Qed.

Lemma ValidateArrayDims_aux dims : ∀ acc,
  0 ≤ acc ≤ kMaxArrayElems →
  let res := foldM (λ elemCount d,
    if decide (d < 0 ∨ kMaxArrayElems < d) then length_error
    else let elemCount := i64 (elemCount * d) in
         if decide (kMaxArrayElems < elemCount) then length_error else Ok elemCount) acc dims in
  (∃ size, res = Ok size ∧ size = acc * product dims ∧ 0 ≤ size ≤ kMaxArrayElems ∧ Forall in_cap dims)
  ∨ (res = length_error ∧ (1 ≤ acc → Forall (λ d, 1 ≤ d) dims → kMaxArrayElems < acc * product dims)).
Proof.
  induction dims as [|d dims IH]; intros acc Hacc; cbn zeta.
  - left. exists acc. unfold product. simpl. split_and!; [done|lia|lia|lia|constructor].
  - cbn [foldM]. assert (product (d :: dims) = d * product dims) as -> by done.
    case_decide as Hd.
    + right. split; [done|]. intros H1 [Hd1 Hr]%Forall_cons_1. apply mul3_gt; [done|by apply product_pos|lia..].
    + assert (0 ≤ acc * d < 2 ^ 62) as Hb by (unfold kMaxArrayElems in *; nia).
      assert (i64 (acc * d) = acc * d) as -> by (apply (swrap_small 64); [lia|]; unfold is_sint; lia).
      case_decide as Ho.
      * right. split; [done|]. intros H1 [Hd1 Hr]%Forall_cons_1. pose proof (product_pos dims Hr).
        rewrite Z.mul_assoc. unfold kMaxArrayElems in *. nia.
      * rewrite bindE. destruct (IH (acc * d)) as [(size & E & Hs & Hc & Hf)|[E Hbig]]; [lia|left|right].
        -- exists size. split_and!; [exact E|lia|lia|lia|]. apply Forall_cons_2; [unfold in_cap; lia|done].
        -- split; [exact E|]. intros H1 [Hd1 Hr]%Forall_cons_1. rewrite Z.mul_assoc. apply Hbig; [nia|done].
Qed.

Lemma ValidateArrayDims_cases dims :
  (∃ size, ValidateArrayDims dims = Ok size ∧ size = product dims ∧ 0 ≤ size ≤ kMaxArrayElems
     ∧ Forall in_cap dims)
  ∨ (ValidateArrayDims dims = length_error ∧ (Forall (λ d, 1 ≤ d) dims → kMaxArrayElems < product dims)).
Proof.
  destruct (ValidateArrayDims_aux dims 1) as [(size & E & Hs & H)|[E H]]; [unfold kMaxArrayElems; lia|left|right].
  - exists size. split_and!; [exact E|lia|apply H..].
  - split; [exact E|]. intros Hf. rewrite <- (Z.mul_1_l (product dims)). apply H; [lia|done].
Qed.

(** the length gate either accepts, with the exact element count, all
    dimensions and the count within the cap, or raises the out-of-bounds error; it
    accepts every list of positive dimensions whose product is within the cap, and
    64-bit accumulation never overflows. *)
Theorem ValidateArrayDims_spec dims :
  (∃ size, ValidateArrayDims dims = Ok size ∧ size = product dims ∧ 0 ≤ size ≤ kMaxArrayElems
     ∧ Forall in_cap dims)
  ∨ (ValidateArrayDims dims = length_error ∧ (Forall (λ d, 1 ≤ d) dims → kMaxArrayElems < product dims)).
Proof. apply ValidateArrayDims_cases. Qed.

(** ** Coverage *)
Fixpoint addr (offset : Z) (idxs strides : list Z) : Z :=
  match idxs, strides with
  | i :: idxs, s :: strides => addr (offset + i * s) idxs strides
  | _, _ => offset
  end.
Definition in_bounds (idxs dims : list Z) : Prop := Forall2 (λ i d, 0 ≤ i < d) idxs dims.

(** Sum of [d - 1]: bounded by the product. *)
Definition spread (dims : list Z) : Z := foldr (λ d a, (d - 1) + a) 0 dims.
Lemma spread_product dims : Forall (λ d, 1 ≤ d) dims → 0 ≤ spread dims < product dims.
Proof.
  induction 1 as [|d l Hd Hl IH]; [done|]. pose proof (product_pos l Hl).
  unfold spread, product in *. simpl. nia.
Qed.

(** The exact extremes. *)
Fixpoint lo (offset : Z) (dims strides : list Z) : Z :=
  match dims, strides with
  | d :: dims, s :: strides => lo (offset + Z.min 0 ((d - 1) * s)) dims strides
  | _, _ => offset
  end.
Fixpoint hi (offset : Z) (dims strides : list Z) : Z :=
  match dims, strides with
  | d :: dims, s :: strides => hi (offset + Z.max 0 ((d - 1) * s)) dims strides
  | _, _ => offset
  end.

Lemma cover_fold dims : ∀ strides a b k,
  length strides = length dims → Forall (λ d, 1 ≤ d ≤ kMaxArrayElems) dims → Forall (is_sint 32) strides →
  0 ≤ k → k + spread dims ≤ kMaxArrayElems →
  - 2 ^ 31 * (1 + k) ≤ a ≤ 2 ^ 31 * (1 + k) → - 2 ^ 31 * (1 + k) ≤ b ≤ 2 ^ 31 * (1 + k) →
  foldl cover_step (a, b) (zip dims strides) = (lo a dims strides, hi b dims strides).
Proof.
  induction dims as [|d dims IH]; intros [|s strides] a b k Hlen Hd Hs Hk Hsp Ha Hb; try done.
  apply Forall_cons_1 in Hd as [Hd1 Hd], Hs as [Hs1 Hs]. simpl in Hlen.
  assert (spread (d :: dims) = (d - 1) + spread dims) as Es by done. rewrite Es in Hsp.
  assert (0 ≤ spread dims) as Hs0.
  { apply spread_product. eapply list.Forall_impl; [exact Hd|]. simpl. lia. }
  unfold is_sint in Hs1. change (2 ^ (32 - 1)) with (2 ^ 31) in Hs1.
  assert (i32 (d - 1) = d - 1) as Ei
    by (apply (swrap_small 32); [lia|]; unfold is_sint, kMaxArrayElems in *; lia).
  assert (- 2 ^ 31 * (d - 1) ≤ (d - 1) * s ≤ 2 ^ 31 * (d - 1)) as Hspan by nia.
  assert (∀ x, - 2 ^ 62 ≤ x ≤ 2 ^ 62 → i64 x = x) as E64
    by (intros x Hx; apply (swrap_small 64); [lia|]; unfold is_sint; lia).
  unfold kMaxArrayElems in *.
  cbn [zip foldl cover_step lo hi]. rewrite Ei, E64 by lia.
  case_decide as Hneg.
  - rewrite E64 by lia. rewrite (IH strides _ _ (k + (d - 1))) by (done || lia).
    by rewrite Z.min_r, Z.max_l, Z.add_0_r by lia.
  - rewrite E64 by lia. rewrite (IH strides _ _ (k + (d - 1))) by (done || lia).
    by rewrite Z.min_l, Z.max_r, Z.add_0_r by lia.
Qed.

Lemma addr_bounds dims : ∀ strides idxs o,
  length strides = length dims → in_bounds idxs dims →
  lo o dims strides ≤ addr o idxs strides ≤ hi o dims strides.
Proof.
  assert (∀ dims strides o o', o ≤ o' → lo o dims strides ≤ lo o' dims strides) as Hlo.
  { induction dims0 as [|d l IH]; intros [|s strides] o o' Ho; simpl; try done. apply IH. lia. }
  assert (∀ dims strides o o', o ≤ o' → hi o dims strides ≤ hi o' dims strides) as Hhi.
  { induction dims0 as [|d l IH]; intros [|s strides] o o' Ho; simpl; try done. apply IH. lia. }
  induction dims as [|d dims IH]; intros [|s strides] idxs o Hlen Hb; try done.
  - inversion Hb; subst. done.
  - inversion Hb as [|i d' idxs' dims' Hi Hb']; subst. simpl in *.
    assert (Z.min 0 ((d - 1) * s) ≤ i * s ≤ Z.max 0 ((d - 1) * s)) as Hi'.
    { destruct (Z.le_gt_cases 0 s) as [Hs|Hs]; [assert (0 ≤ i * s ≤ (d - 1) * s) by nia; lia|].
      assert ((d - 1) * s ≤ i * s ≤ 0) by nia. lia. }
    destruct (IH strides idxs' (o + i * s)) as [H1 H2]; [lia|done|]. split.
    + etrans; [|exact H1]. apply Hlo. lia.
    + etrans; [exact H2|]. apply Hhi. lia.
Qed.

(** Both extremes are addresses of elements. *)
Lemma addr_lo dims : ∀ strides o,
  length strides = length dims → Forall (λ d, 1 ≤ d) dims →
  ∃ idxs, in_bounds idxs dims ∧ addr o idxs strides = lo o dims strides.
Proof.
  induction dims as [|d dims IH]; intros [|s strides] o Hlen Hd; try done.
  - exists []. split; [constructor|done].
  - apply Forall_cons_1 in Hd as [Hd1 Hd]. simpl in Hlen.
    destruct (IH strides (o + Z.min 0 ((d - 1) * s))) as (idxs & Hb & E); [lia|done|].
    exists ((if decide (s < 0) then d - 1 else 0) :: idxs). simpl. rewrite <- E. split.
    + constructor; [case_decide; lia|done].
    + f_equal. case_decide; nia.
Qed.
Lemma addr_hi dims : ∀ strides o,
  length strides = length dims → Forall (λ d, 1 ≤ d) dims →
  ∃ idxs, in_bounds idxs dims ∧ addr o idxs strides = hi o dims strides.
Proof.
  induction dims as [|d dims IH]; intros [|s strides] o Hlen Hd; try done.
  - exists []. split; [constructor|done].
  - apply Forall_cons_1 in Hd as [Hd1 Hd]. simpl in Hlen.
    destruct (IH strides (o + Z.max 0 ((d - 1) * s))) as (idxs & Hb & E); [lia|done|].
    exists ((if decide (s < 0) then 0 else d - 1) :: idxs). simpl. rewrite <- E. split.
    + constructor; [case_decide; lia|done].
    + f_equal. case_decide; nia.
Qed.

Lemma Coverage_aux dims strides offset count :
  length strides = length dims → Forall (λ d, 1 ≤ d ≤ kMaxArrayElems) dims → product dims ≤ kMaxArrayElems →
  Forall (is_sint 32) strides → is_sint 32 offset →
  ValidateViewCoverage dims strides offset count = Ok ()
  ↔ ∀ idxs, in_bounds idxs dims → 0 ≤ addr offset idxs strides < count.
Proof.
  intros Hlen Hd Hp Hs Ho. unfold ValidateViewCoverage.
  assert (Forall (λ d, 1 ≤ d) dims) as Hd1 by (eapply list.Forall_impl; [exact Hd|]; simpl; lia).
  pose proof (spread_product dims Hd1). unfold is_sint in Ho. change (2 ^ (32 - 1)) with (2 ^ 31) in Ho.
  rewrite (cover_fold dims strides offset offset 0) by (done || lia). split.
  - case_decide as Hc; [done|]. intros _ idxs Hb. pose proof (addr_bounds dims strides idxs offset Hlen Hb). lia.
  - intros Hall. rewrite decide_False; [done|].
    destruct (addr_lo dims strides offset Hlen Hd1) as (i1 & Hb1 & E1).
    destruct (addr_hi dims strides offset Hlen Hd1) as (i2 & Hb2 & E2).
    pose proof (Hall i1 Hb1). pose proof (Hall i2 Hb2). lia.
Qed.

(** the view coverage check is exact: it accepts exactly when every in-bounds
    coordinate of the view maps inside the owner, negative and zero strides
    included, and its 64-bit arithmetic cannot overflow. *)
Theorem ValidateViewCoverage_iff dims strides offset count :
  length strides = length dims → Forall (λ d, 1 ≤ d ≤ kMaxArrayElems) dims → product dims ≤ kMaxArrayElems →
  Forall (is_sint 32) strides → is_sint 32 offset →
  ValidateViewCoverage dims strides offset count = Ok ()
  ↔ ∀ idxs, in_bounds idxs dims → 0 ≤ addr offset idxs strides < count.
Proof. apply Coverage_aux. Qed.
Lemma ValidateViewCoverage_iff_witness :
  ValidateViewCoverage [2; 3] [-3; 1] 3 6 = Ok ()
  ↔ ∀ idxs, in_bounds idxs [2; 3] → 0 ≤ addr 3 idxs [-3; 1] < 6.
Proof.
  apply (ValidateViewCoverage_iff [2; 3] [-3; 1] 3 6 eq_refl).
  - repeat constructor; (lia || (vm_compute; discriminate)).
  - vm_compute. discriminate.
  - repeat constructor; vm_compute; (reflexivity || discriminate).
  - split; vm_compute; (reflexivity || discriminate).
Defined.

(** ** Coordinates *)
Fixpoint flatten (dims idxs : list Z) : Z :=
  match dims, idxs with
  | _ :: dims, i :: idxs => i * product dims + flatten dims idxs
  | _, _ => 0
  end.
Fixpoint row_strides (dims : list Z) : list Z :=
  match dims with [] => [] | _ :: dims => product dims :: row_strides dims end.

Lemma product_cons d dims : product (d :: dims) = d * product dims.
Proof. done. Qed.
Lemma in_bounds_pos idxs dims : in_bounds idxs dims → Forall (λ d, 1 ≤ d) dims.
Proof. induction 1; constructor; [lia|done]. Qed.

Lemma flatten_bound dims idxs : in_bounds idxs dims → 0 ≤ flatten dims idxs < product dims.
Proof.
  induction 1 as [|i d idxs dims Hi Hb IH]; [done|]. rewrite product_cons. simpl. nia.
Qed.
Lemma flatten_inj dims : ∀ idxs idxs',
  in_bounds idxs dims → in_bounds idxs' dims → flatten dims idxs = flatten dims idxs' → idxs = idxs'.
Proof.
  induction dims as [|d dims IH]; intros idxs idxs' H1 H2 E.
  { inversion H1; inversion H2; subst. done. }
  inversion H1 as [|i ? js ? Hi Hb1]; inversion H2 as [|i' ? js' ? Hi' Hb2]; subst. simpl in E.
  pose proof (flatten_bound dims js Hb1). pose proof (flatten_bound dims js' Hb2).
  assert (i = i') as -> by nia. f_equal. apply IH; [done..|lia].
Qed.
Lemma flatten_surj dims : ∀ f,
  Forall (λ d, 1 ≤ d) dims → 0 ≤ f < product dims → ∃ idxs, in_bounds idxs dims ∧ flatten dims idxs = f.
Proof.
  induction dims as [|d dims IH]; intros f Hd Hf.
  { exists []. split; [constructor|]. unfold product in Hf. simpl in *. lia. }
  apply Forall_cons_1 in Hd as [Hd1 Hd]. pose proof (product_pos dims Hd). rewrite product_cons in Hf.
  pose proof (Z.mod_pos_bound f (product dims)). pose proof (Z.div_mod f (product dims)).
  destruct (IH (f mod product dims) Hd) as (idxs & Hb & E); [lia|].
  exists (f / product dims :: idxs). simpl. rewrite E. split; [|lia]. constructor; [|done]. nia.
Qed.

Lemma addr_shift idxs : ∀ strides o c, addr (o + c) idxs strides = addr o idxs strides + c.
Proof.
  induction idxs as [|i idxs IH]; intros [|s strides] o c; simpl; try done.
  rewrite <- IH. f_equal. lia.
Qed.
Lemma addr_row_major dims : ∀ idxs,
  length idxs = length dims → addr 0 idxs (row_strides dims) = flatten dims idxs.
Proof.
  induction dims as [|d dims IH]; intros [|i idxs] Hl; try done. simpl in *.
  rewrite addr_shift, IH by lia. lia.
Qed.

Lemma length_row_strides dims : length (row_strides dims) = length dims.
Proof. induction dims; simpl; auto. Qed.
Lemma product_tail d dims :
  Forall (λ d, 1 ≤ d) (d :: dims) → product (d :: dims) ≤ kMaxArrayElems → product dims ≤ kMaxArrayElems.
Proof.
  intros [Hd1 Hd]%Forall_cons_1 Hp. pose proof (product_pos dims Hd). rewrite product_cons in Hp. nia.
Qed.
Lemma row_strides_sint dims :
  Forall (λ d, 1 ≤ d) dims → product dims ≤ kMaxArrayElems → Forall (is_sint 32) (row_strides dims).
Proof.
  induction dims as [|d dims IH]; intros Hd Hp; [constructor|]. pose proof (product_tail d dims Hd Hp).
  apply Forall_cons_1 in Hd as [Hd1 Hd]. pose proof (product_pos dims Hd).
  apply Forall_cons_2; [|by apply IH]. unfold is_sint, kMaxArrayElems in *. lia.
Qed.
Lemma rowMajor_spec dims :
  Forall (λ d, 1 ≤ d) dims → product dims ≤ kMaxArrayElems →
  rowMajor dims = Ok (row_strides dims, product dims).
Proof.
  induction dims as [|d dims IH]; intros Hd Hp; [done|]. pose proof (product_tail d dims Hd Hp) as Ht.
  pose proof (product_pos _ Hd). apply Forall_cons_1 in Hd as [Hd1 Hd]. cbn [rowMajor].
  rewrite IH, bindE by done. cbn zeta beta iota. rewrite Z.mul_comm, <- product_cons.
  rewrite decide_True; [done|]. unfold is_sint, kMaxArrayElems in *. lia.
Qed.
Lemma product_all dims :
  Forall (λ d, 1 ≤ d) dims → Forall (λ d, 1 ≤ d ≤ product dims) dims.
Proof.
  induction 1 as [|d dims Hd Hds IH]; constructor.
  - pose proof (product_pos dims Hds). rewrite product_cons. nia.
  - eapply list.Forall_impl; [exact IH|]. intros x Hx. simpl in Hx.
    rewrite product_cons. assert (product dims ≤ d * product dims) by nia. lia.
Qed.

Lemma fold_coords_ok dims : ∀ strides idxs o j k,
  in_bounds idxs dims → length strides = length dims → Forall (is_sint 32) strides →
  0 ≤ k → k + spread dims ≤ kMaxArrayElems → - 2 ^ 31 * (1 + k) ≤ o ≤ 2 ^ 31 * (1 + k) →
  fold_coords j o idxs dims strides = Ok (addr o idxs strides).
Proof.
  induction dims as [|d dims IH]; intros [|s strides] idxs o j k Hb Hlen Hs Hk Hsp Ho; try done.
  { by inversion Hb. }
  inversion Hb as [|i d' js dims' Hi Hb']; subst. apply Forall_cons_1 in Hs as [Hs1 Hs]. simpl in Hlen.
  assert (spread (d :: dims) = (d - 1) + spread dims) as Es by done. rewrite Es in Hsp.
  pose proof (spread_product dims (in_bounds_pos _ _ Hb')).
  unfold is_sint in Hs1. change (2 ^ (32 - 1)) with (2 ^ 31) in Hs1.
  assert (- 2 ^ 31 * (d - 1) ≤ i * s ≤ 2 ^ 31 * (d - 1)) as Hspan by nia.
  cbn [fold_coords addr]. rewrite decide_False by lia. unfold kMaxArrayElems in *.
  rewrite (swrap_small 64) by (unfold is_sint; lia).
  apply (IH strides js (o + i * s) (S j) (k + (d - 1))); [done|lia|done|lia..].
Qed.
Lemma fold_coords_oob dims : ∀ strides idxs o j,
  length idxs = length dims → length strides = length dims → ¬ in_bounds idxs dims →
  ∃ d, fold_coords j o idxs dims strides = index_error d.
Proof.
  induction dims as [|d dims IH]; intros [|s strides] [|i idxs] o j Hl1 Hl2 Hb; try done.
  { exfalso. apply Hb. constructor. }
  cbn [fold_coords]. case_decide as Hi; [by exists j|]. apply IH; simpl in *; [lia..|].
  intros Hb'. apply Hb. constructor; [lia|done].
Qed.

(** The flat enumeration of a view visits its coordinates. *)
Lemma decode_flat_spec dims : ∀ strides idxs o x k,
  in_bounds idxs dims → length strides = length dims → Forall (is_sint 32) strides → 0 ≤ x →
  0 ≤ k → k + spread dims ≤ kMaxArrayElems → - 2 ^ 31 * (1 + k) ≤ o ≤ 2 ^ 31 * (1 + k) →
  decode_flat o (x * product dims + flatten dims idxs) dims strides = Ok (addr o idxs strides, x)
  ∧ - 2 ^ 31 * (1 + k + spread dims) ≤ addr o idxs strides ≤ 2 ^ 31 * (1 + k + spread dims).
Proof.
  induction dims as [|d dims IH]; intros [|s strides] idxs o x k Hb Hlen Hs Hx Hk Hsp Ho; try done.
  { inversion Hb; subst. simpl. unfold product. simpl. split; [do 2 f_equal; lia|lia]. }
  inversion Hb as [|i d' js dims' Hi Hb']; subst. apply Forall_cons_1 in Hs as [Hs1 Hs]. simpl in Hlen.
  assert (spread (d :: dims) = (d - 1) + spread dims) as Es by done. rewrite Es in *.
  pose proof (spread_product dims (in_bounds_pos _ _ Hb')).
  unfold is_sint in Hs1. change (2 ^ (32 - 1)) with (2 ^ 31) in Hs1.
  assert (- 2 ^ 31 * (d - 1) ≤ i * s ≤ 2 ^ 31 * (d - 1)) as Hspan by nia.
  rewrite product_cons. cbn [decode_flat flatten addr].
  replace (x * (d * product dims) + (i * product dims + flatten dims js))
    with ((x * d + i) * product dims + flatten dims js) by lia.
  destruct (IH strides js o (x * d + i) k) as [-> Ha]; [done|lia|done|nia|lia..|].
  rewrite bindE. cbn beta iota. rewrite decide_False by lia. rewrite addr_shift.
  assert (Z.rem (x * d + i) d = i) as -> by (rewrite Z.rem_mod_nonneg, Z.add_comm, Z.mod_add, Z.mod_small; nia).
  assert (Z.quot (x * d + i) d = x) as ->
    by (rewrite Z.quot_div_nonneg, Z.add_comm, Z.div_add, Z.div_small; nia).
  unfold kMaxArrayElems in *.
  rewrite (swrap_small 32) by (unfold is_sint; lia). rewrite (swrap_small 64) by (unfold is_sint; lia).
  split; [done|lia].
Qed.
