(* ===== verification/ArrayElems.v ===== *)
(** * Array elements: the element opcodes against one description of arrays

    The proofs about element access of [Arrays]: [array_ref] describes an owned
    record or a view record by its dimensions, strides, offset and owner; creation
    establishes it and the element opcodes ([VmExecutorOpsArrayN.cpp]) are
    characterised against it, the same for both kinds of record. *)
From S2P Require Import Prelude Bytecode Prims TypeDesc Shards Strings StringOps Layout Heap HeapGC Arrays.
Open Scope Z_scope.

(** ** Cells *)
Lemma slice_inserts_same {A} base (vs r : list A) :
  (base + length vs ≤ length r)%nat → slice base (length vs) (list_inserts base vs r) = Some vs.
Proof.
  intros H. unfold slice. rewrite length_inserts, decide_True by done. f_equal.
  apply list_eq. intros i. destruct (decide (i < length vs)%nat).
  - rewrite lookup_take_lt, lookup_drop, list_lookup_inserts by lia. f_equal. lia.
  - rewrite lookup_take_ge by lia. symmetry. apply lookup_ge_None. lia.
Qed.
Lemma slice_inserts_other {A} base b n (vs r : list A) :
  (b + n ≤ base ∨ base + length vs ≤ b)%nat → slice b n (list_inserts base vs r) = slice b n r.
Proof.
  intros H. unfold slice. rewrite length_inserts. case_decide; [|done]. f_equal.
  apply list_eq. intros i. destruct (decide (i < n)%nat); [|by rewrite !lookup_take_ge by lia].
  rewrite !lookup_take_lt, !lookup_drop by lia.
  destruct H; [apply list_lookup_inserts_lt|apply list_lookup_inserts_ge]; lia.
Qed.
Lemma lookup_slice {A} (l : list A) i x : l !! i = Some x ↔ slice i 1 l = Some [x].
Proof.
  rewrite slice_Some. split.
  - intros H. exists (take i l), (drop (S i) l). pose proof (lookup_lt_Some _ _ _ H).
    split_and!; [symmetry; by apply take_drop_middle|rewrite length_take; lia|done].
  - intros (l1 & l3 & -> & <- & _). by rewrite lookup_app_r, Nat.sub_diag by lia.
Qed.

(** [h'] is [h] with record [i] replaced by [r']. *)
Record rewrote (h : heap) (i : Z) (r' : list Z) (h' : heap) : Prop := {
  rw_ok : heap_ok h';
  rw_rec : rec_at h' i = Some r';
  rw_other : ∀ x, x ≠ i → hsame h h' x;
  rw_kind : kind_at h' i = kind_at h i;
  rw_sidx : sidx_at h' i = sidx_at h i;
  rw_shards : m_heapShards h' = m_heapShards h;
  rw_strs : strs h' = strs h
}.
Lemma rewrote_trans h1 i r1 h2 r2 h3 : rewrote h1 i r1 h2 → rewrote h2 i r2 h3 → rewrote h1 i r2 h3.
Proof.
  intros [O1 R1 X1 K1 S1 F1 T1] [O2 R2 X2 K2 S2 F2 T2]. split; try congruence; try done.
  intros x Hx. eapply hsame_trans; [by apply X1|by apply X2].
Qed.
Lemma write_cells_spec vs : ∀ h i base r,
  heap_ok h → rec_at h i = Some r → (base + length vs ≤ length r)%nat →
  ∃ h', write_cells h i base vs = Ok h' ∧ rewrote h i (list_inserts base vs r) h'.
Proof.
  induction vs as [|v vs IH]; intros h i base r Hok Hr Hl; cbn [write_cells list_inserts].
  - exists h. split; [done|]. by split.
  - simpl in Hl. destruct (set_cell_spec h i r base v Hok Hr) as (h1 & -> & Hok1 & R1 & X1 & K1 & S1 & F1 & T1); [lia|].
    rewrite bindE. destruct (IH h1 i (S base) _ Hok1 R1) as (h2 & -> & W); [rewrite length_insert; lia|].
    exists h2. split; [done|].
    replace (<[base:=v]> (list_inserts (S base) vs r)) with (list_inserts (S base) vs (<[base:=v]> r)).
    + eapply rewrote_trans; [by split|exact W].
    + apply list_eq. intros j. destruct (decide (j = base)) as [->|].
      * rewrite list_lookup_inserts_lt by lia. by rewrite !list_lookup_insert_eq by (rewrite ?length_inserts; lia).
      * rewrite (list_lookup_insert_ne (list_inserts _ _ _)) by done.
        destruct (decide (S base ≤ j < S base + length vs)%nat).
        -- destruct (decide (j < length r)%nat).
           ++ by rewrite !list_lookup_inserts by (rewrite ?length_insert; lia).
           ++ rewrite !lookup_ge_None_2; rewrite ?length_inserts, ?length_insert; lia || done.
        -- destruct (decide (j < S base)%nat).
           ++ rewrite !list_lookup_inserts_lt by lia. by rewrite list_lookup_insert_ne.
           ++ rewrite !list_lookup_inserts_ge by lia. by rewrite list_lookup_insert_ne.
Qed.

(** ** One description of owned arrays and views *)
(** Record [o] owns a payload of [count] elements of [cells] cells from cell [base] on. *)
Definition owner_ok (md : tables) (h : heap) (o base cells count : Z) : Prop :=
  0 < o ∧ 0 ≤ base ∧ 1 ≤ cells ∧ kind_at h o = Some RTK_Array
  ∧ ∃ slot, rec_at h o = Some slot ∧ ArrayPayloadBase slot = Ok base
            ∧ Z.of_nat (length slot) = base + count * cells ∧ slot !! 3%nat = Some count
            ∧ ∃ t row, slot !! 1%nat = Some t ∧ arrayTypes md !!z u16 t = Some row
                       ∧ cells = ArrayElemCells (elemKind row).

Definition header (md : tables) (slot : list Z) (dims : list Z) (cells : Z) : Prop :=
  let rank := length dims in
  slot !! 2%nat = Some (Z.of_nat rank) ∧ slice 4 rank slot = Some dims
  ∧ ∃ t at_, slot !! 1%nat = Some t ∧ arrayTypes md !!z u16 t = Some at_
             ∧ cells = ArrayElemCells (elemKind at_).

(** The affine map of the record: an owned array is the row-major map of itself. *)
Definition mapping (kind i : Z) (slot dims strides : list Z) (off o : Z) : Prop :=
  let rank := length dims in
  (kind = RTK_Array ∧ o = i ∧ off = 0 ∧ strides = row_strides dims)
  ∨ (kind = RTK_ArrayView ∧ slice (4 + rank) rank slot = Some strides
     ∧ slot !! (4 + 2 * rank)%nat = Some off ∧ slot !! (5 + 2 * rank)%nat = Some o).

(** Record [i] is a non-empty array: element [idxs] is element [addr off idxs strides] of [o]. *)
Record array_ref (md : tables) (h : heap) (i : Z) (dims strides : list Z) (off o base cells count : Z) : Prop := {
  ar_pos : 0 < i;
  ar_rank : (1 ≤ length dims)%nat ∧ Z.of_nat (length dims) ≤ kMaxArrayRank;
  ar_dims : Forall (λ d, 1 ≤ d) dims;
  ar_product : product dims ≤ kMaxArrayElems;
  ar_strides : length strides = length dims ∧ Forall (is_sint 32) strides ∧ is_sint 32 off;
  ar_inside : ∀ idxs, in_bounds idxs dims → 0 ≤ addr off idxs strides < count;
  ar_slot : ∃ kind slot, kind_at h i = Some kind ∧ rec_at h i = Some slot
              ∧ header md slot dims cells ∧ mapping kind i slot dims strides off o;
  ar_owner : owner_ok md h o base cells count
}.
(** The cells of element [f] of the owner. *)
Definition elem (h : heap) (o base cells f : Z) : option (list Z) :=
  rec_at h o ≫= slice (Z.to_nat (base + f * cells)) (Z.to_nat cells).

Lemma rank_u8 n : Z.of_nat n ≤ kMaxArrayRank → u8 (Z.of_nat n) = Z.of_nat n.
Proof. intros H. apply (wrap_small 8). unfold kMaxArrayRank, is_uint in *. lia. Qed.

Lemma ElementFlatAddress_aux kind i slot dims strides off o idxs md cells :
  header md slot dims cells → mapping kind i slot dims strides off o →
  Z.of_nat (length dims) ≤ kMaxArrayRank → Forall (λ d, 1 ≤ d) dims → product dims ≤ kMaxArrayElems →
  ElementFlatAddress slot kind (length dims) idxs = fold_coords 0 off idxs dims strides.
Proof.
  intros (_ & Hd & _) Hm Hr H1 Hp. unfold ElementFlatAddress, cells_at. rewrite Hd, derefE, !bindE.
  destruct Hm as [(-> & _ & -> & ->)|(-> & Hs & Ho & _)].
  - rewrite decide_False by done. rewrite decide_False by lia. rewrite rowMajor_spec by done. by rewrite !bindE.
  - rewrite decide_True, rank_u8 by done. unfold ArrayViewStridesBase, ArrayViewOffsetCell.
    replace (Z.to_nat (4 + Z.of_nat (length dims))) with (4 + length dims)%nat by lia.
    replace (Z.to_nat (4 + 2 * Z.of_nat (length dims))) with (4 + 2 * length dims)%nat by lia.
    by rewrite Hs, Ho, !derefE, !bindE.
Qed.

Lemma array_ref_address md h i dims strides off o base cells count :
  array_ref md h i dims strides off o base cells count →
  ∃ kind slot, array_ref md h i dims strides off o base cells count ∧
    kind_at h i = Some kind ∧ rec_at h i = Some slot ∧ (kind = RTK_Array ∨ kind = RTK_ArrayView)
    ∧ slot !! 2%nat = Some (Z.of_nat (length dims))
    ∧ ElementPayloadRecord h i slot kind = Ok (o, base)
    ∧ (∀ op, elem_cells op md slot = Ok cells)
    ∧ (∀ idxs, in_bounds idxs dims →
         ElementFlatAddress slot kind (length dims) idxs = Ok (addr off idxs strides))
    ∧ (∀ idxs, length idxs = length dims → ¬ in_bounds idxs dims →
         ∃ d, ElementFlatAddress slot kind (length dims) idxs = index_error d)
    ∧ (kind = RTK_ArrayView → RejectZeroStrideStore slot (length dims)
         = if existsb (λ '(d, s), bool_decide (1 < d) && bool_decide (s = 0)) (zip dims strides)
           then Raise (NlangExc ExcBase "cannot store through a broadcast (zero-stride) view; reshape it to materialize a writable copy")
           else Ok ()).
Proof.
  intros R. pose proof R as [Hpos [Hr1 Hr] Hd Hp (Hl & Hs & Ho) Hin (kind & slot & Hk & Hrec & Hh & Hm) Hown].
  exists kind, slot. pose proof Hh as (Hrank & Hdims & t & at_ & Ht & Hat & ->).
  pose proof (spread_product dims Hd). unfold is_sint in Ho. change (2 ^ (32 - 1)) with (2 ^ 31) in Ho.
  split_and!; try done.
  - destruct Hm as [(-> & _)|(-> & _)]; auto.
  - destruct Hown as (Ho1 & Hb & _ & Hko & oslot & Hor & Hbase & _). unfold ElementPayloadRecord.
    destruct Hm as [(-> & -> & _)|(-> & _ & _ & Htgt)].
    + rewrite decide_True by done. assert (oslot = slot) as -> by congruence. by rewrite Hbase, bindE.
    + rewrite decide_False by (intros Hn; by apply Hn). rewrite Hrank, derefE, bindE, rank_u8 by done.
      unfold ArrayViewTargetCell.
      replace (Z.to_nat (5 + 2 * Z.of_nat (length dims))) with (5 + 2 * length dims)%nat by lia.
      rewrite Htgt, derefE, bindE, decide_False by (intros [?|Hn]; [lia|by apply Hn]).
      by rewrite Hor, derefE, bindE, Hbase, bindE.
  - intros op. unfold elem_cells. rewrite Ht, derefE, bindE, Hat. done.
  - intros idxs Hb. erewrite ElementFlatAddress_aux by done. apply (fold_coords_ok dims strides idxs off 0 0); try done; lia.
  - intros idxs Hli Hb. erewrite ElementFlatAddress_aux by done. by apply fold_coords_oob.
  - intros ->. destruct Hm as [(? & _)|(_ & Hst & _)]; [done|]. unfold RejectZeroStrideStore, cells_at.
    rewrite Hdims, derefE, bindE, rank_u8 by done. unfold ArrayViewStridesBase.
    replace (Z.to_nat (4 + Z.of_nat (length dims))) with (4 + length dims)%nat by lia.
    by rewrite Hst, derefE, bindE.
Qed.

Lemma owner_elem md h o base cells count f :
  owner_ok md h o base cells count → 0 ≤ f < count →
  ∃ vs, elem h o base cells f = Some vs ∧ Z.of_nat (length vs) = cells.
Proof.
  intros (_ & Hb & Hc & _ & slot & Hr & _ & Hl & _) Hf. unfold elem. rewrite Hr. simpl. unfold slice.
  rewrite decide_True by nia. eexists. split; [done|]. rewrite length_take, length_drop. nia.
Qed.
Lemma owner_cell base cells f :
  0 ≤ base → 1 ≤ cells → 0 ≤ f → payload_cell base f cells = Ok (Z.to_nat (base + f * cells)).
Proof. intros Hb Hc Hf. unfold payload_cell. cbn zeta. by rewrite decide_False by nia. Qed.
Lemma copy_out_elem md h o base cells count f dst locals :
  owner_ok md h o base cells count → 0 ≤ f < count →
  ∃ vs, elem h o base cells f = Some vs ∧ copy_out h o base f cells dst locals = store_cells locals dst vs.
Proof.
  intros Ho Hf. destruct (owner_elem md h o base cells count f Ho Hf) as (vs & E & _). exists vs. split; [done|].
  destruct Ho as (_ & Hb & Hc & _ & slot & Hr & _). unfold copy_out, elem in *. rewrite Hr in *. simpl in E.
  rewrite derefE, bindE, owner_cell, bindE by lia. unfold cells_at. by rewrite E, derefE, bindE.
Qed.

(** Distinct elements occupy disjoint cells. *)
Lemma elems_apart base cells f g :
  0 ≤ base → 1 ≤ cells → 0 ≤ f → 0 ≤ g → f ≠ g →
  (Z.to_nat (base + g * cells) + Z.to_nat cells ≤ Z.to_nat (base + f * cells)
   ∨ Z.to_nat (base + f * cells) + Z.to_nat cells ≤ Z.to_nat (base + g * cells))%nat.
Proof.
  intros Hb Hc Hf Hg Hn. destruct (Z.lt_ge_cases g f); [left|right].
  - assert ((g + 1) * cells ≤ f * cells) by nia. nia.
  - assert ((f + 1) * cells ≤ g * cells) by nia. nia.
Qed.

(** What a store of [vs] into element [f] of owner [o] does. *)
Record stored (h : heap) (o base cells f : Z) (vs : list Z) (h' : heap) : Prop := {
  sd_ok : heap_ok h';
  sd_here : elem h' o base cells f = Some vs;
  sd_there : ∀ g, 0 ≤ g → g ≠ f → elem h' o base cells g = elem h o base cells g;
  sd_header : ∀ slot, rec_at h o = Some slot →
    ∃ slot', rec_at h' o = Some slot' ∧ length slot' = length slot
             ∧ take (Z.to_nat base) slot' = take (Z.to_nat base) slot;
  sd_other : ∀ x, x ≠ o → hsame h h' x;
  sd_kind : kind_at h' o = kind_at h o
}.
Lemma copy_in_elem md h o base cells count f src locals vs :
  heap_ok h → owner_ok md h o base cells count → 0 ≤ f < count →
  load_cells locals src (Z.to_nat cells) = Ok vs →
  ∃ h', copy_in h o base f cells src locals = Ok h' ∧ stored h o base cells f vs h'.
Proof.
  intros Hok Ho Hf Hl. destruct Ho as (Ho & Hb & Hc & _ & slot & Hr & _ & Hlen & _).
  assert (length vs = Z.to_nat cells) as Hn.
  { revert src vs Hl. generalize (Z.to_nat cells). induction n as [|n IH]; intros src vs; simpl; [by intros [= <-]|].
    destruct (ld32 locals src) as [v|]; [|done]. rewrite bindE.
    destruct (load_cells locals (src + 4) n) as [vs'|] eqn:E; [|done]. rewrite bindE. intros [= <-].
    simpl. f_equal. by eapply IH. }
  unfold copy_in. rewrite Hl, bindE, owner_cell, bindE by lia.
  destruct (write_cells_spec vs h o (Z.to_nat (base + f * cells)) slot Hok Hr) as (h' & -> & [W1 W2 W3 W4 _ _ _]); [nia|].
  exists h'. split; [done|]. split; try done.
  - unfold elem. rewrite W2. simpl. rewrite <- Hn. apply slice_inserts_same. nia.
  - intros g Hg Hne. unfold elem. rewrite W2, Hr. simpl. apply slice_inserts_other. rewrite Hn. apply elems_apart; lia.
  - intros slot0 Hs0. assert (slot0 = slot) as -> by congruence. eexists. split; [done|].
    rewrite length_inserts. split; [done|]. apply list_eq. intros j.
    destruct (decide (j < Z.to_nat base)%nat); [|by rewrite !lookup_take_ge by lia].
    rewrite !lookup_take_lt, list_lookup_inserts_lt by nia. done.
Qed.

(** ** The element opcodes *)
Lemma read_idxs_length locals n : ∀ base idxs, read_idxs locals base n = Ok idxs → length idxs = n.
Proof.
  induction n as [|n IH]; intros base idxs; simpl; [by intros [= <-]|].
  destruct (ld32 locals base) as [v|]; [|done]. rewrite bindE.
  destruct (read_idxs locals (base + Z.of_nat kFrameSlotBytes) n) as [vs'|] eqn:E; [|done]. rewrite bindE.
  intros [= <-]. simpl. f_equal. by eapply IH.
Qed.
Lemma array_slot_ok op h i kind slot :
  0 < i → rec_at h i = Some slot → kind_at h i = Some kind → kind = RTK_Array ∨ kind = RTK_ArrayView →
  array_slot op h i = Ok (kind, slot).
Proof.
  intros Hi Hr Hk H. unfold array_slot. rewrite decide_False by lia. rewrite Hr, Hk, derefE, bindE.
  by rewrite decide_False by (intros [? ?]; destruct H; done).
Qed.
Lemma u16_rank n : Z.of_nat n ≤ kMaxArrayRank → u16 (Z.of_nat n) = Z.of_nat n.
Proof. intros H. apply (wrap_small 16). unfold kMaxArrayRank, is_uint in *. lia. Qed.

(** an element load of an owned array or of a view copies exactly the cells of
    the addressed element of the owner to the destination slot and changes nothing
    else; coordinates outside the dimensions raise the out-of-bounds error instead. *)
Theorem OpLoadElementN_spec md h r r' locals dst arr idxBase i idxs dims strides off o base cells count :
  array_ref md h i dims strides off o base cells count →
  operands r [dst; arr; idxBase; Z.of_nat (length dims)] r' →
  ld32 locals arr = Ok i → read_idxs locals idxBase (length dims) = Ok idxs →
  (in_bounds idxs dims → ∃ vs, elem h o base cells (addr off idxs strides) = Some vs
     ∧ OpLoadElementN md r h locals = (locals' ← store_cells locals dst vs; Ok (r', h, locals')))
  ∧ (¬ in_bounds idxs dims → ∃ d, OpLoadElementN md r h locals = index_error d).
Proof.
  intros R (r1 & E1 & r2 & E2 & r3 & E3 & r4 & E4 & ->) Hi Hx.
  apply array_ref_address in R as (kind & slot & R & Hk & Hr & Hkk & Hrank & Hpay & Hcells & Hin & Hout & _).
  unfold OpLoadElementN. cbn zeta. rewrite E1, bindE, E2, bindE, E3, bindE, E4, bindE, Hi, bindE.
  rewrite (array_slot_ok _ h i kind slot), bindE by (done || apply R). cbn beta iota.
  rewrite Hrank, derefE, bindE, u16_rank, decide_False by (apply R || (intros Hn; by apply Hn)).
  rewrite Nat2Z.id, Hx, bindE. split.
  - intros Hb. rewrite (Hin idxs Hb), bindE, Hpay, bindE. cbn beta iota. rewrite Hcells, bindE.
    destruct (copy_out_elem md h o base cells count (addr off idxs strides) dst locals) as (vs & E & ->);
      [apply R|by apply R|]. by exists vs.
  - intros Hb. destruct (Hout idxs) as [d Hd]; [by eapply read_idxs_length|done|]. exists d. by rewrite Hd.
Qed.

Lemma ArrayPayloadBase_inv slot base :
  ArrayPayloadBase slot = Ok base →
  ∃ rank, slot !! 2%nat = Some rank ∧ 1 ≤ rank ≤ kMaxArrayRank ∧ base = ArrayHeaderCells rank
          ∧ 4 + rank ≤ base ≤ Z.of_nat (length slot).
Proof.
  unfold ArrayPayloadBase. case_decide as H1; [done|]. destruct (slot !! 2%nat) as [rank|]; [|done].
  rewrite derefE, bindE. case_decide as H2; [done|]. case_decide as H3; [done|]. intros [= <-].
  exists rank. split_and!; try done; try lia. unfold ArrayHeaderCells. cbn zeta.
  pose proof (Z.land_nonneg (4 + rank) 1). lia.
Qed.
Lemma ArrayPayloadBase_prefix slot slot' base :
  ArrayPayloadBase slot = Ok base → length slot' = length slot →
  take (Z.to_nat base) slot' = take (Z.to_nat base) slot → ArrayPayloadBase slot' = Ok base.
Proof.
  intros H Hl Ht. pose proof H as (rank & Hr & Hrank & _ & Hb)%ArrayPayloadBase_inv.
  enough (slot' !! 2%nat = slot !! 2%nat) as E.
  { unfold ArrayPayloadBase in *. by rewrite Hl, E. }
  rewrite <- (lookup_take_lt slot (Z.to_nat base) 2), <- Ht, lookup_take_lt by lia. done.
Qed.
Lemma slice_prefix {A} (l l' : list A) m b n :
  length l' = length l → take m l' = take m l → (b + n ≤ m)%nat → slice b n l' = slice b n l.
Proof.
  intros Hl Ht Hm. unfold slice. rewrite Hl. case_decide; [|done]. f_equal. apply list_eq. intros j.
  destruct (decide (j < n)%nat); [|by rewrite !lookup_take_ge by lia].
  rewrite !lookup_take_lt, !lookup_drop by lia.
  rewrite <- (lookup_take_lt l m), <- Ht, lookup_take_lt by lia. done.
Qed.
Lemma lookup_prefix {A} (l l' : list A) m i :
  take m l' = take m l → (i < m)%nat → l' !! i = l !! i.
Proof. intros Ht Hi. by rewrite <- (lookup_take_lt l m), <- Ht, lookup_take_lt by lia. Qed.

(** A store leaves every array what it was. *)
Lemma stored_ref md h h' o base cells count f vs i dims strides off o2 base2 cells2 count2 :
  owner_ok md h o base cells count → stored h o base cells f vs h' →
  array_ref md h i dims strides off o2 base2 cells2 count2 →
  array_ref md h' i dims strides off o2 base2 cells2 count2.
Proof.
  intros Ho S R. pose proof Ho as (Hpo & _ & _ & Hko & oslot & Hor & Hob & _).
  destruct (sd_header _ _ _ _ _ _ _ S oslot Hor) as (oslot' & Hor' & Hlen' & Htake).
  pose proof Hob as (rank & Hrank & Hr & _ & Hbase)%ArrayPayloadBase_inv.
  destruct R as [P1 P2 P3 P4 P5 P6 (kind & slot & Hk & Hrec & Hh & Hm) P8]. split; try done.
  - exists kind. destruct (decide (i = o)) as [->|Hne].
    + assert (slot = oslot) as -> by congruence. exists oslot'.
      assert (kind = RTK_Array) as -> by congruence. destruct Hh as (H1 & H2 & t & at_ & H3 & H4 & H5).
      assert (rank = Z.of_nat (length dims)) as -> by congruence.
      destruct Hm as [Hm|(? & _)]; [|done]. split_and!; [by rewrite (sd_kind _ _ _ _ _ _ _ S)|done| |by left].
      split_and!; [|rewrite <- H2; apply (slice_prefix _ _ (Z.to_nat base)); [done..|lia]|exists t, at_; split_and!; try done].
      * rewrite <- H1. apply (lookup_prefix _ _ (Z.to_nat base)); [done|lia].
      * rewrite <- H3. apply (lookup_prefix _ _ (Z.to_nat base)); [done|lia].
    + destruct (sd_other _ _ _ _ _ _ _ S i Hne) as (E1 & E2 & _). exists slot. by rewrite E1, E2.
  - destruct P8 as (Q1 & Q2 & Q3 & Q4 & s2 & Q5 & Q6 & Q7 & Q8 & t2 & row2 & Q9 & Q10). unfold owner_ok. destruct (decide (o2 = o)) as [->|Hne].
    + assert (s2 = oslot) as -> by congruence. assert (base2 = base) as -> by congruence.
      rewrite (sd_kind _ _ _ _ _ _ _ S). split_and!; try done. exists oslot'.
      rewrite Hlen', !(lookup_prefix oslot oslot' (Z.to_nat base)) by (done || lia).
      split_and!; [done|by eapply ArrayPayloadBase_prefix|done..|by exists t2, row2].
    + destruct (sd_other _ _ _ _ _ _ _ S o2 Hne) as (E1 & E2 & _). rewrite E2. split_and!; try done.
      exists s2. rewrite E1. split_and!; try done. by exists t2, row2.
Qed.

Definition broadcast (dims strides : list Z) : bool :=
  existsb (λ '(d, s), bool_decide (1 < d) && bool_decide (s = 0)) (zip dims strides).
Lemma row_strides_not_broadcast dims : Forall (λ d, 1 ≤ d) dims → broadcast dims (row_strides dims) = false.
Proof.
  induction 1 as [|d dims Hd Hds IH]; [done|]. unfold broadcast in *. simpl. rewrite IH.
  pose proof (product_pos dims Hds). rewrite (bool_decide_false (product dims = 0)) by lia. by rewrite andb_false_r.
Qed.

(** C24: an element store through an owned array or a view writes exactly the
    addressed element of the owner: that element reads back the stored cells, every
    other element, every other record and every array's shape are unchanged.  A store
    through a broadcast axis of more than one element, or outside the dimensions,
    raises and changes nothing. *)
Theorem OpStoreElementN_spec md h r r' locals src arr idxBase i idxs vs dims strides off o base cells count :
  heap_ok h → array_ref md h i dims strides off o base cells count →
  operands r [arr; idxBase; src; Z.of_nat (length dims)] r' →
  ld32 locals arr = Ok i → read_idxs locals idxBase (length dims) = Ok idxs →
  load_cells locals src (Z.to_nat cells) = Ok vs →
  if broadcast dims strides then ∃ msg, OpStoreElementN md r h locals = Raise (NlangExc ExcBase msg)
  else (in_bounds idxs dims → ∃ h', OpStoreElementN md r h locals = Ok (r', h', locals)
          ∧ stored h o base cells (addr off idxs strides) vs h'
          ∧ ∀ j dims' strides' off' o' base' cells' count',
              array_ref md h j dims' strides' off' o' base' cells' count' →
              array_ref md h' j dims' strides' off' o' base' cells' count')
       ∧ (¬ in_bounds idxs dims → ∃ d, OpStoreElementN md r h locals = index_error d).
Proof.
  intros Hok R (r1 & E1 & r2 & E2 & r3 & E3 & r4 & E4 & ->) Hi Hx Hl.
  apply array_ref_address in R as (kind & slot & R & Hk & Hr & Hkk & Hrank & Hpay & Hcells & Hin & Hout & Hz).
  unfold OpStoreElementN. cbn zeta. rewrite E1, bindE, E2, bindE, E3, bindE, E4, bindE, Hi, bindE.
  rewrite (array_slot_ok _ h i kind slot), bindE by (done || apply R). cbn beta iota.
  rewrite Hrank, derefE, bindE, u16_rank, decide_False by (apply R || (intros Hn; by apply Hn)).
  rewrite Nat2Z.id. match goal with |- context [mbind _ ?t] => set (gate := t) end.
  assert (gate = if broadcast dims strides then Raise (NlangExc ExcBase "cannot store through a broadcast (zero-stride) view; reshape it to materialize a writable copy") else Ok ()) as ->.
  { subst gate. case_decide as Hv; [by apply Hz|].
    destruct R as [_ _ Hd _ _ _ (k' & s' & Hk' & _ & _ & Hm) _].
    destruct Hm as [(_ & _ & _ & ->)|(-> & _)]; [by rewrite row_strides_not_broadcast|congruence]. }
  destruct (broadcast dims strides); [by eexists|]. rewrite bindE, Hx, bindE. split.
  - intros Hb. rewrite (Hin idxs Hb), bindE, Hpay, bindE. cbn beta iota. rewrite Hcells, bindE.
    destruct (copy_in_elem md h o base cells count (addr off idxs strides) src locals vs Hok) as (h' & -> & S);
      [apply R|by apply R|done|]. rewrite bindE. exists h'. split_and!; [done|done|].
    intros. eapply stored_ref; [apply R|done..].
  - intros Hb. destruct (Hout idxs) as [d Hd]; [by eapply read_idxs_length|done|]. exists d. by rewrite Hd.
Qed.

(** ** Creation *)
(** [i] is a new record of [h'], with content [r] and kind [k]. *)
Record fresh (h : heap) (i : Z) (r : list Z) (k : Z) (h' : heap) : Prop := {
  fr_ok : heap_ok h';
  fr_rec : rec_at h' i = Some r;
  fr_kind : kind_at h' i = Some k;
  fr_ext : hextends h h';
  fr_dead : ¬ hlive h i;
  fr_pos : 0 < i;
  fr_shards : length (m_heapShards h') = length (m_heapShards h)
}.
Lemma fresh_take h shard (r : list Z) k s :
  heap_ok h → (shard < length (m_heapShards h))%nat →
  ∃ i h1, TakeHeapSlot (HNoteGcPressure h) shard = Ok (i, h1) ∧ fresh h i r k (set_slot h1 i r k s).
Proof.
  intros Hok Hsh.
  destruct (TakeHeapSlot_spec (HNoteGcPressure h) shard (heap_ok_note h Hok) Hsh) as (i & h1 & E & [T1 T2 T3 T4 T5 T6 T7]).
  exists i, h1. split; [done|]. destruct (set_slot_at h1 i r k s T1) as (R & K & _); [lia|].
  split; try done; [by apply set_slot_ok| |lia].
  intros x Hx. assert (x ≠ i) by (intros ->; by apply T4).
  eapply hsame_trans; [by apply (T5 x)|]. apply set_slot_ne; [lia|done].
Qed.
Lemma fresh_rewrote h i r k h2 r' h3 : fresh h i r k h2 → rewrote h2 i r' h3 → fresh h i r' k h3.
Proof.
  intros [F1 F2 F3 F4 F5 F6 F7] [W1 W2 W3 W4 _ W6 _]. split; try done; [congruence| |congruence].
  intros x Hx. assert (x ≠ i) by (intros ->; done). eapply hsame_trans; [by apply F4|by apply W3].
Qed.
Lemma list_inserts_mid {A} (vs : list A) : ∀ a b c,
  length b = length vs → list_inserts (length a) vs (a ++ b ++ c) = a ++ vs ++ c.
Proof.
  induction vs as [|v vs IH]; intros a [|x b] c H; try done. cbn [list_inserts].
  replace (a ++ (x :: b) ++ c) with ((a ++ [x]) ++ b ++ c) by (by rewrite <- app_assoc).
  replace (S (length a)) with (length (a ++ [x])) by (rewrite length_app; simpl; lia).
  rewrite IH by (simpl in H; lia). rewrite <- app_assoc. simpl.
  rewrite insert_app_r_alt, Nat.sub_diag by lia. done.
Qed.
Lemma write_fresh h i k h2 n a b c vs :
  fresh h i (a ++ b ++ c) k h2 → length b = length vs → n = length a →
  ∃ h3, write_cells h2 i n vs = Ok h3 ∧ fresh h i (a ++ vs ++ c) k h3.
Proof.
  intros F Hl ->. destruct (write_cells_spec vs h2 i (length a) _ (fr_ok _ _ _ _ _ F) (fr_rec _ _ _ _ _ F)) as (h3 & -> & W).
  { rewrite !length_app. lia. }
  exists h3. split; [done|]. rewrite list_inserts_mid in W by done. by eapply fresh_rewrote.
Qed.

(** The content of a view record. *)
Definition view_record (t count : Z) (dims strides : list Z) (off o : Z) : list Z :=
  [RTK_ArrayView; t; Z.of_nat (length dims); count] ++ dims ++ strides ++ [off; o].
Lemma AllocView_build md h shard t dims strides off target o count :
  heap_ok h → (shard < length (m_heapShards h))%nat → length strides = length dims →
  ValidateViewCreation md h t dims strides off target = Ok (o, count) →
  ∃ i h', AllocViewOnHeap md h shard t dims strides off target = Ok (i, h')
          ∧ fresh h i (view_record t count dims strides off o) RTK_ArrayView h'.
Proof.
  intros Hok Hsh Hl HV. unfold AllocViewOnHeap. rewrite HV, bindE. cbn beta iota zeta.
  set (n := length dims). assert (replicate (Z.to_nat (ArrayViewRecordCells (Z.of_nat n))) 0
    = [] ++ replicate 4 0 ++ (replicate n 0 ++ replicate n 0 ++ [0; 0])) as ->.
  { unfold ArrayViewRecordCells. replace (Z.to_nat (6 + 2 * Z.of_nat n)) with (4 + (n + (n + 2)))%nat by lia.
    by rewrite !replicate_add. }
  destruct (fresh_take h shard ([] ++ replicate 4 0 ++ (replicate n 0 ++ replicate n 0 ++ [0; 0]))
    RTK_ArrayView t Hok Hsh) as (i & h1 & -> & F). rewrite bindE. cbn beta iota zeta.
  destruct (write_fresh _ _ _ _ 0 _ _ _ [RTK_ArrayView; t; Z.of_nat n; count] F) as (h2 & -> & F2); [done..|].
  rewrite bindE. clear F.
  edestruct (write_fresh h i RTK_ArrayView h2 4 [RTK_ArrayView; t; Z.of_nat n; count] (replicate n 0) _ dims F2)
    as (h3 & -> & F3); [by rewrite length_replicate|done|]. rewrite bindE. clear F2.
  edestruct (write_fresh h i RTK_ArrayView h3 (Z.to_nat (ArrayViewStridesBase (Z.of_nat n)))
    ([RTK_ArrayView; t; Z.of_nat n; count] ++ dims) (replicate n 0) [0; 0] strides) as (h4 & -> & F4).
  { by rewrite <- app_assoc. } { by rewrite length_replicate. }
  { unfold ArrayViewStridesBase. rewrite length_app. fold n. simpl. lia. }
  rewrite bindE. clear F3.
  edestruct (write_fresh h i RTK_ArrayView h4 (Z.to_nat (ArrayViewOffsetCell (Z.of_nat n)))
    (([RTK_ArrayView; t; Z.of_nat n; count] ++ dims) ++ strides) [0] [0] [off]) as (h5 & -> & F5).
  { rewrite <- app_assoc. exact F4. } { done. }
  { unfold ArrayViewOffsetCell. rewrite !length_app, Hl. fold n. simpl. lia. }
  rewrite bindE. clear F4.
  edestruct (write_fresh h i RTK_ArrayView h5 (Z.to_nat (ArrayViewTargetCell (Z.of_nat n)))
    ((([RTK_ArrayView; t; Z.of_nat n; count] ++ dims) ++ strides) ++ [off]) [0] [] [o]) as (h6 & -> & F6).
  { rewrite <- app_assoc. exact F5. } { done. }
  { unfold ArrayViewTargetCell. rewrite !length_app, Hl. fold n. simpl. lia. }
  rewrite bindE. exists i, h6. split; [done|]. unfold view_record. rewrite <- !app_assoc in F6. exact F6.
Qed.

(** The element type of an owner. *)
Definition elem_row (md : tables) (h : heap) (o : Z) (row : CompiledArrayType) : Prop :=
  ∃ slot t, rec_at h o = Some slot ∧ slot !! 1%nat = Some t ∧ arrayTypes md !!z u16 t = Some row.
(** What a view of an owner of [count] elements of type [row] must satisfy. *)
Definition view_ok (md : tables) (t : Z) (dims strides : list Z) (off count : Z) (row : CompiledArrayType) : Prop :=
  ((1 ≤ length dims)%nat ∧ Z.of_nat (length dims) ≤ kMaxArrayRank) ∧ product dims ≤ kMaxArrayElems
  ∧ (∃ caller, arrayTypes md !!z t = Some caller ∧ at_rank caller = Z.of_nat (length dims)
       ∧ elemKind caller = elemKind row ∧ elemTypeIdx caller = elemTypeIdx row)
  ∧ ∀ idxs, in_bounds idxs dims → 0 ≤ addr off idxs strides < count.

Lemma view_peel md h target dims strides off o base cells count :
  array_ref md h target dims strides off o base cells count →
  ∃ k, kind_at h target = Some k ∧
    (if decide (k = RTK_ArrayView) then
       viewRank ← get_cell h target 2;
       t ← get_cell h target (Z.to_nat (ArrayViewTargetCell (u8 viewRank)));
       if decide (t ≤ 0 ∨ kind_at h t = None)
       then Raise (RuntimeError "NLang VM: corrupt view record (target out of range)")
       else Ok t
     else Ok target) = Ok o.
Proof.
  intros [_ [_ Hr] _ _ _ _ (k & slot & Hk & Hrec & (Hrank & _) & Hm) (Ho & _ & _ & Hko & _)].
  exists k. split; [done|]. destruct Hm as [(-> & -> & _)|(-> & _ & _ & Ht)]; [done|].
  rewrite decide_True by done. unfold get_cell. rewrite Hrec, derefE, bindE, Hrank, derefE, bindE, rank_u8 by done.
  unfold ArrayViewTargetCell. replace (Z.to_nat (5 + 2 * Z.of_nat (length dims))) with (5 + 2 * length dims)%nat by lia.
  rewrite bindE, Ht, derefE, bindE, decide_False; [done|]. rewrite Hko. by intros [?|?]; [lia|].
Qed.

Lemma ValidateArrayDims_pos dims :
  Forall (λ d, 1 ≤ d) dims →
  ValidateArrayDims dims = if decide (product dims ≤ kMaxArrayElems) then Ok (product dims) else length_error.
Proof.
  intros Hd. destruct (ValidateArrayDims_cases dims) as [(size & -> & -> & Hs & _)|[-> H]].
  - by rewrite decide_True by lia.
  - specialize (H Hd). by rewrite decide_False by lia.
Qed.

Lemma ValidateViewCreation_aux md h t dims strides off target dims0 strides0 off0 o base cells count row :
  array_ref md h target dims0 strides0 off0 o base cells count → elem_row md h o row →
  Forall (λ d, 1 ≤ d) dims → length strides = length dims → Forall (is_sint 32) strides → is_sint 32 off →
  (view_ok md t dims strides off count row →
     ValidateViewCreation md h t dims strides off target = Ok (o, product dims))
  ∧ (¬ view_ok md t dims strides off count row →
     ∃ e, ValidateViewCreation md h t dims strides off target = Raise e).
Proof.
  intros R (slot & to & Hslot & Hto & Hrow) Hd Hl Hs Ho. unfold ValidateViewCreation, view_ok. cbn zeta.
  destruct (arrayTypes md !!z t) as [caller|] eqn:Hc; [|split; [by intros (_ & _ & (? & ? & _) & _)|by eexists]].
  pose proof (view_peel _ _ _ _ _ _ _ _ _ _ R) as (k & Hk & Hpeel).
  pose proof R as [Hpos _ _ _ _ _ _ (_ & _ & _ & Hko & oslot & Hor & _ & _ & Hcount & _)].
  assert (oslot = slot) as -> by congruence.
  destruct (decide (Z.of_nat (length dims) < 1 ∨ kMaxArrayRank < Z.of_nat (length dims))) as [Hrk|Hrk].
  { split; [lia|by eexists]. }
  rewrite Hk, decide_False, Hpeel, bindE by lia. rewrite decide_False by (rewrite Hko; intros Hn; by apply Hn).
  rewrite ValidateArrayDims_pos by done. destruct (decide (product dims ≤ kMaxArrayElems)) as [Hp|Hp].
  2:{ split; [tauto|by eexists]. }
  pose proof (product_pos dims Hd) as Hp1.
  rewrite bindE. unfold ValidateViewTypeMatch, get_cell. rewrite Hc, derefE, bindE, Hslot, derefE, !bindE.
  rewrite Hto, Hcount, !derefE, !bindE, Hrow, derefE, bindE.
  destruct (decide (0 < product dims)) as [_|?]; [|lia]. clear Hpeel. case_decide as Hty.
  { split; [|intros _; eexists; reflexivity]. intros (_ & _ & (c & [= <-] & ? & ? & ?) & _). tauto. }
  rewrite bindE. assert (Forall (λ d, 1 ≤ d ≤ kMaxArrayElems) dims) as Hdk.
  { eapply list.Forall_impl; [by apply product_all|]. simpl. lia. }
  pose proof (Coverage_aux dims strides off count Hl Hdk Hp Hs Ho) as Hcov. split.
  - intros (_ & _ & _ & Hall). apply Hcov in Hall. by rewrite Hall, bindE.
  - intros Hn. destruct (ValidateViewCoverage dims strides off count) as [[]|e] eqn:E; [|by eexists].
    exfalso. apply Hn. split_and!; [lia|lia|done| |by apply Hcov]. exists caller. split; [done|].
    destruct (decide (at_rank caller = Z.of_nat (length dims))), (decide (elemKind caller = elemKind row)),
      (decide (elemTypeIdx caller = elemTypeIdx row)); tauto.
Qed.

Lemma hlive_owner md h o base cells count : owner_ok md h o base cells count → hlive h o.
Proof. intros (_ & _ & _ & Hk & _). exists RTK_Array. by split. Qed.
Lemma owner_extends md h h' o base cells count :
  hextends h h' → owner_ok md h o base cells count → owner_ok md h' o base cells count.
Proof.
  intros Hx Ho. destruct (Hx o (hlive_owner _ _ _ _ _ _ Ho)) as (E1 & E2 & _).
  unfold owner_ok in *. by rewrite E1, E2.
Qed.
(** The fields of a view record. *)
Lemma view_record_fields t count dims strides off o :
  length strides = length dims →
  let slot := view_record t count dims strides off o in
  slot !! 1%nat = Some t ∧ slot !! 2%nat = Some (Z.of_nat (length dims)) ∧ slot !! 3%nat = Some count
  ∧ slice 4 (length dims) slot = Some dims ∧ slice (4 + length dims) (length dims) slot = Some strides
  ∧ slot !! (4 + 2 * length dims)%nat = Some off ∧ slot !! (5 + 2 * length dims)%nat = Some o.
Proof.
  intros Hl slot. subst slot. unfold view_record. set (hd := [RTK_ArrayView; t; Z.of_nat (length dims); count]).
  split_and!; try done.
  - apply slice_Some. by exists hd, (strides ++ [off; o]).
  - apply slice_Some. exists (hd ++ dims), [off; o]. rewrite <- app_assoc, length_app. done.
  - apply lookup_slice, slice_Some. exists (hd ++ dims ++ strides), [o].
    rewrite <- !app_assoc, !length_app, Hl. subst hd. simpl. split_and!; [done|lia|done].
  - apply lookup_slice, slice_Some. exists (hd ++ dims ++ strides ++ [off]), [].
    rewrite <- !app_assoc, !length_app, Hl. subst hd. simpl. split_and!; [done|lia|done].
Qed.

Lemma AllocViewOnHeap_aux md h shard t dims strides off target dims0 strides0 off0 o base cells count row :
  heap_ok h → (shard < length (m_heapShards h))%nat →
  array_ref md h target dims0 strides0 off0 o base cells count → elem_row md h o row →
  is_uint 16 t → Forall (λ d, 1 ≤ d) dims → length strides = length dims →
  Forall (is_sint 32) strides → is_sint 32 off →
  (view_ok md t dims strides off count row →
     ∃ i h', AllocViewOnHeap md h shard t dims strides off target = Ok (i, h')
       ∧ heap_ok h' ∧ hextends h h' ∧ ¬ hlive h i ∧ kind_at h' i = Some RTK_ArrayView
       ∧ array_ref md h' i dims strides off o base cells count)
  ∧ (¬ view_ok md t dims strides off count row →
     ∃ e, AllocViewOnHeap md h shard t dims strides off target = Raise e).
Proof.
  intros Hok Hsh R Hrow Ht Hd Hl Hs Ho.
  destruct (ValidateViewCreation_aux md h t dims strides off target _ _ _ _ _ _ _ _ R Hrow Hd Hl Hs Ho) as [V1 V2].
  split; intros Hv.
  - destruct (AllocView_build md h shard t dims strides off target o (product dims) Hok Hsh Hl (V1 Hv)) as (i & h' & E & F).
    exists i, h'. destruct F as [F1 F2 F3 F4 F5 F6 _]. split_and!; try done.
    destruct Hv as (Hr & Hp & (caller & Hc & Hcr & Hck & _) & Hin).
    pose proof (view_record_fields t (product dims) dims strides off o Hl) as (G1 & G2 & _ & G4 & G5 & G6 & G7).
    pose proof (ar_owner _ _ _ _ _ _ _ _ _ _ R) as Hown. split; try done.
    + eexists _, _. split_and!; [done|done| |right; done]. split_and!; [done|done|]. exists t, caller.
      split_and!; [done|by rewrite (wrap_small 16)|]. rewrite Hck.
      destruct Hrow as (slot & t' & A1 & A2 & A3). destruct Hown as (_ & _ & _ & _ & s2 & B1 & _ & _ & _ & t2 & r2 & B2 & B3 & ->).
      congruence.
    + by eapply owner_extends.
  - destruct (V2 Hv) as [e He]. exists e. unfold AllocViewOnHeap. by rewrite He.
Qed.

(** C40: creating a view of an array or of a view succeeds exactly when the rank is
    legal, the element count is within the cap, the element types agree and every
    in-bounds coordinate maps inside the owner; then the new record is a view of the
    owning array (never of a view) with the given dimensions, strides and offset, and
    every live record is unchanged.  Otherwise it raises. *)
Theorem AllocViewOnHeap_spec md h shard t dims strides off target dims0 strides0 off0 o base cells count row :
  heap_ok h → (shard < length (m_heapShards h))%nat →
  array_ref md h target dims0 strides0 off0 o base cells count → elem_row md h o row →
  is_uint 16 t → Forall (λ d, 1 ≤ d) dims → length strides = length dims →
  Forall (is_sint 32) strides → is_sint 32 off →
  (view_ok md t dims strides off count row →
     ∃ i h', AllocViewOnHeap md h shard t dims strides off target = Ok (i, h')
       ∧ heap_ok h' ∧ hextends h h' ∧ ¬ hlive h i ∧ kind_at h' i = Some RTK_ArrayView
       ∧ array_ref md h' i dims strides off o base cells count)
  ∧ (¬ view_ok md t dims strides off count row →
     ∃ e, AllocViewOnHeap md h shard t dims strides off target = Raise e).
Proof. apply AllocViewOnHeap_aux. Qed.

(** the flat enumeration of a view (foreach, row copies) visits the same owner
    elements as its coordinates, in row-major order: element [flatten dims idxs] is
    the element at [idxs], and every flat position below the count has coordinates. *)
Theorem ViewFlatElementAddress_coords md h i slot dims strides off o base cells count :
  array_ref md h i dims strides off o base cells count →
  kind_at h i = Some RTK_ArrayView → rec_at h i = Some slot →
  (∀ idxs, in_bounds idxs dims →
     ViewFlatElementAddress slot (flatten dims idxs)
     = ElementFlatAddress slot RTK_ArrayView (length dims) idxs)
  ∧ (∀ f, 0 ≤ f < product dims → ∃ idxs, in_bounds idxs dims ∧ flatten dims idxs = f
       ∧ ∀ idxs', in_bounds idxs' dims → flatten dims idxs' = f → idxs' = idxs).
Proof.
  intros R Hk Hrec. split.
  - intros idxs Hb. apply array_ref_address in R as (kind & s & R & Hk' & Hr' & _ & Hrank & _ & _ & Hin & _).
    assert (s = slot) as -> by congruence. assert (kind = RTK_ArrayView) as -> by congruence. rewrite (Hin idxs Hb).
    destruct R as [_ [_ Hr] Hd Hp (Hl & Hs & Ho) _ (k & s & Hk2 & Hr2 & (_ & Hdims & _) & Hm) _].
    assert (s = slot) as -> by congruence. destruct Hm as [(-> & _)|(_ & Hst & Hoff & _)]; [by rewrite Hk in Hk2|].
    unfold ViewFlatElementAddress, cells_at. rewrite Hrank, derefE, bindE, rank_u8 by done.
    unfold ArrayViewStridesBase, ArrayViewOffsetCell. rewrite Nat2Z.id.
    replace (Z.to_nat (4 + Z.of_nat (length dims))) with (4 + length dims)%nat by lia.
    replace (Z.to_nat (4 + 2 * Z.of_nat (length dims))) with (4 + 2 * length dims)%nat by lia.
    rewrite Hdims, Hst, Hoff, !derefE, !bindE.
    pose proof (spread_product dims Hd). unfold is_sint in Ho. change (2 ^ (32 - 1)) with (2 ^ 31) in Ho.
    destruct (decode_flat_spec dims strides idxs off 0 0) as [E _]; try done; try lia.
    rewrite Z.mul_0_l, Z.add_0_l in E. by rewrite E.
  - intros f Hf. destruct (flatten_surj dims f (ar_dims _ _ _ _ _ _ _ _ _ _ R) Hf) as (idxs & Hb & E).
    exists idxs. split_and!; [done..|]. intros idxs' Hb' E'. apply (flatten_inj dims); congruence.
Qed.

Definition HeaderCells (n : nat) : nat := Z.to_nat (ArrayHeaderCells (Z.of_nat n)).
Lemma header_cells n : ArrayHeaderCells (Z.of_nat n) = Z.of_nat (HeaderCells n) ∧ (4 + n ≤ HeaderCells n)%nat.
Proof.
  unfold HeaderCells, ArrayHeaderCells. cbn zeta. pose proof (Z.land_nonneg (4 + Z.of_nat n) 1). lia.
Qed.
Lemma ArrayElemCells_range k : 1 ≤ ArrayElemCells k ≤ 2.
Proof. unfold ArrayElemCells. destruct (ScalarPrimIndexOfRtk k) as [[? row]|]; [case_decide|]; lia. Qed.

Definition array_record (t : Z) (dims payload : list Z) : list Z :=
  [RTK_Array; t; Z.of_nat (length dims); product dims] ++ dims
  ++ replicate (HeaderCells (length dims) - (4 + length dims)) 0 ++ payload.
(** The header of a new array, written over zeros. *)
Lemma AllocArray_head h shard t at_ dims size :
  heap_ok h → (shard < length (m_heapShards h))%nat → Z.of_nat (length dims) ≤ kMaxArrayRank → ValidateArrayDims dims = Ok size →
  let rank := Z.of_nat (length dims) in
  let cells := ArrayElemCells (elemKind at_) in
  let total := Z.to_nat (i32 (i32 (ArrayHeaderCells rank) + size * cells)) in
  ∃ i h1 h2 h3, TakeHeapSlot (HNoteGcPressure h) shard = Ok (i, h1)
    ∧ write_cells (set_slot h1 i (replicate total 0) RTK_Array t) i 0 [RTK_Array; t; rank; size] = Ok h2
    ∧ write_cells h2 i 4 dims = Ok h3
    ∧ fresh h i (array_record t dims (replicate (Z.to_nat (size * cells)) 0)) RTK_Array h3.
Proof.
  intros Hok Hsh Hr Hsize. cbn zeta.
  destruct (ValidateArrayDims_cases dims) as [(size' & E & Hp & [Hs Hs'] & _)|[E _]]; [|by rewrite E in Hsize].
  assert (size' = size) as -> by congruence. clear E.
  set (n := length dims) in *. set (cells := ArrayElemCells (elemKind at_)).
  pose proof (header_cells n) as [Hh Hh4]. pose proof (ArrayElemCells_range (elemKind at_)) as Hc. fold cells in Hc.
  set (m := (HeaderCells n - (4 + n))%nat).
  assert (Z.of_nat (HeaderCells n) ≤ 100) as Hh5.
  { rewrite <- Hh. unfold ArrayHeaderCells, kMaxArrayRank in *. cbn zeta.
    assert (Z.land (4 + Z.of_nat n) 1 ≤ 1); [|lia]. change 1 with (Z.ones 1) at 1. rewrite Z.land_ones by lia.
    pose proof (Z.mod_pos_bound (4 + Z.of_nat n) (2 ^ 1)). lia. }
  assert (Z.to_nat (i32 (i32 (ArrayHeaderCells (Z.of_nat n)) + size * cells))
    = (4 + (n + (m + Z.to_nat (size * cells))))%nat) as ->.
  { unfold kMaxArrayElems in *. rewrite Hh, (swrap_small 32 (Z.of_nat _)) by (unfold is_sint; lia).
    assert (0 ≤ size * cells ≤ 2 * (100 * 1000 * 1000)) by nia.
    rewrite (swrap_small 32) by (unfold is_sint; lia). lia. }
  rewrite !replicate_add.
  destruct (fresh_take h shard ([] ++ replicate 4 0 ++ (replicate n 0 ++ replicate m 0
    ++ replicate (Z.to_nat (size * cells)) 0)) RTK_Array t Hok Hsh) as (i & h1 & E1 & F).
  destruct (write_fresh _ _ _ _ 0 _ _ _ [RTK_Array; t; Z.of_nat n; size] F) as (h2 & E2 & F2); [done..|].
  edestruct (write_fresh h i RTK_Array h2 4 [RTK_Array; t; Z.of_nat n; size] (replicate n 0) _ dims F2)
    as (h3 & E3 & F3); [by rewrite length_replicate|done|].
  exists i, h1, h2, h3. split_and!; [done..|]. unfold array_record. rewrite <- Hp. exact F3.
Qed.
Lemma AllocArray_build fuel md h shard t at_ dims :
  heap_ok h → (shard < length (m_heapShards h))%nat → arrayTypes md !!z t = Some at_ →
  elemKind at_ ≠ RTK_Struct ∨ elemTypeIdx at_ = 65535 → Z.of_nat (length dims) ≤ kMaxArrayRank →
  Forall (λ d, 1 ≤ d) dims → product dims ≤ kMaxArrayElems →
  ∃ i h', AllocArrayOnHeap fuel md h shard t dims = Ok (i, h')
    ∧ fresh h i (array_record t dims (replicate (Z.to_nat (product dims * ArrayElemCells (elemKind at_))) 0)) RTK_Array h'.
Proof.
  intros Hok Hsh Hat Hns Hr Hd Hp.
  assert (ValidateArrayDims dims = Ok (product dims)) as Hv by (by rewrite ValidateArrayDims_pos, decide_True).
  destruct (AllocArray_head h shard t at_ dims _ Hok Hsh Hr Hv) as (i & h1 & h2 & h3 & E1 & E2 & E3 & F).
  exists i, h3. split; [|exact F]. unfold AllocArrayOnHeap. cbn zeta in *.
  rewrite Hat, Hv, bindE, E1, bindE, E2, bindE, E3, bindE, decide_False, bindE; [done|tauto].
Qed.

Lemma array_record_fields t dims payload :
  let slot := array_record t dims payload in
  slot !! 1%nat = Some t ∧ slot !! 2%nat = Some (Z.of_nat (length dims)) ∧ slot !! 3%nat = Some (product dims)
  ∧ slice 4 (length dims) slot = Some dims
  ∧ length slot = (HeaderCells (length dims) + length payload)%nat ∧ drop (HeaderCells (length dims)) slot = payload.
Proof.
  cbn zeta. unfold array_record. pose proof (header_cells (length dims)) as [_ H].
  set (m := (HeaderCells (length dims) - (4 + length dims))%nat). split_and!; try done.
  - apply slice_Some. by exists [RTK_Array; t; Z.of_nat (length dims); product dims], (replicate m 0 ++ payload).
  - rewrite !length_app, length_replicate. simpl. lia.
  - rewrite (app_assoc dims), (app_assoc [_; _; _; _]), drop_app_length'; [done|].
    rewrite !length_app, length_replicate. simpl. lia.
Qed.

Lemma AllocArrayOnHeap_aux fuel md h shard t at_ dims :
  heap_ok h → (shard < length (m_heapShards h))%nat → is_uint 16 t → arrayTypes md !!z t = Some at_ →
  elemKind at_ ≠ RTK_Struct ∨ elemTypeIdx at_ = 65535 →
  (1 ≤ length dims)%nat → Z.of_nat (length dims) ≤ kMaxArrayRank → Forall (λ d, 1 ≤ d) dims →
  let base := ArrayHeaderCells (Z.of_nat (length dims)) in
  let cells := ArrayElemCells (elemKind at_) in
  if decide (product dims ≤ kMaxArrayElems) then
    ∃ i h', AllocArrayOnHeap fuel md h shard t dims = Ok (i, h')
      ∧ heap_ok h' ∧ hextends h h' ∧ ¬ hlive h i
      ∧ array_ref md h' i dims (row_strides dims) 0 i base cells (product dims)
      ∧ ∀ f, 0 ≤ f < product dims → elem h' i base cells f = Some (replicate (Z.to_nat cells) 0)
  else AllocArrayOnHeap fuel md h shard t dims = length_error.
Proof.
  intros Hok Hsh Ht Hat Hns Hr1 Hr Hd base cells. case_decide as Hp.
  2:{ unfold AllocArrayOnHeap. by rewrite Hat, ValidateArrayDims_pos, decide_False by done. }
  destruct (AllocArray_build fuel md h shard t at_ dims Hok Hsh Hat Hns Hr Hd Hp) as (i & h' & E & [F1 F2 F3 F4 F5 F6 _]).
  fold cells in F2. pose proof (product_pos dims Hd). pose proof (ArrayElemCells_range (elemKind at_)) as Hc. fold cells in Hc.
  pose proof (header_cells (length dims)) as [Hh Hh4]. fold base in Hh.
  match type of F2 with _ = Some (array_record _ _ ?p) =>
    pose proof (array_record_fields t dims p) as (G1 & G2 & G3 & G4 & G5 & G6) end.
  set (slot := array_record _ _ _) in *. rewrite length_replicate in G5.
  assert (ArrayPayloadBase slot = Ok base) as Hbase.
  { unfold ArrayPayloadBase. rewrite decide_False, G2, derefE, bindE by lia.
    rewrite decide_False by lia. fold base. by rewrite decide_False by lia. }
  exists i, h'. split_and!; try done.
  - split; try done.
    + split_and!; [apply length_row_strides|by apply row_strides_sint|done].
    + intros idxs Hb. rewrite addr_row_major by (by eapply Forall2_length). by apply flatten_bound.
    + exists RTK_Array, slot. split_and!; try done; [|by left]. split_and!; try done. exists t, at_.
      split_and!; [done|by rewrite (wrap_small 16)|done].
    + split_and!; try done; try lia. exists slot. split_and!; try done; [nia|]. exists t, at_.
      split_and!; [done|by rewrite (wrap_small 16)|done].
  - intros f Hf. unfold elem. rewrite F2. simpl. unfold slice. rewrite decide_True by nia. f_equal.
    replace (Z.to_nat (base + f * cells)) with (HeaderCells (length dims) + Z.to_nat (f * cells))%nat by nia.
    rewrite <- drop_drop, G6, drop_replicate, take_replicate. f_equal. nia.
Qed.

(** a new array of scalar or reference elements is a fresh record that owns its
    whole row-major index space, every element zero, with all live records unchanged;
    an element count above the cap raises the out-of-bounds error. *)
Theorem AllocArrayOnHeap_spec fuel md h shard t at_ dims :
  heap_ok h → (shard < length (m_heapShards h))%nat → is_uint 16 t → arrayTypes md !!z t = Some at_ →
  elemKind at_ ≠ RTK_Struct ∨ elemTypeIdx at_ = 65535 →
  (1 ≤ length dims)%nat → Z.of_nat (length dims) ≤ kMaxArrayRank → Forall (λ d, 1 ≤ d) dims →
  let base := ArrayHeaderCells (Z.of_nat (length dims)) in
  let cells := ArrayElemCells (elemKind at_) in
  if decide (product dims ≤ kMaxArrayElems) then
    ∃ i h', AllocArrayOnHeap fuel md h shard t dims = Ok (i, h')
      ∧ heap_ok h' ∧ hextends h h' ∧ ¬ hlive h i
      ∧ array_ref md h' i dims (row_strides dims) 0 i base cells (product dims)
      ∧ ∀ f, 0 ≤ f < product dims → elem h' i base cells f = Some (replicate (Z.to_nat cells) 0)
  else AllocArrayOnHeap fuel md h shard t dims = length_error.
Proof. apply AllocArrayOnHeap_aux. Qed.

(** an array with a zero dimension passes the length gate whatever its other
    dimensions, but the first element access computes its 32-bit row-major strides
    before any bounds check and overflows. *)
Theorem empty_array_stride_overflow :
  ValidateArrayDims [0; kMaxArrayElems; kMaxArrayElems] = Ok 0
  ∧ ElementFlatAddress (array_record 0 [0; kMaxArrayElems; kMaxArrayElems] []) RTK_Array 3 [0; 0; 0]
    = Raise (Undefined "signed overflow in row-major stride").
Proof. split; vm_compute; reflexivity. Qed.

(** ** Witnesses *)
(** A 2 x 3 matrix of ints in slot 1, and its transpose as a view. *)
Definition arr_tables : tables := MkTables [] [] [MkArrayType RTK_Int32 65535 2] [].
Definition arr_heap : heap :=
  match AllocArrayOnHeap 0 arr_tables demo_heap 0 0 [2; 3] with Ok (_, h) => h | Raise _ => demo_heap end.
Lemma small_dims a b : 1 ≤ a → 1 ≤ b → Forall (λ d, 1 ≤ d) [a; b].
Proof. repeat constructor; done. Qed.
Lemma arr_heap_ref :
  heap_ok arr_heap ∧ (0 < length (m_heapShards arr_heap))%nat ∧ array_ref arr_tables arr_heap 1 [2; 3] [3; 1] 0 1 6 1 6.
Proof.
  destruct demo_heap_ok as [Hok Hsh].
  pose proof (AllocArrayOnHeap_aux 0 arr_tables demo_heap 0 0 (MkArrayType RTK_Int32 65535 2) [2; 3] Hok Hsh
    ltac:(unfold is_uint; lia) eq_refl ltac:(by right) ltac:(simpl; lia) ltac:(vm_compute; discriminate)
    (small_dims 2 3 ltac:(lia) ltac:(lia))) as H.
  cbn zeta in H. rewrite decide_True in H by (vm_compute; discriminate).
  destruct H as (i & h & E & H1 & _ & _ & H2 & _).
  assert (i = 1) as ->.
  { assert (Ok i = Ok 1) as [= ->]; [|done]. 
    transitivity (v ← AllocArrayOnHeap 0 arr_tables demo_heap 0 0 [2; 3]; Ok v.1); [by rewrite E|].
    vm_compute. reflexivity. }
  split_and!; [|vm_compute; lia|]; unfold arr_heap; rewrite E; assumption.
Qed.
Definition view_heap : heap :=
  match AllocViewOnHeap arr_tables arr_heap 0 0 [3; 2] [1; 3] 0 1 with Ok (_, h) => h | Raise _ => arr_heap end.
Lemma in_bounds2 idxs a b : in_bounds idxs [a; b] → ∃ i j, idxs = [i; j] ∧ 0 ≤ i < a ∧ 0 ≤ j < b.
Proof.
  intros H. inversion H as [|i ? l ? Hi H2]; subst. inversion H2 as [|j ? l' ? Hj H3]; subst.
  inversion H3; subst. by exists i, j.
Qed.
Lemma arr_heap_row : elem_row arr_tables arr_heap 1 (MkArrayType RTK_Int32 65535 2).
Proof. exists [RTK_Array; 0; 2; 6; 2; 3; 0; 0; 0; 0; 0; 0], 0. split_and!; vm_compute; reflexivity. Qed.
Lemma transpose_ok : view_ok arr_tables 0 [3; 2] [1; 3] 0 6 (MkArrayType RTK_Int32 65535 2).
Proof.
  split_and!; try (vm_compute; (lia || discriminate)).
  - exists (MkArrayType RTK_Int32 65535 2). done.
  - intros idxs (i & j & -> & Hi & Hj)%in_bounds2. cbn [addr]. lia.
Qed.
Lemma transpose_sints : Forall (is_sint 32) [1; 3] ∧ is_sint 32 0.
Proof. split; [repeat constructor|]; vm_compute; (lia || done). Qed.
Lemma view_heap_ref :
  heap_ok view_heap ∧ kind_at view_heap 2 = Some RTK_ArrayView
  ∧ array_ref arr_tables view_heap 2 [3; 2] [1; 3] 0 1 6 1 6.
Proof.
  destruct arr_heap_ref as (Hok & Hsh & R), transpose_sints as [Hs Ho].
  destruct (AllocViewOnHeap_aux arr_tables arr_heap 0 0 [3; 2] [1; 3] 0 1 _ _ _ _ _ _ _ _ Hok Hsh R arr_heap_row
    ltac:(unfold is_uint; lia) (small_dims 3 2 ltac:(lia) ltac:(lia)) eq_refl Hs Ho) as [H _].
  destruct (H transpose_ok) as (i & h & E & H1 & _ & _ & H3 & H2).
  assert (i = 2) as ->.
  { assert (Ok i = Ok 2) as [= ->]; [|done].
    transitivity (v ← AllocViewOnHeap arr_tables arr_heap 0 0 [3; 2] [1; 3] 0 1; Ok v.1); [by rewrite E|].
    vm_compute. reflexivity. }
  split_and!; unfold view_heap; rewrite E; assumption.
Qed.

Lemma view_heap_rec : rec_at view_heap 2 = Some (view_record 0 6 [3; 2] [1; 3] 0 1).
Proof. vm_compute. reflexivity. Qed.

(** Handle 2 in slot 0, coordinates (2, 1) in slots 8 and 16, the value 77 in slot 24. *)
Definition elem_locals : bytes :=
  le_bytes 8 2 ++ le_bytes 8 2 ++ le_bytes 8 1 ++ le_bytes 8 77.
Definition store_reader : reader := Reader [0; 0; 8; 0; 24; 0; 2; 0] 0.
Definition load_reader : reader := Reader [24; 0; 0; 0; 8; 0; 2; 0] 0.

Lemma AllocArrayOnHeap_spec_witness :
  ∃ i h, AllocArrayOnHeap 0 arr_tables demo_heap 0 0 [2; 3] = Ok (i, h) ∧ heap_ok h.
Proof.
  pose proof (AllocArrayOnHeap_spec 0 arr_tables demo_heap 0 0 (MkArrayType RTK_Int32 65535 2) [2; 3]
    (proj1 demo_heap_ok) (proj2 demo_heap_ok)
    ltac:(unfold is_uint; lia) eq_refl ltac:(by right) ltac:(simpl; lia) ltac:(vm_compute; discriminate)
    (small_dims 2 3 ltac:(lia) ltac:(lia))) as H.
  cbn zeta in H. rewrite decide_True in H by (vm_compute; discriminate).
  destruct H as (i & h & E & H & _). exists i, h. split; assumption.
Defined.
Lemma AllocViewOnHeap_spec_witness :
  ∃ i h, AllocViewOnHeap arr_tables arr_heap 0 0 [3; 2] [1; 3] 0 1 = Ok (i, h) ∧ heap_ok h.
Proof.
  destruct arr_heap_ref as (Hok & Hsh & R), transpose_sints as [Hs Ho].
  destruct (AllocViewOnHeap_spec arr_tables arr_heap 0 0 [3; 2] [1; 3] 0 1 _ _ _ _ _ _ _ _ Hok Hsh R arr_heap_row
    ltac:(unfold is_uint; lia) (small_dims 3 2 ltac:(lia) ltac:(lia)) eq_refl Hs Ho) as [H _].
  destruct (H transpose_ok) as (i & h & E & H1 & _). exists i, h. split; assumption.
Defined.
Lemma ViewFlatElementAddress_coords_witness :
  ViewFlatElementAddress (view_record 0 6 [3; 2] [1; 3] 0 1) 5
  = ElementFlatAddress (view_record 0 6 [3; 2] [1; 3] 0 1) RTK_ArrayView 2 [2; 1].
Proof.
  destruct (ViewFlatElementAddress_coords arr_tables view_heap 2 (view_record 0 6 [3; 2] [1; 3] 0 1) [3; 2] [1; 3] 0 1 6 1 6
    (proj2 (proj2 view_heap_ref)) (proj1 (proj2 view_heap_ref)) view_heap_rec) as [H _].
  apply (H [2; 1]). repeat constructor; lia.
Defined.
Lemma OpLoadElementN_spec_witness :
  ∃ vs, OpLoadElementN arr_tables load_reader view_heap elem_locals
        = (locals' ← store_cells elem_locals 24 vs; Ok (Reader [24; 0; 0; 0; 8; 0; 2; 0] 8, view_heap, locals')).
Proof.
  destruct (OpLoadElementN_spec arr_tables view_heap load_reader _ elem_locals 24 0 8 2 [2; 1] [3; 2] [1; 3] 0 1 6 1 6
    (proj2 (proj2 view_heap_ref)) ltac:(repeat (eexists; split; [reflexivity|]); reflexivity) eq_refl eq_refl) as [H _].
  destruct H as (vs & _ & E); [repeat constructor; lia|]. exists vs. exact E.
Defined.
Lemma OpStoreElementN_spec_witness :
  ∃ h', OpStoreElementN arr_tables store_reader view_heap elem_locals
        = Ok (Reader [0; 0; 8; 0; 24; 0; 2; 0] 8, h', elem_locals) ∧ elem h' 1 6 1 5 = Some [77].
Proof.
  pose proof (OpStoreElementN_spec arr_tables view_heap store_reader _ elem_locals 24 0 8 2 [2; 1] [77] [3; 2] [1; 3] 0 1 6 1 6
    (proj1 view_heap_ref) (proj2 (proj2 view_heap_ref)) ltac:(repeat (eexists; split; [reflexivity|]); reflexivity)
    eq_refl eq_refl eq_refl) as H.
  change (broadcast [3; 2] [1; 3]) with false in H. cbv beta iota in H. destruct H as [H _].
  destruct H as (h' & E & S & _); [repeat constructor; lia|]. exists h'. split; [exact E|]. apply S.
Defined.
