(* ===== verification/ArraySlice.v ===== *)
(** * Slices, array checks and array assembly

    Models [src/src/vm/VmExecutorOpsSlice.cpp] (slice subscripts become views),
    [VmExecutorOpsArrayCheck.cpp] (the two downcast checks) and
    [VmExecutorOpsAssemble.cpp] (initializers of dynamic shape), over [Arrays].
    32-bit arithmetic that may overflow is [checked]; the reference for a slice is the
    list of positions it selects ([py_slice]). *)
From stdpp Require Import pretty.
From S2P Require Import Prelude Bytecode Prims TypeDesc Shards Strings StringOps Layout Heap HeapGC Arrays ArrayElems.
Open Scope Z_scope.

(** ** Slices *)
Definition kSliceDefaultSentinel : Z := INT32_MIN.
Definition kSliceBitStart : Z := 1.
Definition kSliceBitStop : Z := 2.
Definition kSliceBitStep : Z := 4.
Definition kSliceBitScalar : Z := 8.

Definition ReadSliceParam (locals : bytes) (base idx : Z) : outcome Z :=
  ld32 locals (base + u16 idx * Z.of_nat kFrameSlotBytes).
Definition SliceAxisBits (locals : bytes) (paramsBase rank d : Z) : outcome Z :=
  word ← ReadSliceParam locals paramsBase (3 * rank + d / 8);
  Ok (Z.land (Z.shiftr (u32 word) (4 * (d mod 8))) 15).
Definition has (bits mask : Z) : bool := negb (Z.land bits mask =? 0).

(** [value += len] when negative, then clipped to the window of the direction. *)
Definition ClipSliceEndpoint (value len : Z) (positiveStep : bool) : Z :=
  let value := if value <? 0 then value + len else value in
  if positiveStep then Z.min (Z.max value 0) len else Z.min (Z.max value (-1)) (len - 1).

Definition SliceAxisStride (axisStride : Z) : Z :=
  if (INT32_MAX <? axisStride) || (axisStride <? INT32_MIN) then 1 else axisStride.

(** A signed 32-bit result; overflow is undefined. *)
Definition checked (z : Z) : outcome Z :=
  if decide (is_sint 32 z) then Ok z else Raise (Undefined "signed overflow").

Definition base_error {A} (msg : string) : outcome A := Raise (NlangExc ExcBase msg).
(** A written endpoint or step: the sentinel is rejected. *)
Definition written (locals : bytes) (paramsBase idx : Z) : outcome Z :=
  v ← ReadSliceParam locals paramsBase idx;
  if decide (v = kSliceDefaultSentinel) then base_error "slice endpoint/step out of range" else Ok v.

(** The number of positions from [start] towards [stop]. *)
Definition slice_count (start stop step : Z) : outcome Z :=
  if decide (0 < step ∧ start < stop) then
    a ← checked (stop - start); b ← checked (a + step); c ← checked (b - 1); Ok (Z.quot c step)
  else if decide (¬ 0 < step ∧ stop < start) then
    a ← checked (start - stop); b ← checked (a - step); c ← checked (b - 1); n ← checked (- step);
    Ok (Z.quot c n)
  else Ok 0.

(** The dimensions and strides kept so far, and the 64-bit offset. *)
Definition SliceFoldState : Type := list Z * list Z * Z.

Definition FoldOneSliceAxis (locals : bytes) (paramsBase axis bits len stride : Z) (st : SliceFoldState)
    : outcome SliceFoldState :=
  let '(newDims, newStrides, offset) := st in
  step ← (if has bits kSliceBitStep then
            v ← written locals paramsBase (3 * axis + 2);
            if decide (v = 0) then base_error "slice step cannot be zero" else Ok v
          else Ok 1);
  let positiveStep := bool_decide (0 < step) in
  start ← (if has bits kSliceBitStart then
             v ← written locals paramsBase (3 * axis); Ok (ClipSliceEndpoint v len positiveStep)
           else Ok (if positiveStep then 0 else len - 1));
  stop ← (if has bits kSliceBitStop then
            v ← written locals paramsBase (3 * axis + 1); Ok (ClipSliceEndpoint v len positiveStep)
          else Ok (if positiveStep then len else -1));
  count ← slice_count start stop step;
  let axisStride := stride * step in
  if decide (1 < count ∧ (INT32_MAX < axisStride ∨ axisStride < INT32_MIN))
  then oob "view range exceeds the target array bounds"
  else Ok (newDims ++ [count], newStrides ++ [SliceAxisStride axisStride], i64 (offset + start * stride)).

(** One axis of the subscript: a scalar folds into the offset. *)
Definition fold_axis (locals : bytes) (paramsBase rank : Z) (axis : Z) (len stride : Z)
    (st : SliceFoldState) : outcome SliceFoldState :=
  bits ← SliceAxisBits locals paramsBase rank axis;
  if has bits kSliceBitScalar then
    idx ← ReadSliceParam locals paramsBase (3 * axis);
    if decide (idx < 0 ∨ len ≤ idx) then oob ("array index out of bounds (dim " ++ pretty axis ++ ")")
    else let '(newDims, newStrides, offset) := st in Ok (newDims, newStrides, i64 (offset + idx * stride))
  else FoldOneSliceAxis locals paramsBase axis bits len stride st.
Fixpoint fold_axes (locals : bytes) (paramsBase rank : Z) (axis : Z) (dims strides : list Z)
    (st : SliceFoldState) : outcome SliceFoldState :=
  match dims, strides with
  | len :: dims, stride :: strides =>
      st ← fold_axis locals paramsBase rank axis len stride st;
      fold_axes locals paramsBase rank (axis + 1) dims strides st
  | _, _ => Ok st
  end.

Definition FoldSliceAxes (rank : nat) (paramsBase : Z) (locals : bytes) (baseKind : Z) (record : list Z)
    : outcome SliceFoldState :=
  dims ← cells_at record 4 rank;
  '(strides, offset) ← (if decide (baseKind = RTK_ArrayView) then
      strides ← cells_at record (Z.to_nat (ArrayViewStridesBase (u8 (Z.of_nat rank)))) rank;
      off ← deref (record !! Z.to_nat (ArrayViewOffsetCell (u8 (Z.of_nat rank))));
      Ok (strides, off)
    else '(strides, _) ← rowMajor dims; Ok (strides, 0));
  fold_axes locals paramsBase (Z.of_nat rank) 0 dims strides ([], [], offset).

Definition OpMakeArrayView (md : tables) (shard : nat) (r : reader) (h : heap) (locals : bytes) : outcome aframe :=
  '(dst, r) ← ReadUint16 r;
  '(arrSlot, r) ← ReadUint16 r;
  '(arrayTypeIdx, r) ← ReadUint16 r;
  '(rank, r) ← ReadUint16 r;
  '(paramsBase, r) ← ReadUint16 r;
  if decide (rank < 1 ∨ kMaxArrayRank < rank)
  then Raise (RuntimeError "NLang VM: OP_MakeArrayView rank out of range")
  else
    arrHandle ← ld32 locals arrSlot;
    if decide (arrHandle ≤ 0) then Raise (NlangExc ExcNullPtr "array is null")
    else match kind_at h arrHandle with
    | None => Raise (NlangExc ExcNullPtr "array is null")
    | Some kind =>
        if decide (kind ≠ RTK_Array ∧ kind ≠ RTK_ArrayView)
        then base_error "sliced value is not an array"
        else
          record ← deref (rec_at h arrHandle);
          recRank ← deref (record !! 2%nat);
          if decide (recRank ≠ rank) then oob "array rank does not match the subscript"
          else
            '(newDims, newStrides, offset) ← FoldSliceAxes (Z.to_nat rank) paramsBase locals kind record;
            '(handle, h) ← AllocViewOnHeap md h shard arrayTypeIdx newDims newStrides (i32 offset) arrHandle;
            locals ← st32 locals dst handle;
            Ok (r, HNoteGcPressure h, locals)
    end.

(** ** Downcast checks *)
Definition cast_error {A} (msg : string) : outcome A := Raise (NlangExc ExcInvalidCast msg).
(** The gates both checks share: null passes, then the bounds and the kind. *)
Definition check_gate (op : string) (h : heap) (heapIdx : Z) : outcome (list Z) :=
  match kind_at h heapIdx with
  | None => Raise (RuntimeError ("NLang VM: " ++ op ++ " on invalid reference"))
  | Some kind =>
      if decide (kind ≠ RTK_Array ∧ kind ≠ RTK_ArrayView) then cast_error "array cast: value is not an array"
      else deref (rec_at h heapIdx)
  end.

Definition OpCheckArrayRank (r : reader) (h : heap) (locals : bytes) : outcome aframe :=
  '(dst, r) ← ReadUint16 r;
  '(src, r) ← ReadUint16 r;
  '(expect, r) ← ReadUint16 r;
  heapIdx ← ld32 locals src;
  if decide (heapIdx = 0) then locals ← st32 locals dst heapIdx; Ok (r, h, locals)
  else
    slot ← check_gate "OP_CheckArrayRank" h heapIdx;
    got ← deref (slot !! 2%nat);
    if decide (u16 got ≠ expect)
    then cast_error ("array rank mismatch: expected " ++ pretty expect ++ ", got " ++ pretty got)
    else locals ← st32 locals dst heapIdx; Ok (r, h, locals).

Definition OpCheckArrayType (md : tables) (r : reader) (h : heap) (locals : bytes) : outcome aframe :=
  '(dst, r) ← ReadUint16 r;
  '(src, r) ← ReadUint16 r;
  '(expectIdx, r) ← ReadUint16 r;
  heapIdx ← ld32 locals src;
  if decide (heapIdx = 0) then locals ← st32 locals dst heapIdx; Ok (r, h, locals)
  else
    slot ← check_gate "OP_CheckArrayType" h heapIdx;
    t ← deref (slot !! 1%nat);
    if decide (u16 t = expectIdx) then locals ← st32 locals dst heapIdx; Ok (r, h, locals)
    else
      rk ← deref (slot !! 2%nat);
      match arrayTypes md !!z expectIdx with
      | Some row =>
          if decide (u8 rk ≠ at_rank row)
          then cast_error ("array rank mismatch: expected " ++ pretty (at_rank row) ++ ", got " ++ pretty (u8 rk))
          else cast_error "array element type mismatch"
      | None => cast_error "array element type mismatch"
      end.

(** ** Assembly *)
(** Row dimensions against the ones the first row fixed. *)
Fixpoint check_widths (d : nat) (dims row : list Z) : outcome () :=
  match dims, row with
  | n :: dims, m :: row =>
      if decide (m ≠ n)
      then base_error ("ND initializer widths differ (dim " ++ pretty (S d) ++ ": " ++ pretty n ++ " vs " ++ pretty m ++ ")")
      else check_widths (S d) dims row
  | _, _ => Ok ()
  end.
(** One row: its handle and its dimensions. *)
Definition snapshot_row (h : heap) (locals : bytes) (elemSlotBase : Z) (rank : Z) (i : nat)
    : outcome (Z * list Z) :=
  handle ← ld32 locals (elemSlotBase + Z.of_nat (i * kFrameSlotBytes));
  if decide (handle ≤ 0) then null_array
  else match kind_at h handle with
  | None => null_array
  | Some k =>
      if decide (k ≠ RTK_Array ∧ k ≠ RTK_ArrayView)
      then Raise (RuntimeError "NLang VM: OP_AssembleArrayN expects array rows")
      else
        row ← deref (rec_at h handle);
        rk ← deref (row !! 2%nat);
        if decide (rk ≠ rank - 1) then Raise (RuntimeError "NLang VM: OP_AssembleArrayN row rank mismatch")
        else dims ← cells_at row 4 (Z.to_nat (rank - 1)); Ok (handle, dims)
  end.
(** The row handles and the dimensions under the first. *)
Definition SnapshotAssembleRows (h : heap) (locals : bytes) (elemSlotBase rank : Z) (rowCount : nat)
    : outcome (list Z * list Z) :=
  foldM (λ '(handles, dims) i,
    '(handle, rowDims) ← snapshot_row h locals elemSlotBase rank i;
    match i with
    | O => Ok (handles ++ [handle], rowDims)
    | S _ => _ ← check_widths 0 dims rowDims; Ok (handles ++ [handle], dims)
    end) ([], []) (seq 0 rowCount).

(** One element of a row: its cells, or a deep copy of its struct. *)
Definition copy_element (fuel : nat) (md : tables) (shard : nat) (row : CompiledArrayType) (heapIdx : Z)
    (src : Z) (srcCell : Z) (dstCell : Z) (h : heap) : outcome heap :=
  let cells := ArrayElemCells (elemKind row) in
  payload ← deref (rec_at h src);
  if decide (srcCell < 0) then Raise OutOfBounds
  else if decide (elemKind row = RTK_Struct ∧ elemTypeIdx row ≠ 65535) then
    elemHandle ← deref (payload !! Z.to_nat srcCell);
    '(copyIdx, h) ← DeepCopyStruct fuel md h shard elemHandle (elemTypeIdx row);
    set_cell h heapIdx (Z.to_nat dstCell) copyIdx
  else
    vs ← cells_at payload (Z.to_nat srcCell) (Z.to_nat cells);
    write_cells h heapIdx (Z.to_nat dstCell) vs.
(** The cells of a struct element are single handles, so both arms step by [cells]. *)
Definition CopyAssembleViewRow (fuel : nat) (md : tables) (shard : nat) (row : CompiledArrayType)
    (heapIdx rowSlot rowElems destBase rowOrdinal : Z) (h : heap) : outcome heap :=
  let cells := ArrayElemCells (elemKind row) in
  slot ← deref (rec_at h rowSlot);
  '(owner, srcBase) ← ElementPayloadRecord h rowSlot slot RTK_ArrayView;
  foldM (λ h e,
    view ← deref (rec_at h rowSlot);
    addr ← ViewFlatElementAddress view (Z.of_nat e);
    copy_element fuel md shard row heapIdx owner (srcBase + addr * cells)
      (destBase + (rowOrdinal * rowElems + Z.of_nat e) * cells) h) h (seq 0 (Z.to_nat rowElems)).
Definition CopyAssembleRows (fuel : nat) (md : tables) (shard : nat) (row : CompiledArrayType) (heapIdx : Z)
    (rowHandles : list Z) (h : heap) : outcome heap :=
  let destBase := ArrayHeaderCells (at_rank row) in
  let rowBase := ArrayHeaderCells (at_rank row - 1) in
  let cells := ArrayElemCells (elemKind row) in
  foldM (λ h i,
    rowSlot ← deref (rowHandles !! i);
    rowElems ← get_cell h rowSlot 3;
    k ← deref (kind_at h rowSlot);
    if decide (k = RTK_ArrayView)
    then CopyAssembleViewRow fuel md shard row heapIdx rowSlot rowElems destBase (Z.of_nat i) h
    else
      foldM (λ h e,
        copy_element fuel md shard row heapIdx rowSlot (rowBase + Z.of_nat e * cells)
          (destBase + (Z.of_nat i * rowElems + Z.of_nat e) * cells) h) h (seq 0 (Z.to_nat rowElems)))
    h (seq 0 (length rowHandles)).

Definition OpAssembleArrayN (fuel : nat) (md : tables) (shard : nat) (r : reader) (h : heap) (locals : bytes)
    : outcome aframe :=
  '(dst, r) ← ReadUint16 r;
  '(arrayTypeIdx, r) ← ReadUint16 r;
  '(elemSlotBase, r) ← ReadUint16 r;
  '(rowCount, r) ← ReadUint16 r;
  match arrayTypes md !!z arrayTypeIdx with
  | None => Raise (RuntimeError "NLang VM: OP_AssembleArrayN on invalid array type")
  | Some row =>
      if decide (at_rank row < 2 ∨ kMaxArrayRank < at_rank row ∨ rowCount = 0)
      then Raise (RuntimeError "NLang VM: OP_AssembleArrayN on invalid shape header")
      else
        '(rowHandles, dims) ← SnapshotAssembleRows h locals elemSlotBase (at_rank row) (Z.to_nat rowCount);
        '(heapIdx, h) ← AllocArrayOnHeap fuel md h shard arrayTypeIdx (rowCount :: dims);
        let h := HNoteGcPressure h in
        h ← CopyAssembleRows fuel md shard row heapIdx rowHandles h;
        locals ← st32 locals dst heapIdx;
        Ok (r, h, locals)
  end.
