(* ===== verification/SliceSpec.v ===== *)
(** * Slices against the positions they select

    The theorems about [ArraySlice].  The reference for one axis is the list of positions
    the written parts select ([positions], the enumeration from the normalised start by the
    step); a whole subscript selects base coordinates ([select]), and the view it creates is
    the base restricted to them. *)
From S2P Require Import Prelude Bytecode Prims TypeDesc Shards Strings StringOps Layout Heap HeapGC HeapSweep Arrays ArrayElems ArraySlice.
Open Scope Z_scope.

(** ** One axis *)
(** The written parts of a slice [start:stop:step]. *)
Record parts := Parts { p_start : option Z; p_stop : option Z; p_step : option Z }.
Definition step_of (p : parts) : Z := default 1 (p_step p).
(** A written endpoint counts from the end when negative and is cut to [lo..hi]. *)
Definition clip (v len lo hi : Z) : Z := if decide (v < 0) then Z.max (v + len) lo else Z.min v hi.
Definition start_of (len : Z) (p : parts) : Z :=
  if decide (0 < step_of p) then default 0 ((λ v, clip v len 0 len) <$> p_start p)
  else default (len - 1) ((λ v, clip v len (-1) (len - 1)) <$> p_start p).
Definition stop_of (len : Z) (p : parts) : Z :=
  if decide (0 < step_of p) then default len ((λ v, clip v len 0 len) <$> p_stop p)
  else default (-1) ((λ v, clip v len (-1) (len - 1)) <$> p_stop p).
(** [x] is before [stop] in the direction of [step]. *)
Definition before (stop step x : Z) : Prop := (0 < step ∧ x < stop) ∨ (step < 0 ∧ stop < x).
#[global] Instance before_dec stop step x : Decision (before stop step x).
Proof. unfold before. apply _. Defined.
Fixpoint range (fuel : nat) (start stop step : Z) : list Z :=
  match fuel with
  | O => []
  | S fuel => if decide (before stop step start) then start :: range fuel (start + step) stop step else []
  end.
Definition positions (len : Z) (p : parts) : list Z :=
  range (Z.to_nat (Z.abs (stop_of len p - start_of len p))) (start_of len p) (stop_of len p) (step_of p).

Lemma ClipSliceEndpoint_clip v len pos :
  0 ≤ len → ClipSliceEndpoint v len pos = if pos then clip v len 0 len else clip v len (-1) (len - 1).
Proof.
  intros Hl. unfold ClipSliceEndpoint, clip. destruct (Z.ltb_spec v 0), pos; case_decide; lia.
Qed.
Lemma range_lookup fuel : ∀ start stop step k,
  Z.abs (stop - start) ≤ Z.of_nat fuel →
  range fuel start stop step !! k
  = if decide (before stop step (start + Z.of_nat k * step)) then Some (start + Z.of_nat k * step) else None.
Proof.
  induction fuel as [|fuel IH]; intros start stop step k Hf; cbn [range].
  { rewrite decide_False; [done|]. intros [[? ?]|[? ?]]; nia. }
  destruct (decide (before stop step start)) as [Hb|Hb].
  - destruct k as [|k].
    { rewrite Z.mul_0_l, Z.add_0_r, decide_True by done. done. }
    rewrite lookup_cons_ne_0, Nat.pred_succ by done.
    replace (start + Z.of_nat (S k) * step) with (start + step + Z.of_nat k * step) by lia.
    unfold before in Hb. destruct (decide (Z.abs (stop - (start + step)) ≤ Z.of_nat fuel)) as [Hd|Hd]; [by apply IH|].
    rewrite decide_False by (intros [[? ?]|[? ?]]; lia || nia). apply lookup_ge_None.
    assert (range fuel (start + step) stop step = []) as ->; [|simpl; lia].
    destruct fuel; cbn [range]; [done|]. rewrite decide_False; [done|]. unfold before. lia.
  - rewrite lookup_nil, decide_False; [done|]. intros [[? ?]|[? ?]]; apply Hb; [left|right]; nia.
Qed.
Lemma positions_lookup len p k :
  positions len p !! k
  = if decide (before (stop_of len p) (step_of p) (start_of len p + Z.of_nat k * step_of p))
    then Some (start_of len p + Z.of_nat k * step_of p) else None.
Proof. apply range_lookup. lia. Qed.
Lemma start_stop_range len p :
  0 ≤ len → -1 ≤ start_of len p ≤ len ∧ -1 ≤ stop_of len p ≤ len
  ∧ (0 < step_of p → 0 ≤ start_of len p ∧ 0 ≤ stop_of len p)
  ∧ (¬ 0 < step_of p → start_of len p ≤ len - 1 ∧ stop_of len p ≤ len - 1).
Proof.
  intros Hl. unfold start_of, stop_of, clip.
  destruct p as [[a|] [b|] [c|]]; cbn; repeat case_decide; lia.
Qed.
(** Every selected position is an index of the axis. *)
Lemma positions_bound len p k x : 0 ≤ len → positions len p !! k = Some x → 0 ≤ x < len.
Proof.
  intros Hl. rewrite positions_lookup. case_decide as Hb; [|done]. intros [= <-].
  pose proof (start_stop_range len p Hl) as (? & ? & Hp & Hn). unfold before in Hb.
  destruct Hb as [[Hs Hb]|[Hs Hb]]; [destruct (Hp Hs)|destruct (Hn ltac:(lia))]; nia.
Qed.
Lemma length_by_lookup {A} (l : list A) (n : nat) : (∀ k, (k < n)%nat ↔ is_Some (l !! k)) → length l = n.
Proof.
  intros H. destruct (lt_eq_lt_dec (length l) n) as [[Hn| ]|Hn]; [|done|].
  - apply H, lookup_lt_is_Some in Hn. lia.
  - apply lookup_lt_is_Some, H in Hn. lia.
Qed.
Lemma ceil_lt k a b : 0 ≤ k → 0 < a → 0 < b → k < (a + b - 1) / b ↔ k * b < a.
Proof.
  intros Hk Ha Hb. pose proof (Z.div_mod (a + b - 1) b). pose proof (Z.mod_pos_bound (a + b - 1) b Hb). nia.
Qed.

(** The 32-bit count is exact as long as the span plus the step fits. *)
Lemma slice_count_positions len p :
  0 ≤ len → step_of p ≠ 0 → len + Z.abs (step_of p) ≤ INT32_MAX →
  slice_count (start_of len p) (stop_of len p) (step_of p) = Ok (Z.of_nat (length (positions len p))).
Proof.
  intros Hl H0 Hf. pose proof (start_stop_range len p Hl) as (? & ? & Hp & Hn). unfold INT32_MAX in Hf.
  assert (∀ z, 0 ≤ z < 2147483648 → checked z = Ok z) as Hck.
  { intros z Hz. unfold checked. rewrite decide_True; [done|]. unfold is_sint. lia. }
  set (s := start_of len p) in *. set (e := stop_of len p) in *. set (d := step_of p) in *.
  assert (∀ n, 0 ≤ n → (∀ k, 0 ≤ k → k < n ↔ before e d (s + k * d)) → Z.of_nat (length (positions len p)) = n) as Hlen.
  { intros n Hn0 Hk. rewrite (length_by_lookup _ (Z.to_nat n)); [lia|]. intros k. rewrite positions_lookup.
    fold s e d. specialize (Hk (Z.of_nat k) ltac:(lia)). case_decide as Hb; split; try (intros [? ?]; done).
    - intros _. done.
    - intros _. apply Hk in Hb. lia.
    - intros Hkn. exfalso. apply Hb, Hk. lia. }
  unfold slice_count. case_decide as C1; [|case_decide as C2].
  - destruct C1 as [Hd Hs]. specialize (Hp Hd). repeat (rewrite Hck by lia; rewrite bindE).
    rewrite Z.quot_div_nonneg, (Hlen ((e - s + d - 1) / d)); [done| | |lia..].
    { apply Z.div_pos; lia. }
    intros k Hk. rewrite ceil_lt by lia. unfold before. nia.
  - destruct C2 as [Hd Hs]. specialize (Hn Hd). rewrite (Hck (- d)) by lia. repeat (rewrite Hck by lia; rewrite bindE). rewrite ?bindE.
    rewrite Z.quot_div_nonneg, (Hlen ((s - e - d - 1) / - d)); [done| | |lia..].
    { apply Z.div_pos; lia. }
    intros k Hk. replace (s - e - d - 1) with (s - e + - d - 1) by lia. rewrite ceil_lt by lia. unfold before. nia.
  - rewrite (Hlen 0); [done|lia|]. intros k Hk. unfold before. nia.
Qed.

(** ** The staged parameters of one axis *)
(** One axis of a subscript, as the compiler stages it: values and presence bits. *)
Inductive subscript :=
| Index (i : Z)
| Slice (p : parts).
Definition bit (b : option Z) (mask : Z) : Z := match b with Some _ => mask | None => 0 end.
Definition bits_of (sub : subscript) : Z :=
  match sub with
  | Index _ => kSliceBitScalar
  | Slice p => bit (p_start p) kSliceBitStart + bit (p_stop p) kSliceBitStop + bit (p_step p) kSliceBitStep
  end.
Definition values (locals : bytes) (paramsBase axis : Z) (p : parts) : Prop :=
  (∀ v, p_start p = Some v → ReadSliceParam locals paramsBase (3 * axis) = Ok v)
  ∧ (∀ v, p_stop p = Some v → ReadSliceParam locals paramsBase (3 * axis + 1) = Ok v)
  ∧ (∀ v, p_step p = Some v → ReadSliceParam locals paramsBase (3 * axis + 2) = Ok v).
Definition staged (locals : bytes) (paramsBase rank axis : Z) (sub : subscript) : Prop :=
  SliceAxisBits locals paramsBase rank axis = Ok (bits_of sub)
  ∧ match sub with
    | Index i => ReadSliceParam locals paramsBase (3 * axis) = Ok i
    | Slice p => values locals paramsBase axis p
    end.

Lemma has_bits p :
  has (bits_of (Slice p)) kSliceBitStart = bool_decide (is_Some (p_start p))
  ∧ has (bits_of (Slice p)) kSliceBitStop = bool_decide (is_Some (p_stop p))
  ∧ has (bits_of (Slice p)) kSliceBitStep = bool_decide (is_Some (p_step p))
  ∧ has (bits_of (Slice p)) kSliceBitScalar = false.
Proof. by destruct p as [[a|] [b|] [c|]]. Qed.
Definition rejected (o : option Z) : Prop := o = Some kSliceDefaultSentinel.
#[global] Instance rejected_dec o : Decision (rejected o).
Proof. unfold rejected. apply _. Defined.
(** A written endpoint: rejected, or clipped; the default otherwise. *)
Lemma endpoint_read locals pb idx len pos (o : option Z) dflt b :
  0 ≤ len → b = bool_decide (is_Some o) → (∀ v, o = Some v → ReadSliceParam locals pb idx = Ok v) →
  (if b then v ← written locals pb idx; Ok (ClipSliceEndpoint v len pos) else Ok dflt)
  = if decide (rejected o) then base_error "slice endpoint/step out of range"
    else Ok (default dflt ((λ v, if pos then clip v len 0 len else clip v len (-1) (len - 1)) <$> o)).
Proof.
  intros Hl -> Hv. unfold rejected. destruct o as [v|]; simpl.
  - unfold written. rewrite (Hv v), bindE by done. case_decide as E.
    + subst. by rewrite decide_True.
    + rewrite decide_False by congruence. by rewrite bindE, ClipSliceEndpoint_clip.
  - done.
Qed.

Lemma FoldOneSliceAxis_aux locals pb axis len stride p nd ns off :
  0 ≤ len → values locals pb axis p → (¬ rejected (p_step p) → len + Z.abs (step_of p) ≤ INT32_MAX) →
  FoldOneSliceAxis locals pb axis (bits_of (Slice p)) len stride (nd, ns, off)
  = if decide (rejected (p_step p)) then base_error "slice endpoint/step out of range"
    else if decide (step_of p = 0) then base_error "slice step cannot be zero"
    else if decide (rejected (p_start p) ∨ rejected (p_stop p)) then base_error "slice endpoint/step out of range"
    else
      let count := Z.of_nat (length (positions len p)) in
      if decide (1 < count ∧ ¬ is_sint 32 (stride * step_of p))
      then oob "view range exceeds the target array bounds"
      else Ok (nd ++ [count], ns ++ [SliceAxisStride (stride * step_of p)], i64 (off + start_of len p * stride)).
Proof.
  intros Hl (V1 & V2 & V3) Hf. unfold FoldOneSliceAxis. destruct (has_bits p) as (B1 & B2 & B3 & _).
  assert ((if has (bits_of (Slice p)) kSliceBitStep then
            v ← written locals pb (3 * axis + 2);
            if decide (v = 0) then base_error "slice step cannot be zero" else Ok v else Ok 1)
    = if decide (rejected (p_step p)) then base_error "slice endpoint/step out of range"
      else if decide (step_of p = 0) then base_error "slice step cannot be zero" else Ok (step_of p)) as ->.
  { rewrite B3. unfold rejected, step_of. destruct (p_step p) as [v|] eqn:E; [|done].
    rewrite bool_decide_eq_true_2 by done. unfold written. rewrite (V3 v eq_refl), bindE. simpl.
    destruct (decide (v = kSliceDefaultSentinel)) as [->|]; [by rewrite decide_True|].
    by rewrite decide_False, bindE by congruence. }
  case_decide as R3; [done|]. specialize (Hf R3). case_decide as R0; [done|]. rewrite bindE.
  rewrite (endpoint_read locals pb (3 * axis) len _ (p_start p)), (endpoint_read locals pb (3 * axis + 1) len _ (p_stop p)) by done.
  destruct (decide (rejected (p_start p))) as [R1|R1]; [by rewrite (decide_True (P := _ ∨ _)) by tauto|]. rewrite bindE.
  destruct (decide (rejected (p_stop p))) as [R2|R2]; [by rewrite (decide_True (P := _ ∨ _)) by tauto|]. rewrite bindE.
  rewrite (decide_False (P := _ ∨ _)) by tauto.
  pose proof (slice_count_positions len p Hl R0 Hf) as Hc. unfold start_of, stop_of in Hc |- *.
  destruct (decide (0 < step_of p)) as [Hs|Hs].
  all: [> rewrite bool_decide_eq_true_2 by done | rewrite bool_decide_eq_false_2 by done ].
  all: rewrite Hc, bindE; cbn zeta; case_decide as C1; case_decide as C2; try done; exfalso.
  all: unfold is_sint, INT32_MAX, INT32_MIN in *; lia.
Qed.

(** One slice axis of a subscript selects exactly the positions of the reference
    enumeration: the kept dimension is their number, the kept stride is the step in owner
    units and the offset moves to the first one.  A written endpoint or step with the
    sentinel value, a zero step, and a stride that does not fit its cell on an axis with at
    least two positions raise, in this order. *)
Theorem FoldOneSliceAxis_spec locals pb axis len stride p nd ns off :
  0 ≤ len → values locals pb axis p → (¬ rejected (p_step p) → len + Z.abs (step_of p) ≤ INT32_MAX) →
  FoldOneSliceAxis locals pb axis (bits_of (Slice p)) len stride (nd, ns, off)
  = if decide (rejected (p_step p)) then base_error "slice endpoint/step out of range"
    else if decide (step_of p = 0) then base_error "slice step cannot be zero"
    else if decide (rejected (p_start p) ∨ rejected (p_stop p)) then base_error "slice endpoint/step out of range"
    else
      let count := Z.of_nat (length (positions len p)) in
      if decide (1 < count ∧ ¬ is_sint 32 (stride * step_of p))
      then oob "view range exceeds the target array bounds"
      else Ok (nd ++ [count], ns ++ [SliceAxisStride (stride * step_of p)], i64 (off + start_of len p * stride)).
Proof. apply FoldOneSliceAxis_aux. Qed.

(** ** A whole subscript *)
Definition count_of (len : Z) (p : parts) : Z := Z.of_nat (length (positions len p)).
Fixpoint view_dims (subs : list subscript) (dims : list Z) : list Z :=
  match subs, dims with
  | Index _ :: subs, _ :: dims => view_dims subs dims
  | Slice p :: subs, len :: dims => count_of len p :: view_dims subs dims
  | _, _ => []
  end.
Fixpoint view_strides (subs : list subscript) (strides : list Z) : list Z :=
  match subs, strides with
  | Index _ :: subs, _ :: strides => view_strides subs strides
  | Slice p :: subs, s :: strides => SliceAxisStride (s * step_of p) :: view_strides subs strides
  | _, _ => []
  end.
Fixpoint view_off (off : Z) (subs : list subscript) (dims strides : list Z) : Z :=
  match subs, dims, strides with
  | Index i :: subs, _ :: dims, s :: strides => view_off (off + i * s) subs dims strides
  | Slice p :: subs, len :: dims, s :: strides => view_off (off + start_of len p * s) subs dims strides
  | _, _, _ => off
  end.
(** The base coordinates of a view coordinate. *)
Fixpoint select (subs : list subscript) (dims vidx : list Z) : list Z :=
  match subs, dims with
  | Index i :: subs, _ :: dims => i :: select subs dims vidx
  | Slice p :: subs, len :: dims =>
      match vidx with
      | k :: vidx => nth (Z.to_nat k) (positions len p) 0 :: select subs dims vidx
      | [] => []
      end
  | _, _ => []
  end.
(** What one axis of a legal subscript satisfies. *)
Definition legal (sub : subscript) (len stride : Z) : Prop :=
  match sub with
  | Index i => 0 ≤ i < len
  | Slice p => ¬ rejected (p_start p) ∧ ¬ rejected (p_stop p) ∧ ¬ rejected (p_step p)
      ∧ step_of p ≠ 0 ∧ len + Z.abs (step_of p) ≤ INT32_MAX
      ∧ (1 < count_of len p → is_sint 32 (stride * step_of p))
  end.
Fixpoint legals (subs : list subscript) (dims strides : list Z) : Prop :=
  match subs, dims, strides with
  | [], [], [] => True
  | sub :: subs, len :: dims, stride :: strides => legal sub len stride ∧ legals subs dims strides
  | _, _, _ => False
  end.
Fixpoint all_staged (locals : bytes) (paramsBase rank axis : Z) (subs : list subscript) : Prop :=
  match subs with
  | [] => True
  | sub :: subs => staged locals paramsBase rank axis sub ∧ all_staged locals paramsBase rank (axis + 1) subs
  end.

Lemma nth_positions len p k :
  0 ≤ k < count_of len p →
  nth (Z.to_nat k) (positions len p) 0 = start_of len p + k * step_of p
  ∧ positions len p !! Z.to_nat k = Some (start_of len p + k * step_of p).
Proof.
  intros Hk. unfold count_of in Hk.
  destruct (lookup_lt_is_Some_2 (positions len p) (Z.to_nat k)) as [x Hx]; [lia|].
  rewrite (nth_lookup_Some _ _ _ _ Hx), Hx. rewrite positions_lookup, Z2Nat.id in Hx by lia. case_decide; [|done].
  by injection Hx as <-.
Qed.
Lemma count_of_le len p : 0 ≤ len → step_of p ≠ 0 → 0 ≤ count_of len p ≤ len.
Proof.
  intros Hl H0. assert (0 ≤ count_of len p) by (unfold count_of; lia). split; [done|].
  destruct (decide (1 ≤ count_of len p)) as [Hc|]; [|lia].
  destruct (nth_positions len p 0) as [_ H1]; [lia|]. apply positions_bound in H1; [|done].
  destruct (nth_positions len p (count_of len p - 1)) as [_ H2]; [lia|]. apply positions_bound in H2; [|done]. nia.
Qed.
Lemma SliceAxisStride_sint z : is_sint 32 (SliceAxisStride z) ∧ (is_sint 32 z → SliceAxisStride z = z).
Proof.
  unfold SliceAxisStride, is_sint, INT32_MAX, INT32_MIN.
  destruct (Z.ltb_spec 2147483647 z), (Z.ltb_spec z (-2147483648)); cbn; lia.
Qed.

(** *** The fold over the axes *)
Definition extent (dims : list Z) : Z := foldr Z.add 0 dims.
Lemma legal_first sub len stride :
  1 ≤ len → legal sub len stride →
  match sub with Index i => -1 ≤ i ≤ len | Slice p => -1 ≤ start_of len p ≤ len end.
Proof. destruct sub as [i|p]; simpl; [lia|]. intros Hl _. apply start_stop_range. lia. Qed.
Lemma fold_axis_ok locals pb rank axis len stride sub nd ns off :
  staged locals pb rank axis sub → 1 ≤ len → legal sub len stride → is_sint 64 off →
  is_sint 64 (view_off off [sub] [len] [stride]) →
  fold_axis locals pb rank axis len stride (nd, ns, off)
  = Ok (nd ++ view_dims [sub] [len], ns ++ view_strides [sub] [stride], view_off off [sub] [len] [stride]).
Proof.
  intros [Hb Hv] Hl Hleg _ Ho. unfold fold_axis. rewrite Hb, bindE. destruct sub as [i|p]; cbn in Ho.
  - change (has (bits_of (Index i)) kSliceBitScalar) with true. cbv iota. cbn in Hleg.
    rewrite Hv, bindE, decide_False by lia. cbn [view_dims view_strides view_off]. rewrite !app_nil_r.
    by rewrite (swrap_small 64).
  - destruct (has_bits p) as (_ & _ & _ & ->). destruct Hleg as (R1 & R2 & R3 & H0 & Hf & Hs).
    rewrite FoldOneSliceAxis_aux by (done || lia). unfold count_of in Hs. cbn zeta.
    rewrite !decide_False by tauto. cbn [view_dims view_strides view_off].
    by rewrite (swrap_small 64).
Qed.
Lemma fold_axes_ok locals pb rank subs : ∀ axis dims strides nd ns off k,
  all_staged locals pb rank axis subs → Forall (λ d, 1 ≤ d) dims → Forall (is_sint 32) strides →
  legals subs dims strides →
  0 ≤ k → k + extent dims ≤ 2 * kMaxArrayElems → - 2 ^ 31 * (1 + k) ≤ off ≤ 2 ^ 31 * (1 + k) →
  fold_axes locals pb rank axis dims strides (nd, ns, off)
  = Ok (nd ++ view_dims subs dims, ns ++ view_strides subs strides, view_off off subs dims strides).
Proof.
  induction subs as [|sub subs IH]; intros axis [|len dims] [|stride strides] nd ns off k Hst Hd Hs Hleg Hk Hx Ho; try done.
  { cbn. by rewrite !app_nil_r. }
  apply Forall_cons_1 in Hd as [Hd1 Hd], Hs as [Hs1 Hs]. destruct Hst as [Hst1 Hst], Hleg as [Hl1 Hleg].
  assert (0 ≤ extent dims) by (clear -Hd; induction Hd; unfold extent in *; simpl; lia).
  change (extent (len :: dims)) with (len + extent dims) in Hx.
  assert (- 2 ^ 31 * (1 + (k + len)) ≤ view_off off [sub] [len] [stride] ≤ 2 ^ 31 * (1 + (k + len))) as Ho1.
  { unfold is_sint in Hs1. change (2 ^ (32 - 1)) with (2 ^ 31) in Hs1.
    pose proof (legal_first sub len stride Hd1 Hl1).
    assert (∀ x, -1 ≤ x ≤ len → - 2 ^ 31 * len ≤ x * stride ≤ 2 ^ 31 * len) as Hm.
    { intros x Hx'. assert (Z.abs (x * stride) ≤ len * 2 ^ 31); [|lia]. rewrite Z.abs_mul. apply Z.mul_le_mono_nonneg; lia. }
    destruct sub as [i|p]; cbn [view_off]; [pose proof (Hm i)|pose proof (Hm (start_of len p))]; lia. }
  unfold kMaxArrayElems in *. cbn [fold_axes].
  rewrite (fold_axis_ok locals pb rank axis len stride sub), bindE by (done || (unfold is_sint; lia)).
  rewrite (IH (axis + 1) dims strides _ _ _ (k + len)) by (done || lia).
  destruct sub; cbn [view_dims view_strides view_off]; by rewrite <- ?app_assoc, ?app_nil_r.
Qed.

Lemma view_off_shift subs : ∀ o c dims strides, view_off (o + c) subs dims strides = view_off o subs dims strides + c.
Proof.
  induction subs as [|[i|p] subs IH]; intros o c [|len dims] [|s strides]; try done; cbn [view_off].
  - replace (o + c + i * s) with (o + i * s + c) by lia. apply IH.
  - replace (o + c + start_of len p * s) with (o + start_of len p * s + c) by lia. apply IH.
Qed.
(** A view coordinate reaches the base element its selection names. *)
Lemma select_addr subs : ∀ dims strides vidx off,
  Forall (λ d, 1 ≤ d) dims → legals subs dims strides → in_bounds vidx (view_dims subs dims) →
  in_bounds (select subs dims vidx) dims
  ∧ addr (view_off off subs dims strides) vidx (view_strides subs strides) = addr off (select subs dims vidx) strides.
Proof.
  induction subs as [|sub subs IH]; intros [|len dims] [|stride strides] vidx off Hd Hleg Hb; try done.
  { cbn in *. inversion Hb; subst. split; [constructor|done]. }
  apply Forall_cons_1 in Hd as [Hd1 Hd]. destruct Hleg as [Hl1 Hleg].
  destruct sub as [i|p]; cbn [view_dims view_strides view_off select addr] in *.
  - destruct (IH dims strides vidx (off + i * stride) Hd Hleg Hb) as [H1 H2].
    split; [constructor; [exact Hl1|done]|exact H2].
  - inversion Hb as [|k n vidx' nds Hk Hb']; subst. cbn [addr].
    destruct (nth_positions len p k Hk) as [Hn Hpos]. rewrite Hn. apply positions_bound in Hpos; [|lia].
    destruct (IH dims strides vidx' (off + (start_of len p + k * step_of p) * stride) Hd Hleg Hb') as [H1 H2].
    split; [constructor; [exact Hpos|exact H1]|]. rewrite <- H2. f_equal. rewrite <- view_off_shift. f_equal.
    destruct Hl1 as (_ & _ & _ & _ & _ & Hs). destruct (SliceAxisStride_sint (stride * step_of p)) as [_ Hsas].
    destruct (decide (k = 0)) as [->|]; [lia|]. rewrite Hsas by (apply Hs; lia). lia.
Qed.

(** *** The shape of the view *)
Lemma view_dims_le subs : ∀ dims strides,
  Forall (λ d, 1 ≤ d) dims → legals subs dims strides →
  Forall (λ d, 0 ≤ d) (view_dims subs dims) ∧ (length (view_dims subs dims) ≤ length dims)%nat
  ∧ product (Z.max 1 <$> view_dims subs dims) ≤ product dims.
Proof.
  induction subs as [|sub subs IH]; intros [|len dims] [|stride strides] Hd Hleg; try done.
  apply Forall_cons_1 in Hd as [Hd1 Hd]. destruct Hleg as [Hl1 Hleg].
  destruct (IH dims strides Hd Hleg) as (H1 & H2 & H3). pose proof (product_pos dims Hd).
  destruct sub as [i|p]; cbn [view_dims length fmap list_fmap]; rewrite ?product_cons.
  - split_and!; [done|lia|nia].
  - destruct Hl1 as (_ & _ & _ & H0 & _). destruct (count_of_le len p) as [Hc1 Hc2]; [lia|done|].
    split_and!; [by constructor|lia|]. apply Z.mul_le_mono_nonneg; try lia.
    transitivity 1; [lia|]. apply product_pos, Forall_fmap, Forall_true. simpl. lia.
Qed.
Lemma length_view_strides subs : ∀ dims strides,
  legals subs dims strides →
  length (view_strides subs strides) = length (view_dims subs dims) ∧ Forall (is_sint 32) (view_strides subs strides).
Proof.
  induction subs as [|sub subs IH]; intros [|len dims] [|stride strides] Hleg; try done.
  destruct Hleg as [_ Hleg]. destruct (IH dims strides Hleg) as [H1 H2].
  destruct sub as [i|p]; cbn [view_dims view_strides length]; [done|]. split; [lia|].
  constructor; [apply SliceAxisStride_sint|done].
Qed.
Lemma ValidateArrayDims_nonneg dims : ∀ acc,
  Forall (λ d, 0 ≤ d) dims → 0 ≤ acc → Z.max 1 acc * product (Z.max 1 <$> dims) ≤ kMaxArrayElems →
  foldM (λ elemCount d,
    if decide (d < 0 ∨ kMaxArrayElems < d) then length_error
    else let elemCount := i64 (elemCount * d) in
         if decide (kMaxArrayElems < elemCount) then length_error else Ok elemCount) acc dims
  = Ok (acc * product dims).
Proof.
  induction dims as [|d dims IH]; intros acc Hd Ha Hp.
  { cbn. f_equal. unfold product. simpl. lia. }
  apply Forall_cons_1 in Hd as [Hd1 Hd]. cbn [fmap list_fmap] in Hp. rewrite product_cons in Hp |- *.
  assert (1 ≤ product (Z.max 1 <$> dims)) as Hq by (apply product_pos, Forall_fmap, Forall_true; simpl; lia).
  unfold kMaxArrayElems in *. cbn [foldM].
  assert (Z.max 1 acc * Z.max 1 d ≤ 100 * 1000 * 1000) by nia.
  assert (d ≤ 100 * 1000 * 1000) by nia. assert (0 ≤ acc * d ≤ 100 * 1000 * 1000) by nia.
  rewrite decide_False by lia. rewrite (swrap_small 64) by (unfold is_sint; lia). cbn zeta.
  rewrite decide_False, bindE by lia. rewrite IH; [f_equal; lia|done|lia|].
  transitivity (Z.max 1 acc * (Z.max 1 d * product (Z.max 1 <$> dims))); [|lia]. rewrite Z.mul_assoc.
  apply Z.mul_le_mono_nonneg_r; nia.
Qed.
Lemma zero_product dims : Forall (λ d, 0 ≤ d) dims → ¬ Forall (λ d, 1 ≤ d) dims → product dims = 0.
Proof.
  induction 1 as [|d dims Hd Hds IH]; intros Hn; [by destruct Hn|]. rewrite product_cons.
  destruct (decide (d = 0)) as [->|]; [done|]. rewrite IH; [lia|]. intros H. apply Hn. constructor; [lia|done].
Qed.
(** An empty view skips the coverage check. *)
Lemma ValidateViewCreation_empty md h t dims strides off target dims0 strides0 off0 o base cells count row :
  array_ref md h target dims0 strides0 off0 o base cells count → elem_row md h o row →
  (1 ≤ length dims)%nat → Z.of_nat (length dims) ≤ kMaxArrayRank → ValidateArrayDims dims = Ok 0 →
  (∃ caller, arrayTypes md !!z t = Some caller ∧ at_rank caller = Z.of_nat (length dims)
     ∧ elemKind caller = elemKind row ∧ elemTypeIdx caller = elemTypeIdx row) →
  ValidateViewCreation md h t dims strides off target = Ok (o, 0).
Proof.
  intros R (slot & to & Hslot & Hto & Hrow) Hr1 Hr2 Hv (caller & Hc & C1 & C2 & C3).
  unfold ValidateViewCreation. cbn zeta. rewrite Hc.
  pose proof (view_peel _ _ _ _ _ _ _ _ _ _ R) as (k & Hk & Hpeel).
  pose proof R as [Hpos _ _ _ _ _ _ (_ & _ & _ & Hko & _)].
  rewrite decide_False by lia. rewrite Hk, decide_False, Hpeel, bindE by lia.
  rewrite decide_False by (rewrite Hko; intros Hn; by apply Hn). rewrite Hv, bindE.
  unfold ValidateViewTypeMatch, get_cell. rewrite Hc, derefE, bindE, Hslot, derefE, !bindE.
  rewrite Hto, !derefE, !bindE, Hrow, derefE, bindE, C1, C2, C3.
  rewrite (decide_False (P := _ ∨ _)) by tauto. by rewrite bindE, decide_False, bindE by lia.
Qed.

(** *** The opcode *)
Lemma FoldSliceAxes_read kind i slot dims strides off o md cells locals pb :
  header md slot dims cells → mapping kind i slot dims strides off o →
  Z.of_nat (length dims) ≤ kMaxArrayRank → Forall (λ d, 1 ≤ d) dims → product dims ≤ kMaxArrayElems →
  FoldSliceAxes (length dims) pb locals kind slot
  = fold_axes locals pb (Z.of_nat (length dims)) 0 dims strides ([], [], off).
Proof.
  intros (_ & Hd & _) Hm Hr H1 Hp. unfold FoldSliceAxes, cells_at. rewrite Hd, derefE, !bindE.
  destruct Hm as [(-> & _ & -> & ->)|(-> & Hs & Ho & _)].
  - rewrite decide_False by done. rewrite rowMajor_spec by done. by rewrite !bindE.
  - rewrite decide_True, rank_u8 by done. unfold ArrayViewStridesBase, ArrayViewOffsetCell.
    replace (Z.to_nat (4 + Z.of_nat (length dims))) with (4 + length dims)%nat by lia.
    replace (Z.to_nat (4 + 2 * Z.of_nat (length dims))) with (4 + 2 * length dims)%nat by lia.
    by rewrite Hs, Ho, !derefE, !bindE.
Qed.
Lemma extent_spread dims : extent dims = spread dims + Z.of_nat (length dims).
Proof. unfold extent, spread. induction dims as [|d dims IH]; simpl; [done|]. rewrite IH. lia. Qed.

(** The type row of a view of [n] dimensions over elements of [row]. *)
Definition view_row (md : tables) (t : Z) (n : nat) (row : CompiledArrayType) : Prop :=
  ∃ caller, arrayTypes md !!z t = Some caller ∧ at_rank caller = Z.of_nat n
    ∧ elemKind caller = elemKind row ∧ elemTypeIdx caller = elemTypeIdx row.
(** Record [i] is the view the subscript selects. *)
Definition sliced (md : tables) (h h' : heap) (i : Z) (subs : list subscript)
    (dims strides : list Z) (off o base cells count : Z) : Prop :=
  let vd := view_dims subs dims in
  Forall (λ d, 1 ≤ d) vd →
  ∃ voff, array_ref md h' i vd (view_strides subs strides) voff o base cells count
    ∧ ∀ vidx, in_bounds vidx vd →
        in_bounds (select subs dims vidx) dims
        ∧ elem h' o base cells (addr voff vidx (view_strides subs strides))
          = elem h o base cells (addr off (select subs dims vidx) strides).

Lemma view_off_inside md h a subs dims strides off o base cells count :
  array_ref md h a dims strides off o base cells count → legals subs dims strides →
  Forall (λ d, 1 ≤ d) (view_dims subs dims) → 0 ≤ view_off off subs dims strides < count.
Proof.
  intros R Hleg Hvd. destruct (addr_lo (view_dims subs dims) (replicate (length (view_dims subs dims)) 0)
    (view_off off subs dims strides)) as (vidx & Hb & _); [by rewrite length_replicate|done|].
  assert (in_bounds (replicate (length (view_dims subs dims)) 0) (view_dims subs dims)) as Hz.
  { clear -Hvd. induction Hvd; simpl; constructor; [lia|done]. }
  destruct (select_addr subs dims strides _ off (ar_dims _ _ _ _ _ _ _ _ _ _ R) Hleg Hz) as [H1 H2].
  pose proof (ar_inside _ _ _ _ _ _ _ _ _ _ R _ H1) as H3. rewrite <- H2 in H3.
  assert (∀ n o l, addr o (replicate n 0) l = o) as Ha; [|by rewrite Ha in H3].
  clear. induction n as [|n IH]; intros o [|s l]; simpl; try done. rewrite IH. lia.
Qed.
Lemma sliced_alloc md h shard t a subs dims strides off o base cells count row :
  heap_ok h → (shard < length (m_heapShards h))%nat →
  array_ref md h a dims strides off o base cells count → elem_row md h o row → count ≤ kMaxArrayElems →
  is_uint 16 t → view_row md t (length (view_dims subs dims)) row →
  legals subs dims strides → view_dims subs dims ≠ [] →
  ∃ i h', AllocViewOnHeap md h shard t (view_dims subs dims) (view_strides subs strides)
            (i32 (view_off off subs dims strides)) a = Ok (i, h')
    ∧ fresh h i (view_record t (product (view_dims subs dims)) (view_dims subs dims) (view_strides subs strides)
        (i32 (view_off off subs dims strides)) o) RTK_ArrayView h'
    ∧ sliced md h h' i subs dims strides off o base cells count.
Proof.
  intros Hok Hsh R Hrow Hcap Ht Hvr Hleg Hne. pose proof R as [_ [_ Hrk] Hd Hp _ _ _ Hown].
  destruct (view_dims_le subs dims strides Hd Hleg) as (Hv0 & Hvl & Hvp).
  destruct (length_view_strides subs dims strides Hleg) as [Hsl Hss]. set (vd := view_dims subs dims) in *.
  set (vo := view_off off subs dims strides).
  assert (1 ≤ length vd)%nat as Hv1 by (destruct vd; [done|simpl; lia]).
  destruct (decide (Forall (λ d, 1 ≤ d) vd)) as [Hvd|Hvd].
  - pose proof (view_off_inside _ _ _ _ _ _ _ _ _ _ _ R Hleg Hvd) as Hvo. fold vo in Hvo. unfold kMaxArrayElems in *.
    assert (is_sint 32 vo) as Hsi by (unfold is_sint; lia). rewrite (swrap_small 32) by done.
    assert (product vd ≤ product dims) as Hpv.
    { replace (Z.max 1 <$> vd) with vd in Hvp; [done|]. clear -Hvd. induction Hvd; simpl; [done|]. f_equal; [lia|done]. }
    assert (view_ok md t vd (view_strides subs strides) vo count row) as Hvw.
    { split_and!; [lia|lia|unfold kMaxArrayElems; lia|done|]. intros vidx Hb.
      destruct (select_addr subs dims strides vidx off Hd Hleg Hb) as [H1 H2].
      fold vo in H2. rewrite H2. by apply R. }
    destruct (ValidateViewCreation_aux md h t vd (view_strides subs strides) vo a _ _ _ _ _ _ _ _ R Hrow Hvd Hsl Hss Hsi) as [V _].
    destruct (AllocViewOnHeap_aux md h shard t vd (view_strides subs strides) vo a _ _ _ _ _ _ _ _ Hok Hsh R Hrow Ht Hvd Hsl Hss Hsi) as [A _].
    destruct (AllocView_build md h shard t vd _ vo a o _ Hok Hsh Hsl (V Hvw)) as (i & h' & E & F).
    destruct (A Hvw) as (i' & h'' & E' & _ & Hx & _ & _ & R'). rewrite E in E'. injection E' as <- <-.
    exists i, h'. split_and!; [done|done|]. intros _. exists vo. split; [done|]. intros vidx Hb.
    destruct (select_addr subs dims strides vidx off Hd Hleg Hb) as [H1 H2]. split; [done|]. fold vo in H2. rewrite H2.
    unfold elem. by destruct (Hx o (hlive_owner _ _ _ _ _ _ Hown)) as (-> & _).
  - assert (product vd = 0) as Hp0 by (by apply zero_product).
    assert (ValidateArrayDims vd = Ok 0) as Hva.
    { unfold ValidateArrayDims. rewrite ValidateArrayDims_nonneg by (done || (change (Z.max 1 1) with 1; lia)). by rewrite Hp0. }
    pose proof (ValidateViewCreation_empty md h t vd (view_strides subs strides) (i32 vo) a _ _ _ _ _ _ _ _ R Hrow Hv1
      ltac:(lia) Hva Hvr) as V.
    destruct (AllocView_build md h shard t vd _ (i32 vo) a o _ Hok Hsh Hsl V) as (i & h' & E & F).
    exists i, h'. rewrite Hp0. split_and!; [done|done|]. intros Hn. by destruct Hvd.
Qed.

(** C25: A legal slice subscript of a non-empty array or view creates one fresh record, the
    view it selects: every view coordinate reads the base element at the coordinates the
    subscript names (the written index, or the k-th position of the slice, whatever the
    signs), an empty selection yields a view without elements, and no live record changes.
    The base may itself be a view; the new view always targets the owning array. *)
Theorem OpMakeArrayView_spec md shard h r r' locals dst arr t pb a subs dims strides off o base cells count row :
  heap_ok h → (shard < length (m_heapShards h))%nat →
  array_ref md h a dims strides off o base cells count → elem_row md h o row → count ≤ kMaxArrayElems →
  operands r [dst; arr; t; Z.of_nat (length dims); pb] r' → ld32 locals arr = Ok a →
  is_uint 16 t → view_row md t (length (view_dims subs dims)) row →
  all_staged locals pb (Z.of_nat (length dims)) 0 subs → legals subs dims strides → view_dims subs dims ≠ [] →
  ∃ i h', OpMakeArrayView md shard r h locals = (locals' ← st32 locals dst i; Ok (r', h', locals'))
    ∧ heap_ok h' ∧ hextends h h' ∧ ¬ hlive h i
    ∧ (∃ voff, rec_at h' i = Some (view_record t (product (view_dims subs dims)) (view_dims subs dims)
                                     (view_strides subs strides) voff o))
    ∧ sliced md h h' i subs dims strides off o base cells count.
Proof.
  intros Hok Hsh R Hrow Hcap (r1 & E1 & r2 & E2 & r3 & E3 & r4 & E4 & r5 & E5 & ->) Ha Ht Hvr Hst Hleg Hne.
  destruct (sliced_alloc md h shard t a subs dims strides off o base cells count row Hok Hsh R Hrow Hcap Ht Hvr Hleg Hne)
    as (i & h' & E & [F1 F2 F3 F4 F5 F6 _] & Hs).
  exists i, (HNoteGcPressure h'). split; [|split_and!; [by apply heap_ok_note|done|done|by eexists|]].
  2:{ intros Hv. destruct (Hs Hv) as (voff & [] & H2). exists voff. split; [by split|exact H2]. }
  pose proof R as [Hpos [Hr1 Hr] Hd Hp (Hl & Hss & Hoff) _ (kind & slot & Hk & Hrec & Hh & Hm) _].
  unfold OpMakeArrayView. rewrite E1, bindE, E2, bindE, E3, bindE, E4, bindE, E5, bindE.
  rewrite decide_False, Ha, bindE, decide_False, Hk by (unfold kMaxArrayRank in *; lia).
  assert (kind = RTK_Array ∨ kind = RTK_ArrayView) as Hkk by (destruct Hm as [(-> & _)|(-> & _)]; auto).
  rewrite (decide_False (P := kind ≠ _ ∧ _)) by (destruct Hkk; tauto).
  rewrite Hrec, derefE, bindE, (proj1 Hh), derefE, bindE, decide_False by (intros Hn; by apply Hn).
  rewrite Nat2Z.id. erewrite FoldSliceAxes_read by done.
  rewrite (fold_axes_ok _ _ _ subs 0 dims strides [] [] off 0), bindE; try done.
  - cbn [app]. by rewrite E, bindE.
  - pose proof (spread_product dims Hd). rewrite extent_spread. unfold kMaxArrayElems, kMaxArrayRank in *. lia.
  - unfold is_sint in Hoff. change (2 ^ (32 - 1)) with (2 ^ 31) in Hoff. lia.
Qed.

(** The span is rounded up to the step in 32 bits: a legal step close to the bounds of
    [int32_t] overflows the count of a non-empty slice, which selects one position. *)
Theorem slice_count_overflow :
  let p := Parts None None (Some INT32_MAX) in
  positions 3 p = [0]
  ∧ slice_count (start_of 3 p) (stop_of 3 p) (step_of p) = Raise (Undefined "signed overflow").
Proof. split; vm_compute; reflexivity. Qed.

(** ** Downcast checks *)
(** The runtime rank check of a downcast: null and an array or view of the expected rank
    pass unchanged into the destination; any other rank or kind raises the cast exception. *)
Theorem OpCheckArrayRank_spec h r r' locals dst src expect i kind slot rank :
  operands r [dst; src; expect] r' → ld32 locals src = Ok i →
  (i ≠ 0 → kind_at h i = Some kind ∧ rec_at h i = Some slot ∧ slot !! 2%nat = Some rank) →
  let copy := locals' ← st32 locals dst i; Ok (r', h, locals') in
  (i = 0 → OpCheckArrayRank r h locals = copy)
  ∧ (i ≠ 0 →
     if decide (kind = RTK_Array ∨ kind = RTK_ArrayView) then
       if decide (u16 rank = expect) then OpCheckArrayRank r h locals = copy
       else ∃ msg, OpCheckArrayRank r h locals = cast_error msg
     else OpCheckArrayRank r h locals = cast_error "array cast: value is not an array").
Proof.
  intros (r1 & E1 & r2 & E2 & r3 & E3 & ->) Hi Hslot. unfold OpCheckArrayRank. cbn zeta.
  rewrite E1, bindE, E2, bindE, E3, bindE, Hi, bindE. split; intros H0; [by rewrite decide_True|].
  rewrite (decide_False (P := i = 0)) by done. destruct (Hslot H0) as (Hk & Hr & Hrk). unfold check_gate. rewrite Hk, Hr.
  destruct (decide (kind = RTK_Array ∨ kind = RTK_ArrayView)) as [Hkk|Hkk].
  - rewrite (decide_False (P := kind ≠ _ ∧ _)) by tauto. rewrite derefE, bindE, Hrk, derefE, bindE.
    destruct (decide (u16 rank = expect)); [by rewrite (decide_False (P := _ ≠ _)) by tauto|].
    rewrite (decide_True (P := _ ≠ _)) by done. by eexists.
  - by rewrite (decide_True (P := kind ≠ _ ∧ _)) by tauto.
Qed.

(** ** A materialised view shares its structs *)
(** Allocate an array of one point and a view of it, materialise the view (the copy is
    dropped), and collect with the array as the only root. *)
Definition point_tables : tables := MkTables (structs demo_tables) (layout demo_tables) [MkArrayType RTK_Struct 0 1] [].
Definition materialize_and_collect : outcome (Z * heap * heap) :=
  '(a, h) ← AllocArrayOnHeap 1 point_tables demo_heap 0 0 [1];
  '(v, h) ← AllocViewOnHeap point_tables h 0 0 [1] [1] 0 a;
  '(_, h) ← MaterializeViewRecord 1 point_tables h 0 v;
  '(g, _) ← CollectGarbage 2 point_tables (MkGc h [] [] [] [] (-1) (-1) (-1)) [] [HeapRef a any_kind];
  Ok (a, h, hp g).

(** the array is alive and its element is a struct before the collection and a free slot
    after it. *)
Theorem materialized_struct_freed :
  ∃ a h h', materialize_and_collect = Ok (a, h, h') ∧ kind_at h' a = Some RTK_Array
    ∧ ∃ base c, (r ← deref (rec_at h' a); ArrayPayloadBase r) = Ok base
      ∧ get_cell h' a (Z.to_nat base) = Ok c ∧ kind_at h c = Some RTK_Struct
      ∧ kind_at h' c = Some 0 ∧ c ∈ free (m_heapShards h').
Proof.
  destruct materialize_and_collect as [[[a h] h']|e] eqn:E.
  2:{ exfalso. pose proof (f_equal (λ r, match r with Ok _ => true | Raise _ => false end) E) as H.
      vm_compute in H. discriminate H. }
  assert ((a, kind_at h 2, kind_at h' 1, rec_at h' 1, kind_at h' 2, m_heapShards h')
    = (1, Some RTK_Struct, Some RTK_Array, Some [5; 0; 1; 1; 1; 0; 2], Some 0, [[8; 7; 6; 5; 4; 2; 3]; []])) as H.
  { pose proof (f_equal (λ r, match r with Ok (a, h, h') => (a, kind_at h 2, kind_at h' 1, rec_at h' 1, kind_at h' 2, m_heapShards h')
      | Raise _ => (0, None, None, None, None, []) end) E) as H. vm_compute in H. symmetry. exact H. }
  injection H as -> K1 K2 K3 K4 K5. exists 1, h, h'. split; [reflexivity|]. split; [exact K2|]. exists 6, 2.
  unfold get_cell. rewrite K3, K5. split_and!; [reflexivity|reflexivity|exact K1|exact K4|].
  apply (bool_decide_unpack _). vm_compute. exact I.
Qed.

(** ** Witnesses *)
(** [m[::-1, 1:]] on the 2 x 3 matrix: the handle, three parameters per axis, the mask. *)
Definition slice_subs : list subscript := [Slice (Parts None None (Some (-1))); Slice (Parts (Some 1) None None)].
Definition slice_locals : bytes :=
  le_bytes 8 1 ++ le_bytes 8 0 ++ le_bytes 8 0 ++ le_bytes 4 4294967295 ++ le_bytes 4 0
  ++ le_bytes 8 1 ++ le_bytes 8 0 ++ le_bytes 8 0 ++ le_bytes 8 20 ++ le_bytes 8 0.
Definition slice_reader : reader := Reader [64; 0; 0; 0; 0; 0; 2; 0; 8; 0] 0.
Lemma slice_staged : all_staged slice_locals 8 2 0 slice_subs.
Proof. repeat split; try (intros v; cbn; intros [= <-]); reflexivity || (intros v; done). Qed.

Lemma FoldOneSliceAxis_spec_witness :
  FoldOneSliceAxis slice_locals 8 0 4 2 3 ([], [], 0) = Ok ([2], [-3], 3).
Proof.
  pose proof (FoldOneSliceAxis_spec slice_locals 8 0 2 3 (Parts None None (Some (-1))) [] [] 0 ltac:(lia)
    (proj2 (proj1 slice_staged)) ltac:(intros _; vm_compute; discriminate)) as H.
  vm_compute in H. exact H.
Defined.
Lemma OpMakeArrayView_spec_witness :
  ∃ i h', OpMakeArrayView arr_tables 0 slice_reader arr_heap slice_locals
          = (locals' ← st32 slice_locals 64 i; Ok (Reader [64; 0; 0; 0; 0; 0; 2; 0; 8; 0] 10, h', locals'))
    ∧ heap_ok h' ∧ sliced arr_tables arr_heap h' i slice_subs [2; 3] [3; 1] 0 1 6 1 6.
Proof.
  destruct arr_heap_ref as (Hok & Hsh & R).
  destruct (OpMakeArrayView_spec arr_tables 0 arr_heap slice_reader _ slice_locals 64 0 0 8 1 slice_subs [2; 3] [3; 1] 0 1 6 1 6 _
    Hok Hsh R arr_heap_row ltac:(vm_compute; discriminate) ltac:(repeat (eexists; split; [reflexivity|]); reflexivity)
    eq_refl ltac:(unfold is_uint; lia) ltac:(exists (MkArrayType RTK_Int32 65535 2); done) slice_staged)
    as (i & h' & E & H1 & _ & _ & _ & H2).
  - repeat split; try (intros [=]); try (vm_compute; (discriminate || reflexivity)).
  - discriminate.
  - exists i, h'. split; [exact E|]. split; [exact H1|exact H2].
Defined.
Lemma OpCheckArrayRank_spec_witness :
  OpCheckArrayRank (Reader [8; 0; 0; 0; 2; 0] 0) arr_heap slice_locals
  = (locals' ← st32 slice_locals 8 1; Ok (Reader [8; 0; 0; 0; 2; 0] 6, arr_heap, locals')).
Proof.
  destruct (OpCheckArrayRank_spec arr_heap (Reader [8; 0; 0; 0; 2; 0] 0) _ slice_locals 8 0 2 1 RTK_Array
    [RTK_Array; 0; 2; 6; 2; 3; 0; 0; 0; 0; 0; 0] 2 ltac:(repeat (eexists; split; [reflexivity|]); reflexivity) eq_refl)
    as [_ H].
  - intros _. split; [|split]; vm_compute; reflexivity.
  - specialize (H ltac:(lia)). vm_compute in H. exact H.
Defined.
