(* ===== verification/Frames.v ===== *)
(** * Program tables and call frames

    Models the frame half of the executor: [src/src/vm/CallFrame.h] and
    [VmExecutorFrames.cpp] (push, pop with writeback, unwind record, handler entry),
    the class walks of [VmExecutorOpsObjects.cpp], the name resolution of
    [VmExecutorOpsCalls.cpp] and the lookups of [CompiledModule.h].  The evaluation
    stack is a list whose head is [EvalStack().back()].  [VmExecutor.h] fixes the
    recursion limit. *)
From S2P Require Import Prelude.
From S2P Require Import Bytecode Package Prims TypeDesc Shards Strings StringOps Layout Heap HeapGC.
Open Scope Z_scope.

(** ** Tables *)
Definition bytes_of (s : string) : bytes :=
  (λ a, Z.of_N (Ascii.N_of_ascii a)) <$> String.list_ascii_of_string s.

Record TryBlock := MkTry {
  startPc : Z; endPc : Z; handlerPc : Z; exceptionClassIdx : Z; catchLocalOff : Z
}.
Record CompiledFunction := MkFunc {
  fn_name : bytes; bytecode : bytes; localsSize : nat; paramCount : nat; intrinsicId : Z;
  isNative : bool; isStatic : bool; tryBlocks : list TryBlock; sourceFile : bytes
}.
(** The part of a class row that dispatch reads; the field half is in [Layout]. *)
Record ClassRow := MkClassRow { cls_name : bytes; cls_super : Z; methodIndices : list Z }.
Record CompiledStaticSlot := MkStaticSlot {
  slot_name : bytes; slot_kind : Z; slot_typeIdx : Z; hasInitializer : bool
}.
Record CompiledModule := MkModule {
  m_name : bytes; functions : list CompiledFunction; classes : list ClassRow;
  md : tables; staticSlots : list CompiledStaticSlot; enumNames : list (list bytes)
}.

(** ** Lookups by name *)
(** [key.find_last_of('.')]: the leaf after the last dot. *)
Definition dot : Z := 46.
Definition LeafNameOfKey (key : bytes) : bytes :=
  match list_find (dot =.) (reverse key) with
  | Some (n, _) => drop (length key - n) key
  | None => key
  end.
Definition FindClass (m : CompiledModule) (className : bytes) : Z :=
  match list_find (λ c, cls_name c = className) (classes m) with
  | Some (i, _) => Z.of_nat i
  | None => -1
  end.
Definition ends_with (key suffix : bytes) : bool :=
  bool_decide (length suffix < length key)%nat
  && bool_decide (drop (length key - length suffix) key = suffix).
(** The bare key, or the only key that ends in [.name]. *)
Fixpoint unique_suffix (l : list ClassRow) (i : nat) (suffix : bytes) (found : Z) : Z :=
  match l with
  | [] => found
  | c :: l =>
      if ends_with (cls_name c) suffix then
        if decide (0 ≤ found) then -1 else unique_suffix l (S i) suffix (Z.of_nat i)
      else unique_suffix l (S i) suffix found
  end.
Definition FindClassBareOrUniqueSuffix (m : CompiledModule) (name : bytes) : Z :=
  if decide (0 ≤ FindClass m name) then FindClass m name
  else unique_suffix (classes m) 0 (dot :: name) (-1).
Definition exc_name (c : exc_class) : bytes :=
  bytes_of match c with
  | ExcBase => "Exception" | ExcNullPtr => "NullPointerException" | ExcDivZero => "DivByZeroException"
  | ExcOob => "IndexOutOfBoundsException" | ExcAssert => "AssertionException" | ExcIO => "IOException"
  | ExcInvalidCast => "InvalidCastException" | ExcInit => "InitializationException"
  | ExcChannelClosed => "ChannelClosedException"
  end%string.
(** The indices are kept in [int16_t] members. *)
Definition CacheBuiltinClassIndexes (m : CompiledModule) (c : exc_class) : Z :=
  let idx := FindClassBareOrUniqueSuffix m (exc_name c) in
  if decide (0 ≤ idx) then i16 idx else -1.

(** ** Class walks *)
Definition find_row (m : CompiledModule) (name : string) : Z :=
  match list_find (λ c, cls_name c = bytes_of name) (classes m) with
  | Some (i, _) => Z.of_nat i
  | None => -1
  end.
Definition ObjectRootClassIdx (m : CompiledModule) : Z := find_row m "Object".
Definition ArrayFaceClassIdx (m : CompiledModule) : Z := find_row m "Array".
Definition ReceiverClassIndex (m : CompiledModule) (h : heap) (heapIdx : Z) : outcome Z :=
  kind ← deref (kind_at h heapIdx);
  if decide (kind = RTK_Boxed) then Ok (ObjectRootClassIdx m)
  else if decide (kind = RTK_Array ∨ kind = RTK_ArrayView) then Ok (ArrayFaceClassIdx m)
  else get_cell h heapIdx 0.
Definition CastOperandClassIndex (m : CompiledModule) (h : heap) (heapIdx : Z) : outcome Z :=
  slotKind ← deref (kind_at h heapIdx);
  if decide (slotKind = RTK_Boxed) then Ok (ObjectRootClassIdx m)
  else if decide (slotKind = RTK_Array ∨ slotKind = RTK_ArrayView) then Ok (ArrayFaceClassIdx m)
  else if decide (slotKind = RTK_Class) then get_cell h heapIdx 0
  else Raise (RuntimeError "NLang VM: CheckCast target is not a class object").

(** The three walks up the super chain differ in where they test and stop. *)
Fixpoint instance_walk (fuel : nat) (m : CompiledModule) (cur target : Z) : outcome bool :=
  match fuel with
  | O => Raise OutOfFuel
  | S fuel =>
      if decide (cur < 0) then Ok false
      else if decide (cur = i16 target) then Ok true
      else match classes m !!z cur with
           | None => Ok false
           | Some c => instance_walk fuel m (cls_super c) target
           end
  end.
Definition walk_fuel (m : CompiledModule) : nat := (2 + length (classes m))%nat.
Definition IsInstanceOrSubclass (m : CompiledModule) (h : heap) (heapIdx targetClassIdx : Z) : outcome bool :=
  if decide (heapIdx ≤ 0) then Ok false
  else match rec_at h heapIdx with
       | None => Ok false
       | Some slot => c ← deref (slot !! 0%nat); instance_walk (walk_fuel m) m (i16 c) targetClassIdx
       end.
Fixpoint cast_walk (fuel : nat) (m : CompiledModule) (cur target : Z) : outcome bool :=
  match fuel with
  | O => Raise OutOfFuel
  | S fuel =>
      if decide (0 < cur) then
        match classes m !!z cur with
        | None => Ok false
        | Some c =>
            let sup := cls_super c in
            if decide (sup < 0 ∨ Z.of_nat (length (classes m)) ≤ sup) then Ok false
            else if decide (u16 sup = target) then Ok true
            else cast_walk fuel m sup target
        end
      else Ok false
  end.
Definition ClassMatchesTarget (m : CompiledModule) (actualClassIdx targetClassIdx : Z) : outcome bool :=
  if decide (actualClassIdx = targetClassIdx) then Ok true
  else cast_walk (walk_fuel m) m actualClassIdx targetClassIdx.

(** The table is not range-checked here. *)
Fixpoint subclass_walk (fuel : nat) (m : CompiledModule) (cur declaredIdx : Z) : outcome bool :=
  match fuel with
  | O => Raise OutOfFuel
  | S fuel =>
      if decide (cur < 0) then Ok false
      else if decide (cur = i16 declaredIdx) then Ok true
      else c ← deref (classes m !!z cur); subclass_walk fuel m (cls_super c) declaredIdx
  end.
Definition IsSubclassOf (m : CompiledModule) (actualIdx declaredIdx : Z) : outcome bool :=
  subclass_walk (walk_fuel m) m (i16 actualIdx) declaredIdx.

(** The check of the loader ([ModuleLoaderRecordsClasses.cpp]): the chain of each row
    ends in -1 within as many steps as there are rows. *)
Definition corrupt_super : vm_error := RuntimeError "Invalid module: corrupt class superclass chain".
Fixpoint chain_steps (fuel : nat) (m : CompiledModule) (link : Z) (steps : nat) : outcome unit :=
  match fuel with
  | O => Raise OutOfFuel
  | S fuel =>
      if decide (link = -1) then Ok tt
      else match classes m !!z link with
           | None => Raise corrupt_super
           | Some c =>
               if decide (length (classes m) < S steps)%nat then Raise corrupt_super
               else chain_steps fuel m (cls_super c) (S steps)
           end
  end.
Definition CheckSuperChains (m : CompiledModule) : outcome unit :=
  foldM (λ _ c, chain_steps (walk_fuel m) m (cls_super c) 0) tt (classes m).

(** The function of this name a class declares itself, static members skipped. *)
Definition answers (m : CompiledModule) (methodName : bytes) (idx : Z) : bool :=
  match functions m !!z idx with
  | Some f => negb (isStatic f) && bool_decide (fn_name f = methodName)
  | None => false
  end.
Definition own_method (m : CompiledModule) (c : ClassRow) (methodName : bytes) : option Z :=
  snd <$> list_find (λ idx, Is_true (answers m methodName idx)) (methodIndices c).
Fixpoint method_walk (fuel : nat) (m : CompiledModule) (cur : Z) (methodName : bytes) : outcome Z :=
  match fuel with
  | O => Raise OutOfFuel
  | S fuel =>
      match classes m !!z cur with
      | None => Ok (-1)
      | Some c =>
          match own_method m c methodName with
          | Some idx => Ok idx
          | None => method_walk fuel m (cls_super c) methodName
          end
      end
  end.
Definition FindMethodByName (m : CompiledModule) (classIdx : Z) (methodName : bytes) : outcome Z :=
  method_walk (walk_fuel m) m classIdx methodName.

(** ** Frames *)
(** [externalResult] names a cell of the executor; the frame-relative result cell that
    the record also has is never set. *)
Record CallFrame := MkCall {
  localsBuf : bytes; externalResult : option nat; func : CompiledFunction;
  pc : Z; opPc : Z; currentLine : Z; outMask : Z; callParamBase : Z; outShift : Z;
  handlerExcStack : list Z
}.
Definition fset_locals (l : bytes) (f : CallFrame) : CallFrame :=
  MkCall l (externalResult f) (func f) (pc f) (opPc f) (currentLine f) (outMask f)
    (callParamBase f) (outShift f) (handlerExcStack f).
Definition fset_pc (p : Z) (f : CallFrame) : CallFrame :=
  MkCall (localsBuf f) (externalResult f) (func f) p (opPc f) (currentLine f) (outMask f)
    (callParamBase f) (outShift f) (handlerExcStack f).
Definition fset_opPc (p : Z) (f : CallFrame) : CallFrame :=
  MkCall (localsBuf f) (externalResult f) (func f) (pc f) p (currentLine f) (outMask f)
    (callParamBase f) (outShift f) (handlerExcStack f).
Definition fset_line (n : Z) (f : CallFrame) : CallFrame :=
  MkCall (localsBuf f) (externalResult f) (func f) (pc f) (opPc f) n (outMask f)
    (callParamBase f) (outShift f) (handlerExcStack f).
Definition fset_handlers (l : list Z) (f : CallFrame) : CallFrame :=
  MkCall (localsBuf f) (externalResult f) (func f) (pc f) (opPc f) (currentLine f) (outMask f)
    (callParamBase f) (outShift f) l.

Record UnwindFrame := MkUnwind { uw_name : bytes; uw_file : bytes; uw_line : Z }.
Definition RECURSE_LIMIT : nat := 1000.
Definition recursion_error : vm_error := RuntimeError "NLang VM: recursion limit exceeded".

(** [memcpy(dst + off, src + soff, n)]. *)
Definition memcpy (dst : bytes) (off : nat) (src : bytes) (soff n : nat) : outcome bytes :=
  vs ← deref (Prelude.slice soff n src);
  if decide (off + n ≤ length dst)%nat then Ok (take off dst ++ vs ++ drop (off + n) dst)
  else Raise OutOfBounds.

Definition paramBytes (callee : CompiledFunction) : Z := u16 (Z.of_nat (paramCount callee * kFrameSlotBytes)).
Definition StageFrameParams (locals : bytes) (callee : CompiledFunction) (callerLocals : bytes)
    (callParamBase boundThisIdx : Z) : outcome bytes :=
  let n := paramBytes callee in
  if decide (Z.of_nat (localsSize callee) < n)
  then Raise (RuntimeError ("NLang VM: callee locals smaller than the parameter block in PushFrameCore: "
                            ++ text (fn_name callee)))
  else if decide (0 < boundThisIdx) then
    locals ← st32 locals 0 boundThisIdx;
    let argBytes := u16 (n - Z.of_nat kFrameSlotBytes) in
    if decide (0 < argBytes)
    then memcpy locals kFrameSlotBytes callerLocals (Z.to_nat callParamBase) (Z.to_nat argBytes)
    else Ok locals
  else if decide (0 < n) then memcpy locals 0 callerLocals (Z.to_nat callParamBase) (Z.to_nat n)
  else Ok locals.

(** A frame whose parameters could not be staged stays on the stack half built, with the
    null function, which [RecordUnwindAndPopFrame] names <unknown>. *)
Definition null_func : CompiledFunction := MkFunc (bytes_of "<unknown>") [] 0 0 0 false false [] [].
Definition half_frame (callee : CompiledFunction) : CallFrame :=
  MkCall (replicate (localsSize callee) 0) None null_func 0 0 0 0 0 0 [].
(** The stack after a push, or at its throw. *)
Inductive pushed :=
  | Pushed (stack : list CallFrame)
  | PushFailed (stack : list CallFrame) (e : vm_error).
Definition PushFrameCore (stack : list CallFrame) (callee : CompiledFunction)
    (callParamBase outMask outShift boundThisIdx : Z) : pushed :=
  if decide (RECURSE_LIMIT ≤ length stack)%nat then PushFailed stack recursion_error
  else match stack with
  | [] => PushFailed stack OutOfBounds
  | caller :: _ =>
      match StageFrameParams (replicate (localsSize callee) 0) callee (localsBuf caller) callParamBase boundThisIdx with
      | Ok locals =>
          Pushed (MkCall locals (externalResult caller) callee 0 0 0 outMask callParamBase outShift [] :: stack)
      | Raise e => PushFailed (half_frame callee :: stack) e
      end
  end.
Definition PushCalleeFrame (stack : list CallFrame) (callee : CompiledFunction) (callParamBase outMask outShift : Z) :=
  PushFrameCore stack callee callParamBase outMask outShift 0.
Definition PushBoundCalleeFrame (stack : list CallFrame) (callee : CompiledFunction) (thisIdx callParamBase outMask : Z) :=
  PushFrameCore stack callee callParamBase outMask 1 thisIdx.
Definition PushRootFrame (stack : list CallFrame) (f : CompiledFunction) (cell : nat) : outcome (list CallFrame) :=
  if decide (RECURSE_LIMIT ≤ length stack)%nat then Raise recursion_error
  else Ok (MkCall (replicate (localsSize f) 0) (Some cell) f 0 0 0 0 0 0 [] :: stack).

(** The copies of the marked slots, from slot 0 up. *)
Definition writeback_slot (fr : CallFrame) (caller : bytes) (slot : nat) : outcome bytes :=
  if Z.testbit (outMask fr) (Z.of_nat slot) then
    let srcOff := u16 ((Z.of_nat slot + outShift fr) * Z.of_nat kFrameSlotBytes) in
    if decide (Z.of_nat (length (localsBuf fr)) < srcOff + Z.of_nat kFrameSlotBytes)
    then Raise (RuntimeError "NLang VM: out parameter slot out of bounds")
    else memcpy caller (Z.to_nat (callParamBase fr + Z.of_nat slot * Z.of_nat kFrameSlotBytes))
           (localsBuf fr) (Z.to_nat srcOff) kFrameSlotBytes
  else Ok caller.
Definition PopFrameWithWriteback (stack : list CallFrame) : outcome (list CallFrame) :=
  match stack with
  | [] => Raise OutOfBounds
  | fr :: rest =>
      if decide (outMask fr = 0) then Ok rest
      else match rest with
           | [] => Raise OutOfBounds
           | caller :: rest =>
               l ← foldM (writeback_slot fr) (localsBuf caller) (seq 0 32);
               Ok (fset_locals l caller :: rest)
           end
  end.

Definition unwind_record (f : CallFrame) : UnwindFrame :=
  MkUnwind (fn_name (func f)) (sourceFile (func f)) (currentLine f).
Definition RecordUnwindAndPopFrame (stack : list CallFrame) (unwind : list UnwindFrame)
    : outcome (list CallFrame * list UnwindFrame) :=
  match stack with
  | [] => Raise OutOfBounds
  | f :: rest => Ok (rest, unwind ++ [unwind_record f])
  end.

(** The first try block in declaration order that covers the instruction and accepts
    the class. *)
Fixpoint match_block (m : CompiledModule) (h : heap) (opPc excHeapIdx : Z) (l : list TryBlock)
    : outcome (option TryBlock) :=
  match l with
  | [] => Ok None
  | tb :: l =>
      if decide (opPc < startPc tb ∨ endPc tb ≤ opPc) then match_block m h opPc excHeapIdx l
      else
        ok ← (if decide (exceptionClassIdx tb = 65535) then Ok true
              else IsInstanceOrSubclass m h excHeapIdx (exceptionClassIdx tb));
        if (ok : bool) then Ok (Some tb) else match_block m h opPc excHeapIdx l
  end.
(** The entered frame; the caller clears the unwind records. *)
Definition TryEnterCatchHandler (m : CompiledModule) (h : heap) (frame : CallFrame) (excHeapIdx : Z)
    : outcome (option CallFrame) :=
  tb ← match_block m h (opPc frame) excHeapIdx (tryBlocks (func frame));
  match tb with
  | None => Ok None
  | Some tb =>
      l ← st32 (localsBuf frame) (catchLocalOff tb) excHeapIdx;
      Ok (Some (fset_pc (handlerPc tb)
                  (fset_handlers (excHeapIdx :: handlerExcStack frame) (fset_locals l frame))))
  end.

Definition FrameResultCell (frame : CallFrame) : outcome nat := deref (externalResult frame).
