(* ===== verification/FramesSpec.v ===== *)
(** * Frames: what calls, returns and class walks do

    Theorems about [Frames]: the parameter block of a call and the writeback of a
    return byte by byte, the class walks against the super chain as a relation, the
    check of the loader that makes the walks terminate, and the method lookup as the
    nearest override. *)
From S2P Require Import Prelude.
From S2P Require Import Bytecode Package Prims TypeDesc Shards Strings StringOps Layout Heap HeapGC Frames.
Open Scope Z_scope.

(** ** Copies *)
Lemma memcpy_length dst off src soff n dst' :
  memcpy dst off src soff n = Ok dst' → length dst' = length dst.
Proof.
  unfold memcpy. intros (vs & Hs%deref_Ok & H)%bind_Ok. apply slice_length in Hs.
  case_decide; [|done]. injection H as <-. rewrite !length_app, length_take, length_drop. lia.
Qed.
Lemma memcpy_spec dst off src soff n :
  (soff + n ≤ length src)%nat → (off + n ≤ length dst)%nat →
  ∃ dst', memcpy dst off src soff n = Ok dst' ∧ length dst' = length dst
    ∧ ∀ j, dst' !! j = if decide (off ≤ j < off + n)%nat then src !! (j - off + soff)%nat else dst !! j.
Proof.
  intros Hs Hd. unfold memcpy, slice.
  rewrite (decide_True (P := (soff + n ≤ length src)%nat)) by lia. rewrite derefE, bindE.
  rewrite decide_True by lia. eexists. split; [done|]. split.
  { rewrite !length_app, !length_take, !length_drop. lia. }
  intros j. case_decide as Hj.
  - rewrite lookup_app_r by (rewrite length_take; lia).
    rewrite lookup_app_l by (rewrite !length_take, length_drop; lia).
    rewrite length_take, lookup_take_lt by lia. rewrite lookup_drop. f_equal. lia.
  - destruct (decide (j < off)%nat).
    + rewrite lookup_app_l by (rewrite length_take; lia). by rewrite lookup_take_lt by lia.
    + rewrite lookup_app_r by (rewrite length_take; lia).
      rewrite lookup_app_r by (rewrite !length_take, length_drop; lia).
      rewrite !length_take, !length_drop, lookup_drop. f_equal. lia.
Qed.

(** ** Return: the writeback *)
(** Byte [j] of the caller belongs to an out parameter below slot [k]. *)
Definition marked (fr : CallFrame) (k j : nat) : Prop :=
  let base := Z.to_nat (callParamBase fr) in
  (base ≤ j)%nat ∧ ((j - base) / 8 < k)%nat ∧ Z.testbit (outMask fr) (Z.of_nat ((j - base) / 8)) = true.
#[export] Instance marked_dec fr k j : Decision (marked fr k j).
Proof. unfold marked. apply _. Defined.
Definition written_back (fr : CallFrame) (caller l : bytes) (k : nat) : Prop :=
  length l = length caller ∧
  ∀ j, l !! j = if decide (marked fr k j)
                then localsBuf fr !! (j - Z.to_nat (callParamBase fr) + 8 * Z.to_nat (outShift fr))%nat
                else caller !! j.
(** Every marked slot lies inside both frames. *)
Definition out_fits (fr : CallFrame) (caller : bytes) : Prop :=
  0 ≤ callParamBase fr ∧ 0 ≤ outShift fr ≤ 1 ∧
  ∀ i : nat, (i < 32)%nat → Z.testbit (outMask fr) (Z.of_nat i) = true →
    (8 * (i + Z.to_nat (outShift fr)) + 8 ≤ length (localsBuf fr))%nat
    ∧ (Z.to_nat (callParamBase fr) + 8 * i + 8 ≤ length caller)%nat.

Lemma marked_step fr k j :
  marked fr (S k) j ↔ marked fr k j ∨
  Z.testbit (outMask fr) (Z.of_nat k) = true ∧
  (Z.to_nat (callParamBase fr) + 8 * k ≤ j < Z.to_nat (callParamBase fr) + 8 * k + 8)%nat.
Proof.
  unfold marked. set (b := Z.to_nat (callParamBase fr)).
  pose proof (Nat.div_mod (j - b) 8 ltac:(lia)) as Hd.
  pose proof (Nat.mod_upper_bound (j - b) 8 ltac:(lia)).
  split.
  - intros (? & ? & Hb). destruct (decide ((j - b) / 8 = k)%nat) as [<-|]; [right; split; [done|lia]|left; split_and!; [lia..|done]].
  - intros [(? & ? & ?)|[Hb ?]]; [split_and!; [lia..|done]|].
    assert ((j - b) / 8 = k)%nat as -> by lia. split_and!; [lia..|done].
Qed.

Lemma writeback_slot_ok fr caller l k :
  out_fits fr caller → (k < 32)%nat → written_back fr caller l k →
  ∃ l', writeback_slot fr l k = Ok l' ∧ written_back fr caller l' (S k).
Proof.
  intros (Hb & Hs & Hfit) Hk [Hl Hw]. unfold writeback_slot.
  destruct (Z.testbit (outMask fr) (Z.of_nat k)) eqn:Hbit.
  2: { exists l. split; [done|]. split; [done|]. intros j. rewrite Hw.
       destruct (decide (marked fr k j)) as [H1|H1], (decide (marked fr (S k) j)) as [H2|H2]; try done.
       - destruct H2. apply marked_step. by left.
       - apply marked_step in H2 as [?|[? _]]; [done|congruence]. }
  destruct (Hfit k Hk Hbit) as [H1 H2]. unfold kFrameSlotBytes.
  assert (u16 ((Z.of_nat k + outShift fr) * Z.of_nat 8) = Z.of_nat (8 * (k + Z.to_nat (outShift fr)))) as ->.
  { rewrite wrap_small; [lia|]. unfold is_uint. change (2 ^ 16) with 65536. lia. }
  rewrite decide_False by lia.
  replace (Z.to_nat (callParamBase fr + Z.of_nat k * Z.of_nat 8)) with (Z.to_nat (callParamBase fr) + 8 * k)%nat by lia.
  rewrite Nat2Z.id.
  destruct (memcpy_spec l (Z.to_nat (callParamBase fr) + 8 * k) (localsBuf fr) (8 * (k + Z.to_nat (outShift fr))) 8)
    as (l' & E & Hl' & Hj); [lia..|].
  exists l'. split; [done|]. split; [lia|]. intros j. rewrite Hj.
  case_decide as Hin.
  - rewrite decide_True by (apply marked_step; right; split; [done|lia]). f_equal. lia.
  - rewrite Hw. destruct (decide (marked fr k j)) as [H3|H3].
    + rewrite decide_True by (apply marked_step; by left). done.
    + rewrite decide_False; [done|]. intros [?|[_ ?]]%marked_step; [done|lia].
Qed.

Lemma marked_none fr j : ¬ marked fr 0 j.
Proof. unfold marked. lia. Qed.
(** A mask without bits marks nothing, so the shortcut agrees with the loop. *)
Lemma marked_zero fr k j : outMask fr = 0 → ¬ marked fr k j.
Proof. unfold marked. intros ->. rewrite Z.bits_0. by intros (_ & _ & ?). Qed.

(** C19: Normal return: the caller goes on with its own locals, in which exactly the marked
    parameter slots hold the values of the callee's slots, one further for a bound
    method; nothing else of the stack changes. *)
Theorem pop_writes_back fr caller rest :
  out_fits fr (localsBuf caller) →
  ∃ l, PopFrameWithWriteback (fr :: caller :: rest) = Ok (fset_locals l caller :: rest)
    ∧ written_back fr (localsBuf caller) l 32.
Proof.
  intros Hfit. unfold PopFrameWithWriteback. case_decide as Hm.
  - exists (localsBuf caller). split; [by destruct caller|]. split; [done|].
    intros j. rewrite decide_False; [done|]. by apply marked_zero.
  - destruct (foldM_seq_inv (writeback_slot fr) (λ k l, written_back fr (localsBuf caller) l k) 32 0 (localsBuf caller))
      as (l & E & H).
    + split; [done|]. intros j. rewrite decide_False; [done|]. apply marked_none.
    + intros k l Hk Hw. apply writeback_slot_ok; [done|lia|done].
    + exists l. by rewrite E, bindE.
Qed.
Definition ex_fn : CompiledFunction := MkFunc [102] [] 24 2 65535 false false [] [].
Definition ex_frame (l : bytes) (mask base shift : Z) : CallFrame := MkCall l (Some 0%nat) ex_fn 0 0 0 mask base shift [].
Lemma pop_writes_back_witness :
  ∃ l, PopFrameWithWriteback [ex_frame (seqZ 100 24) 2 8 1; ex_frame (seqZ 0 32) 0 0 0]
       = Ok [fset_locals l (ex_frame (seqZ 0 32) 0 0 0)]
    ∧ written_back (ex_frame (seqZ 100 24) 2 8 1) (seqZ 0 32) l 32.
Proof.
  apply (pop_writes_back (ex_frame (seqZ 100 24) 2 8 1) (ex_frame (seqZ 0 32) 0 0 0) []).
  split_and!; [vm_compute; by intros ?|vm_compute; by intros ?|vm_compute; by intros ?|].
  intros i Hi Hbit. destruct i as [|[|i]]; [done|vm_compute; lia|].
  exfalso. do 32 (destruct i as [|i]; [by vm_compute in Hbit|]). lia.
Defined.

(** ** Call: the parameter block *)
(** The bytes of a frame that has just been pushed. *)
Definition staged (callee : CompiledFunction) (caller : bytes) (base this : Z) (j : nat) : option Z :=
  if decide (localsSize callee ≤ j)%nat then None
  else if decide (0 < this) then
    if decide (j < 4)%nat then le_bytes 4 this !! j
    else if decide (8 ≤ j < Z.to_nat (paramBytes callee))%nat then caller !! (Z.to_nat base + (j - 8))%nat
    else Some 0
  else if decide (j < Z.to_nat (paramBytes callee))%nat then caller !! (Z.to_nat base + j)%nat
  else Some 0.
(** What the compiler guarantees of a call site. *)
Definition params_fit (callee : CompiledFunction) (caller : bytes) (base this : Z) : Prop :=
  0 ≤ base ∧ (Z.to_nat (paramBytes callee) ≤ localsSize callee)%nat ∧
  if decide (0 < this) then (8 ≤ Z.to_nat (paramBytes callee))%nat ∧ (Z.to_nat base + (Z.to_nat (paramBytes callee) - 8) ≤ length caller)%nat
  else (Z.to_nat base + Z.to_nat (paramBytes callee) ≤ length caller)%nat.

Lemma paramBytes_range callee : 0 ≤ paramBytes callee < 65536.
Proof. apply (wrap_range 16). lia. Qed.
Lemma StageFrameParams_spec callee caller base this :
  params_fit callee caller base this →
  ∃ l, StageFrameParams (replicate (localsSize callee) 0) callee caller base this = Ok l
    ∧ length l = localsSize callee ∧ ∀ j, l !! j = staged callee caller base this j.
Proof.
  intros (Hb & Hn & Hfit). pose proof (paramBytes_range callee) as Hr.
  unfold StageFrameParams, staged. set (n := paramBytes callee) in *.
  rewrite decide_False by lia.
  assert (∀ j, replicate (localsSize callee) 0 !! j = if decide (localsSize callee ≤ j)%nat then None else Some 0) as Hz.
  { intros j. destruct (decide (localsSize callee ≤ j)%nat); [by apply lookup_replicate_None|apply lookup_replicate_2; lia]. }
  destruct (decide (0 < this)) as [Ht|Ht].
  - destruct Hfit as [H8 Hc]. unfold st32, store.
    rewrite decide_True by (rewrite length_replicate; lia). rewrite bindE.
    assert (u16 (n - Z.of_nat kFrameSlotBytes) = n - 8) as ->.
    { unfold kFrameSlotBytes. rewrite wrap_small; [done|]. unfold is_uint. change (2 ^ 16) with 65536. lia. }
    change (Z.to_nat 0) with 0%nat. rewrite take_0, app_nil_l, Nat.add_0_l.
    set (l0 := le_bytes 4 this ++ drop 4 (replicate (localsSize callee) 0)).
    assert (length l0 = localsSize callee) as Hl0.
    { unfold l0. rewrite length_app, length_le_bytes, length_drop, length_replicate. lia. }
    assert (∀ j, l0 !! j = if decide (j < 4)%nat then le_bytes 4 this !! j
                           else if decide (localsSize callee ≤ j)%nat then None else Some 0) as Hl0j.
    { intros j. unfold l0. case_decide.
      - apply lookup_app_l. by rewrite length_le_bytes.
      - rewrite lookup_app_r, length_le_bytes by (rewrite length_le_bytes; lia).
        rewrite lookup_drop, Hz. by replace (4 + (j - 4))%nat with j by lia. }
    unfold kFrameSlotBytes. case_decide as Hpos.
    + destruct (memcpy_spec l0 8 caller (Z.to_nat base) (Z.to_nat (n - 8))) as (l & E & Hl & Hj); [lia..|].
      exists l. split; [done|]. split; [lia|]. intros j. rewrite Hj, Hl0j.
      repeat case_decide; try lia; try done. f_equal. lia.
    + exists l0. split; [done|]. split; [done|]. intros j. rewrite Hl0j.
      repeat case_decide; try lia; done.
  - case_decide as Hpos.
    + destruct (memcpy_spec (replicate (localsSize callee) 0) 0 caller (Z.to_nat base) (Z.to_nat n)) as (l & E & Hl & Hj);
        [lia|rewrite length_replicate; lia|].
      exists l. rewrite length_replicate in Hl. split; [done|]. split; [done|]. intros j. rewrite Hj, Hz.
      repeat case_decide; try lia; try done. f_equal. lia.
    + exists (replicate (localsSize callee) 0). split; [done|]. split; [by rewrite length_replicate|].
      intros j. rewrite Hz. repeat case_decide; try lia; done.
Qed.

(** A call below the limit pushes one zeroed frame that holds the receiver, if any, and
    the argument slots, and runs from offset 0; the frames below it are untouched. *)
Theorem push_stages_params caller rest callee base mask shift this :
  (S (length rest) < RECURSE_LIMIT)%nat → params_fit callee (localsBuf caller) base this →
  ∃ l, PushFrameCore (caller :: rest) callee base mask shift this
       = Pushed (MkCall l (externalResult caller) callee 0 0 0 mask base shift [] :: caller :: rest)
    ∧ length l = localsSize callee ∧ ∀ j, l !! j = staged callee (localsBuf caller) base this j.
Proof.
  intros Hd Hfit. destruct (StageFrameParams_spec _ _ _ _ Hfit) as (l & E & Hl).
  exists l. split; [|done]. unfold PushFrameCore. rewrite decide_False by (simpl; lia).
  by rewrite E.
Qed.
Lemma push_stages_params_witness :
  ∃ l, PushFrameCore [ex_frame (seqZ 1 32) 0 0 0] ex_fn 16 0 1 7
       = Pushed [MkCall l (Some 0%nat) ex_fn 0 0 0 0 16 1 []; ex_frame (seqZ 1 32) 0 0 0]
    ∧ length l = localsSize ex_fn ∧ ∀ j, l !! j = staged ex_fn (seqZ 1 32) 16 7 j.
Proof.
  apply (push_stages_params (ex_frame (seqZ 1 32) 0 0 0) [] ex_fn 16 0 1 7); [vm_compute; lia|].
  split_and!; [lia|vm_compute; lia|vm_compute; lia].
Defined.

(** ** Super chains *)
(** [supers m c l]: the classes [l], nearest first, are [c] and its superclasses up to a
    row whose link is -1. *)
Inductive supers (m : CompiledModule) : Z → list Z → Prop :=
  | supers_root c row : classes m !!z c = Some row → cls_super row = -1 → supers m c [c]
  | supers_link c row l : classes m !!z c = Some row → cls_super row ≠ -1 →
      supers m (cls_super row) l → supers m c (c :: l).

Section Chains.
Context (m : CompiledModule).

Lemma supers_head c l : supers m c l → ∃ row l', classes m !!z c = Some row ∧ l = c :: l'.
Proof. destruct 1; eauto. Qed.
Lemma supers_det c l : supers m c l → ∀ l', supers m c l' → l = l'.
Proof.
  induction 1 as [c row Hc Hr|c row l Hc Hr Hl IH]; intros l' H'; inversion H'; simplify_eq; try done.
  f_equal. by apply IH.
Qed.
Lemma supers_suffix c l : supers m c l → ∀ x, x ∈ l → ∃ l', supers m x l' ∧ (length l' ≤ length l)%nat.
Proof.
  induction 1 as [c row Hc Hr|c row l Hc Hr Hl IH]; intros x Hx; apply elem_of_cons in Hx as [->|Hx].
  - exists [c]. split; [by eapply supers_root|done].
  - by apply not_elem_of_nil in Hx.
  - exists (c :: l). split; [by eapply supers_link|done].
  - destruct (IH x Hx) as (l' & ? & ?). exists l'. split; [done|]. simpl. lia.
Qed.
Lemma supers_NoDup c l : supers m c l → NoDup l.
Proof.
  induction 1 as [c row Hc Hr|c row l Hc Hr Hl IH]; [apply NoDup_singleton|].
  apply list.NoDup_cons. split; [|done]. intros Hin.
  destruct (supers_suffix _ _ Hl c Hin) as (l' & Hl' & Hle).
  pose proof (supers_det _ _ Hl' _ (supers_link m c row l Hc Hr Hl)) as ->. simpl in Hle. lia.
Qed.
Lemma supers_rows c l : supers m c l → Forall (λ x, is_Some (classes m !!z x)) l.
Proof. induction 1; repeat constructor; eauto. Qed.
Lemma supers_length c l : supers m c l → (length l ≤ length (classes m))%nat.
Proof.
  intros H. pose proof (supers_NoDup _ _ H) as Hnd. pose proof (supers_rows _ _ H) as Hr.
  assert (l ⊆+ seqZ 0 (Z.of_nat (length (classes m)))) as Hs.
  { apply NoDup_submseteq; [done|]. intros x Hx. rewrite list.Forall_forall in Hr.
    destruct (Hr x Hx) as [row Hrow%zlookup_Some_lt]. apply elem_of_seqZ. lia. }
  apply submseteq_length in Hs. rewrite length_seqZ in *. lia.
Qed.

(** The loader's walk accepts exactly the chains. *)
Lemma chain_steps_supers fuel : ∀ link steps,
  chain_steps fuel m link steps = Ok tt → link = -1 ∨ ∃ l, supers m link l.
Proof.
  induction fuel as [|fuel IH]; intros link steps; simpl; [done|].
  case_decide; [by left|]. destruct (classes m !!z link) as [row|] eqn:Hrow; [|done].
  case_decide; [done|]. intros [Hr|[l Hl]]%IH; right.
  - exists [link]. by eapply supers_root.
  - exists (link :: l). eapply supers_link; [done| |done]. intros Hr. rewrite Hr in Hl. by inversion Hl.
Qed.
Lemma chain_steps_ok link l : supers m link l → ∀ fuel steps,
  (length l < fuel)%nat → (steps + length l ≤ length (classes m))%nat →
  chain_steps fuel m link steps = Ok tt.
Proof.
  induction 1 as [c row Hc Hr|c row l Hc Hr Hl IH]; intros fuel steps Hf Hs; destruct fuel as [|fuel]; simpl in *; try lia.
  - rewrite decide_False by (intros ->; done). rewrite Hc, decide_False by lia.
    destruct fuel; [lia|]. simpl. by rewrite Hr, decide_True.
  - rewrite decide_False by (intros ->; done). rewrite Hc, decide_False by lia. apply IH; lia.
Qed.
Lemma chain_steps_total fuel : ∀ link steps,
  (length (classes m) + 2 ≤ fuel + steps)%nat → (steps ≤ length (classes m))%nat →
  chain_steps fuel m link steps = Ok tt ∨ chain_steps fuel m link steps = Raise corrupt_super.
Proof.
  induction fuel as [|fuel IH]; intros link steps Hf Hs; [lia|]. simpl.
  case_decide; [by left|]. destruct (classes m !!z link); [|by right].
  case_decide; [by right|]. apply IH; lia.
Qed.
Lemma CheckSuperChains_Ok :
  CheckSuperChains m = Ok tt ↔ ∀ c row, classes m !!z c = Some row → ∃ l, supers m c l.
Proof.
  assert (∀ l, foldM (λ _ c, chain_steps (walk_fuel m) m (cls_super c) 0) tt l = Ok tt ↔
               Forall (λ r, chain_steps (walk_fuel m) m (cls_super r) 0 = Ok tt) l) as Hfold.
  { induction l as [|r l IH]; [split; [constructor|done]|]. cbn [foldM].
    rewrite list.Forall_cons, <- IH.
    destruct (chain_steps _ _ _ _) as [[]|e]; [rewrite bindE; split; [by split|by intros [_ ?]]|].
    rewrite bindE_Raise. split; [done|by intros [? _]]. }
  unfold CheckSuperChains. rewrite Hfold, Forall_lookup. split.
  - intros H c row Hc. unfold zlookup in Hc. case_decide as H0; [|done].
    pose proof (H _ _ Hc) as [Hr|[l Hl]]%chain_steps_supers.
    + exists [c]. eapply supers_root; [|done]. unfold zlookup. by rewrite decide_True.
    + exists (c :: l). eapply supers_link; [unfold zlookup; by rewrite decide_True| |done].
      intros Hr. rewrite Hr in Hl. by inversion Hl.
  - intros H i row Hi. destruct (H (Z.of_nat i) row) as [l Hl].
    { unfold zlookup. rewrite decide_True by lia. by rewrite Nat2Z.id. }
    assert (classes m !!z Z.of_nat i = Some row) as Hi'.
    { unfold zlookup. rewrite decide_True by lia. by rewrite Nat2Z.id. }
    pose proof (supers_length _ _ Hl) as Hlen. unfold walk_fuel.
    inversion Hl; simplify_eq; [cbn [chain_steps Nat.add]; by rewrite decide_True|].
    simpl in Hlen. eapply chain_steps_ok; [done|lia..].
Qed.
End Chains.

(** ** The walks *)
(** The nearest class of a chain that declares the method itself. *)
Fixpoint nearest (m : CompiledModule) (name : bytes) (l : list Z) : option Z :=
  match l with
  | [] => None
  | c :: l => match classes m !!z c ≫= λ row, own_method m row name with
              | Some idx => Some idx
              | None => nearest m name l
              end
  end.

Section Walks.
Context (m : CompiledModule).

Lemma instance_walk_supers c l t : supers m c l → ∀ fuel, (length l < fuel)%nat →
  instance_walk fuel m c t = Ok (bool_decide (i16 t ∈ l)) ∧ subclass_walk fuel m c t = Ok (bool_decide (i16 t ∈ l)).
Proof.
  induction 1 as [c row Hc Hr|c row l Hc Hr Hl IH]; intros fuel Hf; destruct fuel as [|fuel]; try (simpl in Hf; lia);
    pose proof (zlookup_Some_lt _ _ _ Hc); cbn [instance_walk subclass_walk]; do 2 rewrite (decide_False (P := c < 0)) by lia;
    (destruct (decide (c = i16 t)) as [Heq|Hne]; [rewrite bool_decide_true by (rewrite Heq; apply list_elem_of_here); done|]); rewrite Hc.
  - destruct fuel; [simpl in Hf; lia|]. rewrite derefE, bindE, Hr. simpl.
    rewrite bool_decide_false; [done|]. intros ?%list_elem_of_singleton. congruence.
  - rewrite derefE, bindE. destruct (IH fuel) as [-> ->]; [simpl in Hf; lia|].
    assert (bool_decide (i16 t ∈ l) = bool_decide (i16 t ∈ c :: l)) as ->; [|done].
    apply bool_decide_ext. rewrite elem_of_cons. naive_solver.
Qed.
Lemma method_walk_supers c l name : supers m c l → ∀ fuel, (length l < fuel)%nat →
  method_walk fuel m c name = Ok (default (-1) (nearest m name l)).
Proof.
  induction 1 as [c row Hc Hr|c row l Hc Hr Hl IH]; intros fuel Hf; destruct fuel as [|fuel]; try (simpl in Hf; lia);
    cbn [method_walk nearest]; rewrite Hc; cbn [mbind option_bind]; destruct (own_method m row name); try done.
  - destruct fuel; [simpl in Hf; lia|]. by rewrite Hr.
  - apply IH. simpl in Hf. lia.
Qed.
(** The cast walk leaves out the start and does not go on from class 0. *)
Lemma cast_walk_supers c l t : supers m c l → ∀ fuel, (length l < fuel)%nat →
  Z.of_nat (length (classes m)) ≤ 32768 → (∀ row, classes m !!z 0 = Some row → cls_super row = -1) →
  cast_walk fuel m c t = Ok (bool_decide (t ∈ tail l)).
Proof.
  induction 1 as [c row Hc Hr|c row l Hc Hr Hl IH]; intros fuel Hf Hsz H0; destruct fuel as [|fuel]; try (simpl in Hf; lia);
    cbn [cast_walk tail].
  - rewrite Hc, Hr. rewrite (decide_True (P := -1 < 0 ∨ _)) by lia. rewrite bool_decide_false by apply not_elem_of_nil.
    by case_decide.
  - pose proof (zlookup_Some_lt _ _ _ Hc).
    assert (c ≠ 0) by (intros ->; exact (Hr (H0 _ Hc))). rewrite (decide_True (P := 0 < c)) by lia.
    rewrite Hc. destruct (supers_head _ _ _ Hl) as (srow & l' & Hs & ->).
    pose proof (zlookup_Some_lt _ _ _ Hs).
    rewrite (decide_False (P := _ ∨ _)) by lia. rewrite wrap_small by (unfold is_uint; change (2 ^ 16) with 65536; lia).
    destruct (decide (cls_super row = t)) as [<-|Hne]; [rewrite bool_decide_true by apply list_elem_of_here; done|].
    rewrite (IH fuel) by (first [done | simpl in Hf |- *; lia]). cbn [tail].
    assert (bool_decide (t ∈ l') = bool_decide (t ∈ cls_super row :: l')) as ->; [|done].
    apply bool_decide_ext. rewrite elem_of_cons. naive_solver.
Qed.
End Walks.

(** [as T] is the same test, given that the first row of the table has no superclass. *)
Theorem ClassMatchesTarget_correct m c t :
  CheckSuperChains m = Ok tt → Z.of_nat (length (classes m)) ≤ 32768 →
  0 ≤ c < Z.of_nat (length (classes m)) → (∀ row, classes m !!z 0 = Some row → cls_super row = -1) →
  ∃ l, supers m c l ∧ ClassMatchesTarget m c t = Ok (bool_decide (t ∈ l)).
Proof.
  intros Hm Hsz Hc H0. destruct (zlookup_is_Some (classes m) c Hc) as [row Hrow].
  destruct (proj1 (CheckSuperChains_Ok m) Hm c row Hrow) as [l Hl].
  pose proof (supers_length m c l Hl). destruct (supers_head _ _ _ Hl) as (row' & l' & _ & ->).
  exists (c :: l'). split; [done|]. unfold ClassMatchesTarget. case_decide as Heq.
  - rewrite bool_decide_true; [done|]. subst. apply list_elem_of_here.
  - erewrite cast_walk_supers; [|done|unfold walk_fuel; simpl in *; lia|done|done]. cbn [tail].
    assert (bool_decide (t ∈ l') = bool_decide (t ∈ c :: l')) as ->; [|done].
    apply bool_decide_ext. rewrite elem_of_cons. naive_solver.
Qed.

(** A table of four classes: [E] and its subclass [F], the root, and an unrelated one. *)
Definition ex_row (s : Z) (methods : list Z) : ClassRow := MkClassRow [] s methods.
Definition ex_method (n : bytes) (static : bool) : CompiledFunction := MkFunc n [] 8 1 65535 false static [] [].
Definition ex_module : CompiledModule :=
  MkModule [] [ex_method [1] false; ex_method [2] false; ex_method [1] true; ex_method [1] false]
    [ex_row (-1) [0; 1]; ex_row 0 [2]; ex_row 1 [3]; ex_row (-1) []] (MkTables [] [] [] []) [] [].
Definition ex_objects : heap := MkHeap [[]; [2; 0]; [3]; [1; 0]] [0; RTK_Class; RTK_Class; RTK_Class] [0; 0; 0; 0] [[]] 1000 demo.

Lemma ClassMatchesTarget_correct_witness :
  ∃ l, supers ex_module 2 l ∧ ClassMatchesTarget ex_module 2 0 = Ok (bool_decide (0 ∈ l)).
Proof.
  apply (ClassMatchesTarget_correct ex_module 2 0); [reflexivity|simpl; lia|simpl; lia|].
  intros row [= <-]. reflexivity.
Defined.
Example ex_override : FindMethodByName ex_module 2 [1] = Ok 3 ∧ FindMethodByName ex_module 1 [1] = Ok 0.
Proof. split; reflexivity. Qed.

(** An object of the class in row 32768 is no instance of its own class: the loader allows
    2^24 rows, the walk starts at a signed 16-bit index. *)
Lemma no_supers_checked m cs : Forall (λ c, cls_super c = -1) cs →
  foldM (λ _ c, chain_steps (walk_fuel m) m (cls_super c) 0) tt cs = Ok tt.
Proof. induction 1 as [|c cs Hc _ IH]; [done|]. cbn [foldM]. unfold walk_fuel at 1. cbn [Nat.add chain_steps]. by rewrite Hc. Qed.
Lemma row_32768_no_instance :
  ∃ m h, CheckSuperChains m = Ok tt ∧ is_Some (classes m !!z 32768) ∧ rec_at h 1 = Some [32768] ∧
    IsInstanceOrSubclass m h 1 32768 = Ok false.
Proof.
  exists (MkModule [] [] (replicate (Z.to_nat 32769) (ex_row (-1) [])) (MkTables [] [] [] []) [] []),
    (MkHeap [[]; [32768]] [0; RTK_Class] [0; 0] [[]] 1000 demo).
  split; [by apply no_supers_checked, Forall_replicate|]. split; [vm_compute; by eexists|]. split; vm_compute; reflexivity.
Qed.

(** Without the last hypothesis the test is not membership: a class that is first in the
    table cannot be cast to its superclass, while a handler of the superclass catches
    its instances. *)
Theorem cast_stops_at_class_zero :
  ∃ m h, CheckSuperChains m = Ok tt ∧ IsInstanceOrSubclass m h 1 1 = Ok true
    ∧ ClassMatchesTarget m 0 1 = Ok false.
Proof.
  exists (MkModule [] [] [ex_row 1 []; ex_row (-1) []] (MkTables [] [] [] []) [] []),
    (MkHeap [[]; [0]] [0; RTK_Class] [0; 0] [[]] 1000 demo).
  repeat split; reflexivity.
Qed.
