(* ===== verification/ModuleLoader.v ===== *)
(** * Module loader

    Models [src/src/vm/ModuleLoader.cpp], [ModuleLoaderRecords.cpp],
    [ModuleLoaderRecordsClasses.cpp] and [ModuleLoaderRecordsInterfaces.cpp]: the parse of
    a module image with every check it makes, in the order it makes them. *)
From stdpp Require Import pretty.
From S2P Require Import Prelude.
From S2P Require Import Bytecode Package Prims TypeDesc Layout Heap HeapGC Frames ByteIO ModuleRecords.
Open Scope Z_scope.

Definition invalid (what : string) : string := "Invalid module: " ++ what.
Definition demand_good (msg : string) : reader unit := ok ← is_good; demand ok msg.
Definition get_int16 (old : Z) : reader Z := v ← get16 old; mret (i16 v).
Definition get_int64 (old : Z) : reader Z := v ← get64 old; mret (swrap 64 v).

Definition ReadTypeDesc : reader TypeDesc :=
  len ← get_count 2 kMaxTypeDescBytes (invalid "bad type descriptor length");
  if decide (len = 0) then mret no_type else
  bs ← get_bytes len;
  _ ← demand_good (invalid "truncated type descriptor");
  lift (ParseTypeDescBytes bs).
Definition ReadDefaultValueDesc : reader DefaultValueDesc :=
  tag ← get8 RTK_Void; intValue ← get32 0; floatValue ← get32 0; stringIdx ← get32 0;
  longValue ← get_int64 0; doubleValue ← get64 0;
  exprBytes ← get_string 2 kMaxExprDescBytes (invalid "bad default expression length");
  _ ← demand_good (invalid "truncated default expression");
  mret (MkDefaultValue tag intValue floatValue stringIdx longValue doubleValue exprBytes).

(** ** Functions *)
Definition ReadTryBlock : reader TryBlock :=
  startPc ← get16 0; endPc ← get16 0; handlerPc ← get16 0; exceptionClassIdx ← get16 kNone16; catchLocalOff ← get16 0;
  mret (MkTryBlock startPc endPc handlerPc exceptionClassIdx catchLocalOff).
Definition ReadLocal : reader LocalDescriptor :=
  offset ← get16 0; size ← get16 0; isParam ← get8 0; typeKind ← get8 0; declPc ← get16 0;
  name ← get_string 4 (2 ^ 16) (invalid "bad local name length");
  mret (MkLocal offset size isParam typeKind declPc name).
Definition ReadParamType : reader ParamTypeDesc :=
  flags ← get8 0; type ← ReadTypeDesc; mret (MkParamType flags type).
(** Two mask bits per slot of the frame band. *)
Definition mask_length (localsSize paramCount : Z) : Z :=
  let totalSlots := localsSize / Z.of_nat kFrameSlotBytes in
  if decide (paramCount < totalSlots) then (totalSlots - paramCount + 3) / 4 else 0.
Definition ReadFunction : reader CompiledFunction :=
  name ← get_string 4 (2 ^ 24) (invalid "bad function name length");
  localsSize ← get16 0; paramCount ← get16 0; returnTypeKind ← get16 0; intrinsicId ← get16 kNone16;
  isNative ← get_flag; isStatic ← get_flag;
  defaultCount ← get_count 2 256 (invalid "bad default count");
  defaultValues ← get_list defaultCount ReadDefaultValueDesc;
  bytecode ← get_string 4 (2 ^ 26) (invalid "bad bytecode size");
  tryBlockCount ← get_count 2 1024 (invalid "bad tryBlock count");
  tryBlocks ← get_list tryBlockCount ReadTryBlock;
  localCount ← get_count 2 4096 (invalid "bad local count");
  locals ← get_list localCount ReadLocal;
  sourceFile ← get_string 4 (2 ^ 16) (invalid "bad source file length");
  paramDescCount ← get_count 2 kMaxParamDescCount (invalid "bad param descriptor count");
  paramTypeDescs ← get_list paramDescCount ReadParamType;
  returnTypeDesc ← (if decide (returnTypeKind ≠ RTK_Void) then ReadTypeDesc else mret no_type);
  mask ← get_string 4 (2 ^ 16) (invalid "bad handle-mask length");
  _ ← demand_good (invalid "truncated handle mask");
  _ ← demand (bool_decide (Z.of_nat (length mask) = mask_length localsSize paramCount))
        (invalid ("handle mask length disagrees with frame layout in '" ++ text name ++ "'"));
  mret (MkFunction name localsSize paramCount returnTypeKind intrinsicId isNative isStatic defaultValues bytecode
          tryBlocks locals sourceFile paramTypeDescs returnTypeDesc mask).
Definition ReadFunctionRecords : reader (list CompiledFunction) :=
  funcCount ← get_count 4 (2 ^ 24) (invalid "bad function count"); get_list funcCount ReadFunction.

(** ** Structs *)
(** An access byte, a flag byte, and function indices that must be in the table. *)
Definition ReadByteUpTo (max : Z) (msg : string) : reader Z :=
  a ← get8 0; ok ← is_good; _ ← demand (ok && bool_decide (a ≤ max)) msg; mret a.
Definition in_functions (functionCount : nat) (idx : Z) : bool := bool_decide (idx < Z.of_nat functionCount).
Definition ReadFunctionIndices (functionCount : nat) (count : Z) (truncated range : string) : reader (list Z) :=
  indices ← get_list count (get16 0);
  _ ← demand_good truncated;
  _ ← demand (forallb (in_functions functionCount) indices) range;
  mret indices.
Definition ReadStruct (functionCount : nat) : reader CompiledStruct :=
  name ← get_string 4 (2 ^ 24) (invalid "bad struct name length");
  fieldCount ← get16 0; isConstAggregate ← get_bool;
  fieldNames ← get_list fieldCount (get_string 4 (2 ^ 24) (invalid "bad struct field name length"));
  fieldTypeKinds ← get_list fieldCount (get16 0);
  fieldStructIndices ← get_list fieldCount (get16 0);
  fieldClassIndices ← get_list fieldCount (get16 0);
  fieldTypeDescs ← get_list fieldCount ReadTypeDesc;
  ctorCount ← get_count 2 (2 ^ 12) (invalid "bad struct constructor count");
  constructorIndices ← ReadFunctionIndices functionCount ctorCount
    (invalid "truncated struct constructor indices") (invalid "struct constructor index out of range");
  defCount ← get16 0;
  ok ← is_good;
  _ ← demand (ok && bool_decide (defCount = fieldCount)) (invalid "bad struct field default count");
  fieldDefaults ← get_list defCount ReadDefaultValueDesc;
  constructorAccess ← get_list ctorCount (ReadByteUpTo FA_Public (invalid "bad struct constructor access"));
  mret (MkStructRecord name fieldCount isConstAggregate fieldNames fieldTypeKinds fieldStructIndices fieldClassIndices
          fieldTypeDescs constructorIndices fieldDefaults constructorAccess).
Definition ReadStructRecords (functionCount : nat) : reader (list CompiledStruct) :=
  structCount ← get_count 4 (2 ^ 24) (invalid "bad struct count"); get_list structCount (ReadStruct functionCount).

(** ** Classes *)
Definition ReadStaticField : reader CompiledStaticField :=
  name ← get_string 4 (2 ^ 24) (invalid "bad class static field name length");
  type ← ReadTypeDesc;
  access ← ReadByteUpTo FA_Public (invalid "bad class static field access");
  constFlag ← ReadByteUpTo 1 (invalid "bad class static field const flag");
  slotIdx ← get16 kNone16;
  foldedValue ← (if decide (slotIdx = kNone16) then ReadDefaultValueDesc else mret no_default);
  mret (MkStaticField name type access (bool_decide (constFlag ≠ 0)) slotIdx foldedValue).
(** The index of a static initializer, or none. *)
Definition ReadStaticInit (functionCount : nat) (truncated range : string) : reader Z :=
  idx ← get16 kNone16;
  _ ← demand_good truncated;
  _ ← demand (bool_decide (idx = kNone16) || in_functions functionCount idx) range;
  mret idx.
Definition ReadClass (functionCount : nat) : reader CompiledClass :=
  name ← get_string 4 (2 ^ 24) (invalid "bad class name length");
  fieldCount ← get16 0; superClassIdx ← get_int16 (-1); isConstAggregate ← get_bool;
  fieldNames ← get_list fieldCount (get_string 4 (2 ^ 24) (invalid "bad class field name length"));
  fieldTypeKinds ← get_list fieldCount (get16 0);
  fieldStructIndices ← get_list fieldCount (get16 0);
  fieldClassIndices ← get_list fieldCount (get16 0);
  fieldTypeDescs ← get_list fieldCount ReadTypeDesc;
  fieldAccess ← get_list fieldCount (ReadByteUpTo FA_Public (invalid "bad class field access"));
  methodCount ← get_count 2 (2 ^ 12) (invalid "bad class method count");
  methodIndices ← ReadFunctionIndices functionCount methodCount
    (invalid "truncated class method indices") (invalid "class method index out of range");
  methodAccess ← get_list methodCount (ReadByteUpTo FA_Public (invalid "bad class method access"));
  methodVirtual ← get_list methodCount (ReadByteUpTo 1 (invalid "bad class method virtual flag"));
  ctorCount ← get_count 2 (2 ^ 12) (invalid "bad class constructor count");
  constructorIndices ← ReadFunctionIndices functionCount ctorCount
    (invalid "truncated class constructor indices") (invalid "class constructor index out of range");
  constructorAccess ← get_list ctorCount (ReadByteUpTo FA_Public (invalid "bad class constructor access"));
  staticFieldCount ← get_count 2 (2 ^ 12) (invalid "bad class static field count");
  staticFields ← get_list staticFieldCount ReadStaticField;
  staticInitFuncIdx ← ReadStaticInit functionCount
    (invalid "truncated class static init index") (invalid "class static init index out of range");
  mret (MkClassRecord name fieldCount superClassIdx isConstAggregate fieldNames fieldTypeKinds fieldStructIndices
          fieldClassIndices fieldTypeDescs fieldAccess methodIndices methodAccess methodVirtual constructorIndices
          constructorAccess staticFields staticInitFuncIdx).
(** The rows dispatch works on; the walk of the super chains is [Frames.CheckSuperChains]. *)
Definition class_rows (cs : list CompiledClass) : list ClassRow :=
  (λ cc, MkClassRow (cc_name cc) (cc_superClassIdx cc) (cc_methodIndices cc)) <$> cs.
Definition chain_view (cs : list CompiledClass) : Frames.CompiledModule :=
  MkModule [] [] (class_rows cs) (MkTables [] [] [] []) [] [].
Definition ReadClassRecords (functionCount : nat) : reader (list CompiledClass) :=
  classCount ← get_count 4 (2 ^ 24) (invalid "bad class count");
  cs ← get_list classCount (ReadClass functionCount);
  _ ← lift (CheckSuperChains (chain_view cs));
  mret cs.

(** ** Interfaces *)
Definition kMaxInterfaceSigParams : Z := 64.
Definition ReadInterfaceConstant : reader CompiledInterfaceConstant :=
  name ← get_string 2 (2 ^ 16) (invalid "bad interface constant name length");
  type ← ReadTypeDesc; value ← ReadDefaultValueDesc; slotIdx ← get16 kNone16;
  mret (MkInterfaceConstant name type value slotIdx).
Definition ReadInterfaceConstants : reader (list CompiledInterfaceConstant) :=
  constantCount ← get_count 2 (2 ^ 12) (invalid "bad interface constant count");
  get_list constantCount ReadInterfaceConstant.
Definition ReadSignatureDefault (stringPoolSize : nat) : reader DefaultValueDesc :=
  dv ← ReadDefaultValueDesc;
  _ ← demand (negb (bool_decide (dv_tag dv = RTK_String ∧ Z.of_nat stringPoolSize ≤ dv_stringIdx dv)))
        (invalid "bad interface default string index");
  mret dv.
Definition ReadOneInterfaceSignature (stringPoolSize : nat) : reader CompiledInterfaceMethod :=
  name ← get_string 2 (2 ^ 16) (invalid "bad interface method name length");
  paramCount ← get_count 2 kMaxInterfaceSigParams (invalid "bad interface method parameter count");
  paramTypeDescs ← get_list paramCount ReadParamType;
  _ ← demand_good (invalid "truncated interface method parameters");
  returnType ← ReadTypeDesc;
  defaultCount ← get16 0;
  ok ← is_good;
  _ ← demand (ok && bool_decide (defaultCount = paramCount)) (invalid "bad interface method default count");
  defaultValues ← get_list defaultCount (ReadSignatureDefault stringPoolSize);
  mret (MkInterfaceMethod name paramCount paramTypeDescs returnType defaultValues).
Definition ReadInterfaceSignatures (stringPoolSize : nat) : reader (list CompiledInterfaceMethod) :=
  sigCount ← get_count 2 (2 ^ 12) (invalid "bad interface signature count");
  get_list sigCount (ReadOneInterfaceSignature stringPoolSize).
Definition ReadInterface (functionCount stringPoolSize : nat) : reader CompiledInterface :=
  name ← get_string 2 (2 ^ 16) (invalid "bad interface name length");
  staticCount ← get_count 2 (2 ^ 12) (invalid "bad interface static method count");
  staticMethodIndices ← get_list staticCount (get16 0);
  constants ← ReadInterfaceConstants;
  instanceMethods ← ReadInterfaceSignatures stringPoolSize;
  staticInitFuncIdx ← ReadStaticInit functionCount
    (invalid "truncated interface static init index") (invalid "interface static init index out of range");
  mret (MkInterface name staticMethodIndices constants instanceMethods staticInitFuncIdx).
Definition ReadInterfaceRecords (functionCount stringPoolSize : nat) : reader (list CompiledInterface) :=
  ifaceCount ← get_count 4 (2 ^ 20) (invalid "bad interface count");
  cis ← get_list ifaceCount (ReadInterface functionCount stringPoolSize);
  _ ← demand_good (invalid "truncated interface table");
  mret cis.

(** ** Descriptor indices *)
(** Every descriptor the loader validates, in its order. *)
Definition signature_descs (sig : CompiledInterfaceMethod) : list TypeDesc :=
  (ptd_type <$> sig_paramTypeDescs sig) ++ [sig_returnType sig].
Definition validated_descs (fs : list CompiledFunction) (ss : list CompiledStruct) (cs : list CompiledClass)
    (cis : list CompiledInterface) : list TypeDesc :=
  concat ((λ f, (ptd_type <$> func_paramTypeDescs f) ++ [func_returnTypeDesc f]) <$> fs)
  ++ concat (st_fieldTypeDescs <$> ss) ++ concat (cc_fieldTypeDescs <$> cs)
  ++ concat ((λ ci, (constant_type <$> ci_constants ci) ++ concat (signature_descs <$> ci_instanceMethods ci)) <$> cis).
Definition ValidateDescs (structCount classCount : nat) (tds : list TypeDesc) : outcome unit :=
  foldM (λ _ td, ValidateTypeDescIndices td (Z.of_nat structCount) (Z.of_nat classCount)) tt tds.

(** ** Remaining sections *)
Definition ReadArrayType : reader CompiledArrayType :=
  elemKind ← get8 0; elemTypeIdx ← get16 kNone16; rank ← get8 1; mret (MkArrayTypeRecord elemKind elemTypeIdx rank).
Definition ReadEnumNames : reader (list bytes) :=
  valueCount ← get_count 4 (2 ^ 24) (invalid "bad enum value count");
  get_list valueCount (get_string 4 (2 ^ 24) (invalid "bad enum name length")).
Definition ReadEnumKey : reader bytes := get_string 2 65535 (invalid "truncated enum keys").
Definition ReadEnumMethods : reader (list (Z * Z)) :=
  methodCount ← get_count 4 (2 ^ 20) (invalid "bad enum method count");
  get_list methodCount (idx ← get16 0; access ← get8 0; mret (idx, access)).
Definition method_rows (column : Z * Z → Z) (methods : list (list (Z * Z))) : list (list Z) :=
  (λ ms : list (Z * Z), column <$> ms) <$> methods.
Definition ReadEnumRecords : reader (list (list bytes) * list bytes * list (list Z) * list (list Z)) :=
  enumCount ← get_count 4 (2 ^ 24) (invalid "bad enum count");
  enumNames ← get_list enumCount ReadEnumNames;
  enumKeys ← get_list enumCount ReadEnumKey;
  methods ← get_list enumCount ReadEnumMethods;
  _ ← demand_good (invalid "truncated enum keys");
  mret (enumNames, enumKeys, method_rows fst methods, method_rows snd methods).
Definition ReadStaticSlot : reader CompiledStaticSlot :=
  name ← get_string 4 (2 ^ 24) (invalid "bad static slot name length");
  ownerKey ← get_string 4 (2 ^ 24) (invalid "bad static slot owner key length");
  ownerKind ← get8 0; isRuntimeConst ← get8 0; hasInitializer ← get8 0;
  ok ← is_good;
  _ ← demand (ok && bool_decide (ownerKind ≤ 2) && bool_decide (isRuntimeConst ≤ 1) && bool_decide (hasInitializer ≤ 1))
        (invalid "bad static slot flags");
  type ← ReadTypeDesc;
  mret (MkStaticSlotRecord name ownerKey ownerKind isRuntimeConst hasInitializer type).
(** No slot, or one of the table. *)
Definition slot_in_table (slotCount : nat) (idx : Z) : bool :=
  bool_decide (idx = kNone16) || bool_decide (idx < Z.of_nat slotCount).
Definition ReadStaticSlots (cs : list CompiledClass) (cis : list CompiledInterface) : reader (list CompiledStaticSlot) :=
  slotCount ← get_count 4 (2 ^ 20) (invalid "bad static slot count");
  slots ← get_list slotCount ReadStaticSlot;
  _ ← demand (forallb (λ cc, forallb (λ sf, slot_in_table (length slots) (sf_slotIdx sf)) (cc_staticFields cc)) cs)
        (invalid "class static field slot index out of range");
  _ ← demand (forallb (λ ci, forallb (λ c, slot_in_table (length slots) (constant_slotIdx c)) (ci_constants ci)) cis)
        (invalid "interface constant slot index out of range");
  mret slots.
Definition ReadImport (withOwnerKey : bool) : reader SymbolImport :=
  modulePath ← get_string 2 65535 (invalid "bad import module path length");
  name ← get_string 2 65535 (invalid "bad import name length");
  paramCount ← get32 0;
  _ ← demand_good (invalid "truncated imports");
  if withOwnerKey then
    ownerClassKey ← get_string 2 65535 (invalid "bad import owner key length");
    isStatic ← get_flag; ownerKind ← get8 0; ownerOrdinal ← get16 kNone16;
    _ ← demand_good (invalid "truncated import owner fields");
    _ ← demand (bool_decide (ownerKind ≤ 2)) (invalid "bad import owner kind");
    mret (MkImport modulePath name paramCount ownerClassKey isStatic ownerKind ownerOrdinal)
  else mret (MkImport modulePath name paramCount [] false 0 kNone16).
Definition readImports (withOwnerKey : bool) : reader (list SymbolImport) :=
  count ← get_count 4 (2 ^ 24) (invalid "bad import count"); get_list count (ReadImport withOwnerKey).
Definition checkImportBounds (imports : list SymbolImport) (tableSize : nat) (tableName : string) : reader unit :=
  demand (bool_decide (length imports ≤ tableSize)%nat)
    (invalid (tableName ++ " import count exceeds the table size")).

(** ** The module *)
Definition check_version (majorVer minorVer : Z) : reader unit :=
  let version := ("Module version " ++ pretty majorVer ++ "." ++ pretty minorVer)%string in
  _ ← demand (negb (bool_decide (majorVer < NCU_FORMAT_MAJOR ∨ majorVer = NCU_FORMAT_MAJOR ∧ minorVer < NCU_FORMAT_MINOR)))
        (version ++ " is outdated; recompile with current ncc");
  demand (negb (bool_decide (NCU_FORMAT_MAJOR < majorVer ∨ NCU_FORMAT_MINOR < minorVer)))
    (version ++ " was written by a newer ncc; upgrade ncc/nvm to run it").
Definition ReadHeader : reader (bytes * bytes * bytes) :=
  magic ← get_bytes 8;
  _ ← demand (bool_decide (magic = NCU_MAGIC)) "Invalid module file format";
  majorVer ← get16 0; minorVer ← get16 0;
  _ ← demand_good "Truncated module file";
  modulePathLen ← get16 0; modulePath ← get_bytes modulePathLen;
  _ ← demand_good "Truncated module file";
  _ ← check_version majorVer minorVer;
  name ← get_string 4 (2 ^ 24) (invalid "bad name length");
  entryKeyLen ← get16 0;
  _ ← demand_good (invalid "truncated entry key");
  entryKey ← read_into (replicate (Z.to_nat entryKeyLen) 32);
  mret (modulePath, name, entryKey).
Definition ReadStrings : reader (list bytes) :=
  strCount ← get_count 4 (2 ^ 24) (invalid "bad string count");
  get_list strCount (get_string 4 (2 ^ 24) (invalid "bad string length")).
Definition ResolveEntry (fs : list CompiledFunction) (entryKey : bytes) : reader Z :=
  if decide (entryKey = []) then mret (-1) else
  let entryIdx := FindFunction fs entryKey in
  _ ← demand (bool_decide (0 ≤ entryIdx)) (invalid ("entry key '" ++ text entryKey ++ "' names no function in the module"));
  mret entryIdx.
Definition ReadModule : reader (CompiledModule * bytes) :=
  '(modulePath, name, entryKey) ← ReadHeader;
  strings ← ReadStrings;
  fs ← ReadFunctionRecords;
  ss ← ReadStructRecords (length fs);
  cs ← ReadClassRecords (length fs);
  cis ← ReadInterfaceRecords (length fs) (length strings);
  _ ← lift (ValidateDescs (length ss) (length cs) (validated_descs fs ss cs cis));
  arrayTypeCount ← get_count 4 (2 ^ 24) (invalid "bad array type count");
  arrayTypes ← get_list arrayTypeCount ReadArrayType;
  '(enumNames, enumKeys, enumMethodIndices, enumMethodAccess) ← ReadEnumRecords;
  slots ← ReadStaticSlots cs cis;
  functionImports ← readImports true;
  classImports ← readImports false;
  structImports ← readImports false;
  enumImports ← readImports false;
  staticSlotImports ← readImports true;
  _ ← demand_good (invalid "truncated import sections");
  _ ← checkImportBounds functionImports (length fs) "function";
  _ ← checkImportBounds classImports (length cs) "class";
  _ ← checkImportBounds structImports (length ss) "struct";
  _ ← checkImportBounds enumImports (length enumNames) "enum";
  _ ← checkImportBounds staticSlotImports (length slots) "static slot";
  entryPoint ← ResolveEntry fs entryKey;
  mret (MkCompiledModule modulePath name strings fs ss cs cis arrayTypes enumNames enumKeys enumMethodIndices
          enumMethodAccess slots functionImports classImports structImports enumImports staticSlotImports entryPoint,
        entryKey).
Definition LoadFromBytes (image : bytes) : outcome (CompiledModule * bytes) := fst <$> ReadModule (MkStream image true).
