(* ===== verification/ModuleFile.v ===== *)
(** * Module images: the saver and the loader agree

    What a saved module must satisfy ([module_ok]), that such a module is written and
    read back unchanged, that the loader accepts nothing else, and how it ends on images
    that are truncated or wrong. *)
From S2P Require Import Prelude.
From S2P Require Import Bytecode Package Prims TypeDesc Layout Heap HeapGC Frames FramesSpec ByteIO ModuleRecords ModuleSaver ModuleLoader.
Open Scope Z_scope.

(** ** Scalars *)
Lemma codec8 old v : is_uint 8 v → codec (put8 v) (get8 old) v.
Proof. apply (codec_uint 1). Qed.
Lemma codec16 old v : is_uint 16 v → codec (put16 v) (get16 old) v.
Proof. apply (codec_uint 2). Qed.
Lemma codec32 old v : is_uint 32 v → codec (put32 v) (get32 old) v.
Proof. apply (codec_uint 4). Qed.
Lemma codec64 old v : is_uint 64 v → codec (put64 v) (get64 old) v.
Proof. apply (codec_uint 8). Qed.
Lemma codec_signed n old v : (0 < n)%nat → is_sint (8 * Z.of_nat n) v →
  codec (Ok (le_bytes n v)) (x ← get_uint n old; mret (swrap (8 * Z.of_nat n) x)) v.
Proof.
  intros Hn Hv. exists (le_bytes n v). split; [done|]. intros t. unfold get_uint, mbind, reader_bind.
  rewrite reads_into by (by rewrite !length_le_bytes). rewrite le_value_bytes. unfold mret, reader_ret.
  change (v mod 2 ^ (8 * Z.of_nat n)) with (wrap (8 * Z.of_nat n) v). by rewrite swrap_wrap, swrap_small by (done || lia).
Qed.
Lemma codec_int16 old v : is_sint 16 v → codec (put16 v) (get_int16 old) v.
Proof. apply (codec_signed 2). lia. Qed.
Lemma codec_int64 old v : is_sint 64 v → codec (put64 v) (get_int64 old) v.
Proof. apply (codec_signed 8). lia. Qed.
Lemma codec_text n max msg s : string_ok n max s → codec (put_string n s) (get_string n max msg) s.
Proof. intros [H _]. by apply codec_string. Qed.
Lemma codec_demand_good {A} w msg (k : unit → reader A) a :
  codec w (k tt) a → codec w (u ← demand_good msg; k u) a.
Proof. intros (b & E & R). exists b. split; [done|]. intros t. apply R. Qed.
Create HintDb codec.
#[export] Hint Resolve codec8 codec16 codec32 codec64 codec_int16 codec_int64 codec_text codec_count codec_bool codec_flag : codec.
(** One field of a record, a check, or the end. *)
Ltac codec_step := first
  [ apply codec_ret | apply codec_good | apply codec_demand_good | apply codec_demand; [first [done | by apply bool_decide_eq_true] |]
  | eapply codec_bind; [solve [eauto with codec]|] | eapply codec_last; [solve [eauto with codec]|] ].
Ltac solve_codec := repeat codec_step.

Lemma ensures8 old : ensures (get8 old) (is_uint 8).
Proof. apply (ensures_uint 1). Qed.
Lemma ensures16 old : ensures (get16 old) (is_uint 16).
Proof. apply (ensures_uint 2). Qed.
Lemma ensures32 old : ensures (get32 old) (is_uint 32).
Proof. apply (ensures_uint 4). Qed.
Lemma ensures64 old : ensures (get64 old) (is_uint 64).
Proof. apply (ensures_uint 8). Qed.
Lemma ok8 old : reader_ok (get8 old). Proof. apply ok_uint. Qed.
Lemma ok16 old : reader_ok (get16 old). Proof. apply ok_uint. Qed.
Lemma ok32 old : reader_ok (get32 old). Proof. apply ok_uint. Qed.
Lemma ok64 old : reader_ok (get64 old). Proof. apply ok_uint. Qed.
#[export] Hint Resolve ok8 ok16 ok32 ok64 : reader.
Lemma ok_int16 old : reader_ok (get_int16 old). Proof. unfold get_int16. solve_reader_ok. Qed.
Lemma ok_int64 old : reader_ok (get_int64 old). Proof. unfold get_int64. solve_reader_ok. Qed.
Lemma ok_demand_good msg : reader_ok (demand_good msg). Proof. unfold demand_good. solve_reader_ok. Qed.
#[export] Hint Resolve ok_int16 ok_int64 ok_demand_good : reader.
Create HintDb ensures.
#[export] Hint Resolve ensures8 ensures16 ensures32 ensures64 ensures_good ensures_demand ensures_count ensures_string : ensures.
Lemma ensures_any {A} (r : reader A) : ensures r (λ _, True).
Proof. done. Qed.
(** One field read, with what it guarantees. *)
Ltac ensures_step H :=
  eapply ensures_bind; [solve [solve_reader_ok]|solve [solve_reader_ok]|solve [eauto with ensures]|]; cbn beta; intros ? H.
Lemma ensures_int16 old : ensures (get_int16 old) (is_sint 16).
Proof. unfold get_int16. ensures_step H. apply ensures_ret, (swrap_range 16). lia. Qed.
Lemma ensures_int64 old : ensures (get_int64 old) (is_sint 64).
Proof. unfold get_int64. ensures_step H. apply ensures_ret, (swrap_range 64). lia. Qed.
Lemma ensures_demand_good msg : ensures (demand_good msg) (λ _, True).
Proof. apply ensures_any. Qed.
Lemma ensures_bool : ensures get_bool (λ _, True).
Proof. apply ensures_any. Qed.
Lemma ensures_flag : ensures get_flag (λ _, True).
Proof. apply ensures_any. Qed.
#[export] Hint Resolve ensures_int16 ensures_int64 ensures_demand_good ensures_bool ensures_flag : ensures.

(** ** Type descriptors *)
Definition td_ok (td : TypeDesc) : Prop :=
  wf_desc (kMaxTypeDescDepth + 1) td
  ∧ ∃ bs, AppendTypeDescBytes [] td = Ok bs ∧ Z.of_nat (length bs) ≤ kMaxTypeDescBytes.
Lemma no_type_ok : td_ok no_type.
Proof. split; [by apply wf_leaf|]. by exists [251]. Qed.
Lemma codec_td td : td_ok td → codec (WriteLenPrefixedTypeDesc td) ReadTypeDesc td.
Proof.
  intros [(bs & Ha & Hb & Hp & Hne)%decodes_whole (bs' & Ha' & Hl)]. specialize (Ha []). rewrite Ha in Ha'.
  injection Ha' as <-. unfold WriteLenPrefixedTypeDesc. rewrite Ha, bindE. unfold put_string, kMaxTypeDescBytes in *.
  cbn [app] in *. rewrite wrap_small by (unfold is_uint; change (2 ^ (8 * Z.of_nat 2)) with 65536; lia).
  rewrite Nat2Z.id, firstn_all.
  change (codec (put_size 2 bs +++ Ok bs) ReadTypeDesc td).
  eapply codec_bind; [apply codec_count; split; [done|change (2 ^ (8 * Z.of_nat 2)) with 65536; lia]|].
  rewrite decide_False by (destruct bs; simpl in *; [done|lia]).
  eapply codec_last; [apply codec_bytes|]. apply codec_demand_good.
  rewrite Hp. by exists [].
Qed.
Lemma check_failure b err e : check b err = Raise e → load_failure err → load_failure e.
Proof. destruct b; [done|]. by intros [= <-]. Qed.
Lemma ParseOne_error rem data : ∀ pos e, ParseOne rem data pos = Raise e → load_failure e.
Proof.
  assert (∀ parse n, (∀ pos e, parse pos = Raise e → load_failure e) →
    ∀ pos e, parse_many parse n pos = Raise e → load_failure e) as Hmany.
  { intros parse n Hp. induction n as [|n IH]; intros pos e; cbn; [done|]. rewrite bind_Raise.
    intros [?|([td pos1] & _ & H)]; [by eapply Hp|]. apply bind_Raise in H as [?|([tds pos2] & _ & [=])]. by eapply IH. }
  assert (∀ b pos' e, (b = true → is_Some (data !! pos')) →
    (_ ← check b truncated; deref (data !! pos')) = Raise e → load_failure e) as Hbyte.
  { intros [] pos' e Hb; [|by intros [= <-]]. destruct (Hb eq_refl) as [x ->]. done. }
  assert (∀ pos : nat, bool_decide (pos < length data)%nat = true → is_Some (data !! pos)) as Hlt.
  { intros pos H%bool_decide_eq_true. by apply lookup_lt_is_Some. }
  induction rem as [|rem IH]; intros pos e; cbn [ParseOne]; [by intros [= <-]|].
  intros [H|([] & Hc%check_Ok & H)]%bind_Raise; [by eapply check_failure|].
  destruct (Hlt _ Hc) as [kind Hk]. rewrite Hk, derefE, bindE in H. revert H.
  destruct (decide (kind = RTK_Struct ∨ kind = RTK_Class)); [|destruct (decide (kind = RTK_Array));
    [|destruct (decide (kind = RTK_List)); [|destruct (decide (kind = RTK_Dict));
    [|destruct (decide (kind = RTK_Func))]]]]; intros HE; apply bind_Raise in HE; revert HE.
  - intros [H|([idx p2] & _ & [=])]. unfold ParseTypeIndex in H.
    apply bind_Raise in H as [H|(? & H2%check_Ok%bool_decide_eq_true & H)]; [by eapply check_failure|].
    destruct (lookup_lt_is_Some_2 data (S pos)) as [lo Hx]; [lia|]. rewrite Hx in H. cbn in H.
    destruct (lookup_lt_is_Some_2 data (S (S pos))) as [hi Hy]; [lia|]. rewrite Hy in H. done.
  - intros [H|([[e1 r] p2] & _ & [=])]. unfold ParseArrayBody in H.
    apply bind_Raise in H as [H|([td p1] & _ & H)]; [by eapply IH|].
    apply bind_Raise in H as [H|(? & H1%check_Ok & H)]; [by eapply check_failure|].
    destruct (Hlt _ H1) as [r Hr]. rewrite Hr in H. cbn in H.
    apply bind_Raise in H as [H|(? & _ & [=])]. by eapply check_failure.
  - intros [H|([td p1] & _ & [=])]. by eapply IH.
  - intros [H|([td p1] & _ & [=])]. by eapply Hmany.
  - intros [H|([td p1] & _ & [=])]. unfold ParseFuncElems in H.
    apply bind_Raise in H as [H|(? & H1%check_Ok & H)]; [by eapply check_failure|].
    destruct (Hlt _ H1) as [r Hr]. rewrite Hr in H. cbn [deref] in H. rewrite bindE in H. by eapply Hmany.
  - intros [H|(? & _ & [=])]. by eapply check_failure.
Qed.
Lemma ParseTypeDescBytes_error data e : ParseTypeDescBytes data = Raise e → load_failure e.
Proof.
  unfold ParseTypeDescBytes. intros [H|([td p] & _ & H)]%bind_Raise; [by eapply ParseOne_error|].
  apply bind_Raise in H as [H|(? & _ & [=])]. by eapply check_failure.
Qed.
Lemma ok_parse data : reader_ok (lift (ParseTypeDescBytes data)).
Proof. apply ok_lift, ParseTypeDescBytes_error. Qed.
#[export] Hint Resolve ok_parse : reader.
Lemma ok_td : reader_ok ReadTypeDesc.
Proof. unfold ReadTypeDesc. solve_reader_ok. Qed.
#[export] Hint Resolve codec_td : codec.
#[export] Hint Resolve ok_td : reader.
Lemma ensures_td : ensures ReadTypeDesc td_ok.
Proof.
  unfold ReadTypeDesc. ensures_step Hlen. case_decide; [apply ensures_ret, no_type_ok|].
  eapply ensures_bind; [solve_reader_ok..|apply ensures_bytes; lia|]. cbn beta. intros bs [Hl Hb].
  ensures_step Hg. intros s td s' _ HP _. unfold lift in HP. destruct (ParseTypeDescBytes bs) as [td'|] eqn:E; [|done].
  injection HP as -> _. apply (typedesc_canonical bs td Hb) in E as [Hw Ha]. split; [done|]. exists bs. split; [done|lia].
Qed.
#[export] Hint Resolve ensures_td : ensures.

(** ** Small records *)
Definition dv_ok (dv : DefaultValueDesc) : Prop :=
  is_uint 8 (dv_tag dv) ∧ is_uint 32 (dv_intValue dv) ∧ is_uint 32 (dv_floatValue dv) ∧ is_uint 32 (dv_stringIdx dv)
  ∧ is_sint 64 (dv_longValue dv) ∧ is_uint 64 (dv_doubleValue dv) ∧ string_ok 2 kMaxExprDescBytes (dv_exprBytes dv).
Definition tb_ok (tb : TryBlock) : Prop :=
  is_uint 16 (tb_startPc tb) ∧ is_uint 16 (tb_endPc tb) ∧ is_uint 16 (tb_handlerPc tb)
  ∧ is_uint 16 (tb_exceptionClassIdx tb) ∧ is_uint 16 (tb_catchLocalOff tb).
Definition ld_ok (ld : LocalDescriptor) : Prop :=
  is_uint 16 (ld_offset ld) ∧ is_uint 16 (ld_size ld) ∧ is_uint 8 (ld_isParam ld) ∧ is_uint 8 (ld_typeKind ld)
  ∧ is_uint 16 (ld_declPc ld) ∧ string_ok 4 (2 ^ 16) (ld_name ld).
Definition ptd_ok (ptd : ParamTypeDesc) : Prop := is_uint 8 (ptd_flags ptd) ∧ td_ok (ptd_type ptd).

(** A record is written and read field by field: split it and its conditions. *)
Ltac record_codec := intros; repeat match goal with H : _ ∧ _ |- _ => destruct H end; cbn in *; solve_codec.
Lemma codec_dv dv : dv_ok dv → codec (WriteDefaultValueDesc dv) ReadDefaultValueDesc dv.
Proof. destruct dv. unfold dv_ok, WriteDefaultValueDesc, ReadDefaultValueDesc. record_codec. Qed.
Lemma codec_tb tb : tb_ok tb → codec (WriteTryBlock tb) ReadTryBlock tb.
Proof. destruct tb. unfold tb_ok, WriteTryBlock, ReadTryBlock. record_codec. Qed.
Lemma codec_ld ld : ld_ok ld → codec (WriteLocal ld) ReadLocal ld.
Proof. destruct ld. unfold ld_ok, WriteLocal, ReadLocal. record_codec. Qed.
Lemma codec_ptd ptd : ptd_ok ptd → codec (WriteParamType ptd) ReadParamType ptd.
Proof. destruct ptd. unfold ptd_ok, WriteParamType, ReadParamType. record_codec. Qed.
Lemma ok_dv : reader_ok ReadDefaultValueDesc. Proof. unfold ReadDefaultValueDesc. solve_reader_ok. Qed.
Lemma ok_tb : reader_ok ReadTryBlock. Proof. unfold ReadTryBlock. solve_reader_ok. Qed.
Lemma ok_ld : reader_ok ReadLocal. Proof. unfold ReadLocal. solve_reader_ok. Qed.
#[export] Hint Resolve ok_dv ok_tb ok_ld : reader.
Lemma ok_ptd : reader_ok ReadParamType. Proof. unfold ReadParamType. solve_reader_ok. Qed.
#[export] Hint Resolve ok_ptd : reader.
(** What was read of each field, and then the whole record. *)
Ltac ensures_field := let H := fresh "H" in ensures_step H.
Ltac record_ensures := repeat ensures_field; apply ensures_ret; cbn; split_and!; eauto.
Lemma ensures_dv : ensures ReadDefaultValueDesc dv_ok.
Proof. unfold ReadDefaultValueDesc. record_ensures. Qed.
Lemma ensures_tb : ensures ReadTryBlock tb_ok.
Proof. unfold ReadTryBlock. record_ensures. Qed.
Lemma ensures_ld : ensures ReadLocal ld_ok.
Proof. unfold ReadLocal. record_ensures. Qed.
Lemma ensures_ptd : ensures ReadParamType ptd_ok.
Proof. unfold ReadParamType. record_ensures. Qed.
#[export] Hint Resolve codec_dv codec_tb codec_ld codec_ptd : codec.
#[export] Hint Resolve ensures_dv ensures_tb ensures_ld ensures_ptd : ensures.

(** ** Lists of records *)
(** A counted list, and one parallel to a count read before. *)
Definition counted {A} (n : nat) (max : Z) (P : A → Prop) (l : list A) : Prop := fits n max l ∧ Forall P l.
Definition column {A} (n : Z) (P : A → Prop) (l : list A) : Prop := Z.of_nat (length l) = n ∧ Forall P l.
Lemma codec_each {A} (f : A → outcome bytes) r P l :
  Forall P l → (∀ a, P a → codec (f a) r a) → codec (put_all f l) (get_list (Z.of_nat (length l)) r) l.
Proof. intros Hl H. apply codec_list. by eapply list.Forall_impl. Qed.
Lemma codec_column {A} (f : A → outcome bytes) r P n l :
  column n P l → (∀ a, P a → codec (f a) r a) → codec (put_first (Z.to_nat n) f l) (get_list n r) l.
Proof. intros [Hn Hl] H. apply codec_first; [done|]. by eapply list.Forall_impl. Qed.
Lemma codec_column_all {A} (f : A → outcome bytes) r P n l :
  column n P l → (∀ a, P a → codec (f a) r a) → codec (put_all f l) (get_list n r) l.
Proof. intros [<- Hl] H. by eapply codec_each. Qed.
Lemma put_fields_all {A} n (f : A → outcome bytes) d l : length l = n → put_fields_or n f d l = put_all f l.
Proof.
  intros <-. unfold put_fields_or, put_all.
  enough (∀ (g : nat → A) k, (∀ i a, l !! i = Some a → g (k + i)%nat = a) →
    foldr (λ i out, f (g i) +++ out) (Ok []) (seq k (length l)) = foldr (λ a out, f a +++ out) (Ok []) l) as H.
  { apply (H (λ i, List.nth i l d) 0%nat). intros i a Hi. by apply nth_lookup_Some. }
  induction l as [|a l IH]; intros g k Hg; [done|]. cbn [length seq foldr].
  rewrite (IH g (S k)) by (intros i b Hi; rewrite <- (Hg (S i) b Hi); f_equal; lia).
  by rewrite <- (Hg 0%nat a eq_refl), Nat.add_0_r.
Qed.
Lemma codec_column_or {A} (f : A → outcome bytes) d r P n l :
  column n P l → (∀ a, P a → codec (f a) r a) → codec (put_fields_or (Z.to_nat n) f d l) (get_list n r) l.
Proof. intros H. pose proof H as [Hn _]. rewrite put_fields_all by lia. by apply codec_column_all. Qed.
#[export] Hint Resolve codec_each codec_column codec_column_all codec_column_or : codec.
Lemma ensures_column {A} n (r : reader A) P : 0 ≤ n → reader_ok r → ensures r P → ensures (get_list n r) (column n P).
Proof. apply ensures_list. Qed.
Lemma is_uint_nonneg w v : is_uint w v → 0 ≤ v. Proof. by intros [? _]. Qed.
Lemma column_fits {A} n max (P : A → Prop) (l : list A) c :
  0 ≤ c ≤ max ∧ c < 2 ^ (8 * Z.of_nat n) → column c P l → counted n max P l.
Proof. intros Hc [Hl HP]. split; [split; lia|done]. Qed.
Lemma column_parallel {A B} c (P : A → Prop) (Q : B → Prop) l l' :
  column c P l → column c Q l' → column (Z.of_nat (length l)) Q l'.
Proof. by intros [-> _]. Qed.
#[export] Hint Extern 1 (0 ≤ _) => lia : ensures.
#[export] Hint Extern 1 (0 ≤ _) => eapply is_uint_nonneg; eassumption : ensures.
#[export] Hint Extern 1 (reader_ok _) => solve_reader_ok : ensures.
#[export] Hint Resolve ensures_column : ensures.

(** A whole table: its count, then its records. *)
Lemma codec_table {A} n max msg (f : A → outcome bytes) r P l : counted n max P l → (∀ a, P a → codec (f a) r a) →
  codec (put_size n l +++ put_all f l) (c ← get_count n max msg; get_list c r) l.
Proof. intros [Hf Hl] H. eapply codec_bind; [by apply codec_count|]. by eapply codec_each. Qed.
Lemma ensures_table {A} n max msg (r : reader A) P : reader_ok r → ensures r P →
  ensures (c ← get_count n max msg; get_list c r) (counted n max P).
Proof.
  intros Hr HP. eapply ensures_bind; [apply ok_count|intros; by apply ok_list|apply ensures_count|]. cbn beta.
  intros c Hc s l s' Hs E Hg. eapply column_fits; [done|]. by eapply (ensures_column c r P ltac:(lia)).
Qed.
#[export] Hint Resolve codec_table : codec.
#[export] Hint Resolve ensures_table : ensures.

(** The conditions that were checked. *)
Ltac decided := repeat match goal with H : _ && _ = true |- _ => apply andb_true_iff in H as [? ?] end;
  repeat match goal with H : bool_decide _ = true |- _ => apply bool_decide_eq_true in H end; try done.

(** ** Functions *)
Definition ret_ok (kind : Z) (td : TypeDesc) : Prop := if decide (kind ≠ RTK_Void) then td_ok td else td = no_type.
Definition func_ok (f : CompiledFunction) : Prop :=
  string_ok 4 (2 ^ 24) (func_name f) ∧ is_uint 16 (func_localsSize f) ∧ is_uint 16 (func_paramCount f)
  ∧ is_uint 16 (func_returnTypeKind f) ∧ is_uint 16 (func_intrinsicId f)
  ∧ counted 2 256 dv_ok (func_defaultValues f) ∧ string_ok 4 (2 ^ 26) (func_bytecode f)
  ∧ counted 2 1024 tb_ok (func_tryBlocks f) ∧ counted 2 4096 ld_ok (func_locals f)
  ∧ string_ok 4 (2 ^ 16) (func_sourceFile f) ∧ counted 2 kMaxParamDescCount ptd_ok (func_paramTypeDescs f)
  ∧ ret_ok (func_returnTypeKind f) (func_returnTypeDesc f)
  ∧ string_ok 4 (2 ^ 16) (func_evalAreaHandleMask f)
  ∧ Z.of_nat (length (func_evalAreaHandleMask f)) = mask_length (func_localsSize f) (func_paramCount f).
Lemma codec_ret_desc kind td : ret_ok kind td →
  codec (if decide (kind ≠ RTK_Void) then WriteLenPrefixedTypeDesc td else Ok [])
        (if decide (kind ≠ RTK_Void) then ReadTypeDesc else mret no_type) td.
Proof. unfold ret_ok. case_decide; [apply codec_td|]. intros ->. apply codec_ret. Qed.
#[export] Hint Resolve codec_ret_desc : codec.
Lemma codec_function f : func_ok f → codec (WriteFunction f) ReadFunction f.
Proof. destruct f. unfold func_ok, counted, WriteFunction, ReadFunction. record_codec. Qed.
Lemma ok_function : reader_ok ReadFunction.
Proof. unfold ReadFunction. solve_reader_ok. Qed.
Lemma ensures_ret_desc kind :
  ensures (if decide (kind ≠ RTK_Void) then ReadTypeDesc else mret no_type) (ret_ok kind).
Proof. unfold ret_ok. case_decide; [apply ensures_td|by apply ensures_ret]. Qed.
#[export] Hint Resolve ensures_ret_desc : ensures.
Lemma ensures_function : ensures ReadFunction func_ok.
Proof.
  unfold ReadFunction. repeat ensures_field. apply ensures_ret. unfold func_ok. cbn.
  split_and!; eauto using column_fits; decided.
Qed.
#[export] Hint Resolve codec_function : codec.
#[export] Hint Resolve ok_function : reader.
#[export] Hint Resolve ensures_function : ensures.

(** ** Structs *)
Definition upto (max a : Z) : Prop := is_uint 8 a ∧ a ≤ max.
Definition index_ok (functionCount : nat) (i : Z) : Prop := is_uint 16 i ∧ i < Z.of_nat functionCount.
Definition st_ok (functionCount : nat) (st : CompiledStruct) : Prop :=
  string_ok 4 (2 ^ 24) (st_name st) ∧ is_uint 16 (st_fieldCount st)
  ∧ column (st_fieldCount st) (string_ok 4 (2 ^ 24)) (st_fieldNames st)
  ∧ column (st_fieldCount st) (is_uint 16) (st_fieldTypeKinds st)
  ∧ column (st_fieldCount st) (is_uint 16) (st_fieldStructIndices st)
  ∧ column (st_fieldCount st) (is_uint 16) (st_fieldClassIndices st)
  ∧ column (st_fieldCount st) td_ok (st_fieldTypeDescs st)
  ∧ counted 2 (2 ^ 12) (index_ok functionCount) (st_constructorIndices st)
  ∧ column (st_fieldCount st) dv_ok (st_fieldDefaults st)
  ∧ column (Z.of_nat (length (st_constructorIndices st))) (upto FA_Public) (st_constructorAccess st).
Lemma codec_upto max msg a : upto max a → codec (put8 a) (ReadByteUpTo max msg) a.
Proof. intros [Ha Hm]. unfold ReadByteUpTo. solve_codec. Qed.
#[export] Hint Resolve codec_upto : codec.
Lemma codec_indices functionCount truncated range l :
  Forall (index_ok functionCount) l →
  codec (put_all put16 l) (ReadFunctionIndices functionCount (Z.of_nat (length l)) truncated range) l.
Proof.
  intros Hl. unfold ReadFunctionIndices. eapply codec_last; [eapply codec_each; [exact Hl|]|].
  { intros a [Ha _]. by apply codec16. }
  apply codec_demand_good, codec_demand; [|apply codec_ret]. apply Is_true_true, forallb_True.
  eapply list.Forall_impl; [exact Hl|]. intros a [_ Ha]. unfold in_functions. by rewrite bool_decide_true.
Qed.
#[export] Hint Resolve codec_indices : codec.
Lemma codec_struct n st : st_ok n st → codec (WriteStruct st) (ReadStruct n) st.
Proof. destruct st. unfold st_ok, counted, WriteStruct, ReadStruct. record_codec. Qed.
Lemma ok_upto max msg : reader_ok (ReadByteUpTo max msg).
Proof. unfold ReadByteUpTo. solve_reader_ok. Qed.
Lemma ok_indices n count truncated range : reader_ok (ReadFunctionIndices n count truncated range).
Proof. unfold ReadFunctionIndices. solve_reader_ok. Qed.
#[export] Hint Resolve ok_upto ok_indices : reader.
Lemma ok_struct n : reader_ok (ReadStruct n).
Proof. unfold ReadStruct. solve_reader_ok. Qed.
Lemma ensures_upto max msg : ensures (ReadByteUpTo max msg) (upto max).
Proof. unfold ReadByteUpTo. repeat ensures_field. apply ensures_ret. decided. Qed.
Lemma ensures_indices n count truncated range : 0 ≤ count →
  ensures (ReadFunctionIndices n count truncated range) (column count (index_ok n)).
Proof.
  intros Hc. unfold ReadFunctionIndices. ensures_step Hl. ensures_step Hg. ensures_step Hr. apply ensures_ret.
  destruct Hl as [Hl Hu]. split; [done|]. apply Is_true_true, forallb_True in Hr.
  rewrite list.Forall_forall in Hu, Hr |- *. intros i Hi. split; [by apply Hu|].
  specialize (Hr i Hi). unfold in_functions in Hr. by apply bool_decide_unpack in Hr.
Qed.
#[export] Hint Resolve ensures_upto ensures_indices : ensures.
Lemma ensures_struct n : ensures (ReadStruct n) (st_ok n).
Proof.
  unfold ReadStruct. repeat ensures_field. apply ensures_ret. decided. subst. unfold st_ok. cbn.
  split_and!; eauto using column_fits, column_parallel.
Qed.
#[export] Hint Resolve codec_struct : codec.
#[export] Hint Resolve ok_struct : reader.
#[export] Hint Resolve ensures_struct : ensures.

(** ** Classes *)
Definition folded_ok (slotIdx : Z) (dv : DefaultValueDesc) : Prop :=
  if decide (slotIdx = kNone16) then dv_ok dv else dv = no_default.
Definition sf_ok (sf : CompiledStaticField) : Prop :=
  string_ok 4 (2 ^ 24) (sf_name sf) ∧ td_ok (sf_type sf) ∧ upto FA_Public (sf_access sf)
  ∧ is_uint 16 (sf_slotIdx sf) ∧ folded_ok (sf_slotIdx sf) (sf_foldedValue sf).
Definition init_ok (functionCount : nat) (idx : Z) : Prop :=
  is_uint 16 idx ∧ (idx = kNone16 ∨ idx < Z.of_nat functionCount).
Definition cc_ok (functionCount : nat) (cc : CompiledClass) : Prop :=
  string_ok 4 (2 ^ 24) (cc_name cc) ∧ is_uint 16 (cc_fieldCount cc) ∧ is_sint 16 (cc_superClassIdx cc)
  ∧ column (cc_fieldCount cc) (string_ok 4 (2 ^ 24)) (cc_fieldNames cc)
  ∧ column (cc_fieldCount cc) (is_uint 16) (cc_fieldTypeKinds cc)
  ∧ column (cc_fieldCount cc) (is_uint 16) (cc_fieldStructIndices cc)
  ∧ column (cc_fieldCount cc) (is_uint 16) (cc_fieldClassIndices cc)
  ∧ column (cc_fieldCount cc) td_ok (cc_fieldTypeDescs cc)
  ∧ column (cc_fieldCount cc) (upto FA_Public) (cc_fieldAccess cc)
  ∧ counted 2 (2 ^ 12) (index_ok functionCount) (cc_methodIndices cc)
  ∧ column (Z.of_nat (length (cc_methodIndices cc))) (upto FA_Public) (cc_methodAccess cc)
  ∧ column (Z.of_nat (length (cc_methodIndices cc))) (upto 1) (cc_methodVirtual cc)
  ∧ counted 2 (2 ^ 12) (index_ok functionCount) (cc_constructorIndices cc)
  ∧ column (Z.of_nat (length (cc_constructorIndices cc))) (upto FA_Public) (cc_constructorAccess cc)
  ∧ counted 2 (2 ^ 12) sf_ok (cc_staticFields cc)
  ∧ init_ok functionCount (cc_staticInitFuncIdx cc).
Lemma codec_folded idx dv : folded_ok idx dv →
  codec (if decide (idx = kNone16) then WriteDefaultValueDesc dv else Ok [])
        (if decide (idx = kNone16) then ReadDefaultValueDesc else mret no_default) dv.
Proof. unfold folded_ok. case_decide; [apply codec_dv|]. intros ->. apply codec_ret. Qed.
Lemma codec_const_flag b msg : codec (put8 (flag b)) (ReadByteUpTo 1 msg) (flag b).
Proof. apply codec_upto. by destruct b. Qed.
#[export] Hint Resolve codec_folded codec_const_flag : codec.
Lemma codec_static_field sf : sf_ok sf → codec (WriteStaticField sf) ReadStaticField sf.
Proof.
  destruct sf as [? ? ? b ? ?]. unfold sf_ok, WriteStaticField, ReadStaticField. record_codec.
  destruct b; apply codec_ret.
Qed.
Lemma codec_init n truncated range idx : init_ok n idx → codec (put16 idx) (ReadStaticInit n truncated range) idx.
Proof.
  intros [Hu Hi]. unfold ReadStaticInit. do 2 codec_step. apply codec_demand; [|apply codec_ret].
  unfold in_functions. apply orb_true_iff. rewrite !bool_decide_eq_true. done.
Qed.
#[export] Hint Resolve codec_static_field codec_init : codec.
Lemma codec_class n cc : cc_ok n cc → codec (WriteClass cc) (ReadClass n) cc.
Proof. destruct cc. unfold cc_ok, counted, WriteClass, ReadClass. record_codec. Qed.
Lemma ok_static_field : reader_ok ReadStaticField.
Proof. unfold ReadStaticField. solve_reader_ok. Qed.
Lemma ok_init n truncated range : reader_ok (ReadStaticInit n truncated range).
Proof. unfold ReadStaticInit. solve_reader_ok. Qed.
#[export] Hint Resolve ok_static_field ok_init : reader.
Lemma ok_class n : reader_ok (ReadClass n).
Proof. unfold ReadClass. solve_reader_ok. Qed.
Lemma ensures_folded idx :
  ensures (if decide (idx = kNone16) then ReadDefaultValueDesc else mret no_default) (folded_ok idx).
Proof. unfold folded_ok. case_decide; [apply ensures_dv|by apply ensures_ret]. Qed.
#[export] Hint Resolve ensures_folded : ensures.
Lemma ensures_static_field : ensures ReadStaticField sf_ok.
Proof. unfold ReadStaticField. record_ensures. Qed.
Lemma ensures_init n truncated range : ensures (ReadStaticInit n truncated range) (init_ok n).
Proof.
  unfold ReadStaticInit. ensures_step Hu. ensures_step Hg. ensures_step Hr. apply ensures_ret. split; [done|].
  apply orb_true_iff in Hr. unfold in_functions in Hr. by rewrite !bool_decide_eq_true in Hr.
Qed.
#[export] Hint Resolve ensures_static_field ensures_init : ensures.
Lemma ensures_class n : ensures (ReadClass n) (cc_ok n).
Proof.
  unfold ReadClass. repeat ensures_field. apply ensures_ret. unfold cc_ok. cbn.
  split_and!; eauto using column_fits, column_parallel.
Qed.
#[export] Hint Resolve codec_class : codec.
#[export] Hint Resolve ok_class : reader.
#[export] Hint Resolve ensures_class : ensures.
