(* ===== verification/ModuleImage.v ===== *)
(** * Module images: the module

    The sections after the record tables, the whole image, and the theorems about saving,
    loading, truncated images and the loader's failures. *)
From S2P Require Import Prelude.
From S2P Require Import Bytecode Package Prims TypeDesc Layout Heap HeapGC Frames FramesSpec ByteIO ModuleRecords ModuleSaver ModuleLoader ModuleFile.
Open Scope Z_scope.

(** ** Nested readers *)
Lemma codec_assoc {A B C} w (r : reader A) (k1 : A → reader B) (k2 : B → reader C) c :
  codec w (a ← r; b ← k1 a; k2 b) c → codec w (b ← (a ← r; k1 a); k2 b) c.
Proof.
  intros (bs & E & R). exists bs. split; [done|]. intros t. specialize (R t). unfold mbind, reader_bind in *.
  by destruct (r _) as [[a s]|].
Qed.
Lemma codec_pure {A B} w (a : A) (k : A → reader B) b : codec w (k a) b → codec w (x ← mret a; k x) b.
Proof. done. Qed.
Ltac flat_step := first [ codec_step | apply codec_pure | apply codec_assoc ].
Ltac solve_flat := repeat flat_step.
Lemma put_all_seq {A} (f : nat → outcome bytes) (g : A → outcome bytes) l :
  (∀ i a, l !! i = Some a → f i = g a) → put_all f (seq 0 (length l)) = put_all g l.
Proof.
  intros H. enough (∀ k, (∀ i a, l !! i = Some a → f (k + i)%nat = g a) → put_all f (seq k (length l)) = put_all g l) as E by by apply E.
  clear H. induction l as [|a l IH]; intros k H; [done|]. cbn [length seq]. rewrite !put_all_cons.
  rewrite (IH (S k)) by (intros i b Hi; rewrite <- (H (S i) b Hi); f_equal; lia).
  by rewrite <- (H 0%nat a eq_refl), Nat.add_0_r.
Qed.

(** ** Class and interface tables *)
Definition classes_ok (n : nat) (cs : list CompiledClass) : Prop :=
  counted 4 (2 ^ 24) (cc_ok n) cs ∧ CheckSuperChains (chain_view cs) = Ok tt.
Lemma codec_classes n cs : classes_ok n cs → codec (WriteClassRecords cs) (ReadClassRecords n) cs.
Proof.
  intros [[Hf Hc] Hs]. unfold WriteClassRecords, ReadClassRecords. do 2 codec_step. by eapply codec_lift; [|apply codec_ret].
Qed.
Lemma foldM_failure {A S} (f : S → A → outcome S) l : (∀ s a e, f s a = Raise e → load_failure e) →
  ∀ s e, foldM f s l = Raise e → load_failure e.
Proof.
  intros H. induction l as [|a l IH]; intros s e; cbn [foldM]; [done|].
  intros [?|(s1 & _ & ?)]%bind_Raise; [by eapply H|by eapply IH].
Qed.
Lemma ok_chains cs : reader_ok (lift (CheckSuperChains (chain_view cs))).
Proof.
  apply ok_lift. apply foldM_failure. intros _ row e H.
  destruct (chain_steps_total (chain_view cs) (walk_fuel (chain_view cs)) (cls_super row) 0) as [E|E];
    [unfold walk_fuel; lia|lia|congruence|]. rewrite E in H. by injection H as <-.
Qed.
#[export] Hint Resolve codec_classes : codec.
#[export] Hint Resolve ok_chains : reader.
Lemma ok_classes n : reader_ok (ReadClassRecords n).
Proof. unfold ReadClassRecords. solve_reader_ok. Qed.
Lemma ensures_classes n : ensures (ReadClassRecords n) (classes_ok n).
Proof.
  unfold ReadClassRecords. ensures_step Hc. ensures_step Hl.
  eapply ensures_bind; [solve_reader_ok..|apply ensures_lift|]. cbn beta. intros [] Hs.
  apply ensures_ret. split; [by eapply column_fits|done].
Qed.
#[export] Hint Resolve ok_classes : reader.
#[export] Hint Resolve ensures_classes : ensures.

Definition constant_ok (c : CompiledInterfaceConstant) : Prop :=
  string_ok 2 (2 ^ 16) (constant_name c) ∧ td_ok (constant_type c) ∧ dv_ok (constant_value c)
  ∧ is_uint 16 (constant_slotIdx c).
Definition sig_default_ok (poolSize : nat) (dv : DefaultValueDesc) : Prop :=
  dv_ok dv ∧ ¬ (dv_tag dv = RTK_String ∧ Z.of_nat poolSize ≤ dv_stringIdx dv).
Definition sig_ok (poolSize : nat) (sig : CompiledInterfaceMethod) : Prop :=
  string_ok 2 (2 ^ 16) (sig_name sig)
  ∧ counted 2 kMaxInterfaceSigParams ptd_ok (sig_paramTypeDescs sig)
  ∧ sig_paramCount sig = Z.of_nat (length (sig_paramTypeDescs sig)) ∧ td_ok (sig_returnType sig)
  ∧ column (Z.of_nat (length (sig_paramTypeDescs sig))) (sig_default_ok poolSize) (sig_defaultValues sig).
Definition ci_ok (functionCount poolSize : nat) (ci : CompiledInterface) : Prop :=
  string_ok 2 (2 ^ 16) (ci_name ci)
  ∧ counted 2 (2 ^ 12) (is_uint 16) (ci_staticMethodIndices ci)
  ∧ counted 2 (2 ^ 12) constant_ok (ci_constants ci)
  ∧ counted 2 (2 ^ 12) (sig_ok poolSize) (ci_instanceMethods ci)
  ∧ init_ok functionCount (ci_staticInitFuncIdx ci).
Lemma codec_constant c : constant_ok c → codec (WriteInterfaceConstant c) ReadInterfaceConstant c.
Proof. destruct c. unfold constant_ok, WriteInterfaceConstant, ReadInterfaceConstant. record_codec. Qed.
Lemma codec_sig_default n dv : sig_default_ok n dv → codec (WriteDefaultValueDesc dv) (ReadSignatureDefault n) dv.
Proof.
  intros [Hd Hs]. unfold ReadSignatureDefault. eapply codec_last; [by apply codec_dv|].
  apply codec_demand; [|apply codec_ret]. by rewrite bool_decide_false.
Qed.
#[export] Hint Resolve codec_constant codec_sig_default : codec.
Lemma codec_signature n sig : sig_ok n sig → codec (WriteSignature sig) (ReadOneInterfaceSignature n) sig.
Proof.
  destruct sig as [name pc ptds ret dvs]. unfold sig_ok, counted, WriteSignature, ReadOneInterfaceSignature. cbn.
  intros (Hn & [Hf Hp] & -> & Hr & [Hl Hd]). do 5 codec_step.
  eapply codec_bind; [apply codec16; destruct Hf; rewrite Hl; split; lia|]. rewrite Hl.
  apply codec_good, codec_demand; [by rewrite bool_decide_true|]. rewrite <- Hl. solve_codec.
Qed.
#[export] Hint Resolve codec_signature : codec.
Lemma codec_interface n p ci : ci_ok n p ci → codec (WriteInterface ci) (ReadInterface n p) ci.
Proof.
  destruct ci. unfold ci_ok, counted, WriteInterface, ReadInterface, WriteInterfaceConstants, WriteInterfaceSignatures.
  unfold ReadInterfaceConstants, ReadInterfaceSignatures. intros (? & [? ?] & ? & ? & ?). cbn in *. solve_codec.
Qed.
#[export] Hint Resolve codec_interface : codec.
Definition interfaces_ok (n p : nat) : list CompiledInterface → Prop := counted 4 (2 ^ 20) (ci_ok n p).
Lemma codec_interfaces n p cis : interfaces_ok n p cis → codec (WriteInterfaceRecords cis) (ReadInterfaceRecords n p) cis.
Proof. intros [? ?]. unfold WriteInterfaceRecords, ReadInterfaceRecords. solve_codec. Qed.
#[export] Hint Resolve codec_interfaces : codec.
Lemma ok_constant : reader_ok ReadInterfaceConstant. Proof. unfold ReadInterfaceConstant. solve_reader_ok. Qed.
Lemma ok_sig_default n : reader_ok (ReadSignatureDefault n). Proof. unfold ReadSignatureDefault. solve_reader_ok. Qed.
#[export] Hint Resolve ok_constant ok_sig_default : reader.
Lemma ok_constants : reader_ok ReadInterfaceConstants. Proof. unfold ReadInterfaceConstants. solve_reader_ok. Qed.
Lemma ok_signature n : reader_ok (ReadOneInterfaceSignature n). Proof. unfold ReadOneInterfaceSignature. solve_reader_ok. Qed.
#[export] Hint Resolve ok_constants ok_signature : reader.
Lemma ok_signatures n : reader_ok (ReadInterfaceSignatures n). Proof. unfold ReadInterfaceSignatures. solve_reader_ok. Qed.
#[export] Hint Resolve ok_signatures : reader.
Lemma ok_interface n p : reader_ok (ReadInterface n p). Proof. unfold ReadInterface. solve_reader_ok. Qed.
#[export] Hint Resolve ok_interface : reader.
Lemma ok_interfaces n p : reader_ok (ReadInterfaceRecords n p). Proof. unfold ReadInterfaceRecords. solve_reader_ok. Qed.
#[export] Hint Resolve ok_interfaces : reader.
Lemma ensures_constant : ensures ReadInterfaceConstant constant_ok.
Proof. unfold ReadInterfaceConstant. record_ensures. Qed.
Lemma ensures_sig_default n : ensures (ReadSignatureDefault n) (sig_default_ok n).
Proof.
  unfold ReadSignatureDefault. ensures_step Hd. ensures_step Hs. apply ensures_ret. split; [done|].
  apply negb_true_iff in Hs. by apply bool_decide_eq_false in Hs.
Qed.
#[export] Hint Resolve ensures_constant ensures_sig_default : ensures.
Lemma ensures_signature n : ensures (ReadOneInterfaceSignature n) (sig_ok n).
Proof.
  unfold ReadOneInterfaceSignature. repeat ensures_field. apply ensures_ret. decided. subst.
  unfold sig_ok. cbn. split_and!; eauto using column_fits, column_parallel.
  match goal with H : column ?a ptd_ok _ |- ?a = _ => by destruct H as [-> _] end.
Qed.
#[export] Hint Resolve ensures_signature : ensures.
Lemma ensures_interface n p : ensures (ReadInterface n p) (ci_ok n p).
Proof.
  unfold ReadInterface. ensures_field. ensures_field. ensures_field.
  unfold ReadInterfaceConstants, ReadInterfaceSignatures. repeat ensures_field.
  apply ensures_ret. unfold ci_ok. cbn. split_and!; eauto using column_fits.
Qed.
#[export] Hint Resolve ensures_interface : ensures.
Lemma ensures_interfaces n p : ensures (ReadInterfaceRecords n p) (interfaces_ok n p).
Proof. unfold ReadInterfaceRecords. repeat ensures_field. apply ensures_ret. by eapply column_fits. Qed.
#[export] Hint Resolve ensures_interfaces : ensures.

(** ** Array types, enums, static slots, imports *)
Definition at_ok (a : CompiledArrayType) : Prop :=
  is_uint 8 (at_elemKind a) ∧ is_uint 16 (at_elemTypeIdx a) ∧ is_uint 8 (at_rank a).
Lemma codec_array_type a : at_ok a → codec (WriteArrayType a) ReadArrayType a.
Proof. destruct a. unfold at_ok, WriteArrayType, ReadArrayType. record_codec. Qed.
Lemma ok_array_type : reader_ok ReadArrayType. Proof. unfold ReadArrayType. solve_reader_ok. Qed.
Lemma ensures_array_type : ensures ReadArrayType at_ok. Proof. unfold ReadArrayType. record_ensures. Qed.
#[export] Hint Resolve codec_array_type : codec.
#[export] Hint Resolve ok_array_type : reader.
#[export] Hint Resolve ensures_array_type : ensures.

(** The four enum tables: parallel, and the two method tables row by row. *)
Definition method_row_ok (idxs accs : list Z) : Prop :=
  length idxs = length accs ∧ fits 4 (2 ^ 20) idxs ∧ Forall (is_uint 16) idxs ∧ Forall (is_uint 8) accs.
Record enums_ok (names : list (list bytes)) (keys : list bytes) (idxs accs : list (list Z)) : Prop := {
  eo_names : counted 4 (2 ^ 24) (counted 4 (2 ^ 24) (string_ok 4 (2 ^ 24))) names;
  eo_keys : column (Z.of_nat (length names)) (string_ok 2 65535) keys;
  eo_methods : Forall2 method_row_ok idxs accs;
  eo_rows : length idxs = length names
}.
Definition put_method_row (row : list (Z * Z)) : outcome bytes :=
  put_size 4 row +++ put_all (λ '(idx, access), put16 idx +++ put8 access) row.
Definition row_ok (row : list (Z * Z)) : Prop := counted 4 (2 ^ 20) (λ '(idx, access), is_uint 16 idx ∧ is_uint 8 access) row.
Lemma codec_method_row row : row_ok row → codec (put_method_row row) ReadEnumMethods row.
Proof.
  intros Hr. unfold put_method_row, ReadEnumMethods. eapply codec_table; [exact Hr|]. intros [idx access] [Hi Ha]. solve_codec.
Qed.
Lemma method_row_zip idxs accs : method_row_ok idxs accs →
  row_ok (zip idxs accs) ∧ (zip idxs accs).*1 = idxs ∧ (zip idxs accs).*2 = accs.
Proof.
  intros (Hl & [Hf1 Hf2] & Hi & Ha). rewrite fst_zip, snd_zip by lia. split; [|done]. split.
  - unfold fits. rewrite length_zip_with. lia.
  - rewrite Forall_lookup. intros i [x y] (? & ? & [= <- <-] & Hx & Hy)%lookup_zip_with_Some.
    rewrite Forall_lookup in Hi, Ha. eauto.
Qed.
Lemma zip_rows idxs accs : Forall2 method_row_ok idxs accs →
  let rows := zip_with zip idxs accs in
  length rows = length idxs ∧ Forall row_ok rows ∧ method_rows fst rows = idxs ∧ method_rows snd rows = accs.
Proof.
  induction 1 as [|r1 r2 idxs accs Hr _ (IH1 & IH2 & IH3 & IH4)]; [by repeat constructor|].
  destruct (method_row_zip _ _ Hr) as (Hz & E1 & E2). split_and!.
  - cbn. by rewrite IH1.
  - by constructor.
  - change ((zip r1 r2).*1 :: method_rows fst (zip_with zip idxs accs) = r1 :: idxs). by rewrite E1, IH3.
  - change ((zip r1 r2).*2 :: method_rows snd (zip_with zip idxs accs) = r2 :: accs). by rewrite E2, IH4.
Qed.
Lemma WriteEnumMethods_row m ei idxs accs : mod_enumMethodIndices m !! ei = Some idxs →
  mod_enumMethodAccess m !! ei = Some accs → length idxs = length accs →
  WriteEnumMethods m ei = put_method_row (zip idxs accs).
Proof.
  intros Hi Ha Hl. unfold WriteEnumMethods, put_method_row. rewrite Hi, derefE, bindE.
  assert (length (zip idxs accs) = length idxs) as Hz by (rewrite length_zip_with; lia).
  unfold put_size. rewrite Hz. f_equal. rewrite <- Hz. apply put_all_seq. intros mi [idx access] H.
  apply lookup_zip_with_Some in H as (? & ? & [= <- <-] & Hx & Hy).
  by rewrite Ha, Hx, !derefE, !bindE, Hy.
Qed.
Lemma codec_enums m : let '(names, keys, idxs, accs) :=
    (mod_enumNames m, mod_enumKeys m, mod_enumMethodIndices m, mod_enumMethodAccess m) in
  enums_ok names keys idxs accs → codec (WriteEnumRecords m) ReadEnumRecords (names, keys, idxs, accs).
Proof.
  intros [Hn Hk Hm Hr]. destruct (zip_rows _ _ Hm) as (Hl & Hrows & E1 & E2).
  set (rows := zip_with zip (mod_enumMethodIndices m) (mod_enumMethodAccess m)) in *.
  assert (put_all (WriteEnumMethods m) (seq 0 (length (mod_enumNames m))) = put_all put_method_row rows) as Hw.
  { rewrite <- Hr, <- Hl. apply put_all_seq. intros ei row (idxs & accs & -> & Hi & Ha)%lookup_zip_with_Some.
    apply WriteEnumMethods_row; [done..|]. by destruct (Forall2_lookup_lr _ _ _ _ _ _ Hm Hi Ha) as [? _]. }
  unfold WriteEnumRecords, ReadEnumRecords. rewrite Hw. destruct Hn as [Hf Hn].
  eapply codec_bind; [by apply codec_count|].
  eapply codec_bind; [eapply codec_each; [exact Hn|]|].
  { intros names Hnames. eapply codec_table; [exact Hnames|]. eauto with codec. }
  eapply codec_bind; [eapply codec_column_all; [exact Hk|]; unfold ReadEnumKey; eauto with codec|].
  eapply codec_last; [rewrite <- Hr, <- Hl; eapply codec_each; [exact Hrows|apply codec_method_row]|].
  apply codec_demand_good. rewrite E1, E2. apply codec_ret.
Qed.
Lemma ok_enum_names : reader_ok ReadEnumNames. Proof. unfold ReadEnumNames. solve_reader_ok. Qed.
Lemma ok_enum_key : reader_ok ReadEnumKey. Proof. unfold ReadEnumKey. solve_reader_ok. Qed.
Lemma ok_enum_methods : reader_ok ReadEnumMethods.
Proof. unfold ReadEnumMethods. apply ok_bind; [solve_reader_ok|]. intros c. apply ok_list. solve_reader_ok. Qed.
#[export] Hint Resolve ok_enum_names ok_enum_key ok_enum_methods : reader.
Lemma ok_enums : reader_ok ReadEnumRecords. Proof. unfold ReadEnumRecords. solve_reader_ok. Qed.
#[export] Hint Resolve ok_enums : reader.
Lemma ensures_enum_names : ensures ReadEnumNames (counted 4 (2 ^ 24) (string_ok 4 (2 ^ 24))).
Proof. apply ensures_table; [solve_reader_ok|apply ensures_string]. Qed.
Lemma ensures_enum_methods : ensures ReadEnumMethods row_ok.
Proof.
  apply (ensures_table 4 (2 ^ 20) _ _ (λ '(idx, access), is_uint 16 idx ∧ is_uint 8 access)); [solve_reader_ok|].
  record_ensures.
Qed.
Lemma ensures_enum_key : ensures ReadEnumKey (string_ok 2 65535). Proof. apply ensures_string. Qed.
#[export] Hint Resolve ensures_enum_names ensures_enum_methods ensures_enum_key : ensures.
Lemma row_ok_methods row : row_ok row → method_row_ok row.*1 row.*2.
Proof.
  intros [Hf Hr]. unfold method_row_ok, fits in *. rewrite !length_fmap, !list.Forall_fmap. split_and!; [done|apply Hf..| |].
  - eapply list.Forall_impl; [exact Hr|]. by intros [? ?] [? _].
  - eapply list.Forall_impl; [exact Hr|]. by intros [? ?] [_ ?].
Qed.
Lemma ensures_enums : ensures ReadEnumRecords (λ '(names, keys, idxs, accs), enums_ok names keys idxs accs).
Proof.
  unfold ReadEnumRecords. repeat ensures_field. apply ensures_ret.
  match goal with Hn : column ?c (counted _ _ _) _, Hk : column ?c (string_ok _ _) _, Hm : column ?c row_ok _ |- _ =>
    split; [by eapply column_fits|by eapply column_parallel| |destruct Hn as [Hn _], Hm as [Hm _]; unfold method_rows; rewrite length_fmap; lia];
    destruct Hm as [_ Hm]; induction Hm; constructor; [by apply row_ok_methods|done] end.
Qed.
#[export] Hint Resolve codec_enums : codec.
#[export] Hint Resolve ensures_enums : ensures.

Definition slot_ok (s : CompiledStaticSlot) : Prop :=
  string_ok 4 (2 ^ 24) (slot_name s) ∧ string_ok 4 (2 ^ 24) (slot_ownerKey s) ∧ upto 2 (slot_ownerKind s)
  ∧ upto 1 (slot_isRuntimeConst s) ∧ upto 1 (slot_hasInitializer s) ∧ td_ok (slot_type s).
Lemma codec_slot s : slot_ok s → codec (WriteStaticSlot s) ReadStaticSlot s.
Proof.
  destruct s. unfold slot_ok, upto, WriteStaticSlot, ReadStaticSlot. cbn.
  intros (? & ? & [? ?] & [? ?] & [? ?] & ?). do 6 codec_step.
  apply codec_demand; [by rewrite !bool_decide_true|]. solve_codec.
Qed.
Lemma ok_slot : reader_ok ReadStaticSlot. Proof. unfold ReadStaticSlot. solve_reader_ok. Qed.
Lemma ensures_slot : ensures ReadStaticSlot slot_ok.
Proof. unfold ReadStaticSlot. repeat ensures_field. apply ensures_ret. decided. Qed.
#[export] Hint Resolve codec_slot : codec.
#[export] Hint Resolve ok_slot : reader.
#[export] Hint Resolve ensures_slot : ensures.
(** Static fields and interface constants refer to slots of the table. *)
Definition slots_ok (cs : list CompiledClass) (cis : list CompiledInterface) (slots : list CompiledStaticSlot) : Prop :=
  counted 4 (2 ^ 20) slot_ok slots
  ∧ forallb (λ cc, forallb (λ sf, slot_in_table (length slots) (sf_slotIdx sf)) (cc_staticFields cc)) cs = true
  ∧ forallb (λ ci, forallb (λ c, slot_in_table (length slots) (constant_slotIdx c)) (ci_constants ci)) cis = true.
Lemma codec_slots cs cis slots : slots_ok cs cis slots →
  codec (put_size 4 slots +++ put_all WriteStaticSlot slots) (ReadStaticSlots cs cis) slots.
Proof. intros ([? ?] & ? & ?). unfold ReadStaticSlots. solve_codec. Qed.
Lemma ok_slots cs cis : reader_ok (ReadStaticSlots cs cis). Proof. unfold ReadStaticSlots. solve_reader_ok. Qed.
Lemma ensures_slots cs cis : ensures (ReadStaticSlots cs cis) (slots_ok cs cis).
Proof. unfold ReadStaticSlots. repeat ensures_field. apply ensures_ret. split_and!; [by eapply column_fits|done..]. Qed.
#[export] Hint Resolve codec_slots : codec.
#[export] Hint Resolve ok_slots : reader.
#[export] Hint Resolve ensures_slots : ensures.

Definition imp_ok (withOwnerKey : bool) (imp : SymbolImport) : Prop :=
  string_ok 2 65535 (imp_modulePath imp) ∧ string_ok 2 65535 (imp_name imp) ∧ is_uint 32 (imp_paramCount imp)
  ∧ if withOwnerKey
    then string_ok 2 65535 (imp_ownerClassKey imp) ∧ upto 2 (imp_ownerKind imp) ∧ is_uint 16 (imp_ownerOrdinal imp)
    else imp_ownerClassKey imp = [] ∧ imp_isStatic imp = false ∧ imp_ownerKind imp = 0 ∧ imp_ownerOrdinal imp = kNone16.
Lemma codec_import b imp : imp_ok b imp → codec (WriteImport b imp) (ReadImport b) imp.
Proof.
  destruct imp. unfold imp_ok, upto, WriteImport, ReadImport. cbn. intros (? & ? & ? & H).
  do 3 codec_step. codec_step. destruct b.
  - destruct H as (? & [? ?] & ?). do 4 codec_step. codec_step. apply codec_demand; [by rewrite bool_decide_true|apply codec_ret].
  - destruct H as (-> & -> & -> & ->). apply codec_ret.
Qed.
Lemma ok_import b : reader_ok (ReadImport b). Proof. unfold ReadImport. solve_reader_ok. Qed.
Lemma ensures_import b : ensures (ReadImport b) (imp_ok b).
Proof.
  unfold ReadImport. do 4 ensures_field. destruct b; [|by apply ensures_ret].
  repeat ensures_field. apply ensures_ret. decided.
Qed.
#[export] Hint Resolve codec_import : codec.
#[export] Hint Resolve ok_import : reader.
#[export] Hint Resolve ensures_import : ensures.
Definition imports_ok (b : bool) : list SymbolImport → Prop := counted 4 (2 ^ 24) (imp_ok b).
Lemma codec_imports b imports : imports_ok b imports → codec (writeImports imports b) (readImports b) imports.
Proof. intros H. unfold writeImports, readImports. eapply codec_table; [exact H|apply codec_import]. Qed.
Lemma ok_imports b : reader_ok (readImports b). Proof. unfold readImports. solve_reader_ok. Qed.
Lemma ensures_imports b : ensures (readImports b) (imports_ok b).
Proof. apply ensures_table; eauto with reader ensures. Qed.
#[export] Hint Resolve codec_imports : codec.
#[export] Hint Resolve ok_imports : reader.
#[export] Hint Resolve ensures_imports : ensures.

(** ** Header, entry point, descriptors *)
Definition descs_ok (fs : list CompiledFunction) (ss : list CompiledStruct) (cs : list CompiledClass)
    (cis : list CompiledInterface) : Prop :=
  Forall (desc_indices_ok (Z.of_nat (length ss)) (Z.of_nat (length cs))) (validated_descs fs ss cs cis).
Lemma ValidateDescs_Ok ns nc tds :
  ValidateDescs ns nc tds = Ok tt ↔ Forall (desc_indices_ok (Z.of_nat ns) (Z.of_nat nc)) tds.
Proof.
  unfold ValidateDescs. induction tds as [|td tds IH]; cbn [foldM]; [done|].
  rewrite list.Forall_cons, <- ValidateTypeDescIndices_iff, <- IH.
  destruct (ValidateTypeDescIndices td _ _) as [[]|]; cbn; naive_solver.
Qed.
Lemma ValidateTypeDescIndices_error ns nc td : ∀ e, ValidateTypeDescIndices td ns nc = Raise e → load_failure e.
Proof.
  induction td as [k i r es IH] using TypeDesc_ind'. intros e. cbn [ValidateTypeDescIndices].
  intros [H|(? & _ & H)]%bind_Raise.
  - repeat case_decide; first [done|by eapply check_failure].
  - induction IH as [|td es Htd _ IHes]; [done|]. apply bind_Raise in H as [H|(? & _ & H)]; [by apply Htd|by apply IHes].
Qed.
Lemma ok_validate ns nc tds : reader_ok (lift (ValidateDescs ns nc tds)).
Proof. apply ok_lift, foldM_failure. intros _ td e. apply ValidateTypeDescIndices_error. Qed.
#[export] Hint Resolve ok_validate : reader.

Definition entry_point (fs : list CompiledFunction) (entryKey : bytes) : Z :=
  if decide (entryKey = []) then -1 else FindFunction fs entryKey.
Definition entry_ok (fs : list CompiledFunction) (entryKey : bytes) : Prop :=
  string_ok 2 65535 entryKey ∧ (entryKey ≠ [] → 0 ≤ FindFunction fs entryKey).
Lemma codec_entry {A} w fs entryKey (k : Z → reader A) a : entry_ok fs entryKey →
  codec w (k (entry_point fs entryKey)) a → codec w (e ← ResolveEntry fs entryKey; k e) a.
Proof.
  intros [_ He] H. unfold ResolveEntry, entry_point in *. case_decide as Hd; [by apply codec_pure|].
  apply codec_assoc, codec_demand; [by rewrite bool_decide_true by auto|]. by apply codec_pure.
Qed.
Lemma ok_entry fs entryKey : reader_ok (ResolveEntry fs entryKey). Proof. unfold ResolveEntry. solve_reader_ok. Qed.
#[export] Hint Resolve ok_entry : reader.
Lemma ensures_entry fs entryKey : ensures (ResolveEntry fs entryKey)
  (λ e, e = entry_point fs entryKey ∧ (entryKey ≠ [] → 0 ≤ FindFunction fs entryKey)).
Proof.
  unfold ResolveEntry, entry_point. case_decide; [by apply ensures_ret|]. ensures_field. apply ensures_ret. decided.
Qed.
#[export] Hint Resolve ensures_entry : ensures.
Lemma put_string_split n max s : string_ok n max s → put_string n s = put_size n s +++ Ok s.
Proof.
  intros [[_ H] _]. unfold put_string. rewrite wrap_small by (unfold is_uint; lia). by rewrite Nat2Z.id, firstn_all.
Qed.
Lemma codec_fill fill s : codec (Ok s) (read_into (replicate (Z.to_nat (Z.of_nat (length s))) fill)) s.
Proof. exists s. split; [done|]. apply reads_into. by rewrite length_replicate, Nat2Z.id. Qed.
Lemma codec_size16 old {A} (l : list A) : Z.of_nat (length l) < 2 ^ 16 → codec (put_size 2 l) (get16 old) (Z.of_nat (length l)).
Proof. intros H. apply codec16. unfold is_uint. lia. Qed.

(** ** The module *)
(** What can be saved and loaded again: every section within its bounds, the indices in
    their tables, the super chains closed, and the entry key a function. *)
Record module_ok (m : CompiledModule) (entryKey : bytes) : Prop := {
  mo_path : string_ok 2 65535 (mod_modulePath m);
  mo_name : string_ok 4 (2 ^ 24) (mod_name m);
  mo_entry : entry_ok (mod_functions m) entryKey;
  mo_strings : counted 4 (2 ^ 24) (string_ok 4 (2 ^ 24)) (mod_stringConstants m);
  mo_functions : counted 4 (2 ^ 24) func_ok (mod_functions m);
  mo_structs : counted 4 (2 ^ 24) (st_ok (length (mod_functions m))) (mod_structs m);
  mo_classes : classes_ok (length (mod_functions m)) (mod_classes m);
  mo_interfaces : interfaces_ok (length (mod_functions m)) (length (mod_stringConstants m)) (mod_interfaces m);
  mo_descs : descs_ok (mod_functions m) (mod_structs m) (mod_classes m) (mod_interfaces m);
  mo_arrays : counted 4 (2 ^ 24) at_ok (mod_arrayTypes m);
  mo_enums : enums_ok (mod_enumNames m) (mod_enumKeys m) (mod_enumMethodIndices m) (mod_enumMethodAccess m);
  mo_slots : slots_ok (mod_classes m) (mod_interfaces m) (mod_staticSlots m);
  mo_imports : imports_ok true (mod_functionImports m) ∧ imports_ok false (mod_classImports m)
    ∧ imports_ok false (mod_structImports m) ∧ imports_ok false (mod_enumImports m)
    ∧ imports_ok true (mod_staticSlotImports m);
  mo_tails : (length (mod_functionImports m) ≤ length (mod_functions m))%nat
    ∧ (length (mod_classImports m) ≤ length (mod_classes m))%nat
    ∧ (length (mod_structImports m) ≤ length (mod_structs m))%nat
    ∧ (length (mod_enumImports m) ≤ length (mod_enumNames m))%nat
    ∧ (length (mod_staticSlotImports m) ≤ length (mod_staticSlots m))%nat;
  mo_entryPoint : mod_entryPoint m = entry_point (mod_functions m) entryKey
}.
Lemma seq_out_assoc a b c : (a +++ b) +++ c = a +++ b +++ c.
Proof. destruct a as [a|], b as [b|], c as [c|]; cbv [seq_out]; cbn; try done. by rewrite app_assoc. Qed.
Lemma codec_regroup {A} w1 w2 w3 (r : reader A) a : codec ((w1 +++ w2) +++ w3) r a → codec (w1 +++ w2 +++ w3) r a.
Proof. by rewrite seq_out_assoc. Qed.
(** The tables that the reader takes in one bind. *)
Ltac table_step := apply codec_regroup; eapply codec_bind; [solve [eauto with codec]|].
Lemma codec_header {A} w path name entryKey (k : bytes * bytes * bytes → reader A) a :
  string_ok 2 65535 path → string_ok 4 (2 ^ 24) name → string_ok 2 65535 entryKey → codec w (k (path, name, entryKey)) a →
  codec (Ok NCU_MAGIC +++ put16 NCU_FORMAT_MAJOR +++ put16 NCU_FORMAT_MINOR
    +++ put_string 2 path +++ put_string 4 name +++ put_string 2 entryKey +++ w) (h ← ReadHeader; k h) a.
Proof.
  intros Hp Hn He Hk. unfold ReadHeader. apply codec_assoc.
  eapply codec_bind; [exact (codec_bytes NCU_MAGIC)|]. apply codec_assoc, codec_demand; [done|].
  apply codec_assoc. eapply codec_bind; [by apply codec16|]. apply codec_assoc. eapply codec_bind; [by apply codec16|].
  apply codec_assoc, codec_demand_good.
  rewrite (put_string_split 2 65535 path Hp), (put_string_split 2 65535 entryKey He), !seq_out_assoc.
  apply codec_assoc. eapply codec_bind; [apply codec_size16, Hp|]. apply codec_assoc.
  eapply codec_bind; [apply codec_fill|]. apply codec_assoc, codec_demand_good.
  apply codec_assoc. unfold check_version. apply codec_assoc, codec_demand; [done|]. apply codec_demand; [done|].
  apply codec_assoc. eapply codec_bind; [eauto with codec|]. apply codec_assoc.
  eapply codec_bind; [apply codec_size16, He|]. apply codec_assoc, codec_demand_good, codec_assoc.
  eapply codec_bind; [apply codec_fill|]. by apply codec_pure.
Qed.
Lemma codec_module m entryKey : module_ok m entryKey → codec (WriteModule m entryKey) ReadModule (m, entryKey).
Proof.
  intros [Hpath Hname Hentry Hstr Hfun Hst Hcl Hif Hde Har Hen Hsl (Hi1 & Hi2 & Hi3 & Hi4 & Hi5) (T1 & T2 & T3 & T4 & T5) Hep].
  unfold WriteModule, ReadModule. apply codec_header; [done..|apply Hentry|]. cbv beta iota.
  unfold ReadStrings, ReadFunctionRecords, ReadStructRecords. do 3 table_step. do 2 codec_step.
  eapply codec_lift; [by apply ValidateDescs_Ok|]. destruct Har as [Har1 Har2]. do 2 codec_step.
  eapply codec_bind; [by apply codec_enums|]. cbv beta iota. table_step. do 4 codec_step.
  eapply codec_last; [by apply codec_imports|]. apply codec_demand_good. unfold checkImportBounds.
  do 5 (apply codec_demand; [by rewrite bool_decide_true|]). apply codec_entry; [done|]. rewrite <- Hep.
  destruct m. apply codec_ret.
Qed.

Lemma ok_header : reader_ok ReadHeader.
Proof. unfold ReadHeader, check_version. solve_reader_ok. apply ok_read. by apply Forall_replicate. Qed.
#[export] Hint Resolve ok_header : reader.
Lemma ok_module : reader_ok ReadModule.
Proof. unfold ReadModule, ReadStrings, ReadFunctionRecords, ReadStructRecords, checkImportBounds. solve_reader_ok. Qed.
(** A field whose value does not matter. *)
Ltac skip_field := eapply ensures_bind; [solve [solve_reader_ok]|solve [solve_reader_ok]|apply ensures_any|]; intros ? _.
Lemma ensures_padded n fill : is_uint 16 n →
  ensures (read_into (replicate (Z.to_nat n) fill)) (string_ok 2 65535).
Proof.
  intros Hn s bs s' Hs H Hg. destruct (ensures_read _ _ _ _ Hs H Hg) as [Hl Hb]. rewrite length_replicate in Hl.
  unfold is_uint in Hn. split; [split|done]; [lia|]. change (2 ^ (8 * Z.of_nat 2)) with (2 ^ 16). lia.
Qed.
Lemma ok_padded n fill : is_byte fill → reader_ok (read_into (replicate n fill)).
Proof. intros H. apply ok_read. by apply Forall_replicate. Qed.
#[export] Hint Extern 1 (reader_ok (read_into (replicate _ _))) => by apply ok_padded : reader.
Lemma ensures_header : ensures ReadHeader (λ '(path, name, entryKey),
  string_ok 2 65535 path ∧ string_ok 4 (2 ^ 24) name ∧ string_ok 2 65535 entryKey).
Proof.
  unfold ReadHeader, check_version. do 5 skip_field. ensures_step Hl.
  eapply ensures_bind; [solve_reader_ok..|by apply ensures_padded|]. cbn beta. intros path Hp. do 2 skip_field.
  ensures_step Hn. ensures_step Hk. skip_field.
  eapply ensures_bind; [solve_reader_ok..|by apply ensures_padded|]. cbn beta. intros entryKey He. by apply ensures_ret.
Qed.
#[export] Hint Resolve ensures_header : ensures.
Lemma ensures_module : ensures ReadModule (λ '(m, entryKey), module_ok m entryKey).
Proof.
  unfold ReadModule, ReadStrings, ReadFunctionRecords, ReadStructRecords.
  ensures_step Hh. destruct a as [[path name] entryKey]. destruct Hh as (Hpath & Hname & Hkey).
  ensures_step Hstr. ensures_step Hfun. ensures_step Hst. ensures_step Hcl. ensures_step Hif.
  eapply ensures_bind; [solve_reader_ok..|apply ensures_lift|]. cbn beta. intros [] Hde%ValidateDescs_Ok.
  ensures_step Har1. ensures_step Har2. ensures_step Hen.
  match goal with H : context [enums_ok] |- ensures (let '(_, _) := ?t in _) _ => destruct t as [[[names keys] idxs] accs] end.
  ensures_step Hsl. ensures_step Hi1. ensures_step Hi2. ensures_step Hi3. ensures_step Hi4. ensures_step Hi5.
  skip_field. unfold checkImportBounds. ensures_step T1. ensures_step T2. ensures_step T3. ensures_step T4. ensures_step T5.
  ensures_step He. destruct He as [He Hfound]. decided. apply ensures_ret.
  split; cbn; try done; first [by split|by eapply column_fits].
Qed.

(** ** Successful parses end on a good stream *)
Definition untouched {A} (r : reader A) : Prop := ∀ s a s', r s = Ok (a, s') → s' = s.
Definition ends_good {A} (r : reader A) : Prop := ∀ s a s', r s = Ok (a, s') → good s' = true.
Lemma untouched_ret {A} (a : A) : untouched (mret a). Proof. intros s b s' H. by injection H as <- <-. Qed.
Lemma untouched_demand b msg : untouched (demand b msg). Proof. intros s a s' H. destruct b; [by injection H as <- <-|done]. Qed.
Lemma untouched_bind {A B} (r : reader A) (k : A → reader B) : untouched r → (∀ a, untouched (k a)) → untouched (r ≫= k).
Proof.
  intros Hr Hk s b s' H. unfold mbind, reader_bind in H. destruct (r s) as [[a s1]|] eqn:E; [|done].
  rewrite (Hk _ _ _ _ H). by apply Hr in E.
Qed.
Lemma ends_good_bind {A B} (r : reader A) (k : A → reader B) : (∀ a, ends_good (k a)) → ends_good (r ≫= k).
Proof.
  intros Hk s b s' H. unfold mbind, reader_bind in H. destruct (r s) as [[a s1]|] eqn:E; [|done]. by eapply Hk.
Qed.
Lemma ends_good_demand {A} msg (k : unit → reader A) : untouched (k tt) → ends_good (u ← demand_good msg; k u).
Proof.
  intros Hk s a s' H. unfold demand_good, mbind, reader_bind, is_good in H. cbn in H.
  destruct (good s) eqn:Hg; [|done]. by rewrite (Hk _ _ _ H).
Qed.
Lemma ends_module : ends_good ReadModule.
Proof.
  unfold ReadModule. do 7 (apply ends_good_bind; intros ?; repeat case_match).
  do 9 (apply ends_good_bind; intros ?; repeat case_match). apply ends_good_demand. unfold checkImportBounds.
  repeat (apply untouched_bind; [apply untouched_demand|intros _]).
  apply untouched_bind; [|intros; apply untouched_ret]. unfold ResolveEntry. case_decide; [apply untouched_ret|].
  apply untouched_bind; [apply untouched_demand|intros; apply untouched_ret].
Qed.

(** ** Saving and loading *)
Lemma save_load m entryKey : module_ok m entryKey → ∃ image, WriteCompiledModule m entryKey = Ok (Some image)
  ∧ ∀ t, ReadModule (MkStream (image ++ t) true) = Ok ((m, entryKey), MkStream t true).
Proof.
  intros Hm. destruct (codec_module m entryKey Hm) as (image & Hw & Hr). exists image. split; [|done].
  unfold WriteCompiledModule. pose proof (mo_enums _ _ Hm) as [_ [Hk _] Hrows Hl]. pose proof (Forall2_length Hrows).
  rewrite decide_False by lia. by rewrite Hw.
Qed.
Lemma load_read image m entryKey : LoadFromBytes image = Ok (m, entryKey) →
  ∃ t, ReadModule (MkStream image true) = Ok ((m, entryKey), MkStream t true).
Proof.
  unfold LoadFromBytes. destruct (ReadModule _) as [[x [t g]]|] eqn:E; [|done]. intros [= ->].
  apply ends_module in E as Hg. cbn in Hg. subst g. by exists t.
Qed.

(** C15: a module within its bounds is written, and the loader gets the same module and
    entry key back from the image. *)
Theorem module_roundtrip m entryKey : module_ok m entryKey →
  ∃ image, WriteCompiledModule m entryKey = Ok (Some image) ∧ LoadFromBytes image = Ok (m, entryKey).
Proof.
  intros Hm. destruct (save_load m entryKey Hm) as (image & Hw & Hr). exists image. split; [done|].
  unfold LoadFromBytes. specialize (Hr []). rewrite app_nil_r in Hr. by rewrite Hr.
Qed.

Lemma loaded_ok image m entryKey : Forall is_byte image → LoadFromBytes image = Ok (m, entryKey) → module_ok m entryKey.
Proof. intros Hb (t & Hr)%load_read. exact (ensures_module (MkStream image true) _ _ Hb Hr eq_refl). Qed.
Lemma load_fails image e : LoadFromBytes image = Raise e → load_failure e ∨ e = bad_bool.
Proof.
  unfold LoadFromBytes. destruct (ReadModule _) as [|e'] eqn:E; [done|]. intros [= ->]. by apply (rk_error _ ok_module) in E.
Qed.
(** The byte of a [bool] that stops the loader stops it in every longer file. *)
Lemma load_bad_bool image t : LoadFromBytes image = Raise bad_bool → LoadFromBytes (image ++ t) = Raise bad_bool.
Proof.
  unfold LoadFromBytes. destruct (ReadModule _) as [|e'] eqn:E; [done|]. intros [= ->].
  apply (rk_bool _ ok_module _ _ t) in E as [_ E]. by rewrite E.
Qed.
(** C16: whatever file of bytes the loader accepts, the module is within the bounds the loader
    states: every integer in its width and every count within its cap; the methods,
    constructors and initializers of classes, the constructors of structs and the
    initializers of interfaces inside the function table; the type descriptors of parameters,
    results, instance fields, interface constants and signatures inside the type tables;
    string defaults of interface signatures inside the string table; slots of static fields
    and constants inside the slot table; superclasses inside the class table and their
    chains ending; parallel columns, import tails inside the tables and an entry point that
    exists.  And it can be saved and loaded again, unchanged.  The loader leaves the other
    indices alone ([static_references_unchecked]): static methods of interfaces, methods of
    enums, type descriptors of static slots and static fields, elements of array types,
    classes of catch clauses, the legacy type columns of fields and the operands of code. *)
Theorem loaded_module_ok image m entryKey : Forall is_byte image → LoadFromBytes image = Ok (m, entryKey) →
  module_ok m entryKey
  ∧ ∃ image', WriteCompiledModule m entryKey = Ok (Some image') ∧ LoadFromBytes image' = Ok (m, entryKey).
Proof.
  intros Hb Hl. pose proof (loaded_ok _ _ _ Hb Hl) as Hm. split; [done|]. destruct (save_load m entryKey Hm) as (image' & Hw & Hr'). exists image'. split; [done|].
  unfold LoadFromBytes. specialize (Hr' []). rewrite app_nil_r in Hr'. by rewrite Hr'.
Qed.

(** C27: a written image cut short at any byte is refused with a diagnosis of the loader, an
    exception of its own: what is left has no byte that is not of its type. *)
Theorem truncated_image_refused m entryKey image k :
  module_ok m entryKey → WriteCompiledModule m entryKey = Ok (Some image) → (k < length image)%nat →
  ∃ msg, LoadFromBytes (take k image) = Raise (RuntimeError msg).
Proof.
  intros Hm Hw Hk. destruct (save_load m entryKey Hm) as (image' & Hw' & Hr). rewrite Hw in Hw'. injection Hw' as <-.
  destruct (LoadFromBytes (take k image)) as [[m' key']|e] eqn:E.
  - apply load_read in E as (t & E). apply (rk_extends _ ok_module _ _ _ (drop k image)) in E.
    rewrite take_drop in E. specialize (Hr []). rewrite app_nil_r, E in Hr. injection Hr as _ _ Ht.
    apply app_nil in Ht as [_ Ht]. apply (f_equal length) in Ht. rewrite length_drop in Ht. cbn in Ht. lia.
  - destruct (load_fails _ _ E) as [He| ->]; [destruct e; try done; by eexists|].
    apply (load_bad_bool _ (drop k image)) in E. rewrite take_drop in E. specialize (Hr []). rewrite app_nil_r in Hr.
    unfold LoadFromBytes in E. by rewrite Hr in E.
Qed.

(** C29: on any input the loader returns a module or raises its own diagnosis: it never
    reads outside a buffer and its walks end.  The one value it can meet that is not of
    its C++ type is the byte of a [bool] member. *)
Theorem load_failures_diagnosed image e : LoadFromBytes image = Raise e →
  (∃ msg, e = RuntimeError msg) ∨ e = Undefined "bool object".
Proof.
  intros [H| ->]%load_fails; [left; destruct e; try done; by eexists|by right].
Qed.

(** ** A concrete module *)
Definition int_type : TypeDesc := desc RTK_Int32 [].
Definition demo_function : CompiledFunction :=
  MkFunction [109] 24 1 RTK_Int32 65535 false true [MkDefaultValue RTK_Int32 7 0 0 (-1) 0 []; no_default] [1; 2; 3]
    [MkTryBlock 0 2 3 1 8] [MkLocal 0 8 1 RTK_Int32 0 [120]] [102] [MkParamType 1 (desc RTK_List [TD RTK_Class 1 1 []])]
    int_type [85].
Definition demo_module : CompiledModule :=
  MkCompiledModule [97; 46; 98] [98] [[104; 105]; []] [demo_function]
    [MkStructRecord [80] 1 true [[120]] [RTK_Int32] [65535] [65535] [int_type] [0] [no_default] [3]]
    [MkClassRecord [65] 0 (-1) false [] [] [] [] [] [] [0] [3] [1] [] [] [] 65535;
     MkClassRecord [66] 1 0 false [[121]] [4] [65535] [0] [TD RTK_Class 0 1 []] [1] [] [] [] [0] [2]
       [MkStaticField [115] int_type 3 true 0 no_default] 0]
    [MkInterface [73] [0] [MkInterfaceConstant [99] int_type (MkDefaultValue RTK_String 0 0 1 0 0 []) 65535]
       [MkInterfaceMethod [102] 1 [MkParamType 0 int_type] (desc RTK_Void []) [no_default]] 65535]
    [MkArrayTypeRecord RTK_Int32 65535 2] [[[82]; [71]]] [[67]] [[0; 0]] [[3; 1]]
    [MkStaticSlotRecord [115] [66] 0 1 1 int_type]
    [MkImport [113] [103] 2 [75] true 1 3] [] [] [] [] 0.
Definition demo_image : bytes :=
  match WriteCompiledModule demo_module [109] with Ok (Some image) => image | _ => [] end.
Lemma demo_module_ok : module_ok demo_module [109].
Proof.
  assert (Forall is_byte demo_image) as Hb by (apply (bool_decide_unpack _); vm_compute; exact I).
  refine (ensures_module (MkStream demo_image true) (demo_module, [109]) (MkStream [] true) Hb _ eq_refl).
  vm_compute. reflexivity.
Qed.
Lemma module_roundtrip_witness :
  ∃ image, WriteCompiledModule demo_module [109] = Ok (Some image) ∧ LoadFromBytes image = Ok (demo_module, [109]).
Proof. exact (module_roundtrip demo_module [109] demo_module_ok). Defined.
Lemma loaded_module_ok_witness : LoadFromBytes demo_image = Ok (demo_module, [109]) ∧ module_ok demo_module [109].
Proof.
  assert (LoadFromBytes demo_image = Ok (demo_module, [109])) as H by (vm_compute; reflexivity).
  assert (Forall is_byte demo_image) as Hb by (apply (bool_decide_unpack _); vm_compute; exact I).
  split; [exact H|]. exact (proj1 (loaded_module_ok demo_image demo_module [109] Hb H)).
Defined.
Lemma truncated_image_refused_witness : ∃ msg, LoadFromBytes (take 100 demo_image) = Raise (RuntimeError msg).
Proof.
  apply (truncated_image_refused demo_module [109] demo_image 100 demo_module_ok); [vm_compute; reflexivity|].
  apply (bool_decide_unpack _). vm_compute. exact I.
Defined.
Lemma load_failures_diagnosed_witness : LoadFromBytes [1; 2] = Raise (RuntimeError "Invalid module file format")
  ∧ ((∃ msg, RuntimeError "Invalid module file format" = RuntimeError msg) ∨ RuntimeError "Invalid module file format" = Undefined "bool object").
Proof.
  assert (LoadFromBytes [1; 2] = Raise (RuntimeError "Invalid module file format")) as H by (vm_compute; reflexivity).
  split; [exact H|]. exact (load_failures_diagnosed [1; 2] _ H).
Defined.

(** ** Where the two sides differ *)
Definition with_functions (fs : list CompiledFunction) : CompiledModule :=
  MkCompiledModule [] [] [] fs [] [] [] [] [] [] [] [] [] [] [] [] [] [] (-1).
(** The writer has no cap on try blocks, the reader stops at 1024. *)
Lemma many_catches_unloadable :
  let f := MkFunction [] 0 0 RTK_Void 65535 false false [] [] (replicate 1025 (MkTryBlock 0 1 1 0 0)) [] [] [] no_type [] in
  ∃ image, WriteCompiledModule (with_functions [f]) [] = Ok (Some image)
    ∧ LoadFromBytes image = Raise (RuntimeError (invalid "bad tryBlock count")).
Proof.
  eexists. split; [vm_compute; reflexivity|]. vm_compute. reflexivity.
Qed.
(** The references the loader accepts whatever they are: the method 9 of an enum, the static
    method 9 of an interface, the class 9 of a static slot, of an array type and of a catch
    clause, in a module with one function and no class. *)
Lemma static_references_unchecked :
  let f := MkFunction [] 0 0 RTK_Void 65535 false false [] [] [MkTryBlock 0 1 1 9 0] [] [] [] no_type [] in
  let m := MkCompiledModule [] [] [] [f] [] [] [MkInterface [73] [9] [] [] 65535] [MkArrayTypeRecord RTK_Class 9 1]
             [[[82]]] [[67]] [[9]] [[3]] [MkStaticSlotRecord [115] [66] 0 0 0 (TD RTK_Class 9 1 [])] [] [] [] [] [] (-1) in
  ∃ image, WriteCompiledModule m [] = Ok (Some image) ∧ LoadFromBytes image = Ok (m, []).
Proof.
  eexists. split; [vm_compute; reflexivity|]. vm_compute. reflexivity.
Qed.
