(* ===== verification/Discovery.v ===== *)
(** * Closure discovery

    Models [src/src/vm/NcuLoader.cpp]: from the entry artifact, a module file or a
    package, the walk loads every module the loaded units import, from the entry package,
    then from the search directories in order, a module file before the packages of the
    directory.  The file system is an argument: the contents of its regular files and
    the names its directory iterator yields, in any order. *)
From stdpp Require Import sorting.
From S2P Require Import Prelude.
From S2P Require Import Package ModuleRecords ModuleLoader.
Open Scope Z_scope.

(** A regular file that cannot be opened has no contents. *)
Record FileSystem := MkFileSystem { fs_files : gmap bytes (option bytes); fs_listing : bytes → list bytes }.

Definition NCU_EXTENSION : bytes := [46; 110; 99; 117].
Definition NPKG_EXTENSION : bytes := [46; 110; 112; 107; 103].

(** ** Paths (of POSIX) *)
Definition dir_prefix (dir : bytes) : bytes :=
  if decide (dir = [] ∨ list.last dir = Some 47) then dir else dir ++ [47].
Definition join (dir name : bytes) : bytes := dir_prefix dir ++ name.
Fixpoint split_last (c : Z) (l : bytes) : option (bytes * bytes) :=
  match l with
  | [] => None
  | b :: l =>
      match split_last c l with
      | Some (x, y) => Some (b :: x, y)
      | None => if decide (b = c) then Some ([], l) else None
      end
  end.
Definition filename (path : bytes) : bytes :=
  match split_last 47 path with Some (_, name) => name | None => path end.
Definition extension (path : bytes) : bytes :=
  let name := filename path in
  if decide (name = [46; 46]) then [] else
  match split_last 46 name with Some (_ :: _, ext) => 46 :: ext | _ => [] end.

(** ** Module paths *)
Definition segment_ok (seg : bytes) : bool := bool_decide (seg ≠ [] ∧ seg ≠ [46] ∧ seg ≠ [46; 46]).
Fixpoint segments_ok (seg path : bytes) : bool :=
  match path with
  | [] => segment_ok seg
  | b :: path => if decide (b = 46) then segment_ok seg && segments_ok [] path else segments_ok (seg ++ [b]) path
  end.
Definition separators : bytes := [47; 92; 58].
Definition IsValidModulePath (path : bytes) : bool :=
  if decide (path = [] ∨ Exists (λ b, b ∈ separators) path) then false else segments_ok [] path.

(** ** Reports *)
Definition nl : string := String (Ascii.ascii_of_nat 10) "  ".
Definition report (problems : list string) : vm_error :=
  RuntimeError (foldl (λ r p, r +:+ nl +:+ p) "nloader failed:" problems).
Definition quoted (bs : bytes) : string := "'" +:+ text bs +:+ "'".
(** [catch (const std::exception&)]: [inr] of its text. *)
Definition catch_std {A} (m : outcome A) : outcome (A + string) :=
  match m with
  | Ok a => Ok (inl a)
  | Raise (RuntimeError what) => Ok (inr what)
  | Raise e => Raise e
  end.

(** ** The walk *)
Record ClosureWalk := MkWalk {
  w_units : list CompiledModule; w_resolvedPaths : gset bytes; w_problems : list string;
  w_entryPackage : option NcuPackageReader; w_pkgCache : gmap bytes NcuPackageReader; w_unreadablePkgs : gset string
}.
Definition new_walk : ClosureWalk := MkWalk [] ∅ [] None ∅ ∅.
Definition push_problem (line : string) (w : ClosureWalk) : ClosureWalk :=
  MkWalk (w_units w) (w_resolvedPaths w) (w_problems w ++ [line]) (w_entryPackage w) (w_pkgCache w) (w_unreadablePkgs w).
Definition push_unit (unit : CompiledModule) (w : ClosureWalk) : ClosureWalk :=
  MkWalk (w_units w ++ [unit]) (w_resolvedPaths w) (w_problems w) (w_entryPackage w) (w_pkgCache w) (w_unreadablePkgs w).
Definition resolve_path (target : bytes) (w : ClosureWalk) : ClosureWalk :=
  MkWalk (w_units w) ({[target]} ∪ w_resolvedPaths w) (w_problems w) (w_entryPackage w) (w_pkgCache w) (w_unreadablePkgs w).
Definition set_entryPackage (pkg : NcuPackageReader) (w : ClosureWalk) : ClosureWalk :=
  MkWalk (w_units w) (w_resolvedPaths w) (w_problems w) (Some pkg) (w_pkgCache w) (w_unreadablePkgs w).
Definition cache_package (path : bytes) (pkg : NcuPackageReader) (w : ClosureWalk) : ClosureWalk :=
  MkWalk (w_units w) (w_resolvedPaths w) (w_problems w) (w_entryPackage w) (<[path := pkg]> (w_pkgCache w)) (w_unreadablePkgs w).
Definition note_unreadable (line : string) (w : ClosureWalk) : ClosureWalk :=
  MkWalk (w_units w) (w_resolvedPaths w) (w_problems w) (w_entryPackage w) (w_pkgCache w) ({[line]} ∪ w_unreadablePkgs w).

Definition MemberPaths (pkg : NcuPackageReader) : list bytes := modulePath <$> m_members pkg.
Definition new_reader : NcuPackageReader := PackageReader [] [] None.

Section walk.
Context (fs : FileSystem) (searchDirs : list bytes).

Definition open_file (path : bytes) : option bytes := mjoin (fs_files fs !! path).
Definition is_regular_file (path : bytes) : bool := bool_decide (is_Some (fs_files fs !! path)).
Definition Load (path : bytes) : outcome (CompiledModule * bytes) :=
  match open_file path with
  | None => Raise (RuntimeError ("Failed to open module file: " +:+ text path))
  | Some image => LoadFromBytes image
  end.

Definition AcceptUnit (unit : CompiledModule) (target : bytes) (where_ : string) (w : ClosureWalk) : ClosureWalk :=
  if decide (mod_modulePath unit ≠ target) then
    push_problem ("unit found for module " +:+ quoted target +:+ " (" +:+ where_ +:+ ") names module "
                  +:+ quoted (mod_modulePath unit) +:+ " in its header") w
  else push_unit unit w.
Definition LoadUnitFile (path target : bytes) (w : ClosureWalk) : outcome ClosureWalk :=
  r ← catch_std (Load path);
  Ok match r with
     | inl (unit, _) => AcceptUnit unit target (quoted path) w
     | inr what => push_problem (quoted path +:+ ": " +:+ what) w
     end.
(** With the serialized key of the member that has been loaded. *)
Definition LoadPackageMember (pkg : NcuPackageReader) (target : bytes) (w : ClosureWalk) : outcome (ClosureWalk * bytes) :=
  r ← catch_std (ExtractMember pkg target);
  match r with
  | inr error => Ok (push_problem error w, [])
  | inl image =>
      let where_ := ("package " +:+ quoted (m_packageName pkg) +:+ " member " +:+ quoted target)%string in
      r ← catch_std (LoadFromBytes image);
      Ok match r with
         | inl (unit, key) => (AcceptUnit unit target where_ w, key)
         | inr what => (push_problem (where_ +:+ ": " +:+ what) w, [])
         end
  end.

Definition OpenPackage (path : bytes) (w : ClosureWalk) : outcome (option NcuPackageReader * ClosureWalk) :=
  match w_pkgCache w !! path with
  | Some pkg => Ok (Some pkg, w)
  | None =>
      r ← catch_std (Open new_reader (text path) (open_file path));
      Ok match r with
         | inl pkg => (Some pkg, cache_package path pkg w)
         | inr error => (None, note_unreadable (text path +:+ " (" +:+ error +:+ ")") w)
         end
  end.
Definition path_le (a b : bytes) : Prop := path_leb a b = true.
#[local] Instance path_le_dec : RelDecision path_le := λ a b, decide (path_leb a b = true).
Definition archives (dir : bytes) : list bytes :=
  join dir <$> merge_sort path_le (filter (λ name, is_regular_file (join dir name) = true ∧ extension (join dir name) = NPKG_EXTENSION)
                                     (fs_listing fs dir)).
Fixpoint search_archives (paths : list bytes) (target : bytes) (w : ClosureWalk) : outcome (option NcuPackageReader * ClosureWalk) :=
  match paths with
  | [] => Ok (None, w)
  | path :: paths =>
      '(r, w) ← OpenPackage path w;
      match r with
      | Some pkg => if decide (target ∈ MemberPaths pkg) then Ok (Some pkg, w) else search_archives paths target w
      | None => search_archives paths target w
      end
  end.
Definition FindPackageWithMember (dir target : bytes) (w : ClosureWalk) := search_archives (archives dir) target w.

Fixpoint comma_separated (l : list string) : string :=
  match l with [] => "" | [s] => s | s :: l => s +:+ ", " +:+ comma_separated l end.
#[local] Instance string_le_dec : RelDecision (λ a b, String.leb a b = true) := λ a b, decide (String.leb a b = true).
Definition NoteTargetNotFound (target : bytes) (w : ClosureWalk) : ClosureWalk :=
  push_problem ("module " +:+ quoted target +:+ " not found ("
    +:+ (if decide (searchDirs = []) then "no search directories" else "searched: " +:+ comma_separated (text <$> searchDirs)) +:+ ")"
    +:+ (if decide (w_unreadablePkgs w = ∅) then ""
         else "; unreadable packages: "
              +:+ comma_separated (merge_sort (λ a b, String.leb a b = true) (elements (w_unreadablePkgs w))))) w.

(** The loop over the search directories. *)
Fixpoint search_dirs (dirs : list bytes) (target : bytes) (w : ClosureWalk) : outcome ClosureWalk :=
  match dirs with
  | [] => Ok (NoteTargetNotFound target w)
  | dir :: dirs =>
      let file := join dir (target ++ NCU_EXTENSION) in
      if is_regular_file file then LoadUnitFile file target w else
      '(r, w) ← FindPackageWithMember dir target w;
      match r with
      | Some pkg => fst <$> LoadPackageMember pkg target w
      | None => search_dirs dirs target w
      end
  end.
Definition ResolveTarget (target : bytes) (w : ClosureWalk) : outcome ClosureWalk :=
  if decide (target ∈ w_resolvedPaths w) then Ok w else
  let w := resolve_path target w in
  match w_entryPackage w with
  | Some pkg => if decide (target ∈ MemberPaths pkg) then fst <$> LoadPackageMember pkg target w
                else search_dirs searchDirs target w
  | None => search_dirs searchDirs target w
  end.

(** The targets of a unit, each once. *)
Definition collect (targets : list bytes) (imports : list SymbolImport) : list bytes :=
  foldl (λ targets imp, if decide (imp_modulePath imp ∈ targets) then targets else targets ++ [imp_modulePath imp]) targets imports.
Definition targets_of (u : CompiledModule) : list bytes :=
  collect (collect (collect (collect [] (mod_functionImports u)) (mod_classImports u)) (mod_structImports u)) (mod_enumImports u).
Definition walk_target (ownerPath : bytes) (w : ClosureWalk) (target : bytes) : outcome ClosureWalk :=
  if IsValidModulePath target then ResolveTarget target w
  else Ok (push_problem ("unit " +:+ quoted ownerPath +:+ " has an import slot with a malformed module path " +:+ quoted target
                         +:+ " (corrupt image)") w).
Definition walk_unit (u : CompiledModule) (w : ClosureWalk) : outcome ClosureWalk :=
  foldM (walk_target (mod_modulePath u)) w (targets_of u).
(** The units grow while the loop runs. *)
Fixpoint DiscoverClosure (fuel : nat) (i : nat) (w : ClosureWalk) : outcome ClosureWalk :=
  match w_units w !! i with
  | None => Ok w
  | Some u =>
      match fuel with
      | O => Raise OutOfFuel
      | S fuel => w ← walk_unit u w; DiscoverClosure fuel (i + 1) w
      end
  end.

Definition LoadEntry (artifact : bytes) : outcome (ClosureWalk * bytes) :=
  let failed (what : string) := RuntimeError ("nloader failed:" +:+ nl +:+ what) in
  '(w, entryKey) ←
    (if decide (extension artifact = NPKG_EXTENSION) then
       r ← catch_std (Open new_reader (text artifact) (open_file artifact));
       match r with
       | inr error => Raise (failed error)
       | inl pkg =>
           memberPath ← match m_entry pkg, MemberPaths pkg with
                        | Some rec, _ => Ok (er_modulePath rec)
                        | None, path :: _ => Ok path
                        | None, [] => Raise (failed ("package " +:+ quoted artifact +:+ " has no members"))
                        end;
           '(w, key) ← LoadPackageMember pkg memberPath new_walk;
           _ ← check (bool_decide (w_units w ≠ [])) (report (w_problems w));
           Ok (set_entryPackage pkg w,
               match m_entry pkg with Some rec => er_modulePath rec ++ [46] ++ er_functionName rec | None => key end)
       end
     else
       r ← catch_std (Load artifact);
       match r with
       | inl (unit, key) => Ok (push_unit unit new_walk, key)
       | inr what => Raise (failed (quoted artifact +:+ ": " +:+ what))
       end);
  front ← deref (head (w_units w));
  Ok (resolve_path (mod_modulePath front) w, entryKey).

Definition LoadClosure (fuel : nat) (entryArtifact : bytes) : outcome (list CompiledModule * bytes) :=
  '(w, entryKey) ← LoadEntry entryArtifact;
  w ← DiscoverClosure fuel 0 w;
  _ ← check (bool_decide (w_problems w = [])) (report (w_problems w));
  Ok (w_units w, entryKey).
End walk.
