(* ===== verification/DiscoverySpec.v ===== *)
(** * What a loaded closure is

    The search for a module is a function of the file system; a closure that loads is
    exactly the set of modules reachable from the entry through it, the walk ends, and
    what it returns is fit for the linker. *)
From stdpp Require Import sorting.
From S2P Require Import Prelude.
From S2P Require Import Bytecode Prims TypeDesc Layout Heap HeapGC Frames ByteIO ModuleRecords ModuleSaver ModuleLoader ModuleFile ModuleImage.
From S2P Require Import Package Discovery.
Open Scope Z_scope.

Section spec.
Context (fs : FileSystem) (searchDirs : list bytes).

(** ** Where a module is *)
Definition package_at (path : bytes) : option NcuPackageReader :=
  match Open new_reader (text path) (open_file fs path) with Ok pkg => Some pkg | Raise _ => None end.
Fixpoint first_package (paths : list bytes) (target : bytes) : option NcuPackageReader :=
  match paths with
  | [] => None
  | path :: paths =>
      match package_at path with
      | Some pkg => if decide (target ∈ MemberPaths pkg) then Some pkg else first_package paths target
      | None => first_package paths target
      end
  end.
Definition extracted (pkg : NcuPackageReader) (target : bytes) : option bytes :=
  match ExtractMember pkg target with Ok image => Some image | Raise _ => None end.
(** The first directory that has the module, as a file or else in a package. *)
Fixpoint find_image (dirs : list bytes) (target : bytes) : option bytes :=
  match dirs with
  | [] => None
  | dir :: dirs =>
      let file := join dir (target ++ NCU_EXTENSION) in
      if is_regular_file fs file then open_file fs file else
      match first_package (archives fs dir) target with
      | Some pkg => extracted pkg target
      | None => find_image dirs target
      end
  end.
(** The entry package comes first. *)
Definition image_of (entry : option NcuPackageReader) (target : bytes) : option bytes :=
  match entry with
  | Some pkg => if decide (target ∈ MemberPaths pkg) then extracted pkg target else find_image searchDirs target
  | None => find_image searchDirs target
  end.

(** A function, class, struct or enum that unit [v] imports comes from module [t].  The
    imports of static slots are not among these: the walk does not look at them. *)
Inductive imports_from (v : CompiledModule) (t : bytes) : Prop :=
  | function_from imp : imp ∈ mod_functionImports v → imp_modulePath imp = t → imports_from v t
  | class_from imp : imp ∈ mod_classImports v → imp_modulePath imp = t → imports_from v t
  | struct_from imp : imp ∈ mod_structImports v → imp_modulePath imp = t → imports_from v t
  | enum_from imp : imp ∈ mod_enumImports v → imp_modulePath imp = t → imports_from v t.
Lemma elem_of_collect t imports : ∀ ts, t ∈ collect ts imports ↔ t ∈ ts ∨ ∃ imp, imp ∈ imports ∧ imp_modulePath imp = t.
Proof.
  induction imports as [|imp imports IH]; intros ts; [simpl; split; [by left|]; by intros [?|(? & ?%elem_of_nil & _)]|].
  unfold collect in *. cbn [foldl]. rewrite IH. case_decide; set_solver.
Qed.
Lemma targets_of_iff v t : t ∈ targets_of v ↔ imports_from v t.
Proof.
  unfold targets_of. rewrite !elem_of_collect. split.
  - intros [[[[?%elem_of_nil|(imp & ? & ?)]|(imp & ? & ?)]|(imp & ? & ?)]|(imp & ? & ?)]; [done|..].
    + by eapply function_from.
    + by eapply class_from.
    + by eapply struct_from.
    + by eapply enum_from.
  - intros []; eauto 10.
Qed.

(** The modules reachable from the entry unit [u0]. *)
Inductive reached (entry : option NcuPackageReader) (u0 : CompiledModule) : CompiledModule → Prop :=
  | reached_entry : reached entry u0 u0
  | reached_import v target image key u :
      reached entry u0 v → imports_from v target → target ≠ mod_modulePath u0 →
      image_of entry target = Some image → LoadFromBytes image = Ok (u, key) → reached entry u0 u.

(** The entry unit, its package and the entry key. *)
Inductive entry_of (artifact : bytes) : option NcuPackageReader → CompiledModule → bytes → Prop :=
  | entry_file image u key : extension artifact ≠ NPKG_EXTENSION → open_file fs artifact = Some image →
      LoadFromBytes image = Ok (u, key) → entry_of artifact None u key
  | entry_record pkg rec image u key : extension artifact = NPKG_EXTENSION → package_at artifact = Some pkg →
      m_entry pkg = Some rec → extracted pkg (er_modulePath rec) = Some image → LoadFromBytes image = Ok (u, key) →
      mod_modulePath u = er_modulePath rec →
      entry_of artifact (Some pkg) u (er_modulePath rec ++ [46] ++ er_functionName rec)
  | entry_member pkg path paths image u key : extension artifact = NPKG_EXTENSION → package_at artifact = Some pkg →
      m_entry pkg = None → MemberPaths pkg = path :: paths → extracted pkg path = Some image →
      LoadFromBytes image = Ok (u, key) → mod_modulePath u = path → entry_of artifact (Some pkg) u key.

(** ** One target *)
Lemma catch_std_Ok {A} (m : outcome A) r : catch_std m = Ok r →
  match r with inl a => m = Ok a | inr what => m = Raise (RuntimeError what) end.
Proof. destruct m as [a|[]]; intros [= <-]; done. Qed.

Definition cache_ok (w : ClosureWalk) : Prop := ∀ path pkg, w_pkgCache w !! path = Some pkg → package_at path = Some pkg.

(** Between [w] and [w'] only packages have been opened. *)
Record searched (w w' : ClosureWalk) : Prop := {
  se_units : w_units w' = w_units w;
  se_resolved : w_resolvedPaths w' = w_resolvedPaths w;
  se_problems : w_problems w' = w_problems w;
  se_entry : w_entryPackage w' = w_entryPackage w;
  se_cache : cache_ok w'
}.
Lemma searched_refl w : cache_ok w → searched w w.
Proof. by split. Qed.
Lemma searched_trans w1 w2 w3 : searched w1 w2 → searched w2 w3 → searched w1 w3.
Proof. intros [] []. split; [congruence..|done]. Qed.

Lemma OpenPackage_spec path w r w' : cache_ok w → OpenPackage fs path w = Ok (r, w') → r = package_at path ∧ searched w w'.
Proof.
  intros Hc. unfold OpenPackage. destruct (w_pkgCache w !! path) as [pkg|] eqn:E.
  { intros [= <- <-]. split; [by rewrite (Hc _ _ E)|by apply searched_refl]. }
  intros (o & Ho%catch_std_Ok & H)%bind_Ok. destruct o as [pkg|what]; injection H as <- <-.
  - assert (package_at path = Some pkg) as Hp by (unfold package_at; by rewrite Ho). split; [done|]. split; try done.
    intros p q. simpl. intros [[<- <-]|[_ Hq]]%lookup_insert_Some; [done|by apply Hc].
  - split; [unfold package_at; by rewrite Ho|]. by split.
Qed.
Lemma search_archives_spec target paths : ∀ w r w', cache_ok w → search_archives fs paths target w = Ok (r, w') →
  r = first_package paths target ∧ searched w w'.
Proof.
  induction paths as [|path paths IH]; intros w r w' Hc; cbn [search_archives first_package].
  { intros [= <- <-]. split; [done|by apply searched_refl]. }
  intros ([o w1] & (-> & H1)%OpenPackage_spec & H)%bind_Ok; [|done]. simpl in H.
  destruct (package_at path) as [pkg|]; [case_decide as Hin; [injection H as <- <-; split; done|]|].
  all: apply IH in H as [-> H2]; [|apply H1]; split; [done|by eapply searched_trans].
Qed.

(** A target is loaded from [image], or a problem is noted. *)
Record attempted (image : option bytes) (target : bytes) (w w' : ClosureWalk) : Prop := {
  at_resolved : w_resolvedPaths w' = w_resolvedPaths w;
  at_entry : w_entryPackage w' = w_entryPackage w;
  at_cache : cache_ok w';
  at_unit : (w_units w' = w_units w ∧ w_problems w' ≠ []) ∨
    ∃ bs u key, image = Some bs ∧ LoadFromBytes bs = Ok (u, key) ∧ mod_modulePath u = target ∧
      w_units w' = w_units w ++ [u] ∧ w_problems w' = w_problems w
}.
Lemma problem_attempted image target line w : cache_ok w → attempted image target w (push_problem line w).
Proof. split; try done. left. split; [done|]. simpl. by intros [_ [=]]%app_nil. Qed.
Lemma AcceptUnit_attempted bs u key target where_ w : cache_ok w → LoadFromBytes bs = Ok (u, key) →
  attempted (Some bs) target w (AcceptUnit u target where_ w).
Proof.
  intros Hc Hl. unfold AcceptUnit. case_decide as E; [by apply problem_attempted|].
  split; try done. right. by exists bs, u, key.
Qed.
Lemma searched_attempted image target w w1 w' : searched w w1 → attempted image target w1 w' → attempted image target w w'.
Proof.
  intros [Hu Hr Hp He _] [Hr' He' Hc' Hu']. split; [congruence..|done|]. rewrite Hu, Hp in Hu'. exact Hu'.
Qed.
Lemma LoadUnitFile_spec path target w w' : cache_ok w → LoadUnitFile fs path target w = Ok w' →
  attempted (open_file fs path) target w w'.
Proof.
  intros Hc (r & Hr%catch_std_Ok & [= <-])%bind_Ok. unfold Load in Hr. destruct r as [[u key]|what]; [|by apply problem_attempted].
  destruct (open_file fs path) as [image|]; [|done]. by eapply AcceptUnit_attempted.
Qed.
Lemma LoadPackageMember_spec pkg target w w' key : cache_ok w → LoadPackageMember pkg target w = Ok (w', key) →
  attempted (extracted pkg target) target w w' ∧
  ∀ bs, extracted pkg target = Some bs → ∀ u k, LoadFromBytes bs = Ok (u, k) → key = k.
Proof.
  intros Hc (r & Hr%catch_std_Ok & H)%bind_Ok. unfold extracted. destruct r as [image|what]; rewrite Hr.
  2: { injection H as <- <-. split; [by apply problem_attempted|done]. }
  apply bind_Ok in H as (r & Hl%catch_std_Ok & [= E]). destruct r as [[u k]|what]; injection E as <- <-.
  - split; [by eapply AcceptUnit_attempted|]. intros bs [= <-] u' k'. rewrite Hl. by intros [= _ ->].
  - split; [by apply problem_attempted|]. intros bs [= <-] u' k'. by rewrite Hl.
Qed.
Lemma search_dirs_spec target dirs : ∀ w w', cache_ok w → search_dirs fs searchDirs dirs target w = Ok w' →
  attempted (find_image dirs target) target w w'.
Proof.
  induction dirs as [|dir dirs IH]; intros w w' Hc; cbn [search_dirs find_image].
  { intros [= <-]. by apply problem_attempted. }
  destruct (is_regular_file _ _); [by apply LoadUnitFile_spec|].
  intros ([r w1] & (-> & H1)%search_archives_spec & H)%bind_Ok; [|done]. cbn in H.
  destruct (first_package _ _) as [pkg|].
  - destruct (LoadPackageMember pkg target w1) as [[w2 key]|] eqn:E; [|done]. injection H as <-.
    apply LoadPackageMember_spec in E as [E _]; [|apply H1]. by eapply searched_attempted.
  - apply IH in H; [|apply H1]. by eapply searched_attempted.
Qed.
Lemma ResolveTarget_spec target w w' : cache_ok w → ResolveTarget fs searchDirs target w = Ok w' →
  (target ∈ w_resolvedPaths w ∧ w' = w) ∨
  ((target ∉ w_resolvedPaths w) ∧ attempted (image_of (w_entryPackage w) target) target (resolve_path target w) w').
Proof.
  intros Hc. unfold ResolveTarget. case_decide as Hr; [intros [= <-]; by left|]. intros H. right. split; [done|].
  unfold image_of. cbn in H. destruct (w_entryPackage w) as [pkg|]; [case_decide|].
  2-3: by apply search_dirs_spec.
  destruct (LoadPackageMember _ _ _) as [[w2 key]|] eqn:E; [|done]. injection H as <-.
  by apply LoadPackageMember_spec in E as [E _].
Qed.

(** ** The walk *)
Section closure.
Context (entry : option NcuPackageReader) (u0 : CompiledModule).

Record inv (w : ClosureWalk) : Prop := {
  i_entry : w_entryPackage w = entry;
  i_cache : cache_ok w;
  i_head : head (w_units w) = Some u0;
  i_reached : ∀ u, u ∈ w_units w → reached entry u0 u;
  i_found : ∀ u, u ∈ w_units w → u = u0 ∨
    IsValidModulePath (mod_modulePath u) = true ∧
    ∃ image key, image_of entry (mod_modulePath u) = Some image ∧ LoadFromBytes image = Ok (u, key);
  i_nodup : NoDup (mod_modulePath <$> w_units w);
  i_resolved : ∀ u, u ∈ w_units w → mod_modulePath u ∈ w_resolvedPaths w;
  i_complete : w_problems w = [] → ∀ t, t ∈ w_resolvedPaths w → t ∈ mod_modulePath <$> w_units w
}.
(** The walk only adds. *)
Record grown (w w' : ClosureWalk) : Prop := {
  g_units : w_units w `prefix_of` w_units w';
  g_resolved : w_resolvedPaths w ⊆ w_resolvedPaths w';
  g_problems : w_problems w' = [] → w_problems w = []
}.
#[local] Instance grown_preorder : PreOrder grown.
Proof. split; [by split|]. intros w1 w2 w3 [] []. split; [by etrans..|auto]. Qed.

Lemma inv_u0 w : inv w → u0 ∈ w_units w.
Proof. intros I. pose proof (i_head _ I) as H. destruct (w_units w); [done|]. injection H as ->. by left. Qed.

Lemma ResolveTarget_inv target w w' : inv w → (∃ v, reached entry u0 v ∧ target ∈ targets_of v) →
  IsValidModulePath target = true → ResolveTarget fs searchDirs target w = Ok w' →
  inv w' ∧ grown w w' ∧ target ∈ w_resolvedPaths w'.
Proof.
  intros I (v & Hv & Ht) Hvalid H. pose proof I as [He Hc Hh Hr Hf Hn Hs Hp].
  apply ResolveTarget_spec in H as [[Hin ->]|[Hin [Ar Ae Ac Au]]]; [| |done].
  { split; [done|]. split; [reflexivity|done]. }
  rewrite He in Au. cbn in Ar, Ae, Au.
  assert (∀ u, u ∈ w_units w → mod_modulePath u ≠ target) as Hnew by (intros u Hu <-; by apply Hin, Hs).
  destruct Au as [[Eu Ep]|(bs & u & key & Hbs & Hl & Hpath & Eu & Ep)].
  - split; [|split; [split|]]; [split|..].
    all: rewrite ?Ar, ?Ae, ?Eu; try done. 1: intros u Hu. all: set_solver.
  - assert (∀ x, x ∈ w_units w ++ [u] → x ∈ w_units w ∨ x = u) as Hx by (intros x; rewrite elem_of_app, list_elem_of_singleton; tauto).
    split; [|split; [split|]]; [split|..]; rewrite ?Ar, ?Ae, ?Eu; try done.
    + destruct (w_units w); [done|exact Hh].
    + intros x [Hxin| ->]%Hx; [by apply Hr|]. eapply reached_import; [exact Hv|by apply targets_of_iff| |exact Hbs|exact Hl].
      intros E. exact (Hnew u0 (inv_u0 _ I) (eq_sym E)).
    + intros x [Hxin| ->]%Hx; [by apply Hf|]. right. rewrite Hpath. split; [done|]. by exists bs, key.
    + rewrite fmap_app. apply list.NoDup_app. split; [done|]. split; [|apply NoDup_singleton].
      intros p (x & -> & Hxin)%list_elem_of_fmap E%list_elem_of_singleton. apply (Hnew x Hxin). by rewrite E.
    + intros x [Hxin| ->]%Hx; [|set_solver]. apply elem_of_union_r, Hs, Hxin.
    + rewrite Ep. intros Hnil t [->%elem_of_singleton|Hold]%elem_of_union; rewrite fmap_app, elem_of_app; [right|left; by apply Hp].
      rewrite <- Hpath. by left.
    + by apply prefix_app_r.
    + set_solver.
    + by rewrite Ep.
    + set_solver.
Qed.

(** A target is settled in [w] unless a problem is pending. *)
Definition settled (w : ClosureWalk) (target : bytes) : Prop :=
  w_problems w = [] → IsValidModulePath target = true ∧ target ∈ w_resolvedPaths w.
Lemma settled_grown w w' target : grown w w' → settled w target → settled w' target.
Proof. intros [_ Hr Hp] Hs H. destruct (Hs (Hp H)) as [? ?]. split; [done|set_solver]. Qed.

Lemma walk_target_inv path target w w' : inv w → (∃ v, reached entry u0 v ∧ target ∈ targets_of v) →
  walk_target fs searchDirs path w target = Ok w' → inv w' ∧ grown w w' ∧ settled w' target.
Proof.
  intros I Ht. unfold walk_target. destruct (IsValidModulePath target) eqn:Hv.
  - intros H. destruct (ResolveTarget_inv _ _ _ I Ht Hv H) as (? & ? & ?). split; [done|]. split; [done|]. by intros _.
  - intros [= <-]. destruct I. assert (∀ l : string, w_problems w ++ [l] ≠ []) as Hne by (intros l [_ [=]]%app_nil).
    split; [split; try done|split; [split; try done|]]; intros E; by apply Hne in E.
Qed.
Lemma walk_targets_inv path ts : ∀ w w', inv w → (∀ t, t ∈ ts → ∃ v, reached entry u0 v ∧ t ∈ targets_of v) →
  foldM (walk_target fs searchDirs path) w ts = Ok w' → inv w' ∧ grown w w' ∧ ∀ t, t ∈ ts → settled w' t.
Proof.
  induction ts as [|t ts IH]; intros w w' I Hts H; simpl in H.
  { injection H as <-. split; [done|]. split; [reflexivity|]. by intros t ?%elem_of_nil. }
  apply bind_Ok in H as (w1 & H1 & H).
  apply walk_target_inv in H1 as (I1 & G1 & S1); [|done|apply Hts; by left].
  apply IH in H as (I2 & G2 & S2); [|done|intros x Hx; apply Hts; by right].
  split; [done|]. split; [by etrans|]. intros x [->|Hx]%elem_of_cons; [by eapply settled_grown|auto].
Qed.

Lemma DiscoverClosure_inv fuel : ∀ i w w', inv w → DiscoverClosure fs searchDirs fuel i w = Ok w' →
  (∀ j u t, (j < i)%nat → w_units w !! j = Some u → t ∈ targets_of u → settled w t) →
  inv w' ∧ ∀ u t, u ∈ w_units w' → t ∈ targets_of u → settled w' t.
Proof.
  induction fuel as [|fuel IH]; intros i w w' I H Hdone; cbn [DiscoverClosure] in H; destruct (w_units w !! i) as [u|] eqn:Hu.
  2,4: injection H as <-; split; [done|]; intros u t (j & Hj)%list_elem_of_lookup Ht;
         eapply (Hdone j); [|done..]; apply lookup_ge_None in Hu; apply lookup_lt_Some in Hj; lia.
  { done. }
  apply bind_Ok in H as (w1 & H1 & H).
  apply walk_targets_inv in H1 as (I1 & G1 & S1); [|done|].
  2: { intros t Ht. exists u. split; [eapply i_reached; [done|by eapply list_elem_of_lookup_2]|done]. }
  eapply IH; [exact I1|exact H|]. intros j v t Hj Hv Ht.
  destruct (decide (j = i)) as [->|Hne].
  - assert (v = u) as -> by (eapply prefix_lookup_Some in Hu; [|apply G1]; congruence). by apply S1.
  - assert (w_units w !! j = Some v) as Hv'.
    { destruct (g_units _ _ G1) as [k Hk]. rewrite Hk, lookup_app_l in Hv; [done|]. apply lookup_lt_Some in Hu. lia. }
    eapply settled_grown; [exact G1|]. eapply Hdone; [|done..]. lia.
Qed.

(** Every reachable module is one of the units. *)
Lemma reached_in w u : inv w → (∀ u t, u ∈ w_units w → t ∈ targets_of u → settled w t) → w_problems w = [] →
  reached entry u0 u → u ∈ w_units w.
Proof.
  intros I Hs Hp. induction 1 as [|v target image key u Hv IH Ht Hne Hi Hl]; [by apply inv_u0|].
  destruct (Hs v target IH (proj2 (targets_of_iff _ _) Ht) Hp) as [_ Hr]. apply (i_complete _ I Hp) in Hr.
  apply list_elem_of_fmap in Hr as (u' & -> & Hu'). destruct (i_found _ I _ Hu') as [->|(_ & image' & key' & Hi' & Hl')]; [done|].
  rewrite Hi in Hi'. injection Hi' as <-. rewrite Hl in Hl'. by injection Hl' as -> _.
Qed.
End closure.

(** ** The entry *)
Lemma start_inv entry u w : w_units w = [u] → w_resolvedPaths w = {[mod_modulePath u]} ∪ ∅ → w_entryPackage w = entry →
  cache_ok w → inv entry u w.
Proof.
  intros Hu Hr He Hc. assert (∀ x, x ∈ [u] → x = u) as Hx by (intros x; by rewrite list_elem_of_singleton).
  split; rewrite ?Hu, ?Hr; try done.
  - intros x ->%Hx. constructor.
  - intros x ->%Hx. by left.
  - apply NoDup_singleton.
  - intros x ->%Hx. set_solver.
  - intros _ t Ht. set_solver.
Qed.
Lemma new_cache : cache_ok new_walk.
Proof. by intros path pkg. Qed.

(** The member of the entry package, loaded into an empty walk. *)
Lemma entry_member_loaded pkg path w key : LoadPackageMember pkg path new_walk = Ok (w, key) → w_units w ≠ [] →
  ∃ image u, extracted pkg path = Some image ∧ LoadFromBytes image = Ok (u, key) ∧ mod_modulePath u = path ∧
    ∀ front, head (w_units w) = Some front → inv (Some pkg) u (resolve_path (mod_modulePath front) (set_entryPackage pkg w)).
Proof.
  intros [[Hr He Hc Hu] Hk]%LoadPackageMember_spec Hne; [|exact new_cache].
  destruct Hu as [[Hu _]|(image & u & k & Hi & Hl & Hp & Hu & _)]; [by rewrite Hu in Hne|].
  rewrite (Hk _ Hi _ _ Hl). exists image, u. split; [done|]. split; [done|]. split; [done|].
  rewrite Hu. simpl. intros front [= <-]. apply start_inv; simpl; [by rewrite Hu|by rewrite Hr|done|exact Hc].
Qed.

Lemma LoadEntry_spec artifact w key : LoadEntry fs artifact = Ok (w, key) →
  ∃ entry u0, entry_of artifact entry u0 key ∧ inv entry u0 w.
Proof.
  unfold LoadEntry. cbv zeta. intros ([w1 k1] & H & H')%bind_Ok. apply bind_Ok in H' as (front & Hf%deref_Ok & [= <- <-]).
  case_decide as Hext; apply bind_Ok in H as (r & Hr%catch_std_Ok & H).
  - destruct r as [pkg|]; [|done]. assert (package_at artifact = Some pkg) as Hp by (unfold package_at; by rewrite Hr).
    apply bind_Ok in H as (path & Hpath & H). apply bind_Ok in H as ([w2 k2] & H2 & H).
    apply bind_Ok in H as (? & Hne%check_Ok%bool_decide_eq_true & [= <- <-]).
    destruct (entry_member_loaded _ _ _ _ H2 Hne) as (image & u & Hi & Hl & Hu & Hinv). simpl in Hf.
    exists (Some pkg), u. split; [|by apply Hinv].
    destruct (m_entry pkg) as [rec|] eqn:Er; [injection Hpath as <-; by eapply entry_record|].
    destruct (MemberPaths pkg) as [|p ps] eqn:Em; [done|]. injection Hpath as <-. by eapply entry_member.
  - destruct r as [[u k]|]; [|done]. injection H as <- <-. injection Hf as <-. unfold Load in Hr.
    destruct (open_file fs artifact) as [image|] eqn:Eo; [|done]. exists None, u.
    split; [by eapply entry_file|]. apply start_inv; done.
Qed.

(** The walk that has given a closure. *)
Lemma closure_walk fuel artifact units key : LoadClosure fs searchDirs fuel artifact = Ok (units, key) →
  ∃ entry u0 w, entry_of artifact entry u0 key ∧ inv entry u0 w ∧ units = w_units w ∧ w_problems w = [] ∧
    ∀ u t, u ∈ units → t ∈ targets_of u → settled w t.
Proof.
  unfold LoadClosure. intros ([w k] & (entry & u0 & He & I)%LoadEntry_spec & H)%bind_Ok.
  apply bind_Ok in H as (w' & Hd & H). apply bind_Ok in H as (? & Hp%check_Ok%bool_decide_eq_true & [= <- <-]).
  eapply DiscoverClosure_inv in Hd as [I' Hs]; [|exact I|lia]. by exists entry, u0, w'.
Qed.
(** C10: A closure that loads is complete and has nothing else: its units are the entry unit
    and exactly the modules reachable from it through the imports of functions, classes,
    structs and enums (not those of static slots, which the walk leaves out), each loaded from
    the place the search order gives it (the entry package, then the directories in order,
    a module file before the packages of the directory in the order of their names); no two
    units have one module path, each carries the path it was asked for, and the module of
    each such import is a well-formed path and the path of a unit. *)
Theorem closure_complete fuel artifact units key : LoadClosure fs searchDirs fuel artifact = Ok (units, key) →
  ∃ entry u0, entry_of artifact entry u0 key ∧ head units = Some u0 ∧ (∀ u, u ∈ units ↔ reached entry u0 u) ∧
    NoDup (mod_modulePath <$> units) ∧
    ∀ u t, u ∈ units → imports_from u t → IsValidModulePath t = true ∧ t ∈ mod_modulePath <$> units.
Proof.
  intros (entry & u0 & w & He & I & -> & Hp & Hs)%closure_walk. exists entry, u0.
  split; [done|]. split; [apply I|]. split; [|split; [apply I|]].
  - intros u. split; [apply I|by eapply reached_in].
  - intros u t Hu Ht%targets_of_iff. destruct (Hs u t Hu Ht Hp) as [? Hr]. split; [done|]. by eapply i_complete.
Qed.

(** ** The walk ends *)

(** The targets the file system can serve. *)
Definition members_at (path : bytes) : list bytes := match package_at path with Some pkg => MemberPaths pkg | None => [] end.
Definition file_target (dir path : bytes) : bytes :=
  let t := drop (length (dir_prefix dir)) path in take (length t - length NCU_EXTENSION) t.
Definition dir_targets (dir : bytes) : list bytes :=
  (file_target dir <$> (map_to_list (fs_files fs)).*1) ++ (archives fs dir ≫= members_at).
Definition servable (artifact : bytes) : list bytes := members_at artifact ++ (searchDirs ≫= dir_targets).
(** The entry unit and one unit for each of them. *)
Definition closure_bound (artifact : bytes) : nat := S (length (servable artifact)).

Lemma file_target_join dir t : file_target dir (join dir (t ++ NCU_EXTENSION)) = t.
Proof. unfold file_target, join. rewrite drop_app_length, length_app, Nat.add_sub. apply take_app_length. Qed.
Lemma first_package_members paths target pkg : first_package paths target = Some pkg → target ∈ paths ≫= members_at.
Proof.
  induction paths as [|path paths IH]; [done|]. cbn [first_package]. rewrite bind_cons, elem_of_app. unfold members_at at 1.
  destruct (package_at path) as [q|]; [case_decide; [by left|]|]; right; by apply IH.
Qed.
Lemma find_image_servable dirs target image : find_image dirs target = Some image → target ∈ dirs ≫= dir_targets.
Proof.
  induction dirs as [|dir dirs IH]; [done|]. cbn [find_image]. rewrite bind_cons, elem_of_app. unfold dir_targets at 1.
  rewrite elem_of_app. unfold is_regular_file. case_bool_decide as Hr.
  - intros _. left. left. apply list_elem_of_fmap. exists (join dir (target ++ NCU_EXTENSION)).
    split; [by rewrite file_target_join|]. destruct Hr as [x Hx].
    apply list_elem_of_fmap. exists (join dir (target ++ NCU_EXTENSION), x). split; [done|]. by apply elem_of_map_to_list.
  - destruct (first_package _ _) as [pkg|] eqn:E; [|intros H; right; by apply IH].
    intros _. left. right. by eapply first_package_members.
Qed.
Lemma image_of_servable artifact entry u0 key target image : entry_of artifact entry u0 key →
  image_of entry target = Some image → target ∈ servable artifact.
Proof.
  intros He H. unfold servable. rewrite elem_of_app. unfold image_of in H.
  assert (∀ pkg, entry = Some pkg → package_at artifact = Some pkg) as Hp by (intros pkg ->; by inversion He).
  destruct entry as [pkg|]; [case_decide|]; [|right; by eapply find_image_servable..].
  left. unfold members_at. by rewrite (Hp pkg).
Qed.
Lemma units_bounded artifact entry u0 key w : entry_of artifact entry u0 key → inv entry u0 w →
  (length (w_units w) ≤ closure_bound artifact)%nat.
Proof.
  intros He I. pose proof (i_head _ _ _ I) as Hh. pose proof (i_nodup _ _ _ I) as Hn.
  destruct (w_units w) as [|u us] eqn:E; [done|]. injection Hh as ->. apply list.NoDup_cons in Hn as [Hnew Hn].
  unfold closure_bound. simpl. apply le_n_S. rewrite <- (length_fmap mod_modulePath us).
  apply submseteq_length, NoDup_submseteq; [done|]. intros t (u & -> & Hu)%list_elem_of_fmap.
  destruct (i_found _ _ _ I u) as [->|(_ & image & k & Hi & _)]; [rewrite E; by right| |by eapply image_of_servable].
  exfalso. apply Hnew. apply list_elem_of_fmap. by exists u0.
Qed.

(** Nothing but the closure loop itself can run out of turns. *)
Definition halts {A} (m : outcome A) : Prop := m ≠ Raise OutOfFuel.
Lemma halts_bind {A B} (m : outcome A) (k : A → outcome B) : halts m → (∀ a, m = Ok a → halts (k a)) → halts (m ≫= k).
Proof. destruct m as [a|e]; simpl; [intros _ H; by apply H|]. intros H _ E. apply H. by injection E as ->. Qed.
Lemma halts_fmap {A B} (f : A → B) (m : outcome A) : halts m → halts (f <$> m).
Proof. destruct m as [a|e]; simpl; [done|]. intros H E. apply H. by injection E as ->. Qed.
Lemma halts_catch {A} (m : outcome A) : halts m → halts (catch_std m).
Proof. by destruct m as [a|[]]. Qed.
Lemma halts_deref {A} (o : option A) : halts (deref o).
Proof. by destruct o. Qed.
Lemma halts_check b what : halts (check b (RuntimeError what)).
Proof. by destruct b. Qed.
Lemma halts_load image : halts (LoadFromBytes image).
Proof. by intros [[]|]%load_fails. Qed.
Lemma halts_Ok {A} (a : A) : halts (Ok a).
Proof. done. Qed.
Lemma halts_Runtime {A} what : halts (Raise (A := A) (RuntimeError what)).
Proof. done. Qed.
End spec.
Create HintDb halts discriminated.
#[export] Hint Resolve halts_fmap halts_catch halts_deref halts_check halts_load halts_Ok halts_Runtime : halts.
Ltac solve_halts :=
  repeat first
    [ progress auto with halts
    | match goal with
      | |- halts (mbind _ _) => apply halts_bind; [|intros ? _]
      | |- halts (if decide ?P then _ else _) => destruct (decide P)
      | |- halts (if ?b then _ else _) => destruct b
      | |- halts (match ?x with _ => _ end) => destruct x
      | |- ∀ _, _ => intros ?
      end ].

Lemma halts_GetLE n image pos : halts (GetLE n image pos). Proof. unfold GetLE. solve_halts. Qed.
Lemma halts_substr image pos n : halts (substr image pos n). Proof. unfold substr. solve_halts. Qed.
#[export] Hint Resolve halts_GetLE halts_substr : halts.
Lemma halts_ParseNpkgHeader image : halts (ParseNpkgHeader image).
Proof. unfold ParseNpkgHeader, GetU16. solve_halts. Qed.
Lemma halts_ParseEntryRecord image pos path : halts (ParseEntryRecord image pos path).
Proof. unfold ParseEntryRecord, GetU16, bad. solve_halts. Qed.
Lemma halts_ParseMember image pos path : halts (ParseMember image pos path).
Proof. unfold ParseMember, GetU16, GetU64, bad. solve_halts. Qed.
#[export] Hint Resolve halts_ParseNpkgHeader halts_ParseEntryRecord halts_ParseMember : halts.
Lemma halts_ParseMemberTable image path n : ∀ pos rows, halts (ParseMemberTable image pos n path rows).
Proof. induction n as [|n IH]; intros pos rows; cbn [ParseMemberTable]; solve_halts. Qed.
#[export] Hint Resolve halts_ParseMemberTable : halts.
Lemma halts_Open r path file : halts (Open r path file).
Proof. unfold Open, GetU32. solve_halts. Qed.
Lemma halts_ExtractMember pkg path : halts (ExtractMember pkg path).
Proof. unfold ExtractMember. solve_halts. Qed.
#[export] Hint Resolve halts_Open halts_ExtractMember : halts.
Lemma halts_LoadPackageMember pkg target w : halts (LoadPackageMember pkg target w).
Proof. unfold LoadPackageMember. solve_halts. Qed.
Lemma halts_Load fs path : halts (Load fs path).
Proof. unfold Load. solve_halts. Qed.
#[export] Hint Resolve halts_LoadPackageMember halts_Load : halts.
Lemma halts_OpenPackage fs path w : halts (OpenPackage fs path w).
Proof. unfold OpenPackage. solve_halts. Qed.
Lemma halts_LoadUnitFile fs path target w : halts (LoadUnitFile fs path target w).
Proof. unfold LoadUnitFile. solve_halts. Qed.
#[export] Hint Resolve halts_OpenPackage halts_LoadUnitFile : halts.
Lemma halts_search_archives fs target paths : ∀ w, halts (search_archives fs paths target w).
Proof. induction paths; intros w; cbn [search_archives]; solve_halts. Qed.
#[export] Hint Resolve halts_search_archives : halts.
Lemma halts_search_dirs fs all target dirs : ∀ w, halts (search_dirs fs all dirs target w).
Proof. induction dirs; intros w; cbn [search_dirs]; unfold FindPackageWithMember; solve_halts. Qed.
#[export] Hint Resolve halts_search_dirs : halts.
Lemma halts_walk_target fs dirs path w target : halts (walk_target fs dirs path w target).
Proof. unfold walk_target, ResolveTarget. solve_halts. Qed.
Lemma halts_foldM {A S} (f : S → A → outcome S) l : (∀ s a, halts (f s a)) → ∀ s, halts (foldM f s l).
Proof. intros Hf. induction l as [|a l IH]; intros s; [done|]. simpl. apply halts_bind; auto. Qed.
Lemma halts_LoadEntry fs artifact : halts (LoadEntry fs artifact).
Proof. unfold LoadEntry, report. cbv zeta. solve_halts. Qed.

Section termination.
Context (fs : FileSystem) (searchDirs : list bytes).

Lemma halts_DiscoverClosure artifact entry u0 key fuel : entry_of fs artifact entry u0 key → ∀ i w, inv fs searchDirs entry u0 w →
  (closure_bound fs searchDirs artifact ≤ i + fuel)%nat → halts (DiscoverClosure fs searchDirs fuel i w).
Proof.
  intros He. induction fuel as [|fuel IH]; intros i w I Hf; cbn [DiscoverClosure]; destruct (w_units w !! i) as [u|] eqn:Hu; try done.
  { apply lookup_lt_Some in Hu. pose proof (units_bounded _ _ _ _ _ _ _ He I). lia. }
  apply halts_bind; [apply halts_foldM, halts_walk_target|]. intros w1 H1.
  eapply walk_targets_inv in H1 as (I1 & _); [|exact I|]; [apply IH; [done|lia]|].
  intros t Ht. exists u. split; [eapply i_reached; [exact I|by eapply list_elem_of_lookup_2]|done].
Qed.

(** The walk over a closure that grows while it is walked ends, import cycles included:
    the turns needed are at most one for the entry and one for each module path the file
    system can serve, whatever the contents of the files. *)
Theorem closure_terminates artifact fuel : (closure_bound fs searchDirs artifact ≤ fuel)%nat →
  LoadClosure fs searchDirs fuel artifact ≠ Raise OutOfFuel.
Proof.
  intros Hf. change (halts (LoadClosure fs searchDirs fuel artifact)). unfold LoadClosure, report.
  apply halts_bind; [apply halts_LoadEntry|]. intros [w k] (entry & u0 & He & I)%(LoadEntry_spec fs searchDirs).
  apply halts_bind; [eapply halts_DiscoverClosure; [exact He|exact I|lia]|]. intros w' _. solve_halts.
Qed.
End termination.
