(* ===== verification/DefaultExpr.v ===== *)
(** * Default-value expressions

    Models the byte grammar of serialized default expressions in
    [src/include/nlang/vm/ExprDesc.h]: the bounds-checked cursor and the walk with which the
    linker rewrites the string indices of an expression in place.  The abstract
    specification is the syntax tree the grammar describes; the walk accepts the encodings
    of trees within the depth cap, no other bytes, and maps their string indices. *)
From S2P Require Import Prelude.
From S2P Require Import Bytecode Prims TypeDesc Layout Heap.
Open Scope Z_scope.

Definition ED_FormalRef : Z := 32.
Definition ED_Neg : Z := 33.
Definition ED_Binary : Z := 34.
Definition ED_Call : Z := 35.
Definition EDB_Shr : Z := 6.
Definition kMaxExprDescDepth : nat := 16.

(** ** The cursor

    [None]: the read does not fit ([false]). *)
Definition cur_fits (bs : bytes) (off n : nat) : option nat :=
  if decide (n ≤ length bs - off)%nat then Some (off + n)%nat else None.
Definition Bytes (n : nat) (bs : bytes) (off : nat) : option (bytes * nat) :=
  off' ← cur_fits bs off n; Some (take n (drop off bs), off').
Definition cur_uint (n : nat) (bs : bytes) (off : nat) : option (Z * nat) :=
  '(v, off) ← Bytes n bs off; Some (le_value v, off).
Definition Skip (n : nat) (bs : bytes) (off : nat) : option nat := cur_fits bs off n.
Definition AtEnd (bs : bytes) (off : nat) : bool := bool_decide (off = length bs).

(** ** The walk

    [Ok None] is the result [false], [Ok (Some (bs, off))] is [true] with the rewritten
    bytes and the cursor; an error is an exception of the lookup.  [room] is what is left
    of the depth cap. *)
Abbreviation walk := (outcome (option (bytes * nat))).
Definition accept (bs : bytes) (r : option nat) : walk := Ok ((λ off, (bs, off)) <$> r).
(** The code's [a && b]. *)
Definition and_then (r : walk) (k : bytes → nat → walk) : walk :=
  o ← r; match o with Some (bs, off) => k bs off | None => Ok None end.
Definition splice4 (bs : bytes) (off : nat) (v : Z) : bytes :=
  take off bs ++ le_bytes 4 v ++ drop (off + 4) bs.

Fixpoint walk_children (child : bytes → nat → walk) (n : nat) (bs : bytes) (off : nat) : walk :=
  match n with
  | O => Ok (Some (bs, off))
  | S n => and_then (child bs off) (walk_children child n)
  end.
Definition ExprDescRemapCall (child : bytes → nat → walk) (bs : bytes) (off : nat) : walk :=
  match ('(keyLen, off) ← cur_uint 2 bs off; off ← Skip (Z.to_nat keyLen) bs off;
         '(_, off) ← cur_uint 4 bs off; cur_uint 1 bs off) with
  | None => Ok None
  | Some (argCount, off) => walk_children child (Z.to_nat argCount) bs off
  end.
(** The switch on the tag. *)
Definition remap_tag (lookup : Z → outcome Z) (child : bytes → nat → walk) (tag : Z) (bs : bytes) (off : nat) : walk :=
  if decide (tag = RTK_Int32) then accept bs (Skip 4 bs off)
  else if decide (tag = RTK_Float) then accept bs (Skip 4 bs off)
  else if decide (tag = RTK_Long ∨ tag = RTK_ULong) then accept bs (Skip 8 bs off)
  else if decide (tag = RTK_Double) then accept bs (Skip 8 bs off)
  else if decide (tag = RTK_String) then
    match cur_uint 4 bs off with
    | None => Ok None
    | Some (idx, off) => mapped ← lookup idx; Ok (Some (splice4 bs (off - 4) mapped, off))
    end
  else if decide (tag = RTK_Null) then Ok (Some (bs, off))
  else if decide (tag = ED_FormalRef) then accept bs (Skip 1 bs off)
  else if decide (tag = ED_Neg) then child bs off
  else if decide (tag = ED_Binary) then
    match cur_uint 1 bs off with
    | None => Ok None
    | Some (op, off) => if decide (EDB_Shr < op) then Ok None else and_then (child bs off) child
    end
  else if decide (tag = ED_Call) then ExprDescRemapCall child bs off
  else Ok None.
Fixpoint ExprDescRemapStrings_at (lookup : Z → outcome Z) (room : nat) (bs : bytes) (off : nat) : walk :=
  match room with
  | O => Ok None
  | S room =>
      match cur_uint 1 bs off with
      | None => Ok None
      | Some (tag, off) => remap_tag lookup (ExprDescRemapStrings_at lookup room) tag bs off
      end
  end.
Definition ExprDescRemapStrings (lookup : Z → outcome Z) (bs : bytes) : outcome (option bytes) :=
  if decide (bs = []) then Ok (Some []) else
  r ← ExprDescRemapStrings_at lookup (S kMaxExprDescDepth) bs 0;
  match r with
  | None => Ok None
  | Some (bs, off) => Ok (if AtEnd bs off then Some bs else None)
  end.

(** ** The grammar

    A syntax tree and its encoding.  The payload of a scalar is opaque. *)
Inductive scalar_kind := SkInt32 | SkFloat | SkLong | SkULong | SkDouble.
Definition scalar_tag (k : scalar_kind) : Z :=
  match k with SkInt32 => RTK_Int32 | SkFloat => RTK_Float | SkLong => RTK_Long | SkULong => RTK_ULong | SkDouble => RTK_Double end.
Definition scalar_width (k : scalar_kind) : nat := match k with SkInt32 | SkFloat => 4 | _ => 8 end.

Inductive ExprDesc :=
  | EScalar (k : scalar_kind) (payload : bytes)
  | EString (idx : Z)
  | ENull
  | EFormalRef (formal : Z)
  | ENeg (e : ExprDesc)
  | EBinary (op : Z) (l r : ExprDesc)
  | ECall (key : bytes) (paramCount : Z) (args : list ExprDesc).

Fixpoint ExprDesc_ind' (P : ExprDesc → Prop) (Hk : ∀ k v, P (EScalar k v)) (Hs : ∀ i, P (EString i)) (Hn : P ENull)
    (Hf : ∀ v, P (EFormalRef v)) (Hneg : ∀ e, P e → P (ENeg e)) (Hb : ∀ op l r, P l → P r → P (EBinary op l r))
    (Hc : ∀ key n args, Forall P args → P (ECall key n args)) (e : ExprDesc) : P e :=
  let rec := ExprDesc_ind' P Hk Hs Hn Hf Hneg Hb Hc in
  match e with
  | EScalar k v => Hk k v | EString i => Hs i | ENull => Hn | EFormalRef v => Hf v
  | ENeg e => Hneg e (rec e) | EBinary op l r => Hb op l r (rec l) (rec r)
  | ECall key n args => Hc key n args ((fix all (es : list ExprDesc) : Forall P es :=
      match es with [] => @List.Forall_nil _ P | e :: es => @List.Forall_cons _ P e es (rec e) (all es) end) args)
  end.

Fixpoint enc (e : ExprDesc) : bytes :=
  match e with
  | EScalar k v => scalar_tag k :: v
  | EString i => RTK_String :: le_bytes 4 i
  | ENull => [RTK_Null]
  | EFormalRef v => [ED_FormalRef; v]
  | ENeg e => ED_Neg :: enc e
  | EBinary op l r => ED_Binary :: op :: enc l ++ enc r
  | ECall key n args =>
      ED_Call :: le_bytes 2 (Z.of_nat (length key)) ++ key ++ le_bytes 4 n ++ Z.of_nat (length args) :: concat (enc <$> args)
  end.
(** Well formed, and nested at most [room] deep. *)
Fixpoint wf_expr (room : nat) (e : ExprDesc) : Prop :=
  match room with
  | O => False
  | S room =>
      match e with
      | EScalar k v => length v = scalar_width k
      | EString i => is_uint 32 i
      | ENull => True
      | EFormalRef v => is_byte v
      | ENeg e => wf_expr room e
      | EBinary op l r => is_byte op ∧ op ≤ EDB_Shr ∧ wf_expr room l ∧ wf_expr room r
      | ECall key n args =>
          Z.of_nat (length key) < 65536 ∧ is_uint 32 n ∧ Z.of_nat (length args) < 256 ∧ Forall (wf_expr room) args
      end
  end.
#[export] Instance wf_expr_dec room e : Decision (wf_expr room e).
Proof. revert e. induction room as [|room IH]; intros []; simpl; apply _. Defined.

(** The tree with its string indices mapped. *)
Fixpoint remap_expr (lookup : Z → outcome Z) (e : ExprDesc) : outcome ExprDesc :=
  match e with
  | EString i => j ← lookup i; Ok (EString j)
  | ENeg e => e ← remap_expr lookup e; Ok (ENeg e)
  | EBinary op l r => l ← remap_expr lookup l; r ← remap_expr lookup r; Ok (EBinary op l r)
  | ECall key n args =>
      args ← (fix all (es : list ExprDesc) : outcome (list ExprDesc) :=
        match es with [] => Ok [] | e :: es => e ← remap_expr lookup e; es ← all es; Ok (e :: es) end) args;
      Ok (ECall key n args)
  | _ => Ok e
  end.
Fixpoint remap_exprs (lookup : Z → outcome Z) (es : list ExprDesc) : outcome (list ExprDesc) :=
  match es with [] => Ok [] | e :: es => e ← remap_expr lookup e; es ← remap_exprs lookup es; Ok (e :: es) end.
Lemma remap_expr_call lookup key n args :
  remap_expr lookup (ECall key n args) = (args ← remap_exprs lookup args; Ok (ECall key n args)).
Proof. simpl. f_equal. induction args as [|e es IH]; simpl; [done|]. by destruct (remap_expr lookup e); simpl; rewrite ?IH. Qed.

(** ** The cursor on a known prefix *)
Lemma Bytes_at pre v post n : n = length v → Bytes n (pre ++ v ++ post) (length pre) = Some (v, (length pre + n)%nat).
Proof.
  intros ->. unfold Bytes, cur_fits. rewrite decide_True by (rewrite !length_app; lia). simpl.
  rewrite drop_app_length, take_app_length. done.
Qed.
Lemma Skip_at pre v post n : n = length v → Skip n (pre ++ v ++ post) (length pre) = Some (length pre + n)%nat.
Proof. intros ->. unfold Skip, cur_fits. by rewrite decide_True by (rewrite !length_app; lia). Qed.
Lemma cur_uint_at pre n v post : is_uint (8 * Z.of_nat n) v →
  cur_uint n (pre ++ le_bytes n v ++ post) (length pre) = Some (v, (length pre + n)%nat).
Proof.
  intros Hv. unfold cur_uint. rewrite Bytes_at by (by rewrite length_le_bytes). simpl.
  rewrite le_value_bytes, Z.mod_small by done. done.
Qed.
Lemma le_byte b : is_byte b → le_bytes 1 b = [b].
Proof. intros Hb. cbn [le_bytes]. by rewrite land_255, Z.mod_small by exact Hb. Qed.
Lemma cur_byte_at pre b post : is_byte b → cur_uint 1 (pre ++ b :: post) (length pre) = Some (b, S (length pre)).
Proof.
  intros Hb. pose proof (cur_uint_at pre 1 b post Hb) as H. rewrite le_byte in H by done. by rewrite Nat.add_1_r in H.
Qed.

Lemma Skip_at' bs off pre v post n : bs = pre ++ v ++ post → off = length pre → n = length v →
  Skip n bs off = Some (off + n)%nat.
Proof. intros -> -> ?. by apply Skip_at. Qed.
Lemma cur_uint_at' bs off pre n v post : bs = pre ++ le_bytes n v ++ post → off = length pre →
  is_uint (8 * Z.of_nat n) v → cur_uint n bs off = Some (v, (off + n)%nat).
Proof. intros -> -> ?. by apply cur_uint_at. Qed.

(** Conversely, what a read that succeeds has read. *)
Lemma Skip_inv pre rest n off : Skip n (pre ++ rest) (length pre) = Some off →
  ∃ v post, rest = v ++ post ∧ length v = n ∧ off = length (pre ++ v).
Proof.
  unfold Skip, cur_fits. case_decide as Hn; [|done]. intros [= <-]. rewrite length_app in Hn.
  assert (length (take n rest) = n) as Hl by (rewrite length_take; lia).
  exists (take n rest), (drop n rest). by rewrite take_drop, length_app, Hl.
Qed.
Lemma cur_uint_inv pre rest n v off : Forall is_byte rest → cur_uint n (pre ++ rest) (length pre) = Some (v, off) →
  ∃ post, rest = le_bytes n v ++ post ∧ is_uint (8 * Z.of_nat n) v ∧ off = length (pre ++ le_bytes n v).
Proof.
  intros Hb. unfold cur_uint, Bytes. destruct (cur_fits _ _ n) as [o|] eqn:E; [|done]. simpl. intros [= <- <-].
  apply (Skip_inv pre rest n) in E as (w & post & -> & <- & ->). apply Forall_app in Hb as [Hw _].
  rewrite drop_app_length, take_app_length. exists post.
  rewrite le_bytes_value by done. by split_and!; [|apply le_value_bound..|].
Qed.

(** ** The walk on the encoding of a tree *)
Section walk.
Context (lookup : Z → outcome Z).

Lemma remap_exprs_length es es' : remap_exprs lookup es = Ok es' → length es' = length es.
Proof. revert es'. induction es as [|e es IH]; intros es' H; simpl in *; [by simplify_eq|]. monad_inv. simpl. by f_equal; apply IH. Qed.

(** Mapping changes no length, so the cursor's positions are those of the original. *)
Definition same_size (a b : bytes) : Prop := length b = length a ∧ (Forall is_byte a → Forall is_byte b).
Lemma same_size_refl a : same_size a a. Proof. done. Qed.
Lemma same_size_app a b a' b' : same_size a a' → same_size b b' → same_size (a ++ b) (a' ++ b').
Proof.
  intros [La Fa] [Lb Fb]. split; [rewrite !length_app; lia|]. intros [H1 H2]%Forall_app. apply Forall_app. auto.
Qed.
Lemma same_size_cons c a b : same_size a b → same_size (c :: a) (c :: b).
Proof. apply (same_size_app [c] a [c] b), same_size_refl. Qed.

Lemma remap_exprs_enc es es' :
  Forall (λ e, ∀ e', remap_expr lookup e = Ok e' → same_size (enc e) (enc e')) es → remap_exprs lookup es = Ok es' →
  length es' = length es ∧ same_size (concat (enc <$> es)) (concat (enc <$> es')).
Proof.
  intros Hes. revert es'. induction Hes as [|e es He _ IH]; intros es' H; simpl in H; monad_inv; [done|].
  destruct (IH _ H0) as [Hl Hs]. simpl. split; [by rewrite Hl|]. apply same_size_app; auto.
Qed.
Lemma remap_expr_enc e : ∀ e', remap_expr lookup e = Ok e' → same_size (enc e) (enc e').
Proof.
  induction e as [k v|i| |v|e IH|op l r IHl IHr|key n args IH] using ExprDesc_ind'; intros e' H.
  1,3,4: by injection H as <-.
  - simpl in H. monad_inv. apply same_size_cons. split; [done|intros _; apply le_bytes_bytes].
  - simpl in H. monad_inv. apply same_size_cons. auto.
  - simpl in H. monad_inv. apply same_size_cons, same_size_cons, same_size_app; auto.
  - rewrite remap_expr_call in H. monad_inv. destruct (remap_exprs_enc _ _ IH H) as [Hl Hs].
    cbn [enc]. rewrite Hl. apply same_size_cons. do 3 (apply same_size_app; [done|]). by apply same_size_cons.
Qed.

(** A walk that behaves as the mapping of the tree with encoding [s]. *)
Definition walks_as (w : bytes → nat → walk) (s : bytes) (r : outcome bytes) : Prop :=
  ∀ pre post, w (pre ++ s ++ post) (length pre) =
    (s' ← r; Ok (Some (pre ++ s' ++ post, (length pre + length s)%nat))).

Lemma and_then_walks pre s post w k (r : outcome bytes) rest :
  walks_as w s r → (∀ s', r = Ok s' → length s' = length s) →
  (∀ s', r = Ok s' → k ((pre ++ s') ++ post) (length (pre ++ s')) = rest s') →
  and_then (w (pre ++ s ++ post) (length pre)) k = (s' ← r; rest s').
Proof.
  intros Hw Hl Hk. unfold and_then. rewrite Hw. destruct r as [s'|e]; [|done]. rewrite !bindE.
  rewrite <- Hk by done. by rewrite <- app_assoc, length_app, (Hl s').
Qed.

Lemma walk_children_enc child es : ∀ pre post,
  Forall (λ e, walks_as child (enc e) (enc <$> remap_expr lookup e)) es →
  walk_children child (length es) (pre ++ concat (enc <$> es) ++ post) (length pre) =
  (es' ← remap_exprs lookup es;
   Ok (Some (pre ++ concat (enc <$> es') ++ post, (length pre + length (concat (enc <$> es)))%nat))).
Proof.
  induction es as [|e es IH]; intros pre post Hes; [simpl; by rewrite Nat.add_0_r|].
  apply list.Forall_cons in Hes as [He Hes]. cbn [walk_children length remap_exprs fmap list_fmap concat].
  rewrite <- app_assoc.
  rewrite (and_then_walks pre (enc e) (concat (enc <$> es) ++ post) child _ _ (λ s', es' ← remap_exprs lookup es;
    Ok (Some (pre ++ (s' ++ concat (enc <$> es')) ++ post, (length pre + length (enc e ++ concat (enc <$> es)))%nat))) He).
  - destruct (remap_expr lookup e) as [e'|]; [|done]. simpl. by destruct (remap_exprs lookup es).
  - intros s'. destruct (remap_expr lookup e) eqn:E; [|done]. intros [= <-]. exact (proj1 (remap_expr_enc _ _ E)).
  - intros s' Hs. rewrite IH by done. destruct (remap_exprs lookup es) as [es'|]; [|done]. rewrite !bindE.
    destruct (remap_expr lookup e) as [e'|] eqn:E; [|done]. injection Hs as <-. apply remap_expr_enc in E as [El _].
    rewrite <- !app_assoc, !length_app, El. do 3 f_equal. lia.
Qed.

(** Past the tag byte. *)
Lemma at_tag room tag k pre post : is_byte tag →
  ExprDescRemapStrings_at lookup (S room) (pre ++ (tag :: k) ++ post) (length pre) =
  remap_tag lookup (ExprDescRemapStrings_at lookup room) tag ((pre ++ [tag]) ++ k ++ post) (length (pre ++ [tag])).
Proof.
  intros Hb. cbn [ExprDescRemapStrings_at]. cbn [app]. rewrite cur_byte_at by done.
  by rewrite <- app_assoc, length_app, Nat.add_1_r.
Qed.

Lemma accept_skip pre v post n : n = length v →
  accept (pre ++ v ++ post) (Skip n (pre ++ v ++ post) (length pre)) = Ok (Some (pre ++ v ++ post, (length pre + n)%nat)).
Proof. intros Hn. by rewrite Skip_at. Qed.

(** Where a tree ends, once its tag is passed. *)
Lemma ended (pre : bytes) tag s s' post n : n = length s' →
  Ok (Some ((pre ++ [tag]) ++ s ++ post, (length (pre ++ [tag]) + n)%nat)) =
  (Ok (Some (pre ++ (tag :: s) ++ post, (length pre + length (tag :: s'))%nat)) : walk).
Proof. intros ->. rewrite <- app_assoc, length_app. cbn [length app]. do 3 f_equal. lia. Qed.

Lemma splice4_at pre i v post : splice4 (pre ++ le_bytes 4 i ++ post) (length pre) v = pre ++ le_bytes 4 v ++ post.
Proof.
  unfold splice4. rewrite take_app_length. do 2 f_equal. rewrite <- drop_drop, drop_app_length.
  apply drop_app_length'. by rewrite length_le_bytes.
Qed.

Lemma scalar_byte k : is_byte (scalar_tag k). Proof. by destruct k. Qed.
Lemma remap_scalar k child bs off :
  remap_tag lookup child (scalar_tag k) bs off = accept bs (Skip (scalar_width k) bs off).
Proof. by destruct k. Qed.

Lemma remap_call_enc child key n args pre post : Z.of_nat (length key) < 65536 → is_uint 32 n →
  Z.of_nat (length args) < 256 → Forall (λ e, walks_as child (enc e) (enc <$> remap_expr lookup e)) args →
  ExprDescRemapCall child (pre ++ (le_bytes 2 (Z.of_nat (length key)) ++ key ++ le_bytes 4 n ++ Z.of_nat (length args) :: concat (enc <$> args)) ++ post) (length pre) =
  (args' ← remap_exprs lookup args;
   Ok (Some (pre ++ (le_bytes 2 (Z.of_nat (length key)) ++ key ++ le_bytes 4 n ++ Z.of_nat (length args') :: concat (enc <$> args')) ++ post,
     (length pre + length (le_bytes 2 (Z.of_nat (length key)) ++ key ++ le_bytes 4 n ++ Z.of_nat (length args) :: concat (enc <$> args)))%nat))).
Proof.
  intros Hk Hn Ha Hargs. unfold ExprDescRemapCall. set (kl := le_bytes 2 (Z.of_nat (length key))).
  set (m := Z.of_nat (length args)). set (hd := kl ++ key ++ le_bytes 4 n ++ [m]).
  assert (∀ tail, kl ++ key ++ le_bytes 4 n ++ m :: tail = hd ++ tail) as R by (intros; unfold hd; by rewrite <- !app_assoc).
  assert (length kl = 2%nat) as Lk by apply length_le_bytes.
  assert (length hd = (7 + length key)%nat) as Lh by (unfold hd; rewrite !length_app, Lk; simpl; lia).
  set (body := concat (enc <$> args)) in *. rewrite R.
  rewrite (cur_uint_at' _ _ pre 2 (Z.of_nat (length key)) (key ++ le_bytes 4 n ++ m :: body ++ post));
    [|unfold hd; by rewrite <- !app_assoc|done|split; [lia|exact Hk]].
  cbn [mbind option_bind]. rewrite Nat2Z.id.
  rewrite (Skip_at' _ _ (pre ++ kl) key (le_bytes 4 n ++ m :: body ++ post)); [|unfold hd; by rewrite <- !app_assoc|rewrite length_app; lia|done].
  cbn [mbind option_bind].
  rewrite (cur_uint_at' _ _ (pre ++ kl ++ key) 4 n (m :: body ++ post));
    [|unfold hd; by rewrite <- !app_assoc|rewrite !length_app; lia|done].
  cbn [mbind option_bind].
  rewrite (cur_uint_at' _ _ (pre ++ kl ++ key ++ le_bytes 4 n) 1 m (body ++ post));
    [|unfold hd|rewrite !length_app, Lk, length_le_bytes; by rewrite !Nat.add_assoc|split; [apply Nat2Z.is_nonneg|exact Ha]].
  2: { rewrite le_byte by (split; [apply Nat2Z.is_nonneg|exact Ha]). by rewrite <- !app_assoc. }
  replace (length pre + 2 + length key + 4 + 1)%nat with (length (pre ++ hd)) by (rewrite length_app; lia).
  replace (Z.to_nat m) with (length args) by lia.
  replace (pre ++ (hd ++ body) ++ post) with ((pre ++ hd) ++ body ++ post) by (by rewrite <- !app_assoc).
  unfold body. rewrite walk_children_enc by done. destruct (remap_exprs lookup args) as [args'|] eqn:E; [|done].
  rewrite !bindE. apply remap_exprs_length in E. rewrite E. fold m.
  change (Z.of_nat (length args)) with m. rewrite R, !length_app. do 3 f_equal; [by rewrite <- !app_assoc|lia].
Qed.
Lemma remap_pair child l r pre post :
  walks_as child (enc l) (enc <$> remap_expr lookup l) → walks_as child (enc r) (enc <$> remap_expr lookup r) →
  and_then (child (pre ++ (enc l ++ enc r) ++ post) (length pre)) child =
  (l' ← remap_expr lookup l; r' ← remap_expr lookup r;
   Ok (Some (pre ++ (enc l' ++ enc r') ++ post, (length pre + length (enc l ++ enc r))%nat))).
Proof.
  intros Hl Hr.
  assert (H := walk_children_enc child [l; r] pre post ltac:(by repeat constructor)).
  cbn [walk_children length fmap list_fmap concat remap_exprs] in H. rewrite !app_nil_r in H.
  etrans; [|etrans; [exact H|]].
  - unfold and_then. destruct (child _ _) as [[[bs off]|]|]; [|done..]. simpl. destruct (child bs off) as [[[? ?]|]|]; done.
  - destruct (remap_expr lookup l); [|done]. simpl. destruct (remap_expr lookup r); [|done]. simpl. by rewrite app_nil_r.
Qed.

Lemma remap_at_enc room : ∀ e, wf_expr room e →
  walks_as (ExprDescRemapStrings_at lookup room) (enc e) (enc <$> remap_expr lookup e).
Proof.
  induction room as [|room IH]; intros e Hwf pre post; [done|].
  destruct e as [k v|i| |v|e|op l r|key n args]; cbn [enc]; rewrite at_tag by (apply scalar_byte || done).
  - rewrite remap_scalar, accept_skip by (symmetry; exact Hwf). by apply ended.
  - change (remap_tag _ _ _ ?bs ?off) with (match cur_uint 4 bs off with
      | Some (idx, o) => mapped ← lookup idx; Ok (Some (splice4 bs (o - 4) mapped, o)) | None => Ok None end).
    rewrite cur_uint_at by exact Hwf. cbv beta iota.
    cbn [remap_expr]. destruct (lookup i) as [j|]; [|done]. rewrite !bindE, Nat.add_sub, splice4_at. by apply (ended pre RTK_String (le_bytes 4 j) (le_bytes 4 i)).
  - change (remap_tag _ _ _ ?bs ?off) with (Ok (Some (bs, off)) : walk).
    rewrite <- (Nat.add_0_r (length (pre ++ [RTK_Null]))). by apply (ended pre RTK_Null [] []).
  - change (remap_tag _ _ _ ?bs ?off) with (accept bs (Skip 1 bs off)).
    rewrite (accept_skip _ [v]) by done. by apply ended.
  - change (remap_tag _ ?c _ ?bs ?off) with (c bs off). rewrite (IH e) by exact Hwf. simpl.
    destruct (remap_expr lookup e) as [e'|]; [|done]. simpl. by apply ended.
  - destruct Hwf as (Hop & Hop' & Hl & Hr).
    change (remap_tag _ ?c _ ?bs ?off) with (match cur_uint 1 bs off with
      | Some (b, o) => if decide (EDB_Shr < b) then Ok None else and_then (c bs o) c | None => Ok None end).
    cbn [app]. rewrite cur_byte_at by done. rewrite decide_False by lia.
    rewrite <- Nat.add_1_r. change 1%nat with (length [op]). rewrite <- length_app.
    replace ((pre ++ [ED_Binary]) ++ op :: (enc l ++ enc r) ++ post)
      with (((pre ++ [ED_Binary]) ++ [op]) ++ (enc l ++ enc r) ++ post) by (by rewrite <- (app_assoc _ [op])).
    rewrite remap_pair by auto. cbn [remap_expr].
    destruct (remap_expr lookup l) as [l'|]; [|done]. destruct (remap_expr lookup r) as [r'|]; [|done]. rewrite !bindE.
    rewrite (ended _ _ _ (enc l ++ enc r)) by done. by apply ended.
  - destruct Hwf as (Hk & Hn & Ha & Hargs). change (remap_tag _ ?c _ ?bs ?off) with (ExprDescRemapCall c bs off).
    rewrite remap_call_enc by (done || (eapply list.Forall_impl; [exact Hargs|auto])). rewrite remap_expr_call.
    destruct (remap_exprs lookup args) as [args'|]; [|done]. rewrite !bindE. cbn [fmap outcome_fmap]. rewrite bindE.
    by apply ended.
Qed.

(** ** The walk accepts nothing else *)
Lemma children_inv child (P : ExprDesc → Prop) n :
  (∀ pre rest bs off, Forall is_byte rest → child (pre ++ rest) (length pre) = Ok (Some (bs, off)) →
     ∃ e post, rest = enc e ++ post ∧ P e ∧ walks_as child (enc e) (enc <$> remap_expr lookup e)) →
  ∀ pre rest bs off, Forall is_byte rest → walk_children child n (pre ++ rest) (length pre) = Ok (Some (bs, off)) →
  ∃ es post, rest = concat (enc <$> es) ++ post ∧ length es = n ∧ Forall P es.
Proof.
  intros Hchild. induction n as [|n IH]; intros pre rest bs off Hb H; [by exists [], rest|].
  cbn [walk_children] in H. unfold and_then in H. apply bind_Ok in H as ([[bs1 off1]|] & Hc & H); [|done].
  destruct (Hchild _ _ _ _ Hb Hc) as (e & post & -> & He & Hw). rewrite Hw in Hc.
  destruct (remap_expr lookup e) as [e'|] eqn:E; [|done]. cbn [fmap outcome_fmap] in Hc. rewrite bindE in Hc. injection Hc as <- <-.
  apply list.Forall_app in Hb as [_ Hb].
  rewrite app_assoc in H. rewrite <- (proj1 (remap_expr_enc _ _ E)), <- length_app in H.
  destruct (IH _ _ _ _ Hb H) as (es & post' & -> & <- & Hes). exists (e :: es), post'.
  split_and!; [by rewrite app_assoc|done|by constructor].
Qed.

Lemma call_inv child (P : ExprDesc → Prop) pre rest bs off :
  (∀ pre rest bs off, Forall is_byte rest → child (pre ++ rest) (length pre) = Ok (Some (bs, off)) →
     ∃ e post, rest = enc e ++ post ∧ P e ∧ walks_as child (enc e) (enc <$> remap_expr lookup e)) →
  Forall is_byte rest → ExprDescRemapCall child (pre ++ rest) (length pre) = Ok (Some (bs, off)) →
  ∃ key n args post, rest = (le_bytes 2 (Z.of_nat (length key)) ++ key ++ le_bytes 4 n ++ Z.of_nat (length args) :: concat (enc <$> args)) ++ post
    ∧ Z.of_nat (length key) < 65536 ∧ is_uint 32 n ∧ Z.of_nat (length args) < 256 ∧ Forall P args.
Proof.
  intros Hchild Hb H. unfold ExprDescRemapCall in H.
  destruct (cur_uint 2 _ _) as [[kl o1]|] eqn:E1; [|done].
  destruct (cur_uint_inv _ _ _ _ _ Hb E1) as (r1 & -> & Hkl & ->). apply list.Forall_app in Hb as [_ Hb].
  cbn [mbind option_bind] in H. rewrite app_assoc in H.
  destruct (Skip _ _ _) as [o2|] eqn:E2; [|done]. apply Skip_inv in E2 as (key & r2 & -> & Hkey & ->).
  apply list.Forall_app in Hb as [_ Hb]. cbn [mbind option_bind] in H. rewrite app_assoc in H.
  destruct (cur_uint 4 _ _) as [[n o3]|] eqn:E3; [|done].
  destruct (cur_uint_inv _ _ _ _ _ Hb E3) as (r3 & -> & Hn & ->). apply list.Forall_app in Hb as [_ Hb].
  cbn [mbind option_bind] in H. rewrite app_assoc in H.
  destruct (cur_uint 1 _ _) as [[m o4]|] eqn:E4; [|done].
  destruct (cur_uint_inv _ _ _ _ _ Hb E4) as (r4 & -> & Hm & ->). apply list.Forall_app in Hb as [_ Hb].
  rewrite app_assoc in H. destruct (children_inv child P _ Hchild _ _ _ _ Hb H) as (es & post & -> & Hlen & Hes).
  assert (Z.of_nat (length key) = kl) as <- by (rewrite Hkey; apply Z2Nat.id; apply Hkl).
  assert (Z.of_nat (length es) = m) as <- by (rewrite Hlen; apply Z2Nat.id; apply Hm).
  exists key, n, es, post. split_and!; [|apply Hkl|done|apply Hm|done].
  rewrite le_byte by exact Hm. by rewrite <- !app_assoc.
Qed.

Lemma accept_inv bs pre rest n bs' off' : accept bs (Skip n (pre ++ rest) (length pre)) = Ok (Some (bs', off')) →
  ∃ v post, rest = v ++ post ∧ length v = n.
Proof.
  unfold accept. destruct (Skip n _ _) as [o|] eqn:E; [|done]. intros _.
  apply Skip_inv in E as (v & post & ? & ? & _). by exists v, post.
Qed.
Lemma scalar_inv k bs pre rest bs' off' room : accept bs (Skip (scalar_width k) (pre ++ rest) (length pre)) = Ok (Some (bs', off')) →
  ∃ e post, scalar_tag k :: rest = enc e ++ post ∧ wf_expr (S room) e.
Proof. intros (v & post & -> & Hv)%accept_inv. by exists (EScalar k v), post. Qed.

Lemma remap_at_inv room : ∀ pre rest bs off, Forall is_byte rest →
  ExprDescRemapStrings_at lookup room (pre ++ rest) (length pre) = Ok (Some (bs, off)) →
  ∃ e post, rest = enc e ++ post ∧ wf_expr room e.
Proof.
  induction room as [|room IH]; intros pre rest bs off Hb H; [done|]. cbn [ExprDescRemapStrings_at] in H.
  assert (∀ pre rest bs off, Forall is_byte rest → ExprDescRemapStrings_at lookup room (pre ++ rest) (length pre) = Ok (Some (bs, off)) →
     ∃ e post, rest = enc e ++ post ∧ wf_expr room e ∧
       walks_as (ExprDescRemapStrings_at lookup room) (enc e) (enc <$> remap_expr lookup e)) as IH'.
  { intros pre' rest' bs' off' Hb' H'. destruct (IH _ _ _ _ Hb' H') as (e & post & -> & He). exists e, post. auto using remap_at_enc. }
  destruct (cur_uint 1 _ _) as [[tag o1]|] eqn:E1; [|done].
  destruct (cur_uint_inv _ _ _ _ _ Hb E1) as (r1 & -> & Ht & ->). apply list.Forall_app in Hb as [_ Hb].
  clear E1. rewrite app_assoc in H. rewrite le_byte in * by exact Ht. unfold remap_tag in H.
  repeat case_decide; subst; try done.
  - by eapply (scalar_inv SkInt32).
  - by eapply (scalar_inv SkFloat).
  - destruct select (_ ∨ _) as [-> | ->]; [by eapply (scalar_inv SkLong)|by eapply (scalar_inv SkULong)].
  - by eapply (scalar_inv SkDouble).
  - destruct (cur_uint 4 _ _) as [[i o]|] eqn:E; [|done].
    destruct (cur_uint_inv _ _ _ _ _ Hb E) as (post & -> & Hi & _). by exists (EString i), post.
  - by exists ENull, r1.
  - apply accept_inv in H as ([|v [|? ?]] & post & -> & Hv); try done. exists (EFormalRef v), post.
    split; [done|]. by apply list.Forall_cons in Hb as [Hv' _].
  - destruct (IH _ _ _ _ Hb H) as (e & post & -> & He). by exists (ENeg e), post.
  - destruct (cur_uint 1 _ _) as [[op o]|] eqn:E; [|done].
    destruct (cur_uint_inv _ _ _ _ _ Hb E) as (r2 & -> & Hop & ->). apply list.Forall_app in Hb as [_ Hb].
    case_decide; [done|]. rewrite app_assoc in H. rewrite le_byte in * by exact Hop.
    destruct (children_inv (ExprDescRemapStrings_at lookup room) (wf_expr room) 2 IH'
      ((pre ++ [ED_Binary]) ++ [op]) r2 bs off Hb) as (es & post & -> & Hes & Hwf).
    { cbn [walk_children]. unfold and_then in *. apply bind_Ok in H as ([[bs1 o1]|] & -> & H); [|done]. by rewrite bindE, H. }
    destruct es as [|l [|r [|]]]; try done. exists (EBinary op l r), post. split; [simpl; by rewrite app_nil_r|].
    apply list.Forall_cons in Hwf as [Hl Hr]. apply list.Forall_cons in Hr as [Hr _]. split_and!; [done|lia|done..].
  - destruct (call_inv _ _ _ _ _ _ IH' Hb H) as (key & n & args & post & -> & Hk & Hn & Ha & Hargs).
    by exists (ECall key n args), post.
Qed.
End walk.

Section raises.
Context (lookup : Z → outcome Z) (err : vm_error).
Lemma and_then_raises r k : and_then r k = Raise err → r = Raise err ∨ ∃ bs off, k bs off = Raise err.
Proof. unfold and_then. intros [?|([[bs off]|] & _ & ?)]%bind_Raise; [by left|right; by exists bs, off|done]. Qed.
Lemma walk_children_raises child n : (∀ bs off, child bs off = Raise err → ∃ i, lookup i = Raise err) →
  ∀ bs off, walk_children child n bs off = Raise err → ∃ i, lookup i = Raise err.
Proof. intros Hc. induction n; intros bs off; simpl; [done|]. intros [?|(? & ? & ?)]%and_then_raises; eauto. Qed.
Lemma remap_tag_raises child tag bs off : (∀ bs off, child bs off = Raise err → ∃ i, lookup i = Raise err) →
  remap_tag lookup child tag bs off = Raise err → ∃ i, lookup i = Raise err.
Proof.
  intros Hc. unfold remap_tag, ExprDescRemapCall. repeat case_decide; try done.
  - destruct (cur_uint 4 bs off) as [[i o]|]; [|done]. intros [?|(? & _ & ?)]%bind_Raise; [by exists i|done].
  - apply Hc.
  - destruct (cur_uint 1 bs off) as [[i o]|]; [|done]. case_decide; [done|].
    intros [?|(? & ? & ?)]%and_then_raises; eauto.
  - repeat case_match; try done. by apply walk_children_raises.
Qed.
Lemma ExprDescRemapStrings_raises bs : ExprDescRemapStrings lookup bs = Raise err → ∃ i, lookup i = Raise err.
Proof.
  assert (∀ room bs off, ExprDescRemapStrings_at lookup room bs off = Raise err → ∃ i, lookup i = Raise err) as H.
  { induction room as [|room IH]; intros bs' off; simpl; [done|].
    destruct (cur_uint 1 bs' off) as [[tag o]|]; [|done]. by apply remap_tag_raises. }
  unfold ExprDescRemapStrings. case_decide; [done|].
  intros [?|([[? ?]|] & _ & ?)]%bind_Raise; [eauto|done..].
Qed.
End raises.

(** C38: The linker accepts a serialized default expression exactly when it is the encoding
    of an expression of the grammar nested at most 16 deep below its root, with nothing
    after it, and then its bytes become the encoding of the expression whose string
    indices are mapped, all of them and nothing else; the walk never reads outside the
    bytes and ends. *)
Theorem ExprDescRemapStrings_spec lookup bs :
  Forall is_byte bs → bs ≠ [] →
  (∀ bs', ExprDescRemapStrings lookup bs = Ok (Some bs') ↔
     ∃ e e', bs = enc e ∧ wf_expr (S kMaxExprDescDepth) e ∧ remap_expr lookup e = Ok e' ∧ bs' = enc e') ∧
  (∀ err, ExprDescRemapStrings lookup bs = Raise err → ∃ i, lookup i = Raise err).
Proof.
  intros Hb Hne. split; [intros bs'; split|].
  - unfold ExprDescRemapStrings. rewrite decide_False by done. intros H.
    apply bind_Ok in H as ([[bs1 off]|] & Hw & H); [|done]. unfold AtEnd in H. case_bool_decide as Hend; [|done].
    injection H as <-. destruct (remap_at_inv lookup _ [] _ _ _ Hb Hw) as (e & post & -> & He).
    pose proof (remap_at_enc lookup _ e He [] post) as He'. cbn [app length] in Hw, He'. rewrite Hw in He'. clear Hw. rename He' into Hw.
    destruct (remap_expr lookup e) as [e'|] eqn:E; [|done].
    cbn [fmap outcome_fmap] in Hw. rewrite bindE in Hw. injection Hw as -> Hoff.
    assert (post = []) as ->.
    { apply remap_expr_enc in E as [El _]. rewrite length_app in Hend. apply nil_length_inv. lia. }
    exists e, e'. rewrite !app_nil_r in *. done.
  - intros (e & e' & -> & He & E & ->). unfold ExprDescRemapStrings. rewrite decide_False by done.
    pose proof (remap_at_enc lookup _ e He [] []) as Hw. rewrite E in Hw. rewrite !app_nil_r in Hw.
    cbn [app] in Hw. cbn [length] in Hw. rewrite Hw. cbn [fmap outcome_fmap]. rewrite !bindE, app_nil_r.
    unfold AtEnd. rewrite bool_decide_true; [done|]. symmetry. exact (proj1 (remap_expr_enc _ _ _ E)).
  - intros err. apply ExprDescRemapStrings_raises.
Qed.

(** The default value of [f(x, s = "a" + g(-1, "b"))] as [ncc] would write it. *)
Definition demo_expr : ExprDesc :=
  EBinary 0 (EString 3) (ECall [103] 2 [ENeg (EScalar SkInt32 [1; 0; 0; 0]); EString 4]).
Definition demo_mapped : ExprDesc :=
  EBinary 0 (EString 13) (ECall [103] 2 [ENeg (EScalar SkInt32 [1; 0; 0; 0]); EString 14]).
Lemma ExprDescRemapStrings_spec_witness :
  ExprDescRemapStrings (λ i, Ok (i + 10)) (enc demo_expr) = Ok (Some (enc demo_mapped)) ∧
  ExprDescRemapStrings (λ i, Ok (i + 10)) (take 20 (enc demo_expr)) = Ok None.
Proof.
  split; [|by vm_compute]. apply ExprDescRemapStrings_spec.
  - apply (bool_decide_unpack (Forall is_byte _)). by vm_compute.
  - done.
  - exists demo_expr, demo_mapped. split_and!; [by vm_compute| |by vm_compute|by vm_compute].
    apply (bool_decide_unpack (wf_expr _ _)). by vm_compute.
Defined.
