(* ===== verification/Linker.v ===== *)
(** * The linker

    Models [src/src/vm/NcuLinker.cpp], [NcuLinkerInterfaces.cpp] and [NcuLinkerSlots.cpp]:
    the images of several compile units become one module.  Pass A appends each unit's own
    records to the merged tables (equal keys are one record), pass B gives every import slot
    the merged index of the record it names, pass C rewrites the indices inside the records
    through the maps of the unit that provided them. *)
From stdpp Require Import pretty.
From S2P Require Import Prelude.
From S2P Require Import Bytecode Remap Package Prims TypeDesc ModuleRecords DefaultExpr.
Open Scope Z_scope.

Definition nlink (msg : string) : vm_error := RuntimeError ("nlink: " +:+ msg).
Definition to_string (n : Z) : string := pretty n.
Definition quoted (bs : bytes) : string := "'" +:+ text bs +:+ "'".
Definition INTR_None : Z := 65535.
Definition size {A} (l : list A) : Z := Z.of_nat (length l).

Definition Lookup (m : gmap Z Z) (idx : Z) : outcome Z :=
  match m !! idx with
  | Some n => Ok n
  | None => Raise (nlink ("table index " +:+ to_string idx +:+ " has no mapping (corrupt image)"))
  end.

(** ** The closure *)

(** A unit's own records precede the placeholders of its imports.  Their number is a
    difference of two [size_t]: more imports than records, which [ValidateClosure] excludes,
    wrap around. *)
Definition own_count {A B} (table : list A) (imports : list B) : Z :=
  if decide (size table < size imports) then 2 ^ 64 + size table - size imports else size table - size imports.
Definition own {A B} (table : list A) (imports : list B) : list A :=
  if decide (own_count table imports ≤ size table) then take (Z.to_nat (own_count table imports)) table else table.
(** A loop up to the own count leaves the table when the count has wrapped. *)
Definition own_rows {A B} (table : list A) (imports : list B) : outcome (list A) :=
  _ ← check (bool_decide (own_count table imports ≤ size table)) OutOfBounds; Ok (own table imports).
Definition own_functions (u : CompiledModule) := own (mod_functions u) (mod_functionImports u).
Definition own_classes (u : CompiledModule) := own (mod_classes u) (mod_classImports u).
Definition own_structs (u : CompiledModule) := own (mod_structs u) (mod_structImports u).
Definition own_slots (u : CompiledModule) := own (mod_staticSlots u) (mod_staticSlotImports u).

(** An enum is a row of four parallel vectors, each indexed for itself. *)
Record EnumRow := MkEnumRow { en_names : list bytes; en_key : bytes; en_methods : list Z; en_access : list Z }.
Definition enum_row (u : CompiledModule) (i : nat) : outcome EnumRow :=
  names ← deref (mod_enumNames u !! i); key ← deref (mod_enumKeys u !! i);
  methods ← deref (mod_enumMethodIndices u !! i); access ← deref (mod_enumMethodAccess u !! i);
  Ok (MkEnumRow names key methods access).

Definition unit_name (u : CompiledModule) : string := "unit " +:+ quoted (mod_modulePath u).
Definition checkTable (u : CompiledModule) (kind : string) (imports table : Z) : outcome unit :=
  check (bool_decide (imports ≤ table)) (nlink (unit_name u +:+ ": " +:+ kind +:+ "Imports (" +:+ to_string imports
    +:+ ") exceed the " +:+ kind +:+ " table (" +:+ to_string table +:+ ")")).
Definition ValidateUnit (paths : gset bytes) (u : CompiledModule) : outcome (gset bytes) :=
  _ ← check (bool_decide (mod_modulePath u ≠ [])) (nlink "a unit has no module path (unlinked or corrupt image)");
  _ ← check (bool_decide (mod_modulePath u ∉ paths))
        (nlink ("duplicate module path " +:+ quoted (mod_modulePath u) +:+ " in the link closure"));
  _ ← check (bool_decide (size (mod_enumKeys u) = size (mod_enumNames u)))
        (nlink (unit_name u +:+ ": enumKeys and enumNames diverge (corrupt image)"));
  _ ← check (bool_decide (size (mod_enumMethodIndices u) = size (mod_enumNames u)
                         ∧ size (mod_enumMethodAccess u) = size (mod_enumNames u)))
        (nlink (unit_name u +:+ ": enum method tables and enumNames diverge (corrupt image)"));
  _ ← checkTable u "function" (size (mod_functionImports u)) (size (mod_functions u));
  _ ← checkTable u "class" (size (mod_classImports u)) (size (mod_classes u));
  _ ← checkTable u "struct" (size (mod_structImports u)) (size (mod_structs u));
  _ ← checkTable u "enum" (size (mod_enumImports u)) (size (mod_enumNames u));
  _ ← checkTable u "staticSlot" (size (mod_staticSlotImports u)) (size (mod_staticSlots u));
  Ok ({[mod_modulePath u]} ∪ paths).
Definition ValidateClosure (units : list CompiledModule) : outcome unit :=
  _ ← check (bool_decide (units ≠ [])) (nlink "empty link closure");
  _ ← foldM ValidateUnit ∅ units; Ok tt.

(** ** Pass A: the merged tables *)
Record Tables := MkTables {
  t_strings : list bytes; t_functions : list CompiledFunction; t_classes : list CompiledClass;
  t_structs : list CompiledStruct; t_interfaces : list CompiledInterface; t_arrayTypes : list CompiledArrayType;
  t_enums : list EnumRow; t_slots : list CompiledStaticSlot
}.
Record UnitPushes := MkPushes {
  p_classes : list Z; p_structs : list Z; p_functions : list Z; p_interfaces : list Z; p_enums : list Z; p_slots : list Z
}.

(** The first row that satisfies [P]. *)
Definition find_row {A} (P : A → Prop) `{!∀ a, Decision (P a)} (rows : list A) : option Z :=
  (λ r, Z.of_nat r.1) <$> list_find P rows.
Definition FindClass (rows : list CompiledClass) (name : bytes) := find_row (λ c, cc_name c = name) rows.
Definition FindStruct (rows : list CompiledStruct) (name : bytes) := find_row (λ s, st_name s = name) rows.
Definition FindEnum (rows : list EnumRow) (key : bytes) := find_row (λ e, en_key e = key) rows.
Definition FindArray (rows : list CompiledArrayType) (a : CompiledArrayType) :=
  find_row (λ b, at_elemKind b = at_elemKind a ∧ at_elemTypeIdx b = at_elemTypeIdx a ∧ at_rank b = at_rank a) rows.

(** A table being merged: its rows, the unit's map into it, the rows the unit has pushed. *)
Record merging (A : Type) := Merging { rows : list A; row_map : gmap Z Z; pushed : list Z }.
Arguments Merging {A}. Arguments rows {A}. Arguments row_map {A}. Arguments pushed {A}.
Definition push_row {A} (i : Z) (row : A) (s : merging A) : merging A :=
  let n := size (rows s) in Merging (rows s ++ [row]) (<[i := n]> (row_map s)) (pushed s ++ [n]).
Definition share_row {A} (i n : Z) (s : merging A) : merging A := Merging (rows s) (<[i := n]> (row_map s)) (pushed s).
Definition merge_row {A} (existing : list A → A → option Z) (i : Z) (row : A) (s : merging A) : merging A :=
  match existing (rows s) row with Some n => share_row i n s | None => push_row i row s end.
(** The loop over a unit's own rows. *)
Fixpoint each_row {A S} (f : Z → A → S → S) (i : Z) (l : list A) (s : S) : S :=
  match l with [] => s | row :: l => each_row f (i + 1) l (f i row s) end.
Definition merge_own {A} (existing : list A → A → option Z) (rows l : list A) : merging A :=
  each_row (merge_row existing) 0 l (Merging rows ∅ []).

Definition MergeClasses (u : CompiledModule) (t : list CompiledClass) : outcome (merging CompiledClass) :=
  own ← own_rows (mod_classes u) (mod_classImports u); Ok (merge_own (λ rows c, FindClass rows (cc_name c)) t own).
Definition MergeStaticSlots (u : CompiledModule) (t : list CompiledStaticSlot) : outcome (merging CompiledStaticSlot) :=
  own ← own_rows (mod_staticSlots u) (mod_staticSlotImports u); Ok (merge_own (λ _ _, None) t own).
(** The key decides; the other columns are read for a new enum only. *)
Definition merge_enum (u : CompiledModule) (s : merging EnumRow) (i : nat) : outcome (merging EnumRow) :=
  key ← deref (mod_enumKeys u !! i);
  match FindEnum (rows s) key with
  | Some n => Ok (share_row (Z.of_nat i) n s)
  | None => row ← enum_row u i; Ok (push_row (Z.of_nat i) row s)
  end.
Definition MergeEnums (u : CompiledModule) (t : list EnumRow) : outcome (merging EnumRow) :=
  own ← own_rows (mod_enumKeys u) (mod_enumImports u); foldM (merge_enum u) (Merging t ∅ []) (seq 0 (length own)).
Definition check_struct (u : CompiledModule) (st : CompiledStruct) : outcome unit :=
  _ ← check (bool_decide (size (st_fieldDefaults st) = st_fieldCount st))
        (nlink ("struct " +:+ quoted (st_name st) +:+ ": fieldDefaults size " +:+ to_string (size (st_fieldDefaults st))
                +:+ " != fieldCount " +:+ to_string (st_fieldCount st) +:+ " (corrupt image)"));
  foldM (λ _ ci, check (bool_decide (ci < own_count (mod_functions u) (mod_functionImports u)))
    (nlink ("struct " +:+ quoted (st_name st) +:+ ": constructor index " +:+ to_string ci
            +:+ " outside the unit's own function table (corrupt image)"))) tt (st_constructorIndices st).
Definition MergeStructs (u : CompiledModule) (t : list CompiledStruct) : outcome (merging CompiledStruct) :=
  _ ← foldM (λ _ st, check_struct u st) tt (own_structs u);
  own ← own_rows (mod_structs u) (mod_structImports u); Ok (merge_own (λ rows s, FindStruct rows (st_name s)) t own).

(** Merging with an index of the keys seen; a row without a key is always pushed. *)
Definition merge_indexed {A K} `{Countable K} (key : A → option K) (i : Z) (row : A) (s : merging A * gmap K Z) :
    merging A * gmap K Z :=
  match key row with
  | None => (push_row i row s.1, s.2)
  | Some k =>
      match s.2 !! k with
      | Some n => (share_row i n s.1, s.2)
      | None => (push_row i row s.1, <[k := size (rows s.1)]> s.2)
      end
  end.
Definition MergeStrings (u : CompiledModule) (t : list bytes) (interned : gmap bytes Z) :=
  each_row (merge_indexed Some) 0 (mod_stringConstants u) (Merging t ∅ [], interned).
(** Only a record without code whose behaviour is an intrinsic is shared. *)
Definition stub_key (f : CompiledFunction) : option (bytes * Z * Z) :=
  if decide (func_intrinsicId f ≠ INTR_None ∧ func_bytecode f = [])
  then Some (func_name f, func_paramCount f, func_intrinsicId f) else None.
Definition MergeFunctions (u : CompiledModule) (t : list CompiledFunction) (builtinStubs : gmap (bytes * Z * Z) Z) :
    outcome (merging CompiledFunction * gmap (bytes * Z * Z) Z) :=
  own ← own_rows (mod_functions u) (mod_functionImports u); Ok (each_row (merge_indexed stub_key) 0 own (Merging t ∅ [], builtinStubs)).

(** *** Interfaces *)
Definition IsPlaceholderInterfaceRow (ci : CompiledInterface) : bool :=
  bool_decide (ci_staticInitFuncIdx ci = kNone16 ∧ ci_staticMethodIndices ci = [] ∧ ci_constants ci = []
               ∧ ci_instanceMethods ci = []).
(** [prev]: what the earlier units have pushed. *)
Definition merge_interface (i : Z) (ci : CompiledInterface) (s : merging CompiledInterface * list (list Z)) :
    merging CompiledInterface * list (list Z) :=
  let '(s, prev) := s in
  match list_find (λ mi, ci_name mi = ci_name ci) (rows s) with
  | Some (e, mi) =>
      if IsPlaceholderInterfaceRow mi && negb (IsPlaceholderInterfaceRow ci) then
        (Merging (<[e := ci]> (rows s)) (<[i := Z.of_nat e]> (row_map s)) (pushed s ++ [Z.of_nat e]),
         filter (.≠ Z.of_nat e) <$> prev)
      else (share_row i (Z.of_nat e) s, prev)
  | None => (push_row i ci s, prev)
  end.
Definition MergeInterfaces (u : CompiledModule) (t : list CompiledInterface) (prev : list (list Z)) :=
  each_row merge_interface 0 (mod_interfaces u) (Merging t ∅ [], prev).

(** *** All tables of all units *)
Record linking := Linking {
  merged : Tables; maps : list NcuOperandMaps; pushes : list UnitPushes;
  internedStrings : gmap bytes Z; builtinStubs : gmap (bytes * Z * Z) Z
}.
Definition set_interfaces (p : UnitPushes) (l : list Z) : UnitPushes :=
  MkPushes (p_classes p) (p_structs p) (p_functions p) l (p_enums p) (p_slots p).
Definition MergeUnit (k : linking) (u : CompiledModule) : outcome linking :=
  let t := merged k in
  let '(strs, interned) := MergeStrings u (t_strings t) (internedStrings k) in
  clss ← MergeClasses u (t_classes t);
  strcts ← MergeStructs u (t_structs t);
  enms ← MergeEnums u (t_enums t);
  slts ← MergeStaticSlots u (t_slots t);
  '(fns, stubs) ← MergeFunctions u (t_functions t) (builtinStubs k);
  let '(ifcs, prev) := MergeInterfaces u (t_interfaces t) (p_interfaces <$> pushes k) in
  Ok (Linking
    (MkTables (rows strs) (rows fns) (rows clss) (rows strcts) (rows ifcs) (t_arrayTypes t) (rows enms) (rows slts))
    (maps k ++ [OperandMaps (row_map strs) (row_map fns) (row_map clss) (row_map ifcs) (row_map strcts) ∅
                  (row_map enms) (row_map slts)])
    (zip_with set_interfaces (pushes k) prev
       ++ [MkPushes (pushed clss) (pushed strcts) (pushed fns) (pushed ifcs) (pushed enms) (pushed slts)])
    interned stubs).
Definition no_tables : Tables := MkTables [] [] [] [] [] [] [] [].
Definition MergeUnitTables (units : list CompiledModule) : outcome linking :=
  foldM MergeUnit (Linking no_tables [] [] ∅ ∅) units.

(** ** Pass B: import slots *)
Record FunctionSlotHit := MkHit { hit : Z; hits : nat; ownerClassFound : bool; ordinalMismatch : bool }.
Definition no_hit : FunctionSlotHit := MkHit (-1) 0 false false.
Definition one_hit (k : Z) : FunctionSlotHit := MkHit k 1 false false.
Definition found_owner (r : FunctionSlotHit) : FunctionSlotHit := MkHit (hit r) (hits r) true (ordinalMismatch r).
Definition count_hit (k : Z) (r : FunctionSlotHit) : FunctionSlotHit :=
  MkHit (if decide (hit r < 0) then k else hit r) (S (hits r)) (ownerClassFound r) (ordinalMismatch r).

(** The identity every resolution rechecks. *)
Definition same_signature (imp : SymbolImport) (f : CompiledFunction) : bool :=
  bool_decide (func_name f = imp_name imp ∧ func_paramCount f = imp_paramCount imp ∧ func_isStatic f = imp_isStatic imp).

Definition ResolveNamespacedFunction (tgt : CompiledModule) (imp : SymbolImport) : FunctionSlotHit :=
  if decide (imp_ownerOrdinal imp ≠ kNone16) then
    match own_functions tgt !! Z.to_nat (imp_ownerOrdinal imp) with
    | Some f => if same_signature imp f then one_hit (imp_ownerOrdinal imp) else MkHit (-1) 0 false true
    | None => MkHit (-1) 0 false true
    end
  else each_row (λ k f r, if same_signature imp f then count_hit k r else r) 0 (own_functions tgt) no_hit.

Definition OwnerKindWord (imp : SymbolImport) : string := if decide (imp_ownerKind imp = 2) then "struct" else "class".
Definition FindOwnerType (tgt : CompiledModule) (imp : SymbolImport) : option (CompiledClass + CompiledStruct) :=
  if decide (imp_ownerKind imp = 2) then
    (λ r, inr r.2) <$> list_find (λ s, st_name s = imp_ownerClassKey imp) (own_structs tgt)
  else (λ r, inl r.2) <$> list_find (λ c, cc_name c = imp_ownerClassKey imp) (own_classes tgt).
Definition IsCtorMethodEntry (tc : CompiledClass) (mi : Z) : bool := bool_decide (mi ∈ cc_constructorIndices tc).

(** The [ordinal]-th method of the class, constructors and foreign entries skipped. *)
Fixpoint nth_method (tgt : CompiledModule) (tc : CompiledClass) (imp : SymbolImport) (ordinal : Z) (mis : list Z) : FunctionSlotHit :=
  match mis with
  | [] => no_hit
  | mi :: mis =>
      match own_functions tgt !! Z.to_nat mi with
      | None => nth_method tgt tc imp ordinal mis
      | Some f =>
          if IsCtorMethodEntry tc mi then nth_method tgt tc imp ordinal mis
          else if decide (ordinal ≠ imp_ownerOrdinal imp) then nth_method tgt tc imp (u16 (ordinal + 1)) mis
          else if same_signature imp f then one_hit mi else no_hit
      end
  end.
Definition scan_methods (tgt : CompiledModule) (imp : SymbolImport) (mis : list Z) : FunctionSlotHit :=
  foldl (λ r mi, match own_functions tgt !! Z.to_nat mi with
                 | Some f => if same_signature imp f then count_hit mi r else r
                 | None => r end) no_hit mis.
Definition ResolveMethodRecord (tgt : CompiledModule) (tc : CompiledClass) (imp : SymbolImport) : FunctionSlotHit :=
  if decide (imp_ownerOrdinal imp ≠ kNone16) then nth_method tgt tc imp 0 (cc_methodIndices tc)
  else scan_methods tgt imp (cc_methodIndices tc).

(** What follows the last dot. *)
Fixpoint bare_name (acc bs : bytes) : bytes :=
  match bs with
  | [] => acc
  | b :: bs => bare_name (if decide (b = 46) then [] else acc ++ [b]) bs
  end.
Definition constructors_of (o : CompiledClass + CompiledStruct) : list Z :=
  match o with inl tc => cc_constructorIndices tc | inr ts => st_constructorIndices ts end.
Definition ResolveConstructor (tgt : CompiledModule) (imp : SymbolImport) (ctors : list Z) : FunctionSlotHit :=
  if decide (imp_ownerOrdinal imp ≠ kNone16) then
    match ctors !! Z.to_nat (imp_ownerOrdinal imp) with
    | Some ci =>
        match own_functions tgt !! Z.to_nat ci with
        | Some f => if decide (ci ≠ kNone16 ∧ func_paramCount f = imp_paramCount imp) then one_hit ci else no_hit
        | None => no_hit
        end
    | None => no_hit
    end
  else no_hit.
Definition ResolveOwnerKeyedFunction (tgt : CompiledModule) (imp : SymbolImport) : FunctionSlotHit :=
  match FindOwnerType tgt imp with
  | None => no_hit
  | Some o => found_owner
      (if decide (imp_isStatic imp = true ∨ imp_name imp ≠ bare_name [] (imp_ownerClassKey imp)) then
         match o with inl tc => ResolveMethodRecord tgt tc imp | inr _ => no_hit end
       else ResolveConstructor tgt imp (constructors_of o))
  end.
Definition resolve_function (tgt : CompiledModule) (imp : SymbolImport) : FunctionSlotHit :=
  if decide (imp_ownerClassKey imp = []) then ResolveNamespacedFunction tgt imp else ResolveOwnerKeyedFunction tgt imp.

(** *** Diagnostics *)
Definition DescribeFunctionImport (imp : SymbolImport) : string :=
  "function " +:+ quoted (imp_name imp) +:+ " (paramCount " +:+ to_string (imp_paramCount imp) +:+ ")"
    +:+ (if imp_isStatic imp then " static" else "")
    +:+ (if decide (imp_ownerClassKey imp = []) then ""
         else " of " +:+ OwnerKindWord imp +:+ " " +:+ quoted (imp_ownerClassKey imp))
    +:+ " from module " +:+ quoted (imp_modulePath imp).
Definition FunctionMissLine (u : CompiledModule) (what : string) (imp : SymbolImport) (ownerFound : bool) : string :=
  if decide (imp_ownerClassKey imp ≠ [] ∧ ownerFound = true) then
    unit_name u +:+ ": import of " +:+ what +:+ " fails: " +:+ OwnerKindWord imp +:+ " " +:+ quoted (imp_ownerClassKey imp)
      +:+ " provides no member with that signature"
  else unit_name u +:+ ": imported " +:+ what +:+ " is not provided by any unit in the closure".
Definition not_in_closure (u : CompiledModule) (what : string) (imp : SymbolImport) : string :=
  unit_name u +:+ ": import of " +:+ what +:+ " fails: module " +:+ quoted (imp_modulePath imp) +:+ " is not in the link closure".
Definition StaleLine (u tgt : CompiledModule) (what : string) (imp : SymbolImport) : string :=
  unit_name u +:+ ": imported " +:+ what +:+ " [DBG ordinal=" +:+ to_string (imp_ownerOrdinal imp)
    +:+ " tgtOwn=" +:+ to_string (own_count (mod_functions tgt) (mod_functionImports tgt)) +:+ " tgtFnAt="
    +:+ (match mod_functions tgt !! Z.to_nat (imp_ownerOrdinal imp) with Some f => text (func_name f) | None => "<oob>" end)
    +:+ " does not match its record in the owning unit (stale artifact — recompile the importing module)".
Definition AmbiguousLine (u : CompiledModule) (what : string) (imp : SymbolImport) (n : nat) : string :=
  unit_name u +:+ ": imported " +:+ what +:+ " is ambiguous: " +:+ to_string (Z.of_nat n) +:+ " matching records in "
    +:+ (if decide (imp_ownerClassKey imp = []) then "the owning unit"
         else OwnerKindWord imp +:+ " " +:+ quoted (imp_ownerClassKey imp)).
Definition UnresolvedTypeLine (u : CompiledModule) (kind : string) (imp : SymbolImport) : string :=
  unit_name u +:+ ": imported " +:+ kind +:+ " " +:+ quoted (imp_name imp) +:+ " from module " +:+ quoted (imp_modulePath imp)
    +:+ " is not provided by any unit in the closure".

(** *** The slot loops

    The state is the units' maps and the problems found so far. *)
Definition slot_state : Type := list NcuOperandMaps * list string.
Definition note (line : string) (s : slot_state) : outcome slot_state := Ok (s.1, s.2 ++ [line]).
Definition put_functions (m : NcuOperandMaps) (f : gmap Z Z) : NcuOperandMaps :=
  OperandMaps (strings m) f (classes m) (interfaces m) (structs m) (arrayTypes m) (enums m) (slots m).
Definition put_classes (m : NcuOperandMaps) (c : gmap Z Z) : NcuOperandMaps :=
  OperandMaps (strings m) (functions m) c (interfaces m) (structs m) (arrayTypes m) (enums m) (slots m).
Definition put_structs (m : NcuOperandMaps) (st : gmap Z Z) : NcuOperandMaps :=
  OperandMaps (strings m) (functions m) (classes m) (interfaces m) st (arrayTypes m) (enums m) (slots m).
Definition put_arrayTypes (m : NcuOperandMaps) (a : gmap Z Z) : NcuOperandMaps :=
  OperandMaps (strings m) (functions m) (classes m) (interfaces m) (structs m) a (enums m) (slots m).
Definition put_enums (m : NcuOperandMaps) (e : gmap Z Z) : NcuOperandMaps :=
  OperandMaps (strings m) (functions m) (classes m) (interfaces m) (structs m) (arrayTypes m) e (slots m).
Definition put_slots (m : NcuOperandMaps) (sl : gmap Z Z) : NcuOperandMaps :=
  OperandMaps (strings m) (functions m) (classes m) (interfaces m) (structs m) (arrayTypes m) (enums m) sl.

(** [unitOf]: the unit of a path. *)
Definition unitOf (units : list CompiledModule) (path : bytes) : option nat :=
  fst <$> list_find (λ u, mod_modulePath u = path) units.
(** The searches of a provider read its tables up to its own counts.  They cannot leave them
    unless a count has wrapped, which pass A has not survived. *)
Definition counts_fit (tgt : CompiledModule) : outcome unit :=
  _ ← own_rows (mod_functions tgt) (mod_functionImports tgt); _ ← own_rows (mod_classes tgt) (mod_classImports tgt);
  _ ← own_rows (mod_structs tgt) (mod_structImports tgt); _ ← own_rows (mod_staticSlots tgt) (mod_staticSlotImports tgt);
  Ok tt.

(** A loop over the imports of a unit, [slot] the index of the import's placeholder. *)
Fixpoint each_import {S} (f : Z → SymbolImport → S → outcome S) (slot : Z) (imps : list SymbolImport) (s : S) : outcome S :=
  match imps with [] => Ok s | imp :: imps => s ← f slot imp s; each_import f (slot + 1) imps s end.
Fixpoint each_unit {S} (f : nat → CompiledModule → S → outcome S) (ui : nat) (units : list CompiledModule) (s : S) : outcome S :=
  match units with [] => Ok s | u :: units => s ← f ui u s; each_unit f (ui + 1) units s end.

Definition ResolveFunctionSlot (units : list CompiledModule) (ui : nat) (u : CompiledModule) (slot : Z) (imp : SymbolImport)
    (s : slot_state) : outcome slot_state :=
  let what := DescribeFunctionImport imp in
  match unitOf units (imp_modulePath imp) with
  | None => note (not_in_closure u what imp) s
  | Some owner =>
      tgt ← deref (units !! owner); _ ← counts_fit tgt;
      let r := resolve_function tgt imp in
      match hits r with
      | O => note (if ordinalMismatch r then StaleLine u tgt what imp else FunctionMissLine u what imp (ownerClassFound r)) s
      | S (S _) => note (AmbiguousLine u what imp (hits r)) s
      | S O =>
          mo ← deref (s.1 !! owner); m ← deref (s.1 !! ui); n ← deref (functions mo !! hit r);
          Ok (<[ui := put_functions m (<[slot := n]> (functions m))]> s.1, s.2)
      end
  end.
Definition ResolveFunctionSlots (units : list CompiledModule) (s : slot_state) : outcome slot_state :=
  each_unit (λ ui u, each_import (ResolveFunctionSlot units ui u) (own_count (mod_functions u) (mod_functionImports u))
    (mod_functionImports u)) 0 units s.

(** A type slot is looked up by key in the merged table. *)
Definition ResolveTypeSlot (kind : string) (find : bytes → option Z) (get : NcuOperandMaps → gmap Z Z)
    (put : NcuOperandMaps → gmap Z Z → NcuOperandMaps) (ui : nat) (u : CompiledModule) (slot : Z) (imp : SymbolImport)
    (s : slot_state) : outcome slot_state :=
  match find (imp_name imp) with
  | None => note (UnresolvedTypeLine u kind imp) s
  | Some n => m ← deref (s.1 !! ui); Ok (<[ui := put m (<[slot := n]> (get m))]> s.1, s.2)
  end.
Definition ResolveTypeSlots (units : list CompiledModule) (t : Tables) (s : slot_state) : outcome slot_state :=
  each_unit (λ ui u s,
    s ← each_import (ResolveTypeSlot "class" (FindClass (t_classes t)) classes put_classes ui u)
          (own_count (mod_classes u) (mod_classImports u)) (mod_classImports u) s;
    s ← each_import (ResolveTypeSlot "struct" (FindStruct (t_structs t)) structs put_structs ui u)
          (own_count (mod_structs u) (mod_structImports u)) (mod_structImports u) s;
    each_import (ResolveTypeSlot "enum" (FindEnum (t_enums t)) enums put_enums ui u)
      (own_count (mod_enumNames u) (mod_enumImports u)) (mod_enumImports u) s) 0 units s.

Definition ResolveStaticSlotSlot (units : list CompiledModule) (ui : nat) (u : CompiledModule) (slot : Z) (imp : SymbolImport)
    (s : slot_state) : outcome slot_state :=
  let what := ("static slot " +:+ quoted (imp_name imp) +:+ " of "
    +:+ (if decide (imp_ownerKind imp = 1) then "interface" else "class") +:+ " " +:+ quoted (imp_ownerClassKey imp)
    +:+ " from module " +:+ quoted (imp_modulePath imp))%string in
  match unitOf units (imp_modulePath imp) with
  | None => note (not_in_closure u what imp) s
  | Some owner =>
      tgt ← deref (units !! owner); _ ← counts_fit tgt;
      match own_slots tgt !! Z.to_nat (imp_ownerOrdinal imp) with
      | Some row =>
          if decide (slot_name row = imp_name imp ∧ slot_ownerKey row = imp_ownerClassKey imp) then
            mo ← deref (s.1 !! owner); m ← deref (s.1 !! ui); n ← deref (slots mo !! imp_ownerOrdinal imp);
            Ok (<[ui := put_slots m (<[slot := n]> (slots m))]> s.1, s.2)
          else note (unit_name u +:+ ": imported " +:+ what +:+ " does not match its record in the owning unit (stale artifact — recompile the importing module)") s
      | None => note (unit_name u +:+ ": imported " +:+ what +:+ " does not match its record in the owning unit (stale artifact — recompile the importing module)") s
      end
  end.
Definition ResolveStaticSlotSlots (units : list CompiledModule) (s : slot_state) : outcome slot_state :=
  each_unit (λ ui u, each_import (ResolveStaticSlotSlot units ui u) (own_count (mod_staticSlots u) (mod_staticSlotImports u))
    (mod_staticSlotImports u)) 0 units s.

Definition NcuResolveSlots (units : list CompiledModule) (t : Tables) (s : slot_state) : outcome slot_state :=
  s ← ResolveFunctionSlots units s; s ← ResolveTypeSlots units t s; ResolveStaticSlotSlots units s.

(** ** Pass C: the indices inside the records *)

(** The idiom [if (i != 0xFFFF) i = static_cast<uint16_t>(Lookup(m, i));]. *)
Definition remap16 (m : gmap Z Z) (i : Z) : outcome Z :=
  if decide (i = kNone16) then Ok i else n ← Lookup m i; Ok (u16 n).

Definition RemapArrayType (m : NcuOperandMaps) (a : CompiledArrayType) : outcome CompiledArrayType :=
  if decide (at_elemTypeIdx a = kNone16) then Ok a
  else if decide (at_elemKind a = RTK_Struct) then
    n ← Lookup (structs m) (at_elemTypeIdx a); Ok (MkArrayTypeRecord (at_elemKind a) (u16 n) (at_rank a))
  else if decide (at_elemKind a = RTK_Class) then
    n ← Lookup (classes m) (at_elemTypeIdx a); Ok (MkArrayTypeRecord (at_elemKind a) (u16 n) (at_rank a))
  else Ok a.
Definition MergeArrayTypes (u : CompiledModule) (t : list CompiledArrayType) (m : NcuOperandMaps) :
    outcome (merging CompiledArrayType) :=
  ats ← mapM (RemapArrayType m) (mod_arrayTypes u);
  Ok (merge_own FindArray t ats).

Definition RemapStaticField (m : NcuOperandMaps) (sf : CompiledStaticField) : outcome CompiledStaticField :=
  slotIdx ← remap16 (slots m) (sf_slotIdx sf);
  type ← RemapTypeDesc (structs m) (classes m) (sf_type sf);
  Ok (MkStaticField (sf_name sf) type (sf_access sf) (sf_isConst sf) slotIdx (sf_foldedValue sf)).
Definition RemapClass (m : NcuOperandMaps) (cc : CompiledClass) : outcome CompiledClass :=
  superIdx ← (if decide (0 ≤ cc_superClassIdx cc) then n ← Lookup (classes m) (cc_superClassIdx cc); Ok (i16 n)
              else Ok (cc_superClassIdx cc));
  fieldStructs ← mapM (remap16 (structs m)) (cc_fieldStructIndices cc);
  fieldClasses ← mapM (remap16 (classes m)) (cc_fieldClassIndices cc);
  methodIdxs ← mapM (remap16 (functions m)) (cc_methodIndices cc);
  ctorIdxs ← mapM (remap16 (functions m)) (cc_constructorIndices cc);
  staticInit ← remap16 (functions m) (cc_staticInitFuncIdx cc);
  descs ← mapM (RemapTypeDesc (structs m) (classes m)) (cc_fieldTypeDescs cc);
  statics ← mapM (RemapStaticField m) (cc_staticFields cc);
  Ok (MkClassRecord (cc_name cc) (cc_fieldCount cc) superIdx (cc_isConstAggregate cc) (cc_fieldNames cc)
        (cc_fieldTypeKinds cc) fieldStructs fieldClasses descs (cc_fieldAccess cc) methodIdxs (cc_methodAccess cc)
        (cc_methodVirtual cc) ctorIdxs (cc_constructorAccess cc) statics staticInit).

Definition RemapStaticSlot (m : NcuOperandMaps) (sl : CompiledStaticSlot) : outcome CompiledStaticSlot :=
  type ← RemapTypeDesc (structs m) (classes m) (slot_type sl);
  Ok (MkStaticSlotRecord (slot_name sl) (slot_ownerKey sl) (slot_ownerKind sl) (slot_isRuntimeConst sl)
        (slot_hasInitializer sl) type).

Definition RemapDefaultValueStrings (m : NcuOperandMaps) (context : string) (dv : DefaultValueDesc) : outcome DefaultValueDesc :=
  stringIdx ← (if decide (dv_tag dv = RTK_String) then Lookup (strings m) (dv_stringIdx dv) else Ok (dv_stringIdx dv));
  exprBytes ← (if decide (dv_exprBytes dv = []) then Ok []
    else r ← ExprDescRemapStrings (Lookup (strings m)) (dv_exprBytes dv);
         match r with
         | Some bs => Ok bs
         | None => Raise (nlink (context +:+ ": malformed default expression (corrupt image)"))
         end);
  Ok (MkDefaultValue (dv_tag dv) (dv_intValue dv) (dv_floatValue dv) stringIdx (dv_longValue dv) (dv_doubleValue dv) exprBytes).

Definition RemapStruct (m : NcuOperandMaps) (cs : CompiledStruct) : outcome CompiledStruct :=
  fieldStructs ← mapM (remap16 (structs m)) (st_fieldStructIndices cs);
  fieldClasses ← mapM (remap16 (classes m)) (st_fieldClassIndices cs);
  ctorIdxs ← mapM (remap16 (functions m)) (st_constructorIndices cs);
  descs ← mapM (RemapTypeDesc (structs m) (classes m)) (st_fieldTypeDescs cs);
  defaults ← mapM (RemapDefaultValueStrings m ("struct " +:+ quoted (st_name cs))) (st_fieldDefaults cs);
  Ok (MkStructRecord (st_name cs) (st_fieldCount cs) (st_isConstAggregate cs) (st_fieldNames cs) (st_fieldTypeKinds cs)
        fieldStructs fieldClasses descs ctorIdxs defaults (st_constructorAccess cs)).

Definition RemapEnum (m : NcuOperandMaps) (e : EnumRow) : outcome EnumRow :=
  idxs ← mapM (remap16 (functions m)) (en_methods e);
  Ok (MkEnumRow (en_names e) (en_key e) idxs (en_access e)).

Definition RemapParamType (m : NcuOperandMaps) (p : ParamTypeDesc) : outcome ParamTypeDesc :=
  type ← RemapTypeDesc (structs m) (classes m) (ptd_type p); Ok (MkParamType (ptd_flags p) type).
Definition RemapTryBlock (m : NcuOperandMaps) (tb : TryBlock) : outcome TryBlock :=
  excClass ← remap16 (classes m) (tb_exceptionClassIdx tb);
  Ok (MkTryBlock (tb_startPc tb) (tb_endPc tb) (tb_handlerPc tb) excClass (tb_catchLocalOff tb)).
(** The walk's callback throws at the first operand without a mapping. *)
Definition RemapCode (f : CompiledFunction) (m : NcuOperandMaps) : outcome bytes :=
  '(code, unmapped) ← NcuRemapBytecodeOperands m (func_bytecode f);
  match unmapped with
  | [] => Ok code
  | (tableKind, idx) :: _ => Raise (nlink ("function " +:+ quoted (func_name f) +:+ ": bytecode operand references "
      +:+ tableKind +:+ " index " +:+ to_string idx +:+ " outside the unit's table (corrupt image)"))
  end.
Definition FinalizeFunction (m : NcuOperandMaps) (f : CompiledFunction) : outcome CompiledFunction :=
  code ← RemapCode f m;
  tries ← mapM (RemapTryBlock m) (func_tryBlocks f);
  params ← mapM (RemapParamType m) (func_paramTypeDescs f);
  ret ← RemapTypeDesc (structs m) (classes m) (func_returnTypeDesc f);
  defaults ← mapM (RemapDefaultValueStrings m ("function " +:+ quoted (func_name f))) (func_defaultValues f);
  Ok (MkFunction (func_name f) (func_localsSize f) (func_paramCount f) (func_returnTypeKind f) (func_intrinsicId f)
        (func_isNative f) (func_isStatic f) defaults code tries (func_locals f) (func_sourceFile f) params ret
        (func_evalAreaHandleMask f)).

Definition RemapConstant (m : NcuOperandMaps) (context : string) (c : CompiledInterfaceConstant) : outcome CompiledInterfaceConstant :=
  type ← RemapTypeDesc (structs m) (classes m) (constant_type c);
  slotIdx ← remap16 (slots m) (constant_slotIdx c);
  value ← RemapDefaultValueStrings m context (constant_value c);
  Ok (MkInterfaceConstant (constant_name c) type value slotIdx).
Definition RemapSignature (m : NcuOperandMaps) (context : string) (sg : CompiledInterfaceMethod) : outcome CompiledInterfaceMethod :=
  params ← mapM (RemapParamType m) (sig_paramTypeDescs sg);
  ret ← RemapTypeDesc (structs m) (classes m) (sig_returnType sg);
  defaults ← mapM (RemapDefaultValueStrings m context) (sig_defaultValues sg);
  Ok (MkInterfaceMethod (sig_name sg) (sig_paramCount sg) params ret defaults).
Definition RemapInterfaceMetadata (m : NcuOperandMaps) (ci : CompiledInterface) : outcome CompiledInterface :=
  let context := ("interface " +:+ quoted (ci_name ci))%string in
  statics ← mapM (λ i, n ← Lookup (functions m) i; Ok (u16 n)) (ci_staticMethodIndices ci);
  staticInit ← remap16 (functions m) (ci_staticInitFuncIdx ci);
  consts ← mapM (RemapConstant m context) (ci_constants ci);
  sigs ← mapM (RemapSignature m context) (ci_instanceMethods ci);
  Ok (MkInterface (ci_name ci) statics consts sigs staticInit).

(** The loops over what a unit has pushed. *)
Definition remap_pushed {A} (f : A → outcome A) (idxs : list Z) (rows : list A) : outcome (list A) :=
  foldM (λ rows idx, r ← deref (rows !! Z.to_nat idx); r' ← f r; Ok (<[Z.to_nat idx := r']> rows)) rows idxs.

Definition FinalizeUnit (t : Tables) (u : CompiledModule) (m : NcuOperandMaps) (p : UnitPushes) : outcome (Tables * NcuOperandMaps) :=
  arrs ← MergeArrayTypes u (t_arrayTypes t) m;
  let m := put_arrayTypes m (row_map arrs) in
  clss ← remap_pushed (RemapClass m) (p_classes p) (t_classes t);
  strcts ← remap_pushed (RemapStruct m) (p_structs p) (t_structs t);
  enms ← remap_pushed (RemapEnum m) (p_enums p) (t_enums t);
  slts ← remap_pushed (RemapStaticSlot m) (p_slots p) (t_slots t);
  fns ← remap_pushed (FinalizeFunction m) (p_functions p) (t_functions t);
  ifcs ← remap_pushed (RemapInterfaceMetadata m) (p_interfaces p) (t_interfaces t);
  Ok (MkTables (t_strings t) fns clss strcts ifcs (rows arrs) enms slts, m).
Definition FinalizeUnits (units : list CompiledModule) (ps : list UnitPushes) (t : Tables) (ms : list NcuOperandMaps) :
    outcome (Tables * list NcuOperandMaps) :=
  each_unit (λ ui u '(t, ms),
    m ← deref (ms !! ui); p ← deref (ps !! ui);
    '(t, m) ← FinalizeUnit t u m p; Ok (t, <[ui := m]> ms)) 0 units (t, ms).

Definition ResolveEntry (fs : list CompiledFunction) (entryKey : bytes) : outcome Z :=
  if decide (entryKey = []) then Ok (-1) else
  let idx := FindFunction fs entryKey in
  _ ← check (bool_decide (0 ≤ idx)) (nlink ("entry key " +:+ quoted entryKey +:+ " names no function in the linked module"));
  Ok idx.

(** ** The link *)
Definition nl : string := String (Ascii.ascii_of_nat 10) "  ".
Fixpoint JoinProblems (problems : list string) : string :=
  match problems with
  | [] => ""
  | [p] => p
  | p :: problems => p +:+ nl +:+ JoinProblems problems
  end.
Definition to_module (u0 : CompiledModule) (t : Tables) (entryPoint : Z) : CompiledModule :=
  MkCompiledModule (mod_modulePath u0) (mod_name u0) (t_strings t) (t_functions t) (t_structs t) (t_classes t)
    (t_interfaces t) (t_arrayTypes t) (en_names <$> t_enums t) (en_key <$> t_enums t) (en_methods <$> t_enums t)
    (en_access <$> t_enums t) (t_slots t) [] [] [] [] [] entryPoint.
(** With the units' maps, which [Link] drops. *)
Definition LinkWithMaps (units : list CompiledModule) (entryKey : bytes) : outcome (CompiledModule * list NcuOperandMaps) :=
  _ ← ValidateClosure units;
  u0 ← deref (head units);
  k ← MergeUnitTables units;
  '(ms, problems) ← NcuResolveSlots units (merged k) (maps k, []);
  _ ← check (bool_decide (problems = [])) (RuntimeError ("nlink failed:" +:+ nl +:+ JoinProblems problems));
  '(t, ms) ← FinalizeUnits units (pushes k) (merged k) ms;
  entryPoint ← ResolveEntry (t_functions t) entryKey;
  Ok (to_module u0 t entryPoint, ms).
Definition Link (units : list CompiledModule) (entryKey : bytes) : outcome CompiledModule := fst <$> LinkWithMaps units entryKey.
