(* ===== verification/LinkTables.v ===== *)
(** * The merged tables of the linker

    The invariant of pass A: every index a unit uses for one of its own records leads to a
    merged row that stands for the record, every merged row is a record of the one unit that
    pushed it, and no key has two rows.  One invariant serves all tables; only the relation
    between a record and the row that stands for it differs. *)
From S2P Require Import Prelude.
From S2P Require Import Bytecode Remap Package Prims TypeDesc ModuleRecords DefaultExpr Linker.
Open Scope Z_scope.

(** ** Validation *)
Record unit_valid (u : CompiledModule) : Prop := {
  uv_path : mod_modulePath u ≠ [];
  uv_enums : length (mod_enumKeys u) = length (mod_enumNames u) ∧ length (mod_enumMethodIndices u) = length (mod_enumNames u)
    ∧ length (mod_enumMethodAccess u) = length (mod_enumNames u);
  uv_imports : (length (mod_functionImports u) ≤ length (mod_functions u) ∧ length (mod_classImports u) ≤ length (mod_classes u)
    ∧ length (mod_structImports u) ≤ length (mod_structs u) ∧ length (mod_enumImports u) ≤ length (mod_enumNames u)
    ∧ length (mod_staticSlotImports u) ≤ length (mod_staticSlots u))%nat
}.
Lemma ValidateUnit_Ok paths u paths' : ValidateUnit paths u = Ok paths' ↔
  unit_valid u ∧ (mod_modulePath u ∉ paths) ∧ paths' = {[mod_modulePath u]} ∪ paths.
Proof.
  unfold ValidateUnit, checkTable, size. split.
  - intros H. repeat (apply bind_Ok in H as (? & ?%check_Ok%bool_decide_eq_true & H)). injection H as <-.
    split; [|done]. split; [done|lia..].
  - intros ([Hp (E1 & E2 & E3) (I1 & I2 & I3 & I4 & I5)] & Hn & ->).
    repeat (rewrite bool_decide_true by (done || lia); cbn [check]; rewrite bindE). done.
Qed.
Lemma ValidateClosure_Ok units : ValidateClosure units = Ok tt ↔
  units ≠ [] ∧ Forall unit_valid units ∧ NoDup (mod_modulePath <$> units).
Proof.
  assert (∀ paths, is_Ok (foldM ValidateUnit paths units) ↔ Forall unit_valid units ∧ NoDup (mod_modulePath <$> units)
    ∧ ∀ u, u ∈ units → mod_modulePath u ∉ paths) as G.
  { induction units as [|u us IH]; intros paths; [simpl; split; [|done]; intros _; split_and!; [done|constructor|by intros u ?%elem_of_nil]|].
    cbn [foldM]. rewrite list.Forall_cons, fmap_cons, list.NoDup_cons. split.
    - intros H. destruct (ValidateUnit paths u) as [p|] eqn:E; [|done]. apply ValidateUnit_Ok in E as (Hv & Hp & ->).
      rewrite bindE in H. apply IH in H as (Hvs & Hnd & Hfresh). split_and!; [done..| |done|].
      + intros (u' & E & Hu')%list_elem_of_fmap. specialize (Hfresh u' Hu'). set_solver.
      + intros u' [->|Hu']%elem_of_cons; [done|]. specialize (Hfresh u' Hu'). set_solver.
    - intros ([Hv Hvs] & [Hnew Hnd] & Hfresh).
      assert (ValidateUnit paths u = Ok ({[mod_modulePath u]} ∪ paths)) as ->
        by (apply ValidateUnit_Ok; split_and!; [done|apply Hfresh; by left|done]).
      rewrite bindE. apply IH. split_and!; [done..|]. intros u' Hu' [E%elem_of_singleton|Hp]%elem_of_union.
      + apply Hnew. rewrite <- E. by apply list_elem_of_fmap_2.
      + eapply Hfresh; [by right|done]. }
  unfold ValidateClosure. split.
  - intros H. apply bind_Ok in H as (_ & Hne%check_Ok%bool_decide_eq_true & H). apply bind_Ok in H as (p & Hp & _).
    split; [done|]. destruct (proj1 (G ∅)) as (? & ? & _); [by rewrite Hp|done].
  - intros (Hne & Hv & Hnd). rewrite bool_decide_true by done. cbn [check]. rewrite bindE.
    assert (is_Ok (foldM ValidateUnit ∅ units)) as H by (apply G; split_and!; [done..|set_solver]).
    by destruct (foldM ValidateUnit ∅ units).
Qed.

(** ** The own records of a valid unit *)
Section own.
Context {A B : Type} (table : list A) (imports : list B) (Hle : (length imports ≤ length table)%nat).
Lemma own_count_valid : own_count table imports = size table - size imports.
Proof. unfold own_count, size. rewrite decide_False by lia. done. Qed.
Lemma own_valid : own table imports = take (length table - length imports) table.
Proof.
  unfold own. rewrite own_count_valid. unfold size. rewrite decide_True by lia. f_equal. lia.
Qed.
Lemma own_rows_valid : own_rows table imports = Ok (own table imports).
Proof. unfold own_rows. rewrite own_count_valid. unfold size. rewrite bool_decide_true by lia. done. Qed.
Lemma own_length : size (own table imports) = own_count table imports.
Proof. rewrite own_valid, own_count_valid. unfold size. rewrite length_take. lia. Qed.
(** An index is an own record's or an import's. *)
Lemma own_or_import i : (i < length table)%nat →
  (∃ a, own table imports !! i = Some a) ∨ (∃ j imp, i = (length (own table imports) + j)%nat ∧ imports !! j = Some imp).
Proof.
  intros Hi. rewrite own_valid. destruct (decide (i < length table - length imports)%nat) as [Hlt|Hge].
  - left. apply lookup_lt_is_Some. rewrite length_take. lia.
  - right. exists (i - (length table - length imports))%nat. rewrite length_take.
    destruct (lookup_lt_is_Some_2 imports (i - (length table - length imports))) as [imp Himp]; [lia|].
    exists imp. split; [lia|done].
Qed.
End own.
Lemma own_subset {A B} (table : list A) (imports : list B) P : Forall P table → Forall P (own table imports).
Proof. unfold own. case_decide; [apply Forall_take|done]. Qed.
Lemma own_lookup_lt {A B} (table : list A) (imports : list B) (i : Z) a :
  own table imports !! Z.to_nat i = Some a → i < own_count table imports.
Proof. unfold own. case_decide as Hd; intros H%lookup_lt_Some; [rewrite length_take in H|unfold size in Hd]; lia. Qed.

Lemma counts_fit_valid u : unit_valid u → counts_fit u = Ok tt.
Proof. intros [_ _ (? & ? & ? & ? & ?)]. unfold counts_fit. by rewrite !own_rows_valid, !bindE by done. Qed.

(** The enums of a unit, the columns side by side. *)
Fixpoint enum_rows (names : list (list bytes)) (keys : list bytes) (methods access : list (list Z)) : list EnumRow :=
  match names, keys, methods, access with
  | n :: names, k :: keys, m :: methods, a :: access => MkEnumRow n k m a :: enum_rows names keys methods access
  | _, _, _, _ => []
  end.
Definition enums_of (u : CompiledModule) : list EnumRow :=
  enum_rows (mod_enumNames u) (mod_enumKeys u) (mod_enumMethodIndices u) (mod_enumMethodAccess u).
Definition own_enums (u : CompiledModule) := own (enums_of u) (mod_enumImports u).
Lemma length_enums_of u : unit_valid u → length (enums_of u) = length (mod_enumNames u).
Proof.
  intros [_ (E1 & E2 & E3) _]. unfold enums_of. revert E1 E2 E3.
  generalize (mod_enumKeys u) (mod_enumMethodIndices u) (mod_enumMethodAccess u).
  induction (mod_enumNames u) as [|n ns IH]; intros [|x1 l1] [|x2 l2] [|x3 l3]; simpl; try done. intros [= ?] [= ?] [= ?]. by rewrite IH.
Qed.
Lemma enum_rows_lookup names keys methods access i e : enum_rows names keys methods access !! i = Some e →
  names !! i = Some (en_names e) ∧ keys !! i = Some (en_key e) ∧ methods !! i = Some (en_methods e) ∧ access !! i = Some (en_access e).
Proof.
  revert keys methods access i. induction names as [|n names IH]; intros [|k keys] [|m methods] [|a access] [|i]; try done; [|exact (IH keys methods access i)].
  simpl. by intros [= <-].
Qed.
Lemma enum_row_valid u i e : enums_of u !! i = Some e → mod_enumKeys u !! i = Some (en_key e) ∧ enum_row u i = Ok e.
Proof.
  intros (Hn & Hk & Hm & Ha)%enum_rows_lookup. split; [done|]. unfold enum_row. rewrite Hn, Hk, Hm, Ha. by destruct e.
Qed.
(** On a valid unit the loop over the columns is the loop over the rows. *)
Lemma MergeEnums_valid u t : unit_valid u → MergeEnums u t = Ok (merge_own (λ rows e, FindEnum rows (en_key e)) t (own_enums u)).
Proof.
  intros Hv. pose proof (length_enums_of u Hv) as Hlen. destruct Hv as [_ (Ek & _ & _) (_ & _ & _ & Hle & _)].
  unfold MergeEnums. rewrite own_rows_valid, bindE by lia.
  assert (length (own (mod_enumKeys u) (mod_enumImports u)) = length (own_enums u)) as ->.
  { unfold own_enums. rewrite !own_valid, !length_take by lia. lia. }
  unfold merge_own. assert (∀ i e, own_enums u !! i = Some e → enums_of u !! i = Some e) as Hown.
  { intros i e. unfold own_enums. rewrite own_valid by lia. by intros [? _]%lookup_take_Some. }
  assert (∀ rest seen s, own_enums u = seen ++ rest → foldM (merge_enum u) s (seq (length seen) (length rest)) =
    Ok (each_row (merge_row (λ rows e, FindEnum rows (en_key e))) (size seen) rest s)) as G; [|by apply (G (own_enums u) [])].
  induction rest as [|e rest IH]; intros seen s E; [done|]. cbn [length seq foldM each_row].
  destruct (enum_row_valid u (length seen) e) as [Hk Hr]; [apply Hown; rewrite E; by apply list_lookup_middle|].
  assert (merge_enum u s (length seen) = Ok (merge_row (λ rows e, FindEnum rows (en_key e)) (size seen) e s)) as ->.
  { unfold merge_enum, merge_row. rewrite Hk. cbn [deref]. rewrite bindE.
    destruct (FindEnum (rows s) (en_key e)); [done|by rewrite Hr, bindE]. }
  rewrite bindE. replace (size seen + 1) with (size (seen ++ [e])) by (unfold size; rewrite length_app; simpl; lia).
  replace (S (length seen)) with (length (seen ++ [e])) by (rewrite length_app; simpl; lia).
  apply IH. by rewrite <- app_assoc.
Qed.

(** ** Merged tables *)
Section merged.
Context {A K : Type} (key : A → option K) (R : A → A → Prop).

(** What a unit contributes: its own records, its map, the rows it pushed. *)
Abbreviation share := (list A * gmap Z Z * list Z)%type.

Record unit_in (rows : list A) (s : share) : Prop := {
  ui_mapped : ∀ i a, s.1.1 !! i = Some a → ∃ n b, s.1.2 !! Z.of_nat i = Some (Z.of_nat n) ∧ rows !! n = Some b ∧ R a b;
  ui_domain : ∀ j, is_Some (s.1.2 !! j) → 0 ≤ j < size s.1.1;
  ui_pushed : ∀ j, j ∈ s.2 → ∃ n i b, j = Z.of_nat n ∧ rows !! n = Some b ∧ s.1.1 !! i = Some b
                ∧ s.1.2 !! Z.of_nat i = Some (Z.of_nat n);
  (* a record without a key shares its row with no other *)
  ui_alone : ∀ i a n, s.1.1 !! i = Some a → key a = None → s.1.2 !! Z.of_nat i = Some n →
               n ∈ s.2 ∧ ∀ j, s.1.2 !! j = Some n → j = Z.of_nat i
}.
Record merged_table (rows : list A) (shares : list share) : Prop := {
  mt_units : Forall (unit_in rows) shares;
  mt_once : concat (snd <$> shares) ≡ₚ Z.of_nat <$> seq 0 (length rows);
  mt_keys : ∀ n n' b b' k, rows !! n = Some b → rows !! n' = Some b' → key b = Some k → key b' = Some k → n = n'
}.

Context (R_refl : ∀ a, R a a) (R_key : ∀ a b, R a b → key a = key b).

Lemma merged_empty : merged_table [] [].
Proof. by split. Qed.
Lemma merged_new rows shares : merged_table rows shares → merged_table rows (shares ++ [([], ∅, [])]).
Proof.
  intros [Hu Ho Hk]. split; [|by rewrite fmap_app, concat_app, app_nil_r|done].
  apply list.Forall_app. split; [done|]. apply list.Forall_singleton. split; simpl.
  - by intros i a.
  - intros j. rewrite lookup_empty. by intros [].
  - intros j. by rewrite elem_of_nil.
  - by intros i a n.
Qed.

Lemma unit_in_app rows a s : unit_in rows s → unit_in (rows ++ [a]) s.
Proof.
  intros [Hm Hd Hp Ha]. split; [|done| |done].
  - intros i b Hi. destruct (Hm i b Hi) as (n & c & ? & Hn & ?). exists n, c.
    split_and!; [done| |done]. by apply lookup_app_l_Some.
  - intros j Hj. destruct (Hp j Hj) as (n & i & b & ? & Hn & ?). exists n, i, b.
    split_and!; [done|by apply lookup_app_l_Some|naive_solver..].
Qed.

(** The rows a unit's map leads to exist. *)
Lemma unit_in_bound rows s j n : unit_in rows s → s.1.2 !! j = Some n → 0 ≤ n < size rows.
Proof.
  intros [Hm Hd _ _] Hj. destruct (Hd j ltac:(by eexists)) as [Hj0 Hj1]. unfold size in *.
  destruct (lookup_lt_is_Some_2 s.1.1 (Z.to_nat j)) as [a Ha]; [lia|].
  destruct (Hm _ _ Ha) as (n' & b & Hn & Hb & _). rewrite Z2Nat.id in Hn by done. simplify_eq.
  apply lookup_lt_Some in Hb. lia.
Qed.

(** One more own record, whose row is [n]: a row it has pushed, or one of its key. *)
Lemma unit_in_record rows own m p p' n a b :
  unit_in rows (own, m, p) → rows !! n = Some b → R a b → (∀ j, j ∈ p → j ∈ p') →
  (∀ j, j ∈ p' → j ∈ p ∨ j = Z.of_nat n ∧ a = b) →
  (key a = None → Z.of_nat n ∈ p' ∧ ∀ j, m !! j ≠ Some (Z.of_nat n)) →
  unit_in rows (own ++ [a], <[size own := Z.of_nat n]> m, p').
Proof.
  intros [Hm Hd Hp Ha] Hn Hab Hsub Hsub' Hkey. assert (∀ j, is_Some (m !! j) → j ≠ size own) as Hnew.
  { intros j Hj%Hd. simpl in Hj. lia. }
  split; simpl in *.
  - intros i c. rewrite lookup_app_Some. intros [Hi|[Hlen Hi]].
    + destruct (Hm i c Hi) as (n' & d & ? & ? & ?). exists n', d.
      apply lookup_lt_Some in Hi. rewrite lookup_insert_ne by (unfold size; lia). done.
    + apply list_lookup_singleton_Some in Hi as [Hi <-]. exists n, b.
      replace (Z.of_nat i) with (size own) by (unfold size; lia). by rewrite lookup_insert_eq.
  - intros j [c Hj]. unfold size in *. rewrite length_app. simpl.
    destruct (decide (j = Z.of_nat (length own))) as [->|Hne]; [lia|].
    rewrite lookup_insert_ne in Hj by done. specialize (Hd j ltac:(by eexists)). lia.
  - intros j [Hj|[-> ->]]%Hsub'.
    + destruct (Hp j Hj) as (n' & i & c & -> & Hrow & Hi & Hmi).
      apply lookup_lt_Some in Hi as Hlt. exists n', i, c.
      split_and!; [done..|by apply lookup_app_l_Some|rewrite lookup_insert_ne by (unfold size; lia); done].
    + exists n, (length own), b. split_and!; [done..|by apply list_lookup_middle|by rewrite lookup_insert_eq].
  - intros i c n' [Hi|[Hlen Hi]]%lookup_app_Some Hc.
    + apply lookup_lt_Some in Hi as Hlt. rewrite lookup_insert_ne by (unfold size; lia). intros Hmi.
      destruct (Ha i c n' Hi Hc Hmi) as [Hin Honly]. split; [by apply Hsub|]. intros j Hj.
      apply lookup_insert_Some in Hj as [[<- Hnn]|[_ Hj]]; [|by apply Honly].
      (* the new record has no key either, so its row was not in use *)
      exfalso. destruct (Hm i c Hi) as (n2 & d & Hmi' & Hd2 & HR). simplify_eq.
      destruct Hkey as [_ Hno].
      { rewrite (R_key _ _ Hab), <- (R_key _ _ HR). done. }
      by apply (Hno (Z.of_nat i)).
    + apply list_lookup_singleton_Some in Hi as [Hi <-]. destruct (Hkey Hc) as [Hin Hno].
      replace (Z.of_nat i) with (size own) by (unfold size; lia). rewrite lookup_insert_eq. intros [= <-].
      split; [done|]. intros j Hj. apply lookup_insert_Some in Hj as [[<- _]|[_ Hj]]; [done|]. by destruct (Hno j).
Qed.

Lemma merged_share rows shares own m p n a b :
  merged_table rows (shares ++ [(own, m, p)]) → rows !! n = Some b → R a b → key a ≠ None →
  merged_table rows (shares ++ [(own ++ [a], <[size own := Z.of_nat n]> m, p)]).
Proof.
  intros [Hu Ho Hk] Hn Hab Hka. split; [|rewrite fmap_app in *; exact Ho|done].
  apply list.Forall_app in Hu as [Hu Hlast]. apply list.Forall_app. split; [done|].
  apply list.Forall_singleton. rewrite list.Forall_singleton in Hlast. eapply unit_in_record; eauto; naive_solver.
Qed.

Lemma merged_push rows shares own m p a :
  merged_table rows (shares ++ [(own, m, p)]) →
  (∀ n b k, rows !! n = Some b → key a = Some k → key b ≠ Some k) →
  merged_table (rows ++ [a]) (shares ++ [(own ++ [a], <[size own := size rows]> m, p ++ [size rows])]).
Proof.
  intros [Hu Ho Hk] Hnew. assert ((rows ++ [a]) !! length rows = Some a) as Hlast by apply list_lookup_middle, eq_refl.
  split.
  - apply list.Forall_app in Hu as [Hu Hcur]. apply list.Forall_app. split.
    { eapply list.Forall_impl; [exact Hu|apply unit_in_app]. }
    rewrite list.Forall_singleton in Hcur. apply list.Forall_singleton.
    apply (unit_in_record (rows ++ [a]) own m p _ (length rows) a a); [by apply unit_in_app|done|done|..].
    + intros j Hj. apply elem_of_app. by left.
    + intros j [Hj|Hj%list_elem_of_singleton]%elem_of_app; [by left|by right].
    + intros _. split; [apply elem_of_app; right; by apply list_elem_of_singleton|].
      intros j Hj. apply (unit_in_bound _ _ _ _ Hcur) in Hj. unfold size in Hj. lia.
  - rewrite fmap_app, concat_app in *. simpl in *. rewrite app_nil_r in *.
    rewrite length_app, seq_app, fmap_app, app_assoc, Ho. done.
  - intros n n' b b' k Hb Hb' Hkb Hkb'.
    apply lookup_app_Some in Hb as [Hb|[Hlen Hb]]; apply lookup_app_Some in Hb' as [Hb'|[Hlen' Hb']].
    + by eapply Hk.
    + apply list_lookup_singleton_Some in Hb' as [_ <-]. by destruct (Hnew _ _ _ Hb Hkb').
    + apply list_lookup_singleton_Some in Hb as [_ <-]. by destruct (Hnew _ _ _ Hb' Hkb).
    + apply list_lookup_singleton_Some in Hb as [? _], Hb' as [? _]. lia.
Qed.

(** ** The loops *)
Lemma each_row_ind {S} (f : Z → A → S → S) (Inv : list A → S → Prop) l :
  (∀ seen a rest s, l = seen ++ a :: rest → Inv seen s → Inv (seen ++ [a]) (f (size seen) a s)) →
  ∀ s, Inv [] s → Inv l (each_row f 0 l s).
Proof.
  intros Hstep. assert (∀ rest seen s, l = seen ++ rest → Inv seen s → Inv l (each_row f (size seen) rest s)) as G.
  { induction rest as [|a rest IH]; intros seen s E Hs; simpl; [by rewrite E, app_nil_r|].
    replace (size seen + 1) with (size (seen ++ [a])) by (unfold size; rewrite length_app; simpl; lia).
    apply IH; [by rewrite <- app_assoc|by eapply Hstep]. }
  intros s. by apply (G l []).
Qed.

(** What a search for an equal row must answer. *)
Record searches (existing : list A → A → option Z) : Prop := {
  found_row : ∀ rows a n, existing rows a = Some n → ∃ k b, n = Z.of_nat k ∧ rows !! k = Some b ∧ R a b ∧ key a ≠ None;
  no_row : ∀ rows a n b k, existing rows a = None → rows !! n = Some b → key a = Some k → key b ≠ Some k
}.
Abbreviation share_of own s := (own, row_map s, pushed s).

Lemma merge_own_merged existing t own shares : searches existing → merged_table t shares →
  merged_table (rows (merge_own existing t own)) (shares ++ [share_of own (merge_own existing t own)]).
Proof.
  intros [Hf Hn] Ht. unfold merge_own.
  apply (each_row_ind _ (λ own s, merged_table (rows s) (shares ++ [share_of own s]))); [|by apply merged_new].
  intros seen a rest s _ Hs. unfold merge_row. destruct (existing (rows s) a) as [n|] eqn:E.
  - destruct (Hf _ _ _ E) as (k & b & -> & Hb & Hab & Hk). by eapply merged_share.
  - apply merged_push; [done|]. intros n b k Hb Hk. by eapply Hn.
Qed.

Lemma find_row_searches (P : A → A → Prop) `{!∀ a b, Decision (P a b)} (get : A → K) :
  (∀ a, key a = Some (get a)) → (∀ a b, P a b → R a b) → (∀ a b, get a = get b → P a b) →
  searches (λ rows a, find_row (P a) rows).
Proof.
  intros Hget HR HP. split; unfold find_row.
  - intros rows a n. destruct (list_find (P a) rows) as [[k b]|] eqn:E; [|done]. intros [= <-].
    apply list_find_Some in E as (? & ? & _). exists k, b. rewrite Hget. auto.
  - intros rows a n b k. destruct (list_find (P a) rows) eqn:E; [done|]. intros _ Hb Ha Hkb.
    apply list_find_None in E. rewrite Hget in Ha, Hkb. simplify_eq.
    eapply list.Forall_lookup_1 in E; [|exact Hb]. simpl in E. apply E, HP. congruence.
Qed.

Section indexed.
Context `{Countable K} (same_R : ∀ a b k, key a = Some k → key b = Some k → R a b).
(** The index knows the row of every key. *)
Definition index_knows (rows : list A) (index : gmap K Z) : Prop :=
  ∀ k j, index !! k = Some j ↔ ∃ n b, j = Z.of_nat n ∧ rows !! n = Some b ∧ key b = Some k.

Lemma index_knows_empty : index_knows [] ∅.
Proof. intros k j. rewrite lookup_empty. naive_solver. Qed.
Lemma index_knows_push rows index a : index_knows rows index →
  (∀ k, key a = Some k → index !! k = None) →
  index_knows (rows ++ [a]) (match key a with Some k => <[k := size rows]> index | None => index end).
Proof.
  intros Hi Hnew k j.
  assert ((∃ n b, j = Z.of_nat n ∧ (rows ++ [a]) !! n = Some b ∧ key b = Some k) ↔
          index !! k = Some j ∨ (j = size rows ∧ key a = Some k)) as ->.
  { unfold index_knows in Hi. rewrite (Hi k j). split.
    - intros (n & b & -> & [Hn|[Hlen Hn]]%lookup_app_Some & Hk); [left; eauto|].
      apply list_lookup_singleton_Some in Hn as [? <-]. right. split; [unfold size; lia|done].
    - intros [(n & b & -> & Hn & Hk)|[-> Hk]]; [exists n, b; eauto using lookup_app_l_Some|].
      exists (length rows), a. split_and!; [done|by apply list_lookup_middle|done]. }
  destruct (key a) as [k'|] eqn:Ha; [|naive_solver]. destruct (decide (k = k')) as [->|Hne].
  - rewrite lookup_insert_eq, (Hnew k') by done. naive_solver.
  - rewrite lookup_insert_ne by done. naive_solver.
Qed.

Lemma merge_indexed_merged t index own shares : merged_table t shares → index_knows t index →
  let s := each_row (merge_indexed key) 0 own (Merging t ∅ [], index) in
  merged_table (rows s.1) (shares ++ [share_of own s.1]) ∧ index_knows (rows s.1) s.2.
Proof.
  intros Ht Hi s. subst s.
  apply (each_row_ind _ (λ own s, merged_table (rows s.1) (shares ++ [share_of own s.1]) ∧ index_knows (rows s.1) s.2));
    [|by split; [apply merged_new|]].
  intros seen a rest [s idx] _ [Hs Hidx]. simpl in *. unfold merge_indexed.
  pose proof (index_knows_push (rows s) idx a Hidx) as Hpush. destruct (key a) as [k|] eqn:Ha.
  - simpl. destruct (idx !! k) as [j|] eqn:E.
    + apply Hidx in E as (n & b & -> & Hb & Hk). simpl. split; [|done]. eapply merged_share; [done|done|by eapply same_R|congruence].
    + simpl. split; [|apply Hpush; naive_solver]. apply merged_push; [done|]. intros n b k' Hb [= <-] Hk.
      assert (is_Some (idx !! k)) as [? ?]; [|congruence]. exists (Z.of_nat n). apply Hidx. exists n, b. split_and!; congruence.
  - simpl. split; [|by apply Hpush]. apply merged_push; [done|]. intros n b k' Hb ?. congruence.
Qed.
End indexed.
End merged.

(** ** Interfaces

    A row a consumer pushed as a placeholder gives way, in place, to the row of the provider. *)
Section interfaces.
Definition iface_key (ci : CompiledInterface) : option bytes := Some (ci_name ci).
Definition iface_R (a b : CompiledInterface) : Prop :=
  ci_name a = ci_name b ∧ (IsPlaceholderInterfaceRow a = false → IsPlaceholderInterfaceRow b = false).
Lemma iface_R_refl a : iface_R a a. Proof. done. Qed.
Lemma iface_R_key a b : iface_R a b → iface_key a = iface_key b. Proof. intros [E _]. unfold iface_key. by rewrite E. Qed.

Abbreviation merged_ifaces := (merged_table iface_key iface_R).

Lemma concat_filter_fmap {B} (P : B → Prop) `{!∀ x, Decision (P x)} (ls : list (list B)) :
  concat (filter P <$> ls) = filter P (concat ls).
Proof. induction ls as [|l ls IH]; [done|]. rewrite fmap_cons. cbn [concat]. by rewrite IH, list.filter_app. Qed.
Lemma filter_ne_id (l : list Z) x : x ∉ l → filter (.≠ x) l = l.
Proof.
  induction l as [|y l IH]; [done|]. intros [Hy Hl]%not_elem_of_cons.
  rewrite filter_cons_True by done. by rewrite IH.
Qed.
Lemma filter_ne_once (l : list Z) x : NoDup l → x ∈ l → filter (.≠ x) l ++ [x] ≡ₚ l.
Proof.
  induction 1 as [|y l Hy Hl IH]; [by intros ?%elem_of_nil|]. intros [->|Hx]%elem_of_cons.
  - rewrite filter_cons_False by (intros H; by apply H).
    rewrite filter_ne_id by done. by rewrite Permutation_app_comm.
  - rewrite filter_cons_True by (intros ->; done). simpl. by rewrite IH.
Qed.

(** The row of another unit's placeholder is taken over. *)
Lemma unit_in_replace rows n a c s own m p : rows !! n = Some c → ci_name c = ci_name a →
  IsPlaceholderInterfaceRow a = false → s = (own, m, p) →
  unit_in iface_key iface_R rows s → unit_in iface_key iface_R (<[n := a]> rows) (own, m, filter (.≠ Z.of_nat n) p).
Proof.
  intros Hn Hname Hrich -> [Hm Hd Hp _]. apply lookup_lt_Some in Hn as Hlt. split; simpl in *; [|done| |done].
  - intros i b Hi. destruct (Hm i b Hi) as (k & d & ? & Hk & HR). destruct (decide (k = n)) as [->|Hne].
    + exists n, a. rewrite list_lookup_insert_eq by done. simplify_eq. split_and!; [done..|].
      destruct HR as [? ?]. split; [congruence|done].
    + exists k, d. by rewrite list_lookup_insert_ne by congruence.
  - intros j [Hne Hj]%list_elem_of_filter. destruct (Hp j Hj) as (k & i & b & -> & Hk & ?). exists k, i, b.
    by rewrite list_lookup_insert_ne by (intros ->; done).
Qed.

Definition forget_row (n : Z) (s : list CompiledInterface * gmap Z Z * list Z) := (s.1, filter (.≠ n) s.2).
Lemma merged_replace rows shares own m p n a c : merged_ifaces rows (shares ++ [(own, m, p)]) →
  rows !! n = Some c → ci_name c = ci_name a → IsPlaceholderInterfaceRow a = false → Z.of_nat n ∉ p →
  merged_ifaces (<[n := a]> rows)
    ((forget_row (Z.of_nat n) <$> shares) ++ [(own ++ [a], <[size own := Z.of_nat n]> m, p ++ [Z.of_nat n])]).
Proof.
  intros [Hu Ho Hk] Hn Hname Hrich Hnp. apply lookup_lt_Some in Hn as Hlt.
  apply list.Forall_app in Hu as [Hu Hcur]. rewrite list.Forall_singleton in Hcur.
  assert (filter (.≠ Z.of_nat n) p = p) as Ep by by apply filter_ne_id.
  assert ((<[n := a]> rows) !! n = Some a) as Hna by by apply list_lookup_insert_eq.
  split.
  - apply list.Forall_app. split.
    + apply list.Forall_fmap. eapply list.Forall_impl; [exact Hu|]. intros [[o mm] q] Hs. simpl.
      by eapply unit_in_replace.
    + apply list.Forall_singleton. pose proof (unit_in_replace _ _ _ _ _ _ _ _ Hn Hname Hrich eq_refl Hcur) as Hcur'.
      rewrite Ep in Hcur'.
      apply (unit_in_record _ _ iface_R_key _ _ _ p _ n a a); [done..| | |done].
      * intros j Hj. apply elem_of_app. by left.
      * intros j [Hj|Hj%list_elem_of_singleton]%elem_of_app; [by left|by right].
  - rewrite length_insert. rewrite <- Ho. rewrite !fmap_app, !concat_app. simpl. rewrite !app_nil_r.
    replace ((forget_row (Z.of_nat n) <$> shares).*2) with (filter (.≠ Z.of_nat n) <$> shares.*2)
      by (by rewrite <- !list_fmap_compose).
    rewrite concat_filter_fmap. rewrite fmap_app, concat_app in Ho. simpl in Ho. rewrite app_nil_r in Ho.
    assert (NoDup (concat shares.*2 ++ p)) as Hnd.
    { rewrite Ho. apply NoDup_fmap; [apply _|apply NoDup_seq]. }
    assert (Z.of_nat n ∈ concat shares.*2) as Hin.
    { assert (Z.of_nat n ∈ concat shares.*2 ++ p) as [?|?]%elem_of_app; [|done..].
      rewrite Ho. apply list_elem_of_fmap. exists n. split; [done|]. apply elem_of_seq. lia. }
    apply list.NoDup_app in Hnd as [Hnd _].
    rewrite (Permutation_app_comm p), app_assoc. by rewrite filter_ne_once.
  - intros k k' b b' key Hb Hb' [= <-] [= Hkey].
    assert (∀ k b, <[n := a]> rows !! k = Some b → ∃ d, rows !! k = Some d ∧ ci_name d = ci_name b) as Hd.
    { intros j d Hj. destruct (decide (j = n)) as [->|]; [|rewrite list_lookup_insert_ne in Hj by done; eauto].
      rewrite Hna in Hj. injection Hj as <-. eauto. }
    destruct (Hd _ _ Hb) as (d & ? & ?), (Hd _ _ Hb') as (d' & ? & ?).
    eapply (Hk _ _ d d' (ci_name b)); [done..| |]; unfold iface_key; congruence.
Qed.

Definition with_prev (shares : list (list CompiledInterface * gmap Z Z * list Z)) (prev : list (list Z)) :=
  zip_with (λ s q, (s.1, q)) shares prev.
Lemma with_prev_self shares : with_prev shares shares.*2 = shares.
Proof. unfold with_prev. induction shares as [|[s q] shares IH]; [done|]. rewrite fmap_cons. cbn [zip_with fst snd]. by rewrite IH. Qed.
Lemma with_prev_forget n shares prev : forget_row n <$> with_prev shares prev = with_prev shares (filter (.≠ n) <$> prev).
Proof. unfold with_prev. revert prev. induction shares as [|s shares IH]; intros [|q prev]; [done..|]. rewrite fmap_cons. cbn [zip_with]. by rewrite fmap_cons, IH. Qed.

Lemma MergeInterfaces_merged u t shares : NoDup (ci_name <$> mod_interfaces u) → merged_ifaces t shares →
  let s := MergeInterfaces u t shares.*2 in
  length s.2 = length shares ∧
  merged_ifaces (rows s.1) (with_prev shares s.2 ++ [(mod_interfaces u, row_map s.1, pushed s.1)]).
Proof.
  intros Hnd Ht s. subst s. unfold MergeInterfaces.
  apply (each_row_ind _ (λ seen s, length s.2 = length shares ∧
    merged_ifaces (rows s.1) (with_prev shares s.2 ++ [(seen, row_map s.1, pushed s.1)])));
    [|split; [apply length_fmap|rewrite with_prev_self; by apply merged_new]].
  intros seen a rest [s prev] E [Hlen Hs]. simpl in *. unfold merge_interface.
  destruct (list_find _ (rows s)) as [[n c]|] eqn:Hf.
  - apply list_find_Some in Hf as (Hn & Hname & _). destruct (IsPlaceholderInterfaceRow c && _) eqn:Hp; simpl.
    + apply andb_true_iff in Hp as [_ Hrich%negb_true_iff]. split; [by rewrite length_fmap|].
      rewrite <- with_prev_forget. apply (merged_replace _ _ _ _ _ n a c); [done..|]. intros Hin.
      destruct Hs as [Hu _ _]. apply list.Forall_app in Hu as [_ Hcur]. rewrite list.Forall_singleton in Hcur.
      destruct (ui_pushed _ _ _ _ Hcur _ Hin) as (n' & i & b & En & Hb & Hi & _). apply Nat2Z.inj in En as <-.
      assert (b = c) as -> by congruence. rewrite E, fmap_app in Hnd. apply list.NoDup_app in Hnd as (_ & Hd & _).
      apply (Hd (ci_name a)); [apply list_elem_of_fmap; exists c; split; [done|by eapply list_elem_of_lookup_2]|]. by left.
    + split; [done|]. apply (merged_share _ _ iface_R_key _ _ _ _ _ n a c); [done..| |done]. split; [done|]. intros Ha. rewrite Ha in Hp.
      by rewrite andb_true_r in Hp.
  - split; [done|]. apply (merged_push _ _ iface_R_refl iface_R_key); [done|]. intros n b k Hb [= <-] [= Hk].
    apply list_find_None in Hf. by eapply list.Forall_lookup_1 in Hf; [|exact Hb].
Qed.
End interfaces.
