(* ===== verification/LinkMerge.v ===== *)
(** * Passes A and B of the linker: what the maps say

    The invariant of [LinkTables] for all tables over all units, and the closed form of the
    slot loops: with no problem noted, every import slot of every unit has the merged index
    that its resolution computes, and no other entry has changed. *)
From S2P Require Import Prelude.
From S2P Require Import Bytecode Remap Package Prims TypeDesc ModuleRecords DefaultExpr Linker LinkTables.
Open Scope Z_scope.

(** ** Pass A over all units *)

(** The contributions of the units to one table. *)
Definition shares_in {A} (own : CompiledModule → list A) (get : NcuOperandMaps → gmap Z Z) (push : UnitPushes → list Z)
    (units : list CompiledModule) (ms : list NcuOperandMaps) (ps : list UnitPushes) : list (list A * gmap Z Z * list Z) :=
  zip_with (λ u mp, (own u, get mp.1, push mp.2)) units (zip ms ps).

Lemma shares_in_snoc {A} (own : CompiledModule → list A) get push units ms ps u m p :
  length ms = length units → length ps = length units →
  shares_in own get push (units ++ [u]) (ms ++ [m]) (ps ++ [p]) = shares_in own get push units ms ps ++ [(own u, get m, push p)].
Proof.
  intros Hm Hp. unfold shares_in. rewrite !zip_with_app; [done| |by rewrite Hm, Hp].
  rewrite length_zip_with, Hm, Hp. lia.
Qed.
Lemma shares_in_lookup {A} (own : CompiledModule → list A) get push units ms ps ui u m p :
  units !! ui = Some u → ms !! ui = Some m → ps !! ui = Some p →
  shares_in own get push units ms ps !! ui = Some (own u, get m, push p).
Proof. intros Hu Hm Hp. unfold shares_in. rewrite !lookup_zip_with, Hu, Hm, Hp. done. Qed.
Lemma shares_in_pushes {A} (own : CompiledModule → list A) get push units ms ps :
  length ms = length units → length ps = length units → (shares_in own get push units ms ps).*2 = push <$> ps.
Proof.
  revert ms ps. induction units as [|u units IH]; intros [|m ms] [|p ps]; try done. intros [= Hm] [= Hp].
  unfold shares_in. cbn [zip_with zip]. rewrite !fmap_cons. f_equal. by apply IH.
Qed.
(** Interfaces have moved rows between the pushes; the other tables do not see it. *)
Lemma shares_in_set_interfaces {A} (own : CompiledModule → list A) get push units ms ps prev :
  (∀ p l, push (set_interfaces p l) = push p) → length prev = length ps →
  shares_in own get push units ms (zip_with set_interfaces ps prev) = shares_in own get push units ms ps.
Proof.
  intros Hp. unfold shares_in. revert ms ps prev. induction units as [|u units IH]; intros [|m ms] [|p ps] [|l prev]; try done.
  intros [= Hl]. cbn [zip_with zip fst snd]. rewrite Hp. f_equal. by apply IH.
Qed.
Lemma shares_in_interfaces units ms ps prev : length ms = length units → length ps = length units → length prev = length ps →
  shares_in mod_interfaces interfaces p_interfaces units ms (zip_with set_interfaces ps prev) =
  with_prev (shares_in mod_interfaces interfaces p_interfaces units ms ps) prev.
Proof.
  unfold shares_in, with_prev. revert ms ps prev. induction units as [|u units IH]; intros [|m ms] [|p ps] [|l prev]; try done.
  intros [= Hm] [= Hp] [= Hl]. cbn [zip_with zip]. f_equal. by apply IH.
Qed.

(** Which merged row stands for a record. *)
Definition same_class (a b : CompiledClass) := cc_name a = cc_name b.
Definition same_struct (a b : CompiledStruct) := st_name a = st_name b.
Definition same_enum (a b : EnumRow) := en_key a = en_key b.
Definition same_function (f g : CompiledFunction) := f = g ∨ ∃ k, stub_key f = Some k ∧ stub_key g = Some k.
Lemma same_function_key f g : same_function f g → stub_key f = stub_key g.
Proof. intros [->|(k & -> & ->)]; done. Qed.
Definition no_key (s : CompiledStaticSlot) : option unit := None.

Record link_inv (units : list CompiledModule) (k : linking) : Prop := {
  li_maps : length (maps k) = length units;
  li_pushes : length (pushes k) = length units;
  li_strings : ∃ shares, shares.*1 = zip_with (λ u m, (mod_stringConstants u, strings m)) units (maps k)
    ∧ merged_table Some (=) (t_strings (merged k)) shares ∧ index_knows Some (t_strings (merged k)) (internedStrings k);
  li_functions : merged_table stub_key same_function (t_functions (merged k))
    (shares_in own_functions functions p_functions units (maps k) (pushes k));
  li_stubs : index_knows stub_key (t_functions (merged k)) (builtinStubs k);
  li_classes : merged_table (Some ∘ cc_name) same_class (t_classes (merged k))
    (shares_in own_classes classes p_classes units (maps k) (pushes k));
  li_structs : merged_table (Some ∘ st_name) same_struct (t_structs (merged k))
    (shares_in own_structs structs p_structs units (maps k) (pushes k));
  li_enums : merged_table (Some ∘ en_key) same_enum (t_enums (merged k))
    (shares_in own_enums enums p_enums units (maps k) (pushes k));
  li_slots : merged_table no_key (=) (t_slots (merged k)) (shares_in own_slots slots p_slots units (maps k) (pushes k));
  li_interfaces : merged_table iface_key iface_R (t_interfaces (merged k))
    (shares_in mod_interfaces interfaces p_interfaces units (maps k) (pushes k));
  li_arrays : t_arrayTypes (merged k) = []
}.

Lemma class_searches : searches (Some ∘ cc_name) same_class (λ rows c, FindClass rows (cc_name c)).
Proof. apply (find_row_searches _ _ (λ c b, cc_name b = cc_name c) cc_name); done. Qed.
Lemma struct_searches : searches (Some ∘ st_name) same_struct (λ rows c, FindStruct rows (st_name c)).
Proof. apply (find_row_searches _ _ (λ c b, st_name b = st_name c) st_name); done. Qed.
Lemma enum_searches : searches (Some ∘ en_key) same_enum (λ rows c, FindEnum rows (en_key c)).
Proof. apply (find_row_searches _ _ (λ c b, en_key b = en_key c) en_key); done. Qed.
Lemma slot_searches : searches no_key (=) (λ _ _, None).
Proof. split; [done|]. intros rows a n b k _ _ [=]. Qed.

Lemma MergeUnit_inv units u k k' : unit_valid u → NoDup (ci_name <$> mod_interfaces u) →
  link_inv units k → MergeUnit k u = Ok k' → link_inv (units ++ [u]) k'.
Proof.
  intros Hv Hnd [Lm Lp (ss & Hss & Hst & Hint) Hf Hstub Hc Hs He Hsl Hi Ha] H. unfold MergeUnit in H.
  destruct (merge_indexed_merged Some (=) (λ _, eq_refl) ltac:(congruence) ltac:(congruence) _ _ (mod_stringConstants u) _ Hst Hint) as [Mst Ist].
  unfold MergeStrings in H. destruct (each_row (merge_indexed Some) _ _ _) as [strs interned].
  unfold MergeClasses, MergeStructs, MergeStaticSlots, MergeFunctions in H. rewrite (MergeEnums_valid _ _ Hv) in H.
  destruct Hv as [_ _ (V1 & V2 & V3 & _ & V5)]. rewrite (own_rows_valid _ _ V1), (own_rows_valid _ _ V2), (own_rows_valid _ _ V3), (own_rows_valid _ _ V5), !bindE in H.
  apply bind_Ok in H as (strcts & Hstr & H). apply bind_Ok in Hstr as (_ & _ & Hstr). injection Hstr as <-. rewrite !bindE in H.
  assert (∀ a b k, stub_key a = Some k → stub_key b = Some k → same_function a b) as HR by (right; eauto).
  destruct (merge_indexed_merged stub_key same_function (λ _, or_introl eq_refl) same_function_key HR _ _ (own_functions u) _ Hf Hstub) as [Mf If].
  destruct (each_row (merge_indexed stub_key) _ _ _) as [fns stubs].
  pose proof (MergeInterfaces_merged u _ _ Hnd Hi) as HM. rewrite shares_in_pushes in HM by done.
  destruct (MergeInterfaces _ _ _) as [ifcs prev]. destruct HM as [Lprev Mi]. cbn [fst snd] in *.
  injection H as <-.
  assert (length prev = length (pushes k)) as Lprev' by (rewrite Lprev; unfold shares_in; rewrite !length_zip_with; lia).
  assert (length (zip_with set_interfaces (pushes k) prev) = length units) as Lz by (rewrite length_zip_with; lia).
  split; cbn [merged maps pushes internedStrings builtinStubs t_strings t_functions t_classes t_structs t_interfaces
              t_arrayTypes t_enums t_slots].
  1,2: rewrite !length_app; simpl; lia.
  - exists (ss ++ [(mod_stringConstants u, row_map strs, pushed strs)]). split_and!; [|done..].
    rewrite fmap_app, Hss, zip_with_app by done. done.
  - rewrite shares_in_snoc, shares_in_set_interfaces by done. exact Mf.
  - exact If.
  - rewrite shares_in_snoc, shares_in_set_interfaces by done. apply merge_own_merged; [done|exact (λ a b E, f_equal Some E)|apply class_searches|done].
  - rewrite shares_in_snoc, shares_in_set_interfaces by done. apply merge_own_merged; [done|exact (λ a b E, f_equal Some E)|apply struct_searches|done].
  - rewrite shares_in_snoc, shares_in_set_interfaces by done. apply merge_own_merged; [done|exact (λ a b E, f_equal Some E)|apply enum_searches|done].
  - rewrite shares_in_snoc, shares_in_set_interfaces by done. apply merge_own_merged; [done|done|apply slot_searches|done].
  - rewrite shares_in_snoc, shares_in_interfaces by done. exact Mi.
  - done.
Qed.

Lemma MergeUnitTables_inv units k : Forall unit_valid units → Forall (λ u, NoDup (ci_name <$> mod_interfaces u)) units →
  MergeUnitTables units = Ok k → link_inv units k.
Proof.
  unfold MergeUnitTables. intros Hval Hnd.
  assert (∀ rest seen k0, Forall unit_valid rest → Forall (λ u, NoDup (ci_name <$> mod_interfaces u)) rest → link_inv seen k0 →
    foldM MergeUnit k0 rest = Ok k → link_inv (seen ++ rest) k) as G.
  { induction rest as [|u rest IH]; intros seen k0 Hvs Hrest Hk0 H; simpl in H; [simplify_eq; by rewrite app_nil_r|].
    apply bind_Ok in H as (k1 & Hu & H). apply list.Forall_cons in Hrest as [Hu' Hrest], Hvs as [Hv Hvs].
    change (u :: rest) with ([u] ++ rest). rewrite app_assoc. eapply IH; [done..| |exact H]. by eapply MergeUnit_inv. }
  intros H. apply (G units [] _ Hval Hnd) in H; [done|]. split; try done; try apply merged_empty.
  - exists []. split_and!; [done|apply merged_empty|apply index_knows_empty].
  - apply index_knows_empty.
Qed.

(** ** Pass B: slot loops *)

(** Problems are only ever added. *)
Definition mono (f : slot_state → outcome slot_state) : Prop := ∀ s s', f s = Ok s' → s'.2 = [] → s.2 = [].
Lemma mono_bind f g : mono f → mono g → mono (λ s, s ← f s; g s).
Proof. intros Hf Hg s s' H E. apply bind_Ok in H as (s1 & H1 & H2). eauto. Qed.
Lemma mono_each_import f imps : (∀ slot imp, mono (f slot imp)) → ∀ slot, mono (each_import f slot imps).
Proof.
  intros Hf. induction imps as [|imp imps IH]; intros slot s s'; simpl; [by intros [= <-]|].
  by apply (mono_bind (f slot imp) (each_import f (slot + 1) imps)).
Qed.
Lemma mono_each_unit f units : (∀ ui u, mono (f ui u)) → ∀ ui, mono (each_unit f ui units).
Proof.
  intros Hf. induction units as [|u units IH]; intros ui s s'; simpl; [by intros [= <-]|].
  by apply (mono_bind (f ui u) (each_unit f (ui + 1) units)).
Qed.
Lemma note_nonempty line s s' : note line s = Ok s' → s'.2 ≠ [].
Proof. intros [= <-]. simpl. by destruct s.2. Qed.
Lemma mono_note line : mono (note line).
Proof. intros s s' H E. by apply note_nonempty in H. Qed.

(** The import slots of a unit filled with what [res] says, all else as it was. *)
Definition filled (base : Z) (imps : list SymbolImport) (res : SymbolImport → option Z) (g g' : gmap Z Z) : Prop :=
  (∀ j imp, imps !! j = Some imp → ∃ n, res imp = Some n ∧ g' !! (base + Z.of_nat j) = Some n) ∧
  (∀ i, i < base ∨ base + size imps ≤ i → g' !! i = g !! i).

(** Access to one of a unit's maps. *)
Record lens (get : NcuOperandMaps → gmap Z Z) (put : NcuOperandMaps → gmap Z Z → NcuOperandMaps) : Prop := {
  get_put : ∀ m g, get (put m g) = g;
  put_put : ∀ m g g', put (put m g) g' = put m g';
  put_get : ∀ m, put m (get m) = m
}.
Lemma lens_functions : lens functions put_functions. Proof. by split; intros []. Qed.
Lemma lens_classes : lens classes put_classes. Proof. by split; intros []. Qed.
Lemma lens_structs : lens structs put_structs. Proof. by split; intros []. Qed.
Lemma lens_enums : lens enums put_enums. Proof. by split; intros []. Qed.
Lemma lens_slots : lens slots put_slots. Proof. by split; intros []. Qed.

Section slot_loop.
Context (get : NcuOperandMaps → gmap Z Z) (put : NcuOperandMaps → gmap Z Z → NcuOperandMaps) (L : lens get put).
Context (ui : nat) (base : Z) (res : SymbolImport → option Z) (f : Z → SymbolImport → slot_state → outcome slot_state).
(** What must hold of all the maps for a step to resolve as [res] says; it does not
    depend on the unit's import slots. *)
Context (I : list NcuOperandMaps → Prop).
Context (I_put : ∀ ms m g, I ms → ms !! ui = Some m → (∀ i, i < base → g !! i = get m !! i) → I (<[ui := put m g]> ms)).
Context (step : ∀ slot imp s s' m, I s.1 → s.1 !! ui = Some m → f slot imp s = Ok s' → s'.2 = [] →
  ∃ n, res imp = Some n ∧ s'.1 = <[ui := put m (<[slot := n]> (get m))]> s.1).
Context (f_mono : ∀ slot imp, mono (f slot imp)).

Lemma each_import_filled imps : ∀ slot s s' m, base ≤ slot → I s.1 → s.1 !! ui = Some m →
  each_import f slot imps s = Ok s' → s'.2 = [] →
  I s'.1 ∧ ∃ g, s'.1 = <[ui := put m g]> s.1 ∧ filled slot imps res (get m) g.
Proof.
  induction imps as [|imp imps IH]; intros slot s s' m Hb HI Hm H E; simpl in H.
  - injection H as <-. split; [done|]. exists (get m). rewrite (put_get _ _ L), list_insert_id by done.
    split; [done|]. split; [by intros j imp|done].
  - apply bind_Ok in H as (s1 & H1 & H). pose proof (mono_each_import f imps f_mono _ _ _ H E) as E1.
    destruct (step _ _ _ _ _ HI Hm H1 E1) as (n & Hn & Hs1).
    apply lookup_lt_Some in Hm as Hlt.
    assert (I s1.1) as HI1.
    { rewrite Hs1. apply I_put; [done..|]. intros i Hi. apply lookup_insert_ne. lia. }
    assert (s1.1 !! ui = Some (put m (<[slot := n]> (get m)))) as Hm1 by (rewrite Hs1; by apply list_lookup_insert_eq).
    destruct (IH (slot + 1) s1 s' _ ltac:(lia) HI1 Hm1 H E) as (HI' & g & Hs' & [Hf Hk]).
    split; [done|]. exists g. rewrite Hs', Hs1, (put_put _ _ L), list_insert_insert_eq. split; [done|].
    rewrite (get_put _ _ L) in Hk. split.
    + intros [|j] imp' Hj; simpl in Hj.
      * injection Hj as <-. exists n. split; [done|]. rewrite Z.add_0_r, Hk by lia. apply lookup_insert_eq.
      * destruct (Hf j imp' Hj) as (n' & ? & Hg). exists n'. split; [done|]. rewrite <- Hg. f_equal. lia.
    + intros i Hi. unfold size in *. simpl in Hi. rewrite Hk by lia. apply lookup_insert_ne. lia.
Qed.
End slot_loop.

(** The loop over the units. *)
Lemma each_unit_slots (f : nat → CompiledModule → slot_state → outcome slot_state) (I : list NcuOperandMaps → Prop)
    (Q : CompiledModule → NcuOperandMaps → NcuOperandMaps → Prop) units :
  (∀ ui u s s' m, units !! ui = Some u → I s.1 → s.1 !! ui = Some m → f ui u s = Ok s' → s'.2 = [] →
     I s'.1 ∧ ∃ m', s'.1 = <[ui := m']> s.1 ∧ Q u m m') →
  (∀ ui u, mono (f ui u)) → ∀ s s', length s.1 = length units → I s.1 → each_unit f 0 units s = Ok s' → s'.2 = [] →
  I s'.1 ∧ length s'.1 = length units ∧
  ∀ ui u m, units !! ui = Some u → s.1 !! ui = Some m → ∃ m', s'.1 !! ui = Some m' ∧ Q u m m'.
Proof.
  intros Hf Hmono. assert (∀ rest seen s s', units = seen ++ rest → length s.1 = length units → I s.1 →
    each_unit f (length seen) rest s = Ok s' → s'.2 = [] →
    I s'.1 ∧ length s'.1 = length units ∧ (∀ ui, (ui < length seen)%nat → s'.1 !! ui = s.1 !! ui) ∧
    ∀ ui u m, (length seen ≤ ui)%nat → units !! ui = Some u → s.1 !! ui = Some m → ∃ m', s'.1 !! ui = Some m' ∧ Q u m m') as G.
  { induction rest as [|u rest IH]; intros seen s s' E Hl HI H Hn; simpl in H.
    - injection H as <-. split_and!; [done..|]. intros ui u m Hui Hu.
      apply lookup_lt_Some in Hu. rewrite E, app_nil_r in Hu. lia.
    - apply bind_Ok in H as (s1 & H1 & H). pose proof (mono_each_unit f rest Hmono _ _ _ H Hn) as Hn1.
      assert (units !! length seen = Some u) as Hu by (rewrite E; by apply list_lookup_middle).
      destruct (lookup_lt_is_Some_2 s.1 (length seen)) as [m Hm]; [rewrite Hl; by eapply lookup_lt_Some|].
      destruct (Hf _ _ _ _ _ Hu HI Hm H1 Hn1) as (HI1 & m1 & Hs1 & HQ).
      destruct (IH (seen ++ [u]) s1 s') as (HI' & Hl' & Hbefore & Hafter);
        [by rewrite <- app_assoc|by rewrite Hs1, length_insert|done|by rewrite length_app|done|].
      rewrite length_app in Hbefore, Hafter. simpl in *. split_and!; [done..| |].
      + intros ui Hui. rewrite Hbefore, Hs1 by lia. apply list_lookup_insert_ne. lia.
      + intros ui u' m' Hui Hu' Hm'. destruct (decide (ui = length seen)) as [->|Hne].
        * rewrite Hbefore, Hs1, list_lookup_insert_eq by (lia || by eapply lookup_lt_Some). naive_solver.
        * apply Hafter; [lia|done|]. by rewrite Hs1, list_lookup_insert_ne by done. }
  intros s s' Hl HI H Hn. destruct (G units [] s s' eq_refl Hl HI H Hn) as (? & ? & _ & HQ).
  split_and!; [done..|]. intros ui u m. apply HQ. simpl. lia.
Qed.

(** *** What a resolution found *)

(** The record at [hit] when a resolution has exactly one candidate. *)
Definition good_hit (tgt : CompiledModule) (P : CompiledFunction → Prop) (r : FunctionSlotHit) : Prop :=
  (0 < hits r)%nat → ∃ f, own_functions tgt !! Z.to_nat (hit r) = Some f ∧ P f.
Definition signature_of (imp : SymbolImport) (f : CompiledFunction) : Prop :=
  func_name f = imp_name imp ∧ func_paramCount f = imp_paramCount imp ∧ func_isStatic f = imp_isStatic imp.
Lemma same_signature_iff imp f : same_signature imp f = true ↔ signature_of imp f.
Proof. apply bool_decide_eq_true. Qed.

Lemma good_no_hit tgt P : good_hit tgt P no_hit. Proof. intros H. simpl in H. lia. Qed.
Lemma good_one_hit tgt (P : CompiledFunction → Prop) k f : own_functions tgt !! Z.to_nat k = Some f → P f → good_hit tgt P (one_hit k).
Proof. intros Hf HP _. by exists f. Qed.
Lemma good_count tgt (P : CompiledFunction → Prop) k f r : good_hit tgt P r → (hit r < 0 ∨ (0 < hits r)%nat) →
  own_functions tgt !! Z.to_nat k = Some f → P f → good_hit tgt P (count_hit k r).
Proof. intros Hr Hor Hf HP _. unfold count_hit. simpl. case_decide; [by exists f|]. apply Hr. lia. Qed.

Lemma ResolveNamespaced_good tgt imp : good_hit tgt (signature_of imp) (ResolveNamespacedFunction tgt imp).
Proof.
  unfold ResolveNamespacedFunction. case_decide.
  - destruct (_ !! _) as [f|] eqn:Hf; [|by intros ?%Nat.lt_irrefl]. destruct (same_signature imp f) eqn:Hs; [|by intros ?%Nat.lt_irrefl].
    eapply good_one_hit; [exact Hf|by apply same_signature_iff].
  - apply (each_row_ind _ (λ seen r, good_hit tgt (signature_of imp) r ∧ (hit r < 0 ∨ (0 < hits r)%nat)));
      [|split; [apply good_no_hit|by left]].
    intros seen f rest r E [Hr Hor]. destruct (same_signature imp f) eqn:Hs; [|done].
    split; [|right; simpl; lia]. apply (good_count _ _ _ f); [done..| |by apply same_signature_iff].
    unfold size. rewrite Nat2Z.id, E. by apply list_lookup_middle.
Qed.
Lemma nth_method_good tgt tc imp mis : ∀ ordinal, good_hit tgt (signature_of imp) (nth_method tgt tc imp ordinal mis).
Proof.
  induction mis as [|mi mis IH]; intros ordinal; simpl; [apply good_no_hit|].
  destruct (_ !! _) as [f|] eqn:Hf; [|apply IH]. destruct (IsCtorMethodEntry tc mi); [apply IH|].
  case_decide; [apply IH|]. destruct (same_signature imp f) eqn:Hs; [|apply good_no_hit].
  eapply good_one_hit; [exact Hf|by apply same_signature_iff].
Qed.
Lemma scan_methods_good tgt imp mis : good_hit tgt (signature_of imp) (scan_methods tgt imp mis).
Proof.
  unfold scan_methods. assert (∀ r, good_hit tgt (signature_of imp) r → (hit r < 0 ∨ (0 < hits r)%nat) →
    good_hit tgt (signature_of imp) (foldl (λ r mi, match own_functions tgt !! Z.to_nat mi with
      | Some f => if same_signature imp f then count_hit mi r else r | None => r end) r mis)) as G;
    [|apply G; [apply good_no_hit|by left]].
  induction mis as [|mi mis IH]; intros r Hr Hor; simpl; [done|].
  destruct (_ !! _) as [f|] eqn:Hf; [|by apply IH]. destruct (same_signature imp f) eqn:Hs; [|by apply IH].
  apply IH; [|right; simpl; lia]. eapply good_count; [done..|by apply same_signature_iff].
Qed.

(** An import of a constructor: the owner's own name, not static. *)
Definition constructor_import (imp : SymbolImport) : Prop :=
  imp_ownerClassKey imp ≠ [] ∧ imp_isStatic imp = false ∧ imp_name imp = bare_name [] (imp_ownerClassKey imp).
(** The function an import may be resolved to. *)
Definition import_matches (imp : SymbolImport) (f : CompiledFunction) : Prop :=
  signature_of imp f ∨ constructor_import imp ∧ func_paramCount f = imp_paramCount imp.

Lemma good_impl tgt (P Q : CompiledFunction → Prop) r : good_hit tgt P r → (∀ f, P f → Q f) → good_hit tgt Q r.
Proof. intros Hr HPQ Hh. destruct (Hr Hh) as (f & ? & ?). exists f. auto. Qed.
Lemma resolve_function_good tgt imp : good_hit tgt (import_matches imp) (resolve_function tgt imp).
Proof.
  unfold resolve_function. case_decide as Hkey.
  { eapply good_impl; [apply ResolveNamespaced_good|]. by left. }
  unfold ResolveOwnerKeyedFunction. destruct (FindOwnerType tgt imp) as [o|]; [|apply good_no_hit].
  change (good_hit tgt (import_matches imp) (found_owner ?r)) with (good_hit tgt (import_matches imp) r).
  case_decide as Hm.
  - destruct o as [tc|]; [|apply good_no_hit]. eapply good_impl; [|by left].
    unfold ResolveMethodRecord. case_decide; [apply nth_method_good|apply scan_methods_good].
  - unfold ResolveConstructor. case_decide; [|apply good_no_hit].
    destruct (constructors_of o !! _) as [ci|]; [|apply good_no_hit].
    destruct (own_functions tgt !! _) as [f|] eqn:Hf; [|apply good_no_hit].
    case_decide as Hc; [|apply good_no_hit]. eapply good_one_hit; [exact Hf|]. right. split; [|apply Hc].
    apply Decidable.not_or in Hm as [Hst Hname]. split_and!; [done|by apply not_true_iff_false|].
    by apply dec_stable.
Qed.

(** *** The three passes *)
Definition fn_target (units : list CompiledModule) (ms : list NcuOperandMaps) (imp : SymbolImport) : option Z :=
  owner ← unitOf units (imp_modulePath imp); tgt ← units !! owner; mo ← ms !! owner;
  let r := resolve_function tgt imp in if decide (hits r = 1%nat) then functions mo !! hit r else None.
Definition slot_target (units : list CompiledModule) (ms : list NcuOperandMaps) (imp : SymbolImport) : option Z :=
  owner ← unitOf units (imp_modulePath imp); tgt ← units !! owner; mo ← ms !! owner;
  row ← own_slots tgt !! Z.to_nat (imp_ownerOrdinal imp);
  if decide (slot_name row = imp_name imp ∧ slot_ownerKey row = imp_ownerClassKey imp) then slots mo !! imp_ownerOrdinal imp else None.

(** The own part of every map is as in [ms0]. *)
Definition own_kept (get : NcuOperandMaps → gmap Z Z) (own_n : CompiledModule → Z) (units : list CompiledModule)
    (ms0 ms : list NcuOperandMaps) : Prop :=
  ∀ ui u m0 m i, units !! ui = Some u → ms0 !! ui = Some m0 → ms !! ui = Some m → i < own_n u → get m !! i = get m0 !! i.
Lemma own_kept_put get put own_n units ms0 ui u ms m g : lens get put → units !! ui = Some u → own_kept get own_n units ms0 ms →
  ms !! ui = Some m → (∀ i, i < own_n u → g !! i = get m !! i) → own_kept get own_n units ms0 (<[ui := put m g]> ms).
Proof.
  intros L Hu HI Hm Hg uj u' m0 mj i Hu' Hm0 Hmj Hi. apply lookup_lt_Some in Hm as Hlt.
  destruct (decide (uj = ui)) as [->|Hne].
  - rewrite list_lookup_insert_eq in Hmj by done. simplify_eq. rewrite (get_put _ _ L), Hg by done. by eapply HI.
  - rewrite list_lookup_insert_ne in Hmj by done. by eapply HI.
Qed.

Definition fn_own (u : CompiledModule) : Z := own_count (mod_functions u) (mod_functionImports u).
Definition slot_own (u : CompiledModule) : Z := own_count (mod_staticSlots u) (mod_staticSlotImports u).
Lemma mono_insert ui m (s s' : slot_state) : (<[ui := m]> s.1, s.2) = s' → s'.2 = [] → s.2 = [].
Proof. by intros <-. Qed.
Lemma ResolveFunctionSlot_mono units ui u slot imp : mono (ResolveFunctionSlot units ui u slot imp).
Proof.
  intros s s' H E. unfold ResolveFunctionSlot in H. destruct (unitOf _ _); [|by eapply mono_note].
  monad_inv. case_match; [by eapply mono_note|]. case_match; [|by eapply mono_note]. monad_inv. done.
Qed.
Lemma ResolveFunctionSlot_step units ms0 ui u slot imp s s' m :
  units !! ui = Some u → length ms0 = length units → own_kept functions fn_own units ms0 s.1 → s.1 !! ui = Some m →
  ResolveFunctionSlot units ui u slot imp s = Ok s' → s'.2 = [] →
  ∃ n, fn_target units ms0 imp = Some n ∧ s'.1 = <[ui := put_functions m (<[slot := n]> (functions m))]> s.1.
Proof.
  intros Hu Hlen HI Hm H E. unfold ResolveFunctionSlot in H. unfold fn_target.
  destruct (unitOf _ _) as [owner|]; [|by apply note_nonempty in H].
  apply bind_Ok in H as (tgt & Htgt%deref_Ok & H). apply bind_Ok in H as (? & _ & H).
  pose proof (resolve_function_good tgt imp) as Hg. unfold good_hit in Hg.
  destruct (hits (resolve_function tgt imp)) as [|[|]] eqn:Hh;
    [by apply note_nonempty in H| |by apply note_nonempty in H].
  apply bind_Ok in H as (mo & Hmo%deref_Ok & H). apply bind_Ok in H as (m' & Hm'%deref_Ok & H).
  apply bind_Ok in H as (n & Hn%deref_Ok & [= <-]). simplify_eq.
  destruct (Hg ltac:(lia)) as (f & Hf & _). apply own_lookup_lt in Hf.
  destruct (lookup_lt_is_Some_2 ms0 owner) as [m0 Hm0]; [rewrite Hlen; by eapply lookup_lt_Some|].
  cbn [mbind option_bind]. rewrite Htgt. cbn [mbind option_bind]. rewrite Hm0. cbn [mbind option_bind].
  rewrite decide_True by done. exists n. split; [|done].
  rewrite <- Hn. symmetry. by eapply HI.
Qed.

Lemma ResolveTypeSlot_mono kind find get put ui u slot imp : mono (ResolveTypeSlot kind find get put ui u slot imp).
Proof.
  intros s s' H E. unfold ResolveTypeSlot in H. destruct (find _); [|by eapply mono_note].
  by apply bind_Ok in H as (m & _ & [= <-]).
Qed.
Lemma ResolveTypeSlot_step kind find get put ui u slot imp s s' m : s.1 !! ui = Some m →
  ResolveTypeSlot kind find get put ui u slot imp s = Ok s' → s'.2 = [] →
  ∃ n, find (imp_name imp) = Some n ∧ s'.1 = <[ui := put m (<[slot := n]> (get m))]> s.1.
Proof.
  intros Hm H E. unfold ResolveTypeSlot in H. destruct (find _) as [n|]; [|by apply note_nonempty in H].
  apply bind_Ok in H as (m' & Hm'%deref_Ok & [= <-]). simplify_eq. by exists n.
Qed.
Lemma ResolveStaticSlotSlot_mono units ui u slot imp : mono (ResolveStaticSlotSlot units ui u slot imp).
Proof.
  intros s s' H E. unfold ResolveStaticSlotSlot in H. destruct (unitOf _ _); [|by eapply mono_note].
  apply bind_Ok in H as (tgt & _ & H). apply bind_Ok in H as (? & _ & H). destruct (_ !! _); [|by eapply mono_note].
  case_decide; [|by eapply mono_note]. monad_inv. done.
Qed.
Lemma ResolveStaticSlotSlot_step units ms0 ui u slot imp s s' m :
  units !! ui = Some u → length ms0 = length units → own_kept slots slot_own units ms0 s.1 → s.1 !! ui = Some m →
  ResolveStaticSlotSlot units ui u slot imp s = Ok s' → s'.2 = [] →
  ∃ n, slot_target units ms0 imp = Some n ∧ s'.1 = <[ui := put_slots m (<[slot := n]> (slots m))]> s.1.
Proof.
  intros Hu Hlen HI Hm H E. unfold ResolveStaticSlotSlot in H. unfold slot_target.
  destruct (unitOf _ _) as [owner|]; [|by apply note_nonempty in H].
  apply bind_Ok in H as (tgt & Htgt%deref_Ok & H). apply bind_Ok in H as (? & _ & H).
  destruct (own_slots tgt !! _) as [row|] eqn:Hrow; [|by apply note_nonempty in H].
  destruct (decide _) as [Hd|] in H; [|by apply note_nonempty in H].
  apply bind_Ok in H as (mo & Hmo%deref_Ok & H). apply bind_Ok in H as (m' & Hm'%deref_Ok & H).
  apply bind_Ok in H as (n & Hn%deref_Ok & [= <-]). simplify_eq.
  apply own_lookup_lt in Hrow as Hlt.
  destruct (lookup_lt_is_Some_2 ms0 owner) as [m0 Hm0]; [rewrite Hlen; by eapply lookup_lt_Some|].
  cbn [mbind option_bind]. rewrite Htgt. cbn [mbind option_bind]. rewrite Hm0. cbn [mbind option_bind].
  rewrite Hrow. cbn [mbind option_bind]. rewrite decide_True by done. exists n. split; [|done].
  rewrite <- Hn. symmetry. by eapply HI.
Qed.

(** The maps of a unit before ([m]) and after ([m']) the three passes. *)
Record slots_resolved (units : list CompiledModule) (t : Tables) (ms0 : list NcuOperandMaps) (u : CompiledModule)
    (m m' : NcuOperandMaps) : Prop := {
  sr_functions : filled (fn_own u) (mod_functionImports u) (fn_target units ms0) (functions m) (functions m');
  sr_classes : filled (own_count (mod_classes u) (mod_classImports u)) (mod_classImports u)
    (λ imp, FindClass (t_classes t) (imp_name imp)) (classes m) (classes m');
  sr_structs : filled (own_count (mod_structs u) (mod_structImports u)) (mod_structImports u)
    (λ imp, FindStruct (t_structs t) (imp_name imp)) (structs m) (structs m');
  sr_enums : filled (own_count (mod_enumNames u) (mod_enumImports u)) (mod_enumImports u)
    (λ imp, FindEnum (t_enums t) (imp_name imp)) (enums m) (enums m');
  sr_slots : filled (slot_own u) (mod_staticSlotImports u) (slot_target units ms0) (slots m) (slots m');
  sr_rest : strings m' = strings m ∧ interfaces m' = interfaces m ∧ arrayTypes m' = arrayTypes m
}.

Lemma function_pass units ms0 s s' : length ms0 = length units → s.1 = ms0 →
  ResolveFunctionSlots units s = Ok s' → s'.2 = [] → length s'.1 = length units ∧
  ∀ ui u m, units !! ui = Some u → ms0 !! ui = Some m → ∃ g, s'.1 !! ui = Some (put_functions m g) ∧
    filled (fn_own u) (mod_functionImports u) (fn_target units ms0) (functions m) g.
Proof.
  intros Hlen <- H E.
  destruct (each_unit_slots (λ ui u, each_import (ResolveFunctionSlot units ui u) (fn_own u) (mod_functionImports u))
    (own_kept functions fn_own units s.1) (λ u m m', ∃ g, m' = put_functions m g ∧
       filled (fn_own u) (mod_functionImports u) (fn_target units s.1) (functions m) g) units) with (s := s) (s' := s') as (_ & Hl & HQ); try done.
  - intros ui u s1 s2 m Hu HI Hm H1 E1.
    destruct (each_import_filled functions put_functions lens_functions ui (fn_own u) (fn_target units s.1)
      (ResolveFunctionSlot units ui u) (own_kept functions fn_own units s.1)) with (s := s1) (s' := s2) (slot := fn_own u) (m := m)
      (imps := mod_functionImports u) as (HI' & g & Hg & Hf); try done.
    + intros ms mm g. by apply own_kept_put, Hu; apply lens_functions.
    + intros. by eapply ResolveFunctionSlot_step.
    + apply ResolveFunctionSlot_mono.
    + split; [done|]. eexists. split; [exact Hg|]. by exists g.
  - intros. apply mono_each_import. intros. apply ResolveFunctionSlot_mono.
  - intros ui u m0 m i _ Hm0 Hm. by simplify_eq.
  - split; [done|]. intros ui u m Hu Hm. destruct (HQ ui u m Hu Hm) as (m' & Hm' & g & -> & Hf). by exists g.
Qed.

Lemma type_import kind find get put ui u slot imps s s' m : lens get put → s.1 !! ui = Some m →
  each_import (ResolveTypeSlot kind find get put ui u) slot imps s = Ok s' → s'.2 = [] →
  ∃ g, s'.1 = <[ui := put m g]> s.1 ∧ filled slot imps (λ imp, find (imp_name imp)) (get m) g.
Proof.
  intros L Hm H E. destruct (each_import_filled get put L ui slot (λ imp, find (imp_name imp))
    (ResolveTypeSlot kind find get put ui u) (λ _, True)) with (s := s) (s' := s') (slot := slot) (m := m) (imps := imps)
    as (_ & g & Hg & Hf); try done.
  - intros. by eapply ResolveTypeSlot_step.
  - apply ResolveTypeSlot_mono.
  - by exists g.
Qed.
Lemma type_imports_mono kind find get put ui u slot imps : mono (each_import (ResolveTypeSlot kind find get put ui u) slot imps).
Proof. apply mono_each_import. intros. apply ResolveTypeSlot_mono. Qed.

Definition types_filled (t : Tables) (u : CompiledModule) (m : NcuOperandMaps) (gc gs ge : gmap Z Z) : Prop :=
  filled (own_count (mod_classes u) (mod_classImports u)) (mod_classImports u)
    (λ imp, FindClass (t_classes t) (imp_name imp)) (classes m) gc ∧
  filled (own_count (mod_structs u) (mod_structImports u)) (mod_structImports u)
    (λ imp, FindStruct (t_structs t) (imp_name imp)) (structs m) gs ∧
  filled (own_count (mod_enumNames u) (mod_enumImports u)) (mod_enumImports u)
    (λ imp, FindEnum (t_enums t) (imp_name imp)) (enums m) ge.

Lemma type_pass units t s s' : length s.1 = length units → ResolveTypeSlots units t s = Ok s' → s'.2 = [] →
  length s'.1 = length units ∧ ∀ ui u m, units !! ui = Some u → s.1 !! ui = Some m →
  ∃ gc gs ge, s'.1 !! ui = Some (put_enums (put_structs (put_classes m gc) gs) ge) ∧ types_filled t u m gc gs ge.
Proof.
  intros Hlen H E. unfold ResolveTypeSlots in H.
  match type of H with each_unit ?F _ _ _ = _ => set (pass := F) in H end.
  destruct (each_unit_slots pass (λ _, True) (λ u m m', ∃ gc gs ge, m' = put_enums (put_structs (put_classes m gc) gs) ge ∧
    types_filled t u m gc gs ge) units) with (5 := H) as (_ & Hl & HQ); [| |done..|].
  - intros ui u s1 s4 m Hu _ Hm H1 E4. split; [done|].
    apply bind_Ok in H1 as (s2 & H1 & H2). apply bind_Ok in H2 as (s3 & H2 & H3).
    pose proof (type_imports_mono _ _ _ _ _ _ _ _ _ _ H3 E4) as E3.
    pose proof (type_imports_mono _ _ _ _ _ _ _ _ _ _ H2 E3) as E2.
    apply lookup_lt_Some in Hm as Hlt.
    destruct (type_import _ _ _ _ _ _ _ _ _ _ m lens_classes Hm H1 E2) as (gc & Hs2 & Fc).
    assert (s2.1 !! ui = Some (put_classes m gc)) as Hm2 by (rewrite Hs2; by apply list_lookup_insert_eq).
    destruct (type_import _ _ _ _ _ _ _ _ _ _ _ lens_structs Hm2 H2 E3) as (gs & Hs3 & Fs).
    assert (s3.1 !! ui = Some (put_structs (put_classes m gc) gs)) as Hm3
      by (rewrite Hs3, Hs2, list_insert_insert_eq; by apply list_lookup_insert_eq).
    destruct (type_import _ _ _ _ _ _ _ _ _ _ _ lens_enums Hm3 H3 E4) as (ge & Hs4 & Fe).
    eexists. split; [by rewrite Hs4, Hs3, Hs2, !list_insert_insert_eq|]. by exists gc, gs, ge.
  - intros ui u. apply (mono_bind _ (λ s, _ ← _; _)); [apply type_imports_mono|].
    apply mono_bind; apply type_imports_mono.
  - split; [done|]. intros ui u m Hu Hm. destruct (HQ ui u m Hu Hm) as (m' & Hm' & gc & gs & ge & -> & ?). by exists gc, gs, ge.
Qed.

Lemma slot_pass units s s' : length s.1 = length units →
  ResolveStaticSlotSlots units s = Ok s' → s'.2 = [] → length s'.1 = length units ∧
  ∀ ui u m, units !! ui = Some u → s.1 !! ui = Some m → ∃ g, s'.1 !! ui = Some (put_slots m g) ∧
    filled (slot_own u) (mod_staticSlotImports u) (slot_target units s.1) (slots m) g.
Proof.
  intros Hlen H E. unfold ResolveStaticSlotSlots in H.
  match type of H with each_unit ?F _ _ _ = _ => set (pass := F) in H end.
  destruct (each_unit_slots pass
    (own_kept slots slot_own units s.1) (λ u m m', ∃ g, m' = put_slots m g ∧
       filled (slot_own u) (mod_staticSlotImports u) (slot_target units s.1) (slots m) g) units) with (5 := H) as (_ & Hl & HQ);
    [| |done| |done|].
  - intros ui u s1 s2 m Hu HI Hm H1 E1.
    destruct (each_import_filled slots put_slots lens_slots ui (slot_own u) (slot_target units s.1)
      (ResolveStaticSlotSlot units ui u) (own_kept slots slot_own units s.1)) with (s := s1) (s' := s2) (slot := slot_own u) (m := m)
      (imps := mod_staticSlotImports u) as (HI' & g & Hg & Hf); try done.
    + intros ms mm g. by apply own_kept_put, Hu; apply lens_slots.
    + intros. by eapply ResolveStaticSlotSlot_step.
    + apply ResolveStaticSlotSlot_mono.
    + split; [done|]. eexists. split; [exact Hg|]. by exists g.
  - intros. apply mono_each_import. intros. apply ResolveStaticSlotSlot_mono.
  - intros ui u m0 m i _ Hm0 Hm. by simplify_eq.
  - split; [done|]. intros ui u m Hu Hm. destruct (HQ ui u m Hu Hm) as (m' & Hm' & g & -> & Hf). by exists g.
Qed.

(** The targets of static slots depend on the slot maps only. *)
Lemma slot_target_ext units ms ms' imp :
  (∀ ui m, ms !! ui = Some m → ∃ m', ms' !! ui = Some m' ∧ slots m' = slots m) → length ms' = length ms →
  slot_target units ms imp = slot_target units ms' imp.
Proof.
  intros Hms Hl. unfold slot_target. destruct (unitOf _ _) as [o|]; [|done]. cbn [mbind option_bind].
  destruct (units !! o); [|done]. cbn [mbind option_bind]. destruct (ms !! o) as [m|] eqn:Hm.
  - destruct (Hms o m Hm) as (m' & -> & Hs). cbn [mbind option_bind]. by rewrite Hs.
  - apply lookup_ge_None in Hm. rewrite <- Hl in Hm. apply lookup_ge_None in Hm. by rewrite Hm.
Qed.

Lemma NcuResolveSlots_filled units t ms0 ms : length ms0 = length units →
  NcuResolveSlots units t (ms0, []) = Ok (ms, []) → length ms = length units ∧
  ∀ ui u m, units !! ui = Some u → ms0 !! ui = Some m → ∃ m', ms !! ui = Some m' ∧ slots_resolved units t ms0 u m m'.
Proof.
  intros Hlen H. unfold NcuResolveSlots in H. apply bind_Ok in H as (s1 & H1 & H). apply bind_Ok in H as (s2 & H2 & H3).
  assert (s2.2 = []) as E2.
  { eapply (mono_each_unit _ _); [|exact H3|done]. intros. apply mono_each_import. intros. apply ResolveStaticSlotSlot_mono. }
  assert (s1.2 = []) as E1.
  { eapply (mono_each_unit _ _); [|exact H2|done]. intros ui u. apply (mono_bind _ (λ s, _ ← _; _)); [apply type_imports_mono|].
    apply mono_bind; apply type_imports_mono. }
  destruct (function_pass units ms0 (ms0, []) s1 Hlen eq_refl H1 E1) as [L1 P1].
  destruct (type_pass units t _ _ L1 H2 E2) as [L2 P2]. destruct (slot_pass units _ _ L2 H3 eq_refl) as [L3 P3].
  split; [done|]. intros ui u m Hu Hm. destruct (P1 _ _ _ Hu Hm) as (gf & Hm1 & Ff).
  destruct (P2 _ _ _ Hu Hm1) as (gc & gs & ge & Hm2 & Fc & Fs & Fe). destruct (P3 _ _ _ Hu Hm2) as (gl & Hm3 & Fl).
  eexists. split; [exact Hm3|]. split; try done.
  destruct Fl as [Fl1 Fl2]. split; [|done]. intros j imp Hj. destruct (Fl1 j imp Hj) as (n & Hn & Hg). exists n.
  split; [|done]. rewrite <- Hn. apply slot_target_ext; [|by rewrite L2, Hlen].
  intros uj mj Hmj. destruct (lookup_lt_is_Some_2 units uj) as [u' Hu']; [rewrite <- Hlen; by eapply lookup_lt_Some|].
  destruct (P1 _ _ _ Hu' Hmj) as (? & Hmj1 & _). destruct (P2 _ _ _ Hu' Hmj1) as (? & ? & ? & Hmj2 & _). by eexists.
Qed.
