(* ===== verification/LinkFinal.v ===== *)
(** * Pass C of the linker: every pushed row is rewritten once

    After the loop over the units each merged row is the remap, through the final maps of
    the unit that pushed it, of the record that unit pushed; the array types, which only
    this pass merges, satisfy the invariant of [LinkTables]. *)
From S2P Require Import Prelude.
From S2P Require Import Bytecode Remap Package Prims TypeDesc ModuleRecords DefaultExpr Linker LinkTables LinkMerge.
Open Scope Z_scope.

Lemma remap_pushed_spec {A} (f : A → outcome A) idxs : ∀ rows rows', NoDup idxs → Forall (λ i, 0 ≤ i) idxs →
  remap_pushed f idxs rows = Ok rows' → length rows' = length rows ∧
  (∀ n, Z.of_nat n ∈ idxs → ∃ r r', rows !! n = Some r ∧ f r = Ok r' ∧ rows' !! n = Some r') ∧
  (∀ n, Z.of_nat n ∉ idxs → rows' !! n = rows !! n).
Proof.
  unfold remap_pushed. induction idxs as [|i idxs IH]; intros rows rows' Hnd Hpos H; simpl in H.
  { injection H as <-. split_and!; [done|by intros n ?%elem_of_nil|done]. }
  apply bind_Ok in H as (rows1 & H1 & H). apply bind_Ok in H1 as (r & Hr%deref_Ok & H1).
  apply bind_Ok in H1 as (r' & Hf & [= <-]).
  apply list.NoDup_cons in Hnd as [Hi Hnd]. apply list.Forall_cons in Hpos as [Hi0 Hpos].
  destruct (IH _ _ Hnd Hpos H) as (Hlen & Hin & Hout). rewrite length_insert in Hlen. apply lookup_lt_Some in Hr as Hlt.
  split_and!; [done| |].
  - intros n [<-|Hn]%elem_of_cons.
    + rewrite Nat2Z.id in *. exists r, r'. split_and!; [done..|]. rewrite Hout by done. by apply list_lookup_insert_eq.
    + destruct (Hin n Hn) as (q & q' & Hq & ?). exists q, q'. rewrite list_lookup_insert_ne in Hq by (intros E; apply Hi; by rewrite <- (Z2Nat.id i), E by done).
      done.
  - intros n [Hne Hn]%not_elem_of_cons. rewrite Hout by done. apply list_lookup_insert_ne. lia.
Qed.

(** ** One table half way *)
Section table.
Context {A : Type} (f : NcuOperandMaps → A → outcome A) (push : UnitPushes → list Z) (ps : list UnitPushes) (orig : list A).
Context (once : concat (push <$> ps) ≡ₚ Z.of_nat <$> seq 0 (length orig)).

(** The units before [k] have rewritten what they pushed. *)
Definition half (k : nat) (ms : list NcuOperandMaps) (rows : list A) : Prop :=
  length rows = length orig ∧ ∀ uj p n, ps !! uj = Some p → Z.of_nat n ∈ push p →
    ((uj < k)%nat → ∃ r r' m, orig !! n = Some r ∧ ms !! uj = Some m ∧ f m r = Ok r' ∧ rows !! n = Some r') ∧
    ((k ≤ uj)%nat → rows !! n = orig !! n).

Lemma once_NoDup : NoDup (concat (push <$> ps)).
Proof. rewrite once. apply NoDup_fmap; [apply _|apply NoDup_seq]. Qed.
Lemma once_same uj uk p q x : ps !! uj = Some p → ps !! uk = Some q → x ∈ push p → x ∈ push q → uj = uk.
Proof.
  pose proof once_NoDup as Hnd. clear once. revert uj uk. induction ps as [|r rs IH]; intros uj uk; [done|].
  rewrite fmap_cons in Hnd. cbn [concat] in Hnd. apply list.NoDup_app in Hnd as (_ & Hd & Hnd).
  assert (∀ u q, rs !! u = Some q → x ∈ push q → x ∈ concat (push <$> rs)) as Hin.
  { intros u q' Hu Hx. apply list_elem_of_In, in_concat. exists (push q'). split; [|by apply list_elem_of_In].
    apply in_map. apply list_elem_of_In. by eapply list_elem_of_lookup_2. }
  destruct uj as [|uj], uk as [|uk]; simpl; intros Hp Hq Hxp Hxq; simplify_eq; [done|..].
  - by destruct (Hd x Hxp); eapply Hin.
  - by destruct (Hd x Hxq); eapply Hin.
  - f_equal. by eapply IH.
Qed.
Lemma once_push uj p : ps !! uj = Some p → NoDup (push p) ∧ Forall (λ i, 0 ≤ i) (push p).
Proof.
  intros Hp. apply list_elem_of_split_length in Hp as (l1 & l2 & E & _). pose proof once_NoDup as Hnd. pose proof once as Ho.
  rewrite E, fmap_app, fmap_cons, concat_app in Hnd, Ho. cbn [concat] in *. split.
  - apply list.NoDup_app in Hnd as (_ & _ & Hnd). by apply list.NoDup_app in Hnd as [Hnd _].
  - apply list.Forall_forall. intros x Hx. assert (x ∈ Z.of_nat <$> seq 0 (length orig)) as Hs.
    { rewrite <- Ho. apply elem_of_app. right. apply elem_of_app. by left. }
    apply list_elem_of_fmap in Hs as (n & -> & _). lia.
Qed.

Lemma half_start ms : half 0 ms orig.
Proof. split; [done|]. intros uj p n _ _. split; [lia|done]. Qed.
Lemma half_step k ms m rows rows' p : half k ms rows → ps !! k = Some p → (k < length ms)%nat →
  remap_pushed (f m) (push p) rows = Ok rows' → half (S k) (<[k := m]> ms) rows'.
Proof.
  intros [Hlen Hh] Hp Hk H. destruct (once_push k p Hp) as [Hnd Hpos].
  destruct (remap_pushed_spec _ _ _ _ Hnd Hpos H) as (Hl & Hin & Hout). split; [congruence|].
  intros uj q n Hq Hn. destruct (Hh uj q n Hq Hn) as [Hbefore Hafter]. split; intros Hu.
  - destruct (decide (uj = k)) as [->|Hne].
    + simplify_eq. destruct (Hin n Hn) as (r & r' & Hr & Hf & Hr'). rewrite Hafter in Hr by lia.
      exists r, r', m. split_and!; [done|by apply list_lookup_insert_eq|done..].
    + destruct Hbefore as (r & r' & mj & ? & ? & ? & ?); [lia|]. exists r, r', mj.
      rewrite list_lookup_insert_ne by done. split_and!; [done..|].
      rewrite Hout; [done|]. intros Hn'. apply Hne. by eapply once_same.
  - rewrite Hout; [apply Hafter; lia|]. intros Hn'. assert (uj = k) by (by eapply once_same). lia.
Qed.
End table.

(** ** Array types *)
Definition at_key (a : CompiledArrayType) : option CompiledArrayType := Some a.
Lemma FindArray_searches : searches at_key (=) FindArray.
Proof.
  apply (find_row_searches at_key (=) (λ a b, at_elemKind b = at_elemKind a ∧ at_elemTypeIdx b = at_elemTypeIdx a ∧ at_rank b = at_rank a) id);
    [done| |].
  - intros [] [] (? & ? & ?). simpl in *. congruence.
  - intros a b E. unfold id in E. by subst.
Qed.
Lemma RemapArrayType_arrays m g a : RemapArrayType (put_arrayTypes m g) a = RemapArrayType m a.
Proof. done. Qed.

Record arrays_half (units : list CompiledModule) (k : nat) (ms : list NcuOperandMaps) (rows : list CompiledArrayType)
    (shares : list (list CompiledArrayType * gmap Z Z * list Z)) : Prop := {
  ah_table : merged_table at_key (=) rows shares;
  ah_length : length shares = k;
  ah_share : ∀ uj s, shares !! uj = Some s → ∃ u m, units !! uj = Some u ∧ ms !! uj = Some m ∧
    mapM (RemapArrayType m) (mod_arrayTypes u) = Ok s.1.1 ∧ arrayTypes m = s.1.2
}.
Lemma arrays_step units k ms rows shares u m s : arrays_half units k ms rows shares → units !! k = Some u → (k < length ms)%nat →
  MergeArrayTypes u rows m = Ok s →
  ∃ shares', arrays_half units (S k) (<[k := put_arrayTypes m (row_map s)]> ms) (Linker.rows s) shares'.
Proof.
  intros [Ht Hl Hs] Hu Hk H. apply bind_Ok in H as (ats & Hats & [= <-]).
  exists (shares ++ [(ats, row_map (merge_own FindArray rows ats), pushed (merge_own FindArray rows ats))]). split.
  - apply merge_own_merged; [done|by intros ?? ->|apply FindArray_searches|done].
  - rewrite length_app, Hl. simpl. lia.
  - intros uj sh [Hj|[Hge Hj]]%lookup_app_Some.
    + apply lookup_lt_Some in Hj as Hlt. rewrite list_lookup_insert_ne by lia. by apply Hs.
    + apply list_lookup_singleton_Some in Hj as [Hz <-]. assert (uj = k) as -> by lia.
      exists u, (put_arrayTypes m (row_map (merge_own FindArray rows ats))).
      split_and!; [done|by apply list_lookup_insert_eq|done..].
Qed.

(** ** All tables *)
Record tables_half (units : list CompiledModule) (k : linking) (ms0 : list NcuOperandMaps) (n : nat)
    (t : Tables) (ms : list NcuOperandMaps) : Prop := {
  th_strings : t_strings t = t_strings (merged k);
  th_functions : half FinalizeFunction p_functions (pushes k) (t_functions (merged k)) n ms (t_functions t);
  th_classes : half RemapClass p_classes (pushes k) (t_classes (merged k)) n ms (t_classes t);
  th_structs : half RemapStruct p_structs (pushes k) (t_structs (merged k)) n ms (t_structs t);
  th_enums : half RemapEnum p_enums (pushes k) (t_enums (merged k)) n ms (t_enums t);
  th_slots : half RemapStaticSlot p_slots (pushes k) (t_slots (merged k)) n ms (t_slots t);
  th_interfaces : half RemapInterfaceMetadata p_interfaces (pushes k) (t_interfaces (merged k)) n ms (t_interfaces t);
  th_arrays : ∃ shares, arrays_half units n ms (t_arrayTypes t) shares;
  th_length : length ms = length units;
  th_maps : ∀ ui m0, ms0 !! ui = Some m0 → ∃ g, ms !! ui = Some (put_arrayTypes m0 g)
}.

Lemma shares_in_once {A K} (key : A → option K) R (rows : list A) own get push units ms ps : merged_table key R rows (shares_in own get push units ms ps) →
  length ms = length units → length ps = length units → concat (push <$> ps) ≡ₚ Z.of_nat <$> seq 0 (length rows).
Proof. intros [_ Ho _] Hm Hp. by rewrite shares_in_pushes in Ho. Qed.

Lemma FinalizeUnit_half units k ms0 n t ms u m p t' m' : link_inv units k → length ms0 = length units →
  tables_half units k ms0 n t ms → units !! n = Some u → ms !! n = Some m → pushes k !! n = Some p →
  FinalizeUnit t u m p = Ok (t', m') → tables_half units k ms0 (S n) t' (<[n := m']> ms).
Proof.
  intros [Lm Lp _ If _ Ic Is Ie Isl Ii _] Hl0 [Hst Hf Hc Hs He Hsl Hi (shares & Ha) Hl Hms] Hu Hm Hp H. unfold FinalizeUnit in H.
  apply bind_Ok in H as (arrs & Harr & H). apply bind_Ok in H as (clss & Hclss & H). apply bind_Ok in H as (strcts & Hstrcts & H).
  apply bind_Ok in H as (enms & Henms & H). apply bind_Ok in H as (slts & Hslts & H). apply bind_Ok in H as (fns & Hfns & H).
  apply bind_Ok in H as (ifcs & Hifcs & [= <- <-]). apply lookup_lt_Some in Hm as Hlt.
  split; cbn [t_strings t_functions t_classes t_structs t_enums t_slots t_interfaces t_arrayTypes]; [done|..].
  all: try (eapply half_step; [by eapply shares_in_once|done..|eassumption]).
  - by eapply arrays_step.
  - by rewrite length_insert.
  - intros ui m1 H1. destruct (Hms ui m1 H1) as (g & Hg). destruct (decide (ui = n)) as [->|Hne].
    + simplify_eq. exists (row_map arrs). by apply list_lookup_insert_eq.
    + exists g. by rewrite list_lookup_insert_ne.
Qed.

Lemma merged_half units k ms0 : link_inv units k → length ms0 = length units → tables_half units k ms0 0 (merged k) ms0.
Proof.
  intros Hinv Hl0. split; try apply half_start; [done| |done|].
  - exists []. split; [|done..]. rewrite (li_arrays _ _ Hinv). apply merged_empty.
  - intros ui m0 Hm0. exists (arrayTypes m0). rewrite Hm0. by destruct m0.
Qed.
Lemma FinalizeUnits_half units k ms0 t ms : link_inv units k → length ms0 = length units →
  FinalizeUnits units (pushes k) (merged k) ms0 = Ok (t, ms) → tables_half units k ms0 (length units) t ms.
Proof.
  intros Hinv Hl0. unfold FinalizeUnits. match goal with |- each_unit ?F _ _ _ = _ → _ => set (pass := F) end.
  assert (∀ rest seen t0 m0, units = seen ++ rest → tables_half units k ms0 (length seen) t0 m0 →
    each_unit pass (length seen) rest (t0, m0) = Ok (t, ms) → tables_half units k ms0 (length units) t ms) as G.
  { induction rest as [|u rest IH]; intros seen t0 m0 E Hh H; simpl in H.
    - injection H as <- <-. replace (length units) with (length seen) by (by rewrite E, app_nil_r). done.
    - apply bind_Ok in H as ([t1 m1] & H1 & H). unfold pass in H1.
      apply bind_Ok in H1 as (m & Hm%deref_Ok & H1). apply bind_Ok in H1 as (p & Hp%deref_Ok & H1).
      apply bind_Ok in H1 as ([t2 m2] & H1 & [= <- <-]).
      replace (length seen + 1)%nat with (length (seen ++ [u])) in H by (rewrite length_app; simpl; lia).
      eapply (IH (seen ++ [u])); [by rewrite <- app_assoc| |exact H].
      replace (length (seen ++ [u])) with (S (length seen)) by (rewrite length_app; simpl; lia).
      assert (units !! length seen = Some u) as Hu by (rewrite E; by apply list_lookup_middle).
      exact (FinalizeUnit_half _ _ _ _ _ _ _ _ _ _ _ Hinv Hl0 Hh Hu Hm Hp H1). }
  by apply (G units [] (merged k) ms0 eq_refl), merged_half.
Qed.
