(* ===== verification/LinkSpec.v ===== *)
(** * What the linker promises

    Every index of every unit's tables leads, through the unit's final map, to the row of
    the linked module that stands for the record the index names, own or imported; every row
    of the linked module comes from one record of one unit, rewritten through the maps of
    that unit. *)
From S2P Require Import Prelude.
From S2P Require Import Bytecode Remap Package Prims TypeDesc ModuleRecords DefaultExpr Linker LinkTables LinkMerge LinkFinal.
Open Scope Z_scope.

(** Row [n] of a linked table is the remap of the record [b] of a unit. *)
Definition provided {A} (own_of : CompiledModule → list A) (remap : NcuOperandMaps → A → outcome A)
    (units : list CompiledModule) (ms : list NcuOperandMaps) (rows : list A) (n : nat) (b : A) : Prop :=
  ∃ up pu pm b', units !! up = Some pu ∧ ms !! up = Some pm ∧ b ∈ own_of pu ∧ remap pm b = Ok b' ∧ rows !! n = Some b'.

(** Index [i] of a type table names [name]: an own record's, or an import's. *)
Definition named {A} (records : list A) (get : A → bytes) (imports : list SymbolImport) (i : nat) (name : bytes) : Prop :=
  (∃ a, records !! i = Some a ∧ get a = name) ∨
  (∃ j imp, i = (length records + j)%nat ∧ imports !! j = Some imp ∧ imp_name imp = name).

(** Index [i] of the function table of [u] names own function [k] of unit [uj]. *)
Definition names_function (units : list CompiledModule) (ui : nat) (u : CompiledModule) (i uj k : nat) (f : CompiledFunction) : Prop :=
  (own_functions u !! i = Some f ∧ uj = ui ∧ k = i) ∨
  (∃ j imp tgt, i = (length (own_functions u) + j)%nat ∧ mod_functionImports u !! j = Some imp ∧
     unitOf units (imp_modulePath imp) = Some uj ∧ units !! uj = Some tgt ∧
     hits (resolve_function tgt imp) = 1%nat ∧ hit (resolve_function tgt imp) = Z.of_nat k ∧
     own_functions tgt !! k = Some f ∧ import_matches imp f).
(** The same for static slots. *)
Definition names_slot (units : list CompiledModule) (ui : nat) (u : CompiledModule) (i uj k : nat) (s : CompiledStaticSlot) : Prop :=
  (own_slots u !! i = Some s ∧ uj = ui ∧ k = i) ∨
  (∃ j imp tgt, i = (length (own_slots u) + j)%nat ∧ mod_staticSlotImports u !! j = Some imp ∧
     unitOf units (imp_modulePath imp) = Some uj ∧ units !! uj = Some tgt ∧ imp_ownerOrdinal imp = Z.of_nat k ∧
     own_slots tgt !! k = Some s ∧ slot_name s = imp_name imp ∧ slot_ownerKey s = imp_ownerClassKey imp).

Record unit_linked (units : list CompiledModule) (ms : list NcuOperandMaps) (m : CompiledModule)
    (ui : nat) (u : CompiledModule) (mu : NcuOperandMaps) : Prop := {
  lk_strings : ∀ i s, mod_stringConstants u !! i = Some s →
    ∃ n, strings mu !! Z.of_nat i = Some (Z.of_nat n) ∧ mod_stringConstants m !! n = Some s;
  lk_functions : ∀ i, (i < length (mod_functions u))%nat → ∃ uj k mj f g n, names_function units ui u i uj k f ∧
    ms !! uj = Some mj ∧ functions mu !! Z.of_nat i = Some (Z.of_nat n) ∧ functions mj !! Z.of_nat k = Some (Z.of_nat n) ∧
    same_function f g ∧ provided own_functions FinalizeFunction units ms (mod_functions m) n g;
  lk_classes : ∀ i, (i < length (mod_classes u))%nat → ∃ name n c, named (own_classes u) cc_name (mod_classImports u) i name ∧
    classes mu !! Z.of_nat i = Some (Z.of_nat n) ∧ cc_name c = name ∧ provided own_classes RemapClass units ms (mod_classes m) n c;
  lk_structs : ∀ i, (i < length (mod_structs u))%nat → ∃ name n c, named (own_structs u) st_name (mod_structImports u) i name ∧
    structs mu !! Z.of_nat i = Some (Z.of_nat n) ∧ st_name c = name ∧ provided own_structs RemapStruct units ms (mod_structs m) n c;
  lk_enums : ∀ i, (i < length (mod_enumNames u))%nat → ∃ name n c, named (own_enums u) en_key (mod_enumImports u) i name ∧
    enums mu !! Z.of_nat i = Some (Z.of_nat n) ∧ en_key c = name ∧ provided own_enums RemapEnum units ms (enums_of m) n c;
  lk_slots : ∀ i, (i < length (mod_staticSlots u))%nat → ∃ uj k mj s n, names_slot units ui u i uj k s ∧
    ms !! uj = Some mj ∧ slots mu !! Z.of_nat i = Some (Z.of_nat n) ∧ slots mj !! Z.of_nat k = Some (Z.of_nat n) ∧
    provided own_slots RemapStaticSlot units ms (mod_staticSlots m) n s;
  lk_interfaces : ∀ i a, mod_interfaces u !! i = Some a → ∃ n b, interfaces mu !! Z.of_nat i = Some (Z.of_nat n) ∧
    iface_R a b ∧ provided mod_interfaces RemapInterfaceMetadata units ms (mod_interfaces m) n b;
  lk_arrays : ∀ i a, mod_arrayTypes u !! i = Some a → ∃ n a', RemapArrayType mu a = Ok a' ∧
    arrayTypes mu !! Z.of_nat i = Some (Z.of_nat n) ∧ mod_arrayTypes m !! n = Some a'
}.

(** Own record [i] of a unit has its row of the linked table for itself. *)
Definition unshared {A} (own_of : CompiledModule → list A) (get : NcuOperandMaps → gmap Z Z) (alone : A → Prop)
    (units : list CompiledModule) (ms : list NcuOperandMaps) : Prop :=
  ∀ ui u mu i a n uj v mv j b, units !! ui = Some u → ms !! ui = Some mu → own_of u !! i = Some a → alone a →
    get mu !! Z.of_nat i = Some n → units !! uj = Some v → ms !! uj = Some mv → own_of v !! j = Some b →
    get mv !! Z.of_nat j = Some n → uj = ui ∧ j = i.

(** ** The pieces of a link that succeeds *)
Record link_run (units : list CompiledModule) (entryKey : bytes) (m : CompiledModule) (ms : list NcuOperandMaps)
    (k : linking) (ms0 : list NcuOperandMaps) (t : Tables) : Prop := {
  lr_valid : ValidateClosure units = Ok tt;
  lr_inv : link_inv units k;
  lr_length : length ms0 = length units;
  lr_slots : ∀ ui u m, units !! ui = Some u → maps k !! ui = Some m → ∃ m', ms0 !! ui = Some m' ∧ slots_resolved units (merged k) (maps k) u m m';
  lr_final : tables_half units k ms0 (length units) t ms;
  lr_module : ∃ u0 e, head units = Some u0 ∧ ResolveEntry (t_functions t) entryKey = Ok e ∧ m = to_module u0 t e
}.
Lemma LinkWithMaps_run units entryKey m ms : Forall (λ u, NoDup (ci_name <$> mod_interfaces u)) units →
  LinkWithMaps units entryKey = Ok (m, ms) → ∃ k ms0 t, link_run units entryKey m ms k ms0 t.
Proof.
  intros Hnd H. unfold LinkWithMaps in H. apply bind_Ok in H as ([] & Hv & H). apply bind_Ok in H as (u0 & Hu0%deref_Ok & H).
  apply bind_Ok in H as (k & Hk & H). apply bind_Ok in H as ([ms0 problems] & Hs & H). apply bind_Ok in H as (v & Hp%check_Ok & H).
  apply bool_decide_eq_true in Hp as ->. apply bind_Ok in H as ([t ms'] & Hf & H). apply bind_Ok in H as (e & He & [= <- <-]).
  pose proof (proj1 (ValidateClosure_Ok _) Hv) as (_ & Hval & _). pose proof (MergeUnitTables_inv _ _ Hval Hnd Hk) as Hinv.
  destruct (NcuResolveSlots_filled _ _ _ _ (li_maps _ _ Hinv) Hs) as [Hl Hsl].
  exists k, ms0, t. split; [done..|by eapply FinalizeUnits_half|by exists u0, e].
Qed.

Section run.
Context (units : list CompiledModule) (entryKey : bytes) (m : CompiledModule) (ms : list NcuOperandMaps).
Context (k : linking) (ms0 : list NcuOperandMaps) (t : Tables) (run : link_run units entryKey m ms k ms0 t).

(** The three stages of a unit's map. *)
Lemma unit_maps ui u : units !! ui = Some u → ∃ mk m0 mu pk, maps k !! ui = Some mk ∧ ms0 !! ui = Some m0 ∧ ms !! ui = Some mu ∧
  pushes k !! ui = Some pk ∧ slots_resolved units (merged k) (maps k) u mk m0 ∧ ∃ g, mu = put_arrayTypes m0 g.
Proof.
  destruct run as [_ [Lm Lp] _ Hs Hf _]. intros Hu. apply lookup_lt_Some in Hu as Hlt.
  destruct (lookup_lt_is_Some_2 (maps k) ui) as [mk Hmk]; [lia|]. destruct (lookup_lt_is_Some_2 (pushes k) ui) as [pk Hpk]; [lia|].
  destruct (Hs _ _ _ Hu Hmk) as (m0 & Hm0 & Hr). destruct (th_maps _ _ _ _ _ _ Hf ui m0 Hm0) as (g & Hg). naive_solver.
Qed.

Section one_table.
Context {A K : Type} (key : A → option K) (R : A → A → Prop) (own_of : CompiledModule → list A) (get : NcuOperandMaps → gmap Z Z)
  (push : UnitPushes → list Z) (f : NcuOperandMaps → A → outcome A) (orig rows : list A).
Context (Ht : merged_table key R orig (shares_in own_of get push units (maps k) (pushes k))).
Context (Hh : half f push (pushes k) orig (length units) ms rows).

Lemma shares_in_once_k : concat (push <$> pushes k) ≡ₚ Z.of_nat <$> seq 0 (length orig).
Proof. eapply shares_in_once; [exact Ht|..]; apply (lr_inv _ _ _ _ _ _ _ run). Qed.

(** Every merged row was pushed by a unit, from one of its own records. *)
Lemma row_pushed n b : orig !! n = Some b → ∃ uj u p, units !! uj = Some u ∧ pushes k !! uj = Some p ∧ Z.of_nat n ∈ push p ∧ b ∈ own_of u.
Proof.
  intros Hn. pose proof shares_in_once_k as Ho. apply lookup_lt_Some in Hn as Hlt.
  assert (Z.of_nat n ∈ concat (push <$> pushes k)) as Hin.
  { rewrite Ho. apply list_elem_of_fmap. exists n. split; [done|]. apply elem_of_seq. lia. }
  apply list_elem_of_In, in_concat in Hin as (l & Hl%list_elem_of_In & Hx%list_elem_of_In).
  apply list_elem_of_fmap in Hl as (p & -> & Hp). apply list_elem_of_lookup in Hp as (uj & Hp).
  assert (is_Some (units !! uj)) as [u Hu].
  { apply lookup_lt_is_Some. rewrite <- (li_pushes _ _ (lr_inv _ _ _ _ _ _ _ run)). by eapply lookup_lt_Some. }
  destruct (unit_maps uj u Hu) as (mk & m0 & mu & pk & Hmk & _ & _ & Hpk & _). simplify_eq.
  pose proof (shares_in_lookup own_of get push _ _ _ _ _ _ _ Hu Hmk Hp) as Hcol.
  pose proof (list.Forall_lookup_1 _ _ _ _ (mt_units _ _ _ _ Ht) Hcol) as Hin.
  destruct (ui_pushed _ _ _ _ Hin _ Hx) as (n' & i & b' & En & Hb' & Hown & _). apply Nat2Z.inj in En as <-. simplify_eq/=.
  exists uj, u, p. split_and!; [done..|by eapply list_elem_of_lookup_2].
Qed.
Lemma row_provided n b : orig !! n = Some b → provided own_of f units ms rows n b.
Proof.
  intros Hn. destruct (row_pushed n b Hn) as (uj & u & p & Hu & Hp & Hx & Hb).
  destruct (proj2 Hh uj p n Hp Hx) as [Hdone _]. apply lookup_lt_Some in Hu as Hlt.
  destruct (Hdone Hlt) as (r & r' & mj & Hr & Hmj & Hf & Hr'). simplify_eq. exists uj, u, mj, r'. done.
Qed.
Lemma own_mapped ui u mk i a : units !! ui = Some u → maps k !! ui = Some mk → own_of u !! i = Some a →
  ∃ n b, get mk !! Z.of_nat i = Some (Z.of_nat n) ∧ orig !! n = Some b ∧ R a b.
Proof.
  intros Hu Hmk Ha. destruct (unit_maps ui u Hu) as (mk' & m0 & mu & pk & Hmk' & _ & _ & Hpk & _). simplify_eq.
  pose proof (shares_in_lookup own_of get push _ _ _ _ _ _ _ Hu Hmk Hpk) as Hcol.
  pose proof (list.Forall_lookup_1 _ _ _ _ (mt_units _ _ _ _ Ht) Hcol) as Hin. by eapply ui_mapped in Hin.
Qed.
Lemma own_domain ui u mk j : units !! ui = Some u → maps k !! ui = Some mk → is_Some (get mk !! j) → 0 ≤ j.
Proof.
  intros Hu Hmk Hj. destruct (unit_maps ui u Hu) as (mk' & m0 & mu & pk & Hmk' & _ & _ & Hpk & _). simplify_eq.
  pose proof (shares_in_lookup own_of get push _ _ _ _ _ _ _ Hu Hmk Hpk) as Hcol.
  pose proof (list.Forall_lookup_1 _ _ _ _ (mt_units _ _ _ _ Ht) Hcol) as Hin. by apply (ui_domain _ _ _ _ Hin).
Qed.

(** Each row of the linked table is the remap of the merged row. *)
Lemma row_final n b' : rows !! n = Some b' → ∃ b mj, orig !! n = Some b ∧ f mj b = Ok b' ∧ provided own_of f units ms rows n b.
Proof.
  intros Hn. destruct (lookup_lt_is_Some_2 orig n) as [b Hb]; [rewrite <- (proj1 Hh); by eapply lookup_lt_Some|].
  pose proof (row_provided n b Hb) as Hp. pose proof Hp as (up & pu & pm & b2 & _ & _ & _ & Hf & Hb2). exists b, pm. simplify_eq. done.
Qed.
Lemma all_provided n b' : rows !! n = Some b' → ∃ b, provided own_of f units ms rows n b.
Proof. intros (b & _ & _ & _ & ?)%row_final. by exists b. Qed.
(** No two rows have the same key when the remap keeps keys. *)
Lemma keys_distinct {N} (name : A → N) : (∀ mj b b', f mj b = Ok b' → name b' = name b) →
  (∀ b c, name b = name c → is_Some (key b) ∧ key b = key c) → NoDup (name <$> rows).
Proof.
  intros Hf Hkey. apply NoDup_alt. intros i j x Hi Hj. rewrite list_lookup_fmap in Hi, Hj.
  destruct (rows !! i) as [bi'|] eqn:Ei; [|done]. destruct (rows !! j) as [bj'|] eqn:Ej; [|done]. simplify_eq/=.
  destruct (row_final i bi' Ei) as (bi & mi & Hbi & Hfi & _), (row_final j bj' Ej) as (bj & mj & Hbj & Hfj & _).
  apply Hf in Hfi, Hfj. destruct (Hkey bi bj) as [[x Hx] Hxy]; [congruence|]. eapply (mt_keys _ _ _ _ Ht); [done..|congruence].
Qed.
(** A record without a key has its row for itself, among all units. *)
Lemma row_alone ui u mk i a n uj v mv j : (∀ a b, R a b → key a = key b) →
  units !! ui = Some u → maps k !! ui = Some mk → own_of u !! i = Some a → key a = None → get mk !! Z.of_nat i = Some n →
  units !! uj = Some v → maps k !! uj = Some mv → get mv !! j = Some n → uj = ui ∧ j = Z.of_nat i.
Proof.
  intros HRk Hu Hmk Ha Hkey Hn Hv Hmv Hj.
  destruct (unit_maps ui u Hu) as (mk' & m0 & mu & pk & Hmk' & _ & _ & Hpk & _). simplify_eq.
  destruct (unit_maps uj v Hv) as (mv' & m0' & mu' & pv & Hmv' & _ & _ & Hpv & _). simplify_eq.
  pose proof (list.Forall_lookup_1 _ _ _ _ (mt_units _ _ _ _ Ht) (shares_in_lookup own_of get push _ _ _ _ _ _ _ Hu Hmk Hpk)) as Iu.
  pose proof (list.Forall_lookup_1 _ _ _ _ (mt_units _ _ _ _ Ht) (shares_in_lookup own_of get push _ _ _ _ _ _ _ Hv Hmv Hpv)) as Iv.
  destruct (ui_alone _ _ _ _ Iu i a n Ha Hkey Hn) as [Hin Honly].
  destruct (ui_domain _ _ _ _ Iv j ltac:(by eexists)) as [Hj0 Hj1]. simpl in Hj1. unfold size in Hj1.
  destruct (lookup_lt_is_Some_2 (own_of v) (Z.to_nat j)) as [c Hc]; [lia|].
  destruct (ui_mapped _ _ _ _ Iu i a Ha) as (n1 & b1 & Hn1 & Hb1 & R1).
  destruct (ui_mapped _ _ _ _ Iv _ c Hc) as (n2 & b2 & Hn2 & Hb2 & R2). rewrite Z2Nat.id in Hn2 by done. simplify_eq/=.
  destruct (ui_alone _ _ _ _ Iv (Z.to_nat j) c (Z.of_nat n2) Hc) as [Hin' _];
    [rewrite (HRk _ _ R2), <- (HRk _ _ R1); done|by rewrite Z2Nat.id|].
  assert (uj = ui) as -> by exact (once_same _ _ _ shares_in_once_k _ _ _ _ _ Hpv Hpk Hin' Hin).
  simplify_eq. split; [done|by apply Honly].
Qed.

(** The own part of a table, through the final map. *)
Lemma own_linked ui u mk mu i a base : units !! ui = Some u → maps k !! ui = Some mk → own_of u !! i = Some a →
  (∀ j, j < base → get mu !! j = get mk !! j) → base = size (own_of u) →
  ∃ n b, get mu !! Z.of_nat i = Some (Z.of_nat n) ∧ R a b ∧ provided own_of f units ms rows n b.
Proof.
  intros Hu Hmk Ha Hkeep Hbase. destruct (own_mapped ui u mk i a Hu Hmk Ha) as (n & b & Hn & Hb & HR).
  exists n, b. split_and!; [|done|by apply row_provided]. rewrite Hkeep; [done|].
  apply lookup_lt_Some in Ha. unfold size in *. lia.
Qed.
End one_table.

(** Every unit of a link has been validated. *)
Lemma unit_ok ui u : units !! ui = Some u → unit_valid u.
Proof.
  intros Hu. pose proof (lr_valid _ _ _ _ _ _ _ run) as (_ & Hv & _)%ValidateClosure_Ok. by eapply list.Forall_lookup_1 in Hv.
Qed.

Lemma find_row_Some {B} (P : B → Prop) `{!∀ b, Decision (P b)} (rs : list B) z :
  find_row P rs = Some z → ∃ n b, z = Z.of_nat n ∧ rs !! n = Some b ∧ P b.
Proof.
  unfold find_row. destruct (list_find P rs) as [[n b]|] eqn:E; [|done]. intros [= <-].
  apply list_find_Some in E as (? & ? & _). by exists n, b.
Qed.

(** Types: an own record has its merged row, an import the row of its key. *)
Section type_table.
Context {A : Type} (name_of : A → bytes) (R : A → A → Prop) (HR : ∀ a b, R a b ↔ name_of a = name_of b).
Context (own_of : CompiledModule → list A) (imports : CompiledModule → list SymbolImport) (get : NcuOperandMaps → gmap Z Z)
  (push : UnitPushes → list Z) (f : NcuOperandMaps → A → outcome A) (orig rows : list A).
Context (Ht : merged_table (Some ∘ name_of) R orig (shares_in own_of get push units (maps k) (pushes k))).
Context (Hh : half f push (pushes k) orig (length units) ms rows).

Lemma type_linked ui u mk mu i : units !! ui = Some u → maps k !! ui = Some mk →
  filled (size (own_of u)) (imports u) (λ imp, find_row (λ a, name_of a = imp_name imp) orig) (get mk) (get mu) →
  (∃ a, own_of u !! i = Some a) ∨ (∃ j imp, i = (length (own_of u) + j)%nat ∧ imports u !! j = Some imp) →
  ∃ name n c, named (own_of u) name_of (imports u) i name ∧ get mu !! Z.of_nat i = Some (Z.of_nat n) ∧ name_of c = name ∧
    provided own_of f units ms rows n c.
Proof.
  intros Hu Hmk [Hf Hkeep] [(a & Ha)|(j & imp & -> & Hj)].
  - destruct (own_linked _ _ _ _ _ _ _ _ Ht Hh ui u mk mu i a _ Hu Hmk Ha (λ j Hj, Hkeep j (or_introl Hj)) eq_refl)
      as (n & b & Hn & Hab%HR & Hp). exists (name_of a), n, b. split_and!; [left; by exists a|done..].
  - destruct (Hf j imp Hj) as (z & Hz & Hm). apply find_row_Some in Hz as (n & b & -> & Hb & Hname).
    exists (imp_name imp), n, b. split_and!; [right; by exists j, imp| |done|].
    + rewrite <- Hm. f_equal. unfold size. lia.
    + eapply row_provided; done.
Qed.
End type_table.

Lemma enums_of_module u0 e : enums_of (to_module u0 t e) = t_enums t.
Proof. unfold enums_of. cbn. induction (t_enums t) as [|[] l IH]; [done|]. rewrite !fmap_cons. cbn. by rewrite IH. Qed.

(** The stages of one unit. *)
Record stages (ui : nat) (u : CompiledModule) (mk m0 mu : NcuOperandMaps) : Prop := {
  sg_unit : units !! ui = Some u; sg_first : maps k !! ui = Some mk; sg_final : ms !! ui = Some mu;
  sg_resolved : slots_resolved units (merged k) (maps k) u mk m0;
  sg_arrays : ∃ g, mu = put_arrayTypes m0 g
}.
Lemma stages_of ui u : units !! ui = Some u → ∃ mk m0 mu, stages ui u mk m0 mu.
Proof. intros Hu. destruct (unit_maps ui u Hu) as (mk & m0 & mu & pk & ? & ? & ? & ? & ? & ?). by exists mk, m0, mu. Qed.

Lemma functions_linked ui u mk m0 mu i : stages ui u mk m0 mu → (i < length (mod_functions u))%nat →
  ∃ uj j mj f g n, names_function units ui u i uj j f ∧
    ms !! uj = Some mj ∧ functions mu !! Z.of_nat i = Some (Z.of_nat n) ∧ functions mj !! Z.of_nat j = Some (Z.of_nat n) ∧
    same_function f g ∧ provided own_functions FinalizeFunction units ms (t_functions t) n g.
Proof.
  intros [Hu Hmk Hmu Hr [gm ->]] Hi. pose proof (li_functions _ _ (lr_inv _ _ _ _ _ _ _ run)) as Ht.
  pose proof (th_functions _ _ _ _ _ _ (lr_final _ _ _ _ _ _ _ run)) as Hh.
  destruct (sr_functions _ _ _ _ _ _ Hr) as [Hf Hkeep]. pose proof (unit_ok ui u Hu) as [_ _ (Vf & _)].
  destruct (own_or_import (mod_functions u) (mod_functionImports u) Vf i Hi) as [(f & Hown)|(j & imp & -> & Hj)].
  - destruct (own_linked _ _ _ _ _ _ _ _ Ht Hh ui u mk (put_arrayTypes m0 gm) i f (fn_own u) Hu Hmk Hown (λ j Hj, Hkeep j (or_introl Hj)))
      as (n & g & Hn & Hfg & Hp); [symmetry; by apply own_length, (unit_ok _ _ ltac:(eassumption))|].
    exists ui, i, (put_arrayTypes m0 gm), f, g, n. split_and!; [by left|done..].
  - destruct (Hf j imp Hj) as (z & Hz & Hm). unfold fn_target in Hz.
    destruct (unitOf units (imp_modulePath imp)) as [uj|] eqn:Huj; [|done]. cbn [mbind option_bind] in Hz.
    destruct (units !! uj) as [tgt|] eqn:Htgt; [|done]. cbn [mbind option_bind] in Hz.
    destruct (maps k !! uj) as [mo|] eqn:Hmo; [|done]. cbn [mbind option_bind] in Hz. cbv zeta in Hz.
    destruct (decide _) as [Hh1|]; [|done].
    pose proof (own_domain _ _ _ _ _ _ Ht uj tgt mo _ Htgt Hmo (ex_intro _ z Hz)) as Hpos.
    destruct (resolve_function_good tgt imp ltac:(lia)) as (f & Hown & Hmatch).
    destruct (stages_of uj tgt Htgt) as (mo' & mj0 & mj & [_ Hmo' Hmj Hrj [gj ->]]). simplify_eq.
    destruct (own_linked _ _ _ _ _ _ _ _ Ht Hh uj tgt mo (put_arrayTypes mj0 gj) _ f (fn_own tgt) Htgt Hmo Hown
      (λ j Hj, proj2 (sr_functions _ _ _ _ _ _ Hrj) j (or_introl Hj)))
      as (n & g & Hn & Hfg & Hp); [symmetry; by apply own_length, (unit_ok _ _ ltac:(eassumption))|].
    assert (z = Z.of_nat n) as ->.
    { rewrite Z2Nat.id in Hn by done. cbn [functions put_arrayTypes] in Hn. rewrite (proj2 (sr_functions _ _ _ _ _ _ Hrj)) in Hn; [congruence|].
      left. by apply own_lookup_lt in Hown. }
    exists uj, (Z.to_nat (hit (resolve_function tgt imp))), (put_arrayTypes mj0 gj), f, g, n. split_and!; [|done| |done..].
    + right. exists j, imp, tgt. rewrite Z2Nat.id by done. done.
    + rewrite <- Hm. f_equal. rewrite Nat2Z.inj_add. f_equal. by apply own_length.
Qed.

Lemma slots_linked ui u mk m0 mu i : stages ui u mk m0 mu → (i < length (mod_staticSlots u))%nat →
  ∃ uj j mj s n, names_slot units ui u i uj j s ∧
    ms !! uj = Some mj ∧ slots mu !! Z.of_nat i = Some (Z.of_nat n) ∧ slots mj !! Z.of_nat j = Some (Z.of_nat n) ∧
    provided own_slots RemapStaticSlot units ms (t_slots t) n s.
Proof.
  intros [Hu Hmk Hmu Hr [gm ->]] Hi. pose proof (li_slots _ _ (lr_inv _ _ _ _ _ _ _ run)) as Ht.
  pose proof (th_slots _ _ _ _ _ _ (lr_final _ _ _ _ _ _ _ run)) as Hh.
  destruct (sr_slots _ _ _ _ _ _ Hr) as [Hf Hkeep]. pose proof (unit_ok ui u Hu) as [_ _ (_ & _ & _ & _ & Vs)].
  destruct (own_or_import (mod_staticSlots u) (mod_staticSlotImports u) Vs i Hi) as [(s & Hown)|(j & imp & -> & Hj)].
  - destruct (own_linked _ _ _ _ _ _ _ _ Ht Hh ui u mk (put_arrayTypes m0 gm) i s (slot_own u) Hu Hmk Hown (λ j Hj, Hkeep j (or_introl Hj)))
      as (n & g & Hn & <- & Hp); [symmetry; by apply own_length, (unit_ok _ _ ltac:(eassumption))|].
    exists ui, i, (put_arrayTypes m0 gm), s, n. split_and!; [by left|done..].
  - destruct (Hf j imp Hj) as (z & Hz & Hm). unfold slot_target in Hz.
    destruct (unitOf units (imp_modulePath imp)) as [uj|] eqn:Huj; [|done]. cbn [mbind option_bind] in Hz.
    destruct (units !! uj) as [tgt|] eqn:Htgt; [|done]. cbn [mbind option_bind] in Hz.
    destruct (maps k !! uj) as [mo|] eqn:Hmo; [|done]. cbn [mbind option_bind] in Hz.
    destruct (own_slots tgt !! _) as [s|] eqn:Hown; [|done]. cbn [mbind option_bind] in Hz.
    destruct (decide _) as [[Hname Howner]|]; [|done].
    pose proof (own_domain _ _ _ _ _ _ Ht uj tgt mo _ Htgt Hmo (ex_intro _ z Hz)) as Hpos.
    destruct (stages_of uj tgt Htgt) as (mo' & mj0 & mj & [_ Hmo' Hmj Hrj [gj ->]]). simplify_eq.
    destruct (own_linked _ _ _ _ _ _ _ _ Ht Hh uj tgt mo (put_arrayTypes mj0 gj) _ s (slot_own tgt) Htgt Hmo Hown
      (λ j Hj, proj2 (sr_slots _ _ _ _ _ _ Hrj) j (or_introl Hj)))
      as (n & g & Hn & <- & Hp); [symmetry; by apply own_length, (unit_ok _ _ ltac:(eassumption))|].
    assert (z = Z.of_nat n) as ->.
    { rewrite Z2Nat.id in Hn by done. cbn [slots put_arrayTypes] in Hn. rewrite (proj2 (sr_slots _ _ _ _ _ _ Hrj)) in Hn; [congruence|].
      left. by apply own_lookup_lt in Hown. }
    exists uj, (Z.to_nat (imp_ownerOrdinal imp)), (put_arrayTypes mj0 gj), s, n. split_and!; [|done| |done..].
    + right. exists j, imp, tgt. rewrite Z2Nat.id by done. done.
    + rewrite <- Hm. f_equal. rewrite Nat2Z.inj_add. f_equal. by apply own_length.
Qed.

Lemma interfaces_linked ui u mk m0 mu i a : stages ui u mk m0 mu → mod_interfaces u !! i = Some a →
  ∃ n b, interfaces mu !! Z.of_nat i = Some (Z.of_nat n) ∧ iface_R a b ∧
    provided mod_interfaces RemapInterfaceMetadata units ms (t_interfaces t) n b.
Proof.
  intros [Hu Hmk Hmu Hr [gm ->]] Ha. pose proof (li_interfaces _ _ (lr_inv _ _ _ _ _ _ _ run)) as Ht.
  pose proof (th_interfaces _ _ _ _ _ _ (lr_final _ _ _ _ _ _ _ run)) as Hh.
  eapply (own_linked _ _ _ _ _ _ _ _ Ht Hh); [done..| |reflexivity].
  intros j _. destruct (sr_rest _ _ _ _ _ _ Hr) as (_ & Hi & _). simpl. by rewrite Hi.
Qed.

Lemma strings_linked ui u mk m0 mu i s : stages ui u mk m0 mu → mod_stringConstants u !! i = Some s →
  ∃ n, strings mu !! Z.of_nat i = Some (Z.of_nat n) ∧ t_strings t !! n = Some s.
Proof.
  intros [Hu Hmk Hmu Hr [gm ->]] Hi. destruct (li_strings _ _ (lr_inv _ _ _ _ _ _ _ run)) as (shares & Hs & Ht & _).
  destruct (sr_rest _ _ _ _ _ _ Hr) as (Hst & _ & _). cbn [strings put_arrayTypes]. rewrite Hst.
  rewrite (th_strings _ _ _ _ _ _ (lr_final _ _ _ _ _ _ _ run)).
  assert (shares.*1 !! ui = Some (mod_stringConstants u, strings mk)) as Hlk by (by rewrite Hs, lookup_zip_with, Hu, Hmk).
  rewrite list_lookup_fmap in Hlk. destruct (shares !! ui) as [sh|] eqn:Hsh; [|done]. injection Hlk as Hlk.
  pose proof (list.Forall_lookup_1 _ _ _ _ (mt_units _ _ _ _ Ht) Hsh) as Hin.
  destruct (ui_mapped _ _ _ _ Hin i s) as (n & b & Hn & Hb & ->); [by rewrite Hlk|]. exists n. by rewrite Hlk in Hn.
Qed.

Lemma mapM_lookup {B C} (f : B → outcome C) l l' i b : mapM f l = Ok l' → l !! i = Some b → ∃ c, f b = Ok c ∧ l' !! i = Some c.
Proof.
  revert l' i. induction l as [|x l IH]; intros l' i H Hi; [done|]. simpl in H.
  apply bind_Ok in H as (c & Hc & H). apply bind_Ok in H as (cs & Hcs & [= <-]). destruct i as [|i]; simpl in Hi.
  - simplify_eq. by exists c.
  - exact (IH _ _ Hcs Hi).
Qed.
Lemma arrays_linked ui u mk m0 mu i a : stages ui u mk m0 mu → mod_arrayTypes u !! i = Some a →
  ∃ n a', RemapArrayType mu a = Ok a' ∧ arrayTypes mu !! Z.of_nat i = Some (Z.of_nat n) ∧ t_arrayTypes t !! n = Some a'.
Proof.
  intros [Hu Hmk Hmu Hr _] Ha. destruct (th_arrays _ _ _ _ _ _ (lr_final _ _ _ _ _ _ _ run)) as (shares & [Ht Hl Hs]).
  destruct (lookup_lt_is_Some_2 shares ui) as [s Hsh]; [rewrite Hl; by eapply lookup_lt_Some|].
  destruct (Hs ui s Hsh) as (u' & mu' & Hu' & Hmu' & Hats & Hmap). simplify_eq.
  destruct (mapM_lookup _ _ _ _ _ Hats Ha) as (a' & Ha' & Hi).
  pose proof (list.Forall_lookup_1 _ _ _ _ (mt_units _ _ _ _ Ht) Hsh) as Hin.
  destruct (ui_mapped _ _ _ _ Hin i a' Hi) as (n & b & Hn & Hb & ->). exists n, b. by rewrite Hmap.
Qed.

Lemma table_unshared {A K} (key : A → option K) R own_of get push orig (alone : A → Prop) :
  merged_table key R orig (shares_in own_of get push units (maps k) (pushes k)) → (∀ a b, R a b → key a = key b) →
  (∀ a, alone a → key a = None) →
  (∀ ui u mk m0 mu i a, stages ui u mk m0 mu → own_of u !! i = Some a → get mu !! Z.of_nat i = get mk !! Z.of_nat i) →
  unshared own_of get alone units ms.
Proof.
  intros Ht HRk Halone Hkeep ui u mu i a n uj v mv j b Hu Hmu Ha Hk Hn Hv Hmv Hb Hj.
  destruct (stages_of ui u Hu) as (mk & m0 & mu' & Su), (stages_of uj v Hv) as (mk2 & m02 & mv' & Sv).
  assert (mu' = mu) as -> by (pose proof (sg_final _ _ _ _ _ Su); congruence).
  assert (mv' = mv) as -> by (pose proof (sg_final _ _ _ _ _ Sv); congruence).
  rewrite (Hkeep _ _ _ _ _ _ _ Su Ha) in Hn. rewrite (Hkeep _ _ _ _ _ _ _ Sv Hb) in Hj.
  destruct Su as [_ Hmk _ _ _], Sv as [_ Hmk2 _ _ _].
  destruct (row_alone _ _ _ _ _ _ Ht _ _ _ _ _ _ _ _ _ _ HRk Hu Hmk Ha (Halone _ Hk) Hn Hv Hmk2 Hj) as [-> ?].
  split; [done|lia].
Qed.
Lemma functions_kept ui u mk m0 mu i a : stages ui u mk m0 mu → own_functions u !! i = Some a →
  functions mu !! Z.of_nat i = functions mk !! Z.of_nat i.
Proof.
  intros [_ _ _ Hr [g ->]] Ha. apply (sr_functions _ _ _ _ _ _ Hr). left. eapply own_lookup_lt. by rewrite Nat2Z.id.
Qed.
Lemma slots_kept ui u mk m0 mu i a : stages ui u mk m0 mu → own_slots u !! i = Some a →
  slots mu !! Z.of_nat i = slots mk !! Z.of_nat i.
Proof.
  intros [_ _ _ Hr [g ->]] Ha. apply (sr_slots _ _ _ _ _ _ Hr). left. eapply own_lookup_lt. by rewrite Nat2Z.id.
Qed.
End run.


(** ** The rows *)
Lemma RemapClass_name mj c c' : RemapClass mj c = Ok c' → cc_name c' = cc_name c.
Proof. unfold RemapClass. intros H. repeat (apply bind_Ok in H as (? & _ & H)). by injection H as <-. Qed.
Lemma RemapStruct_name mj c c' : RemapStruct mj c = Ok c' → st_name c' = st_name c.
Proof. unfold RemapStruct. intros H. repeat (apply bind_Ok in H as (? & _ & H)). by injection H as <-. Qed.
Lemma RemapEnum_key mj c c' : RemapEnum mj c = Ok c' → en_key c' = en_key c.
Proof. unfold RemapEnum. intros H. repeat (apply bind_Ok in H as (? & _ & H)). by injection H as <-. Qed.
Lemma RemapInterface_name mj c c' : RemapInterfaceMetadata mj c = Ok c' → ci_name c' = ci_name c.
Proof. unfold RemapInterfaceMetadata. intros H. repeat (apply bind_Ok in H as (? & _ & H)). by injection H as <-. Qed.

Lemma stub_key_None f : func_bytecode f ≠ [] ∨ func_intrinsicId f = INTR_None → stub_key f = None.
Proof. intros H. unfold stub_key. rewrite decide_False; [done|]. naive_solver. Qed.

(** C17: The linked module has nothing twice and nothing of its own: no two rows of a table
    have one name (strings, classes, structs, enums, interfaces, array types), every row is
    the remap of a record some unit owns, through that unit's maps; and what must not be
    merged is not: a function that has code or is no intrinsic, and a static slot, each keep a
    row that no other own record of any unit uses, whatever their names. *)
Theorem link_rows units entryKey m ms :
  Forall (λ u, NoDup (ci_name <$> mod_interfaces u)) units → LinkWithMaps units entryKey = Ok (m, ms) →
  (NoDup (mod_stringConstants m) ∧ NoDup (cc_name <$> mod_classes m) ∧ NoDup (st_name <$> mod_structs m)
    ∧ NoDup (mod_enumKeys m) ∧ NoDup (ci_name <$> mod_interfaces m) ∧ NoDup (mod_arrayTypes m)) ∧
  ((∀ n r, mod_functions m !! n = Some r → ∃ f, provided own_functions FinalizeFunction units ms (mod_functions m) n f)
    ∧ (∀ n r, mod_classes m !! n = Some r → ∃ c, provided own_classes RemapClass units ms (mod_classes m) n c)
    ∧ (∀ n r, mod_structs m !! n = Some r → ∃ c, provided own_structs RemapStruct units ms (mod_structs m) n c)
    ∧ (∀ n r, mod_staticSlots m !! n = Some r → ∃ s, provided own_slots RemapStaticSlot units ms (mod_staticSlots m) n s)
    ∧ (∀ n r, mod_interfaces m !! n = Some r → ∃ c, provided mod_interfaces RemapInterfaceMetadata units ms (mod_interfaces m) n c)) ∧
  unshared own_functions functions (λ f, func_bytecode f ≠ [] ∨ func_intrinsicId f = INTR_None) units ms ∧ unshared own_slots slots (λ _, True) units ms.
Proof.
  intros Hnd H. destruct (LinkWithMaps_run _ _ _ _ Hnd H) as (k & ms0 & t & run).
  pose proof run as [Hv Hinv _ _ Hfin (u0 & e & _ & _ & ->)]. simpl.
  pose proof Hinv as [_ _ (ss & _ & Mst & _) Mf _ Mc Ms Me Msl Mi _]. pose proof Hfin as [Hst Hf Hc Hs He Hsl Hi (sh & [Ma _ _]) _ _].
  split; [split_and!|split; [split_and!|split]].
  - rewrite Hst. apply NoDup_alt. intros i j x Hx Hy. by eapply (mt_keys _ _ _ _ Mst).
  - eapply (keys_distinct _ _ _ _ _ _ _ run _ _ _ _ _ _ _ _ Mc Hc); [apply RemapClass_name|]. intros b c E. simpl. by rewrite E.
  - eapply (keys_distinct _ _ _ _ _ _ _ run _ _ _ _ _ _ _ _ Ms Hs); [apply RemapStruct_name|]. intros b c E. simpl. by rewrite E.
  - eapply (keys_distinct _ _ _ _ _ _ _ run _ _ _ _ _ _ _ _ Me He); [apply RemapEnum_key|]. intros b c E. simpl. by rewrite E.
  - eapply (keys_distinct _ _ _ _ _ _ _ run _ _ _ _ _ _ _ _ Mi Hi); [apply RemapInterface_name|]. intros b c E. unfold iface_key. by rewrite E.
  - apply NoDup_alt. intros i j x Hx Hy. by eapply (mt_keys _ _ _ _ Ma).
  - apply (all_provided _ _ _ _ _ _ _ run _ _ _ _ _ _ _ _ Mf Hf).
  - apply (all_provided _ _ _ _ _ _ _ run _ _ _ _ _ _ _ _ Mc Hc).
  - apply (all_provided _ _ _ _ _ _ _ run _ _ _ _ _ _ _ _ Ms Hs).
  - apply (all_provided _ _ _ _ _ _ _ run _ _ _ _ _ _ _ _ Msl Hsl).
  - apply (all_provided _ _ _ _ _ _ _ run _ _ _ _ _ _ _ _ Mi Hi).
  - by eapply (table_unshared _ _ _ _ _ _ _ run _ _ _ _ _ _ _ Mf same_function_key); [apply stub_key_None|apply functions_kept].
  - eapply (table_unshared _ _ _ _ _ _ _ run _ _ _ _ _ _ _ Msl); [done|done|apply slots_kept].
Qed.

(** ** A closure of two units

    [app] calls [lib.f], reads the static slot [n] of [lib.C] and tests for [lib.C]; [lib]
    has a private function before [f], so every index of the import moves. *)
Definition link_type : TypeDesc := desc RTK_Int32 [].
Definition code_function (name : bytes) (paramCount : Z) (prog : list instr) : CompiledFunction :=
  MkFunction name 0 paramCount RTK_Int32 65535 false false [] (asm prog) [] [] [] [] link_type [].
Definition lib_unit : CompiledModule :=
  MkCompiledModule [108] [108] [[120]; [121]]
    [code_function [103] 0 [Instr OP_Return []];
     code_function [102] 1 [Instr OP_ConstString [1]; Instr OP_CallFunc [0; 0]; Instr OP_Return []]] []
    [MkClassRecord [67] 0 (-1) false [] [] [] [] [] [] [1] [3] [0] [] [] [MkStaticField [110] link_type 3 false 0 no_default] 65535]
    [] [] [] [] [] [] [MkStaticSlotRecord [110] [67] 0 0 0 link_type] [] [] [] [] [] (-1).
Definition app_unit : CompiledModule :=
  MkCompiledModule [97] [97] [[121]]
    [code_function [109] 0 [Instr OP_ConstString [0]; Instr OP_CallFunc [1; 0]; Instr OP_LoadStatic [4; 0];
                            Instr OP_CheckCast [0]; Instr OP_Return []];
     code_function [102] 1 []] []
    [MkClassRecord [67] 0 (-1) false [] [] [] [] [] [] [] [] [] [] [] [] 65535]
    [] [] [] [] [] [] [MkStaticSlotRecord [110] [67] 0 0 0 link_type]
    [MkImport [108] [102] 1 [] false 0 1] [MkImport [108] [67] 0 [] false 0 kNone16] [] []
    [MkImport [108] [110] 0 [67] false 0 0] (-1).
Definition link_demo := LinkWithMaps [app_unit; lib_unit] [109].

(** The call of [app] reaches [lib.f], which calls its neighbour. *)
Lemma link_demo_code : func_bytecode <$> (default [] (match link_demo with Ok (m, _) => Some (mod_functions m) | _ => None end)) =
  [asm [Instr OP_ConstString [0]; Instr OP_CallFunc [2; 0]; Instr OP_LoadStatic [4; 0]; Instr OP_CheckCast [0]; Instr OP_Return []];
   asm [Instr OP_Return []]; asm [Instr OP_ConstString [0]; Instr OP_CallFunc [1; 0]; Instr OP_Return []]].
Proof. by vm_compute. Qed.

Lemma demo_interfaces : Forall (λ u, NoDup (ci_name <$> mod_interfaces u)) [app_unit; lib_unit].
Proof. repeat constructor. Qed.
Lemma link_demo_Ok : ∃ m ms, link_demo = Ok (m, ms).
Proof. destruct link_demo as [[m ms]|e] eqn:E; [by exists m, ms|]. by vm_compute in E. Qed.

Lemma link_rows_witness : ∃ m ms, link_demo = Ok (m, ms) ∧ NoDup (cc_name <$> mod_classes m) ∧
  unshared own_slots slots (λ _, True) [app_unit; lib_unit] ms.
Proof.
  destruct link_demo_Ok as (m & ms & H). exists m, ms. split; [exact H|].
  destruct (link_rows [app_unit; lib_unit] [109] m ms demo_interfaces H) as ((_ & Hc & _) & _ & _ & Hs). exact (conj Hc Hs).
Defined.
