(* ===== verification/LinkSafe.v ===== *)
(** * The linker fails only with an exception

    Linking units whose tables the loader has accepted and whose code is assembled never
    reads outside a table, a map or the code: the only failures are the linker's own
    exceptions and the [std::out_of_range] of a type descriptor whose index has no mapping.
    The proof is a small Hoare logic over outcomes. *)
From S2P Require Import Prelude.
From S2P Require Import Bytecode Prims TypeDesc Layout Heap HeapGC Frames ByteIO ModuleRecords ModuleSaver ModuleLoader ModuleFile ModuleImage.
From S2P Require Import Remap Package ModuleRecords DefaultExpr Linker LinkTables LinkMerge LinkFinal LinkSpec.
Open Scope Z_scope.

(** ** The logic *)
Definition diagnosed (e : vm_error) : Prop := (∃ msg, e = RuntimeError msg) ∨ e = OutOfRange.
Definition safe {A} (P : A → Prop) (m : outcome A) : Prop := match m with Ok a => P a | Raise e => diagnosed e end.
Definition fine {A} (m : outcome A) : Prop := safe (λ _, True) m.

Lemma safe_bind {A B} (P : A → Prop) (Q : B → Prop) m k : safe P m → (∀ a, P a → safe Q (k a)) → safe Q (m ≫= k).
Proof. destruct m; simpl; auto. Qed.
Lemma safe_mono {A} (P Q : A → Prop) m : safe P m → (∀ a, m = Ok a → P a → Q a) → safe Q m.
Proof. destruct m; simpl; auto. Qed.
Lemma fine_bind {A B} (m : outcome A) (k : A → outcome B) : fine m → (∀ a, m = Ok a → fine (k a)) → fine (m ≫= k).
Proof. destruct m; simpl; [intros _ H; by apply H|done]. Qed.
Lemma fine_Ok {A} (a : A) : fine (Ok a). Proof. done. Qed.
Lemma fine_Runtime {A} msg : fine (Raise (A := A) (RuntimeError msg)). Proof. left. by exists msg. Qed.
Lemma fine_check b msg : fine (check b (RuntimeError msg)). Proof. destruct b; [done|]. left. by exists msg. Qed.
Lemma fine_mapM {A B} (f : A → outcome B) l : (∀ a, a ∈ l → fine (f a)) → fine (mapM f l).
Proof.
  induction l as [|a l IH]; intros Hf; [done|]. simpl. apply fine_bind; [apply Hf; by left|]. intros b _.
  apply fine_bind; [apply IH; intros x Hx; apply Hf; by right|done].
Qed.
Lemma fine_mapM_all {A B} (f : A → outcome B) l : (∀ a, fine (f a)) → fine (mapM f l).
Proof. intros Hf. apply fine_mapM. auto. Qed.
Lemma fine_foldM {A S} (f : S → A → outcome S) l : (∀ s a, fine (f s a)) → ∀ s, fine (foldM f s l).
Proof. intros Hf. induction l as [|a l IH]; intros s; [done|]. simpl. apply fine_bind; [apply Hf|auto]. Qed.

Create HintDb fine discriminated.
#[export] Hint Resolve fine_Ok fine_Runtime fine_check fine_mapM_all : fine.
(** Sequences, branches and known pieces. *)
Ltac solve_fine :=
  repeat first
    [ progress auto with fine
    | match goal with
      | |- fine (mbind _ _) => apply fine_bind; [|intros ? _]
      | |- fine (mapM _ _) => apply fine_mapM_all
      | |- fine (if decide ?P then _ else _) => destruct (decide P)
      | |- fine (match ?x with Some _ => _ | None => _ end) => destruct x
      | |- fine (let '(_, _) := ?x in _) => destruct x
      | |- ∀ _, _ => intros ?
      end ].

(** ** The remaps *)
Lemma fine_Lookup m i : fine (Lookup m i).
Proof. unfold Lookup, nlink. solve_fine. Qed.
#[export] Hint Resolve fine_Lookup : fine.
Lemma fine_remap16 m i : fine (remap16 m i). Proof. unfold remap16. solve_fine. Qed.
#[export] Hint Resolve fine_remap16 : fine.
Lemma fine_map_at m i : fine (map_at m i). Proof. unfold map_at. destruct (m !! i); [done|by right]. Qed.
Lemma fine_RemapTypeDesc sm cm td : fine (RemapTypeDesc sm cm td).
Proof.
  induction td as [kd i r es IH] using TypeDesc_ind'. cbn [RemapTypeDesc]. apply fine_bind.
  { case_decide; [|case_decide; [|done]]; (apply fine_bind; [apply fine_map_at|done]). }
  intros ? _. apply fine_bind; [|done]. induction IH as [|e es He _ IHes]; [done|].
  apply fine_bind; [done|]. intros ? _. apply fine_bind; [exact IHes|done].
Qed.
#[export] Hint Resolve fine_RemapTypeDesc : fine.
Lemma fine_RemapDefault m ctx dv : fine (RemapDefaultValueStrings m ctx dv).
Proof.
  unfold RemapDefaultValueStrings, nlink. solve_fine.
  destruct (ExprDescRemapStrings _ _) as [|e] eqn:E; [done|].
  apply ExprDescRemapStrings_raises in E as (j & Hj). pose proof (fine_Lookup (strings m) j) as H. by rewrite Hj in H.
Qed.
#[export] Hint Resolve fine_RemapDefault : fine.
Lemma fine_RemapStaticField m sf : fine (RemapStaticField m sf). Proof. unfold RemapStaticField. solve_fine. Qed.
Lemma fine_RemapParamType m p : fine (RemapParamType m p). Proof. unfold RemapParamType. solve_fine. Qed.
Lemma fine_RemapTryBlock m p : fine (RemapTryBlock m p). Proof. unfold RemapTryBlock. solve_fine. Qed.
#[export] Hint Resolve fine_RemapStaticField fine_RemapParamType fine_RemapTryBlock : fine.
Lemma fine_RemapConstant m ctx p : fine (RemapConstant m ctx p). Proof. unfold RemapConstant. solve_fine. Qed.
Lemma fine_RemapSignature m ctx p : fine (RemapSignature m ctx p). Proof. unfold RemapSignature. solve_fine. Qed.
#[export] Hint Resolve fine_RemapConstant fine_RemapSignature : fine.
Lemma fine_RemapClass m c : fine (RemapClass m c). Proof. unfold RemapClass. solve_fine. Qed.
Lemma fine_RemapStruct m c : fine (RemapStruct m c). Proof. unfold RemapStruct. solve_fine. Qed.
Lemma fine_RemapEnum m c : fine (RemapEnum m c). Proof. unfold RemapEnum. solve_fine. Qed.
Lemma fine_RemapStaticSlot m c : fine (RemapStaticSlot m c). Proof. unfold RemapStaticSlot. solve_fine. Qed.
Lemma fine_RemapInterface m c : fine (RemapInterfaceMetadata m c).
Proof. unfold RemapInterfaceMetadata. cbv zeta. solve_fine. Qed.
Lemma fine_RemapArrayType m c : fine (RemapArrayType m c). Proof. unfold RemapArrayType. solve_fine. Qed.
#[export] Hint Resolve fine_RemapArrayType : fine.
Lemma fine_MergeArrayTypes u t m : fine (MergeArrayTypes u t m). Proof. unfold MergeArrayTypes. solve_fine. Qed.

(** The code of a function is a sequence of whole instructions. *)
Definition assembled (f : CompiledFunction) : Prop := ∃ prog, Forall wf_instr prog ∧ func_bytecode f = asm prog.
Lemma fine_FinalizeFunction m f : assembled f → fine (FinalizeFunction m f).
Proof.
  intros (prog & Hwf & Hcode). unfold FinalizeFunction. apply fine_bind; [|intros ? _; solve_fine].
  unfold RemapCode, nlink. rewrite Hcode, remap_asm, bindE by done. destruct (prog ≫= _) as [|[? ?] ?]; [done|apply fine_Runtime].
Qed.

Lemma fine_remap_pushed {A} (f : A → outcome A) idxs : ∀ rows, NoDup idxs → Forall (λ i, 0 ≤ i) idxs →
  (∀ n, Z.of_nat n ∈ idxs → ∃ r, rows !! n = Some r ∧ fine (f r)) → fine (remap_pushed f idxs rows).
Proof.
  unfold remap_pushed. induction idxs as [|i idxs IH]; intros rows Hnd Hpos Hrows; [done|]. simpl.
  apply list.NoDup_cons in Hnd as [Hi Hnd]. apply list.Forall_cons in Hpos as [Hi0 Hpos].
  destruct (Hrows (Z.to_nat i)) as (r & Hr & Hf); [rewrite Z2Nat.id by done; by left|].
  rewrite Hr. simpl. apply fine_bind; [apply fine_bind; [done|done]|]. intros rows1 H1.
  apply bind_Ok in H1 as (r' & _ & [= <-]). apply IH; [done..|]. intros n Hn.
  destruct (Hrows n) as (q & Hq & ?); [by right|]. exists q. rewrite list_lookup_insert_ne; [done|].
  intros E. apply Hi. by rewrite <- (Z2Nat.id i), E by done.
Qed.

(** ** Slots *)

(** What the linker relies on: no negative index among the members of types and the
    ordinals of imports, and assembled code. *)
Record linkable (u : CompiledModule) : Prop := {
  lb_ordinals : Forall (λ imp, 0 ≤ imp_ownerOrdinal imp) (mod_functionImports u);
  lb_slots : Forall (λ imp, 0 ≤ imp_ownerOrdinal imp) (mod_staticSlotImports u);
  lb_classes : Forall (λ c, Forall (λ i, 0 ≤ i) (cc_methodIndices c) ∧ Forall (λ i, 0 ≤ i) (cc_constructorIndices c)) (mod_classes u);
  lb_structs : Forall (λ s, Forall (λ i, 0 ≤ i) (st_constructorIndices s)) (mod_structs u);
  lb_code : Forall assembled (mod_functions u)
}.

Definition pos_hit (r : FunctionSlotHit) : Prop := (0 < hits r)%nat → 0 ≤ hit r.
Lemma pos_count k r : 0 ≤ k → pos_hit r → (hit r < 0 ∨ (0 < hits r)%nat) → pos_hit (count_hit k r).
Proof. intros Hk Hr Hor _. unfold count_hit. simpl. case_decide; lia. Qed.
Lemma pos_no_hit : pos_hit no_hit. Proof. intros H. simpl in H. lia. Qed.

Lemma namespaced_pos tgt imp : 0 ≤ imp_ownerOrdinal imp → pos_hit (ResolveNamespacedFunction tgt imp).
Proof.
  intros Ho. unfold ResolveNamespacedFunction. case_decide.
  - destruct (_ !! _) as [f|]; [|by intros ?%Nat.lt_irrefl]. destruct (same_signature imp f); [intros _; exact Ho|by intros ?%Nat.lt_irrefl].
  - apply (each_row_ind _ (λ seen r, pos_hit r ∧ (hit r < 0 ∨ (0 < hits r)%nat))); [|split; [apply pos_no_hit|by left]].
    intros seen f rest r _ [Hr Hor]. destruct (same_signature imp f); [|done].
    split; [apply pos_count; [unfold size; lia|done..]|right; simpl; lia].
Qed.
Lemma nth_method_pos tgt tc imp mis : Forall (λ i, 0 ≤ i) mis → ∀ ordinal, pos_hit (nth_method tgt tc imp ordinal mis).
Proof.
  induction 1 as [|mi mis Hmi _ IH]; intros ordinal; simpl; [apply pos_no_hit|].
  repeat case_match; auto using pos_no_hit. intros _. exact Hmi.
Qed.
Lemma scan_methods_pos tgt imp mis : Forall (λ i, 0 ≤ i) mis → pos_hit (scan_methods tgt imp mis).
Proof.
  intros Hmis. unfold scan_methods. assert (∀ r, pos_hit r → (hit r < 0 ∨ (0 < hits r)%nat) →
    pos_hit (foldl (λ r mi, match own_functions tgt !! Z.to_nat mi with
      | Some f => if same_signature imp f then count_hit mi r else r | None => r end) r mis)) as G;
    [|apply G; [apply pos_no_hit|by left]].
  induction Hmis as [|mi mis Hmi _ IH]; intros r Hr Hor; simpl; [done|].
  destruct (_ !! _) as [f|]; [|by apply IH]. destruct (same_signature imp f); [|by apply IH].
  apply IH; [by apply pos_count|right; simpl; lia].
Qed.
Lemma resolve_pos tgt imp : linkable tgt → 0 ≤ imp_ownerOrdinal imp → pos_hit (resolve_function tgt imp).
Proof.
  intros [_ _ Hc Hs _] Ho. unfold resolve_function. case_decide; [by apply namespaced_pos|].
  unfold ResolveOwnerKeyedFunction. destruct (FindOwnerType tgt imp) as [o|] eqn:E; [|apply pos_no_hit].
  change (pos_hit (found_owner ?r)) with (pos_hit r).
  assert (match o with inl tc => Forall (λ i, 0 ≤ i) (cc_methodIndices tc) | inr _ => True end ∧
    Forall (λ i, 0 ≤ i) (constructors_of o)) as [Hm Hk].
  { unfold FindOwnerType in E. case_decide.
    - destruct (list_find _ _) as [[n s]|] eqn:Hf; [|done]. injection E as <-. apply list_find_Some in Hf as (Hn & _).
      split; [done|]. exact (list.Forall_lookup_1 _ _ _ _ (own_subset _ (mod_structImports tgt) _ Hs) Hn).
    - destruct (list_find _ _) as [[n c]|] eqn:Hf; [|done]. injection E as <-. apply list_find_Some in Hf as (Hn & _).
      exact (list.Forall_lookup_1 _ _ _ _ (own_subset _ (mod_classImports tgt) _ Hc) Hn). }
  case_decide.
  - destruct o as [tc|]; [|apply pos_no_hit]. unfold ResolveMethodRecord.
    case_decide; [by apply nth_method_pos|by apply scan_methods_pos].
  - unfold ResolveConstructor. case_decide; [|apply pos_no_hit].
    destruct (constructors_of o !! _) as [ci|] eqn:Hci; [|apply pos_no_hit].
    destruct (own_functions tgt !! _); [|apply pos_no_hit]. case_decide; [|apply pos_no_hit].
    intros _. exact (list.Forall_lookup_1 _ _ _ _ Hk Hci).
Qed.

(** The maps while the slots are being resolved. *)
Record slots_inv (units : list CompiledModule) (ms0 : list NcuOperandMaps) (s : slot_state) : Prop := {
  si_length : length s.1 = length units;
  si_functions : own_kept functions fn_own units ms0 s.1;
  si_slots : own_kept slots slot_own units ms0 s.1
}.
Lemma own_kept_other get (put : NcuOperandMaps → gmap Z Z → NcuOperandMaps) own_n units ms0 ui ms m g : (∀ m g, get (put m g) = get m) → own_kept get own_n units ms0 ms →
  ms !! ui = Some m → own_kept get own_n units ms0 (<[ui := put m g]> ms).
Proof.
  intros Hget HI Hm uj u m0 mj i Hu Hm0 Hmj Hi. apply lookup_lt_Some in Hm as Hlt. destruct (decide (uj = ui)) as [->|Hne].
  - rewrite list_lookup_insert_eq in Hmj by done. simplify_eq. rewrite Hget. by eapply HI.
  - rewrite list_lookup_insert_ne in Hmj by done. by eapply HI.
Qed.
Lemma safe_note units ms0 line s : slots_inv units ms0 s → safe (slots_inv units ms0) (note line s).
Proof. by intros []. Qed.

Lemma safe_each_import P f imps base : (∀ slot imp s, imp ∈ imps → base ≤ slot → P s → safe P (f slot imp s)) →
  ∀ slot (s : slot_state), base ≤ slot → P s → safe P (each_import f slot imps s).
Proof.
  induction imps as [|imp imps IH]; intros Hf slot s Hb Hs; [done|]. simpl.
  eapply safe_bind; [by apply Hf; [left|..]|]. intros s1 H1. apply IH; [|lia|done]. intros ? ? ? ?. apply Hf. by right.
Qed.
Lemma safe_each_unit {S} (P : S → Prop) f units : (∀ ui u s, units !! ui = Some u → P s → safe P (f ui u s)) →
  ∀ s, P s → safe P (each_unit f 0 units s).
Proof.
  intros Hf. assert (∀ rest seen s, units = seen ++ rest → P s → safe P (each_unit f (length seen) rest s)) as G.
  { induction rest as [|u rest IH]; intros seen s E Hs; [done|]. simpl.
    eapply safe_bind; [apply Hf; [rewrite E; by apply list_lookup_middle|done]|]. intros s1 H1.
    replace (length seen + 1)%nat with (length (seen ++ [u])) by (rewrite length_app; simpl; lia).
    apply IH; [by rewrite <- app_assoc|done]. }
  intros s. by apply (G units []).
Qed.

Section slots.
Context (units : list CompiledModule) (k : linking) (Hinv : link_inv units k) (Hunits : Forall linkable units).
Context (Hvalid : Forall unit_valid units).
Abbreviation J := (slots_inv units (maps k)).

Lemma unitOf_units path o : unitOf units path = Some o → ∃ tgt, units !! o = Some tgt.
Proof.
  unfold unitOf. destruct (list_find _ units) as [[n u]|] eqn:E; [|done]. intros [= <-]. apply list_find_Some in E as (? & _). by exists u.
Qed.
Lemma slots_unit s ui u : J s → units !! ui = Some u → ∃ mk m, maps k !! ui = Some mk ∧ s.1 !! ui = Some m.
Proof.
  intros [Hl _ _] Hu. apply lookup_lt_Some in Hu.
  destruct (lookup_lt_is_Some_2 (maps k) ui) as [mk ?]; [rewrite (li_maps _ _ Hinv); lia|].
  destruct (lookup_lt_is_Some_2 s.1 ui) as [m ?]; [lia|]. by exists mk, m.
Qed.

Lemma safe_function_slot ui u slot imp s : units !! ui = Some u → imp ∈ mod_functionImports u → fn_own u ≤ slot → J s →
  safe J (ResolveFunctionSlot units ui u slot imp s).
Proof.
  intros Hu Himp Hslot Hs. unfold ResolveFunctionSlot. destruct (unitOf units _) as [o|] eqn:Ho; [|by apply safe_note].
  destruct (unitOf_units _ _ Ho) as (tgt & Htgt). rewrite Htgt. cbn [deref]. rewrite bindE.
  rewrite counts_fit_valid, bindE by (by eapply list.Forall_lookup_1). cbv zeta.
  assert (linkable tgt ∧ linkable u) as [Ltgt Lu] by (split; by eapply list.Forall_lookup_1).
  assert (0 ≤ imp_ownerOrdinal imp) as Hord by (eapply list.Forall_forall in Himp; [exact Himp|apply (lb_ordinals _ Lu)]).
  pose proof (resolve_pos tgt imp Ltgt Hord) as Hpos. pose proof (resolve_function_good tgt imp) as Hgood.
  destruct (hits (resolve_function tgt imp)) as [|[|]] eqn:Hh; [by apply safe_note| |by apply safe_note].
  destruct (slots_unit _ _ _ Hs Htgt) as (mko & mo & Hmko & Hmo), (slots_unit _ _ _ Hs Hu) as (mk & m & Hmk & Hm).
  rewrite Hmo, Hm. cbn [deref]. rewrite !bindE. unfold pos_hit in Hpos. rewrite Hh in Hpos. specialize (Hpos ltac:(lia)).
  destruct (Hgood ltac:(lia)) as (f & Hf & _). pose proof (own_lookup_lt _ _ _ _ Hf) as Hlt.
  destruct (li_functions _ _ Hinv) as [Hcol _ _].
  destruct (lookup_lt_is_Some_2 (pushes k) o) as [po Hpo].
  { rewrite (li_pushes _ _ Hinv). by eapply lookup_lt_Some. }
  pose proof (list.Forall_lookup_1 _ _ _ _ Hcol (shares_in_lookup own_functions functions p_functions _ _ _ _ _ _ _ Htgt Hmko Hpo)) as Hin.
  destruct (ui_mapped _ _ _ _ Hin _ _ Hf) as (n & b & Hn & _). rewrite Z2Nat.id in Hn by done. simpl in Hn.
  rewrite (si_functions _ _ _ Hs o tgt mko mo _ Htgt Hmko Hmo Hlt), Hn. cbn [deref]. rewrite bindE. simpl.
  split; simpl; [by rewrite length_insert, (si_length _ _ _ Hs)| |].
  - apply (own_kept_put _ _ _ _ _ _ u _ _ _ lens_functions Hu (si_functions _ _ _ Hs) Hm). intros i Hi. apply lookup_insert_ne. lia.
  - by apply own_kept_other; [|apply (si_slots _ _ _ Hs)|].
Qed.

Lemma safe_type_slot kind find get put ui u slot imp s :
  (∀ m g, functions (put m g) = functions m) → (∀ m g, slots (put m g) = slots m) → units !! ui = Some u → J s →
  safe J (ResolveTypeSlot kind find get put ui u slot imp s).
Proof.
  intros Hf Hsl Hu Hs. unfold ResolveTypeSlot. destruct (find _); [|by apply safe_note].
  destruct (slots_unit _ _ _ Hs Hu) as (mk & m & Hmk & Hm). rewrite Hm. simpl.
  split; simpl; [by rewrite length_insert, (si_length _ _ _ Hs)|..]; apply own_kept_other; try done; apply Hs.
Qed.

Lemma safe_static_slot ui u slot imp s : units !! ui = Some u → slot_own u ≤ slot → 0 ≤ imp_ownerOrdinal imp → J s →
  safe J (ResolveStaticSlotSlot units ui u slot imp s).
Proof.
  intros Hu Hslot Hord Hs. unfold ResolveStaticSlotSlot. destruct (unitOf units _) as [o|] eqn:Ho; [|by apply safe_note].
  destruct (unitOf_units _ _ Ho) as (tgt & Htgt). rewrite Htgt. cbn [deref]. rewrite bindE.
  rewrite counts_fit_valid, bindE by (by eapply list.Forall_lookup_1).
  destruct (own_slots tgt !! _) as [row|] eqn:Hrow; [|by apply safe_note]. case_decide; [|by apply safe_note].
  destruct (slots_unit _ _ _ Hs Htgt) as (mko & mo & Hmko & Hmo), (slots_unit _ _ _ Hs Hu) as (mk & m & Hmk & Hm).
  rewrite Hmo, Hm. cbn [deref]. rewrite !bindE. pose proof (own_lookup_lt _ _ _ _ Hrow) as Hlt.
  destruct (li_slots _ _ Hinv) as [Hcol _ _].
  destruct (lookup_lt_is_Some_2 (pushes k) o) as [po Hpo].
  { rewrite (li_pushes _ _ Hinv). by eapply lookup_lt_Some. }
  pose proof (list.Forall_lookup_1 _ _ _ _ Hcol (shares_in_lookup own_slots slots p_slots _ _ _ _ _ _ _ Htgt Hmko Hpo)) as Hin.
  destruct (ui_mapped _ _ _ _ Hin _ _ Hrow) as (n & b & Hn & _). rewrite Z2Nat.id in Hn by done. simpl in Hn.
  rewrite (si_slots _ _ _ Hs o tgt mko mo _ Htgt Hmko Hmo Hlt), Hn. cbn [deref]. rewrite bindE. simpl.
  split; simpl; [by rewrite length_insert, (si_length _ _ _ Hs)| |].
  - by apply own_kept_other; [|apply (si_functions _ _ _ Hs)|].
  - apply (own_kept_put _ _ _ _ _ _ u _ _ _ lens_slots Hu (si_slots _ _ _ Hs) Hm). intros i Hi. apply lookup_insert_ne. lia.
Qed.

Lemma safe_resolve s : J s → safe J (NcuResolveSlots units (merged k) s).
Proof.
  intros Hs. unfold NcuResolveSlots, ResolveFunctionSlots, ResolveTypeSlots, ResolveStaticSlotSlots.
  eapply safe_bind; [|intros s1 H1; eapply safe_bind; [|intros s2 H2]].
  - apply safe_each_unit; [|done]. intros ui u s0 Hu H0. apply (safe_each_import _ _ _ (fn_own u)); [|done|done].
    intros. by apply safe_function_slot.
  - apply safe_each_unit; [|done]. intros ui u s0 Hu H0.
    eapply safe_bind; [|intros s2 H2; eapply safe_bind; [|intros s3 H3]];
      (eapply safe_each_import; [|reflexivity|done]); intros; by apply safe_type_slot.
  - apply safe_each_unit; [|done]. intros ui u s0 Hu H0. apply (safe_each_import _ _ _ (slot_own u)); [|done|done].
    intros slot imp s3 Himp ? ?. apply (safe_static_slot _ u); [done..| |done].
    eapply list.Forall_lookup_1 in Hunits; [|exact Hu]. by eapply list.Forall_forall in Himp; [|apply (lb_slots _ Hunits)].
Qed.

(** ** The final loop *)
Lemma fine_table {A K} (key : A → option K) R own_of get push (f : NcuOperandMaps → A → outcome A) orig ms n (rows : list A) u m p :
  merged_table key R orig (shares_in own_of get push units (maps k) (pushes k)) →
  half f push (pushes k) orig n ms rows → units !! n = Some u → pushes k !! n = Some p →
  (∀ r, r ∈ own_of u → fine (f m r)) → fine (remap_pushed (f m) (push p) rows).
Proof.
  intros Ht [Hl Hh] Hu Hp Hf.
  pose proof (shares_in_once _ _ _ _ _ _ _ _ _ Ht (li_maps _ _ Hinv) (li_pushes _ _ Hinv)) as Honce.
  destruct (once_push push _ _ Honce n p Hp) as [Hnd Hpos]. apply fine_remap_pushed; [done..|]. intros i Hi.
  destruct (Hh n p i Hp Hi) as [_ Hafter]. rewrite Hafter by lia.
  destruct (lookup_lt_is_Some_2 (maps k) n) as [mk Hmk]; [rewrite (li_maps _ _ Hinv); by eapply lookup_lt_Some|].
  pose proof (list.Forall_lookup_1 _ _ _ _ (mt_units _ _ _ _ Ht) (shares_in_lookup own_of get push _ _ _ _ _ _ _ Hu Hmk Hp)) as Hin.
  destruct (ui_pushed _ _ _ _ Hin _ Hi) as (n' & j & b & En & Hb & Hown & _). apply Nat2Z.inj in En as <-.
  exists b. split; [done|]. apply Hf. by eapply list_elem_of_lookup_2.
Qed.
Lemma fine_FinalizeUnit ms0 n t ms u m p : tables_half units k ms0 n t ms → units !! n = Some u → pushes k !! n = Some p →
  fine (FinalizeUnit t u m p).
Proof.
  intros Hh Hu Hp. pose proof Hinv as [_ _ _ If _ Ic Is Ie Isl Ii _]. destruct Hh as [_ Hf Hc Hs He Hsl Hi _ _ _].
  unfold FinalizeUnit. apply fine_bind; [apply fine_MergeArrayTypes|]. intros arrs _. cbv zeta.
  eapply list.Forall_lookup_1 in Hunits as Lu; [|exact Hu].
  repeat (apply fine_bind; [eapply fine_table; [eassumption..|]|intros ? _]); [..|done];
    auto using fine_RemapClass, fine_RemapStruct, fine_RemapEnum, fine_RemapStaticSlot, fine_RemapInterface.
  intros f Hown. apply fine_FinalizeFunction. eapply list.Forall_forall in Hown; [exact Hown|].
  apply own_subset, Lu.
Qed.
Lemma fine_FinalizeUnits ms0 : length ms0 = length units → fine (FinalizeUnits units (pushes k) (merged k) ms0).
Proof.
  intros Hl0. unfold FinalizeUnits. match goal with |- fine (each_unit ?F _ _ _) => set (pass := F) end.
  assert (∀ rest seen t0 m0, units = seen ++ rest → tables_half units k ms0 (length seen) t0 m0 →
    fine (each_unit pass (length seen) rest (t0, m0))) as G.
  { induction rest as [|u rest IH]; intros seen t0 m0 E Hh; [done|]. simpl.
    assert (units !! length seen = Some u) as Hu by (rewrite E; by apply list_lookup_middle).
    apply lookup_lt_Some in Hu as Hlt.
    destruct (lookup_lt_is_Some_2 m0 (length seen)) as [m Hm]; [rewrite (th_length _ _ _ _ _ _ Hh); lia|].
    destruct (lookup_lt_is_Some_2 (pushes k) (length seen)) as [p Hp]; [rewrite (li_pushes _ _ Hinv); lia|].
    unfold pass at 1. rewrite Hm, Hp. cbn [deref]. rewrite !bindE. apply fine_bind.
    - apply fine_bind; [by eapply fine_FinalizeUnit|]. by intros [] _.
    - intros [t1 m1] H1. apply bind_Ok in H1 as ([t2 m2] & H1 & [= <- <-]).
      replace (length seen + 1)%nat with (length (seen ++ [u])) by (rewrite length_app; simpl; lia).
      apply IH; [by rewrite <- app_assoc|].
      replace (length (seen ++ [u])) with (S (length seen)) by (rewrite length_app; simpl; lia).
      exact (FinalizeUnit_half _ _ _ _ _ _ _ _ _ _ _ Hinv Hl0 Hh Hu Hm Hp H1). }
  by apply (G units []), merged_half.
Qed.
End slots.

Lemma fine_MergeUnitTables units : Forall unit_valid units → fine (MergeUnitTables units).
Proof.
  unfold MergeUnitTables. generalize (Linking no_tables [] [] ∅ ∅).
  induction units as [|u units IH]; intros k0 Hv; [done|]. apply list.Forall_cons in Hv as [Hv Hvs]. cbn [foldM].
  apply fine_bind; [|intros k1 _; by apply IH]. unfold MergeUnit. destruct (MergeStrings _ _ _).
  unfold MergeClasses, MergeStructs, MergeStaticSlots, MergeFunctions. rewrite (MergeEnums_valid _ _ Hv).
  destruct Hv as [_ _ (V1 & V2 & V3 & _ & V5)].
  rewrite (own_rows_valid _ _ V1), (own_rows_valid _ _ V2), (own_rows_valid _ _ V3), (own_rows_valid _ _ V5), !bindE.
  apply fine_bind.
  - unfold check_struct, nlink. apply fine_bind; [|done]. apply fine_foldM. intros [] st.
    apply fine_bind; [apply fine_check|]. intros _ _. apply fine_foldM. intros [] ci. apply fine_check.
  - intros strcts _. rewrite !bindE. by destruct (each_row (merge_indexed stub_key) _ _ _), (MergeInterfaces _ _ _).
Qed.
Lemma fine_ValidateClosure units : fine (ValidateClosure units).
Proof.
  unfold ValidateClosure, nlink. apply fine_bind; [apply fine_check|]. intros _ _. apply fine_bind; [|done].
  apply fine_foldM. intros paths u. unfold ValidateUnit, checkTable, nlink. solve_fine.
Qed.

Lemma link_fails units entryKey e :
  Forall linkable units → Forall (λ u, NoDup (ci_name <$> mod_interfaces u)) units →
  Link units entryKey = Raise e → diagnosed e.
Proof.
  intros Hl Hnd H. enough (fine (LinkWithMaps units entryKey)) as Hf.
  { unfold Link in H. destruct (LinkWithMaps units entryKey); [done|]. by injection H as <-. }
  clear H. unfold LinkWithMaps. apply fine_bind; [apply fine_ValidateClosure|]. intros [] Hv.
  apply ValidateClosure_Ok in Hv as (Hne & Hval & _). destruct units as [|u0 us] eqn:Eu; [done|]. rewrite <- Eu in *.
  cbn [head hd_error]. rewrite Eu at 1. cbn [head deref]. rewrite bindE.
  apply fine_bind; [by apply fine_MergeUnitTables|]. intros k Hk. pose proof (MergeUnitTables_inv _ _ Hval Hnd Hk) as Hinv.
  assert (slots_inv units (maps k) (maps k, [])) as Hs.
  { split; [apply Hinv|..]; intros ui u m0 m i _ Hm0 Hm _; simpl in Hm; congruence. }
  apply fine_bind; [eapply safe_mono; [by apply safe_resolve|done]|]. intros [ms problems] Hr.
  pose proof (safe_resolve _ _ Hinv Hl Hval _ Hs) as Hr'. rewrite Hr in Hr'. destruct Hr' as [Hlen _ _].
  apply fine_bind; [apply fine_check|]. intros _ _. apply fine_bind; [by apply fine_FinalizeUnits|]. intros [t ms'] _.
  apply fine_bind; [|done]. unfold ResolveEntry, nlink. solve_fine.
Qed.

(** C30: Linking units whose code is whole instructions, whose member indices and ordinals
    are not negative (the loader reads them unsigned) and none of which names an interface
    twice either succeeds or raises an exception of the linker, or the [std::out_of_range] of
    a type descriptor whose index has no mapping ([unmapped_slot_type]): no index, map or byte outside
    its table is ever read, whatever the sizes of the tables, the imports and the
    descriptors of the units, and every loop ends.  The guards of [ValidateClosure] are what
    keeps the loops inside the tables ([unvalidated_tables_overread]). *)
Theorem link_diagnosed units entryKey e :
  Forall linkable units → Forall (λ u, NoDup (ci_name <$> mod_interfaces u)) units →
  Link units entryKey = Raise e → diagnosed e.
Proof. apply link_fails. Qed.

(** What the loader accepts is linkable, the code apart. *)
Lemma loaded_linkable u entryKey : module_ok u entryKey → Forall assembled (mod_functions u) → linkable u.
Proof.
  intros [_ _ _ _ _ [_ Hs] [[_ Hc] _] _ _ _ _ _ ((_ & Hf) & _ & _ & _ & (_ & Hsl)) _ _] Hcode.
  assert (∀ n l, Forall (index_ok n) l → Forall (λ i, 0 ≤ i) l) as Hidx.
  { intros n l Hl. eapply list.Forall_impl; [exact Hl|]. by intros i [[? _] _]. }
  split; [..|done].
  - eapply list.Forall_impl; [exact Hf|]. intros imp Hi. apply Hi.
  - eapply list.Forall_impl; [exact Hsl|]. intros imp Hi. apply Hi.
  - eapply list.Forall_impl; [exact Hc|]. intros c Hok. unfold cc_ok, counted in Hok. split; eapply Hidx; apply Hok.
  - eapply list.Forall_impl; [exact Hs|]. intros c Hok. unfold st_ok, counted in Hok. eapply Hidx; apply Hok.
Qed.

Lemma app_linkable : linkable app_unit.
Proof.
  split; [by repeat constructor..|]. repeat constructor; eexists; (split; [|reflexivity]).
  - apply (bool_decide_unpack (Forall wf_instr _)). by vm_compute.
  - constructor.
Qed.
Lemma lib_linkable : linkable lib_unit.
Proof.
  split; [by repeat constructor..|]. repeat constructor; eexists; (split; [|reflexivity]);
    apply (bool_decide_unpack (Forall wf_instr _)); by vm_compute.
Qed.
(** [app] alone: the link names what is missing. *)
Lemma link_diagnosed_witness : ∃ e msg, Link [app_unit] [109] = Raise e ∧ e = RuntimeError msg.
Proof.
  destruct (Link [app_unit] [109]) as [m|e] eqn:E; [exfalso; by vm_compute in E|].
  destruct (link_diagnosed [app_unit] [109] e (proj2 (list.Forall_singleton _ _) app_linkable) ltac:(repeat constructor) E) as [(msg & ->)| ->].
  - exists (RuntimeError msg), msg. split; reflexivity.
  - exfalso. vm_compute in E. discriminate.
Defined.

(** Without the guards the loops of pass A leave the tables: more imports than functions wrap
    the own count, and a short column of the enums is read past its end. *)
Definition tail_unit : CompiledModule :=
  MkCompiledModule [97] [97] [] [] [] [] [] [] [] [] [] [] [] [MkImport [98] [102] 0 [] false 0 kNone16] [] [] [] [] (-1).
Definition short_unit : CompiledModule :=
  MkCompiledModule [97] [97] [] [] [] [] [] [] [[[98]]] [[99]] [] [[]] [] [] [] [] [] [] (-1).
Lemma unvalidated_tables_overread :
  MergeUnitTables [tail_unit] = Raise OutOfBounds ∧ MergeUnitTables [short_unit] = Raise OutOfBounds ∧
  (∃ msg, Link [tail_unit] [] = Raise (RuntimeError msg)) ∧ ∃ msg, Link [short_unit] [] = Raise (RuntimeError msg).
Proof. split; [by vm_compute|]. split; [by vm_compute|]. split; eexists; vm_compute; reflexivity. Qed.

(** ** What is not checked *)

(** The walk over the code trusts it: an instruction cut short, which the loader accepts,
    is read past the end of the code. *)
Definition cut_unit : CompiledModule :=
  MkCompiledModule [97] [97] [] [MkFunction [109] 0 0 RTK_Void 65535 false false [] [op_byte OP_CallFunc] [] [] [] [] no_type []]
    [] [] [] [] [] [] [] [] [] [] [] [] [] [] (-1).
Lemma cut_code_overread :
  ∃ image, WriteCompiledModule cut_unit [] = Ok (Some image) ∧ LoadFromBytes image = Ok (cut_unit, []) ∧
    Link [cut_unit] [] = Raise OutOfBounds.
Proof. eexists. split; [vm_compute; reflexivity|]. split; vm_compute; reflexivity. Qed.

(** The merged tables have no bound, their indices 16 bits: the superclass at row 32768
    becomes a negative index, that is none. *)
Lemma superclass_wraps : ∃ c, RemapClass (OperandMaps ∅ ∅ {[1 := 32768]} ∅ ∅ ∅ ∅ ∅)
    (MkClassRecord [67] 0 1 false [] [] [] [] [] [] [] [] [] [] [] [] 65535) = Ok c ∧ cc_superClassIdx c = -32768.
Proof. eexists. split; vm_compute; reflexivity. Qed.

(** The type of a static slot names class 9 of a module without classes: the loader accepts
    it, and the link ends with an exception that has no message about the image. *)
Definition slot_unit : CompiledModule :=
  MkCompiledModule [97] [97] [] [] [] [] [] [] [] [] [] [] [MkStaticSlotRecord [115] [66] 0 0 0 (TD RTK_Class 9 1 [])]
    [] [] [] [] [] (-1).
Lemma unmapped_slot_type :
  (∃ image, WriteCompiledModule slot_unit [] = Ok (Some image) ∧ LoadFromBytes image = Ok (slot_unit, [])) ∧
  Link [slot_unit] [] = Raise OutOfRange.
Proof. split; [eexists; split; [vm_compute; reflexivity|]; vm_compute; reflexivity|]. vm_compute. reflexivity. Qed.

(** Nothing requires the interfaces of a unit to have different names.  [I] is declared empty
    and then with the static method 0 of its unit, which lands at row 1 of the merged table:
    the row is pushed twice and remapped twice, and the linked interface names function 2. *)
Definition pad_unit : CompiledModule :=
  MkCompiledModule [97] [97] [] [MkFunction [112] 0 0 RTK_Void 65535 false false [] [] [] [] [] [] no_type []]
    [] [] [] [] [] [] [] [] [] [] [] [] [] [] (-1).
Definition twice_unit : CompiledModule :=
  MkCompiledModule [98] [98] []
    [MkFunction [102] 0 0 RTK_Void 65535 false true [] [] [] [] [] [] no_type [];
     MkFunction [103] 0 0 RTK_Void 65535 false true [] [] [] [] [] [] no_type []]
    [] [] [MkInterface [73] [] [] [] kNone16; MkInterface [73] [0] [] [] kNone16] [] [] [] [] [] [] [] [] [] [] [] (-1).
Lemma repeated_interface_remapped_twice :
  (∃ image, WriteCompiledModule twice_unit [] = Ok (Some image) ∧ LoadFromBytes image = Ok (twice_unit, [])) ∧
  ∃ m, Link [pad_unit; twice_unit] [] = Ok m ∧ func_name <$> mod_functions m = [[112]; [102]; [103]] ∧
    mod_interfaces m = [MkInterface [73] [2] [] [] kNone16].
Proof.
  split; [eexists; split; [vm_compute; reflexivity|]; vm_compute; reflexivity|].
  eexists. split; [vm_compute; reflexivity|]. split; vm_compute; reflexivity.
Qed.
