(* ===== verification/DiscoveryLink.v ===== *)
(** * From an artifact to a linked module

    What the loader returns meets the demands of the linker: the closure is valid, the
    modules of its imports are in it, and linking it gives a module or a diagnosis.  One kind
    of import is forgotten, which a closure that cannot be linked shows. *)
From S2P Require Import Prelude.
From S2P Require Import Bytecode Prims TypeDesc Layout Heap HeapGC Frames ByteIO ModuleRecords ModuleSaver ModuleLoader ModuleFile ModuleImage.
From S2P Require Import Remap Package ModuleRecords DefaultExpr Linker LinkTables LinkMerge LinkFinal LinkSpec LinkSafe.
From S2P Require Import Discovery DiscoverySpec.
Open Scope Z_scope.

(** ** The bytes of a member are bytes of its package *)
Lemma ParseMember_bytes image pos path m pos' : Forall is_byte image → ParseMember image pos path = Ok (m, pos') →
  Forall is_byte (member_bytes m).
Proof.
  intros Hb H. unfold ParseMember, substr in H. repeat (apply bind_Ok in H as (? & ? & H)). cbv zeta in H.
  repeat (apply bind_Ok in H as (? & ? & H)). injection H as <- <-. monad_inv. simpl. by apply Forall_take, Forall_drop.
Qed.
Lemma ParseMemberTable_bytes image path n : Forall is_byte image → ∀ pos rows rows' pos',
  ParseMemberTable image pos n path rows = Ok (rows', pos') → Forall (λ m, Forall is_byte (member_bytes m)) rows →
  Forall (λ m, Forall is_byte (member_bytes m)) rows'.
Proof.
  intros Hb. induction n as [|n IH]; intros pos rows rows' pos' H Hr; cbn [ParseMemberTable] in H; [by injection H as <- <-|].
  apply bind_Ok in H as ([m p] & Hm & H). eapply IH; [exact H|]. apply Forall_app. split; [done|].
  apply list.Forall_singleton. by eapply ParseMember_bytes.
Qed.

Section link.
Context (fs : FileSystem) (searchDirs : list bytes).
Context (Hfiles : ∀ path image, fs_files fs !! path = Some (Some image) → Forall is_byte image).

Lemma open_bytes path image : open_file fs path = Some image → Forall is_byte image.
Proof. unfold open_file. destruct (fs_files fs !! path) as [[x|]|] eqn:E; [|done..]. intros [= <-]. by eapply Hfiles. Qed.
Lemma package_bytes path pkg target image : package_at fs path = Some pkg → extracted pkg target = Some image → Forall is_byte image.
Proof.
  unfold package_at, extracted, ExtractMember. intros Hp Hx. destruct (Open _ _ _) as [p|] eqn:E; [|done]. injection Hp as ->.
  unfold Open in E. destruct (open_file fs path) as [bs|] eqn:Eo; [|done]. repeat (apply bind_Ok in E as ([? ?] & ? & E) || apply bind_Ok in E as (? & ? & E)).
  injection E as <-. simpl in Hx. destruct (list_find _ _) as [[i m]|] eqn:F; [|done]. apply list_find_index_lt in F as (_ & Hi & _) || apply list_find_Some in F as (Hi & _ & _).
  case_decide; [|done]. injection Hx as <-.
  apply (list.Forall_lookup_1 (λ m, Forall is_byte (member_bytes m)) _ i m) in Hi; [exact Hi|].
  eapply ParseMemberTable_bytes; [by eapply open_bytes|done|constructor].
Qed.
Lemma first_package_at paths target pkg : first_package fs paths target = Some pkg → ∃ path, package_at fs path = Some pkg.
Proof.
  induction paths as [|path paths IH]; [done|]. cbn [first_package]. destruct (package_at fs path) as [q|] eqn:E; [|done].
  case_decide; [|done]. intros [= <-]. by exists path.
Qed.
Lemma find_image_bytes dirs target image : find_image fs dirs target = Some image → Forall is_byte image.
Proof.
  induction dirs as [|dir dirs IH]; [done|]. cbn [find_image]. destruct (is_regular_file _ _); [apply open_bytes|].
  destruct (first_package _ _ _) as [pkg|] eqn:E; [|done]. apply first_package_at in E as [path E]. by eapply package_bytes.
Qed.
Lemma image_of_bytes artifact entry u0 key target image : entry_of fs artifact entry u0 key →
  image_of fs searchDirs entry target = Some image → Forall is_byte image.
Proof.
  intros He H. unfold image_of in H. destruct entry as [pkg|]; [case_decide|]; [|by eapply find_image_bytes..].
  inversion He; subst; by eapply package_bytes.
Qed.
Lemma entry_bytes artifact entry u0 key : entry_of fs artifact entry u0 key →
  ∃ image k, Forall is_byte image ∧ LoadFromBytes image = Ok (u0, k).
Proof.
  intros He. destruct He as [image u k _ Ho Hl|pkg rec image u k _ Hp _ Hx Hl _|pkg path paths image u k _ Hp _ _ Hx Hl _];
    exists image, k; (split; [|done]); [by eapply open_bytes|by eapply package_bytes..].
Qed.

(** Every unit of a closure is a module the loader has accepted. *)
Lemma closure_loaded artifact entry u0 key w u : entry_of fs artifact entry u0 key → inv fs searchDirs entry u0 w →
  u ∈ w_units w → ∃ k, module_ok u k.
Proof.
  intros He I Hu. destruct (i_found _ _ _ _ _ I u Hu) as [->|(_ & image & k & Hi & Hl)].
  - apply entry_bytes in He as (image & k & Hb & Hl). exists k. by eapply loaded_ok.
  - exists k. eapply loaded_ok; [|exact Hl]. by eapply image_of_bytes.
Qed.

(** ** The imports *)
Definition followed (u : CompiledModule) : list SymbolImport :=
  mod_functionImports u ++ mod_classImports u ++ mod_structImports u ++ mod_enumImports u.
Lemma targets_of_followed u imp : imp ∈ followed u → imp_modulePath imp ∈ targets_of u.
Proof. unfold followed, targets_of. rewrite !elem_of_app, !elem_of_collect. naive_solver. Qed.
Lemma unitOf_closure units t : t ∈ mod_modulePath <$> units → is_Some (unitOf units t).
Proof.
  intros (u & -> & Hu)%list_elem_of_fmap. unfold unitOf. destruct (list_find _ units) eqn:E; [by eexists|].
  apply list_find_None in E. rewrite list.Forall_forall in E. by destruct (E u Hu).
Qed.
Lemma valid_nonempty t : IsValidModulePath t = true → t ≠ [].
Proof. by intros H ->. Qed.

(** C31: What the loader returns is what the linker asks for: if the entry unit has a module
    path, the closure is valid (no duplicate path, parallel enum tables, import tails inside
    their tables) and every function, class, struct and enum import finds the unit that
    provides it; imports of static slots are excepted ([static_slot_import_not_followed]).
    If moreover the code of every unit is whole instructions and no unit names an interface
    twice, neither of which the loader checks, the link succeeds or raises one of its own
    exceptions, or the [std::out_of_range] of a type descriptor. *)
Theorem closure_links fuel artifact units key u0 : LoadClosure fs searchDirs fuel artifact = Ok (units, key) →
  head units = Some u0 → mod_modulePath u0 ≠ [] →
  ValidateClosure units = Ok tt ∧
  (∀ u imp, u ∈ units → imp ∈ followed u → is_Some (unitOf units (imp_modulePath imp))) ∧
  (Forall (λ u, Forall assembled (mod_functions u) ∧ NoDup (ci_name <$> mod_interfaces u)) units →
  ∀ entryKey e, Link units entryKey = Raise e → diagnosed e).
Proof.
  intros (entry & v0 & w & He & I & -> & Hp & Hs)%closure_walk Hh Hne.
  rewrite (i_head _ _ _ _ _ I) in Hh. injection Hh as ->.
  assert (∀ u, u ∈ w_units w → ∃ k, module_ok u k) as Hok by (intros u Hu; by eapply closure_loaded).
  split; [|split].
  - apply ValidateClosure_Ok. split; [intros E; pose proof (i_head _ _ _ _ _ I) as H; by rewrite E in H|].
    split; [|apply I]. apply list.Forall_forall. intros u Hu. destruct (Hok u Hu) as [k Hm]. split.
    + destruct (i_found _ _ _ _ _ I u Hu) as [->|[Hv _]]; [done|by apply valid_nonempty].
    + destruct (mo_enums _ _ Hm) as [_ [Hk _] Hr%Forall2_length Hl]. lia.
    + apply Hm.
  - intros u imp Hu Hi%targets_of_followed. apply unitOf_closure. eapply i_complete; [exact I|done|].
    by apply (Hs u _ Hu Hi).
  - intros Hcode entryKey e. apply link_fails.
    + apply list.Forall_forall. intros u Hu. destruct (Hok u Hu) as [k Hm]. eapply loaded_linkable; [exact Hm|].
      rewrite list.Forall_forall in Hcode. by apply Hcode.
    + eapply list.Forall_impl; [exact Hcode|]. by intros u [_ ?].
Qed.
End link.

(** ** An application in a package, its library in another

    The entry package [p.npkg] has the module [a]; the module [l] it imports is a member
    of [d/q.npkg]. *)
Definition unit_image (u : CompiledModule) (entryKey : bytes) : bytes :=
  match WriteCompiledModule u entryKey with Ok (Some image) => image | _ => [] end.
Definition package_of (u : CompiledModule) (entryKey : bytes) : bytes :=
  let image := unit_image u entryKey in
  (BuildImage [Member (mod_modulePath u) image (NcuChecksum image)] [80] None).2.
Definition demo_artifact : bytes := [112] ++ NPKG_EXTENSION.
Definition demo_dir : bytes := [100].
Definition demo_fs : FileSystem :=
  MkFileSystem {[demo_artifact := Some (package_of app_unit [109]); join demo_dir ([113] ++ NPKG_EXTENSION) := Some (package_of lib_unit [])]}
    (λ dir, if decide (dir = demo_dir) then [[113] ++ NPKG_EXTENSION; [120]] else []).
Definition demo_closure := LoadClosure demo_fs [demo_dir] 3 demo_artifact.

(** What is read back from the images. *)
Lemma demo_closure_Ok : ∃ u v, demo_closure = Ok ([u; v], [109]) ∧ mod_modulePath u = [97] ∧
  (mod_functions u = mod_functions app_unit ∧ mod_functions v = mod_functions lib_unit) ∧
  mod_interfaces u = [] ∧ mod_interfaces v = [].
Proof. eexists _, _. split; [vm_compute; reflexivity|]. split; [reflexivity|]. split; split; reflexivity. Qed.
Lemma demo_bytes path image : fs_files demo_fs !! path = Some (Some image) → Forall is_byte image.
Proof.
  assert (map_Forall (λ _ file, Forall is_byte (default [] file)) (fs_files demo_fs)) as H
    by (apply (bool_decide_unpack _); vm_compute; exact I).
  intros E. exact (H path _ E).
Qed.

Lemma closure_complete_witness : ∃ units entry u0, demo_closure = Ok (units, [109]) ∧ length units = 2%nat ∧
  entry_of demo_fs demo_artifact entry u0 [109] ∧ (∀ u, u ∈ units ↔ reached demo_fs [demo_dir] entry u0 u).
Proof.
  destruct demo_closure_Ok as (u & v & H & _).
  destruct (closure_complete demo_fs [demo_dir] 3 demo_artifact _ _ H) as (entry & u0 & He & _ & Hr & _).
  exists [u; v], entry, u0. split; [exact H|]. split; [reflexivity|]. exact (conj He Hr).
Defined.
Lemma closure_terminates_witness : closure_bound demo_fs [demo_dir] demo_artifact = 5%nat ∧
  LoadClosure demo_fs [demo_dir] 5 demo_artifact ≠ Raise OutOfFuel.
Proof.
  assert (closure_bound demo_fs [demo_dir] demo_artifact = 5%nat) as E by (vm_compute; reflexivity). split; [exact E|].
  apply (closure_terminates demo_fs [demo_dir] demo_artifact 5). rewrite E. constructor.
Defined.
Lemma closure_links_witness : ∃ units, demo_closure = Ok (units, [109]) ∧ ValidateClosure units = Ok tt ∧
  (∀ u imp, u ∈ units → imp ∈ followed u → is_Some (unitOf units (imp_modulePath imp))) ∧
  ∀ e, Link units [] = Raise e → diagnosed e.
Proof.
  destruct demo_closure_Ok as (u & v & H & Hp & [Hu Hv] & Hi & Hj). exists [u; v]. split; [exact H|].
  assert (Forall (λ u, Forall assembled (mod_functions u) ∧ NoDup (ci_name <$> mod_interfaces u)) [u; v]) as Hcode.
  { apply list.Forall_cons; rewrite Hu, Hi. split; [|apply list.Forall_singleton; rewrite Hv, Hj]; (split; [|apply NoDup_nil_2]).
    - apply app_linkable.
    - apply lib_linkable. }
  destruct (closure_links demo_fs [demo_dir] demo_bytes 3 demo_artifact _ _ u H eq_refl ltac:(rewrite Hp; discriminate))
    as (H1 & H2 & H3). exact (conj H1 (conj H2 (H3 Hcode []))).
Defined.

(** ** An import the walk forgets

    [user] reads a constant of the interface [I] of [k], whose value is computed at run time
    and lives in a static slot of [k]: its only import is the slot. *)
Definition const_unit : CompiledModule :=
  MkCompiledModule [107] [107] [] [] [] [] [MkInterface [73] [] [MkInterfaceConstant [99] link_type no_default 0] [] 65535]
    [] [] [] [] [] [MkStaticSlotRecord [99] [73] 1 1 1 link_type] [] [] [] [] [] (-1).
Definition user_unit : CompiledModule :=
  MkCompiledModule [117] [117] [] [code_function [109] 0 [Instr OP_LoadStatic [0; 0]; Instr OP_Return []]] [] []
    [MkInterface [73] [] [] [] 65535] [] [] [] [] [] [MkStaticSlotRecord [99] [73] 1 0 0 link_type]
    [] [] [] [] [MkImport [107] [99] 0 [73] false 1 0] (-1).
Definition const_fs : FileSystem :=
  MkFileSystem {[ [117] ++ NCU_EXTENSION := Some (unit_image user_unit []); [107] ++ NCU_EXTENSION := Some (unit_image const_unit []) ]}
    (λ _, []).
(** The two units link, both files are in the directory searched, and yet the closure of
    [user] has one unit and does not link. *)
Lemma static_slot_import_not_followed :
  is_Ok (Link [user_unit; const_unit] []) ∧
  LoadClosure const_fs [ [] ] 3 ([117] ++ NCU_EXTENSION) = Ok ([user_unit], []) ∧
  Link [user_unit] [] = Raise (RuntimeError ("nlink failed:" +:+ Linker.nl +:+
    "unit 'u': import of static slot 'c' of interface 'I' from module 'k' fails: module 'k' is not in the link closure")).
Proof. split; [by vm_compute|]. split; vm_compute; reflexivity. Qed.
