(* ===== verification/GcStop.v ===== *)
(** * The collector's stop-the-world rendezvous ([vm/GcWorldStop.h/.cpp])

    Threads register, and set an executing bit around the bytecode they run.  A
    stop is requested by the first thread that finds the heap under pressure; the
    threads that were executing arrive one by one, and the last of them collects
    while the others sleep.  Every operation of the class is a function of the
    registry and of the calling thread's thread-locals; the two operations that
    wait on the condition variable are split there ([_enter] runs up to the wait,
    [_wake] from the moment its predicate holds).  The condition variable is the set
    of threads asleep on it: a wait whose predicate is false sleeps, [notify_all]
    wakes everybody, one may wake spuriously; [Complete] notifies after its critical
    section.  [step_by] interleaves the critical sections of any number of threads in
    the order in which [VmExecutor::CheckGCSafepoint], [ExecutingScope] and
    [CollectAndComplete] call them.  Theorems: a collecting thread is alone and no
    registered thread executes ([collector_quiescent]); the tripwires never fire
    ([rendezvous_no_tripwire]); in every fair run every stop ends and every waiter
    returns ([stop_terminates]). *)
From S2P Require Import Prelude.
From stdpp Require Import relations.
Open Scope Z_scope.

(** ** State *)

(** [ThreadEntry]; the published evaluation stack is an opaque address. *)
Record ThreadEntry := {
  evalStack : nat;
  executing : bool;
  live : bool;
  generation : Z;
}.

Record GcThreadToken := { tok_generation : Z; tok_index : nat }.

(** The data members of [GcWorldStop]. *)
Record GcWorldStop := {
  m_requestEpoch : Z;
  m_completedEpoch : Z;
  m_expected : Z;
  m_arrived : Z;
  m_threads : list ThreadEntry;
  m_freeIndices : list nat;      (* the back of the deque is the head *)
  m_nextGeneration : Z;
  m_executingCount : Z;
  m_stopActive : bool;
  m_stopCount : Z;
}.

Definition GcWorldStop0 : GcWorldStop :=
  {| m_requestEpoch := 0; m_completedEpoch := 0; m_expected := 0; m_arrived := 0;
     m_threads := []; m_freeIndices := []; m_nextGeneration := 1;
     m_executingCount := 0; m_stopActive := false; m_stopCount := 0 |}.

(** The thread-locals [t_selfEntry] (an index: entries never move) and
    [t_selfGeneration] of a thread, for the one instance it uses. *)
Record ThreadLocals := { t_selfEntry : option nat; t_selfGeneration : Z }.
Definition ThreadLocals0 : ThreadLocals :=
  {| t_selfEntry := None; t_selfGeneration := 0 |}.

Definition set_executing (e : ThreadEntry) (b : bool) : ThreadEntry :=
  {| evalStack := evalStack e; executing := b; live := live e; generation := generation e |}.
Definition set_live (e : ThreadEntry) (b : bool) : ThreadEntry :=
  {| evalStack := evalStack e; executing := executing e; live := b; generation := generation e |}.

Definition with_threads (g : GcWorldStop) (ts : list ThreadEntry) (count : Z) : GcWorldStop :=
  {| m_requestEpoch := m_requestEpoch g; m_completedEpoch := m_completedEpoch g;
     m_expected := m_expected g; m_arrived := m_arrived g; m_threads := ts;
     m_freeIndices := m_freeIndices g; m_nextGeneration := m_nextGeneration g;
     m_executingCount := count; m_stopActive := m_stopActive g;
     m_stopCount := m_stopCount g |}.
Definition with_arrived (g : GcWorldStop) (n : Z) : GcWorldStop :=
  {| m_requestEpoch := m_requestEpoch g; m_completedEpoch := m_completedEpoch g;
     m_expected := m_expected g; m_arrived := n; m_threads := m_threads g;
     m_freeIndices := m_freeIndices g; m_nextGeneration := m_nextGeneration g;
     m_executingCount := m_executingCount g; m_stopActive := m_stopActive g;
     m_stopCount := m_stopCount g |}.
Definition with_stop (g : GcWorldStop) (epoch expect : Z) : GcWorldStop :=
  {| m_requestEpoch := epoch; m_completedEpoch := m_completedEpoch g;
     m_expected := expect; m_arrived := 0; m_threads := m_threads g;
     m_freeIndices := m_freeIndices g; m_nextGeneration := m_nextGeneration g;
     m_executingCount := m_executingCount g; m_stopActive := true;
     m_stopCount := m_stopCount g |}.

(** ** Operations; each runs under the leaf mutex *)

Definition Tripwire {A} (what : string) : outcome A := Raise (Terminate what).

(** [self != nullptr && self->live]. *)
Definition IsRegistered (g : GcWorldStop) (tl : ThreadLocals) : bool :=
  match t_selfEntry tl ≫= (m_threads g !!.) with Some e => live e | None => false end.

Definition ExecutingSelf (g : GcWorldStop) (tl : ThreadLocals) : bool :=
  match t_selfEntry tl ≫= (m_threads g !!.) with
  | Some e => live e && executing e
  | None => false
  end.

Definition StopInFlight (g : GcWorldStop) : bool := m_stopActive g.
Definition CompletedStops (g : GcWorldStop) : Z := m_stopCount g.

Definition EntryIsCurrent (tl : ThreadLocals) (e : ThreadEntry) : bool :=
  live e && bool_decide (generation e = t_selfGeneration tl).

(** [SelfEntry()] dereferenced, with the tripwire of a never-registered caller. *)
Definition SelfEntry (g : GcWorldStop) (tl : ThreadLocals) (what : string) :
    outcome (nat * ThreadEntry) :=
  match t_selfEntry tl with
  | None => Tripwire what
  | Some i => e ← deref (m_threads g !! i); Ok (i, e)
  end.

(** The slot a registration takes: a new entry at the end, or the last retired one. *)
Definition TakeIndex (g : GcWorldStop) : nat * list ThreadEntry * list nat :=
  match m_freeIndices g with
  | [] => (length (m_threads g),
           m_threads g ++ [{| evalStack := 0; executing := false; live := false;
                              generation := 0 |}], [])
  | i :: free => (i, m_threads g, free)
  end.

Definition RegisterThread (g : GcWorldStop) (tl : ThreadLocals) (stack : nat) :
    outcome (GcWorldStop * ThreadLocals * GcThreadToken) :=
  if IsRegistered g tl then Tripwire "RegisterThread (already registered)" else
  let gen := m_nextGeneration g in
  let '(index, ts, free) := TakeIndex g in
  _ ← deref (ts !! index);
  let e := {| evalStack := stack; executing := false; live := true; generation := gen |} in
  Ok ({| m_requestEpoch := m_requestEpoch g; m_completedEpoch := m_completedEpoch g;
         m_expected := m_expected g; m_arrived := m_arrived g;
         m_threads := <[index := e]> ts; m_freeIndices := free;
         m_nextGeneration := u64 (gen + 1); m_executingCount := m_executingCount g;
         m_stopActive := m_stopActive g; m_stopCount := m_stopCount g |},
      {| t_selfEntry := Some index; t_selfGeneration := gen |},
      {| tok_generation := gen; tok_index := index |}).

Definition UnregisterThread (g : GcWorldStop) (tl : ThreadLocals) (token : GcThreadToken) :
    outcome (GcWorldStop * ThreadLocals) :=
  if decide (tok_generation token = 0) then Ok (g, tl) else
  match m_threads g !! tok_index token with
  | None => Ok (g, tl)
  | Some e =>
      if negb (live e) || negb (bool_decide (generation e = tok_generation token))
      then Ok (g, tl) else
      if executing e then Tripwire "UnregisterThread (still executing)" else
      let ts := <[tok_index token := set_live e false]> (m_threads g) in
      Ok ({| m_requestEpoch := m_requestEpoch g; m_completedEpoch := m_completedEpoch g;
             m_expected := m_expected g; m_arrived := m_arrived g; m_threads := ts;
             m_freeIndices := tok_index token :: m_freeIndices g;
             m_nextGeneration := m_nextGeneration g;
             m_executingCount := m_executingCount g; m_stopActive := m_stopActive g;
             m_stopCount := m_stopCount g |},
          if decide (t_selfEntry tl = Some (tok_index token))
          then {| t_selfEntry := None; t_selfGeneration := t_selfGeneration tl |} else tl)
  end.

(** [BeginExecuting] up to the wait: [false] is the zombie's early return, [true]
    means the thread now sleeps until [!m_stopActive]. *)
Definition BeginExecuting_enter (g : GcWorldStop) (tl : ThreadLocals) : outcome bool :=
  '(_, e) ← SelfEntry g tl "BeginExecuting"; Ok (EntryIsCurrent tl e).

Definition BeginExecuting_ready (g : GcWorldStop) : bool := negb (m_stopActive g).

(** [BeginExecuting] from the wait on. *)
Definition BeginExecuting_wake (g : GcWorldStop) (tl : ThreadLocals) : outcome GcWorldStop :=
  '(i, e) ← SelfEntry g tl "BeginExecuting";
  Ok (with_threads g (<[i := set_executing e true]> (m_threads g))
        (u64 (m_executingCount g + 1))).

(** [EndExecuting]: the result says that this arrival completed the expected set. *)
Definition EndExecuting (g : GcWorldStop) (tl : ThreadLocals) : outcome (GcWorldStop * bool) :=
  '(i, e) ← SelfEntry g tl "EndExecuting";
  if negb (EntryIsCurrent tl e) then Ok (g, false) else
  if negb (executing e) then Tripwire "EndExecuting (not executing)" else
  let g1 := with_threads g (<[i := set_executing e false]> (m_threads g))
              (u64 (m_executingCount g - 1)) in
  if negb (m_stopActive g1) then Ok (g1, false) else
  let g2 := with_arrived g1 (u64 (m_arrived g1 + 1)) in
  Ok (g2, bool_decide (m_arrived g2 = m_expected g2)).

Definition InitiateAndArrive (g : GcWorldStop) (tl : ThreadLocals) :
    outcome (GcWorldStop * bool) :=
  '(i, e) ← SelfEntry g tl "InitiateAndArrive";
  if negb (EntryIsCurrent tl e) then Tripwire "InitiateAndArrive" else
  if negb (executing e) then Tripwire "InitiateAndArrive (not executing)" else
  let g1 := if m_stopActive g then g
            else with_stop g (u64 (m_requestEpoch g + 1)) (m_executingCount g) in
  let g2 := with_threads g1 (<[i := set_executing e false]> (m_threads g1))
              (u64 (m_executingCount g1 - 1)) in
  let g3 := with_arrived g2 (u64 (m_arrived g2 + 1)) in
  Ok (g3, bool_decide (m_arrived g3 = m_expected g3)).

(** [WaitForCompletion]: the epoch captured at entry, and the wait's predicate. *)
Definition WaitForCompletion_enter (g : GcWorldStop) : Z := m_requestEpoch g.
Definition WaitForCompletion_ready (g : GcWorldStop) (epoch : Z) : bool :=
  bool_decide (epoch ≤ m_completedEpoch g).

Definition AssertAllArrived (g : GcWorldStop) : outcome unit :=
  if negb (m_stopActive g) || negb (bool_decide (m_arrived g = m_expected g))
  then Tripwire "AssertAllArrived (rendezvous not quiesced)" else Ok ().

Definition Complete (g : GcWorldStop) : GcWorldStop :=
  {| m_requestEpoch := m_requestEpoch g;
     m_completedEpoch := if decide (m_completedEpoch g < m_requestEpoch g)
                         then m_requestEpoch g else m_completedEpoch g;
     m_expected := m_expected g; m_arrived := m_arrived g; m_threads := m_threads g;
     m_freeIndices := m_freeIndices g; m_nextGeneration := m_nextGeneration g;
     m_executingCount := m_executingCount g; m_stopActive := false;
     m_stopCount := u64 (m_stopCount g + 1) |}.

(** [Reset]: the free list is filled from the last index down, so that index 0 is
    at its back. *)
Definition Reset (g : GcWorldStop) : GcWorldStop :=
  {| m_requestEpoch := 0; m_completedEpoch := 0; m_expected := 0; m_arrived := 0;
     m_threads := (λ e, set_live e false) <$> m_threads g;
     m_freeIndices := seq 0 (length (m_threads g));
     m_nextGeneration := m_nextGeneration g; m_executingCount := 0;
     m_stopActive := false; m_stopCount := 0 |}.

(** The scan surface: stacks of the live entries, in registration order. *)
Definition RegisteredStacks (g : GcWorldStop) : list nat :=
  evalStack <$> filter (λ e, live e = true) (m_threads g).

(** ** Interleavings *)

(** Where a thread stands between its critical sections. *)
Inductive phase :=
  | Outside                  (* not executing bytecode *)
  | WaitBegin                (* in the wait of BeginExecuting *)
  | Running                  (* executing bytecode *)
  | WaitEpoch (epoch : Z)    (* in the wait of WaitForCompletion *)
  | Collecting               (* the last arriver: collects, then completes *)
  | Notifying.               (* in Complete, between its critical section and notify_all *)

Record thread := { locals_ : ThreadLocals; at_ : phase }.
(** [asleep]: the threads blocked on [m_cv]. *)
Record world := { gw : GcWorldStop; thr : gmap nat thread; asleep : gset nat }.

Definition moved (w : world) (g : GcWorldStop) (t : nat) (tl : ThreadLocals) (p : phase) : world :=
  {| gw := g; thr := <[t := {| locals_ := tl; at_ := p |}]> (thr w); asleep := asleep w |}.
(** [m_cv.wait] releases the mutex and sleeps; [m_cv.notify_all]; a spurious wake-up. *)
Definition sleeps (w : world) (t : nat) : world :=
  {| gw := gw w; thr := thr w; asleep := {[ t ]} ∪ asleep w |}.
Definition NotifyAll (w : world) : world := {| gw := gw w; thr := thr w; asleep := ∅ |}.
Definition awakes (w : world) (t : nat) : world :=
  {| gw := gw w; thr := thr w; asleep := asleep w ∖ {[ t ]} |}.

(** One critical section of one thread, or what the environment does ([None]).  A thread
    in a wait that is not asleep tests its predicate: it goes on, or sleeps.  The two
    bounds keep the 64-bit counters from wrapping around: 2^64 registrations or
    collections.  A reset happens between runs, when no stop is in flight and nobody
    waits. *)
Inductive step_by : option nat → world → world → Prop :=
  | s_spawn w t : thr w !! t = None →
      step_by (Some t) w (moved w (gw w) t ThreadLocals0 Outside)
  | s_register w t tl stack g tl' tok :
      thr w !! t = Some {| locals_ := tl; at_ := Outside |} →
      m_nextGeneration (gw w) < 2 ^ 64 - 1 →
      RegisterThread (gw w) tl stack = Ok (g, tl', tok) →
      step_by (Some t) w (moved w g t tl' Outside)
  | s_unregister w t tl i g tl' :
      thr w !! t = Some {| locals_ := tl; at_ := Outside |} →
      UnregisterThread (gw w) tl
        {| tok_generation := t_selfGeneration tl; tok_index := i |} = Ok (g, tl') →
      t_selfEntry tl = Some i →
      step_by (Some t) w (moved w g t tl' Outside)
  | s_begin w t tl b :
      thr w !! t = Some {| locals_ := tl; at_ := Outside |} →
      BeginExecuting_enter (gw w) tl = Ok b →
      step_by (Some t) w (moved w (gw w) t tl (if b then WaitBegin else Outside))
  | s_begin_sleep w t tl :
      thr w !! t = Some {| locals_ := tl; at_ := WaitBegin |} → t ∉ asleep w →
      BeginExecuting_ready (gw w) = false →
      step_by (Some t) w (sleeps w t)
  | s_begin_wake w t tl g :
      thr w !! t = Some {| locals_ := tl; at_ := WaitBegin |} → t ∉ asleep w →
      BeginExecuting_ready (gw w) = true →
      BeginExecuting_wake (gw w) tl = Ok g →
      step_by (Some t) w (moved w g t tl Running)
  | s_end w t tl g last :
      thr w !! t = Some {| locals_ := tl; at_ := Running |} →
      EndExecuting (gw w) tl = Ok (g, last) →
      step_by (Some t) w (moved w g t tl (if last : bool then Collecting else Outside))
  | s_initiate w t tl g last :
      thr w !! t = Some {| locals_ := tl; at_ := Running |} →
      m_requestEpoch (gw w) < 2 ^ 64 - 1 →
      InitiateAndArrive (gw w) tl = Ok (g, last) →
      step_by (Some t) w (moved w g t tl (if last : bool then Collecting else Outside))
  | s_wait w t tl :
      thr w !! t = Some {| locals_ := tl; at_ := Outside |} →
      step_by (Some t) w (moved w (gw w) t tl (WaitEpoch (WaitForCompletion_enter (gw w))))
  | s_wait_sleep w t tl e :
      thr w !! t = Some {| locals_ := tl; at_ := WaitEpoch e |} → t ∉ asleep w →
      WaitForCompletion_ready (gw w) e = false →
      step_by (Some t) w (sleeps w t)
  | s_wait_done w t tl e :
      thr w !! t = Some {| locals_ := tl; at_ := WaitEpoch e |} → t ∉ asleep w →
      WaitForCompletion_ready (gw w) e = true →
      step_by (Some t) w (moved w (gw w) t tl Outside)
  | s_complete w t tl :
      thr w !! t = Some {| locals_ := tl; at_ := Collecting |} →
      AssertAllArrived (gw w) = Ok () →
      step_by (Some t) w (moved w (Complete (gw w)) t tl Notifying)
  | s_notify w t tl :
      thr w !! t = Some {| locals_ := tl; at_ := Notifying |} →
      step_by (Some t) w (moved (NotifyAll w) (gw w) t tl Outside)
  | s_spurious w t : t ∈ asleep w → step_by None w (awakes w t)
  | s_reset w :
      m_stopActive (gw w) = false →
      (∀ t th, thr w !! t = Some th → at_ th = Outside ∨ at_ th = Running) →
      step_by None w {| gw := Reset (gw w); thr := thr w; asleep := asleep w |}.
Definition step (w w' : world) : Prop := ∃ l, step_by l w w'.
Lemma by_step l w w' : step_by l w w' → step w w'.
Proof. by exists l. Qed.

Definition world0 : world := {| gw := GcWorldStop0; thr := ∅; asleep := ∅ |}.
Definition reachable (w : world) : Prop := rtc step world0 w.

(** ** The registry invariant *)

Definition counted (e : ThreadEntry) : bool := live e && executing e.
Definition cnt (ts : list ThreadEntry) : nat := length (filter (λ e, counted e = true) ts).

(** The thread's own registration is still the one its entry carries. *)
Definition current (g : GcWorldStop) (tl : ThreadLocals) : Prop :=
  ∃ i e, t_selfEntry tl = Some i ∧ m_threads g !! i = Some e ∧ EntryIsCurrent tl e = true.

Record reg_inv (g : GcWorldStop) (m : gmap nat thread) : Prop := {
  ri_next : 1 ≤ m_nextGeneration g < 2 ^ 64;
  ri_len : Z.of_nat (length (m_threads g)) < m_nextGeneration g;
  ri_gens : Forall (λ e, generation e < m_nextGeneration g) (m_threads g);
  ri_free : NoDup (m_freeIndices g) ∧
    Forall (λ i, ∃ e, m_threads g !! i = Some e ∧ live e = false) (m_freeIndices g);
  ri_count : m_executingCount g = Z.of_nat (cnt (m_threads g));
  ri_locals : ∀ t th, m !! t = Some th →
    0 ≤ t_selfGeneration (locals_ th) < m_nextGeneration g;
  ri_unique : ∀ t1 t2 th1 th2, m !! t1 = Some th1 → m !! t2 = Some th2 →
    t_selfGeneration (locals_ th1) = t_selfGeneration (locals_ th2) →
    t_selfGeneration (locals_ th1) ≠ 0 → t1 = t2;
  ri_owner : ∀ i e, m_threads g !! i = Some e → live e = true →
    ∃ t th, m !! t = Some th ∧ t_selfEntry (locals_ th) = Some i ∧
      t_selfGeneration (locals_ th) = generation e;
  ri_self : ∀ t th i, m !! t = Some th → t_selfEntry (locals_ th) = Some i →
    t_selfGeneration (locals_ th) ≠ 0 ∧
    ∃ e, m_threads g !! i = Some e ∧
      (EntryIsCurrent (locals_ th) e = true → (executing e = true ↔ at_ th = Running));
  ri_reg : ∀ t th, m !! t = Some th → at_ th = Running → t_selfEntry (locals_ th) ≠ None;
  ri_wait : ∀ t th, m !! t = Some th → at_ th = WaitBegin → current g (locals_ th);
}.

Lemma cnt_insert ts i e e' :
  ts !! i = Some e →
  Z.of_nat (cnt (<[i := e']> ts)) =
    Z.of_nat (cnt ts) - Z.b2z (counted e) + Z.b2z (counted e').
Proof.
  unfold cnt. revert i. induction ts as [|a ts IH]; intros [|i] Hi; simplify_eq/=.
  - rewrite !filter_cons. destruct (counted e), (counted e'); simpl; lia.
  - rewrite !filter_cons. case_decide; simpl; rewrite ?Nat2Z.inj_succ, IH by done; lia.
Qed.

Lemma cnt_le ts : (cnt ts ≤ length ts)%nat.
Proof. apply length_filter. Qed.

Lemma cnt_pos ts : (0 < cnt ts)%nat → ∃ i e, ts !! i = Some e ∧ counted e = true.
Proof.
  unfold cnt. destruct (filter _ ts) as [|e l] eqn:E; simpl; [lia|]. intros _.
  assert (e ∈ filter (λ e, counted e = true) ts) as He by (rewrite E; left).
  apply list_elem_of_filter in He as [Hc He]. apply list_elem_of_lookup in He as [i ?]. eauto.
Qed.

Lemma cnt_zero ts i e : cnt ts = 0%nat → ts !! i = Some e → counted e = false.
Proof.
  intros H Hi. destruct (counted e) eqn:E; [|done].
  pose proof (cnt_insert ts i e (set_live e false) Hi) as Hc.
  rewrite E in Hc. unfold counted in Hc. simpl in Hc. lia.
Qed.

Lemma cnt_pos_of ts i e : ts !! i = Some e → counted e = true → (0 < cnt ts)%nat.
Proof.
  intros Hi Hc. destruct (cnt ts) eqn:E; [|lia].
  by rewrite (cnt_zero ts i e E Hi) in Hc.
Qed.

Lemma current_inv g m t tl p :
  reg_inv g m → m !! t = Some {| locals_ := tl; at_ := p |} → current g tl →
  ∃ i e, t_selfEntry tl = Some i ∧ m_threads g !! i = Some e ∧
    EntryIsCurrent tl e = true ∧ live e = true ∧ generation e = t_selfGeneration tl ∧
    (executing e = true ↔ p = Running).
Proof.
  intros R Ht (i & e & Hs & He & Hc). exists i, e.
  destruct (ri_self _ _ R t _ i Ht Hs) as (_ & e' & He' & Hiff). simplify_eq/=.
  pose proof Hc as Hc'. unfold EntryIsCurrent in Hc'.
  apply andb_true_iff in Hc' as [? ?%bool_decide_eq_true]. naive_solver.
Qed.

(** Two threads never own the same entry. *)
Lemma current_unique g m t1 t2 th1 th2 i e :
  reg_inv g m → m !! t1 = Some th1 → m !! t2 = Some th2 →
  t_selfEntry (locals_ th1) = Some i → t_selfEntry (locals_ th2) = Some i →
  m_threads g !! i = Some e →
  EntryIsCurrent (locals_ th1) e = true → EntryIsCurrent (locals_ th2) e = true → t1 = t2.
Proof.
  unfold EntryIsCurrent. intros R H1 H2 S1 S2 He
    [_ G1%bool_decide_eq_true]%andb_true_iff [_ G2%bool_decide_eq_true]%andb_true_iff.
  apply (ri_unique _ _ R t1 t2 th1 th2 H1 H2); [congruence|].
  by apply (ri_self _ _ R t1 th1 i H1 S1).
Qed.

(** A current thread flips its executing bit together with its phase. *)
Lemma reg_flip g m t tl p p' i e b count :
  reg_inv g m → m !! t = Some {| locals_ := tl; at_ := p |} →
  t_selfEntry tl = Some i → m_threads g !! i = Some e → EntryIsCurrent tl e = true →
  (b = true ↔ p' = Running) → p' ≠ WaitBegin →
  count = m_executingCount g - Z.b2z (executing e) + Z.b2z b →
  reg_inv (with_threads g (<[i := set_executing e b]> (m_threads g)) count)
    (<[t := {| locals_ := tl; at_ := p' |}]> m).
Proof.
  intros R Ht Hs He Hc Hb Hw ->.
  assert (live e = true) as Hl by (unfold EntryIsCurrent in Hc; by apply andb_true_iff in Hc as [? _]).
  pose proof (lookup_lt_Some _ _ _ He) as Hi. split; simpl.
  - apply R.
  - rewrite length_insert. apply R.
  - apply Forall_insert; [apply R|]. simpl. by eapply (Forall_lookup_1 _ _ _ _ (ri_gens _ _ R)).
  - split; [apply R|]. eapply list.Forall_impl; [apply (ri_free _ _ R)|].
    intros j (e' & Hj & Hd). destruct (decide (i = j)) as [->|]; [congruence|].
    exists e'. by rewrite list_lookup_insert_ne.
  - rewrite (cnt_insert _ _ e), (ri_count _ _ R) by done. unfold counted. simpl. rewrite Hl. simpl. lia.
  - intros t' th' [[-> <-]|[? H]]%lookup_insert_Some; [apply (ri_locals _ _ R _ _ Ht)|by eapply R].
  - intros t1 t2 th1 th2 [[-> <-]|[? H1]]%lookup_insert_Some [[-> <-]|[? H2]]%lookup_insert_Some;
      try done; intros; [apply (ri_unique _ _ R t1 t2 _ _ Ht H2)
                        |apply (ri_unique _ _ R t1 t2 _ _ H1 Ht)|apply (ri_unique _ _ R t1 t2 _ _ H1 H2)]; done.
  - intros j e' Hj Hlive.
    assert (∃ e0, m_threads g !! j = Some e0 ∧ live e0 = true ∧ generation e0 = generation e')
      as (e0 & Hj0 & Hl0 & Hg0).
    { destruct (decide (i = j)) as [->|].
      - rewrite list_lookup_insert_eq in Hj by done. simplify_eq. by exists e.
      - rewrite list_lookup_insert_ne in Hj by done. by exists e'. }
    destruct (ri_owner _ _ R j e0 Hj0 Hl0) as (t' & th' & Ht' & ? & ?).
    destruct (decide (t' = t)) as [->|].
    + exists t. rewrite Ht in Ht'. injection Ht' as <-. eexists. rewrite lookup_insert_eq.
      split; [done|]. simpl in *. by rewrite <- Hg0.
    + exists t', th'. rewrite lookup_insert_ne by done. by rewrite <- Hg0.
  - intros t' th' j [[-> <-]|[Hne H]]%lookup_insert_Some Hj; simpl in *.
    + split; [apply (ri_self _ _ R t' _ j Ht Hj)|]. assert (i = j) as <- by congruence.
      exists (set_executing e b). rewrite list_lookup_insert_eq by done.
      split; [done|]. intros _. simpl. done.
    + destruct (ri_self _ _ R t' th' j H Hj) as (Hg & e' & He' & Hiff). split; [done|].
      destruct (decide (i = j)) as [<-|]; [|exists e'; by rewrite list_lookup_insert_ne].
      exists (set_executing e b). rewrite list_lookup_insert_eq by done. split; [done|].
      intros Hcur. exfalso. apply Hne.
      apply (current_unique g m t t' _ _ i e R Ht H Hs Hj He Hc). exact Hcur.
  - intros t' th' [[-> <-]|[Hne H]]%lookup_insert_Some; simpl; [congruence|by eapply R].
  - intros t' th' [[-> <-]|[Hne H]]%lookup_insert_Some Hwt; simpl in *; [done|].
    destruct (ri_wait _ _ R t' th' H Hwt) as (j & e' & Hj & He' & Hcur).
    destruct (decide (i = j)) as [<-|].
    + exists i, (set_executing e b). simpl. rewrite list_lookup_insert_eq by done.
      rewrite He in He'. by injection He' as <-.
    + exists j, e'. simpl. by rewrite list_lookup_insert_ne.
Qed.

(** Only these fields matter to the registry. *)
Lemma reg_ext g g' m :
  reg_inv g m → m_threads g' = m_threads g → m_freeIndices g' = m_freeIndices g →
  m_nextGeneration g' = m_nextGeneration g → m_executingCount g' = m_executingCount g →
  reg_inv g' m.
Proof.
  intros [] E1 E2 E3 E4. split; rewrite ?E1, ?E2, ?E3, ?E4; try done.
  intros t th Ht Hw. destruct (ri_wait0 t th Ht Hw) as (i & e & ?). exists i, e. by rewrite E1.
Qed.

(** A thread that is not running, or a zombie, moves to a phase that is not running. *)
Lemma reg_phase g m t tl p p' :
  reg_inv g m → m !! t = Some {| locals_ := tl; at_ := p |} →
  (current g tl → p ≠ Running) → p' ≠ Running →
  (p' = WaitBegin → current g tl) →
  reg_inv g (<[t := {| locals_ := tl; at_ := p' |}]> m).
Proof.
  intros R Ht Hp Hp' Hw. destruct R. split; try done.
  - intros t' th' [[-> <-]|[? H]]%lookup_insert_Some; [apply (ri_locals0 _ _ Ht)|eauto].
  - intros t1 t2 th1 th2 [[-> <-]|[? H1]]%lookup_insert_Some [[-> <-]|[? H2]]%lookup_insert_Some;
      try done; intros; [apply (ri_unique0 t1 t2 _ _ Ht H2)
                        |apply (ri_unique0 t1 t2 _ _ H1 Ht)|apply (ri_unique0 t1 t2 _ _ H1 H2)]; done.
  - intros j e' Hj Hlive. destruct (ri_owner0 j e' Hj Hlive) as (t' & th' & Ht' & ? & ?).
    destruct (decide (t' = t)) as [->|].
    + exists t. rewrite Ht in Ht'. injection Ht' as <-. eexists. by rewrite lookup_insert_eq.
    + exists t', th'. by rewrite lookup_insert_ne.
  - intros t' th' j [[-> <-]|[Hne H]]%lookup_insert_Some Hj; [|eauto].
    destruct (ri_self0 t' _ j Ht Hj) as (? & e & ? & Hiff). split; [done|].
    exists e. split; [done|]. intros Hc. simpl in *. rewrite Hiff by done.
    split; [|done]. intros Hr. destruct Hp; [by exists j, e|done].
  - intros t' th' [[-> <-]|[Hne H]]%lookup_insert_Some; [done|eauto].
  - intros t' th' [[-> <-]|[Hne H]]%lookup_insert_Some; [auto|eauto].
Qed.

(** The slot a registration takes is dead, and no other slot changes. *)
Lemma TakeIndex_spec g m ix ts fr :
  reg_inv g m → TakeIndex g = (ix, ts, fr) →
  NoDup fr ∧ Forall (λ j, ∃ e, ts !! j = Some e ∧ live e = false) fr ∧ (ix ∉ fr) ∧
  (∃ e, ts !! ix = Some e ∧ live e = false) ∧
  Z.of_nat (length ts) ≤ m_nextGeneration g ∧
  Forall (λ e, generation e < m_nextGeneration g) ts ∧ cnt ts = cnt (m_threads g) ∧
  (∀ j e, j ≠ ix → (ts !! j = Some e ↔ m_threads g !! j = Some e)) ∧
  (∀ e, m_threads g !! ix = Some e → live e = false).
Proof.
  intros R. pose proof (ri_len _ _ R). pose proof (ri_next _ _ R).
  destruct (ri_free _ _ R) as [N F]. unfold TakeIndex.
  destruct (m_freeIndices g) as [|j fr'] eqn:Ef; intros; simplify_eq.
  - rewrite length_app. simpl. split_and!; try done; try lia.
    + set_solver.
    + eexists. by rewrite lookup_app_r, Nat.sub_diag by done.
    + rewrite Forall_app. split; [apply R|]. apply Forall_singleton. simpl. lia.
    + unfold cnt. rewrite list.filter_app, length_app. simpl. lia.
    + intros j e' Hj. split; intros Hl; pose proof Hl as Hl'%lookup_lt_Some.
      * rewrite lookup_app_l in Hl; [done|]. rewrite length_app in Hl'. simpl in Hl'. lia.
      * by rewrite lookup_app_l.
    + intros e' He'%lookup_lt_Some. lia.
  - apply list.NoDup_cons in N as [? N]. apply Forall_cons in F as [(e0 & He0 & Hd) F].
    split_and!; try done; try lia; [by eauto|apply R|]. intros e' He'. congruence.
Qed.

(** Registration, retirement and the reset between runs. *)
Lemma reg_register g m t tl stack g' tl' tok :
  reg_inv g m → m !! t = Some {| locals_ := tl; at_ := Outside |} →
  m_nextGeneration g < 2 ^ 64 - 1 → RegisterThread g tl stack = Ok (g', tl', tok) →
  reg_inv g' (<[t := {| locals_ := tl'; at_ := Outside |}]> m) ∧
  m_executingCount g' = m_executingCount g ∧ m_stopActive g' = m_stopActive g ∧
  m_arrived g' = m_arrived g ∧ m_expected g' = m_expected g ∧
  m_requestEpoch g' = m_requestEpoch g ∧ m_completedEpoch g' = m_completedEpoch g.
Proof.
  intros R Ht Hb. unfold RegisterThread. destruct (IsRegistered g tl) eqn:Hreg; [done|].
  destruct (TakeIndex g) as [[ix ts] fr] eqn:E. intros H. monad_inv. split; [|done].
  set (e := {| evalStack := stack; executing := false; live := true;
               generation := m_nextGeneration g |}).
  pose proof (ri_next _ _ R) as Hn.
  destruct (TakeIndex_spec _ _ _ _ _ R E) as
    (F1 & F2 & F3 & (e1 & He1 & F4) & F5 & F6 & F7 & F8 & F9). simplify_eq.
  assert (ix < length ts)%nat as Hix by by eapply lookup_lt_Some.
  assert (u64 (m_nextGeneration g + 1) = m_nextGeneration g + 1) as Hw
    by (apply wrap_small; unfold is_uint; lia).
  split; simpl; rewrite ?Hw.
  - lia.
  - rewrite length_insert. lia.
  - apply Forall_insert; [|simpl; lia]. eapply list.Forall_impl; [exact F6|]. simpl. lia.
  - split; [done|]. rewrite Forall_forall in F2 |- *. intros j Hj.
    destruct (F2 j Hj) as (e' & ? & ?). exists e'. rewrite list_lookup_insert_ne; [done|set_solver].
  - rewrite (ri_count _ _ R), (cnt_insert _ _ x), F7 by done. unfold counted.
    rewrite F4. simpl. lia.
  - intros t' th [[-> <-]|[? H']]%lookup_insert_Some; simpl; [lia|].
    pose proof (ri_locals _ _ R _ _ H'). lia.
  - intros t1 t2 th1 th2 [[-> <-]|[? H1]]%lookup_insert_Some [[-> <-]|[? H2]]%lookup_insert_Some;
      simpl; try done; intros;
      [pose proof (ri_locals _ _ R _ _ H2); lia|pose proof (ri_locals _ _ R _ _ H1); lia|].
    by apply (ri_unique _ _ R t1 t2 th1 th2).
  - intros j e' [(-> & <- & _)|[Hj He']]%list_lookup_insert_Some Hl; simpl.
    + exists t. eexists. by rewrite lookup_insert_eq.
    + apply F8 in He'; [|done]. destruct (ri_owner _ _ R j e' He' Hl) as (t' & th' & Ht' & S & G).
      exists t', th'. rewrite lookup_insert_ne; [done|]. intros <-.
      rewrite Ht in Ht'. injection Ht' as <-. unfold IsRegistered in Hreg. simpl in S.
      rewrite S in Hreg. simpl in Hreg. rewrite He' in Hreg. congruence.
  - intros t' th' j [[-> <-]|[Hne H']]%lookup_insert_Some Hj; simpl in *.
    + split; [lia|]. injection Hj as <-. exists e. rewrite list_lookup_insert_eq by done.
      split; [done|]. done.
    + destruct (ri_self _ _ R t' th' j H' Hj) as (G & e' & He' & Hiff). split; [done|].
      destruct (decide (j = ix)) as [->|].
      * exists e. rewrite list_lookup_insert_eq by done. split; [done|].
        unfold EntryIsCurrent. simpl. intros Hc%bool_decide_eq_true.
        pose proof (ri_locals _ _ R _ _ H'). lia.
      * exists e'. rewrite list_lookup_insert_ne by done. rewrite F8 by done. done.
  - intros t' th' [[-> <-]|[Hne H']]%lookup_insert_Some; [done|by eapply R].
  - intros t' th' [[-> <-]|[Hne H']]%lookup_insert_Some Hwt; [done|].
    destruct (ri_wait _ _ R t' th' H' Hwt) as (j & e' & Hj & He' & Hc).
    exists j, e'. simpl. split_and!; try done. rewrite list_lookup_insert_ne; [by apply F8;
      [intros ->; specialize (F9 _ He'); unfold EntryIsCurrent in Hc; by rewrite F9 in Hc|]|].
    intros ->. specialize (F9 _ He'). unfold EntryIsCurrent in Hc. by rewrite F9 in Hc.
Qed.

(** A thread no longer current, or one that never registered. *)
Lemma UnregisterThread_spec g tl i g' tl' :
  t_selfEntry tl = Some i →
  UnregisterThread g tl {| tok_generation := t_selfGeneration tl; tok_index := i |} = Ok (g', tl') →
  (g' = g ∧ tl' = tl) ∨
  ∃ e, m_threads g !! i = Some e ∧ EntryIsCurrent tl e = true ∧ executing e = false ∧
    tl' = {| t_selfEntry := None; t_selfGeneration := t_selfGeneration tl |} ∧
    m_threads g' = <[i := set_live e false]> (m_threads g) ∧
    m_freeIndices g' = i :: m_freeIndices g ∧ m_nextGeneration g' = m_nextGeneration g ∧
    m_executingCount g' = m_executingCount g ∧ m_stopActive g' = m_stopActive g ∧
    m_arrived g' = m_arrived g ∧ m_expected g' = m_expected g ∧
    m_requestEpoch g' = m_requestEpoch g ∧ m_completedEpoch g' = m_completedEpoch g.
Proof.
  intros Hs. unfold UnregisterThread. simpl. case_decide; [intros; simplify_eq; by left|].
  destruct (m_threads g !! i) as [e|] eqn:He; [|intros; simplify_eq; by left].
  destruct (negb (live e) || _) eqn:Hc; [intros; simplify_eq; by left|].
  destruct (executing e) eqn:Hx; [done|]. rewrite Hs. rewrite decide_True by done.
  intros; simplify_eq. right. exists e. apply orb_false_iff in Hc as [H1 H2].
  unfold EntryIsCurrent. destruct (live e), (bool_decide _); done.
Qed.

Lemma reg_unregister g m t tl i g' tl' :
  reg_inv g m → m !! t = Some {| locals_ := tl; at_ := Outside |} → t_selfEntry tl = Some i →
  UnregisterThread g tl {| tok_generation := t_selfGeneration tl; tok_index := i |} = Ok (g', tl') →
  reg_inv g' (<[t := {| locals_ := tl'; at_ := Outside |}]> m).
Proof.
  intros R Ht Hs [[-> ->]|(e & He & Hc & Hx & -> & Hts & Hfr & Hng & Hec & _)]%UnregisterThread_spec;
    [rewrite insert_id by done; exact R| |done].
  pose proof (lookup_lt_Some _ _ _ He) as Hi.
  assert (∀ t' th', t' ≠ t → m !! t' = Some th' → t_selfEntry (locals_ th') = Some i →
    EntryIsCurrent (locals_ th') e = false) as Hother.
  { intros t' th' Hne Ht' Hi'. destruct (EntryIsCurrent (locals_ th') e) eqn:Hc'; [|done].
    destruct Hne. symmetry. apply (current_unique g m t t' _ _ i e R Ht Ht' Hs Hi' He Hc). exact Hc'. }
  assert (live e = true) as Hl by (unfold EntryIsCurrent in Hc; by apply andb_true_iff in Hc as [? _]).
  assert (generation e = t_selfGeneration tl) as Hg
    by (unfold EntryIsCurrent in Hc; by apply andb_true_iff in Hc as [_ ?%bool_decide_eq_true]).
  split; rewrite ?Hts, ?Hfr, ?Hng, ?Hec.
  - apply R.
  - rewrite length_insert. apply R.
  - apply Forall_insert; [apply R|]. simpl. by eapply (Forall_lookup_1 _ _ _ _ (ri_gens _ _ R)).
  - destruct (ri_free _ _ R) as [N F]. rewrite Forall_forall in F. split.
    + apply list.NoDup_cons. split; [|done]. intros (e' & ? & ?)%F. congruence.
    + constructor; [exists (set_live e false); by rewrite list_lookup_insert_eq|].
      apply Forall_forall. intros j (e' & Hj & Hd)%F. exists e'.
      rewrite list_lookup_insert_ne; [done|congruence].
  - rewrite (cnt_insert _ _ e), (ri_count _ _ R) by done. unfold counted. simpl. rewrite Hx, Hl. simpl. lia.
  - intros t' th' [[-> <-]|[? H]]%lookup_insert_Some; [apply (ri_locals _ _ R _ _ Ht)|by eapply R].
  - intros t1 t2 th1 th2 [[-> <-]|[? H1]]%lookup_insert_Some [[-> <-]|[? H2]]%lookup_insert_Some;
      try done; intros; [apply (ri_unique _ _ R t1 t2 _ _ Ht H2)
                        |apply (ri_unique _ _ R t1 t2 _ _ H1 Ht)|apply (ri_unique _ _ R t1 t2 _ _ H1 H2)]; done.
  - intros j e' [(-> & <- & _)|[Hj He']]%list_lookup_insert_Some Hlive; [done|].
    destruct (ri_owner _ _ R j e' He' Hlive) as (t' & th' & Ht' & ? & ?).
    exists t', th'. rewrite lookup_insert_ne; [done|]. intros <-.
    rewrite Ht in Ht'. injection Ht' as <-. simpl in *. congruence.
  - intros t' th' j [[-> <-]|[Hne H]]%lookup_insert_Some Hj; simpl in *; [done|].
    destruct (ri_self _ _ R t' th' j H Hj) as (? & e' & He' & Hiff). split; [done|].
    destruct (decide (i = j)) as [<-|]; [|exists e'; by rewrite list_lookup_insert_ne].
    exists (set_live e false). by rewrite list_lookup_insert_eq.
  - intros t' th' [[-> <-]|[Hne H]]%lookup_insert_Some; [done|by eapply R].
  - intros t' th' [[-> <-]|[Hne H]]%lookup_insert_Some Hwt; [done|].
    destruct (ri_wait _ _ R t' th' H Hwt) as (j & e' & Hj & He' & Hcur). exists j, e'.
    rewrite Hts, list_lookup_insert_ne; [done|]. intros <-.
    rewrite He in He'. injection He' as <-. by rewrite (Hother t' th') in Hcur.
Qed.

Lemma reg_spawn g m t :
  reg_inv g m → m !! t = None →
  reg_inv g (<[t := {| locals_ := ThreadLocals0; at_ := Outside |}]> m).
Proof.
  intros R Ht. pose proof (ri_next _ _ R). split; try apply R.
  - intros t' th' [[-> <-]|[? H']]%lookup_insert_Some; [simpl; lia|by eapply R].
  - intros t1 t2 th1 th2 [[-> <-]|[? H1]]%lookup_insert_Some [[-> <-]|[? H2]]%lookup_insert_Some;
      simpl; try done. by apply (ri_unique _ _ R t1 t2 th1 th2).
  - intros j e' Hj Hlive. destruct (ri_owner _ _ R j e' Hj Hlive) as (t' & th' & Ht' & ? & ?).
    exists t', th'. rewrite lookup_insert_ne; [done|congruence].
  - intros t' th' j [[-> <-]|[Hne H']]%lookup_insert_Some Hj; [done|by eapply R].
  - intros t' th' [[-> <-]|[Hne H']]%lookup_insert_Some; [done|by eapply R].
  - intros t' th' [[-> <-]|[Hne H']]%lookup_insert_Some; [done|by eapply R].
Qed.

Lemma reg_reset g m :
  reg_inv g m → (∀ t th, m !! t = Some th → at_ th = Outside ∨ at_ th = Running) →
  reg_inv (Reset g) m.
Proof.
  intros R Hp.
  assert (∀ i e, m_threads (Reset g) !! i = Some e →
    ∃ e0, m_threads g !! i = Some e0 ∧ e = set_live e0 false) as Hts.
  { simpl. intros i e. rewrite list_lookup_fmap. destruct (m_threads g !! i); naive_solver. }
  split.
  - apply R.
  - simpl. rewrite length_fmap. apply R.
  - simpl. apply Forall_fmap. eapply list.Forall_impl; [apply (ri_gens _ _ R)|]. done.
  - split; [apply NoDup_seq|]. apply Forall_forall. intros j Hj%elem_of_seq.
    destruct (lookup_lt_is_Some_2 (m_threads g) j) as [e He]; [lia|].
    exists (set_live e false). simpl. by rewrite list_lookup_fmap, He.
  - simpl. unfold cnt. clear. induction (m_threads g); [done|].
    rewrite fmap_cons, filter_cons. by case_decide.
  - apply R.
  - apply R.
  - intros i e (e0 & _ & ->)%Hts. done.
  - intros t th i Ht Hi. destruct (ri_self _ _ R t th i Ht Hi) as (? & e & He & _). split; [done|].
    exists (set_live e false). simpl. by rewrite list_lookup_fmap, He.
  - apply R.
  - intros t th Ht Hw. destruct (Hp t th Ht); congruence.
Qed.

(** ** The stop invariant *)
Record stop_inv (g : GcWorldStop) (m : gmap nat thread) : Prop := {
  si_epoch : 0 ≤ m_completedEpoch g ∧ m_requestEpoch g < 2 ^ 64 ∧
    m_requestEpoch g = m_completedEpoch g + Z.b2z (m_stopActive g);
  si_count : m_stopActive g = true →
    0 ≤ m_arrived g ∧ m_arrived g + m_executingCount g = m_expected g ∧ m_expected g < 2 ^ 64 ∧
    (m_executingCount g = 0 → ∃ t tl, m !! t = Some {| locals_ := tl; at_ := Collecting |});
  si_coll : ∀ t th, m !! t = Some th → at_ th = Collecting →
    m_stopActive g = true ∧ m_executingCount g = 0;
  si_uniq : ∀ t1 t2 th1 th2, m !! t1 = Some th1 → m !! t2 = Some th2 →
    at_ th1 = Collecting → at_ th2 = Collecting → t1 = t2;
  si_wait : ∀ t th e, m !! t = Some th → at_ th = WaitEpoch e → e ≤ m_requestEpoch g;
}.

Definition inv (w : world) : Prop := reg_inv (gw w) (thr w) ∧ stop_inv (gw w) (thr w).

(** A thread that is not collecting moves to a phase that is not collecting, while
    the stop's accounting stays put. *)
Lemma stop_frame g g' m t tl p' :
  stop_inv g m →
  (∀ th, m !! t = Some th → at_ th ≠ Collecting) → p' ≠ Collecting →
  (∀ e, p' = WaitEpoch e → e ≤ m_requestEpoch g) →
  m_executingCount g' = m_executingCount g → m_stopActive g' = m_stopActive g →
  m_arrived g' = m_arrived g → m_expected g' = m_expected g →
  m_requestEpoch g' = m_requestEpoch g → m_completedEpoch g' = m_completedEpoch g →
  stop_inv g' (<[t := {| locals_ := tl; at_ := p' |}]> m).
Proof.
  intros S Hold Hp Hw E1 E2 E3 E4 E5 E6. split; rewrite ?E1, ?E2, ?E3, ?E4, ?E5, ?E6.
  - apply S.
  - intros Ha. destruct (si_count _ _ S Ha) as (? & ? & ? & Hc). split_and!; try done.
    intros Hz. destruct (Hc Hz) as (t' & tl' & Ht'). exists t', tl'.
    rewrite lookup_insert_ne; [done|]. intros <-. by apply Hold in Ht'.
  - intros t' th [[-> <-]|[? H]]%lookup_insert_Some ?; [done|by eapply S].
  - intros t1 t2 th1 th2 [[-> <-]|[? H1]]%lookup_insert_Some [[-> <-]|[? H2]]%lookup_insert_Some;
      try done. by apply (si_uniq _ _ S).
  - intros t' th e [[-> <-]|[? H]]%lookup_insert_Some; [apply Hw|by eapply S].
Qed.

(** What the three flips compute, for a current thread. *)
Lemma EndExecuting_current g tl i e :
  t_selfEntry tl = Some i → m_threads g !! i = Some e → EntryIsCurrent tl e = true →
  executing e = true →
  EndExecuting g tl =
    let g1 := with_threads g (<[i := set_executing e false]> (m_threads g))
                (u64 (m_executingCount g - 1)) in
    Ok (if m_stopActive g
        then (with_arrived g1 (u64 (m_arrived g + 1)),
              bool_decide (u64 (m_arrived g + 1) = m_expected g))
        else (g1, false)).
Proof.
  intros Hs He Hc Hx. unfold EndExecuting, SelfEntry. rewrite Hs, He, derefE, !bindE, Hc, Hx.
  simpl. by destruct (m_stopActive g).
Qed.

Lemma EndExecuting_zombie g tl i e :
  t_selfEntry tl = Some i → m_threads g !! i = Some e → EntryIsCurrent tl e = false →
  EndExecuting g tl = Ok (g, false).
Proof.
  intros Hs He Hc. unfold EndExecuting, SelfEntry. by rewrite Hs, He, derefE, !bindE, Hc.
Qed.

Lemma counted_pos g m t tl i e :
  reg_inv g m → m !! t = Some {| locals_ := tl; at_ := Running |} →
  t_selfEntry tl = Some i → m_threads g !! i = Some e → EntryIsCurrent tl e = true →
  executing e = true ∧ 0 < m_executingCount g < 2 ^ 64.
Proof.
  intros R Ht Hs He Hc. destruct (ri_self _ _ R t _ i Ht Hs) as (_ & e' & He' & Hiff).
  rewrite He in He'. injection He' as <-. assert (executing e = true) as Hx by by apply Hiff.
  split; [done|]. rewrite (ri_count _ _ R). pose proof (cnt_pos_of _ _ _ He) as Hcp.
  pose proof (ri_len _ _ R). pose proof (ri_next _ _ R). pose proof (cnt_le (m_threads g)).
  unfold counted in Hcp. unfold EntryIsCurrent in Hc. rewrite Hx in Hcp.
  destruct (live e); [|done]. specialize (Hcp eq_refl). lia.
Qed.

(** An arrival: the stop's accounting moves one thread from executing to arrived,
    and the last one becomes the collector.  [g0] is the registry with the stop in
    flight, which the initiator has just started. *)
Lemma inv_arrive g m t tl i e g0 g' last :
  stop_inv g m → reg_inv g m → m !! t = Some {| locals_ := tl; at_ := Running |} →
  t_selfEntry tl = Some i → m_threads g !! i = Some e → EntryIsCurrent tl e = true →
  g0 = (if m_stopActive g then g
        else with_stop g (u64 (m_requestEpoch g + 1)) (m_executingCount g)) →
  (m_stopActive g = true ∨ m_requestEpoch g < 2 ^ 64 - 1) →
  g' = with_arrived (with_threads g0 (<[i := set_executing e false]> (m_threads g0))
         (u64 (m_executingCount g0 - 1))) (u64 (m_arrived g0 + 1)) →
  last = bool_decide (u64 (m_arrived g0 + 1) = m_expected g0) →
  let m' := <[t := {| locals_ := tl; at_ := if last : bool then Collecting else Outside |}]> m in
  reg_inv g' m' ∧ stop_inv g' m'.
Proof.
  intros S R Ht Hs He Hc -> Hb -> ->.
  destruct (counted_pos _ _ _ _ _ _ R Ht Hs He Hc) as [Hx Hpos].
  assert (∀ t' th', m !! t' = Some th' → at_ th' ≠ Collecting) as Hno.
  { intros t' th' Ht' Hcol. destruct (si_coll _ _ S t' th' Ht' Hcol). lia. }
  set (g0 := if m_stopActive g then g else _).
  pose proof (si_epoch _ _ S) as (Hcm & Hrq & Hrc).
  assert (m_stopActive g0 = true ∧ m_executingCount g0 = m_executingCount g ∧
    m_arrived g0 + m_executingCount g = m_expected g0 ∧ 0 ≤ m_arrived g0 ∧ m_expected g0 < 2 ^ 64 ∧
    m_completedEpoch g0 = m_completedEpoch g ∧ m_requestEpoch g0 < 2 ^ 64 ∧
    m_requestEpoch g0 = m_completedEpoch g + 1 ∧ m_requestEpoch g ≤ m_requestEpoch g0 ∧
    m_threads g0 = m_threads g ∧ m_freeIndices g0 = m_freeIndices g ∧
    m_nextGeneration g0 = m_nextGeneration g)
    as (Ha & Hec & Hsum & H0 & He64 & Ecm & Hrq0 & Hrc0 & Hmono & Ets & Efr & Eng).
  { subst g0. destruct (m_stopActive g) eqn:Ha; simpl in Hrc |- *.
    - destruct (si_count _ _ S Ha) as (? & ? & ? & _). split_and!; try done; lia.
    - destruct Hb; [done|]. rewrite wrap_small by (unfold is_uint; lia).
      split_and!; try done; lia. }
  clearbody g0. rewrite Hec, Ets. rewrite !wrap_small by (unfold is_uint; lia). split.
  - apply (reg_ext (with_threads g (<[i := set_executing e false]> (m_threads g))
      (m_executingCount g - 1))); try done.
    apply (reg_flip g m t tl Running _ i e false); try done.
    { case_bool_decide; split; done. }
    { by case_bool_decide. }
    rewrite Hx. simpl. lia.
  - split; simpl; rewrite ?Ha; simpl.
    + lia.
    + intros _. split_and!; try lia. intros Hz. exists t, tl. rewrite lookup_insert_eq.
      by rewrite bool_decide_true by lia.
    + intros t' th' [[-> <-]|[? H]]%lookup_insert_Some Hcol; simpl in *; [|by apply Hno in H].
      case_bool_decide; [lia|done].
    + intros t1 t2 th1 th2 [[-> <-]|[? H1]]%lookup_insert_Some [[-> <-]|[? H2]]%lookup_insert_Some;
        try done; intros; [by apply Hno in H2|by apply Hno in H1|by apply Hno in H1].
    + intros t' th' ep [[-> <-]|[? H]]%lookup_insert_Some Hw; simpl in *; [by case_bool_decide|].
      pose proof (si_wait _ _ S _ _ _ H Hw). lia.
Qed.

Lemma inv_end w t tl g last :
  inv w → thr w !! t = Some {| locals_ := tl; at_ := Running |} →
  EndExecuting (gw w) tl = Ok (g, last) →
  inv (moved w g t tl (if last : bool then Collecting else Outside)).
Proof.
  intros [R S] Ht Hend.
  destruct (t_selfEntry tl) as [i|] eqn:Hs; [|by destruct (ri_reg _ _ R t _ Ht)].
  destruct (ri_self _ _ R t _ i Ht Hs) as (_ & e & He & _).
  destruct (EntryIsCurrent tl e) eqn:Hc.
  - destruct (counted_pos _ _ _ _ _ _ R Ht Hs He Hc) as [Hx Hpos].
    rewrite (EndExecuting_current _ _ _ _ Hs He Hc Hx) in Hend.
    destruct (m_stopActive (gw w)) eqn:Ha; injection Hend as <- <-.
    + unfold inv, moved. simpl. by eapply (inv_arrive _ _ t tl i e (gw w)); try done; rewrite ?Ha; auto.
    + split; unfold moved; simpl.
      * eapply (reg_flip _ _ t tl Running); try done. rewrite Hx. simpl.
        rewrite wrap_small; [lia|]. unfold is_uint. lia.
      * split; simpl; rewrite ?Ha; try done.
        -- pose proof (si_epoch _ _ S) as Hep. by rewrite Ha in Hep.
        -- intros t' th' [[-> <-]|[? H]]%lookup_insert_Some Hcol; [done|].
           destruct (si_coll _ _ S _ _ H Hcol). congruence.
        -- intros t1 t2 th1 th2 [[-> <-]|[? H1]]%lookup_insert_Some
             [[-> <-]|[? H2]]%lookup_insert_Some; try done. by apply (si_uniq _ _ S).
        -- intros t' th' ep [[-> <-]|[? H]]%lookup_insert_Some; [done|by eapply S].
  - rewrite (EndExecuting_zombie _ _ _ _ Hs He Hc) in Hend. injection Hend as <- <-.
    split; unfold moved; simpl.
    + eapply (reg_phase _ _ t tl Running); try done. intros (j & e' & ? & ? & ?). congruence.
    + apply (stop_frame (gw w)); try done. intros th Hth. by simplify_eq.
Qed.

Lemma inv_initiate w t tl g last :
  inv w → thr w !! t = Some {| locals_ := tl; at_ := Running |} →
  m_requestEpoch (gw w) < 2 ^ 64 - 1 → InitiateAndArrive (gw w) tl = Ok (g, last) →
  inv (moved w g t tl (if last : bool then Collecting else Outside)).
Proof.
  intros [R S] Ht Hb. unfold InitiateAndArrive, SelfEntry.
  destruct (t_selfEntry tl) as [i|] eqn:Hs; [|by destruct (ri_reg _ _ R t _ Ht)].
  destruct (ri_self _ _ R t _ i Ht Hs) as (_ & e & He & _). rewrite He, derefE, !bindE.
  destruct (EntryIsCurrent tl e) eqn:Hc; [|done].
  destruct (counted_pos _ _ _ _ _ _ R Ht Hs He Hc) as [Hx _]. rewrite Hx. simpl.
  intros [= <- <-]. unfold inv, moved. simpl.
  eapply (inv_arrive _ _ t tl i e); [exact S|exact R|done..|by right| |done].
  by destruct (m_stopActive (gw w)).
Qed.

Lemma inv_begin_wake w t tl g :
  inv w → thr w !! t = Some {| locals_ := tl; at_ := WaitBegin |} →
  BeginExecuting_ready (gw w) = true → BeginExecuting_wake (gw w) tl = Ok g →
  inv (moved w g t tl Running).
Proof.
  unfold BeginExecuting_ready. intros [R S] Ht Ha%negb_true_iff.
  destruct (current_inv _ _ _ _ _ R Ht (ri_wait _ _ R _ _ Ht eq_refl))
    as (i & e & Hs & He & Hc & Hl & Hg & Hx).
  unfold BeginExecuting_wake, SelfEntry. rewrite Hs, He, derefE, !bindE. intros [= <-].
  assert (executing e = false) as Hxf by (destruct (executing e); [by destruct Hx as [Hx _]; specialize (Hx eq_refl)|done]).
  assert (0 ≤ m_executingCount (gw w) < 2 ^ 64 - 1) as Hcnt.
  { rewrite (ri_count _ _ R). pose proof (ri_len _ _ R). pose proof (ri_next _ _ R).
    pose proof (cnt_insert _ _ _ (set_executing e true) He) as E.
    pose proof (cnt_le (<[i:=set_executing e true]> (m_threads (gw w)))) as Hle.
    rewrite length_insert in Hle. unfold counted in E. simpl in E. rewrite Hl, Hxf in E. simpl in E. lia. }
  rewrite wrap_small by (unfold is_uint; lia). split; unfold moved; simpl.
  - eapply (reg_flip _ _ t tl WaitBegin); try done. rewrite Hxf. simpl. lia.
  - split; simpl; rewrite ?Ha; try done.
    + pose proof (si_epoch _ _ S) as Hep. by rewrite Ha in Hep.
    + intros t' th' [[-> <-]|[? H]]%lookup_insert_Some Hcol; [done|].
      destruct (si_coll _ _ S _ _ H Hcol). congruence.
    + intros t1 t2 th1 th2 [[-> <-]|[? H1]]%lookup_insert_Some
        [[-> <-]|[? H2]]%lookup_insert_Some; try done. by apply (si_uniq _ _ S).
    + intros t' th' ep [[-> <-]|[? H]]%lookup_insert_Some; [done|by eapply S].
Qed.

Lemma inv_complete w t tl :
  inv w → thr w !! t = Some {| locals_ := tl; at_ := Collecting |} →
  inv (moved w (Complete (gw w)) t tl Notifying).
Proof.
  intros [R S] Ht. destruct (si_coll _ _ S t _ Ht eq_refl) as [Ha Hz].
  pose proof (si_epoch _ _ S) as Hep. rewrite Ha in Hep. simpl in Hep.
  split; unfold moved; simpl.
  - apply (reg_ext (gw w)); try done. eapply (reg_phase _ _ t tl Collecting); try done.
  - split; simpl.
    + rewrite decide_True by lia. lia.
    + done.
    + intros t' th' [[-> <-]|[Hne H]]%lookup_insert_Some Hcol; [done|].
      destruct Hne. by apply (si_uniq _ _ S t t' _ _ Ht H).
    + intros t1 t2 th1 th2 [[-> <-]|[? H1]]%lookup_insert_Some
        [[-> <-]|[? H2]]%lookup_insert_Some; try done. by apply (si_uniq _ _ S).
    + intros t' th' ep [[-> <-]|[? H]]%lookup_insert_Some; [done|by eapply S].
Qed.

Lemma inv_reset w :
  inv w → m_stopActive (gw w) = false →
  (∀ t th, thr w !! t = Some th → at_ th = Outside ∨ at_ th = Running) →
  inv {| gw := Reset (gw w); thr := thr w; asleep := asleep w |}.
Proof.
  intros [R S] Ha Hp. split; simpl; [by apply reg_reset|]. split; simpl; try done.
  - intros t th Ht Hc. destruct (Hp t th Ht); congruence.
  - apply S.
  - intros t th e Ht Hw. destruct (Hp t th Ht); congruence.
Qed.

Lemma inv_step w w' : step w w' → inv w → inv w'.
Proof.
  intros [l H]. destruct H as [w t Ht|w t tl stack g tl' tok Ht Hb Hr|w t tl i g tl' Ht Hu Hs|w t tl b Ht Hb|w t tl Ht _ _
    |w t tl g Ht _ Hr Hw|w t tl g last Ht He|w t tl g last Ht Hb Hi|w t tl Ht|w t tl e Ht _ _|w t tl e Ht _ Hr
    |w t tl Ht Has|w t tl Ht|w t _|w Ha Hp]; intros I; pose proof I as [R S].
  - split; [by apply reg_spawn|]. apply (stop_frame (gw w)); try done. intros; congruence.
  - destruct (reg_register _ _ _ _ _ _ _ _ R Ht Hb Hr) as (R' & E1 & E2 & E3 & E4 & E5 & E6).
    split; [done|]. apply (stop_frame (gw w)); try done. intros th Hth. by simplify_eq.
  - split; [by eapply reg_unregister|].
    destruct (UnregisterThread_spec _ _ _ _ _ Hs Hu)
      as [[-> ->]|(e & _ & _ & _ & _ & _ & _ & _ & E1 & E2 & E3 & E4 & E5 & E6)];
      apply (stop_frame (gw w)); try done; intros th Hth; by simplify_eq.
  - assert (b = true → current (gw w) tl) as Hcur.
    { intros ->. unfold BeginExecuting_enter, SelfEntry in Hb.
      destruct (t_selfEntry tl) as [i|] eqn:Hs; [|done].
      destruct (m_threads (gw w) !! i) as [e|] eqn:He; [|done].
      rewrite derefE, !bindE in Hb. exists i, e. by injection Hb. }
    split; unfold moved; simpl.
    + eapply (reg_phase _ _ t tl Outside); try done; destruct b; try done. by intros _; apply Hcur.
    + apply (stop_frame (gw w)); try done; [intros th Hth; by simplify_eq|by destruct b..].
  - exact I.
  - by eapply inv_begin_wake.
  - by eapply inv_end.
  - by eapply inv_initiate.
  - split; unfold moved; simpl; [by eapply (reg_phase _ _ t tl Outside)|].
    apply (stop_frame (gw w)); try done; [intros th Hth; by simplify_eq|].
    intros e [= <-]. unfold WaitForCompletion_enter. lia.
  - exact I.
  - split; unfold moved; simpl; [by eapply (reg_phase _ _ t tl (WaitEpoch e))|].
    apply (stop_frame (gw w)); try done. intros th Hth. by simplify_eq.
  - by apply inv_complete.
  - split; unfold moved; simpl; [by eapply (reg_phase _ _ t tl Notifying)|].
    apply (stop_frame (gw w)); try done. intros th Hth. by simplify_eq.
  - exact I.
  - by apply inv_reset.
Qed.

Lemma inv_world0 : inv world0.
Proof. split; split; simpl; try done; try lia. split; [apply NoDup_nil_2|done]. Qed.

Lemma inv_reachable w : reachable w → inv w.
Proof.
  intros H. pose proof inv_world0 as I. revert I. induction H as [|w1 w2 w3 Hs _ IH]; [done|].
  intros I. apply IH. by eapply inv_step.
Qed.

(** ** Theorems *)

Lemma quiet_entries g m :
  reg_inv g m → m_executingCount g = 0 → ∀ i e, m_threads g !! i = Some e → live e = true →
  executing e = false.
Proof.
  intros R Hz i e He Hl. rewrite (ri_count _ _ R) in Hz.
  pose proof (cnt_zero (m_threads g) i e ltac:(lia) He) as Hc. unfold counted in Hc.
  by rewrite Hl in Hc.
Qed.

(** C5: Mutual exclusion of the collector: while a thread collects, the stop it completes
    is in flight with every expected thread arrived (so the gate before the
    collection passes), no live entry has its executing bit set, no registered
    thread runs bytecode, none can start, and nobody else collects. *)
Theorem collector_quiescent w t tl :
  reachable w → thr w !! t = Some {| locals_ := tl; at_ := Collecting |} →
  AssertAllArrived (gw w) = Ok () ∧
  BeginExecuting_ready (gw w) = false ∧
  (∀ i e, m_threads (gw w) !! i = Some e → live e = true → executing e = false) ∧
  (∀ t' th, thr w !! t' = Some th → at_ th = Running → ¬ current (gw w) (locals_ th)) ∧
  (∀ t' th, thr w !! t' = Some th → at_ th = Collecting → t' = t).
Proof.
  intros [R S]%inv_reachable Ht. destruct (si_coll _ _ S t _ Ht eq_refl) as [Ha Hz].
  destruct (si_count _ _ S Ha) as (? & Hsum & _).
  pose proof (quiet_entries _ _ R Hz) as Hq. split_and!.
  - unfold AssertAllArrived. rewrite Ha, bool_decide_true by lia. done.
  - unfold BeginExecuting_ready. by rewrite Ha.
  - exact Hq.
  - intros t' [tl' p'] Ht' Hr Hcur. simpl in *. subst p'.
    destruct (current_inv _ _ _ _ _ R Ht' Hcur) as (i & e & _ & He & _ & Hl & _ & Hx).
    rewrite (Hq i e He Hl) in Hx. by destruct Hx as [_ Hx]; specialize (Hx eq_refl).
  - intros t' th Ht' Hc. symmetry. by apply (si_uniq _ _ S t t' _ _ Ht Ht').
Qed.

(** The owner of a counted entry is running. *)
Lemma some_running g m :
  reg_inv g m → 0 < m_executingCount g →
  ∃ t tl i e, m !! t = Some {| locals_ := tl; at_ := Running |} ∧ t_selfEntry tl = Some i ∧
    m_threads g !! i = Some e ∧ EntryIsCurrent tl e = true ∧ executing e = true.
Proof.
  intros R Hpos. rewrite (ri_count _ _ R) in Hpos.
  destruct (cnt_pos (m_threads g)) as (i & e & He & Hc); [lia|].
  unfold counted in Hc. apply andb_true_iff in Hc as [Hl Hx].
  destruct (ri_owner _ _ R i e He Hl) as (t & [tl p] & Ht & Hs & Hg). simpl in *.
  destruct (ri_self _ _ R t _ i Ht Hs) as (_ & e' & He' & Hiff). simplify_eq/=.
  assert (EntryIsCurrent tl e = true) as Hc.
  { unfold EntryIsCurrent. rewrite Hl, Hg. by rewrite bool_decide_true. }
  assert (p = Running) as -> by by apply Hiff. by exists t, tl, i, e.
Qed.

(** *** The condition variable *)
Definition notifier (m : gmap nat thread) : Prop := ∃ t tl, m !! t = Some {| locals_ := tl; at_ := Notifying |}.
(** The predicate of the wait a thread is in is false. *)
Definition blocked (g : GcWorldStop) (p : phase) : Prop :=
  match p with
  | WaitBegin => BeginExecuting_ready g = false
  | WaitEpoch e => WaitForCompletion_ready g e = false
  | _ => False
  end.
Definition waiting (p : phase) : Prop := p = WaitBegin ∨ ∃ e, p = WaitEpoch e.
(** Whoever sleeps waits for something that is not so yet, or a notification is due. *)
Definition cv_inv (w : world) : Prop :=
  ∀ t, t ∈ asleep w → ∃ tl p, thr w !! t = Some {| locals_ := tl; at_ := p |} ∧ waiting p ∧
    (blocked (gw w) p ∨ notifier (thr w)).

Lemma blocked_mono g g' p :
  (m_stopActive g = true → m_stopActive g' = true) → m_completedEpoch g' = m_completedEpoch g → blocked g p → blocked g' p.
Proof.
  intros E1 E2. destruct p; try done; unfold blocked, BeginExecuting_ready, WaitForCompletion_ready.
  - rewrite !negb_false_iff. done.
  - by rewrite E2.
Qed.
Lemma cv_moved w g t tl p' :
  cv_inv w →
  (∀ th, thr w !! t = Some th → (¬ waiting (at_ th) ∨ t ∉ asleep w) ∧ at_ th ≠ Notifying) →
  (∀ p, blocked (gw w) p → blocked g p ∨ p' = Notifying) →
  cv_inv (moved w g t tl p').
Proof.
  intros C Ht Hb t' Hs. destruct (C t' Hs) as (tl' & p & Ht' & Hw & Hor). unfold moved. simpl.
  assert (t' ≠ t) as Hne by (intros ->; destruct (Ht _ Ht') as [[?|?] _]; done).
  exists tl', p. rewrite lookup_insert_ne by done. split_and!; [done|done|].
  assert (notifier (<[t := {| locals_ := tl; at_ := p' |}]> (thr w)) ∨ p' ≠ Notifying) as Hn.
  { destruct p'; auto. left. exists t, tl. by rewrite lookup_insert_eq. }
  destruct Hor as [H|(t2 & tl2 & Ht2)].
  - destruct (Hb p H) as [?|?]; [by left|]. right. by destruct Hn.
  - right. exists t2, tl2. rewrite lookup_insert_ne; [done|]. intros <-. by destruct (Ht _ Ht2).
Qed.

(** *** What the steps do to a stop in flight *)
Lemma EndExecuting_effect w t tl g last :
  inv w → thr w !! t = Some {| locals_ := tl; at_ := Running |} → EndExecuting (gw w) tl = Ok (g, last) →
  (¬ current (gw w) tl ∧ g = gw w ∧ last = false) ∨
  (current (gw w) tl ∧ m_stopActive g = m_stopActive (gw w) ∧ m_requestEpoch g = m_requestEpoch (gw w) ∧
   m_completedEpoch g = m_completedEpoch (gw w) ∧ m_executingCount g = m_executingCount (gw w) - 1).
Proof.
  intros [R S] Ht Hend. destruct (t_selfEntry tl) as [i|] eqn:Hs; [|by destruct (ri_reg _ _ R t _ Ht)].
  destruct (ri_self _ _ R t _ i Ht Hs) as (_ & e & He & _). destruct (EntryIsCurrent tl e) eqn:Hc.
  - right. destruct (counted_pos _ _ _ _ _ _ R Ht Hs He Hc) as [Hx Hpos].
    rewrite (EndExecuting_current _ _ _ _ Hs He Hc Hx) in Hend.
    split; [by exists i, e|]. assert (u64 (m_executingCount (gw w) - 1) = m_executingCount (gw w) - 1) as E
      by (apply wrap_small; unfold is_uint; lia).
    destruct (m_stopActive (gw w)) eqn:Ha; injection Hend as <- <-; simpl; by rewrite E.
  - left. rewrite (EndExecuting_zombie _ _ _ _ Hs He Hc) in Hend. injection Hend as <- <-.
    split; [|done]. intros (j & e' & ? & ? & ?). congruence.
Qed.
Lemma InitiateAndArrive_effect w t tl g last :
  inv w → thr w !! t = Some {| locals_ := tl; at_ := Running |} → InitiateAndArrive (gw w) tl = Ok (g, last) →
  current (gw w) tl ∧ m_stopActive g = true ∧ m_completedEpoch g = m_completedEpoch (gw w) ∧
  m_executingCount g = m_executingCount (gw w) - 1 ∧
  (m_stopActive (gw w) = true → m_requestEpoch g = m_requestEpoch (gw w)).
Proof.
  intros [R S] Ht. unfold InitiateAndArrive, SelfEntry.
  destruct (t_selfEntry tl) as [i|] eqn:Hs; [|by destruct (ri_reg _ _ R t _ Ht)].
  destruct (ri_self _ _ R t _ i Ht Hs) as (_ & e & He & _). rewrite He, derefE, !bindE.
  destruct (EntryIsCurrent tl e) eqn:Hc; [|done].
  destruct (counted_pos _ _ _ _ _ _ R Ht Hs He Hc) as [Hx Hpos]. rewrite Hx. simpl. intros [= <- <-].
  assert (u64 (m_executingCount (gw w) - 1) = m_executingCount (gw w) - 1) as E
    by (apply wrap_small; unfold is_uint; lia).
  split; [by exists i, e|]. destruct (m_stopActive (gw w)) eqn:Ha; simpl; by rewrite ?Ha, E.
Qed.
Lemma BeginExecuting_wake_effect w t tl g :
  inv w → thr w !! t = Some {| locals_ := tl; at_ := WaitBegin |} → BeginExecuting_wake (gw w) tl = Ok g →
  m_stopActive g = m_stopActive (gw w) ∧ m_requestEpoch g = m_requestEpoch (gw w) ∧ m_completedEpoch g = m_completedEpoch (gw w).
Proof.
  intros [R S] Ht. destruct (ri_wait _ _ R _ _ Ht eq_refl) as (i & e & Hs & He & _). simpl in *.
  unfold BeginExecuting_wake, SelfEntry. rewrite Hs, He, derefE, !bindE. by intros [= <-].
Qed.

Lemma cv_step w w' : step w w' → inv w → cv_inv w → cv_inv w'.
Proof.
  intros [l H] I C.
  destruct H as [w t Ht|w t tl stack g tl' tok Ht Hb Hr|w t tl i g tl' Ht Hu Hs|w t tl b Ht Hb|w t tl Ht Hz Hn
    |w t tl g Ht Hz Hr Hw|w t tl g last Ht He|w t tl g last Ht Hb Hi|w t tl Ht|w t tl e Ht Hz Hn|w t tl e Ht Hz Hr
    |w t tl Ht Has|w t tl Ht|w t Hz|w Ha Hp].
  - apply cv_moved; [done|intros; congruence|auto].
  - apply cv_moved; [done|intros th Hth; simplify_eq; split; [left; by intros [?|[? ?]]|done]|].
    destruct (reg_register _ _ _ _ _ _ _ _ (proj1 I) Ht Hb Hr) as (_ & _ & E2 & _ & _ & _ & E6).
    intros p Hp. left. by apply (blocked_mono (gw w)); [congruence|..].
  - apply cv_moved; [done|intros th Hth; simplify_eq; split; [left; by intros [?|[? ?]]|done]|].
    destruct (UnregisterThread_spec _ _ _ _ _ Hs Hu) as [[-> ->]|(e & _ & _ & _ & _ & _ & _ & _ & _ & E2 & _ & _ & _ & E6)]; [auto|].
    intros p Hp. left. by apply (blocked_mono (gw w)); [congruence|..].
  - apply cv_moved; [done|intros th Hth; simplify_eq; split; [left; by intros [?|[? ?]]|done]|auto].
  - intros t' [->%elem_of_singleton|Hs]%elem_of_union; [|by apply C].
    exists tl, WaitBegin. split; [done|]. split; [by left|]. by left.
  - apply cv_moved; [done|intros th Hth; simplify_eq; split; [by right|done]|].
    destruct (BeginExecuting_wake_effect w t tl g I Ht Hw) as (E1 & _ & E2).
    intros p Hp. left. by apply (blocked_mono (gw w)); [congruence|..].
  - apply cv_moved; [done|intros th Hth; simplify_eq; split; [left; by intros [?|[? ?]]|done]|].
    destruct (EndExecuting_effect w t tl g last I Ht He) as [(_ & -> & _)|(_ & E1 & _ & E2 & _)]; [auto|].
    intros p Hp. left. by apply (blocked_mono (gw w)); [congruence|..].
  - apply cv_moved; [done|intros th Hth; simplify_eq; split; [left; by intros [?|[? ?]]|done]|].
    destruct (InitiateAndArrive_effect w t tl g last I Ht Hi) as (_ & E1 & E2 & _).
    intros p Hp. by left; apply (blocked_mono (gw w)).
  - apply cv_moved; [done|intros th Hth; simplify_eq; split; [left; by intros [?|[? ?]]|done]|auto].
  - intros t' [->%elem_of_singleton|Hs]%elem_of_union; [|by apply C].
    exists tl, (WaitEpoch e). split; [done|]. split; [right; by eexists|]. by left.
  - apply cv_moved; [done|intros th Hth; simplify_eq; split; [by right|done]|auto].
  - apply cv_moved; [done|intros th Hth; simplify_eq; split; [left; by intros [?|[? ?]]|done]|auto].
  - intros t' Hs. by apply elem_of_empty in Hs.
  - intros t' [Hs _]%elem_of_difference. by apply C.
  - intros t' Hs. destruct (C t' Hs) as (tl & p & Ht & Hw & _). destruct (Hp t' _ Ht); simpl in *; subst; by destruct Hw as [?|[? ?]].
Qed.
(** What a step leaves alone: the other threads. *)
Lemma step_other l w w' t th :
  step_by l w w' → thr w !! t = Some th → l ≠ Some t →
  thr w' !! t = Some th ∧ (t ∉ asleep w → t ∉ asleep w').
Proof.
  intros H Ht Hl. destruct H as [w t'|w t'|w t'|w t'|w t'|w t'|w t'|w t'|w t'|w t'|w t'|w t'|w t'|w t' Hz|w Hf Hp]; simpl;
    try (assert (t' ≠ t) by congruence); rewrite ?lookup_insert_ne by done; (split; [done|set_solver]).
Qed.
(** Under a stop in flight nobody starts; only a collector ends it. *)
Lemma step_active l w w' :
  inv w → step_by l w w' → m_stopActive (gw w) = true →
  (∃ t tl, l = Some t ∧ thr w !! t = Some {| locals_ := tl; at_ := Collecting |}) ∨
  (m_stopActive (gw w') = true ∧ m_requestEpoch (gw w') = m_requestEpoch (gw w) ∧
   m_executingCount (gw w') ≤ m_executingCount (gw w)).
Proof.
  intros I H Ha. destruct H as [w t Ht|w t tl stack g tl' tok Ht Hb Hr|w t tl i g tl' Ht Hu Hs|w t tl b Ht Hb|w t tl Ht Hz Hn
    |w t tl g Ht Hz Hr Hw|w t tl g last Ht He|w t tl g last Ht Hb Hi|w t tl Ht|w t tl e Ht Hz Hn|w t tl e Ht Hz Hr
    |w t tl Ht Has|w t tl Ht|w t Hz|w Hf Hp]; simpl; try (right; done).
  - right. by destruct (reg_register _ _ _ _ _ _ _ _ (proj1 I) Ht Hb Hr) as (_ & -> & -> & _ & _ & -> & _).
  - right. by destruct (UnregisterThread_spec _ _ _ _ _ Hs Hu) as [[-> ->]|(e & _ & _ & _ & _ & _ & _ & _ & -> & -> & _ & _ & -> & _)].
  - unfold BeginExecuting_ready in Hr. by rewrite Ha in Hr.
  - right. destruct (EndExecuting_effect w t tl g last I Ht He) as [(_ & -> & _)|(_ & -> & -> & _ & ->)]; split_and!; (done || lia).
  - right. destruct (InitiateAndArrive_effect w t tl g last I Ht Hi) as (_ & -> & _ & -> & E). split_and!; [done|by apply E|lia].
  - left. by exists t, tl.
  - congruence.
Qed.
(** The completed epoch goes back only in a reset, when nobody waits. *)
Lemma step_completed l w w' t th :
  inv w → step_by l w w' → thr w !! t = Some th → waiting (at_ th) →
  m_completedEpoch (gw w) ≤ m_completedEpoch (gw w').
Proof.
  intros I H Hth Hwait. destruct H as [w t' Ht|w t' tl stack g tl' tok Ht Hb Hr|w t' tl i g tl' Ht Hu Hs|w t' tl b Ht Hb|w t' tl Ht Hz Hn
    |w t' tl g Ht Hz Hr Hw|w t' tl g last Ht He|w t' tl g last Ht Hb Hi|w t' tl Ht|w t' tl e Ht Hz Hn|w t' tl e Ht Hz Hr
    |w t' tl Ht Has|w t' tl Ht|w t' Hz|w Hf Hp]; simpl; try lia.
  - by destruct (reg_register _ _ _ _ _ _ _ _ (proj1 I) Ht Hb Hr) as (_ & _ & _ & _ & _ & _ & ->).
  - by destruct (UnregisterThread_spec _ _ _ _ _ Hs Hu) as [[-> ->]|(e & _ & _ & _ & _ & _ & _ & _ & _ & _ & _ & _ & _ & ->)].
  - by destruct (BeginExecuting_wake_effect w t' tl g I Ht Hw) as (_ & _ & ->).
  - by destruct (EndExecuting_effect w t' tl g last I Ht He) as [(_ & -> & _)|(_ & _ & _ & -> & _)].
  - by destruct (InitiateAndArrive_effect w t' tl g last I Ht Hi) as (_ & _ & -> & _).
  - case_decide; lia.
  - destruct (Hp t _ Hth) as [E|E]; rewrite E in Hwait; by destruct Hwait as [?|[? ?]].
Qed.
(** A live entry stays live with its stamp until its owner retires it. *)
Lemma step_live l w w' j e :
  inv w → step_by l w w' → m_stopActive (gw w) = true → m_threads (gw w) !! j = Some e → live e = true →
  (∃ e', m_threads (gw w') !! j = Some e' ∧ live e' = true ∧ generation e' = generation e) ∨
  (∃ t tl, l = Some t ∧ thr w !! t = Some {| locals_ := tl; at_ := Outside |} ∧ t_selfEntry tl = Some j ∧ EntryIsCurrent tl e = true).
Proof.
  intros I H Ha He Hl.
  assert (∀ i e0 b, m_threads (gw w) !! i = Some e0 → ∃ e', <[i := set_executing e0 b]> (m_threads (gw w)) !! j = Some e' ∧
    live e' = true ∧ generation e' = generation e) as Hflip.
  { intros i e0 b Hi. destruct (decide (i = j)) as [->|Hne]; [|rewrite list_lookup_insert_ne by done; eauto].
    rewrite He in Hi. injection Hi as <-. eexists. split; [apply list_lookup_insert_eq; by eapply lookup_lt_Some|done]. }
  destruct H as [w t Ht|w t tl stack g tl' tok Ht Hb Hr|w t tl i g tl' Ht Hu Hs|w t tl b Ht Hb|w t tl Ht Hz Hn
    |w t tl g Ht Hz Hr Hw|w t tl g last Ht Hend|w t tl g last Ht Hb Hi|w t tl Ht|w t tl e2 Ht Hz Hn|w t tl e2 Ht Hz Hr
    |w t tl Ht Has|w t tl Ht|w t Hz|w Hf Hp]; simpl; try (left; by exists e).
  - left. unfold RegisterThread in Hr. destruct (IsRegistered _ _); [done|].
    destruct (TakeIndex (gw w)) as [[ix ts] fr] eqn:E. monad_inv. simpl.
    destruct (TakeIndex_spec _ _ _ _ _ (proj1 I) E) as (_ & _ & _ & _ & _ & _ & _ & F8 & F9).
    assert (j ≠ ix) as Hjx by (intros ->; specialize (F9 _ He); congruence).
    exists e. rewrite list_lookup_insert_ne by done. by rewrite F8.
  - destruct (UnregisterThread_spec _ _ _ _ _ Hs Hu) as [[-> ->]|(e0 & He0 & Hc & _ & _ & -> & _)]; [left; by exists e|].
    destruct (decide (i = j)) as [->|Hne]; [|left; exists e; by rewrite list_lookup_insert_ne].
    right. exists t, tl. by simplify_eq.
  - left. unfold BeginExecuting_wake, SelfEntry in Hw. destruct (t_selfEntry tl); [|done]. monad_inv. simpl. by apply Hflip.
  - left. unfold EndExecuting, SelfEntry in Hend. destruct (t_selfEntry tl); [|done]. monad_inv.
    destruct (negb _); [simplify_eq; by exists e|]. destruct (negb (executing _)); [done|].
    simpl in *. destruct (negb _); simplify_eq; simpl; by apply Hflip.
  - left. unfold InitiateAndArrive, SelfEntry in Hi. destruct (t_selfEntry tl); [|done]. monad_inv.
    destruct (negb _); [done|]. destruct (negb (executing _)); [done|].
    destruct (m_stopActive (gw w)); simplify_eq; simpl; by apply Hflip.
  - congruence.
Qed.
Lemma step_current l w w' t tl :
  inv w → step_by l w w' → m_stopActive (gw w) = true → l ≠ Some t →
  thr w !! t = Some {| locals_ := tl; at_ := Running |} → current (gw w) tl → current (gw w') tl.
Proof.
  intros I H Ha Hl Ht (j & e & Hj & He & Hc). pose proof Hc as [Hlive Hg%bool_decide_eq_true]%andb_true_iff.
  destruct (step_live l w w' j e I H Ha He Hlive) as [(e' & He' & Hl' & Hg')|(t' & tl' & -> & Ht' & Hj' & Hc')].
  - exists j, e'. split_and!; [done..|]. unfold EntryIsCurrent. rewrite Hl', bool_decide_true; [done|congruence].
  - destruct Hl. f_equal. by apply (current_unique _ _ t' t _ _ j e (proj1 I) Ht' Ht).
Qed.

(** *** Fair runs *)
(** A thread that must move: it executes bytecode under a stop (and reaches a safepoint or
    stops executing), it is the collector, it owes the notification, or it is awake in a
    wait and tests its predicate. *)
Definition obliged (w : world) (t : nat) : Prop :=
  ∃ tl p, thr w !! t = Some {| locals_ := tl; at_ := p |} ∧
    match p with
    | Running => m_stopActive (gw w) = true ∧ current (gw w) tl
    | WaitBegin | WaitEpoch _ => t ∉ asleep w
    | Collecting | Notifying => True
    | Outside => False
    end.
Definition run (r : nat → world) : Prop :=
  reachable (r 0%nat) ∧ ∀ n, step (r n) (r (S n)) ∨ r (S n) = r n.
(** No thread is obliged for ever without moving. *)
Definition fair (r : nat → world) : Prop :=
  ∀ t n, ∃ m, (n ≤ m)%nat ∧ (step_by (Some t) (r m) (r (S m)) ∨ ¬ obliged (r m) t).

Section Runs.
Context (r : nat → world) (Hrun : run r) (Hfair : fair r).

Lemma run_inv n : inv (r n) ∧ cv_inv (r n).
Proof using Hrun.
  destruct Hrun as [H0 Hs]. assert (∀ w, reachable w → inv w ∧ cv_inv w) as Hr.
  { intros w. unfold reachable. assert (inv world0 ∧ cv_inv world0) as I by (split; [apply inv_world0|intros t ?%elem_of_empty; done]).
    revert I. generalize world0. intros w0 I H. induction H as [|w1 w2 w3 H12 _ IH]; [done|]. apply IH. destruct I.
    split; [by eapply inv_step|by eapply cv_step]. }
  induction n as [|n [I C]]; [by apply Hr|]. destruct (Hs n) as [H| ->]; [|done]. split; [by eapply inv_step|by eapply cv_step].
Qed.
(** What a thread is obliged to until it moves or the goal is reached, it does. *)
Lemma leads (P G Q : world → Prop) t n :
  P (r n) → (∀ m, (n ≤ m)%nat → Q (r m)) →
  (∀ w, P w → obliged w t ∨ G w) →
  (∀ l w w', inv w → cv_inv w → Q w → Q w' → P w → step_by l w w' → (l ≠ Some t ∧ P w') ∨ G w') →
  ∃ m, (n ≤ m)%nat ∧ G (r m).
Proof using Hrun Hfair.
  intros HP HQ Hob Hst. destruct (Hfair t n) as (m & Hm & Hev). remember (m - n)%nat as k eqn:Hk.
  revert n HP HQ Hm Hk. induction k as [|k IH]; intros n HP HQ Hm Hk.
  - assert (m = n) as -> by lia. destruct (run_inv n) as [I C].
    destruct (Hob _ HP) as [Ho|Hg]; [|by exists n]. destruct Hev as [Hs|Hno]; [|done].
    destruct (Hst _ _ _ I C (HQ n ltac:(lia)) (HQ (S n) ltac:(lia)) HP Hs) as [[? _]|?]; [done|]. exists (S n). by split; [lia|].
  - assert (P (r (S n)) ∨ G (r (S n))) as [HP'|HG].
    { destruct (proj2 Hrun n) as [[l Hs]| ->]; [|by left]. destruct (run_inv n) as [I C].
      destruct (Hst l _ _ I C (HQ n ltac:(lia)) (HQ (S n) ltac:(lia)) HP Hs) as [[_ ?]|?]; auto. }
    + destruct (IH (S n) HP') as (m' & ? & ?); [intros; apply HQ; lia|lia|lia|]. exists m'. split; [lia|done].
    + exists (S n). by split; [lia|].
Qed.

Definition stop_over (rho : Z) (w : world) : Prop := m_stopActive (gw w) = false ∧ m_completedEpoch (gw w) = rho.
Lemma stop_ends k : ∀ n, m_stopActive (gw (r n)) = true → m_executingCount (gw (r n)) = Z.of_nat k →
  ∃ m, (n ≤ m)%nat ∧ stop_over (m_requestEpoch (gw (r n))) (r m).
Proof using Hrun Hfair.
  induction k as [k IH] using lt_wf_ind. intros n Ha Hk. set (rho := m_requestEpoch (gw (r n))).
  destruct (run_inv n) as [I C]. pose proof I as [R S]. destruct (si_count _ _ S Ha) as (_ & _ & _ & Hcoll).
  destruct (decide (k = 0%nat)) as [->|Hpos].
  - destruct (Hcoll Hk) as (t & tl & Ht).
    apply (leads (λ w, thr w !! t = Some {| locals_ := tl; at_ := Collecting |} ∧ m_requestEpoch (gw w) = rho) _ (λ _, True) t); [done|done| |].
    + intros w [Hw _]. left. by exists tl, Collecting.
    + intros l w w' Iw _ _ _ [Hw Hrho] Hs. destruct (si_coll _ _ (proj2 Iw) t _ Hw eq_refl) as [Haw _].
      destruct (decide (l = Some t)) as [->|Hl].
      * right. inversion Hs; simplify_eq. unfold moved, stop_over. simpl. split; [done|].
        pose proof (si_epoch _ _ (proj2 Iw)) as Hep. rewrite Haw in Hep. simpl in Hep. rewrite decide_True; lia.
      * left. split; [done|]. split; [by eapply step_other|].
        destruct (step_active l w w' Iw Hs Haw) as [(t' & tl' & -> & Ht')|(_ & -> & _)]; [|done].
        destruct Hl. f_equal. by apply (si_uniq _ _ (proj2 Iw) t' t _ _ Ht' Hw).
  - destruct (some_running _ _ R) as (t & tl & i & e & Ht & Hs & He & Hc & _); [lia|].
    destruct (leads (λ w, m_stopActive (gw w) = true ∧ m_requestEpoch (gw w) = rho ∧ m_executingCount (gw w) ≤ Z.of_nat k
        ∧ thr w !! t = Some {| locals_ := tl; at_ := Running |} ∧ current (gw w) tl)
      (λ w, m_stopActive (gw w) = true ∧ m_requestEpoch (gw w) = rho ∧ m_executingCount (gw w) < Z.of_nat k) (λ _, True) t n)
      as (m & Hm & Hma & Hmr & Hmk).
    + split_and!; [done|done|lia|done|by exists i, e].
    + done.
    + intros w (Haw & _ & _ & Hw & Hcur). left. exists tl, Running. auto.
    + intros l w w' Iw _ _ _ (Haw & Hr & Hkw & Hw & Hcur) Hst.
      assert (0 < m_executingCount (gw w)) as Hp.
      { destruct Hcur as (j & e' & Hj & He' & Hc'). by destruct (counted_pos _ _ _ _ _ _ (proj1 Iw) Hw Hj He' Hc') as [_ [? _]]. }
      destruct (step_active l w w' Iw Hst Haw) as [(t' & tl' & -> & Ht')|(Ha' & Hr' & Hk')].
      { destruct (si_coll _ _ (proj2 Iw) t' _ Ht' eq_refl). lia. }
      destruct (decide (l = Some t)) as [->|Hl].
      * right. split_and!; [done|congruence|]. inversion Hst; simplify_eq; simpl.
        -- match goal with H : EndExecuting _ _ = _ |- _ => destruct (EndExecuting_effect w t tl _ _ Iw Hw H) as [(? & _)|(_ & _ & _ & _ & ->)]; [done|lia] end.
        -- match goal with H : InitiateAndArrive _ _ = _ |- _ => destruct (InitiateAndArrive_effect w t tl _ _ Iw Hw H) as (_ & _ & _ & -> & _); lia end.
      * left. split; [done|]. split_and!; [done|congruence|lia|by eapply step_other|by eapply step_current].
    + destruct (run_inv m) as [[Rm _] _]. pose proof (ri_count _ _ Rm).
      destruct (IH (Z.to_nat (m_executingCount (gw (r m)))) ltac:(lia) m Hma ltac:(lia)) as (m' & Hm' & Hover).
      exists m'. split; [lia|]. by rewrite <- Hmr.
Qed.

(** A waiter whose epoch is complete returns; if it sleeps, a notification is due. *)
Definition waits_at (t : nat) (tl : ThreadLocals) (e : Z) (w : world) : Prop :=
  thr w !! t = Some {| locals_ := tl; at_ := WaitEpoch e |}.
Definition is_back (t : nat) (tl : ThreadLocals) (w : world) : Prop :=
  thr w !! t = Some {| locals_ := tl; at_ := Outside |}.
Lemma waiter_self w w' t tl e : step_by (Some t) w w' → waits_at t tl e w →
  is_back t tl w' ∨ (WaitForCompletion_ready (gw w) e = false ∧ (t ∉ asleep w) ∧ waits_at t tl e w').
Proof using.
  unfold waits_at, is_back. intros H Ht. inversion H; simplify_eq; simpl; [by right|]. left. by rewrite lookup_insert_eq.
Qed.
Lemma ready_mono g g' e : m_completedEpoch g ≤ m_completedEpoch g' → WaitForCompletion_ready g e = true → WaitForCompletion_ready g' e = true.
Proof using. unfold WaitForCompletion_ready. rewrite !bool_decide_eq_true. lia. Qed.
Lemma waiter_ready l w w' t tl e : inv w → step_by l w w' → waits_at t tl e w → WaitForCompletion_ready (gw w) e = true →
  (l ≠ Some t ∧ waits_at t tl e w' ∧ WaitForCompletion_ready (gw w') e = true ∧ (t ∉ asleep w → t ∉ asleep w')) ∨ is_back t tl w'.
Proof using.
  intros I H Ht Hr. destruct (decide (l = Some t)) as [->|Hl].
  - right. destruct (waiter_self w w' t tl e H Ht) as [?|(? & _)]; [done|congruence].
  - left. destruct (step_other l w w' t _ H Ht Hl). split_and!; [done..| |done].
    eapply ready_mono; [|done]. eapply step_completed; [done..|]. right. by eexists.
Qed.
Lemma awake_returns t tl e n : waits_at t tl e (r n) → WaitForCompletion_ready (gw (r n)) e = true → t ∉ asleep (r n) →
  ∃ m, (n ≤ m)%nat ∧ is_back t tl (r m).
Proof using Hrun Hfair.
  intros Ht Hr Hz. apply (leads (λ w, waits_at t tl e w ∧ WaitForCompletion_ready (gw w) e = true ∧ t ∉ asleep w) _ (λ _, True) t); [done|done| |].
  - intros w (Hw & _ & Hzw). left. by exists tl, (WaitEpoch e).
  - intros l w w' Iw _ _ _ (Hw & Hrw & Hzw) Hs. destruct (waiter_ready l w w' t tl e Iw Hs Hw Hrw) as [(? & ? & ? & Hz')|?]; [left|by right]. auto.
Qed.
Lemma ready_returns t tl e n : waits_at t tl e (r n) → WaitForCompletion_ready (gw (r n)) e = true →
  ∃ m, (n ≤ m)%nat ∧ is_back t tl (r m).
Proof using Hrun Hfair.
  intros Ht Hr. destruct (decide (t ∈ asleep (r n))) as [Hz|Hz]; [|by eapply awake_returns].
  destruct (run_inv n) as [I C]. destruct (C t Hz) as (tl' & p & Ht' & _ & [Hb|(t2 & tl2 & Ht2)]).
  { unfold waits_at in Ht. simplify_eq. unfold blocked in Hb. congruence. }
  destruct (leads (λ w, thr w !! t2 = Some {| locals_ := tl2; at_ := Notifying |} ∧ waits_at t tl e w ∧ WaitForCompletion_ready (gw w) e = true)
    (λ w, is_back t tl w ∨ waits_at t tl e w ∧ WaitForCompletion_ready (gw w) e = true ∧ t ∉ asleep w) (λ _, True) t2 n)
    as (m & Hm & [Hback|(Hw & Hrw & Hzw)]); [done|done| | |by exists m|].
  - intros w (Hw & _). left. by exists tl2, Notifying.
  - intros l w w' Iw _ _ _ (H2 & Hw & Hrw) Hs. destruct (waiter_ready l w w' t tl e Iw Hs Hw Hrw) as [(_ & Hw' & Hr' & _)|?]; [|by right; left].
    destruct (decide (l = Some t2)) as [->|Hl]; [|left; split; [done|]; split; [by eapply step_other|done]].
    right; right. split_and!; [done..|]. inversion Hs; simplify_eq. set_solver.
  - destruct (awake_returns t tl e m Hw Hrw Hzw) as (m' & ? & ?). exists m'. split; [lia|done].
Qed.
Lemma waiter_stays t tl e n m : (n ≤ m)%nat → waits_at t tl e (r n) →
  waits_at t tl e (r m) ∨ ∃ j, (n ≤ j)%nat ∧ is_back t tl (r j).
Proof using Hrun.
  induction 1 as [|m Hm IH]; intros Ht; [by left|]. destruct (IH Ht) as [Hw|?]; [|by right].
  destruct (proj2 Hrun m) as [[l Hs]| ->]; [|by left]. destruct (decide (l = Some t)) as [->|Hl].
  - destruct (waiter_self _ _ t tl e Hs Hw) as [?|(_ & _ & ?)]; [right; exists (S m); by split; [lia|]|by left].
  - left. by eapply step_other.
Qed.
Lemma waiter_returns t tl e n : waits_at t tl e (r n) → ∃ m, (n ≤ m)%nat ∧ is_back t tl (r m).
Proof using Hrun Hfair.
  intros Ht. destruct (run_inv n) as [I C]. pose proof I as [R S].
  pose proof (si_wait _ _ S t _ e Ht eq_refl) as Hle. pose proof (si_epoch _ _ S) as (_ & _ & Hep).
  destruct (m_stopActive (gw (r n))) eqn:Ha; simpl in Hep.
  - destruct (stop_ends (Z.to_nat (m_executingCount (gw (r n)))) n Ha) as (m & Hm & _ & Hc); [pose proof (ri_count _ _ R); lia|].
    destruct (waiter_stays t tl e n m Hm Ht) as [Hw|?]; [|done].
    destruct (ready_returns t tl e m Hw) as (m' & ? & ?); [|exists m'; split; [lia|done]].
    unfold WaitForCompletion_ready. apply bool_decide_eq_true. lia.
  - apply (ready_returns t tl e); [done|]. unfold WaitForCompletion_ready. apply bool_decide_eq_true. lia.
Qed.

(** A starter waits in [BeginExecuting] until it runs. *)
Definition starts_at (t : nat) (tl : ThreadLocals) (w : world) : Prop := thr w !! t = Some {| locals_ := tl; at_ := WaitBegin |}.
Definition is_running (t : nat) (tl : ThreadLocals) (w : world) : Prop := thr w !! t = Some {| locals_ := tl; at_ := Running |}.
Lemma starter_self w w' t tl : step_by (Some t) w w' → starts_at t tl w →
  is_running t tl w' ∨ (m_stopActive (gw w) = true ∧ starts_at t tl w').
Proof using.
  unfold starts_at, is_running, BeginExecuting_ready. intros H Ht.
  inversion H as [| | | |? ? ? ? ? Hn%negb_false_iff| | | | | | | | | |]; simplify_eq; simpl; [by right|]. left. by rewrite lookup_insert_eq.
Qed.
Lemma starter_stays t tl n m : (n ≤ m)%nat → starts_at t tl (r n) →
  starts_at t tl (r m) ∨ ∃ j, (n ≤ j)%nat ∧ is_running t tl (r j).
Proof using Hrun.
  induction 1 as [|m Hm IH]; intros Ht; [by left|]. destruct (IH Ht) as [Hw|?]; [|by right].
  destruct (proj2 Hrun m) as [[l Hs]| ->]; [|by left]. destruct (decide (l = Some t)) as [->|Hl].
  - destruct (starter_self _ _ t tl Hs Hw) as [?|(_ & ?)]; [right; exists (S m); by split; [lia|]|by left].
  - left. by eapply step_other.
Qed.
Lemma starter_runs t tl n : starts_at t tl (r n) → (∀ m, (n ≤ m)%nat → m_stopActive (gw (r m)) = false) →
  ∃ m, (n ≤ m)%nat ∧ is_running t tl (r m).
Proof using Hrun Hfair.
  intros Ht Hq.
  assert (∀ n, starts_at t tl (r n) → (∀ m, (n ≤ m)%nat → m_stopActive (gw (r m)) = false) → t ∉ asleep (r n) →
    ∃ m, (n ≤ m)%nat ∧ is_running t tl (r m)) as Hawake.
  { clear n Ht Hq. intros n Ht Hq Hz.
    apply (leads (λ w, starts_at t tl w ∧ t ∉ asleep w) _ (λ w, m_stopActive (gw w) = false) t); [done|done| |].
    - intros w (Hw & Hzw). left. by exists tl, WaitBegin.
    - intros l w w' _ _ Hqw _ (Hw & Hzw) Hs. destruct (decide (l = Some t)) as [->|Hl].
      + destruct (starter_self w w' t tl Hs Hw) as [?|[? _]]; [by right|congruence].
      + left. destruct (step_other l w w' t _ Hs Hw Hl). auto. }
  destruct (decide (t ∈ asleep (r n))) as [Hz|Hz]; [|by apply Hawake].
  destruct (run_inv n) as [I C]. destruct (C t Hz) as (tl' & p & Ht' & _ & [Hb|(t2 & tl2 & Ht2)]).
  { unfold starts_at in Ht. simplify_eq. unfold blocked, BeginExecuting_ready in Hb. by rewrite Hq in Hb. }
  destruct (leads (λ w, thr w !! t2 = Some {| locals_ := tl2; at_ := Notifying |} ∧ starts_at t tl w)
    (λ w, is_running t tl w ∨ starts_at t tl w ∧ t ∉ asleep w) (λ w, m_stopActive (gw w) = false) t2 n)
    as (m & Hm & [Hback|(Hw & Hzw)]); [done|done| | |by exists m|].
  - intros w (Hw & _). left. by exists tl2, Notifying.
  - intros l w w' _ _ Hqw _ (H2 & Hw) Hs. destruct (decide (l = Some t2)) as [->|Hl2].
    + right; right. inversion Hs; simplify_eq. split; [|set_solver]. unfold starts_at. simpl. rewrite lookup_insert_ne; [done|].
      intros ->. unfold starts_at in Hw. congruence.
    + destruct (decide (l = Some t)) as [->|Hl]; [destruct (starter_self w w' t tl Hs Hw) as [?|[? _]]; [by right; left|congruence]|].
      left. split_and!; [done|by eapply step_other|by eapply step_other].
  - destruct (Hawake m Hw) as (m' & ? & ?); [intros; apply Hq; lia|done|]. exists m'. split; [lia|done].
Qed.
End Runs.

(** C12: in every fair run of any number of threads, every stop ends, with its epoch
    complete; every thread in [WaitForCompletion] returns; and a thread in
    [BeginExecuting] starts executing if stops cease from some point on. *)
Theorem stop_terminates r :
  run r → fair r →
  (∀ n, m_stopActive (gw (r n)) = true → ∃ m, (n ≤ m)%nat ∧ m_stopActive (gw (r m)) = false ∧
     m_completedEpoch (gw (r m)) = m_requestEpoch (gw (r n))) ∧
  (∀ n t tl e, thr (r n) !! t = Some {| locals_ := tl; at_ := WaitEpoch e |} →
     ∃ m, (n ≤ m)%nat ∧ thr (r m) !! t = Some {| locals_ := tl; at_ := Outside |}) ∧
  (∀ n t tl, thr (r n) !! t = Some {| locals_ := tl; at_ := WaitBegin |} →
     (∃ k, ∀ m, (k ≤ m)%nat → m_stopActive (gw (r m)) = false) →
     ∃ m, (n ≤ m)%nat ∧ thr (r m) !! t = Some {| locals_ := tl; at_ := Running |}).
Proof.
  intros Hrun Hfair. split_and!.
  - intros n Ha. destruct (run_inv r Hrun n) as [[R _] _]. pose proof (ri_count _ _ R).
    apply (stop_ends r Hrun Hfair (Z.to_nat (m_executingCount (gw (r n))))); [done|lia].
  - intros n t tl e Ht. by eapply waiter_returns.
  - intros n t tl Ht (k & Hk). destruct (starter_stays r Hrun t tl n (n `max` k) ltac:(lia) Ht) as [Hw|?]; [|done].
    destruct (starter_runs r Hrun Hfair t tl _ Hw) as (m & ? & ?); [intros; apply Hk; lia|]. exists m. split; [lia|done].
Qed.

(** No thread sleeps for ever: a sleeping thread can wake now, or some registered
    thread is executing (and will arrive at its next safepoint), or one is
    collecting (and will complete). *)
Theorem no_stranded_waiter w t th :
  reachable w → thr w !! t = Some th →
  (at_ th = WaitBegin ∨ ∃ e, at_ th = WaitEpoch e) →
  (at_ th = WaitBegin ∧ BeginExecuting_ready (gw w) = true) ∨
  (∃ e, at_ th = WaitEpoch e ∧ WaitForCompletion_ready (gw w) e = true) ∨
  (∃ t' tl', thr w !! t' = Some {| locals_ := tl'; at_ := Running |} ∧ current (gw w) tl') ∨
  (∃ t' tl', thr w !! t' = Some {| locals_ := tl'; at_ := Collecting |}).
Proof.
  intros [R S]%inv_reachable Ht Hsleep. destruct (m_stopActive (gw w)) eqn:Ha.
  - destruct (si_count _ _ S Ha) as (? & ? & ? & Hc). pose proof (ri_count _ _ R).
    destruct (decide (m_executingCount (gw w) = 0)) as [Hz|Hz]; [auto|].
    destruct (some_running _ _ R ltac:(lia)) as (t' & tl' & i & e & ? & ? & ? & ? & _).
    right; right; left. exists t', tl'. split; [done|]. by exists i, e.
  - destruct Hsleep as [Hw|[e Hw]].
    + left. split; [done|]. unfold BeginExecuting_ready. by rewrite Ha.
    + right; left. exists e. split; [done|]. unfold WaitForCompletion_ready.
      apply bool_decide_eq_true. pose proof (si_wait _ _ S t th e Ht Hw).
      pose proof (si_epoch _ _ S) as (_ & _ & Hrc). rewrite Ha in Hrc. simpl in Hrc. lia.
Qed.

(** The tripwires never fire for threads that keep to the protocol: a registered
    thread that runs bytecode can always stop or initiate, one that sleeps can
    always start, one that is idle can retire, and a zombie's stop is a no-op. *)
Theorem rendezvous_no_tripwire w t tl p :
  reachable w → thr w !! t = Some {| locals_ := tl; at_ := p |} →
  match p with
  | Running =>
      (current (gw w) tl → is_Ok (EndExecuting (gw w) tl) ∧ is_Ok (InitiateAndArrive (gw w) tl)) ∧
      (¬ current (gw w) tl → EndExecuting (gw w) tl = Ok (gw w, false))
  | WaitBegin => is_Ok (BeginExecuting_wake (gw w) tl)
  | Outside => ∀ i, t_selfEntry tl = Some i →
      is_Ok (BeginExecuting_enter (gw w) tl) ∧
      is_Ok (UnregisterThread (gw w) tl
        {| tok_generation := t_selfGeneration tl; tok_index := i |})
  | Collecting => is_Ok (AssertAllArrived (gw w))
  | WaitEpoch _ | Notifying => True
  end.
Proof.
  intros [R S]%inv_reachable Ht. destruct p.
  - intros i Hs. destruct (ri_self _ _ R t _ i Ht Hs) as (_ & e & He & Hiff). simpl in *. split.
    + unfold BeginExecuting_enter, SelfEntry. by rewrite Hs, He.
    + unfold UnregisterThread. simpl. case_decide; [done|]. rewrite He.
      destruct (negb (live e) || _) eqn:Hc; [done|]. apply orb_false_iff in Hc as [H1 H2].
      destruct (executing e) eqn:Hx; [|done]. exfalso.
      assert (EntryIsCurrent tl e = true) as Hc.
      { unfold EntryIsCurrent. by destruct (live e), (bool_decide _). }
      by destruct (Hiff Hc) as [Hr _]; specialize (Hr eq_refl).
  - destruct (ri_wait _ _ R _ _ Ht eq_refl) as (i & e & Hs & He & _). simpl in *.
    unfold BeginExecuting_wake, SelfEntry. by rewrite Hs, He.
  - split.
    + intros (i & e & Hs & He & Hc). destruct (counted_pos _ _ _ _ _ _ R Ht Hs He Hc) as [Hx _].
      split; [by rewrite (EndExecuting_current _ _ _ _ Hs He Hc Hx)|].
      unfold InitiateAndArrive, SelfEntry. by rewrite Hs, He, derefE, !bindE, Hc, Hx.
    + intros Hn. destruct (t_selfEntry tl) as [i|] eqn:Hs; [|by destruct (ri_reg _ _ R t _ Ht)].
      destruct (ri_self _ _ R t _ i Ht Hs) as (_ & e & He & _).
      apply (EndExecuting_zombie _ _ i e); try done. destruct (EntryIsCurrent tl e) eqn:Hc; [|done].
      destruct Hn. by exists i, e.
  - done.
  - destruct (si_coll _ _ S t _ Ht eq_refl) as [Ha Hz].
    destruct (si_count _ _ S Ha) as (? & Hsum & _).
    unfold AssertAllArrived. rewrite Ha, bool_decide_true by lia. done.
  - done.
Qed.

(** ** Witnesses and findings

    Thread 0 alone, and thread 0 joined by a second thread that is still running
    when thread 0 asks for a stop. *)
Definition e0 (x : bool) (gen : Z) : ThreadEntry :=
  {| evalStack := 7; executing := x; live := true; generation := gen |}.
Definition tl_at (i : nat) (gen : Z) : ThreadLocals :=
  {| t_selfEntry := Some i; t_selfGeneration := gen |}.
Definition th_at (i : nat) (gen : Z) (p : phase) : thread :=
  {| locals_ := tl_at i gen; at_ := p |}.

Definition w_run : world :=
  {| gw := {| m_requestEpoch := 0; m_completedEpoch := 0; m_expected := 0; m_arrived := 0;
              m_threads := [e0 true 1]; m_freeIndices := []; m_nextGeneration := 2;
              m_executingCount := 1; m_stopActive := false; m_stopCount := 0 |};
     thr := {[ 0%nat := th_at 0 1 Running ]}; asleep := ∅ |}.
Definition w_two : world :=
  {| gw := {| m_requestEpoch := 0; m_completedEpoch := 0; m_expected := 0; m_arrived := 0;
              m_threads := [e0 true 1; e0 true 2]; m_freeIndices := []; m_nextGeneration := 3;
              m_executingCount := 2; m_stopActive := false; m_stopCount := 0 |};
     thr := <[1%nat := th_at 1 2 Running]> {[ 0%nat := th_at 0 1 Running ]}; asleep := ∅ |}.
Definition g_stop : GcWorldStop :=
  {| m_requestEpoch := 1; m_completedEpoch := 0; m_expected := 2; m_arrived := 1;
     m_threads := [e0 false 1; e0 true 2]; m_freeIndices := []; m_nextGeneration := 3;
     m_executingCount := 1; m_stopActive := true; m_stopCount := 0 |}.
Definition w_stop : world :=
  {| gw := g_stop;
     thr := <[1%nat := th_at 1 2 Running]> {[ 0%nat := th_at 0 1 (WaitEpoch 1) ]}; asleep := {[ 0%nat ]} |}.
Definition w_coll : world :=
  {| gw := {| m_requestEpoch := 1; m_completedEpoch := 0; m_expected := 2; m_arrived := 2;
              m_threads := [e0 false 1; e0 false 2]; m_freeIndices := []; m_nextGeneration := 3;
              m_executingCount := 0; m_stopActive := true; m_stopCount := 0 |};
     thr := <[1%nat := th_at 1 2 Collecting]> {[ 0%nat := th_at 0 1 (WaitEpoch 1) ]}; asleep := {[ 0%nat ]} |}.

Lemma rtc_eq {A} (R : A → A → Prop) x y : x = y → rtc R x y.
Proof. intros ->. apply rtc_refl. Qed.

(** Start thread [t]: spawn, register, enter and wake. *)
Lemma run_thread w t g tl tok g' :
  thr w !! t = None → t ∉ asleep w → m_nextGeneration (gw w) < 2 ^ 64 - 1 →
  RegisterThread (gw w) ThreadLocals0 7 = Ok (g, tl, tok) →
  BeginExecuting_enter g tl = Ok true → BeginExecuting_ready g = true →
  BeginExecuting_wake g tl = Ok g' →
  rtc step w {| gw := g'; thr := <[t := {| locals_ := tl; at_ := Running |}]> (thr w); asleep := asleep w |}.
Proof.
  intros Ht Hz Hb Hr He Hrd Hw.
  eapply rtc_l; [by eapply by_step, (s_spawn w t)|].
  eapply rtc_l; [eapply by_step, (s_register _ t _ 7); [apply lookup_insert_eq|exact Hb|exact Hr]|].
  eapply rtc_l; [eapply by_step, (s_begin _ t); [apply lookup_insert_eq|exact He]|].
  eapply rtc_l; [eapply by_step, (s_begin_wake _ t); [apply lookup_insert_eq|exact Hz|exact Hrd|exact Hw]|].
  unfold moved. simpl. rewrite !insert_insert_eq. apply rtc_refl.
Qed.

Lemma w_run_reachable : reachable w_run.
Proof. by eapply (run_thread world0 0). Qed.
Lemma w_two_reachable : reachable w_two.
Proof. unfold reachable; etrans; [exact w_run_reachable|]. by eapply (run_thread w_run 1). Qed.
Lemma w_stop_reachable : reachable w_stop.
Proof.
  unfold reachable; etrans; [exact w_two_reachable|].
  eapply rtc_l; [by eapply by_step, (s_initiate w_two 0 (tl_at 0 1) g_stop false)|].
  eapply rtc_l; [by eapply by_step, (s_wait _ 0 (tl_at 0 1))|].
  eapply rtc_l; [by eapply by_step, (s_wait_sleep _ 0 (tl_at 0 1) 1)|].
  apply rtc_eq. unfold moved, w_stop, w_two. simpl. f_equal.
Qed.
Lemma w_coll_reachable : reachable w_coll.
Proof.
  unfold reachable; etrans; [exact w_stop_reachable|].
  eapply rtc_l; [by eapply by_step, (s_end w_stop 1 (tl_at 1 2))|].
  apply rtc_eq. unfold moved, w_coll, w_stop. simpl. f_equal.
Qed.

Lemma collector_quiescent_witness :
  reachable w_coll ∧ AssertAllArrived (gw w_coll) = Ok ().
Proof.
  split; [exact w_coll_reachable|].
  destruct (collector_quiescent w_coll 1 (tl_at 1 2) w_coll_reachable eq_refl) as [H _]. exact H.
Defined.

(** Thread 0 waits for the epoch; thread 1 arrives last, collects, completes and notifies;
    thread 0 returns, and nothing more happens. *)
Definition w_notifying : world := moved w_coll (Complete (gw w_coll)) 1 (tl_at 1 2) Notifying.
Definition w_notified : world := moved (NotifyAll w_notifying) (gw w_notifying) 1 (tl_at 1 2) Outside.
Definition w_back : world := moved w_notified (gw w_notified) 0 (tl_at 0 1) Outside.
Definition one_stop (n : nat) : world :=
  match n with 0%nat => w_stop | 1%nat => w_coll | 2%nat => w_notifying | 3%nat => w_notified | _ => w_back end.
Lemma one_stop_run : run one_stop.
Proof.
  split; [exact w_stop_reachable|]. intros [|[|[|[|n]]]]; [left; eexists..|by right].
  - change (one_stop 1) with w_coll. assert (w_coll = moved w_stop (gw w_coll) 1 (tl_at 1 2) Collecting) as ->; [|by apply (s_end w_stop 1 (tl_at 1 2) _ true)].
    unfold moved, w_coll, w_stop. simpl. f_equal.
  - by apply (s_complete w_coll 1).
  - by apply (s_notify w_notifying 1).
  - by apply (s_wait_done w_notified 0 (tl_at 0 1) 1).
Qed.
Lemma one_stop_fair : fair one_stop.
Proof.
  intros t n. exists (4 `max` n)%nat. split; [lia|]. right. assert (one_stop (4 `max` n) = w_back) as ->.
  { destruct (4 `max` n)%nat as [|[|[|[|k]]]] eqn:E; (lia || done). }
  intros (tl & p & Ht & Hp). destruct (decide (t = 0%nat)) as [->|H0]; [vm_compute in Ht; by injection Ht as <- <-|].
  destruct (decide (t = 1%nat)) as [->|H1]; [vm_compute in Ht; by injection Ht as <- <-|].
  unfold w_back, w_notified, w_notifying, w_coll, moved in Ht. simpl in Ht.
  by rewrite !lookup_insert_ne, lookup_singleton_ne in Ht by done.
Qed.
Lemma stop_terminates_witness :
  m_stopActive (gw w_stop) = true ∧
  ∃ m, m_stopActive (gw (one_stop m)) = false ∧ m_completedEpoch (gw (one_stop m)) = 1.
Proof.
  split; [reflexivity|].
  destruct (stop_terminates one_stop one_stop_run one_stop_fair) as [H _].
  destruct (H 0%nat eq_refl) as (m & _ & H1 & H2). exists m. exact (conj H1 H2).
Defined.

Lemma no_stranded_waiter_witness :
  ∃ t' tl', thr w_stop !! t' = Some {| locals_ := tl'; at_ := Running |}.
Proof.
  destruct (no_stranded_waiter w_stop 0 (th_at 0 1 (WaitEpoch 1)) w_stop_reachable eq_refl
    (or_intror (ex_intro _ 1 eq_refl))) as [[H _]|[(e & H & H')|[(t & tl & H & _)|(t & tl & H)]]].
  - discriminate H.
  - injection H as <-. discriminate H'.
  - exists t, tl. exact H.
  - exists 1%nat, (tl_at 1 2). reflexivity.
Defined.

Lemma rendezvous_no_tripwire_witness :
  is_Ok (AssertAllArrived (gw w_coll)).
Proof.
  exact (rendezvous_no_tripwire w_coll 1 (tl_at 1 2) Collecting w_coll_reachable eq_refl).
Defined.

(** The zombie check of [BeginExecuting] precedes its wait, and the wait releases the
    leaf lock: a thread asleep there across a [Reset] and a later registration that
    reuses its index wakes up with a retired stamp, reports success, and sets the
    executing bit of the other thread's entry; that thread's retirement then trips
    the tripwire.  (The header promises that both flips verify the stamp inside the
    leaf lock, atomic with retirement and reuse.) *)
Theorem zombie_wake_flips_reused_entry :
  let zombie := tl_at 0 1 in
  let g := {| m_requestEpoch := 1; m_completedEpoch := 0; m_expected := 1; m_arrived := 0;
              m_threads := [e0 false 1; e0 true 2]; m_freeIndices := []; m_nextGeneration := 3;
              m_executingCount := 1; m_stopActive := true; m_stopCount := 0 |} in
  BeginExecuting_enter g zombie = Ok true ∧
  ∃ g1 tl tok g2,
    RegisterThread (Reset g) ThreadLocals0 9 = Ok (g1, tl, tok) ∧
    BeginExecuting_ready g1 = true ∧
    BeginExecuting_wake g1 zombie = Ok g2 ∧
    BeginExecuting_enter g1 zombie = Ok false ∧
    ExecutingSelf g1 tl = false ∧ ExecutingSelf g2 tl = true ∧ m_executingCount g2 = 1 ∧
    UnregisterThread g2 tl tok = Tripwire "UnregisterThread (still executing)".
Proof. split; [done|]. do 4 eexists. repeat (split; [vm_compute; reflexivity|]). done. Qed.

(** [RegisterThread] and [IsRegistered] ask whether the entry is live, not whether it
    is still this thread's: a thread whose registration a [Reset] retired cannot
    register again once another thread has taken its index. *)
Theorem register_after_reuse_trips :
  let g := {| m_requestEpoch := 0; m_completedEpoch := 0; m_expected := 0; m_arrived := 0;
              m_threads := [e0 false 1]; m_freeIndices := []; m_nextGeneration := 2;
              m_executingCount := 0; m_stopActive := false; m_stopCount := 0 |} in
  ∃ g1 tl tok,
    RegisterThread (Reset g) ThreadLocals0 9 = Ok (g1, tl, tok) ∧
    is_Ok (RegisterThread (Reset g) (tl_at 0 1) 7) ∧
    BeginExecuting_enter g1 (tl_at 0 1) = Ok false ∧
    IsRegistered g1 (tl_at 0 1) = true ∧
    RegisterThread g1 (tl_at 0 1) 7 = Tripwire "RegisterThread (already registered)".
Proof. do 3 eexists. repeat (split; [vm_compute; done|]). done. Qed.

(** What a step does to the registry: live entries were live with the same stamp, or
    are freshly stamped. *)
Lemma step_entries w w' :
  step w w' → inv w →
  m_nextGeneration (gw w) ≤ m_nextGeneration (gw w') ∧
  ∀ i e', m_threads (gw w') !! i = Some e' → live e' = true →
    (∃ e, m_threads (gw w) !! i = Some e ∧ live e = true ∧ generation e = generation e') ∨
    generation e' = m_nextGeneration (gw w).
Proof.
  assert (∀ (ts : list ThreadEntry) i e b j e', ts !! i = Some e → <[i := set_executing e b]> ts !! j = Some e' →
    live e' = true → ∃ e, ts !! j = Some e ∧ live e = true ∧ generation e = generation e') as Hflip.
  { intros ts i e b j e' He [(-> & <- & _)|[_ Hj]]%list_lookup_insert_Some Hl; eauto. }
  intros [l H]. destruct H as [w t Ht|w t tl stack g tl' tok Ht Hb Hr|w t tl i g tl' Ht Hu Hs|w t tl b Ht Hb|w t tl Ht _ _
    |w t tl g Ht _ Hr Hw|w t tl g last Ht He|w t tl g last Ht Hb Hi|w t tl Ht|w t tl e Ht _ _|w t tl e Ht _ Hr
    |w t tl Ht Has|w t tl Ht|w t _|w Ha Hp]; intros [R S]; unfold moved; simpl; try (split; [lia|by eauto]).
  - unfold RegisterThread in Hr. destruct (IsRegistered _ _); [done|].
    destruct (TakeIndex (gw w)) as [[ix ts] fr] eqn:E. monad_inv.
    destruct (TakeIndex_spec _ _ _ _ _ R E) as (_ & _ & _ & _ & _ & _ & _ & F8 & _).
    pose proof (ri_next _ _ R). simpl. rewrite wrap_small by (unfold is_uint; lia).
    split; [lia|]. intros j e' [(-> & <- & _)|[Hj He']]%list_lookup_insert_Some Hl; [by right|].
    left. apply F8 in He'; eauto.
  - destruct (UnregisterThread_spec _ _ _ _ _ Hs Hu)
      as [[-> _]|(e & _ & _ & _ & _ & Hts & _ & -> & _)]; [split; [lia|by eauto]|].
    split; [lia|]. rewrite Hts. intros j e' [(-> & <- & _)|[_ Hj]]%list_lookup_insert_Some Hl; eauto.
    done.
  - unfold BeginExecuting_wake, SelfEntry in Hw. destruct (t_selfEntry tl); [|done].
    monad_inv. simpl. split; [lia|]. intros j e' Hj Hl. left. by eapply Hflip.
  - unfold EndExecuting, SelfEntry in He. destruct (t_selfEntry tl); [|done]. monad_inv.
    destruct (negb _); [simplify_eq; split; [lia|by eauto]|]. destruct (negb (executing _)); [done|].
    simpl in *. destruct (negb _); simplify_eq; simpl; (split; [lia|]); intros j e' Hj Hl; left;
      by eapply Hflip.
  - unfold InitiateAndArrive, SelfEntry in Hi. destruct (t_selfEntry tl); [|done]. monad_inv.
    destruct (negb _); [done|]. destruct (negb (executing _)); [done|].
    destruct (m_stopActive (gw w)); simplify_eq; simpl; (split; [lia|]); intros j e' Hj Hl; left;
      by eapply Hflip.
  - split; [lia|]. intros j e'. rewrite list_lookup_fmap. destruct (_ !! j); naive_solver.
Qed.

(** A stamp issued before a [Reset] never becomes current again, whatever is
    registered afterwards. *)
Theorem reset_retires_for_good w w' t th :
  reachable w → m_stopActive (gw w) = false →
  (∀ t th, thr w !! t = Some th → at_ th = Outside ∨ at_ th = Running) →
  rtc step {| gw := Reset (gw w); thr := thr w; asleep := asleep w |} w' →
  thr w !! t = Some th → ¬ current (gw w') (locals_ th).
Proof.
  intros I%inv_reachable Ha Hp Hr Ht.
  pose proof (ri_locals _ _ (proj1 I) t th Ht) as Hg. set (n := m_nextGeneration (gw w)) in *.
  assert (inv w' ∧ n ≤ m_nextGeneration (gw w') ∧
    ∀ i e, m_threads (gw w') !! i = Some e → live e = true → n ≤ generation e) as (_ & _ & H).
  { pose proof (inv_reset w I Ha Hp) as I'.
    set (w0 := {| gw := Reset (gw w); thr := thr w; asleep := asleep w |}) in *.
    assert (n ≤ m_nextGeneration (gw w0) ∧
      ∀ i e, m_threads (gw w0) !! i = Some e → live e = true → n ≤ generation e) as H0.
    { split; [done|]. simpl. intros i e. rewrite list_lookup_fmap. destruct (_ !! i); naive_solver. }
    clearbody w0. clear -Hr I' H0. induction Hr as [|w1 w2 w3 Hs _ IH]; [done|].
    destruct H0 as [Hn H0]. destruct (step_entries _ _ Hs I') as [Hn' He'].
    apply IH; [by eapply inv_step|]. split; [lia|]. intros i e He Hl.
    destruct (He' i e He Hl) as [(e1 & H1 & H2 & <-)| ->]; [by eapply H0|done]. }
  intros (i & e & _ & He & Hc). unfold EntryIsCurrent in Hc.
  apply andb_true_iff in Hc as [Hl Hgen%bool_decide_eq_true]. specialize (H i e He Hl). lia.
Qed.

Lemma w_two_phases t th : thr w_two !! t = Some th → at_ th = Outside ∨ at_ th = Running.
Proof.
  unfold w_two. simpl.
  intros [[<- <-]|[_ [<- <-]%lookup_singleton_Some]]%lookup_insert_Some; by right.
Qed.

Lemma reset_retires_for_good_witness :
  ¬ current (Reset (gw w_two)) (tl_at 0 1).
Proof.
  exact (reset_retires_for_good w_two _ 0 (th_at 0 1 Running) w_two_reachable eq_refl
    w_two_phases
    (rtc_refl _ _) eq_refl).
Defined.
