(* ===== verification/SchedState.v ===== *)
(** * Scheduler state ([vm/VmScheduler.h])

    The context registry, the run queue, the timer table and the accounting of
    [VmScheduler], with one setter per field that the operations change.  Context
    ids are indices of the registry; the [-1] of the sources is [None]. *)
From S2P Require Import Prelude.
Open Scope Z_scope.

(** A call frame is opaque to the scheduler: it is identified by a number. *)
Definition frame := Z.

Inductive ContextState :=
  | Runnable | ParkedTimer | ParkedJoin | ParkedMutex | ParkedSemaphore
  | ParkedClassInit | ParkedChanRecv | ParkedChanSend | ParkedIo | ParkedPromise
  | BlockedNative | Finished | Failed.
#[export] Instance ContextState_eq_dec : EqDecision ContextState.
Proof. solve_decision. Defined.

Definition kSelectAnyNoTarget : Z := -1.
Definition AFFINITY_SCAN_WINDOW : nat := 8.
Definition kMainThreadId : nat := 0.

Record ExecutionContext := mkCtx {
  ctx_id : nat;
  state : ContextState;
  frames : list frame;
  framesParked : bool;
  ioParkPending : bool;
  ioParkArmed : bool;
  pinnedToken : Z;
  threadObjHeapIdx : Z;
  failExcHeapIdx : Z;
  failObserved : bool;
  wakeAt : Z;
  parkHandle : Z;
  rethrowOnResume : bool;
  resultCell : Z;
  resultKind : Z;
  unclassifiedResult : bool;
  joinResultDst : option nat;
  selectAnyTargets : list (nat * Z);
  resumeExcHeapIdx : Z;
  lastCarrier : Z;
}.

(** The defaults of a fresh context. *)
Definition ExecutionContext0 (i : nat) : ExecutionContext :=
  {| ctx_id := i; state := Runnable; frames := []; framesParked := false;
     ioParkPending := false; ioParkArmed := false; pinnedToken := 0; threadObjHeapIdx := 0; failExcHeapIdx := 0; failObserved := false;
     wakeAt := 0; parkHandle := 0; rethrowOnResume := false; resultCell := 0;
     resultKind := 0; unclassifiedResult := false; joinResultDst := None;
     selectAnyTargets := []; resumeExcHeapIdx := 0; lastCarrier := 255 |}.

Definition set_state (v : ContextState) (c : ExecutionContext) : ExecutionContext :=
  {| ctx_id := ctx_id c; state := v; frames := frames c; framesParked := framesParked c;
     ioParkPending := ioParkPending c; ioParkArmed := ioParkArmed c;
     pinnedToken := pinnedToken c; threadObjHeapIdx := threadObjHeapIdx c;
     failExcHeapIdx := failExcHeapIdx c; failObserved := failObserved c;
     wakeAt := wakeAt c; parkHandle := parkHandle c; rethrowOnResume := rethrowOnResume c;
     resultCell := resultCell c; resultKind := resultKind c;
     unclassifiedResult := unclassifiedResult c; joinResultDst := joinResultDst c;
     selectAnyTargets := selectAnyTargets c; resumeExcHeapIdx := resumeExcHeapIdx c;
     lastCarrier := lastCarrier c |}.
Definition set_frames (v : list frame) (c : ExecutionContext) : ExecutionContext :=
  {| ctx_id := ctx_id c; state := state c; frames := v; framesParked := framesParked c;
     ioParkPending := ioParkPending c; ioParkArmed := ioParkArmed c;
     pinnedToken := pinnedToken c; threadObjHeapIdx := threadObjHeapIdx c;
     failExcHeapIdx := failExcHeapIdx c; failObserved := failObserved c;
     wakeAt := wakeAt c; parkHandle := parkHandle c; rethrowOnResume := rethrowOnResume c;
     resultCell := resultCell c; resultKind := resultKind c;
     unclassifiedResult := unclassifiedResult c; joinResultDst := joinResultDst c;
     selectAnyTargets := selectAnyTargets c; resumeExcHeapIdx := resumeExcHeapIdx c;
     lastCarrier := lastCarrier c |}.
Definition set_framesParked (v : bool) (c : ExecutionContext) : ExecutionContext :=
  {| ctx_id := ctx_id c; state := state c; frames := frames c; framesParked := v;
     ioParkPending := ioParkPending c; ioParkArmed := ioParkArmed c;
     pinnedToken := pinnedToken c; threadObjHeapIdx := threadObjHeapIdx c;
     failExcHeapIdx := failExcHeapIdx c; failObserved := failObserved c;
     wakeAt := wakeAt c; parkHandle := parkHandle c; rethrowOnResume := rethrowOnResume c;
     resultCell := resultCell c; resultKind := resultKind c;
     unclassifiedResult := unclassifiedResult c; joinResultDst := joinResultDst c;
     selectAnyTargets := selectAnyTargets c; resumeExcHeapIdx := resumeExcHeapIdx c;
     lastCarrier := lastCarrier c |}.
Definition set_ioParkArmed (v : bool) (c : ExecutionContext) : ExecutionContext :=
  {| ctx_id := ctx_id c; state := state c; frames := frames c;
     framesParked := framesParked c; ioParkPending := ioParkPending c; ioParkArmed := v;
     pinnedToken := pinnedToken c; threadObjHeapIdx := threadObjHeapIdx c;
     failExcHeapIdx := failExcHeapIdx c; failObserved := failObserved c;
     wakeAt := wakeAt c; parkHandle := parkHandle c; rethrowOnResume := rethrowOnResume c;
     resultCell := resultCell c; resultKind := resultKind c;
     unclassifiedResult := unclassifiedResult c; joinResultDst := joinResultDst c;
     selectAnyTargets := selectAnyTargets c; resumeExcHeapIdx := resumeExcHeapIdx c;
     lastCarrier := lastCarrier c |}.
Definition set_pinnedToken (v : Z) (c : ExecutionContext) : ExecutionContext :=
  {| ctx_id := ctx_id c; state := state c; frames := frames c;
     framesParked := framesParked c; ioParkPending := ioParkPending c;
     ioParkArmed := ioParkArmed c; pinnedToken := v;
     threadObjHeapIdx := threadObjHeapIdx c; failExcHeapIdx := failExcHeapIdx c;
     failObserved := failObserved c; wakeAt := wakeAt c; parkHandle := parkHandle c;
     rethrowOnResume := rethrowOnResume c; resultCell := resultCell c;
     resultKind := resultKind c; unclassifiedResult := unclassifiedResult c;
     joinResultDst := joinResultDst c; selectAnyTargets := selectAnyTargets c;
     resumeExcHeapIdx := resumeExcHeapIdx c; lastCarrier := lastCarrier c |}.
Definition set_failExcHeapIdx (v : Z) (c : ExecutionContext) : ExecutionContext :=
  {| ctx_id := ctx_id c; state := state c; frames := frames c;
     framesParked := framesParked c; ioParkPending := ioParkPending c;
     ioParkArmed := ioParkArmed c; pinnedToken := pinnedToken c;
     threadObjHeapIdx := threadObjHeapIdx c; failExcHeapIdx := v;
     failObserved := failObserved c; wakeAt := wakeAt c; parkHandle := parkHandle c;
     rethrowOnResume := rethrowOnResume c; resultCell := resultCell c;
     resultKind := resultKind c; unclassifiedResult := unclassifiedResult c;
     joinResultDst := joinResultDst c; selectAnyTargets := selectAnyTargets c;
     resumeExcHeapIdx := resumeExcHeapIdx c; lastCarrier := lastCarrier c |}.
Definition set_failObserved (v : bool) (c : ExecutionContext) : ExecutionContext :=
  {| ctx_id := ctx_id c; state := state c; frames := frames c;
     framesParked := framesParked c; ioParkPending := ioParkPending c;
     ioParkArmed := ioParkArmed c; pinnedToken := pinnedToken c;
     threadObjHeapIdx := threadObjHeapIdx c; failExcHeapIdx := failExcHeapIdx c;
     failObserved := v; wakeAt := wakeAt c; parkHandle := parkHandle c;
     rethrowOnResume := rethrowOnResume c; resultCell := resultCell c;
     resultKind := resultKind c; unclassifiedResult := unclassifiedResult c;
     joinResultDst := joinResultDst c; selectAnyTargets := selectAnyTargets c;
     resumeExcHeapIdx := resumeExcHeapIdx c; lastCarrier := lastCarrier c |}.
Definition set_wakeAt (v : Z) (c : ExecutionContext) : ExecutionContext :=
  {| ctx_id := ctx_id c; state := state c; frames := frames c;
     framesParked := framesParked c; ioParkPending := ioParkPending c;
     ioParkArmed := ioParkArmed c; pinnedToken := pinnedToken c;
     threadObjHeapIdx := threadObjHeapIdx c; failExcHeapIdx := failExcHeapIdx c;
     failObserved := failObserved c; wakeAt := v; parkHandle := parkHandle c;
     rethrowOnResume := rethrowOnResume c; resultCell := resultCell c;
     resultKind := resultKind c; unclassifiedResult := unclassifiedResult c;
     joinResultDst := joinResultDst c; selectAnyTargets := selectAnyTargets c;
     resumeExcHeapIdx := resumeExcHeapIdx c; lastCarrier := lastCarrier c |}.
Definition set_parkHandle (v : Z) (c : ExecutionContext) : ExecutionContext :=
  {| ctx_id := ctx_id c; state := state c; frames := frames c;
     framesParked := framesParked c; ioParkPending := ioParkPending c;
     ioParkArmed := ioParkArmed c; pinnedToken := pinnedToken c;
     threadObjHeapIdx := threadObjHeapIdx c; failExcHeapIdx := failExcHeapIdx c;
     failObserved := failObserved c; wakeAt := wakeAt c; parkHandle := v;
     rethrowOnResume := rethrowOnResume c; resultCell := resultCell c;
     resultKind := resultKind c; unclassifiedResult := unclassifiedResult c;
     joinResultDst := joinResultDst c; selectAnyTargets := selectAnyTargets c;
     resumeExcHeapIdx := resumeExcHeapIdx c; lastCarrier := lastCarrier c |}.
Definition set_rethrowOnResume (v : bool) (c : ExecutionContext) : ExecutionContext :=
  {| ctx_id := ctx_id c; state := state c; frames := frames c;
     framesParked := framesParked c; ioParkPending := ioParkPending c;
     ioParkArmed := ioParkArmed c; pinnedToken := pinnedToken c;
     threadObjHeapIdx := threadObjHeapIdx c; failExcHeapIdx := failExcHeapIdx c;
     failObserved := failObserved c; wakeAt := wakeAt c; parkHandle := parkHandle c;
     rethrowOnResume := v; resultCell := resultCell c; resultKind := resultKind c;
     unclassifiedResult := unclassifiedResult c; joinResultDst := joinResultDst c;
     selectAnyTargets := selectAnyTargets c; resumeExcHeapIdx := resumeExcHeapIdx c;
     lastCarrier := lastCarrier c |}.
Definition set_resultCell (v : Z) (c : ExecutionContext) : ExecutionContext :=
  {| ctx_id := ctx_id c; state := state c; frames := frames c;
     framesParked := framesParked c; ioParkPending := ioParkPending c;
     ioParkArmed := ioParkArmed c; pinnedToken := pinnedToken c;
     threadObjHeapIdx := threadObjHeapIdx c; failExcHeapIdx := failExcHeapIdx c;
     failObserved := failObserved c; wakeAt := wakeAt c; parkHandle := parkHandle c;
     rethrowOnResume := rethrowOnResume c; resultCell := v; resultKind := resultKind c;
     unclassifiedResult := unclassifiedResult c; joinResultDst := joinResultDst c;
     selectAnyTargets := selectAnyTargets c; resumeExcHeapIdx := resumeExcHeapIdx c;
     lastCarrier := lastCarrier c |}.
Definition set_unclassifiedResult (v : bool) (c : ExecutionContext) : ExecutionContext :=
  {| ctx_id := ctx_id c; state := state c; frames := frames c;
     framesParked := framesParked c; ioParkPending := ioParkPending c;
     ioParkArmed := ioParkArmed c; pinnedToken := pinnedToken c;
     threadObjHeapIdx := threadObjHeapIdx c; failExcHeapIdx := failExcHeapIdx c;
     failObserved := failObserved c; wakeAt := wakeAt c; parkHandle := parkHandle c;
     rethrowOnResume := rethrowOnResume c; resultCell := resultCell c;
     resultKind := resultKind c; unclassifiedResult := v;
     joinResultDst := joinResultDst c; selectAnyTargets := selectAnyTargets c;
     resumeExcHeapIdx := resumeExcHeapIdx c; lastCarrier := lastCarrier c |}.
Definition set_joinResultDst (v : option nat) (c : ExecutionContext) : ExecutionContext :=
  {| ctx_id := ctx_id c; state := state c; frames := frames c;
     framesParked := framesParked c; ioParkPending := ioParkPending c;
     ioParkArmed := ioParkArmed c; pinnedToken := pinnedToken c;
     threadObjHeapIdx := threadObjHeapIdx c; failExcHeapIdx := failExcHeapIdx c;
     failObserved := failObserved c; wakeAt := wakeAt c; parkHandle := parkHandle c;
     rethrowOnResume := rethrowOnResume c; resultCell := resultCell c;
     resultKind := resultKind c; unclassifiedResult := unclassifiedResult c;
     joinResultDst := v; selectAnyTargets := selectAnyTargets c;
     resumeExcHeapIdx := resumeExcHeapIdx c; lastCarrier := lastCarrier c |}.
Definition set_selectAnyTargets (v : list (nat * Z)) (c : ExecutionContext) : ExecutionContext :=
  {| ctx_id := ctx_id c; state := state c; frames := frames c;
     framesParked := framesParked c; ioParkPending := ioParkPending c;
     ioParkArmed := ioParkArmed c; pinnedToken := pinnedToken c;
     threadObjHeapIdx := threadObjHeapIdx c; failExcHeapIdx := failExcHeapIdx c;
     failObserved := failObserved c; wakeAt := wakeAt c; parkHandle := parkHandle c;
     rethrowOnResume := rethrowOnResume c; resultCell := resultCell c;
     resultKind := resultKind c; unclassifiedResult := unclassifiedResult c;
     joinResultDst := joinResultDst c; selectAnyTargets := v;
     resumeExcHeapIdx := resumeExcHeapIdx c; lastCarrier := lastCarrier c |}.
Definition set_resumeExcHeapIdx (v : Z) (c : ExecutionContext) : ExecutionContext :=
  {| ctx_id := ctx_id c; state := state c; frames := frames c;
     framesParked := framesParked c; ioParkPending := ioParkPending c;
     ioParkArmed := ioParkArmed c; pinnedToken := pinnedToken c;
     threadObjHeapIdx := threadObjHeapIdx c; failExcHeapIdx := failExcHeapIdx c;
     failObserved := failObserved c; wakeAt := wakeAt c; parkHandle := parkHandle c;
     rethrowOnResume := rethrowOnResume c; resultCell := resultCell c;
     resultKind := resultKind c; unclassifiedResult := unclassifiedResult c;
     joinResultDst := joinResultDst c; selectAnyTargets := selectAnyTargets c;
     resumeExcHeapIdx := v; lastCarrier := lastCarrier c |}.
Definition set_lastCarrier (v : Z) (c : ExecutionContext) : ExecutionContext :=
  {| ctx_id := ctx_id c; state := state c; frames := frames c;
     framesParked := framesParked c; ioParkPending := ioParkPending c;
     ioParkArmed := ioParkArmed c; pinnedToken := pinnedToken c;
     threadObjHeapIdx := threadObjHeapIdx c; failExcHeapIdx := failExcHeapIdx c;
     failObserved := failObserved c; wakeAt := wakeAt c; parkHandle := parkHandle c;
     rethrowOnResume := rethrowOnResume c; resultCell := resultCell c;
     resultKind := resultKind c; unclassifiedResult := unclassifiedResult c;
     joinResultDst := joinResultDst c; selectAnyTargets := selectAnyTargets c;
     resumeExcHeapIdx := resumeExcHeapIdx c; lastCarrier := v |}.

(** The fields of a thread's carrier slot that the scheduler uses ([CarrierState]);
    [threadId] identifies the operating system thread, [installed] is [t_carrier] not
    being null (a host thread has only the fallback slot). *)
Record CarrierState := mkCarrier {
  installed : bool;
  currentContextId : option nat;
  carrierId : Z;
  pumpToken : Z;
  threadId : Z;
}.
Definition set_currentContextId (v : option nat) (k : CarrierState) : CarrierState :=
  {| installed := installed k; currentContextId := v; carrierId := carrierId k;
     pumpToken := pumpToken k; threadId := threadId k |}.
Definition set_pumpToken (v : Z) (k : CarrierState) : CarrierState :=
  {| installed := installed k; currentContextId := currentContextId k;
     carrierId := carrierId k; pumpToken := v; threadId := threadId k |}.

Record TimerEntry := { contextId : nat; deadline : Z }.

(** An I/O interest; a negative [io_fd] waits for the deadline only. *)
Record IoWaitEntry := {
  io_contextId : nat;
  io_fd : Z;
  io_events : Z;
  io_deadline : Z;
  io_hasDeadline : bool;
}.

(** A thread asleep on the run-queue condition variable: which wait it is in (with the
    pump token its predicate reads) and whether a notification reached it. *)
Inductive WaitKind := WaitFreeze | WaitFocus | WaitWork.
#[export] Instance WaitKind_eq_dec : EqDecision WaitKind.
Proof. solve_decision. Defined.
Record sleeper := { sl_kind : WaitKind; sl_token : Z; sl_signaled : bool }.

(** [m_cells] is the memory behind [joinResultDst]: result slots inside parked
    frames, by address. *)
Record VmScheduler := mkSched {
  m_contexts : list ExecutionContext;
  m_runQueue : list nat;
  m_timers : list TimerEntry;
  m_nextId : nat;
  m_stopRequested : bool;
  m_idleCarrierCount : Z;
  m_blockedNativeCount : Z;
  m_activeCarrierCount : Z;
  m_activePumpCount : Z;
  m_nextPumpToken : Z;
  m_primaryThreadId : Z;
  m_auxDispatchCount : Z;
  m_affinityHits : Z;
  m_affinityMisses : Z;
  m_debugFocusContext : option nat;
  m_debugFreezeDepth : Z;
  m_heldByCarrier : list (option nat);
  m_carrierCount : nat;
  m_ioWaits : list IoWaitEntry;
  m_sleepers : gmap Z sleeper;
  m_cells : gmap nat Z;
}.

Definition put_contexts (v : list ExecutionContext) (s : VmScheduler) : VmScheduler :=
  {| m_contexts := v; m_runQueue := m_runQueue s; m_timers := m_timers s;
     m_nextId := m_nextId s; m_stopRequested := m_stopRequested s;
     m_idleCarrierCount := m_idleCarrierCount s;
     m_blockedNativeCount := m_blockedNativeCount s;
     m_activeCarrierCount := m_activeCarrierCount s;
     m_activePumpCount := m_activePumpCount s; m_nextPumpToken := m_nextPumpToken s;
     m_primaryThreadId := m_primaryThreadId s; m_auxDispatchCount := m_auxDispatchCount s;
     m_affinityHits := m_affinityHits s; m_affinityMisses := m_affinityMisses s;
     m_debugFocusContext := m_debugFocusContext s;
     m_debugFreezeDepth := m_debugFreezeDepth s; m_heldByCarrier := m_heldByCarrier s;
     m_carrierCount := m_carrierCount s; m_ioWaits := m_ioWaits s;
     m_sleepers := m_sleepers s; m_cells := m_cells s |}.
Definition put_runQueue (v : list nat) (s : VmScheduler) : VmScheduler :=
  {| m_contexts := m_contexts s; m_runQueue := v; m_timers := m_timers s;
     m_nextId := m_nextId s; m_stopRequested := m_stopRequested s;
     m_idleCarrierCount := m_idleCarrierCount s;
     m_blockedNativeCount := m_blockedNativeCount s;
     m_activeCarrierCount := m_activeCarrierCount s;
     m_activePumpCount := m_activePumpCount s; m_nextPumpToken := m_nextPumpToken s;
     m_primaryThreadId := m_primaryThreadId s; m_auxDispatchCount := m_auxDispatchCount s;
     m_affinityHits := m_affinityHits s; m_affinityMisses := m_affinityMisses s;
     m_debugFocusContext := m_debugFocusContext s;
     m_debugFreezeDepth := m_debugFreezeDepth s; m_heldByCarrier := m_heldByCarrier s;
     m_carrierCount := m_carrierCount s; m_ioWaits := m_ioWaits s;
     m_sleepers := m_sleepers s; m_cells := m_cells s |}.
Definition put_timers (v : list TimerEntry) (s : VmScheduler) : VmScheduler :=
  {| m_contexts := m_contexts s; m_runQueue := m_runQueue s; m_timers := v;
     m_nextId := m_nextId s; m_stopRequested := m_stopRequested s;
     m_idleCarrierCount := m_idleCarrierCount s;
     m_blockedNativeCount := m_blockedNativeCount s;
     m_activeCarrierCount := m_activeCarrierCount s;
     m_activePumpCount := m_activePumpCount s; m_nextPumpToken := m_nextPumpToken s;
     m_primaryThreadId := m_primaryThreadId s; m_auxDispatchCount := m_auxDispatchCount s;
     m_affinityHits := m_affinityHits s; m_affinityMisses := m_affinityMisses s;
     m_debugFocusContext := m_debugFocusContext s;
     m_debugFreezeDepth := m_debugFreezeDepth s; m_heldByCarrier := m_heldByCarrier s;
     m_carrierCount := m_carrierCount s; m_ioWaits := m_ioWaits s;
     m_sleepers := m_sleepers s; m_cells := m_cells s |}.
Definition put_stopRequested (v : bool) (s : VmScheduler) : VmScheduler :=
  {| m_contexts := m_contexts s; m_runQueue := m_runQueue s; m_timers := m_timers s;
     m_nextId := m_nextId s; m_stopRequested := v;
     m_idleCarrierCount := m_idleCarrierCount s;
     m_blockedNativeCount := m_blockedNativeCount s;
     m_activeCarrierCount := m_activeCarrierCount s;
     m_activePumpCount := m_activePumpCount s; m_nextPumpToken := m_nextPumpToken s;
     m_primaryThreadId := m_primaryThreadId s; m_auxDispatchCount := m_auxDispatchCount s;
     m_affinityHits := m_affinityHits s; m_affinityMisses := m_affinityMisses s;
     m_debugFocusContext := m_debugFocusContext s;
     m_debugFreezeDepth := m_debugFreezeDepth s; m_heldByCarrier := m_heldByCarrier s;
     m_carrierCount := m_carrierCount s; m_ioWaits := m_ioWaits s;
     m_sleepers := m_sleepers s; m_cells := m_cells s |}.
Definition put_idleCarrierCount (v : Z) (s : VmScheduler) : VmScheduler :=
  {| m_contexts := m_contexts s; m_runQueue := m_runQueue s; m_timers := m_timers s;
     m_nextId := m_nextId s; m_stopRequested := m_stopRequested s;
     m_idleCarrierCount := v; m_blockedNativeCount := m_blockedNativeCount s;
     m_activeCarrierCount := m_activeCarrierCount s;
     m_activePumpCount := m_activePumpCount s; m_nextPumpToken := m_nextPumpToken s;
     m_primaryThreadId := m_primaryThreadId s; m_auxDispatchCount := m_auxDispatchCount s;
     m_affinityHits := m_affinityHits s; m_affinityMisses := m_affinityMisses s;
     m_debugFocusContext := m_debugFocusContext s;
     m_debugFreezeDepth := m_debugFreezeDepth s; m_heldByCarrier := m_heldByCarrier s;
     m_carrierCount := m_carrierCount s; m_ioWaits := m_ioWaits s;
     m_sleepers := m_sleepers s; m_cells := m_cells s |}.
Definition put_blockedNativeCount (v : Z) (s : VmScheduler) : VmScheduler :=
  {| m_contexts := m_contexts s; m_runQueue := m_runQueue s; m_timers := m_timers s;
     m_nextId := m_nextId s; m_stopRequested := m_stopRequested s;
     m_idleCarrierCount := m_idleCarrierCount s; m_blockedNativeCount := v;
     m_activeCarrierCount := m_activeCarrierCount s;
     m_activePumpCount := m_activePumpCount s; m_nextPumpToken := m_nextPumpToken s;
     m_primaryThreadId := m_primaryThreadId s; m_auxDispatchCount := m_auxDispatchCount s;
     m_affinityHits := m_affinityHits s; m_affinityMisses := m_affinityMisses s;
     m_debugFocusContext := m_debugFocusContext s;
     m_debugFreezeDepth := m_debugFreezeDepth s; m_heldByCarrier := m_heldByCarrier s;
     m_carrierCount := m_carrierCount s; m_ioWaits := m_ioWaits s;
     m_sleepers := m_sleepers s; m_cells := m_cells s |}.
Definition put_activePumpCount (v : Z) (s : VmScheduler) : VmScheduler :=
  {| m_contexts := m_contexts s; m_runQueue := m_runQueue s; m_timers := m_timers s;
     m_nextId := m_nextId s; m_stopRequested := m_stopRequested s;
     m_idleCarrierCount := m_idleCarrierCount s;
     m_blockedNativeCount := m_blockedNativeCount s;
     m_activeCarrierCount := m_activeCarrierCount s; m_activePumpCount := v;
     m_nextPumpToken := m_nextPumpToken s; m_primaryThreadId := m_primaryThreadId s;
     m_auxDispatchCount := m_auxDispatchCount s; m_affinityHits := m_affinityHits s;
     m_affinityMisses := m_affinityMisses s; m_debugFocusContext := m_debugFocusContext s;
     m_debugFreezeDepth := m_debugFreezeDepth s; m_heldByCarrier := m_heldByCarrier s;
     m_carrierCount := m_carrierCount s; m_ioWaits := m_ioWaits s;
     m_sleepers := m_sleepers s; m_cells := m_cells s |}.
Definition put_nextPumpToken (v : Z) (s : VmScheduler) : VmScheduler :=
  {| m_contexts := m_contexts s; m_runQueue := m_runQueue s; m_timers := m_timers s;
     m_nextId := m_nextId s; m_stopRequested := m_stopRequested s;
     m_idleCarrierCount := m_idleCarrierCount s;
     m_blockedNativeCount := m_blockedNativeCount s;
     m_activeCarrierCount := m_activeCarrierCount s;
     m_activePumpCount := m_activePumpCount s; m_nextPumpToken := v;
     m_primaryThreadId := m_primaryThreadId s; m_auxDispatchCount := m_auxDispatchCount s;
     m_affinityHits := m_affinityHits s; m_affinityMisses := m_affinityMisses s;
     m_debugFocusContext := m_debugFocusContext s;
     m_debugFreezeDepth := m_debugFreezeDepth s; m_heldByCarrier := m_heldByCarrier s;
     m_carrierCount := m_carrierCount s; m_ioWaits := m_ioWaits s;
     m_sleepers := m_sleepers s; m_cells := m_cells s |}.
Definition put_auxDispatchCount (v : Z) (s : VmScheduler) : VmScheduler :=
  {| m_contexts := m_contexts s; m_runQueue := m_runQueue s; m_timers := m_timers s;
     m_nextId := m_nextId s; m_stopRequested := m_stopRequested s;
     m_idleCarrierCount := m_idleCarrierCount s;
     m_blockedNativeCount := m_blockedNativeCount s;
     m_activeCarrierCount := m_activeCarrierCount s;
     m_activePumpCount := m_activePumpCount s; m_nextPumpToken := m_nextPumpToken s;
     m_primaryThreadId := m_primaryThreadId s; m_auxDispatchCount := v;
     m_affinityHits := m_affinityHits s; m_affinityMisses := m_affinityMisses s;
     m_debugFocusContext := m_debugFocusContext s;
     m_debugFreezeDepth := m_debugFreezeDepth s; m_heldByCarrier := m_heldByCarrier s;
     m_carrierCount := m_carrierCount s; m_ioWaits := m_ioWaits s;
     m_sleepers := m_sleepers s; m_cells := m_cells s |}.
Definition put_affinityHits (v : Z) (s : VmScheduler) : VmScheduler :=
  {| m_contexts := m_contexts s; m_runQueue := m_runQueue s; m_timers := m_timers s;
     m_nextId := m_nextId s; m_stopRequested := m_stopRequested s;
     m_idleCarrierCount := m_idleCarrierCount s;
     m_blockedNativeCount := m_blockedNativeCount s;
     m_activeCarrierCount := m_activeCarrierCount s;
     m_activePumpCount := m_activePumpCount s; m_nextPumpToken := m_nextPumpToken s;
     m_primaryThreadId := m_primaryThreadId s; m_auxDispatchCount := m_auxDispatchCount s;
     m_affinityHits := v; m_affinityMisses := m_affinityMisses s;
     m_debugFocusContext := m_debugFocusContext s;
     m_debugFreezeDepth := m_debugFreezeDepth s; m_heldByCarrier := m_heldByCarrier s;
     m_carrierCount := m_carrierCount s; m_ioWaits := m_ioWaits s;
     m_sleepers := m_sleepers s; m_cells := m_cells s |}.
Definition put_affinityMisses (v : Z) (s : VmScheduler) : VmScheduler :=
  {| m_contexts := m_contexts s; m_runQueue := m_runQueue s; m_timers := m_timers s;
     m_nextId := m_nextId s; m_stopRequested := m_stopRequested s;
     m_idleCarrierCount := m_idleCarrierCount s;
     m_blockedNativeCount := m_blockedNativeCount s;
     m_activeCarrierCount := m_activeCarrierCount s;
     m_activePumpCount := m_activePumpCount s; m_nextPumpToken := m_nextPumpToken s;
     m_primaryThreadId := m_primaryThreadId s; m_auxDispatchCount := m_auxDispatchCount s;
     m_affinityHits := m_affinityHits s; m_affinityMisses := v;
     m_debugFocusContext := m_debugFocusContext s;
     m_debugFreezeDepth := m_debugFreezeDepth s; m_heldByCarrier := m_heldByCarrier s;
     m_carrierCount := m_carrierCount s; m_ioWaits := m_ioWaits s;
     m_sleepers := m_sleepers s; m_cells := m_cells s |}.
Definition put_debugFocusContext (v : option nat) (s : VmScheduler) : VmScheduler :=
  {| m_contexts := m_contexts s; m_runQueue := m_runQueue s; m_timers := m_timers s;
     m_nextId := m_nextId s; m_stopRequested := m_stopRequested s;
     m_idleCarrierCount := m_idleCarrierCount s;
     m_blockedNativeCount := m_blockedNativeCount s;
     m_activeCarrierCount := m_activeCarrierCount s;
     m_activePumpCount := m_activePumpCount s; m_nextPumpToken := m_nextPumpToken s;
     m_primaryThreadId := m_primaryThreadId s; m_auxDispatchCount := m_auxDispatchCount s;
     m_affinityHits := m_affinityHits s; m_affinityMisses := m_affinityMisses s;
     m_debugFocusContext := v; m_debugFreezeDepth := m_debugFreezeDepth s;
     m_heldByCarrier := m_heldByCarrier s; m_carrierCount := m_carrierCount s;
     m_ioWaits := m_ioWaits s; m_sleepers := m_sleepers s; m_cells := m_cells s |}.
Definition put_debugFreezeDepth (v : Z) (s : VmScheduler) : VmScheduler :=
  {| m_contexts := m_contexts s; m_runQueue := m_runQueue s; m_timers := m_timers s;
     m_nextId := m_nextId s; m_stopRequested := m_stopRequested s;
     m_idleCarrierCount := m_idleCarrierCount s;
     m_blockedNativeCount := m_blockedNativeCount s;
     m_activeCarrierCount := m_activeCarrierCount s;
     m_activePumpCount := m_activePumpCount s; m_nextPumpToken := m_nextPumpToken s;
     m_primaryThreadId := m_primaryThreadId s; m_auxDispatchCount := m_auxDispatchCount s;
     m_affinityHits := m_affinityHits s; m_affinityMisses := m_affinityMisses s;
     m_debugFocusContext := m_debugFocusContext s; m_debugFreezeDepth := v;
     m_heldByCarrier := m_heldByCarrier s; m_carrierCount := m_carrierCount s;
     m_ioWaits := m_ioWaits s; m_sleepers := m_sleepers s; m_cells := m_cells s |}.
Definition put_heldByCarrier (v : list (option nat)) (s : VmScheduler) : VmScheduler :=
  {| m_contexts := m_contexts s; m_runQueue := m_runQueue s; m_timers := m_timers s;
     m_nextId := m_nextId s; m_stopRequested := m_stopRequested s;
     m_idleCarrierCount := m_idleCarrierCount s;
     m_blockedNativeCount := m_blockedNativeCount s;
     m_activeCarrierCount := m_activeCarrierCount s;
     m_activePumpCount := m_activePumpCount s; m_nextPumpToken := m_nextPumpToken s;
     m_primaryThreadId := m_primaryThreadId s; m_auxDispatchCount := m_auxDispatchCount s;
     m_affinityHits := m_affinityHits s; m_affinityMisses := m_affinityMisses s;
     m_debugFocusContext := m_debugFocusContext s;
     m_debugFreezeDepth := m_debugFreezeDepth s; m_heldByCarrier := v;
     m_carrierCount := m_carrierCount s; m_ioWaits := m_ioWaits s;
     m_sleepers := m_sleepers s; m_cells := m_cells s |}.
Definition put_ioWaits (v : list IoWaitEntry) (s : VmScheduler) : VmScheduler :=
  {| m_contexts := m_contexts s; m_runQueue := m_runQueue s; m_timers := m_timers s;
     m_nextId := m_nextId s; m_stopRequested := m_stopRequested s;
     m_idleCarrierCount := m_idleCarrierCount s;
     m_blockedNativeCount := m_blockedNativeCount s;
     m_activeCarrierCount := m_activeCarrierCount s;
     m_activePumpCount := m_activePumpCount s; m_nextPumpToken := m_nextPumpToken s;
     m_primaryThreadId := m_primaryThreadId s; m_auxDispatchCount := m_auxDispatchCount s;
     m_affinityHits := m_affinityHits s; m_affinityMisses := m_affinityMisses s;
     m_debugFocusContext := m_debugFocusContext s;
     m_debugFreezeDepth := m_debugFreezeDepth s; m_heldByCarrier := m_heldByCarrier s;
     m_carrierCount := m_carrierCount s; m_ioWaits := v; m_sleepers := m_sleepers s;
     m_cells := m_cells s |}.
Definition put_sleepers (v : gmap Z sleeper) (s : VmScheduler) : VmScheduler :=
  {| m_contexts := m_contexts s; m_runQueue := m_runQueue s; m_timers := m_timers s;
     m_nextId := m_nextId s; m_stopRequested := m_stopRequested s;
     m_idleCarrierCount := m_idleCarrierCount s;
     m_blockedNativeCount := m_blockedNativeCount s;
     m_activeCarrierCount := m_activeCarrierCount s;
     m_activePumpCount := m_activePumpCount s; m_nextPumpToken := m_nextPumpToken s;
     m_primaryThreadId := m_primaryThreadId s; m_auxDispatchCount := m_auxDispatchCount s;
     m_affinityHits := m_affinityHits s; m_affinityMisses := m_affinityMisses s;
     m_debugFocusContext := m_debugFocusContext s;
     m_debugFreezeDepth := m_debugFreezeDepth s; m_heldByCarrier := m_heldByCarrier s;
     m_carrierCount := m_carrierCount s; m_ioWaits := m_ioWaits s; m_sleepers := v;
     m_cells := m_cells s |}.
Definition put_cells (v : gmap nat Z) (s : VmScheduler) : VmScheduler :=
  {| m_contexts := m_contexts s; m_runQueue := m_runQueue s; m_timers := m_timers s;
     m_nextId := m_nextId s; m_stopRequested := m_stopRequested s;
     m_idleCarrierCount := m_idleCarrierCount s;
     m_blockedNativeCount := m_blockedNativeCount s;
     m_activeCarrierCount := m_activeCarrierCount s;
     m_activePumpCount := m_activePumpCount s; m_nextPumpToken := m_nextPumpToken s;
     m_primaryThreadId := m_primaryThreadId s; m_auxDispatchCount := m_auxDispatchCount s;
     m_affinityHits := m_affinityHits s; m_affinityMisses := m_affinityMisses s;
     m_debugFocusContext := m_debugFocusContext s;
     m_debugFreezeDepth := m_debugFreezeDepth s; m_heldByCarrier := m_heldByCarrier s;
     m_carrierCount := m_carrierCount s; m_ioWaits := m_ioWaits s;
     m_sleepers := m_sleepers s; m_cells := v |}.

(** ** Lookups and notification *)

Definition Find (s : VmScheduler) (i : nat) : option ExecutionContext := m_contexts s !! i.

(** Write back a context found with [FindMutable]. *)
Definition store_ctx (i : nat) (c : ExecutionContext) (s : VmScheduler) : VmScheduler :=
  put_contexts (<[i := c]> (m_contexts s)) s.

Definition push_back (i : nat) (s : VmScheduler) : VmScheduler :=
  put_runQueue (m_runQueue s ++ [i]) s.

(** [m_runQueueCv.notify_all()]. *)
Definition notify_all (s : VmScheduler) : VmScheduler :=
  put_sleepers ((λ w, {| sl_kind := sl_kind w; sl_token := sl_token w; sl_signaled := true |})
    <$> m_sleepers s) s.

Definition HeldContextOfCarrier (s : VmScheduler) (carrier : Z) : option nat :=
  mjoin (m_heldByCarrier s !!z carrier).

Definition HoldingCarrierOf (s : VmScheduler) (i : nat) : option nat :=
  fst <$> list_find (λ h, h = Some i) (m_heldByCarrier s).

Definition ContextCount (s : VmScheduler) : nat := length (m_contexts s).

(** [InstallSelfCarrier]: the slot of a carrier thread, idle. *)
Definition InstallSelfCarrier (thread carrier : Z) : CarrierState :=
  {| installed := true; currentContextId := None; carrierId := carrier; pumpToken := 0;
     threadId := thread |}.
