(* ===== verification/Sched.v ===== *)
(** * The context scheduler ([vm/VmScheduler.cpp], [VmSchedulerSync.cpp],
    [VmSchedulerJoin.cpp], [VmSchedulerTimer.cpp])

    Every operation runs under the scheduler lock, so it is a function of the
    scheduler's state and of the calling thread's carrier slot.  The condition
    variable is modelled by the set of sleepers: a wait puts the thread to sleep,
    [notify_all] marks every sleeper, and [cv_wake] is a marked sleeper evaluating
    its predicate again. *)
From S2P Require Import Prelude SchedState.
From stdpp Require Import sorting.
Open Scope Z_scope.

(** ** Dispatch accounting *)

Definition set_held (carrier : Z) (v : option nat) (s : VmScheduler) : VmScheduler :=
  if decide (0 ≤ carrier < Z.of_nat (length (m_heldByCarrier s)))
  then put_heldByCarrier (<[Z.to_nat carrier := v]> (m_heldByCarrier s)) s else s.

Definition DispatchedToCarrier (s : VmScheduler) (k : CarrierState) (i : nat) :
    outcome (VmScheduler * CarrierState) :=
  _ ← check (installed k) (Undefined "null carrier slot");
  let s1 := match Find s i with
            | Some c => store_ctx i (set_lastCarrier (u8 (carrierId k)) c) s
            | None => s
            end in
  let s2 := set_held (carrierId k) (Some i) s1 in
  let s3 := if decide (threadId k = m_primaryThreadId s2) then s2
            else put_auxDispatchCount (m_auxDispatchCount s2 + 1) s2 in
  Ok (s3, set_currentContextId (Some i) k).

Definition ReleaseHeldIfCurrent (s : VmScheduler) (k : CarrierState) (i : nat) :
    VmScheduler * CarrierState :=
  if negb (installed k) || negb (bool_decide (currentContextId k = Some i)) then (s, k)
  else (set_held (carrierId k) None s, set_currentContextId None k).

(** ** Debug focus gate *)

Definition FocusGateOpen (s : VmScheduler) : bool :=
  match m_debugFocusContext s with
  | None => true
  | Some f =>
      match Find s f with
      | None => true
      | Some c => negb (bool_decide (state c = Runnable)) || bool_decide (f ∈ m_runQueue s)
      end
  end.

Definition NotifyGateWaiters (s : VmScheduler) : VmScheduler :=
  match m_debugFocusContext s with Some _ => notify_all s | None => s end.

(** ** Registration and reset *)

Definition RegisterContext (s : VmScheduler) (k : CarrierState) : VmScheduler * nat :=
  let i := m_nextId s in
  (notify_all
     {| m_contexts := m_contexts s ++ [ExecutionContext0 i]; m_runQueue := m_runQueue s ++ [i];
        m_timers := m_timers s; m_nextId := S i; m_stopRequested := m_stopRequested s;
        m_idleCarrierCount := m_idleCarrierCount s;
        m_blockedNativeCount := m_blockedNativeCount s;
        m_activeCarrierCount := m_activeCarrierCount s;
        m_activePumpCount := m_activePumpCount s; m_nextPumpToken := m_nextPumpToken s;
        m_primaryThreadId := threadId k; m_auxDispatchCount := m_auxDispatchCount s;
        m_affinityHits := m_affinityHits s; m_affinityMisses := m_affinityMisses s;
        m_debugFocusContext := m_debugFocusContext s;
        m_debugFreezeDepth := m_debugFreezeDepth s; m_heldByCarrier := m_heldByCarrier s;
        m_carrierCount := m_carrierCount s;
        m_ioWaits := m_ioWaits s; m_sleepers := m_sleepers s; m_cells := m_cells s |}, i).

Definition RegisterParkedPromiseContext (s : VmScheduler) : VmScheduler * nat :=
  let i := m_nextId s in
  let c := set_unclassifiedResult true (set_state ParkedPromise (ExecutionContext0 i)) in
  ({| m_contexts := m_contexts s ++ [c]; m_runQueue := m_runQueue s;
      m_timers := m_timers s; m_nextId := S i; m_stopRequested := m_stopRequested s;
      m_idleCarrierCount := m_idleCarrierCount s;
      m_blockedNativeCount := m_blockedNativeCount s;
      m_activeCarrierCount := m_activeCarrierCount s;
      m_activePumpCount := m_activePumpCount s; m_nextPumpToken := m_nextPumpToken s;
      m_primaryThreadId := m_primaryThreadId s; m_auxDispatchCount := m_auxDispatchCount s;
      m_affinityHits := m_affinityHits s; m_affinityMisses := m_affinityMisses s;
      m_debugFocusContext := m_debugFocusContext s;
      m_debugFreezeDepth := m_debugFreezeDepth s; m_heldByCarrier := m_heldByCarrier s;
      m_carrierCount := m_carrierCount s;
        m_ioWaits := m_ioWaits s; m_sleepers := m_sleepers s; m_cells := m_cells s |}, i).

Definition ConfigureCarriers (s : VmScheduler) (count : nat) : VmScheduler :=
  {| m_contexts := m_contexts s; m_runQueue := m_runQueue s; m_timers := m_timers s;
     m_nextId := m_nextId s; m_stopRequested := m_stopRequested s;
     m_idleCarrierCount := m_idleCarrierCount s;
     m_blockedNativeCount := m_blockedNativeCount s;
     m_activeCarrierCount := m_activeCarrierCount s;
     m_activePumpCount := m_activePumpCount s; m_nextPumpToken := m_nextPumpToken s;
     m_primaryThreadId := m_primaryThreadId s; m_auxDispatchCount := m_auxDispatchCount s;
     m_affinityHits := m_affinityHits s; m_affinityMisses := m_affinityMisses s;
     m_debugFocusContext := m_debugFocusContext s;
     m_debugFreezeDepth := m_debugFreezeDepth s; m_heldByCarrier := replicate count None;
     m_carrierCount := count; m_ioWaits := m_ioWaits s; m_sleepers := m_sleepers s;
     m_cells := m_cells s |}.

(** [Reset]; the generation counter and the collector's rendezvous are in [GcStop]. *)
Definition Reset (s : VmScheduler) : VmScheduler :=
  {| m_contexts := []; m_runQueue := []; m_timers := []; m_nextId := 0;
     m_stopRequested := false; m_idleCarrierCount := 0; m_blockedNativeCount := 0;
     m_activeCarrierCount := m_activeCarrierCount s;
     m_activePumpCount := m_activePumpCount s; m_nextPumpToken := m_nextPumpToken s;
     m_primaryThreadId := m_primaryThreadId s; m_auxDispatchCount := 0;
     m_affinityHits := m_affinityHits s; m_affinityMisses := m_affinityMisses s;
     m_debugFocusContext := None; m_debugFreezeDepth := m_debugFreezeDepth s;
     m_heldByCarrier := replicate (m_carrierCount s) None; m_carrierCount := m_carrierCount s;
     m_ioWaits := m_ioWaits s; m_sleepers := m_sleepers s; m_cells := m_cells s |}.

(** ** Taking a context off the queue *)

(** Pinned to a pump other than the caller's. *)
Definition pinnedAway (s : VmScheduler) (token : Z) (i : nat) : bool :=
  match Find s i with
  | Some c => negb (bool_decide (pinnedToken c = 0)) && negb (bool_decide (pinnedToken c = token))
  | None => false
  end.

(** [HasPopableEntry], for the pump token of the asking thread. *)
Definition HasPopableEntry (s : VmScheduler) (token : Z) : bool :=
  existsb (λ i, match Find s i with
                | Some c => bool_decide (pinnedToken c = 0) || bool_decide (pinnedToken c = token)
                | None => false
                end) (m_runQueue s).

Definition TryStealFocusedRunnable (s : VmScheduler) (k : CarrierState) :
    outcome (VmScheduler * CarrierState * option nat) :=
  match m_debugFocusContext s with
  | None => Ok (s, k, None)
  | Some f =>
      match Find s f with
      | None => Ok (s, k, None)
      | Some c =>
          if decide (state c = Runnable) then
            match list_find (λ i, i = f) (m_runQueue s) with
            | None => Ok (s, k, None)
            | Some (pos, _) =>
                '(s, k) ← DispatchedToCarrier (put_runQueue (delete pos (m_runQueue s)) s) k f;
                Ok (s, k, Some f)
            end
          else Ok (s, k, None)
      end
  end.

(** The affinity window: position and id of the first entry this carrier may take
    that it ran last, or that nobody has run, and whether it ran it last. *)
Fixpoint affinity_scan (s : VmScheduler) (k : CarrierState) (q : list nat) (pos : nat) :
    outcome (option (nat * nat * bool)) :=
  match q with
  | [] => Ok None
  | i :: q =>
      if pinnedAway s (pumpToken k) i then affinity_scan s k q (S pos) else
      c ← deref (Find s i);
      if bool_decide (lastCarrier c = 255) || bool_decide (lastCarrier c = u8 (carrierId k))
      then Ok (Some (pos, i, bool_decide (lastCarrier c = u8 (carrierId k))))
      else affinity_scan s k q (S pos)
  end.

Definition PopAffinity (s : VmScheduler) (k : CarrierState) :
    outcome (VmScheduler * option nat) :=
  _ ← check (installed k) (Undefined "null carrier slot");
  found ← affinity_scan s k (take AFFINITY_SCAN_WINDOW (m_runQueue s)) 0;
  match found with
  | Some (pos, i, hit) =>
      let s1 := put_runQueue (delete pos (m_runQueue s)) s in
      Ok (if hit : bool then put_affinityHits (m_affinityHits s1 + 1) s1
          else put_affinityMisses (m_affinityMisses s1 + 1) s1, Some i)
  | None =>
      match list_find (λ i, pinnedAway s (pumpToken k) i = false) (m_runQueue s) with
      | Some (pos, i) =>
          let s1 := put_runQueue (delete pos (m_runQueue s)) s in
          Ok (put_affinityMisses (m_affinityMisses s1 + 1) s1, Some i)
      | None => Ok (s, None)
      end
  end.

(** ** Waiting *)

Definition amCarrier (k : CarrierState) : bool := installed k && bool_decide (0 ≤ carrierId k).

Definition wait_pred (s : VmScheduler) (kind : WaitKind) (token : Z) : bool :=
  m_stopRequested s ||
  match kind with
  | WaitFreeze => bool_decide (m_debugFreezeDepth s = 0)
  | WaitFocus => FocusGateOpen s
  | WaitWork => HasPopableEntry s token
  end.

(** The idle accounting around each wait. *)
Definition idle_weight (kind : WaitKind) (k : CarrierState) : Z :=
  match kind with
  | WaitFreeze => 0
  | WaitFocus => 1
  | WaitWork => if amCarrier k then 1 else 0
  end.

Definition sleep_on (kind : WaitKind) (k : CarrierState) (s : VmScheduler) : VmScheduler :=
  put_sleepers (<[threadId k := {| sl_kind := kind; sl_token := pumpToken k;
                                   sl_signaled := false |}]> (m_sleepers s))
    (put_idleCarrierCount (m_idleCarrierCount s + idle_weight kind k) s).

(** What one round of the pop loop comes to. *)
Inductive pop_result :=
  | Dispatched (i : nat)
  | Stopping                   (* returns -1 *)
  | Sleeping (kind : WaitKind) (* asleep on the condition variable *)
  | Again.                     (* the loop's [continue] *)

(** [m_runQueueCv.wait(gil, pred)]: no sleep when the predicate already holds. *)
Definition cv_wait (kind : WaitKind) (s : VmScheduler) (k : CarrierState) :
    VmScheduler * option pop_result :=
  if wait_pred s kind (pumpToken k) then (s, None)
  else (sleep_on kind k s, Some (Sleeping kind)).

(** Every carrier is or is about to be asleep, and nothing can produce work. *)
Definition deadlocked (s : VmScheduler) (k : CarrierState) : bool :=
  let otherPumps := m_activePumpCount s - (if decide (pumpToken k = 0) then 0 else 1) in
  bool_decide (otherPumps = 0) && bool_decide (m_timers s = []) && bool_decide (m_ioWaits s = [])
  && bool_decide (m_blockedNativeCount s = 0)
  && bool_decide (m_activeCarrierCount s
       ≤ m_idleCarrierCount s + (if amCarrier k then 1 else 0)).

Definition WaitForWorkOrStop (s : VmScheduler) (k : CarrierState) :
    outcome (VmScheduler * pop_result) :=
  if m_stopRequested s then Ok (s, Stopping) else
  if deadlocked s k then
    Raise (RuntimeError "NLang VM: deadlock — no runnable contexts remain")
  else match cv_wait WaitWork s k with
       | (s, Some r) => Ok (s, r)
       | (s, None) => Ok (s, Again)
       end.

(** One round of [PopNextRunnable]: the freeze gate, the focus gate, the queue, and
    the empty-queue wait. *)
Definition PopNextRunnable (s : VmScheduler) (k : CarrierState) :
    outcome (VmScheduler * CarrierState * pop_result) :=
  match (if decide (0 < m_debugFreezeDepth s) then cv_wait WaitFreeze s k else (s, None)) with
  | (s, Some r) => Ok (s, k, r)
  | (s, None) =>
      let focused := match m_debugFocusContext s ≫= Find s with
                     | Some c => bool_decide (state c = Runnable)
                     | None => false
                     end in
      if focused then
        '(s, k, won) ← TryStealFocusedRunnable s k;
        match won with
        | Some i => Ok (s, k, Dispatched i)
        | None =>
            match cv_wait WaitFocus s k with
            | (s, Some r) => Ok (s, k, r)
            | (s, None) => Ok (s, k, if m_stopRequested s then Stopping else Again)
            end
        end
      else
        '(s, popped) ← (if decide (m_runQueue s = []) then Ok (s, None) else PopAffinity s k);
        match popped with
        | Some i => '(s, k) ← DispatchedToCarrier s k i; Ok (s, k, Dispatched i)
        | None => '(s, r) ← WaitForWorkOrStop s k; Ok (s, k, r)
        end
  end.

(** A notified sleeper evaluates its predicate under the lock: it goes back to sleep,
    or leaves the wait and runs the loop on (a focus wait ended by a stop returns). *)
Definition cv_wake (s : VmScheduler) (k : CarrierState) :
    outcome (VmScheduler * CarrierState * pop_result) :=
  w ← deref (m_sleepers s !! threadId k);
  if wait_pred s (sl_kind w) (sl_token w) then
    let s1 := put_sleepers (delete (threadId k) (m_sleepers s))
                (put_idleCarrierCount (m_idleCarrierCount s - idle_weight (sl_kind w) k) s) in
    match sl_kind w with
    | WaitFocus => if m_stopRequested s1 then Ok (s1, k, Stopping) else PopNextRunnable s1 k
    | _ => PopNextRunnable s1 k
    end
  else
    Ok (put_sleepers (<[threadId k := {| sl_kind := sl_kind w; sl_token := sl_token w;
                                         sl_signaled := false |}]> (m_sleepers s)) s,
        k, Sleeping (sl_kind w)).

(** ** Parking and waking: the state half of every blocking primitive *)

(** [ParkForMutex], [ParkForSemaphore], [ParkForChanRecv], [ParkForChanSend] and
    [ParkForClassInit] differ in the state only. *)
Definition ParkIn (st : ContextState) (s : VmScheduler) (k : CarrierState) (i : nat) :
    VmScheduler * CarrierState :=
  match Find s i with
  | None => (s, k)
  | Some c =>
      let '(s, k) := ReleaseHeldIfCurrent (store_ctx i (set_state st c) s) k i in
      (NotifyGateWaiters s, k)
  end.
Definition ParkForMutex := ParkIn ParkedMutex.
Definition ParkForSemaphore := ParkIn ParkedSemaphore.
Definition ParkForChanRecv := ParkIn ParkedChanRecv.
Definition ParkForChanSend := ParkIn ParkedChanSend.
Definition ParkForClassInit := ParkIn ParkedClassInit.

(** Runnable again; queued if its frames are in place. *)
Definition make_runnable (i : nat) (c : ExecutionContext) (s : VmScheduler) : VmScheduler :=
  let s1 := store_ctx i (set_state Runnable c) s in
  if framesParked c then push_back i s1 else s1.

Definition WakeForMutex (s : VmScheduler) (i : nat) : VmScheduler :=
  match Find s i with
  | None => s
  | Some c => notify_all (make_runnable i c s)
  end.
Definition WakeForSemaphore := WakeForMutex.
Definition WakeForClassInit := WakeForMutex.

(** [WakeForChanRecv] and [WakeForChanSend]: close passes the exception to rethrow. *)
Definition WakeForChanRecv (s : VmScheduler) (i : nat) (rethrowExc : Z) : VmScheduler :=
  match Find s i with
  | None => s
  | Some c =>
      let c := if decide (0 < rethrowExc)
               then set_resumeExcHeapIdx rethrowExc (set_rethrowOnResume true c) else c in
      notify_all (make_runnable i c s)
  end.
Definition WakeForChanSend := WakeForChanRecv.

Definition AbortPark (s : VmScheduler) (k : CarrierState) (i : nat) : VmScheduler * CarrierState :=
  match Find s i with
  | None => (s, k)
  | Some c =>
      let s1 := store_ctx i (set_state Runnable c) s in
      if negb (installed k) then (s1, k)
      else (set_held (carrierId k) (Some i) s1, set_currentContextId (Some i) k)
  end.

(** ** Frames leaving a carrier *)

Definition ParkContextFrames (s : VmScheduler) (k : CarrierState) (i : nat)
    (stack : list frame) : VmScheduler * CarrierState :=
  match Find s i with
  | None => (s, k)
  | Some c =>
      let c1 := set_frames (frames c ++ stack) c in
      let s1 := if decide (state c1 = Runnable)
                then notify_all (push_back i (store_ctx i c1 s))
                else store_ctx i (set_framesParked true c1) s in
      ReleaseHeldIfCurrent s1 k i
  end.

(** The slice above [keepBelow] leaves, the rest stays on the caller's stack. *)
Definition ParkContextFramesSlice (s : VmScheduler) (k : CarrierState) (i : nat)
    (stack : list frame) (keepBelow : nat) (enqueueIfRunnable : bool) :
    VmScheduler * CarrierState * list frame :=
  match Find s i with
  | None => (s, k, stack)
  | Some c =>
      let c1 := set_frames (frames c ++ drop keepBelow stack) c in
      let s1 := if enqueueIfRunnable && bool_decide (state c1 = Runnable)
                then notify_all (push_back i (store_ctx i c1 s))
                else store_ctx i (set_framesParked true c1) s in
      let '(s2, k2) := ReleaseHeldIfCurrent s1 k i in
      (s2, k2, take keepBelow stack)
  end.

Definition Requeue (s : VmScheduler) (k : CarrierState) (i : nat) : VmScheduler * CarrierState :=
  ReleaseHeldIfCurrent (notify_all (push_back i s)) k i.

(** [SpliceResumedFrames] (VmExecutorFrames.cpp): the frames move back onto the
    carrier's stack above [baseDepth] pinned frames; the rethrow is armed. *)
Inductive resume_exc := NoRethrow | Rethrow (excHeapIdx : Z).

Definition ArmResumeRethrow (s : VmScheduler) (i : nat) (c : ExecutionContext) :
    outcome (ExecutionContext * resume_exc) :=
  if negb (rethrowOnResume c) then Ok (c, NoRethrow) else
  let c := set_rethrowOnResume false c in
  if decide (0 < resumeExcHeapIdx c)
  then Ok (set_resumeExcHeapIdx 0 c, Rethrow (resumeExcHeapIdx c))
  else
    let target := if decide (0 ≤ parkHandle c) then Find s (Z.to_nat (parkHandle c)) else None in
    let c := set_parkHandle 0 c in
    match target with
    | Some t =>
        if decide (0 < failExcHeapIdx t) then Ok (c, Rethrow (failExcHeapIdx t))
        else Raise (RuntimeError "NLang VM: join target failed without an exception object")
    | None => Raise (RuntimeError "NLang VM: join target failed without an exception object")
    end.

Definition SpliceResumedFrames (s : VmScheduler) (i : nat) (stack : list frame)
    (baseDepth : nat) : outcome (VmScheduler * list frame * resume_exc * bool) :=
  c ← deref (Find s i);
  if decide (frames c = []) then Ok (s, stack, NoRethrow, false) else
  let stack := if decide (baseDepth = 0%nat) then frames c else stack ++ frames c in
  let c := set_framesParked false (set_frames [] c) in
  '(c, exc) ← ArmResumeRethrow s i c;
  Ok (store_ctx i c s, stack, exc, true).

(** ** Ends of contexts *)

Definition stop_if_main (i : nat) (s : VmScheduler) : VmScheduler :=
  if decide (i = kMainThreadId) then notify_all (put_stopRequested true s) else s.

Definition MarkFinished (s : VmScheduler) (k : CarrierState) (i : nat) (result : Z) :
    VmScheduler * CarrierState :=
  match Find s i with
  | None => (s, k)
  | Some c =>
      let s1 := store_ctx i (set_resultCell result (set_state Finished c)) s in
      let '(s2, k2) := ReleaseHeldIfCurrent s1 k i in
      (stop_if_main i (NotifyGateWaiters s2), k2)
  end.

Definition MarkFailed (s : VmScheduler) (k : CarrierState) (i : nat) (failExc : Z) :
    VmScheduler * CarrierState :=
  match Find s i with
  | None => (s, k)
  | Some c =>
      let s1 := store_ctx i (set_failExcHeapIdx failExc (set_state Failed c)) s in
      let '(s2, k2) := ReleaseHeldIfCurrent s1 k i in
      (stop_if_main i (NotifyGateWaiters s2), k2)
  end.

Definition MarkBlockedNative (s : VmScheduler) (i : nat) : VmScheduler :=
  match Find s i with
  | None => s
  | Some c => put_blockedNativeCount (m_blockedNativeCount s + 1)
                (store_ctx i (set_state BlockedNative c) s)
  end.

Definition MarkRunnableHeld (s : VmScheduler) (i : nat) : VmScheduler :=
  match Find s i with
  | None => s
  | Some c => put_blockedNativeCount (m_blockedNativeCount s - 1)
                (store_ctx i (set_state Runnable c) s)
  end.

(** ** Joins *)

Definition ParkForJoin (s : VmScheduler) (k : CarrierState) (i target : nat) :
    VmScheduler * CarrierState :=
  match Find s i with
  | None => (s, k)
  | Some c =>
      let c1 := set_parkHandle (Z.of_nat target) (set_state ParkedJoin c) in
      let '(s, k) := ReleaseHeldIfCurrent (store_ctx i c1 s) k i in
      (NotifyGateWaiters s, k)
  end.

Definition decided (s : VmScheduler) (i : nat) : bool :=
  match Find s i with
  | Some c => bool_decide (state c = Finished ∨ state c = Failed)
  | None => false
  end.

(** The smallest index of a decided target, [-1] if none is. *)
Definition decided_min (s : VmScheduler) (targets : list (nat * Z)) : Z :=
  foldl (λ won e, if decided s e.1 then (if decide (won < 0 ∨ e.2 < won) then e.2 else won)
                  else won) (-1) targets.

Definition ParkForJoinAny (s : VmScheduler) (k : CarrierState) (i : nat)
    (targets : list (nat * Z)) : VmScheduler * CarrierState * Z :=
  let won := decided_min s targets in
  if decide (0 ≤ won) then (s, k, won) else
  match Find s i with
  | None => (s, k, -1)
  | Some c =>
      let c1 := set_selectAnyTargets targets
                  (set_parkHandle kSelectAnyNoTarget (set_state ParkedJoin c)) in
      let '(s, k) := ReleaseHeldIfCurrent (store_ctx i c1 s) k i in
      (NotifyGateWaiters s, k, -1)
  end.

Definition MarkFailureObserved (s : VmScheduler) (i : nat) : VmScheduler :=
  match Find s i with
  | None => s
  | Some c => store_ctx i (set_failObserved true c) s
  end.

(** A 64-bit result slot; [memcpy] of an [int] writes its low half. *)
Definition write_cell (dst : option nat) (v : Z) (s : VmScheduler) : VmScheduler :=
  match dst with Some d => put_cells (<[d := v]> (m_cells s)) s | None => s end.
Definition low_half (old v : Z) : Z := i64 (Z.shiftl (Z.shiftr old 32) 32 + u32 v).
Definition write_cell32 (dst : option nat) (v : Z) (s : VmScheduler) : VmScheduler :=
  match dst with
  | Some d => put_cells (<[d := low_half (default 0 (m_cells s !! d)) v]> (m_cells s)) s
  | None => s
  end.

(** One turn of the loop over the registry in [WakeSelectAnyWaiters]. *)
Definition wake_select_one (target : nat) (s : VmScheduler) (i : nat) : VmScheduler :=
  match Find s i with
  | None => s
  | Some c =>
      if negb (bool_decide (state c = ParkedJoin)) then s else
      match list_find (λ e, e.1 = target) (selectAnyTargets c) with
      | None => s
      | Some (_, (_, winIdx)) =>
          if decide (winIdx < 0) then s else
          let s1 := make_runnable i (set_selectAnyTargets [] (set_joinResultDst None c)) s in
          write_cell32 (joinResultDst c) winIdx s1
      end
  end.
Definition WakeSelectAnyWaiters (s : VmScheduler) (target : nat) : VmScheduler :=
  foldl (wake_select_one target) s (seq 0 (length (m_contexts s))).

(** One turn of the loop over the registry in [WakeJoiners]. *)
Definition is_joiner (target : nat) (c : ExecutionContext) : bool :=
  bool_decide (state c = ParkedJoin) && bool_decide (parkHandle c = Z.of_nat target).
Definition wake_joiner_one (target : nat) (failed : bool) (acc : VmScheduler * bool) (i : nat) :
    VmScheduler * bool :=
  match Find acc.1 i with
  | None => acc
  | Some c =>
      if is_joiner target c then
        let c := if failed then set_joinResultDst None (set_rethrowOnResume true c) else c in
        (make_runnable i c acc.1, true)
      else acc
  end.

Definition WakeJoiners (s : VmScheduler) (target : nat) (failed : bool) : VmScheduler :=
  let '(s1, anyJoinerWoken) :=
    foldl (wake_joiner_one target failed) (s, false) (seq 0 (length (m_contexts s))) in
  let s2 := WakeSelectAnyWaiters s1 target in
  let s3 := if failed && anyJoinerWoken then MarkFailureObserved s2 target else s2 in
  notify_all s3.

Definition deliver_one (target : nat) (result : Z) (s : VmScheduler) (i : nat) : VmScheduler :=
  match Find s i with
  | None => s
  | Some c =>
      if is_joiner target c then
        match joinResultDst c with
        | Some _ => store_ctx i (set_joinResultDst None c) (write_cell (joinResultDst c) result s)
        | None => s
        end
      else s
  end.
Definition DeliverJoinResults (s : VmScheduler) (target : nat) (result : Z) : VmScheduler :=
  foldl (deliver_one target result) s (seq 0 (length (m_contexts s))).

(** The end of a context's turn ([RunContextWindow], and [FailContextContained] without
    the static-initialization claims), and the two ends of a promise. *)
Definition finish_context (s : VmScheduler) (k : CarrierState) (i : nat) (result : Z) :
    VmScheduler * CarrierState :=
  let '(s1, k1) := MarkFinished s k i result in
  (WakeJoiners (DeliverJoinResults s1 i result) i false, k1).

Definition fail_context (s : VmScheduler) (k : CarrierState) (i : nat) (exc : Z) :
    VmScheduler * CarrierState * bool :=
  let '(s1, k1) := MarkFailed s k i exc in
  if decide (i = kMainThreadId) then (s1, k1, true) else (WakeJoiners s1 i true, k1, false).

Definition PromiseComplete (s : VmScheduler) (k : CarrierState) (i : nat) (valueBits : Z) :
    outcome (VmScheduler * CarrierState * bool) :=
  c ← deref (Find s i);
  if decide (state c = ParkedPromise) then
    let '(s1, k1) := MarkFinished s k i valueBits in
    Ok (WakeJoiners (DeliverJoinResults s1 i valueBits) i false, k1, true)
  else Ok (s, k, false).

Definition PromiseCompleteExceptionally (s : VmScheduler) (k : CarrierState) (i : nat) (exc : Z) :
    outcome (VmScheduler * CarrierState * bool) :=
  c ← deref (Find s i);
  if decide (state c = ParkedPromise) then
    let '(s1, k1) := MarkFailed s k i exc in
    Ok (WakeJoiners s1 i true, k1, true)
  else Ok (s, k, false).

(** [Future.get] and [thread.join]: what the calling context does next. *)
Inductive join_result := JoinValue (v : Z) | JoinThrow (exc : Z) | JoinPark.

Definition FutureGet (s : VmScheduler) (k : CarrierState) (target : nat) (dst : option nat) :
    outcome (VmScheduler * CarrierState * join_result) :=
  t ← deref (Find s target);
  self ← deref (currentContextId k);
  if decide (target = self)
  then Raise (RuntimeError "NLang VM: a future cannot be awaited by its own context") else
  if decide (state t = Finished) then Ok (s, k, JoinValue (resultCell t)) else
  if decide (state t = Failed)
  then Ok (MarkFailureObserved s target, k, JoinThrow (failExcHeapIdx t)) else
  if decide (m_activeCarrierCount s = 0)
  then Raise (RuntimeError "NLang VM: cannot suspend inside a host call window with no active carrier")
  else
    c ← deref (Find s self);
    let '(s, k) := ParkForJoin (store_ctx self (set_joinResultDst dst c) s) k self target in
    Ok (s, k, JoinPark).

Definition FutureIsDone (s : VmScheduler) (target : nat) : outcome Z :=
  t ← deref (Find s target);
  Ok (if decide (state t = Finished ∨ state t = Failed) then 1 else 0).

(** ** Timers *)

Definition ParkForTimer (s : VmScheduler) (k : CarrierState) (i : nat) (at_ : Z) :
    VmScheduler * CarrierState :=
  match Find s i with
  | None => (s, k)
  | Some c =>
      let s1 := store_ctx i (set_wakeAt at_ (set_state ParkedTimer c)) s in
      let s2 := put_timers (m_timers s1 ++ [{| contextId := i; deadline := at_ |}]) s1 in
      let '(s3, k3) := ReleaseHeldIfCurrent s2 k i in
      (NotifyGateWaiters s3, k3)
  end.

Definition timer_live (s : VmScheduler) (t : TimerEntry) : bool :=
  match Find s (contextId t) with
  | Some c => bool_decide (state c = ParkedTimer)
  | None => false
  end.

(** [std::stable_sort] by deadline: a stable insertion sort. *)
Fixpoint timer_insert (t : TimerEntry) (l : list TimerEntry) : list TimerEntry :=
  match l with
  | [] => [t]
  | u :: l => if decide (deadline u < deadline t) then u :: timer_insert t l else t :: u :: l
  end.
Definition timer_sort (l : list TimerEntry) : list TimerEntry := foldr timer_insert [] l.

Definition expire_one (s : VmScheduler) (t : TimerEntry) : VmScheduler :=
  match Find s (contextId t) with
  | None => s
  | Some c => make_runnable (contextId t) c s
  end.

Definition ExpireDueTimers (s : VmScheduler) (now : Z) : VmScheduler :=
  let kept := filter (λ t, timer_live s t = true) (m_timers s) in
  let due := filter (λ t, deadline t ≤ now) kept in
  let remaining := filter (λ t, ¬ deadline t ≤ now) kept in
  put_timers remaining (foldl expire_one s (timer_sort due)).

Definition NearestTimerDeadline (s : VmScheduler) : outcome Z :=
  t ← deref (head (m_timers s));
  Ok (foldl (λ nearest u, if decide (deadline u < nearest) then deadline u else nearest)
        (deadline t) (m_timers s)).

(** The service at a quota point, and the timer thread's turn at a deadline. *)
Definition ServiceDueTimers (s : VmScheduler) (now : Z) : outcome VmScheduler :=
  if decide (m_timers s = []) then Ok s else
  nearest ← NearestTimerDeadline s;
  if decide (now < nearest) then Ok s else Ok (notify_all (ExpireDueTimers s now)).
Definition timer_thread_expire (s : VmScheduler) (now : Z) : VmScheduler :=
  notify_all (ExpireDueTimers s now).

(** ** I/O parking ([VmSchedulerIo.cpp]); the poller's reports are arguments *)

Definition ParkForIo (s : VmScheduler) (k : CarrierState) (i : nat) (fd events at_ : Z)
    (hasDeadline : bool) : VmScheduler * CarrierState :=
  match Find s i with
  | None => (s, k)
  | Some c =>
      let s0 := if decide (state c = BlockedNative)
                then put_blockedNativeCount (m_blockedNativeCount s - 1) s else s in
      let s1 := store_ctx i (set_state ParkedIo c) s0 in
      let e := {| io_contextId := i; io_fd := fd; io_events := events; io_deadline := at_;
                  io_hasDeadline := hasDeadline |} in
      let '(s3, k3) := ReleaseHeldIfCurrent (put_ioWaits (m_ioWaits s1 ++ [e]) s1) k i in
      (NotifyGateWaiters s3, k3)
  end.

Definition WakeForIo (s : VmScheduler) (i : nat) : VmScheduler :=
  match Find s i with
  | None => s
  | Some c =>
      if decide (state c = ParkedIo) then make_runnable i (set_ioParkArmed true c) s else s
  end.

Definition WakeIoWaitersForFd (s : VmScheduler) (fd : Z) : VmScheduler :=
  let ids := io_contextId <$> filter (λ e, io_fd e = fd) (m_ioWaits s) in
  foldl WakeForIo (put_ioWaits (filter (λ e, io_fd e ≠ fd) (m_ioWaits s)) s) ids.

Definition kIoPollSliceMs : Z := 10.
Definition IO_EV_HUP : Z := 4.
Definition IO_EV_ERR : Z := 8.

(** The events reported for an entry's descriptor are what it wants, or an error. *)
Definition io_hit (ready : gmap Z Z) (e : IoWaitEntry) : bool :=
  match (if decide (0 ≤ io_fd e) then ready !! io_fd e else None) with
  | Some r => negb (bool_decide (Z.land (io_events e) r = 0))
              || negb (bool_decide (Z.land r (Z.lor IO_EV_HUP IO_EV_ERR) = 0))
  | None => false
  end.

(** One pass of the harvest: wake and drop the entries that satisfy [P]. *)
Fixpoint harvest_pass (P : IoWaitEntry → bool) (s : VmScheduler) (l : list IoWaitEntry) :
    VmScheduler * list IoWaitEntry :=
  match l with
  | [] => (s, [])
  | e :: l =>
      if P e then harvest_pass P (WakeForIo s (io_contextId e)) l
      else let '(s, l) := harvest_pass P s l in (s, e :: l)
  end.
Definition HarvestIoEvents (s : VmScheduler) (ready : gmap Z Z) (now : Z) : VmScheduler :=
  let '(s1, l1) := harvest_pass (io_hit ready) s (m_ioWaits s) in
  let '(s2, l2) := harvest_pass (λ e, io_hasDeadline e && bool_decide (io_deadline e ≤ now)) s1 l1 in
  put_ioWaits l2 s2.
(** The poller thread's round after its wait. *)
Definition poller_round (s : VmScheduler) (ready : gmap Z Z) (now : Z) : VmScheduler :=
  notify_all (HarvestIoEvents s ready now).

(** ** Debugger and pumps *)

Definition SetDebugFocusContext (s : VmScheduler) (f : option nat) : VmScheduler :=
  if decide (m_debugFocusContext s = f) then s
  else notify_all (put_debugFocusContext f s).
Definition ArmDebugFreezeGate (s : VmScheduler) : VmScheduler :=
  put_debugFreezeDepth (m_debugFreezeDepth s + 1) s.
Definition DisarmDebugFreezeGate (s : VmScheduler) : VmScheduler :=
  let s1 := put_debugFreezeDepth (m_debugFreezeDepth s - 1) s in
  if decide (m_debugFreezeDepth s1 = 0) then notify_all s1 else s1.
Definition RequestStop (s : VmScheduler) : VmScheduler :=
  notify_all (put_stopRequested true s).

Definition AcquirePumpToken (s : VmScheduler) (k : CarrierState) : VmScheduler * CarrierState * Z :=
  let token := m_nextPumpToken s in
  (put_activePumpCount (m_activePumpCount s + 1) (put_nextPumpToken (token + 1) s),
   set_pumpToken token k, token).
Definition ReleasePumpToken (s : VmScheduler) (k : CarrierState) : VmScheduler * CarrierState :=
  (notify_all (put_activePumpCount (m_activePumpCount s - 1) s), set_pumpToken 0 k).
Definition PinContext (s : VmScheduler) (i : nat) (token : Z) : VmScheduler :=
  match Find s i with
  | None => s
  | Some c => store_ctx i (set_pinnedToken token c) s
  end.
(** [PumpPinScope]: its constructor and its destructor. *)
Definition PumpPin_enter (s : VmScheduler) (k : CarrierState) (i : nat) :
    VmScheduler * CarrierState :=
  let '(s, k, token) := AcquirePumpToken s k in (PinContext s i token, k).
Definition PumpPin_leave (s : VmScheduler) (k : CarrierState) (i : nat) :
    VmScheduler * CarrierState :=
  ReleasePumpToken (PinContext s i 0) k.
