(* ===== verification/SchedSpec.v ===== *)
(** * What the scheduler's operations do

    First the effect of each operation on the registry and the queue (the parts the
    protocols build on), then the theorems: timer expiry, completion of a context and
    of a promise, the dispatch choice, and notification of sleeping carriers. *)
From S2P Require Import Prelude SchedState Sched.
From stdpp Require Import sorting.
Open Scope Z_scope.

(** ** Effects on the registry and the queue *)

Create Rewrite HintDb sched.

Lemma contexts_notify_all s : m_contexts (notify_all s) = m_contexts s.
Proof. done. Qed.
Lemma queue_notify_all s : m_runQueue (notify_all s) = m_runQueue s.
Proof. done. Qed.
Lemma contexts_gate s : m_contexts (NotifyGateWaiters s) = m_contexts s.
Proof. unfold NotifyGateWaiters. by destruct (m_debugFocusContext s). Qed.
Lemma queue_gate s : m_runQueue (NotifyGateWaiters s) = m_runQueue s.
Proof. unfold NotifyGateWaiters. by destruct (m_debugFocusContext s). Qed.
Lemma contexts_held c v s : m_contexts (set_held c v s) = m_contexts s.
Proof. unfold set_held. by case_decide. Qed.
Lemma queue_held c v s : m_runQueue (set_held c v s) = m_runQueue s.
Proof. unfold set_held. by case_decide. Qed.
Lemma contexts_release s k i : m_contexts (ReleaseHeldIfCurrent s k i).1 = m_contexts s.
Proof. unfold ReleaseHeldIfCurrent. destruct (_ || _); [done|apply contexts_held]. Qed.
Lemma queue_release s k i : m_runQueue (ReleaseHeldIfCurrent s k i).1 = m_runQueue s.
Proof. unfold ReleaseHeldIfCurrent. destruct (_ || _); [done|apply queue_held]. Qed.
Lemma contexts_store i c s : m_contexts (store_ctx i c s) = <[i := c]> (m_contexts s).
Proof. done. Qed.
Lemma queue_store i c s : m_runQueue (store_ctx i c s) = m_runQueue s.
Proof. done. Qed.
#[export] Hint Rewrite contexts_notify_all queue_notify_all contexts_gate queue_gate
  contexts_held queue_held contexts_release queue_release contexts_store queue_store : sched.

Lemma Find_lt s i c : Find s i = Some c → (i < length (m_contexts s))%nat.
Proof. apply lookup_lt_Some. Qed.

(** [touches s s' i c']: the operation rewrote context [i] to [c'] and no other. *)
Definition touches (s s' : VmScheduler) (i : nat) (c' : ExecutionContext) : Prop :=
  m_contexts s' = <[i := c']> (m_contexts s).

Lemma ParkIn_effect st s k i c :
  Find s i = Some c →
  touches s (ParkIn st s k i).1 i (set_state st c) ∧
  m_runQueue (ParkIn st s k i).1 = m_runQueue s.
Proof.
  intros Hc. unfold ParkIn, touches. rewrite Hc.
  destruct (ReleaseHeldIfCurrent _ _ _) as [s1 k1] eqn:E.
  pose proof (contexts_release (store_ctx i (set_state st c) s) k i) as H1.
  pose proof (queue_release (store_ctx i (set_state st c) s) k i) as H2.
  rewrite E in H1, H2. simpl in *. autorewrite with sched. by rewrite H1, H2.
Qed.

Lemma make_runnable_effect i c s :
  touches s (make_runnable i c s) i (set_state Runnable c) ∧
  m_runQueue (make_runnable i c s) =
    m_runQueue s ++ (if framesParked c then [i] else []).
Proof.
  unfold make_runnable, touches. destruct (framesParked c); simpl; [done|].
  by rewrite app_nil_r.
Qed.

Lemma WakeForMutex_effect s i c :
  Find s i = Some c →
  touches s (WakeForMutex s i) i (set_state Runnable c) ∧
  m_runQueue (WakeForMutex s i) = m_runQueue s ++ (if framesParked c then [i] else []).
Proof. intros Hc. unfold WakeForMutex. rewrite Hc. apply make_runnable_effect. Qed.

(** The exception a closing channel arms on the contexts it wakes. *)
Definition arm_exc (exc : Z) (c : ExecutionContext) : ExecutionContext :=
  if decide (0 < exc) then set_resumeExcHeapIdx exc (set_rethrowOnResume true c) else c.

Lemma WakeForChanRecv_effect s i exc c :
  Find s i = Some c →
  touches s (WakeForChanRecv s i exc) i (set_state Runnable (arm_exc exc c)) ∧
  m_runQueue (WakeForChanRecv s i exc) = m_runQueue s ++ (if framesParked c then [i] else []).
Proof.
  intros Hc. unfold WakeForChanRecv. rewrite Hc. fold (arm_exc exc c).
  replace (framesParked c) with (framesParked (arm_exc exc c))
    by (unfold arm_exc; by case_decide).
  apply make_runnable_effect.
Qed.

Lemma AbortPark_effect s k i c :
  Find s i = Some c →
  touches s (AbortPark s k i).1 i (set_state Runnable c) ∧
  m_runQueue (AbortPark s k i).1 = m_runQueue s.
Proof.
  intros Hc. unfold AbortPark, touches. rewrite Hc.
  destruct (negb _); simpl; autorewrite with sched; done.
Qed.

Lemma ParkContextFrames_effect s k i st c :
  Find s i = Some c →
  let c1 := set_frames (frames c ++ st) c in
  let s' := (ParkContextFrames s k i st).1 in
  if decide (state c = Runnable)
  then touches s s' i c1 ∧ m_runQueue s' = m_runQueue s ++ [i]
  else touches s s' i (set_framesParked true c1) ∧ m_runQueue s' = m_runQueue s.
Proof.
  intros Hc. unfold ParkContextFrames, touches. rewrite Hc. simpl.
  case_decide; autorewrite with sched; done.
Qed.

Lemma RegisterContext_effect s k :
  (RegisterContext s k).2 = m_nextId s ∧
  m_contexts (RegisterContext s k).1 = m_contexts s ++ [ExecutionContext0 (m_nextId s)] ∧
  m_runQueue (RegisterContext s k).1 = m_runQueue s ++ [m_nextId s].
Proof. done. Qed.

(** ** Timers *)

Lemma timer_insert_perm t l : timer_insert t l ≡ₚ t :: l.
Proof.
  induction l as [|u l IH]; simpl; [done|]. case_decide; [|done]. rewrite IH. apply Permutation_swap.
Qed.
Lemma timer_sort_perm l : timer_sort l ≡ₚ l.
Proof. induction l as [|t l IH]; simpl; [done|]. by rewrite timer_insert_perm, IH. Qed.

Definition by_deadline (t u : TimerEntry) : Prop := deadline t ≤ deadline u.

Lemma timer_insert_sorted t l :
  StronglySorted by_deadline l → StronglySorted by_deadline (timer_insert t l).
Proof.
  induction 1 as [|u l Hl IH Hu]; simpl; [repeat constructor|]. case_decide.
  - constructor; [done|]. apply Forall_forall. intros x. rewrite timer_insert_perm.
    intros [->|Hx]%elem_of_cons; [unfold by_deadline; lia|].
    by eapply Forall_forall in Hu.
  - constructor; [by constructor|]. constructor; [unfold by_deadline; lia|].
    eapply list.Forall_impl; [exact Hu|]. unfold by_deadline. lia.
Qed.
Lemma timer_sort_sorted l : StronglySorted by_deadline (timer_sort l).
Proof. induction l; simpl; [constructor|by apply timer_insert_sorted]. Qed.

(** Stability: entries with one deadline keep their order. *)
Lemma timer_insert_stable d t l :
  filter (λ u, deadline u = d) (timer_insert t l) = filter (λ u, deadline u = d) (t :: l).
Proof.
  induction l as [|u l IH]; [done|]. simpl timer_insert. case_decide as Hd; [|done].
  rewrite filter_cons, IH, !filter_cons. repeat case_decide; try done; lia.
Qed.
Lemma timer_sort_stable d l :
  filter (λ u, deadline u = d) (timer_sort l) = filter (λ u, deadline u = d) l.
Proof.
  induction l as [|t l IH]; [done|]. simpl. rewrite timer_insert_stable, !filter_cons, IH. done.
Qed.

(** Running [make_runnable] over a list of distinct contexts. *)
Definition landed (s : VmScheduler) (i : nat) : bool :=
  match Find s i with Some c => framesParked c | None => false end.
Definition queued_of (s : VmScheduler) (l : list nat) : list nat :=
  filter (λ i, landed s i = true) l.

Lemma queued_of_cons s i l :
  queued_of s (i :: l) =
    (match Find s i with Some c => if framesParked c then [i] else [] | None => [] end)
    ++ queued_of s l.
Proof.
  unfold queued_of. rewrite filter_cons. case_decide as Hl; unfold landed in Hl;
    destruct (Find s i) as [c|]; try done; by destruct (framesParked c).
Qed.

Lemma queued_of_ext s s' l :
  (∀ i, i ∈ l → Find s' i = Find s i) → queued_of s' l = queued_of s l.
Proof.
  intros H. induction l as [|i l IH]; [done|]. rewrite !queued_of_cons, IH, H; [done|left|].
  intros j Hj. apply H. by right.
Qed.

Lemma expire_fold l : ∀ s,
  NoDup (contextId <$> l) →
  let s' := foldl expire_one s l in
  m_runQueue s' = m_runQueue s ++ queued_of s (contextId <$> l) ∧
  (∀ i, Find s' i = if decide (i ∈ contextId <$> l)
                    then set_state Runnable <$> Find s i else Find s i) ∧
  s' = put_runQueue (m_runQueue s') (put_contexts (m_contexts s') s).
Proof.
  induction l as [|t l IH]; intros s N; cbn [foldl]; rewrite ?fmap_nil, ?fmap_cons in *.
  - split_and!; [by rewrite app_nil_r|done|by destruct s].
  -  apply list.NoDup_cons in N as [Ht N].
    destruct (Find s (contextId t)) as [c|] eqn:Ec.
    + assert (expire_one s t = make_runnable (contextId t) c s) as -> by (unfold expire_one; by rewrite Ec).
      destruct (make_runnable_effect (contextId t) c s) as [E1 E2].
      destruct (IH (make_runnable (contextId t) c s) N) as (H1 & H2 & H3).
      assert (∀ i, Find (make_runnable (contextId t) c s) i =
        if decide (i = contextId t) then Some (set_state Runnable c) else Find s i) as Hf.
      { intros i. unfold Find in *. rewrite E1. case_decide as Hi.
        - subst. apply list_lookup_insert_eq. by eapply lookup_lt_Some.
        - by rewrite list_lookup_insert_ne. }
      split_and!.
      * rewrite H1, E2, <- app_assoc, queued_of_cons, Ec. f_equal. f_equal.
        apply queued_of_ext. intros i Hi. rewrite Hf. case_decide; [by subst|done].
      * intros i. rewrite H2, Hf. repeat case_decide; subst; rewrite ?elem_of_cons in *;
          rewrite ?Ec; naive_solver.
      * etransitivity; [exact H3|]. clear. unfold make_runnable. by destruct (framesParked c).
    + assert (expire_one s t = s) as -> by (unfold expire_one; by rewrite Ec).
      destruct (IH s N) as (H1 & H2 & H3). split_and!; [|intros i|done].
      * by rewrite H1, queued_of_cons, Ec.
      * rewrite H2. destruct (decide (i = contextId t)) as [->|]; [rewrite Ec; by repeat case_decide|].
        repeat case_decide; try done; set_solver.
Qed.

(** Sleepers wake in deadline order.  With one live entry per sleeping context,
    expiry drops the stale entries, keeps the live ones that are not due, makes
    exactly the due contexts Runnable, and queues those whose frames are in place in
    the order of a stable sort by deadline; nothing else changes. *)
Theorem ExpireDueTimers_spec s now :
  let live := filter (λ t, timer_live s t = true) (m_timers s) in
  let due := filter (λ t, deadline t ≤ now) live in
  NoDup (contextId <$> live) →
  ∃ order,
    order ≡ₚ due ∧ StronglySorted by_deadline order ∧
    (∀ d, filter (λ t, deadline t = d) order = filter (λ t, deadline t = d) due) ∧
    let s' := ExpireDueTimers s now in
    m_timers s' = filter (λ t, now < deadline t) live ∧
    m_runQueue s' = m_runQueue s ++ queued_of s (contextId <$> order) ∧
    (∀ i, Find s' i = if decide (i ∈ contextId <$> due)
                      then set_state Runnable <$> Find s i else Find s i) ∧
    s' = put_timers (m_timers s') (put_runQueue (m_runQueue s') (put_contexts (m_contexts s') s)).
Proof.
  intros live due N. exists (timer_sort due).
  assert (NoDup (contextId <$> timer_sort due)) as Nd.
  { rewrite timer_sort_perm. subst due. eapply sublist_NoDup; [exact N|].
    apply fmap_sublist, sublist_filter. }
  destruct (expire_fold (timer_sort due) s Nd) as (H1 & H2 & H3).
  split; [apply timer_sort_perm|]. split; [apply timer_sort_sorted|].
  split; [intros d; apply timer_sort_stable|].
  unfold ExpireDueTimers. fold live. fold due. cbn zeta.
  set (s1 := foldl expire_one s (timer_sort due)) in *. split_and!.
  - simpl. apply list_filter_iff. intros t. lia.
  - exact H1.
  - intros i. change (Find (put_timers _ s1) i) with (Find s1 i). rewrite H2.
    assert (i ∈ contextId <$> timer_sort due ↔ i ∈ contextId <$> due) as Hi
      by (by rewrite timer_sort_perm).
    repeat case_decide; tauto.
  - rewrite H3 at 1. done.
Qed.

Lemma nearest_min l : ∀ n,
  let m := foldl (λ nearest u, if decide (deadline u < nearest) then deadline u else nearest) n l in
  m ≤ n ∧ (∀ u, u ∈ l → m ≤ deadline u) ∧ (m = n ∨ ∃ u, u ∈ l ∧ deadline u = m).
Proof.
  induction l as [|u l IH]; intros n; cbn [foldl].
  - split_and!; [lia|by intros u Hu%not_elem_of_nil|by left].
  - destruct (IH (if decide (deadline u < n) then deadline u else n)) as (H1 & H2 & H3). cbn zeta.
    set (m := foldl _ _ l) in *. split_and!.
    + case_decide; lia.
    + intros v [->|Hv]%elem_of_cons; [case_decide; lia|by apply H2].
    + destruct H3 as [E|(v & Hv & E)].
      * rewrite E. case_decide; [right; exists u; split; [left|done]|by left].
      * right. exists v. split; [by right|done].
Qed.

(** The next wake-up time is the earliest deadline of the table. *)
Lemma NearestTimerDeadline_spec s d :
  NearestTimerDeadline s = Ok d ↔
  (∃ t, t ∈ m_timers s ∧ deadline t = d) ∧ (∀ t, t ∈ m_timers s → d ≤ deadline t).
Proof.
  unfold NearestTimerDeadline. destruct (m_timers s) as [|t l].
  - simpl. split; [done|]. by intros [(t & Ht%not_elem_of_nil & _) _].
  - change (head (t :: l)) with (Some t). rewrite derefE, bindE.
    pose proof (nearest_min (t :: l) (deadline t)) as (H1 & H2 & H3).
    set (m := foldl _ _ (t :: l)) in *. clearbody m. cbn zeta in *.
    assert (∃ u, u ∈ t :: l ∧ deadline u = m) as (u & Hu & Eu).
    { destruct H3 as [->|H3]; [exists t; split; [left|done]|done]. }
    split.
    + intros [= <-]. split; [by exists u|done].
    + intros [(v & Hv & <-) Hmin]. f_equal. specialize (H2 v Hv). specialize (Hmin u Hu). lia.
Qed.

(** Servicing the table moves somebody exactly when some deadline has passed. *)
Lemma ServiceDueTimers_cases s now :
  ServiceDueTimers s now =
    Ok (if decide (Exists (λ t, deadline t ≤ now) (m_timers s))
        then notify_all (ExpireDueTimers s now) else s).
Proof.
  unfold ServiceDueTimers. case_decide as Hn.
  - rewrite Hn. case_decide as He; [by apply Exists_nil in He|done].
  - destruct (NearestTimerDeadline s) as [d|e] eqn:E.
    + pose proof E as [(t & Ht & <-) Hmin]%NearestTimerDeadline_spec. rewrite bindE.
      case_decide as Hlt; case_decide as He; try done.
      * apply Exists_exists in He as (u & Hu & ?). specialize (Hmin u Hu). lia.
      * destruct He. apply Exists_exists. exists t. split; [done|lia].
    + unfold NearestTimerDeadline in E. by destruct (m_timers s).
Qed.

(** ** Loops over the registry

    A loop whose turn at [i] rewrites context [i] only, appends to the queue, and
    writes result cells, computes its effect from the contexts it started with. *)
Section RegistryLoop.
  Context {A : Type} (π : A → VmScheduler) (step : A → nat → A).
  Context (g : ExecutionContext → ExecutionContext) (p : nat → ExecutionContext → list nat)
    (w : ExecutionContext → gmap nat Z → gmap nat Z).
  Context (Hstep : ∀ a i c, Find (π a) i = Some c →
    m_contexts (π (step a i)) = <[i := g c]> (m_contexts (π a)) ∧
    m_runQueue (π (step a i)) = m_runQueue (π a) ++ p i c ∧
    m_cells (π (step a i)) = w c (m_cells (π a))).

Definition loop_queue (s : VmScheduler) (l : list nat) : list nat :=
    mjoin ((λ i, match Find s i with Some c => p i c | None => [] end) <$> l).
Definition loop_cells (s : VmScheduler) (l : list nat) (m : gmap nat Z) : gmap nat Z :=
    foldl (λ m i, match Find s i with Some c => w c m | None => m end) m l.

Lemma loop_queue_ext s s' l :
  (∀ i, i ∈ l → Find s' i = Find s i) → loop_queue s' l = loop_queue s l.
Proof.
  intros H. unfold loop_queue. f_equal. apply list_fmap_ext.
  intros j i Hi%list_elem_of_lookup_2. by rewrite H.
Qed.
Lemma loop_cells_ext s s' l m :
  (∀ i, i ∈ l → Find s' i = Find s i) → loop_cells s' l m = loop_cells s l m.
Proof.
  unfold loop_cells. revert m. induction l as [|i l IH]; intros m H; [done|]. simpl.
  rewrite (H i) by left. apply IH. intros j Hj. apply H. by right.
Qed.

Lemma registry_loop_seq n : ∀ start a,
  (start + n ≤ length (m_contexts (π a)))%nat →
  let a' := foldl step a (seq start n) in
  (∀ i, Find (π a') i = if decide (start ≤ i < start + n)%nat
                        then g <$> Find (π a) i else Find (π a) i) ∧
  m_runQueue (π a') = m_runQueue (π a) ++ loop_queue (π a) (seq start n) ∧
  m_cells (π a') = loop_cells (π a) (seq start n) (m_cells (π a)).
Proof using Hstep.
  induction n as [|n IH]; intros start a Hlen; cbn [seq foldl].
  - split_and!; [|by rewrite app_nil_r|done]. intros i. case_decide; [lia|done].
  - destruct (lookup_lt_is_Some_2 (m_contexts (π a)) start) as [c Hc]; [lia|].
    change (Find (π a) start = Some c) in Hc.
    destruct (Hstep a start c Hc) as (H1 & H2 & H3).
    destruct (IH (Datatypes.S start) (step a start)) as (E1 & E2 & E3);
      [rewrite H1, length_insert; lia|].
    assert (∀ i, i ≠ start → Find (π (step a start)) i = Find (π a) i) as Hf.
    { intros i Hi. unfold Find. rewrite H1. by rewrite list_lookup_insert_ne. }
    split_and!.
    + intros i. rewrite E1. destruct (decide (i = start)) as [->|Hi].
      * rewrite decide_False by lia. rewrite decide_True by lia. unfold Find.
        rewrite H1, list_lookup_insert_eq by (by eapply lookup_lt_Some).
        unfold Find in Hc. by rewrite Hc.
      * rewrite Hf by done. repeat case_decide; try done; lia.
    + rewrite E2, H2, <- app_assoc. f_equal. unfold loop_queue at 2. cbn [fmap list_fmap mjoin list_join].
      rewrite Hc. f_equal. apply loop_queue_ext. intros i [? _]%elem_of_seq. apply Hf. lia.
    + rewrite E3, H3. unfold loop_cells at 2. cbn [foldl]. rewrite Hc.
      apply loop_cells_ext. intros i [? _]%elem_of_seq. apply Hf. lia.
Qed.

Lemma registry_loop a :
  let n := length (m_contexts (π a)) in
  let a' := foldl step a (seq 0 n) in
  (∀ i, Find (π a') i = g <$> Find (π a) i) ∧
  m_runQueue (π a') = m_runQueue (π a) ++ loop_queue (π a) (seq 0 n) ∧
  m_cells (π a') = loop_cells (π a) (seq 0 n) (m_cells (π a)).
Proof using Hstep.
  intros n. destruct (registry_loop_seq n 0 a) as (E1 & E2 & E3); [done|].
  split_and!; [|done..]. intros i. rewrite E1. case_decide as Hi; [done|].
  unfold Find. rewrite lookup_ge_None_2; [done|]. subst n. lia.
Qed.
End RegistryLoop.

(** ** Completion *)

(** The index a select-any waiter receives when [target] is decided. *)
Definition select_index (target : nat) (c : ExecutionContext) : option Z :=
  if decide (state c = ParkedJoin) then
    match list_find (λ e, e.1 = target) (selectAnyTargets c) with
    | Some (_, (_, w)) => if decide (w < 0) then None else Some w
    | None => None
    end
  else None.

Definition delivered (target : nat) (c : ExecutionContext) : ExecutionContext :=
  if is_joiner target c then set_joinResultDst None c else c.
Definition joined (target : nat) (failed : bool) (c : ExecutionContext) : ExecutionContext :=
  if is_joiner target c then
    set_state Runnable (if failed then set_joinResultDst None (set_rethrowOnResume true c) else c)
  else c.
Definition selected (target : nat) (c : ExecutionContext) : ExecutionContext :=
  match select_index target c with
  | Some _ => set_state Runnable (set_selectAnyTargets [] (set_joinResultDst None c))
  | None => c
  end.
Definition queue_if (b : bool) (i : nat) (c : ExecutionContext) : list nat :=
  if b && framesParked c then [i] else [].
Definition put_cell (dst : option nat) (v : Z) (m : gmap nat Z) : gmap nat Z :=
  match dst with Some d => <[d := v]> m | None => m end.
Definition put_cell32 (dst : option nat) (v : Z) (m : gmap nat Z) : gmap nat Z :=
  match dst with Some d => <[d := low_half (default 0 (m !! d)) v]> m | None => m end.

Lemma set_joinResultDst_id c : joinResultDst c = None → set_joinResultDst None c = c.
Proof. intros H. destruct c. simpl in H. by subst. Qed.

Lemma store_same s i c : Find s i = Some c → <[i := c]> (m_contexts s) = m_contexts s.
Proof. intros H. by apply list_insert_id. Qed.

Lemma deliver_step target v s i c :
  Find s i = Some c →
  m_contexts (deliver_one target v s i) = <[i := delivered target c]> (m_contexts s) ∧
  m_runQueue (deliver_one target v s i) = m_runQueue s ++ [] ∧
  m_cells (deliver_one target v s i) =
    if is_joiner target c then put_cell (joinResultDst c) v (m_cells s) else m_cells s.
Proof.
  intros Hc. unfold deliver_one, delivered. rewrite Hc, app_nil_r.
  destruct (is_joiner target c); [|by rewrite (store_same s i c)].
  destruct (joinResultDst c) as [d|] eqn:Hd; [done|].
  by rewrite set_joinResultDst_id, (store_same s i c).
Qed.

Lemma wake_joiner_step target failed a i c :
  Find a.1 i = Some c →
  m_contexts (wake_joiner_one target failed a i).1 =
    <[i := joined target failed c]> (m_contexts a.1) ∧
  m_runQueue (wake_joiner_one target failed a i).1 =
    m_runQueue a.1 ++ queue_if (is_joiner target c) i c ∧
  m_cells (wake_joiner_one target failed a i).1 = m_cells a.1.
Proof.
  intros Hc. unfold wake_joiner_one, joined, queue_if. rewrite Hc.
  destruct (is_joiner target c); simpl;
    [|by rewrite (store_same _ i c), app_nil_r].
  unfold make_runnable. destruct failed; simpl; destruct (framesParked c); simpl;
    by rewrite ?app_nil_r.
Qed.

Lemma wake_select_step target s i c :
  Find s i = Some c →
  m_contexts (wake_select_one target s i) = <[i := selected target c]> (m_contexts s) ∧
  m_runQueue (wake_select_one target s i) =
    m_runQueue s ++ queue_if (bool_decide (is_Some (select_index target c))) i c ∧
  m_cells (wake_select_one target s i) =
    match select_index target c with
    | Some w => put_cell32 (joinResultDst c) w (m_cells s)
    | None => m_cells s
    end.
Proof.
  intros Hc. unfold wake_select_one, selected, select_index, queue_if. rewrite Hc.
  case_bool_decide as Hst; simpl;
    [rewrite decide_True by done
    |rewrite decide_False, (store_same _ i c), app_nil_r by done; done].
  destruct (list_find _ _) as [[? [? wi]]|] eqn:Hf;
    [|by rewrite (store_same _ i c), app_nil_r].
  case_decide; [by rewrite (store_same _ i c), app_nil_r|].
  unfold write_cell32, make_runnable. simpl.
  destruct (joinResultDst c) as [d|], (framesParked c); simpl; by rewrite ?app_nil_r.
Qed.

(** A loop that only writes distinct cells. *)
Lemma loop_cells_other (w : ExecutionContext → gmap nat Z → gmap nat Z) s d l : ∀ m,
  (∀ i c m, i ∈ l → Find s i = Some c → w c m !! d = m !! d) →
  loop_cells w s l m !! d = m !! d.
Proof.
  unfold loop_cells. induction l as [|i l IH]; intros m H; [done|]. simpl. rewrite IH.
  - destruct (Find s i) eqn:E; [|done]. eapply H; [left|done].
  - intros. eapply H; [by right|done].
Qed.

Lemma loop_cells_at (w : ExecutionContext → gmap nat Z → gmap nat Z) s d l i c (x : gmap nat Z → Z) :
  NoDup l → i ∈ l → Find s i = Some c →
  (∀ m, w c m !! d = Some (x m)) →
  (∀ m m' : gmap nat Z, m !! d = m' !! d → x m = x m') →
  (∀ j c' m, j ∈ l → j ≠ i → Find s j = Some c' → w c' m !! d = m !! d) →
  ∀ m, loop_cells w s l m !! d = Some (x m).
Proof.
  unfold loop_cells. intros N Hi Hc Hw Hx Ho. induction l as [|j l IH]; intros m; [set_solver|].
  apply list.NoDup_cons in N as [Hj N]. simpl. destruct (decide (j = i)) as [->|Hne].
  - rewrite Hc. fold (loop_cells w s l (w c m)). rewrite loop_cells_other; [done|].
    intros j c' m' Hj' ?. apply (Ho j c' m'); [by right|congruence|done].
  - rewrite IH; [|done|set_solver|intros; eapply Ho; [by right|done..]].
    f_equal. apply Hx. destruct (Find s j) eqn:E; [|done]. eapply Ho; [left|done..].
Qed.

Definition distinct_dsts (s : VmScheduler) : Prop :=
  ∀ j1 j2 c1 c2 d, Find s j1 = Some c1 → Find s j2 = Some c2 →
    joinResultDst c1 = Some d → joinResultDst c2 = Some d → j1 = j2.

Lemma MarkFinished_effect s k i v c :
  Find s i = Some c →
  touches s (MarkFinished s k i v).1 i (set_resultCell v (set_state Finished c)) ∧
  m_runQueue (MarkFinished s k i v).1 = m_runQueue s ∧
  m_cells (MarkFinished s k i v).1 = m_cells s.
Proof.
  intros Hc. unfold MarkFinished, touches. rewrite Hc.
  set (s1 := store_ctx i _ s).
  assert (m_cells (ReleaseHeldIfCurrent s1 k i).1 = m_cells s) as H3.
  { unfold ReleaseHeldIfCurrent. destruct (_ || _); [done|]. unfold set_held. by case_decide. }
  pose proof (contexts_release s1 k i) as H1. pose proof (queue_release s1 k i) as H2.
  destruct (ReleaseHeldIfCurrent s1 k i) as [s2 k2]. simpl in *.
  assert (m_cells (NotifyGateWaiters s2) = m_cells s) as H4
    by (unfold NotifyGateWaiters; by destruct (m_debugFocusContext s2)).
  unfold stop_if_main. case_decide; simpl; autorewrite with sched; by rewrite H1, H2, H4.
Qed.

(** Waking the joiners and the select-any waiters of a decided target. *)
Lemma WakeJoiners_effect s target failed :
  let s' := WakeJoiners s target failed in
  (∀ j, j ≠ target ∨ failed = false →
    Find s' j = selected target ∘ joined target failed <$> Find s j) ∧
  m_runQueue s' = m_runQueue s
    ++ loop_queue (λ i c, queue_if (is_joiner target c) i c) s (seq 0 (length (m_contexts s)))
    ++ loop_queue (λ i c, queue_if (bool_decide (is_Some (select_index target
                                      (joined target failed c)))) i c)
         s (seq 0 (length (m_contexts s))) ∧
  m_cells s' = loop_cells (λ c m, match select_index target (joined target failed c) with
                                  | Some w => put_cell32 (joinResultDst c) w m
                                  | None => m
                                  end) s (seq 0 (length (m_contexts s))) (m_cells s).
Proof.
  unfold WakeJoiners.
  pose proof (registry_loop fst (wake_joiner_one target failed) (joined target failed)
    (λ i c, queue_if (is_joiner target c) i c) (λ _ m, m)
    (λ a i c, wake_joiner_step target failed a i c) (s, false)) as (F1 & Q1 & C1).
  simpl in F1, Q1, C1.
  destruct (foldl (wake_joiner_one target failed) (s, false) _) as [s1 any]. simpl in F1, Q1, C1.
  assert (length (m_contexts s1) = length (m_contexts s)) as Hlen.
  { assert (m_contexts s1 = joined target failed <$> m_contexts s) as ->.
    { apply list_eq. intros i. rewrite list_lookup_fmap. apply F1. }
    by rewrite length_fmap. }
  unfold WakeSelectAnyWaiters.
  pose proof (registry_loop id (wake_select_one target) (selected target)
    (λ i c, queue_if (bool_decide (is_Some (select_index target c))) i c)
    (λ c m, match select_index target c with
            | Some w => put_cell32 (joinResultDst c) w m | None => m end)
    (λ a i c, wake_select_step target a i c) s1) as (F2 & Q2 & C2).
  simpl in F2, Q2, C2. rewrite Hlen in *.
  set (s2 := foldl (wake_select_one target) s1 _) in *.
  assert (m_cells s1 = m_cells s) as C1'.
  { rewrite C1. unfold loop_cells. clear. induction (seq _ _) as [|i l IH]; [done|].
    simpl. by destruct (Find s i). }
  assert (∀ (f : nat → ExecutionContext → list nat),
    loop_queue f s1 (seq 0 (length (m_contexts s))) =
    loop_queue (λ i c, f i (joined target failed c)) s (seq 0 (length (m_contexts s)))) as LQ.
  { intros f. unfold loop_queue. f_equal. apply list_fmap_ext. intros j i _. rewrite F1.
    by destruct (Find s i). }
  set (s3 := if failed && any then _ else s2).
  assert (m_runQueue s3 = m_runQueue s2 ∧ m_cells s3 = m_cells s2 ∧
    ∀ j, j ≠ target ∨ failed = false → Find s3 j = Find s2 j) as (E1 & E2 & E3).
  { subst s3. destruct (failed && any) eqn:Ef; [|done]. unfold MarkFailureObserved.
    destruct (Find s2 target) as [ct|]; [|done]. split_and!; [done..|]. intros j [Hj| ->]; [|done].
    unfold Find. simpl. by rewrite list_lookup_insert_ne. }
  split_and!.
  - intros j Hj. change (Find (notify_all s3) j) with (Find s3 j).
    rewrite E3, F2, F1 by done. by destruct (Find s j).
  - simpl. rewrite E1, Q2, Q1, <- app_assoc. f_equal. f_equal. rewrite LQ.
    unfold loop_queue. f_equal. apply list_fmap_ext. intros j i _. destruct (Find s i) as [c|]; [|done].
    unfold queue_if. f_equal. unfold joined. destruct (is_joiner target c), failed; done.
  - simpl. rewrite E2, C2, C1'. unfold loop_cells. clear -F1.
    generalize (m_cells s), (seq 0 (length (m_contexts s))). intros m l. revert m.
    induction l as [|i l IH]; intros m; [done|]. simpl. rewrite IH. f_equal.
    rewrite F1. destruct (Find s i) as [c|]; [|done]. simpl.
    destruct (select_index target _) eqn:Es; [|done]. f_equal.
    unfold joined in *. destruct (is_joiner target c); [|done]. by destruct failed.
Qed.

Lemma DeliverJoinResults_effect s target v :
  let s' := DeliverJoinResults s target v in
  (∀ j, Find s' j = delivered target <$> Find s j) ∧ m_runQueue s' = m_runQueue s ∧
  m_cells s' = loop_cells (λ c m, if is_joiner target c then put_cell (joinResultDst c) v m else m)
                 s (seq 0 (length (m_contexts s))) (m_cells s).
Proof.
  unfold DeliverJoinResults.
  destruct (registry_loop id (deliver_one target v) (delivered target) (λ _ _, [])
    (λ c m, if is_joiner target c then put_cell (joinResultDst c) v m else m)
    (λ a i c, deliver_step target v a i c) s) as (F & Q & C). simpl in *.
  split_and!; [done| |done]. rewrite Q. unfold loop_queue. clear.
  rewrite <- (app_nil_r (m_runQueue s)) at 2. f_equal.
  induction (seq _ _) as [|i l IH]; [done|]. simpl. by destruct (Find s i).
Qed.

Lemma put_cell_other dst v m (d : nat) : dst ≠ Some d → put_cell dst v m !! d = m !! d.
Proof. destruct dst; simpl; [|done]. intros H. apply lookup_insert_ne. congruence. Qed.
Lemma put_cell32_other dst v m (d : nat) : dst ≠ Some d → put_cell32 dst v m !! d = m !! d.
Proof. destruct dst; simpl; [|done]. intros H. apply lookup_insert_ne. congruence. Qed.

(** What delivering [v] and then waking does to the cell [d] of context [j]. *)
Lemma deliver_wake_cells s target v j c d :
  distinct_dsts s → Find s j = Some c → joinResultDst c = Some d →
  let s2 := DeliverJoinResults s target v in
  m_cells (WakeJoiners s2 target false) !! d =
    if is_joiner target c then Some v
    else match select_index target c with
         | Some w => Some (low_half (default 0 (m_cells s !! d)) w)
         | None => m_cells s !! d
         end.
Proof.
  intros Hd Hc Hdst s2. destruct (DeliverJoinResults_effect s target v) as (F2 & _ & C2).
  destruct (WakeJoiners_effect s2 target false) as (_ & _ & C3). fold s2 in F2, C2. rewrite C3.
  pose proof (Find_lt _ _ _ Hc) as Hj.
  assert (length (m_contexts s2) = length (m_contexts s)) as Hlen.
  { assert (m_contexts s2 = delivered target <$> m_contexts s) as ->; [|by rewrite length_fmap].
    apply list_eq. intros i. rewrite list_lookup_fmap. apply F2. }
  assert (∀ i ci, Find s2 i = Some ci → ∃ c0, Find s i = Some c0 ∧ ci = delivered target c0) as Inv.
  { intros i ci. rewrite F2. destruct (Find s i) as [c0|]; naive_solver. }
  assert (∀ c0, is_joiner target (delivered target c0) = is_joiner target c0 ∧
    (is_joiner target c0 = true → joinResultDst (delivered target c0) = None) ∧
    (is_joiner target c0 = false → delivered target c0 = c0)) as Dl.
  { intros c0. unfold delivered. destruct (is_joiner target c0) eqn:E; simpl; [|done].
    split_and!; try done. }
  assert (∀ c0, is_joiner target c0 = true → select_index target (joined target false c0) = None) as Sj.
  { intros c0 E. unfold joined. by rewrite E. }
  assert (∀ c0, is_joiner target c0 = false → joined target false c0 = c0) as Sn.
  { intros c0 E. unfold joined. by rewrite E. }
  (* the cells of the other contexts do not touch [d] *)
  assert (∀ i ci m, i ≠ j → Find s2 i = Some ci →
    (match select_index target (joined target false ci) with
     | Some w => put_cell32 (joinResultDst ci) w m | None => m end) !! d = m !! d) as Oth.
  { intros i ci m Hi Hci. destruct (Inv i ci Hci) as (c0 & Hc0 & ->).
    destruct (select_index _ _); [|done]. apply put_cell32_other.
    destruct (is_joiner target c0) eqn:E; [by rewrite (proj1 (proj2 (Dl c0)) E)|].
    rewrite (proj2 (proj2 (Dl c0)) E). intros Hd0. by destruct Hi; eapply Hd. }
  assert (Find s2 j = Some (delivered target c)) as Hc2 by (by rewrite F2, Hc).
  destruct (is_joiner target c) eqn:Ej.
  - rewrite loop_cells_other.
    + rewrite C2. eapply (loop_cells_at _ s d _ j c (λ _, v)); [apply NoDup_seq| |done|..].
      * apply elem_of_seq. lia.
      * intros m. rewrite Ej, Hdst. apply lookup_insert_eq.
      * done.
      * intros i c' m _ Hi Hc'. destruct (is_joiner target c'); [|done].
        apply put_cell_other. intros Hd'. by destruct Hi; eapply Hd.
    + intros i ci m _ Hci. destruct (decide (i = j)) as [->|Hi]; [|by apply (Oth i)].
      rewrite Hc2 in Hci. injection Hci as <-. rewrite Sj; [done|]. by rewrite (proj1 (Dl c)).
  - assert (m_cells s2 !! d = m_cells s !! d) as C2'.
    { rewrite C2. apply loop_cells_other. intros i c' m _ Hc'.
      destruct (is_joiner target c') eqn:E'; [|done]. apply put_cell_other. intros Hd'.
      assert (i = j) as -> by (by eapply Hd). congruence. }
    rewrite (proj2 (proj2 (Dl c)) Ej) in Hc2.
    destruct (select_index target c) as [w|] eqn:Es.
    + rewrite <- C2'.
      apply (loop_cells_at _ s2 d _ j c (λ m, low_half (default 0 (m !! d)) w)); [apply NoDup_seq| |done|..].
      * apply elem_of_seq. lia.
      * intros m. rewrite Sn, Es, Hdst by done. apply lookup_insert_eq.
      * by intros m m' ->.
      * intros i c' m _ Hi Hc'. by apply (Oth i).
    + rewrite loop_cells_other; [done|]. intros i ci m _ Hci.
      destruct (decide (i = j)) as [->|Hi]; [|by apply (Oth i)].
      rewrite Hc2 in Hci. injection Hci as <-. by rewrite Sn, Es.
Qed.

(** The ids, in registry order, of the contexts that satisfy [P] and whose frames are
    in place. *)
Definition landed_ids (P : ExecutionContext → bool) (s : VmScheduler) : list nat :=
  filter (λ j, match Find s j with Some c => P c && framesParked c | None => false end = true)
    (seq 0 (length (m_contexts s))).

Lemma loop_queue_filter (P : ExecutionContext → bool) s l :
  loop_queue (λ i c, queue_if (P c) i c) s l =
  filter (λ j, match Find s j with Some c => P c && framesParked c | None => false end = true) l.
Proof.
  unfold loop_queue. induction l as [|i l IH]; [done|]. rewrite fmap_cons, filter_cons. simpl.
  rewrite IH. case_decide as H; destruct (Find s i) as [c|]; try done;
    unfold queue_if; by destruct (P c && framesParked c).
Qed.

Lemma finish_context_aux s k i v ci :
  Find s i = Some ci → state ci ≠ ParkedJoin → distinct_dsts s →
  let s' := (finish_context s k i v).1 in
  Find s' i = Some (set_resultCell v (set_state Finished ci)) ∧
  (∀ j c, Find s j = Some c → j ≠ i → is_joiner i c = true →
     Find s' j = Some (set_state Runnable (set_joinResultDst None c)) ∧
     ∀ d, joinResultDst c = Some d → m_cells s' !! d = Some v) ∧
  (∀ j c w, Find s j = Some c → j ≠ i → is_joiner i c = false → select_index i c = Some w →
     Find s' j = Some (set_state Runnable (set_selectAnyTargets [] (set_joinResultDst None c))) ∧
     ∀ d, joinResultDst c = Some d →
       m_cells s' !! d = Some (low_half (default 0 (m_cells s !! d)) w)) ∧
  (∀ j c, Find s j = Some c → j ≠ i → is_joiner i c = false → select_index i c = None →
     Find s' j = Some c ∧ ∀ d, joinResultDst c = Some d → m_cells s' !! d = m_cells s !! d) ∧
  m_runQueue s' = m_runQueue s ++ landed_ids (is_joiner i) s
    ++ landed_ids (λ c, negb (is_joiner i c) && bool_decide (is_Some (select_index i c))) s.
Proof.
  intros Hi Hst Hd. unfold finish_context.
  destruct (MarkFinished_effect s k i v ci Hi) as (T1 & Q1 & C1).
  destruct (MarkFinished s k i v) as [s1 k1]. simpl in T1, Q1, C1 |- *.
  set (fin := set_resultCell v (set_state Finished ci)) in *.
  assert (∀ j, Find s1 j = if decide (j = i) then Some fin else Find s j) as F1.
  { intros j. unfold Find. rewrite T1. case_decide as Hj; [subst|by rewrite list_lookup_insert_ne].
    apply list_lookup_insert_eq. by eapply Find_lt. }
  assert (length (m_contexts s1) = length (m_contexts s)) as L1 by (rewrite T1; apply length_insert).
  assert (distinct_dsts s1) as Hd1.
  { assert (∀ j c, Find s1 j = Some c → ∃ c0, Find s j = Some c0 ∧
      joinResultDst c0 = joinResultDst c) as Hback.
    { intros j c. rewrite F1. case_decide; [intros [= <-]; subst; by exists ci|eauto]. }
    intros j1 j2 c1 c2 d (c1' & H1 & E1)%Hback (c2' & H2 & E2)%Hback D1 D2.
    apply (Hd j1 j2 c1' c2' d); congruence. }
  destruct (DeliverJoinResults_effect s1 i v) as (F2 & Q2 & _).
  set (s2 := DeliverJoinResults s1 i v) in *.
  destruct (WakeJoiners_effect s2 i false) as (F3 & Q3 & _).
  assert (length (m_contexts s2) = length (m_contexts s)) as L2.
  { rewrite <- L1. assert (m_contexts s2 = delivered i <$> m_contexts s1) as ->;
      [|by rewrite length_fmap]. apply list_eq. intros j. rewrite list_lookup_fmap. apply F2. }
  assert (∀ j, Find (WakeJoiners s2 i false) j =
    selected i ∘ joined i false ∘ delivered i <$> Find s1 j) as F4.
  { intros j. rewrite F3 by auto. rewrite F2. by destruct (Find s1 j). }
  assert (is_joiner i fin = false ∧ select_index i fin = None) as [Jf Sf] by done.
  assert (∀ c, is_joiner i c = true → state c = ParkedJoin) as Js.
  { intros c [H _]%andb_true_iff. by apply bool_decide_eq_true in H. }
  split_and!.
  - rewrite F4, F1, decide_True by done. simpl. unfold delivered, joined, selected.
    by rewrite !Jf, Sf.
  - intros j c Hj Hne Ej. assert (Find s1 j = Some c) as Hj1 by (by rewrite F1, decide_False).
    split.
    + rewrite F4, Hj1. simpl. unfold delivered, joined. rewrite Ej.
      replace (is_joiner i (set_joinResultDst None c)) with true by (symmetry; exact Ej).
      unfold selected. done.
    + intros d Hdst. pose proof (deliver_wake_cells s1 i v j c d Hd1 Hj1 Hdst) as H.
      by rewrite Ej in H.
  - intros j c w Hj Hne Ej Ew. assert (Find s1 j = Some c) as Hj1 by (by rewrite F1, decide_False).
    split.
    + rewrite F4, Hj1. simpl. unfold delivered, joined. rewrite !Ej. unfold selected. by rewrite Ew.
    + intros d Hdst. pose proof (deliver_wake_cells s1 i v j c d Hd1 Hj1 Hdst) as H.
      by rewrite Ej, Ew, C1 in H.
  - intros j c Hj Hne Ej Ew. assert (Find s1 j = Some c) as Hj1 by (by rewrite F1, decide_False).
    split.
    + rewrite F4, Hj1. simpl. unfold delivered, joined. rewrite !Ej. unfold selected. by rewrite Ew.
    + intros d Hdst. pose proof (deliver_wake_cells s1 i v j c d Hd1 Hj1 Hdst) as H.
      by rewrite Ej, Ew, C1 in H.
  - rewrite Q3, Q2, Q1, L2, (loop_queue_filter (is_joiner i)).
    rewrite (loop_queue_filter (λ c, bool_decide (is_Some (select_index i (joined i false c))))).
    unfold landed_ids. f_equal. f_equal.
    + apply list_filter_iff. intros j. rewrite F2, F1. case_decide as Hj; [subst; rewrite Hi|].
      * simpl. replace (is_joiner i ci) with false; [done|]. symmetry. apply not_true_is_false.
        intros E. by apply Hst, Js.
      * destruct (Find s j) as [c|]; [|done]. simpl. unfold delivered.
        destruct (is_joiner i c) eqn:E; [|by rewrite E].
        by replace (is_joiner i (set_joinResultDst None c)) with true by (symmetry; exact E).
    + apply list_filter_iff. intros j. rewrite F2, F1. case_decide as Hj; [subst; rewrite Hi|].
      * cbn [fmap option_fmap option_map].
        assert (select_index i (joined i false (delivered i fin)) = None) as ->
          by (unfold delivered, joined; by rewrite !Jf, Sf).
        unfold select_index. rewrite (decide_False (P := state ci = ParkedJoin)) by done.
        by rewrite andb_false_r.
      * destruct (Find s j) as [c|]; [|done]. simpl. unfold delivered, joined.
        destruct (is_joiner i c) eqn:E; [|by rewrite E].
        replace (is_joiner i (set_joinResultDst None c)) with true by (symmetry; exact E).
        done.
Qed.

(** C21: Completion.  When context [i] ends with [v], every context joined to it becomes
    Runnable with [v] already in its result slot; every select-any waiter on it
    becomes Runnable with its index there; no other context changes; and the queue
    gains, once each, exactly the woken contexts whose frames are in place. *)
Theorem finish_context_spec s k i v ci :
  Find s i = Some ci → state ci ≠ ParkedJoin → distinct_dsts s →
  let s' := (finish_context s k i v).1 in
  Find s' i = Some (set_resultCell v (set_state Finished ci)) ∧
  (∀ j c, Find s j = Some c → j ≠ i → is_joiner i c = true →
     Find s' j = Some (set_state Runnable (set_joinResultDst None c)) ∧
     ∀ d, joinResultDst c = Some d → m_cells s' !! d = Some v) ∧
  (∀ j c w, Find s j = Some c → j ≠ i → is_joiner i c = false → select_index i c = Some w →
     Find s' j = Some (set_state Runnable (set_selectAnyTargets [] (set_joinResultDst None c))) ∧
     ∀ d, joinResultDst c = Some d →
       m_cells s' !! d = Some (low_half (default 0 (m_cells s !! d)) w)) ∧
  (∀ j c, Find s j = Some c → j ≠ i → is_joiner i c = false → select_index i c = None →
     Find s' j = Some c ∧ ∀ d, joinResultDst c = Some d → m_cells s' !! d = m_cells s !! d) ∧
  m_runQueue s' = m_runQueue s ++ landed_ids (is_joiner i) s
    ++ landed_ids (λ c, negb (is_joiner i c) && bool_decide (is_Some (select_index i c))) s.
Proof. apply finish_context_aux. Qed.

(** ** The dispatch choice *)

(** An entry the carrier prefers: it ran it last, or nobody has run it. *)
Definition preferred (s : VmScheduler) (k : CarrierState) (i : nat) : bool :=
  match Find s i with
  | Some c => bool_decide (lastCarrier c = 255) || bool_decide (lastCarrier c = u8 (carrierId k))
  | None => false
  end.

Lemma affinity_scan_spec s k q : ∀ pos,
  (∀ i, i ∈ q → is_Some (Find s i)) →
  match affinity_scan s k q pos with
  | Raise _ => False
  | Ok None => ∀ j, j ∈ q → pinnedAway s (pumpToken k) j = true ∨ preferred s k j = false
  | Ok (Some (p, i, _)) => ∃ l1 l2, q = l1 ++ i :: l2 ∧ p = (pos + length l1)%nat ∧
      pinnedAway s (pumpToken k) i = false ∧ preferred s k i = true ∧
      ∀ j, j ∈ l1 → pinnedAway s (pumpToken k) j = true ∨ preferred s k j = false
  end.
Proof.
  induction q as [|x q IH]; intros pos Hq; simpl; [by intros j Hj%not_elem_of_nil|].
  assert (∀ i, i ∈ q → is_Some (Find s i)) as Hq' by (intros; apply Hq; by right).
  assert (∀ P : Prop, (pinnedAway s (pumpToken k) x = true ∨ preferred s k x = false) →
    match affinity_scan s k q (S pos) with
    | Raise _ => False
    | Ok None => ∀ j, j ∈ x :: q → pinnedAway s (pumpToken k) j = true ∨ preferred s k j = false
    | Ok (Some (p, i, _)) => ∃ l1 l2, x :: q = l1 ++ i :: l2 ∧ p = (pos + length l1)%nat ∧
        pinnedAway s (pumpToken k) i = false ∧ preferred s k i = true ∧
        ∀ j, j ∈ l1 → pinnedAway s (pumpToken k) j = true ∨ preferred s k j = false
    end) as Skip.
  { intros _ Hx. specialize (IH (S pos) Hq').
    destruct (affinity_scan s k q (S pos)) as [[[[p i] h]|]|]; [|by set_solver|done].
    destruct IH as (l1 & l2 & -> & -> & ? & ? & Hl). exists (x :: l1), l2.
    split_and!; [done|simpl; lia|done..|set_solver]. }
  destruct (pinnedAway s (pumpToken k) x) eqn:Hp; [by apply (Skip True); left|].
  destruct (Hq x) as [c Hc]; [left|]. rewrite Hc, derefE, bindE.
  destruct (_ || _) eqn:Hpref.
  - exists [], q. unfold preferred. rewrite Hc. repeat split; try done; try (simpl; lia).
    all: by intros j Hj%not_elem_of_nil.
  - apply (Skip True). right. unfold preferred. by rewrite Hc.
Qed.

Lemma list_find_split {A} (P : A → Prop) `{∀ x, Decision (P x)} l p x :
  list_find P l = Some (p, x) →
  ∃ l1 l2, l = l1 ++ x :: l2 ∧ p = length l1 ∧ P x ∧ Forall (λ y, ¬ P y) l1.
Proof.
  intros (Hi & HP & Hb)%list_find_Some. exists (take p l), (drop (S p) l).
  pose proof (lookup_lt_Some _ _ _ Hi). rewrite take_drop_middle by done.
  split_and!; [done|rewrite length_take; lia|done|].
  apply Forall_forall. intros y Hy. apply list_elem_of_lookup in Hy as [j Hj].
  apply lookup_take_Some in Hj as [Hj ?]. by eapply Hb.
Qed.

Lemma delete_mid {A} (l1 l2 : list A) x : delete (length l1) (l1 ++ x :: l2) = l1 ++ l2.
Proof. induction l1; simpl; [done|by f_equal]. Qed.

(** A pop takes one entry out of the queue and keeps the order of the others.  It
    never takes an entry pinned to another pump, and finds nothing only when every
    entry is.  Within the window it takes the first entry this carrier prefers; if
    the window has none, it takes the first entry it may take at all. *)
Theorem PopAffinity_spec s k :
  installed k = true → (∀ i, i ∈ m_runQueue s → is_Some (Find s i)) →
  let away := pinnedAway s (pumpToken k) in
  ∃ s' r, PopAffinity s k = Ok (s', r) ∧ m_contexts s' = m_contexts s ∧
  match r with
  | None => s' = s ∧ ∀ i, i ∈ m_runQueue s → away i = true
  | Some i => ∃ l1 l2, m_runQueue s = l1 ++ i :: l2 ∧ m_runQueue s' = l1 ++ l2 ∧
      away i = false ∧
      ((preferred s k i = true ∧ (length l1 < AFFINITY_SCAN_WINDOW)%nat ∧
        ∀ j, j ∈ l1 → away j = true ∨ preferred s k j = false) ∨
       ((∀ j, j ∈ take AFFINITY_SCAN_WINDOW (m_runQueue s) →
           away j = true ∨ preferred s k j = false) ∧ ∀ j, j ∈ l1 → away j = true))
  end.
Proof.
  intros Hk Hq away. unfold PopAffinity. rewrite Hk. simpl check. rewrite bindE.
  assert (∀ i, i ∈ take AFFINITY_SCAN_WINDOW (m_runQueue s) → is_Some (Find s i)) as Hin.
  { intros i (j & Hj & _)%elem_of_take. by eapply Hq, list_elem_of_lookup_2. }
  pose proof (affinity_scan_spec s k (take AFFINITY_SCAN_WINDOW (m_runQueue s)) 0) as Hs.
  destruct (affinity_scan s k _ 0) as [[[[p i] hit]|]|] eqn:E; rewrite ?bindE.
  - destruct Hs as (l1 & l2 & Hsplit & -> & Ha & Hp & Hl); [exact Hin|].
    assert (m_runQueue s = l1 ++ i :: (l2 ++ drop AFFINITY_SCAN_WINDOW (m_runQueue s))) as Hqs.
    { rewrite <- (take_drop AFFINITY_SCAN_WINDOW (m_runQueue s)) at 1. by rewrite Hsplit, <- app_assoc. }
    eexists _, (Some i). split; [reflexivity|]. split; [by destruct hit|].
    exists l1, (l2 ++ drop AFFINITY_SCAN_WINDOW (m_runQueue s)). split; [exact Hqs|]. split.
    { assert (delete (length l1) (m_runQueue s) = l1 ++ (l2 ++ drop AFFINITY_SCAN_WINDOW (m_runQueue s)))
        as <- by (rewrite Hqs at 1; apply delete_mid). by destruct hit. }
    split; [done|]. left. split; [done|]. split; [|done].
    apply (f_equal length) in Hsplit. rewrite length_take, length_app in Hsplit. cbn [length] in Hsplit. lia.
  - destruct (list_find _ _) as [[p i]|] eqn:Ef.
    + apply list_find_split in Ef as (l1 & l2 & Hqs & -> & Ha & Hb).
      eexists _, (Some i). split; [reflexivity|]. split; [done|]. exists l1, l2. split; [done|].
      split; [simpl; rewrite Hqs; apply delete_mid|]. split; [done|]. right. split; [by apply Hs|].
      intros j Hj. rewrite Forall_forall in Hb. specialize (Hb j Hj). by destruct (away j) eqn:Ej.
    + exists s, None. split; [done|]. split; [done|]. split; [done|].
      intros i Hi. rewrite list_find_None, Forall_forall in Ef. specialize (Ef i Hi).
      by destruct (away i) eqn:Ei.
  - by destruct Hs.
Qed.

(** ** Notification

    [notify_ok]: a sleeper no notification has reached has a false predicate, so
    nobody sleeps through the moment its condition becomes true. *)
Definition notify_ok (s : VmScheduler) : Prop :=
  ∀ t w, m_sleepers s !! t = Some w → sl_signaled w = false →
    wait_pred s (sl_kind w) (sl_token w) = false.

(** [s'] has the sleepers of [s] and satisfies no predicate that [s] does not. *)
Definition weaker (s s' : VmScheduler) : Prop :=
  m_sleepers s' = m_sleepers s ∧
  ∀ kind tok, wait_pred s' kind tok = true → wait_pred s kind tok = true.

#[export] Instance weaker_preorder : PreOrder weaker.
Proof.
  split; [by intros s|]. intros s1 s2 s3 [E1 H1] [E2 H2]. split; [congruence|auto].
Qed.

Lemma notify_ok_weaker s s' : weaker s s' → notify_ok s → notify_ok s'.
Proof.
  intros [E H] Hok t w. rewrite E. intros Hw Hsig.
  destruct (wait_pred s' _ _) eqn:Hp; [|done]. apply H in Hp. by rewrite (Hok t w Hw Hsig) in Hp.
Qed.

Lemma notify_ok_all s : notify_ok (notify_all s).
Proof.
  intros t w. simpl. rewrite lookup_fmap. intros (w' & _ & ->)%fmap_Some Hs. done.
Qed.

Lemma notify_ok_gate s0 s :
  (m_debugFocusContext s = None → weaker s0 s) → notify_ok s0 → notify_ok (NotifyGateWaiters s).
Proof.
  intros Hw Hok. unfold NotifyGateWaiters. destruct (m_debugFocusContext s); [apply notify_ok_all|].
  eapply notify_ok_weaker; [by apply Hw|done].
Qed.

Lemma existsb_mono {A} (f g : A → bool) l :
  (∀ x, x ∈ l → f x = true → g x = true) → existsb f l = true → existsb g l = true.
Proof.
  intros H. rewrite !existsb_exists. intros (x & Hx & Hf). exists x. split; [done|].
  apply H; [by apply list_elem_of_In|done].
Qed.

(** Rewriting a context keeps the predicates when it keeps the pin, and the state too
    unless the gate can only close or no focus is set. *)
Lemma store_weaker s i c c' :
  Find s i = Some c → pinnedToken c' = pinnedToken c →
  (state c' = Runnable ∨ m_debugFocusContext s = None ∨ state c' = state c) →
  weaker s (store_ctx i c' s).
Proof.
  intros Hc Hpin Hst. split; [done|]. intros kind tok. unfold wait_pred.
  change (m_stopRequested (store_ctx i c' s)) with (m_stopRequested s).
  destruct (m_stopRequested s); [done|]. simpl.
  assert (∀ j, Find (store_ctx i c' s) j = if decide (j = i) then Some c' else Find s j) as F.
  { intros j. unfold Find, store_ctx. simpl. case_decide; [subst|by rewrite list_lookup_insert_ne].
    apply list_lookup_insert_eq. by eapply Find_lt. }
  destruct kind; [done| |].
  - unfold FocusGateOpen. change (m_debugFocusContext (store_ctx i c' s)) with (m_debugFocusContext s).
    destruct (m_debugFocusContext s) as [f|]; [|done]. rewrite F. case_decide as Hf; [subst f|done].
    rewrite Hc. change (m_runQueue (store_ctx i c' s)) with (m_runQueue s).
    destruct Hst as [->|[?| ->]]; [|done..]. simpl. intros ->. apply orb_true_r.
  - unfold HasPopableEntry. apply existsb_mono. intros j _. rewrite F.
    case_decide as Hf; [subst j; by rewrite Hc, Hpin|done].
Qed.

Lemma held_weaker c v s : weaker s (set_held c v s).
Proof. unfold set_held. by case_decide. Qed.
Lemma release_weaker s k i : weaker s (ReleaseHeldIfCurrent s k i).1.
Proof. unfold ReleaseHeldIfCurrent. destruct (_ || _); [done|apply held_weaker]. Qed.
Lemma release_focus s k i :
  m_debugFocusContext (ReleaseHeldIfCurrent s k i).1 = m_debugFocusContext s.
Proof. unfold ReleaseHeldIfCurrent, set_held. destruct (_ || _); [done|]. by case_decide. Qed.

(** A shorter queue satisfies fewer predicates. *)
Lemma shorter_queue_weaker s q :
  q ⊆ m_runQueue s → weaker s (put_runQueue q s).
Proof.
  intros Hq. split; [done|]. intros kind tok. unfold wait_pred. simpl.
  destruct (m_stopRequested s); [done|]. simpl. destruct kind; [done| |].
  - unfold FocusGateOpen. simpl. destruct (m_debugFocusContext s) as [f|]; [|done].
    change (Find (put_runQueue q s) f) with (Find s f). destruct (Find s f); [|done].
    rewrite !orb_true_iff, !bool_decide_eq_true. set_solver.
  - unfold HasPopableEntry. simpl. rewrite !existsb_exists. intros (x & Hx & Hp).
    exists x. split; [|done]. apply list_elem_of_In, Hq. by apply list_elem_of_In.
Qed.

Lemma dispatched_weaker s k i s' k' :
  DispatchedToCarrier s k i = Ok (s', k') → weaker s s'.
Proof.
  unfold DispatchedToCarrier. intros H. monad_inv.
  set (s1 := match Find s i with Some _ => _ | None => _ end).
  assert (weaker s s1) as W1.
  { subst s1. destruct (Find s i) as [c|] eqn:Hc; [|done]. eapply store_weaker; eauto. }
  etrans; [exact W1|]. etrans; [apply (held_weaker (carrierId k) (Some i))|].
  by case_decide.
Qed.

Lemma cv_wait_ok kind s k s' r :
  notify_ok s → cv_wait kind s k = (s', r) → notify_ok s'.
Proof.
  intros Hok. unfold cv_wait. destruct (wait_pred s kind _) eqn:Hp; intros [= <- <-]; [done|].
  intros t w. simpl. intros [[<- <-]|[_ Hw]]%lookup_insert_Some Hs; [exact Hp|].
  by apply (Hok t w).
Qed.

Lemma pop_affinity_weaker s k s' r : PopAffinity s k = Ok (s', r) → weaker s s'.
Proof.
  unfold PopAffinity. intros H. monad_inv.
  assert (∀ p : nat, weaker s (put_runQueue (delete p (m_runQueue s)) s)) as Hw.
  { intros p. apply shorter_queue_weaker. intros y Hy.
    by eapply list_subseteq_delete. }
  destruct x0 as [[[p i] hit]|].
  - injection H1 as <- _. etrans; [apply (Hw p)|]. by destruct hit.
  - destruct (list_find _ _) as [[p i]|]; injection H1 as <- _; [|done].
    etrans; [apply (Hw p)|]. done.
Qed.

Lemma steal_ok s k s' k' r :
  TryStealFocusedRunnable s k = Ok (s', k', r) → weaker s s'.
Proof.
  unfold TryStealFocusedRunnable. destruct (m_debugFocusContext s) as [f|]; [|by intros [= <- _ _]].
  destruct (Find s f); [|by intros [= <- _ _]]. case_decide; [|by intros [= <- _ _]].
  destruct (list_find _ _) as [[p i]|]; [|by intros [= <- _ _]]. intros H1. monad_inv.
  etrans; [apply (shorter_queue_weaker s (delete p (m_runQueue s)))|by eapply dispatched_weaker].
  intros x Hx. by eapply list_subseteq_delete.
Qed.

Lemma pop_ok s k s' k' r :
  notify_ok s → PopNextRunnable s k = Ok (s', k', r) → notify_ok s'.
Proof.
  intros Hok. unfold PopNextRunnable.
  destruct (if decide (0 < m_debugFreezeDepth s) then _ else _) as [s1 [r1|]] eqn:Ef.
  { intros [= <- _ _]. case_decide; [|done]. by eapply cv_wait_ok. }
  assert (notify_ok s1) as Hok1 by (case_decide; [by eapply cv_wait_ok|by injection Ef as <-]).
  clear Ef. destruct (match m_debugFocusContext s1 ≫= Find s1 with Some _ => _ | None => _ end).
  - intros H. monad_inv. apply steal_ok in H as Hw.
    pose proof (notify_ok_weaker _ _ Hw Hok1) as Hok2.
    destruct o as [i|]; [by simplify_eq|].
    destruct (cv_wait WaitFocus v c) as [s2 [r2|]] eqn:Ec; simplify_eq; by eapply cv_wait_ok.
  - intros H. monad_inv.
    assert (notify_ok v) as Hok2.
    { case_decide; [by simplify_eq|]. eapply notify_ok_weaker; [by eapply pop_affinity_weaker|done]. }
    destruct o as [i|]; monad_inv.
    + eapply notify_ok_weaker; [by eapply dispatched_weaker|done].
    + unfold WaitForWorkOrStop in *. destruct (m_stopRequested v); [by simplify_eq|].
      destruct (deadlocked v _); [done|].
      destruct (cv_wait WaitWork v _) as [s2 [r2|]] eqn:Ec; simplify_eq; by eapply cv_wait_ok.
Qed.

Lemma wake_ok s k s' k' r :
  notify_ok s → cv_wake s k = Ok (s', k', r) → notify_ok s'.
Proof.
  intros Hok. unfold cv_wake. intros H. monad_inv.
  destruct (wait_pred s (sl_kind x) (sl_token x)) eqn:Hp.
  - set (s1 := put_sleepers _ _) in *. assert (notify_ok s1) as Hok1.
    { intros t w. simpl. intros [_ Hw]%lookup_delete_Some Hs. by apply (Hok t w). }
    destruct (sl_kind x); [by eapply pop_ok| |by eapply pop_ok].
    destruct (m_stopRequested s1); [by simplify_eq|by eapply pop_ok].
  - simplify_eq. intros t w. simpl.
    intros [[<- <-]|[_ Hw]]%lookup_insert_Some Hs; [exact Hp|by apply (Hok t w)].
Qed.

(** The operations of the scheduler's interface, as the executor calls them. *)
Inductive sched_op :=
  | OpRegister | OpRegisterPromise | OpPop | OpCvWake
  | OpPark (st : ContextState) (i : nat) | OpWake (i : nat) | OpWakeChan (i : nat) (exc : Z)
  | OpAbort (i : nat) | OpParkFrames (i : nat) (stack : list frame)
  | OpParkSlice (i : nat) (stack : list frame) (keep : nat) (enqueue : bool)
  | OpRequeue (i : nat) | OpFinished (i : nat) (v : Z) | OpFailed (i : nat) (e : Z)
  | OpRunnableHeld (i : nat) | OpParkJoin (i target : nat)
  | OpParkJoinAny (i : nat) (targets : list (nat * Z))
  | OpWakeJoiners (target : nat) (failed : bool) | OpParkTimer (i : nat) (at_ : Z)
  | OpServiceTimers (now : Z) | OpTimerThread (now : Z)
  | OpParkIo (i : nat) (fd ev at_ : Z) (has : bool) | OpPoller (ready : gmap Z Z) (now : Z)
  | OpFocus (f : option nat) | OpFreeze | OpUnfreeze | OpStop | OpPumpIn | OpPumpOut
  | OpPin (i : nat) | OpUnpin (i : nat) | OpSplice (i : nat) (stack : list frame) (base : nat)
  | OpObserve (i : nat) | OpDeliver (target : nat) (result : Z) | OpConfigure (count : nat).

Definition apply_op (op : sched_op) (s : VmScheduler) (k : CarrierState) :
    outcome (VmScheduler * CarrierState) :=
  match op with
  | OpRegister => Ok ((RegisterContext s k).1, k)
  | OpRegisterPromise => Ok ((RegisterParkedPromiseContext s).1, k)
  | OpPop => '(s, k, _) ← PopNextRunnable s k; Ok (s, k)
  | OpCvWake => '(s, k, _) ← cv_wake s k; Ok (s, k)
  | OpPark st i => Ok (ParkIn st s k i)
  | OpWake i => Ok (WakeForMutex s i, k)
  | OpWakeChan i e => Ok (WakeForChanRecv s i e, k)
  | OpAbort i => Ok (AbortPark s k i)
  | OpParkFrames i st => Ok (ParkContextFrames s k i st)
  | OpParkSlice i st keep enq => Ok ((ParkContextFramesSlice s k i st keep enq).1)
  | OpRequeue i => Ok (Requeue s k i)
  | OpFinished i v => Ok (MarkFinished s k i v)
  | OpFailed i e => Ok (MarkFailed s k i e)
  | OpRunnableHeld i => Ok (MarkRunnableHeld s i, k)
  | OpParkJoin i t => Ok (ParkForJoin s k i t)
  | OpParkJoinAny i ts => Ok ((ParkForJoinAny s k i ts).1)
  | OpWakeJoiners t f => Ok (WakeJoiners s t f, k)
  | OpParkTimer i at_ => Ok (ParkForTimer s k i at_)
  | OpServiceTimers now => s ← ServiceDueTimers s now; Ok (s, k)
  | OpTimerThread now => Ok (timer_thread_expire s now, k)
  | OpParkIo i fd ev at_ has => Ok (ParkForIo s k i fd ev at_ has)
  | OpPoller ready now => Ok (poller_round s ready now, k)
  | OpFocus f => Ok (SetDebugFocusContext s f, k)
  | OpFreeze => Ok (ArmDebugFreezeGate s, k)
  | OpUnfreeze => Ok (DisarmDebugFreezeGate s, k)
  | OpStop => Ok (RequestStop s, k)
  | OpPumpIn => Ok ((AcquirePumpToken s k).1)
  | OpPumpOut => Ok (ReleasePumpToken s k)
  | OpPin i => Ok (PumpPin_enter s k i)
  | OpUnpin i => Ok (PumpPin_leave s k i)
  | OpSplice i stack base => '(s, _, _, _) ← SpliceResumedFrames s i stack base; Ok (s, k)
  | OpObserve i => Ok (MarkFailureObserved s i, k)
  | OpDeliver t v => Ok (DeliverJoinResults s t v, k)
  | OpConfigure n => Ok (ConfigureCarriers s n, k)
  end.

Lemma gate_after_release s0 s k i :
  (m_debugFocusContext s = None → weaker s0 s) → notify_ok s0 →
  notify_ok (NotifyGateWaiters (ReleaseHeldIfCurrent s k i).1).
Proof.
  intros Hw. apply notify_ok_gate. rewrite release_focus. intros Hf.
  etrans; [by apply Hw|apply release_weaker].
Qed.

Lemma park_gate_ok s k i c c' :
  Find s i = Some c → pinnedToken c' = pinnedToken c → notify_ok s →
  notify_ok (NotifyGateWaiters (ReleaseHeldIfCurrent (store_ctx i c' s) k i).1).
Proof.
  intros Hc Hp. apply gate_after_release. intros Hf. eapply store_weaker; [done..|]. by right; left.
Qed.

Lemma stop_if_main_ok i s : notify_ok s → notify_ok (stop_if_main i s).
Proof. unfold stop_if_main. case_decide; [intros _; apply notify_ok_all|done]. Qed.

Lemma register_promise_ok s :
  m_nextId s = length (m_contexts s) → (∀ i, i ∈ m_runQueue s → is_Some (Find s i)) →
  notify_ok s → notify_ok (RegisterParkedPromiseContext s).1.
Proof.
  intros Hn Hq. apply notify_ok_weaker. split; [done|]. intros kind tok.
  assert (∀ i, is_Some (Find s i) → Find (RegisterParkedPromiseContext s).1 i = Find s i) as F.
  { intros i [c Hc]. unfold Find in *. simpl. rewrite lookup_app_l; [done|]. by eapply lookup_lt_Some. }
  assert (m_stopRequested (RegisterParkedPromiseContext s).1 = m_stopRequested s ∧
    m_debugFreezeDepth (RegisterParkedPromiseContext s).1 = m_debugFreezeDepth s ∧
    m_debugFocusContext (RegisterParkedPromiseContext s).1 = m_debugFocusContext s ∧
    m_runQueue (RegisterParkedPromiseContext s).1 = m_runQueue s) as (E1 & E2 & E3 & E4) by done.
  generalize dependent ((RegisterParkedPromiseContext s).1). intros s' F E1 E2 E3 E4.
  unfold wait_pred, FocusGateOpen, HasPopableEntry. rewrite E1, E2, E3, E4.
  destruct (m_stopRequested s); [done|]. simpl. destruct kind; [done| |].
  - destruct (m_debugFocusContext s) as [f|]; [|done].
    destruct (Find s f) as [c|] eqn:Hc; [|done]. by rewrite F, Hc.
  - apply existsb_mono. intros i Hi. by rewrite F by auto.
Qed.

Lemma freeze_ok s d : d ≠ 0 → notify_ok s → notify_ok (put_debugFreezeDepth d s).
Proof.
  intros Hd. apply notify_ok_weaker. split; [done|]. intros kind tok. unfold wait_pred. simpl.
  destruct (m_stopRequested s); [done|]. simpl. destruct kind; [|done..].
  by rewrite bool_decide_false by done.
Qed.

(** *** The operations one by one *)

(** A park that stores [f c] over context [i] and passes the gate. *)
Ltac parked_through_gate s k i f Hok :=
  let c := fresh "c" in let Hc := fresh "Hc" in let Hg := fresh "Hg" in
  destruct (Find s i) as [c|] eqn:Hc; [|done];
  pose proof (park_gate_ok s k i c (f c) Hc eq_refl Hok) as Hg;
  destruct (ReleaseHeldIfCurrent _ _ _); simpl in *.

Lemma ParkIn_ok st s k i : notify_ok s → notify_ok (ParkIn st s k i).1.
Proof. intros Hok. unfold ParkIn. by parked_through_gate s k i (set_state st) Hok. Qed.

Lemma MarkFinished_ok s k i v : notify_ok s → notify_ok (MarkFinished s k i v).1.
Proof.
  intros Hok. unfold MarkFinished.
  parked_through_gate s k i (λ c, set_resultCell v (set_state Finished c)) Hok.
  by apply stop_if_main_ok.
Qed.

Lemma MarkFailed_ok s k i e : notify_ok s → notify_ok (MarkFailed s k i e).1.
Proof.
  intros Hok. unfold MarkFailed.
  parked_through_gate s k i (λ c, set_failExcHeapIdx e (set_state Failed c)) Hok.
  by apply stop_if_main_ok.
Qed.

Lemma ParkForJoin_ok s k i target : notify_ok s → notify_ok (ParkForJoin s k i target).1.
Proof.
  intros Hok. unfold ParkForJoin.
  by parked_through_gate s k i (λ c, set_parkHandle (Z.of_nat target) (set_state ParkedJoin c)) Hok.
Qed.

Lemma ParkForJoinAny_ok s k i targets :
  notify_ok s → notify_ok (ParkForJoinAny s k i targets).1.1.
Proof.
  intros Hok. unfold ParkForJoinAny. case_decide; [done|].
  by parked_through_gate s k i (λ c, set_selectAnyTargets targets
    (set_parkHandle kSelectAnyNoTarget (set_state ParkedJoin c))) Hok.
Qed.

Lemma WakeForMutex_ok s i : notify_ok s → notify_ok (WakeForMutex s i).
Proof. unfold WakeForMutex. destruct (Find s i); [intros _; apply notify_ok_all|done]. Qed.

Lemma WakeForChanRecv_ok s i e : notify_ok s → notify_ok (WakeForChanRecv s i e).
Proof. unfold WakeForChanRecv. destruct (Find s i); [intros _; apply notify_ok_all|done]. Qed.

Lemma AbortPark_ok s k i : notify_ok s → notify_ok (AbortPark s k i).1.
Proof.
  intros Hok. unfold AbortPark. destruct (Find s i) as [c|] eqn:Hc; [|done].
  assert (weaker s (store_ctx i (set_state Runnable c) s)) as Hw by (eapply store_weaker; eauto).
  destruct (negb _); simpl; (eapply notify_ok_weaker; [|exact Hok]); [done|].
  etrans; [exact Hw|apply held_weaker].
Qed.

(** Letting go of the context a carrier holds keeps what was notified so. *)
Lemma release_ok s k i : notify_ok s → notify_ok (ReleaseHeldIfCurrent s k i).1.
Proof. apply notify_ok_weaker, release_weaker. Qed.

Lemma ParkContextFrames_ok s k i st : notify_ok s → notify_ok (ParkContextFrames s k i st).1.
Proof.
  intros Hok. unfold ParkContextFrames. destruct (Find s i) as [c|] eqn:Hc; [|done].
  apply release_ok. case_decide; [apply notify_ok_all|]. eapply notify_ok_weaker; [|exact Hok].
  eapply store_weaker; eauto.
Qed.

Lemma ParkContextFramesSlice_ok s k i st keep enqueue :
  notify_ok s → notify_ok (ParkContextFramesSlice s k i st keep enqueue).1.1.
Proof.
  intros Hok. unfold ParkContextFramesSlice. destruct (Find s i) as [c|] eqn:Hc; [|done].
  match goal with |- context [ReleaseHeldIfCurrent ?x k i] =>
    pose proof (release_ok x k i) as Hr; destruct (ReleaseHeldIfCurrent x k i) end.
  simpl in *. apply Hr. destruct (enqueue && _); [apply notify_ok_all|].
  eapply notify_ok_weaker; [|exact Hok]. eapply store_weaker; eauto.
Qed.

Lemma Requeue_ok s k i : notify_ok (Requeue s k i).1.
Proof. apply release_ok, notify_ok_all. Qed.

Lemma MarkRunnableHeld_ok s i : notify_ok s → notify_ok (MarkRunnableHeld s i).
Proof.
  intros Hok. unfold MarkRunnableHeld. destruct (Find s i) as [c|] eqn:Hc; [|done].
  eapply notify_ok_weaker; [|exact Hok].
  etrans; [eapply (store_weaker s i c (set_state Runnable c)); eauto|done].
Qed.

Lemma WakeJoiners_ok s t f : notify_ok (WakeJoiners s t f).
Proof. unfold WakeJoiners. destruct (foldl _ _ _). apply notify_ok_all. Qed.

Lemma ParkForTimer_ok s k i t : notify_ok s → notify_ok (ParkForTimer s k i t).1.
Proof.
  intros Hok. unfold ParkForTimer. destruct (Find s i) as [c|] eqn:Hc; [|done].
  set (s1 := store_ctx i (set_wakeAt t (set_state ParkedTimer c)) s). set (s2 := put_timers _ s1).
  assert (notify_ok (NotifyGateWaiters (ReleaseHeldIfCurrent s2 k i).1)) as Hg.
  { apply (gate_after_release s); [|done]. intros Hf.
    etrans; [|exact (conj eq_refl (λ _ _ H, H) : weaker s1 s2)].
    eapply store_weaker; [done..|]. by right; left. }
  by destruct (ReleaseHeldIfCurrent s2 k i).
Qed.

Lemma ServiceDueTimers_ok s now s' :
  notify_ok s → ServiceDueTimers s now = Ok s' → notify_ok s'.
Proof.
  rewrite ServiceDueTimers_cases. intros Hok [= <-]. case_decide; [apply notify_ok_all|done].
Qed.

Lemma ParkForIo_ok s k i fd ev t has : notify_ok s → notify_ok (ParkForIo s k i fd ev t has).1.
Proof.
  intros Hok. unfold ParkForIo. destruct (Find s i) as [c|] eqn:Hc; [|done].
  set (s0 := if decide (state c = BlockedNative) then _ else s).
  assert (weaker s s0 ∧ Find s0 i = Some c ∧ m_debugFocusContext s0 = m_debugFocusContext s)
    as (W0 & F0 & D0) by (subst s0; by case_decide).
  set (s1 := store_ctx i (set_state ParkedIo c) s0). set (s2 := put_ioWaits _ s1).
  assert (notify_ok (NotifyGateWaiters (ReleaseHeldIfCurrent s2 k i).1)) as Hg.
  { apply (gate_after_release s); [|done]. intros Hf. etrans; [exact W0|].
    etrans; [|exact (conj eq_refl (λ _ _ H, H) : weaker s1 s2)].
    eapply store_weaker; [done..|]. right; left. exact Hf. }
  by destruct (ReleaseHeldIfCurrent s2 k i).
Qed.

Lemma SetDebugFocusContext_ok s f : notify_ok s → notify_ok (SetDebugFocusContext s f).
Proof. unfold SetDebugFocusContext. case_decide; [done|intros _; apply notify_ok_all]. Qed.

Lemma ArmDebugFreezeGate_ok s :
  0 ≤ m_debugFreezeDepth s → notify_ok s → notify_ok (ArmDebugFreezeGate s).
Proof. intros Hd. apply freeze_ok. lia. Qed.

Lemma DisarmDebugFreezeGate_ok s : notify_ok s → notify_ok (DisarmDebugFreezeGate s).
Proof.
  intros Hok. unfold DisarmDebugFreezeGate. case_decide; [apply notify_ok_all|]. by apply freeze_ok.
Qed.

(** What rewrites contexts without their state and pin. *)
Lemma Splice_ok s i stack base r : notify_ok s → SpliceResumedFrames s i stack base = Ok r → notify_ok r.1.1.1.
Proof.
  intros Hok H. unfold SpliceResumedFrames in H. apply bind_Ok in H as (c & Hc%deref_Ok & H).
  case_decide; [by injection H as <-|]. apply bind_Ok in H as ([c1 exc] & Ha & H). injection H as <-. simpl.
  eapply notify_ok_weaker; [|exact Hok]. eapply (store_weaker s i c); [exact Hc|..]; unfold ArmResumeRethrow in Ha;
    repeat (case_decide || case_match || (apply bind_Ok in Ha as (? & ? & Ha))); try done; simplify_eq/=; auto.
Qed.
Lemma Observe_ok s i : notify_ok s → notify_ok (MarkFailureObserved s i).
Proof.
  intros Hok. unfold MarkFailureObserved. destruct (Find s i) as [c|] eqn:Hc; [|done].
  eapply notify_ok_weaker; [|exact Hok]. eapply store_weaker; eauto.
Qed.
Lemma Deliver_ok s t v : notify_ok s → notify_ok (DeliverJoinResults s t v).
Proof.
  unfold DeliverJoinResults. generalize (seq 0 (length (m_contexts s))). intros l. revert s.
  induction l as [|i l IH]; intros s Hok; [done|]. apply IH. unfold deliver_one.
  destruct (Find s i) as [c|] eqn:Hc; [|done]. destruct (is_joiner t c); [|done]. destruct (joinResultDst c) as [d|]; [|done].
  eapply notify_ok_weaker; [|exact Hok]. etrans; [|eapply (store_weaker (write_cell (Some d) v s) i c); eauto]. done.
Qed.

(** The tokens carriers sleep with have been given out. *)
Definition tokens_issued (s : VmScheduler) : Prop :=
  ∀ t w, m_sleepers s !! t = Some w → 0 ≤ sl_token w < m_nextPumpToken s.
(** Pinning a context to a new token makes no entry popable for those who sleep. *)
Lemma PumpPin_enter_ok s k i : tokens_issued s → notify_ok s → notify_ok (PumpPin_enter s k i).1.
Proof.
  intros Ht Hok. unfold PumpPin_enter, AcquirePumpToken, PinContext. simpl.
  set (s1 := put_activePumpCount _ _). change (Find s1 i) with (Find s i).
  destruct (Find s i) as [c|] eqn:Hc; [|exact Hok]. intros t w Hw Hsig.
  specialize (Hok t w Hw Hsig). destruct (Ht t w Hw) as [Hw0 Hw1].
  assert (∀ j, Find (store_ctx i (set_pinnedToken (m_nextPumpToken s) c) s1) j =
    if decide (j = i) then Some (set_pinnedToken (m_nextPumpToken s) c) else Find s j) as F.
  { intros j. unfold Find, store_ctx. simpl. case_decide; [subst|by rewrite list_lookup_insert_ne].
    apply list_lookup_insert_eq. by eapply Find_lt. }
  revert Hok. unfold wait_pred, FocusGateOpen, HasPopableEntry. simpl. destruct (m_stopRequested s); [done|]. simpl.
  destruct (sl_kind w); [done| |].
  - destruct (m_debugFocusContext s) as [f|]; [|done]. rewrite F. case_decide as Hf; [subst f; by rewrite Hc|done].
  - rewrite <- !not_true_iff_false. intros Hno Hp. apply Hno. revert Hp. apply existsb_mono. intros j _.
    rewrite F. case_decide as Hf; [subst j|done]. rewrite Hc. simpl. rewrite !orb_true_iff, !bool_decide_eq_true. lia.
Qed.

Create HintDb notify discriminated.
#[export] Hint Resolve notify_ok_all ParkIn_ok MarkFinished_ok MarkFailed_ok ParkForJoin_ok
  ParkForJoinAny_ok WakeForMutex_ok WakeForChanRecv_ok AbortPark_ok ParkContextFrames_ok
  ParkContextFramesSlice_ok Requeue_ok MarkRunnableHeld_ok WakeJoiners_ok ParkForTimer_ok
  ParkForIo_ok SetDebugFocusContext_ok ArmDebugFreezeGate_ok DisarmDebugFreezeGate_ok
  register_promise_ok PumpPin_enter_ok Observe_ok Deliver_ok : notify.

Lemma Ok_fst {A B} (p : A * B) a b : Ok p = Ok (a, b) → a = p.1.
Proof. by intros [= ->]. Qed.


(** ** Promises *)

(** A promise is decided once: the first completion wins and tells its caller so,
    every later one (normal or exceptional) changes nothing and says so, and whoever
    then asks the future gets the first value. *)
Theorem promise_first_wins s k i v c :
  Find s i = Some c → state c = ParkedPromise → distinct_dsts s →
  ∃ s1 k1, PromiseComplete s k i v = Ok (s1, k1, true) ∧
    (∀ k' v', PromiseComplete s1 k' i v' = Ok (s1, k', false)) ∧
    (∀ k' e, PromiseCompleteExceptionally s1 k' i e = Ok (s1, k', false)) ∧
    FutureIsDone s1 i = Ok 1 ∧
    (∀ k' self dst, currentContextId k' = Some self → self ≠ i →
      FutureGet s1 k' i dst = Ok (s1, k', JoinValue v)) ∧
    (∀ j cj d, Find s j = Some cj → j ≠ i → is_joiner i cj = true → joinResultDst cj = Some d →
      m_cells s1 !! d = Some v ∧ option_map state (Find s1 j) = Some Runnable).
Proof.
  intros Hc Hst Hd.
  destruct (MarkFinished s k i v) as [s0 k0] eqn:E0.
  exists (WakeJoiners (DeliverJoinResults s0 i v) i false), k0.
  set (s1 := WakeJoiners _ _ _).
  assert (finish_context s k i v = (s1, k0)) as Ef by (unfold finish_context; by rewrite E0).
  destruct (finish_context_aux s k i v c Hc ltac:(congruence) Hd) as (F1 & F2 & _).
  rewrite Ef in F1, F2. simpl in F1, F2. clearbody s1. split_and!.
  - unfold PromiseComplete. rewrite Hc, derefE, bindE, decide_True, E0 by done.
    unfold finish_context in Ef. rewrite E0 in Ef. by injection Ef as ->.
  - intros k' v'. unfold PromiseComplete. rewrite F1, derefE, bindE. by rewrite decide_False.
  - intros k' e. unfold PromiseCompleteExceptionally. rewrite F1, derefE, bindE. by rewrite decide_False.
  - unfold FutureIsDone. rewrite F1, derefE, bindE. by rewrite decide_True by (by left).
  - intros k' self dst Hk Hne. unfold FutureGet. rewrite F1, derefE, bindE, Hk, derefE, bindE.
    rewrite decide_False by done. by rewrite decide_True.
  - intros j cj d Hj Hne Ej Hdst. destruct (F2 j cj Hj Hne Ej) as [-> Hcell].
    split; [by apply Hcell|done].
Qed.

(** ** Witnesses and findings *)

(** A scheduler with the given contexts, queue and sleepers and nothing else. *)
Definition sched_with (cs : list ExecutionContext) (q : list nat) (focus : option nat)
    (sl : gmap Z sleeper) : VmScheduler :=
  {| m_contexts := cs; m_runQueue := q; m_timers := []; m_nextId := length cs;
     m_stopRequested := false; m_idleCarrierCount := 1; m_blockedNativeCount := 0;
     m_activeCarrierCount := 2; m_activePumpCount := 0; m_nextPumpToken := 4096;
     m_primaryThreadId := 100; m_auxDispatchCount := 0; m_affinityHits := 0;
     m_affinityMisses := 0; m_debugFocusContext := focus; m_debugFreezeDepth := 0;
     m_heldByCarrier := [None; None]; m_carrierCount := 2; m_ioWaits := [];
     m_sleepers := sl; m_cells := ∅ |}.
Definition ctx_in (i : nat) (st : ContextState) : ExecutionContext :=
  set_state st (ExecutionContext0 i).
Definition asleep (kind : WaitKind) : sleeper :=
  {| sl_kind := kind; sl_token := 0; sl_signaled := false |}.
Definition carrier (thread n : Z) (cur : option nat) : CarrierState :=
  {| installed := true; currentContextId := cur; carrierId := n; pumpToken := 0; threadId := thread |}.

Lemma one_sleeper_ok s kind :
  m_sleepers s = {[ 7 := asleep kind ]} → wait_pred s kind 0 = false → notify_ok s.
Proof. intros E Hp t w. rewrite E. intros [_ <-]%lookup_singleton_Some _. exact Hp. Qed.

(** Context 1 waits for context 0 with slot 50, context 2 in a select-any over it. *)
Definition join_state : VmScheduler :=
  sched_with [ctx_in 0 Runnable;
    set_framesParked true (set_joinResultDst (Some 50%nat) (ctx_in 1 ParkedJoin));
    set_framesParked true (set_parkHandle (-1) (set_selectAnyTargets [(3%nat, 0); (0%nat, 1)]
      (set_joinResultDst (Some 60%nat) (ctx_in 2 ParkedJoin))));
    ctx_in 3 ParkedPromise] [] None ∅.

Lemma join_state_dsts : distinct_dsts join_state.
Proof.
  intros j1 j2 c1 c2 d. unfold Find, join_state, sched_with. cbn [m_contexts].
  destruct j1 as [|[|[|[|?]]]], j2 as [|[|[|[|?]]]]; intros H1 H2; simplify_eq/=; intros; by simplify_eq.
Qed.

Lemma finish_context_spec_witness :
  m_runQueue (finish_context join_state (carrier 100 0 (Some 0%nat)) 0 42).1 = [1%nat; 2%nat] ∧
  m_cells (finish_context join_state (carrier 100 0 (Some 0%nat)) 0 42).1 !! 50%nat = Some 42.
Proof.
  destruct (finish_context_spec join_state (carrier 100 0 (Some 0%nat)) 0 42 (ctx_in 0 Runnable)
    eq_refl ltac:(discriminate) join_state_dsts) as (_ & H & _ & _ & Hq).
  destruct (H 1%nat _ eq_refl ltac:(discriminate) eq_refl) as [_ Hc].
  split; [exact Hq|]. exact (Hc 50%nat eq_refl).
Defined.

Lemma promise_first_wins_witness :
  ∃ s1 k1, PromiseComplete join_state (carrier 100 0 (Some 0%nat)) 3 42 = Ok (s1, k1, true).
Proof.
  destruct (promise_first_wins join_state (carrier 100 0 (Some 0%nat)) 3 42 (ctx_in 3 ParkedPromise)
    eq_refl eq_refl join_state_dsts) as (s1 & k1 & H & _). exists s1, k1. exact H.
Defined.

Definition timer_state : VmScheduler :=
  put_timers [{| contextId := 1; deadline := 30 |}; {| contextId := 0; deadline := 20 |};
              {| contextId := 2; deadline := 99 |}]
    (sched_with [set_framesParked true (ctx_in 0 ParkedTimer);
                 set_framesParked true (ctx_in 1 ParkedTimer); ctx_in 2 ParkedTimer] [] None ∅).

Lemma timer_state_nodup :
  NoDup (contextId <$> filter (λ t, timer_live timer_state t = true) (m_timers timer_state)).
Proof. vm_compute. repeat constructor; set_solver. Qed.

Lemma ExpireDueTimers_spec_witness :
  m_runQueue (ExpireDueTimers timer_state 50) = [0%nat; 1%nat] ∧
  m_timers (ExpireDueTimers timer_state 50) = [{| contextId := 2; deadline := 99 |}].
Proof.
  split; [vm_compute; reflexivity|].
  destruct (ExpireDueTimers_spec timer_state 50 timer_state_nodup) as (o & _ & _ & _ & H & _).
  exact H.
Defined.

Definition queue_state : VmScheduler :=
  sched_with [set_lastCarrier 1 (ctx_in 0 Runnable); set_lastCarrier 0 (ctx_in 1 Runnable)]
    [0%nat; 1%nat] None ∅.

Lemma queue_state_found i : i ∈ m_runQueue queue_state → is_Some (Find queue_state i).
Proof. simpl. intros [->|[->|H%not_elem_of_nil]%elem_of_cons]%elem_of_cons; [by eexists..|done]. Qed.

Lemma PopAffinity_spec_witness :
  ∃ s', PopAffinity queue_state (carrier 100 0 None) = Ok (s', Some 1%nat).
Proof.
  destruct (PopAffinity_spec queue_state (carrier 100 0 None) eq_refl queue_state_found)
    as (s' & r & H & _). exists s'. rewrite H. vm_compute in H. injection H as _ <-. reflexivity.
Defined.


(** The focus context of the debugger enters a blocking native: its gate opens, but
    nobody is told, so a carrier that waits at the gate sleeps on. *)
Theorem MarkBlockedNative_lost_wakeup :
  let s := sched_with [ctx_in 0 Runnable; ctx_in 1 Runnable] [1%nat] (Some 0%nat)
             {[ 7 := asleep WaitFocus ]} in
  notify_ok s ∧ FocusGateOpen s = false ∧
  FocusGateOpen (MarkBlockedNative s 0) = true ∧ HasPopableEntry (MarkBlockedNative s 0) 0 = true ∧
  ¬ notify_ok (MarkBlockedNative s 0).
Proof.
  intros s. split_and!; [|done..|].
  - by eapply one_sleeper_ok.
  - intros H. specialize (H 7 (asleep WaitFocus) eq_refl eq_refl). discriminate H.
Qed.

(** Closing a descriptor queues the contexts that wait on it without notifying. *)
Theorem WakeIoWaitersForFd_lost_wakeup :
  let s := put_ioWaits [{| io_contextId := 0; io_fd := 3; io_events := 1; io_deadline := 0;
                           io_hasDeadline := false |}]
             (sched_with [set_framesParked true (ctx_in 0 ParkedIo)] [] None
                {[ 7 := asleep WaitWork ]}) in
  notify_ok s ∧ m_runQueue (WakeIoWaitersForFd s 3) = [0%nat] ∧
  m_ioWaits (WakeIoWaitersForFd s 3) = [] ∧ ¬ notify_ok (WakeIoWaitersForFd s 3).
Proof.
  intros s. split_and!; [|vm_compute; reflexivity..|].
  - by eapply one_sleeper_ok.
  - intros H. specialize (H 7 (asleep WaitWork) eq_refl eq_refl). discriminate H.
Qed.

(** A pump inside a pump on one thread: when the inner one leaves, the thread's token
    is zero and not the outer one, so the outer pump can no longer take its own
    pinned context; nor can anybody else. *)
Theorem nested_pump_loses_outer_token s k i j ci :
  0 < m_nextPumpToken s → Find s i = Some ci → is_Some (Find s j) → i ≠ j →
  let '(s1, k1) := PumpPin_enter s k i in
  let '(s2, k2) := PumpPin_enter s1 k1 j in
  let '(s3, k3) := PumpPin_leave s2 k2 j in
  pinnedAway s1 (pumpToken k1) i = false ∧ pinnedAway s3 (pumpToken k3) i = true ∧
  pumpToken k3 = 0 ∧ m_activePumpCount s3 = m_activePumpCount s + 1.
Proof.
  intros Ht Hi [cj Hj] Hne. unfold PumpPin_enter, PumpPin_leave, AcquirePumpToken, PinContext.
  assert (∀ m, Find (put_activePumpCount (m_activePumpCount s + 1) (put_nextPumpToken
    (m_nextPumpToken s + 1) s)) m = Find s m) as -> by done.
  rewrite Hi. set (c1 := set_pinnedToken (m_nextPumpToken s) ci).
  set (s1 := store_ctx i c1 _).
  assert (Find s1 i = Some c1) as F1 by (apply list_lookup_insert_eq; by eapply Find_lt).
  assert (Find s1 j = Some cj) as F2.
  { unfold Find. simpl. rewrite list_lookup_insert_ne by done. exact Hj. }
  assert (∀ m, Find (put_activePumpCount (m_activePumpCount s1 + 1) (put_nextPumpToken
    (m_nextPumpToken s1 + 1) s1)) m = Find s1 m) as -> by done.
  rewrite F2. set (s2 := store_ctx j _ _).
  assert (is_Some (Find s2 j)) as [cj2 F3].
  { exists (set_pinnedToken (m_nextPumpToken s1) cj). apply list_lookup_insert_eq.
    by eapply (Find_lt s1). }
  rewrite F3. unfold ReleasePumpToken. split_and!; [| |done|simpl; lia].
  - unfold pinnedAway. rewrite F1. simpl. rewrite (bool_decide_true (m_nextPumpToken s = m_nextPumpToken s)) by done.
    apply andb_false_r.
  - unfold pinnedAway.
    assert (Find (notify_all (put_activePumpCount (m_activePumpCount (store_ctx j (set_pinnedToken 0 cj2) s2) - 1)
      (store_ctx j (set_pinnedToken 0 cj2) s2))) i = Some c1) as ->.
    { unfold Find. simpl. rewrite !list_lookup_insert_ne by done. exact F1. }
    simpl. rewrite !bool_decide_false by lia. done.
Qed.

Lemma nested_pump_loses_outer_token_witness :
  pinnedAway (PumpPin_leave (PumpPin_enter (PumpPin_enter queue_state (carrier 100 0 None) 0).1
    (PumpPin_enter queue_state (carrier 100 0 None) 0).2 1).1
    (PumpPin_enter (PumpPin_enter queue_state (carrier 100 0 None) 0).1
    (PumpPin_enter queue_state (carrier 100 0 None) 0).2 1).2 1).1 0 0 = true.
Proof.
  destruct (nested_pump_loses_outer_token queue_state (carrier 100 0 None) 0 1
    (set_lastCarrier 1 (ctx_in 0 Runnable)) eq_refl eq_refl (ex_intro _ _ eq_refl)
    ltac:(discriminate)) as (_ & H & _). exact H.
Defined.

(** Leaving a pump notifies the carriers that held back their deadlock report on its
    account, but a notified carrier only evaluates its wait's predicate and goes back
    to sleep: nobody reports the deadlock. *)
Theorem pump_leave_deadlock_unreported :
  let s := put_activePumpCount 1 (put_idleCarrierCount 2 (sched_with [ctx_in 0 ParkedMutex] [] None
             {[ 7 := asleep WaitWork ]})) in
  let s1 := (ReleasePumpToken s {| installed := false; currentContextId := None; carrierId := -1;
                                   pumpToken := 4096; threadId := 55 |}).1 in
  let k := carrier 7 0 None in
  deadlocked s1 k = true ∧
  ∃ s2, cv_wake s1 k = Ok (s2, k, Sleeping WaitWork).
Proof. split; [done|]. by eexists. Qed.

(** The affinity window does not promise progress to the head of the queue: while
    the carrier that ran context 0 last is busy, carrier 0 serves context 1, which
    yields, for ever; the queue is the same after every turn. *)
Theorem affinity_starves_head :
  let k := carrier 100 0 None in
  ∃ s1 s2 k1 s3 k2,
    PopAffinity queue_state k = Ok (s1, Some 1%nat) ∧
    DispatchedToCarrier s1 k 1 = Ok (s2, k1) ∧
    ParkContextFrames s2 k1 1 [] = (s3, k2) ∧
    m_runQueue s3 = m_runQueue queue_state ∧ m_contexts s3 = m_contexts queue_state ∧ k2 = k.
Proof. do 5 eexists. repeat (split; [vm_compute; reflexivity|]). vm_compute. reflexivity. Qed.

(** A reset clears the registry but keeps the I/O interests of the previous run: as
    long as one is left, no deadlock of the new run is reported; and when its
    descriptor fires, the context of the new run that has its id is woken from
    whatever I/O it waits for. *)
Theorem Reset_keeps_io_waits s k :
  m_ioWaits s ≠ [] →
  m_ioWaits (Reset s) = m_ioWaits s ∧ deadlocked (Reset s) k = false.
Proof.
  intros H. split; [done|]. unfold deadlocked. change (m_ioWaits (Reset s)) with (m_ioWaits s).
  rewrite (bool_decide_false (m_ioWaits s = [])) by done. by rewrite andb_false_r.
Qed.

Definition stale_interest : IoWaitEntry :=
  {| io_contextId := 0; io_fd := 3; io_events := 1; io_deadline := 0; io_hasDeadline := false |}.
Lemma Reset_keeps_io_waits_witness :
  deadlocked (Reset (put_ioWaits [stale_interest] queue_state)) (carrier 100 0 None) = false.
Proof.
  destruct (Reset_keeps_io_waits (put_ioWaits [stale_interest] queue_state) (carrier 100 0 None)
    ltac:(discriminate)) as [_ H]. exact H.
Defined.

Example stale_interest_wakes :
  let s := put_contexts [ctx_in 0 ParkedIo] (Reset (put_ioWaits [stale_interest] queue_state)) in
  option_map state (Find (HarvestIoEvents s {[ 3 := 1 ]} 0) 0) = Some Runnable.
Proof. reflexivity. Qed.
