(* ===== verification/ParkIface.v ===== *)
(** * The interface between blocking primitives and the parking protocol

    Mutexes, reentrant mutexes, semaphores and channels block a context in the same
    way: a call either completes, possibly handing something to contexts that wait, or
    registers a mailbox entry; the context then migrates its state under the
    scheduler lock and looks at its entry again.  Everything happens in critical
    sections of the Sync domain, which are functions of one slot.  [ParkPrim] is what
    the protocol of [ParkProto] uses of a slot, [ParkPrimLaws] what it relies on. *)
From S2P Require Import Prelude SchedState.
Open Scope Z_scope.

(** A context's mailbox entry: registered, answered before it parked (the two stamped
    phases of channels count as one), or parked. *)
Inductive mail := MPending | MStamped | MCommitted.
#[export] Instance mail_eq_dec : EqDecision mail.
Proof. solve_decision. Defined.

(** What a call comes to: it is done, with the parked contexts to wake afterwards (and
    the exception to arm on each, 0 for none) and whether the caller acquired the
    resource; or its entry is registered and it must park. *)
Inductive call_result :=
  | CallDone (wakes : list (nat * Z)) (acquired : bool)
  | CallPark.

Class ParkPrim (S Op : Type) := {
  pp_mail : S → nat → option mail;
  pp_call : S → nat → Op → outcome (S * call_result);
  pp_recheck : S → nat → outcome (S * bool);    (* true: the park is committed *)
  pp_state : S → Op → ContextState;
  pp_wf : S → Prop;
  pp_grant : S → nat → Prop;                    (* the context may consider itself inside *)
  pp_acquires : S → Op → bool;
  pp_releases : S → Op → bool;
}.

(** A completed call changes the mailboxes of others in two ways only. *)
Definition handed {S Op} `{ParkPrim S Op} (s s' : S) (ws : list (nat * Z)) (d : nat) : Prop :=
  ((d ∈ ws.*1) ∧ pp_mail s d = Some MCommitted ∧ pp_mail s' d = None ∧ pp_grant s' d) ∨
  ((d ∉ ws.*1) ∧ pp_mail s d = Some MPending ∧ pp_mail s' d = Some MStamped ∧ pp_grant s' d) ∨
  ((d ∉ ws.*1) ∧ pp_mail s' d = pp_mail s d).

(** The states of contexts parked on a primitive; every other parked state belongs to
    another waker (timers, joins, the I/O poller, static initialization). *)
Definition prim_states : list ContextState :=
  [ParkedMutex; ParkedSemaphore; ParkedChanRecv; ParkedChanSend].

Class ParkPrimLaws (S Op : Type) `{ParkPrim S Op} : Prop := {
  pp_state_parked s op : pp_state s op ∈ prim_states;
  pp_call_done s c op s' ws acq :
    pp_wf s → pp_mail s c = None → pp_call s c op = Ok (s', CallDone ws acq) →
    pp_wf s' ∧ pp_mail s' c = None ∧ NoDup ws.*1 ∧ (∀ d, handed s s' ws d) ∧
    (acq = true → pp_grant s' c) ∧
    (∀ d, d ≠ c ∨ pp_releases s op = false → pp_grant s d → pp_grant s' d);
  pp_call_park s c op s' :
    pp_wf s → pp_mail s c = None → pp_call s c op = Ok (s', CallPark) →
    pp_wf s' ∧ pp_mail s' c = Some MPending ∧ (∀ d, d ≠ c → pp_mail s' d = pp_mail s d) ∧
    (∀ d, pp_grant s d → pp_grant s' d);
  pp_recheck_spec s c m :
    pp_wf s → pp_mail s c = Some m → m ≠ MCommitted →
    ∃ s', pp_recheck s c = Ok (s', bool_decide (m = MPending)) ∧ pp_wf s' ∧
      pp_mail s' c = (if decide (m = MPending) then Some MCommitted else None) ∧
      (∀ d, d ≠ c → pp_mail s' d = pp_mail s d) ∧ (∀ d, pp_grant s d → pp_grant s' d);
}.

(** Two families of primitives side by side. *)
Section Sum.
  Context {A B Op1 Op2 : Type} `{ParkPrim A Op1} `{ParkPrim B Op2}.

#[export] Instance sum_prim : ParkPrim (A + B) (Op1 + Op2) := {
    pp_mail s c := match s with inl a => pp_mail a c | inr b => pp_mail b c end;
    pp_call s c op :=
      match s, op with
      | inl a, inl op => '(a, r) ← pp_call a c op; Ok (inl a, r)
      | inr b, inr op => '(b, r) ← pp_call b c op; Ok (inr b, r)
      | _, _ => Raise (RuntimeError "wrong kind of primitive")
      end;
    pp_recheck s c :=
      match s with
      | inl a => '(a, r) ← pp_recheck a c; Ok (inl a, r)
      | inr b => '(b, r) ← pp_recheck b c; Ok (inr b, r)
      end;
    pp_state s op :=
      match s, op with
      | inl a, inl op => pp_state a op
      | inr b, inr op => pp_state b op
      | _, _ => ParkedMutex
      end;
    pp_wf s := match s with inl a => pp_wf a | inr b => pp_wf b end;
    pp_grant s c := match s with inl a => pp_grant a c | inr b => pp_grant b c end;
    pp_acquires s op :=
      match s, op with
      | inl a, inl op => pp_acquires a op
      | inr b, inr op => pp_acquires b op
      | _, _ => false
      end;
    pp_releases s op :=
      match s, op with
      | inl a, inl op => pp_releases a op
      | inr b, inr op => pp_releases b op
      | _, _ => false
      end;
  }.

  Context `{!ParkPrimLaws A Op1} `{!ParkPrimLaws B Op2}.

#[export] Instance sum_laws : ParkPrimLaws (A + B) (Op1 + Op2).
  Proof.
    split.
    - intros [a|b] [op|op]; simpl; try apply pp_state_parked; left.
    - intros [a|b] c [op|op] s' ws acq; simpl; try done; intros Hwf Hm Hcall;
        apply bind_Ok in Hcall as ([? ?] & Hcall & [= <- ->]).
      + exact (pp_call_done a c op _ ws acq Hwf Hm Hcall).
      + exact (pp_call_done b c op _ ws acq Hwf Hm Hcall).
    - intros [a|b] c [op|op] s'; simpl; try done; intros Hwf Hm Hcall;
        apply bind_Ok in Hcall as ([? ?] & Hcall & [= <- ->]).
      + exact (pp_call_park a c op _ Hwf Hm Hcall).
      + exact (pp_call_park b c op _ Hwf Hm Hcall).
    - intros [a|b] c m; simpl; intros Hwf Hm Hne.
      + destruct (pp_recheck_spec a c m Hwf Hm Hne) as (s' & -> & H'). by exists (inl s').
      + destruct (pp_recheck_spec b c m Hwf Hm Hne) as (s' & -> & H'). by exists (inr s').
  Qed.
End Sum.
