(* ===== verification/SyncPrims.v ===== *)
(** * Synchronization primitives: mutexes, semaphores, atomic integers

    Models [IntrinsicsMutex.cpp], [IntrinsicsSemaphore.cpp] and [IntrinsicsAtomic.cpp].
    Each class keeps its objects in a side table of the executor; an instance holds a
    handle (index + 1).  Every operation is one or more critical sections of the Sync
    domain, a function of one slot here; the scheduler calls between them
    ([Sched.ParkForMutex], [Sched.AbortPark], [Sched.WakeForMutex]) are made by
    [ParkProto], which runs several carriers through these sections in any order.
    [allowed] is the answer of [EnsureSuspensionAllowed]; a context id is a [nat], the
    owner field a C++ [int] with -1 for nobody. *)
From S2P Require Import Prelude Heap SchedState ParkIface.
Open Scope Z_scope.

(** ** Side tables *)

(** [m_mutexStore] and its free list, and the same pair for every other class.  The
    head of [st_free] is the back of the C++ vector. *)
Record SideTable (A : Type) := { st_slots : list A; st_free : list Z }.
Arguments Build_SideTable {A}.
Arguments st_slots {A}.
Arguments st_free {A}.

(** [SyncMutexSlotAt] and its siblings. *)
Definition SlotAt {A} (t : SideTable A) (handle : Z) : option A :=
  if decide (handle ≤ 0 ∨ Z.of_nat (length (st_slots t)) < handle) then None
  else st_slots t !! Z.to_nat (handle - 1).

Definition set_slot {A} (handle : Z) (a : A) (t : SideTable A) : SideTable A :=
  {| st_slots := <[Z.to_nat (handle - 1) := a]> (st_slots t); st_free := st_free t |}.

(** A critical section on the slot of [handle]. *)
Definition at_slot {A B} (what : string) (t : SideTable A) (handle : Z)
    (section : A → outcome (A * B)) : outcome (SideTable A * B) :=
  match SlotAt t handle with
  | None => Raise (RuntimeError ("NLang VM: " +:+ what +:+ " call on an uninitialized instance"))
  | Some slot => '(slot, b) ← section slot; Ok (set_slot handle slot t, b)
  end.

(** [AllocMutexHandle] and its siblings: a recycled slot is reset, a new one is
    appended. *)
Definition AllocHandle {A} (init : A) (t : SideTable A) : SideTable A * Z :=
  match st_free t with
  | handle :: rest =>
      ({| st_slots := <[Z.to_nat (handle - 1) := init]> (st_slots t); st_free := rest |}, handle)
  | [] =>
      ({| st_slots := st_slots t ++ [init]; st_free := [] |},
       Z.of_nat (S (length (st_slots t))))
  end.

(** The sweep returns the handle of a dead instance. *)
Definition RecycleHandle {A} (handle : Z) (t : SideTable A) : SideTable A :=
  if decide (0 < handle) then {| st_slots := st_slots t; st_free := handle :: st_free t |} else t.

(** The receiver's [__handle], read from the heap before any lock is taken. *)
Definition ReadSyncPrimitiveHandle (h : heap) (thisIdx : Z) (callName : string) : outcome Z :=
  if decide (thisIdx ≤ 0 ∨ Z.of_nat (length (m_structHeap h)) ≤ thisIdx)
  then Raise (NlangExc ExcNullPtr ("NLang VM: null reference in " +:+ callName))
  else get_cell h thisIdx 1.

(** The constructors: the new handle goes into the instance. *)
Definition SyncCtor {A} (what : string) (init : A) (h : heap) (t : SideTable A) (thisIdx : Z) :
    outcome (heap * SideTable A) :=
  if decide (thisIdx ≤ 0 ∨ Z.of_nat (length (m_structHeap h)) ≤ thisIdx)
  then Raise (NlangExc ExcNullPtr ("NLang VM: null reference in " +:+ what +:+ " constructor"))
  else
    let '(t, handle) := AllocHandle init t in
    h ← set_cell h thisIdx 1 handle; Ok (h, t).

(** ** Waiters *)

Inductive WaiterPhase := kPending | kAcquired | kCommitted.
#[export] Instance WaiterPhase_eq_dec : EqDecision WaiterPhase.
Proof. solve_decision. Defined.

Record SyncWaiter := { sw_contextId : nat; sw_phase : WaiterPhase }.
#[export] Instance SyncWaiter_eq_dec : EqDecision SyncWaiter.
Proof. solve_decision. Defined.

(** The hand-off loop of unlock and release: the first entry that is not stamped.  A
    committed one is removed and must be woken, a pending one is stamped. *)
Fixpoint HandOff (waiters : list SyncWaiter) : list SyncWaiter * option (nat * bool) :=
  match waiters with
  | [] => ([], None)
  | w :: rest =>
      match sw_phase w with
      | kAcquired => let '(rest, next) := HandOff rest in (w :: rest, next)
      | kCommitted => (rest, Some (sw_contextId w, true))
      | kPending => ({| sw_contextId := sw_contextId w; sw_phase := kAcquired |} :: rest,
                     Some (sw_contextId w, false))
      end
  end.

(** The context to wake after the release of the domain. *)
Definition handoff_wake (next : option (nat * bool)) : option nat :=
  match next with Some (n, true) => Some n | _ => None end.

(** The recheck: a pending entry commits ([true], the park is requested), a stamp is
    consumed. *)
Fixpoint ConsumeSyncWaiterStamp (waiters : list SyncWaiter) (selfId : nat) :
    outcome (list SyncWaiter * bool) :=
  match waiters with
  | [] => Raise (RuntimeError "NLang VM: sync waiter entry vanished")
  | w :: rest =>
      if decide (sw_contextId w ≠ selfId) then
        '(rest, r) ← ConsumeSyncWaiterStamp rest selfId; Ok (w :: rest, r)
      else if decide (sw_phase w = kPending)
      then Ok ({| sw_contextId := selfId; sw_phase := kCommitted |} :: rest, true)
      else Ok (rest, false)
  end.

Definition SuspensionRefused : vm_error :=
  RuntimeError "NLang VM: cannot suspend inside a host call window with no active carrier".

(** ** Mutex *)

Record MutexSlot := { mx_ownerId : Z; mx_waiters : list SyncWaiter }.
Definition MutexSlot0 : MutexSlot := {| mx_ownerId := -1; mx_waiters := [] |}.

(** The registration section; [true]: registered, must park. *)
Definition MutexLock (selfId : nat) (allowed : bool) (slot : MutexSlot) : outcome (MutexSlot * bool) :=
  if decide (mx_ownerId slot < 0)
  then Ok ({| mx_ownerId := Z.of_nat selfId; mx_waiters := mx_waiters slot |}, false)
  else if allowed
  then Ok ({| mx_ownerId := mx_ownerId slot;
              mx_waiters := mx_waiters slot ++ [{| sw_contextId := selfId; sw_phase := kPending |}] |},
           true)
  else Raise SuspensionRefused.

Definition MutexTryLock (selfId : nat) (slot : MutexSlot) : outcome (MutexSlot * Z) :=
  if decide (mx_ownerId slot < 0)
  then Ok ({| mx_ownerId := Z.of_nat selfId; mx_waiters := mx_waiters slot |}, 1)
  else Ok (slot, 0).

(** The result is the context to wake. *)
Definition MutexUnlock (selfId : nat) (slot : MutexSlot) : outcome (MutexSlot * option nat) :=
  if decide (mx_ownerId slot ≠ Z.of_nat selfId)
  then Raise (RuntimeError "NLang VM: Mutex.unlock without holding the lock")
  else
    let '(waiters, next) := HandOff (mx_waiters slot) in
    Ok ({| mx_ownerId := match next with Some (n, _) => Z.of_nat n | None => -1 end;
           mx_waiters := waiters |}, handoff_wake next).

Definition ConsumeMutexParkStamp (selfId : nat) (slot : MutexSlot) : outcome (MutexSlot * bool) :=
  '(waiters, r) ← ConsumeSyncWaiterStamp (mx_waiters slot) selfId;
  Ok ({| mx_ownerId := mx_ownerId slot; mx_waiters := waiters |}, r).

(** ** Reentrant mutex *)

Record RMutexSlot := { rm_ownerId : Z; rm_count : Z; rm_waiters : list SyncWaiter }.
Definition RMutexSlot0 : RMutexSlot := {| rm_ownerId := -1; rm_count := 0; rm_waiters := [] |}.

Definition RMutexLock (selfId : nat) (allowed : bool) (slot : RMutexSlot) :
    outcome (RMutexSlot * bool) :=
  if decide (rm_ownerId slot = Z.of_nat selfId)
  then Ok ({| rm_ownerId := rm_ownerId slot; rm_count := i32 (rm_count slot + 1);
              rm_waiters := rm_waiters slot |}, false)
  else if decide (rm_ownerId slot < 0)
  then Ok ({| rm_ownerId := Z.of_nat selfId; rm_count := 1; rm_waiters := rm_waiters slot |}, false)
  else if allowed
  then Ok ({| rm_ownerId := rm_ownerId slot; rm_count := rm_count slot;
              rm_waiters := rm_waiters slot ++ [{| sw_contextId := selfId; sw_phase := kPending |}] |},
           true)
  else Raise SuspensionRefused.

Definition RMutexTryLock (selfId : nat) (slot : RMutexSlot) : outcome (RMutexSlot * Z) :=
  if decide (rm_ownerId slot = Z.of_nat selfId)
  then Ok ({| rm_ownerId := rm_ownerId slot; rm_count := i32 (rm_count slot + 1);
              rm_waiters := rm_waiters slot |}, 1)
  else if decide (rm_ownerId slot < 0)
  then Ok ({| rm_ownerId := Z.of_nat selfId; rm_count := 1; rm_waiters := rm_waiters slot |}, 1)
  else Ok (slot, 0).

Definition RMutexUnlock (selfId : nat) (slot : RMutexSlot) : outcome (RMutexSlot * option nat) :=
  if decide (rm_ownerId slot ≠ Z.of_nat selfId)
  then Raise (RuntimeError "NLang VM: ReentrantMutex.unlock without holding the lock")
  else
    let count := i32 (rm_count slot - 1) in
    if decide (0 < count)
    then Ok ({| rm_ownerId := rm_ownerId slot; rm_count := count; rm_waiters := rm_waiters slot |}, None)
    else
      let '(waiters, next) := HandOff (rm_waiters slot) in
      Ok ({| rm_ownerId := match next with Some (n, _) => Z.of_nat n | None => -1 end;
             rm_count := match next with Some _ => 1 | None => 0 end;
             rm_waiters := waiters |}, handoff_wake next).

Definition ConsumeRMutexParkStamp (selfId : nat) (slot : RMutexSlot) : outcome (RMutexSlot * bool) :=
  '(waiters, r) ← ConsumeSyncWaiterStamp (rm_waiters slot) selfId;
  Ok ({| rm_ownerId := rm_ownerId slot; rm_count := rm_count slot; rm_waiters := waiters |}, r).

(** ** Semaphore *)

Record SemaphoreSlot := { sem_count : Z; sem_waiters : list SyncWaiter }.

(** [slot = SemaphoreSlot(); slot.count = initialCount]. *)
Definition SemaphoreSlot0 (initialCount : Z) : SemaphoreSlot :=
  {| sem_count := initialCount; sem_waiters := [] |}.

Definition SemaphoreAcquire (selfId : nat) (allowed : bool) (slot : SemaphoreSlot) :
    outcome (SemaphoreSlot * bool) :=
  if decide (0 < sem_count slot)
  then Ok ({| sem_count := i32 (sem_count slot - 1); sem_waiters := sem_waiters slot |}, false)
  else if allowed
  then Ok ({| sem_count := sem_count slot;
              sem_waiters := sem_waiters slot ++ [{| sw_contextId := selfId; sw_phase := kPending |}] |},
           true)
  else Raise SuspensionRefused.

Definition SemaphoreRelease (slot : SemaphoreSlot) : SemaphoreSlot * option nat :=
  let '(waiters, next) := HandOff (sem_waiters slot) in
  ({| sem_count := match next with Some _ => sem_count slot | None => i32 (sem_count slot + 1) end;
      sem_waiters := waiters |}, handoff_wake next).

Definition SemaphoreTryAcquire (slot : SemaphoreSlot) : SemaphoreSlot * Z :=
  if decide (0 < sem_count slot)
  then ({| sem_count := i32 (sem_count slot - 1); sem_waiters := sem_waiters slot |}, 1)
  else (slot, 0).

Definition ConsumeSemaphoreParkStamp (selfId : nat) (slot : SemaphoreSlot) :
    outcome (SemaphoreSlot * bool) :=
  '(waiters, r) ← ConsumeSyncWaiterStamp (sem_waiters slot) selfId;
  Ok ({| sem_count := sem_count slot; sem_waiters := waiters |}, r).

(** The constructor refuses a negative count. *)
Definition SemaphoreCtor (h : heap) (t : SideTable SemaphoreSlot) (thisIdx initial : Z) :
    outcome (heap * SideTable SemaphoreSlot) :=
  if decide (thisIdx ≤ 0 ∨ Z.of_nat (length (m_structHeap h)) ≤ thisIdx)
  then Raise (NlangExc ExcNullPtr "NLang VM: null reference in Semaphore constructor")
  else if decide (initial < 0)
  then Raise (NlangExc ExcBase "semaphore initial permit count must be at least 0")
  else SyncCtor "Semaphore" (SemaphoreSlot0 initial) h t thisIdx.

(** ** Atomic integers

    One critical section each; the slot is its value.  Signed overflow wraps. *)
Inductive AtomicOp :=
  | ALoad | AStore (v : Z) | AGetAndSet (v : Z) | ACompareExchange (expect v : Z)
  | AGetAndAdd (d : Z) | AAddAndGet (d : Z) | AIncrementAndGet | AGetAndIncrement.

Definition AtomicIntLoad (value : Z) : Z * Z := (value, value).
Definition AtomicIntStore (v value : Z) : Z := v.
Definition AtomicIntGetAndSet (v value : Z) : Z * Z := (v, value).
Definition AtomicIntCompareExchange (expect v value : Z) : Z * Z :=
  if decide (value = expect) then (v, 1) else (value, 0).
Definition AtomicIntGetAndAdd (d value : Z) : Z * Z := (i32 (value + d), value).
Definition AtomicIntAddAndGet (d value : Z) : Z * Z :=
  let value := i32 (value + d) in (value, value).
Definition AtomicIntIncrementAndGet (value : Z) : Z * Z :=
  let value := i32 (value + 1) in (value, value).
Definition AtomicIntGetAndIncrement (value : Z) : Z * Z := (i32 (value + 1), value).

(** The family's entry: new value, and the result it writes (none for store). *)
Definition atomic_apply (op : AtomicOp) (value : Z) : Z * option Z :=
  let res := λ p : Z * Z, (p.1, Some p.2) in
  match op with
  | ALoad => res (AtomicIntLoad value)
  | AStore v => (AtomicIntStore v value, None)
  | AGetAndSet v => res (AtomicIntGetAndSet v value)
  | ACompareExchange expect v => res (AtomicIntCompareExchange expect v value)
  | AGetAndAdd d => res (AtomicIntGetAndAdd d value)
  | AAddAndGet d => res (AtomicIntAddAndGet d value)
  | AIncrementAndGet => res (AtomicIntIncrementAndGet value)
  | AGetAndIncrement => res (AtomicIntGetAndIncrement value)
  end.

Definition AtomicCall (h : heap) (t : SideTable Z) (thisIdx : Z) (op : AtomicOp) :
    outcome (SideTable Z * option Z) :=
  handle ← ReadSyncPrimitiveHandle h thisIdx "AtomicInt call";
  at_slot "AtomicInt" t handle (λ value, Ok (atomic_apply op value)).

(** The constructor is two steps: the allocation inside the Sync section, then the
    write of the initial value, through the store, outside of it. *)
Definition AtomicIntCtor_write (initial handle : Z) (t : SideTable Z) : SideTable Z :=
  set_slot handle initial t.
Definition AtomicIntCtor (h : heap) (t : SideTable Z) (thisIdx initial : Z) :
    outcome (heap * SideTable Z) :=
  if decide (thisIdx ≤ 0 ∨ Z.of_nat (length (m_structHeap h)) ≤ thisIdx)
  then Raise (NlangExc ExcNullPtr "NLang VM: null reference in AtomicInt constructor")
  else
    let '(t, handle) := AllocHandle 0 t in
    let t := AtomicIntCtor_write initial handle t in
    h ← set_cell h thisIdx 1 handle; Ok (h, t).
