(* ===== verification/SyncSpec.v ===== *)
(** * What the synchronization primitives guarantee, slot by slot

    The hand-off loop and the recheck as lemmas about mailboxes; mutexes, reentrant
    mutexes and semaphores as instances of [ParkIface.ParkPrim] with their laws; then
    the accounting of permits, of nested holds, of atomic increments, and the side
    tables. *)
From S2P Require Import Prelude Heap SchedState ParkIface SyncPrims.
Open Scope Z_scope.

(** ** Mailboxes *)

Definition mail_of (p : WaiterPhase) : mail :=
  match p with kPending => MPending | kAcquired => MStamped | kCommitted => MCommitted end.

Definition waiter_mail (ws : list SyncWaiter) (c : nat) : option mail :=
  mail_of ∘ sw_phase ∘ snd <$> list_find (λ w, sw_contextId w = c) ws.

Definition stamped (w : SyncWaiter) : Prop := sw_phase w = kAcquired.

Lemma waiter_mail_cons w ws c :
  waiter_mail (w :: ws) c =
    if decide (sw_contextId w = c) then Some (mail_of (sw_phase w)) else waiter_mail ws c.
Proof.
  unfold waiter_mail. simpl. case_decide; [done|].
  by destruct (list_find _ ws) as [[??]|].
Qed.

Lemma waiter_mail_app ws1 ws2 c :
  waiter_mail (ws1 ++ ws2) c =
    match waiter_mail ws1 c with Some m => Some m | None => waiter_mail ws2 c end.
Proof.
  induction ws1 as [|w ws1 IH]; [done|]. rewrite <- app_comm_cons, !waiter_mail_cons.
  by case_decide.
Qed.

Lemma waiter_mail_None ws c : waiter_mail ws c = None ↔ (c ∉ sw_contextId <$> ws).
Proof.
  induction ws as [|w ws IH]; [by split; [intros _ ?%not_elem_of_nil|]|].
  rewrite waiter_mail_cons, fmap_cons, not_elem_of_cons. case_decide; naive_solver.
Qed.

(** The hand-off takes the first live entry and leaves everything else in place. *)
Lemma HandOff_cases ws :
  (HandOff ws = (ws, None) ∧ Forall stamped ws) ∨
  ∃ dead w rest, ws = dead ++ w :: rest ∧ Forall stamped dead ∧
    ((sw_phase w = kCommitted ∧ HandOff ws = (dead ++ rest, Some (sw_contextId w, true))) ∨
     (sw_phase w = kPending ∧
      HandOff ws = (dead ++ {| sw_contextId := sw_contextId w; sw_phase := kAcquired |} :: rest,
                    Some (sw_contextId w, false)))).
Proof.
  induction ws as [|w ws IH]; [by left|]. cbn [HandOff].
  destruct (sw_phase w) eqn:Ew.
  - right. exists [], w, ws. naive_solver.
  - destruct IH as [[-> H]|(dead & v & rest & -> & Hd & H)]; [left; by auto|right].
    exists (w :: dead), v, rest. split_and!; [done|by constructor|].
    destruct H as [[? ->]|[? ->]]; [left|right]; done.
  - right. exists [], w, ws. naive_solver.
Qed.

Lemma HandOff_mail ws ws' next :
  NoDup (sw_contextId <$> ws) → HandOff ws = (ws', next) →
  NoDup (sw_contextId <$> ws') ∧
  match next with
  | None => ws' = ws ∧ Forall stamped ws
  | Some (n, woken) =>
      waiter_mail ws n = Some (if woken then MCommitted else MPending) ∧
      waiter_mail ws' n = (if woken then None else Some MStamped) ∧
      (∀ d, d ≠ n → waiter_mail ws' d = waiter_mail ws d)
  end.
Proof.
  intros N Hh. destruct (HandOff_cases ws) as [[E ?]|(dead & w & rest & -> & _ & H)].
  { rewrite Hh in E. by injection E as -> ->. }
  rewrite fmap_app, fmap_cons in N.
  assert (waiter_mail dead (sw_contextId w) = None) as Hdead.
  { apply waiter_mail_None. apply list.NoDup_app in N. set_solver. }
  assert (waiter_mail rest (sw_contextId w) = None) as Hrest.
  { apply waiter_mail_None. apply list.NoDup_app in N as (_ & _ & N). by apply list.NoDup_cons in N as []. }
  destruct H as [[Ew E]|[Ew E]]; rewrite Hh in E; injection E as -> ->.
  - split.
    { rewrite fmap_app. eapply sublist_NoDup; [exact N|].
      apply sublist_app; [done|]. by constructor. }
    split_and!.
    + by rewrite waiter_mail_app, Hdead, waiter_mail_cons, decide_True, Ew by done.
    + by rewrite waiter_mail_app, Hdead.
    + intros d Hd. rewrite !waiter_mail_app, waiter_mail_cons, decide_False by congruence. done.
  - split; [by rewrite fmap_app, fmap_cons|]. split_and!.
    + by rewrite waiter_mail_app, Hdead, waiter_mail_cons, decide_True, Ew by done.
    + by rewrite waiter_mail_app, Hdead, waiter_mail_cons, decide_True by done.
    + intros d Hd. rewrite !waiter_mail_app, !waiter_mail_cons. simpl.
      by rewrite !decide_False by congruence.
Qed.

(** Registration at the back. *)
Definition registered (ws : list SyncWaiter) (c : nat) : list SyncWaiter :=
  ws ++ [{| sw_contextId := c; sw_phase := kPending |}].

Lemma registered_mail ws c :
  NoDup (sw_contextId <$> ws) → waiter_mail ws c = None →
  NoDup (sw_contextId <$> registered ws c) ∧
  waiter_mail (registered ws c) c = Some MPending ∧
  (∀ d, d ≠ c → waiter_mail (registered ws c) d = waiter_mail ws d).
Proof.
  intros N Hc. unfold registered. split_and!.
  - rewrite fmap_app. apply list.NoDup_app. apply waiter_mail_None in Hc. split_and!; [done| |].
    + intros d Hd ->%list_elem_of_singleton. done.
    + apply NoDup_singleton.
  - rewrite waiter_mail_app, Hc, waiter_mail_cons. by rewrite decide_True.
  - intros d Hd. rewrite waiter_mail_app, waiter_mail_cons. simpl. rewrite decide_False by congruence.
    by destruct (waiter_mail ws d).
Qed.

(** The recheck finds the entry, whatever its phase. *)
Lemma ConsumeSyncWaiterStamp_mail ws c m :
  NoDup (sw_contextId <$> ws) → waiter_mail ws c = Some m → m ≠ MCommitted →
  ∃ ws', ConsumeSyncWaiterStamp ws c = Ok (ws', bool_decide (m = MPending)) ∧
    NoDup (sw_contextId <$> ws') ∧ (∀ d, d ∈ sw_contextId <$> ws' → d ∈ sw_contextId <$> ws) ∧
    waiter_mail ws' c = (if decide (m = MPending) then Some MCommitted else None) ∧
    (∀ d, d ≠ c → waiter_mail ws' d = waiter_mail ws d) ∧
    (Forall stamped ws → Forall stamped ws').
Proof.
  induction ws as [|w ws IH]; [done|]. rewrite waiter_mail_cons, fmap_cons.
  intros [Hw N]%list.NoDup_cons Hm Hne. cbn [ConsumeSyncWaiterStamp].
  destruct (decide (sw_contextId w = c)) as [<-|Ec].
  - rewrite decide_False by (by intros []). injection Hm as <-. apply waiter_mail_None in Hw.
    destruct (sw_phase w) eqn:Ep; try done.
    + eexists. split_and!; [done|..].
      * rewrite fmap_cons. apply list.NoDup_cons. split; [by apply waiter_mail_None|done].
      * done.
      * by rewrite waiter_mail_cons, decide_True.
      * intros d Hd. rewrite !waiter_mail_cons. simpl. by rewrite !decide_False by congruence.
      * intros Hs. apply Forall_cons_1 in Hs as [Hs _]. unfold stamped in Hs. congruence.
    + exists ws. split_and!; [done|done|by right|done|..].
      * intros d Hd. by rewrite waiter_mail_cons, decide_False by congruence.
      * intros Hs. by apply Forall_cons_1 in Hs as [_ ?].
  - rewrite decide_True by done.
    destruct (IH N Hm Hne) as (ws' & -> & N' & Hin & Hc & Ho & Hs). exists (w :: ws').
    rewrite bindE. split_and!; [done|..].
    + rewrite fmap_cons. apply list.NoDup_cons. split; [naive_solver|done].
    + intros d. rewrite fmap_cons, !elem_of_cons. naive_solver.
    + by rewrite waiter_mail_cons, decide_False.
    + intros d Hd. rewrite !waiter_mail_cons. destruct (decide (sw_contextId w = d)); [done|by apply Ho].
    + intros Hst. apply Forall_cons_1 in Hst as [? ?]. constructor; auto.
Qed.

Lemma live_stamped ws c m :
  waiter_mail ws c = Some m → m ≠ MStamped → ¬ Forall stamped ws.
Proof.
  intros Hm Hne Hall. apply fmap_Some in Hm as ([i w] & Hf & ->).
  apply list_find_Some in Hf as (Hi & _ & _). eapply Forall_lookup in Hall; [|exact Hi].
  unfold stamped in Hall. simpl in Hne. by rewrite Hall in Hne.
Qed.

Definition wake_list (o : option nat) : list (nat * Z) :=
  match o with Some n => [(n, 0)] | None => [] end.

(** What the hand-off does to every mailbox, in the form the interface asks for; the
    receiver is granted. *)
Lemma HandOff_handed {S Op} `{ParkPrim S Op} (s s' : S) ws ws' next :
  (∀ d, pp_mail s d = waiter_mail ws d) → (∀ d, pp_mail s' d = waiter_mail ws' d) →
  NoDup (sw_contextId <$> ws) → HandOff ws = (ws', next) →
  match next with Some (n, _) => pp_grant s' n | None => True end →
  let wakes := wake_list (handoff_wake next) in
  NoDup (sw_contextId <$> ws') ∧ (∀ c, waiter_mail ws c = None → waiter_mail ws' c = None) ∧
  NoDup wakes.*1 ∧ ∀ d, handed s s' wakes d.
Proof.
  intros Es Es' N Hh Hg. destruct (HandOff_mail _ _ _ N Hh) as [N' Hm]. split; [done|]. split.
  { intros c Hc. destruct next as [[n w]|]; [|by destruct Hm as [-> _]].
    destruct Hm as (H1 & _ & H3). rewrite H3; congruence. }
  split.
  { destruct next as [[n []]|]; simpl; [apply NoDup_singleton|constructor..]. }
  intros d. unfold handed. rewrite Es, Es'.
  destruct next as [[n woken]|]; simpl.
  - destruct Hm as (H1 & H2 & H3). destruct (decide (d = n)) as [->|Hd].
    + destruct woken; [left|right; left]; simpl; rewrite ?list_elem_of_singleton; try done.
      split_and!; try done. by intros ?%not_elem_of_nil.
    + right. right. split; [|by apply H3].
      destruct woken; simpl; rewrite ?list_elem_of_singleton; [done|by intros ?%not_elem_of_nil].
  - destruct Hm as [-> _]. right. right. split; [by intros ?%not_elem_of_nil|done].
Qed.

Lemma handed_same {S Op} `{ParkPrim S Op} (s s' : S) :
  (∀ d, pp_mail s' d = pp_mail s d) → ∀ d, handed s s' [] d.
Proof. intros E d. right. right. split; [by intros ?%not_elem_of_nil|apply E]. Qed.

(** ** The primitives as instances *)

(** Nobody else can answer to a mailbox of the caller. *)
Definition ids_ok (ws : list SyncWaiter) : Prop := NoDup (sw_contextId <$> ws).

Inductive MutexOp := OpLock (allowed : bool) | OpTryLock | OpUnlock.

#[export] Instance mutex_prim : ParkPrim MutexSlot MutexOp := {
  pp_mail s := waiter_mail (mx_waiters s);
  pp_call s c op :=
    match op with
    | OpLock allowed => '(s, park) ← MutexLock c allowed s;
                        Ok (s, if park : bool then CallPark else CallDone [] true)
    | OpTryLock => '(s, r) ← MutexTryLock c s; Ok (s, CallDone [] (bool_decide (r = 1)))
    | OpUnlock => '(s, w) ← MutexUnlock c s; Ok (s, CallDone (wake_list w) false)
    end;
  pp_recheck s c := ConsumeMutexParkStamp c s;
  pp_state _ _ := ParkedMutex;
  pp_wf s := ids_ok (mx_waiters s) ∧ -1 ≤ mx_ownerId s ∧
             (mx_ownerId s = -1 → Forall stamped (mx_waiters s));
  pp_grant s c := mx_ownerId s = Z.of_nat c;
  pp_acquires _ op := match op with OpLock _ | OpTryLock => true | OpUnlock => false end;
  pp_releases _ op := match op with OpUnlock => true | _ => false end;
}.

Inductive RMutexOp := ROpLock (allowed : bool) | ROpTryLock | ROpUnlock.

#[export] Instance rmutex_prim : ParkPrim RMutexSlot RMutexOp := {
  pp_mail s := waiter_mail (rm_waiters s);
  pp_call s c op :=
    match op with
    | ROpLock allowed => '(s, park) ← RMutexLock c allowed s;
                         Ok (s, if park : bool then CallPark else CallDone [] true)
    | ROpTryLock => '(s, r) ← RMutexTryLock c s; Ok (s, CallDone [] (bool_decide (r = 1)))
    | ROpUnlock => '(s, w) ← RMutexUnlock c s; Ok (s, CallDone (wake_list w) false)
    end;
  pp_recheck s c := ConsumeRMutexParkStamp c s;
  pp_state _ _ := ParkedMutex;
  pp_wf s := ids_ok (rm_waiters s) ∧ -1 ≤ rm_ownerId s ∧
             (rm_ownerId s = -1 → Forall stamped (rm_waiters s));
  pp_grant s c := rm_ownerId s = Z.of_nat c;
  pp_acquires _ op := match op with ROpLock _ | ROpTryLock => true | ROpUnlock => false end;
  pp_releases s op :=
    match op with ROpUnlock => bool_decide (i32 (rm_count s - 1) ≤ 0) | _ => false end;
}.

Inductive SemOp := OpAcquire (allowed : bool) | OpTryAcquire | OpRelease.

#[export] Instance semaphore_prim : ParkPrim SemaphoreSlot SemOp := {
  pp_mail s := waiter_mail (sem_waiters s);
  pp_call s c op :=
    match op with
    | OpAcquire allowed => '(s, park) ← SemaphoreAcquire c allowed s;
                           Ok (s, if park : bool then CallPark else CallDone [] true)
    | OpTryAcquire => let '(s, r) := SemaphoreTryAcquire s in
                      Ok (s, CallDone [] (bool_decide (r = 1)))
    | OpRelease => let '(s, w) := SemaphoreRelease s in Ok (s, CallDone (wake_list w) false)
    end;
  pp_recheck s c := ConsumeSemaphoreParkStamp c s;
  pp_state _ _ := ParkedSemaphore;
  pp_wf s := ids_ok (sem_waiters s) ∧ is_sint 32 (sem_count s) ∧
             (0 < sem_count s → Forall stamped (sem_waiters s));
  pp_grant _ _ := True;
  pp_acquires _ op := match op with OpAcquire _ | OpTryAcquire => true | OpRelease => false end;
  pp_releases _ op := match op with OpRelease => true | _ => false end;
}.

(** Registration, in the form the interface asks for. *)
Lemma stamped_app_dead ws ws' :
  Forall stamped ws → Forall stamped ws' → Forall stamped (ws ++ ws').
Proof. intros. by apply Forall_app. Qed.

Ltac open_section :=
  repeat match goal with
  | H : (if ?b then _ else _) = Ok _ |- _ => destruct b eqn:?; try discriminate H
  | H : (let '(_, _) := ?p in _) = _ |- _ => destruct p eqn:?
  | H : mbind _ _ = Ok _ |- _ => apply bind_Ok in H as (? & ? & ?)
  | H : Ok _ = Ok _ |- _ => injection H as H
  | H : Raise _ = Ok _ |- _ => discriminate H
  | p : _ * bool |- _ => destruct p
  | p : _ * Z |- _ => destruct p
  | p : _ * option nat |- _ => destruct p
  end; simplify_eq.

#[export] Instance mutex_laws : ParkPrimLaws MutexSlot MutexOp.
Proof.
  split.
  - intros s op. by apply (bool_decide_unpack _).
  - intros s c op s' ws acq (N & Ho & Hf) Hm Hcall. simpl in *.
    destruct op as [allowed| |]; unfold MutexLock, MutexTryLock, MutexUnlock in Hcall;
      open_section; simpl in *.
    + split_and!; try done; try lia; [constructor|by apply handed_same].
    + split_and!; try done; try lia; [constructor|by apply handed_same].
    + split_and!; try done; try lia; [constructor|by apply handed_same].
    + match goal with H : HandOff _ = _ |- _ => rename H into Hh end.
      match type of Hh with _ = (?l, ?nx) => rename nx into next; rename l into ws' end.
      destruct (HandOff_handed (H := mutex_prim) s {| mx_ownerId :=
          match next with Some (n, _) => Z.of_nat n | None => -1 end; mx_waiters := ws' |}
          (mx_waiters s) ws' next (λ d, eq_refl) (λ d, eq_refl) N Hh
          ltac:(by destruct next as [[? ?]|])) as (N' & Hc & Hnd & Hhd).
      split_and!; try done; try (by auto).
      * destruct next as [[? ?]|]; lia.
      * destruct (HandOff_mail _ _ _ N Hh) as [_ Hn].
        destruct next as [[? ?]|]; [lia|]. destruct Hn as [-> ?]. done.
      * intros d [Hd|?] Hg; [|done]. destruct Hd. lia.
  - intros s c op s' (N & Ho & Hf) Hm Hcall. simpl in *.
    destruct op as [allowed| |]; unfold MutexLock, MutexTryLock, MutexUnlock in Hcall;
      open_section; simpl in *.
    destruct (registered_mail _ _ N Hm) as (N' & H1 & H2).
    split_and!; try done. intros E. lia.
  - intros s c m (N & Ho & Hf) Hm Hne. simpl in *.
    destruct (ConsumeSyncWaiterStamp_mail _ _ _ N Hm Hne) as (ws' & E & N' & _ & H1 & H2 & H3).
    unfold ConsumeMutexParkStamp. rewrite E, bindE. eexists. split_and!; try done.
    simpl. auto.
Qed.

#[export] Instance rmutex_laws : ParkPrimLaws RMutexSlot RMutexOp.
Proof.
  split.
  - intros s op. by apply (bool_decide_unpack _).
  - intros s c op s' ws acq (N & Ho & Hf) Hm Hcall. simpl in *.
    destruct op as [allowed| |]; unfold RMutexLock, RMutexTryLock, RMutexUnlock in Hcall;
      open_section; simpl in *.
    1-5: split_and!; try done; try lia; [constructor|by apply handed_same].
    + split_and!; try done; [constructor|by apply handed_same].
    + match goal with H : HandOff _ = _ |- _ => rename H into Hh end.
      match type of Hh with _ = (?l, ?nx) => rename nx into next; rename l into ws' end.
      destruct (HandOff_handed (H := rmutex_prim) s {|
          rm_ownerId := match next with Some (n, _) => Z.of_nat n | None => -1 end;
          rm_count := match next with Some _ => 1 | None => 0 end; rm_waiters := ws' |}
          (rm_waiters s) ws' next (λ d, eq_refl) (λ d, eq_refl) N Hh
          ltac:(by destruct next as [[? ?]|])) as (N' & Hc & Hnd & Hhd).
      split_and!; try done; try (by auto).
      * destruct next as [[? ?]|]; lia.
      * destruct (HandOff_mail _ _ _ N Hh) as [_ Hn].
        destruct next as [[? ?]|]; [lia|]. destruct Hn as [-> ?]. done.
      * intros d [Hd|Hr] Hg; [destruct Hd; lia|].
        apply bool_decide_eq_false in Hr. lia.
  - intros s c op s' (N & Ho & Hf) Hm Hcall. simpl in *.
    destruct op as [allowed| |]; unfold RMutexLock, RMutexTryLock, RMutexUnlock in Hcall;
      open_section; simpl in *.
    destruct (registered_mail _ _ N Hm) as (N' & H1 & H2).
    split_and!; try done. intros E. lia.
  - intros s c m (N & Ho & Hf) Hm Hne. simpl in *.
    destruct (ConsumeSyncWaiterStamp_mail _ _ _ N Hm Hne) as (ws' & E & N' & _ & H1 & H2 & H3).
    unfold ConsumeRMutexParkStamp. rewrite E, bindE. eexists. split_and!; try done.
    simpl. auto.
Qed.

#[export] Instance semaphore_laws : ParkPrimLaws SemaphoreSlot SemOp.
Proof.
  split.
  - intros s op. by apply (bool_decide_unpack _).
  - intros s c op s' ws acq (N & Hr & Hf) Hm Hcall. simpl in *.
    destruct op as [allowed| |]; unfold SemaphoreAcquire, SemaphoreTryAcquire, SemaphoreRelease in Hcall.
    + open_section; simpl in *. split_and!; try done; [| |constructor|by apply handed_same].
      * by apply swrap_range.
      * intros _. by apply Hf.
    + open_section; simpl in *. case_decide; simplify_eq; simpl.
      * split_and!; try done; [by apply swrap_range|by auto|constructor|by apply handed_same].
      * split_and!; try done; try apply Hr; [constructor|by apply handed_same].
    + open_section; simpl in *. match goal with H : HandOff _ = _ |- _ => rename H into Hh end.
      match type of Hh with _ = (?l, ?nx) => rename nx into next; rename l into ws' end.
      destruct (HandOff_handed (H := semaphore_prim) s {|
          sem_count := match next with Some _ => sem_count s | None => i32 (sem_count s + 1) end;
          sem_waiters := ws' |}
          (sem_waiters s) ws' next (λ d, eq_refl) (λ d, eq_refl) N Hh
          ltac:(by destruct next as [[? ?]|])) as (N' & Hc & Hnd & Hhd).
      split_and!; try done; try (by auto).
      * destruct next; [done|by apply swrap_range].
      * destruct (HandOff_mail _ _ _ N Hh) as [_ Hn].
        destruct next as [[n w]|]; [|by destruct Hn as [-> ?]].
        intros Hpos. specialize (Hf Hpos). destruct Hn as [Hn _].
        by apply live_stamped in Hn; [|by destruct w].
  - intros s c op s' (N & Hr & Hf) Hm Hcall. simpl in *.
    destruct op as [allowed| |]; unfold SemaphoreAcquire, SemaphoreTryAcquire, SemaphoreRelease in Hcall;
      open_section; simpl in *.
    destruct (registered_mail _ _ N Hm) as (N' & H1 & H2).
    split_and!; try done; apply Hr.
  - intros s c m (N & Hr & Hf) Hm Hne. simpl in *.
    destruct (ConsumeSyncWaiterStamp_mail _ _ _ N Hm Hne) as (ws' & E & N' & _ & H1 & H2 & H3).
    unfold ConsumeSemaphoreParkStamp. rewrite E, bindE. eexists. split_and!; try done; try apply Hr.
    simpl. auto.
Qed.

(** ** Semaphores: permits and their order

    A history of one semaphore: any calls and rechecks of any contexts, each observed
    by what it does to permits. *)
Inductive sem_obs :=
  | STook                 (* a permit left the counter *)
  | SParked (c : nat)     (* [c] joined the line *)
  | SHanded (c : nat)     (* a released permit went straight to [c] *)
  | SBanked               (* a released permit went into the counter *)
  | SOther.

Inductive sem_step (s : SemaphoreSlot) : sem_obs → SemaphoreSlot → Prop :=
  | sem_acquire c allowed s' :
      SemaphoreAcquire c allowed s = Ok (s', false) → sem_step s STook s'
  | sem_park c allowed s' :
      SemaphoreAcquire c allowed s = Ok (s', true) → sem_step s (SParked c) s'
  | sem_try s' r :
      SemaphoreTryAcquire s = (s', r) → sem_step s (if decide (r = 1) then STook else SOther) s'
  | sem_release s' wake :
      SemaphoreRelease s = (s', wake) →
      sem_step s (match (HandOff (sem_waiters s)).2 with Some (n, _) => SHanded n | None => SBanked end) s'
  | sem_recheck c s' b :
      waiter_mail (sem_waiters s) c ≠ Some MCommitted →
      ConsumeSemaphoreParkStamp c s = Ok (s', b) → sem_step s SOther s'.

Inductive sem_runs (s : SemaphoreSlot) : list sem_obs → SemaphoreSlot → Prop :=
  | sem_runs_nil : sem_runs s [] s
  | sem_runs_snoc l s1 o s2 : sem_runs s l s1 → sem_step s1 o s2 → sem_runs s (l ++ [o]) s2.

(** The contexts in line, first come first. *)
Definition line (ws : list SyncWaiter) : list nat :=
  sw_contextId <$> filter (λ w, sw_phase w ≠ kAcquired) ws.

Definition parked_in (l : list sem_obs) : list nat :=
  omap (λ o, match o with SParked c => Some c | _ => None end) l.
Definition handed_in (l : list sem_obs) : list nat :=
  omap (λ o, match o with SHanded c => Some c | _ => None end) l.
Definition took_in (l : list sem_obs) : list nat :=
  omap (λ o, match o with STook => Some 0%nat | _ => None end) l.
Definition banked_in (l : list sem_obs) : list nat :=
  omap (λ o, match o with SBanked => Some 0%nat | _ => None end) l.

Lemma line_app ws1 ws2 : line (ws1 ++ ws2) = line ws1 ++ line ws2.
Proof. unfold line. by rewrite list.filter_app, fmap_app. Qed.
Lemma line_cons w ws :
  line (w :: ws) = (if decide (sw_phase w ≠ kAcquired) then [sw_contextId w] else []) ++ line ws.
Proof. unfold line. rewrite filter_cons. by case_decide. Qed.
Lemma line_stamped ws : Forall stamped ws → line ws = [].
Proof.
  induction 1 as [|w ws Hw _ IH]; [done|]. rewrite line_cons, IH, decide_False; [done|].
  intros []. exact Hw.
Qed.

(** The hand-off serves the head of the line; the recheck moves nobody. *)
Lemma HandOff_line ws :
  line ws = match (HandOff ws).2 with Some (n, _) => [n] | None => [] end ++ line (HandOff ws).1.
Proof.
  destruct (HandOff_cases ws) as [[-> H]|(dead & w & rest & -> & Hd & [[Ew ->]|[Ew ->]])]; [done|..].
  - simpl. rewrite !line_app, (line_stamped dead Hd), line_cons, decide_True by congruence. done.
  - simpl. rewrite !line_app, (line_stamped dead Hd), !line_cons, decide_True by congruence.
    done.
Qed.

Lemma Consume_line ws c ws' b :
  waiter_mail ws c ≠ Some MCommitted →
  ConsumeSyncWaiterStamp ws c = Ok (ws', b) → line ws' = line ws.
Proof.
  revert ws' b. induction ws as [|w ws IH]; intros ws' b; [done|].
  rewrite waiter_mail_cons. cbn [ConsumeSyncWaiterStamp].
  destruct (decide (sw_contextId w = c)) as [<-|Ec].
  - rewrite decide_False by (by intros []). intros Hm.
    destruct (decide (sw_phase w = kPending)) as [Ep|Ep]; intros [= <- <-]; rewrite !line_cons; simpl.
    + by rewrite Ep, !decide_True by done.
    + rewrite decide_False; [done|]. intros Ha. by destruct (sw_phase w).
  - rewrite decide_True by done. intros Hm Hrun. monad_inv.
    rewrite !line_cons. f_equal. by eapply IH.
Qed.

Lemma HandOff_granted ws : (HandOff ws).2 = None → line ws = [].
Proof. intros H. rewrite HandOff_line, H. destruct (HandOff_cases ws) as [[E Hs]|(? & ? & ? & ? & ? & [[_ E]|[_ E]])].
  - rewrite E. by apply line_stamped.
  - by rewrite E in H.
  - by rewrite E in H.
Qed.

(** One step of the account. *)
Lemma sem_step_account s o s' :
  sem_step s o s' → 0 ≤ sem_count s → sem_count s + Z.of_nat (length (banked_in [o])) < 2 ^ 31 →
  (line (sem_waiters s) ≠ [] → sem_count s = 0) →
  0 ≤ sem_count s' ∧ (line (sem_waiters s') ≠ [] → sem_count s' = 0) ∧
  sem_count s' + Z.of_nat (length (took_in [o])) = sem_count s + Z.of_nat (length (banked_in [o])) ∧
  handed_in [o] ++ line (sem_waiters s') = line (sem_waiters s) ++ parked_in [o].
Proof.
  intros Hstep H0 Hmax Hl.
  assert (sem_count s + 1 < 2 ^ 31 → i32 (sem_count s + 1) = sem_count s + 1) as Hinc
    by (intros; apply swrap_small; [done|unfold is_sint; lia]).
  assert (i32 (sem_count s - 1) = sem_count s - 1) as Hdec
    by (intros; apply swrap_small; [done|unfold is_sint; lia]).
  destruct Hstep as [c al s' H|c al s' H|s' r H|s' wake H|c s' b Hm H].
  - unfold SemaphoreAcquire in H. open_section. simpl. rewrite Hdec, app_nil_r.
    split_and!; try lia; try done. intros Hne. specialize (Hl Hne). lia.
  - unfold SemaphoreAcquire in H. open_section. simpl.
    rewrite line_app. split_and!; try done; lia.
  - unfold SemaphoreTryAcquire in H. destruct (decide (0 < sem_count s)); simplify_eq; simpl; rewrite ?app_nil_r.
    + rewrite Hdec. split_and!; try lia; try done. intros Hne. specialize (Hl Hne). lia.
    + split_and!; try done; lia.
  - unfold SemaphoreRelease in H. pose proof (HandOff_line (sem_waiters s)) as Hline.
    pose proof (HandOff_granted (sem_waiters s)) as Hnone.
    destruct (HandOff (sem_waiters s)) as [ws' next]. injection H as <- <-. simpl in *.
    destruct next as [[n w]|]; simpl in *; rewrite ?app_nil_r.
    + split_and!; try done; try lia. intros _. apply Hl. by rewrite Hline.
    + rewrite Hinc by lia. split_and!; try done; try lia. by rewrite <- Hline, Hnone.
  - unfold ConsumeSemaphoreParkStamp in H. open_section. simpl. rewrite app_nil_r.
    erewrite Consume_line by done. split_and!; try done; lia.
Qed.


(** [Semaphore(2147483647).release()]: the increment of the counter has no test, and the
    semaphore with the most permits has a negative number of them. *)
Lemma release_overflows : (SemaphoreRelease (SemaphoreSlot0 INT32_MAX)).1 = {| sem_count := INT32_MIN; sem_waiters := [] |}.
Proof. by vm_compute. Qed.


(** ** Reentrant mutexes: nested holds *)

(** [n] calls in a row by one context. *)
Fixpoint rm_locks (selfId n : nat) (slot : RMutexSlot) : outcome RMutexSlot :=
  match n with
  | O => Ok slot
  | S n => '(slot, park) ← RMutexLock selfId true slot;
           if park : bool then Raise (RuntimeError "parked") else rm_locks selfId n slot
  end.
Fixpoint rm_unlocks (selfId n : nat) (slot : RMutexSlot) : outcome (RMutexSlot * list nat) :=
  match n with
  | O => Ok (slot, [])
  | S n => '(slot, w) ← RMutexUnlock selfId slot;
           '(slot, l) ← rm_unlocks selfId n slot;
           Ok (slot, match w with Some c => c :: l | None => l end)
  end.

Lemma rm_locks_owner c n : ∀ s,
  rm_ownerId s = Z.of_nat c → 1 ≤ rm_count s → rm_count s + Z.of_nat n < 2 ^ 31 →
  rm_locks c n s =
    Ok {| rm_ownerId := rm_ownerId s; rm_count := rm_count s + Z.of_nat n; rm_waiters := rm_waiters s |}.
Proof.
  induction n as [|n IH]; intros s Ho H1 H2; cbn [rm_locks].
  { rewrite Z.add_0_r. by destruct s. }
  unfold RMutexLock. rewrite decide_True, bindE by done.
  rewrite swrap_small by (try done; unfold is_sint; lia). rewrite IH; simpl; [|done|lia|lia].
  do 2 f_equal. lia.
Qed.

Lemma rm_unlocks_owner c n : ∀ s,
  rm_ownerId s = Z.of_nat c → Z.of_nat n < rm_count s → rm_count s < 2 ^ 31 →
  rm_unlocks c n s =
    Ok ({| rm_ownerId := rm_ownerId s; rm_count := rm_count s - Z.of_nat n; rm_waiters := rm_waiters s |}, []).
Proof.
  induction n as [|n IH]; intros s Ho H1 H2; cbn [rm_unlocks].
  { rewrite Z.sub_0_r. by destruct s. }
  unfold RMutexUnlock. rewrite decide_False by (by intros []). cbn zeta.
  rewrite swrap_small by (try done; unfold is_sint; lia).
  rewrite decide_True, bindE by lia. rewrite IH; simpl; [|done|lia|lia].
  do 3 f_equal. lia.
Qed.

(** Nested holds balance.  A context that takes a free reentrant mutex [n + 1]
    times is never parked; while it has released fewer times than it locked, it stays
    the owner and nobody is woken; the last release passes the mutex on, to the first
    context in line with a fresh count of 1, or to nobody. *)
Theorem rmutex_nesting c n m s :
  rm_ownerId s < 0 → Z.of_nat n + 1 < 2 ^ 31 → (m ≤ n)%nat →
  ∃ s1, rm_locks c (S n) s = Ok s1 ∧ rm_ownerId s1 = Z.of_nat c ∧
    (∃ s2, rm_unlocks c m s1 = Ok (s2, []) ∧ rm_ownerId s2 = Z.of_nat c) ∧
    ∃ s3 l, rm_unlocks c (S n) s1 = Ok (s3, l) ∧
      match line (rm_waiters s) with
      | d :: rest => rm_ownerId s3 = Z.of_nat d ∧ rm_count s3 = 1 ∧ line (rm_waiters s3) = rest
      | [] => rm_ownerId s3 = -1 ∧ rm_count s3 = 0
      end.
Proof.
  intros Ho Hn Hm. cbn [rm_locks].
  unfold RMutexLock at 1. rewrite decide_False, decide_True, bindE by lia.
  rewrite rm_locks_owner by (simpl; lia). eexists. split_and!; [done|done|..].
  { rewrite rm_unlocks_owner by (simpl; lia). by eexists. }
  replace (S n) with (n + 1)%nat by lia.
  assert (∀ k j s, rm_unlocks c (k + j) s =
    '(s, l) ← rm_unlocks c k s; '(s, l') ← rm_unlocks c j s; Ok (s, l ++ l')) as Happ.
  { induction k as [|k IH]; intros j t; cbn [rm_unlocks Nat.add].
    - rewrite bindE. by destruct (rm_unlocks c j t) as [[? ?]|].
    - destruct (RMutexUnlock c t) as [[t1 w]|e]; [|done]. rewrite !bindE, IH.
      destruct (rm_unlocks c k t1) as [[t2 l]|e]; [|done]. rewrite !bindE.
      destruct (rm_unlocks c j t2) as [[t3 l']|e]; [|done]. rewrite !bindE. by destruct w. }
  rewrite Happ, rm_unlocks_owner, bindE by (simpl; lia). cbn [rm_unlocks rm_count rm_ownerId rm_waiters].
  unfold RMutexUnlock. simpl rm_count. simpl rm_ownerId. simpl rm_waiters.
  rewrite decide_False by (by intros []). cbn zeta.
  replace (1 + Z.of_nat n - Z.of_nat n - 1) with 0 by lia.
  rewrite decide_False by (vm_compute; done).
  pose proof (HandOff_line (rm_waiters s)) as Hline.
  pose proof (HandOff_granted (rm_waiters s)) as Hnone.
  destruct (HandOff (rm_waiters s)) as [ws' next] eqn:E. rewrite !bindE. eexists _, _. split; [done|].
  simpl in *. destruct next as [[d w]|]; [by rewrite Hline|by rewrite Hnone].
Qed.

Lemma rmutex_nesting_witness :
  ∃ s1, rm_locks 4 3 {| rm_ownerId := -1; rm_count := 0; rm_waiters := [] |} = Ok s1 ∧
        rm_ownerId s1 = 4.
Proof.
  destruct (rmutex_nesting 4 2 1 {| rm_ownerId := -1; rm_count := 0; rm_waiters := [] |})
    as (s1 & H & Ho & _); [vm_compute; done|vm_compute; done|lia|].
  by exists s1.
Defined.

(** ** Atomic integers: increments are tickets *)

(** Any sequence of calls, by anybody; the results in order. *)
Fixpoint atomic_run (ops : list AtomicOp) (value : Z) : Z * list (option Z) :=
  match ops with
  | [] => (value, [])
  | op :: ops =>
      let '(value, r) := atomic_apply op value in
      let '(value, rs) := atomic_run ops value in (value, r :: rs)
  end.

(** What an operation of the adding family adds; [None] for the others. *)
Definition atomic_delta (op : AtomicOp) : option Z :=
  match op with
  | ALoad => Some 0
  | AGetAndAdd d | AAddAndGet d => Some d
  | AIncrementAndGet | AGetAndIncrement => Some 1
  | _ => None
  end.

Definition sumZ (l : list Z) : Z := foldr Z.add 0 l.

Lemma i32_add a b : i32 (i32 a + b) = i32 (a + b).
Proof. unfold swrap. f_equal. rewrite <- Zplus_mod_idemp_l, <- (Zplus_mod_idemp_l (a + b)).
  rewrite (Zplus_mod ((a + 2 ^ (32 - 1)) mod 2 ^ 32 - 2 ^ (32 - 1)) b).
  rewrite Zminus_mod_idemp_l. replace (a + 2 ^ (32 - 1) - 2 ^ (32 - 1)) with a by lia.
  by rewrite <- Zplus_mod.
Qed.

(** No update of the adding family is lost, whatever the interleaving. *)
Lemma atomic_adds ops ds value :
  mapM atomic_delta ops = Some ds → is_sint 32 value →
  (atomic_run ops value).1 = i32 (value + sumZ ds).
Proof.
  revert ds value. induction ops as [|op ops IH]; intros ds value Hm Hv; simpl in Hm.
  { injection Hm as <-. simpl. rewrite Z.add_0_r. symmetry. by apply swrap_small. }
  apply bind_Some in Hm as (d & Hd & Hm). apply bind_Some in Hm as (ds' & Hds & [= <-]).
  assert (fst (atomic_apply op value) = i32 (value + d)) as E.
  { destruct op; simpl in *; simplify_eq; try done. rewrite Z.add_0_r. symmetry. by apply swrap_small. }
  cbn [atomic_run]. destruct (atomic_apply op value) as [v r]. simpl in E. subst v.
  specialize (IH ds' (i32 (value + d)) Hds (swrap_range 32 _ ltac:(lia))).
  destruct (atomic_run ops (i32 (value + d))) as [v rs]. simpl in *. subst v.
  rewrite i32_add. f_equal. lia.
Qed.

Lemma i32_inj_near a b : i32 a = i32 b → Z.abs (a - b) < 2 ^ 32 → a = b.
Proof.
  unfold swrap. intros H Hab.
  assert ((a + 2 ^ (32 - 1)) mod 2 ^ 32 = (b + 2 ^ (32 - 1)) mod 2 ^ 32) as E by lia.
  pose proof (Z_div_mod_eq_full (a + 2 ^ (32 - 1)) (2 ^ 32)).
  pose proof (Z_div_mod_eq_full (b + 2 ^ (32 - 1)) (2 ^ 32)).
  rewrite E in *. change (2 ^ 32) with 4294967296 in *. change (2 ^ (32 - 1)) with 2147483648 in *.
  nia.
Qed.

Lemma tickets_results n : ∀ value,
  is_sint 32 value →
  (atomic_run (replicate n AGetAndIncrement) value).2 =
    (λ k, Some (i32 (value + Z.of_nat k))) <$> seq 0 n.
Proof.
  induction n as [|n IH]; intros value Hv; [done|]. cbn [replicate atomic_run atomic_apply].
  unfold AtomicIntGetAndIncrement. cbn [fst snd].
  specialize (IH (i32 (value + 1)) (swrap_range 32 _ ltac:(lia))).
  destruct (atomic_run _ _) as [v rs]. cbn [snd fst] in *. rewrite IH.
  cbn [seq]. rewrite fmap_cons. f_equal.
  - f_equal. rewrite Z.add_0_r. symmetry. by apply swrap_small.
  - rewrite <- fmap_S_seq, <- list_fmap_compose. apply list_fmap_ext. intros i k _. simpl.
    f_equal. rewrite i32_add. f_equal. lia.
Qed.

(** Tickets are unique.  Up to [2 ^ 32] calls of [getAndIncrement], by any
    contexts in any order, return pairwise different values, and no increment is
    lost, although the counter wraps around. *)
Theorem atomic_tickets_unique n value :
  is_sint 32 value → Z.of_nat n ≤ 2 ^ 32 →
  NoDup (atomic_run (replicate n AGetAndIncrement) value).2 ∧
  (atomic_run (replicate n AGetAndIncrement) value).1 = i32 (value + Z.of_nat n).
Proof.
  intros Hv Hn. split.
  - rewrite (tickets_results n value Hv). apply NoDup_fmap_2_strong; [|apply NoDup_seq].
    intros i j Hi Hj [= E]. apply elem_of_seq in Hi, Hj.
    apply i32_inj_near in E; lia.
  - rewrite (atomic_adds _ (replicate n 1)); [|clear|done].
    + do 2 f_equal. clear. induction n as [|n IH]; [done|]. cbn [replicate]. simpl. lia.
    + induction n as [|n IH]; [done|]. cbn [replicate]. simpl. by rewrite IH.
Qed.

Lemma atomic_tickets_unique_witness :
  NoDup (atomic_run (replicate 3 AGetAndIncrement) 2147483646).2 ∧
  (atomic_run (replicate 3 AGetAndIncrement) 2147483646).1 = -2147483647.
Proof.
  destruct (atomic_tickets_unique 3 2147483646) as [H1 H2]; [vm_compute; done|vm_compute; done|].
  split; [exact H1|exact H2].
Defined.

(** ** Side tables: handles *)

Section Table.
  Context {A : Type}.
  Implicit Types (t : SideTable A) (handle : Z).

Definition handle_ok t handle : Prop := 1 ≤ handle ≤ Z.of_nat (length (st_slots t)).
Definition table_wf t : Prop := NoDup (st_free t) ∧ Forall (handle_ok t) (st_free t).
(** In use: the object of some instance. *)
Definition in_use t handle : Prop := handle_ok t handle ∧ (handle ∉ st_free t).

Lemma SlotAt_ok t handle : is_Some (SlotAt t handle) ↔ handle_ok t handle.
Proof.
  unfold SlotAt, handle_ok. case_decide as H; [split; [by intros []|lia]|].
  rewrite lookup_lt_is_Some. lia.
Qed.

Lemma SlotAt_None t handle : SlotAt t handle = None ↔ ¬ handle_ok t handle.
Proof. by rewrite <- SlotAt_ok, <- eq_None_not_Some. Qed.

Lemma set_slot_spec t handle a h :
  handle_ok t handle →
  SlotAt (set_slot handle a t) h = (if decide (h = handle) then Some a else SlotAt t h) ∧
  (handle_ok (set_slot handle a t) h ↔ handle_ok t h).
Proof.
  intros Hok. unfold SlotAt, set_slot, handle_ok in *. cbn [st_slots]. rewrite length_insert.
  split; [|done]. case_decide as H1; case_decide as H2; try done.
  - lia.
  - subst. apply list_lookup_insert_eq. lia.
  - apply list_lookup_insert_ne. lia.
Qed.

(** A section on one handle touches that slot only. *)
Lemma at_slot_spec {B} what t handle (f : A → outcome (A * B)) t' b :
  at_slot what t handle f = Ok (t', b) →
  ∃ a a', SlotAt t handle = Some a ∧ f a = Ok (a', b) ∧ SlotAt t' handle = Some a' ∧
    (∀ h, h ≠ handle → SlotAt t' h = SlotAt t h) ∧ st_free t' = st_free t.
Proof.
  unfold at_slot. destruct (SlotAt t handle) as [a|] eqn:E; [|done]. intros H.
  apply bind_Ok in H as ([a' b'] & Hf & [= <- <-]).
  assert (handle_ok t handle) as Hok by (apply SlotAt_ok; by rewrite E).
  exists a, a'. split_and!; [done|done|..].
  - by rewrite (proj1 (set_slot_spec t handle a' handle Hok)), decide_True.
  - intros h Hh. by rewrite (proj1 (set_slot_spec t handle a' h Hok)), decide_False.
  - done.
Qed.

(** Handles are not shared.  Allocation, whether it recycles a slot or grows the
    table, returns a handle that no instance uses, gives it a slot in its initial state
    (nothing of the previous object leaks), leaves every object in use unchanged and in
    use, and keeps the table well-formed; recycling a handle in use does the same for
    all others. *)
Theorem AllocHandle_fresh init t :
  table_wf t →
  (let '(t', handle) := AllocHandle init t in
   table_wf t' ∧ ¬ in_use t handle ∧ in_use t' handle ∧ SlotAt t' handle = Some init ∧
   ∀ h, in_use t h → in_use t' h ∧ SlotAt t' h = SlotAt t h) ∧
  ∀ handle, in_use t handle →
    table_wf (RecycleHandle handle t) ∧ ¬ in_use (RecycleHandle handle t) handle ∧
    ∀ h, h ≠ handle → in_use t h → in_use (RecycleHandle handle t) h ∧
         SlotAt (RecycleHandle handle t) h = SlotAt t h.
Proof.
  intros [N Hf]. split.
  - unfold AllocHandle. destruct (st_free t) as [|handle rest] eqn:E.
    + set (t' := {| st_slots := _; st_free := [] |}).
      assert (∀ h, handle_ok t h → handle_ok t' h ∧ SlotAt t' h = SlotAt t h) as Hold.
      { intros h Hh. unfold SlotAt, handle_ok in *. cbn [t' st_slots]. rewrite length_app. simpl.
        split; [lia|]. rewrite !decide_False by lia. apply lookup_app_l. lia. }
      assert (handle_ok t' (Z.of_nat (S (length (st_slots t))))) as Hnew.
      { unfold handle_ok. cbn [t' st_slots]. rewrite length_app. simpl. lia. }
      split_and!.
      * split; constructor.
      * intros [Hh _]. unfold handle_ok in Hh. lia.
      * split; [done|apply not_elem_of_nil].
      * unfold SlotAt, handle_ok in *. rewrite decide_False by lia. cbn [t' st_slots].
        replace (Z.to_nat _) with (length (st_slots t)) by lia. by rewrite list_lookup_middle.
      * intros h [Hh _]. destruct (Hold h Hh). split; [|done]. split; [done|apply not_elem_of_nil].
    + apply list.NoDup_cons in N as [Hh N]. apply Forall_cons_1 in Hf as [Hok Hf].
      set (t' := {| st_slots := _; st_free := rest |}).
      assert (∀ h, (SlotAt t' h = if decide (h = handle) then Some init else SlotAt t h) ∧
                   (handle_ok t' h ↔ handle_ok t h)) as Hset.
      { intros h. destruct (set_slot_spec t handle init h Hok) as [H1 H2]. split; [exact H1|exact H2]. }
      unfold table_wf, in_use. rewrite E. split_and!.
      * done.
      * eapply list.Forall_impl; [exact Hf|]. intros h. apply (proj2 (Hset h)).
      * intros [_ []]. left.
      * by apply Hset.
      * done.
      * by rewrite (proj1 (Hset handle)), decide_True.
      * intros h [Hh1 Hh2]. rewrite not_elem_of_cons in Hh2. destruct Hh2.
        split_and!; [by apply Hset|done|]. by rewrite (proj1 (Hset h)), decide_False.
  - intros handle [Hok Hin]. unfold RecycleHandle, table_wf, in_use, handle_ok in *.
    rewrite decide_True by lia. cbn [st_slots st_free]. split_and!.
    + by apply list.NoDup_cons.
    + by constructor.
    + intros [_ []]. left.
    + intros h Hne [Hh Hn]. split_and!; try done; try lia. by apply not_elem_of_cons.
Qed.
End Table.

Lemma AllocHandle_fresh_witness :
  let t := {| st_slots := [7; 8; 9]; st_free := [2] |} in
  table_wf t ∧ SlotAt (AllocHandle 0 t).1 2 = Some 0 ∧ ¬ in_use t 2.
Proof.
  set (t := {| st_slots := [7; 8; 9]; st_free := [2] |}).
  assert (table_wf t) as W.
  { split; [apply NoDup_singleton|]. constructor; [|constructor]. unfold handle_ok. simpl. lia. }
  destruct (AllocHandle_fresh 0 t W) as [(_ & H1 & _ & H2 & _) _].
  split; [exact W|]. split; [exact H2|exact H1].
Defined.
