(* ===== verification/StaticInit.v ===== *)
(** * Lazy static initialization

    Models [src/src/vm/VmStaticSlots.h/.cpp] (cells, initialization bits, one state
    machine per owner and per slot) and the gates of
    [src/src/vm/VmExecutorOpsStaticInit.cpp].  The accesses to a machine that are
    atomic in the code are functions here; a handler composes them without
    interruption, and [istep] lets any number of contexts interleave them. *)
From S2P Require Import Prelude Bytecode SchedState Sched SchedSpec SyncPrims.
From stdpp Require Import relations pretty.
Open Scope Z_scope.

(** ** State machines *)
Inductive init_phase := kUninitialized | kInitializing | kDone.
#[export] Instance init_phase_eq_dec : EqDecision init_phase.
Proof. solve_decision. Defined.
Definition kNoOwnerCtx : Z := 4294967295.

Record StaticOwnerState := mkOwner { phase : init_phase; ownerCtxId : Z; waiters : list Z }.
Definition Owner0 : StaticOwnerState := mkOwner kUninitialized kNoOwnerCtx [].
#[export] Instance StaticOwnerState_eq_dec : EqDecision StaticOwnerState.
Proof. solve_decision. Defined.

(** The atomic accesses. *)
Definition store_phase (p : init_phase) (m : StaticOwnerState) := mkOwner p (ownerCtxId m) (waiters m).
Definition store_owner (c : Z) (m : StaticOwnerState) := mkOwner (phase m) c (waiters m).
(** [phase.compare_exchange_strong(kUninitialized, kInitializing)]. *)
Definition claim (m : StaticOwnerState) : option StaticOwnerState :=
  if decide (phase m = kUninitialized) then Some (store_phase kInitializing m) else None.
(** The sections under the waiters mutex. *)
Definition register (selfId : Z) (m : StaticOwnerState) : option StaticOwnerState :=
  if decide (phase m = kInitializing)
  then Some (mkOwner (phase m) (ownerCtxId m) (waiters m ++ [selfId])) else None.
Definition swap_waiters (m : StaticOwnerState) : list Z * StaticOwnerState :=
  (waiters m, mkOwner (phase m) (ownerCtxId m) []).

(** ** The table *)
Record VmStaticSlots := mkSlots {
  m_cells : list Z;
  m_initBits : list bool;
  m_owners : list StaticOwnerState;
  m_slotMachines : list StaticOwnerState;
  m_classOwnerCount : nat;
  m_ifaceOwnerCount : nat
}.

Definition Build (slotCount classCount ifaceCount : nat) : VmStaticSlots :=
  mkSlots (replicate slotCount 0) (replicate slotCount false)
    (replicate (classCount + ifaceCount) Owner0) (replicate slotCount Owner0)
    classCount ifaceCount.

(** A pointer to a machine of the table. *)
Inductive machine := MOwner (i : nat) | MSlot (i : nat).
#[export] Instance machine_eq_dec : EqDecision machine.
Proof. solve_decision. Defined.

Definition machine_at (t : VmStaticSlots) (j : machine) : option StaticOwnerState :=
  match j with MOwner i => m_owners t !! i | MSlot i => m_slotMachines t !! i end.
Definition set_machine (j : machine) (m : StaticOwnerState) (t : VmStaticSlots) : VmStaticSlots :=
  match j with
  | MOwner i => mkSlots (m_cells t) (m_initBits t) (<[i := m]> (m_owners t)) (m_slotMachines t)
                  (m_classOwnerCount t) (m_ifaceOwnerCount t)
  | MSlot i => mkSlots (m_cells t) (m_initBits t) (m_owners t) (<[i := m]> (m_slotMachines t))
                 (m_classOwnerCount t) (m_ifaceOwnerCount t)
  end.

Definition SlotMachine (t : VmStaticSlots) (slotIdx : nat) : option machine :=
  if decide (slotIdx < length (m_slotMachines t))%nat then Some (MSlot slotIdx) else None.
Definition OwnerAt (t : VmStaticSlots) (ownerIdx : nat) : option machine :=
  if decide (ownerIdx < length (m_owners t))%nat then Some (MOwner ownerIdx) else None.
Definition OwnerByKind (t : VmStaticSlots) (kind : Z) (idx : nat) : option machine :=
  if decide (kind = 0) then OwnerAt t idx
  else if decide (kind = 1) then
    if decide (idx < m_ifaceOwnerCount t)%nat then Some (MOwner (m_classOwnerCount t + idx)) else None
  else None.

(** [ReleaseContextClaims]: the claims of a dead context are reset and their waiters
    handed back. *)
Definition ResetClaimedMachine (ctxId : Z) (m : StaticOwnerState) : list Z * StaticOwnerState :=
  if decide (phase m = kInitializing ∧ ownerCtxId m = ctxId)
  then (waiters m, mkOwner kUninitialized kNoOwnerCtx [])
  else ([], m).
Definition release_all (ctxId : Z) (l : list StaticOwnerState) : list Z * list StaticOwnerState :=
  (concat (fst <$> (ResetClaimedMachine ctxId <$> l)), snd <$> (ResetClaimedMachine ctxId <$> l)).
Definition ReleaseContextClaims (ctxId : Z) (t : VmStaticSlots) : list Z * VmStaticSlots :=
  let '(woken1, owners) := release_all ctxId (m_owners t) in
  let '(woken2, machines) := release_all ctxId (m_slotMachines t) in
  (woken1 ++ woken2,
   mkSlots (m_cells t) (m_initBits t) owners machines (m_classOwnerCount t) (m_ifaceOwnerCount t)).

(** ** Handlers *)
(** How a gate ends: it jumps past the initializer, falls through into it, or leaves
    the context parked on the gate itself. *)
Inductive gate_end := GateSkip | GateRun | GateWait.

(** The dispatch loop.  A class gate tries the exchange only after it has read
    [kUninitialized], a slot gate whenever it may not pass. *)
Fixpoint gate_loop (slot : bool) (fuel : nat) (selfId : Z) (allowed : bool) (m : StaticOwnerState)
    : outcome (gate_end * StaticOwnerState) :=
  match fuel with
  | O => Raise OutOfFuel
  | S fuel =>
      if decide (phase m = kDone ∨ phase m = kInitializing ∧ ownerCtxId m = selfId)
      then Ok (GateSkip, m)
      else match (if slot || bool_decide (phase m = kUninitialized) then claim m else None) with
           | Some m' => Ok (GateRun, store_owner selfId m')
           | None =>
               if decide (phase m = kInitializing) then
                 if allowed then
                   match register selfId m with
                   | Some m' => Ok (GateWait, m')
                   | None => gate_loop slot fuel selfId allowed m
                   end
                 else Raise SuspensionRefused
               else gate_loop slot fuel selfId allowed m
           end
  end.

(** The machine a Done or Fail ends, and the contexts to wake. *)
Definition finish (p : init_phase) (m : StaticOwnerState) : list Z * StaticOwnerState :=
  swap_waiters (store_phase p (store_owner kNoOwnerCtx m)).

(** [static_cast<uint32_t>(CurrentContextId())]: a thread without a carrier is -1. *)
Definition selfId (k : CarrierState) : Z :=
  match currentContextId k with Some c => Z.of_nat c | None => u32 (-1) end.

(** How an opcode ends: execution goes on at the reader, or the park signal leaves the
    frame at the given pc. *)
Inductive op_end := Continue (r : reader) | Suspend (pc : Z).
Definition istate : Type := VmStaticSlots * VmScheduler * CarrierState.

(** A gate on machine [j].  [ParkOnClassInitOwner] registers and changes the context's
    state in one section. *)
Definition run_gate (slot : bool) (j : machine) (donePc gatePc : Z) (allowed : bool) (r : reader)
    (x : istate) : outcome (op_end * istate) :=
  let '(t, s, k) := x in
  m ← deref (machine_at t j);
  '(e, m) ← gate_loop slot 1 (selfId k) allowed m;
  let t := set_machine j m t in
  match e with
  | GateSkip => Ok (Continue (Seek r (Z.to_nat donePc)), (t, s, k))
  | GateRun => Ok (Continue r, (t, s, k))
  | GateWait =>
      let '(s, k) := ParkForClassInit s k (Z.to_nat (selfId k)) in
      Ok (Suspend gatePc, (t, s, k))
  end.

Definition WakeClassInitWaiters (toWake : list Z) (s : VmScheduler) : VmScheduler :=
  foldl (λ s w, WakeForClassInit s (Z.to_nat w)) s toWake.
Definition end_machine (p : init_phase) (j : machine) (r : reader) (x : istate) :
    outcome (op_end * istate) :=
  let '(t, s, k) := x in
  m ← deref (machine_at t j);
  let '(toWake, m) := finish p m in
  Ok (Continue r, (set_machine j m t, WakeClassInitWaiters toWake s, k)).

Definition found {A} (msg : string) (o : option A) : outcome A :=
  match o with Some a => Ok a | None => Raise (RuntimeError msg) end.

Definition OpClassInitGate (allowed : bool) (r : reader) (x : istate) : outcome (op_end * istate) :=
  let gatePc := u16 (Z.of_nat (m_offset r) - 1) in
  '(ownerIdx, r) ← ReadUint16 r;
  '(donePc, r) ← ReadUint16 r;
  '(kind, r) ← ReadUint16 r;
  owner ← found ("NLang VM: class-init gate with an out-of-range owner index or kind " +:+ pretty kind)
            (OwnerByKind x.1.1 kind (Z.to_nat ownerIdx));
  run_gate false owner donePc gatePc allowed r x.
Definition OpSlotInitGate (allowed : bool) (r : reader) (x : istate) : outcome (op_end * istate) :=
  let gatePc := u16 (Z.of_nat (m_offset r) - 1) in
  '(slotIdx, r) ← ReadUint16 r;
  '(donePc, r) ← ReadUint16 r;
  owner ← found ("NLang VM: slot-init gate with an out-of-range slot index " +:+ pretty slotIdx)
            (SlotMachine x.1.1 (Z.to_nat slotIdx));
  run_gate true owner donePc gatePc allowed r x.

(** [ReadClassInitOwner] and the bodies of Done and Fail. *)
Definition ReadClassInitOwner (which : string) (t : VmStaticSlots) (r : reader) :
    outcome (machine * reader) :=
  '(ownerIdx, r) ← ReadUint16 r;
  '(kind, r) ← ReadUint16 r;
  owner ← found ("NLang VM: class-init " +:+ which +:+ " with an out-of-range owner index or kind "
                   +:+ pretty kind) (OwnerByKind t kind (Z.to_nat ownerIdx));
  Ok (owner, r).
Definition OpClassInitDone (r : reader) (x : istate) : outcome (op_end * istate) :=
  '(j, r) ← ReadClassInitOwner "done" x.1.1 r; end_machine kDone j r x.
Definition OpClassInitFail (r : reader) (x : istate) : outcome (op_end * istate) :=
  '(j, r) ← ReadClassInitOwner "fail" x.1.1 r; end_machine kUninitialized j r x.
Definition slot_end (which : string) (p : init_phase) (r : reader) (x : istate) :
    outcome (op_end * istate) :=
  '(slotIdx, r) ← ReadUint16 r;
  owner ← found ("NLang VM: slot-init " +:+ which +:+ " with an out-of-range slot index "
                   +:+ pretty slotIdx) (SlotMachine x.1.1 (Z.to_nat slotIdx));
  end_machine p owner r x.
Definition OpSlotInitDone := slot_end "done" kDone.
Definition OpSlotInitFail := slot_end "fail" kUninitialized.

(** The static half of [FailContextContained]: a dead context gives its claims back. *)
Definition release_dead (ctxId : Z) (t : VmStaticSlots) (s : VmScheduler) :
    VmStaticSlots * VmScheduler :=
  let '(woken, t) := ReleaseContextClaims ctxId t in (t, WakeClassInitWaiters woken s).

(** ** Interleavings

    Where a context is between two atomic accesses.  Its stack of running initializers
    is [holds]; [IWake ws next] is the tail of a Done, a Fail or a death. *)
Inductive ipc :=
  | IRun
  | IGate (j : machine)                            (* about to load the phase *)
  | ILoaded (j : machine) (p : init_phase)         (* phase loaded *)
  | IClaim (j : machine) (p : init_phase)          (* may not pass: about to exchange *)
  | IOwn (j : machine)                             (* exchanged, owner not yet stored *)
  | IWait (j : machine)                            (* about to register *)
  | IParked (j : machine)
  | IClear (j : machine) (p : init_phase)          (* Done/Fail: about to clear the owner *)
  | IPublish (j : machine) (p : init_phase)        (* owner cleared *)
  | ISwap (j : machine)                            (* phase published *)
  | IWake (ws : list Z) (next : bool)              (* waiters to wake; then run on, or dead *)
  | IDead.
#[export] Instance ipc_eq_dec : EqDecision ipc.
Proof. solve_decision. Defined.

Record ictx := mkI { at_pc : ipc; holds : list machine; st : ContextState }.
Record iworld := mkW { tbl : VmStaticSlots; ctxs : list ictx }.

(** Only slot gates exchange without having read [kUninitialized]. *)
Definition is_slot (j : machine) : bool := match j with MSlot _ => true | _ => false end.

Definition put (w : iworld) (i : nat) (c : ictx) : iworld := mkW (tbl w) (<[i := c]> (ctxs w)).
Definition put_m (w : iworld) (j : machine) (m : StaticOwnerState) : iworld :=
  mkW (set_machine j m (tbl w)) (ctxs w).
Definition goto (pc : ipc) (c : ictx) : ictx := mkI pc (holds c) (st c).

(** One atomic access of one context.  A context ends its innermost running
    initializer ([is_end]) with success or failure, or dies with claims ([is_die]). *)
Inductive istep : iworld → iworld → Prop :=
  | is_gate w i c j : ctxs w !! i = Some c → at_pc c = IRun → is_Some (machine_at (tbl w) j) →
      istep w (put w i (goto (IGate j) c))
  | is_load w i c j m : ctxs w !! i = Some c → at_pc c = IGate j → machine_at (tbl w) j = Some m →
      istep w (put w i (goto (ILoaded j (phase m)) c))
  | is_pass_done w i c j : ctxs w !! i = Some c → at_pc c = ILoaded j kDone →
      istep w (put w i (goto IRun c))
  | is_pass_self w i c j m : ctxs w !! i = Some c → at_pc c = ILoaded j kInitializing →
      machine_at (tbl w) j = Some m → ownerCtxId m = Z.of_nat i →
      istep w (put w i (goto IRun c))
  | is_other w i c j m : ctxs w !! i = Some c → at_pc c = ILoaded j kInitializing →
      machine_at (tbl w) j = Some m → ownerCtxId m ≠ Z.of_nat i →
      istep w (put w i (goto (if is_slot j then IClaim j kInitializing else IWait j) c))
  | is_fresh w i c j : ctxs w !! i = Some c → at_pc c = ILoaded j kUninitialized →
      istep w (put w i (goto (IClaim j kUninitialized) c))
  | is_claim w i c j p m m' : ctxs w !! i = Some c → at_pc c = IClaim j p →
      machine_at (tbl w) j = Some m → claim m = Some m' →
      istep w (put (put_m w j m') i (goto (IOwn j) c))
  | is_lose w i c j p m : ctxs w !! i = Some c → at_pc c = IClaim j p →
      machine_at (tbl w) j = Some m → claim m = None →
      istep w (put w i (goto (if decide (p = kInitializing) then IWait j else IGate j) c))
  | is_own w i c j m : ctxs w !! i = Some c → at_pc c = IOwn j → machine_at (tbl w) j = Some m →
      istep w (put (put_m w j (store_owner (Z.of_nat i) m)) i (mkI IRun (j :: holds c) (st c)))
  | is_abort w i c j m : ctxs w !! i = Some c → at_pc c = IWait j → machine_at (tbl w) j = Some m →
      register (Z.of_nat i) m = None →
      istep w (put w i (goto (IGate j) c))
  | is_park w i c j m m' : ctxs w !! i = Some c → at_pc c = IWait j →
      machine_at (tbl w) j = Some m → register (Z.of_nat i) m = Some m' →
      istep w (put (put_m w j m') i (mkI (IParked j) (holds c) ParkedClassInit))
  | is_resume w i c j : ctxs w !! i = Some c → at_pc c = IParked j → st c = Runnable →
      istep w (put w i (goto (IGate j) c))
  | is_end w i c j hs p : ctxs w !! i = Some c → at_pc c = IRun → holds c = j :: hs →
      p ≠ kInitializing →
      istep w (put w i (goto (IClear j p) c))
  | is_clear w i c j p m : ctxs w !! i = Some c → at_pc c = IClear j p →
      machine_at (tbl w) j = Some m →
      istep w (put (put_m w j (store_owner kNoOwnerCtx m)) i (mkI (IPublish j p) (tail (holds c)) (st c)))
  | is_publish w i c j p m : ctxs w !! i = Some c → at_pc c = IPublish j p →
      machine_at (tbl w) j = Some m →
      istep w (put (put_m w j (store_phase p m)) i (goto (ISwap j) c))
  | is_swap w i c j m : ctxs w !! i = Some c → at_pc c = ISwap j → machine_at (tbl w) j = Some m →
      istep w (put (put_m w j (swap_waiters m).2) i (goto (IWake (swap_waiters m).1 true) c))
  | is_wake w i c x ws next y : ctxs w !! i = Some c → at_pc c = IWake (x :: ws) next →
      ctxs w !! Z.to_nat x = Some y →
      istep w (put (put w (Z.to_nat x) (mkI (at_pc y) (holds y) Runnable)) i (goto (IWake ws next) c))
  | is_woken w i c next : ctxs w !! i = Some c → at_pc c = IWake [] next →
      istep w (put w i (goto (if next then IRun else IDead) c))
  | is_die w i c : ctxs w !! i = Some c → at_pc c = IRun →
      istep w (put (mkW (ReleaseContextClaims (Z.of_nat i) (tbl w)).2 (ctxs w)) i
                 (mkI (IWake (ReleaseContextClaims (Z.of_nat i) (tbl w)).1 false) [] Failed))
  | is_spawn w : Z.of_nat (length (ctxs w)) < 2147483648 →
      istep w (mkW (tbl w) (ctxs w ++ [mkI IRun [] Runnable])).

(** A run starts with a fresh table and the main context. *)
Definition istart (slotCount classCount ifaceCount : nat) : iworld :=
  mkW (Build slotCount classCount ifaceCount) [mkI IRun [] Runnable].
Definition ireachable (w : iworld) : Prop := ∃ a b c, rtc istep (istart a b c) w.
