(* ===== verification/StaticInitSpec.v ===== *)
(** * Static initialization: properties

    Ownership ([InvO]) and waiting ([InvW]) are invariants of the interleavings of
    [StaticInit]; from them: an initializer runs once, a gate lets a context pass only
    when it may, and no parked context is forgotten.  The handlers are paths of the
    step relation. *)
From S2P Require Import Prelude Bytecode SchedState Sched SchedSpec SyncPrims StaticInit.
From stdpp Require Import relations.
Open Scope Z_scope.

(** ** Lists of claims and of waiters *)
Definition claimed (c : ictx) : list machine :=
  match at_pc c with IOwn j | IPublish j _ => [j] | _ => [] end ++ holds c.
Definition pending (c : ictx) : list Z := match at_pc c with IWake ws _ => ws | _ => [] end.
Definition all_claims (w : iworld) : list machine := concat (claimed <$> ctxs w).
Definition registered (t : VmStaticSlots) : list Z :=
  concat (waiters <$> m_owners t) ++ concat (waiters <$> m_slotMachines t).
Definition queued (w : iworld) : list Z := registered (tbl w) ++ concat (pending <$> ctxs w).

Lemma concat_insert {A B} (f : A → list B) (l : list A) i x :
  l !! i = Some x → ∃ rest, concat (f <$> l) ≡ₚ f x ++ rest ∧
    ∀ y, concat (f <$> <[i := y]> l) ≡ₚ f y ++ rest.
Proof.
  intros Hi. exists (concat (f <$> take i l) ++ concat (f <$> drop (S i) l)).
  pose proof (lookup_lt_Some _ _ _ Hi) as Hlt. split.
  - rewrite <- (take_drop_middle l i x Hi) at 1. rewrite fmap_app, fmap_cons, concat_app. simpl.
    by rewrite !app_assoc, (Permutation_app_comm (f x)).
  - intros y. rewrite insert_take_drop by done. rewrite fmap_app, fmap_cons, concat_app. simpl.
    by rewrite !app_assoc, (Permutation_app_comm (f y)).
Qed.

Lemma elem_of_concat_fmap {A B} (f : A → list B) (l : list A) b :
  b ∈ concat (f <$> l) ↔ ∃ i x, l !! i = Some x ∧ b ∈ f x.
Proof.
  rewrite list_elem_of_In, in_concat. split.
  - intros (y & Hy & Hb). apply list_elem_of_In, list_elem_of_fmap in Hy as (x & -> & Hx).
    apply list_elem_of_lookup in Hx as [i Hi]. exists i, x. split; [done|]. by apply list_elem_of_In.
  - intros (i & x & Hi & Hb). exists (f x). split; [|by apply list_elem_of_In].
    apply list_elem_of_In, list_elem_of_fmap_2. by eapply list_elem_of_lookup_2.
Qed.

Lemma machine_at_set t j j' m m0 :
  machine_at t j = Some m0 →
  machine_at (set_machine j m t) j' = if decide (j' = j) then Some m else machine_at t j'.
Proof.
  intros Hj. destruct (decide (j' = j)) as [->|Hne].
  - destruct j; simpl in *; by eapply list_lookup_insert_eq, lookup_lt_Some.
  - destruct j, j'; simpl; try done; (rewrite list_lookup_insert_ne; [done|congruence]).
Qed.

Lemma registered_set t j m0 :
  machine_at t j = Some m0 → ∃ rest, registered t ≡ₚ waiters m0 ++ rest ∧
    ∀ m, registered (set_machine j m t) ≡ₚ waiters m ++ rest.
Proof.
  unfold registered. destruct j as [i|i]; simpl; intros Hj;
    destruct (concat_insert waiters _ _ _ Hj) as (rest & E & E').
  - exists (rest ++ concat (waiters <$> m_slotMachines t)). split; [by rewrite E, app_assoc|].
    intros m. by rewrite E', app_assoc.
  - exists (concat (waiters <$> m_owners t) ++ rest). split; [rewrite E|intros m; rewrite E'];
      by rewrite !app_assoc, (Permutation_app_comm (concat _)).
Qed.

Lemma elem_of_registered t x :
  x ∈ registered t ↔ ∃ j m, machine_at t j = Some m ∧ x ∈ waiters m.
Proof.
  unfold registered. rewrite elem_of_app, !elem_of_concat_fmap. split.
  - intros [(i & m & H)|(i & m & H)]; [by exists (MOwner i), m|by exists (MSlot i), m].
  - intros ([i|i] & m & H); [left|right]; by exists i, m.
Qed.

Lemma release_all_perm ctx l :
  (release_all ctx l).1 ++ concat (waiters <$> (release_all ctx l).2) ≡ₚ concat (waiters <$> l).
Proof.
  unfold release_all. cbn [fst snd]. induction l as [|m l IH]; [done|].
  rewrite !fmap_cons. cbn [concat]. rewrite <- IH. unfold ResetClaimedMachine at 1 3.
  case_decide; simpl; [by rewrite app_assoc|].
  rewrite !app_assoc. f_equiv. apply Permutation_app_comm.
Qed.

Lemma release_perm ctx t :
  (ReleaseContextClaims ctx t).1 ++ registered (ReleaseContextClaims ctx t).2 ≡ₚ registered t.
Proof.
  unfold ReleaseContextClaims, registered.
  pose proof (release_all_perm ctx (m_owners t)) as E1.
  pose proof (release_all_perm ctx (m_slotMachines t)) as E2.
  destruct (release_all ctx (m_owners t)) as [w1 l1], (release_all ctx (m_slotMachines t)) as [w2 l2].
  simpl in *. rewrite <- E1, <- E2, !app_assoc. f_equiv.
  rewrite <- !app_assoc. f_equiv. apply Permutation_app_comm.
Qed.

Lemma machine_at_release ctx t j :
  machine_at (ReleaseContextClaims ctx t).2 j = (λ m, (ResetClaimedMachine ctx m).2) <$> machine_at t j.
Proof. destruct j; simpl; rewrite !list_lookup_fmap; by destruct (_ !! i). Qed.

(** ** Ownership *)
Definition valid (t : VmStaticSlots) (j : machine) : Prop := is_Some (machine_at t j).
Definition pc_ok (t : VmStaticSlots) (c : ictx) : Prop :=
  match at_pc c with
  | IRun => True
  | IGate j | ISwap j => valid t j
  | ILoaded j p => valid t j ∧ (j ∈ holds c → p = kInitializing)
  | IClaim j _ | IWait j | IParked j => valid t j ∧ j ∉ holds c
  | IOwn _ => True
  | IClear j p => p ≠ kInitializing ∧ head (holds c) = Some j
  | IPublish j p => p ≠ kInitializing
  | IWake _ next => next = false → holds c = []
  | IDead => holds c = []
  end.

Record InvO (w : iworld) : Prop := {
  io_nodup : NoDup (all_claims w);
  io_valid : ∀ j, j ∈ all_claims w → valid (tbl w) j;
  io_phase : ∀ j m, machine_at (tbl w) j = Some m → (phase m = kInitializing ↔ j ∈ all_claims w);
  io_holder : ∀ i c j m, ctxs w !! i = Some c → j ∈ holds c → machine_at (tbl w) j = Some m →
    ownerCtxId m = Z.of_nat i;
  io_owner : ∀ j m, machine_at (tbl w) j = Some m → ownerCtxId m = kNoOwnerCtx ∨
    ∃ i c, ctxs w !! i = Some c ∧ j ∈ holds c;
  io_pc : ∀ i c, ctxs w !! i = Some c → pc_ok (tbl w) c;
  io_len : Z.of_nat (length (ctxs w)) ≤ 2147483648
}.

Lemma elem_of_all_claims w j : j ∈ all_claims w ↔ ∃ i c, ctxs w !! i = Some c ∧ j ∈ claimed c.
Proof. apply elem_of_concat_fmap. Qed.
Lemma claimed_holds c j : j ∈ holds c → j ∈ claimed c.
Proof. intros H. unfold claimed. apply elem_of_app. by right. Qed.

Lemma valid_set t j m m0 j' :
  machine_at t j = Some m0 → valid (set_machine j m t) j' ↔ valid t j'.
Proof.
  intros Hj. unfold valid. rewrite (machine_at_set t j j' m m0 Hj).
  destruct (decide (j' = j)) as [->|]; [|done]. rewrite Hj. split; eauto.
Qed.
Lemma valid_release t ctx j : valid (ReleaseContextClaims ctx t).2 j ↔ valid t j.
Proof. unfold valid. by rewrite machine_at_release, fmap_is_Some. Qed.

Lemma pc_ok_valid t t' c : (∀ j, valid t j ↔ valid t' j) → pc_ok t c → pc_ok t' c.
Proof. unfold pc_ok. intros H. destruct (at_pc c); rewrite ?H; done. Qed.

Lemma claims_put w i c :
  ctxs w !! i = Some c → ∃ rest, all_claims w ≡ₚ claimed c ++ rest ∧
    ∀ c', all_claims (put w i c') ≡ₚ claimed c' ++ rest.
Proof. apply concat_insert. Qed.

(** A lookup after [put]. *)
Lemma put_lookup w i c i' x :
  ctxs (put w i c) !! i' = Some x → (i' = i ∧ x = c) ∨ (i' ≠ i ∧ ctxs w !! i' = Some x).
Proof. intros [(-> & -> & _)|[Hne H]]%list_lookup_insert_Some; [by left|by right]. Qed.
Lemma put_self w i c0 c : ctxs w !! i = Some c0 → ctxs (put w i c) !! i = Some c.
Proof. intros H. by eapply list_lookup_insert_eq, lookup_lt_Some. Qed.
Lemma put_other w i c i' x : i' ≠ i → ctxs w !! i' = Some x → ctxs (put w i c) !! i' = Some x.
Proof. intros Hne H. simpl. by rewrite list_lookup_insert_ne. Qed.

(** A context moves without changing what it claims. *)
Lemma O_ctx w i c c' :
  InvO w → ctxs w !! i = Some c → holds c' = holds c → claimed c' = claimed c →
  pc_ok (tbl w) c' → InvO (put w i c').
Proof.
  intros [H1 H2 H3 H4 H5 H6 H7] Hc Hh Hcl Hpc.
  destruct (claims_put w i c Hc) as (rest & E & E').
  assert (all_claims (put w i c') ≡ₚ all_claims w) as Ep by (by rewrite E', E, Hcl).
  split; simpl.
  - by rewrite Ep.
  - intros j. rewrite Ep. apply H2.
  - intros j m Hj. rewrite Ep. by apply H3.
  - intros i' x j m [[-> ->]|[Hne Hx]]%put_lookup Hjx; [rewrite Hh in Hjx; by eapply H4|by eapply H4].
  - intros j m [?|(i' & x & Hx & Hjx)]%H5; [by left|right].
    destruct (decide (i' = i)) as [->|Hne].
    + exists i, c'. split; [by eapply put_self|]. rewrite Hh. by simplify_eq.
    + exists i', x. split; [by apply put_other|done].
  - intros i' x [[-> ->]|[Hne Hx]]%put_lookup; [done|by eapply H6].
  - by rewrite length_insert.
Qed.

(** A machine changes its waiters only. *)
Lemma O_m w j m m' :
  InvO w → machine_at (tbl w) j = Some m → phase m' = phase m → ownerCtxId m' = ownerCtxId m →
  InvO (put_m w j m').
Proof.
  intros [H1 H2 H3 H4 H5 H6 H7] Hm Hp Ho.
  assert (∀ j' x', machine_at (tbl (put_m w j m')) j' = Some x' →
    ∃ x, machine_at (tbl w) j' = Some x ∧ phase x' = phase x ∧ ownerCtxId x' = ownerCtxId x) as Hat.
  { intros j' x'. simpl. rewrite (machine_at_set _ _ _ _ _ Hm).
    destruct (decide (j' = j)) as [->|]; [intros [= <-]; eauto|eauto]. }
  split; simpl; try done.
  - intros j' Hj'. rewrite valid_set by done. by apply H2.
  - intros j' x' (x & Hx & -> & _)%Hat. by apply H3.
  - intros i c j' x' Hc Hj' (x & Hx & _ & ->)%Hat. by eapply H4.
  - intros j' x' (x & Hx & _ & ->)%Hat. by eapply H5.
  - intros i c Hc. eapply pc_ok_valid; [|by eapply H6]. intros j'. by rewrite valid_set.
Qed.

(** A context and the one machine it works on change together: nobody else claims the
    machine, and afterwards claims, phase and owner agree again. *)
Lemma O_both w i c c' j m m' :
  InvO w → ctxs w !! i = Some c → machine_at (tbl w) j = Some m →
  j ∈ claimed c ∨ phase m ≠ kInitializing →
  (∀ j', j' ≠ j → j' ∈ claimed c' ↔ j' ∈ claimed c) → NoDup (claimed c') →
  (phase m' = kInitializing ↔ j ∈ claimed c') →
  (∀ j', j' ≠ j → j' ∈ holds c' ↔ j' ∈ holds c) →
  (j ∈ holds c' → ownerCtxId m' = Z.of_nat i) → ownerCtxId m' = kNoOwnerCtx ∨ j ∈ holds c' →
  pc_ok (tbl w) c' → InvO (put (put_m w j m') i c').
Proof.
  intros [H1 H2 H3 H4 H5 H6 H7] Hc Hm Hex Hcl Hnd Hph Hh Ho Ho' Hpc.
  destruct (claims_put w i c Hc) as (rest & E & E').
  assert (j ∉ rest) as Hj.
  { intros Hr. destruct Hex as [Hin|Hn].
    - rewrite E in H1. apply list.NoDup_app in H1 as (_ & Hd & _). by apply (Hd j).
    - apply Hn, (H3 j m Hm). rewrite E. apply elem_of_app. by right. }
  assert (∀ j', j' ≠ j → j' ∈ all_claims (put (put_m w j m') i c') ↔ j' ∈ all_claims w) as Hall.
  { intros j' Hne. change (all_claims (put (put_m w j m') i c')) with (all_claims (put w i c')).
    by rewrite E', E, !elem_of_app, Hcl. }
  assert (j ∈ all_claims (put (put_m w j m') i c') ↔ j ∈ claimed c') as Hallj.
  { change (all_claims (put (put_m w j m') i c')) with (all_claims (put w i c')).
    rewrite E', elem_of_app. naive_solver. }
  assert (∀ i' x, i' ≠ i → ctxs w !! i' = Some x → j ∉ holds x) as Hother.
  { intros i' x Hne Hx Hin. apply Hj.
    assert (ctxs (put w i (mkI IDead [] Runnable)) !! i' = Some x) as Hx' by (by apply put_other).
    assert (j ∈ all_claims (put w i (mkI IDead [] Runnable))) as HA
      by (apply elem_of_all_claims; eauto using claimed_holds).
    rewrite E', elem_of_app in HA. destruct HA as [HA|HA]; [by apply not_elem_of_nil in HA|done]. }
  split.
  - change (all_claims (put (put_m w j m') i c')) with (all_claims (put w i c')).
    rewrite E'. rewrite E in H1. apply list.NoDup_app in H1 as (_ & Hd & Hr).
    apply list.NoDup_app. split_and!; [done| |done]. intros x Hx.
    destruct (decide (x = j)) as [->|Hne]; [done|]. by apply Hd, Hcl.
  - intros j' Hj'. simpl. rewrite valid_set by done.
    destruct (decide (j' = j)) as [->|Hne]; [by exists m|]. by apply H2, Hall.
  - intros j' x. simpl. rewrite (machine_at_set _ _ _ _ _ Hm). destruct (decide (j' = j)) as [->|Hne].
    + intros [= <-]. by rewrite Hallj.
    + rewrite Hall by done. apply H3.
  - intros i' x j' y Hx Hin. simpl. rewrite (machine_at_set _ _ _ _ _ Hm).
    apply put_lookup in Hx as [[-> ->]|[Hne Hx]]; (destruct (decide (j' = j)) as [->|Hnj]; intros Hy).
    + injection Hy as <-. by apply Ho.
    + eapply H4; [done|by apply Hh|done].
    + by destruct (Hother i' x Hne Hx).
    + by eapply H4.
  - intros j' y. simpl. rewrite (machine_at_set _ _ _ _ _ Hm). destruct (decide (j' = j)) as [->|Hnj].
    + intros [= <-]. destruct Ho' as [|Hin]; [by left|right]. exists i, c'.
      split; [|done]. by eapply (put_self (put_m w j m')).
    + intros [?|(i' & x & Hx & Hin)]%H5; [by left|right]. destruct (decide (i' = i)) as [->|Hne].
      * exists i, c'. split; [by eapply (put_self (put_m w j m'))|]. simplify_eq. by apply Hh.
      * exists i', x. split; [by apply put_other|done].
  - intros i' x Hx. eapply pc_ok_valid; [intros j'; symmetry; by apply (valid_set _ _ m' m)|].
    apply put_lookup in Hx as [[-> ->]|[_ Hx]]; [done|by eapply H6].
  - simpl. by rewrite length_insert.
Qed.

Lemma ctx_id_not_none w i : InvO w → (i < length (ctxs w))%nat → Z.of_nat i ≠ kNoOwnerCtx.
Proof. intros H Hi. pose proof (io_len w H). unfold kNoOwnerCtx. lia. Qed.

(** What a context may conclude from the owner it reads. *)
Lemma owner_self w i c j m :
  InvO w → ctxs w !! i = Some c → machine_at (tbl w) j = Some m →
  ownerCtxId m = Z.of_nat i ↔ j ∈ holds c.
Proof.
  intros Hi Hc Hm. split; [|intros; by eapply io_holder].
  intros Ho. destruct (io_owner w Hi j m Hm) as [E|(i' & x & Hx & Hin)].
  - destruct (ctx_id_not_none w i Hi); [by eapply lookup_lt_Some|congruence].
  - assert (i' = i) as -> by (pose proof (io_holder w Hi i' x j m Hx Hin Hm); lia). by simplify_eq.
Qed.
Lemma claims_of w i c j : ctxs w !! i = Some c → j ∈ claimed c → j ∈ all_claims w.
Proof. intros. apply elem_of_all_claims. eauto. Qed.
Lemma not_initializing w i c j m :
  InvO w → ctxs w !! i = Some c → machine_at (tbl w) j = Some m → phase m ≠ kInitializing →
  j ∉ claimed c.
Proof. intros Hi Hc Hm Hn Hin. apply Hn, (io_phase w Hi j m Hm). by eapply claims_of. Qed.
Lemma claimed_phase w i c j m :
  InvO w → ctxs w !! i = Some c → machine_at (tbl w) j = Some m → j ∈ claimed c →
  phase m = kInitializing.
Proof. intros Hi Hc Hm Hin. apply (io_phase w Hi j m Hm). by eapply claims_of. Qed.
Lemma claimed_nodup w i c : InvO w → ctxs w !! i = Some c → NoDup (claimed c).
Proof.
  intros Hi Hc. destruct (claims_put w i c Hc) as (rest & E & _). pose proof (io_nodup w Hi) as H.
  rewrite E in H. by apply list.NoDup_app in H as [? _].
Qed.

Lemma O_die w i c l :
  InvO w → ctxs w !! i = Some c → at_pc c = IRun →
  InvO (put (mkW (ReleaseContextClaims (Z.of_nat i) (tbl w)).2 (ctxs w)) i (mkI (IWake l false) [] Failed)).
Proof.
  intros Hi Hc Hpc. destruct (claims_put w i c Hc) as (rest & E & E').
  assert (claimed c = holds c) as Hcl by (unfold claimed; by rewrite Hpc).
  set (w' := put _ i _). assert (all_claims w' ≡ₚ rest) as Ew.
  { change (all_claims w') with (all_claims (put w i (mkI (IWake l false) [] Failed))). by rewrite E'. }
  pose proof (io_nodup w Hi) as Hnd. rewrite E, Hcl in Hnd.
  apply list.NoDup_app in Hnd as (_ & Hd & Hr).
  assert (∀ j x', machine_at (tbl w') j = Some x' → ∃ x, machine_at (tbl w) j = Some x ∧
    ((ownerCtxId x = Z.of_nat i ∧ j ∈ holds c ∧ phase x' = kUninitialized ∧ ownerCtxId x' = kNoOwnerCtx)
     ∨ (ownerCtxId x ≠ Z.of_nat i ∧ (j ∉ holds c) ∧ x' = x))) as Hat.
  { intros j x'. change (machine_at (tbl w') j) with (machine_at ((ReleaseContextClaims (Z.of_nat i) (tbl w)).2) j).
    rewrite machine_at_release. intros (x & Hx & ->)%fmap_Some.
    exists x. split; [done|]. pose proof (owner_self w i c j x Hi Hc Hx) as Ho.
    unfold ResetClaimedMachine. destruct (decide (ownerCtxId x = Z.of_nat i)) as [Eo|Eo].
    - left. assert (j ∈ holds c) as Hin by (by apply Ho).
      rewrite decide_True; [done|]. split; [|done].
      eapply claimed_phase; [done..|]. by apply claimed_holds.
    - right. rewrite decide_False by naive_solver. split_and!; naive_solver. }
  destruct Hi as [H1 H2 H3 H4 H5 H6 H7]. split.
  - by rewrite Ew.
  - intros j. rewrite Ew. intros Hj. apply (valid_release (tbl w) (Z.of_nat i)), H2. rewrite E.
    apply elem_of_app. by right.
  - intros j x' (x & Hx & [(_ & Hin & -> & _)|(_ & Hin & ->)])%Hat; rewrite Ew.
    + split; [done|]. intros Hr'. by destruct (Hd j).
    + rewrite (H3 j x Hx), E, Hcl, elem_of_app. naive_solver.
  - intros i' y j x' [[-> ->]|[Hne Hy]]%put_lookup Hin; [by apply not_elem_of_nil in Hin|].
    intros (x & Hx & [(Ho & _)|(_ & _ & ->)])%Hat; [|by eapply H4].
    pose proof (H4 i' y j x Hy Hin Hx). lia.
  - intros j x' (x & Hx & [(_ & _ & _ & ?)|(_ & Hin & ->)])%Hat; [by left|].
    destruct (H5 j x Hx) as [?|(i' & y & Hy & Hj)]; [by left|right]. exists i', y.
    split; [|done]. apply put_other; [|done]. intros ->. by simplify_eq.
  - intros i' y Hy. eapply (pc_ok_valid (tbl w)); [intros j; symmetry; apply valid_release|].
    apply put_lookup in Hy as [[-> ->]|[_ Hy]]; [done|by eapply H6].
  - unfold w'. simpl. by rewrite length_insert.
Qed.

(** [goto] between points that add no claim. *)
Definition plain_pc (pc : ipc) : Prop := match pc with IOwn _ | IPublish _ _ => False | _ => True end.
Lemma claimed_plain c : plain_pc (at_pc c) → claimed c = holds c.
Proof. unfold claimed. by destruct (at_pc c). Qed.
Lemma O_goto w i c pc :
  InvO w → ctxs w !! i = Some c → plain_pc (at_pc c) → plain_pc pc →
  pc_ok (tbl w) (goto pc c) → InvO (put w i (goto pc c)).
Proof. intros Hi Hc H1 H2 Hok. eapply O_ctx; try done. by rewrite !claimed_plain. Qed.

Lemma O_claim w i c j p m m' :
  InvO w → ctxs w !! i = Some c → at_pc c = IClaim j p → machine_at (tbl w) j = Some m →
  claim m = Some m' → InvO (put (put_m w j m') i (goto (IOwn j) c)).
Proof.
  intros Hi Hc Hpc Hm. unfold claim. case_decide as Hu; [|done]. intros [= <-].
  assert (j ∉ claimed c) as Hni by (eapply not_initializing; [done..|congruence]).
  assert (claimed c = holds c) as Ec by (apply claimed_plain; by rewrite Hpc).
  pose proof (claimed_nodup w i c Hi Hc) as Hnd.
  eapply O_both; try done; rewrite ?Ec in *; unfold claimed; simpl; try done.
  - right. congruence.
  - intros j' Hne. rewrite elem_of_cons. naive_solver.
  - by apply list.NoDup_cons.
  - split; [intros; left|done].
  - left. destruct (io_owner w Hi j m Hm) as [?|(i' & x & Hx & Hin)]; [done|].
    assert (phase m = kInitializing) by (eapply claimed_phase; [done..|by apply claimed_holds]). congruence.
Qed.

Lemma O_own w i c j m :
  InvO w → ctxs w !! i = Some c → at_pc c = IOwn j → machine_at (tbl w) j = Some m →
  InvO (put (put_m w j (store_owner (Z.of_nat i) m)) i (mkI IRun (j :: holds c) (st c))).
Proof.
  intros Hi Hc Hpc Hm. assert (claimed c = j :: holds c) as Ec by (unfold claimed; by rewrite Hpc).
  assert (phase m = kInitializing) as Hph by (eapply claimed_phase; [done..|rewrite Ec; left]).
  pose proof (claimed_nodup w i c Hi Hc) as Hnd.
  eapply O_both; try done; rewrite ?Ec in *; unfold claimed; simpl; try done.
  - left. left.
  - split; [intros; left|done].
  - intros j' Hne. rewrite elem_of_cons. naive_solver.
  - right. left.
Qed.

Lemma O_clear w i c j p m :
  InvO w → ctxs w !! i = Some c → at_pc c = IClear j p → machine_at (tbl w) j = Some m →
  InvO (put (put_m w j (store_owner kNoOwnerCtx m)) i (mkI (IPublish j p) (tail (holds c)) (st c))).
Proof.
  intros Hi Hc Hpc Hm. pose proof (io_pc w Hi i c Hc) as Hok. unfold pc_ok in Hok. rewrite Hpc in Hok.
  destruct Hok as [Hp Hh]. destruct (holds c) as [|j0 hs] eqn:Eh; [done|]. injection Hh as ->.
  assert (claimed c = j :: hs) as Ec by (unfold claimed; by rewrite Hpc, Eh).
  assert (phase m = kInitializing) as Hph by (eapply claimed_phase; [done..|rewrite Ec; left]).
  pose proof (claimed_nodup w i c Hi Hc) as Hnd.
  eapply O_both; try done; rewrite ?Ec in *; unfold claimed; simpl; try done.
  - left. left.
  - split; [intros; left|done].
  - intros j' Hne. rewrite Eh, elem_of_cons. naive_solver.
  - intros Hin. apply list.NoDup_cons in Hnd as [? _]. done.
  - by left.
Qed.

Lemma O_publish w i c j p m :
  InvO w → ctxs w !! i = Some c → at_pc c = IPublish j p → machine_at (tbl w) j = Some m →
  InvO (put (put_m w j (store_phase p m)) i (goto (ISwap j) c)).
Proof.
  intros Hi Hc Hpc Hm. pose proof (io_pc w Hi i c Hc) as Hok. unfold pc_ok in Hok. rewrite Hpc in Hok.
  assert (claimed c = j :: holds c) as Ec by (unfold claimed; by rewrite Hpc).
  pose proof (claimed_nodup w i c Hi Hc) as Hnd. rewrite Ec in Hnd. apply list.NoDup_cons in Hnd as [Hn Hnd].
  eapply O_both; try done; rewrite ?Ec in *; unfold claimed; simpl; try done.
  - left. left.
  - intros j' Hne. rewrite elem_of_cons. naive_solver.
  - destruct (io_owner w Hi j m Hm) as [?|(i' & x & Hx & Hin)]; [by left|].
    exfalso. destruct (decide (i' = i)) as [->|Hne]; [by simplify_eq|].
    destruct (claims_put w i c Hc) as (rest & E & E').
    pose proof (io_nodup w Hi) as HN. rewrite E, Ec in HN. apply list.NoDup_app in HN as (_ & Hd & _).
    apply (Hd j); [left|]. assert (j ∈ all_claims (put w i (mkI IDead [] Runnable))) as HA.
    { apply elem_of_all_claims. exists i', x. split; [by apply put_other|by apply claimed_holds]. }
    rewrite E', elem_of_app in HA. destruct HA as [HA|HA]; [by apply not_elem_of_nil in HA|done].
  - by exists m.
Qed.

(** The state of a context in the world after a wake: the woken one may not be the waker. *)
Lemma wake_lookup w i c n y :
  ctxs w !! i = Some c → ctxs w !! n = Some y →
  ∃ c1, ctxs (put w n (mkI (at_pc y) (holds y) Runnable)) !! i = Some c1 ∧ holds c1 = holds c ∧ at_pc c1 = at_pc c.
Proof.
  intros Hc Hy. destruct (decide (i = n)) as [->|Hne].
  - simplify_eq. eexists. split; [by eapply put_self|done].
  - exists c. split; [by apply put_other|done].
Qed.
Lemma O_wake w i c n y ws next :
  InvO w → ctxs w !! i = Some c → at_pc c = IWake ws next → ctxs w !! n = Some y →
  InvO (put (put w n (mkI (at_pc y) (holds y) Runnable)) i (goto (IWake (tail ws) next) c)).
Proof.
  intros Hi Hc Hpc Hy. destruct (wake_lookup w i c n y Hc Hy) as (c1 & Hc1 & Eh & Ep).
  eapply O_ctx; [|done|by rewrite Eh|by rewrite !claimed_plain by (simpl; by rewrite ?Ep, ?Hpc)|].
  - eapply O_ctx; try done. apply (io_pc w Hi _ y Hy).
  - pose proof (io_pc w Hi i c Hc) as Hok. unfold pc_ok in *. by rewrite Hpc in Hok.
Qed.

Lemma O_spawn w :
  InvO w → Z.of_nat (length (ctxs w)) < 2147483648 →
  InvO (mkW (tbl w) (ctxs w ++ [mkI IRun [] Runnable])).
Proof.
  intros [H1 H2 H3 H4 H5 H6 H7] Hlen.
  assert (all_claims (mkW (tbl w) (ctxs w ++ [mkI IRun [] Runnable])) = all_claims w) as E.
  { unfold all_claims. simpl. rewrite fmap_app, concat_app. simpl. by rewrite app_nil_r. }
  split; rewrite ?E; try done; simpl.
  - intros i c j m [Hc|(_ & Hc)]%lookup_app_Some; [by apply H4|].
    apply list_lookup_singleton_Some in Hc as [_ <-]. intros Hin. by apply not_elem_of_nil in Hin.
  - intros j m [?|(i & c & Hc & Hj)]%H5; [by left|right]. exists i, c. split; [|done].
    by apply lookup_app_l_Some.
  - intros i c [Hc|(_ & Hc)]%lookup_app_Some; [by eapply H6|].
    by apply list_lookup_singleton_Some in Hc as [_ <-].
  - rewrite length_app. simpl. lia.
Qed.

Lemma step_O w w' : istep w w' → InvO w → InvO w'.
Proof.
  intros H Hi. destruct H as [w i c j Hc Hpc Hv|w i c j m Hc Hpc Hm|w i c j Hc Hpc|w i c j m Hc Hpc Hm Ho
    |w i c j m Hc Hpc Hm Ho|w i c j Hc Hpc|w i c j p m m' Hc Hpc Hm Hcl|w i c j p m Hc Hpc Hm Hcl
    |w i c j m Hc Hpc Hm|w i c j m Hc Hpc Hm Hr|w i c j m m' Hc Hpc Hm Hr|w i c j Hc Hpc Hs
    |w i c j hs p Hc Hpc Hh Hp|w i c j p m Hc Hpc Hm|w i c j p m Hc Hpc Hm|w i c j m Hc Hpc Hm
    |w i c x ws next y Hc Hpc Hy|w i c next Hc Hpc|w i c Hc Hpc|w Hlen];
    eauto using O_claim, O_own, O_clear, O_publish, O_die, O_spawn;
    pose proof (io_pc w Hi i c Hc) as Hok; unfold pc_ok in Hok; rewrite Hpc in Hok;
    try (apply O_goto; [done..|by rewrite Hpc|repeat case_match; done|]).
  - done.
  - split; [by exists m|]. intros Hin. eapply claimed_phase; [done..|]. by apply claimed_holds.
  - done.
  - done.
  - assert (j ∉ holds c) by (rewrite <- (owner_self w i c j m) by done; done).
    assert (valid (tbl w) j) by (by exists m). by destruct j.
  - split; [apply Hok|]. simpl. intros Hin. discriminate (proj2 Hok Hin).
  - unfold pc_ok. simpl. case_decide; apply Hok.
  - apply Hok.
  - unfold register in Hr. case_decide; [|done]. injection Hr as <-.
    eapply (O_ctx (put_m _ _ _)); [by apply (O_m _ _ m)|done|done|by rewrite !claimed_plain by (by rewrite ?Hpc)|].
    eapply pc_ok_valid; [intros; symmetry; by eapply valid_set|apply Hok].
  - apply Hok.
  - unfold pc_ok. simpl. by rewrite Hh.
  - eapply (O_ctx (put_m _ _ _)); [by apply (O_m _ _ m)|done|done|by rewrite !claimed_plain by (by rewrite ?Hpc)|done].
  - by apply (O_wake w i c _ y (x :: ws) next).
  - destruct next; [done|by apply Hok].
Qed.

Lemma InvO_start a b c : InvO (istart a b c).
Proof.
  assert (∀ j m, machine_at (Build a b c) j = Some m → m = Owner0) as Hat.
  { intros [i|i] m; simpl; intros (-> & _)%lookup_replicate; done. }
  split; unfold all_claims; simpl.
  - constructor.
  - intros j []%not_elem_of_nil.
  - intros j m ->%Hat. split; [done|]. intros []%not_elem_of_nil.
  - intros i x j m Hx Hj. apply list_lookup_singleton_Some in Hx as [_ <-]. by apply not_elem_of_nil in Hj.
  - intros j m ->%Hat. by left.
  - intros i x Hx. by apply list_lookup_singleton_Some in Hx as [_ <-].
  - done.
Qed.

(** ** Waiting *)
Record InvW (w : iworld) : Prop := {
  iw_nodup : NoDup (queued w);
  iw_parked : ∀ x, x ∈ queued w ↔ ∃ i c, x = Z.of_nat i ∧ ctxs w !! i = Some c ∧ st c = ParkedClassInit;
  iw_pc : ∀ i c, ctxs w !! i = Some c → st c = ParkedClassInit → ∃ j, at_pc c = IParked j;
  iw_reg : ∀ j m i c, machine_at (tbl w) j = Some m → Z.of_nat i ∈ waiters m → ctxs w !! i = Some c →
    at_pc c = IParked j;
  iw_live : ∀ j m, machine_at (tbl w) j = Some m → waiters m ≠ [] →
    phase m = kInitializing ∨ ∃ i c, ctxs w !! i = Some c ∧ at_pc c = ISwap j
}.

Lemma queued_put w i c :
  ctxs w !! i = Some c → ∃ rest, queued w ≡ₚ pending c ++ rest ∧
    ∀ c', queued (put w i c') ≡ₚ pending c' ++ rest.
Proof.
  intros Hc. destruct (concat_insert pending _ _ _ Hc) as (rest & E & E').
  exists (registered (tbl w) ++ rest). unfold queued. simpl. split; [rewrite E|intros c'; rewrite E'];
    by rewrite !app_assoc, (Permutation_app_comm (registered _)).
Qed.
Lemma queued_put_m w j m :
  machine_at (tbl w) j = Some m → ∃ rest, queued w ≡ₚ waiters m ++ rest ∧
    ∀ m', queued (put_m w j m') ≡ₚ waiters m' ++ rest.
Proof.
  intros Hm. destruct (registered_set _ _ _ Hm) as (rest & E & E').
  exists (rest ++ concat (pending <$> ctxs w)). unfold queued. simpl. split; [rewrite E|intros m'; rewrite E'];
    by rewrite <- !app_assoc.
Qed.
Lemma waiters_queued w j m x : machine_at (tbl w) j = Some m → x ∈ waiters m → x ∈ queued w.
Proof. intros Hm Hx. unfold queued. apply elem_of_app. left. apply elem_of_registered. eauto. Qed.

(** One context that is not parked moves, and machines change: as many wait as before,
    and a machine that keeps its waiters is still answered for. *)
Lemma W_gen w w' i c c' :
  InvW w → ctxs w !! i = Some c → ctxs w' = <[i := c']> (ctxs w) → queued w' ≡ₚ queued w →
  st c ≠ ParkedClassInit → st c' ≠ ParkedClassInit →
  (∀ j m', machine_at (tbl w') j = Some m' → waiters m' = [] ∨
     ∃ m, machine_at (tbl w) j = Some m ∧ waiters m' = waiters m ∧
       (at_pc c' = ISwap j ∨ phase m' = kInitializing ∨ (phase m' = phase m ∧ at_pc c ≠ ISwap j))) →
  InvW w'.
Proof.
  intros [H1 H2 H3 H4 H5] Hc Hw' Eq Hst Hst' Hm.
  assert (∀ i' y, ctxs w' !! i' = Some y → (i' = i ∧ y = c') ∨ (i' ≠ i ∧ ctxs w !! i' = Some y)) as Hput.
  { rewrite Hw'. apply (put_lookup w). }
  split.
  - by rewrite Eq.
  - intros x. rewrite Eq, H2. split.
    + intros (i' & y & -> & Hy & Hs). exists i', y. split_and!; [done| |done].
      rewrite Hw'. apply (put_other w); [|done]. intros ->. by simplify_eq.
    + intros (i' & y & -> & [[-> ->]|[Hne Hy]]%Hput & Hs); [done|eauto].
  - intros i' y [[-> ->]|[_ Hy]]%Hput Hs; [done|by eapply H3].
  - intros j m' i' y Hj Hin Hy. destruct (Hm j m' Hj) as [E|(m & Hjm & E & _)]; rewrite E in Hin.
    { by apply not_elem_of_nil in Hin. }
    apply Hput in Hy as [[-> ->]|[_ Hy]]; [|by eapply H4].
    assert (Z.of_nat i ∈ queued w) as (i' & y & Ei & Hy & Hs)%H2 by (by eapply waiters_queued).
    assert (i' = i) as -> by lia. by simplify_eq.
  - intros j m' Hj Hne. destruct (Hm j m' Hj) as [E|(m & Hjm & E & [Ep|[Ep|[Ep Hns]]])]; [done| |by left|].
    + right. exists i, c'. split; [|done]. rewrite Hw'. by apply (put_self w i c).
    + rewrite Ep. rewrite E in Hne. destruct (H5 j m Hjm Hne) as [?|(i' & y & Hy & Hs)]; [by left|right].
      exists i', y. split; [|done]. rewrite Hw'. apply (put_other w); [|done]. intros ->. by simplify_eq.
Qed.

Lemma not_parked w i c : InvW w → ctxs w !! i = Some c → (∀ j, at_pc c ≠ IParked j) → st c ≠ ParkedClassInit.
Proof. intros Hi Hc Hp Hs. destruct (iw_pc w Hi i c Hc Hs) as [j E]. by destruct (Hp j). Qed.

(** The table does not change. *)
Lemma W_goto w i c pc :
  InvW w → ctxs w !! i = Some c → pending (goto pc c) = pending c → st c ≠ ParkedClassInit →
  (∀ j, at_pc c ≠ ISwap j) → InvW (put w i (goto pc c)).
Proof.
  intros Hi Hc Hp Hst Hns. destruct (queued_put w i c Hc) as (rest & E & E').
  apply (W_gen w _ i c (goto pc c)); try done.
  - by rewrite E', E, Hp.
  - intros j m' Hj. right. exists m'. split_and!; [done..|]. by right; right.
Qed.
(** One machine keeps its waiters. *)
Lemma W_both w i c c' j m m' :
  InvW w → ctxs w !! i = Some c → machine_at (tbl w) j = Some m → pending c' = pending c →
  st c ≠ ParkedClassInit → st c' ≠ ParkedClassInit → (∀ j, at_pc c ≠ ISwap j) →
  waiters m' = waiters m → phase m' = phase m ∨ phase m' = kInitializing ∨ at_pc c' = ISwap j →
  InvW (put (put_m w j m') i c').
Proof.
  intros Hi Hc Hm Hp Hst Hst' Hns Hw Hph.
  destruct (queued_put_m w j m Hm) as (r & E & E').
  destruct (queued_put (put_m w j m') i c Hc) as (r2 & E2 & E2').
  apply (W_gen w _ i c c'); try done.
  - by rewrite E2', Hp, <- E2, E', Hw, E.
  - intros j' x. simpl. rewrite (machine_at_set _ _ _ _ _ Hm). destruct (decide (j' = j)) as [->|Hne].
    + intros [= <-]. right. exists m. split_and!; [done..|]. naive_solver.
    + intros Hx. right. exists x. split_and!; [done..|]. by right; right.
Qed.

Lemma W_swap w i c j m :
  InvW w → ctxs w !! i = Some c → at_pc c = ISwap j → machine_at (tbl w) j = Some m →
  InvW (put (put_m w j (swap_waiters m).2) i (goto (IWake (swap_waiters m).1 true) c)).
Proof.
  intros Hi Hc Hpc Hm. destruct (queued_put_m w j m Hm) as (r & E & E').
  destruct (queued_put (put_m w j (swap_waiters m).2) i c Hc) as (r2 & E2 & E2').
  assert (st c ≠ ParkedClassInit) by (eapply not_parked; [done..|by rewrite Hpc]).
  eapply (W_gen w _ i c); try done.
  - rewrite E2', E. specialize (E' (swap_waiters m).2). rewrite E2 in E'. unfold pending in E' at 1.
    rewrite Hpc in E'. simpl in *. by rewrite E'.
  - intros j' x. simpl. rewrite (machine_at_set _ _ _ _ _ Hm). destruct (decide (j' = j)) as [->|Hne].
    + intros [= <-]. by left.
    + intros Hx. right. exists x. split_and!; [done..|]. right; right. split; [done|congruence].
Qed.

Lemma W_die w i c :
  InvW w → ctxs w !! i = Some c → at_pc c = IRun →
  InvW (put (mkW (ReleaseContextClaims (Z.of_nat i) (tbl w)).2 (ctxs w)) i
          (mkI (IWake (ReleaseContextClaims (Z.of_nat i) (tbl w)).1 false) [] Failed)).
Proof.
  intros Hi Hc Hpc. set (w1 := mkW _ (ctxs w)).
  destruct (queued_put w1 i c Hc) as (r2 & E2 & E2').
  assert (st c ≠ ParkedClassInit) by (eapply not_parked; [done..|by rewrite Hpc]).
  eapply (W_gen w _ i c); try done.
  - rewrite E2'. unfold pending at 1. cbn [at_pc].
    assert (r2 ≡ₚ queued w1) as -> by (rewrite E2; unfold pending; by rewrite Hpc).
    unfold queued, w1. cbn [tbl ctxs]. by rewrite app_assoc, release_perm.
  - intros j m'. change (machine_at (tbl (put w1 i _)) j) with
      (machine_at ((ReleaseContextClaims (Z.of_nat i) (tbl w)).2) j).
    rewrite machine_at_release. intros (m & Hm & ->)%fmap_Some. unfold ResetClaimedMachine.
    case_decide; [by left|right]. exists m. split_and!; [done..|]. right; right. split; [done|by rewrite Hpc].
Qed.

Lemma W_park w i c j m m' :
  InvW w → ctxs w !! i = Some c → at_pc c = IWait j → machine_at (tbl w) j = Some m →
  register (Z.of_nat i) m = Some m' →
  InvW (put (put_m w j m') i (mkI (IParked j) (holds c) ParkedClassInit)).
Proof.
  intros Hi Hc Hpc Hm. unfold register. case_decide as Hph; [|done]. intros [= <-].
  assert (st c ≠ ParkedClassInit) as Hst by (eapply not_parked; [done..|by rewrite Hpc]).
  set (m' := mkOwner _ _ _). set (c' := mkI _ _ _). set (w' := put _ i c').
  destruct (queued_put_m w j m Hm) as (r & E & E').
  destruct (queued_put (put_m w j m') i c Hc) as (r2 & E2 & E2').
  destruct Hi as [H1 H2 H3 H4 H5].
  assert (queued w' ≡ₚ Z.of_nat i :: queued w) as Eq.
  { unfold w'. rewrite E2', E. specialize (E' m'). rewrite E2 in E'. unfold pending in E' at 1.
    rewrite Hpc in E'. simpl in *. rewrite E', <- app_assoc. symmetry. by apply Permutation_middle. }
  assert (∀ j' x', machine_at (tbl w') j' = Some x' → ∃ x, machine_at (tbl w) j' = Some x ∧
    phase x' = phase x ∧ (∀ z, z ∈ waiters x' → z ∈ waiters x ∨ z = Z.of_nat i ∧ j' = j) ∧
    (waiters x' ≠ [] → waiters x ≠ [] ∨ j' = j)) as Hat.
  { intros j' x'. unfold w'. simpl. rewrite (machine_at_set _ _ _ _ _ Hm).
    destruct (decide (j' = j)) as [->|]; [|naive_solver]. intros [= <-]. exists m.
    split_and!; [done|done| |by right]. intros z. simpl. rewrite elem_of_app, list_elem_of_singleton. naive_solver. }
  split.
  - rewrite Eq. apply list.NoDup_cons. split; [|done].
    intros (i' & y & Ei & Hy & Hs)%H2. assert (i' = i) as -> by lia. by simplify_eq.
  - intros x. rewrite Eq, elem_of_cons, H2. split.
    + intros [->|(i' & y & -> & Hy & Hs)].
      * exists i, c'. split_and!; [done|by eapply (put_self (put_m w j m'))|done].
      * exists i', y. split_and!; [done| |done]. apply put_other; [|done]. intros ->. by simplify_eq.
    + intros (i' & y & -> & [[-> ->]|[Hne Hy]]%put_lookup & Hs); [by left|right; eauto].
  - intros i' y [[-> ->]|[_ Hy]]%put_lookup Hs; [by exists j|by eapply H3].
  - intros j' x' i' y (x & Hx & _ & Hz & _)%Hat [Hin|[Ei ->]]%Hz [[-> ->]|[Hne Hy]]%put_lookup.
    + specialize (H4 j' x i c Hx Hin Hc). congruence.
    + by eapply H4.
    + done.
    + assert (i' = i) by lia. done.
  - intros j' x' (x & Hx & -> & _ & Hn)%Hat [Hne| ->]%Hn; [|left; by simplify_eq].
    destruct (H5 j' x Hx Hne) as [?|(i' & y & Hy & Hs)]; [by left|right].
    exists i', y. split; [|done]. apply put_other; [|done]. intros ->. assert (y = c) as -> by congruence. congruence.
Qed.

Lemma W_wake w i c x ws next y :
  InvW w → ctxs w !! i = Some c → at_pc c = IWake (x :: ws) next → ctxs w !! Z.to_nat x = Some y →
  InvW (put (put w (Z.to_nat x) (mkI (at_pc y) (holds y) Runnable)) i (goto (IWake ws next) c)).
Proof.
  intros [H1 H2 H3 H4 H5] Hc Hpc. destruct (queued_put w i c Hc) as (r & E & E').
  assert (x ∈ queued w) as (n & y0 & -> & Hy0 & Hs0)%H2.
  { rewrite E. unfold pending. rewrite Hpc. left. }
  rewrite Nat2Z.id. intros Hy. assert (y0 = y) as -> by congruence.
  set (y' := mkI _ _ _). set (c' := goto _ c). set (w' := put _ i c').
  destruct (H3 n y Hy Hs0) as [jy Hjy].
  assert (n ≠ i) as Hni by (intros ->; simplify_eq; congruence).
  assert (ctxs (put w n y') !! i = Some c) as Hc' by (by apply put_other).
  destruct (queued_put (put w n y') i c Hc') as (r2 & E2 & E2').
  destruct (queued_put w n y Hy) as (r3 & E3 & E3').
  assert (queued w ≡ₚ Z.of_nat n :: queued w') as Eq.
  { unfold w'. rewrite E2'. specialize (E3' y'). rewrite E2 in E3'. unfold pending in *. simpl in *.
    rewrite Hjy in *. rewrite Hpc in *. by rewrite E3, <- E3'. }
  assert (NoDup (Z.of_nat n :: queued w')) as Hnd by (by rewrite <- Eq).
  apply list.NoDup_cons in Hnd as [Hn Hnd].
  assert (∀ i' z', ctxs w' !! i' = Some z' → ∃ z, ctxs w !! i' = Some z ∧
    ((at_pc z' = at_pc z ∧ st z' = st z ∧ i' ≠ n ∧ i' ≠ i) ∨ (i' = n ∧ z' = y') ∨ (i' = i ∧ z' = c'))) as Hback.
  { intros i' z' [[-> ->]|[Hne [[-> ->]|[Hne' Hz]]%put_lookup]]%put_lookup; naive_solver. }
  assert (∀ i' z, i' ≠ n → i' ≠ i → ctxs w !! i' = Some z → ctxs w' !! i' = Some z) as Hfwd.
  { intros. apply put_other; [done|by apply put_other]. }
  assert (st c ≠ ParkedClassInit) as Hst.
  { intros Hs. destruct (H3 i c Hc Hs). congruence. }
  split; [done| | | |].
  - intros z. split.
    + intros Hz. assert (z ∈ queued w) as (i' & v & -> & Hv & Hs)%H2 by (rewrite Eq; by right).
      exists i', v. split_and!; [done| |done]. apply Hfwd; [|intros ->; by simplify_eq|done].
      intros ->. by destruct Hn.
    + intros (i' & z' & -> & (v & Hv & [(_ & Es & Hne & _)|[[-> ->]|[-> ->]]])%Hback & Hs); [|done|done].
      assert (Z.of_nat i' ∈ queued w) as Hq by (apply H2; exists i', v; split_and!; congruence).
      rewrite Eq in Hq. apply elem_of_cons in Hq as [?|?]; [lia|done].
  - intros i' z' (v & Hv & [(Ep & Es & _)|[[-> ->]|[-> ->]]])%Hback Hs; [|done|done].
    rewrite Ep. eapply H3; [done|congruence].
  - intros j m i' z' Hm Hin (v & Hv & [(Ep & _)|[[-> ->]|[-> ->]]])%Hback.
    + rewrite Ep. by eapply H4.
    + by eapply (H4 j m n y).
    + specialize (H4 j m i c Hm Hin Hc). congruence.
  - intros j m Hm Hne. destruct (H5 j m Hm Hne) as [?|(i' & z & Hz & Hs)]; [by left|right].
    exists i', z. split; [|done]. apply Hfwd; [intros ->|intros ->|done]; simplify_eq; congruence.
Qed.

Lemma W_spawn w : InvW w → InvW (mkW (tbl w) (ctxs w ++ [mkI IRun [] Runnable])).
Proof.
  intros [H1 H2 H3 H4 H5]. set (w' := mkW _ _).
  assert (queued w' = queued w) as E.
  { unfold queued. simpl. rewrite fmap_app, concat_app. simpl. by rewrite app_nil_r. }
  assert (∀ i c, ctxs w' !! i = Some c → ctxs w !! i = Some c ∨ c = mkI IRun [] Runnable ∧ ctxs w !! i = None) as Hb.
  { intros i c [Hc|(? & Hc)]%lookup_app_Some; [by left|right].
    apply list_lookup_singleton_Some in Hc as [? <-]. split; [done|]. by apply lookup_ge_None. }
  split; rewrite ?E; [done| | | |].
  - intros x. rewrite H2. split; intros (i & c & -> & Hc & Hs); exists i, c; (split_and!; [done| |done]).
    + by apply lookup_app_l_Some.
    + by apply Hb in Hc as [?|[-> _]].
  - intros i c [Hc|[-> _]]%Hb Hs; [by eapply H3|done].
  - intros j m i c Hm Hin [Hc|[-> Hn]]%Hb; [by eapply H4|].
    assert (Z.of_nat i ∈ queued w) as (i' & y & Ei & Hy & Hs)%H2 by (by eapply waiters_queued).
    assert (i' = i) as -> by lia. congruence.
  - intros j m Hm Hne. destruct (H5 j m Hm Hne) as [?|(i' & z & Hz & Hs)]; [by left|right].
    exists i', z. split; [by apply lookup_app_l_Some|done].
Qed.

Lemma step_W w w' : istep w w' → InvO w → InvW w → InvW w'.
Proof.
  intros H HO Hi. destruct H as [w i c j Hc Hpc Hv|w i c j m Hc Hpc Hm|w i c j Hc Hpc|w i c j m Hc Hpc Hm Ho
    |w i c j m Hc Hpc Hm Ho|w i c j Hc Hpc|w i c j p m m' Hc Hpc Hm Hcl|w i c j p m Hc Hpc Hm Hcl
    |w i c j m Hc Hpc Hm|w i c j m Hc Hpc Hm Hr|w i c j m m' Hc Hpc Hm Hr|w i c j Hc Hpc Hs
    |w i c j hs p Hc Hpc Hh Hp|w i c j p m Hc Hpc Hm|w i c j p m Hc Hpc Hm|w i c j m Hc Hpc Hm
    |w i c x ws next y Hc Hpc Hy|w i c next Hc Hpc|w i c Hc Hpc|w Hlen];
    eauto using W_park, W_wake, W_die, W_spawn, W_swap;
    assert (st c ≠ ParkedClassInit) as Hst by
      first [congruence | eapply not_parked; [done..|by rewrite Hpc]];
    first [apply W_goto; [done..|unfold pending; simpl; rewrite Hpc; by repeat case_match|done|by rewrite Hpc]
          |eapply W_both; try done; [unfold pending; simpl; by rewrite Hpc|by rewrite Hpc|..]].
  - unfold claim in Hcl. case_decide; [|done]. by injection Hcl as <-.
  - unfold claim in Hcl. case_decide; [|done]. injection Hcl as <-. by right; left.
  - by left.
  - by left.
  - by right; right.
Qed.

Lemma InvW_start a b c : InvW (istart a b c).
Proof.
  assert (registered (Build a b c) = []) as E.
  { unfold registered, Build. cbn [m_owners m_slotMachines].
    assert (∀ n, concat (waiters <$> replicate n Owner0) = []) as -> by (induction n; done).
    simpl. by induction a. }
  assert (queued (istart a b c) = []) as Eq by (unfold queued; simpl; by rewrite E).
  split; rewrite ?Eq; simpl.
  - constructor.
  - intros x. split; [intros []%not_elem_of_nil|].
    intros (i & y & -> & Hy & Hs). by apply list_lookup_singleton_Some in Hy as [_ <-].
  - intros i y Hy Hs. by apply list_lookup_singleton_Some in Hy as [_ <-].
  - intros j m i y Hm Hin. assert (Z.of_nat i ∈ registered (Build a b c)) as Hq
      by (apply elem_of_registered; eauto). rewrite E in Hq. by apply not_elem_of_nil in Hq.
  - intros j m Hm Hne. destruct (waiters m) as [|x l] eqn:Ew; [done|].
    assert (x ∈ registered (Build a b c)) as Hq.
    { apply elem_of_registered. exists j, m. split; [done|]. rewrite Ew. left. }
    rewrite E in Hq. by apply not_elem_of_nil in Hq.
Qed.

Lemma ireachable_inv w : ireachable w → InvO w ∧ InvW w.
Proof.
  intros (a & b & c & H). assert (InvO (istart a b c) ∧ InvW (istart a b c)) as Hi
    by (split; [apply InvO_start|apply InvW_start]).
  induction H as [|x y z Hs _ IH]; [done|]. apply IH. destruct Hi.
  split; [by eapply step_O|by eapply step_W].
Qed.

(** ** Published machines stay published *)
Definition published (t : VmStaticSlots) (j : machine) : Prop :=
  ∃ m, machine_at t j = Some m ∧ phase m = kDone.

Lemma published_set t j j' m m' :
  machine_at t j = Some m → (phase m = kDone → phase m' = kDone) →
  published t j' → published (set_machine j m' t) j'.
Proof.
  intros Hm Hp (x & Hx & Hd). unfold published. rewrite (machine_at_set _ _ _ _ _ Hm).
  destruct (decide (j' = j)) as [->|]; [|eauto]. exists m'. split; [done|]. apply Hp. congruence.
Qed.

Lemma step_published w w' j : istep w w' → InvO w → published (tbl w) j → published (tbl w') j.
Proof.
  intros H Hi Hd. destruct H; try done; simpl; try (eapply published_set; [done| |done]; intros Hph).
  - match goal with H : claim _ = _ |- _ => unfold claim in H end. case_decide; congruence.
  - done.
  - match goal with H : register _ _ = _ |- _ => unfold register in H end. case_decide; congruence.
  - done.
  - exfalso. assert (phase m = kInitializing); [|congruence].
    eapply claimed_phase; [done..|]. unfold claimed. match goal with H : at_pc _ = _ |- _ => rewrite H end. left.
  - done.
  - destruct Hd as (m & Hm & Hph). unfold published.
    change (machine_at _ j) with (machine_at ((ReleaseContextClaims (Z.of_nat i) (tbl w)).2) j).
    rewrite machine_at_release, Hm. exists m. split; [|done]. simpl. unfold ResetClaimedMachine.
    by rewrite decide_False by (intros [? _]; congruence).
Qed.

Lemma steps_published w w' j : rtc istep w w' → InvO w → published (tbl w) j → InvO w' ∧ published (tbl w') j.
Proof.
  intros H. induction H as [|x y z Hs _ IH]; [done|]. intros Hi Hd. apply IH; [by eapply step_O|by eapply step_published].
Qed.

(** A context that read [kDone] is at a published machine. *)
Definition InvD (w : iworld) : Prop :=
  ∀ i c j, ctxs w !! i = Some c → at_pc c = ILoaded j kDone → published (tbl w) j.
Lemma step_D w w' : istep w w' → InvO w → InvD w → InvD w'.
Proof.
  intros H Hi Hd i0 c0 j0 H0 E0.
  assert (∀ c, ctxs w !! i0 = Some c → at_pc c = ILoaded j0 kDone → published (tbl w') j0) as Hold.
  { intros c Hc Ec. eapply step_published; [done..|]. by eapply Hd. }
  destruct H;
    try (apply put_lookup in H0 as [[-> ->]|[_ H0]]; [|by eapply Hold]; simpl in E0;
         repeat case_match; simplify_eq; try done; fail).
  - apply put_lookup in H0 as [[-> ->]|[_ H0]]; [|by eapply Hold].
    simpl in E0. injection E0 as -> Hph. by exists m.
  - apply put_lookup in H0 as [[-> ->]|[_ [[-> ->]|[_ H0]]%put_lookup]]; [done| |by eapply Hold].
    by eapply Hold.
  - apply lookup_app_Some in H0 as [H0|[_ H0]]; [by eapply Hold|].
    by apply list_lookup_singleton_Some in H0 as [_ <-].
Qed.

Lemma ireachable_all w : ireachable w → InvO w ∧ InvW w ∧ InvD w.
Proof.
  intros (a & b & c & H). assert (InvO (istart a b c) ∧ InvW (istart a b c) ∧ InvD (istart a b c)) as Hi.
  { split_and!; [apply InvO_start|apply InvW_start|].
    intros i x j Hx Ep. by apply list_lookup_singleton_Some in Hx as [_ <-]. }
  induction H as [|x y z Hs _ IH]; [done|]. apply IH. destruct Hi as (? & ? & ?).
  split_and!; [by eapply step_O|by eapply step_W|by eapply step_D].
Qed.

(** ** Properties *)

(** C4: Static initialization runs once: over any interleaving at most one context runs the
    initializer of an owner, exactly while the owner is Initializing; once a run has
    succeeded the owner stays Done and nobody ever runs the initializer again; a dead
    context holds no claim. *)
Theorem static_init_once w w' :
  ireachable w → rtc istep w w' →
  (∀ j m, machine_at (tbl w) j = Some m →
     (phase m = kInitializing ↔ ∃ i c, ctxs w !! i = Some c ∧ j ∈ claimed c)) ∧
  (∀ j i i' c c', ctxs w !! i = Some c → ctxs w !! i' = Some c' → j ∈ claimed c → j ∈ claimed c' → i = i') ∧
  (∀ j, published (tbl w) j → published (tbl w') j ∧
     ∀ i c, ctxs w' !! i = Some c → j ∉ claimed c) ∧
  (∀ i c, ctxs w !! i = Some c → at_pc c = IDead → claimed c = []).
Proof.
  intros (Hi & _)%ireachable_all Hw'. split_and!.
  - intros j m Hm. rewrite (io_phase w Hi j m Hm). apply elem_of_all_claims.
  - intros j i i' c c' Hc Hc' Hj Hj'. destruct (decide (i' = i)) as [->|Hne]; [done|].
    destruct (claims_put w i c Hc) as (rest & E & E'). pose proof (io_nodup w Hi) as Hnd. rewrite E in Hnd.
    apply list.NoDup_app in Hnd as (_ & Hd & _). destruct (Hd j Hj).
    assert (j ∈ all_claims (put w i (mkI IDead [] Runnable))) as HA.
    { apply elem_of_all_claims. exists i', c'. split; [by apply put_other|done]. }
    rewrite E', elem_of_app in HA. destruct HA as [HA|HA]; [by apply not_elem_of_nil in HA|done].
  - intros j Hd. destruct (steps_published w w' j Hw' Hi Hd) as [Hi' Hd']. split; [done|].
    intros i c Hc Hin. destruct Hd' as (m & Hm & Hp). pose proof (claimed_phase w' i c j m Hi' Hc Hm Hin). congruence.
  - intros i c Hc Ep. pose proof (io_pc w Hi i c Hc) as H. unfold pc_ok in H. rewrite Ep in H.
    unfold claimed. by rewrite Ep, H.
Qed.

(** The machine of a gate a context is passing through. *)
Definition at_gate (pc : ipc) : option machine :=
  match pc with
  | IGate j | ILoaded j _ | IClaim j _ | IOwn j | IWait j | IParked j => Some j
  | _ => None
  end.

(** A context leaves a gate only when the owner is Done, when its own initializer is
    running deeper on its stack, or to run the initializer itself. *)
Theorem gate_passes w w' i c c' j :
  ireachable w → istep w w' → ctxs w !! i = Some c → ctxs w' !! i = Some c' →
  at_gate (at_pc c) = Some j → at_gate (at_pc c') ≠ Some j →
  at_pc c' = IRun ∧
  (published (tbl w') j ∨ (j ∈ holds c ∧ holds c' = holds c) ∨ (at_pc c = IOwn j ∧ holds c' = j :: holds c)).
Proof.
  intros (Hi & Hw & HD)%ireachable_all Hs Hc Hc' Hg Hg'. destruct Hs as [w i0 c0 j0 Hx Hpc Hv|w i0 c0 j0 m Hx Hpc Hm
    |w i0 c0 j0 Hx Hpc|w i0 c0 j0 m Hx Hpc Hm Ho
    |w i0 c0 j0 m Hx Hpc Hm Ho|w i0 c0 j0 Hx Hpc|w i0 c0 j0 p m m' Hx Hpc Hm Hcl|w i0 c0 j0 p m Hx Hpc Hm Hcl
    |w i0 c0 j0 m Hx Hpc Hm|w i0 c0 j0 m Hx Hpc Hm Hr|w i0 c0 j0 m m' Hx Hpc Hm Hr|w i0 c0 j0 Hx Hpc Hst
    |w i0 c0 j0 hs p Hx Hpc Hh Hp|w i0 c0 j0 p m Hx Hpc Hm|w i0 c0 j0 p m Hx Hpc Hm|w i0 c0 j0 m Hx Hpc Hm
    |w i0 c0 x ws next y Hx Hpc Hy|w i0 c0 next Hx Hpc|w i0 c0 Hx Hpc|w Hlen];
    assert (ctxs w !! i = Some c' → False) as Hsame by (intros; simplify_eq);
    try (apply put_lookup in Hc' as [[-> ->]|[_ Hc']]; [|by apply Hsame in Hc'];
         try (assert (c0 = c) as -> by congruence; rewrite Hpc in Hg; simpl in Hg, Hg';
              repeat case_match; simplify_eq; done)).
  - assert (c0 = c) as -> by congruence. rewrite Hpc in Hg. injection Hg as ->.
    split; [done|left]. by eapply HD.
  - assert (c0 = c) as -> by congruence. rewrite Hpc in Hg. injection Hg as ->.
    split; [done|right; left]. split; [|done]. by apply (owner_self w i0 c j m).
  - assert (c0 = c) as -> by congruence. rewrite Hpc in Hg. injection Hg as ->.
    split; [done|by right; right].
  - apply put_lookup in Hc' as [[-> ->]|[_ [[-> ->]|[_ Hc']]%put_lookup]]; [| |by apply Hsame in Hc'].
    + assert (c0 = c) as -> by congruence. by rewrite Hpc in Hg.
    + simplify_eq.
  - apply lookup_app_Some in Hc' as [Hc'|[Hl _]]; [by apply Hsame in Hc'|]. apply lookup_lt_Some in Hc. lia.
Qed.

(** No wakeup is lost: a context parked on an owner is in the owner's list while another
    live context initializes it or is about to take the list, or it is in the list of a
    context that is waking its waiters. *)
Theorem init_waiters_not_stranded w i c :
  ireachable w → ctxs w !! i = Some c → st c = ParkedClassInit →
  ∃ j, at_pc c = IParked j ∧ (j ∉ holds c) ∧
    ((∃ m, machine_at (tbl w) j = Some m ∧ Z.of_nat i ∈ waiters m ∧
        ∃ i' c', i' ≠ i ∧ ctxs w !! i' = Some c' ∧ at_pc c' ≠ IDead ∧ (j ∈ claimed c' ∨ at_pc c' = ISwap j))
     ∨ ∃ i' c' ws next, ctxs w !! i' = Some c' ∧ at_pc c' = IWake ws next ∧ Z.of_nat i ∈ ws).
Proof.
  intros (Hi & Hw & _)%ireachable_all Hc Hs. destruct (iw_pc w Hw i c Hc Hs) as [j Hj]. exists j.
  pose proof (io_pc w Hi i c Hc) as Hok. unfold pc_ok in Hok. rewrite Hj in Hok. destruct Hok as [Hv Hnh].
  split; [done|]. split; [done|].
  assert (Z.of_nat i ∈ queued w) as Hq by (apply (iw_parked w Hw); eauto).
  unfold queued in Hq. apply elem_of_app in Hq as [Hq|Hq].
  - left. apply elem_of_registered in Hq as (j' & m & Hm & Hin).
    assert (j' = j) as -> by (pose proof (iw_reg w Hw j' m i c Hm Hin Hc); congruence).
    exists m. split; [done|]. split; [done|].
    assert (waiters m ≠ []) as Hne by (intros E; rewrite E in Hin; by apply not_elem_of_nil in Hin).
    destruct (iw_live w Hw j m Hm Hne) as [Hp|(i' & c' & Hc' & Hp)].
    + apply (io_phase w Hi j m Hm), elem_of_all_claims in Hp as (i' & c' & Hc' & Hin').
      exists i', c'. split_and!; [|done| |by left].
      * intros ->. simplify_eq. apply Hnh. by rewrite claimed_plain in Hin' by (by rewrite Hj).
      * intros Ed. pose proof (io_pc w Hi i' c' Hc') as H. unfold pc_ok in H. rewrite Ed in H.
        unfold claimed in Hin'. rewrite Ed, H in Hin'. by apply not_elem_of_nil in Hin'.
    + exists i', c'. split_and!; [|done|by rewrite Hp|by right]. intros ->. simplify_eq. congruence.
  - right. apply elem_of_concat_fmap in Hq as (i' & c' & Hc' & Hin). unfold pending in Hin.
    destruct (at_pc c') as [| | | | | | | | | |ws next|] eqn:Ep; try by apply not_elem_of_nil in Hin.
    by exists i', c', ws, next.
Qed.

(** ** Handlers and interleavings *)
Lemma put_put w i a b : put (put w i a) i b = put w i b.
Proof. unfold put. simpl. by rewrite list_insert_insert_eq. Qed.
Lemma put_id w i c : ctxs w !! i = Some c → put w i c = w.
Proof. destruct w. unfold put. simpl. intros H. by rewrite list_insert_id. Qed.
Lemma put_m_put w i c j m : put_m (put w i c) j m = put (put_m w j m) i c.
Proof. done. Qed.
Lemma put_m_put_m w j a b : put_m (put_m w j a) j b = put_m w j b.
Proof. unfold put_m. destruct j; simpl; by rewrite list_insert_insert_eq. Qed.
Lemma put_m_id w j m : machine_at (tbl w) j = Some m → put_m w j m = w.
Proof.
  destruct w as [[] cs]. unfold put_m. destruct j; simpl; intros H; by rewrite list_insert_id.
Qed.
Lemma machine_put_m w j m0 m : machine_at (tbl w) j = Some m0 → machine_at (tbl (put_m w j m)) j = Some m.
Proof. intros H. simpl. rewrite (machine_at_set _ _ _ _ _ H). by rewrite decide_True. Qed.

Lemma istep_eq w w1 w2 : istep w w1 → w1 = w2 → istep w w2.
Proof. by intros H <-. Qed.
(** The next access of context [i], which [put] has just placed at some point. *)
Ltac next C := eapply istep_eq; [eapply C; [by eapply put_self|done..]|];
  by rewrite ?put_m_put, ?put_put, ?put_m_put_m.

(** The gate loop makes up its mind in one round when nobody interferes. *)
Lemma gate_loop_decides slot selfId m allowed :
  gate_loop slot 1 selfId allowed m =
    if decide (phase m = kDone ∨ phase m = kInitializing ∧ ownerCtxId m = selfId) then Ok (GateSkip, m)
    else if decide (phase m = kUninitialized)
    then Ok (GateRun, mkOwner kInitializing selfId (waiters m))
    else if allowed then Ok (GateWait, mkOwner kInitializing (ownerCtxId m) (waiters m ++ [selfId]))
    else Raise SuspensionRefused.
Proof.
  destruct m as [p o ws]. unfold gate_loop, claim, register. simpl.
  destruct slot, p; simpl; repeat case_decide; naive_solver.
Qed.

Lemma to_loaded w i c j m :
  ctxs w !! i = Some c → at_pc c = IRun → machine_at (tbl w) j = Some m →
  rtc istep w (put w i (goto (ILoaded j (phase m)) c)).
Proof.
  intros Hc Hpc Hm. eapply rtc_l; [by eapply (is_gate w i c j)|]. apply rtc_once. by next is_load.
Qed.
Lemma loaded_to_run w i c j m :
  ctxs w !! i = Some c → machine_at (tbl w) j = Some m → phase m = kUninitialized →
  rtc istep (put w i (goto (ILoaded j (phase m)) c))
    (put (put_m w j (mkOwner kInitializing (Z.of_nat i) (waiters m))) i (mkI IRun (j :: holds c) (st c))).
Proof.
  intros Hc Hm Hu. rewrite Hu. set (m1 := store_phase kInitializing m).
  apply rtc_l with (put w i (goto (IClaim j kUninitialized) c)); [by next is_fresh|].
  apply rtc_l with (put (put_m w j m1) i (goto (IOwn j) c)).
  { eapply istep_eq; [eapply is_claim; [by eapply put_self|done|done|]|by rewrite put_m_put, put_put].
    unfold claim. by rewrite decide_True. }
  apply rtc_once. eapply istep_eq.
  - eapply is_own; [by eapply (put_self (put_m w j m1))|done|]. by eapply machine_put_m.
  - by rewrite put_m_put, put_put, put_m_put_m.
Qed.
Lemma loaded_to_wait w i c j m :
  ctxs w !! i = Some c → machine_at (tbl w) j = Some m → phase m = kInitializing → ownerCtxId m ≠ Z.of_nat i →
  rtc istep (put w i (goto (ILoaded j (phase m)) c)) (put w i (goto (IWait j) c)).
Proof.
  intros Hc Hm Hin Hno. rewrite Hin.
  assert (istep (put w i (goto (ILoaded j kInitializing) c))
            (put w i (goto (if is_slot j then IClaim j kInitializing else IWait j) c))) as Hs by (by next is_other).
  destruct (is_slot j); [|by apply rtc_once]. eapply rtc_l; [exact Hs|]. apply rtc_once.
  eapply istep_eq; [eapply is_lose; [by eapply put_self|done|done|]|by rewrite put_put, decide_True].
  unfold claim. by rewrite decide_False by (by rewrite Hin).
Qed.

(** A handler that nobody interrupts is a path of the step relation. *)
Theorem gate_refines_steps w i c j m allowed e m' :
  ctxs w !! i = Some c → at_pc c = IRun → machine_at (tbl w) j = Some m →
  gate_loop (is_slot j) 1 (Z.of_nat i) allowed m = Ok (e, m') →
  rtc istep w (put (put_m w j m') i
    match e with
    | GateSkip => c
    | GateRun => mkI IRun (j :: holds c) (st c)
    | GateWait => mkI (IParked j) (holds c) ParkedClassInit
    end).
Proof.
  intros Hc Hpc Hm. rewrite gate_loop_decides. intros He.
  etrans; [by eapply to_loaded|]. case_decide as Hskip; [|case_decide as Hu].
  - injection He as <- <-. rewrite put_m_id by done. apply rtc_once.
    assert (goto IRun c = c) as Eg by (destruct c; unfold goto; simpl in *; by rewrite Hpc).
    destruct Hskip as [Hd|[Hin Ho]]; rewrite ?Hd, ?Hin; rewrite <- Eg at 2;
      [by next is_pass_done|by next is_pass_self].
  - injection He as <- <-. by apply loaded_to_run.
  - assert (phase m = kInitializing) as Hin by (destruct (phase m); naive_solver).
    destruct allowed; [|done]. injection He as <- <-.
    etrans; [apply loaded_to_wait; naive_solver|]. apply rtc_once.
    eapply istep_eq; [eapply is_park; [by eapply put_self|done|done|]|by rewrite put_m_put, put_put].
    unfold register. rewrite decide_True by done. by rewrite Hin.
Qed.

(** The end of an initializer, up to the list of contexts to wake. *)
Theorem end_refines_steps w i c j hs p m :
  ctxs w !! i = Some c → at_pc c = IRun → holds c = j :: hs → p ≠ kInitializing →
  machine_at (tbl w) j = Some m →
  rtc istep w (put (put_m w j (finish p m).2) i (mkI (IWake (finish p m).1 true) hs (st c))).
Proof.
  intros Hc Hpc Hh Hp Hm. eapply rtc_l; [by eapply is_end|].
  eapply rtc_l; [by eapply is_clear; [eapply put_self|..]|].
  rewrite put_m_put, put_put. simpl. rewrite Hh. simpl. set (c1 := mkI (IPublish j p) hs (st c)).
  set (m1 := store_owner kNoOwnerCtx m).
  eapply rtc_l; [eapply (is_publish _ i c1 j p m1); [by eapply (put_self (put_m w j m1))|done|by eapply machine_put_m]|].
  rewrite put_m_put, put_put, put_m_put_m. set (m2 := store_phase p m1). set (c2 := goto (ISwap j) c1).
  apply rtc_once. eapply istep_eq; [eapply (is_swap _ i c2 j m2);
    [by eapply (put_self (put_m w j m2))|done|by eapply machine_put_m]|].
  by rewrite put_m_put, put_put, put_m_put_m.
Qed.

(** Two threads without a carrier share the id the code uses for "no owner": while one of
    them runs the initializer, the other passes the gate. *)
Theorem carrierless_gate_passes slot j donePc gatePc allowed r t s k m :
  currentContextId k = None → machine_at t j = Some m → phase m = kUninitialized →
  ∃ t', run_gate slot j donePc gatePc allowed r (t, s, k) = Ok (Continue r, (t', s, k)) ∧
    (∃ m', machine_at t' j = Some m' ∧ phase m' = kInitializing) ∧
    ∀ s' k' r' donePc' gatePc' allowed', currentContextId k' = None →
      run_gate slot j donePc' gatePc' allowed' r' (t', s', k') =
        Ok (Continue (Seek r' (Z.to_nat donePc')), (t', s', k')).
Proof.
  intros Hk Hm Hu. set (m' := mkOwner kInitializing kNoOwnerCtx (waiters m)).
  assert (∀ k, currentContextId k = None → selfId k = kNoOwnerCtx) as Hself.
  { intros k0 E. unfold selfId. by rewrite E. }
  assert (machine_at (set_machine j m' t) j = Some m') as Hm'.
  { rewrite (machine_at_set _ _ _ _ _ Hm). by rewrite decide_True. }
  exists (set_machine j m' t). split_and!.
  - unfold run_gate. rewrite Hm, derefE, bindE, gate_loop_decides, (Hself k Hk).
    rewrite decide_False by (rewrite Hu; by intros [?|[? _]]). by rewrite decide_True.
  - by exists m'.
  - intros s' k' r' d g a Hk'. unfold run_gate. rewrite Hm', derefE, bindE, gate_loop_decides, (Hself k' Hk').
    rewrite decide_True by (right; done). rewrite bindE. f_equal. f_equal. f_equal. f_equal.
    pose proof (put_m_id (mkW (set_machine j m' t) []) j m' Hm') as E. unfold put_m in E. simpl in E. congruence.
Qed.

(** ** A concrete run *)
Definition A : machine := MOwner 0.
(** Context 0 runs the initializer of [A], context 1 is parked on it. *)
Definition w_parked : iworld :=
  mkW (mkSlots [0] [false] [mkOwner kInitializing 0 [1]; Owner0] [Owner0] 2 0)
    [mkI IRun [A] Runnable; mkI (IParked A) [] ParkedClassInit].
(** [A] is published, context 1 has been woken and has read the phase. *)
Definition w_reading : iworld :=
  mkW (mkSlots [0] [false] [mkOwner kDone kNoOwnerCtx []; Owner0] [Owner0] 2 0)
    [mkI IRun [] Runnable; mkI (ILoaded A kDone) [] Runnable].

Ltac istep_by C n := eapply rtc_l; [by eapply (C _ n)|]; vm_compute.
Lemma parked_reachable : rtc istep (istart 1 2 0) w_parked.
Proof.
  vm_compute. eapply rtc_l; [by eapply is_spawn|]. vm_compute.
  eapply rtc_l; [eapply (is_gate _ 0%nat _ A); try done; by eexists|]. vm_compute.
  istep_by is_load 0%nat. istep_by is_fresh 0%nat. istep_by is_claim 0%nat. istep_by is_own 0%nat.
  eapply rtc_l; [eapply (is_gate _ 1%nat _ A); try done; by eexists|]. vm_compute.
  istep_by is_load 1%nat. istep_by is_other 1%nat. istep_by is_park 1%nat. apply rtc_refl.
Qed.
Lemma reading_reachable : rtc istep w_parked w_reading.
Proof.
  eapply rtc_l; [by eapply (is_end _ 0%nat _ A [] kDone)|]. vm_compute.
  istep_by is_clear 0%nat. istep_by is_publish 0%nat. istep_by is_swap 0%nat. istep_by is_wake 0%nat.
  istep_by is_woken 0%nat. istep_by is_resume 1%nat. istep_by is_load 1%nat. apply rtc_refl.
Qed.
Lemma w_parked_reachable : ireachable w_parked.
Proof. exists 1%nat, 2%nat, 0%nat. apply parked_reachable. Qed.
Lemma w_reading_reachable : ireachable w_reading.
Proof. exists 1%nat, 2%nat, 0%nat. etrans; [apply parked_reachable|apply reading_reachable]. Qed.

Lemma static_init_once_witness :
  published (tbl w_reading) A ∧ (∀ i c, ctxs w_reading !! i = Some c → A ∉ claimed c) ∧
  (∃ i c, ctxs w_parked !! i = Some c ∧ A ∈ claimed c).
Proof.
  split_and!.
  - apply (static_init_once w_reading w_reading w_reading_reachable (rtc_refl _ _)). by exists (mkOwner kDone kNoOwnerCtx []).
  - apply (static_init_once w_reading w_reading w_reading_reachable (rtc_refl _ _)). by exists (mkOwner kDone kNoOwnerCtx []).
  - by apply (static_init_once w_parked w_parked w_parked_reachable (rtc_refl _ _)) with (m := mkOwner kInitializing 0 [1]).
Defined.

Lemma gate_passes_witness :
  ∃ w', istep w_reading w' ∧ ctxs w' !! 1%nat = Some (mkI IRun [] Runnable) ∧ published (tbl w') A.
Proof.
  exists (put w_reading 1 (mkI IRun [] Runnable)).
  assert (istep w_reading (put w_reading 1 (mkI IRun [] Runnable))) as Hs
    by (by apply (is_pass_done w_reading 1 (mkI (ILoaded A kDone) [] Runnable) A)).
  split; [exact Hs|]. split; [done|].
  destruct (gate_passes w_reading _ 1 (mkI (ILoaded A kDone) [] Runnable) (mkI IRun [] Runnable) A
              w_reading_reachable Hs) as [_ [H|[[H _]|[H _]]]]; try done.
  by apply not_elem_of_nil in H.
Defined.

Lemma init_waiters_not_stranded_witness :
  ctxs w_parked !! 1%nat = Some (mkI (IParked A) [] ParkedClassInit) ∧
  ∃ j, IParked A = IParked j.
Proof.
  split; [done|].
  destruct (init_waiters_not_stranded w_parked 1 _ w_parked_reachable eq_refl eq_refl) as (j & H & _).
  by exists j.
Defined.

Lemma gate_refines_steps_witness :
  rtc istep (put w_parked 1 (mkI IRun [] Runnable))
    (put (put_m (put w_parked 1 (mkI IRun [] Runnable)) A (mkOwner kInitializing 0 [1; 1])) 1
       (mkI (IParked A) [] ParkedClassInit)).
Proof.
  by apply (gate_refines_steps (put w_parked 1 (mkI IRun [] Runnable)) 1 (mkI IRun [] Runnable) A
           (mkOwner kInitializing 0 [1]) true GateWait).
Defined.
Lemma end_refines_steps_witness :
  rtc istep w_parked (put (put_m w_parked A (mkOwner kDone kNoOwnerCtx [])) 0 (mkI (IWake [1] true) [] Runnable)).
Proof.
  by apply (end_refines_steps w_parked 0 (mkI IRun [A] Runnable) A [] kDone (mkOwner kInitializing 0 [1])).
Defined.
