(* ===== verification/Objects.v ===== *)
(** * Object, value and control opcodes

    Models the handlers of [src/src/vm/VmExecutorOpsObjects.cpp] (fields, statics,
    boxing, casts), the constants, moves and jumps of [VmExecutorOpsControl.cpp], the
    function handles of [VmExecutorOpsCalls.cpp] and their equality
    ([VmExecutorFormat.cpp]), and [AllocBoxedValue] ([IntrinsicsString.cpp]).  A handler
    that works on the result cell takes its eight bytes in the place of the locals. *)
From S2P Require Import Prelude.
From S2P Require Import Bytecode Package Prims TypeDesc Shards Strings StringOps Layout Heap HeapGC Arrays Frames.
From S2P Require Import SchedState Sched SchedSpec SyncPrims StaticInit.
Open Scope Z_scope.

(** ** Values and moves *)
Definition OpConstInt32 (r : reader) (pResult : bytes) : outcome (reader * bytes) :=
  '(v, r) ← ReadInt32 r; pResult ← st32 pResult 0 v; Ok (r, pResult).
Definition OpConstFloat (r : reader) (pResult : bytes) : outcome (reader * bytes) :=
  '(v, r) ← ReadUint32 r; pResult ← st32 pResult 0 v; Ok (r, pResult).
Definition OpConstZero (r : reader) (pResult : bytes) : outcome (reader * bytes) :=
  pResult ← store kFrameSlotBytes pResult 0 0; Ok (r, pResult).
Definition OpConstString (st : StringStore) (r : reader) (pResult : bytes) : outcome (reader * bytes) :=
  '(poolIdx, r) ← ReadUint16 r;
  match m_constStrCache st !!z poolIdx with
  | None => Raise (RuntimeError "NLang VM: string constant index out of range")
  | Some handle => pResult ← st32 pResult 0 handle; Ok (r, pResult)
  end.
Definition OpVarLocal (r : reader) (locals pResult : bytes) : outcome (reader * bytes) :=
  '(offset, r) ← ReadUint16 r;
  pResult ← memcpy pResult 0 locals (Z.to_nat offset) kFrameSlotBytes;
  Ok (r, pResult).
Definition OpAssign (r : reader) (locals pResult : bytes) : outcome (reader * bytes) :=
  '(dstOffset, r) ← ReadUint16 r;
  locals ← memcpy locals (Z.to_nat dstOffset) pResult 0 kFrameSlotBytes;
  Ok (r, locals).

Definition OpJumpIfNot (r : reader) (locals : bytes) : outcome reader :=
  '(target, r) ← ReadUint16 r;
  '(localOff, r) ← ReadUint16 r;
  cond ← ld32 locals localOff;
  Ok (if decide (cond = 0) then Seek r (Z.to_nat target) else r).
Definition OpSwitch (r : reader) : outcome reader := '(_, r) ← ReadUint16 r; Ok r.
Definition OpCase (r : reader) : outcome reader := '(_, r) ← ReadUint16 r; Ok r.

(** ** Structs, classes and fields *)
Definition OpAllocStruct (fuel : nat) (md : tables) (shard : nat) (r : reader) (h : heap) (locals : bytes)
    : outcome aframe :=
  '(dst, r) ← ReadUint16 r;
  '(structIdx, r) ← ReadUint16 r;
  '(_, r) ← ReadUint16 r;
  '(heapIdx, h) ← AllocStructOnHeap fuel md h shard structIdx;
  locals ← st32 locals dst heapIdx;
  Ok (r, HNoteGcPressure h, locals).
Definition kFieldCells : nat := 2.
Definition kHeapCellBytes : Z := 4.
(** The record of a field access, or the error of the access. *)
Definition field_record (msg : string) (h : heap) (heapIdx fieldIdx : Z) : outcome (list Z) :=
  match (if decide (heapIdx < 0) then None else rec_at h heapIdx) with
  | None => Raise (RuntimeError msg)
  | Some r => if decide (length r < Z.to_nat fieldIdx + kFieldCells)%nat then Raise (RuntimeError msg) else Ok r
  end.
Definition OpLoadField (r : reader) (h : heap) (locals : bytes) : outcome aframe :=
  '(dst, r) ← ReadUint16 r;
  '(obj, r) ← ReadUint16 r;
  '(fieldOff, r) ← ReadUint16 r;
  heapIdx ← ld32 locals obj;
  let fieldIdx := fieldOff / kHeapCellBytes in
  slot ← field_record "NLang VM: struct field access out of bounds" h heapIdx fieldIdx;
  vs ← cells_at slot (Z.to_nat fieldIdx) kFieldCells;
  locals ← store_cells locals dst vs;
  Ok (r, h, locals).
Definition OpStoreField (r : reader) (h : heap) (locals : bytes) : outcome aframe :=
  '(obj, r) ← ReadUint16 r;
  '(fieldOff, r) ← ReadUint16 r;
  '(src, r) ← ReadUint16 r;
  heapIdx ← ld32 locals obj;
  let fieldIdx := fieldOff / kHeapCellBytes in
  _ ← field_record "NLang VM: struct field store out of bounds" h heapIdx fieldIdx;
  vs ← load_cells locals src kFieldCells;
  h ← write_cells h heapIdx (Z.to_nat fieldIdx) vs;
  Ok (r, h, locals).
Definition OpNew (fuel : nat) (md : tables) (shard : nat) (r : reader) (h : heap) (locals : bytes) : outcome aframe :=
  '(dst, r) ← ReadUint16 r;
  '(classIdx, r) ← ReadUint16 r;
  '(heapIdx, h) ← AllocClassOnHeap fuel md h shard classIdx;
  locals ← st32 locals dst heapIdx;
  Ok (r, HNoteGcPressure h, locals).
Definition OpNullCheck (r : reader) (locals : bytes) : outcome reader :=
  '(obj, r) ← ReadUint16 r;
  heapIdx ← ld32 locals obj;
  if decide (heapIdx ≤ 0) then Raise (NlangExc ExcNullPtr "NLang VM: null reference error") else Ok r.
Definition OpCopyStruct (fuel : nat) (md : tables) (shard : nat) (r : reader) (h : heap) (locals : bytes)
    : outcome aframe :=
  '(dst, r) ← ReadUint16 r;
  '(src, r) ← ReadUint16 r;
  '(structIdx, r) ← ReadUint16 r;
  srcHeapIdx ← ld32 locals src;
  '(newHeapIdx, h) ← DeepCopyStruct fuel md h shard srcHeapIdx structIdx;
  locals ← st32 locals dst newHeapIdx;
  Ok (r, h, locals).

(** ** Static slots *)
Definition set_static (t : VmStaticSlots) (i : nat) (cell : Z) (mark : bool) : outcome VmStaticSlots :=
  _ ← deref (StaticInit.m_cells t !! i);
  bits ← (if mark then _ ← deref (m_initBits t !! i); Ok (<[i := true]> (m_initBits t)) else Ok (m_initBits t));
  Ok (mkSlots (<[i := cell]> (StaticInit.m_cells t)) bits (m_owners t) (m_slotMachines t)
        (m_classOwnerCount t) (m_ifaceOwnerCount t)).
Definition quote : string := String (Ascii.ascii_of_nat 34) EmptyString.
Definition OpLoadStatic (m : CompiledModule) (t : VmStaticSlots) (r : reader) (locals : bytes)
    : outcome (reader * bytes) :=
  '(dst, r) ← ReadUint16 r;
  '(slotIdx, r) ← ReadUint16 r;
  meta ← deref (staticSlots m !!z slotIdx);
  ready ← (if hasInitializer meta then deref (m_initBits t !!z slotIdx) else Ok true);
  if (ready : bool) then
    cell ← deref (StaticInit.m_cells t !!z slotIdx);
    locals ← store 8 locals (Z.to_nat dst) cell;
    Ok (r, locals)
  else Raise (NlangExc ExcInit ("Static field " ++ quote ++ text (slot_name meta)
                                ++ quote ++ " is read before its initializer stored a value.")).
(** A struct value is copied into the slot; a null handle is stored as it is. *)
Definition OpStoreStatic (fuel : nat) (m : CompiledModule) (shard : nat) (t : VmStaticSlots) (r : reader)
    (h : heap) (locals : bytes) : outcome (reader * heap * VmStaticSlots) :=
  '(slotIdx, r) ← ReadUint16 r;
  '(src, r) ← ReadUint16 r;
  meta ← deref (staticSlots m !!z slotIdx);
  srcHeapIdx ← (if decide (slot_kind meta = RTK_Struct) then ld32 locals src else Ok 0);
  if decide (0 < srcHeapIdx) then
    '(copyIdx, h) ← DeepCopyStruct fuel (md m) h shard srcHeapIdx (slot_typeIdx meta);
    old ← deref (StaticInit.m_cells t !!z slotIdx);
    cell ← store 4 (le_bytes 8 old) 0 copyIdx;
    t ← set_static t (Z.to_nat slotIdx) (le_value cell) (hasInitializer meta);
    Ok (r, h, t)
  else
    v ← load 8 locals (Z.to_nat src);
    t ← set_static t (Z.to_nat slotIdx) v (hasInitializer meta);
    Ok (r, h, t).

(** ** Boxing *)
Definition wide_tag (typeTag : Z) : bool :=
  match ScalarPrimIndexOfRtk typeTag with Some (_, row) => bool_decide (slotWidth row = 8%nat) | None => false end.
Definition AllocBoxedValue (h : heap) (shard : nat) (typeTag val : Z) : outcome (Z * heap) :=
  '(heapIdx, h) ← TakeHeapSlot h shard;
  let rec := if wide_tag typeTag then [typeTag; i32 (u32 val); i32 (Z.shiftr (u64 val) 32)] else [typeTag; i32 val; 0] in
  Ok (heapIdx, HNoteGcPressure (Heap.set_slot h heapIdx rec RTK_Boxed 0)).
Definition OpBox (shard : nat) (r : reader) (h : heap) (pResult : bytes) : outcome aframe :=
  '(typeTag, r) ← ReadByte r;
  val ← load (if wide_tag typeTag then 8 else 4) pResult 0;
  '(heapIdx, h) ← AllocBoxedValue h shard typeTag val;
  pResult ← st32 pResult 0 heapIdx;
  Ok (r, h, pResult).
Definition tagName (rtk : Z) : string :=
  match ScalarPrimIndexOfRtk rtk with
  | Some (_, row) => Prims.name row
  | None => if decide (rtk = RTK_String) then "string" else "unknown"
  end.
Definition OpUnbox (r : reader) (h : heap) (pResult : bytes) : outcome aframe :=
  '(expectedTag, r) ← ReadByte r;
  heapIdx ← ld32 pResult 0;
  match (if decide (heapIdx ≤ 0) then None else kind_at h heapIdx) with
  | None => Raise (RuntimeError "NLang VM: unbox on null/invalid reference")
  | Some k =>
      if decide (k ≠ RTK_Boxed) then Raise (RuntimeError "NLang VM: unbox target is not a boxed primitive")
      else
        actualTag ← get_cell h heapIdx 0;
        if decide (u8 actualTag ≠ expectedTag)
        then Raise (RuntimeError ("NLang VM: invalid unbox - expected " ++ tagName expectedTag ++ ", got "
                                  ++ tagName (u8 actualTag)))
        else
          lo ← get_cell h heapIdx 1;
          pResult ← (if wide_tag expectedTag then
                       hi ← get_cell h heapIdx 2;
                       store 8 pResult 0 (Z.lor (u32 lo) (Z.shiftl (u32 hi) 32))
                     else st32 pResult 0 lo);
          Ok (r, h, pResult)
  end.

(** ** Casts *)
Definition OpCheckCast (m : CompiledModule) (r : reader) (h : heap) (pResult : bytes) : outcome reader :=
  '(targetClassIdx, r) ← ReadUint16 r;
  heapIdx ← ld32 pResult 0;
  if decide (heapIdx = 0) then Ok r
  else match (if decide (heapIdx < 0) then None else rec_at h heapIdx) with
       | None => Raise (RuntimeError "NLang VM: cast on invalid reference")
       | Some _ =>
           actualClassIdx ← CastOperandClassIndex m h heapIdx;
           if decide (actualClassIdx < 0)
           then Raise (RuntimeError "NLang VM: protocol root class row missing for cast")
           else
             ok ← ClassMatchesTarget m actualClassIdx targetClassIdx;
             if (ok : bool) then Ok r
             else
               tgt ← deref (classes m !!z targetClassIdx);
               act ← deref (classes m !!z actualClassIdx);
               Raise (NlangExc ExcInvalidCast ("NLang VM: invalid cast - expected `" ++ text (LeafNameOfKey (cls_name tgt))
                                               ++ "`, got `" ++ text (LeafNameOfKey (cls_name act)) ++ "`"))
       end.

(** ** Function handles *)
Definition kFuncFormStatic : Z := 0.
Definition kFuncFormVirtual : Z := 1.
Definition AllocFuncRecord (h : heap) (shard : nat) (target thisIdx form : Z) : outcome (Z * heap) :=
  '(heapIdx, h) ← TakeHeapSlot h shard;
  Ok (heapIdx, HNoteGcPressure (Heap.set_slot h heapIdx [target; thisIdx; form] RTK_Func 0)).
Definition OpMakeFunc (m : CompiledModule) (shard : nat) (r : reader) (h : heap) (pResult : bytes) : outcome aframe :=
  '(funcIdx, r) ← ReadUint16 r;
  if decide (Z.of_nat (length (functions m)) ≤ funcIdx)
  then Raise (RuntimeError "NLang VM: invalid function index in MakeFunc")
  else
    '(heapIdx, h) ← AllocFuncRecord h shard funcIdx 0 kFuncFormStatic;
    pResult ← st32 pResult 0 heapIdx;
    Ok (r, h, pResult).
(** The receiver is in the result cell; a null one raises here. *)
Definition bound_handle (count : nat) (msg : string) (form : Z) (shard : nat) (r : reader) (h : heap)
    (pResult : bytes) : outcome aframe :=
  '(target, r) ← ReadUint16 r;
  thisIdx ← ld32 pResult 0;
  match (if decide (thisIdx ≤ 0) then None else rec_at h thisIdx) with
  | None => Raise (NlangExc ExcNullPtr "NLang VM: null receiver in method reference")
  | Some _ =>
      if decide (Z.of_nat count ≤ target) then Raise (RuntimeError msg)
      else
        '(heapIdx, h) ← AllocFuncRecord h shard target thisIdx form;
        pResult ← st32 pResult 0 heapIdx;
        Ok (r, h, pResult)
  end.
Definition OpMakeBoundFunc (m : CompiledModule) :=
  bound_handle (length (functions m)) "NLang VM: invalid function index in MakeBoundFunc" kFuncFormStatic.
Definition OpMakeVFunc (m : CompiledModule) :=
  bound_handle (length (stringConstants (md m))) "NLang VM: invalid string index in MakeVFunc" kFuncFormVirtual.
Definition OpFuncEquality (bNeg : bool) (r : reader) (h : heap) (locals : bytes) : outcome aframe :=
  '(lhs, r) ← ReadUint16 r;
  '(rhs, r) ← ReadUint16 r;
  idxA ← ld32 locals lhs;
  idxB ← ld32 locals rhs;
  bEqual ← (if decide (idxA ≤ 0 ∨ idxB ≤ 0) then Ok (bool_decide (idxA = idxB))
            else if decide (kind_at h idxA ≠ Some RTK_Func ∨ kind_at h idxB ≠ Some RTK_Func)
            then Raise (RuntimeError "NLang VM: function equality on a stale non-function value")
            else
              a ← deref (rec_at h idxA); b ← deref (rec_at h idxB);
              a3 ← cells_at a 0 3; b3 ← cells_at b 0 3;
              Ok (bool_decide (a3 = b3)));
  locals ← st32 locals lhs (if xorb bEqual bNeg then 1 else 0);
  Ok (r, h, locals).

Definition FormatFuncHandle (m : CompiledModule) (slot : list Z) : outcome bytes :=
  target ← deref (slot !! 0%nat);
  form ← deref (slot !! 2%nat);
  Ok (if decide (form = kFuncFormStatic) then
        match functions m !!z u16 target with
        | Some f => bytes_of "func " ++ fn_name f
        | None => bytes_of "func <invalid>"
        end
      else match stringConstants (md m) !!z target with
           | Some name => bytes_of "method " ++ name
           | None => bytes_of "method <invalid>"
           end).
Definition OpFunc_to_str (m : CompiledModule) (shard : nat) (r : reader) (h : heap) (pResult : bytes)
    : outcome aframe :=
  heapIdx ← ld32 pResult 0;
  s ← (if decide (heapIdx ≤ 0) then Ok (bytes_of "<null>")
       else if decide (kind_at h heapIdx ≠ Some RTK_Func)
       then Raise (RuntimeError "NLang VM: func_to_str on stale or non-function value")
       else slot ← deref (rec_at h heapIdx); FormatFuncHandle m slot);
  '(handle, st) ← MintNewString (strs h) shard s;
  pResult ← st32 pResult 0 handle;
  Ok (r, hwith_strs h st, pResult).

(** The function a handle calls. *)
Definition resolve_method (m : CompiledModule) (h : heap) (thisIdx : Z) (methodName : bytes) : outcome Z :=
  classIdx ← ReceiverClassIndex m h thisIdx;
  if decide (classIdx < 0 ∨ Z.of_nat (length (classes m)) ≤ classIdx)
  then Raise (RuntimeError "NLang VM: invalid class index in object header")
  else
    funcIndex ← FindMethodByName m classIdx methodName;
    if decide (funcIndex < 0) then Raise (RuntimeError ("NLang VM: method not found: " ++ text methodName))
    else Ok funcIndex.
Definition ResolveDelegateTarget (m : CompiledModule) (h : heap) (handle : list Z) : outcome Z :=
  thisIdx ← deref (handle !! 1%nat);
  form ← deref (handle !! 2%nat);
  target ← deref (handle !! 0%nat);
  if decide (form = kFuncFormVirtual) then
    match (if decide (thisIdx ≤ 0) then None else rec_at h thisIdx) with
    | None => Raise (NlangExc ExcNullPtr "NLang VM: null receiver in virtual delegate")
    | Some _ =>
        match (if decide (target < 0) then None else stringConstants (md m) !!z target) with
        | None => Raise (RuntimeError "NLang VM: invalid string index in virtual delegate handle")
        | Some methodName => resolve_method m h thisIdx methodName
        end
    end
  else if decide (target < 0 ∨ Z.of_nat (length (functions m)) ≤ target)
  then Raise (RuntimeError "NLang VM: invalid function index in delegate handle")
  else Ok target.
