(* ===== verification/Containers.v ===== *)
(** * Containers: List and Dict

    Models the side tables of lists and dictionaries and their intrinsics:
    [src/src/vm/VmExecutorContainers.cpp] (handles, equality of elements and keys) and
    [IntrinsicsContainer.cpp].  An instance holds a one-based handle in its first field;
    its elements are heap indices, boxed values or references.  A free list is in the
    order of its vector, its back last. *)
From S2P Require Import Prelude.
From S2P Require Import Bytecode Prims TypeDesc Shards Strings StringOps Layout Heap HeapGC Objects.
Open Scope Z_scope.

(** ** Side tables *)
Record side := MkSide {
  m_listStore : list (list Z); m_listFreeList : list Z;
  m_dictStore : list (list (Z * Z)); m_dictFreeList : list Z
}.
(** The object heap and the side tables: what a container call works on. *)
Definition conts : Type := heap * side.

Definition pop_back {A} (l : list A) : option (A * list A) :=
  match list.last l with Some a => Some (a, take (length l - 1) l) | None => None end.
(** The shape of both allocators: a recycled slot is emptied, a new one appended. *)
Definition AllocSlot {A} (store : list (list A)) (free : list Z) : outcome (Z * list (list A) * list Z) :=
  match pop_back free with
  | Some (h, free) =>
      _ ← deref (store !!z (h - 1));
      Ok (h, <[Z.to_nat (h - 1) := []]> store, free)
  | None => Ok (i32 (Z.of_nat (length store)) + 1, store ++ [[]], free)
  end.
Definition AllocListHandle (t : side) : outcome (Z * side) :=
  '(h, store, free) ← AllocSlot (m_listStore t) (m_listFreeList t);
  Ok (h, MkSide store free (m_dictStore t) (m_dictFreeList t)).
Definition AllocDictHandle (t : side) : outcome (Z * side) :=
  '(h, store, free) ← AllocSlot (m_dictStore t) (m_dictFreeList t);
  Ok (h, MkSide (m_listStore t) (m_listFreeList t) store free).

Definition elements_at (t : side) (handle : Z) : outcome (list Z) := deref (m_listStore t !!z (handle - 1)).
Definition entries_at (t : side) (handle : Z) : outcome (list (Z * Z)) := deref (m_dictStore t !!z (handle - 1)).
Definition put_elements (t : side) (handle : Z) (l : list Z) : side :=
  MkSide (<[Z.to_nat (handle - 1) := l]> (m_listStore t)) (m_listFreeList t) (m_dictStore t) (m_dictFreeList t).
Definition put_entries (t : side) (handle : Z) (l : list (Z * Z)) : side :=
  MkSide (m_listStore t) (m_listFreeList t) (<[Z.to_nat (handle - 1) := l]> (m_dictStore t)) (m_dictFreeList t).

(** ** Receivers *)
Definition ReadHandle (family methodName : string) (h : heap) (callParamBase : Z) (locals : bytes) : outcome Z :=
  let err what := Raise (RuntimeError ("NLang VM: " ++ family ++ " " ++ methodName ++ " on " ++ what)) in
  thisHeapIdx ← ld32 locals callParamBase;
  if decide (thisHeapIdx ≤ 0) then err "null instance"%string
  else match rec_at h thisHeapIdx with
       | None => err "stale reference"%string
       | Some slot =>
           handle ← deref (slot !! kListHandleFieldOffset);
           if decide (handle ≤ 0) then err "uninitialized instance"%string else Ok handle
       end.
Definition ReadListHandle := ReadHandle "List".
Definition ReadDictHandle := ReadHandle "Dict".
(** Argument [n] of a call, the receiver being argument 0. *)
Definition arg (locals : bytes) (callParamBase : Z) (n : nat) : outcome Z :=
  ld32 locals (callParamBase + Z.of_nat (n * kFrameSlotBytes)).
Definition INTR_List_Ctor : Z := 44.
Definition INTR_List_Add : Z := 45.
Definition INTR_List_Get : Z := 46.
Definition INTR_List_Set : Z := 47.
Definition INTR_List_Length : Z := 48.
Definition INTR_List_RemoveAt : Z := 49.
Definition INTR_List_IndexOf : Z := 50.
Definition INTR_List_Contains : Z := 51.
Definition INTR_List_Clear : Z := 52.
Definition INTR_Dict_Ctor : Z := 53.
Definition INTR_Dict_Set : Z := 54.
Definition INTR_Dict_Get : Z := 55.
Definition INTR_Dict_ContainsKey : Z := 56.
Definition INTR_Dict_Remove : Z := 57.
Definition INTR_Dict_Clear : Z := 58.
Definition INTR_Dict_Count : Z := 59.
Definition INTR_Dict_Keys : Z := 60.
Definition INTR_List_Copy : Z := 170.
Definition INTR_Dict_Copy : Z := 171.

Section Ops.
Context (fuel shard : nat) (md : tables) (m_listClassIdx m_dictClassIdx : Z).

(** ** Equality of elements *)
Definition kBoxedValueSlot : nat := 1.
Definition BoxedValuesEqual (h : heap) (a b : Z) : outcome bool :=
  match (if decide (a ≤ 0 ∨ b ≤ 0) then None else rec_at h a), rec_at h b with
  | Some recA, Some recB =>
      tagA ← deref (recA !! 0%nat);
      tagB ← deref (recB !! 0%nat);
      if decide (tagA ≠ tagB) then Ok false
      else if decide (tagA = RTK_String) then
        va ← deref (recA !! kBoxedValueSlot);
        vb ← deref (recB !! kBoxedValueSlot);
        sa ← StrValCopy fuel (strs h) va;
        sb ← StrValCopy fuel (strs h) vb;
        Ok (bool_decide (sa = sb))
      else match ScalarPrimIndexOfRtk (u8 tagA) with
           | None => Ok false
           | Some (_, row) =>
               va ← deref (recA !! kBoxedValueSlot);
               vb ← deref (recB !! kBoxedValueSlot);
               if decide (va ≠ vb) then Ok false
               else if decide (slotWidth row < 8)%nat then Ok true
               else
                 ha ← deref (recA !! S kBoxedValueSlot);
                 hb ← deref (recB !! S kBoxedValueSlot);
                 Ok (bool_decide (ha = hb))
           end
  | _, _ => Ok false
  end.
Definition DictKeysEqual (h : heap) (k1 k2 : Z) : outcome bool :=
  if decide (k1 = k2) then Ok true
  else if decide (k1 ≤ 0 ∨ k2 ≤ 0) then Ok false
  else match kind_at h k1, kind_at h k2 with
       | Some kind, Some kind2 =>
           if decide (kind ≠ kind2) then Ok false
           else if decide (kind ≠ RTK_Boxed ∧ kind ≠ RTK_Class ∧ kind ≠ RTK_Struct) then Ok false
           else if decide (kind = RTK_Class ∨ kind = RTK_Struct) then Ok (bool_decide (k1 = k2))
           else BoxedValuesEqual h k1 k2
       | _, _ => Ok false
       end.

(** The first element that the test accepts, with its position. *)
Fixpoint find_first {A} (test : A → outcome bool) (l : list A) (i : nat) : outcome (option (nat * A)) :=
  match l with
  | [] => Ok None
  | a :: l => b ← test a; if (b : bool) then Ok (Some (i, a)) else find_first test l (S i)
  end.
Definition is_boxed (h : heap) (v : Z) : bool := bool_decide (0 < v) && bool_decide (kind_at h v = Some RTK_Boxed).
Definition element_matches (h : heap) (value elem : Z) : outcome bool :=
  if is_boxed h value
  then if is_boxed h elem then BoxedValuesEqual h elem value else Ok false
  else Ok (bool_decide (elem = value)).
Definition FindListElement (h : heap) (l : list Z) (value : Z) : outcome Z :=
  r ← find_first (element_matches h value) l 0;
  Ok (match r with Some (i, _) => i32 (Z.of_nat i) | None => -1 end).

(** ** List intrinsics *)
(** The constructors write a new handle into the instance. *)
Definition container_ctor (family : string) (alloc : side → outcome (Z * side)) (callParamBase : Z)
    (locals : bytes) (x : conts) : outcome conts :=
  let '(h, t) := x in
  thisHeapIdx ← ld32 locals callParamBase;
  if decide (thisHeapIdx ≤ 0) then Raise (RuntimeError ("NLang VM: " ++ family ++ " ctor on null instance"))
  else match rec_at h thisHeapIdx with
       | None => Raise (RuntimeError ("NLang VM: " ++ family ++ " ctor on stale reference"))
       | Some _ =>
           '(handle, t) ← alloc t;
           h ← set_cell h thisHeapIdx kListHandleFieldOffset handle;
           Ok (h, t)
       end.
Definition List_Ctor (cpb : Z) (locals : bytes) (x : conts) (p : bytes) : outcome (conts * bytes) :=
  x ← container_ctor "List" AllocListHandle cpb locals x; Ok (x, p).
Definition List_Add (cpb : Z) (locals : bytes) (x : conts) (p : bytes) : outcome (conts * bytes) :=
  let '(h, t) := x in
  value ← arg locals cpb 1;
  handle ← ReadListHandle "add" h cpb locals;
  l ← elements_at t handle;
  Ok ((h, put_elements t handle (l ++ [value])), p).
Definition list_oob {A} : outcome A := Raise (NlangExc ExcOob "NLang VM: List index out of bounds").
Definition List_Get (cpb : Z) (locals : bytes) (x : conts) (p : bytes) : outcome (conts * bytes) :=
  let '(h, t) := x in
  idx ← arg locals cpb 1;
  handle ← ReadListHandle "get" h cpb locals;
  l ← elements_at t handle;
  match l !!z idx with
  | None => list_oob
  | Some val => p ← st32 p 0 val; Ok (x, p)
  end.
Definition List_Set (cpb : Z) (locals : bytes) (x : conts) (p : bytes) : outcome (conts * bytes) :=
  let '(h, t) := x in
  idx ← arg locals cpb 1;
  value ← arg locals cpb 2;
  handle ← ReadListHandle "set" h cpb locals;
  l ← elements_at t handle;
  match l !!z idx with
  | None => list_oob
  | Some _ => Ok ((h, put_elements t handle (<[Z.to_nat idx := value]> l)), p)
  end.
Definition List_Length (cpb : Z) (locals : bytes) (x : conts) (p : bytes) : outcome (conts * bytes) :=
  let '(h, t) := x in
  handle ← ReadListHandle "length" h cpb locals;
  l ← elements_at t handle;
  p ← st32 p 0 (i32 (Z.of_nat (length l)));
  Ok (x, p).
Definition List_RemoveAt (cpb : Z) (locals : bytes) (x : conts) (p : bytes) : outcome (conts * bytes) :=
  let '(h, t) := x in
  idx ← arg locals cpb 1;
  handle ← ReadListHandle "removeAt" h cpb locals;
  l ← elements_at t handle;
  match l !!z idx with
  | None => list_oob
  | Some _ => Ok ((h, put_elements t handle (delete (Z.to_nat idx) l)), p)
  end.
Definition List_IndexOf (cpb : Z) (locals : bytes) (x : conts) (p : bytes) : outcome (conts * bytes) :=
  let '(h, t) := x in
  value ← arg locals cpb 1;
  handle ← ReadListHandle "indexOf" h cpb locals;
  l ← elements_at t handle;
  result ← FindListElement h l value;
  p ← st32 p 0 result;
  Ok (x, p).
Definition List_Contains (cpb : Z) (locals : bytes) (x : conts) (p : bytes) : outcome (conts * bytes) :=
  let '(h, t) := x in
  value ← arg locals cpb 1;
  handle ← ReadListHandle "contains" h cpb locals;
  l ← elements_at t handle;
  result ← FindListElement h l value;
  p ← st32 p 0 (if decide (0 ≤ result) then 1 else 0);
  Ok (x, p).
Definition List_Clear (cpb : Z) (locals : bytes) (x : conts) (p : bytes) : outcome (conts * bytes) :=
  let '(h, t) := x in
  handle ← ReadListHandle "clear" h cpb locals;
  _ ← elements_at t handle;
  Ok ((h, put_elements t handle []), p).

(** A new container object with a side slot of its own. *)
Definition new_container (family : string) (classIdx : Z) (alloc : side → outcome (Z * side)) (x : conts)
    : outcome (Z * Z * conts) :=
  let '(h, t) := x in
  if decide (classIdx < 0) then Raise (RuntimeError ("NLang VM: " ++ family ++ " class not registered"))
  else
    '(heapIdx, h) ← AllocClassOnHeap fuel md h shard (u16 classIdx);
    '(handle, t) ← alloc t;
    h ← set_cell h heapIdx kListHandleFieldOffset handle;
    Ok (heapIdx, handle, (h, t)).
Definition new_list := new_container "List" m_listClassIdx AllocListHandle.
Definition new_dict := new_container "Dict" m_dictClassIdx AllocDictHandle.
Definition List_Copy (cpb : Z) (locals : bytes) (x : conts) (p : bytes) : outcome (conts * bytes) :=
  srcHandle ← ReadListHandle "copy" x.1 cpb locals;
  '(listHeapIdx, listHandle, (h, t)) ← new_list x;
  l ← elements_at t srcHandle;
  p ← st32 p 0 listHeapIdx;
  Ok ((HNoteGcPressure h, put_elements t listHandle l), p).

(** ** Dict intrinsics *)
Definition find_key (h : heap) (entries : list (Z * Z)) (k : Z) : outcome (option (nat * (Z * Z))) :=
  find_first (λ kv, DictKeysEqual h kv.1 k) entries 0.
Definition Dict_Ctor (cpb : Z) (locals : bytes) (x : conts) (p : bytes) : outcome (conts * bytes) :=
  x ← container_ctor "Dict" AllocDictHandle cpb locals x; Ok (x, p).
Definition Dict_Set (cpb : Z) (locals : bytes) (x : conts) (p : bytes) : outcome (conts * bytes) :=
  let '(h, t) := x in
  k ← arg locals cpb 1;
  v ← arg locals cpb 2;
  handle ← ReadDictHandle "set" h cpb locals;
  entries ← entries_at t handle;
  r ← find_key h entries k;
  let entries := match r with
                 | Some (i, kv) => <[i := (kv.1, v)]> entries
                 | None => entries ++ [(k, v)]
                 end in
  Ok ((h, put_entries t handle entries), p).
Definition Dict_Get (cpb : Z) (locals : bytes) (x : conts) (p : bytes) : outcome (conts * bytes) :=
  let '(h, t) := x in
  k ← arg locals cpb 1;
  handle ← ReadDictHandle "get" h cpb locals;
  entries ← entries_at t handle;
  r ← find_key h entries k;
  match r with
  | Some (_, kv) => p ← st32 p 0 kv.2; Ok (x, p)
  | None => Raise (NlangExc ExcBase "NLang VM: Dict key not found")
  end.
Definition Dict_ContainsKey (cpb : Z) (locals : bytes) (x : conts) (p : bytes) : outcome (conts * bytes) :=
  let '(h, t) := x in
  k ← arg locals cpb 1;
  handle ← ReadDictHandle "containsKey" h cpb locals;
  entries ← entries_at t handle;
  r ← find_key h entries k;
  p ← st32 p 0 (match r with Some _ => 1 | None => 0 end);
  Ok (x, p).
Definition Dict_Remove (cpb : Z) (locals : bytes) (x : conts) (p : bytes) : outcome (conts * bytes) :=
  let '(h, t) := x in
  k ← arg locals cpb 1;
  handle ← ReadDictHandle "remove" h cpb locals;
  entries ← entries_at t handle;
  r ← find_key h entries k;
  match r with
  | Some (i, _) => p ← st32 p 0 1; Ok ((h, put_entries t handle (delete i entries)), p)
  | None => p ← st32 p 0 0; Ok (x, p)
  end.
Definition Dict_Clear (cpb : Z) (locals : bytes) (x : conts) (p : bytes) : outcome (conts * bytes) :=
  let '(h, t) := x in
  handle ← ReadDictHandle "clear" h cpb locals;
  _ ← entries_at t handle;
  Ok ((h, put_entries t handle []), p).
Definition Dict_Count (cpb : Z) (locals : bytes) (x : conts) (p : bytes) : outcome (conts * bytes) :=
  let '(h, t) := x in
  handle ← ReadDictHandle "count" h cpb locals;
  entries ← entries_at t handle;
  p ← st32 p 0 (i32 (Z.of_nat (length entries)));
  Ok (x, p).
Definition Dict_Keys (cpb : Z) (locals : bytes) (x : conts) (p : bytes) : outcome (conts * bytes) :=
  dictHandle ← ReadDictHandle "keys" x.1 cpb locals;
  src ← entries_at x.2 dictHandle;
  '(listHeapIdx, listHandle, (h, t)) ← new_list x;
  p ← st32 p 0 listHeapIdx;
  Ok ((HNoteGcPressure h, put_elements t listHandle (src.*1)), p).
Definition Dict_Copy (cpb : Z) (locals : bytes) (x : conts) (p : bytes) : outcome (conts * bytes) :=
  srcHandle ← ReadDictHandle "copy" x.1 cpb locals;
  '(dictHeapIdx, dictHandle, (h, t)) ← new_dict x;
  entries ← entries_at t srcHandle;
  p ← st32 p 0 dictHeapIdx;
  Ok ((HNoteGcPressure h, put_entries t dictHandle entries), p).

(** [None]: the identifier is not one of the family. *)
Definition ExecuteIntrinsicContainerStructural (id cpb : Z) (locals : bytes) (x : conts) (p : bytes)
    : outcome (option (conts * bytes)) :=
  let run f := r ← f cpb locals x p; Ok (Some r) in
  if decide (id = INTR_List_Ctor) then run List_Ctor
  else if decide (id = INTR_List_Add) then run List_Add
  else if decide (id = INTR_List_Get) then run List_Get
  else if decide (id = INTR_List_Set) then run List_Set
  else if decide (id = INTR_List_Length) then run List_Length
  else if decide (id = INTR_List_RemoveAt) then run List_RemoveAt
  else if decide (id = INTR_List_IndexOf) then run List_IndexOf
  else if decide (id = INTR_List_Contains) then run List_Contains
  else if decide (id = INTR_List_Clear) then run List_Clear
  else if decide (id = INTR_List_Copy) then run List_Copy
  else if decide (id = INTR_Dict_Ctor) then run Dict_Ctor
  else if decide (id = INTR_Dict_Set) then run Dict_Set
  else if decide (id = INTR_Dict_Get) then run Dict_Get
  else if decide (id = INTR_Dict_ContainsKey) then run Dict_ContainsKey
  else if decide (id = INTR_Dict_Remove) then run Dict_Remove
  else if decide (id = INTR_Dict_Clear) then run Dict_Clear
  else if decide (id = INTR_Dict_Count) then run Dict_Count
  else if decide (id = INTR_Dict_Keys) then run Dict_Keys
  else if decide (id = INTR_Dict_Copy) then run Dict_Copy
  else Ok None.
End Ops.
