(* ===== verification/Exec.v ===== *)
(** * The executor: dispatch, calls and exceptions

    Models [src/src/vm/VmExecutorOps.cpp] (the instruction switch, the frame loop and the
    handler search), the call opcodes of [VmExecutorOpsCalls.cpp], jumps, throws and
    backtraces of [VmExecutorOpsControl.cpp], and [RaiseNlangException]
    ([VmExecutor.cpp]).  A computation of the executor ([M]) changes the state of one
    carrier and ends with a value or a C++ exception ([vm_signal]); the state at the throw
    is what the handlers see.  No debugger is attached.  What a call leaves the executor
    for (intrinsics, natives, text formatting, the rendezvous, the clock) is the interface
    [Services]. *)
From S2P Require Import Prelude.
From S2P Require Import Bytecode Package Prims TypeDesc Shards Strings StringOps Layout Heap HeapGC Arrays ArraySlice Frames.
From S2P Require Import SchedState Sched SchedSpec SyncPrims StaticInit Objects.
From stdpp Require Import pretty.
Open Scope Z_scope.

(** ** State *)
(** [stack] is the evaluation stack of the carrier, head last pushed; [cells] are the
    eight-byte result cells that [externalResult] names; [lists] is [m_listStore]. *)
Record exec := MkExec {
  stack : list CallFrame; cells : list bytes; x_heap : heap; x_static : istate;
  unwind : list UnwindFrame; lists : list (list Z);
  resumeThrow : Z; tripBudget : Z; nestDepth : Z
}.
Definition with_stack (s : list CallFrame) (x : exec) : exec :=
  MkExec s (cells x) (x_heap x) (x_static x) (unwind x) (lists x) (resumeThrow x) (tripBudget x) (nestDepth x).
Definition with_cells (c : list bytes) (x : exec) : exec :=
  MkExec (stack x) c (x_heap x) (x_static x) (unwind x) (lists x) (resumeThrow x) (tripBudget x) (nestDepth x).
Definition with_heap (h : heap) (x : exec) : exec :=
  MkExec (stack x) (cells x) h (x_static x) (unwind x) (lists x) (resumeThrow x) (tripBudget x) (nestDepth x).
Definition with_static (t : istate) (x : exec) : exec :=
  MkExec (stack x) (cells x) (x_heap x) t (unwind x) (lists x) (resumeThrow x) (tripBudget x) (nestDepth x).
Definition with_unwind (u : list UnwindFrame) (x : exec) : exec :=
  MkExec (stack x) (cells x) (x_heap x) (x_static x) u (lists x) (resumeThrow x) (tripBudget x) (nestDepth x).
Definition with_lists (l : list (list Z)) (x : exec) : exec :=
  MkExec (stack x) (cells x) (x_heap x) (x_static x) (unwind x) l (resumeThrow x) (tripBudget x) (nestDepth x).
Definition with_resume (i : Z) (x : exec) : exec :=
  MkExec (stack x) (cells x) (x_heap x) (x_static x) (unwind x) (lists x) i (tripBudget x) (nestDepth x).
Definition with_budget (b : Z) (x : exec) : exec :=
  MkExec (stack x) (cells x) (x_heap x) (x_static x) (unwind x) (lists x) (resumeThrow x) b (nestDepth x).

Inductive park_reason := Preempted | ClassInit | OtherPark.
(** What C++ throws inside the machine. *)
Inductive vm_signal :=
  | NLangThrow (heapIdx : Z)
  | ParkSignal (why : park_reason)
  | ShutdownSignal
  | VmError (e : vm_error).

Inductive result (A : Type) :=
  | Done (x : exec) (a : A)
  | Thrown (x : exec) (s : vm_signal).
Arguments Done {A} x a.
Arguments Thrown {A} x s.
Definition M (A : Type) : Type := exec → result A.
#[export] Instance M_ret : MRet M := λ A a x, Done x a.
#[export] Instance M_bind : MBind M := λ A B f m x, match m x with Done x a => f a x | Thrown x s => Thrown x s end.
Definition throw {A} (s : vm_signal) : M A := λ x, Thrown x s.
Definition gets {A} (f : exec → A) : M A := λ x, Done x (f x).
Definition modify (f : exec → exec) : M unit := λ x, Done (f x) tt.
(** A step that cannot raise a catchable exception. *)
Definition plain {A} (o : outcome A) : M A :=
  match o with Ok a => mret a | Raise e => throw (VmError e) end.
Definition back : M CallFrame := f ← gets (λ x, head (stack x)); plain (deref f).
Definition set_back (f : CallFrame) : M unit := modify (λ x, with_stack (f :: tail (stack x)) x).

(** ** Services *)
(** Whatever runs outside the modelled opcodes; [CallNative] and [ExecuteIntrinsic] take
    the staging offset of the arguments. *)
Class Services := {
  CheckGCSafepoint : M unit;
  ExecuteIntrinsic : Z → Z → M unit;
  CallNative : CompiledFunction → Z → M unit;
  OpPrimToStr : reader → M reader;
  OpArray_to_str : M unit;
  Now : exec → Z
}.

Section Machine.
Context `{Services} (m : CompiledModule) (fuel shard : nat) (schedTripLimit : Z).

(** ** Exceptions *)
Definition m_listClassIdx : Z :=
  let idx := FindClassBareOrUniqueSuffix m (bytes_of "List") in if decide (0 ≤ idx) then i16 idx else -1.
Definition FormatBacktraceFrame (funcName file : bytes) (line : Z) (fallbackModule : bytes) : bytes :=
  let loc := if decide (file = []) then fallbackModule ++ bytes_of ".n" else file in
  funcName ++ bytes_of " (" ++ loc ++ bytes_of ":"
  ++ bytes_of (if decide (line = 0) then "?" else pretty line) ++ bytes_of ")".
(** One boxed string for each frame, innermost first. *)
Definition push_frame_text (acc : heap * list Z) (f : CallFrame) : outcome (heap * list Z) :=
  let '(h, elements) := acc in
  let frame := FormatBacktraceFrame (fn_name (func f)) (sourceFile (func f)) (currentLine f) (m_name m) in
  '(frameHandle, st) ← MintNewString (strs h) shard frame;
  '(boxed, h) ← AllocBoxedValue (hwith_strs h st) shard RTK_String frameHandle;
  Ok (h, elements ++ [boxed]).
Definition MintBacktraceList (frames : list CallFrame) (h : heap) (lists : list (list Z))
    : outcome (Z * heap * list (list Z)) :=
  if decide (m_listClassIdx < 0) then Ok (-1, h, lists)
  else
    '(listHeapIdx, h) ← AllocClassOnHeap fuel (md m) h shard (u16 m_listClassIdx);
    let handle := Z.of_nat (S (length lists)) in
    h ← set_cell h listHeapIdx 1 handle;
    '(h, elements) ← foldM push_frame_text (h, []) frames;
    Ok (listHeapIdx, h, lists ++ [elements]).
Definition BuildNlangException (frames : list CallFrame) (classIdx : Z) (msg : bytes) (h : heap)
    (lists : list (list Z)) : outcome (Z * heap * list (list Z)) :=
  if decide (classIdx < 0) then Raise (RuntimeError "NLang VM: exception class not registered")
  else
    '(heapIdx, h) ← AllocClassOnHeap fuel (md m) h shard (u16 classIdx);
    '(msgHandle, st) ← MintNewString (strs h) shard msg;
    h ← set_cell (hwith_strs h st) heapIdx 1 msgHandle;
    h ← set_cell h heapIdx 5 0;
    '(listHeapIdx, h, lists) ← MintBacktraceList frames h lists;
    h ← (if decide (0 < listHeapIdx) then set_cell h heapIdx 3 listHeapIdx else Ok h);
    Ok (heapIdx, h, lists).
Definition RaiseNlangException {A} (c : exc_class) (msg : bytes) : M A := λ x,
  match BuildNlangException (stack x) (CacheBuiltinClassIndexes m c) msg (x_heap x) (lists x) with
  | Ok (heapIdx, h, l) => Thrown (with_lists l (with_heap h x)) (NLangThrow heapIdx)
  | Raise e => Thrown x (VmError e)
  end.

(** ** Handlers as computations *)
Definition lift {A} (o : outcome A) : M A :=
  match o with
  | Ok a => mret a
  | Raise (NlangExc c msg) => RaiseNlangException c (bytes_of msg)
  | Raise e => throw (VmError e)
  end.
Definition on_locals (f : bytes → outcome (reader * bytes)) : M reader :=
  fr ← back;
  '(r, l) ← lift (f (localsBuf fr));
  _ ← set_back (fset_locals l fr);
  mret r.
Definition read_locals (f : bytes → outcome reader) : M reader := fr ← back; lift (f (localsBuf fr)).
Definition result_cell : M (nat * bytes) :=
  fr ← back;
  i ← plain (FrameResultCell fr);
  c ← gets (λ x, cells x !! i);
  c ← plain (deref c);
  mret (i, c).
Definition set_result (i : nat) (c : bytes) : M unit := modify (λ x, with_cells (<[i := c]> (cells x)) x).
Definition on_result (f : bytes → outcome (reader * bytes)) : M reader :=
  '(i, c) ← result_cell;
  '(r, c) ← lift (f c);
  _ ← set_result i c;
  mret r.
Definition on_heap (f : heap → bytes → outcome aframe) : M reader :=
  fr ← back;
  h ← gets x_heap;
  '(r, h, l) ← lift (f h (localsBuf fr));
  _ ← modify (with_heap h);
  _ ← set_back (fset_locals l fr);
  mret r.
Definition on_heap_result (f : heap → bytes → outcome aframe) : M reader :=
  '(i, c) ← result_cell;
  h ← gets x_heap;
  '(r, h, c) ← lift (f h c);
  _ ← modify (with_heap h);
  _ ← set_result i c;
  mret r.
Definition with_strs_of (h : heap) (o : outcome sframe) : outcome aframe :=
  '(r, st, l) ← o; Ok (r, hwith_strs h st, l).
Definition on_strs (f : StringStore → bytes → outcome sframe) : M reader :=
  on_heap (λ h l, with_strs_of h (f (strs h) l)).

(** ** Control *)
Definition EnsureSuspensionAllowed : M unit :=
  n ← gets (λ x, m_activeCarrierCount (x_static x).1.2);
  if decide (n = 0) then throw (VmError SuspensionRefused) else mret tt.
Definition RequestPark {A} (why : park_reason) : M A :=
  _ ← EnsureSuspensionAllowed; throw (ParkSignal why).
Definition CheckSchedulerQuota : M unit :=
  nest ← gets nestDepth;
  budget ← gets tripBudget;
  if decide (0 < nest) then mret tt
  else if decide (0 < budget - 1) then modify (with_budget (budget - 1))
  else
    _ ← modify (with_budget schedTripLimit);
    now ← gets Now;
    '(t, s, k) ← gets x_static;
    s ← plain (ServiceDueTimers s now);
    _ ← modify (with_static (t, s, k));
    if decide (m_runQueue s = []) then mret tt else RequestPark Preempted.
Definition OpJump (r : reader) : M reader :=
  '(target, r) ← plain (ReadUint16 r);
  _ ← (if decide (target ≤ Z.of_nat (m_offset r)) then
         _ ← CheckGCSafepoint;
         fr ← back;
         _ ← set_back (fset_pc target fr);
         CheckSchedulerQuota
       else mret tt);
  mret (Seek r (Z.to_nat target)).
Definition OpDebugInfo (r : reader) : M reader :=
  '(line, r) ← plain (ReadUint16 r);
  fr ← back;
  _ ← set_back (fset_line line fr);
  mret r.
Definition OpAssertFail (r : reader) : M reader :=
  '(msgIdx, r) ← plain (ReadUint16 r);
  st ← gets (λ x, strs (x_heap x));
  let prefix := bytes_of "assertion failed" in
  match m_constStrCache st !!z msgIdx with
  | None => RaiseNlangException ExcAssert prefix
  | Some c =>
      '(s, st) ← plain (StrVal fuel st c);
      _ ← modify (λ x, with_heap (hwith_strs (x_heap x) st) x);
      RaiseNlangException ExcAssert (if decide (s = []) then prefix else prefix ++ bytes_of ": " ++ s)
  end.
Definition OpThrow (r : reader) : M reader :=
  '(src, _) ← plain (ReadUint16 r);
  fr ← back;
  heapIdx ← plain (ld32 (localsBuf fr) src);
  throw (NLangThrow heapIdx).
Definition OpRethrow : M reader :=
  fr ← back;
  match handlerExcStack fr with
  | [] => throw (VmError (RuntimeError "NLang VM: rethrow outside catch handler"))
  | h :: _ => throw (NLangThrow h)
  end.
Definition OpPopHandler : M unit :=
  fr ← back;
  match handlerExcStack fr with
  | [] => throw (VmError (RuntimeError "NLang VM: PopHandler underflow"))
  | _ :: s => set_back (fset_handlers s fr)
  end.

(** ** Static access *)
Definition on_static (f : bool → reader → istate → outcome (op_end * istate)) (r : reader) : M reader :=
  x ← gets x_static;
  '(e, x) ← lift (f (negb (bool_decide (m_activeCarrierCount x.1.2 = 0))) r x);
  _ ← modify (with_static x);
  match e with
  | Continue r => mret r
  | Suspend p => fr ← back; _ ← set_back (fset_pc p fr); throw (ParkSignal ClassInit)
  end.
Definition load_static (r : reader) : M reader :=
  x ← gets x_static; on_locals (OpLoadStatic m x.1.1 r).
Definition store_static (r : reader) : M reader :=
  fr ← back;
  '(t, s, k) ← gets x_static;
  h ← gets x_heap;
  '(r, h, t) ← lift (OpStoreStatic fuel m shard t r h (localsBuf fr));
  _ ← modify (with_heap h);
  _ ← modify (with_static (t, s, k));
  mret r.

(** ** Calls *)
(** The resume point of the running frame. *)
Definition set_pc (p : Z) : M unit := fr ← back; set_back (fset_pc p fr).
Definition advance_pc (r : reader) : M unit := set_pc (u16 (Z.of_nat (m_offset r))).
(** A native call that parks is executed again. *)
Definition call_native (callee : CompiledFunction) (callParamBase : Z) : M bool :=
  fr ← back;
  _ ← set_pc (opPc fr);
  _ ← CallNative callee callParamBase;
  mret false.
Definition push (f : list CallFrame → pushed) : M bool :=
  s ← gets stack;
  match f s with
  | Pushed s => _ ← modify (with_stack s); _ ← CheckGCSafepoint; mret true
  | PushFailed s e => _ ← modify (with_stack s); throw (VmError e)
  end.
Definition function_at (msg : string) (idx : Z) : M CompiledFunction :=
  plain (match functions m !!z idx with Some f => Ok f | None => Raise (RuntimeError msg) end).
Definition INTR_None : Z := 65535.
Definition no_out (what : string) (callee : CompiledFunction) : M bool :=
  throw (VmError (RuntimeError ("NLang VM: " ++ what ++ " function does not support out parameters: "
                                ++ text (fn_name callee)))).
(** The ABI of the direct calls, by the kind of the callee. *)
Definition call_plain (r : reader) (callee : CompiledFunction) (callParamBase : Z) : M bool :=
  if isNative callee then call_native callee callParamBase
  else if decide (intrinsicId callee ≠ INTR_None) then
    _ ← advance_pc r; _ ← ExecuteIntrinsic (intrinsicId callee) callParamBase; mret false
  else _ ← advance_pc r; push (λ s, PushCalleeFrame s callee callParamBase 0 0).
Definition call_method (r : reader) (callee : CompiledFunction) (callParamBase : Z) : M bool :=
  if decide (intrinsicId callee ≠ INTR_None) then
    _ ← advance_pc r; _ ← ExecuteIntrinsic (intrinsicId callee) callParamBase; mret false
  else if isNative callee then call_native callee callParamBase
  else _ ← advance_pc r; push (λ s, PushCalleeFrame s callee callParamBase 0 0).

Definition OpCallFunc (r : reader) : M (reader * bool) :=
  '(funcIndex, r) ← plain (ReadUint16 r);
  '(callParamBase, r) ← plain (ReadUint16 r);
  callee ← function_at "NLang VM: invalid function index" funcIndex;
  b ← call_plain r callee callParamBase;
  mret (r, b).
Definition OpCallFuncOut (r : reader) : M (reader * bool) :=
  '(funcIndex, r) ← plain (ReadUint16 r);
  '(callParamBase, r) ← plain (ReadUint16 r);
  '(mask, r) ← plain (ReadUint32 r);
  callee ← function_at "NLang VM: invalid function index" funcIndex;
  b ← (if isNative callee then no_out "native" callee
       else if decide (intrinsicId callee ≠ INTR_None) then no_out "intrinsic" callee
       else _ ← advance_pc r; push (λ s, PushCalleeFrame s callee callParamBase mask 0));
  mret (r, b).
Definition OpCallMethodDirect (r : reader) : M (reader * bool) :=
  '(funcIndex, r) ← plain (ReadUint16 r);
  '(callParamBase, r) ← plain (ReadUint16 r);
  callee ← function_at "NLang VM: invalid function index in CallMethodDirect" funcIndex;
  b ← call_method r callee callParamBase;
  mret (r, b).
Definition OpCallMethodDirectOut (r : reader) : M (reader * bool) :=
  '(funcIndex, r) ← plain (ReadUint16 r);
  '(callParamBase, r) ← plain (ReadUint16 r);
  '(mask, r) ← plain (ReadUint32 r);
  callee ← function_at "NLang VM: invalid function index in CallMethodDirect" funcIndex;
  b ← (if decide (intrinsicId callee ≠ INTR_None) then no_out "intrinsic" callee
       else if isNative callee then no_out "native" callee
       else _ ← advance_pc r; push (λ s, PushCalleeFrame s callee callParamBase mask 0));
  mret (r, b).
(** The receiver is the first staged argument. *)
Definition method_target (h : heap) (methodName : bytes) (thisHeapIdx : Z) : outcome Z :=
  match (if decide (thisHeapIdx ≤ 0) then None else rec_at h thisHeapIdx) with
  | None => Raise (NlangExc ExcNullPtr "NLang VM: null reference in CallMethod")
  | Some _ => resolve_method m h thisHeapIdx methodName
  end.
Definition OpCallMethod (r : reader) : M (reader * bool) :=
  '(methodNameIdx, r) ← plain (ReadUint16 r);
  '(callParamBase, r) ← plain (ReadUint16 r);
  methodName ← plain (match stringConstants (md m) !!z methodNameIdx with
                      | Some n => Ok n
                      | None => Raise (RuntimeError "NLang VM: invalid method name string index")
                      end);
  fr ← back;
  thisHeapIdx ← plain (ld32 (localsBuf fr) callParamBase);
  h ← gets x_heap;
  funcIndex ← lift (method_target h methodName thisHeapIdx);
  callee ← plain (deref (functions m !!z funcIndex));
  b ← call_method r callee callParamBase;
  mret (r, b).
Definition OpCallIntrinsic (r : reader) : M reader :=
  '(id, r) ← plain (ReadUint16 r);
  '(callParamBase, r) ← plain (ReadUint16 r);
  _ ← advance_pc r;
  _ ← ExecuteIntrinsic id callParamBase;
  mret r.

Definition delegate_locals : vm_error :=
  RuntimeError "NLang VM: callee locals smaller than the parameter block in CallDelegate".
Definition check_delegate_locals (callee : CompiledFunction) : M unit :=
  plain (if decide (Z.of_nat (localsSize callee) < paramBytes callee) then Raise delegate_locals else Ok tt).
Definition CallDelegateFree (callee : CompiledFunction) (callParamBase mask : Z) : M bool :=
  if isNative callee then
    if decide (mask ≠ 0) then no_out "native" callee else call_native callee callParamBase
  else
    _ ← check_delegate_locals callee;
    push (λ s, PushCalleeFrame s callee callParamBase mask 0).
Definition CallDelegateBound (callee : CompiledFunction) (thisIdx callParamBase mask : Z) : M bool :=
  if isNative callee then
    throw (VmError (RuntimeError ("NLang VM: native method reached by delegate dispatch: " ++ text (fn_name callee))))
  else if decide (intrinsicId callee ≠ INTR_None) then
    throw (VmError (RuntimeError ("NLang VM: intrinsic method reached by delegate dispatch: " ++ text (fn_name callee))))
  else
    _ ← check_delegate_locals callee;
    push (λ s, PushBoundCalleeFrame s callee thisIdx callParamBase mask).
Definition ExecuteDelegateCall (handle : list Z) (callParamBase mask : Z) : M bool :=
  h ← gets x_heap;
  thisIdx ← plain (deref (handle !! 1%nat));
  funcIndex ← lift (ResolveDelegateTarget m h handle);
  callee ← plain (deref (functions m !!z funcIndex));
  if decide (thisIdx = 0) then CallDelegateFree callee callParamBase mask
  else CallDelegateBound callee thisIdx callParamBase mask.
(** The handle in a local, which must be a function record. *)
Definition func_handle (h : heap) (locals : bytes) (calleeLocal : Z) : outcome (list Z) :=
  handleIdx ← ld32 locals calleeLocal;
  if decide (handleIdx ≤ 0 ∨ kind_at h handleIdx ≠ Some RTK_Func)
  then Raise (NlangExc ExcNullPtr "NLang VM: null function value in CallDelegate")
  else deref (rec_at h handleIdx).
Definition call_delegate (out : bool) (r : reader) : M (reader * bool) :=
  '(calleeLocal, r) ← plain (ReadUint16 r);
  '(callParamBase, r) ← plain (ReadUint16 r);
  '(mask, r) ← plain (if out then ReadUint32 r else Ok (0, r));
  fr ← back;
  h ← gets x_heap;
  handle ← lift (func_handle h (localsBuf fr) calleeLocal);
  _ ← advance_pc r;
  b ← ExecuteDelegateCall handle callParamBase mask;
  mret (r, b).
Definition OpCallDelegate : reader → M (reader * bool) := call_delegate false.
Definition OpCallDelegateOut : reader → M (reader * bool) := call_delegate true.

(** ** Dispatch *)
(** The instruction goes on in the same frame at the reader, or the top frame changed. *)
Definition next (f : M reader) : M (reader * bool) := r ← f; mret (r, false).
Definition stay (r : reader) (f : M unit) : M (reader * bool) := _ ← f; mret (r, false).
Definition pop_frame : M unit :=
  s ← gets stack; s ← plain (PopFrameWithWriteback s); modify (with_stack s).
Definition on_check_cast (r : reader) : M reader :=
  '(_, c) ← result_cell; h ← gets x_heap; lift (OpCheckCast m r h c).

Definition exec_op (op : OpCode) (r : reader) : M (reader * bool) :=
  match op with
  | OP_Return | OP_Stop => _ ← pop_frame; mret (r, true)
  | OP_AssertFail => next (OpAssertFail r)
  | OP_ConstInt32 => next (on_result (OpConstInt32 r))
  | OP_ConstFloat => next (on_result (OpConstFloat r))
  | OP_ConstZero => next (on_result (OpConstZero r))
  | OP_ConstString => next (st ← gets (λ x, strs (x_heap x)); on_result (OpConstString st r))
  | OP_VarLocal => next (fr ← back; on_result (OpVarLocal r (localsBuf fr)))
  | OP_Assign => next ('(_, c) ← result_cell; on_locals (λ l, OpAssign r l c))
  | OP_PrimCast => next (on_result (OpPrimCast r))
  | OP_Prim_to_str => next (OpPrimToStr r)
  | OP_Enum_to_str => next (on_heap_result (λ h c, with_strs_of h (OpEnum_to_str shard (enumNames m) r (strs h) c)))
  | OP_Array_to_str => stay r OpArray_to_str
  | OP_Add => next (on_locals (OpAdd r))
  | OP_Sub => next (on_locals (OpSub r))
  | OP_Mul => next (on_locals (OpMul r))
  | OP_Div => next (on_locals (OpDiv r))
  | OP_Mod => next (on_locals (OpMod r))
  | OP_Shl => next (on_locals (OpShl r))
  | OP_Shr => next (on_locals (OpShr r))
  | OP_Neg => next (on_locals (OpNeg r))
  | OP_Cmp => next (on_locals (OpCmp r))
  | OP_ConstInt64 => next (on_result (OpConstInt64 r))
  | OP_ConstDouble => next (on_result (OpConstDouble r))
  | OP_LogicalNot => next (on_locals (OpLogicalNot r))
  | OP_Jump => next (OpJump r)
  | OP_JumpIfNot => next (read_locals (OpJumpIfNot r))
  | OP_CallFunc => OpCallFunc r
  | OP_MakeFunc => next (on_heap_result (OpMakeFunc m shard r))
  | OP_CallDelegate => OpCallDelegate r
  | OP_CallDelegateOut => OpCallDelegateOut r
  | OP_MakeBoundFunc => next (on_heap_result (OpMakeBoundFunc m shard r))
  | OP_MakeVFunc => next (on_heap_result (OpMakeVFunc m shard r))
  | OP_Eq_func => next (on_heap (OpFuncEquality false r))
  | OP_Ne_func => next (on_heap (OpFuncEquality true r))
  | OP_Func_to_str => next (on_heap_result (OpFunc_to_str m shard r))
  | OP_CallFuncOut => OpCallFuncOut r
  | OP_ParaEnd => mret (r, false)
  | OP_Switch => next (plain (OpSwitch r))
  | OP_Case => next (plain (OpCase r))
  | OP_DebugInfo => next (OpDebugInfo r)
  | OP_AllocStruct => next (on_heap (OpAllocStruct fuel (md m) shard r))
  | OP_LoadField => next (on_heap (OpLoadField r))
  | OP_StoreField => next (on_heap (OpStoreField r))
  | OP_LoadStatic => next (load_static r)
  | OP_StoreStatic => next (store_static r)
  | OP_ClassInitGate => next (on_static OpClassInitGate r)
  | OP_ClassInitDone => next (on_static (λ _, OpClassInitDone) r)
  | OP_ClassInitFail => next (on_static (λ _, OpClassInitFail) r)
  | OP_SlotInitGate => next (on_static OpSlotInitGate r)
  | OP_SlotInitDone => next (on_static (λ _, OpSlotInitDone) r)
  | OP_SlotInitFail => next (on_static (λ _, OpSlotInitFail) r)
  | OP_New => next (on_heap (OpNew fuel (md m) shard r))
  | OP_CallMethodDirect => OpCallMethodDirect r
  | OP_CallMethodDirectOut => OpCallMethodDirectOut r
  | OP_CallMethod => OpCallMethod r
  | OP_CallIntrinsic => next (OpCallIntrinsic r)
  | OP_NullCheck => next (read_locals (OpNullCheck r))
  | OP_CopyStruct => next (on_heap (OpCopyStruct fuel (md m) shard r))
  | OP_AllocArrayN => next (on_heap (OpAllocArrayN fuel (md m) shard r))
  | OP_MakeArrayView => next (on_heap (OpMakeArrayView (md m) shard r))
  | OP_AssembleArrayN => next (on_heap (OpAssembleArrayN fuel (md m) shard r))
  | OP_LoadElementN => next (on_heap (OpLoadElementN (md m) r))
  | OP_StoreElementN => next (on_heap (OpStoreElementN (md m) r))
  | OP_ArrayLength => next (on_heap (OpArrayLength r))
  | OP_LoadElementFlat => next (on_heap (OpLoadElementFlat (md m) r))
  | OP_ArrayShape => next (on_heap (OpArrayShape fuel (md m) shard r))
  | OP_CheckArrayRank => next (on_heap (OpCheckArrayRank r))
  | OP_CheckArrayType => next (on_heap (OpCheckArrayType (md m) r))
  | OP_LoadElementDyn => next (on_heap (OpLoadElementDyn (md m) r))
  | OP_StoreElementDyn => next (on_heap (OpStoreElementDyn (md m) r))
  | OP_AllocArrayDyn => next (on_heap (OpAllocArrayDyn fuel (md m) shard r))
  | OP_Box => next (on_heap_result (OpBox shard r))
  | OP_Unbox => next (on_heap_result (OpUnbox r))
  | OP_CheckCast => next (on_check_cast r)
  | OP_Throw => next (OpThrow r)
  | OP_Rethrow => next OpRethrow
  | OP_PopHandler => stay r OpPopHandler
  | OP_Concat_str => next (on_strs (OpConcat_str fuel shard r))
  | OP_Eq_str => next (on_strs (OpEq_str fuel r))
  | OP_Ne_str => next (on_strs (OpNe_str fuel r))
  | OP_Less_str => next (on_strs (OpLess_str fuel r))
  | OP_LessEqual_str => next (on_strs (OpLessEqual_str fuel r))
  | OP_Greater_str => next (on_strs (OpGreater_str fuel r))
  | OP_GreaterEqual_str => next (on_strs (OpGreaterEqual_str fuel r))
  | OP_StrLen => next (on_strs (OpStrLen fuel r))
  | OP_StrByteAt => next (on_strs (OpStrByteAt fuel r))
  | OP_StrForeachStep => next (on_strs (OpStrForeachStep fuel r))
  end.

(** The reader of the top frame at its resume point; the result cell is resolved here. *)
Definition fetch : M reader :=
  fr ← back;
  _ ← plain (FrameResultCell fr);
  mret (Reader (bytecode (func fr)) (Z.to_nat (pc fr))).
(** One instruction: its offset becomes the throw site, then it runs. *)
Definition exec_instr (r : reader) : M (reader * bool) :=
  fr ← back;
  _ ← set_back (fset_opPc (u16 (Z.of_nat (m_offset r))) fr);
  '(op, r') ← plain (ReadOp r);
  match op with
  | Some op => exec_op op r'
  | None => throw (VmError (RuntimeError ("NLang VM: unknown opcode "
                                          ++ pretty (default 0 (m_data r !! m_offset r)))))
  end.
(** One turn of the frame loop.  [Some r] is inside the instruction loop of the top
    frame, [None] at the head of the outer loop; [None] again as a result means the
    window is drained. *)
Definition dispatch_step (base : nat) (cur : option reader) : M (option (option reader)) :=
  match cur with
  | None =>
      n ← gets (λ x, length (stack x));
      if decide (n ≤ base)%nat then mret None else r ← fetch; mret (Some (Some r))
  | Some r =>
      if Eof r then _ ← pop_frame; mret (Some None)
      else '(r, frameDone) ← exec_instr r; mret (Some (if (frameDone : bool) then None else Some r))
  end.
(** [None] as the value: still running after [n] turns. *)
Fixpoint DispatchFrames (n : nat) (base : nat) (cur : option reader) : M (option unit) :=
  match n with
  | O => mret None
  | S n =>
      c ← dispatch_step base cur;
      match c with
      | None => mret (Some tt)
      | Some cur => DispatchFrames n base cur
      end
  end.

(** ** Exceptions in flight *)
Definition ThrowJoinTargetFailure {A} (excIdx : Z) : M A :=
  h ← gets x_heap;
  match (if decide (excIdx ≤ 0) then None else rec_at h excIdx) with
  | None => throw (VmError (RuntimeError "NLang VM: join target failed without an exception object"))
  | Some _ => throw (NLangThrow excIdx)
  end.
Definition ConsumeResumeThrow : M unit :=
  excIdx ← gets resumeThrow;
  if decide (excIdx = 0) then mret tt
  else _ ← modify (with_resume 0); ThrowJoinTargetFailure excIdx.
(** The handler search above [base], innermost frame first: [true] when a handler was
    entered, else every frame of the window is gone. *)
Fixpoint search (base : nat) (h : heap) (exc : Z) (s : list CallFrame) (u : list UnwindFrame)
    : outcome (bool * list CallFrame * list UnwindFrame) :=
  match s with
  | [] => Ok (false, s, u)
  | f :: rest =>
      if decide (length s ≤ base)%nat then Ok (false, s, u)
      else
        e ← TryEnterCatchHandler m h f exc;
        match e with
        | Some f' => Ok (true, f' :: rest, [])
        | None => search base h exc rest (u ++ [unwind_record f])
        end
  end.
Definition handle_throw (base : nat) (exc : Z) : M bool :=
  x ← (λ x, Done x x);
  '(entered, s, u) ← plain (search base (x_heap x) exc (stack x) (unwind x));
  _ ← modify (λ x, with_unwind u (with_stack s x));
  mret entered.
(** The catch-all: one record for each frame of the window. *)
Fixpoint drop_frames (base : nat) (s : list CallFrame) (u : list UnwindFrame) : list CallFrame * list UnwindFrame :=
  match s with
  | [] => ([], u)
  | f :: rest => if decide (length s ≤ base)%nat then (s, u) else drop_frames base rest (u ++ [unwind_record f])
  end.
Definition unwind_all (base : nat) (x : exec) : exec :=
  let '(s, u) := drop_frames base (stack x) (unwind x) in with_unwind u (with_stack s x).

Fixpoint RunFrames (n : nat) (base : nat) : M (option unit) :=
  match n with
  | O => mret None
  | S k => λ x,
      match (_ ← ConsumeResumeThrow; DispatchFrames n base None) x with
      | Done x r => Done x r
      | Thrown x (NLangThrow exc) =>
          match handle_throw base exc x with
          | Done x true => RunFrames k base x
          | Done x false => Thrown x (NLangThrow exc)
          | Thrown x s => Thrown x s
          end
      | Thrown x (VmError e) => Thrown (unwind_all base x) (VmError e)
      | Thrown x s => Thrown x s
      end
  end.
End Machine.
