(* ===== verification/ExecTypes.v ===== *)
(** * Typing of frames across instructions

    A frame is well formed when its locals have the size its function declares, its
    result cell exists and has eight bytes, and its function is one of the module.  This
    file shows that every opcode handler keeps the size of the bytes it works on and the
    code its reader walks, lifts that to the executor ([steady]), and concludes that no
    instruction breaks the frames of a window or their bound. *)
From S2P Require Import Prelude.
From S2P Require Import Bytecode Package Prims TypeDesc Shards Strings StringOps Layout Heap HeapGC Arrays ArraySlice Frames.
From S2P Require Import FramesSpec SchedState Sched SchedSpec SyncPrims StaticInit Objects Exec.
Open Scope Z_scope.

(** ** Partial correctness of fallible functions *)
Definition yields {A} (P : A → Prop) (o : outcome A) : Prop := ∀ a, o = Ok a → P a.

Lemma yields_Ok {A} (P : A → Prop) a : P a → yields P (Ok a).
Proof. by intros ? ? [= <-]. Qed.
Lemma yields_Raise {A} (P : A → Prop) e : yields P (Raise e).
Proof. by intros ? ?. Qed.
Lemma yields_bind {A B} (P : B → Prop) (o : outcome A) (f : A → outcome B) :
  (∀ a, o = Ok a → yields P (f a)) → yields P (a ← o; f a).
Proof. intros H b (a & Ha & Hb)%bind_Ok. by eapply H. Qed.
Lemma yields_bind_post {A B} (Q : A → Prop) (P : B → Prop) (o : outcome A) (f : A → outcome B) :
  yields Q o → (∀ a, Q a → yields P (f a)) → yields P (a ← o; f a).
Proof. intros HQ H. apply yields_bind. intros a Ha. apply H, HQ, Ha. Qed.
Lemma yields_assoc {A B C} (P : C → Prop) (o : outcome A) (g : A → outcome B) (f : B → outcome C) :
  yields P (a ← o; b ← g a; f b) → yields P (b ← (a ← o; g a); f b).
Proof. by destruct o. Qed.

(** The reader still walks the same code. *)
Definition same_code {A} (r : reader) (p : A * reader) : Prop := m_data p.2 = m_data r.
Lemma ReadByte_code r : yields (same_code r) (ReadByte r).
Proof. unfold ReadByte. apply yields_bind. intros b _. by apply yields_Ok. Qed.
Lemma ReadUint16_code r : yields (same_code r) (ReadUint16 r).
Proof.
  unfold ReadUint16. eapply yields_bind_post; [apply ReadByte_code|]. intros [lo r1] H1.
  eapply yields_bind_post; [apply ReadByte_code|]. intros [hi r2] H2. apply yields_Ok.
  unfold same_code in *. simpl in *. congruence.
Qed.
Lemma read_le_code n : ∀ i v r, yields (same_code r) (read_le n i v r).
Proof.
  induction n as [|n IH]; intros i v r; cbn [read_le]; [by apply yields_Ok|].
  eapply yields_bind_post; [apply ReadByte_code|]. intros [b r1] H1.
  intros p Hp. apply IH in Hp. unfold same_code in *. simpl in *. congruence.
Qed.
Lemma ReadInt32_code r : yields (same_code r) (ReadInt32 r).
Proof. unfold ReadInt32. eapply yields_bind_post; [apply read_le_code|]. intros [v r1] H1. by apply yields_Ok. Qed.
Lemma ReadInt64_code r : yields (same_code r) (ReadInt64 r).
Proof. unfold ReadInt64. eapply yields_bind_post; [apply read_le_code|]. intros [v r1] H1. by apply yields_Ok. Qed.
Lemma ReadOp_code r : yields (same_code r) (ReadOp r).
Proof. unfold ReadOp. eapply yields_bind_post; [apply ReadByte_code|]. intros [v r1] H1. by apply yields_Ok. Qed.

(** Stores keep the length. *)
Lemma st32_length mem off v : yields (λ mem', length mem' = length mem) (st32 mem off v).
Proof. intros mem' H. by eapply store_length. Qed.
Lemma store_len n mem off v : yields (λ mem', length mem' = length mem) (store n mem off v).
Proof. intros mem' H. by eapply store_length. Qed.
Lemma memcpy_len dst off src soff n : yields (λ dst', length dst' = length dst) (memcpy dst off src soff n).
Proof. intros mem' H. by eapply memcpy_length. Qed.
Lemma store_cells_length vs : ∀ mem off, yields (λ mem', length mem' = length mem) (store_cells mem off vs).
Proof.
  induction vs as [|v vs IH]; intros mem off; cbn [store_cells]; [by apply yields_Ok|].
  eapply yields_bind_post; [apply st32_length|]. intros mem1 H1 mem' H'.
  rewrite <- H1. by eapply IH.
Qed.
Lemma copy_out_length h owner base flat cells dst mem :
  yields (λ mem', length mem' = length mem) (copy_out h owner base flat cells dst mem).
Proof.
  unfold copy_out. do 3 (apply yields_bind; intros ? _). apply store_cells_length.
Qed.

Create HintDb posts.
#[export] Hint Resolve ReadByte_code ReadUint16_code read_le_code ReadInt32_code ReadInt64_code ReadOp_code
  st32_length store_len memcpy_len store_cells_length copy_out_length : posts.

(** Walk a handler: use the postcondition of a step that has one, forget the others. *)
Ltac close_yields :=
  unfold same_code in *; simpl in *; try split; try congruence.
Ltac walk_bind :=
  first [ eapply yields_bind_post; [solve [eauto with posts nocore]|] | apply yields_bind ]; intros ? ?.
Ltac walk :=
  cbv beta zeta;
  lazymatch goal with
  | |- yields _ (Ok _) => apply yields_Ok; close_yields
  | |- yields _ (Raise _) => apply yields_Raise
  | |- yields _ (@mbind _ _ _ _ _ (match ?x with _ => _ end)) => first [destruct x; walk | walk_bind; walk]
  | |- yields _ (@mbind _ _ _ _ _ (@mbind _ _ _ _ _ _)) => apply yields_assoc; walk
  | |- yields _ (@mbind _ _ _ _ _ _) => walk_bind; walk
  | |- yields _ (match ?x with _ => _ end) => destruct x; walk
  | |- yields _ ?t => try (apply yields_Raise)
  | |- _ => idtac
  end.

(** ** Handlers keep the size of their bytes and the code of their reader *)
Definition kept (r : reader) (l : bytes) (p : reader * bytes) : Prop :=
  m_data p.1 = m_data r ∧ length p.2 = length l.
Definition kept3 {A} (r : reader) (l : bytes) (p : reader * A * bytes) : Prop :=
  m_data p.1.1 = m_data r ∧ length p.2 = length l.
Ltac handler := intros; unfold kept, kept3; walk.

Lemma bin_handler_kept t u g r l : yields (kept r l) (bin_handler t u g r l).
Proof. unfold bin_handler. handler. Qed.
Lemma OpNeg_kept r l : yields (kept r l) (OpNeg r l).
Proof. unfold OpNeg. handler. Qed.
Lemma OpCmp_kept r l : yields (kept r l) (OpCmp r l).
Proof. unfold OpCmp. handler. Qed.
Lemma OpLogicalNot_kept r l : yields (kept r l) (OpLogicalNot r l).
Proof. unfold OpLogicalNot. handler. Qed.
Lemma OpPrimCast_kept r l : yields (kept r l) (OpPrimCast r l).
Proof. unfold OpPrimCast. handler. Qed.
Lemma OpConstInt64_kept r l : yields (kept r l) (OpConstInt64 r l).
Proof. unfold OpConstInt64. handler. Qed.
Lemma OpConstDouble_kept r l : yields (kept r l) (OpConstDouble r l).
Proof. unfold OpConstDouble. handler. Qed.
Lemma OpConstInt32_kept r l : yields (kept r l) (OpConstInt32 r l).
Proof. unfold OpConstInt32. handler. Qed.
Lemma OpConstFloat_kept r l : yields (kept r l) (OpConstFloat r l).
Proof. unfold OpConstFloat. handler. Qed.
Lemma OpConstZero_kept r l : yields (kept r l) (OpConstZero r l).
Proof. unfold OpConstZero. handler. Qed.
Lemma OpConstString_kept st r l : yields (kept r l) (OpConstString st r l).
Proof. unfold OpConstString. handler. Qed.
Lemma OpVarLocal_kept r locals l : yields (kept r l) (OpVarLocal r locals l).
Proof. unfold OpVarLocal. handler. Qed.
Lemma OpAssign_kept r l c : yields (kept r l) (OpAssign r l c).
Proof. unfold OpAssign. handler. Qed.
Lemma OpLoadStatic_kept m t r l : yields (kept r l) (OpLoadStatic m t r l).
Proof. unfold OpLoadStatic. handler. Qed.

Lemma OpAllocStruct_kept fuel md sh r h l : yields (kept3 r l) (OpAllocStruct fuel md sh r h l).
Proof. unfold OpAllocStruct. handler. Qed.
Lemma OpLoadField_kept r h l : yields (kept3 r l) (OpLoadField r h l).
Proof. unfold OpLoadField. handler. Qed.
Lemma OpStoreField_kept r h l : yields (kept3 r l) (OpStoreField r h l).
Proof. unfold OpStoreField. handler. Qed.
Lemma OpNew_kept fuel md sh r h l : yields (kept3 r l) (OpNew fuel md sh r h l).
Proof. unfold OpNew. handler. Qed.
Lemma OpCopyStruct_kept fuel md sh r h l : yields (kept3 r l) (OpCopyStruct fuel md sh r h l).
Proof. unfold OpCopyStruct. handler. Qed.
Lemma OpAllocArrayN_kept fuel md sh r h l : yields (kept3 r l) (OpAllocArrayN fuel md sh r h l).
Proof. unfold OpAllocArrayN. handler. Qed.
Lemma OpMakeArrayView_kept md sh r h l : yields (kept3 r l) (OpMakeArrayView md sh r h l).
Proof. unfold OpMakeArrayView. handler. Qed.
Lemma OpAssembleArrayN_kept fuel md sh r h l : yields (kept3 r l) (OpAssembleArrayN fuel md sh r h l).
Proof. unfold OpAssembleArrayN. handler. Qed.
Lemma OpLoadElementN_kept md r h l : yields (kept3 r l) (OpLoadElementN md r h l).
Proof. unfold OpLoadElementN. handler. Qed.
Lemma OpStoreElementN_kept md r h l : yields (kept3 r l) (OpStoreElementN md r h l).
Proof. unfold OpStoreElementN. handler. Qed.
Lemma OpArrayLength_kept r h l : yields (kept3 r l) (OpArrayLength r h l).
Proof. unfold OpArrayLength. handler. Qed.
Lemma OpLoadElementFlat_kept md r h l : yields (kept3 r l) (OpLoadElementFlat md r h l).
Proof. unfold OpLoadElementFlat. handler. Qed.
Lemma OpArrayShape_kept fuel md sh r h l : yields (kept3 r l) (OpArrayShape fuel md sh r h l).
Proof. unfold OpArrayShape. handler. Qed.
Lemma OpCheckArrayRank_kept r h l : yields (kept3 r l) (OpCheckArrayRank r h l).
Proof. unfold OpCheckArrayRank. handler. Qed.
Lemma OpCheckArrayType_kept md r h l : yields (kept3 r l) (OpCheckArrayType md r h l).
Proof. unfold OpCheckArrayType. handler. Qed.
Lemma OpLoadElementDyn_kept md r h l : yields (kept3 r l) (OpLoadElementDyn md r h l).
Proof. unfold OpLoadElementDyn. handler. Qed.
Lemma OpStoreElementDyn_kept md r h l : yields (kept3 r l) (OpStoreElementDyn md r h l).
Proof. unfold OpStoreElementDyn. handler. Qed.
Lemma OpAllocArrayDyn_kept fuel md sh r h l : yields (kept3 r l) (OpAllocArrayDyn fuel md sh r h l).
Proof. unfold OpAllocArrayDyn. handler. Qed.
Lemma OpBox_kept sh r h l : yields (kept3 r l) (OpBox sh r h l).
Proof. unfold OpBox. handler. Qed.
Lemma OpUnbox_kept r h l : yields (kept3 r l) (OpUnbox r h l).
Proof. unfold OpUnbox. handler. Qed.
Lemma OpMakeFunc_kept m sh r h l : yields (kept3 r l) (OpMakeFunc m sh r h l).
Proof. unfold OpMakeFunc. handler. Qed.
Lemma bound_handle_kept n msg form sh r h l : yields (kept3 r l) (bound_handle n msg form sh r h l).
Proof. unfold bound_handle. handler. Qed.
Lemma OpFuncEquality_kept b r h l : yields (kept3 r l) (OpFuncEquality b r h l).
Proof. unfold OpFuncEquality. handler. Qed.

Lemma OpFunc_to_str_kept m sh r h l : yields (kept3 r l) (OpFunc_to_str m sh r h l).
Proof. unfold OpFunc_to_str. handler. Qed.

Lemma OpConcat_str_kept fuel sh r st l : yields (kept3 r l) (OpConcat_str fuel sh r st l).
Proof. unfold OpConcat_str. handler. Qed.
Lemma OpEq_str_kept fuel r st l : yields (kept3 r l) (OpEq_str fuel r st l).
Proof. unfold OpEq_str. handler. Qed.
Lemma OpNe_str_kept fuel r st l : yields (kept3 r l) (OpNe_str fuel r st l).
Proof. unfold OpNe_str. handler. Qed.
Lemma str_rel_kept fuel op r st l : yields (kept3 r l) (str_rel fuel op r st l).
Proof. unfold str_rel. handler. Qed.
Lemma OpStrLen_kept fuel r st l : yields (kept3 r l) (OpStrLen fuel r st l).
Proof. unfold OpStrLen. handler. Qed.
Lemma OpStrByteAt_kept fuel r st l : yields (kept3 r l) (OpStrByteAt fuel r st l).
Proof. unfold OpStrByteAt. handler. Qed.
Lemma OpStrForeachStep_kept fuel r st l : yields (kept3 r l) (OpStrForeachStep fuel r st l).
Proof. unfold OpStrForeachStep. handler. Qed.
Lemma OpEnum_to_str_kept sh names r st l : yields (kept3 r l) (OpEnum_to_str sh names r st l).
Proof. unfold OpEnum_to_str. handler. Qed.

(** Handlers that only move the reader. *)
Definition code_kept (r r' : reader) : Prop := m_data r' = m_data r.
Lemma OpJumpIfNot_kept r l : yields (code_kept r) (OpJumpIfNot r l).
Proof. unfold OpJumpIfNot, code_kept. walk. case_decide; simpl; congruence. Qed.
Lemma OpSwitch_kept r : yields (code_kept r) (OpSwitch r).
Proof. unfold OpSwitch, code_kept. walk. Qed.
Lemma OpCase_kept r : yields (code_kept r) (OpCase r).
Proof. unfold OpCase, code_kept. walk. Qed.
Lemma OpNullCheck_kept r l : yields (code_kept r) (OpNullCheck r l).
Proof. unfold OpNullCheck, code_kept. walk. Qed.
Lemma OpCheckCast_kept m r h l : yields (code_kept r) (OpCheckCast m r h l).
Proof. unfold OpCheckCast, code_kept. walk. Qed.
Lemma OpStoreStatic_kept fuel m sh t r h l :
  yields (λ p, m_data p.1.1 = m_data r) (OpStoreStatic fuel m sh t r h l).
Proof. unfold OpStoreStatic. walk. Qed.
Definition end_kept (r : reader) (p : op_end * istate) : Prop :=
  match p.1 with Continue r' => m_data r' = m_data r | Suspend _ => True end.
Lemma run_gate_kept s j d g al r x : yields (end_kept r) (run_gate s j d g al r x).
Proof.
  unfold run_gate, end_kept. walk.
Qed.
Lemma end_machine_kept p j r x : yields (end_kept r) (end_machine p j r x).
Proof. unfold end_machine, end_kept. walk. Qed.
Lemma end_kept_code r r' : m_data r' = m_data r → ∀ p, end_kept r' p → end_kept r p.
Proof. unfold end_kept. intros H [[r2|] x]; simpl; congruence. Qed.
Ltac static_walk :=
  walk; let q := fresh "q" in let Hq := fresh "Hq" in intros q Hq; eapply end_kept_code; [|first [by eapply run_gate_kept|by eapply end_machine_kept]];
  unfold same_code in *; simpl in *; congruence.
Lemma OpClassInitGate_kept al r x : yields (end_kept r) (OpClassInitGate al r x).
Proof. unfold OpClassInitGate. static_walk. Qed.
Lemma OpSlotInitGate_kept al r x : yields (end_kept r) (OpSlotInitGate al r x).
Proof. unfold OpSlotInitGate. static_walk. Qed.
Lemma ReadClassInitOwner_code w t r : yields (same_code r) (ReadClassInitOwner w t r).
Proof. unfold ReadClassInitOwner. walk. Qed.
#[export] Hint Resolve ReadClassInitOwner_code : posts.
Lemma OpClassInitDone_kept r x : yields (end_kept r) (OpClassInitDone r x).
Proof. unfold OpClassInitDone. static_walk. Qed.
Lemma OpClassInitFail_kept r x : yields (end_kept r) (OpClassInitFail r x).
Proof. unfold OpClassInitFail. static_walk. Qed.
Lemma slot_end_kept w p r x : yields (end_kept r) (slot_end w p r x).
Proof. unfold slot_end. static_walk. Qed.

(** ** Computations that keep the frames *)
(** The part of a frame that is fixed while it runs. *)
Definition frame_type (f : CallFrame) :=
  (length (localsBuf f), externalResult f, func f, outMask f, callParamBase f, outShift f).
(** Only the top frame changed, and not its type; every result cell kept its size. *)
Record steady (x x' : exec) : Prop := {
  st_top : frame_type <$> head (stack x') = frame_type <$> head (stack x);
  st_rest : tail (stack x') = tail (stack x);
  st_cells : length <$> cells x' = length <$> cells x
}.
#[export] Instance steady_preorder : PreOrder steady.
Proof. split; [by split|]. intros x y z [] []. split; congruence. Qed.

Definition final {A} (res : result A) : exec := match res with Done x _ | Thrown x _ => x end.
(** A throw that no handler of the program catches. *)
Definition uncaught (s : vm_signal) : Prop := match s with NLangThrow _ => False | _ => True end.
(** Code outside the executor that ends the run of its context, or suspends it inside a
    blocking native call, moves the frames away or clears them and then throws
    ([FinishBlockingNative], [FailContextFatal]). *)
Definition abandoned (x : exec) (s : vm_signal) (x' : exec) : Prop :=
  uncaught s ∧ stack x' = [] ∧ length <$> cells x' = length <$> cells x.
Definition ended {A} (x : exec) (res : result A) : Prop :=
  match res with Done x' _ => steady x x' | Thrown x' s => steady x x' ∨ abandoned x s x' end.
Definition keeps {A} (Q : A → Prop) (c : M A) : Prop :=
  ∀ x, ended x (c x) ∧ ∀ x' a, c x = Done x' a → Q a.
Lemma ended_steady {A} x (res : result A) : steady x (final res) → ended x res.
Proof. destruct res; [done|by left]. Qed.
Lemma ended_same {A} x s : ended x (@Thrown A x s).
Proof. by left. Qed.
Lemma ended_trans {A} x y (res : result A) : steady x y → ended y res → ended x res.
Proof.
  intros H. destruct res; cbn [ended]; [by intros; etrans|]. intros [?|(? & ? & E)]; [left; by etrans|right].
  split_and!; [done..|]. by rewrite E, (st_cells _ _ H).
Qed.
#[export] Hint Resolve ended_same : core.

(** What the executor relies on of the code it calls out to: when it returns or throws an
    exception of the program, the frames are those it was called from, the top one of the
    same type, and no cell changed size; any other throw may leave the stack empty. *)
Class ServicesOk `(Services) : Prop := {
  safepoint_ok : keeps (λ _, True) CheckGCSafepoint;
  intrinsic_ok id base : keeps (λ _, True) (ExecuteIntrinsic id base);
  native_ok callee base : keeps (λ _, True) (CallNative callee base);
  prim_to_str_ok r : keeps (code_kept r) (OpPrimToStr r);
  array_to_str_ok : keeps (λ _, True) OpArray_to_str
}.

Section Keeps.
Lemma keeps_weaken {A} (P Q : A → Prop) c : (∀ a, P a → Q a) → keeps P c → keeps Q c.
Proof. intros H Hc x. destruct (Hc x) as [? Hp]. split; [done|]. intros; by eapply H, Hp. Qed.
Lemma keeps_ret {A} (Q : A → Prop) a : Q a → keeps Q (mret a).
Proof. intros H x. split; [done|]. by intros ? ? [= _ <-]. Qed.
Lemma keeps_throw {A} (Q : A → Prop) s : keeps Q (throw s).
Proof. intros x. split; [apply ended_same|]. intros ? ? [=]. Qed.
Lemma keeps_bind {A B} (P : A → Prop) (Q : B → Prop) c (f : A → M B) :
  keeps P c → (∀ a, P a → keeps Q (f a)) → keeps Q (a ← c; f a).
Proof.
  intros Hc Hf x. destruct (Hc x) as [Hs Hp]. unfold mbind, M_bind.
  destruct (c x) as [x' a|x' s]; [|split; [exact Hs|intros ? ? [=]]]. destruct (Hf a (Hp _ _ eq_refl) x') as [? ?].
  split; [by eapply ended_trans|done].
Qed.
Lemma keeps_gets {A} (f : exec → A) : keeps (λ _, True) (gets f).
Proof. intros x. by split. Qed.
Lemma keeps_modify f : (∀ x, steady x (f x)) → keeps (λ _, True) (modify f).
Proof. intros H x. split; [apply H|done]. Qed.
Lemma keeps_plain {A} (Q : A → Prop) o : yields Q o → keeps Q (plain o).
Proof. intros H. destruct o; [apply keeps_ret; by apply H|apply keeps_throw]. Qed.
Lemma keeps_any {A} (Q : A → Prop) (c : M A) : keeps Q c → keeps (λ _, True) c.
Proof. by apply keeps_weaken. Qed.
Lemma yields_any {A} (o : outcome A) : yields (λ _, True) o.
Proof. done. Qed.
Lemma keeps_heap h : keeps (λ _, True) (modify (with_heap h)).
Proof. apply keeps_modify. by intros x. Qed.
Lemma keeps_static t : keeps (λ _, True) (modify (with_static t)).
Proof. apply keeps_modify. by intros x. Qed.
Lemma keeps_back : keeps (λ _, True) back.
Proof. unfold back. eapply keeps_bind; [apply keeps_gets|]. intros. by apply keeps_plain. Qed.
(** Replacing the top frame by one of the same type. *)
Lemma steady_set_back fr s x fr' : stack x = fr :: s → frame_type fr' = frame_type fr →
  steady x (with_stack (fr' :: tail (stack x)) x).
Proof. intros Hs Ht. split; simpl; rewrite ?Hs; simpl; [by rewrite Ht|done..]. Qed.
Lemma keeps_map_back (g : CallFrame → CallFrame) :
  (∀ fr, frame_type (g fr) = frame_type fr) → keeps (λ _, True) (fr ← back; set_back (g fr)).
Proof.
  intros H x. cbv [back gets mbind M_bind plain]. destruct (stack x) as [|fr s] eqn:Hs; [split; [apply ended_same|done]|].
  cbn. split; [|done]. eapply (steady_set_back fr s); [done|apply H].
Qed.
End Keeps.

Section Machine.
Context `{HS : Services} {HSok : ServicesOk HS} (m : CompiledModule) (fuel shard : nat) (schedTripLimit : Z).

Lemma keeps_raise {A} (Q : A → Prop) c msg : keeps Q (RaiseNlangException m fuel shard (A := A) c msg).
Proof.
  intros x. unfold RaiseNlangException. destruct (BuildNlangException _ _ _ _ _ _ _ _) as [[[i h] l]|e];
    (split; [by left; split|intros ? ? [=]]).
Qed.
Lemma keeps_lift {A} (Q : A → Prop) o : yields Q o → keeps Q (lift m fuel shard o).
Proof.
  intros H. destruct o as [a|[]]; try apply keeps_throw; [apply keeps_ret; by apply H|apply keeps_raise].
Qed.

Lemma lift_Done {A} (o : outcome A) x x' a : lift m fuel shard o x = Done x' a → x' = x ∧ o = Ok a.
Proof.
  destruct o as [b|e]; [by intros [= -> ->]|]. destruct e; try by intros [=].
  cbn [lift]. unfold RaiseNlangException.
  destruct (BuildNlangException _ _ _ _ _ _ _ _) as [[[? ?] ?]|]; by intros [=].
Qed.
Lemma lift_Thrown {A B} (o : outcome A) x x' s : lift m fuel shard o x = Thrown x' s → ended x (@Thrown B x' s).
Proof. intros E. destruct (keeps_lift (λ _, True) o ltac:(done) x) as [H _]. by rewrite E in H. Qed.

(** The handler combinators.  Each replaces the top frame, or a result cell, by what the
    handler made of it. *)
Lemma keeps_on_locals r f : (∀ l, yields (kept r l) (f l)) → keeps (code_kept r) (on_locals m fuel shard f).
Proof.
  intros H x. unfold on_locals, back, gets, mbind, M_bind, mret, M_ret.
  destruct (stack x) as [|fr s] eqn:Hs; [split; [apply ended_same|done]|]. cbn [head plain deref]. unfold mret, M_ret.
  destruct (lift m fuel shard (f (localsBuf fr)) x) as [x' [r' l']|x' e] eqn:E.
  - apply lift_Done in E as [-> E]. apply H in E as [Hr Hl].
    split; [|by intros ? ? [= _ <-]].
    eapply steady_set_back; [done|]. unfold frame_type. cbn in *. by rewrite Hl.
  - split; [by eapply lift_Thrown|intros ? ? [=]].
Qed.
Lemma keeps_on_heap r f : (∀ h l, yields (kept3 r l) (f h l)) → keeps (code_kept r) (on_heap m fuel shard f).
Proof.
  intros H x. unfold on_heap, back, gets, mbind, M_bind, mret, M_ret, aframe in *.
  destruct (stack x) as [|fr s] eqn:Hs; [split; [apply ended_same|done]|]. cbn [head plain deref]. unfold mret, M_ret.
  match goal with |- context [lift m fuel shard ?o x] => destruct (lift m fuel shard o x) as [x' [[r' h'] l']|x' e] eqn:E end.
  - apply lift_Done in E as [-> E]. apply H in E as [Hr Hl].
    split; [|by intros ? ? [= _ <-]].
    apply ended_steady; etrans; [|eapply (steady_set_back fr s); [done|]]; [by split|]. unfold frame_type. cbn in *. by rewrite Hl.
  - split; [by eapply lift_Thrown|intros ? ? [=]].
Qed.
Lemma keeps_on_strs r f : (∀ st l, yields (kept3 r l) (f st l)) → keeps (code_kept r) (on_strs m fuel shard f).
Proof.
  intros H. apply keeps_on_heap. intros h l. unfold with_strs_of. eapply yields_bind_post; [apply H|].
  intros [[r' st'] l'] ?. by apply yields_Ok.
Qed.
Lemma result_cell_Done x x' i c : result_cell x = Done x' (i, c) → x' = x ∧ cells x !! i = Some c.
Proof.
  unfold result_cell, back, gets, mbind, M_bind, mret, M_ret.
  destruct (head (stack x)) as [fr|]; [|intros [=]]. cbn [deref plain]. unfold mret, M_ret.
  destruct (FrameResultCell fr) as [j|]; [|intros [=]]. cbn [plain]. unfold mret, M_ret.
  destruct (cells x !! j) as [d|] eqn:E; [|intros [=]]. cbn [deref plain]. by intros [= <- <- <-].
Qed.
Lemma keeps_result_cell : keeps (λ _, True) result_cell.
Proof.
  apply (keeps_bind (λ _, True)); [apply keeps_back|]. intros fr _.
  apply (keeps_bind (λ _, True)); [by apply keeps_plain|]. intros i _.
  apply (keeps_bind (λ _, True)); [apply keeps_gets|]. intros c _.
  apply (keeps_bind (λ _, True)); [by apply keeps_plain|]. intros. by apply keeps_ret.
Qed.
Lemma steady_set_cell x i c c' : cells x !! i = Some c → length c' = length c →
  steady x (with_cells (<[i := c']> (cells x)) x).
Proof.
  intros Hi Hl. split; [done..|]. cbn. rewrite list_fmap_insert. apply list_insert_id.
  by rewrite list_lookup_fmap, Hi, Hl.
Qed.
Lemma keeps_on_result r f : (∀ c, yields (kept r c) (f c)) → keeps (code_kept r) (on_result m fuel shard f).
Proof.
  intros H x. unfold on_result, mbind, M_bind.
  pose proof (keeps_result_cell x) as [Hst _].
  destruct (result_cell x) as [x' [i c]|x' e] eqn:E; [|split; [exact Hst|intros ? ? [=]]].
  apply result_cell_Done in E as [-> Hi].
  destruct (lift m fuel shard (f c) x) as [x' [r' c']|x' e] eqn:E.
  - apply lift_Done in E as [-> E]. apply H in E as [Hr Hl].
    split; [|by intros ? ? [= _ <-]]. eapply steady_set_cell; [done|]. by rewrite <- Hl.
  - split; [by eapply lift_Thrown|intros ? ? [=]].
Qed.
Lemma keeps_on_heap_result r f :
  (∀ h c, yields (kept3 r c) (f h c)) → keeps (code_kept r) (on_heap_result m fuel shard f).
Proof.
  intros H x. unfold on_heap_result, mbind, M_bind, gets, aframe in *.
  pose proof (keeps_result_cell x) as [Hst _].
  destruct (result_cell x) as [x' [i c]|x' e] eqn:E; [|split; [exact Hst|intros ? ? [=]]].
  apply result_cell_Done in E as [-> Hi].
  match goal with |- context [lift m fuel shard ?o x] => destruct (lift m fuel shard o x) as [x' [[r' h'] c']|x' e] eqn:E end.
  - apply lift_Done in E as [-> E]. apply H in E as [Hr Hl].
    split; [|by intros ? ? [= _ <-]].
    apply ended_steady; etrans; [|eapply (steady_set_cell (with_heap h' x)); [exact Hi|by rewrite <- Hl]]. by split.
  - split; [by eapply lift_Thrown|intros ? ? [=]].
Qed.
Lemma keeps_read_locals r f : (∀ l, yields (code_kept r) (f l)) → keeps (code_kept r) (read_locals m fuel shard f).
Proof.
  intros H. apply (keeps_bind (λ _, True)); [apply keeps_back|]. intros fr _. by apply keeps_lift.
Qed.
Lemma keeps_set_pc p : keeps (λ _, True) (set_pc p).
Proof. apply (keeps_map_back (fset_pc p)). done. Qed.
Lemma keeps_advance_pc r : keeps (λ _, True) (advance_pc r).
Proof. apply keeps_set_pc. Qed.

(** ** Instructions other than calls and returns *)
Tactic Notation "keeps_step" constr(P) "as" simple_intropattern_list(x) := apply (keeps_bind P); [|intros x].
Lemma keeps_quota : keeps (λ _, True) (CheckSchedulerQuota schedTripLimit).
Proof.
  unfold CheckSchedulerQuota. keeps_step (λ _ : Z, True) as ? _; [apply keeps_gets|].
  keeps_step (λ _ : Z, True) as ? _; [apply keeps_gets|]. case_decide; [by apply keeps_ret|].
  case_decide; [by apply keeps_modify|].
  keeps_step (λ _ : unit, True) as [] _; [by apply keeps_modify|].
  keeps_step (λ _ : Z, True) as ? _; [apply keeps_gets|].
  keeps_step (λ _ : istate, True) as [[t s] k] _; [apply keeps_gets|].
  keeps_step (λ _ : VmScheduler, True) as ? _; [by apply keeps_plain|].
  keeps_step (λ _ : unit, True) as [] _; [apply keeps_static|]. case_decide; [by apply keeps_ret|].
  unfold RequestPark, EnsureSuspensionAllowed. keeps_step (λ _ : unit, True) as [] _; [|apply keeps_throw].
  keeps_step (λ _ : Z, True) as ? _; [apply keeps_gets|]. case_decide; [apply keeps_throw|by apply keeps_ret].
Qed.
Lemma keeps_OpJump r : keeps (code_kept r) (OpJump schedTripLimit r).
Proof.
  unfold OpJump. keeps_step (@same_code Z r) as [v r1] H; [apply keeps_plain, ReadUint16_code|].
  keeps_step (λ _ : unit, True) as [] _; [|by apply keeps_ret].
  case_decide; [|by apply keeps_ret]. keeps_step (λ _ : unit, True) as [] _; [apply safepoint_ok|].
  intros x. pose proof (keeps_bind (λ _, True) (λ _, True) _ (λ _, CheckSchedulerQuota schedTripLimit)
    (keeps_set_pc v) (λ _ _, keeps_quota) x) as [Hst _]. split; [|done].
  revert Hst. unfold set_pc, back, gets, mbind, M_bind, plain. by destruct (head (stack x)).
Qed.
Lemma keeps_OpDebugInfo r : keeps (code_kept r) (OpDebugInfo r).
Proof.
  unfold OpDebugInfo. keeps_step (@same_code Z r) as [v r1] H; [apply keeps_plain, ReadUint16_code|]. 
  intros x. pose proof (keeps_map_back (fset_line v) ltac:(done) x) as [Hst _].
  revert Hst. unfold back, gets, mbind, M_bind, mret, M_ret. destruct (head (stack x)) as [fr|]; cbn [deref plain];
    (intros Hst; split; [exact Hst|]); [by intros ? ? [= _ <-]|intros ? ? [=]].
Qed.
Lemma keeps_OpAssertFail r : keeps (code_kept r) (OpAssertFail m fuel shard r).
Proof.
  unfold OpAssertFail. keeps_step (λ _ : Z * reader, True) as [i r1] _; [by apply keeps_plain|].
  keeps_step (λ _ : StringStore, True) as st _; [apply keeps_gets|]. cbv zeta.
  destruct (m_constStrCache st !!z i); [|apply keeps_raise].
  keeps_step (λ _ : bytes * StringStore, True) as [b st2] _; [by apply keeps_plain|].
  keeps_step (λ _ : unit, True) as [] _; [by apply keeps_modify|]. apply keeps_raise.
Qed.
Lemma keeps_OpThrow r : keeps (code_kept r) (OpThrow r).
Proof.
  unfold OpThrow. keeps_step (λ _ : Z * reader, True) as [i r1] _; [by apply keeps_plain|].
  keeps_step (λ _ : CallFrame, True) as fr _; [apply keeps_back|].
  keeps_step (λ _ : Z, True) as ? _; [by apply keeps_plain|]. apply keeps_throw.
Qed.
Lemma keeps_OpRethrow r : keeps (code_kept r) OpRethrow.
Proof.
  unfold OpRethrow. keeps_step (λ _ : CallFrame, True) as fr _; [apply keeps_back|].
  destruct (handlerExcStack fr); apply keeps_throw.
Qed.
Lemma keeps_OpPopHandler : keeps (λ _, True) OpPopHandler.
Proof.
  intros x. unfold OpPopHandler, back, gets, mbind, M_bind. destruct (stack x) as [|fr s] eqn:Hs; [split; [apply ended_same|done]|].
  cbn [head deref plain]. unfold mret, M_ret.
  destruct (handlerExcStack fr); [split; [apply ended_same|done]|]. split; [|done]. by eapply (steady_set_back fr s).
Qed.
Lemma keeps_on_static r f : (∀ b x, yields (end_kept r) (f b r x)) → keeps (code_kept r) (on_static m fuel shard f r).
Proof.
  intros H. unfold on_static. keeps_step (λ _ : istate, True) as [[t s] k] _; [apply keeps_gets|].
  keeps_step (end_kept r) as [e x] He; [by apply keeps_lift|].
  keeps_step (λ _ : unit, True) as [] _; [apply keeps_static|].
  destruct e as [r'|p]; [by apply keeps_ret|].
  intros y. pose proof (keeps_set_pc p y) as [Hst _]. revert Hst.
  unfold set_pc, back, gets, mbind, M_bind. destruct (head (stack y)) as [fr|]; cbn [deref plain]; unfold mret, M_ret;
    (intros Hst; split; [first [exact Hst|left; exact Hst]|intros ? ? [=]]).
Qed.
Lemma keeps_load_static r : keeps (code_kept r) (load_static m fuel shard r).
Proof.
  unfold load_static. keeps_step (λ _ : istate, True) as [[t s] k] _; [apply keeps_gets|].
  apply keeps_on_locals. intros. apply OpLoadStatic_kept.
Qed.
Lemma keeps_store_static r : keeps (code_kept r) (store_static m fuel shard r).
Proof.
  unfold store_static. keeps_step (λ _ : CallFrame, True) as fr _; [apply keeps_back|].
  keeps_step (λ _ : istate, True) as [[t s] k] _; [apply keeps_gets|].
  keeps_step (λ _ : heap, True) as ? _; [apply keeps_gets|].
  keeps_step (λ p : reader * heap * VmStaticSlots, m_data p.1.1 = m_data r) as [[r1 h1] t1] H; [apply keeps_lift, OpStoreStatic_kept|].
  keeps_step (λ _ : unit, True) as [] _; [apply keeps_heap|]. keeps_step (λ _ : unit, True) as [] _; [apply keeps_static|].
  by apply keeps_ret.
Qed.

(** ** The frames of a window *)
(** [below] are the frames of the windows this one runs in, [cl] the sizes of the result
    cells. *)
Section Window.
Context (below : list CallFrame) (cl : list nat).

Record frame_ok (f : CallFrame) : Prop := {
  fo_locals : length (localsBuf f) = localsSize (func f);
  fo_cell : ∃ i, externalResult f = Some i ∧ cl !! i = Some kFrameSlotBytes;
  fo_func : func f ∈ functions m
}.
(** A window root was not pushed by a call, so it writes nothing back. *)
Definition root_plain (w : list CallFrame) : Prop := ∀ f, list.last w = Some f → outMask f = 0.
Record window (w : list CallFrame) (x : exec) : Prop := {
  wn_stack : stack x = w ++ below;
  wn_frames : Forall frame_ok w;
  wn_root : root_plain w;
  wn_depth : (length (stack x) ≤ RECURSE_LIMIT)%nat;
  wn_cells : length <$> cells x = cl
}.
(** Inside an instruction of [fn], and between instructions. *)
Definition inside (fn : CompiledFunction) (x : exec) : Prop := ∃ f w, window (f :: w) x ∧ func f = fn.
Definition anywhere (x : exec) : Prop := ∃ w, window w x.

Lemma inside_anywhere fn x : inside fn x → anywhere x.
Proof. intros (f & w & H & _). by eexists. Qed.
Lemma frame_ok_type f f' : frame_type f' = frame_type f → frame_ok f → frame_ok f'.
Proof. unfold frame_type. intros [= H1 H2 H3 _ _ _] []. split; rewrite ?H2; congruence. Qed.
Lemma root_plain_top f f' w : outMask f' = outMask f → root_plain (f :: w) → root_plain (f' :: w).
Proof.
  intros E H g Hg. destruct w; [|by apply H]. injection Hg as <-. rewrite E. by apply H.
Qed.
Lemma steady_inside fn x x' : steady x x' → inside fn x → inside fn x'.
Proof.
  intros [Ht Hr Hc] (f & w & [Hs Hf Hroot Hd Hcl] & Hfn). rewrite Hs in Ht, Hr. simpl in Ht, Hr.
  destruct (stack x') as [|f' s] eqn:Hs'; [done|]. simpl in Ht, Hr. apply (inj Some) in Ht.
  subst s. inversion Hf; subst. exists f', w.
  assert (func f' = func f ∧ outMask f' = outMask f) as [Hfn Hm] by (unfold frame_type in Ht; by injection Ht).
  split; [|done].
  split.
  - by rewrite Hs'.
  - constructor; [by eapply frame_ok_type|done].
  - by eapply root_plain_top.
  - rewrite Hs in Hd. by rewrite Hs'.
  - by rewrite Hc.
Qed.

(** What a throw leaves: a state of the window, or, if no handler of the program catches
    it, the empty stack or a half-built frame above a window. *)
Definition left_by (s : vm_signal) (x : exec) : Prop :=
  anywhere x ∨ uncaught s ∧ length <$> cells x = cl ∧
    (stack x = [] ∨ ∃ e callee w, s = VmError e ∧ stack x = half_frame callee :: w ++ below ∧ Forall frame_ok w
       ∧ (length (stack x) ≤ RECURSE_LIMIT)%nat).
Lemma steady_left fn x x' s : ended x (@Thrown unit x' s) → inside fn x → left_by s x'.
Proof.
  intros [Hst|(Hu & Hs & Hc)] Hx; [left; by eapply inside_anywhere, steady_inside|].
  right. destruct Hx as (f & w & [_ _ _ _ <-] & _). split_and!; [done|done|by left].
Qed.

(** [ends Q c]: started inside [fn], [c] ends in a state of the window, with [Q] for the
    value. *)
Definition ends {A} (fn : CompiledFunction) (Q : A → exec → Prop) (c : M A) : Prop :=
  ∀ x, inside fn x → match c x with Done x' a => Q a x' | Thrown x' s => left_by s x' end.
Lemma ends_bind {A B} fn (P : A → Prop) (Q : B → exec → Prop) c (f : A → M B) :
  keeps P c → (∀ a, P a → ends fn Q (f a)) → ends fn Q (a ← c; f a).
Proof.
  intros Hc Hf x Hx. destruct (Hc x) as [Hst HP]. unfold mbind, M_bind.
  destruct (c x) as [x' a|x' e]; [apply (Hf a (HP _ _ eq_refl)); by eapply steady_inside|by eapply steady_left].
Qed.
Lemma ends_keeps {A} fn (P : A → Prop) (Q : A → exec → Prop) c :
  keeps P c → (∀ a x, P a → inside fn x → Q a x) → ends fn Q c.
Proof.
  intros Hc HQ x Hx. destruct (Hc x) as [Hst HP].
  destruct (c x) as [x' a|x' e]; [|by eapply steady_left]. apply HQ; [by eapply HP|by eapply steady_inside].
Qed.
Lemma ends_weaken {A} fn (P Q : A → exec → Prop) c : (∀ a x, P a x → Q a x) → ends fn P c → ends fn Q c.
Proof. intros H Hc x Hx. specialize (Hc x Hx). destruct (c x); [by apply H|done]. Qed.
Lemma ends_then {A B} fn (P : A → exec → Prop) (Q : B → exec → Prop) c (f : A → M B) :
  ends fn P c → (∀ a x, P a x → match f a x with Done x' b => Q b x' | Thrown x' s => left_by s x' end) →
  ends fn Q (a ← c; f a).
Proof. intros Hc Hf x Hx. specialize (Hc x Hx). unfold mbind, M_bind. destruct (c x); [by apply Hf|done]. Qed.

(** The frame went on, or another frame is on top. *)
Definition moved (fn : CompiledFunction) (b : bool) (x : exec) : Prop := if b then anywhere x else inside fn x.

Lemma StageFrameParams_length l callee caller base this :
  yields (λ l', length l' = length l) (StageFrameParams l callee caller base this).
Proof.
  unfold StageFrameParams. repeat case_decide; walk.
  all: intros l' Hl'; apply memcpy_length in Hl'; simpl in *; congruence.
Qed.
Lemma push_window callee base mask shift this x s f w :
  callee ∈ functions m → window (f :: w) x → PushFrameCore (stack x) callee base mask shift this = Pushed s →
  ∃ f', window (f' :: f :: w) (with_stack s x) ∧ func f' = callee.
Proof.
  intros Hin [Hs Hf Hroot Hd Hcl]. unfold PushFrameCore. case_decide as Hlim; [done|]. rewrite Hs. cbn [app].
  destruct (StageFrameParams _ _ _ _ _) as [l|] eqn:Hl; [|done]. intros [= <-]. apply StageFrameParams_length in Hl.
  rewrite length_replicate in Hl. exists (MkCall l (externalResult f) callee 0 0 0 mask base shift []). split; [|done]. split.
  - done.
  - constructor; [|done]. inversion Hf as [|? ? [? [i ?] ?]]; subst. split; cbn; [done|by exists i|done].
  - intros g Hg. by apply Hroot.
  - cbn. rewrite Hs in Hlim. cbn in Hlim. lia.
  - done.
Qed.
Lemma push_failed_window callee base mask shift this x s e f w :
  window (f :: w) x → PushFrameCore (stack x) callee base mask shift this = PushFailed s e →
  left_by (VmError e) (with_stack s x).
Proof.
  intros Hw. pose proof Hw as [Hs Hf Hroot Hd Hcl]. unfold PushFrameCore. case_decide as Hlim.
  { intros [= <- <-]. left. exists (f :: w). by destruct Hw. }
  rewrite Hs. cbn [app]. destruct (StageFrameParams _ _ _ _ _) as [l|e']; [done|]. intros [= <- <-].
  right. split_and!; [done|done|]. right. exists e', callee, (f :: w). split_and!; [done..|].
  rewrite Hs in Hlim. cbn in *. lia.
Qed.
Lemma ends_push fn callee base mask shift this : callee ∈ functions m →
  ends fn (moved fn) (push (λ s, PushFrameCore s callee base mask shift this)).
Proof.
  intros Hin x (f & w & Hw & Hfn). unfold push, gets, mbind, M_bind, mret, M_ret, modify.
  destruct (PushFrameCore (stack x) callee base mask shift this) as [s|s e] eqn:E; [|by eapply push_failed_window].
  destruct (push_window _ _ _ _ _ _ _ _ _ Hin Hw E) as (f' & Hw' & Hf').
  destruct (safepoint_ok (with_stack s x)) as [Hst _].
  assert (inside callee (with_stack s x)) as Hins by (by exists f', (f :: w)).
  destruct (CheckGCSafepoint (with_stack s x)) as [x' []|x' e]; [by eapply inside_anywhere, steady_inside|by eapply steady_left].
Qed.

Lemma writeback_length fr l ks : yields (λ l', length l' = length l) (foldM (writeback_slot fr) l ks).
Proof.
  intros l' H. eapply (foldM_ind (λ l', length l' = length l)); [|done|exact H].
  intros s k s' _ Hs. unfold writeback_slot. case_match; [|by intros [= <-]]. case_decide; [done|].
  intros Hm%memcpy_length. congruence.
Qed.
Lemma pop_window x s f w : window (f :: w) x → PopFrameWithWriteback (stack x) = Ok s →
  ∃ w', window w' (with_stack s x).
Proof.
  intros [Hs Hf Hroot Hd Hcl]. rewrite Hs in *. cbn [app PopFrameWithWriteback]. inversion Hf; subst.
  case_decide as Hm.
  - intros [= <-]. exists w. split; [done..| | |done].
    + intros g Hg. apply Hroot. destruct w; [done|exact Hg].
    + cbn in *. lia.
  - destruct w as [|c w]; [exfalso; apply Hm, Hroot; done|]. cbn [app].
    intros (l & Hl%writeback_length & [= <-])%bind_Ok. exists (fset_locals l c :: w).
    split; [done| | |cbn in *; lia|done].
    + match goal with H : Forall frame_ok (c :: w) |- _ => inversion H; subst end. constructor; [|done].
      eapply frame_ok_type; [|done]. unfold frame_type. cbn. by rewrite Hl.
    + eapply (root_plain_top c); [done|]. intros g Hg. by apply Hroot.
Qed.
Lemma ends_pop fn : ends fn (λ _, anywhere) pop_frame.
Proof.
  intros x (f & w & Hw & Hfn). unfold pop_frame, gets, mbind, M_bind, modify.
  destruct (PopFrameWithWriteback (stack x)) as [s|e] eqn:E; cbn [plain]; [|left; by exists (f :: w)].
  by eapply pop_window.
Qed.

(** ** Calls *)
Lemma ends_throw {A} fn (Q : A → exec → Prop) s : ends fn Q (throw s).
Proof. intros x Hx. left. by eapply inside_anywhere. Qed.
Lemma ends_native fn callee base : ends fn (moved fn) (call_native callee base).
Proof.
  apply (ends_keeps _ (λ b, b = false)); [|by intros b x ->].
  unfold call_native. keeps_step (λ _ : CallFrame, True) as fr _; [apply keeps_back|].
  keeps_step (λ _ : unit, True) as [] _; [apply keeps_set_pc|].
  keeps_step (λ _ : unit, True) as [] _; [apply native_ok|]. by apply keeps_ret.
Qed.
Lemma ends_intrinsic fn r id base :
  ends fn (moved fn) (_ ← advance_pc r; _ ← ExecuteIntrinsic id base; mret false).
Proof.
  apply (ends_keeps _ (λ b, b = false)); [|by intros b x ->].
  keeps_step (λ _ : unit, True) as [] _; [apply keeps_advance_pc|].
  keeps_step (λ _ : unit, True) as [] _; [apply intrinsic_ok|]. by apply keeps_ret.
Qed.
Lemma ends_call fn r callee base mask shift this : callee ∈ functions m →
  ends fn (moved fn) (_ ← advance_pc r; push (λ s, PushFrameCore s callee base mask shift this)).
Proof.
  intros H. apply (ends_bind _ (λ _, True)); [apply keeps_advance_pc|]. intros _ _. by apply ends_push.
Qed.
Lemma ends_call_plain fn r callee base : callee ∈ functions m → ends fn (moved fn) (call_plain r callee base).
Proof.
  intros H. unfold call_plain. case_match; [apply ends_native|]. case_decide; [apply ends_intrinsic|].
  by apply ends_call.
Qed.
Lemma ends_call_method fn r callee base : callee ∈ functions m → ends fn (moved fn) (call_method r callee base).
Proof.
  intros H. unfold call_method. case_decide; [apply ends_intrinsic|]. case_match; [apply ends_native|].
  by apply ends_call.
Qed.
Lemma keeps_function_at msg idx : keeps (λ f, f ∈ functions m) (function_at m msg idx).
Proof.
  unfold function_at. apply keeps_plain. destruct (functions m !!z idx) eqn:E; [|apply yields_Raise].
  apply yields_Ok. unfold zlookup in E. case_decide; [|done]. by eapply list_elem_of_lookup_2.
Qed.

(** The value of a call opcode: the reader goes on only in the same frame. *)
Definition after (fn : CompiledFunction) (r : reader) (p : reader * bool) (x : exec) : Prop :=
  if p.2 then anywhere x else inside fn x ∧ code_kept r p.1.
Lemma ends_after fn r0 r c : code_kept r0 r → ends fn (moved fn) c → ends fn (after fn r0) (b ← c; mret (r, b)).
Proof. intros Hr Hc. eapply ends_then; [exact Hc|]. intros [] x Hx; [exact Hx|by split]. Qed.
Ltac step_u16 := eapply ends_bind; [apply keeps_plain, ReadUint16_code|intros [? ?] ?].
Ltac code_eq := unfold code_kept, same_code in *; simpl in *; congruence.

Lemma ends_OpCallFunc fn r : ends fn (after fn r) (OpCallFunc m r).
Proof.
  unfold OpCallFunc. do 2 step_u16. eapply ends_bind; [apply keeps_function_at|]. intros callee Hc.
  apply ends_after; [code_eq|by apply ends_call_plain].
Qed.
Lemma ends_OpCallMethodDirect fn r : ends fn (after fn r) (OpCallMethodDirect m r).
Proof.
  unfold OpCallMethodDirect. do 2 step_u16. eapply ends_bind; [apply keeps_function_at|]. intros callee Hc.
  apply ends_after; [code_eq|by apply ends_call_method].
Qed.
Lemma ends_OpCallFuncOut fn r : ends fn (after fn r) (OpCallFuncOut m r).
Proof.
  unfold OpCallFuncOut. do 2 step_u16. eapply ends_bind; [apply keeps_plain, read_le_code|intros [mask ?] ?].
  eapply ends_bind; [apply keeps_function_at|]. intros callee Hc. apply ends_after; [code_eq|].
  case_match; [apply ends_throw|]. case_decide; [apply ends_throw|]. by apply ends_call.
Qed.
Lemma ends_OpCallMethodDirectOut fn r : ends fn (after fn r) (OpCallMethodDirectOut m r).
Proof.
  unfold OpCallMethodDirectOut. do 2 step_u16. eapply ends_bind; [apply keeps_plain, read_le_code|intros [mask ?] ?].
  eapply ends_bind; [apply keeps_function_at|]. intros callee Hc. apply ends_after; [code_eq|].
  case_decide; [apply ends_throw|]. case_match; [apply ends_throw|]. by apply ends_call.
Qed.
Lemma function_in idx f : deref (functions m !!z idx) = Ok f → f ∈ functions m.
Proof. intros E%deref_Ok. unfold zlookup in E. case_decide; [|done]. by eapply list_elem_of_lookup_2. Qed.
Lemma ends_OpCallMethod fn r : ends fn (after fn r) (OpCallMethod m fuel shard r).
Proof.
  unfold OpCallMethod. do 2 step_u16.
  apply (ends_bind _ (λ _, True)); [by apply keeps_plain|]. intros name _.
  apply (ends_bind _ (λ _, True)); [apply keeps_back|]. intros fr _.
  apply (ends_bind _ (λ _, True)); [by apply keeps_plain|]. intros this _.
  apply (ends_bind _ (λ _, True)); [apply keeps_gets|]. intros h _.
  apply (ends_bind _ (λ _, True)); [by apply keeps_lift|]. intros idx _.
  eapply ends_bind; [apply keeps_plain; intros f Hf; exact (function_in _ _ Hf)|]. intros callee Hc.
  apply ends_after; [code_eq|by apply ends_call_method].
Qed.
Lemma ends_delegate fn handle base mask : ends fn (moved fn) (ExecuteDelegateCall m fuel shard handle base mask).
Proof.
  unfold ExecuteDelegateCall.
  apply (ends_bind _ (λ _, True)); [apply keeps_gets|]. intros h _.
  apply (ends_bind _ (λ _, True)); [by apply keeps_plain|]. intros this _.
  apply (ends_bind _ (λ _, True)); [by apply keeps_lift|]. intros idx _.
  eapply ends_bind; [apply keeps_plain; intros f Hf; exact (function_in _ _ Hf)|]. intros callee Hc.
  case_decide.
  - unfold CallDelegateFree. case_match; [case_decide; [apply ends_throw|apply ends_native]|].
    apply (ends_bind _ (λ _, True)); [by apply keeps_plain|]. intros _ _. by apply ends_push.
  - unfold CallDelegateBound. case_match; [apply ends_throw|]. case_decide; [apply ends_throw|].
    apply (ends_bind _ (λ _, True)); [by apply keeps_plain|]. intros _ _. by apply ends_push.
Qed.
Lemma ends_call_delegate fn out r : ends fn (after fn r) (call_delegate m fuel shard out r).
Proof.
  unfold call_delegate. do 2 step_u16. eapply ends_bind.
  { apply keeps_plain. instantiate (1 := same_code _). destruct out; [apply read_le_code|by apply yields_Ok]. }
  intros [mask r3] Hr. apply (ends_bind _ (λ _, True)); [apply keeps_back|]. intros fr _.
  apply (ends_bind _ (λ _, True)); [apply keeps_gets|]. intros h _.
  apply (ends_bind _ (λ _, True)); [by apply keeps_lift|]. intros handle _.
  apply (ends_bind _ (λ _, True)); [apply keeps_advance_pc|]. intros _ _.
  apply ends_after; [code_eq|apply ends_delegate].
Qed.

(** ** The switch *)
Lemma ends_next fn r c : keeps (code_kept r) c → ends fn (after fn r) (next c).
Proof.
  intros H. apply (ends_keeps _ (λ p, p.2 = false ∧ code_kept r p.1)).
  - unfold next. eapply keeps_bind; [exact H|]. intros r' Hr. by apply keeps_ret.
  - intros [r' b] x [Hb Hr] Hx. simpl in Hb. subst b. by split.
Qed.
Lemma ends_stay fn r c : keeps (λ _, True) c → ends fn (after fn r) (stay r c).
Proof.
  intros H. apply (ends_keeps _ (λ p, p = (r, false))); [|by intros p x -> Hx].
  unfold stay. keeps_step (λ _ : unit, True) as [] _; [exact H|]. by apply keeps_ret.
Qed.
Lemma ends_return fn r : ends fn (after fn r) (_ ← pop_frame; mret (r, true)).
Proof. eapply ends_then; [apply ends_pop|]. by intros [] x. Qed.
Lemma keeps_check_cast r : keeps (code_kept r) (on_check_cast m fuel shard r).
Proof.
  unfold on_check_cast. keeps_step (λ _ : nat * bytes, True) as [i c] _; [apply keeps_result_cell|].
  keeps_step (λ _ : heap, True) as h _; [apply keeps_gets|]. apply keeps_lift, OpCheckCast_kept.
Qed.
Lemma keeps_result_of {A} (g : exec → A) r f :
  (∀ a c, yields (kept r c) (f a c)) → keeps (code_kept r) (a ← gets g; on_result m fuel shard (f a)).
Proof. intros H. keeps_step (λ _ : A, True) as a _; [apply keeps_gets|]. by apply keeps_on_result. Qed.

Create HintDb ops.
Hint Resolve bin_handler_kept OpNeg_kept OpCmp_kept OpLogicalNot_kept OpPrimCast_kept OpConstInt64_kept
  OpConstDouble_kept OpConstInt32_kept OpConstFloat_kept OpConstZero_kept OpConstString_kept OpVarLocal_kept
  OpAssign_kept OpAllocStruct_kept OpLoadField_kept OpStoreField_kept OpNew_kept OpCopyStruct_kept
  OpAllocArrayN_kept OpMakeArrayView_kept OpAssembleArrayN_kept OpLoadElementN_kept OpStoreElementN_kept
  OpArrayLength_kept OpLoadElementFlat_kept OpArrayShape_kept OpCheckArrayRank_kept OpCheckArrayType_kept
  OpLoadElementDyn_kept OpStoreElementDyn_kept OpAllocArrayDyn_kept OpBox_kept OpUnbox_kept OpMakeFunc_kept
  bound_handle_kept OpFuncEquality_kept OpFunc_to_str_kept OpConcat_str_kept OpEq_str_kept OpNe_str_kept str_rel_kept
  OpStrLen_kept OpStrByteAt_kept OpStrForeachStep_kept OpEnum_to_str_kept OpJumpIfNot_kept OpSwitch_kept
  OpCase_kept OpNullCheck_kept OpClassInitGate_kept OpClassInitDone_kept OpClassInitFail_kept
  OpSlotInitGate_kept slot_end_kept : ops.
Hint Resolve keeps_OpJump keeps_OpDebugInfo keeps_OpAssertFail keeps_OpThrow keeps_OpRethrow keeps_OpPopHandler
  keeps_load_static keeps_store_static keeps_check_cast prim_to_str_ok array_to_str_ok : ops.

Lemma keeps_OpCallIntrinsic r : keeps (code_kept r) (OpCallIntrinsic r).
Proof.
  unfold OpCallIntrinsic. keeps_step (@same_code Z r) as [id r1] H1; [apply keeps_plain, ReadUint16_code|].
  keeps_step (@same_code Z r1) as [base r2] H2; [apply keeps_plain, ReadUint16_code|].
  keeps_step (λ _ : unit, True) as [] _; [apply keeps_advance_pc|].
  keeps_step (λ _ : unit, True) as [] _; [apply intrinsic_ok|]. apply keeps_ret. code_eq.
Qed.
Lemma keeps_assign r : keeps (code_kept r) ('(_, c) ← result_cell; on_locals m fuel shard (λ l, OpAssign r l c)).
Proof.
  keeps_step (λ _ : nat * bytes, True) as [i c] _; [apply keeps_result_cell|].
  apply keeps_on_locals. intros. apply OpAssign_kept.
Qed.
Lemma keeps_var_local r : keeps (code_kept r) (fr ← back; on_result m fuel shard (OpVarLocal r (localsBuf fr))).
Proof.
  keeps_step (λ _ : CallFrame, True) as fr _; [apply keeps_back|].
  apply keeps_on_result. intros. apply OpVarLocal_kept.
Qed.
Lemma keeps_enum_to_str r : keeps (code_kept r)
  (on_heap_result m fuel shard (λ h c, with_strs_of h (OpEnum_to_str shard (enumNames m) r (strs h) c))).
Proof.
  apply keeps_on_heap_result. intros h c. unfold with_strs_of. eapply yields_bind_post; [apply OpEnum_to_str_kept|].
  intros [[r' st'] l'] ?. by apply yields_Ok.
Qed.

Lemma ends_skip fn r : ends fn (after fn r) (mret (r, false)).
Proof. intros x Hx. by split. Qed.
Lemma ends_exec_op fn op r : ends fn (after fn r) (exec_op m fuel shard schedTripLimit op r).
Proof.
  destruct op; cbn [exec_op];
  first [ apply ends_return | apply ends_skip
        | apply ends_OpCallFunc | apply ends_OpCallFuncOut | apply ends_OpCallMethodDirect
        | apply ends_OpCallMethodDirectOut | apply ends_OpCallMethod | apply ends_call_delegate
        | apply ends_stay; solve [auto with ops]
        | apply ends_next; first
            [ solve [auto with ops]
            | apply keeps_on_locals; intros; first [solve [auto with ops] | apply bin_handler_kept]
            | apply keeps_on_heap; intros; solve [auto with ops]
            | apply keeps_on_strs; intros; first [solve [auto with ops] | apply str_rel_kept]
            | apply keeps_on_result; intros; solve [auto with ops]
            | apply keeps_on_heap_result; intros; first [solve [auto with ops] | apply bound_handle_kept]
            | apply keeps_read_locals; intros; solve [auto with ops]
            | apply keeps_on_static; intros; first [solve [auto with ops] | apply slot_end_kept]
            | apply keeps_plain; solve [auto with ops]
            | apply keeps_OpCallIntrinsic | apply keeps_assign | apply keeps_var_local | apply keeps_enum_to_str
            | apply keeps_result_of; intros; solve [auto with ops] ]
        | match goal with |- ?g => idtac g end ].
Qed.

(** ** The loop *)
(** Where [dispatch_step] starts: between frames, or at an instruction of the code of the
    top frame. *)
Definition at_point (cur : option reader) (x : exec) : Prop :=
  match cur with
  | None => anywhere x
  | Some r => ∃ fn, inside fn x ∧ m_data r = bytecode fn
  end.
Lemma at_anywhere cur x : at_point cur x → anywhere x.
Proof. destruct cur; [|done]. intros (fn & H & _). by eapply inside_anywhere. Qed.

Lemma ends_map_back {A} fn (Q : A → exec → Prop) (g : CallFrame → CallFrame) (c : M A) :
  (∀ fr, frame_type (g fr) = frame_type fr) → ends fn Q c → ends fn Q (fr ← back; _ ← set_back (g fr); c).
Proof.
  intros Hg Hc x Hx. pose proof Hx as (f & w & Hw & _).
  unfold back, gets, mbind, M_bind. rewrite (wn_stack _ _ Hw). cbn [app head deref plain]. unfold mret, M_ret.
  apply Hc. eapply steady_inside; [|exact Hx]. eapply steady_set_back; [apply (wn_stack _ _ Hw)|apply Hg].
Qed.
Lemma ends_exec_instr fn r : ends fn (after fn r) (exec_instr m fuel shard schedTripLimit r).
Proof.
  unfold exec_instr. apply (ends_map_back fn _ (fset_opPc _)); [done|].
  eapply ends_bind; [apply keeps_plain, ReadOp_code|]. intros [[op|] r'] Hr; [|apply ends_throw].
  eapply ends_weaken; [|apply ends_exec_op]. intros [r2 []] y; unfold after; cbn; [done|].
  unfold code_kept, same_code in *. cbn in *. intros [? ->]. by split.
Qed.

Lemma dispatch_step_typed cur x : at_point cur x →
  match dispatch_step m fuel shard schedTripLimit (length below) cur x with
  | Done x' None => window [] x'
  | Done x' (Some cur') => at_point cur' x'
  | Thrown x' s => left_by s x'
  end.
Proof.
  destruct cur as [r|]; cbn [at_point dispatch_step].
  - intros (fn & Hx & Hr). destruct (Eof r).
    + pose proof (ends_pop fn x Hx) as Hp. unfold mbind, M_bind. by destruct (pop_frame x).
    + pose proof (ends_exec_instr fn r x Hx) as Hp. unfold mbind, M_bind.
      destruct (exec_instr m fuel shard schedTripLimit r x) as [x' [r' []]|x' s]; [exact Hp| |exact Hp].
      destruct Hp as [Hp Hc]. exists fn. split; [done|]. unfold code_kept in Hc. cbn in Hc. congruence.
  - intros (w & Hw). unfold gets, mbind at 1, M_bind at 1. rewrite (wn_stack _ _ Hw), length_app.
    destruct w as [|f w].
    + cbn. rewrite decide_True by lia. exact Hw.
    + rewrite decide_False by (cbn; lia). unfold fetch, back, gets, mbind, M_bind, mret, M_ret.
      rewrite (wn_stack _ _ Hw). cbn [app head deref plain]. unfold mret, M_ret.
      pose proof (wn_frames _ _ Hw) as Hf. inversion Hf as [|? ? [_ (i & Hi & _) _] _]; subst.
      unfold FrameResultCell. rewrite Hi. cbn [deref plain]. unfold mret, M_ret.
      exists (func f). split; [by exists f, w|done].
Qed.
End Window.
End Machine.

(** ** An example *)
(** The service calls do nothing. *)
#[export] Instance quiet : Services := {|
  CheckGCSafepoint := mret tt;
  ExecuteIntrinsic _ _ := mret tt;
  CallNative _ _ := mret tt;
  OpPrimToStr r := mret r;
  OpArray_to_str := mret tt;
  Now _ := 0
|}.
#[export] Instance quiet_ok : ServicesOk quiet.
Proof. split; intros; by apply keeps_ret. Qed.

(** [main] calls [f] inside a try block; [f] dereferences null. *)
Definition demo_main : CompiledFunction :=
  MkFunc [109] (asm [Instr OP_CallFunc [1; 0]; Instr OP_ConstInt32 [7]; Instr OP_Return [];
                     Instr OP_PopHandler []; Instr OP_ConstInt32 [42]; Instr OP_Return []])
    16 0 65535 false true [MkTry 0 5 11 1 8] [].
Definition demo_f : CompiledFunction :=
  MkFunc [102] (asm [Instr OP_DebugInfo [3]; Instr OP_NullCheck [0]; Instr OP_Return []])
    8 1 65535 false true [] [].
Definition demo_class (n : string) (s : Z) : ClassRow := MkClassRow (bytes_of n) s [].
Definition demo_field (n : string) : Entry := MkEntry n RTK_Class 65535 65535.
Definition demo_exc_fields : list Entry := [demo_field "message"; demo_field "backtrace"; demo_field "cause"].
Definition demo_module : CompiledModule :=
  MkModule (bytes_of "demo") [demo_main; demo_f]
    [demo_class "Object" (-1); demo_class "Exception" 0; demo_class "NullPointerException" 1; demo_class "List" 0]
    (MkTables [] [[]; demo_exc_fields; demo_exc_fields; [demo_field "__handle"]] [] []) [] [].
Definition demo_exec : exec :=
  MkExec [] [replicate 8 0] demo_heap
    (mkSlots [] [] [] [] 0 0, sched_with [] [] None ∅, mkCarrier false None 0 0 0) [] [] 0 100 0.
Definition demo_start : list CallFrame :=
  match PushRootFrame [] demo_main 0 with Ok s => s | Raise _ => [] end.
