(* ===== verification/ExecSpec.v ===== *)
(** * The executor: windows, limits and handlers

    Theorems about [Exec]: a window of the frame loop keeps its frames well typed and
    bounded and gives the stack back exactly as it found it; an exception goes to the
    first matching handler of the innermost frame that has one; what a raised exception
    object carries; boxes and static slots give back what was put in. *)
From S2P Require Import Prelude.
From S2P Require Import Bytecode Package Prims TypeDesc Shards Strings StringOps Layout Heap HeapGC HeapSweep Arrays ArraySlice Frames.
From S2P Require Import FramesSpec SchedState Sched SchedSpec SyncPrims StaticInit Objects Exec ExecTypes.
Open Scope Z_scope.

(** ** Errors of the handler search *)
(** Not errors of the program: an access the code leaves unchecked, or the fuel. *)
Definition unchecked (e : vm_error) : Prop := e = OutOfBounds ∨ e = OutOfFuel.
Lemma deref_unchecked {A} (o : option A) e : deref o = Raise e → unchecked e.
Proof. destruct o; [done|]. intros [= <-]. by left. Qed.
Lemma st32_unchecked mem off v e : st32 mem off v = Raise e → unchecked e.
Proof. unfold st32, store. case_decide; [done|]. intros [= <-]. by left. Qed.
Lemma instance_walk_unchecked fuel m : ∀ cur t e, instance_walk fuel m cur t = Raise e → unchecked e.
Proof.
  induction fuel as [|fuel IH]; intros cur t e; cbn [instance_walk]; [intros [= <-]; by right|].
  repeat case_decide; try done. case_match; [apply IH|done].
Qed.
Lemma match_block_unchecked m h pc exc l e : match_block m h pc exc l = Raise e → unchecked e.
Proof.
  induction l as [|tb l IH]; cbn [match_block]; [done|]. case_decide; [done|].
  intros [E|([] & _ & E)]%bind_Raise; [|done|by apply IH].
  case_decide; [done|]. unfold IsInstanceOrSubclass in E. case_decide; [done|]. case_match; [|done].
  apply bind_Raise in E as [E|(c & _ & E)]; [by eapply deref_unchecked|by eapply instance_walk_unchecked].
Qed.
Lemma TryEnterCatchHandler_unchecked m h f exc e : TryEnterCatchHandler m h f exc = Raise e → unchecked e.
Proof.
  unfold TryEnterCatchHandler. intros [E|(o & _ & E)]%bind_Raise; [by eapply match_block_unchecked|].
  destruct o; [|done]. apply bind_Raise in E as [E|(l & _ & E)]; [by eapply st32_unchecked|done].
Qed.
Lemma search_unchecked m base h exc s : ∀ u e, search m base h exc s u = Raise e → unchecked e.
Proof.
  induction s as [|f s IH]; intros u e; cbn [search]; [done|]. case_decide; [done|].
  intros [E|(o & _ & E)]%bind_Raise; [by eapply TryEnterCatchHandler_unchecked|].
  destruct o; [done|by eapply IH].
Qed.

(** ** Windows *)
Section Windows.
Context `{HS : Services} {HSok : ServicesOk HS} (m : CompiledModule) (fuel shard : nat) (schedTripLimit : Z).
Context (below : list CallFrame) (cl : list nat).
#[local] Abbreviation window := (window m below cl).
#[local] Abbreviation anywhere := (anywhere m below cl).
#[local] Abbreviation left_by := (left_by m below cl).

Lemma DispatchFrames_typed n : ∀ cur x, at_point m below cl cur x →
  match DispatchFrames m fuel shard schedTripLimit n (length below) cur x with
  | Done x' (Some _) => window [] x'
  | Done x' None => anywhere x'
  | Thrown x' s => left_by s x'
  end.
Proof.
  induction n as [|n IH]; intros cur x Hx; cbn [DispatchFrames]; [by eapply at_anywhere|].
  pose proof (dispatch_step_typed m fuel shard schedTripLimit below cl cur x Hx) as Hd.
  unfold mbind, M_bind. destruct (dispatch_step _ _ _ _ _ _ _) as [x' [cur'|]|x' s]; [by apply IH|exact Hd|exact Hd].
Qed.

Lemma window_unwind u w x : window w x → window w (with_unwind u x).
Proof. by intros []. Qed.
(** Dropping the top frame, or changing it within its type. *)
Lemma window_drop f w x s : window (f :: w) x → s = w ++ below → window w (with_stack s x).
Proof.
  intros [Hs Hf Hr Hd Hc] ->. inversion Hf; subst. split; [done..| | |done].
  - intros g Hg. apply Hr. destruct w; [done|exact Hg].
  - rewrite Hs in Hd. cbn in *. lia.
Qed.
Lemma window_retop f f' w x : window (f :: w) x → frame_type f' = frame_type f →
  window (f' :: w) (with_stack (f' :: w ++ below) x).
Proof.
  intros [Hs Hf Hr Hd Hc] Ht. inversion Hf; subst. split; [done|..|done].
  - constructor; [by eapply frame_ok_type|done].
  - eapply root_plain_top; [|exact Hr]. unfold frame_type in Ht. by injection Ht.
  - rewrite Hs in Hd. exact Hd.
Qed.
Lemma TryEnterCatchHandler_type h f exc f' :
  TryEnterCatchHandler m h f exc = Ok (Some f') → frame_type f' = frame_type f.
Proof.
  unfold TryEnterCatchHandler. intros (tb & _ & H)%bind_Ok. destruct tb as [tb|]; [|done].
  apply bind_Ok in H as (l & Hl%store_length & [= <-]). unfold frame_type. cbn. by rewrite Hl.
Qed.
Lemma search_window h exc w : ∀ x u b s u',
  window w x → search m (length below) h exc (w ++ below) u = Ok (b, s, u') →
  if (b : bool) then ∃ w', window w' (with_stack s x) else s = below.
Proof.
  induction w as [|f w IH]; intros x u b s u' Hw.
  - cbn [app]. intros H. destruct below as [|g l]; cbn [search] in H; [by injection H as <- <- <-|].
    rewrite decide_True in H by lia. by injection H as <- <- <-.
  - cbn [app search]. rewrite decide_False by (cbn; rewrite length_app; lia).
    intros (e & He & H)%bind_Ok. destruct e as [f'|].
    + injection H as <- <- <-. exists (f' :: w). eapply window_retop; [done|]. by eapply TryEnterCatchHandler_type.
    + specialize (IH (with_stack (w ++ below) x) _ _ _ _ ltac:(by eapply window_drop) H).
      destruct b; [|done]. destruct IH as [w' Hw']. exists w'. by destruct Hw'.
Qed.
Lemma handle_throw_window exc x : anywhere x →
  match handle_throw m (length below) exc x with
  | Done x' true => anywhere x'
  | Done x' false => stack x' = below ∧ length <$> cells x' = cl
  | Thrown x' s => anywhere x' ∧ ∃ e, s = VmError e ∧ unchecked e
  end.
Proof.
  intros [w Hw]. unfold handle_throw, mbind, M_bind, modify, mret, M_ret. rewrite (wn_stack _ _ _ _ _ Hw).
  destruct (search m (length below) (x_heap x) exc (w ++ below) (unwind x)) as [[[b s] u]|e] eqn:E; cbn [plain].
  - unfold mret, M_ret. pose proof (search_window _ _ _ _ _ _ _ _ Hw E) as H. destruct b; [|split; [exact H|apply (wn_cells _ _ _ _ _ Hw)]].
    destruct H as [w' Hw']. exists w'. by apply window_unwind.
  - split; [by exists w|]. exists e. split; [done|]. by eapply search_unchecked.
Qed.
Lemma drop_frames_window w : ∀ u, (drop_frames (length below) (w ++ below) u).1 = below.
Proof.
  induction w as [|f w IH]; intros u; cbn [app].
  - destruct below as [|g l] eqn:E; cbn [drop_frames]; [done|]. by rewrite decide_True.
  - cbn [drop_frames]. rewrite decide_False by (cbn; rewrite length_app; lia). apply IH.
Qed.
Lemma unwind_all_below e x : left_by (VmError e) x → stack (unwind_all (length below) x) = below ∨ stack (unwind_all (length below) x) = [].
Proof.
  assert (∀ w, stack x = w ++ below → stack (unwind_all (length below) x) = below) as Hdrop.
  { intros w Hw. unfold unwind_all. rewrite Hw. pose proof (drop_frames_window w (unwind x)). by destruct (drop_frames _ _ _). }
  intros [[w Hw]|(_ & _ & [Hs|(e' & callee & w & _ & Hs & _)])].
  - left. apply (Hdrop w), (wn_stack _ _ _ _ _ Hw).
  - right. unfold unwind_all. by rewrite Hs.
  - left. by apply (Hdrop (half_frame callee :: w)).
Qed.
Lemma ConsumeResumeThrow_state x :
  final (ConsumeResumeThrow x) = x ∨ final (ConsumeResumeThrow x) = with_resume 0 x.
Proof.
  unfold ConsumeResumeThrow, gets, mbind, M_bind, modify, ThrowJoinTargetFailure. case_decide; [by left|].
  right. unfold gets, mbind, M_bind. by case_match.
Qed.
Lemma ConsumeResumeThrow_window x : anywhere x → anywhere (final (ConsumeResumeThrow x)).
Proof.
  intros [w Hw]. exists w. destruct (ConsumeResumeThrow_state x) as [-> | ->]; [done|]. by destruct Hw.
Qed.
Lemma resumed_dispatch n x : anywhere x →
  match (_ ← ConsumeResumeThrow; DispatchFrames m fuel shard schedTripLimit n (length below) None) x with
  | Done x' (Some _) => window [] x'
  | Done x' None => anywhere x'
  | Thrown x' s => left_by s x'
  end.
Proof.
  intros Hx%ConsumeResumeThrow_window. unfold mbind, M_bind.
  destruct (ConsumeResumeThrow x) as [x' []|x' s]; [|left; exact Hx]. by apply DispatchFrames_typed.
Qed.
(** What the end of a window says about the stack. *)
Definition window_end (res : result (option unit)) : Prop :=
  match res with
  | Done x' (Some _) => window [] x'
  | Thrown x' (NLangThrow _) => stack x' = below ∧ length <$> cells x' = cl
  | Thrown x' (VmError e) => stack x' = below ∨ stack x' = [] ∨ anywhere x' ∧ unchecked e
  | Done x' None => anywhere x'
  | Thrown x' (ParkSignal _) | Thrown x' ShutdownSignal => anywhere x' ∨ stack x' = []
  end.
Lemma RunFrames_end n : ∀ x, anywhere x →
  window_end (RunFrames m fuel shard schedTripLimit n (length below) x).
Proof.
  induction n as [|n IH]; intros x Hx; cbn [RunFrames]; [exact Hx|].
  pose proof (resumed_dispatch (S n) x Hx) as Hd. set (c := mbind _ _) in *.
  destruct (c x) as [x' r|x' s]; [destruct r; exact Hd|].
  assert (∀ s, left_by s x' → (∀ e, s ≠ VmError e) → anywhere x' ∨ stack x' = []) as Hpark
    by (intros s0 [?|(_ & _ & [?|(e & ? & ? & -> & _)])] Hne; [by left|by right|by destruct (Hne e)]).
  destruct s as [exc|why| |e]; [|by eapply Hpark|by eapply Hpark|destruct (unwind_all_below e x' Hd); cbn; auto].
  destruct Hd as [Hd|[[] _]]. pose proof (handle_throw_window exc x' Hd) as Ht.
  destruct (handle_throw m (length below) exc x') as [x2 []|x2 s]; [by apply IH|exact Ht|].
  destruct Ht as [Ha (e & -> & He)]. right; right. by split.
Qed.
End Windows.

(** ** The end of a window *)
Lemma PushRootFrame_window m cl f cell x s :
  f ∈ functions m → cl !! cell = Some kFrameSlotBytes → length <$> cells x = cl →
  PushRootFrame (stack x) f cell = Ok s → ∃ fr, window m (stack x) cl [fr] (with_stack s x).
Proof.
  intros Hf Hc Hcl. unfold PushRootFrame. case_decide as Hlim; [done|]. intros [= <-].
  eexists. split; [done| | |cbn; lia|done].
  - constructor; [|done]. split; cbn; [by rewrite length_replicate|by exists cell|done].
  - by intros g [= <-].
Qed.

(** C9: A window of the frame loop gives the stack back: when its root function returns, and
    when an exception of the program leaves it, exactly the frames it was started on
    remain, unchanged, and no result cell changed size; so a service that runs a window
    keeps the promise of [ServicesOk] in turn.  A runtime error leaves those frames too,
    unless a service had cleared the stack; while the window is suspended they are still
    below its own, unless a service moved the whole stack away. *)
Theorem window_returns_stack `{HS : Services} {HSok : ServicesOk HS} m fuel shard limit n f cell x s :
  f ∈ functions m → length <$> cells x !! cell = Some kFrameSlotBytes →
  PushRootFrame (stack x) f cell = Ok s →
  match RunFrames m fuel shard limit n (length (stack x)) (with_stack s x) with
  | Done x' (Some _) | Thrown x' (NLangThrow _) =>
      stack x' = stack x ∧ length <$> cells x' = length <$> cells x
  | Thrown x' (VmError e) => stack x' = stack x ∨ stack x' = [] ∨ unchecked e
  | Done x' None => ∃ w, stack x' = w ++ stack x
  | Thrown x' (ParkSignal _) | Thrown x' ShutdownSignal => (∃ w, stack x' = w ++ stack x) ∨ stack x' = []
  end.
Proof.
  intros Hf Hc Hpush. set (cl := length <$> cells x).
  destruct (PushRootFrame_window m cl f cell x s) as [fr Hw]; [done|unfold cl; by rewrite list_lookup_fmap|done..|].
  pose proof (RunFrames_end m fuel shard limit (stack x) cl n (with_stack s x) (ex_intro _ _ Hw)) as H.
  assert (∀ x', anywhere m (stack x) cl x' → ∃ w, stack x' = w ++ stack x) as Ha.
  { intros x' [w H']. exists w. apply (wn_stack _ _ _ _ _ H'). }
  unfold window_end in H. destruct (RunFrames _ _ _ _ _ _ _) as [x' [[]|]|x' []].
  - split; [apply (wn_stack _ _ _ _ _ H)|apply (wn_cells _ _ _ _ _ H)].
  - by apply Ha.
  - exact H.
  - destruct H as [H|H]; auto.
  - destruct H as [H|H]; auto.
  - destruct H as [H|[H|[_ H]]]; auto.
Qed.

(** C11: However far a window has run, each of its frames has the locals of its function, a
    result cell of eight bytes and a function of the module, and no cell changed size, when
    the code the executor calls out to keeps the frames it is called from ([ServicesOk]).
    At a throw that the program cannot catch the stack may also be empty (a service moved
    or cleared it), or, at a runtime error, have one half-built frame on top. *)
Theorem frames_stay_typed `{HS : Services} {HSok : ServicesOk HS} m fuel shard limit n f cell x s :
  f ∈ functions m → length <$> cells x !! cell = Some kFrameSlotBytes →
  PushRootFrame (stack x) f cell = Ok s →
  match DispatchFrames m fuel shard limit n (length (stack x)) None (with_stack s x) with
  | Done x' _ | Thrown x' (NLangThrow _) =>
      length <$> cells x' = length <$> cells x ∧
      ∃ w, stack x' = w ++ stack x ∧ Forall (frame_ok m (length <$> cells x)) w
  | Thrown x' s =>
      length <$> cells x' = length <$> cells x ∧
      (stack x' = [] ∨ ∃ w, Forall (frame_ok m (length <$> cells x)) w
         ∧ (stack x' = w ++ stack x ∨ ∃ e callee, s = VmError e ∧ stack x' = half_frame callee :: w ++ stack x))
  end.
Proof.
  intros Hf Hc Hpush. set (cl := length <$> cells x).
  destruct (PushRootFrame_window m cl f cell x s) as [fr Hw]; [done|unfold cl; by rewrite list_lookup_fmap|done..|].
  pose proof (DispatchFrames_typed m fuel shard limit (stack x) cl n None (with_stack s x) (ex_intro _ _ Hw)) as H.
  assert (∀ w x', window m (stack x) cl w x' →
    length <$> cells x' = cl ∧ ∃ w, stack x' = w ++ stack x ∧ Forall (frame_ok m cl) w) as Hwin.
  { intros w x' [H1 H2 _ _ H3]. split; [done|]. by exists w. }
  assert (∀ s' x', left_by m (stack x) cl s' x' → length <$> cells x' = cl ∧
      (stack x' = [] ∨ ∃ w, Forall (frame_ok m cl) w
         ∧ (stack x' = w ++ stack x ∨ ∃ e callee, s' = VmError e ∧ stack x' = half_frame callee :: w ++ stack x))) as Hleft.
  { intros s' x' [[w H']|(_ & E & H')]; [destruct (Hwin _ _ H') as (? & w' & ? & ?); split; [done|]; right; exists w'; auto|].
    split; [done|]. destruct H' as [?|(e & callee & w & -> & ? & ? & _)]; [by left|]. right. exists w. split; [done|]. right. by exists e, callee. }
  destruct (DispatchFrames _ _ _ _ _ _ _ _) as [x' [[]|]|x' s'].
  - by eapply Hwin.
  - destruct H as [w H]. by eapply Hwin.
  - pose proof (Hleft s' x' H) as HL. destruct s'; [|exact HL..]. destruct H as [[w H]|[[] _]]. by eapply Hwin.
Qed.

(** C14: The evaluation stack never holds more than [RECURSE_LIMIT] frames: not after any
    number of turns of the frame loop of a window, at a throw included, nor when the window
    ends, provided the code the executor calls out to keeps the frames it is called from
    ([ServicesOk]). *)
Theorem stack_bounded `{HS : Services} {HSok : ServicesOk HS} m fuel shard limit n f cell x s :
  f ∈ functions m → length <$> cells x !! cell = Some kFrameSlotBytes →
  PushRootFrame (stack x) f cell = Ok s →
  (length (stack (final (DispatchFrames m fuel shard limit n (length (stack x)) None (with_stack s x)))) ≤ 1000)%nat
  ∧ (length (stack (final (RunFrames m fuel shard limit n (length (stack x)) (with_stack s x)))) ≤ 1000)%nat.
Proof.
  intros Hf Hc Hpush. split.
  - set (cl := length <$> cells x).
    destruct (PushRootFrame_window m cl f cell x s) as [fr Hw]; [done|unfold cl; by rewrite list_lookup_fmap|done..|].
    pose proof (DispatchFrames_typed m fuel shard limit (stack x) cl n None (with_stack s x) (ex_intro _ _ Hw)) as H.
    destruct (DispatchFrames _ _ _ _ _ _ _ _) as [x' [[]|]|x' s']; cbn [final].
    + apply (wn_depth _ _ _ _ _ H).
    + destruct H as [w H]. apply (wn_depth _ _ _ _ _ H).
    + destruct H as [[w H]|(_ & _ & [->|(e & callee & w & _ & _ & _ & H)])]; [apply (wn_depth _ _ _ _ _ H)|cbn; lia|exact H].
  - set (cl := length <$> cells x).
    destruct (PushRootFrame_window m cl f cell x s) as [fr Hw]; [done|unfold cl; by rewrite list_lookup_fmap|done..|].
    pose proof (RunFrames_end m fuel shard limit (stack x) cl n (with_stack s x) (ex_intro _ _ Hw)) as H.
    assert (length (stack x) ≤ 1000)%nat as Hb.
    { pose proof (wn_depth _ _ _ _ _ Hw) as Hd. pose proof (wn_stack _ _ _ _ _ Hw) as Hs.
      rewrite Hs in Hd. cbn in Hd. unfold RECURSE_LIMIT in Hd. lia. }
    assert (∀ x', anywhere m (stack x) cl x' → (length (stack x') ≤ 1000)%nat) as Ha.
    { intros x' [w []]. done. }
    unfold window_end in H. destruct (RunFrames _ _ _ _ _ _ _) as [x' [[]|]|x' []]; cbn [final];
      try (by apply Ha); try (by destruct H as [-> _]); try (by destruct H as [H|H]; [by apply Ha|rewrite H; cbn; lia]).
    destruct H as [H|[H|[H _]]]; [by rewrite H|rewrite H; cbn; lia|by apply Ha].
Qed.

(** ** Where an exception goes *)
(** The blocks of a frame that catch an exception whose class and superclasses are [l]. *)
Definition accepts (l : list Z) (pc : Z) (tb : TryBlock) : bool :=
  bool_decide (startPc tb ≤ pc < endPc tb)
  && (bool_decide (exceptionClassIdx tb = 65535) || bool_decide (i16 (exceptionClassIdx tb) ∈ l)).
Definition handler_of (l : list Z) (f : CallFrame) : option TryBlock :=
  head (filter (λ tb, Is_true (accepts l (opPc f) tb)) (tryBlocks (func f))).
(** The catch variable of each block lies in the frame. *)
Definition catch_slots_fit (f : CallFrame) : Prop :=
  Forall (λ tb, Z.to_nat (catchLocalOff tb) + 4 ≤ length (localsBuf f))%nat (tryBlocks (func f)).
Definition enter (tb : TryBlock) (exc : Z) (locals : bytes) (f : CallFrame) : CallFrame :=
  fset_pc (handlerPc tb) (fset_handlers (exc :: handlerExcStack f) (fset_locals locals f)).

Section Handlers.
Context (m : CompiledModule) (h : heap) (exc : Z) (l : list Z).
(** The instance test of the search is membership in [l]. *)
Context (Hinst : ∀ t, IsInstanceOrSubclass m h exc t = Ok (bool_decide (i16 t ∈ l))).

Lemma match_block_spec pc tbs :
  match_block m h pc exc tbs = Ok (head (filter (λ tb, Is_true (accepts l pc tb)) tbs)).
Proof.
  induction tbs as [|tb tbs IH]; [done|]. cbn [match_block]. rewrite filter_cons.
  assert (accepts l pc tb = bool_decide (startPc tb ≤ pc < endPc tb)
    && (bool_decide (exceptionClassIdx tb = 65535) || bool_decide (i16 (exceptionClassIdx tb) ∈ l))) as Ha by done.
  destruct (decide (pc < startPc tb ∨ endPc tb ≤ pc)) as [Hin|Hin].
  - rewrite bool_decide_eq_false_2 in Ha by lia. rewrite decide_False; [exact IH|]. rewrite Ha. by intros [].
  - rewrite bool_decide_eq_true_2 in Ha by lia. cbn [andb] in Ha. destruct (decide (exceptionClassIdx tb = 65535)) as [Hall|Hall].
    + rewrite bool_decide_eq_true_2 in Ha by done. rewrite decide_True; [done|]. by rewrite Ha.
    + rewrite bool_decide_eq_false_2 in Ha by done. rewrite Hinst, bindE. cbn [orb] in Ha. rewrite <- Ha.
      destruct (accepts l pc tb); [by rewrite decide_True|].
      rewrite decide_False; [exact IH|by intros []].
Qed.
Lemma TryEnterCatchHandler_spec f : catch_slots_fit f →
  match handler_of l f with
  | None => TryEnterCatchHandler m h f exc = Ok None
  | Some tb => ∃ locals, st32 (localsBuf f) (catchLocalOff tb) exc = Ok locals
      ∧ TryEnterCatchHandler m h f exc = Ok (Some (enter tb exc locals f))
  end.
Proof.
  intros Hfit. unfold TryEnterCatchHandler. rewrite match_block_spec, bindE. fold (handler_of l f).
  destruct (handler_of l f) as [tb|] eqn:E; [|done].
  assert (tb ∈ tryBlocks (func f)) as Hin.
  { unfold handler_of in E. apply head_Some_elem_of in E. by apply list_elem_of_filter in E as [_ ?]. }
  unfold catch_slots_fit in Hfit. rewrite list.Forall_forall in Hfit. specialize (Hfit tb Hin).
  unfold st32, store. rewrite decide_True by lia. eexists. split; [done|]. by rewrite bindE.
Qed.
Lemma search_spec base s : Forall catch_slots_fit s → ∀ u,
  (∃ pre f post tb locals, s = pre ++ f :: post ∧ (base ≤ length post)%nat
     ∧ Forall (λ g, handler_of l g = None) pre ∧ handler_of l f = Some tb
     ∧ st32 (localsBuf f) (catchLocalOff tb) exc = Ok locals
     ∧ search m base h exc s u = Ok (true, enter tb exc locals f :: post, []))
  ∨ (∃ pre post, s = pre ++ post ∧ length post = Nat.min base (length s)
     ∧ Forall (λ g, handler_of l g = None) pre
     ∧ search m base h exc s u = Ok (false, post, u ++ (unwind_record <$> pre))).
Proof.
  induction 1 as [|f s Hf Hs IH]; intros u; cbn [search].
  - right. exists [], []. split_and!; [done|simpl; lia|apply Forall_nil_2|simpl; by rewrite app_nil_r].
  - case_decide as Hbase.
    { right. exists [], (f :: s). split_and!; [done|cbn [length] in *; lia|apply Forall_nil_2|simpl; by rewrite app_nil_r]. }
    pose proof (TryEnterCatchHandler_spec f Hf) as Hc. destruct (handler_of l f) as [tb|] eqn:Eh.
    + destruct Hc as (locals & Hst & ->). left. exists [], f, s, tb, locals.
      split_and!; [done|cbn in Hbase; lia|apply Forall_nil_2|done..].
    + rewrite Hc, bindE. destruct (IH (u ++ [unwind_record f])) as
        [(pre & g & post & tb & locals & -> & ? & ? & ? & ? & E)|(pre & post & -> & Hlen & ? & E)].
      * left. exists (f :: pre), g, post, tb, locals. split_and!; [done..|by apply Forall_cons_2|done|done|exact E].
      * right. exists (f :: pre), post. split_and!; [done|cbn [length app] in *; lia|by apply Forall_cons_2|].
        rewrite E. cbn. by rewrite <- app_assoc.
Qed.
End Handlers.

(** C7: An exception object goes to the innermost frame of the window that has a try block
    around its current instruction for the class of the object or one of its
    superclasses, and there to the first such block in declaration order: the frames above
    are gone, the catch variable and the handler stack hold the object, execution goes on
    at the handler and the unwind records are cleared.  If no frame has one, every frame of
    the window is gone and recorded, innermost first. *)
Theorem handler_search m h exc c cells base s u :
  CheckSuperChains m = Ok tt → Z.of_nat (length (classes m)) ≤ 32768 →
  0 ≤ c < Z.of_nat (length (classes m)) → 0 < exc → rec_at h exc = Some (c :: cells) →
  Forall catch_slots_fit s →
  ∃ l, supers m c l ∧
  ((∃ pre f post tb locals, s = pre ++ f :: post ∧ (base ≤ length post)%nat
     ∧ Forall (λ g, handler_of l g = None) pre ∧ handler_of l f = Some tb
     ∧ st32 (localsBuf f) (catchLocalOff tb) exc = Ok locals
     ∧ search m base h exc s u = Ok (true, enter tb exc locals f :: post, []))
  ∨ (∃ pre post, s = pre ++ post ∧ length post = Nat.min base (length s)
     ∧ Forall (λ g, handler_of l g = None) pre
     ∧ search m base h exc s u = Ok (false, post, u ++ (unwind_record <$> pre)))).
Proof.
  intros Hm Hsz Hc He Hrec Hfit. destruct (zlookup_is_Some (classes m) c Hc) as [row Hrow].
  destruct (proj1 (CheckSuperChains_Ok m) Hm c row Hrow) as [l Hl]. exists l. split; [done|].
  apply search_spec; [|done]. intros t. unfold IsInstanceOrSubclass. rewrite decide_False by lia. rewrite Hrec.
  cbn [lookup list_lookup]. rewrite derefE, bindE, swrap_small by (unfold is_sint; change (2 ^ (16 - 1)) with 32768; lia).
  apply instance_walk_supers; [done|]. pose proof (supers_length m c l Hl). unfold walk_fuel. lia.
Qed.

(** A thrown null reference, which [OP_Throw] lets through, passes every catch clause
    that names a class, [Exception] included; only the copies of a finally block see it. *)
Theorem null_throw_uncaught m h base s u :
  Forall catch_slots_fit s →
  Forall (λ f, Forall (λ tb, exceptionClassIdx tb ≠ 65535) (tryBlocks (func f))) s →
  ∃ pre post, s = pre ++ post ∧ length post = Nat.min base (length s)
    ∧ search m base h 0 s u = Ok (false, post, u ++ (unwind_record <$> pre)).
Proof.
  intros Hfit Hcls. destruct (search_spec m h 0 [] ltac:(done) base s Hfit u) as
    [(pre & f & post & tb & locals & -> & _ & _ & Hh & _)|(pre & post & ? & ? & _ & ?)]; [|by exists pre, post].
  exfalso. apply Forall_app in Hcls as [_ Hcls]. apply Forall_cons_1 in Hcls as [Hcls _].
  unfold handler_of in Hh. apply head_Some_elem_of in Hh. apply list_elem_of_filter in Hh as [Ha Hin].
  rewrite list.Forall_forall in Hcls. specialize (Hcls tb Hin). unfold accepts in Ha.
  rewrite (bool_decide_eq_false_2 (exceptionClassIdx tb = 65535)) in Ha by done.
  rewrite (bool_decide_eq_false_2 (_ ∈ [])) in Ha by apply not_elem_of_nil.
  by rewrite andb_false_r in Ha.
Qed.

(** ** The handler stack and the collector *)
(** The frame as the root scan sees it; descriptors, band mask and return kind are those
    of the compiled function. *)
Definition gc_frame (d : list LocalDescriptor) (mask : list Z) (k : Z) (cells : list bytes) (f : CallFrame)
    : HeapGC.CallFrame :=
  MkFrame d (paramCount (func f)) mask k (localsBuf f) (externalResult f ≫= λ i, cells !! i).
(** A catch body that has assigned its variable and called something that collected. *)
Definition catch_frame : CallFrame :=
  MkCall (replicate 8 0) (Some 0%nat) (MkFunc [102] [] 8 0 65535 false true [] []) 0 0 0 0 0 0 [1].
Definition catch_heap : heap :=
  MkHeap [[]; [0; 0; 0; 0; 0; 0; 0]] [0; RTK_Class] [0; 0] [[]] 1000 demo.

(** The object on the handler stack is not a root.  When the catch variable no longer
    holds it, a collection frees it, and [throw;] then raises the freed slot. *)
Theorem rethrow_of_collected_object :
  ∃ f h h', rec_at h 1 ≠ None ∧ kind_at h 1 = Some RTK_Class ∧ handlerExcStack f = [1]
    ∧ (roots ← MarkFrame false (gc_frame [MkLocal 0 false RTK_Class] [2] RTK_Int32 [replicate 8 0] f);
       '(g, _) ← CollectGarbage 2 demo_tables (MkGc h [] [] [] [] (-1) (-1) (-1)) [] roots;
       Ok (hp g)) = Ok h'
    ∧ kind_at h' 1 = Some 0
    ∧ ∀ x, head (stack x) = Some f → OpRethrow x = Thrown x (NLangThrow 1).
Proof.
  exists catch_frame, catch_heap. eexists. split_and!; [done|reflexivity|reflexivity|vm_compute; reflexivity|reflexivity|].
  intros x Hx. unfold OpRethrow, back, gets, mbind, M_bind. by rewrite Hx.
Qed.

(** ** Examples *)
(** The exception of the callee reaches the handler of the caller, which leaves 42. *)
Example demo_catches :
  match RunFrames demo_module 10 0 100 20 0 (with_stack demo_start demo_exec) with
  | Done x' (Some _) => stack x' = [] ∧ cells x' = [le_bytes 8 42] ∧ unwind x' = []
      ∧ length <$> lists x' = [2%nat]
  | _ => False
  end.
Proof. vm_compute. done. Qed.

Lemma demo_start_ok : demo_main ∈ functions demo_module
  ∧ length <$> cells demo_exec !! 0%nat = Some kFrameSlotBytes
  ∧ PushRootFrame (stack demo_exec) demo_main 0 = Ok demo_start.
Proof. split_and!; [apply list_elem_of_here|reflexivity|reflexivity]. Qed.
Lemma window_returns_stack_witness :
  match RunFrames demo_module 10 0 100 20 (length (stack demo_exec)) (with_stack demo_start demo_exec) with
  | Done x' (Some _) | Thrown x' (NLangThrow _) =>
      stack x' = stack demo_exec ∧ length <$> cells x' = length <$> cells demo_exec
  | Thrown x' (VmError e) => stack x' = stack demo_exec ∨ stack x' = [] ∨ unchecked e
  | Done x' None => ∃ w, stack x' = w ++ stack demo_exec
  | Thrown x' (ParkSignal _) | Thrown x' ShutdownSignal => (∃ w, stack x' = w ++ stack demo_exec) ∨ stack x' = []
  end.
Proof. destruct demo_start_ok as (H1 & H2 & H3). exact (window_returns_stack (HS := quiet) (HSok := quiet_ok) demo_module 10 0 100 20 demo_main 0 demo_exec demo_start H1 H2 H3). Defined.
Lemma frames_stay_typed_witness :
  match DispatchFrames demo_module 10 0 100 2 (length (stack demo_exec)) None (with_stack demo_start demo_exec) with
  | Done x' _ | Thrown x' (NLangThrow _) =>
      length <$> cells x' = length <$> cells demo_exec ∧
      ∃ w, stack x' = w ++ stack demo_exec ∧ Forall (frame_ok demo_module (length <$> cells demo_exec)) w
  | Thrown x' s =>
      length <$> cells x' = length <$> cells demo_exec ∧
      (stack x' = [] ∨ ∃ w, Forall (frame_ok demo_module (length <$> cells demo_exec)) w
         ∧ (stack x' = w ++ stack demo_exec ∨ ∃ e callee, s = VmError e ∧ stack x' = half_frame callee :: w ++ stack demo_exec))
  end.
Proof. destruct demo_start_ok as (H1 & H2 & H3). exact (frames_stay_typed (HS := quiet) (HSok := quiet_ok) demo_module 10 0 100 2 demo_main 0 demo_exec demo_start H1 H2 H3). Defined.
Lemma stack_bounded_witness :
  (length (stack (final (DispatchFrames demo_module 10 0 100 20 (length (stack demo_exec)) None (with_stack demo_start demo_exec)))) ≤ 1000)%nat
  ∧ (length (stack (final (RunFrames demo_module 10 0 100 20 (length (stack demo_exec)) (with_stack demo_start demo_exec)))) ≤ 1000)%nat.
Proof. destruct demo_start_ok as (H1 & H2 & H3). exact (stack_bounded (HS := quiet) (HSok := quiet_ok) demo_module 10 0 100 20 demo_main 0 demo_exec demo_start H1 H2 H3). Defined.

(** A frame of [main] during the call, and an object of the exception class. *)
Definition demo_throw_frames : list CallFrame :=
  [MkCall (replicate 8 0) (Some 0%nat) demo_f 6 3 3 0 0 0 []; MkCall (replicate 16 0) (Some 0%nat) demo_main 5 0 0 0 0 0 []].
Definition demo_exc_heap : heap := MkHeap [[]; [2; 0; 0; 0; 0; 0; 0]] [0; RTK_Class] [0; 0] [[]] 1000 demo.
Lemma demo_slots_fit : Forall catch_slots_fit demo_throw_frames.
Proof. repeat constructor; vm_compute; lia. Qed.
Lemma handler_search_witness :
  ∃ l, supers demo_module 2 l ∧
  ((∃ pre f post tb locals, demo_throw_frames = pre ++ f :: post ∧ (0 ≤ length post)%nat
     ∧ Forall (λ g, handler_of l g = None) pre ∧ handler_of l f = Some tb
     ∧ st32 (localsBuf f) (catchLocalOff tb) 1 = Ok locals
     ∧ search demo_module 0 demo_exc_heap 1 demo_throw_frames [] = Ok (true, enter tb 1 locals f :: post, []))
  ∨ (∃ pre post, demo_throw_frames = pre ++ post ∧ length post = Nat.min 0 (length demo_throw_frames)
     ∧ Forall (λ g, handler_of l g = None) pre
     ∧ search demo_module 0 demo_exc_heap 1 demo_throw_frames [] = Ok (false, post, [] ++ (unwind_record <$> pre)))).
Proof.
  apply (handler_search demo_module demo_exc_heap 1 2 [0; 0; 0; 0; 0; 0] 0 demo_throw_frames []);
    [reflexivity|simpl; lia|simpl; lia|lia|reflexivity|exact demo_slots_fit].
Defined.
Lemma null_throw_uncaught_witness :
  ∃ pre post, demo_throw_frames = pre ++ post ∧ length post = Nat.min 0 (length demo_throw_frames)
    ∧ search demo_module 0 demo_exc_heap 0 demo_throw_frames [] = Ok (false, post, [] ++ (unwind_record <$> pre)).
Proof.
  apply (null_throw_uncaught demo_module demo_exc_heap 0 demo_throw_frames []); [exact demo_slots_fit|].
  repeat constructor; vm_compute; intros ?; discriminate.
Defined.
