(* ===== verification/ObjectSpec.v ===== *)
(** * Objects: boxes, static slots and exception objects

    Theorems about [Objects] and the exception builder of [Exec]: what is put in a box or
    a static slot comes back, function handles are equal exactly when they name the same
    target, and a raised exception is an instance of its class that carries its message
    and one text for each frame. *)
From S2P Require Import Prelude.
From S2P Require Import Bytecode Package Prims TypeDesc Shards Strings StringOps Layout Heap HeapGC Arrays ArraySlice Frames.
From S2P Require Import SchedState Sched SchedSpec SyncPrims StaticInit Objects Exec ExecTypes.
Open Scope Z_scope.

(** ** Boxes *)
Definition box_width (tag : Z) : nat := if wide_tag tag then 8%nat else 4%nat.
(** The record of a box, and the value it stands for. *)
Definition box_record (tag v : Z) : list Z :=
  if wide_tag tag then [tag; i32 (u32 v); i32 (Z.shiftr (u64 v) 32)] else [tag; i32 v; 0].

Lemma wide_tag_byte tag : wide_tag tag = true → is_uint 8 tag.
Proof.
  unfold wide_tag. destruct (ScalarPrimIndexOfRtk tag) as [[i row]|] eqn:E; [|done]. intros _.
  apply ScalarPrimIndexOfRtk_Some in E as [Hin <-]. revert row Hin. apply registry_cases.
  repeat constructor; by vm_compute.
Qed.
Lemma AllocBoxedValue_spec h shard tag v :
  heap_ok h → (shard < length (m_heapShards h))%nat →
  ∃ i h', AllocBoxedValue h shard tag v = Ok (i, h') ∧ heap_ok h' ∧ hextends h h' ∧ 0 < i
    ∧ i < Z.of_nat (length (m_structHeap h'))
    ∧ rec_at h' i = Some (box_record tag v) ∧ kind_at h' i = Some RTK_Boxed.
Proof.
  intros Hok Hsh. unfold AllocBoxedValue.
  destruct (TakeHeapSlot_spec h shard Hok Hsh) as (i & h1 & -> & Ht). rewrite bindE.
  pose proof (tk_range _ _ _ Ht) as Hr. pose proof (tk_ok _ _ _ Ht) as Hok1.
  eexists i, _. split; [done|]. fold (box_record tag v).
  destruct (set_slot_at h1 i (box_record tag v) RTK_Boxed 0 Hok1) as (R1 & R2 & R3); [lia|].
  split_and!.
  - apply heap_ok_note, set_slot_ok; [done|lia|apply Ht].
  - intros x Hx. pose proof (tk_ext _ _ _ Ht x Hx) as Hs. eapply hsame_trans; [exact Hs|].
    assert (x ≠ i) by (intros ->; apply (tk_dead _ _ _ Ht); done).
    destruct (set_slot_ne h1 i (box_record tag v) RTK_Boxed 0 x) as (S1 & S2 & S3); [lia|done|]. by split_and!.
  - lia.
  - simpl. rewrite length_insert. lia.
  - exact R1.
  - exact R2.
Qed.

Lemma split_64 v : is_uint 64 v →
  Z.lor (u32 (i32 (u32 v))) (Z.shiftl (u32 (i32 (Z.shiftr (u64 v) 32))) 32) = v.
Proof.
  intros Hv. rewrite !wrap_swrap by lia. rewrite (wrap_small 64 v Hv).
  assert (u32 (u32 v) = v mod 2 ^ 32) as -> by (unfold wrap; by rewrite Zmod_mod).
  assert (u32 (Z.shiftr v 32) = v / 2 ^ 32) as ->.
  { rewrite Z.shiftr_div_pow2 by lia. apply wrap_small. unfold is_uint in *.
    change (2 ^ 64) with (2 ^ 32 * 2 ^ 32) in Hv. split; [apply Z.div_pos; lia|].
    apply Z.div_lt_upper_bound; lia. }
  rewrite lor_shiftl_add; [|lia|apply Z.mod_pos_bound; lia].
  pose proof (Z.div_mod v (2 ^ 32) ltac:(lia)). lia.
Qed.

(** Unboxing a live box: its value for the tag it was made with, an error for any other. *)
Lemma OpUnbox_spec r r1 tag h cell i v btag :
  ReadByte r = Ok (tag, r1) → length cell = 8%nat → ld32 cell 0 = Ok i → 0 < i →
  rec_at h i = Some (box_record btag v) → kind_at h i = Some RTK_Boxed → is_uint 8 btag →
  is_uint (8 * Z.of_nat (box_width btag)) v →
  if decide (tag = btag)
  then ∃ cell', OpUnbox r h cell = Ok (r1, h, cell') ∧ length cell' = 8%nat ∧ load (box_width tag) cell' 0 = Ok v
  else ∃ msg, OpUnbox r h cell = Raise (RuntimeError msg).
Proof.
  intros Hr Hlen Hi Hpos Hrec Hk Hb Hv. unfold OpUnbox. rewrite Hr, bindE, Hi, bindE.
  rewrite (decide_False (P := i ≤ 0)) by lia. rewrite Hk.
  rewrite (decide_False (P := RTK_Boxed ≠ RTK_Boxed)) by (by intros ?). unfold get_cell. rewrite Hrec.
  assert (box_record btag v !! 0%nat = Some btag) as H0 by (unfold box_record; by case_match).
  unfold mbind, outcome_bind. cbn [deref]. rewrite H0. cbn [deref]. rewrite (wrap_small 8 btag Hb).
  destruct (decide (tag = btag)) as [->|Hne]; [|rewrite decide_True by done; by eexists].
  rewrite decide_False by (by intros ?). unfold box_record, box_width in *.
  destruct (wide_tag btag) eqn:Hw; cbn [lookup list_lookup deref].
  - rewrite split_64 by exact Hv. unfold store. rewrite decide_True by lia. cbn iota beta.
    eexists. split; [done|]. split; [rewrite !length_app, length_le_bytes, length_drop, Hlen; simpl; lia|].
    assert (store 8 cell 0 v = Ok (take 0 cell ++ le_bytes 8 v ++ drop (0 + 8) cell)) as Es.
    { unfold store. by rewrite decide_True by lia. }
    rewrite (load_store_same _ _ _ _ _ Es). f_equal. apply Z.mod_small. exact Hv.
  - unfold st32. destruct (store 4 cell (Z.to_nat 0) (i32 v)) as [cell'|] eqn:Es.
    2: { unfold store in Es. rewrite decide_True in Es by (rewrite Hlen; simpl; lia). done. }
    exists cell'. split; [done|]. split; [by rewrite (store_length _ _ _ _ _ Es)|].
    pose proof (load_store_same _ _ _ _ _ Es) as Hl. etrans; [exact Hl|]. f_equal. change (8 * Z.of_nat 4) with 32 in *.
    change (i32 v mod 2 ^ 32) with (u32 (i32 v)). rewrite wrap_swrap by lia. by apply wrap_small.
Qed.

(** A primitive that is boxed and unboxed with the same tag is the same bytes again, and
    with any other tag unboxing is an error; boxing touches no live object. *)
Theorem box_unbox r r1 r' r1' tag tag' h shard cell :
  heap_ok h → (shard < length (m_heapShards h))%nat → length cell = 8%nat → Forall is_byte cell →
  is_uint 8 tag → ReadByte r = Ok (tag, r1) → ReadByte r' = Ok (tag', r1') →
  (∀ i h', TakeHeapSlot h shard = Ok (i, h') → i < 2 ^ 31) →
  ∃ h' cell', OpBox shard r h cell = Ok (r1, h', cell') ∧ heap_ok h' ∧ hextends h h' ∧
  if decide (tag' = tag)
  then ∃ cell'', OpUnbox r' h' cell' = Ok (r1', h', cell'')
       ∧ load (box_width tag) cell'' 0 = load (box_width tag) cell 0
  else ∃ msg, OpUnbox r' h' cell' = Raise (RuntimeError msg).
Proof.
  intros Hok Hsh Hlen Hbytes Htag Hr Hr' Hsmall. unfold OpBox. rewrite Hr, bindE. fold (box_width tag).
  assert (load (box_width tag) cell 0 = Ok (le_value (take (box_width tag) (drop 0 cell)))) as Hload.
  { apply load_ok. unfold box_width. rewrite Hlen. case_match; lia. }
  pose proof (load_bound _ _ _ _ Hbytes Hload) as Hv. set (v := le_value _) in *. rewrite Hload, bindE.
  destruct (AllocBoxedValue_spec h shard tag v Hok Hsh) as (i & h' & E & Hok' & Hext & Hpos & _ & Hrec & Hk).
  assert (i < 2 ^ 31) as Hi.
  { unfold AllocBoxedValue in E. apply bind_Ok in E as ([j h1] & E1 & [= <- _]). by eapply Hsmall. }
  rewrite E, bindE. destruct (st32_spec cell 0 i) as (cell' & Est & Hlen' & Hld & _).
  { unfold slot_ok. rewrite Hlen. simpl. lia. }
  rewrite Est, bindE. exists h', cell'. split; [done|]. split; [done|]. split; [done|].
  rewrite swrap_small in Hld by (unfold is_sint; change (2 ^ (32 - 1)) with (2 ^ 31); lia).
  pose proof (OpUnbox_spec r' r1' tag' h' cell' i v tag Hr' ltac:(congruence) Hld Hpos Hrec Hk Htag Hv) as Hu.
  case_decide as Heq; [|exact Hu]. destruct Hu as (cell'' & E2 & _ & Hl). exists cell''. split; [done|].
  by rewrite <- Heq at 1.
Qed.

(** ** Exception objects *)
(** A later heap: nothing that was alive changed, in either store. *)
Record grows (h h' : heap) : Prop := {
  gr_ok : heap_ok h';
  gr_ext : hextends h h';
  gr_strs : extends (strs h) (strs h');
  gr_shards : length (m_heapShards h') = length (m_heapShards h)
}.
Lemma grows_refl h : heap_ok h → grows h h.
Proof. intros Hok. split; [done|apply hextends_refl|apply extends_refl|done]. Qed.
Lemma grows_trans h1 h2 h3 : grows h1 h2 → grows h2 h3 → grows h1 h3.
Proof.
  intros [] []. split; [done|by eapply hextends_trans|by eapply extends_trans|congruence].
Qed.
Lemma same_objs_extends st st' : m_stringObjs st' = m_stringObjs st → m_strShards st' = m_strShards st → extends st st'.
Proof.
  intros H1 H2 x [(o & Hp & Ho & Hf) Hfree]. unfold obj_at in *. split; [|by rewrite H1].
  split; [exists o; unfold live, obj_at; by rewrite H1|by rewrite H2].
Qed.
Lemma TakeHeapSlot_objs h shard i h' : TakeHeapSlot h shard = Ok (i, h') →
  m_stringObjs (strs h') = m_stringObjs (strs h) ∧ m_strShards (strs h') = m_strShards (strs h).
Proof.
  unfold TakeHeapSlot. intros (e & _ & (h1 & H1 & ([j sh] & _ & [= _ <-])%bind_Ok)%bind_Ok)%bind_Ok.
  destruct e; [|by injection H1 as <-]. unfold GrowHeapShardBlockLocked in H1.
  by apply bind_Ok in H1 as (sh' & _ & [= <-]).
Qed.
(** Taking a slot and filling it. *)
Lemma take_fill h shard r k : heap_ok h → (shard < length (m_heapShards h))%nat →
  ∃ i h1, TakeHeapSlot h shard = Ok (i, h1) ∧ ¬ hlive h i ∧ 0 < i < Z.of_nat (length (m_structHeap h1)) ∧
    heap_ok h1 ∧ grows h (Heap.set_slot h1 i r k 0) ∧ rec_at (Heap.set_slot h1 i r k 0) i = Some r
    ∧ kind_at (Heap.set_slot h1 i r k 0) i = Some k.
Proof.
  intros Hok Hsh. destruct (TakeHeapSlot_spec h shard Hok Hsh) as (i & h1 & E & Ht).
  destruct (TakeHeapSlot_objs _ _ _ _ E) as [So Sh]. pose proof (tk_range _ _ _ Ht) as Hr.
  destruct (set_slot_at h1 i r k 0 (tk_ok _ _ _ Ht)) as (R1 & R2 & _); [lia|].
  exists i, h1. split_and!; [done|apply Ht|lia|lia|apply Ht| |done|done]. split.
  - apply set_slot_ok; [apply Ht|lia|apply Ht].
  - intros x Hx. eapply hsame_trans; [apply (tk_ext _ _ _ Ht x Hx)|].
    apply set_slot_ne; [lia|]. intros ->. by apply (tk_dead _ _ _ Ht).
  - by apply same_objs_extends.
  - apply Ht.
Qed.
Lemma grows_note h h' : grows h h' → grows h (HNoteGcPressure h').
Proof.
  intros []. split; [by apply heap_ok_note|done| |done].
  eapply extends_trans; [done|]. by apply same_objs_extends.
Qed.
Lemma AllocBoxedValue_grows h shard tag v : heap_ok h → (shard < length (m_heapShards h))%nat →
  ∃ i h', AllocBoxedValue h shard tag v = Ok (i, h') ∧ grows h h' ∧ ¬ hlive h i
    ∧ rec_at h' i = Some (box_record tag v) ∧ kind_at h' i = Some RTK_Boxed.
Proof.
  intros Hok Hsh. destruct (take_fill h shard (box_record tag v) RTK_Boxed Hok Hsh)
    as (i & h1 & E & Hd & _ & _ & Hg & R & K).
  unfold AllocBoxedValue. rewrite E, bindE. eexists i, _. split; [done|]. split; [by apply grows_note|done].
Qed.
(** A class without struct fields. *)
Lemma AllocClassOnHeap_plain n md h shard c fields :
  layout md !!z c = Some fields → (∀ j, cfield fields j = None) →
  heap_ok h → (shard < length (m_heapShards h))%nat →
  ∃ i h', AllocClassOnHeap n md h shard c = Ok (i, h') ∧ grows h h' ∧ ¬ hlive h i ∧ 0 < i
    ∧ rec_at h' i = Some (c :: replicate (2 * length fields) 0) ∧ kind_at h' i = Some RTK_Class.
Proof.
  intros Hl Hf Hok Hsh. set (r := c :: replicate (2 * length fields) 0).
  destruct (take_fill h shard r RTK_Class Hok Hsh) as (i & h1 & E & Hd & Hr & Hok1 & Hg & R & K).
  unfold AllocClassOnHeap. rewrite Hl, E, bindE.
  rewrite set_slot_cell by (first [done | lia | rewrite length_replicate; lia]). rewrite bindE. fold r.
  assert (∀ l h, (∀ j, j ∈ l → (j < length fields)%nat) →
    foldM (λ h j, f ← deref (fields !! j);
      match nested_struct (Layout.kind f) (Layout.structIdx f) with
      | None => Ok h
      | Some s => '(innerIdx, h) ← AllocStructOnHeap n md h shard s; set_cell h i (2 * j + 1) innerIdx
      end) h l = Ok h) as Hloop.
  { induction l as [|j l IH]; intros hh Hj; [done|]. cbn [foldM].
    destruct (lookup_lt_is_Some_2 fields j) as [f Hfj]; [apply Hj; by apply list_elem_of_here|].
    pose proof (Hf j) as Hn. unfold cfield in Hn. rewrite Hfj in Hn. cbn in Hn.
    rewrite Hfj, derefE, bindE, Hn, bindE. apply IH. intros k Hk. apply Hj. by apply list_elem_of_further. }
  change (<[0%nat:=c]> (replicate (1 + 2 * length fields) 0)) with r.
  rewrite Hloop by (intros j Hj%elem_of_seq; lia). rewrite bindE.
  eexists i, _. split; [done|]. split_and!; [done|done|lia|done|done].
Qed.
Lemma MintNewString_grows h shard s : heap_ok h → (shard < length (m_heapShards h))%nat →
  ∃ sh st, MintNewString (strs h) shard s = Ok (sh, st) ∧ grows h (hwith_strs h st)
    ∧ in_use st sh ∧ reads st sh s 1.
Proof.
  intros Hok Hsh. rewrite <- (hk_same_shards h Hok) in Hsh.
  destruct (MintNewString_aux (strs h) shard s (hk_strs h Hok) Hsh) as (sh & st & E & Hst & Hext & Hu & Hl & o & Ho & Hf & Hs & _).
  exists sh, st. split_and!; [done| |done|].
  - split; [|done|done|done]. apply heap_ok_with_strs; [done|done|]. rewrite Hl. apply Hok.
  - rewrite <- Hs. apply reads_flat_in_use; [done..|by rewrite Hf].
Qed.
(** Writing a cell of an object that is new since [h0]. *)
Lemma set_cell_grows h0 h i r c v : grows h0 h → ¬ hlive h0 i → rec_at h i = Some r → (c < length r)%nat →
  ∃ h', set_cell h i c v = Ok h' ∧ grows h0 h' ∧ rec_at h' i = Some (<[c := v]> r)
    ∧ kind_at h' i = kind_at h i ∧ strs h' = strs h ∧ ∀ x, x ≠ i → hsame h h' x.
Proof.
  intros [G1 G2 G3 G4] Hd Hrec Hc. unfold set_cell. rewrite Hrec, derefE, bindE, decide_True by done.
  destruct (set_cell_spec h i r c v G1 Hrec Hc) as (h' & E & Hok' & R & Hsame & K & _ & Hsh).
  unfold set_cell in E. rewrite Hrec, derefE, bindE, decide_True in E by done. injection E as <-.
  eexists. split; [done|]. split_and!; [|exact R|done|done|exact Hsame]. split; [done| |done|done].
  intros x Hx. eapply hsame_trans; [by apply G2|]. apply Hsame. by intros ->.
Qed.

(** [e] is a boxed string that reads [t]. *)
Definition text_box (h : heap) (e : Z) (t : bytes) : Prop :=
  ∃ sh, rec_at h e = Some (box_record RTK_String sh) ∧ kind_at h e = Some RTK_Boxed
    ∧ in_use (strs h) sh ∧ reads (strs h) sh t 1.
Lemma text_box_grows h h' e t : heap_ok h → grows h h' → text_box h e t → text_box h' e t.
Proof.
  intros Hok [G1 G2 G3 G4] (sh & R & K & U & Rd).
  destruct (G2 e) as (E1 & E2 & _); [by exists RTK_Boxed|].
  exists sh. split_and!; [by rewrite E1|by rewrite E2|by apply G3|].
  eapply extends_reads; [apply Hok|done|by right|done].
Qed.

(** Minting a text and boxing it. *)
Lemma boxed_text h shard t : heap_ok h → (shard < length (m_heapShards h))%nat →
  ∃ sh st e h', MintNewString (strs h) shard t = Ok (sh, st) ∧ AllocBoxedValue (hwith_strs h st) shard RTK_String sh = Ok (e, h')
    ∧ grows h h' ∧ text_box h' e t.
Proof.
  intros Hok Hsh. destruct (MintNewString_grows h shard t Hok Hsh) as (sh & st & Es & G1 & U & R).
  destruct (AllocBoxedValue_grows (hwith_strs h st) shard RTK_String sh) as (e & h' & Ea & G2 & Hd & Rc & K);
    [apply G1|by rewrite (gr_shards _ _ G1)|].
  exists sh, st, e, h'. split; [done|]. split; [done|]. split; [by eapply grows_trans|]. exists sh. split_and!; [done|done|by apply G2|].
  eapply (extends_reads st); [apply (hk_strs _ (gr_ok _ _ G1))|apply G2|by right|done].
Qed.
(** Pushing a boxed text for each element of a list. *)
Lemma boxed_texts {A} (push : heap * list Z → A → outcome (heap * list Z)) (text : A → bytes) shard :
  (∀ h acc a, heap_ok h → (shard < length (m_heapShards h))%nat →
    ∃ h' e, push (h, acc) a = Ok (h', acc ++ [e]) ∧ grows h h' ∧ text_box h' e (text a)) →
  ∀ l h acc, heap_ok h → (shard < length (m_heapShards h))%nat →
  ∃ h' es, foldM push (h, acc) l = Ok (h', acc ++ es) ∧ grows h h' ∧ Forall2 (text_box h') es (text <$> l).
Proof.
  intros Hpush l. induction l as [|a l IH]; intros h acc Hok Hsh.
  - exists h, []. rewrite app_nil_r. split; [done|]. split; [by apply grows_refl|apply Forall2_nil_2].
  - destruct (Hpush h acc a Hok Hsh) as (h1 & e & E & G1 & T). cbn [foldM]. rewrite E, bindE.
    destruct (IH h1 (acc ++ [e])) as (h' & es & E' & G2 & Hes); [apply G1|by rewrite (gr_shards _ _ G1)|].
    exists h', (e :: es). rewrite E', <- app_assoc. split; [done|]. split; [by eapply grows_trans|].
    apply Forall2_cons_2; [|done]. by apply (text_box_grows h1); [apply G1|..].
Qed.

Section Raise.
Context (m : CompiledModule) (fuel shard : nat).
Definition frame_text (f : CallFrame) : bytes :=
  FormatBacktraceFrame (fn_name (func f)) (sourceFile (func f)) (currentLine f) (m_name m).

Lemma push_frame_text_spec h acc f : heap_ok h → (shard < length (m_heapShards h))%nat →
  ∃ h' e, push_frame_text m shard (h, acc) f = Ok (h', acc ++ [e]) ∧ grows h h' ∧ text_box h' e (frame_text f).
Proof.
  intros Hok Hsh. unfold push_frame_text. fold (frame_text f).
  destruct (boxed_text h shard (frame_text f) Hok Hsh) as (sh & st & e & h' & -> & E & G & T). rewrite bindE, E, bindE.
  by exists h', e.
Qed.
Lemma frame_texts_spec frames : ∀ h acc, heap_ok h → (shard < length (m_heapShards h))%nat →
  ∃ h' es, foldM (push_frame_text m shard) (h, acc) frames = Ok (h', acc ++ es) ∧ grows h h'
    ∧ Forall2 (text_box h') es (frame_text <$> frames).
Proof. apply boxed_texts, push_frame_text_spec. Qed.

(** The layouts of the exception class and of [List], which are all references. *)
Context (classIdx : Z) (fields lfields : list Entry).
Context (Hcls : 0 ≤ classIdx) (Hf : layout (md m) !!z u16 classIdx = Some fields)
  (Hplain : ∀ j, cfield fields j = None) (Hlen : (3 ≤ length fields)%nat).
Context (Hlist : 0 ≤ m_listClassIdx m) (Hlf : layout (md m) !!z u16 (m_listClassIdx m) = Some lfields)
  (Hlplain : ∀ j, cfield lfields j = None) (Hllen : (1 ≤ length lfields)%nat).

Definition is_list (h : heap) (li handle : Z) : Prop :=
  ∃ r, rec_at h li = Some r ∧ kind_at h li = Some RTK_Class
    ∧ r !! 0%nat = Some (u16 (m_listClassIdx m)) ∧ r !! 1%nat = Some handle.
Lemma MintBacktraceList_spec frames h lists : heap_ok h → (shard < length (m_heapShards h))%nat →
  ∃ li h' es, MintBacktraceList m fuel shard frames h lists = Ok (li, h', lists ++ [es]) ∧ grows h h' ∧ ¬ hlive h li
    ∧ 0 < li ∧ is_list h' li (Z.of_nat (S (length lists))) ∧ Forall2 (text_box h') es (frame_text <$> frames).
Proof.
  intros Hok Hsh. unfold MintBacktraceList. rewrite decide_False by lia.
  destruct (AllocClassOnHeap_plain fuel (md m) h shard _ lfields Hlf Hlplain Hok Hsh) as (li & h1 & -> & G1 & Hd & Hpos & R & K).
  rewrite bindE. set (handle := Z.of_nat (S (length lists))).
  destruct (set_cell_grows h h1 li _ 1 handle G1 Hd R) as (h2 & -> & G2 & R2 & K2 & _ & _).
  { cbn [length]. rewrite length_replicate. lia. }
  rewrite bindE. destruct (frame_texts_spec frames h2 []) as (h3 & es & -> & G3 & Hes);
    [apply G2|by rewrite (gr_shards _ _ G2)|]. rewrite bindE, app_nil_l.
  destruct (gr_ext _ _ G3 li) as (E1 & E2 & _); [exists RTK_Class; by rewrite K2|].
  exists li, h3, es. split_and!; [done|by eapply grows_trans|done|done| |done].
  eexists. split_and!; [by rewrite E1|by rewrite E2, K2|done|].
  apply list_lookup_insert_eq. cbn [length]. rewrite length_replicate. lia.
Qed.

(** The object before the backtrace is attached. *)
Lemma exception_head h msg : heap_ok h → (shard < length (m_heapShards h))%nat →
  ∃ i h1 mh st h2 h3 r, AllocClassOnHeap fuel (md m) h shard (u16 classIdx) = Ok (i, h1)
    ∧ MintNewString (strs h1) shard msg = Ok (mh, st)
    ∧ set_cell (hwith_strs h1 st) i 1 mh = Ok h2 ∧ set_cell h2 i 5 0 = Ok h3
    ∧ grows h h3 ∧ ¬ hlive h i ∧ in_use (strs h3) mh ∧ reads (strs h3) mh msg 1
    ∧ rec_at h3 i = Some r ∧ kind_at h3 i = Some RTK_Class ∧ length r = (1 + 2 * length fields)%nat
    ∧ r !! 0%nat = Some (u16 classIdx) ∧ r !! 1%nat = Some mh ∧ r !! 5%nat = Some 0.
Proof.
  intros Hok Hsh.
  destruct (AllocClassOnHeap_plain fuel (md m) h shard _ fields Hf Hplain Hok Hsh) as (i & h1 & E1 & G1 & Hd & _ & R & K).
  destruct (MintNewString_grows h1 shard msg (gr_ok _ _ G1)) as (mh & st & E2 & G2 & U & Rd);
    [by rewrite (gr_shards _ _ G1)|].
  pose proof (grows_trans _ _ _ G1 G2) as G12. set (r0 := u16 classIdx :: replicate (2 * length fields) 0) in R.
  assert (length r0 = (1 + 2 * length fields)%nat) as Hr0 by (unfold r0; cbn [length]; by rewrite length_replicate).
  destruct (set_cell_grows h (hwith_strs h1 st) i r0 1 mh G12 Hd R) as (h2 & E3 & G3 & R3 & K3 & S3 & _); [lia|].
  destruct (set_cell_grows h h2 i _ 5 0 G3 Hd R3) as (h3 & E4 & G4 & R4 & K4 & S4 & _); [rewrite length_insert; lia|].
  assert (strs h3 = st) as Hst by (rewrite S4, S3; done).
  exists i, h1, mh, st, h2, h3. eexists. rewrite Hst. split_and!; try done.
  - by rewrite K4, K3.
  - by rewrite !length_insert.
  - rewrite list_lookup_insert_ne by lia. apply list_lookup_insert_eq. lia.
  - apply list_lookup_insert_eq. rewrite length_insert. lia.
Qed.
Lemma BuildNlangException_spec frames msg h lists : heap_ok h → (shard < length (m_heapShards h))%nat →
  ∃ i h' mh li es r, BuildNlangException m fuel shard frames classIdx msg h lists = Ok (i, h', lists ++ [es])
    ∧ grows h h' ∧ ¬ hlive h i
    ∧ rec_at h' i = Some r ∧ kind_at h' i = Some RTK_Class ∧ r !! 0%nat = Some (u16 classIdx)
    ∧ r !! 1%nat = Some mh ∧ reads (strs h') mh msg 1 ∧ r !! 5%nat = Some 0
    ∧ r !! 3%nat = Some li ∧ is_list h' li (Z.of_nat (S (length lists)))
    ∧ Forall2 (text_box h') es (frame_text <$> frames).
Proof.
  intros Hok Hsh. unfold BuildNlangException. rewrite decide_False by lia.
  destruct (exception_head h msg Hok Hsh) as
    (i & h1 & mh & st & h2 & h3 & r & -> & E2 & E3 & E4 & G3 & Hd & U & Rd & R & K & Hl & R0 & R1 & R5).
  rewrite bindE, E2, bindE, E3, bindE, E4, bindE.
  destruct (MintBacktraceList_spec frames h3 lists (gr_ok _ _ G3)) as (li & h4 & es & -> & G4 & Hdl & Hpos & HL & Hes);
    [by rewrite (gr_shards _ _ G3)|]. rewrite bindE, decide_True by done.
  assert (hlive h3 i) as Hlive by (by exists RTK_Class).
  destruct (gr_ext _ _ G4 i Hlive) as (E1 & K1 & _). rewrite R in E1. rewrite K in K1.
  destruct (set_cell_grows h h4 i r 3 li (grows_trans _ _ _ G3 G4) Hd E1) as (h' & E & G & R' & K' & S & Hsame); [lia|].
  rewrite E, bindE. exists i, h', mh, li, es. eexists. split_and!; [done..|exact R'| | | | | | | |].
  - by rewrite K'.
  - by rewrite list_lookup_insert_ne.
  - by rewrite list_lookup_insert_ne.
  - rewrite S. eapply (extends_reads (strs h3)); [apply G3|apply G4|by right|done].
  - by rewrite list_lookup_insert_ne.
  - apply list_lookup_insert_eq. lia.
  - destruct HL as (lr & L1 & L2 & L3). destruct (Hsame li) as (S1 & S2 & _); [by intros ->|].
    exists lr. by rewrite S1, S2.
  - eapply Forall2_impl; [|exact Hes]. intros e t (sh & T1 & T2 & T3). exists sh.
    destruct (Hsame e) as (S1 & S2 & _); [intros Heq; rewrite Heq, K1 in T2; discriminate|]. by rewrite S1, S2, S.
Qed.
End Raise.

(** C39: An exception the machine raises is a new object of its class whose message reads as
    given, with no cause and with a backtrace list that holds one string for each frame of
    the stack, innermost first; frames, result cells and everything alive are unchanged. *)
Theorem raised_exception m fuel shard A exc msg x fields lfields :
  heap_ok (x_heap x) → (shard < length (m_heapShards (x_heap x)))%nat →
  0 ≤ CacheBuiltinClassIndexes m exc →
  layout (md m) !!z u16 (CacheBuiltinClassIndexes m exc) = Some fields →
  (∀ j, cfield fields j = None) → (3 ≤ length fields)%nat →
  0 ≤ m_listClassIdx m → layout (md m) !!z u16 (m_listClassIdx m) = Some lfields →
  (∀ j, cfield lfields j = None) → (1 ≤ length lfields)%nat →
  ∃ i h' mh li es r,
    RaiseNlangException m fuel shard (A := A) exc msg x
      = Thrown (with_lists (lists x ++ [es]) (with_heap h' x)) (NLangThrow i)
    ∧ grows (x_heap x) h' ∧ ¬ hlive (x_heap x) i
    ∧ rec_at h' i = Some r ∧ kind_at h' i = Some RTK_Class
    ∧ r !! 0%nat = Some (u16 (CacheBuiltinClassIndexes m exc))
    ∧ r !! 1%nat = Some mh ∧ reads (strs h') mh msg 1 ∧ r !! 5%nat = Some 0
    ∧ r !! 3%nat = Some li ∧ is_list m h' li (Z.of_nat (S (length (lists x))))
    ∧ Forall2 (text_box h') es (frame_text m <$> stack x).
Proof.
  intros Hok Hsh Hc Hf Hp Hl Hlc Hlf Hlp Hll. unfold RaiseNlangException.
  destruct (BuildNlangException_spec m fuel shard _ fields lfields Hc Hf Hp Hl Hlc Hlf Hlp Hll (stack x) msg
    (x_heap x) (lists x) Hok Hsh) as (i & h' & mh & li & es & r & -> & H).
  by exists i, h', mh, li, es, r.
Qed.

(** ** Static slots *)
Lemma OpLoadStatic_ready m t r r1 r2 dst slot meta cell locals l' :
  ReadUint16 r = Ok (dst, r1) → ReadUint16 r1 = Ok (slot, r2) → staticSlots m !!z slot = Some meta →
  (hasInitializer meta = true → m_initBits t !!z slot = Some true) →
  StaticInit.m_cells t !!z slot = Some cell → store 8 locals (Z.to_nat dst) cell = Ok l' →
  OpLoadStatic m t r locals = Ok (r2, l').
Proof.
  intros R1 R2 Hm Hb Hc Hs. unfold OpLoadStatic. rewrite R1, bindE, R2, bindE, Hm, derefE, bindE.
  destruct (hasInitializer meta); [rewrite Hb, derefE by done|]; rewrite bindE; cbn iota;
    by rewrite Hc, derefE, bindE, Hs, bindE.
Qed.
Lemma zlookup_insert {A} (l : list A) i a : 0 ≤ i < Z.of_nat (length l) → <[Z.to_nat i := a]> l !!z i = Some a.
Proof. intros H. unfold zlookup. rewrite decide_True by lia. apply list_lookup_insert_eq. lia. Qed.
Lemma set_static_spec t slot v mark :
  0 ≤ slot < Z.of_nat (length (StaticInit.m_cells t)) → length (m_initBits t) = length (StaticInit.m_cells t) →
  ∃ t', set_static t (Z.to_nat slot) v mark = Ok t' ∧ StaticInit.m_cells t' !!z slot = Some v
    ∧ (mark = true → m_initBits t' !!z slot = Some true).
Proof.
  intros Hs Hl. unfold set_static.
  destruct (lookup_lt_is_Some_2 (StaticInit.m_cells t) (Z.to_nat slot)) as [old Hold]; [lia|].
  destruct (lookup_lt_is_Some_2 (m_initBits t) (Z.to_nat slot)) as [b Hbit]; [lia|].
  rewrite Hold, derefE, bindE.
  destruct mark; [rewrite Hbit, derefE, !bindE|rewrite bindE]; (eexists; split; [done|]; cbn; split;
    [by apply zlookup_insert|intros Hm; try done; apply zlookup_insert; lia]).
Qed.

(** What [OP_StoreStatic] stores, [OP_LoadStatic] loads; a slot with an initializer that has
    stored nothing yet raises [InitializationException] instead. *)
Theorem static_slot m fuel shard t h meta slot src dst r r1 r2 r' r1' r2' locals locals' :
  staticSlots m !!z slot = Some meta → slot_kind meta ≠ RTK_Struct →
  ReadUint16 r = Ok (slot, r1) → ReadUint16 r1 = Ok (src, r2) →
  ReadUint16 r' = Ok (dst, r1') → ReadUint16 r1' = Ok (slot, r2') →
  slot < Z.of_nat (length (StaticInit.m_cells t)) → length (m_initBits t) = length (StaticInit.m_cells t) →
  Forall is_byte locals → (Z.to_nat src + 8 ≤ length locals)%nat → (Z.to_nat dst + 8 ≤ length locals')%nat →
  (∃ t' l', OpStoreStatic fuel m shard t r h locals = Ok (r2, h, t')
     ∧ OpLoadStatic m t' r' locals' = Ok (r2', l') ∧ load 8 l' (Z.to_nat dst) = load 8 locals (Z.to_nat src))
  ∧ (hasInitializer meta = true → m_initBits t !!z slot = Some false →
     ∃ msg, OpLoadStatic m t r' locals' = Raise (NlangExc ExcInit msg)).
Proof.
  intros Hm Hk R1 R2 R1' R2' Hslot Hbits Hb Hsrc Hdst. pose proof (zlookup_Some_lt _ _ _ Hm) as [H0 _]. split.
  - unfold OpStoreStatic. rewrite R1, bindE, R2, bindE, Hm, derefE, bindE, decide_False by done.
    rewrite bindE, decide_False by lia.
    pose proof (load_ok 8 locals (Z.to_nat src) Hsrc) as Hv. set (v := le_value _) in Hv.
    pose proof (load_bound _ _ _ _ Hb Hv) as Hvb. rewrite Hv, bindE.
    destruct (set_static_spec t slot v (hasInitializer meta)) as (t' & -> & Hc & Hi); [lia|done|]. rewrite bindE.
    assert (∃ l', store 8 locals' (Z.to_nat dst) v = Ok l') as [l' Hl'].
    { unfold store. rewrite decide_True by lia. by eexists. }
    exists t', l'. split; [done|]. split; [by eapply OpLoadStatic_ready|].
    rewrite (load_store_same _ _ _ _ _ Hl'). f_equal. by apply Z.mod_small.
  - intros Hi Hbit. unfold OpLoadStatic. rewrite R1', bindE, R2', bindE, Hm, derefE, bindE, Hi, Hbit, derefE, bindE.
    by eexists.
Qed.

(** ** Examples *)
Lemma demo_heap_shard : (0 < length (m_heapShards demo_heap))%nat.
Proof. vm_compute. lia. Qed.
Lemma box_unbox_witness :
  ∃ h' cell', OpBox 0 (Reader [15] 0) demo_heap (seqZ 1 8) = Ok (Reader [15] 1, h', cell') ∧ heap_ok h' ∧ hextends demo_heap h' ∧
  if decide (15 = 15)
  then ∃ cell'', OpUnbox (Reader [15] 0) h' cell' = Ok (Reader [15] 1, h', cell'')
       ∧ load (box_width 15) cell'' 0 = load (box_width 15) (seqZ 1 8) 0
  else ∃ msg, OpUnbox (Reader [15] 0) h' cell' = Raise (RuntimeError msg).
Proof.
  apply (box_unbox (Reader [15] 0) (Reader [15] 1) (Reader [15] 0) (Reader [15] 1) 15 15 demo_heap 0 (seqZ 1 8));
    [apply demo_heap_ok|apply demo_heap_shard|reflexivity| |split; [lia|reflexivity]|reflexivity|reflexivity|].
  - apply (bool_decide_unpack _). vm_compute. exact I.
  - intros i h' E. assert ((match TakeHeapSlot demo_heap 0 with Ok (i, _) => i | _ => 0 end) = 1) as H by (vm_compute; done).
    rewrite E in H. rewrite H. reflexivity.
Defined.
Lemma raised_exception_witness :
  ∃ i h' mh li es r,
    RaiseNlangException demo_module 10 0 (A := unit) ExcNullPtr [110] demo_exec
      = Thrown (with_lists (lists demo_exec ++ [es]) (with_heap h' demo_exec)) (NLangThrow i)
    ∧ grows (x_heap demo_exec) h' ∧ ¬ hlive (x_heap demo_exec) i
    ∧ rec_at h' i = Some r ∧ kind_at h' i = Some RTK_Class
    ∧ r !! 0%nat = Some (u16 (CacheBuiltinClassIndexes demo_module ExcNullPtr))
    ∧ r !! 1%nat = Some mh ∧ reads (strs h') mh [110] 1 ∧ r !! 5%nat = Some 0
    ∧ r !! 3%nat = Some li ∧ is_list demo_module h' li (Z.of_nat (S (length (lists demo_exec))))
    ∧ Forall2 (text_box h') es (frame_text demo_module <$> stack demo_exec).
Proof.
  apply (raised_exception demo_module 10 0 unit ExcNullPtr [110] demo_exec demo_exc_fields [demo_field "__handle"]);
    [apply demo_heap_ok|apply demo_heap_shard|vm_compute; by intros ?|reflexivity| |simpl; lia|vm_compute; by intros ?|reflexivity| |simpl; lia].
  - intros [|[|[|j]]]; reflexivity.
  - intros [|j]; reflexivity.
Defined.
Definition demo_slots : VmStaticSlots := mkSlots [5; 6] [false; false] [] [] 0 0.
Definition demo_statics : CompiledModule :=
  MkModule [] [] [] (MkTables [] [] [] []) [MkStaticSlot [97] RTK_Int32 65535 true] [].
Lemma static_slot_witness :
  (∃ t' l', OpStoreStatic 1 demo_statics 0 demo_slots (Reader [0; 0; 8; 0] 0) demo_heap (seqZ 1 16) = Ok (Reader [0; 0; 8; 0] 4, demo_heap, t')
     ∧ OpLoadStatic demo_statics t' (Reader [0; 0; 0; 0] 0) (seqZ 1 8) = Ok (Reader [0; 0; 0; 0] 4, l')
     ∧ load 8 l' 0 = load 8 (seqZ 1 16) 8)
  ∧ (hasInitializer (MkStaticSlot [97] RTK_Int32 65535 true) = true → m_initBits demo_slots !!z 0 = Some false →
     ∃ msg, OpLoadStatic demo_statics demo_slots (Reader [0; 0; 0; 0] 0) (seqZ 1 8) = Raise (NlangExc ExcInit msg)).
Proof.
  apply (static_slot demo_statics 1 0 demo_slots demo_heap (MkStaticSlot [97] RTK_Int32 65535 true) 0 8 0
    (Reader [0; 0; 8; 0] 0) (Reader [0; 0; 8; 0] 2) (Reader [0; 0; 8; 0] 4)
    (Reader [0; 0; 0; 0] 0) (Reader [0; 0; 0; 0] 2) (Reader [0; 0; 0; 0] 4));
    [reflexivity|by intros ?|reflexivity..|reflexivity|reflexivity| |vm_compute; lia|vm_compute; lia].
  apply (bool_decide_unpack _). vm_compute. exact I.
Defined.
