(* ===== verification/AllocGrow.v ===== *)
(** * Allocation leaves everything alive as it was

    The allocators of [Heap] and [Arrays] with the string store in the picture: a new struct,
    instance or array leaves every live record and every string in use unchanged, and an array
    of structs starts with as many records of its own. *)
From S2P Require Import Prelude.
From S2P Require Import Bytecode Prims TypeDesc Shards Strings StringOps Layout Heap HeapGC Arrays ArrayElems ObjectSpec.
Open Scope Z_scope.

(** ** The string store across an allocation *)
Section Kept.
Context (shard : nat).
Definition kept (st st' : StringStore) : Prop :=
  store_ok st → (shard < length (m_strShards st))%nat →
  store_ok st' ∧ length (m_strShards st') = length (m_strShards st) ∧ extends st st'.
Lemma kept_refl st : kept st st.
Proof. intros Hok Hsh. split_and!; [done..|apply extends_refl]. Qed.
Lemma kept_trans st1 st2 st3 : kept st1 st2 → kept st2 st3 → kept st1 st3.
Proof.
  intros H1 H2 Hok Hsh. destruct (H1 Hok Hsh) as (Hok2 & L2 & E2).
  destruct (H2 Hok2) as (Hok3 & L3 & E3); [lia|]. split_and!; [done|lia|by eapply extends_trans].
Qed.
Lemma kept_foldM {A} (f : heap → A → outcome heap) l h h' :
  (∀ h a h', a ∈ l → f h a = Ok h' → kept (strs h) (strs h')) → foldM f h l = Ok h' → kept (strs h) (strs h').
Proof.
  intros Hf. apply (foldM_ind (λ h', kept (strs h) (strs h'))); [|apply kept_refl].
  intros h1 a h2 Ha H1 H2. by eapply kept_trans, Hf.
Qed.
Lemma sync_over_kept h : kept (strs h) (strs (sync_over h)).
Proof. intros Hok Hsh. split_and!; [by apply store_ok_with_over|done|by apply same_objs_extends]. Qed.
Lemma note_kept h : kept (strs h) (strs (HNoteGcPressure h)).
Proof.
  apply (kept_trans _ (strs (sync_over h))); [apply sync_over_kept|].
  intros Hok Hsh. split_and!; [by apply store_ok_with_pressure|done|by apply same_objs_extends].
Qed.
Lemma TakeHeapSlot_kept h i h' : TakeHeapSlot h shard = Ok (i, h') → kept (strs h) (strs h').
Proof.
  unfold TakeHeapSlot. intros (e & _ & (h1 & H1 & ([j sh] & _ & [= _ <-])%bind_Ok)%bind_Ok)%bind_Ok. cbn.
  destruct e; [|injection H1 as <-; apply kept_refl]. unfold GrowHeapShardBlockLocked in H1.
  apply bind_Ok in H1 as (sh' & _ & [= <-]).
  exact (sync_over_kept (hwith_shards (hwith_slots h _ _ _) sh')).
Qed.
Lemma set_cell_strs h i c v h' : set_cell h i c v = Ok h' → strs h' = strs h.
Proof. unfold set_cell. intros H. monad_inv. case_decide; monad_inv; done. Qed.
Lemma set_cell_kept h i c v h' : set_cell h i c v = Ok h' → kept (strs h) (strs h').
Proof. intros ->%set_cell_strs. apply kept_refl. Qed.
Lemma put4_kept h i c v h' : put4 h i c v = Ok h' → kept (strs h) (strs h').
Proof. apply set_cell_kept. Qed.
Lemma put8_kept h i c v h' : put8 h i c v = Ok h' → kept (strs h) (strs h').
Proof. intros (h1 & H1 & H2)%bind_Ok. eapply kept_trans; by eapply set_cell_kept. Qed.
Lemma Mint_kept st s i st' : MintNewString st shard s = Ok (i, st') → kept st st'.
Proof.
  intros H Hok Hsh. destruct (MintNewString_aux st shard s Hok Hsh) as (? & ? & E & Hok' & He & _ & Hl & _).
  rewrite E in H. by simplify_eq.
Qed.
Lemma Materialize_kept md h d i c b h' : MaterializeDefaultValue md h shard d i c = Ok (b, h') → kept (strs h) (strs h').
Proof.
  unfold MaterializeDefaultValue. intros H.
  repeat (case_decide; [try (apply bind_Ok in H as (hput & Hput & [= _ <-]); first [by eapply put4_kept|by eapply put8_kept])|]); try done.
  - case_match; [|done]. apply bind_Ok in H as ([hh st] & Hm%Mint_kept & (hput & Hp%put4_kept & [= _ <-])%bind_Ok).
    by eapply kept_trans.
  - injection H as _ <-. apply kept_refl.
Qed.
Lemma AllocStruct_kept n md : ∀ h s i h', AllocStructOnHeap n md h shard s = Ok (i, h') → kept (strs h) (strs h').
Proof.
  induction n as [|n IH]; intros h s i h'; [done|]. cbn [AllocStructOnHeap]. destruct (structs md !!z s) as [cs|]; [|done].
  intros ([j h1] & H1%TakeHeapSlot_kept & (h2 & H2 & (h3 & H3 & [= _ <-])%bind_Ok)%bind_Ok)%bind_Ok.
  eapply kept_trans; [exact H1|]. apply kept_foldM in H2, H3; [by eapply kept_trans| |].
  - intros h4 a h5 _ (d & _ & H)%bind_Ok. case_decide; [injection H as <-; apply kept_refl|].
    apply bind_Ok in H as ([? ?] & H%Materialize_kept & [= <-]). done.
  - intros h4 a h5 _ ([x|] & _ & H)%bind_Ok; [|injection H as <-; apply kept_refl].
    apply bind_Ok in H as ([y h6] & Ha%IH & Hs%set_cell_kept). by eapply kept_trans.
Qed.
Lemma AllocClass_kept n md h c i h' : AllocClassOnHeap n md h shard c = Ok (i, h') → kept (strs h) (strs h').
Proof.
  unfold AllocClassOnHeap. destruct (layout md !!z c) as [fields|]; [|done].
  intros ([j h1] & H1%TakeHeapSlot_kept & (h2 & H2%set_cell_kept & (h3 & H3 & [= _ <-])%bind_Ok)%bind_Ok)%bind_Ok.
  eapply kept_trans; [exact H1|]. eapply kept_trans; [exact H2|]. eapply kept_foldM; [|exact H3].
  intros h4 a h5 _ (f & _ & H)%bind_Ok. destruct (nested_struct _ _); [|injection H as <-; apply kept_refl].
  apply bind_Ok in H as ([y h6] & Ha%AllocStruct_kept & Hs%set_cell_kept). by eapply kept_trans.
Qed.
Lemma kept_grows h h' : heap_ok h → (shard < length (m_heapShards h))%nat → heap_ok h' → hextends h h' →
  length (m_heapShards h') = length (m_heapShards h) → kept (strs h) (strs h') → grows h h'.
Proof.
  intros Hok Hsh Hok' Hext Hl Hk. destruct Hk as (_ & _ & He); [apply Hok|by rewrite (hk_same_shards h Hok)|]. by split.
Qed.
End Kept.

(** ** Structs and instances *)
Lemma AllocStruct_grows n md h shard s cs :
  tables_ok md → nests n md s → structs md !!z s = Some cs → heap_ok h → (shard < length (m_heapShards h))%nat →
  ∃ i h' r, AllocStructOnHeap n md h shard s = Ok (i, h') ∧ grows h h' ∧ ¬ hlive h i ∧ 0 < i
    ∧ kind_at h' i = Some RTK_Struct ∧ rec_at h' i = Some r ∧ length r = (2 * sFieldCount cs)%nat.
Proof.
  intros Hmd Hn Hcs Hok Hsh. destruct (AllocStruct_aux n md h shard s Hmd Hn Hok Hsh) as (i & h' & E & Hok' & Hext & Hl & Hv).
  destruct n; [done|]. destruct Hv as (cs' & r & Hcs' & Hd & Hk & _ & Hr & Hlen & _). rewrite Hcs in Hcs'. injection Hcs' as <-.
  exists i, h', r. split_and!; try done.
  - by apply (kept_grows shard), (AllocStruct_kept shard (S n) md h s i).
  - apply (hlive_pos h'); [done|]. by exists RTK_Struct.
Qed.
Lemma AllocClass_grows n md h shard c fields :
  tables_ok md → layout md !!z c = Some fields → (∀ j s, cfield fields j = Some s → nests n md s) →
  heap_ok h → (shard < length (m_heapShards h))%nat →
  ∃ i h' r, AllocClassOnHeap n md h shard c = Ok (i, h') ∧ grows h h' ∧ ¬ hlive h i ∧ 0 < i
    ∧ kind_at h' i = Some RTK_Class ∧ rec_at h' i = Some r ∧ length r = (1 + 2 * length fields)%nat ∧ r !! 0%nat = Some c.
Proof.
  intros Hmd Hl Hn Hok Hsh. destruct (AllocClass_aux n md h shard c fields Hmd Hl Hn Hok Hsh)
    as (i & h' & E & Hok' & Hext & Hs & r & Hd & Hk & Hr & Hlen & Hc & _).
  exists i, h', r. split_and!; try done.
  - by apply (kept_grows shard), (AllocClass_kept shard n md h c i).
  - apply (hlive_pos h'); [done|]. by exists RTK_Class.
Qed.

(** ** Arrays *)
(** [v] holds a record of the size of struct type [s]. *)
Definition struct_slot (md : tables) (h : heap) (s v : Z) : Prop :=
  0 < v ∧ kind_at h v = Some RTK_Struct
  ∧ ∃ cs r, structs md !!z s = Some cs ∧ rec_at h v = Some r ∧ length r = (2 * sFieldCount cs)%nat.
Lemma struct_slot_live md h s v : struct_slot md h s v → hlive h v.
Proof. intros (_ & Hk & _). by exists RTK_Struct. Qed.
Lemma struct_slot_same md h h' s v : hsame h h' v → struct_slot md h s v → struct_slot md h' s v.
Proof. intros (E1 & E2 & _) (H1 & H2 & H3). split; [done|]. by rewrite E1, E2. Qed.

Lemma write_cells_kept shard i vs : ∀ h c h', write_cells h i c vs = Ok h' → kept shard (strs h) (strs h').
Proof.
  induction vs as [|v vs IH]; intros h c h'; cbn [write_cells]; [intros [= <-]; apply kept_refl|].
  intros (h1 & H1%(set_cell_kept shard) & H2%IH)%bind_Ok. by eapply kept_trans.
Qed.

(** The elements of a new array of structs, put in place one by one. *)
Record elems_built (md : tables) (h0 : heap) (i s : Z) (head : list Z) (size : nat) (k : nat) (h : heap) : Prop := {
  eb_grows : grows h0 h;
  eb_kind : kind_at h i = Some RTK_Array;
  eb_elems : ∃ vs, length vs = k ∧ rec_at h i = Some (head ++ vs ++ replicate (size - k) 0)
    ∧ NoDup vs ∧ ¬ (i ∈ vs) ∧ Forall (λ v, struct_slot md h s v ∧ ¬ hlive h0 v) vs
}.
Lemma elems_built_step fuel md shard h0 i s cs head size k h :
  tables_ok md → nests fuel md s → structs md !!z s = Some cs → (shard < length (m_heapShards h0))%nat → ¬ hlive h0 i →
  (k < size)%nat → elems_built md h0 i s head size k h →
  ∃ v h1 h2, AllocStructOnHeap fuel md h shard s = Ok (v, h1) ∧ set_cell h1 i (length head + k) v = Ok h2
    ∧ elems_built md h0 i s head size (S k) h2.
Proof.
  intros Hmd Hn Hcs Hsh Hi Hk [G K (vs & Hl & R & Hnd & Hni & Hvs)].
  destruct (AllocStruct_grows fuel md h shard s cs Hmd Hn Hcs) as (v & h1 & r & E1 & G1 & Hd & Hv & Kv & Rv & Lv);
    [apply G|by rewrite (gr_shards _ _ G)|].
  destruct (gr_ext _ _ G1 i) as (R1 & K1 & _); [by exists RTK_Array|]. rewrite R in R1. rewrite K in K1.
  destruct (set_cell_grows h0 h1 i _ (length head + k) v (grows_trans _ _ _ G G1) Hi R1) as (h2 & E2 & G2 & R2 & K2 & _ & Hs).
  { rewrite !length_app, length_replicate. lia. }
  assert (∀ x, x ≠ i → hsame h1 h2 x) as Hs' by done.
  assert (v ≠ i) as Hvi by (intros ->; rewrite K1 in Kv; discriminate).
  assert (∀ x, x ∈ vs → hlive h x) as Hlive.
  { intros x Hx. rewrite list.Forall_forall in Hvs. by eapply struct_slot_live, Hvs. }
  exists v, h1, h2. split; [done|]. split; [done|]. split; [done|by rewrite K2, K1|]. exists (vs ++ [v]). split_and!.
  - rewrite length_app. simpl. lia.
  - rewrite R2. f_equal. rewrite insert_app_r_alt, insert_app_r_alt by lia. f_equal. rewrite <- app_assoc. f_equal.
    replace (length head + k - length head - length vs)%nat with 0%nat by lia.
    by replace (size - k)%nat with (S (size - S k)) by lia.
  - apply list.NoDup_app. split_and!; [done| |apply NoDup_singleton].
    intros x Hx ->%list_elem_of_singleton. by apply Hd, Hlive.
  - rewrite elem_of_app, list_elem_of_singleton. intros [?|?]; congruence.
  - apply list.Forall_app. split.
    + apply list.Forall_forall. intros x Hx. rewrite list.Forall_forall in Hvs. destruct (Hvs x Hx) as [Hx1 Hx2]. split; [|done].
      eapply struct_slot_same; [|exact Hx1]. eapply hsame_trans; [apply (gr_ext _ _ G1 x), Hlive, Hx|]. apply Hs'. by intros ->.
    + apply list.Forall_singleton. split.
      * eapply struct_slot_same; [by apply Hs'|]. split; [done|]. split; [done|]. by exists cs, r.
      * intros Hv0. by apply Hd, (hextends_live h0 h), Hv0; apply G.
Qed.
Lemma AllocArray_grows fuel md h shard t at_ dims size :
  heap_ok h → (shard < length (m_heapShards h))%nat → arrayTypes md !!z t = Some at_ →
  Z.of_nat (length dims) ≤ kMaxArrayRank → ValidateArrayDims dims = Ok size →
  (elemKind at_ = RTK_Struct → elemTypeIdx at_ ≠ 65535 →
     tables_ok md ∧ nests fuel md (elemTypeIdx at_) ∧ is_Some (structs md !!z elemTypeIdx at_)) →
  ∃ i h' payload, AllocArrayOnHeap fuel md h shard t dims = Ok (i, h') ∧ grows h h' ∧ ¬ hlive h i ∧ 0 < i
    ∧ kind_at h' i = Some RTK_Array ∧ rec_at h' i = Some (array_record t dims payload)
    ∧ length payload = Z.to_nat (size * ArrayElemCells (elemKind at_))
    ∧ (elemKind at_ = RTK_Struct → elemTypeIdx at_ ≠ 65535 →
       NoDup payload ∧ ¬ (i ∈ payload) ∧ Forall (λ v, struct_slot md h' (elemTypeIdx at_) v ∧ ¬ hlive h v) payload).
Proof.
  intros Hok Hsh Hat Hr Hv Hs. destruct (AllocArray_head h shard t at_ dims size Hok Hsh Hr Hv) as (i & h1 & h2 & h3 & E1 & E2 & E3 & F).
  cbn zeta in *. set (cells := ArrayElemCells (elemKind at_)) in *. set (zeros := replicate _ 0) in F.
  assert (grows h h3) as G.
  { apply (kept_grows shard); [done|done|apply F|apply F|apply F|].
    eapply kept_trans; [apply note_kept|]. eapply kept_trans; [by eapply TakeHeapSlot_kept|].
    eapply kept_trans; [exact (write_cells_kept shard _ _ _ _ _ E2)|by eapply write_cells_kept]. }
  destruct F as [F1 F2 F3 F4 F5 F6 F7].
  unfold AllocArrayOnHeap. cbn zeta. rewrite Hat, Hv, bindE, E1, bindE. fold cells. rewrite E2, bindE, E3, bindE.
  case_decide as Hst.
  2: { rewrite bindE. exists i, h3, zeros. split_and!; try done; [apply length_replicate|by intros ? ?; destruct Hst]. }
  destruct Hst as [Hk Ht]. destruct (Hs Hk Ht) as (Hmd & Hn & [cs Hcs]).
  pose proof (header_cells (length dims)) as [Hh Hh4].
  set (head := [RTK_Array; t; Z.of_nat (length dims); product dims] ++ dims ++ replicate (HeaderCells (length dims) - (4 + length dims)) 0).
  assert (∀ p, array_record t dims p = head ++ p) as Hrec by (intros p; unfold array_record, head; by rewrite <- !app_assoc).
  assert (length head = HeaderCells (length dims)) as Hl by (unfold head; rewrite !length_app, length_replicate; simpl; lia).
  assert (cells = 1) as Hcells by (unfold cells, ArrayElemCells; by rewrite Hk).
  assert (0 ≤ size) as Hsz. { destruct (ValidateArrayDims_cases dims) as [(z & E & _ & [? _] & _)|[E _]]; rewrite E in Hv; [by injection Hv as <-|done]. }
  destruct (foldM_seq_inv (λ h k, '(elemIdx, h) ← AllocStructOnHeap fuel md h shard (elemTypeIdx at_);
      set_cell h i (Z.to_nat (ArrayHeaderCells (Z.of_nat (length dims)) + Z.of_nat k * cells)) elemIdx)
    (elems_built md h i (elemTypeIdx at_) head (Z.to_nat size)) (Z.to_nat size) 0 h3) as (h4 & -> & [B1 B2 (vs & L & R & Hnd & Hni & Hvs)]).
  - split; [done|done|]. exists []. split_and!; [done| |apply NoDup_nil_2|apply not_elem_of_nil|apply list.Forall_nil_2].
    rewrite F2, Hrec, app_nil_l. unfold zeros. rewrite Hcells. do 3 f_equal. lia.
  - intros k hk Hkr HB.
    destruct (elems_built_step fuel md shard h i _ cs head (Z.to_nat size) k hk Hmd Hn Hcs Hsh F5 ltac:(lia) HB) as (v & ha & hb & Ea & Eb & HB').
    rewrite Ea, bindE. exists hb. split; [|done]. rewrite <- Eb. f_equal. rewrite Hl. lia.
  - rewrite bindE. exists i, h4, vs. rewrite Nat.sub_diag, app_nil_r in R. split_and!; try done.
    + by rewrite Hrec.
    + rewrite L, Hcells. lia.
Qed.
