(* ===== verification/ContainerSpec.v ===== *)
(** * Containers: what List and Dict promise

    A value of a container is read as a [key]: the content of a boxed string, the payload
    of a boxed scalar, or the identity of anything else.  A dictionary is a finite map
    over keys that remembers insertion order; a list is a sequence.  No two instances
    share a side slot, across allocation and recycling. *)
From S2P Require Import Prelude.
From S2P Require Import Bytecode Package Prims TypeDesc Shards Strings StringOps Layout Heap HeapGC HeapSweep Arrays ArraySlice Frames.
From S2P Require Import SchedState Sched SchedSpec SyncPrims StaticInit Objects Exec ExecTypes ObjectSpec Containers.
Open Scope Z_scope.

(** ** Keys *)
Inductive key :=
  | KStr (s : bytes)
  | KPrim (tag lo hi : Z)
  | KRef (v : Z).
#[export] Instance key_eq_dec : EqDecision key.
Proof. solve_decision. Defined.
#[export] Instance key_countable : Countable key.
Proof.
  apply (inj_countable'
    (λ k, match k with KStr s => inl (inl s) | KPrim t a b => inl (inr (t, a, b)) | KRef v => inr v end)
    (λ x, match x with inl (inl s) => KStr s | inl (inr (t, a, b)) => KPrim t a b | inr v => KRef v end)).
  by intros [].
Defined.

(** What a heap index is as a key.  Only boxes of scalars and strings are values, and a
    scalar is its bits, as the code compares it: a boxed NaN is a key like any other, where
    section 12.1 of the specification says that NaN is not equal to itself (see
    [nan_found_by_bits]). *)
Definition key_at (fuel : nat) (h : heap) (v : Z) : outcome key :=
  match (if is_boxed h v then rec_at h v else None) with
  | None => Ok (KRef v)
  | Some r =>
      tag ← deref (r !! 0%nat);
      if decide (tag = RTK_String) then
        c ← deref (r !! 1%nat); s ← StrValCopy fuel (strs h) c; Ok (KStr s)
      else match ScalarPrimIndexOfRtk (u8 tag) with
           | None => Ok (KRef v)
           | Some (_, row) =>
               lo ← deref (r !! 1%nat);
               if decide (slotWidth row < 8)%nat then Ok (KPrim tag lo 0)
               else hi ← deref (r !! 2%nat); Ok (KPrim tag lo hi)
           end
  end.
(** A box of a kind that has no value equality matches nothing in a list. *)
Definition comparable (fuel : nat) (h : heap) (v : Z) : Prop :=
  is_boxed h v = true → key_at fuel h v ≠ Ok (KRef v).

Section Keys.
Context (fuel : nat) (h : heap).
Lemma is_boxed_kind v : is_boxed h v = true ↔ 0 < v ∧ kind_at h v = Some RTK_Boxed.
Proof. unfold is_boxed. by rewrite andb_true_iff, !bool_decide_eq_true. Qed.
(** The key of something that is not a box of a value is its identity. *)
Lemma key_at_ref v K : is_boxed h v = false → key_at fuel h v = Ok K → K = KRef v.
Proof. intros E. unfold key_at. rewrite E. by intros [= <-]. Qed.
Lemma key_at_KRef v u : key_at fuel h v = Ok (KRef u) → u = v.
Proof.
  unfold key_at. destruct (if is_boxed h v then rec_at h v else None) as [r|]; [|by intros [= ->]].
  intros (tag & _ & H)%bind_Ok. case_decide; [by apply bind_Ok in H as (? & _ & (? & _ & [=])%bind_Ok)|].
  destruct (ScalarPrimIndexOfRtk (u8 tag)) as [[i row]|]; [|by injection H].
  apply bind_Ok in H as (lo & _ & H). case_decide; [done|]. by apply bind_Ok in H as (? & _ & [=]).
Qed.

(** The four readings of a box. *)
Inductive boxed_as (r : list Z) (v : Z) : key → Prop :=
  | as_string c s : r !! 0%nat = Some RTK_String → r !! 1%nat = Some c → StrValCopy fuel (strs h) c = Ok s →
      boxed_as r v (KStr s)
  | as_narrow tag i row lo : r !! 0%nat = Some tag → tag ≠ RTK_String →
      ScalarPrimIndexOfRtk (u8 tag) = Some (i, row) → r !! 1%nat = Some lo → (slotWidth row < 8)%nat →
      boxed_as r v (KPrim tag lo 0)
  | as_wide tag i row lo hi : r !! 0%nat = Some tag → tag ≠ RTK_String →
      ScalarPrimIndexOfRtk (u8 tag) = Some (i, row) → r !! 1%nat = Some lo → ¬ (slotWidth row < 8)%nat →
      r !! 2%nat = Some hi → boxed_as r v (KPrim tag lo hi)
  | as_other tag : r !! 0%nat = Some tag → tag ≠ RTK_String → ScalarPrimIndexOfRtk (u8 tag) = None →
      boxed_as r v (KRef v).
Lemma key_at_boxed v K : is_boxed h v = true → key_at fuel h v = Ok K →
  (rec_at h v = None ∧ K = KRef v) ∨ ∃ r, rec_at h v = Some r ∧ boxed_as r v K.
Proof.
  unfold key_at. intros ->. destruct (rec_at h v) as [r|]; [|intros [= <-]; by left].
  intros (tag & Ht%deref_Ok & H)%bind_Ok. right. exists r. split; [done|].
  case_decide as Hs.
  - subst tag. apply bind_Ok in H as (c & Hc%deref_Ok & (s & Hs & [= <-])%bind_Ok). by eapply as_string.
  - destruct (ScalarPrimIndexOfRtk (u8 tag)) as [[i row]|] eqn:Hrow; [|injection H as <-; by eapply as_other].
    apply bind_Ok in H as (lo & Hlo%deref_Ok & H). case_decide.
    + injection H as <-. by eapply as_narrow.
    + apply bind_Ok in H as (hi & Hhi%deref_Ok & [= <-]). by eapply as_wide.
Qed.
Lemma boxed_as_tag r v K : boxed_as r v K → ∃ tag, r !! 0%nat = Some tag.
Proof. destruct 1; by eexists. Qed.

Lemma BoxedValuesEqual_records a b ra rb ka kb : 0 < a → 0 < b → (a = b → ka ≠ KRef a) →
  rec_at h a = Some ra → rec_at h b = Some rb → boxed_as ra a ka → boxed_as rb b kb →
  BoxedValuesEqual fuel h a b = Ok (bool_decide (ka = kb)).
Proof.
  intros Pa Pb Hab Ra Rb Ka Kb. unfold BoxedValuesEqual. rewrite decide_False, Ra, Rb by lia.
  destruct (boxed_as_tag _ _ _ Ka) as [ta Ta], (boxed_as_tag _ _ _ Kb) as [tb Tb].
  rewrite Ta, Tb, !derefE, !bindE. destruct (decide (ta ≠ tb)) as [Hn|Ht%dec_stable].
  { rewrite bool_decide_eq_false_2; [done|]. intros ->. destruct Ka; inversion Kb; simplify_eq; congruence. }
  subst tb. destruct Ka, Kb; simplify_eq; try tauto; rewrite ?decide_True, ?decide_False by done.
  all: unfold kBoxedValueSlot; repeat match goal with
    | H : ?r !! ?n = Some _ |- context [deref (?r !! ?n)] => rewrite H, derefE, bindE
    | H : StrValCopy _ _ _ = Ok _ |- _ => rewrite H, bindE; clear H
    | H : ScalarPrimIndexOfRtk ?t = _ |- context [ScalarPrimIndexOfRtk ?t] => rewrite H
    end.
  - f_equal. apply bool_decide_ext. naive_solver.
  - case_decide as Hv; [by rewrite bool_decide_eq_false_2 by congruence|]. rewrite decide_True by done.
    by rewrite bool_decide_eq_true_2 by congruence.
  - case_decide as Hv; [by rewrite bool_decide_eq_false_2 by congruence|]. rewrite decide_False by done.
    repeat match goal with H : ?r !! 2%nat = Some _ |- _ => rewrite H, derefE, bindE; clear H end.
    subst. f_equal. apply bool_decide_ext. naive_solver.
  - rewrite bool_decide_eq_false_2; [done|]. intros [= ->]. by apply Hab.
Qed.
(** Equality of boxes is equality of keys, but a box without a value equals nothing. *)
Lemma BoxedValuesEqual_spec a b ka kb : is_boxed h a = true → is_boxed h b = true → (a = b → ka ≠ KRef a) →
  key_at fuel h a = Ok ka → key_at fuel h b = Ok kb → BoxedValuesEqual fuel h a b = Ok (bool_decide (ka = kb)).
Proof.
  intros Ba Bb Hab Ha Hb. pose proof Ba as [Pa _]%is_boxed_kind. pose proof Bb as [Pb _]%is_boxed_kind.
  destruct (key_at_boxed a ka Ba Ha) as [[Ra ->]|(ra & Ra & Ka)], (key_at_boxed b kb Bb Hb) as [[Rb ->]|(rb & Rb & Kb)].
  4: by eapply BoxedValuesEqual_records.
  all: unfold BoxedValuesEqual; rewrite decide_False by lia; rewrite ?Ra, ?Rb; rewrite bool_decide_eq_false_2; [done|].
  - intros [= ->]. by apply Hab.
  - intros <-. pose proof (key_at_KRef _ _ Hb) as ->. by apply Hab.
  - intros ->. pose proof (key_at_KRef _ _ Ha) as ->. by apply Hab.
Qed.
Lemma DictKeysEqual_spec a b ka kb : key_at fuel h a = Ok ka → key_at fuel h b = Ok kb →
  DictKeysEqual fuel h a b = Ok (bool_decide (ka = kb)).
Proof.
  intros Ha Hb. unfold DictKeysEqual. case_decide as Hab.
  { subst. rewrite Ha in Hb. injection Hb as <-. by rewrite bool_decide_eq_true_2. }
  assert (is_boxed h a = false ∨ is_boxed h b = false → bool_decide (ka = kb) = false) as Href.
  { intros Hor. apply bool_decide_eq_false_2. intros <-. apply Hab. destruct Hor as [E|E].
    - pose proof (key_at_ref _ _ E Ha) as ->. by apply key_at_KRef in Hb.
    - pose proof (key_at_ref _ _ E Hb) as ->. by apply key_at_KRef in Ha. }
  assert (∀ v, is_boxed h v = false ↔ v ≤ 0 ∨ kind_at h v ≠ Some RTK_Boxed) as Hnb.
  { intros v. rewrite <- not_true_iff_false, is_boxed_kind. split.
    - intros H. destruct (decide (v ≤ 0)); [by left|right]. intros Hk. apply H. split; [lia|done].
    - intros [?|?] [? ?]; [lia|done]. }
  destruct (decide (a ≤ 0 ∨ b ≤ 0)) as [Hp|Hp]; [rewrite Href; [done|rewrite !Hnb; tauto]|].
  destruct (kind_at h a) as [k1|] eqn:K1; [|rewrite Href; [done|left; apply Hnb; right; congruence]].
  destruct (kind_at h b) as [k2|] eqn:K2; [|rewrite Href; [done|right; apply Hnb; right; congruence]].
  destruct (decide (k1 = RTK_Boxed)) as [->|Hk1].
  - destruct (decide (RTK_Boxed ≠ k2)) as [Hk|<-%dec_stable].
    + rewrite Href; [done|]. right. apply Hnb. right. congruence.
    + rewrite decide_False by naive_solver. rewrite decide_False by (unfold RTK_Boxed, RTK_Class, RTK_Struct; lia).
      apply BoxedValuesEqual_spec; try done; apply is_boxed_kind; (split; [lia|done]).
  - rewrite Href by (left; apply Hnb; right; congruence).
    destruct (decide (k1 ≠ k2)); [done|].
    destruct (decide (k1 ≠ RTK_Boxed ∧ k1 ≠ RTK_Class ∧ k1 ≠ RTK_Struct)); [done|].
    rewrite decide_True by (destruct (decide (k1 = RTK_Class)), (decide (k1 = RTK_Struct)); tauto).
    by rewrite bool_decide_eq_false_2.
Qed.
Lemma element_matches_spec v a kv ka : comparable fuel h v → key_at fuel h v = Ok kv → key_at fuel h a = Ok ka →
  element_matches fuel h v a = Ok (bool_decide (ka = kv)).
Proof.
  intros Hc Hv Ha. unfold element_matches. destruct (is_boxed h v) eqn:Bv.
  - destruct (is_boxed h a) eqn:Ba.
    + apply BoxedValuesEqual_spec; try done. intros -> ->. by apply Hc.
    + pose proof (key_at_ref _ _ Ba Ha) as ->. rewrite bool_decide_eq_false_2; [done|].
      intros <-. pose proof (key_at_KRef _ _ Hv) as ->. congruence.
  - pose proof (key_at_ref _ _ Bv Hv) as ->. f_equal. apply bool_decide_ext. split; [intros ->; congruence|].
    intros ->. by apply key_at_KRef in Ha.
Qed.

(** A search by keys finds the first position of the key. *)
Definition key_index (K : key) (ks : list key) : option nat := fst <$> list_find (K =.) ks.
Lemma key_index_cons K k ks :
  key_index K (k :: ks) = if decide (K = k) then Some 0%nat else S <$> key_index K ks.
Proof.
  unfold key_index. cbn [list_find]. destruct (decide (K = k)); [done|]. rewrite <- !option_fmap_compose.
  by apply option_fmap_ext.
Qed.
Lemma find_first_keys {A} (test : A → outcome bool) K l ks : ∀ i,
  Forall2 (λ a k, test a = Ok (bool_decide (k = K))) l ks →
  find_first test l i = Ok (n ← key_index K ks; a ← l !! n; Some ((i + n)%nat, a)).
Proof.
  intros i H. revert i. induction H as [|a k l ks Ht _ IH]; intros i; [done|]. cbn [find_first].
  rewrite Ht, bindE, key_index_cons. destruct (decide (K = k)) as [->|Hn].
  - rewrite bool_decide_eq_true_2 by done. simpl. by rewrite Nat.add_0_r.
  - rewrite bool_decide_eq_false_2, IH by congruence. destruct (key_index K ks) as [n|]; [|done]. simpl.
    destruct (l !! n); [|done]. simpl. by rewrite Nat.add_succ_r.
Qed.
Lemma key_index_Some K ks n : key_index K ks = Some n → ks !! n = Some K.
Proof. unfold key_index. intros ([j k] & Hf & E)%fmap_Some. apply list_find_Some in Hf as (Hk & <- & _). by subst n. Qed.
Lemma key_index_None K ks : key_index K ks = None ↔ K ∉ ks.
Proof.
  unfold key_index. rewrite fmap_None, list_find_None, list.Forall_forall. split; [|by intros H x Hx ->].
  intros H Hin. by apply (H K).
Qed.
Lemma keys_lookup {A} (kf : A → outcome key) l ks n : Forall2 (λ a k, kf a = Ok k) l ks →
  is_Some (ks !! n) → is_Some (l !! n).
Proof. intros H. rewrite !lookup_lt_is_Some. by rewrite (Forall2_length H). Qed.
Lemma FindListElement_spec l ks v K : Z.of_nat (length l) ≤ INT32_MAX + 1 →
  Forall2 (λ a k, key_at fuel h a = Ok k) l ks → comparable fuel h v → key_at fuel h v = Ok K →
  FindListElement fuel h l v = Ok (from_option Z.of_nat (-1) (key_index K ks)).
Proof.
  intros Hlen Hks Hc HK. unfold FindListElement. rewrite (find_first_keys _ K l ks).
  - rewrite bindE. destruct (key_index K ks) as [n|] eqn:E; [|done]. simpl.
    destruct (keys_lookup _ l ks n Hks) as [a Ha]; [by apply key_index_Some in E as ->|]. rewrite Ha. simpl.
    apply lookup_lt_Some in Ha. f_equal. apply swrap_small; [lia|]. unfold is_sint, INT32_MAX in *. lia.
  - eapply list.Forall2_impl; [exact Hks|]. intros a k Ha. by apply element_matches_spec.
Qed.
End Keys.

(** ** Calls on an instance *)
Definition staged (locals : bytes) (cpb : Z) (vs : list Z) : Prop := ∀ n v, vs !! n = Some v → arg locals cpb n = Ok v.
(** The instance [this] has the side slot [handle]. *)
Definition instance (h : heap) (this handle : Z) : Prop :=
  0 < this ∧ 0 < handle ∧ ∃ r, rec_at h this = Some r ∧ r !! 1%nat = Some handle.
Definition list_at (x : conts) (this handle : Z) (l : list Z) : Prop :=
  instance x.1 this handle ∧ m_listStore x.2 !!z (handle - 1) = Some l.
Definition dict_at (x : conts) (this handle : Z) (l : list (Z * Z)) : Prop :=
  instance x.1 this handle ∧ m_dictStore x.2 !!z (handle - 1) = Some l.
(** The four low bytes of the result cell hold [v]; the others are kept. *)
Definition returned (p p' : bytes) (r : option Z) : Prop :=
  match r with
  | None => p' = p
  | Some v => ld32 p' 0 = Ok (i32 v) ∧ drop 4 p' = drop 4 p ∧ length p' = length p
  end.

Lemma st32_returned p v : (4 ≤ length p)%nat → ∃ p', st32 p 0 v = Ok p' ∧ returned p p' (Some v).
Proof.
  intros Hp. destruct (store 4 p 0 v) as [p'|] eqn:E.
  2:{ unfold store in E. by rewrite decide_True in E by lia. }
  exists p'. split; [done|]. pose proof (load_store_same _ _ _ _ _ E) as Hl. split_and!.
  - unfold ld32. change (Z.to_nat 0) with 0%nat. rewrite Hl, bindE. f_equal. apply (swrap_wrap 32).
  - unfold store in E. case_decide; [|done]. injection E as <-. simpl. by rewrite !drop_0.
  - by eapply store_length.
Qed.
Lemma ReadHandle_ok family name h this handle cpb locals vs : instance h this handle →
  staged locals cpb (this :: vs) → ReadHandle family name h cpb locals = Ok handle.
Proof.
  intros (Ht & Hh & r & Hr & Hc) Hs. unfold ReadHandle. pose proof (Hs 0%nat this eq_refl) as H0. unfold arg in H0.
  replace (cpb + Z.of_nat (0 * kFrameSlotBytes)) with cpb in H0 by lia.
  rewrite H0, bindE, decide_False, Hr by lia. unfold kListHandleFieldOffset. rewrite Hc, derefE, bindE.
  by rewrite decide_False by lia.
Qed.
Lemma put_elements_id t handle l : m_listStore t !!z (handle - 1) = Some l → put_elements t handle l = t.
Proof.
  unfold zlookup. case_decide; [|done]. intros Hl. unfold put_elements. rewrite list_insert_id by done. by destruct t.
Qed.
Lemma put_entries_id t handle l : m_dictStore t !!z (handle - 1) = Some l → put_entries t handle l = t.
Proof.
  unfold zlookup. case_decide; [|done]. intros Hl. unfold put_entries. rewrite list_insert_id by done. by destruct t.
Qed.
Lemma list_at_put h t this handle l l' : list_at (h, t) this handle l → list_at (h, put_elements t handle l') this handle l'.
Proof.
  intros [Hi H]. split; [done|]. apply ObjectSpec.zlookup_insert. by eapply zlookup_Some_lt.
Qed.
Lemma dict_at_put h t this handle l l' : dict_at (h, t) this handle l → dict_at (h, put_entries t handle l') this handle l'.
Proof.
  intros [Hi H]. split; [done|]. apply ObjectSpec.zlookup_insert. by eapply zlookup_Some_lt.
Qed.

(** ** Lists are sequences *)
Inductive list_op :=
  | LAdd (v : Z) | LGet (i : Z) | LSet (i v : Z) | LLength | LRemoveAt (i : Z)
  | LIndexOf (v : Z) | LContains (v : Z) | LClear.
Definition list_id (op : list_op) : Z :=
  match op with
  | LAdd _ => INTR_List_Add | LGet _ => INTR_List_Get | LSet _ _ => INTR_List_Set | LLength => INTR_List_Length
  | LRemoveAt _ => INTR_List_RemoveAt | LIndexOf _ => INTR_List_IndexOf | LContains _ => INTR_List_Contains
  | LClear => INTR_List_Clear
  end.
Definition list_args (op : list_op) : list Z :=
  match op with
  | LAdd v | LIndexOf v | LContains v => [v]
  | LGet i | LRemoveAt i => [i]
  | LSet i v => [i; v]
  | LLength | LClear => []
  end.
(** The sequence after the call and its value; [None] is the index error.  [pos] is the
    first position of an equal element. *)
Definition list_step (pos : Z → option nat) (l : list Z) (op : list_op) : option (list Z * option Z) :=
  match op with
  | LAdd v => Some (l ++ [v], None)
  | LGet i => v ← l !!z i; Some (l, Some v)
  | LSet i v => _ ← l !!z i; Some (<[Z.to_nat i := v]> l, None)
  | LLength => Some (l, Some (Z.of_nat (length l)))
  | LRemoveAt i => _ ← l !!z i; Some (delete (Z.to_nat i) l, None)
  | LIndexOf v => Some (l, Some (from_option Z.of_nat (-1) (pos v)))
  | LContains v => Some (l, Some (if decide (is_Some (pos v)) then 1 else 0))
  | LClear => Some ([], None)
  end.
(** [pos] finds by key. *)
Definition finds (fuel : nat) (h : heap) (l : list Z) (pos : Z → option nat) (v : Z) : Prop :=
  comparable fuel h v ∧ ∃ K ks, key_at fuel h v = Ok K ∧ Forall2 (λ a k, key_at fuel h a = Ok k) l ks
    ∧ pos v = key_index K ks.

Section Calls.
Context (fuel shard : nat) (md : tables) (m_listClassIdx m_dictClassIdx : Z).
Abbreviation call := (ExecuteIntrinsicContainerStructural fuel shard md m_listClassIdx m_dictClassIdx).

End Calls.

(** ** Dictionaries are finite maps *)
(** The entries show the map [m], the keys in the order [order]. *)
Record dict_view (fuel : nat) (h : heap) (entries : list (Z * Z)) (order : list key) (m : gmap key Z) : Prop := {
  dv_entries : Forall2 (λ e K, key_at fuel h e.1 = Ok K ∧ m !! K = Some e.2) entries order;
  dv_nodup : NoDup order;
  dv_dom : ∀ K, is_Some (m !! K) → K ∈ order
}.
Inductive dict_op := DSet (k v : Z) | DGet (k : Z) | DContainsKey (k : Z) | DRemove (k : Z) | DClear | DCount.
Definition dict_id (op : dict_op) : Z :=
  match op with
  | DSet _ _ => INTR_Dict_Set | DGet _ => INTR_Dict_Get | DContainsKey _ => INTR_Dict_ContainsKey
  | DRemove _ => INTR_Dict_Remove | DClear => INTR_Dict_Clear | DCount => INTR_Dict_Count
  end.
Definition dict_args (op : dict_op) : list Z :=
  match op with
  | DSet k v => [k; v]
  | DGet k | DContainsKey k | DRemove k => [k]
  | DClear | DCount => []
  end.
(** The map after the call and its value; [None] is the missing key.  [kf] is the key of
    a heap index. *)
Definition dict_step (kf : Z → key) (order : list key) (m : gmap key Z) (op : dict_op)
    : option (list key * gmap key Z * option Z) :=
  match op with
  | DSet k v => Some (if decide (kf k ∈ order) then order else order ++ [kf k], <[kf k := v]> m, None)
  | DGet k => v ← m !! kf k; Some (order, m, Some v)
  | DContainsKey k => Some (order, m, Some (if decide (kf k ∈ order) then 1 else 0))
  | DRemove k => Some (filter (kf k ≠.) order, delete (kf k) m, Some (if decide (kf k ∈ order) then 1 else 0))
  | DClear => Some ([], ∅, None)
  | DCount => Some (order, m, Some (Z.of_nat (size m)))
  end.

Section Views.
Context (fuel : nat) (h : heap).
(** The search for a key finds its entry, or the key is not in the map. *)
Lemma dict_view_find entries order m k K : dict_view fuel h entries order m → key_at fuel h k = Ok K →
  (∃ n e, find_key fuel h entries k = Ok (Some (n, e)) ∧ entries !! n = Some e ∧ order !! n = Some K
     ∧ m !! K = Some e.2 ∧ K ∈ order)
  ∨ (find_key fuel h entries k = Ok None ∧ (K ∉ order) ∧ m !! K = None).
Proof.
  intros Hv HK. unfold find_key. rewrite (find_first_keys _ K entries order).
  2:{ eapply list.Forall2_impl; [apply Hv|]. intros e K' [He _]. by apply DictKeysEqual_spec. }
  destruct (key_index K order) as [n|] eqn:E; [left|right].
  - apply key_index_Some in E. destruct (Forall2_lookup_r _ _ _ _ _ (dv_entries _ _ _ _ _ Hv) E) as (e & He & _ & Hm).
    exists n, e. cbn. rewrite He. split_and!; try done. by eapply list_elem_of_lookup_2.
  - apply key_index_None in E. split_and!; [done..|]. apply eq_None_not_Some. intros HK'. by apply E, (dv_dom _ _ _ _ _ Hv).
Qed.
Lemma dict_view_size entries order m : dict_view fuel h entries order m → size m = length order.
Proof.
  intros [He Hn Hd]. rewrite <- size_dom. rewrite <- (size_list_to_set (C := gset key) order Hn). f_equal.
  apply set_eq. intros K. rewrite elem_of_dom, elem_of_list_to_set. split; [apply Hd|].
  intros [n Hk]%list_elem_of_lookup. destruct (Forall2_lookup_r _ _ _ _ _ He Hk) as (e & _ & _ & ->). by eexists.
Qed.
Lemma dict_view_new entries order m k v K : dict_view fuel h entries order m → key_at fuel h k = Ok K → K ∉ order →
  dict_view fuel h (entries ++ [(k, v)]) (order ++ [K]) (<[K := v]> m).
Proof.
  intros [He Hn Hd] HK Hni. split.
  - apply Forall2_app; [|repeat constructor; simpl; [done|by rewrite lookup_insert_eq]].
    apply Forall2_same_length_lookup. split; [by apply Forall2_length in He|].
    intros n e K' Hen HKn. destruct (Forall2_lookup_lr _ _ _ _ _ _ He Hen HKn) as [H1 H2]. split; [done|].
    rewrite lookup_insert_ne; [done|]. intros ->. apply Hni. by eapply list_elem_of_lookup_2.
  - apply list.NoDup_app. split_and!; [done| |apply list.NoDup_singleton]. intros K' HK' ->%list_elem_of_singleton. done.
  - intros K' HK'. rewrite elem_of_app, list_elem_of_singleton. destruct (decide (K' = K)) as [->|]; [by right|left].
    apply Hd. by rewrite lookup_insert_ne in HK'.
Qed.
Lemma dict_view_set entries order m K n e v : dict_view fuel h entries order m → entries !! n = Some e →
  order !! n = Some K → dict_view fuel h (<[n := (e.1, v)]> entries) order (<[K := v]> m).
Proof.
  intros [He Hn Hd] Hen HKn. split; [|done|].
  - apply Forall2_same_length_lookup. rewrite length_insert. split; [by apply Forall2_length in He|].
    intros j e' K' Hej HKj. destruct (decide (j = n)) as [->|Hj].
    + rewrite list_lookup_insert_eq in Hej by by eapply lookup_lt_Some. simplify_eq.
      destruct (Forall2_lookup_lr _ _ _ _ _ _ He Hen HKn) as [H1 H2]. split; [done|]. by rewrite lookup_insert_eq.
    + rewrite list_lookup_insert_ne in Hej by done.
      destruct (Forall2_lookup_lr _ _ _ _ _ _ He Hej HKj) as [H1 H2]. split; [done|].
      rewrite lookup_insert_ne; [done|]. intros ->. apply Hj. by eapply list.NoDup_lookup.
  - intros K' HK'. destruct (decide (K' = K)) as [->|]; [by eapply list_elem_of_lookup_2|].
    apply Hd. by rewrite lookup_insert_ne in HK'.
Qed.
Lemma filter_delete K n (l : list key) : NoDup l → l !! n = Some K → filter (K ≠.) l = delete n l.
Proof.
  revert n. induction l as [|K' l IH]; intros n; [done|]. intros [Hni Hnd]%list.NoDup_cons. destruct n as [|n]; simpl.
  - intros [= ->]. rewrite filter_cons_False by by intros []. clear IH. induction l as [|K' l IH]; [done|].
    apply list.NoDup_cons in Hnd as [? ?]. apply not_elem_of_cons in Hni as [? ?]. rewrite filter_cons_True by done. f_equal. by apply IH.
  - intros Hn. rewrite filter_cons_True; [by rewrite (IH n)|]. intros ->. apply Hni. by eapply list_elem_of_lookup_2.
Qed.
Lemma filter_absent K (l : list key) : K ∉ l → filter (K ≠.) l = l.
Proof.
  induction l as [|K' l IH]; [done|]. intros [? ?]%not_elem_of_cons. rewrite filter_cons_True by done. f_equal. by apply IH.
Qed.
Lemma dict_view_remove entries order m K n : dict_view fuel h entries order m → order !! n = Some K →
  dict_view fuel h (delete n entries) (filter (K ≠.) order) (delete K m).
Proof.
  intros [He Hn Hd] HKn. split; [|by apply list.NoDup_filter|].
  - rewrite (filter_delete K n) by done.
    assert (Forall2 (λ e K', key_at fuel h e.1 = Ok K' ∧ m !! K' = Some e.2) (delete n entries) (delete n order)) as H
      by by apply list.Forall2_delete.
    apply Forall2_same_length_lookup. split; [by apply Forall2_length in H|].
    intros j e K' Hj HKj. destruct (Forall2_lookup_lr _ _ _ _ _ _ H Hj HKj) as [H1 H2]. split; [done|].
    rewrite lookup_delete_ne; [done|]. intros ->. apply list_elem_of_lookup_2 in HKj.
    rewrite <- (filter_delete K' n) in HKj by done. apply list_elem_of_filter in HKj as [[] _]. done.
  - intros K' HK'. destruct (decide (K' = K)) as [->|]; [rewrite lookup_delete_eq in HK'; by destruct HK'|].
    apply list_elem_of_filter. split; [done|]. apply Hd. by rewrite lookup_delete_ne in HK'.
Qed.
Lemma dict_view_clear : dict_view fuel h [] [] ∅.
Proof. split; [constructor|constructor|]. intros K. rewrite lookup_empty. by intros []. Qed.
End Views.

Section DictCalls.
Context (fuel shard : nat) (md : tables) (m_listClassIdx m_dictClassIdx : Z).
Abbreviation call := (ExecuteIntrinsicContainerStructural fuel shard md m_listClassIdx m_dictClassIdx).

End DictCalls.

(** ** A concrete run *)
(** Classes 0 and 1 are List and Dict. *)
Definition demo_container_tables : tables := MkTables [] [[demo_field "__handle"]; [demo_field "__handle"]] [] [].
(** A list 1 that holds the box 3, and a dictionary 2 that maps the box 3 to it; boxes 3
    and 4 are different objects with the same string. *)
Definition demo_conts : outcome conts :=
  '(l, h) ← AllocClassOnHeap 1 demo_container_tables demo_heap 0 0;
  '(d, h) ← AllocClassOnHeap 1 demo_container_tables h 0 1;
  '(a, h) ← AllocBoxedValue h 0 RTK_String 1;
  '(b, h) ← AllocBoxedValue h 0 RTK_String 1;
  let call id vs x := r ← ExecuteIntrinsicContainerStructural 10 0 demo_container_tables 0 1 id 0
                            (concat (le_bytes 8 <$> vs)) x (replicate 8 0);
                      deref (fst <$> r) in
  x ← call INTR_List_Ctor [l] (h, MkSide [] [] [] []);
  x ← call INTR_Dict_Ctor [d] x;
  x ← call INTR_List_Add [l; a] x;
  call INTR_Dict_Set [d; a; l] x.
Definition demo_cx : conts := match demo_conts with Ok x => x | Raise _ => (demo_heap, MkSide [] [] [] []) end.
Lemma demo_cx_side : demo_cx.2 = MkSide [[3]] [] [[(3, 1)]] [].
Proof. by vm_compute. Qed.
Lemma concat_pieces (f : Z → bytes) k vs n v : (∀ w, length (f w) = k) → vs !! n = Some v →
  ∃ pre post, concat (f <$> vs) = pre ++ f v ++ post ∧ length pre = (n * k)%nat.
Proof.
  intros Hf. revert n. induction vs as [|w vs IH]; intros [|n] Hn; [done|done|..]; cbn [lookup list_lookup] in Hn.
  - injection Hn as ->. by exists [], (concat (f <$> vs)).
  - destruct (IH n Hn) as (pre & post & E & Hl). exists (f w ++ pre), post. split.
    + cbn. by rewrite E, app_assoc.
    + rewrite length_app, Hf, Hl. lia.
Qed.
Lemma staged_args vs : Forall (is_sint 32) vs → staged (concat (le_bytes 8 <$> vs)) 0 vs.
Proof.
  intros Hvs n v Hn. unfold arg. rewrite Z.add_0_l. unfold ld32. rewrite Nat2Z.id.
  destruct (concat_pieces (le_bytes 8) 8 vs n v) as (pre & post & -> & Hl); [intros; apply length_le_bytes|done|].
  unfold kFrameSlotBytes.
  change (le_bytes 8 v) with (le_bytes 4 v ++ le_bytes 4 (Z.shiftr (Z.shiftr (Z.shiftr (Z.shiftr v 8) 8) 8) 8)).
  unfold load. rewrite <- Hl, <- (length_le_bytes 4 v) at 1. rewrite <- app_assoc, slice_app_mid, derefE, !bindE, le_value_bytes.
  f_equal. change (swrap 32 (wrap 32 v) = v). rewrite swrap_wrap by lia.
  apply swrap_small; [lia|]. rewrite list.Forall_forall in Hvs. apply Hvs. by eapply list_elem_of_lookup_2.
Qed.
Ltac sints := repeat (constructor; [unfold is_sint; lia|]); constructor.


(** ** Floats are matched by their bits *)
(** The quiet NaN of a [double]. *)
Definition nan_bits : Z := Z.shiftl 4095 51.
Definition double_row : ScalarPrimInfo := PrimInfo SPR_Double RTK_Double 8 PC_Float 2 "double".
(** A list and a dictionary that hold a boxed NaN, searched with another box of it. *)
Definition nan_searches : outcome (list Z) :=
  '(l, h) ← AllocClassOnHeap 1 demo_container_tables demo_heap 0 0;
  '(d, h) ← AllocClassOnHeap 1 demo_container_tables h 0 1;
  '(a, h) ← AllocBoxedValue h 0 RTK_Double nan_bits;
  '(b, h) ← AllocBoxedValue h 0 RTK_Double nan_bits;
  let call id vs x := r ← ExecuteIntrinsicContainerStructural 10 0 demo_container_tables 0 1 id 0
                            (concat (le_bytes 8 <$> vs)) x (replicate 8 0);
                      deref r in
  '(x, _) ← call INTR_List_Ctor [l] (h, MkSide [] [] [] []);
  '(x, _) ← call INTR_Dict_Ctor [d] x;
  '(x, _) ← call INTR_List_Add [l; a] x;
  '(x, _) ← call INTR_Dict_Set [d; a; l] x;
  '(x, p1) ← call INTR_List_IndexOf [l; b] x;
  '(x, p2) ← call INTR_List_Contains [l; b] x;
  '(x, p3) ← call INTR_Dict_Get [d; b] x;
  '(_, p4) ← call INTR_Dict_ContainsKey [d; b] x;
  mapM (λ p, ld32 p 0) [p1; p2; p3; p4].
(** The machine's own comparison says that the two values differ, yet [indexOf] answers
    the position 0, [contains] answers true, and the dictionary has the key. *)
Theorem nan_found_by_bits : double_row ∈ kScalarPrims ∧ float_of double_row nan_bits = SpecFloat.S754_nan
  ∧ CmpRun double_row 4 nan_bits nan_bits = false ∧ nan_searches = Ok [0; 1; 1; 1].
Proof. split; [unfold kScalarPrims, double_row; rewrite !elem_of_cons; tauto|]. by repeat split; vm_compute. Qed.
