(* ===== verification/ContainerSlots.v ===== *)
(** * Containers: no two instances share a side slot

    Handles of lists and dictionaries come from free lists that the sweep refills.  This
    file shows that container calls, sweeps and whatever else makes no instance with a handle
    keep the handles of live instances distinct, in range and off the free lists. *)
From S2P Require Import Prelude.
From S2P Require Import Bytecode Package Prims TypeDesc Shards Strings StringOps Layout Heap HeapGC HeapSweep Arrays ArraySlice Frames.
From S2P Require Import SchedState Sched SchedSpec SyncPrims StaticInit Objects Exec ExecTypes ObjectSpec Containers ContainerSpec.
Open Scope Z_scope.

(** ** Side slots in use *)
(** The instance [i] of class [cls] has the handle [a]. *)
Definition holds (h : heap) (cls i a : Z) : Prop :=
  kind_at h i = Some RTK_Class ∧ 0 < a ∧ ∃ r c, rec_at h i = Some r ∧ r !! 0%nat = Some c ∧ i16 c = cls
    ∧ r !! 1%nat = Some a.
(** A table of [n] slots with the free list [free]. *)
Record table_ok (h : heap) (cls : Z) (n : nat) (free : list Z) : Prop := {
  to_free : ∀ a, a ∈ free → 0 < a ≤ Z.of_nat n;
  to_nodup : NoDup free;
  to_used : ∀ i a, holds h cls i a → a ≤ Z.of_nat n ∧ a ∉ free;
  to_inj : ∀ i j a, holds h cls i a → holds h cls j a → i = j
}.
(** The handles [h'] has, [h] had. *)
Definition no_new (cls : Z) (h h' : heap) : Prop := ∀ i a, holds h' cls i a → holds h cls i a.

Lemma table_ok_shrink h h' cls n free : no_new cls h h' → table_ok h cls n free → table_ok h' cls n free.
Proof.
  intros Hn [T1 T2 T3 T4]. split; [done|done| |].
  - intros i a Ha. by apply (T3 i), Hn.
  - intros i j a Hi Hj. by apply (T4 i j a); apply Hn.
Qed.
Lemma table_ok_grow h cls n n' free : (n ≤ n')%nat → table_ok h cls n free → table_ok h cls n' free.
Proof.
  intros Hn [T1 T2 T3 T4]. split; [|done| |done].
  - intros a Ha. specialize (T1 a Ha). lia.
  - intros i a Ha. destruct (T3 i a Ha). split; [lia|done].
Qed.

Lemma pop_back_Some {A} (l : list A) a l' : pop_back l = Some (a, l') → l = l' ++ [a].
Proof.
  unfold pop_back. destruct (list.last l) as [b|] eqn:E; [|done]. intros [= <- <-].
  apply last_Some in E as [l1 ->]. rewrite length_app. cbn [length]. replace (length l1 + 1 - 1)%nat with (length l1) by lia.
  by rewrite take_app_length.
Qed.
Lemma pop_back_None {A} (l : list A) : pop_back l = None → l = [].
Proof. unfold pop_back. destruct (list.last l) eqn:E; [done|]. by apply last_None in E. Qed.

(** A new handle is in use nowhere, and its slot is empty. *)
Record fresh_handle {A} (h : heap) (cls : Z) (store store' : list (list A)) (free' : list Z) (a : Z) : Prop := {
  fh_range : 0 < a ≤ Z.of_nat (length store');
  fh_free : a ∉ free';
  fh_used : ∀ i, ¬ holds h cls i a;
  fh_empty : store' !!z (a - 1) = Some [];
  fh_others : ∀ b l, b ≠ a → store !!z (b - 1) = Some l → store' !!z (b - 1) = Some l
}.
Lemma AllocSlot_fresh {A} h cls (store : list (list A)) free : table_ok h cls (length store) free →
  Z.of_nat (length store) < INT32_MAX →
  ∃ a store' free', AllocSlot store free = Ok (a, store', free') ∧ fresh_handle h cls store store' free' a
    ∧ table_ok h cls (length store') free'.
Proof.
  intros Ht Hlen. unfold AllocSlot. destruct (pop_back free) as [[a free']|] eqn:E.
  - apply pop_back_Some in E as ->. destruct (to_free _ _ _ _ Ht a) as [Ha1 Ha2]; [apply elem_of_app; right; by apply list_elem_of_singleton|].
    destruct (zlookup_is_Some store (a - 1)) as [l Hl]; [lia|]. rewrite Hl, derefE, bindE.
    pose proof (to_nodup _ _ _ _ Ht) as Hnd. apply list.NoDup_app in Hnd as (Hnd & Hdis & _).
    eexists _, _, _. split; [done|]. split.
    + split.
      * rewrite length_insert. lia.
      * intros Hin. apply (Hdis a Hin). by apply list_elem_of_singleton.
      * intros i Hi. apply (to_used _ _ _ _ Ht i a Hi). apply elem_of_app. right. by apply list_elem_of_singleton.
      * apply ObjectSpec.zlookup_insert. lia.
      * intros b l' Hb Hl'. pose proof (zlookup_Some_lt _ _ _ Hl'). rewrite zlookup_insert_ne; [done|lia|lia].
    + rewrite length_insert. split; [|done| |by apply Ht].
      * intros b Hb. apply (to_free _ _ _ _ Ht). apply elem_of_app. by left.
      * intros i b Hb. destruct (to_used _ _ _ _ Ht i b Hb) as [? Hni]. split; [done|]. intros Hin. apply Hni, elem_of_app. by left.
  - apply pop_back_None in E as ->. rewrite swrap_small by (try lia; unfold is_sint, INT32_MAX in *; lia).
    eexists _, _, _. split; [done|]. rewrite length_app. cbn [length]. split.
    + split; rewrite ?length_app; cbn [length].
      * lia.
      * by apply not_elem_of_nil.
      * intros i Hi. destruct (to_used _ _ _ _ Ht i _ Hi). lia.
      * unfold zlookup. rewrite decide_True by lia. rewrite lookup_app_r by lia.
        by replace (Z.to_nat (Z.of_nat (length store) + 1 - 1) - length store)%nat with 0%nat by lia.
      * intros b l' _ Hl'. by apply zlookup_app_l.
    + eapply table_ok_grow; [|done]. lia.
Qed.

(** Writing a handle cell. *)
Lemma holds_set_cell h h' cls i j a b : set_cell h i 1 b = Ok h' → holds h' cls j a →
  (j ≠ i ∧ holds h cls j a) ∨ (j = i ∧ a = b ∧ kind_at h i = Some RTK_Class
    ∧ ∃ r c, rec_at h i = Some r ∧ r !! 0%nat = Some c ∧ i16 c = cls).
Proof.
  unfold set_cell. intros (r & Hr%deref_Ok & H)%bind_Ok. case_decide as Hlen; [|done]. injection H as <-.
  pose proof (zlookup_Some_lt _ _ _ Hr) as Hi. intros (Hk & Ha & r' & c & Hr' & H0 & Hc & H1).
  unfold kind_at, rec_at in *. cbn in *. destruct (decide (j = i)) as [->|Hj]; [right|left].
  - rewrite zlookup_insert_eq in Hr' by lia. injection Hr' as <-.
    rewrite list_lookup_insert_eq in H1 by lia. rewrite list_lookup_insert_ne in H0 by done. injection H1 as ->.
    split_and!; [done..|]. by exists r, c.
  - rewrite zlookup_insert_ne in Hr' by (done || lia). split; [done|]. split_and!; [done..|]. by exists r', c.
Qed.
Lemma table_ok_set_cell h h' cls n free i a : set_cell h i 1 a = Ok h' → table_ok h cls n free →
  a ≤ Z.of_nat n → a ∉ free → (∀ j, ¬ holds h cls j a) → table_ok h' cls n free.
Proof.
  intros Hs [T1 T2 T3 T4] Ha1 Ha2 Ha3. split; [done|done| |].
  - intros j b Hj. destruct (holds_set_cell _ _ _ _ _ _ _ Hs Hj) as [[_ ?]|(_ & -> & _)]; [by eapply T3|done].
  - intros j k b Hj Hk. destruct (holds_set_cell _ _ _ _ _ _ _ Hs Hj) as [[? ?]|(-> & -> & _)],
      (holds_set_cell _ _ _ _ _ _ _ Hs Hk) as [[? ?]|(-> & E & _)]; subst; [by eapply T4|by exfalso; eapply Ha3..|done].
Qed.
(** In a record of another class the cell means nothing. *)
Definition other_class (h : heap) (cls i : Z) : Prop :=
  ∀ r c, kind_at h i = Some RTK_Class → rec_at h i = Some r → r !! 0%nat = Some c → i16 c ≠ cls.
Lemma no_new_set_cell h h' cls i a : set_cell h i 1 a = Ok h' → other_class h cls i → no_new cls h h'.
Proof.
  intros Hs Ho j b Hj. destruct (holds_set_cell _ _ _ _ _ _ _ Hs Hj) as [[? ?]|(_ & _ & Hk & r & c & Hr & H0 & Hc)]; [done|].
  by destruct (Ho r c).
Qed.

(** ** New instances *)
Lemma AllocClassOnHeap_only n md h shard c fields i h' :
  layout md !!z c = Some fields → (∀ j, cfield fields j = None) → heap_ok h → (shard < length (m_heapShards h))%nat →
  AllocClassOnHeap n md h shard c = Ok (i, h') → ∀ j, hlive h' j → j = i ∨ hlive h j.
Proof.
  intros Hl Hf Hok Hsh. unfold AllocClassOnHeap. rewrite Hl.
  destruct (TakeHeapSlot_spec h shard Hok Hsh) as (k & h1 & -> & Ht). rewrite bindE.
  intros (h2 & H2 & (h3 & H3 & [= -> <-])%bind_Ok)%bind_Ok.
  assert (h3 = h2) as ->.
  { revert H3. apply (foldM_ind (λ s, s = h2)); [|done]. intros s j s' _ -> (f & Hfj%deref_Ok & H)%bind_Ok.
    specialize (Hf j). unfold cfield in Hf. rewrite Hfj in Hf. cbn in Hf. rewrite Hf in H. by injection H. }
  intros j (kd & Hk & Hn). destruct (decide (j = i)) as [->|Hj]; [by left|right]. apply (tk_only _ _ _ Ht).
  exists kd. split; [|done]. unfold set_cell in H2. apply bind_Ok in H2 as (r & _ & H2). case_decide; [|done].
  injection H2 as <-. unfold kind_at in Hk. cbn in Hk. pose proof (tk_range _ _ _ Ht).
  by rewrite zlookup_insert_ne in Hk by (done || lia).
Qed.
Lemma no_new_extends cls h h' i : hextends h h' → (∀ j, hlive h' j → j = i ∨ hlive h j) →
  (∀ a, ¬ holds h' cls i a) → no_new cls h h'.
Proof.
  intros He Ho Hi j a Hj. pose proof Hj as (Hk & Ha & r & c & Hr & H0 & Hc & H1).
  destruct (Ho j) as [->|Hl]; [by exists RTK_Class|by destruct (Hi a)|].
  destruct (He j Hl) as (E1 & E2 & _). split_and!; [congruence|done|]. exists r, c. split_and!; congruence.
Qed.

(** ** The state of the two tables *)
Section Tables.
Context (fuel shard : nat) (md : tables) (m_listClassIdx m_dictClassIdx : Z).
Record sides_ok (x : conts) : Prop := {
  so_heap : heap_ok x.1;
  so_shard : (shard < length (m_heapShards x.1))%nat;
  so_list : table_ok x.1 m_listClassIdx (length (m_listStore x.2)) (m_listFreeList x.2);
  so_dict : table_ok x.1 m_dictClassIdx (length (m_dictStore x.2)) (m_dictFreeList x.2)
}.
(** The classes of the prelude: different, and their instances have no struct fields. *)
Record classes_ok : Prop := {
  co_ne : m_listClassIdx ≠ m_dictClassIdx;
  co_fields : ∀ cls, cls = m_listClassIdx ∨ cls = m_dictClassIdx → 0 ≤ cls →
    cls < 2 ^ 15 ∧ ∃ fields, layout md !!z cls = Some fields ∧ (0 < length fields)%nat ∧ ∀ j, cfield fields j = None
}.
Definition room (t : side) : Prop :=
  Z.of_nat (length (m_listStore t)) < INT32_MAX ∧ Z.of_nat (length (m_dictStore t)) < INT32_MAX.

Lemma class_idx_small cls : 0 ≤ cls < 2 ^ 15 → i16 (u16 cls) = cls ∧ u16 cls = cls.
Proof.
  intros H. rewrite (wrap_small 16) by (unfold is_uint; lia). split; [|done].
  apply swrap_small; [lia|]. unfold is_sint. lia.
Qed.
(** An instance of [cls] that is new and has no handle yet. *)
Lemma alloc_instance (Hco : classes_ok) h cls : cls = m_listClassIdx ∨ cls = m_dictClassIdx → 0 ≤ cls →
  heap_ok h → (shard < length (m_heapShards h))%nat →
  ∃ i h' r, AllocClassOnHeap fuel md h shard (u16 cls) = Ok (i, h') ∧ grows h h' ∧ ¬ hlive h i ∧ 0 < i
    ∧ rec_at h' i = Some r ∧ kind_at h' i = Some RTK_Class ∧ r !! 0%nat = Some cls ∧ (1 < length r)%nat
    ∧ ∀ cls', no_new cls' h h'.
Proof.
  intros Hc Hp Hok Hsh. destruct (co_fields Hco cls Hc Hp) as (Hlt & fields & Hl & Hlen & Hf).
  destruct (class_idx_small cls) as [Hi Hu]; [lia|]. rewrite Hu.
  destruct (AllocClassOnHeap_plain fuel md h shard cls fields Hl Hf Hok Hsh) as (i & h' & E & G & Hd & Hpos & R & K).
  exists i, h', (cls :: replicate (2 * length fields) 0). split_and!; try done.
  { cbn [length]. rewrite length_replicate. lia. }
  intros cls'. apply (no_new_extends _ _ _ i); [apply G|by eapply AllocClassOnHeap_only|].
  intros a (_ & Ha & r & c & Hr & _ & _ & H1). rewrite R in Hr. injection Hr as <-.
  destruct fields; [simpl in Hlen; lia|]. simpl in H1. injection H1 as <-. lia.
Qed.

Lemma set_cell_heap_ok h h' i c v : heap_ok h → set_cell h i c v = Ok h' →
  heap_ok h' ∧ m_heapShards h' = m_heapShards h.
Proof.
  intros Hok Hs. pose proof Hs as Hs0. unfold set_cell in Hs0. apply bind_Ok in Hs0 as (r & Hr%deref_Ok & H). case_decide as Hc; [|done].
  destruct (set_cell_spec h i r c v Hok Hr Hc) as (h2 & E & ? & _ & _ & _ & _ & ? & _). rewrite Hs in E. by injection E as <-.
Qed.
(** Giving the instance [i] a new handle of one table; [i] is not of the other class. *)
Lemma give_list_handle h t i a t' h' : sides_ok (h, t) → room t → other_class h m_dictClassIdx i →
  AllocListHandle t = Ok (a, t') → set_cell h i 1 a = Ok h' → sides_ok (h', t').
Proof.
  intros [S1 S2 S3 S4] [Hr _] Ho Ha Hs. unfold AllocListHandle in Ha. cbn in *.
  destruct (AllocSlot_fresh h _ _ _ S3 Hr) as (b & store' & free' & E & Hf & Ht). rewrite E, bindE in Ha.
  injection Ha as <- <-. destruct (set_cell_heap_ok _ _ _ _ _ S1 Hs) as [Hok Hsh]. split; cbn; [done|by rewrite Hsh| |].
  - eapply table_ok_set_cell; [done..|apply Hf|apply Hf|apply (fh_used _ _ _ _ _ _ Hf)].
  - eapply table_ok_shrink; [|exact S4]. by eapply no_new_set_cell.
Qed.
Lemma give_dict_handle h t i a t' h' : sides_ok (h, t) → room t → other_class h m_listClassIdx i →
  AllocDictHandle t = Ok (a, t') → set_cell h i 1 a = Ok h' → sides_ok (h', t').
Proof.
  intros [S1 S2 S3 S4] [_ Hr] Ho Ha Hs. unfold AllocDictHandle in Ha. cbn in *.
  destruct (AllocSlot_fresh h _ _ _ S4 Hr) as (b & store' & free' & E & Hf & Ht). rewrite E, bindE in Ha.
  injection Ha as <- <-. destruct (set_cell_heap_ok _ _ _ _ _ S1 Hs) as [Hok Hsh]. split; cbn; [done|by rewrite Hsh| |].
  - eapply table_ok_shrink; [|exact S3]. by eapply no_new_set_cell.
  - eapply table_ok_set_cell; [done..|apply Hf|apply Hf|apply (fh_used _ _ _ _ _ _ Hf)].
Qed.
Lemma sides_ok_heap h h' t : sides_ok (h, t) → heap_ok h' → (shard < length (m_heapShards h'))%nat →
  no_new m_listClassIdx h h' → no_new m_dictClassIdx h h' → sides_ok (h', t).
Proof. intros [S1 S2 S3 S4] Hok Hsh Hl Hd. split; cbn; [done|done|by eapply table_ok_shrink..]. Qed.
Lemma sides_ok_note h t : sides_ok (h, t) → sides_ok (HNoteGcPressure h, t).
Proof. intros H. eapply sides_ok_heap; [exact H|apply heap_ok_note, H|apply H|by intros ? ?..]. Qed.
(** Only the lengths of the tables matter. *)
Definition shape (t : side) := (length (m_listStore t), m_listFreeList t, length (m_dictStore t), m_dictFreeList t).
Lemma sides_ok_shape h t t' : shape t' = shape t → sides_ok (h, t) → sides_ok (h, t').
Proof. unfold shape. intros [= E1 E2 E3 E4] [S1 S2 S3 S4]. split; cbn in *; [done|done|by rewrite E1, E2|by rewrite E3, E4]. Qed.
Lemma shape_elements t a l : shape (put_elements t a l) = shape t.
Proof. unfold shape. cbn. by rewrite length_insert. Qed.
Lemma shape_entries t a l : shape (put_entries t a l) = shape t.
Proof. unfold shape. cbn. by rewrite length_insert. Qed.

Lemma new_list_ok (Hco : classes_ok) x i a x' : sides_ok x → room x.2 →
  new_list fuel shard md m_listClassIdx x = Ok (i, a, x') → sides_ok x'.
Proof.
  intros Hx Hr. unfold new_list, new_container. destruct x as [h t]. case_decide as Hneg; [done|].
  destruct (alloc_instance Hco h m_listClassIdx) as (i' & h1 & r & -> & G & Hd & Hp & R & K & H0 & Hlen & Hn);
    [by left|lia|apply Hx|apply Hx|]. rewrite bindE.
  intros ([a' t1] & Ha & (h2 & Hs & [= -> -> <-])%bind_Ok)%bind_Ok.
  assert (sides_ok (h1, t)) as Hx1 by (eapply sides_ok_heap; [exact Hx|apply G|rewrite (gr_shards _ _ G); apply Hx|apply Hn|apply Hn]).
  eapply give_list_handle; [exact Hx1|exact Hr| |exact Ha|exact Hs].
  intros r' c' _ Hr' H0' E. rewrite R in Hr'. injection Hr' as <-. rewrite H0 in H0'. injection H0' as <-.
  destruct (co_fields Hco m_listClassIdx) as (Hlt & _); [by left|lia|]. apply (co_ne Hco). rewrite <- E. symmetry.
  apply swrap_small; [lia|]. unfold is_sint. lia.
Qed.
Lemma new_dict_ok (Hco : classes_ok) x i a x' : sides_ok x → room x.2 →
  new_dict fuel shard md m_dictClassIdx x = Ok (i, a, x') → sides_ok x'.
Proof.
  intros Hx Hr. unfold new_dict, new_container. destruct x as [h t]. case_decide as Hneg; [done|].
  destruct (alloc_instance Hco h m_dictClassIdx) as (i' & h1 & r & -> & G & Hd & Hp & R & K & H0 & Hlen & Hn);
    [by right|lia|apply Hx|apply Hx|]. rewrite bindE.
  intros ([a' t1] & Ha & (h2 & Hs & [= -> -> <-])%bind_Ok)%bind_Ok.
  assert (sides_ok (h1, t)) as Hx1 by (eapply sides_ok_heap; [exact Hx|apply G|rewrite (gr_shards _ _ G); apply Hx|apply Hn|apply Hn]).
  eapply give_dict_handle; [exact Hx1|exact Hr| |exact Ha|exact Hs].
  intros r' c' _ Hr' H0' E. rewrite R in Hr'. injection Hr' as <-. rewrite H0 in H0'. injection H0' as <-.
  destruct (co_fields Hco m_dictClassIdx) as (Hlt & _); [by right|lia|]. apply (co_ne Hco). rewrite <- E.
  apply swrap_small; [lia|]. unfold is_sint. lia.
Qed.

(** ** Calls *)
(** A constructor is called on an instance of its own class, or of no container class. *)
Definition ctor_receiver (id cpb : Z) (locals : bytes) (h : heap) : Prop :=
  ∀ this, ld32 locals cpb = Ok this →
    (id = INTR_List_Ctor → other_class h m_dictClassIdx this) ∧ (id = INTR_Dict_Ctor → other_class h m_listClassIdx this).
Lemma ctor_ok family id cpb locals x x' :
  (family = "List"%string ∧ id = INTR_List_Ctor ∨ family = "Dict"%string ∧ id = INTR_Dict_Ctor) →
  sides_ok x → room x.2 → ctor_receiver id cpb locals x.1 →
  container_ctor family (if decide (id = INTR_List_Ctor) then AllocListHandle else AllocDictHandle) cpb locals x = Ok x' →
  sides_ok x'.
Proof.
  intros Hid Hx Hr Hc. unfold container_ctor. destruct x as [h t]. intros (this & Hthis & H)%bind_Ok.
  destruct (Hc this Hthis) as [Hl Hd]. case_decide; [done|]. destruct (rec_at h this); [|done].
  apply bind_Ok in H as ([a t1] & Ha & (h2 & Hs & [= <-])%bind_Ok). destruct Hid as [[-> ->]|[-> ->]].
  - eapply give_list_handle; [exact Hx|exact Hr|by apply Hl|exact Ha|exact Hs].
  - eapply give_dict_handle; [exact Hx|exact Hr|by apply Hd|exact Ha|exact Hs].
Qed.

(** The calls that neither allocate nor construct. *)
Definition settled (x : conts) (q : conts * bytes) : Prop := q.1.1 = x.1 ∧ shape q.1.2 = shape x.2.
Ltac settle := intros; match goal with x : conts |- _ => destruct x as [h t] end; unfold settled; cbn [fst snd];
  repeat first [ progress walk | case_match ]; try done; try apply shape_elements; try apply shape_entries.
Lemma List_Add_settled cpb l x p : yields (settled x) (List_Add cpb l x p).
Proof. unfold List_Add. settle. Qed.
Lemma List_Get_settled cpb l x p : yields (settled x) (List_Get cpb l x p).
Proof. unfold List_Get, list_oob. settle. Qed.
Lemma List_Set_settled cpb l x p : yields (settled x) (List_Set cpb l x p).
Proof. unfold List_Set, list_oob. settle. Qed.
Lemma List_Length_settled cpb l x p : yields (settled x) (List_Length cpb l x p).
Proof. unfold List_Length. settle. Qed.
Lemma List_RemoveAt_settled cpb l x p : yields (settled x) (List_RemoveAt cpb l x p).
Proof. unfold List_RemoveAt, list_oob. settle. Qed.
Lemma List_IndexOf_settled cpb l x p : yields (settled x) (List_IndexOf fuel cpb l x p).
Proof. unfold List_IndexOf. settle. Qed.
Lemma List_Contains_settled cpb l x p : yields (settled x) (List_Contains fuel cpb l x p).
Proof. unfold List_Contains. settle. Qed.
Lemma List_Clear_settled cpb l x p : yields (settled x) (List_Clear cpb l x p).
Proof. unfold List_Clear. settle. Qed.
Lemma Dict_Set_settled cpb l x p : yields (settled x) (Dict_Set fuel cpb l x p).
Proof. unfold Dict_Set. settle. Qed.
Lemma Dict_Get_settled cpb l x p : yields (settled x) (Dict_Get fuel cpb l x p).
Proof. unfold Dict_Get. settle. Qed.
Lemma Dict_ContainsKey_settled cpb l x p : yields (settled x) (Dict_ContainsKey fuel cpb l x p).
Proof. unfold Dict_ContainsKey. settle. Qed.
Lemma Dict_Remove_settled cpb l x p : yields (settled x) (Dict_Remove fuel cpb l x p).
Proof. unfold Dict_Remove. settle. Qed.
Lemma Dict_Clear_settled cpb l x p : yields (settled x) (Dict_Clear cpb l x p).
Proof. unfold Dict_Clear. settle. Qed.
Lemma Dict_Count_settled cpb l x p : yields (settled x) (Dict_Count cpb l x p).
Proof. unfold Dict_Count. settle. Qed.

Lemma settled_ok x q : sides_ok x → settled x q → sides_ok q.1.
Proof.
  destruct x as [h t], q as [[h' t'] p]. intros Hx [E1 E2]. cbn in *. subst h'. by eapply sides_ok_shape.
Qed.
Lemma List_Copy_ok (Hco : classes_ok) cpb l x p q : sides_ok x → room x.2 →
  List_Copy fuel shard md m_listClassIdx cpb l x p = Ok q → sides_ok q.1.
Proof.
  intros Hx Hr. unfold List_Copy. intros (a & _ & ([[i b] [h t]] & Hn & (es & _ & (p' & _ & [= <-])%bind_Ok)%bind_Ok)%bind_Ok)%bind_Ok.
  apply sides_ok_note. eapply sides_ok_shape; [apply shape_elements|]. by eapply new_list_ok.
Qed.
Lemma Dict_Keys_ok (Hco : classes_ok) cpb l x p q : sides_ok x → room x.2 →
  Dict_Keys fuel shard md m_listClassIdx cpb l x p = Ok q → sides_ok q.1.
Proof.
  intros Hx Hr. unfold Dict_Keys. intros (a & _ & (es & _ & ([[i b] [h t]] & Hn & (p' & _ & [= <-])%bind_Ok)%bind_Ok)%bind_Ok)%bind_Ok.
  apply sides_ok_note. eapply sides_ok_shape; [apply shape_elements|]. by eapply new_list_ok.
Qed.
Lemma Dict_Copy_ok (Hco : classes_ok) cpb l x p q : sides_ok x → room x.2 →
  Dict_Copy fuel shard md m_dictClassIdx cpb l x p = Ok q → sides_ok q.1.
Proof.
  intros Hx Hr. unfold Dict_Copy. intros (a & _ & ([[i b] [h t]] & Hn & (es & _ & (p' & _ & [= <-])%bind_Ok)%bind_Ok)%bind_Ok)%bind_Ok.
  apply sides_ok_note. eapply sides_ok_shape; [apply shape_entries|]. by eapply new_dict_ok.
Qed.
Abbreviation call := (ExecuteIntrinsicContainerStructural fuel shard md m_listClassIdx m_dictClassIdx).
Lemma call_ok (Hco : classes_ok) id cpb locals x p q : sides_ok x → room x.2 → ctor_receiver id cpb locals x.1 →
  call id cpb locals x p = Ok (Some q) → sides_ok q.1.
Proof.
  intros Hx Hr Hc. unfold ExecuteIntrinsicContainerStructural.
  repeat (destruct (decide (id = _)) as [->|?]; [intros (q' & Hq & [= <-])%bind_Ok|]); [..|done].
  all: first [ eapply settled_ok; [exact Hx|]; first
      [ by eapply List_Add_settled | by eapply List_Get_settled | by eapply List_Set_settled | by eapply List_Length_settled
      | by eapply List_RemoveAt_settled | by eapply List_IndexOf_settled | by eapply List_Contains_settled
      | by eapply List_Clear_settled | by eapply Dict_Set_settled | by eapply Dict_Get_settled
      | by eapply Dict_ContainsKey_settled | by eapply Dict_Remove_settled | by eapply Dict_Clear_settled
      | by eapply Dict_Count_settled ]
    | by eapply List_Copy_ok | by eapply Dict_Keys_ok | by eapply Dict_Copy_ok | idtac ].
  - unfold List_Ctor in Hq. apply bind_Ok in Hq as (x' & Hx' & [= <-]).
    eapply (ctor_ok "List" INTR_List_Ctor); [by left|done..|exact Hx'].
  - unfold Dict_Ctor in Hq. apply bind_Ok in Hq as (x' & Hx' & [= <-]).
    eapply (ctor_ok "Dict" INTR_Dict_Ctor); [by right|done..|exact Hx'].
Qed.

End Tables.

(** ** Collections *)
(** Every class instance of [h'] was the same in [h]. *)
Definition shrinks (h h' : heap) : Prop := ∀ j, kind_at h' j = Some RTK_Class →
  kind_at h j = Some RTK_Class ∧ rec_at h' j = rec_at h j.
#[export] Instance shrinks_preorder : PreOrder shrinks.
Proof.
  split; [by intros h j|]. intros h1 h2 h3 H12 H23 j Hj. destruct (H23 j Hj) as [Hj2 E]. destruct (H12 j Hj2) as [? ?].
  split; [done|congruence].
Qed.
Lemma shrinks_no_new cls h h' : shrinks h h' → no_new cls h h'.
Proof.
  intros H i a (Hk & Ha & r & c & Hr & Hc). destruct (H i Hk) as [Hk' E]. split_and!; [done..|]. exists r, c. by rewrite <- E.
Qed.
Lemma free_slot_kinds h i h' : free_slot h i = Ok h' →
  m_slotKinds h' = <[Z.to_nat i := 0]> (m_slotKinds h) ∧ m_structHeap h' = <[Z.to_nat i := []]> (m_structHeap h).
Proof. unfold free_slot, HeapSweepPush. by intros (sh & _ & [= <-])%bind_Ok. Qed.
Lemma free_slot_shrinks h i : yields (shrinks h) (free_slot h i).
Proof.
  intros h' [Ek Er]%free_slot_kinds j. unfold kind_at, rec_at, zlookup. rewrite Ek, Er. case_decide; [|done].
  destruct (decide (Z.to_nat i = Z.to_nat j)) as [E|Hn].
  - rewrite E. intros Hk. apply list_lookup_insert_Some in Hk as [(_ & [=] & _)|[? _]]; done.
  - rewrite !list_lookup_insert_ne by done. done.
Qed.
Lemma free_slot_gone h i : yields (λ h', kind_at h' i ≠ Some RTK_Class) (free_slot h i).
Proof.
  intros h' [Ek _]%free_slot_kinds. unfold kind_at, zlookup. rewrite Ek. case_decide; [|done]. intros Hk.
  apply list_lookup_insert_Some in Hk as [(_ & [=] & _)|[? _]]; done.
Qed.
Lemma fold_shrinks (f : heap → nat → outcome heap) h l :
  (∀ h k, yields (shrinks h) (f h k)) → yields (shrinks h) (foldM f h l).
Proof.
  intros H h' E. eapply (foldM_ind (shrinks h)); [|reflexivity|exact E]. intros h1 k h2 _ H1 E1. etrans; [exact H1|by eapply H].
Qed.
Lemma FreeNestedStructs_shrinks md n : ∀ h x s, yields (shrinks h) (FreeNestedStructs n md h x s).
Proof.
  induction n as [|n IH]; intros h x s; [done|]. cbn [FreeNestedStructs]. apply yields_bind. intros cs _.
  apply fold_shrinks. intros h1 k. apply yields_bind. intros f _. destruct f; [|by apply yields_Ok].
  apply yields_bind. intros ref _. case_match; [|by apply yields_Ok].
  eapply yields_bind_post; [apply IH|]. intros h2 H2 h3 H3. etrans; [exact H2|by eapply free_slot_shrinks].
Qed.
Lemma FreeOwnedStructs_shrinks n md h x : yields (shrinks h) (FreeOwnedStructs n md h x).
Proof.
  unfold FreeOwnedStructs. do 2 (apply yields_bind; intros ? _). apply fold_shrinks. intros h1 k.
  apply yields_bind. intros f _. destruct (nested_struct _ _); [|by apply yields_Ok].
  apply yields_bind. intros ref _. case_match; [|by apply yields_Ok].
  eapply yields_bind_post; [apply FreeNestedStructs_shrinks|]. intros h2 H2 h3 H3. etrans; [exact H2|by eapply free_slot_shrinks].
Qed.
Lemma FreeOwnedArray_shrinks n md h x : yields (shrinks h) (FreeOwnedArrayStructElements n md h x).
Proof.
  unfold FreeOwnedArrayStructElements. apply yields_bind. intros t _. destruct (arrayTypes md !!z t); [|by apply yields_Ok].
  case_decide; [by apply yields_Ok|]. do 3 (apply yields_bind; intros ? _). apply fold_shrinks. intros h1 k.
  apply yields_bind. intros ref _. case_match; [|by apply yields_Ok].
  eapply yields_bind_post; [apply FreeNestedStructs_shrinks|]. intros h2 H2 h3 H3. etrans; [exact H2|by eapply free_slot_shrinks].
Qed.

(** What the sweep of the instance [i] does to the free list of one class. *)
Definition recycled (h : heap) (i : Z) (e e' : Z * list Z) : Prop :=
  e'.1 = e.1 ∧ (e'.2 = e.2 ∨ ∃ a, e'.2 = e.2 ++ [a] ∧ holds h e.1 i a).
Lemma Recycle_recycled h i rs : kind_at h i = Some RTK_Class →
  yields (Forall2 (recycled h i) rs) (RecycleClassContainerHandles h i rs).
Proof.
  intros Hk. unfold RecycleClassContainerHandles. apply yields_bind. intros c Hc.
  unfold get_cell in Hc. apply bind_Ok in Hc as (r & Hr%deref_Ok & H0%deref_Ok).
  enough (∀ rs0 out, Forall2 (recycled h i) rs0 out → yields (Forall2 (recycled h i) (rs0 ++ rs))
    (foldM (λ out '(ci, l), if decide (i16 c = ci) then
        handle ← get_cell h i kListHandleFieldOffset;
        Ok (out ++ [(ci, if decide (0 < handle) then l ++ [handle] else l)])
      else Ok (out ++ [(ci, l)])) out rs)) as Hg by (apply (Hg [] []); constructor).
  induction rs as [|[ci l] rs IH]; intros rs0 out Hout; [rewrite app_nil_r; by apply yields_Ok|]. cbn [foldM].
  assert (∀ l', recycled h i (ci, l) (ci, l') → yields (Forall2 (recycled h i) (rs0 ++ (ci, l) :: rs))
    (foldM (λ out '(ci, l), if decide (i16 c = ci) then
        handle ← get_cell h i kListHandleFieldOffset;
        Ok (out ++ [(ci, if decide (0 < handle) then l ++ [handle] else l)])
      else Ok (out ++ [(ci, l)])) (out ++ [(ci, l')]) rs)) as Hnext.
  { intros l' Hl'. rewrite (cons_middle (ci, l)), app_assoc. apply IH. apply Forall2_app; [done|]. by constructor. }
  case_decide as Hci; [|cbn; apply Hnext; split; [done|by left]].
  apply yields_assoc, yields_bind. intros a Ha. cbn. apply Hnext. split; [done|]. cbn.
  case_decide as Hpos; [right|by left]. exists a. split; [done|]. unfold get_cell in Ha. rewrite Hr in Ha. cbn in Ha.
  split_and!; [done..|]. exists r, c. by apply deref_Ok in Ha.
Qed.
Lemma recycle_table h h' cls n l i a : table_ok h cls n l → holds h cls i a → no_new cls h h' →
  (∀ b, ¬ holds h' cls i b) → table_ok h' cls n (l ++ [a]).
Proof.
  intros [T1 T2 T3 T4] Hi Hn Hg. destruct (T3 i a Hi) as [Ha1 Ha2]. split.
  - intros b [Hb| ->%list_elem_of_singleton]%elem_of_app; [by apply T1|]. split; [apply Hi|done].
  - apply list.NoDup_app. split_and!; [done|by intros b Hb ->%list_elem_of_singleton|apply list.NoDup_singleton].
  - intros j b Hj. destruct (T3 j b (Hn _ _ Hj)) as [? Hb]. split; [done|].
    intros [?| ->%list_elem_of_singleton]%elem_of_app; [done|].
    rewrite (T4 _ _ _ (Hn _ _ Hj) Hi) in Hj. by apply (Hg a).
  - intros j k b Hj Hk. by apply (T4 j k b); apply Hn.
Qed.

(** The entries that the invariant follows: those with a table size. *)
Definition entry_ok (h : heap) (e : Z * list Z) (n : option nat) : Prop :=
  match n with Some n => table_ok h e.1 n e.2 | None => True end.
Definition all_ok (h : heap) (rs : recyclers) (ns : list (option nat)) : Prop := Forall2 (entry_ok h) rs ns.
Lemma all_ok_shrinks h h' rs ns : shrinks h h' → all_ok h rs ns → all_ok h' rs ns.
Proof.
  intros Hs H. eapply list.Forall2_impl; [exact H|]. intros e [n|]; [|done]. by apply table_ok_shrink, shrinks_no_new.
Qed.
Lemma all_ok_recycled h h' i rs rs' ns : all_ok h rs ns → Forall2 (recycled h i) rs rs' → shrinks h h' →
  kind_at h' i ≠ Some RTK_Class → all_ok h' rs' ns.
Proof.
  intros H Hr Hs Hg. revert ns H. induction Hr as [|[c l] [c' l'] rs rs' [E Hl] _ IH]; intros ns H.
  { inversion H; subst. constructor. }
  inversion H as [|? n ? ns' Hn Hns]; subst. constructor; [|by apply IH]. destruct n as [n|]; [|done]. cbn in *. subst c'.
  destruct Hl as [->|(a & -> & Ha)]; [by eapply table_ok_shrink; [apply shrinks_no_new|]|].
  eapply recycle_table; [done..|by apply shrinks_no_new|]. by intros b [? _].
Qed.
Lemma sweep_one_tables fuel md marks h rs live i ns : all_ok h rs ns →
  yields (λ st, all_ok st.1.1 st.1.2 ns) (sweep_one fuel md marks (h, rs, live) i).
Proof.
  intros H. unfold sweep_one. apply yields_bind. intros k Hk%deref_Ok. case_decide as H0.
  { unfold HeapSweepPush. apply yields_assoc, yields_bind. intros sh _. cbn. apply yields_Ok. cbn.
    eapply all_ok_shrinks; [|exact H]. by intros j. }
  case_match; [|by apply yields_Ok].
  eapply (yields_bind_post (λ q : heap * recyclers, shrinks h q.1 ∧ Forall2 (recycled h i) rs q.2)).
  - assert (Forall2 (recycled h i) rs rs) as Hid by (apply Forall_Forall2_diag, list.Forall_forall; intros e _; split; [done|by left]).
    case_decide as HC; [|case_decide; [|case_decide]].
    + subst k. eapply yields_bind_post; [by apply Recycle_recycled|]. intros rs' Hrs.
      eapply yields_bind_post; [apply FreeOwnedStructs_shrinks|]. intros h1 Hh1. by apply yields_Ok.
    + apply yields_bind. intros s _. eapply yields_bind_post; [apply FreeNestedStructs_shrinks|].
      intros h1 Hh1. by apply yields_Ok.
    + eapply yields_bind_post; [apply FreeOwnedArray_shrinks|]. intros h1 Hh1. by apply yields_Ok.
    + by apply yields_Ok.
  - intros [h1 rs1] [Hs1 Hrs]. cbn in *. apply yields_bind. intros h2 Hs2. apply yields_Ok. cbn.
    eapply all_ok_recycled; [exact H|exact Hrs| |by eapply free_slot_gone].
    etrans; [exact Hs1|by eapply free_slot_shrinks].
Qed.
Lemma SweepPhase_tables fuel md marks h rs ns : all_ok h rs ns →
  yields (λ q, all_ok q.1 q.2 ns) (SweepPhase fuel md marks h rs).
Proof.
  intros H. unfold SweepPhase. eapply (yields_bind_post (λ st : heap * recyclers * nat, all_ok st.1.1 st.1.2 ns)).
  - intros st E. eapply (foldM_ind (λ st : heap * recyclers * nat, all_ok st.1.1 st.1.2 ns)); [| |exact E].
    + intros [[h1 rs1] live] k st' _ H1 E1. by eapply sweep_one_tables.
    + cbn. eapply all_ok_shrinks; [|exact H]. by intros j.
  - intros [[h1 rs1] live] H1. apply yields_Ok. cbn in *. eapply all_ok_shrinks; [|exact H1]. by intros j.
Qed.

(** ** Histories *)
Section Histories.
Context (fuel shard : nat) (md : tables) (m_listClassIdx m_dictClassIdx : Z).
Abbreviation call := (ExecuteIntrinsicContainerStructural fuel shard md m_listClassIdx m_dictClassIdx).
(** One step of a run: a container call on a well-formed heap, a sweep with the free
    lists of the two tables at the head of the recyclers, or anything else that makes no
    instance with a handle.  Two things the machine does are no such steps: a call on a heap
    whose free list has a slot twice, as a sweep can leave it ([HeapSweep.sweep_double_free]),
    and reading a list from a stream, which makes an instance with a handle that is in use
    ([SerializeSpec.list_read_back_shares_slot]). *)
Inductive container_step : conts → conts → Prop :=
  | step_call id cpb locals p x q : heap_ok x.1 → (shard < length (m_heapShards x.1))%nat → room x.2 →
      ctor_receiver m_listClassIdx m_dictClassIdx id cpb locals x.1 →
      call id cpb locals x p = Ok (Some q) → container_step x q.1
  | step_sweep n marks rs rest h t h' l d rs' : rs = (m_listClassIdx, m_listFreeList t) :: (m_dictClassIdx, m_dictFreeList t) :: rest →
      SweepPhase n md marks h rs = Ok (h', (m_listClassIdx, l) :: (m_dictClassIdx, d) :: rs') →
      container_step (h, t) (h', MkSide (m_listStore t) l (m_dictStore t) d)
  | step_other h h' t : no_new m_listClassIdx h h' → no_new m_dictClassIdx h h' → container_step (h, t) (h', t).
(** Different instances have different slots, all in the table and none on its free list. *)
Record unaliased (h : heap) (cls : Z) (n : nat) (free : list Z) : Prop := {
  un_distinct : ∀ i j a, holds h cls i a → holds h cls j a → i = j;
  un_used : ∀ i a, holds h cls i a → 0 < a ≤ Z.of_nat n ∧ a ∉ free;
  un_free : NoDup free ∧ ∀ a, a ∈ free → 0 < a ≤ Z.of_nat n
}.
Definition tables_ok2 (x : conts) : Prop :=
  table_ok x.1 m_listClassIdx (length (m_listStore x.2)) (m_listFreeList x.2)
  ∧ table_ok x.1 m_dictClassIdx (length (m_dictStore x.2)) (m_dictFreeList x.2).
Lemma container_step_ok (Hco : classes_ok md m_listClassIdx m_dictClassIdx) x x' :
  container_step x x' → tables_ok2 x → tables_ok2 x'.
Proof.
  intros Hstep [Hl Hd]. destruct Hstep as [id cpb locals p x q Hok Hsh Hr Hc Hcall|n marks rs rest h t h' l d rs' -> Hs|h h' t Hnl Hnd].
  - assert (sides_ok shard m_listClassIdx m_dictClassIdx x) as Hx by by split.
    split; eapply (call_ok fuel shard md m_listClassIdx m_dictClassIdx Hco id cpb locals x p q Hx Hr Hc Hcall).
  - assert (all_ok h ((m_listClassIdx, m_listFreeList t) :: (m_dictClassIdx, m_dictFreeList t) :: rest)
      (Some (length (m_listStore t)) :: Some (length (m_dictStore t)) :: replicate (length rest) None)) as Hall.
    { do 2 (constructor; [done|]). clear. induction rest; [constructor|]. by constructor. }
    apply (SweepPhase_tables _ _ _ _ _ _ Hall) in Hs. cbn in Hs.
    inversion Hs as [|? ? ? ? H1 Hs2]; subst. inversion Hs2 as [|? ? ? ? H2 _]; subst. by split.
  - split; by eapply table_ok_shrink.
Qed.
Lemma table_ok_unaliased h cls n free : table_ok h cls n free → unaliased h cls n free.
Proof.
  intros [T1 T2 T3 T4]. split; [done| |done]. intros i a Ha. destruct (T3 i a Ha). split; [|done].
  destruct Ha as (_ & ? & _). lia.
Qed.

Lemma reachable_ok (Hco : classes_ok md m_listClassIdx m_dictClassIdx) x x' :
  rtc container_step x x' → tables_ok2 x → tables_ok2 x'.
Proof. induction 1 as [|x y z Hxy _ IH]; [done|]. intros Hx. apply IH. by eapply container_step_ok. Qed.
Lemma empty_table_ok h cls : (∀ i a, ¬ holds h cls i a) → table_ok h cls 0 [].
Proof.
  intros H. split; [by intros a ?%elem_of_nil|constructor| |].
  - intros i a Ha. by destruct (H i a).
  - intros i j a Ha. by destruct (H i a).
Qed.

End Histories.

(** ** Copies *)
Section Copies.
Context (fuel shard : nat) (md : tables) (m_listClassIdx m_dictClassIdx : Z).
Abbreviation call := (ExecuteIntrinsicContainerStructural fuel shard md m_listClassIdx m_dictClassIdx).
Lemma new_list_spec x : classes_ok md m_listClassIdx m_dictClassIdx → 0 ≤ m_listClassIdx →
  sides_ok shard m_listClassIdx m_dictClassIdx x → room x.2 →
  ∃ i a x', new_list fuel shard md m_listClassIdx x = Ok (i, a, x') ∧ grows x.1 x'.1 ∧ ¬ hlive x.1 i
    ∧ holds x'.1 m_listClassIdx i a ∧ m_listStore x'.2 !!z (a - 1) = Some [] ∧ m_dictStore x'.2 = m_dictStore x.2
    ∧ (∀ j, ¬ holds x.1 m_listClassIdx j a)
    ∧ ∀ b l, b ≠ a → m_listStore x.2 !!z (b - 1) = Some l → m_listStore x'.2 !!z (b - 1) = Some l.
Proof.
  intros Hco Hpos Hx [Hr _]. unfold new_list, new_container. destruct x as [h t]. rewrite decide_False by lia.
  destruct (alloc_instance fuel shard md m_listClassIdx m_dictClassIdx Hco h m_listClassIdx) as (i & h1 & r & -> & G & Hd & Hp & R & K & H0 & Hlen & Hn);
    [by left|lia|apply Hx|apply Hx|]. rewrite bindE.
  assert (table_ok h1 m_listClassIdx (length (m_listStore t)) (m_listFreeList t)) as Ht by by (eapply table_ok_shrink; [apply Hn|apply Hx]).
  destruct (AllocSlot_fresh h1 _ _ _ Ht Hr) as (a & store' & free' & E & Hf & _).
  unfold AllocListHandle, kListHandleFieldOffset. rewrite E, !bindE.
  destruct (set_cell_grows h h1 i r 1 a G Hd R Hlen) as (h2 & -> & G2 & R2 & K2 & _ & _). rewrite bindE.
  assert (holds h2 m_listClassIdx i a) as Hh.
  { split; [congruence|]. split; [apply Hf|]. exists (<[1%nat := a]> r), m_listClassIdx.
    split_and!; [done|by rewrite list_lookup_insert_ne| |by apply list_lookup_insert_eq].
    destruct (co_fields _ _ _ Hco m_listClassIdx) as (Hlt & _); [by left|done|]. apply swrap_small; [lia|]. unfold is_sint. lia. }
  exists i, a, (h2, MkSide store' free' (m_dictStore t) (m_dictFreeList t)). cbn. do 4 (split; [done|]).
  split; [apply Hf|]. split; [done|]. split.
  - intros j (Hk & Ha & r' & c' & Hr' & Hc). destruct (gr_ext _ _ G j) as (E1 & E2 & _); [by exists RTK_Class|].
    apply (fh_used _ _ _ _ _ _ Hf j). split_and!; [congruence|done|]. exists r', c'. split; [congruence|done].
  - intros b l. apply (fh_others _ _ _ _ _ _ Hf).
Qed.

(** Filling the new list, on a heap that has grown since. *)
Lemma new_list_filled x h1 t1 h2 i a es : grows x.1 h1 → grows h1 h2 → holds h1 m_listClassIdx i a →
  m_listStore t1 !!z (a - 1) = Some [] → (∀ j, ¬ holds x.1 m_listClassIdx j a) →
  (∀ b l, b ≠ a → m_listStore x.2 !!z (b - 1) = Some l → m_listStore t1 !!z (b - 1) = Some l) →
  list_at (h2, put_elements t1 a es) i a es ∧
  ∀ j b e, holds x.1 m_listClassIdx j b → list_at x j b e → b ≠ a ∧ list_at (h2, put_elements t1 a es) j b e.
Proof.
  intros G G2 Hi He Hno Hoth. split.
  - pose proof Hi as (Hk & Ha & r & c & Hri & _ & _ & H1).
    destruct (gr_ext _ _ G2 i) as (E1 & _); [by exists RTK_Class|]. split.
    + split_and!; [|done|exists r; split; [exact (eq_trans E1 Hri)|done]].
      pose proof (hlive_pos h1 i (gr_ok _ _ G)) as Hl. apply Hl. by exists RTK_Class.
    + apply ObjectSpec.zlookup_insert. by eapply zlookup_Some_lt.
  - intros j b e Hj [(Hpj & Hb & rj & Hrj & H1j) Hbe]. assert (b ≠ a) as Hba by (intros ->; by apply (Hno j)).
    split; [done|]. destruct (gr_ext _ _ (grows_trans _ _ _ G G2) j) as (E1 & _); [exists RTK_Class; split; [apply Hj|done]|].
    split; [split_and!; [done|done|exists rj; split; [exact (eq_trans E1 Hrj)|done]]|].
    cbn. pose proof (Hoth b e Hba Hbe) as Hb1. pose proof (zlookup_Some_lt _ _ _ Hb1). destruct Hi as (_ & Ha & _).
    rewrite zlookup_insert_ne; [done|lia|lia].
Qed.

(** [List.copy] and [Dict.keys] return a new list with the elements, or the keys in
    order, in a side slot of its own: every list that existed keeps its elements, and
    later changes of either are not seen by the other. *)
Theorem new_lists_independent id x this handle l cpb locals p :
  classes_ok md m_listClassIdx m_dictClassIdx → 0 ≤ m_listClassIdx →
  sides_ok shard m_listClassIdx m_dictClassIdx x → room x.2 → staged locals cpb [this] → (4 ≤ length p)%nat →
  (id = INTR_List_Copy ∧ list_at x this handle l ∧ holds x.1 m_listClassIdx this handle
   ∨ id = INTR_Dict_Keys ∧ ∃ entries, dict_at x this handle entries ∧ l = entries.*1) →
  ∃ i a x' p', call id cpb locals x p = Ok (Some (x', p')) ∧ returned p p' (Some i)
    ∧ ¬ hlive x.1 i ∧ list_at x' i a l ∧ grows x.1 x'.1
    ∧ ∀ j b e, holds x.1 m_listClassIdx j b → list_at x j b e → b ≠ a ∧ list_at x' j b e.
Proof.
  intros Hco Hpos Hx Hr Hs Hp Hid.
  destruct (new_list_spec x Hco Hpos Hx Hr) as (i & a & [h1 t1] & En & G & Hd & Hi & He0 & Hdict & Hno & Hoth).
  destruct x as [h t]. cbn [fst snd] in *. destruct (st32_returned p i Hp) as (p' & Ep & Hret).
  assert (grows h1 (HNoteGcPressure h1)) as Gn by apply grows_note, grows_refl, (gr_ok _ _ G).
  pose proof (λ es, new_list_filled (h, t) h1 t1 (HNoteGcPressure h1) i a es G Gn Hi He0 Hno Hoth) as Hq.
  cbv [ExecuteIntrinsicContainerStructural].
  destruct Hid as [(-> & Hl & Hh)|(-> & entries & Hl & ->)]; rewrite ?(decide_False (P := _ = _)) by done; rewrite decide_True by done.
  - unfold List_Copy, ReadListHandle. cbn [fst snd]. rewrite (ReadHandle_ok "List" "copy" h this handle cpb locals []) by (apply Hl || done).
    rewrite bindE, En, bindE. destruct Hl as [_ Hl]. cbn in Hl. assert (handle ≠ a) as Hne by (intros ->; by apply (Hno this)).
    unfold elements_at. rewrite (Hoth handle l Hne Hl), derefE, bindE, Ep, bindE.
    destruct (Hq l) as [Hl' Hall]. eexists i, a, _, p'. split; [done|]. split; [done|]. split_and!; [done|done|by apply grows_note|done].
  - unfold Dict_Keys, ReadDictHandle. cbn [fst snd]. rewrite (ReadHandle_ok "Dict" "keys" h this handle cpb locals []) by (apply Hl || done).
    rewrite bindE. destruct Hl as [_ Hl]. cbn in Hl. unfold entries_at. rewrite Hl, derefE, bindE, En, bindE, Ep, bindE.
    destruct (Hq (entries.*1)) as [Hl' Hall]. eexists i, a, _, p'. split; [done|]. split; [done|]. split_and!; [done|done|by apply grows_note|done].
Qed.
End Copies.


(** ** A concrete run *)
Definition bare_list : heap :=
  match AllocClassOnHeap 1 demo_container_tables demo_heap 0 0 with Ok (_, h) => h | Raise _ => demo_heap end.
Lemma demo_container_classes_ok : classes_ok demo_container_tables 0 1.
Proof.
  split; [done|]. intros cls [-> | ->] _; (split; [lia|]); eexists; (split; [reflexivity|]); (split; [simpl; lia|]); by intros [|j].
Qed.
Lemma demo_heap_unused cls i a : ¬ holds demo_heap cls i a.
Proof.
  intros (Hk & _). assert (Forall (λ k, k = 0) (m_slotKinds demo_heap)) as H by (apply (bool_decide_unpack _); vm_compute; exact I).
  rewrite list.Forall_forall in H. unfold kind_at, zlookup in Hk. case_decide; [|done].
  apply list_elem_of_lookup_2, H in Hk. done.
Qed.
Lemma bare_list_ok : heap_ok bare_list ∧ (0 < length (m_heapShards bare_list))%nat ∧ ∀ cls i a, ¬ holds bare_list cls i a.
Proof.
  destruct (alloc_instance 1 0 demo_container_tables 0 1 demo_container_classes_ok demo_heap 0 (or_introl eq_refl) ltac:(lia)
    (proj1 demo_heap_ok) (proj2 demo_heap_ok)) as (i & h' & r & E & G & _ & _ & _ & _ & _ & _ & Hn).
  assert (bare_list = h') as ->.
  { change (AllocClassOnHeap 1 demo_container_tables demo_heap 0 0 = Ok (i, h')) in E. unfold bare_list. by rewrite E. }
  split; [apply G|]. split; [rewrite (gr_shards _ _ G); apply demo_heap_ok|].
  intros cls j a Hj. by apply (demo_heap_unused cls j a), Hn.
Qed.
Definition demo_call (id : Z) (vs : list Z) (x : conts) : conts :=
  match ExecuteIntrinsicContainerStructural 10 0 demo_container_tables 0 1 id 0 (concat (le_bytes 8 <$> vs)) x (replicate 8 0) with
  | Ok (Some (x', _)) => x'
  | _ => x
  end.
(** The list 1 after its constructor and after one [add]. *)
Definition built : conts := demo_call INTR_List_Ctor [1] (bare_list, MkSide [] [] [] []).
Definition added : conts := demo_call INTR_List_Add [1; 7] built.
Lemma built_ok : sides_ok 0 0 1 built.
Proof.
  destruct bare_list_ok as (Hok & Hsh & Hno).
  eapply (call_ok 10 0 demo_container_tables 0 1 demo_container_classes_ok INTR_List_Ctor 0 (concat (le_bytes 8 <$> [1]))
    (bare_list, MkSide [] [] [] []) (replicate 8 0) (built, replicate 8 0)).
  - split; [done|done|by apply empty_table_ok..].
  - split; vm_compute; reflexivity.
  - intros this Ht. assert (this = 1) as -> by (vm_compute in Ht; by injection Ht). split; [|done]. intros _ r c _ Hr H0.
    vm_compute in Hr. injection Hr as <-. injection H0 as <-. done.
  - by vm_compute.
Qed.
Lemma added_ok : sides_ok 0 0 1 added.
Proof.
  eapply (call_ok 10 0 demo_container_tables 0 1 demo_container_classes_ok INTR_List_Add 0 (concat (le_bytes 8 <$> [1; 7]))
    built (replicate 8 0) (added, replicate 8 0) built_ok).
  - split; vm_compute; reflexivity.
  - intros this _. split; intros [=].
  - by vm_compute.
Qed.
Lemma new_lists_independent_witness : list_at added 1 1 [7] ∧
  ∃ i a x' p', ExecuteIntrinsicContainerStructural 10 0 demo_container_tables 0 1 INTR_List_Copy 0
    (concat (le_bytes 8 <$> [1])) added (replicate 8 0) = Ok (Some (x', p')) ∧ list_at x' i a [7] ∧ list_at x' 1 1 [7].
Proof.
  assert (list_at added 1 1 [7]) as Hl by (split; [split_and!; [done..|by exists [0; 1; 0]; vm_compute]|by vm_compute]).
  assert (holds added.1 0 1 1) as Hh by (split_and!; [by vm_compute|done|by exists [0; 1; 0], 0; vm_compute]).
  split; [exact Hl|].
  destruct (new_lists_independent 10 0 demo_container_tables 0 1 INTR_List_Copy added 1 1 [7] 0
    (concat (le_bytes 8 <$> [1])) (replicate 8 0) demo_container_classes_ok) as (i & a & x' & p' & E & _ & _ & Hc & _ & Hall).
  - lia.
  - exact added_ok.
  - split; vm_compute; reflexivity.
  - apply staged_args. sints.
  - simpl. lia.
  - left. split; [done|]. split; [exact Hl|exact Hh].
  - exists i, a, x', p'. split; [exact E|]. split; [exact Hc|]. apply (Hall 1 1 [7] Hh Hl).
Defined.
