(* ===== verification/StringMethods.v ===== *)
(** * String methods

    Models the intrinsics of [src/src/vm/IntrinsicsString.cpp]: the receiver's handle is
    argument 0, the other arguments follow, texts are copied out of the string store, and a
    text result is a newly minted string.  The hash is the C++ library's and an argument. *)
From S2P Require Import Prelude.
From S2P Require Import Bytecode Package Prims TypeDesc Shards Strings Utf8 StringOps StringText StringTextSpec Layout Heap HeapGC HeapSweep Arrays ArraySlice Frames.
From S2P Require Import SchedState Sched SchedSpec SyncPrims StaticInit Objects Exec ExecTypes ObjectSpec Containers ContainerSpec ContainerSlots.
From stdpp Require Import pretty.
Open Scope Z_scope.

Definition INTR_String_Equals : Z := 42.
Definition INTR_String_GetHashCode : Z := 43.
Definition INTR_String_Substring : Z := 95.
Definition INTR_String_IndexOf : Z := 96.
Definition INTR_String_StartsWith : Z := 97.
Definition INTR_String_EndsWith : Z := 98.
Definition INTR_String_Contains : Z := 99.
Definition INTR_String_ToUpper : Z := 100.
Definition INTR_String_ToLower : Z := 101.
Definition INTR_String_Trim : Z := 102.
Definition INTR_String_Split : Z := 103.
Definition INTR_String_Replace : Z := 104.
Definition INTR_String_ToInt : Z := 105.
Definition INTR_String_ToFloat : Z := 106.
Definition INTR_String_CharAt : Z := 107.
Definition INTR_String_CharCount : Z := 108.
Definition INTR_String_ToChar : Z := 109.
Definition INTR_String_ToLong : Z := 110.
Definition INTR_String_ToDouble : Z := 111.
Definition INTR_String_ToBool : Z := 112.

Section Ops.
Context (fuel shard : nat) (md : tables) (m_listClassIdx : Z) (string_hash : bytes → Z).

Definition ReadStrArg (h : heap) (cpb : Z) (locals : bytes) (slot : nat) : outcome bytes :=
  handle ← arg locals cpb slot; StrValCopy fuel (strs h) handle.

(** ** Results *)
Definition result32 (v : Z) (x : conts) (p : bytes) : outcome (conts * bytes) := p ← st32 p 0 v; Ok (x, p).
Definition result64 (v : Z) (x : conts) (p : bytes) : outcome (conts * bytes) := p ← store 8 p 0 v; Ok (x, p).
Definition result_text (content : bytes) (x : conts) (p : bytes) : outcome (conts * bytes) :=
  let '(h, t) := x in
  '(handle, st) ← MintNewString (strs h) shard content;
  p ← st32 p 0 handle;
  Ok ((hwith_strs h st, t), p).
Definition flag_of (b : bool) : Z := if b then 1 else 0.
Definition RaiseNlangExceptionBase {A} (msg : string) : outcome A := Raise (NlangExc ExcBase msg).
Definition in_quotes (s : string) : string :=
  let quote := String (Ascii.ascii_of_nat 34) EmptyString in quote +:+ s +:+ quote.
Definition not_valid {A} (method : string) (s : bytes) (kind : string) : outcome A :=
  RaiseNlangExceptionBase ("string." +:+ method +:+ ": " +:+ in_quotes (text s) +:+ " is not a valid " +:+ kind +:+ ".").
Definition number (z : Z) : string := pretty z.

(** ** Methods *)
Definition String_Equals (cpb : Z) (locals : bytes) (x : conts) (p : bytes) :=
  a ← ReadStrArg x.1 cpb locals 0; b ← ReadStrArg x.1 cpb locals 1;
  result32 (flag_of (bool_decide (a = b))) x p.
Definition String_GetHashCode (cpb : Z) (locals : bytes) (x : conts) (p : bytes) :=
  s ← ReadStrArg x.1 cpb locals 0; result32 (i32 (string_hash s)) x p.
Definition String_Substring (cpb : Z) (locals : bytes) (x : conts) (p : bytes) :=
  s ← ReadStrArg x.1 cpb locals 0;
  start ← arg locals cpb 1; end_ ← arg locals cpb 2;
  let size := Z.of_nat (length s) in
  _ ← check (negb (bool_decide (start < 0 ∨ size < start ∨ end_ < start ∨ size < end_)))
        (NlangExc ExcOob ("string.substring: range [" +:+ number start +:+ ", " +:+ number end_ +:+ ") outside string of "
                          +:+ number size +:+ " bytes."));
  result_text (take (Z.to_nat (end_ - start)) (drop (Z.to_nat start) s)) x p.
Definition String_IndexOf (cpb : Z) (locals : bytes) (x : conts) (p : bytes) :=
  s ← ReadStrArg x.1 cpb locals 0; needle ← ReadStrArg x.1 cpb locals 1;
  result32 (match str_find s needle 0 with Some hit => i32 (Z.of_nat hit) | None => -1 end) x p.
Definition String_StartsWith (cpb : Z) (locals : bytes) (x : conts) (p : bytes) :=
  s ← ReadStrArg x.1 cpb locals 0; prefix ← ReadStrArg x.1 cpb locals 1;
  result32 (flag_of (has_prefix s prefix)) x p.
Definition String_EndsWith (cpb : Z) (locals : bytes) (x : conts) (p : bytes) :=
  s ← ReadStrArg x.1 cpb locals 0; suffix ← ReadStrArg x.1 cpb locals 1;
  result32 (flag_of (has_suffix s suffix)) x p.
Definition String_Contains (cpb : Z) (locals : bytes) (x : conts) (p : bytes) :=
  s ← ReadStrArg x.1 cpb locals 0; needle ← ReadStrArg x.1 cpb locals 1;
  result32 (flag_of (bool_decide (is_Some (str_find s needle 0)))) x p.
Definition String_Case (convert : Z → Z) (cpb : Z) (locals : bytes) (x : conts) (p : bytes) :=
  s ← ReadStrArg x.1 cpb locals 0; result_text (convert <$> s) x p.
Definition String_Trim (cpb : Z) (locals : bytes) (x : conts) (p : bytes) :=
  s ← ReadStrArg x.1 cpb locals 0; result_text (trim_text s) x p.
(** One boxed string for each part. *)
Definition push_part (acc : heap * list Z) (part : bytes) : outcome (heap * list Z) :=
  let '(h, elements) := acc in
  '(handle, st) ← MintNewString (strs h) shard part;
  '(boxed, h) ← AllocBoxedValue (hwith_strs h st) shard RTK_String handle;
  Ok (h, elements ++ [boxed]).
Definition String_Split (cpb : Z) (locals : bytes) (x : conts) (p : bytes) : outcome (conts * bytes) :=
  s ← ReadStrArg x.1 cpb locals 0; sep ← ReadStrArg x.1 cpb locals 1;
  _ ← check (bool_decide (sep ≠ [])) (NlangExc ExcBase "string.split: the separator must not be empty.");
  parts ← split_text s sep;
  '(listHeapIdx, listHandle, (h, t)) ← new_list fuel shard md m_listClassIdx x;
  l ← elements_at t listHandle;
  '(h, l) ← foldM push_part (h, l) parts;
  p ← st32 p 0 listHeapIdx;
  Ok ((h, put_elements t listHandle l), p).
Definition String_Replace (cpb : Z) (locals : bytes) (x : conts) (p : bytes) :=
  s ← ReadStrArg x.1 cpb locals 0; oldStr ← ReadStrArg x.1 cpb locals 1; newStr ← ReadStrArg x.1 cpb locals 2;
  _ ← check (bool_decide (oldStr ≠ [])) (NlangExc ExcBase "string.replace: the searched text must not be empty.");
  out ← replace_text s oldStr newStr;
  result_text out x p.
Definition String_ToInt (cpb : Z) (locals : bytes) (x : conts) (p : bytes) :=
  s ← ReadStrArg x.1 cpb locals 0;
  match strict_int s with
  | Some v => if decide (v < INT32_MIN ∨ INT32_MAX < v) then not_valid "toInt" s "int" else result32 v x p
  | None => not_valid "toInt" s "int"
  end.
Definition String_ToFloat (cpb : Z) (locals : bytes) (x : conts) (p : bytes) :=
  s ← ReadStrArg x.1 cpb locals 0;
  match strict_float binary32 s with Some bits => result32 bits x p | None => not_valid "toFloat" s "float" end.
Definition String_CharAt (cpb : Z) (locals : bytes) (x : conts) (p : bytes) :=
  s ← ReadStrArg x.1 cpb locals 0; idx ← arg locals cpb 1;
  let size := Z.of_nat (length s) in
  _ ← check (negb (bool_decide (idx < 0 ∨ size ≤ idx)))
        (NlangExc ExcOob ("string.charAt: byte index " +:+ number idx +:+ " outside string of " +:+ number size +:+ " bytes."));
  r ← DecodeCodePointAt s (Z.to_nat idx);
  match r with
  | Some (cp, _) => result32 cp x p
  | None => RaiseNlangExceptionBase ("string.charAt: byte index " +:+ number idx +:+ " does not start a valid UTF-8 sequence.")
  end.
Definition String_CharCount (cpb : Z) (locals : bytes) (x : conts) (p : bytes) :=
  s ← ReadStrArg x.1 cpb locals 0;
  r ← char_count s;
  match r with
  | inl count => result32 count x p
  | inr i => RaiseNlangExceptionBase ("string.charCount: invalid UTF-8 sequence at byte " +:+ number (Z.of_nat i) +:+ ".")
  end.
Definition String_ToChar (cpb : Z) (locals : bytes) (x : conts) (p : bytes) :=
  s ← ReadStrArg x.1 cpb locals 0;
  match strict_int s with
  | Some v => if decide (v < 0 ∨ 1114111 < v ∨ 55296 ≤ v ≤ 57343) then not_valid "toChar" s "char" else result32 v x p
  | None => not_valid "toChar" s "char"
  end.
Definition String_ToLong (cpb : Z) (locals : bytes) (x : conts) (p : bytes) :=
  s ← ReadStrArg x.1 cpb locals 0;
  match strict_int s with Some v => result64 v x p | None => not_valid "toLong" s "long" end.
Definition String_ToDouble (cpb : Z) (locals : bytes) (x : conts) (p : bytes) :=
  s ← ReadStrArg x.1 cpb locals 0;
  match strict_float binary64 s with Some bits => result64 bits x p | None => not_valid "toDouble" s "double" end.
Definition TRUE : bytes := [116; 114; 117; 101].
Definition FALSE : bytes := [102; 97; 108; 115; 101].
Definition String_ToBool (cpb : Z) (locals : bytes) (x : conts) (p : bytes) :=
  s ← ReadStrArg x.1 cpb locals 0;
  if decide (s ≠ TRUE ∧ s ≠ FALSE) then
    RaiseNlangExceptionBase ("string.toBool: " +:+ in_quotes (text s) +:+ " is not a valid bool (expected " +:+ in_quotes "true" +:+ " or " +:+ in_quotes "false" +:+ ").")
  else result32 (flag_of (bool_decide (s = TRUE))) x p.

(** [None]: the identifier is not one of the family. *)
Definition ExecuteIntrinsicString (id cpb : Z) (locals : bytes) (x : conts) (p : bytes) : outcome (option (conts * bytes)) :=
  let run f := r ← f cpb locals x p; Ok (Some r) in
  if decide (id = INTR_String_Equals) then run String_Equals
  else if decide (id = INTR_String_GetHashCode) then run String_GetHashCode
  else if decide (id = INTR_String_Substring) then run String_Substring
  else if decide (id = INTR_String_IndexOf) then run String_IndexOf
  else if decide (id = INTR_String_StartsWith) then run String_StartsWith
  else if decide (id = INTR_String_EndsWith) then run String_EndsWith
  else if decide (id = INTR_String_Contains) then run String_Contains
  else if decide (id = INTR_String_ToUpper) then run (String_Case ascii_upper)
  else if decide (id = INTR_String_ToLower) then run (String_Case ascii_lower)
  else if decide (id = INTR_String_Trim) then run String_Trim
  else if decide (id = INTR_String_Split) then run String_Split
  else if decide (id = INTR_String_Replace) then run String_Replace
  else if decide (id = INTR_String_ToInt) then run String_ToInt
  else if decide (id = INTR_String_ToFloat) then run String_ToFloat
  else if decide (id = INTR_String_CharAt) then run String_CharAt
  else if decide (id = INTR_String_CharCount) then run String_CharCount
  else if decide (id = INTR_String_ToChar) then run String_ToChar
  else if decide (id = INTR_String_ToLong) then run String_ToLong
  else if decide (id = INTR_String_ToDouble) then run String_ToDouble
  else if decide (id = INTR_String_ToBool) then run String_ToBool
  else Ok None.
End Ops.
