(* ===== verification/StringMethodSpec.v ===== *)
(** * What the string methods promise

    A method reads its arguments as texts, whatever their representation in the store, and
    answers as the mathematical description of the method says: a number, a new string, a
    new list of strings, or an exception.  Nothing that was alive changes. *)
From S2P Require Import Prelude.
From S2P Require Import Bytecode Package Prims TypeDesc Shards Strings Utf8 StringOps StringText StringTextSpec Layout Heap HeapGC HeapSweep Arrays ArraySlice Frames.
From S2P Require Import SchedState Sched SchedSpec SyncPrims StaticInit Objects Exec ExecTypes ObjectSpec Containers ContainerSpec ContainerSlots StringMethods.
Open Scope Z_scope.

Inductive value := VText (s : bytes) | VInt (v : Z).
Inductive reply := RInt (v : Z) | RWide (v : Z) | RText (s : bytes) | RTexts (ts : list bytes) | RRaise (c : exc_class).

(** ** The methods, on texts *)
Section means.
Context (string_hash : bytes → Z).
(** The first occurrence of [needle], or -1. *)
Definition first_at (s needle : bytes) (r : Z) : Prop :=
  (∃ i, r = Z.of_nat i ∧ occurs s i needle ∧ ∀ j, (j < i)%nat → ¬ occurs s j needle) ∨ (r = -1 ∧ ∀ j, ¬ occurs s j needle).
(** The whole text is a decimal number with an optional sign, of value [v]. *)
Definition number_text (s : bytes) (v : Z) : Prop :=
  ∃ sgn ds, s = sgn ++ ds ∧ sign_text sgn ∧ digits ds ∧ v = signed (bool_decide (sgn = [45])) (dec_value ds) ∧ is_sint 64 v.
(** A number is the reply when its text is one and its value fits. *)
Definition parses (s : bytes) (ok : Z → Prop) (r : Z → reply) (out : reply) : Prop :=
  (∃ v, number_text s v ∧ ok v ∧ out = r v) ∨ ((∀ v, number_text s v → ¬ ok v) ∧ out = RRaise ExcBase).
(** The same for a number with a fraction or an exponent whose rounding is finite. *)
Definition parses_float (f : format) (s : bytes) (r : Z → reply) (out : reply) : Prop :=
  (∃ x, float_text f s x ∧ is_finite x = true ∧ out = r (bits_of_float f x)) ∨
  ((∀ x, float_text f s x → is_finite x = false) ∧ out = RRaise ExcBase).
Inductive means : Z → list value → reply → Prop :=
  | m_equals a b : means INTR_String_Equals [VText a; VText b] (RInt (flag_of (bool_decide (a = b))))
  | m_hash s : means INTR_String_GetHashCode [VText s] (RInt (string_hash s))
  | m_substring s pre out post a b : s = pre ++ out ++ post → a = Z.of_nat (length pre) → b = Z.of_nat (length (pre ++ out)) →
      means INTR_String_Substring [VText s; VInt a; VInt b] (RText out)
  | m_substring_out s a b : ¬ (0 ≤ a ≤ b ∧ b ≤ Z.of_nat (length s)) → means INTR_String_Substring [VText s; VInt a; VInt b] (RRaise ExcOob)
  | m_indexOf s needle r : first_at s needle r → means INTR_String_IndexOf [VText s; VText needle] (RInt r)
  | m_contains s needle b : (b = true ↔ ∃ j, occurs s j needle) → means INTR_String_Contains [VText s; VText needle] (RInt (flag_of b))
  | m_startsWith s prefix b : (b = true ↔ ∃ post, s = prefix ++ post) → means INTR_String_StartsWith [VText s; VText prefix] (RInt (flag_of b))
  | m_endsWith s suffix b : (b = true ↔ ∃ pre, s = pre ++ suffix) → means INTR_String_EndsWith [VText s; VText suffix] (RInt (flag_of b))
  | m_toUpper s : means INTR_String_ToUpper [VText s] (RText (ascii_upper <$> s))
  | m_toLower s : means INTR_String_ToLower [VText s] (RText (ascii_lower <$> s))
  | m_trim l t r : Forall (λ b, isWs b = true) (l ++ r) → (∀ b, head t = Some b → isWs b = false) →
      (∀ b, list.last t = Some b → isWs b = false) → means INTR_String_Trim [VText (l ++ t ++ r)] (RText t)
  | m_split sep parts : sep ≠ [] → cut_leftmost sep parts → means INTR_String_Split [VText (join_text sep parts); VText sep] (RTexts parts)
  | m_split_empty s : means INTR_String_Split [VText s; VText []] (RRaise ExcBase)
  | m_replace old new parts : old ≠ [] → cut_leftmost old parts →
      means INTR_String_Replace [VText (join_text old parts); VText old; VText new] (RText (join_text new parts))
  | m_replace_empty s new : means INTR_String_Replace [VText s; VText []; VText new] (RRaise ExcBase)
  | m_toInt s out : parses s is_int32 RInt out → means INTR_String_ToInt [VText s] out
  | m_toLong s out : parses s (λ _, True) RWide out → means INTR_String_ToLong [VText s] out
  | m_toChar s out : parses s scalar RInt out → means INTR_String_ToChar [VText s] out
  | m_toFloat s out : parses_float Prims.binary32 s RInt out → means INTR_String_ToFloat [VText s] out
  | m_toDouble s out : parses_float Prims.binary64 s RWide out → means INTR_String_ToDouble [VText s] out
  | m_toBool_true : means INTR_String_ToBool [VText TRUE] (RInt 1)
  | m_toBool_false : means INTR_String_ToBool [VText FALSE] (RInt 0)
  | m_toBool_else s : s ≠ TRUE → s ≠ FALSE → means INTR_String_ToBool [VText s] (RRaise ExcBase)
  | m_charAt pre cp post : Forall is_byte pre → scalar cp → Forall is_byte post →
      means INTR_String_CharAt [VText (pre ++ Utf8EncodeCodePoint cp ++ post); VInt (Z.of_nat (length pre))] (RInt cp)
  | m_charAt_out s i : ¬ (0 ≤ i < Z.of_nat (length s)) → means INTR_String_CharAt [VText s; VInt i] (RRaise ExcOob)
  | m_charAt_else s i : 0 ≤ i < Z.of_nat (length s) → (∀ cp post, scalar cp → drop (Z.to_nat i) s ≠ Utf8EncodeCodePoint cp ++ post) →
      means INTR_String_CharAt [VText s; VInt i] (RRaise ExcBase)
  | m_charCount cps : Forall scalar cps → means INTR_String_CharCount [VText (encode_all cps)] (RInt (Z.of_nat (length cps)))
  | m_charCount_else s : (∀ cps, Forall scalar cps → s ≠ encode_all cps) → means INTR_String_CharCount [VText s] (RRaise ExcBase).
End means.

(** ** The text functions do it *)
Lemma find_first s needle : Z.of_nat (length s) ≤ INT32_MAX →
  first_at s needle (match str_find s needle 0 with Some hit => i32 (Z.of_nat hit) | None => -1 end).
Proof.
  intros Hs. pose proof (str_find_spec s needle 0 ltac:(lia)) as H. destruct (str_find s needle 0) as [i|].
  - destruct H as (_ & Ho & Hmin). left. exists i. split_and!; [|done|intros j Hj; apply Hmin; lia].
    pose proof (occurs_length _ _ _ Ho). apply swrap_small; [lia|]. unfold is_sint, INT32_MAX in *. lia.
  - right. split; [done|]. intros j. apply H. lia.
Qed.
Lemma find_any s needle : bool_decide (is_Some (str_find s needle 0)) = true ↔ ∃ j, occurs s j needle.
Proof.
  pose proof (str_find_spec s needle 0 ltac:(lia)) as H. rewrite bool_decide_eq_true. destruct (str_find s needle 0) as [i|].
  - split; [intros _; exists i; apply H|done].
  - split; [by intros [? ?]|]. intros [j Hj]. exfalso. apply (H j); [lia|done].
Qed.
Lemma has_prefix_spec s prefix : has_prefix s prefix = true ↔ ∃ post, s = prefix ++ post.
Proof.
  unfold has_prefix. rewrite andb_true_iff, !bool_decide_eq_true. split.
  - intros [_ E]. exists (drop (length prefix) s). rewrite <- E at 1. by rewrite take_drop.
  - intros [post ->]. rewrite length_app, take_app_length. split; [lia|done].
Qed.
Lemma has_suffix_spec s suffix : has_suffix s suffix = true ↔ ∃ pre, s = pre ++ suffix.
Proof.
  unfold has_suffix. rewrite andb_true_iff, !bool_decide_eq_true. split.
  - intros [_ E]. exists (take (length s - length suffix) s). rewrite <- E at 2. by rewrite take_drop.
  - intros [pre ->]. rewrite length_app. replace (length pre + length suffix - length suffix)%nat with (length pre) by lia.
    rewrite drop_app_length. split; [lia|done].
Qed.
Lemma strict_int_number s v : 0 ∉ s → strict_int s = Some v ↔ number_text s v.
Proof. intros Hn. rewrite strict_int_spec, c_str_no_nul by done. done. Qed.
Lemma number_text_unique s v w : number_text s v → number_text s w → v = w.
Proof.
  intros (sg & ds & -> & Hs & Hd & -> & _) (sg' & ds' & E & Hs' & Hd' & -> & _).
  pose proof (strtoll_number sg ds Hs Hd) as H. rewrite E, strtoll_number in H by done. by injection H.
Qed.
Lemma parses_float_unique f s r out out' : parses_float f s r out → parses_float f s r out' → out = out'.
Proof.
  intros [(x & Hx & Fx & ->)|[Hn ->]] [(y & Hy & Fy & ->)|[Hn' ->]]; [|rewrite Hn' in Fx; done|rewrite Hn in Fy; done|done].
  apply float_text_iff in Hx as [_ Hx], Hy as [_ Hy]. rewrite Hx in Hy. by injection Hy as ->.
Qed.
Lemma decode_at s i cp n : Forall is_byte s → 0 ≤ i < Z.of_nat (length s) → decode1 (drop (Z.to_nat i) s) = Some (cp, n) →
  scalar cp ∧ ∃ pre post, i = Z.of_nat (length pre) ∧ s = pre ++ Utf8EncodeCodePoint cp ++ post.
Proof.
  intros Hs Hi Hd. destruct (decode1_sound (drop (Z.to_nat i) s) cp n) as (Hc & _ & E); [by apply Forall_drop|done|].
  split; [done|]. exists (take (Z.to_nat i) s), (drop n (drop (Z.to_nat i) s)).
  split; [rewrite length_take; lia|]. by rewrite <- E, take_drop.
Qed.
Lemma decode_not s : Forall is_byte s → decode1 s = None → ∀ cp post, scalar cp → s ≠ Utf8EncodeCodePoint cp ++ post.
Proof.
  intros Hs Hd cp post Hc ->. apply list.Forall_app in Hs as [_ Hs]. by rewrite decode1_encode in Hd.
Qed.

(** ** The description leaves no choice *)
Lemma first_at_unique s needle r r' : first_at s needle r → first_at s needle r' → r = r'.
Proof.
  intros [(i & -> & Hi & Mi)|[-> Hi]] [(j & -> & Hj & Mj)|[-> Hj]]; [|by destruct (Hj i)|by destruct (Hi j)|done].
  destruct (Nat.lt_trichotomy i j) as [H|[->|H]]; [by destruct (Mj i H)|done|by destruct (Mi j H)].
Qed.
Lemma parses_unique s ok r out out' : parses s ok r out → parses s ok r out' → out = out'.
Proof.
  pose proof (number_text_unique s) as Hu.
  intros [(v & Hv & Ho & ->)|[Hn ->]] [(w & Hw & Ho' & ->)|[Hn' ->]]; [by rewrite (Hu v w)|by destruct (Hn' v)|by destruct (Hn w)|done].
Qed.
Lemma flag_unique (P : Prop) b c : (b = true ↔ P) → (c = true ↔ P) → b = c.
Proof. intros Hb Hc. destruct b, c; tauto || (symmetry; tauto). Qed.
Lemma trim_front_app l s : Forall (λ b, isWs b = true) l → trim_front (l ++ s) = trim_front s.
Proof. induction 1 as [|b l Hb _ IH]; [done|]. simpl. by rewrite Hb. Qed.
Lemma trim_back_ws r : Forall (λ b, isWs b = true) r → trim_back r = [].
Proof. induction 1 as [|b r Hb _ IH]; [done|]. simpl. by rewrite IH, Hb. Qed.
Lemma trim_back_app t r : Forall (λ b, isWs b = true) r → (∀ b, list.last t = Some b → isWs b = false) → trim_back (t ++ r) = t.
Proof.
  intros Hr. induction t as [|b t IH]; intros Hl; [by apply trim_back_ws|]. cbn [trim_back app]. rewrite IH.
  - destruct t as [|c t]; [by rewrite (Hl b)|done].
  - destruct t as [|c t]; [done|exact Hl].
Qed.
Lemma trim_text_mid l t r : Forall (λ b, isWs b = true) (l ++ r) → (∀ b, head t = Some b → isWs b = false) →
  (∀ b, list.last t = Some b → isWs b = false) → trim_text (l ++ t ++ r) = t.
Proof.
  intros [Hl Hr]%list.Forall_app Hh Ht. unfold trim_text. rewrite trim_front_app by done. destruct t as [|b t].
  - rewrite app_nil_l. rewrite <- (app_nil_r r), trim_front_app by done. done.
  - cbn [app]. rewrite trim_front_id by (by apply Hh). by apply (trim_back_app (b :: t)).
Qed.
Lemma char_unique pre post cp pre' post' cp' : length pre = length pre' → Forall is_byte post → Forall is_byte post' →
  scalar cp → scalar cp' → pre ++ Utf8EncodeCodePoint cp ++ post = pre' ++ Utf8EncodeCodePoint cp' ++ post' → cp = cp'.
Proof.
  intros Hl H H' Hc Hc' [_ E]%app_inj_1; [|done]. apply (f_equal decode1) in E. rewrite !decode1_encode in E by done. by injection E.
Qed.
Lemma encode_all_inj cps cps' : Forall scalar cps → Forall scalar cps' → encode_all cps = encode_all cps' → cps = cps'.
Proof. intros H H' E. destruct (encode_all_unique cps cps' []) as [-> _]; [done|done|constructor|done|by rewrite app_nil_r|done]. Qed.

Lemma char_inside pre cp post : 0 ≤ Z.of_nat (length pre) < Z.of_nat (length (pre ++ Utf8EncodeCodePoint cp ++ post)).
Proof. rewrite !length_app. pose proof (Utf8Encode_pos cp). lia. Qed.
Lemma char_not_else pre cp post : scalar cp → ¬ (∀ cp' post', scalar cp' →
  drop (Z.to_nat (Z.of_nat (length pre))) (pre ++ Utf8EncodeCodePoint cp ++ post) ≠ Utf8EncodeCodePoint cp' ++ post').
Proof. intros Hc H. apply (H cp post Hc). by rewrite Nat2Z.id, drop_app_length. Qed.
Lemma middle_inside (pre out post : bytes) : 0 ≤ Z.of_nat (length pre) ≤ Z.of_nat (length (pre ++ out)) ∧
  Z.of_nat (length (pre ++ out)) ≤ Z.of_nat (length (pre ++ out ++ post)).
Proof. rewrite !length_app. lia. Qed.
Lemma middle_unique (pre out post pre' out' post' : bytes) : pre ++ out ++ post = pre' ++ out' ++ post' →
  length pre = length pre' → length (pre ++ out) = length (pre' ++ out') → out = out'.
Proof. intros E Hl Ho. apply app_inj_1 in E as [-> E]; [|done]. rewrite !length_app in Ho. apply app_inj_1 in E as [-> _]; [done|lia]. Qed.

Lemma means_functional h id vs r r' : means h id vs r → means h id vs r' → r = r'.
Proof.
  intros H H'. destruct H; inversion H'; subst; try discriminate; try done; try lia.
  all: try (exfalso; match goal with
    | H : ¬ (0 ≤ _ < _) |- _ => by apply H, char_inside
    | H : ¬ (_ ∧ _) |- _ => by apply H, middle_inside
    | H : ∀ cp post, scalar cp → _ |- _ => by eapply char_not_else in H
    | H : ∀ cps, Forall scalar cps → _ |- _ => by eapply H
    end).
  all: try (f_equal; by eapply first_at_unique); try (by eapply parses_unique); try (by eapply parses_float_unique); try (do 2 f_equal; by eapply flag_unique).
  - f_equal. eapply middle_unique; [done|lia..].
  - f_equal. rewrite <- (trim_text_mid l t r), <- (trim_text_mid l0 t0 r0) by done. congruence.
  - f_equal. by eapply cut_unique.
  - do 2 f_equal. by eapply (cut_unique old).
  - f_equal. symmetry. eapply (char_unique pre0 post0 cp0 pre post cp); (done || lia).
  - do 3 f_equal. by apply encode_all_inj.
Qed.

(** ** Calls *)
Inductive vtype := TText | TInt.
#[export] Instance vtype_eq_dec : EqDecision vtype.
Proof. solve_decision. Defined.
Definition type_of (v : value) : vtype := match v with VText _ => TText | VInt _ => TInt end.
(** The receiver is the first argument. *)
Definition signatures : list (Z * list vtype) :=
  [(INTR_String_Equals, [TText; TText]); (INTR_String_GetHashCode, [TText]); (INTR_String_Substring, [TText; TInt; TInt]);
   (INTR_String_IndexOf, [TText; TText]); (INTR_String_StartsWith, [TText; TText]); (INTR_String_EndsWith, [TText; TText]);
   (INTR_String_Contains, [TText; TText]); (INTR_String_ToUpper, [TText]); (INTR_String_ToLower, [TText]);
   (INTR_String_Trim, [TText]); (INTR_String_Split, [TText; TText]); (INTR_String_Replace, [TText; TText; TText]);
   (INTR_String_ToInt, [TText]); (INTR_String_ToFloat, [TText]); (INTR_String_CharAt, [TText; TInt]);
   (INTR_String_CharCount, [TText]); (INTR_String_ToChar, [TText]); (INTR_String_ToLong, [TText]);
   (INTR_String_ToDouble, [TText]); (INTR_String_ToBool, [TText])].

Section Calls.
Context (fuel shard : nat) (md : tables) (m_listClassIdx m_dictClassIdx : Z) (string_hash : bytes → Z).
(** The argument cell [n] passes [v]: a number, or the handle of a text. *)
Definition passes (h : heap) (locals : bytes) (cpb : Z) (n : nat) (v : value) : Prop :=
  match v with
  | VInt z => arg locals cpb n = Ok z
  | VText s => ∃ handle, arg locals cpb n = Ok handle ∧ StrValCopy fuel (strs h) handle = Ok s
                 ∧ Forall is_byte s ∧ Z.of_nat (length s) ≤ INT32_MAX
  end.
Definition passed (h : heap) (locals : bytes) (cpb : Z) (vs : list value) : Prop :=
  ∀ n v, vs !! n = Some v → passes h locals cpb n v.
(** How a reply arrives in the result cell [p]: new strings and lists leave alone what was
    alive, and an exception leaves the heap. *)
Definition delivers (x : conts) (p : bytes) (r : reply) (q : outcome (conts * bytes)) : Prop :=
  match r with
  | RInt v => ∃ p', q = Ok (x, p') ∧ returned p p' (Some v)
  | RWide v => ∃ p', q = Ok (x, p') ∧ load 8 p' 0 = Ok (wrap 64 v) ∧ length p' = length p
  | RText s => ∃ h' sh p', q = Ok ((h', x.2), p') ∧ returned p p' (Some sh) ∧ grows x.1 h'
                 ∧ in_use (strs h') sh ∧ reads (strs h') sh s 1
  | RTexts ts => ∃ i a x' p' es, q = Ok (x', p') ∧ returned p p' (Some i) ∧ grows x.1 x'.1 ∧ ¬ hlive x.1 i
                   ∧ list_at x' i a es ∧ Forall2 (text_box x'.1) es ts
                   ∧ ∀ j b e, holds x.1 m_listClassIdx j b → list_at x j b e → b ≠ a ∧ list_at x' j b e
  | RRaise c => ∃ msg, q = Raise (NlangExc c msg)
  end.
Abbreviation meant vs id := (λ x p q, ∃ r, means string_hash id vs r ∧ delivers x p r q).

Lemma ReadStrArg_ok h cpb locals vs n s : passed h locals cpb vs → vs !! n = Some (VText s) →
  ReadStrArg fuel h cpb locals n = Ok s ∧ Forall is_byte s ∧ Z.of_nat (length s) ≤ INT32_MAX.
Proof. intros Hp (handle & E1 & E2 & Hs)%Hp. unfold ReadStrArg. by rewrite E1, bindE. Qed.

(** *** Results *)
Section Results.
Context (x : conts) (p : bytes) (Hx : sides_ok shard m_listClassIdx m_dictClassIdx x) (Hp : (8 ≤ length p)%nat).
Lemma result32_ok v : delivers x p (RInt v) (result32 v x p).
Proof. unfold result32. destruct (st32_returned p v) as (p' & -> & ?); [lia|]. by exists p'. Qed.
Lemma result64_ok v : delivers x p (RWide v) (result64 v x p).
Proof.
  unfold result64. destruct (store 8 p 0 v) as [p'|] eqn:E; [|unfold store in E; by rewrite decide_True in E by lia].
  exists p'. split; [done|]. split; [by eapply load_store_same|by eapply store_length].
Qed.
Lemma result_text_ok s : delivers x p (RText s) (result_text shard s x p).
Proof.
  destruct x as [h t]. unfold result_text. destruct (MintNewString_grows h shard s) as (sh & st & -> & G & U & R); [apply Hx..|].
  rewrite bindE. destruct (st32_returned p sh) as (p' & -> & ?); [lia|]. rewrite bindE. by exists (hwith_strs h st), sh, p'.
Qed.
Lemma raises_ok {A} c msg : ∃ m, (Raise (NlangExc c msg) : outcome A) = Raise (NlangExc c m).
Proof. by exists msg. Qed.
End Results.

(** *** Methods *)
Section Methods.
Context (x : conts) (p : bytes) (Hx : sides_ok shard m_listClassIdx m_dictClassIdx x) (Hp : (8 ≤ length p)%nat).
Context (cpb : Z) (locals : bytes).
Abbreviation call_with vs := (passed x.1 locals cpb vs).
(** Reads the text arguments; the method's definition is unfolded. *)
Ltac read_args Hc :=
  repeat match goal with
  | |- context [ReadStrArg fuel x.1 cpb locals ?n] =>
      let E := fresh "E" in let B := fresh "B" in let L := fresh "L" in
      destruct (ReadStrArg_ok _ _ _ _ n _ Hc eq_refl) as (E & B & L); rewrite E, bindE; clear E
  | |- context [arg locals cpb ?n] => rewrite (Hc n _ eq_refl), bindE
  end.
Ltac answers := eexists; split; [by econstructor|].

Lemma Equals_ok a b : call_with [VText a; VText b] →
  meant [VText a; VText b] INTR_String_Equals x p (String_Equals fuel cpb locals x p).
Proof. intros Hc. unfold String_Equals. read_args Hc. answers. by apply result32_ok. Qed.
Lemma GetHashCode_ok s : call_with [VText s] →
  meant [VText s] INTR_String_GetHashCode x p (String_GetHashCode fuel string_hash cpb locals x p).
Proof.
  intros Hc. unfold String_GetHashCode. read_args Hc. answers.
  destruct (result32_ok x p Hp (i32 (string_hash s))) as (p' & -> & R). exists p'. split; [done|].
  destruct R as [R ?]. split; [|done]. rewrite R. f_equal. by apply (swrap_small 32); [lia|apply swrap_range].
Qed.
Lemma Substring_ok s a b : call_with [VText s; VInt a; VInt b] →
  meant [VText s; VInt a; VInt b] INTR_String_Substring x p (String_Substring fuel shard cpb locals x p).
Proof.
  intros Hc. unfold String_Substring. read_args Hc. cbv zeta. case_bool_decide as Hr; cbn [negb check].
  - eexists. split; [apply m_substring_out; lia|by apply raises_ok].
  - rewrite bindE. eexists. split; [|by apply result_text_ok].
    apply (m_substring _ _ (take (Z.to_nat a) s) _ (drop (Z.to_nat b) s)).
    + rewrite <- (take_drop (Z.to_nat a) s) at 1. f_equal.
      rewrite <- (take_drop (Z.to_nat (b - a)) (drop (Z.to_nat a) s)) at 1. f_equal. rewrite drop_drop. f_equal. lia.
    + rewrite length_take. lia.
    + rewrite length_app, !length_take, length_drop. lia.
Qed.
Lemma IndexOf_ok s needle : call_with [VText s; VText needle] →
  meant [VText s; VText needle] INTR_String_IndexOf x p (String_IndexOf fuel cpb locals x p).
Proof. intros Hc. unfold String_IndexOf. read_args Hc. eexists. split; [apply m_indexOf, find_first; lia|by apply result32_ok]. Qed.
Lemma Contains_ok s needle : call_with [VText s; VText needle] →
  meant [VText s; VText needle] INTR_String_Contains x p (String_Contains fuel cpb locals x p).
Proof. intros Hc. unfold String_Contains. read_args Hc. eexists. split; [apply m_contains, find_any|by apply result32_ok]. Qed.
Lemma StartsWith_ok s prefix : call_with [VText s; VText prefix] →
  meant [VText s; VText prefix] INTR_String_StartsWith x p (String_StartsWith fuel cpb locals x p).
Proof. intros Hc. unfold String_StartsWith. read_args Hc. eexists. split; [apply m_startsWith, has_prefix_spec|by apply result32_ok]. Qed.
Lemma EndsWith_ok s suffix : call_with [VText s; VText suffix] →
  meant [VText s; VText suffix] INTR_String_EndsWith x p (String_EndsWith fuel cpb locals x p).
Proof. intros Hc. unfold String_EndsWith. read_args Hc. eexists. split; [apply m_endsWith, has_suffix_spec|by apply result32_ok]. Qed.
Lemma ToUpper_ok s : call_with [VText s] →
  meant [VText s] INTR_String_ToUpper x p (String_Case fuel shard ascii_upper cpb locals x p).
Proof. intros Hc. unfold String_Case. read_args Hc. answers. by apply result_text_ok. Qed.
Lemma ToLower_ok s : call_with [VText s] →
  meant [VText s] INTR_String_ToLower x p (String_Case fuel shard ascii_lower cpb locals x p).
Proof. intros Hc. unfold String_Case. read_args Hc. answers. by apply result_text_ok. Qed.
Lemma Trim_ok s : call_with [VText s] →
  meant [VText s] INTR_String_Trim x p (String_Trim fuel shard cpb locals x p).
Proof.
  intros Hc. unfold String_Trim. read_args Hc. destruct (trim_text_spec s) as (l & r & E & Hl & Hh & Ht).
  eexists. split; [|by apply result_text_ok]. rewrite E at 1. by apply m_trim.
Qed.
Lemma Replace_ok s old new : call_with [VText s; VText old; VText new] →
  meant [VText s; VText old; VText new] INTR_String_Replace x p (String_Replace fuel shard cpb locals x p).
Proof.
  intros Hc. unfold String_Replace. read_args Hc. destruct (decide (old = [])) as [->|Ho].
  - eexists. split; [apply m_replace_empty|by apply raises_ok].
  - rewrite bool_decide_true by done. cbn [check]. rewrite bindE.
    destruct (split_replace_spec old Ho s) as (parts & _ & Hu & Hr). rewrite Hr, bindE. destruct (proj1 (Hu parts) eq_refl) as [<- Hcut].
    eexists. split; [by apply m_replace|by apply result_text_ok].
Qed.
(** The three integer parsers: [answer] tests the range of the number and answers. *)
Lemma parsed_ok id s (ok : Z → Prop) (r : Z → reply) answer bad : 0 ∉ s →
  (∀ out, parses s ok r out → means string_hash id [VText s] out) →
  (∀ v, (ok v ∧ delivers x p (r v) (answer v)) ∨ (¬ ok v ∧ delivers x p (RRaise ExcBase) (answer v))) →
  delivers x p (RRaise ExcBase) bad →
  meant [VText s] id x p (match strict_int s with Some v => answer v | None => bad end).
Proof.
  intros Hn Hm Ha Hb. destruct (strict_int s) as [v|] eqn:E.
  - apply strict_int_number in E as Hv; [|done]. destruct (Ha v) as [[Hok Hd]|[Hok Hd]]; eexists; (split; [apply Hm|exact Hd]); [by left; exists v|].
    right. split; [|done]. intros w Hw. by rewrite (number_text_unique _ _ _ Hw Hv).
  - exists (RRaise ExcBase). split; [|done]. apply Hm. right. split; [|done]. intros v Hv%strict_int_number; [congruence|done].
Qed.
Lemma parsed_float_ok id f s (r : Z → reply) answer bad : 0 ∉ s →
  (∀ out, parses_float f s r out → means string_hash id [VText s] out) →
  (∀ v, delivers x p (r v) (answer v)) → delivers x p (RRaise ExcBase) bad →
  meant [VText s] id x p (match strict_float f s with Some v => answer v | None => bad end).
Proof.
  intros Hn Hm Ha Hb. destruct (strict_float f s) as [v|] eqn:E.
  - apply strict_float_spec in E as (y & Hy & Hf & ->); [|done]. eexists. split; [apply Hm; left; by exists y|apply Ha].
  - exists (RRaise ExcBase). split; [|done]. apply Hm. right. split; [|done]. intros y Hy. destruct (is_finite y) eqn:Hf; [|done].
    rewrite (proj2 (strict_float_spec f s _ Hn)) in E by (by exists y). done.
Qed.
Ltac by_range := intros v; case_decide; [right; split; [|by apply raises_ok]|left; split; [|by apply result32_ok]].
Lemma ToInt_ok s : 0 ∉ s → call_with [VText s] → meant [VText s] INTR_String_ToInt x p (String_ToInt fuel cpb locals x p).
Proof.
  intros Hn Hc. unfold String_ToInt. read_args Hc.
  eapply parsed_ok; [done|apply m_toInt|by_range; unfold is_int32, INT32_MIN, INT32_MAX in *; lia|by apply raises_ok].
Qed.
Lemma ToChar_ok s : 0 ∉ s → call_with [VText s] → meant [VText s] INTR_String_ToChar x p (String_ToChar fuel cpb locals x p).
Proof.
  intros Hn Hc. unfold String_ToChar. read_args Hc.
  eapply parsed_ok; [done|apply m_toChar|by_range; unfold scalar; lia|by apply raises_ok].
Qed.
Lemma ToLong_ok s : 0 ∉ s → call_with [VText s] → meant [VText s] INTR_String_ToLong x p (String_ToLong fuel cpb locals x p).
Proof.
  intros Hn Hc. unfold String_ToLong. read_args Hc.
  eapply parsed_ok; [done|apply m_toLong|intros v; left; split; [done|by apply result64_ok]|by apply raises_ok].
Qed.
Lemma ToFloat_ok s : 0 ∉ s → call_with [VText s] → meant [VText s] INTR_String_ToFloat x p (String_ToFloat fuel cpb locals x p).
Proof.
  intros Hn Hc. unfold String_ToFloat. read_args Hc.
  eapply parsed_float_ok; [done|apply m_toFloat|intros v; by apply result32_ok|by apply raises_ok].
Qed.
Lemma ToDouble_ok s : 0 ∉ s → call_with [VText s] → meant [VText s] INTR_String_ToDouble x p (String_ToDouble fuel cpb locals x p).
Proof.
  intros Hn Hc. unfold String_ToDouble. read_args Hc.
  eapply parsed_float_ok; [done|apply m_toDouble|intros v; by apply result64_ok|by apply raises_ok].
Qed.
Lemma ToBool_ok s : call_with [VText s] → meant [VText s] INTR_String_ToBool x p (String_ToBool fuel cpb locals x p).
Proof.
  intros Hc. unfold String_ToBool. read_args Hc. case_decide as Hn.
  - eexists. split; [by apply m_toBool_else; apply Hn|by apply raises_ok].
  - case_bool_decide as Ht; [subst s|destruct (decide (s = FALSE)) as [->|]; [|tauto]];
      (eexists; split; [constructor|by apply result32_ok]).
Qed.
Lemma CharAt_ok s i : call_with [VText s; VInt i] →
  meant [VText s; VInt i] INTR_String_CharAt x p (String_CharAt fuel cpb locals x p).
Proof.
  intros Hc. unfold String_CharAt. read_args Hc. cbv zeta. case_bool_decide as Hr; cbn [negb check].
  { eexists. split; [apply m_charAt_out; lia|by apply raises_ok]. }
  rewrite bindE, DecodeCodePointAt_spec, bindE by (done || lia). destruct (decode1 (drop (Z.to_nat i) s)) as [[cp n]|] eqn:Ed.
  - destruct (decode_at s i cp n) as (Hcp & pre & post & Ei & Es); [done|lia|done|]. eexists. split; [|by apply result32_ok].
    rewrite Es in B. apply list.Forall_app in B as [B1 B2%list.Forall_app]. rewrite Es, Ei. apply m_charAt; [done|done|apply B2].
  - exists (RRaise ExcBase). split; [|by apply raises_ok]. apply m_charAt_else; [lia|]. apply decode_not; [by apply Forall_drop|done].
Qed.
Lemma CharCount_ok s : call_with [VText s] → meant [VText s] INTR_String_CharCount x p (String_CharCount fuel cpb locals x p).
Proof.
  intros Hc. unfold String_CharCount. read_args Hc. destruct (char_count_spec s B L) as (j & cps & Ej & Hs & Ht & ->). rewrite bindE.
  case_decide as Hj.
  - rewrite Hj, firstn_all in Ht. eexists. split; [rewrite Ht at 1; by apply m_charCount|by apply result32_ok].
  - exists (RRaise ExcBase). split; [|by apply raises_ok]. apply m_charCount_else. intros cps' Hs' E. apply Hj.
    assert (Utf8FirstInvalid s = Ok (length s)) as Ev by (apply Utf8FirstInvalid_valid; [done|by exists cps']). congruence.
Qed.
(** The parts of a text become boxed strings. *)
Lemma push_part_ok h acc t : heap_ok h → (shard < length (m_heapShards h))%nat →
  ∃ h' e, push_part shard (h, acc) t = Ok (h', acc ++ [e]) ∧ grows h h' ∧ text_box h' e t.
Proof.
  intros Hok Hsh. unfold push_part. destruct (boxed_text h shard t Hok Hsh) as (sh & st & e & h' & -> & E & G & T).
  rewrite bindE, E, bindE. by exists h', e.
Qed.
Lemma push_parts_ok parts h : heap_ok h → (shard < length (m_heapShards h))%nat →
  ∃ h' es, foldM (push_part shard) (h, []) parts = Ok (h', es) ∧ grows h h' ∧ Forall2 (text_box h') es parts.
Proof. intros Hok Hsh. destruct (boxed_texts (push_part shard) id shard push_part_ok parts h [] Hok Hsh) as (h' & es & H).
  rewrite list_fmap_id in H. by exists h', es. Qed.

Lemma Split_ok (Hco : classes_ok md m_listClassIdx m_dictClassIdx) (Hpos : 0 ≤ m_listClassIdx) (Hr : room x.2) s sep :
  call_with [VText s; VText sep] →
  meant [VText s; VText sep] INTR_String_Split x p (String_Split fuel shard md m_listClassIdx cpb locals x p).
Proof.
  intros Hc. unfold String_Split. read_args Hc. destruct (decide (sep = [])) as [->|Ho].
  { eexists. split; [apply m_split_empty|by apply raises_ok]. }
  rewrite bool_decide_true by done. cbn [check]. rewrite bindE.
  destruct (split_replace_spec sep Ho s) as (parts & -> & Hu & _). rewrite bindE. destruct (proj1 (Hu parts) eq_refl) as [<- Hcut].
  eexists. split; [by apply m_split|].
  destruct (new_list_spec fuel shard md m_listClassIdx m_dictClassIdx x Hco Hpos Hx Hr) as (i & a & [h1 t1] & -> & G & Hd & Hi & He & _ & Hno & Hoth).
  cbn [fst snd] in *. rewrite bindE. unfold elements_at. rewrite He, derefE, bindE.
  destruct (push_parts_ok parts h1) as (h2 & es & -> & G2 & Hes); [apply G|rewrite (gr_shards _ _ G); apply Hx|]. rewrite bindE.
  destruct (st32_returned p i) as (p' & -> & Hret); [lia|]. rewrite bindE.
  exists i, a, (h2, put_elements t1 a es), p', es. split; [done|]. split; [done|]. split; [by eapply grows_trans|]. split; [done|].
  destruct (new_list_filled m_listClassIdx x h1 t1 h2 i a es) as [Hl Hk]; [done..|]. by split_and!.
Qed.
End Methods.

(** *** The intrinsic switch *)
Lemma types_nil vs : type_of <$> vs = [] → vs = [].
Proof. by destruct vs. Qed.
Lemma types_text vs ts : type_of <$> vs = TText :: ts → ∃ s vs', vs = VText s :: vs' ∧ type_of <$> vs' = ts.
Proof. destruct vs as [|[s|z] vs]; [done|intros [= <-]; by exists s, vs|done]. Qed.
Lemma types_int vs ts : type_of <$> vs = TInt :: ts → ∃ z vs', vs = VInt z :: vs' ∧ type_of <$> vs' = ts.
Proof. destruct vs as [|[s|z] vs]; [done|done|intros [= <-]; by exists z, vs]. Qed.
Lemma dispatched {A B} (P : A → outcome B → Prop) (f : outcome B) : (∃ r, P r f) →
  ∃ r q, P r q ∧ (y ← f; Ok (Some y)) = (y ← q; Ok (Some y)).
Proof. intros [r H]. by exists r, f. Qed.

(** A reply that is meant is the only one. *)
Lemma the_only_reply id vs x p (f : outcome (option (conts * bytes))) :
  (∃ r q, (means string_hash id vs r ∧ delivers x p r q) ∧ f = (y ← q; Ok (Some y))) →
  ∃ r q, (∀ r', means string_hash id vs r' ↔ r' = r) ∧ delivers x p r q ∧ f = (y ← q; Ok (Some y)).
Proof.
  intros (r & q & [Hm Hd] & E). exists r, q. split; [|done]. intros r'. split; [|by intros ->].
  intros Hm'. by eapply means_functional.
Qed.

(** The methods that parse a number. *)
Definition parsers : list Z := [INTR_String_ToInt; INTR_String_ToLong; INTR_String_ToChar; INTR_String_ToFloat; INTR_String_ToDouble].

(** C20: every string method, called with arguments of its types, does what its description on
    texts says, whatever the representation of the strings it is given (constant, heap, rope
    or slice): searching finds the first occurrence; [split] cuts at the leftmost separators
    and joins back; [replace] puts the new text where [split] would cut; [trim] removes
    white space from both ends and nothing else; the parsers of numbers, on texts without
    NUL, accept exactly the numbers of their grammar that are in range ([toFloat] and
    [toDouble]: whose rounding, which is the C library's, is finite), nothing before or after
    them; on a text with a NUL they look at what precedes it only, against the manual
    ([StringTextSpec.number_then_nul_accepted]), and nothing is claimed; [charAt] and [charCount] decode UTF-8; everything else is an exception of the
    class described; the description leaves no choice.  New strings and lists are new, and nothing that was alive changes. *)
Theorem string_calls_refine id vs x p cpb locals :
  classes_ok md m_listClassIdx m_dictClassIdx → 0 ≤ m_listClassIdx →
  sides_ok shard m_listClassIdx m_dictClassIdx x → room x.2 → (8 ≤ length p)%nat →
  (id, type_of <$> vs) ∈ signatures → passed x.1 locals cpb vs →
  (id ∈ parsers → ∀ s, VText s ∈ vs → 0 ∉ s) →
  ∃ r q, (∀ r', means string_hash id vs r' ↔ r' = r) ∧ delivers x p r q ∧
    ExecuteIntrinsicString fuel shard md m_listClassIdx string_hash id cpb locals x p = (y ← q; Ok (Some y)).
Proof.
  intros Hco Hpos Hx Hr Hp Hs Hc Hnul. apply the_only_reply. cbv [ExecuteIntrinsicString].
  repeat (apply elem_of_cons in Hs as [[= -> Hs]|Hs]); [..|by apply elem_of_nil in Hs].
  all: repeat first [ apply types_nil in Hs as -> | apply types_text in Hs as (? & ? & -> & Hs) | apply types_int in Hs as (? & ? & -> & Hs) ].
  all: rewrite ?(decide_False (P := _ = _)) by done; rewrite decide_True by done; apply dispatched.
  - by apply Equals_ok.
  - by apply GetHashCode_ok.
  - by apply Substring_ok.
  - by apply IndexOf_ok.
  - by apply StartsWith_ok.
  - by apply EndsWith_ok.
  - by apply Contains_ok.
  - by apply ToUpper_ok.
  - by apply ToLower_ok.
  - by apply Trim_ok.
  - by apply Split_ok.
  - by apply Replace_ok.
  - apply ToInt_ok; [done..| |done]. by apply Hnul; [repeat constructor|left].
  - apply ToFloat_ok; [done..| |done]. by apply Hnul; [repeat constructor|left].
  - by apply CharAt_ok.
  - by apply CharCount_ok.
  - apply ToChar_ok; [done..| |done]. by apply Hnul; [repeat constructor|left].
  - apply ToLong_ok; [done..| |done]. by apply Hnul; [repeat constructor|left].
  - apply ToDouble_ok; [done..| |done]. by apply Hnul; [repeat constructor|left].
  - by apply ToBool_ok.
Qed.
End Calls.

(** ** A concrete run *)
Definition demo_plain : conts := (demo_heap, MkSide [] [] [] []).
Lemma demo_plain_ok : sides_ok 0 0 1 demo_plain.
Proof. split; [apply demo_heap_ok|apply demo_heap_ok|apply empty_table_ok, demo_heap_unused..]. Qed.
Lemma demo_passed vs : vs ≠ [] → Forall (λ v, v = VText [104; 105]) vs →
  passed 10 demo_heap (concat (le_bytes 8 <$> replicate (length vs) 1)) 0 vs.
Proof.
  intros Hne Hvs n v Hn. assert (v = VText [104; 105]) as -> by by (eapply list.Forall_lookup_1 in Hvs).
  exists 1. split; [|split_and!; [by vm_compute|by repeat constructor|done]].
  apply staged_args; [apply Forall_replicate; unfold is_sint; lia|]. apply lookup_replicate. split; [done|]. by apply lookup_lt_Some in Hn.
Qed.
(** The text 1 split at itself: a new list of two empty strings. *)
Lemma string_calls_refine_witness : StrValCopy 10 (strs demo_heap) 1 = Ok [104; 105] ∧
  ∃ i a x' p' es, ExecuteIntrinsicString 10 0 demo_container_tables 0 (λ _, 0) INTR_String_Split 0
    (concat (le_bytes 8 <$> [1; 1])) demo_plain (replicate 8 0) = Ok (Some (x', p'))
    ∧ list_at x' i a es ∧ Forall2 (text_box x'.1) es [[]; []].
Proof.
  split; [by vm_compute|].
  destruct (string_calls_refine 10 0 demo_container_tables 0 1 (λ _, 0) INTR_String_Split [VText [104; 105]; VText [104; 105]]
    demo_plain (replicate 8 0) 0 (concat (le_bytes 8 <$> [1; 1])) demo_container_classes_ok ltac:(lia) demo_plain_ok)
    as (r & q & Hm & Hd & E).
  - split; vm_compute; reflexivity.
  - simpl. lia.
  - apply (bool_decide_unpack _). vm_compute. exact I.
  - apply (demo_passed [VText [104; 105]; VText [104; 105]]); [done|by repeat constructor].
  - assert (INTR_String_Split ∉ parsers) as H by (apply (bool_decide_unpack _); vm_compute; exact I). by intros ?%H.
  - assert (r = RTexts [[]; []]) as ->.
    { symmetry. apply Hm. apply (m_split _ [104; 105] [[]; []]); [done|]. split; [intros j Hj; simpl in Hj; lia|].
      intros j Hj%occurs_length. simpl in Hj. lia. }
    destruct Hd as (i & a & x' & p' & es & -> & _ & _ & _ & Hl & Hes & _). by exists i, a, x', p', es.
Defined.
