(* ===== verification/Serialize.v ===== *)
(** * Serialization of object graphs

    Models [src/src/vm/VmExecutorSer.h] and [VmExecutorSerArray.h]: the writers and readers of
    struct, class, array and boxed records, with the tables of object identities.  The
    templates' byte sink is the bytes written so far, their source the bytes still unread.
    A nesting depth is the number of levels left below the limit. *)
From S2P Require Import Prelude.
From S2P Require Import Bytecode Package Prims TypeDesc Shards Strings StringOps Layout Heap HeapGC Arrays Frames Objects.
From stdpp Require Import pretty.
Open Scope Z_scope.

Definition STRUCT_SERIALIZE_DEPTH_LIMIT : nat := 64.
Definition MAX_STRING_LENGTH : Z := 16 * 1024 * 1024.

(** The program tables, with the columns of struct rows that only the streams read. *)
Record type_rows := MkTypeRows {
  rows_of : CompiledModule; structNames : list bytes; structClassIndices : list (list Z)
}.
Definition FindStruct (ty : type_rows) (name : bytes) : Z :=
  match list_find (name =.) (structNames ty) with Some (i, _) => Z.of_nat i | None => -1 end.

(** The identity tables of a stream. *)
Record obj_ids := MkIds { serializeObjIds : gmap Z Z; deserializeObjIds : gmap Z Z; nextObjId : Z }.
Definition ClearObjIdState : obj_ids := MkIds ∅ ∅ 1.
Definition add_written (heapIdx : Z) (st : obj_ids) : obj_ids :=
  MkIds (<[heapIdx := nextObjId st]> (serializeObjIds st)) (deserializeObjIds st) (u32 (nextObjId st + 1)).
Definition add_read (heapIdx : Z) (st : obj_ids) : obj_ids :=
  MkIds (serializeObjIds st) (<[nextObjId st := heapIdx]> (deserializeObjIds st)) (u32 (nextObjId st + 1)).

Definition host_error {A} (msg : string) : outcome A := Raise (RuntimeError ("NLang VM: " +:+ msg)).
Definition depth_exceeded {A} : outcome A := host_error "struct serialize depth limit exceeded".

(** The bytes of a scalar of [width] in the cells from [c], by [memcpy] both ways. *)
Definition scalar_cells (width : nat) : nat := if decide (4 < width)%nat then 2 else 1.
Definition cells_bytes (cs : list Z) : bytes := concat (le_bytes 4 <$> cs).
Definition scalar_bytes (r : list Z) (c width : nat) : outcome bytes :=
  cs ← cells_at r c (scalar_cells width); Ok (take width (cells_bytes cs)).
Definition put_scalar (h : heap) (i : Z) (c : nat) (bs : bytes) : outcome heap :=
  r ← deref (rec_at h i);
  cs ← cells_at r c (scalar_cells (length bs));
  vs ← load_cells (bs ++ drop (length bs) (cells_bytes cs)) 0 (scalar_cells (length bs));
  write_cells h i c vs.

(** ** Writing *)
Record wstate := MkW { w_heap : heap; w_ids : obj_ids; w_out : bytes }.
Definition write (bs : bytes) (s : wstate) : wstate := MkW (w_heap s) (w_ids s) (w_out s ++ bs).
Definition with_wheap (h : heap) (s : wstate) : wstate := MkW h (w_ids s) (w_out s).

Section Write.
Context (fuel shard : nat) (ty : type_rows).
Abbreviation m := (rows_of ty).
Abbreviation tbl := (md (rows_of ty)).

(** A length and the bytes of a string, which is flattened in place. *)
Definition WriteText (handle : Z) (s : wstate) : outcome wstate :=
  '(t, st) ← StrVal fuel (strs (w_heap s)) handle;
  Ok (write (le_bytes 4 (Z.of_nat (length t)) ++ t) (with_wheap (hwith_strs (w_heap s) st) s)).
Definition write_name (name : bytes) (s : wstate) : wstate := write (le_bytes 4 (Z.of_nat (length name)) ++ name) s.

(** The recursive calls one level deeper. *)
Record walkers := MkWalkers {
  ser_struct : Z → Z → wstate → outcome wstate;
  ser_class : Z → wstate → outcome wstate;
  ser_array : Z → wstate → outcome wstate
}.
(** A field of kind [ftk] in the cells from [c] of record [heapIdx]. *)
Definition SerializeField (deeper : walkers) (heapIdx : Z) (c : nat) (ftk : Z) (structIdx classIdx : outcome Z) (s : wstate)
    : outcome wstate :=
  match ScalarPrimIndexOfRtk (u8 ftk) with
  | Some (_, row) => r ← deref (rec_at (w_heap s) heapIdx); bs ← scalar_bytes r c (slotWidth row); Ok (write bs s)
  | None =>
      if decide (ftk = RTK_String) then v ← get_cell (w_heap s) heapIdx c; WriteText v s
      else if decide (ftk = RTK_Struct) then
        inner ← structIdx;
        if decide (inner = 65535) then host_error "unresolved nested struct type"
        else v ← get_cell (w_heap s) heapIdx c; ser_struct deeper v inner s
      else if decide (ftk = RTK_Class) then
        inner ← classIdx;
        if decide (inner = 65535) then host_error "unresolved nested class type"
        else v ← get_cell (w_heap s) heapIdx c; ser_class deeper v s
      else if decide (ftk = RTK_Array) then v ← get_cell (w_heap s) heapIdx c; ser_array deeper v s
      else if decide (ftk = RTK_Func) then host_error "WriteStruct does not support func fields"
      else host_error ("WriteStruct unsupported field kind (" +:+ pretty ftk +:+ ")")
  end.
Definition SerializeStructFields (deeper : walkers) (heapIdx structIdx : Z) (s : wstate) : outcome wstate :=
  match structs tbl !!z structIdx with
  | None => host_error "invalid struct index in SerializeStructFields"
  | Some cs =>
      if decide (heapIdx ≤ 0 ∨ rec_at (w_heap s) heapIdx = None)
      then host_error "invalid struct heap index in SerializeStructFields"
      else foldM (λ s i,
             ftk ← deref (sFieldTypeKinds cs !! i);
             SerializeField deeper heapIdx (2 * i) ftk (deref (sFieldStructIndices cs !! i))
               (cls ← deref (structClassIndices ty !!z structIdx); deref (cls !! i)) s) s (seq 0 (sFieldCount cs))
  end.

(** *** Arrays *)
Definition WriteArrayHeader (at_ : CompiledArrayType) (slot : list Z) (s : wstate) : outcome wstate :=
  let s := write [3] s in
  let s := write [elemKind at_] s in
  s ← (if decide (elemKind at_ = RTK_Struct) then
         if decide (elemTypeIdx at_ = 65535 ∨ structs tbl !!z elemTypeIdx at_ = None)
         then host_error "unresolved struct element type in array record write"
         else name ← deref (structNames ty !!z elemTypeIdx at_); Ok (write_name name s)
       else Ok s);
  rank ← deref (slot !! 2%nat);
  dims ← cells_at slot 4 (Z.to_nat (u8 rank));
  Ok (write (concat (le_bytes 4 <$> dims)) (write [u8 rank] s)).
Definition WriteArrayElements (deeper : walkers) (at_ : CompiledArrayType) (slot : list Z) (s : wstate) : outcome wstate :=
  elemCount ← deref (slot !! 3%nat);
  base ← ArrayPayloadBase slot;
  match ScalarPrimIndexOfRtk (elemKind at_) with
  | Some (_, row) =>
      foldM (λ s i,
        c ← payload_cell base (Z.of_nat i) (ArrayElemCells (elemKind at_));
        bs ← scalar_bytes slot c (slotWidth row); Ok (write bs s)) s (seq 0 (Z.to_nat elemCount))
  | None =>
      if decide (elemKind at_ = RTK_String) then
        foldM (λ s i, v ← deref (slot !! (Z.to_nat base + i)%nat); WriteText v s) s (seq 0 (Z.to_nat elemCount))
      else if decide (elemKind at_ = RTK_Struct) then
        foldM (λ s i, v ← deref (slot !! (Z.to_nat base + i)%nat); ser_struct deeper v (elemTypeIdx at_) s) s
          (seq 0 (Z.to_nat elemCount))
      else host_error ("WriteObject does not support array element kind (" +:+ pretty (elemKind at_) +:+ ")")
  end.
Definition back_reference (id : Z) (s : wstate) : wstate := write (2 :: le_bytes 4 id) s.
Definition SerializeArrayRecord (deeper : walkers) (heapIdx : Z) (s : wstate) : outcome wstate :=
  if decide (heapIdx ≤ 0) then Ok (write [0] s)
  else if decide (rec_at (w_heap s) heapIdx = None) then host_error "invalid heap index in array record write"
  else match serializeObjIds (w_ids s) !! heapIdx with
  | Some id => Ok (back_reference id s)
  | None =>
      let s := MkW (w_heap s) (add_written heapIdx (w_ids s)) (w_out s) in
      kind ← deref (kind_at (w_heap s) heapIdx);
      '(heapIdx, h) ← (if decide (kind = RTK_ArrayView) then MaterializeViewRecord fuel tbl (w_heap s) shard heapIdx
                       else Ok (heapIdx, w_heap s));
      let s := with_wheap h s in
      slot ← deref (rec_at h heapIdx);
      t ← deref (slot !! 1%nat);
      match arrayTypes tbl !!z u16 t with
      | None => host_error "invalid array type index in array record write"
      | Some at_ => s ← WriteArrayHeader at_ slot s; WriteArrayElements deeper at_ slot s
      end
  end.

(** *** Boxes and class instances *)
Definition WriteBoxedRecord (heapIdx : Z) (s : wstate) : outcome wstate :=
  box ← deref (rec_at (w_heap s) heapIdx);
  tag ← deref (box !! 0%nat);
  let inner := u8 tag in
  let s := write [4; inner] s in
  if decide (inner = RTK_String) then v ← deref (box !! 1%nat); WriteText v s
  else match ScalarPrimIndexOfRtk inner with
       | None => host_error ("WriteObject does not support boxed kind (" +:+ pretty inner +:+ ")")
       | Some (_, row) => bs ← scalar_bytes box 1 (slotWidth row); Ok (write bs s)
       end.
Definition SerializeClassFields (deeper : walkers) (array_here : Z → wstate → outcome wstate) (heapIdx : Z) (s : wstate)
    : outcome wstate :=
  if decide (heapIdx ≤ 0) then Ok (write [0] s)
  else match kind_at (w_heap s) heapIdx with
  | None => host_error "invalid class heap index in SerializeClassFields"
  | Some runtimeKind =>
      if decide (runtimeKind = RTK_Array ∨ runtimeKind = RTK_ArrayView) then array_here heapIdx s
      else if decide (runtimeKind = RTK_Boxed) then WriteBoxedRecord heapIdx s
      else if decide (runtimeKind = RTK_Func) then host_error "WriteObject does not support func values"
      else if decide (runtimeKind ≠ RTK_Class)
      then host_error ("WriteObject unsupported runtime kind (" +:+ pretty runtimeKind +:+ ")")
      else match serializeObjIds (w_ids s) !! heapIdx with
      | Some id => Ok (back_reference id s)
      | None =>
          let s := write [1] (MkW (w_heap s) (add_written heapIdx (w_ids s)) (w_out s)) in
          classIdx ← get_cell (w_heap s) heapIdx 0;
          match classes m !!z classIdx with
          | None => host_error "invalid class index in class heap slot"
          | Some cc =>
              fields ← deref (layout tbl !!z classIdx);
              foldM (λ s i,
                f ← deref (fields !! i);
                SerializeField deeper heapIdx (1 + 2 * i) (Layout.kind f) (Ok (Layout.structIdx f)) (Ok (Layout.classIdx f)) s)
                (write_name (cls_name cc) s) (seq 0 (length fields))
          end
      end
  end.
(** An array in a class position is walked at the depth of the position. *)
Fixpoint SerializeAt (room : nat) : walkers :=
  match room with
  | O => MkWalkers (λ _ _ _, depth_exceeded) (λ _ _, depth_exceeded) (λ _ _, depth_exceeded)
  | S room =>
      let deeper := SerializeAt room in
      MkWalkers (SerializeStructFields deeper) (SerializeClassFields deeper (SerializeArrayRecord deeper)) (SerializeArrayRecord deeper)
  end.
End Write.

(** ** Reading *)
Record rstate := MkR { r_heap : heap; r_ids : obj_ids; r_in : bytes }.
Definition with_rheap (h : heap) (s : rstate) : rstate := MkR h (r_ids s) (r_in s).

Section Read.
Context (fuel shard : nat) (ty : type_rows).
(** [method] is the name in the message of a short read. *)
Context (method : string).
Abbreviation m := (rows_of ty).
Abbreviation tbl := (md (rows_of ty)).

Definition read (n : nat) (s : rstate) : outcome (bytes * rstate) :=
  if decide (length (r_in s) < n)%nat then host_error (method +:+ " past end of stream")
  else Ok (take n (r_in s), MkR (r_heap s) (r_ids s) (drop n (r_in s))).
Definition read_uint (n : nat) (s : rstate) : outcome (Z * rstate) := '(bs, s) ← read n s; Ok (le_value bs, s).
(** A length and the bytes of a string, which is minted. *)
Definition ReadText (negative : Z → string) (too_long : Z → string) (s : rstate) : outcome (Z * rstate) :=
  '(n, s) ← read_uint 4 s;
  let len := i32 n in
  if decide (len < 0) then host_error (negative len)
  else if decide (MAX_STRING_LENGTH < len) then host_error (too_long len)
  else
    '(t, s) ← read (Z.to_nat len) s;
    '(handle, st) ← MintNewString (strs (r_heap s)) shard t;
    Ok (handle, with_rheap (hwith_strs (r_heap s) st) s).
Definition over_cap (len : Z) : string := "exceeds cap (" +:+ pretty len +:+ " > " +:+ pretty MAX_STRING_LENGTH +:+ ")".
Definition ReadFieldText : rstate → outcome (Z * rstate) :=
  ReadText (λ len, "ReadStruct string length negative (" +:+ pretty len +:+ ")") (λ len, "ReadStruct string length " +:+ over_cap len).
Definition ReadElementText : rstate → outcome (Z * rstate) :=
  ReadText (λ _, "ReadArray string length out of range") (λ _, "ReadArray string length out of range").
Definition ReadBoxText : rstate → outcome (Z * rstate) :=
  ReadText (λ _, "ReadObject boxed string length out of range") (λ _, "ReadObject boxed string length out of range").
Definition read_name (too_long : Z → string) (s : rstate) : outcome (bytes * rstate) :=
  '(nameLen, s) ← read_uint 4 s;
  if decide (MAX_STRING_LENGTH < nameLen) then host_error (too_long nameLen) else read (Z.to_nat nameLen) s.
Definition set_field (heapIdx : Z) (c : nat) (v : Z) (s : rstate) : outcome rstate :=
  h ← set_cell (r_heap s) heapIdx c v; Ok (with_rheap h s).

Record readers := MkReaders {
  de_struct : Z → Z → rstate → outcome rstate;
  de_class : Z → rstate → outcome (Z * rstate);
  de_array : rstate → outcome (Z * rstate);
  de_tagged : Z → rstate → outcome (Z * rstate)
}.
Definition DeserializeField (deeper : readers) (heapIdx : Z) (c : nat) (ftk : Z) (structIdx classIdx : outcome Z) (s : rstate)
    : outcome rstate :=
  match ScalarPrimIndexOfRtk (u8 ftk) with
  | Some (_, row) => '(bs, s) ← read (slotWidth row) s; h ← put_scalar (r_heap s) heapIdx c bs; Ok (with_rheap h s)
  | None =>
      if decide (ftk = RTK_String) then '(v, s) ← ReadFieldText s; set_field heapIdx c v s
      else if decide (ftk = RTK_Struct) then
        inner ← structIdx;
        if decide (inner = 65535) then host_error "unresolved nested struct type"
        else
          '(v, h) ← AllocStructOnHeap fuel tbl (r_heap s) shard inner;
          s ← set_field heapIdx c v (with_rheap h s); de_struct deeper v inner s
      else if decide (ftk = RTK_Class) then
        inner ← classIdx;
        if decide (inner = 65535) then host_error "unresolved nested class type"
        else '(v, s) ← de_class deeper inner s; set_field heapIdx c v s
      else if decide (ftk = RTK_Array) then '(v, s) ← de_array deeper s; set_field heapIdx c v s
      else if decide (ftk = RTK_Func) then host_error "ReadStruct does not support func fields"
      else host_error ("ReadStruct unsupported field kind (" +:+ pretty ftk +:+ ")")
  end.
Definition DeserializeStructFields (deeper : readers) (heapIdx structIdx : Z) (s : rstate) : outcome rstate :=
  match structs tbl !!z structIdx with
  | None => host_error "invalid struct index in DeserializeStructFields"
  | Some cs =>
      if decide (heapIdx ≤ 0 ∨ rec_at (r_heap s) heapIdx = None)
      then host_error "invalid struct heap index in DeserializeStructFields"
      else foldM (λ s i,
             ftk ← deref (sFieldTypeKinds cs !! i);
             DeserializeField deeper heapIdx (2 * i) ftk (deref (sFieldStructIndices cs !! i))
               (cls ← deref (structClassIndices ty !!z structIdx); deref (cls !! i)) s) s (seq 0 (sFieldCount cs))
  end.

Definition ReadBoxedRecord (s : rstate) : outcome (Z * rstate) :=
  '(inner, s) ← read_uint 1 s;
  if decide (inner = RTK_String) then
    '(v, s) ← ReadBoxText s;
    '(i, h) ← AllocBoxedValue (r_heap s) shard RTK_String v; Ok (i, with_rheap h s)
  else match ScalarPrimIndexOfRtk inner with
       | None => host_error ("ReadObject does not support boxed kind (" +:+ pretty inner +:+ ")")
       | Some (_, row) =>
           '(bits, s) ← read_uint (slotWidth row) s;
           '(i, h) ← AllocBoxedValue (r_heap s) shard inner bits; Ok (i, with_rheap h s)
       end.
Definition read_back_reference (unknown : string) (s : rstate) : outcome (Z * rstate) :=
  '(id, s) ← read_uint 4 s;
  match deserializeObjIds (r_ids s) !! id with Some heapIdx => Ok (heapIdx, s) | None => host_error unknown end.

Definition DeserializeClassFields (deeper : readers) (declaredClassIdx : Z) (s : rstate) : outcome (Z * rstate) :=
  '(tag, s) ← read_uint 1 s;
  let objTypedField := bool_decide (declaredClassIdx = ObjectRootClassIdx m) in
  if decide (tag = 0) then Ok (0, s)
  else if decide (tag = 3) then
    if objTypedField then de_tagged deeper tag s else host_error "ReadObject array record under a class-typed field"
  else if decide (tag = 4) then
    if objTypedField then ReadBoxedRecord s else host_error "ReadObject boxed value under a class-typed field"
  else if decide (tag = 2) then read_back_reference "ReadStruct back-reference to unknown object id" s
  else if decide (tag ≠ 1) then host_error "ReadStruct unknown class ref tag"
  else
    '(className, s) ← read_name (λ n, "ReadStruct class name length " +:+ over_cap n) s;
    let classIdx := FindClass m className in
    if decide (classIdx < 0) then host_error ("class not found in stream: " +:+ text className)
    else
      sub ← IsSubclassOf m (u16 classIdx) declaredClassIdx;
      if negb sub then
        declared ← deref (classes m !!z declaredClassIdx);
        host_error ("class type mismatch: expected " +:+ text (cls_name declared) +:+ ", got " +:+ text className)
      else
        '(heapIdx, h) ← AllocClassOnHeap fuel tbl (r_heap s) shard (u16 classIdx);
        let s := MkR h (add_read heapIdx (r_ids s)) (r_in s) in
        fields ← deref (layout tbl !!z classIdx);
        s ← foldM (λ s i,
              f ← deref (fields !! i);
              DeserializeField deeper heapIdx (1 + 2 * i) (Layout.kind f) (Ok (Layout.structIdx f)) (Ok (Layout.classIdx f)) s)
              s (seq 0 (length fields));
        Ok (heapIdx, s).

(** *** Arrays *)
Definition ReadArrayHeader (s : rstate) : outcome (Z * Z * list Z * rstate) :=
  '(kind, s) ← read_uint 1 s;
  '(typeIdx, s) ←
    (if decide (kind = RTK_Struct) then
       '(name, s) ← read_name (λ _, "ReadArray struct name length exceeds cap"%string) s;
       let sIdx := FindStruct ty name in
       if decide (sIdx < 0) then host_error ("ReadArray struct not found: " +:+ text name) else Ok (u16 sIdx, s)
     else Ok (65535, s));
  '(rank, s) ← read_uint 1 s;
  if decide (rank < 1 ∨ kMaxArrayRank < rank) then host_error "ReadArray rank out of range"
  else
    '(dims, s) ← foldM (λ '(dims, s) _, '(d, s) ← read_uint 4 s; Ok (dims ++ [i32 d], s)) ([], s) (seq 0 (Z.to_nat rank));
    Ok (kind, typeIdx, dims, s).
Definition ReadArrayElements (deeper : readers) (heapIdx kind typeIdx elemCount : Z) (s : rstate) : outcome rstate :=
  rank ← get_cell (r_heap s) heapIdx 2;
  let base := ArrayHeaderCells (u8 rank) in
  match ScalarPrimIndexOfRtk kind with
  | Some (_, row) =>
      foldM (λ s i,
        '(bs, s) ← read (slotWidth row) s;
        c ← payload_cell base (Z.of_nat i) (ArrayElemCells kind);
        h ← put_scalar (r_heap s) heapIdx c bs; Ok (with_rheap h s)) s (seq 0 (Z.to_nat elemCount))
  | None =>
      if decide (kind = RTK_String) then
        foldM (λ s i, '(v, s) ← ReadElementText s; set_field heapIdx (Z.to_nat base + i) v s) s (seq 0 (Z.to_nat elemCount))
      else if decide (kind = RTK_Struct) then
        foldM (λ s i, v ← get_cell (r_heap s) heapIdx (Z.to_nat base + i); de_struct deeper v typeIdx s) s
          (seq 0 (Z.to_nat elemCount))
      else host_error ("ReadArray does not support array element kind (" +:+ pretty kind +:+ ")")
  end.
Definition DeserializeArrayRecordTagged (deeper : readers) (tag : Z) (s : rstate) : outcome (Z * rstate) :=
  if decide (tag = 0) then Ok (0, s)
  else if decide (tag = 2) then read_back_reference "ReadArray back-reference to unknown object id" s
  else if decide (tag ≠ 3) then host_error "ReadArray unknown array tag"
  else
    '(kind, typeIdx, dims, s) ← ReadArrayHeader s;
    t ← FindArrayTypeDef tbl kind typeIdx (Z.of_nat (length dims));
    '(heapIdx, h) ← AllocArrayOnHeap fuel tbl (r_heap s) shard t dims;
    let s := MkR h (add_read heapIdx (r_ids s)) (r_in s) in
    elemCount ← get_cell h heapIdx 3;
    s ← ReadArrayElements deeper heapIdx kind typeIdx elemCount s;
    Ok (heapIdx, s).
(** The tag is read before the depth is tested. *)
Definition DeserializeArrayRecord (tagged : Z → rstate → outcome (Z * rstate)) (s : rstate) : outcome (Z * rstate) :=
  '(tag, s) ← read_uint 1 s; tagged tag s.

(** An array in a class position is read one level deeper than the position. *)
Fixpoint DeserializeAt (room : nat) : readers :=
  match room with
  | O => MkReaders (λ _ _ _, depth_exceeded) (λ _ _, depth_exceeded) (DeserializeArrayRecord (λ _ _, depth_exceeded)) (λ _ _, depth_exceeded)
  | S room =>
      let deeper := DeserializeAt room in
      let tagged := DeserializeArrayRecordTagged deeper in
      MkReaders (DeserializeStructFields deeper) (DeserializeClassFields deeper) (DeserializeArrayRecord tagged) tagged
  end.
End Read.
