(* ===== verification/SerializeWire.v ===== *)
(** * What a serialized graph is

    The records of the stream format as trees, and what it means that a tree describes a
    value of a heap: object identities are the numbers of the stream, given by a map, so the
    same tree describes two values exactly when the graphs below them have the same shape. *)
From S2P Require Import Prelude.
From S2P Require Import Bytecode Package Prims TypeDesc Shards Strings StringOps Layout Heap HeapGC Arrays Frames Objects Serialize.
Open Scope Z_scope.

(** ** Trees *)
Inductive wire :=
  | WScalar (bs : bytes) | WText (t : bytes) | WFields (ws : list wire)
  | WNull | WBack (id : Z) | WBoxText (t : bytes) | WBoxScalar (kind : Z) (bs : bytes)
  | WObj (name : bytes) (ws : list wire)
  | WArr (kind : Z) (ename : bytes) (dims : list Z) (ws : list wire).
Definition text_record (t : bytes) : bytes := le_bytes 4 (Z.of_nat (length t)) ++ t.
Fixpoint encode (w : wire) : bytes :=
  match w with
  | WScalar bs => bs
  | WText t => text_record t
  | WFields ws => concat (encode <$> ws)
  | WNull => [0]
  | WBack id => 2 :: le_bytes 4 id
  | WBoxText t => [4; RTK_String] ++ text_record t
  | WBoxScalar kind bs => [4; kind] ++ bs
  | WObj name ws => [1] ++ text_record name ++ concat (encode <$> ws)
  | WArr kind ename dims ws =>
      [3; kind] ++ (if decide (kind = RTK_Struct) then text_record ename else [])
      ++ [Z.of_nat (length dims)] ++ concat (le_bytes 4 <$> dims) ++ concat (encode <$> ws)
  end.
Definition encode_list (ws : list wire) : bytes := concat (encode <$> ws).

(** ** Rows of fields: the kind, the struct index and the class index *)
Definition frow : Type := Z * Z * Z.
Definition class_rows (fields : list Entry) : list frow :=
  (λ f, (Layout.kind f, Layout.structIdx f, Layout.classIdx f)) <$> fields.

Section Describe.
Context (fuel : nat) (ty : type_rows).
Abbreviation m := (rows_of ty).
Abbreviation tbl := (md (rows_of ty)).
Definition struct_rows (s : Z) : list frow :=
  match structs tbl !!z s, structClassIndices ty !!z s with
  | Some cs, Some cls => zip (zip (sFieldTypeKinds cs) (sFieldStructIndices cs)) cls
  | _, _ => []
  end.

(** A string cell of content [t], which a reader takes. *)
Definition text_at (st : StringStore) (v : Z) (t : bytes) : Prop :=
  (∃ n, readable st v t n ∧ (n ≤ fuel)%nat) ∧ Z.of_nat (length t) ≤ MAX_STRING_LENGTH.
(** The record of an owned array of [dims], with the type row of its elements. *)
Record array_at (r : list Z) (kind typeIdx : Z) (ename : bytes) (dims : list Z) (size : Z) : Prop := {
  aa_type : ∃ t, r !! 1%nat = Some t ∧ arrayTypes tbl !!z u16 t = Some (MkArrayType kind typeIdx (Z.of_nat (length dims)));
  aa_rank : r !! 2%nat = Some (Z.of_nat (length dims)) ∧ 1 ≤ Z.of_nat (length dims) ≤ kMaxArrayRank;
  aa_dims : cells_at r 4 (length dims) = Ok dims ∧ ValidateArrayDims dims = Ok size;
  aa_size : r !! 3%nat = Some size;
  aa_base : ArrayPayloadBase r = Ok (ArrayHeaderCells (Z.of_nat (length dims)));
  aa_kind : is_uint 8 kind ∧ (is_Some (ScalarPrimIndexOfRtk kind) ∨ kind = RTK_String ∨ kind = RTK_Struct);
  aa_elem : if decide (kind = RTK_Struct)
            then typeIdx ≠ 65535 ∧ is_Some (structs tbl !!z typeIdx) ∧ structNames ty !!z typeIdx = Some ename
                 ∧ FindStruct ty ename = typeIdx ∧ Z.of_nat (length ename) ≤ MAX_STRING_LENGTH
            else typeIdx = 65535 ∧ ename = []
}.

(** What is described: a field or a run of fields of a record, a struct, or a reference in
    a position that declares a class or, when it declares none, is of array type. *)
Inductive item :=
  | IField (r : list Z) (c : nat) (row : frow)
  | IFields (r : list Z) (c step : nat) (rows : list frow)
  | IStruct (v s : Z)
  | IRef (declared : option Z) (v : Z).

(** [described room it n ws n']: with [room] levels left, [ws] describes [it] in the heap
    [h]; the identities from [n] to [n' - 1] are those of the objects met for the first
    time.  Every record that is described satisfies [P]. *)
Section Heap.
Context (h : heap) (ids : gmap Z Z) (P : Z → Prop).
Definition referable (v : Z) : Prop := kind_at h v = Some RTK_Class ∨ kind_at h v = Some RTK_Array.
Inductive described : nat → item → Z → list wire → Z → Prop :=
  | d_scalar room r c k si ci i row bs n : ScalarPrimIndexOfRtk (u8 k) = Some (i, row) →
      scalar_bytes r c (slotWidth row) = Ok bs → described room (IField r c (k, si, ci)) n [WScalar bs] n
  | d_text room r c si ci v t n : r !! c = Some v → text_at (strs h) v t →
      described room (IField r c (RTK_String, si, ci)) n [WText t] n
  | d_struct room r c si ci v ws n n' : si ≠ 65535 → r !! c = Some v → described room (IStruct v si) n ws n' →
      described room (IField r c (RTK_Struct, si, ci)) n [WFields ws] n'
  | d_class room r c si ci v w n n' : ci ≠ 65535 → r !! c = Some v → described room (IRef (Some ci) v) n [w] n' →
      described room (IField r c (RTK_Class, si, ci)) n [w] n'
  | d_array room r c si ci v w n n' : r !! c = Some v → described room (IRef None v) n [w] n' →
      described room (IField r c (RTK_Array, si, ci)) n [w] n'
  | d_nil room r c step n : described room (IFields r c step []) n [] n
  | d_cons room r c step row rows w ws n n1 n' : described room (IField r c row) n [w] n1 →
      described room (IFields r (c + step) step rows) n1 ws n' →
      described room (IFields r c step (row :: rows)) n (w :: ws) n'
  | d_record room v s cs r ws n n' : structs tbl !!z s = Some cs → 0 < v → P v → kind_at h v = Some RTK_Struct →
      rec_at h v = Some r → length r = (2 * sFieldCount cs)%nat → described room (IFields r 0 2 (struct_rows s)) n ws n' →
      described (S room) (IStruct v s) n ws n'
  | d_null room declared v n : v ≤ 0 → described (S room) (IRef declared v) n [WNull] n
  | d_back room declared v id n : 0 < v → ids !! id = Some v → 1 ≤ id < n → referable v →
      described (S room) (IRef declared v) n [WBack id] n
  | d_box_text room v r tag s t n : 0 < v → P v → kind_at h v = Some RTK_Boxed → rec_at h v = Some r → r !! 0%nat = Some tag →
      u8 tag = RTK_String → r !! 1%nat = Some s → text_at (strs h) s t →
      described (S room) (IRef (Some (ObjectRootClassIdx m)) v) n [WBoxText t] n
  | d_box_scalar room v r tag i row bs n : 0 < v → P v → kind_at h v = Some RTK_Boxed → rec_at h v = Some r →
      r !! 0%nat = Some tag → ScalarPrimIndexOfRtk (u8 tag) = Some (i, row) → scalar_bytes r 1 (slotWidth row) = Ok bs →
      described (S room) (IRef (Some (ObjectRootClassIdx m)) v) n [WBoxScalar (u8 tag) bs] n
  | d_obj room declared v r c cc fields ws n n' : 0 < v → P v → ids !! n = Some v → kind_at h v = Some RTK_Class →
      rec_at h v = Some r → r !! 0%nat = Some c → classes m !!z c = Some cc → layout tbl !!z c = Some fields →
      length r = (1 + 2 * length fields)%nat → c < 2 ^ 15 → FindClass m (cls_name cc) = c →
      Z.of_nat (length (cls_name cc)) ≤ MAX_STRING_LENGTH → IsSubclassOf m c declared = Ok true →
      described room (IFields r 1 2 (class_rows fields)) (n + 1) ws n' →
      described (S room) (IRef (Some declared) v) n [WObj (cls_name cc) ws] n'
  | d_arr room v r kind typeIdx ename dims size ws n n' : 0 < v → P v → ids !! n = Some v → kind_at h v = Some RTK_Array →
      rec_at h v = Some r → array_at r kind typeIdx ename dims size →
      described room (IFields r (Z.to_nat (ArrayHeaderCells (Z.of_nat (length dims)))) (Z.to_nat (ArrayElemCells kind))
        (replicate (Z.to_nat size) (kind, typeIdx, 65535))) (n + 1) ws n' →
      described (S room) (IRef None v) n [WArr kind ename dims ws] n'
  | d_arr_obj room v kind ename dims ws n n' : described room (IRef None v) n [WArr kind ename dims ws] n' →
      described (S room) (IRef (Some (ObjectRootClassIdx m)) v) n [WArr kind ename dims ws] n'.

Lemma described_le room it n ws n' : described room it n ws n' → n ≤ n'.
Proof. induction 1; lia. Qed.
End Heap.

(** A description survives what keeps its records, texts and identities. *)
Lemma described_mono h h' ids ids' (P P' : Z → Prop) :
  (∀ x, P x → hlive h x → P' x ∧ hsame h h' x) → (∀ v, referable h v → referable h' v) →
  (∀ v t, text_at (strs h) v t → text_at (strs h') v t) → ids ⊆ ids' →
  ∀ room it n ws n', described h ids P room it n ws n' → described h' ids' P' room it n ws n'.
Proof.
  intros HP Href Htext Hids.
  assert (∀ v k, P v → k ≠ 0 → kind_at h v = Some k → P' v ∧ kind_at h' v = Some k ∧ rec_at h' v = rec_at h v) as Hkeep.
  { intros v k Hv Hk Hkd. destruct (HP v Hv) as [? (E1 & E2 & _)]; [by exists k|]. split; [done|]. by rewrite E2. }
  induction 1; try (by econstructor; eauto using lookup_weaken);
    match goal with Hv : P ?v, Hk : kind_at h ?v = Some ?k |- _ => destruct (Hkeep v k Hv ltac:(done) Hk) as (? & ? & ?) end;
    econstructor; eauto using lookup_weaken; congruence.
Qed.
End Describe.
