(* ===== verification/SerializeWrite.v ===== *)
(** * Writing a described value

    A value that a tree describes is written, as the encoding of the tree, and the heap keeps
    its records and the contents of its strings. *)
From S2P Require Import Prelude.
From S2P Require Import Bytecode Package Prims TypeDesc Shards Strings StringOps Layout Heap HeapGC Arrays ArrayElems Frames Objects Serialize SerializeWire.
Open Scope Z_scope.

(** The kind [k] has no row in the scalar registry. *)
Ltac no_scalar_row k := change (ScalarPrimIndexOfRtk (u8 k)) with (@None (nat * ScalarPrimInfo)); cbn iota.

(** ** Loops over rows *)
Fixpoint walk_rows {S} (f : nat → frow → S → outcome S) (c step : nat) (rows : list frow) (s : S) : outcome S :=
  match rows with
  | [] => Ok s
  | row :: rows => s ← f c row s; walk_rows f (c + step) step rows s
  end.
Lemma foldM_rows {S} (g : S → nat → outcome S) (f : nat → frow → S → outcome S) step rows : ∀ c a s,
  (∀ i row s, rows !! i = Some row → g s (a + i)%nat = f (c + i * step)%nat row s) →
  foldM g s (seq a (length rows)) = walk_rows f c step rows s.
Proof.
  induction rows as [|row rows IH]; intros c a s H; [done|]. cbn [length seq foldM walk_rows].
  pose proof (H 0%nat row s eq_refl) as H0. rewrite Nat.add_0_r, Nat.mul_0_l, Nat.add_0_r in H0. rewrite H0.
  destruct (f c row s) as [s'|]; [|done]. rewrite !bindE. apply IH. intros i row' t Hi.
  pose proof (H (Datatypes.S i) row' t Hi) as Hs. rewrite Nat.add_succ_comm, Hs. f_equal. lia.
Qed.

(** Struct indices have 16 bits, struct types nest, and the columns of the rows are complete. *)
Record streams_ok (fuel : nat) (ty : type_rows) : Prop := {
  so_tables : tables_ok (md (rows_of ty));
  so_width : Z.of_nat (length (structs (md (rows_of ty)))) ≤ 2 ^ 16;
  so_nests : ∀ s cs, structs (md (rows_of ty)) !!z s = Some cs → nests fuel (md (rows_of ty)) s;
  so_classes : ∀ s cs, structs (md (rows_of ty)) !!z s = Some cs →
    ∃ cls, structClassIndices ty !!z s = Some cls ∧ length cls = sFieldCount cs;
  so_fields : ∀ c fields j s, layout (md (rows_of ty)) !!z c = Some fields → cfield fields j = Some s →
    nests fuel (md (rows_of ty)) s
}.
Lemma struct_rows_spec fuel ty s cs : streams_ok fuel ty → structs (md (rows_of ty)) !!z s = Some cs →
  length (struct_rows ty s) = sFieldCount cs ∧
  ∀ i k si ci, struct_rows ty s !! i = Some (k, si, ci) →
    sFieldTypeKinds cs !! i = Some k ∧ sFieldStructIndices cs !! i = Some si
    ∧ ∃ cls, structClassIndices ty !!z s = Some cls ∧ cls !! i = Some ci.
Proof.
  intros Hok Hcs. destruct (so_classes _ _ Hok s cs Hcs) as (cls & Hcls & Hl). destruct (so_tables _ _ Hok s cs Hcs) as [Hk Hi _].
  unfold struct_rows. rewrite Hcs, Hcls. split.
  - rewrite !length_zip_with. lia.
  - intros i k si ci. rewrite lookup_zip_with_Some. intros ([k' si'] & ci' & [= -> -> ->] & H1 & H2).
    rewrite lookup_zip_with_Some in H1. destruct H1 as (? & ? & [= <- <-] & H3 & H4). split_and!; [done..|]. by exists cls.
Qed.
Lemma class_rows_spec fields i row : class_rows fields !! i = Some row →
  ∃ f, fields !! i = Some f ∧ row = (Layout.kind f, Layout.structIdx f, Layout.classIdx f).
Proof. unfold class_rows. rewrite list_lookup_fmap_Some. naive_solver. Qed.

(** ** The state of a writer *)
Section Writer.
Context (fuel shard : nat) (ty : type_rows) (Hok : streams_ok fuel ty).
Abbreviation m := (rows_of ty).
Abbreviation tbl := (md (rows_of ty)).
Context (h : heap) (ids : gmap Z Z) (P : Z → Prop).
Context (Hinj : ∀ a b v, ids !! a = Some v → ids !! b = Some v → a = b).

(** The heap still has the records of [h] and the contents of its strings, and the
    identities below [n] are those written. *)
Record wok (s : wstate) (n : Z) : Prop := {
  wk_recs : m_structHeap (w_heap s) = m_structHeap h;
  wk_kinds : m_slotKinds (w_heap s) = m_slotKinds h;
  wk_strs : vm_ok (strs (w_heap s));
  wk_same : same_contents (strs h) (strs (w_heap s));
  wk_next : nextObjId (w_ids s) = n;
  wk_ids : ∀ v id, serializeObjIds (w_ids s) !! v = Some id ↔ 1 ≤ id < n ∧ ids !! id = Some v
}.
Definition runs (s : wstate) (bs : bytes) (n' : Z) (o : outcome wstate) : Prop :=
  ∃ s', o = Ok s' ∧ wok s' n' ∧ w_out s' = w_out s ++ bs.

Context (Hrecs : length (m_slotKinds h) = length (m_structHeap h)).
Lemma kind_rec v k : kind_at h v = Some k → is_Some (rec_at h v).
Proof. intros Hk%zlookup_Some_lt. apply zlookup_is_Some. lia. Qed.
Lemma wok_rec s n i : wok s n → rec_at (w_heap s) i = rec_at h i.
Proof. intros W. unfold rec_at. by rewrite (wk_recs _ _ W). Qed.
Lemma wok_kind s n i : wok s n → kind_at (w_heap s) i = kind_at h i.
Proof. intros W. unfold kind_at. by rewrite (wk_kinds _ _ W). Qed.
Lemma wok_cell s n i r c v : wok s n → rec_at h i = Some r → r !! c = Some v → get_cell (w_heap s) i c = Ok v.
Proof. intros W Hr Hc. unfold get_cell. by rewrite (wok_rec _ _ _ W), Hr, derefE, bindE, Hc. Qed.
Lemma wok_write s n bs : wok s n → wok (write bs s) n.
Proof. by intros []. Qed.
Lemma runs_write s bs bs' n' o : runs (write bs s) bs' n' o → runs s (bs ++ bs') n' o.
Proof. intros (s' & -> & W & E). exists s'. split_and!; [done..|]. cbn in E. by rewrite E, app_assoc. Qed.
Lemma runs_Ok s bs n : wok s n → runs s bs n (Ok (write bs s)).
Proof. intros W. eexists. split_and!; [done|by apply wok_write|done]. Qed.
Lemma runs_nil s n : wok s n → runs s [] n (Ok s).
Proof. intros W. exists s. by rewrite app_nil_r. Qed.
Lemma runs_bind s bs bs' n n' o (f : wstate → outcome wstate) : runs s bs n o →
  (∀ s1, wok s1 n → runs s1 bs' n' (f s1)) → runs s (bs ++ bs') n' (s1 ← o; f s1).
Proof.
  intros (s1 & -> & W & E) H. rewrite bindE. destruct (H s1 W) as (s2 & -> & W2 & E2). exists s2.
  split_and!; [done..|]. by rewrite E2, E, app_assoc.
Qed.

Lemma WriteText_runs s n v t : wok s n → text_at fuel (strs h) v t → runs s (text_record t) n (WriteText fuel v s).
Proof.
  intros W [(k & Hr & Hk) _]. destruct (same_contents_readable _ _ v t k (wk_same _ _ W) Hr) as (k' & Hk' & Hr').
  unfold WriteText. destruct (StrVal_readable (strs (w_heap s)) v t k' fuel) as (st & -> & Hst & Hs & _); [apply W|done|lia|].
  rewrite bindE. eexists. split; [done|]. split; [|done]. apply wok_write. destruct W. split; cbn; try done.
  by eapply same_contents_trans.
Qed.
Lemma back_runs s n v id : wok s n → 1 ≤ id < n → ids !! id = Some v →
  serializeObjIds (w_ids s) !! v = Some id ∧ runs s (encode (WBack id)) n (Ok (back_reference id s)).
Proof. intros W Hid Hv. split; [by apply (wk_ids _ _ W)|by apply runs_Ok]. Qed.
Lemma new_object s n v : wok s n → 1 ≤ n → n + 1 < 2 ^ 32 → ids !! n = Some v →
  serializeObjIds (w_ids s) !! v = None ∧ wok (MkW (w_heap s) (add_written v (w_ids s)) (w_out s)) (n + 1).
Proof.
  intros W H1 Hn Hv. assert (serializeObjIds (w_ids s) !! v = None) as Hnone.
  { destruct (serializeObjIds (w_ids s) !! v) as [id|] eqn:E; [|done]. apply (wk_ids _ _ W) in E as [Hid Hv'].
    pose proof (Hinj _ _ _ Hv Hv'). lia. }
  split; [done|]. destruct W as [W1 W2 W3 W4 W5 W6]. split; cbn; try done.
  - rewrite W5. apply (wrap_small 32). unfold is_uint. lia.
  - intros u id. rewrite W5. destruct (decide (u = v)) as [->|Hu].
    + rewrite lookup_insert_eq. split.
      * intros [= <-]. split; [lia|done].
      * intros [_ Hid]. f_equal. by apply (Hinj n id v).
    + rewrite lookup_insert_ne by done. rewrite W6. split; intros [Hid Hid']; (split; [|done]); [lia|].
      destruct (decide (id = n)) as [->|]; [congruence|lia].
Qed.

(** What writing an item is. *)
Definition field_writer (k : nat) (i : Z) (c : nat) (row : frow) (s : wstate) : outcome wstate :=
  let '(kd, si, ci) := row in SerializeField fuel (SerializeAt fuel shard ty k) i c kd (Ok si) (Ok ci) s.
Definition item_writes (k : nat) (it : item) (s : wstate) (run : outcome wstate → Prop) : Prop :=
  match it with
  | IField r c row => ∀ i, rec_at h i = Some r → run (field_writer k i c row s)
  | IFields r c step rows => ∀ i body, rec_at h i = Some r →
      (∀ c row s n, wok s n → row ∈ rows → body c row s = field_writer k i c row s) → run (walk_rows body c step rows s)
  | IStruct v si => run (ser_struct (SerializeAt fuel shard ty k) v si s)
  | IRef (Some _) v => run (ser_class (SerializeAt fuel shard ty k) v s)
  | IRef None v => run (ser_array (SerializeAt fuel shard ty k) v s)
  end.

Lemma field_writer_scalar k i c kd si ci j row r bs s n : wok s n → rec_at h i = Some r →
  ScalarPrimIndexOfRtk (u8 kd) = Some (j, row) → scalar_bytes r c (slotWidth row) = Ok bs →
  field_writer k i c (kd, si, ci) s = Ok (write bs s).
Proof.
  intros W Hr Hk Hb. unfold field_writer, SerializeField. by rewrite Hk, (wok_rec _ _ _ W), Hr, derefE, bindE, Hb, bindE.
Qed.
Lemma struct_writes k v si cs r (ws : list wire) n n' s : wok s n → structs tbl !!z si = Some cs → 0 < v → rec_at h v = Some r →
  item_writes k (IFields r 0 2 (struct_rows ty si)) s (runs s (encode_list ws) n') →
  item_writes (S k) (IStruct v si) s (runs s (encode_list ws) n').
Proof.
  intros W Hcs Hv Hr H. cbn [item_writes SerializeAt ser_struct]. unfold SerializeStructFields.
  rewrite Hcs, decide_False by (rewrite (wok_rec _ _ _ W), Hr; intros [?|?]; [lia|done]).
  destruct (struct_rows_spec fuel ty si cs Hok Hcs) as [Hl Hrow]. rewrite <- Hl.
  rewrite (foldM_rows _ (field_writer k v) 2 (struct_rows ty si) 0 0).
  - by apply (H v (field_writer k v)).
  - intros i [[kd s0] ci] st Hi. destruct (Hrow i kd s0 ci Hi) as (H1 & H2 & cls & H3 & H4).
    rewrite Nat.add_0_l, H1, derefE, bindE, H2, H3. cbn [deref mbind outcome_bind]. rewrite H4. unfold field_writer. f_equal. lia.
Qed.
Lemma object_writes k v c cc fields r ws n n' s d : wok s n → 1 ≤ n → n + 1 < 2 ^ 32 → 0 < v → ids !! n = Some v →
  kind_at h v = Some RTK_Class → rec_at h v = Some r → r !! 0%nat = Some c → classes m !!z c = Some cc →
  layout tbl !!z c = Some fields →
  (∀ s, wok s (n + 1) → item_writes k (IFields r 1 2 (class_rows fields)) s (runs s (encode_list ws) n')) →
  item_writes (S k) (IRef (Some d) v) s (runs s (encode (WObj (cls_name cc) ws)) n').
Proof.
  intros W H1 Hn Hv Hid Hk Hr Hc Hcc Hl H. cbn [item_writes SerializeAt ser_class]. unfold SerializeClassFields.
  rewrite decide_False, (wok_kind _ _ _ W), Hk by lia. do 4 rewrite decide_False by (intros [=] || (by intros []) || done).
  destruct (new_object s n v W H1 Hn Hid) as [-> W1]. cbn [w_heap write]. rewrite (wok_cell _ _ _ _ _ _ W Hr Hc), bindE, Hcc, Hl, derefE, bindE.
  cbn [encode]. set (s1 := MkW _ _ _) in *. unfold write_name. apply (runs_write s1 [1]).
  apply (runs_write (write [1] s1) (text_record (cls_name cc))).
  replace (length fields) with (length (class_rows fields)) by apply length_fmap.
  rewrite (foldM_rows _ (field_writer k v) 2 (class_rows fields) 1 0).
  - apply (H _ ltac:(by do 2 apply wok_write) v (field_writer k v) Hr). done.
  - intros i row st (f & Hf & ->)%class_rows_spec. rewrite Nat.add_0_l, Hf, derefE, bindE. unfold field_writer. f_equal. lia.
Qed.

Lemma header_runs s n at_ r kind typeIdx ename dims size : wok s n → array_at ty r kind typeIdx ename dims size →
  at_ = MkArrayType kind typeIdx (Z.of_nat (length dims)) →
  runs s ([3; kind] ++ (if decide (kind = RTK_Struct) then text_record ename else []) ++ [Z.of_nat (length dims)] ++ concat (le_bytes 4 <$> dims))
    n (WriteArrayHeader ty at_ r s).
Proof.
  intros W Ha ->. destruct Ha as [_ [Hrk Hrk'] [Hd _] _ _ _ He]. unfold WriteArrayHeader. cbn [elemKind elemTypeIdx].
  apply (runs_write s [3]), (runs_write (write [3] s) [kind]).
  eapply runs_bind with (n := n).
  - case_decide; [|by apply runs_nil; do 2 apply wok_write]. destruct He as (He & [cs Hcs] & Hname & _).
    rewrite decide_False by (rewrite Hcs; intros [?|?]; done). rewrite Hname, derefE, bindE. apply runs_Ok. by do 2 apply wok_write.
  - intros s1 W1. rewrite Hrk, derefE, bindE, rank_u8, Nat2Z.id, Hd, bindE by (unfold kMaxArrayRank in *; lia).
    apply (runs_write s1 [_]). by apply runs_Ok, wok_write.
Qed.
Lemma u8_kind kind : is_uint 8 kind → u8 kind = kind.
Proof. intros H. by apply (wrap_small 8). Qed.
Lemma elements_write k v r kind typeIdx ename dims size ws n n' s : wok s n → rec_at h v = Some r →
  array_at ty r kind typeIdx ename dims size →
  item_writes k (IFields r (Z.to_nat (ArrayHeaderCells (Z.of_nat (length dims)))) (Z.to_nat (ArrayElemCells kind))
    (replicate (Z.to_nat size) (kind, typeIdx, 65535))) s (runs s (encode_list ws) n') →
  runs s (encode_list ws) n' (WriteArrayElements fuel (SerializeAt fuel shard ty k)
    (MkArrayType kind typeIdx (Z.of_nat (length dims))) r s).
Proof.
  intros W Hr Ha H. destruct Ha as [_ _ _ Hs Hb [Hu Hk] He]. unfold WriteArrayElements. cbn [elemKind elemTypeIdx].
  rewrite Hs, derefE, bindE, Hb, bindE. set (base := ArrayHeaderCells _) in *. set (size' := Z.to_nat size) in *.
  assert (0 ≤ base) as Hbase by (pose proof (proj1 (header_cells (length dims))); unfold base; lia).
  assert (1 ≤ ArrayElemCells kind) as Hcells by apply ArrayElemCells_range.
  assert (length (replicate size' (kind, typeIdx, 65535)) = size') as Hl by apply length_replicate.
  destruct (ScalarPrimIndexOfRtk kind) as [[i row]|] eqn:Hrow.
  - rewrite <- Hl, (foldM_rows _ (λ c _ s, bs ← scalar_bytes r c (slotWidth row); Ok (write bs s)) (Z.to_nat (ArrayElemCells kind)) _ (Z.to_nat base)).
    + apply (H v); [done|]. intros c row' s' n1 W1 [-> _]%elem_of_replicate. unfold field_writer, SerializeField.
      by rewrite u8_kind, Hrow, (wok_rec _ _ _ W1), Hr, derefE, bindE.
    + intros j row' s' _. rewrite owner_cell, bindE by lia. do 2 f_equal. lia.
  - unfold ArrayElemCells in *. rewrite Hrow in *. destruct Hk as [[? ?]|[->| ->]]; [done|..].
    + rewrite decide_True by done.
      rewrite <- Hl, (foldM_rows _ (λ c _ s, v ← deref (r !! c); WriteText fuel v s) (Z.to_nat 1) _ (Z.to_nat base)).
      * apply (H v); [done|]. intros c row' s' n1 W1 [-> _]%elem_of_replicate. unfold field_writer, SerializeField.
        rewrite u8_kind, Hrow, decide_True by done. unfold get_cell. by rewrite (wok_rec _ _ _ W1), Hr, derefE, bindE.
      * intros j row' s' _. do 3 f_equal. lia.
    + rewrite decide_False, decide_True by done.
      rewrite <- Hl, (foldM_rows _ (λ c _ s, v ← deref (r !! c); ser_struct (SerializeAt fuel shard ty k) v typeIdx s) (Z.to_nat 1) _ (Z.to_nat base)).
      * apply (H v); [done|]. intros c row' s' n1 W1 [-> _]%elem_of_replicate. unfold field_writer, SerializeField.
        rewrite u8_kind, Hrow, decide_False, decide_True, bindE, decide_False by (done || by apply He).
        unfold get_cell. by rewrite (wok_rec _ _ _ W1), Hr, derefE, bindE.
      * intros j row' s' _. do 3 f_equal. lia.
Qed.
Lemma array_writes k v r kind typeIdx ename dims size ws n n' s : wok s n → 1 ≤ n → n + 1 < 2 ^ 32 → 0 < v → ids !! n = Some v →
  kind_at h v = Some RTK_Array → rec_at h v = Some r → array_at ty r kind typeIdx ename dims size →
  (∀ s, wok s (n + 1) → item_writes k (IFields r (Z.to_nat (ArrayHeaderCells (Z.of_nat (length dims)))) (Z.to_nat (ArrayElemCells kind))
    (replicate (Z.to_nat size) (kind, typeIdx, 65535))) s (runs s (encode_list ws) n')) →
  item_writes (S k) (IRef None v) s (runs s (encode (WArr kind ename dims ws)) n').
Proof.
  intros W H1 Hn Hv Hid Hk Hr Ha H. cbn [item_writes SerializeAt ser_array]. unfold SerializeArrayRecord.
  rewrite decide_False, (decide_False (P := _ = None)) by (lia || by rewrite (wok_rec _ _ _ W), Hr).
  destruct (new_object s n v W H1 Hn Hid) as [-> W1]. cbn [w_heap]. rewrite (wok_kind _ _ _ W), Hk, derefE, bindE, decide_False, bindE by done.
  rewrite (wok_rec _ _ _ W), Hr, derefE, bindE. destruct (aa_type _ _ _ _ _ _ _ Ha) as (t & -> & Ht). rewrite derefE, bindE, Ht.
  change (runs _ _ n') with (runs (with_wheap (w_heap s) (MkW (w_heap s) (add_written v (w_ids s)) (w_out s))) (encode (WArr kind ename dims ws)) n').
  cbn [encode]. rewrite !app_assoc. apply runs_bind with (n := n + 1).
  - rewrite <- !app_assoc. by eapply header_runs.
  - intros s1 Ws. eapply elements_write; eauto.
Qed.

Lemma array_back k s n v r id : wok s n → 0 < v → rec_at h v = Some r → serializeObjIds (w_ids s) !! v = Some id →
  SerializeArrayRecord fuel shard ty k v s = Ok (back_reference id s).
Proof.
  intros W Hv Hr Hid. unfold SerializeArrayRecord.
  rewrite decide_False, decide_False by (lia || by rewrite (wok_rec _ _ _ W), Hr). by rewrite Hid.
Qed.
Lemma box_writes k s n v : wok s n → 0 < v → kind_at h v = Some RTK_Boxed →
  ser_class (SerializeAt fuel shard ty (S k)) v s = WriteBoxedRecord fuel v s.
Proof.
  intros W Hv Hk. cbn [SerializeAt ser_class]. unfold SerializeClassFields.
  rewrite decide_False, (wok_kind _ _ _ W), Hk by lia. by rewrite decide_False, decide_True by (done || by intros []).
Qed.
Lemma described_writes room it n ws n' : described fuel ty h ids P room it n ws n' → 1 ≤ n → n' < 2 ^ 32 →
  ∀ k s, (room ≤ k)%nat → wok s n → item_writes k it s (runs s (encode_list ws) n').
Proof.
  assert (∀ w, encode_list [w] = encode w) as Hone by (intros w; apply app_nil_r).
  induction 1 as [room r c kd si ci i row bs n Hk Hb|room r c si ci v t n Hc Ht|room r c si ci v ws n n' Hsi Hc Hd IH
    |room r c si ci v w n n' Hci Hc Hd IH|room r c si ci v w n n' Hc Hd IH|room r c step n
    |room r c step row rows w ws n n1 n' Hd IH Hds IHs|room v si cs r ws n n' Hcs Hv HP Hkd Hr Hl Hd IH
    |room d v n Hv|room d v id n Hv Hid Hlt Href|room v r tag x t n Hv HP Hkd Hr Htag Hu Hs Ht
    |room v r tag i row bs n Hv HP Hkd Hr Htag Hrow Hb|room d v r c cc fields ws n n' Hv HP Hid Hkd Hr Hc Hcc Hf Hl Hlt Hfind Hcap Hsub Hd IH
    |room v r kd typeIdx ename dims size ws n n' Hv HP Hid Hkd Hr Ha Hd IH|room v kd ename dims ws n n' Hd IH];
    intros H1 Hn' k s Hroom W; rewrite ?Hone.
  - intros j Hr. rewrite (field_writer_scalar _ _ _ _ _ _ _ _ _ _ _ _ W Hr Hk Hb). by apply runs_Ok.
  - intros j Hr. cbn [field_writer]. unfold SerializeField.
    no_scalar_row RTK_String.
    rewrite decide_True, (wok_cell _ _ _ _ _ _ W Hr Hc), bindE by done. by apply WriteText_runs.
  - intros j Hr. cbn [field_writer]. unfold SerializeField. cbn [encode].
    no_scalar_row RTK_Struct.
    rewrite decide_False, decide_True, bindE, decide_False, (wok_cell _ _ _ _ _ _ W Hr Hc), bindE by done. by apply IH.
  - intros j Hr. cbn [field_writer]. unfold SerializeField. cbn [encode].
    no_scalar_row RTK_Class.
    do 2 rewrite decide_False by done. rewrite decide_True, bindE, decide_False, (wok_cell _ _ _ _ _ _ W Hr Hc), bindE by done.
    rewrite <- Hone. by apply IH.
  - intros j Hr. cbn [field_writer]. unfold SerializeField. cbn [encode].
    no_scalar_row RTK_Array.
    do 3 rewrite decide_False by done. rewrite decide_True, (wok_cell _ _ _ _ _ _ W Hr Hc), bindE by done.
    rewrite <- Hone. by apply IH.
  - intros j body Hr Hbody. by apply runs_nil.
  - intros j body Hr Hbody. pose proof (described_le _ _ _ _ _ _ _ _ _ _ Hd). pose proof (described_le _ _ _ _ _ _ _ _ _ _ Hds).
    cbn [walk_rows]. change (encode_list (w :: ws)) with (encode w ++ encode_list ws). apply runs_bind with (n := n1).
    + rewrite (Hbody _ _ _ _ W) by left. rewrite <- Hone. apply IH; try done. lia.
    + intros s1 W1. apply (IHs ltac:(lia) Hn' k s1 Hroom W1 j); [done|]. intros. eapply Hbody; [done|by right].
  - destruct k as [|k]; [lia|]. eapply struct_writes; try done. apply IH; try done. lia.
  - destruct k as [|k]; [lia|]. destruct d; cbn [item_writes SerializeAt ser_class ser_array];
      unfold SerializeClassFields, SerializeArrayRecord; rewrite decide_True by done; by apply runs_Ok.
  - destruct k as [|k]; [lia|].
    destruct (back_runs s n v id W Hlt Hid) as [Hl Hrun]. assert (is_Some (rec_at h v)) as [r Hr] by (destruct Href as [Hk|Hk]; by apply kind_rec in Hk).
    destruct d; cbn [item_writes SerializeAt ser_class ser_array]; [unfold SerializeClassFields|by rewrite (array_back _ _ _ _ _ _ W Hv Hr Hl)].
    rewrite decide_False, (wok_kind _ _ _ W) by lia. destruct Href as [Hk|Hk]; rewrite Hk.
    + do 4 rewrite decide_False by (intros [=] || (by intros []) || done). by rewrite Hl.
    + rewrite decide_True by (by left). by rewrite (array_back _ _ _ _ _ _ W Hv Hr Hl).
  - destruct k as [|k]; [lia|]. cbn [item_writes]. rewrite (box_writes _ _ _ _ W Hv Hkd). unfold WriteBoxedRecord.
    rewrite (wok_rec _ _ _ W), Hr, derefE, bindE, Htag, derefE, bindE, Hu, decide_True, Hs, derefE, bindE by done.
    apply (runs_write s [4; RTK_String]). apply WriteText_runs; [by apply wok_write|done].
  - destruct k as [|k]; [lia|]. cbn [item_writes]. rewrite (box_writes _ _ _ _ W Hv Hkd). unfold WriteBoxedRecord.
    rewrite (wok_rec _ _ _ W), Hr, derefE, bindE, Htag, derefE, bindE, decide_False by (intros Hu; by rewrite Hu in Hrow).
    rewrite Hrow, Hb, bindE. apply (runs_write s [4; _]). by apply runs_Ok, wok_write.
  - destruct k as [|k]; [lia|]. pose proof (described_le _ _ _ _ _ _ _ _ _ _ Hd). eapply object_writes; try done; [lia|].
    intros s1 W1. apply IH; try done; lia.
  - destruct k as [|k]; [lia|]. pose proof (described_le _ _ _ _ _ _ _ _ _ _ Hd). eapply array_writes; try done; [lia|].
    intros s1 W1. apply IH; try done; lia.
  - destruct k as [|k]; [lia|]. inversion Hd as [| | | | | | | | | | | | |? ? r ? typeIdx ? ? size ? ? ? Hv HP Hid Hkd Hr Ha Hds|]; subst.
    cbn [item_writes SerializeAt ser_class]. unfold SerializeClassFields.
    rewrite decide_False, (wok_kind _ _ _ W), Hkd, decide_True by (lia || by left).
    specialize (IH H1 Hn' (S k) s ltac:(lia) W). by rewrite Hone in IH.
Qed.
End Writer.
