(* ===== verification/SerializeStep.v ===== *)
(** * Steps of a reader

    The primitive reads of a stream against the encoding of what they read, the cells of a
    scalar field, and what a step of a reader keeps: everything alive but the records it is
    filling, the strings in use and the identities given so far. *)
From S2P Require Import Prelude.
From S2P Require Import Bytecode Package Prims TypeDesc Shards Strings StringOps Layout Heap HeapGC Arrays ArrayElems Frames Objects ObjectSpec AllocGrow.
From S2P Require Import Serialize SerializeWire SerializeWrite.
Open Scope Z_scope.

(** ** The cells of a scalar *)
Lemma le_bytes_i32 bs : Forall is_byte bs → length bs = 4%nat → le_bytes 4 (i32 (le_value bs)) = bs.
Proof.
  intros Hb Hl. pose proof (le_value_bytes 4 (i32 (le_value bs))) as E.
  change (8 * Z.of_nat 4) with 32 in E. change (i32 (le_value bs) mod 2 ^ 32) with (u32 (i32 (le_value bs))) in E.
  pose proof (le_value_bound bs Hb) as Hv. rewrite Hl in Hv. change (8 * Z.of_nat 4) with 32 in Hv.
  rewrite wrap_swrap, (wrap_small 32) in E by (done || lia).
  rewrite <- (le_bytes_value (le_bytes 4 (i32 (le_value bs)))) by apply le_bytes_bytes.
  rewrite E, length_le_bytes, <- Hl. by apply le_bytes_value.
Qed.
Lemma cells_bytes_bytes cs : Forall is_byte (cells_bytes cs).
Proof. induction cs as [|c cs IH]; [apply list.Forall_nil_2|]. apply list.Forall_app. split; [apply le_bytes_bytes|exact IH]. Qed.
Lemma length_cells_bytes cs : length (cells_bytes cs) = (4 * length cs)%nat.
Proof.
  induction cs as [|c cs IH]; [done|]. change (cells_bytes (c :: cs)) with (le_bytes 4 c ++ cells_bytes cs).
  rewrite length_app, length_le_bytes, IH. simpl. lia.
Qed.
(** Cells loaded from bytes have those bytes. *)
Lemma load_cells_bytes n : ∀ mem o, Forall is_byte mem → (o + 4 * n ≤ length mem)%nat →
  ∃ vs, load_cells mem (Z.of_nat o) n = Ok vs ∧ length vs = n ∧ cells_bytes vs = take (4 * n) (drop o mem).
Proof.
  induction n as [|n IH]; intros mem o Hb Hl; [by exists []|]. cbn [load_cells]. unfold ld32.
  rewrite Nat2Z.id, load_ok, !bindE by lia. replace (Z.of_nat o + 4) with (Z.of_nat (o + 4)) by lia.
  destruct (IH mem (o + 4)%nat Hb) as (vs & -> & Hn & Hv); [lia|]. rewrite bindE. eexists. split; [done|]. split; [simpl; lia|].
  match goal with |- cells_bytes (?v :: _) = _ => change (cells_bytes (v :: vs)) with (le_bytes 4 v ++ cells_bytes vs) end.
  rewrite Hv, le_bytes_i32.
  - replace (4 * S n)%nat with (4 + 4 * n)%nat by lia. by rewrite <- (take_take_drop _ 4), drop_drop.
  - by apply Forall_take, Forall_drop.
  - rewrite length_take, length_drop. lia.
Qed.

Lemma cells_at_ok r c n : (c + n ≤ length r)%nat → cells_at r c n = Ok (take n (drop c r)).
Proof. intros H. unfold cells_at, slice. by rewrite decide_True by lia. Qed.
Lemma cells_at_length r c n vs : cells_at r c n = Ok vs → length vs = n ∧ (c + n ≤ length r)%nat.
Proof.
  unfold cells_at, slice. case_decide; [|done]. intros [= <-]. rewrite length_take, length_drop. lia.
Qed.
Lemma scalar_bytes_Ok r c w bs : scalar_bytes r c w = Ok bs → (w ≤ 8)%nat →
  length bs = w ∧ Forall is_byte bs ∧ (c + scalar_cells w ≤ length r)%nat.
Proof.
  intros (cs & [Hl Hr]%cells_at_length & [= <-])%bind_Ok Hw. split_and!; [|apply Forall_take, cells_bytes_bytes|done].
  rewrite length_take, length_cells_bytes, Hl. unfold scalar_cells. case_decide; lia.
Qed.
(** A scalar depends on its own cells. *)
Lemma scalar_bytes_agree r r' c w : length r' = length r → (∀ j, (c ≤ j < c + scalar_cells w)%nat → r' !! j = r !! j) →
  scalar_bytes r' c w = scalar_bytes r c w.
Proof.
  intros Hl H. unfold scalar_bytes, cells_at, slice. rewrite Hl. case_decide; [|done]. do 3 f_equal.
  apply list_eq. intros i. destruct (decide (i < scalar_cells w)%nat); [|by rewrite !lookup_take_ge by lia].
  rewrite !lookup_take_lt, !lookup_drop by lia. apply H. lia.
Qed.
(** A scalar that is put in its cells is there, and the other cells are as they were. *)
Lemma put_scalar_spec h i c bs r : heap_ok h → rec_at h i = Some r → (length bs ≤ 8)%nat → Forall is_byte bs →
  (c + scalar_cells (length bs) ≤ length r)%nat →
  ∃ h' r', put_scalar h i c bs = Ok h' ∧ rewrote h i r' h' ∧ length r' = length r
    ∧ (∀ j, (j < c ∨ c + scalar_cells (length bs) ≤ j)%nat → r' !! j = r !! j) ∧ scalar_bytes r' c (length bs) = Ok bs.
Proof.
  intros Hok Hr Hw Hb Hc. set (w := length bs) in *. set (k := scalar_cells w) in *. unfold put_scalar. fold w k.
  rewrite Hr, derefE, bindE, cells_at_ok, bindE by done. set (cs := take k (drop c r)).
  assert (length cs = k) as Hcs by (unfold cs; rewrite length_take, length_drop; lia).
  assert (w ≤ 4 * k)%nat as Hwk by (unfold k, scalar_cells; case_decide; lia).
  destruct (load_cells_bytes k (bs ++ drop w (cells_bytes cs)) 0) as (vs & E & Hn & Hv).
  { apply list.Forall_app. split; [done|]. apply Forall_drop, cells_bytes_bytes. }
  { rewrite length_app, length_drop, length_cells_bytes, Hcs. lia. }
  change (Z.of_nat 0) with 0 in E. rewrite E, bindE. destruct (write_cells_spec vs h i c r Hok Hr) as (h' & -> & W); [lia|].
  exists h', (list_inserts c vs r). split_and!; [done|done|by rewrite length_inserts| |].
  - intros j Hj. destruct Hj as [?|?]; [by rewrite list_lookup_inserts_lt by lia|by rewrite list_lookup_inserts_ge by lia].
  - unfold scalar_bytes. fold k. unfold cells_at. rewrite <- Hn, slice_inserts_same, derefE, bindE, Hv by lia. f_equal.
    rewrite drop_0, (take_ge (_ ++ _)) by (rewrite length_app, length_drop, length_cells_bytes, Hcs; lia).
    by apply take_app_length'.
Qed.
Lemma registry_width k i row : ScalarPrimIndexOfRtk k = Some (i, row) → (slotWidth row ≤ 8)%nat.
Proof.
  intros [Hin _]%ScalarPrimIndexOfRtk_Some. revert row Hin. apply registry_cases. repeat constructor; simpl; lia.
Qed.

(** *** The cells of a boxed scalar *)
Lemma le_value_app a b : Forall is_byte a → Forall is_byte b →
  le_value (a ++ b) = le_value a + 2 ^ (8 * Z.of_nat (length a)) * le_value b.
Proof.
  intros Ha Hb. induction Ha as [|x a Hx Ha IH]; [simpl; lia|]. cbn [app le_value length].
  rewrite !lor_shiftl_add, IH by (lia || exact Hx).
  replace (8 * Z.of_nat (S (length a))) with (8 + 8 * Z.of_nat (length a)) by lia. rewrite Z.pow_add_r by lia. lia.
Qed.
Lemma le_value_zeros a n : Forall is_byte a → le_value (a ++ replicate n 0) = le_value a.
Proof.
  intros Ha. rewrite le_value_app by (done || apply Forall_replicate; by vm_compute).
  replace (le_value (replicate n 0)) with 0; [lia|]. induction n as [|n IH]; [done|]. cbn [replicate le_value]. by rewrite <- IH.
Qed.
Lemma split_halves lo hi : 0 ≤ lo < 2 ^ 32 → 0 ≤ hi < 2 ^ 32 →
  u32 (lo + 2 ^ 32 * hi) = lo ∧ Z.shiftr (u64 (lo + 2 ^ 32 * hi)) 32 = hi.
Proof.
  intros Hlo Hhi. split.
  - unfold wrap. rewrite (Z.mul_comm (2 ^ 32)), Z.mod_add by done. by apply Z.mod_small.
  - rewrite (wrap_small 64).
    + rewrite Z.shiftr_div_pow2 by done. rewrite (Z.mul_comm (2 ^ 32)), Z.div_add, Z.div_small by done. done.
    + unfold is_uint. change (2 ^ 64) with (2 ^ 32 * 2 ^ 32). revert Hlo Hhi. generalize (2 ^ 32). intros p. nia.
Qed.
Lemma box_scalar tag i row bs : ScalarPrimIndexOfRtk tag = Some (i, row) → length bs = slotWidth row → Forall is_byte bs →
  scalar_bytes (box_record tag (le_value bs)) 1 (slotWidth row) = Ok bs.
Proof.
  intros Hrow Hl Hb.
  assert (slotWidth row = 8 ∨ slotWidth row ≤ 4)%nat as Hw.
  { apply ScalarPrimIndexOfRtk_Some in Hrow as [Hin _]. revert Hin. generalize row. apply registry_cases.
    apply (bool_decide_unpack _). vm_compute. exact I. }
  unfold box_record, wide_tag. rewrite Hrow. unfold scalar_bytes, scalar_cells, cells_at, slice. destruct Hw as [Hw|Hw].
  - rewrite bool_decide_true, Hw by done. cbn [length].
    change (if decide (4 < 8)%nat then 2%nat else 1%nat) with 2%nat. rewrite decide_True by lia.
    change (drop 1 ?l) with (tail l). cbn [tail take deref]. rewrite bindE. apply (f_equal Ok).
    rewrite <- (take_drop 4 bs) in Hb |- *. apply list.Forall_app in Hb as [H1 H2]. set (lo := take 4 bs) in *. set (hi := drop 4 bs) in *.
    assert (length lo = 4%nat) as Hlo by (unfold lo; rewrite length_take; lia). assert (length hi = 4%nat) as Hhi by (unfold hi; rewrite length_drop; lia).
    pose proof (le_value_bound lo H1) as B1. pose proof (le_value_bound hi H2) as B2. rewrite Hlo in B1. rewrite Hhi in B2.
    change (8 * Z.of_nat 4) with 32 in *.
    rewrite le_value_app, Hlo by done. change (8 * Z.of_nat 4) with 32.
    destruct (split_halves (le_value lo) (le_value hi) B1 B2) as [-> ->].
    change (cells_bytes [?a; ?b]) with (le_bytes 4 a ++ le_bytes 4 b ++ []). rewrite app_nil_r, !le_bytes_i32 by done.
    apply take_ge. rewrite length_app. lia.
  - rewrite bool_decide_false, (decide_False (P := (4 < slotWidth row)%nat)) by lia. cbn [length]. rewrite decide_True by lia.
    change (drop 1 ?l) with (tail l). cbn [tail take deref]. rewrite bindE. apply (f_equal Ok).
    change (cells_bytes [?a]) with (le_bytes 4 a ++ []). rewrite app_nil_r, <- (le_value_zeros bs (4 - slotWidth row)) by done.
    rewrite le_bytes_i32; [by apply take_app_length'|..].
    + apply list.Forall_app. split; [done|]. apply Forall_replicate. by vm_compute.
    + rewrite length_app, length_replicate. lia.
Qed.

(** ** The state of a reader *)
Section Steps.
Context (fuel shard : nat) (ty : type_rows).

(** The identities below [n] are given, to different objects. *)
Record rok (s : rstate) (n : Z) : Prop := {
  rk_heap : heap_ok (r_heap s);
  rk_shard : (shard < length (m_heapShards (r_heap s)))%nat;
  rk_next : nextObjId (r_ids s) = n;
  rk_ids : ∀ id, is_Some (deserializeObjIds (r_ids s) !! id) ↔ 1 ≤ id < n;
  rk_refs : ∀ id v, deserializeObjIds (r_ids s) !! id = Some v → 0 < v ∧ referable (r_heap s) v;
  rk_inj : ∀ a b v, deserializeObjIds (r_ids s) !! a = Some v → deserializeObjIds (r_ids s) !! b = Some v → a = b
}.
(** From [s] to [s'] the records of [X] are filled. *)
Record rstep (X : Z → Prop) (s s' : rstate) (n' : Z) (rest : bytes) : Prop := {
  rs_ok : rok s' n';
  rs_in : r_in s' = rest;
  rs_same : ∀ x, hlive (r_heap s) x → ¬ X x → hsame (r_heap s) (r_heap s') x;
  rs_kind : ∀ x, hlive (r_heap s) x → kind_at (r_heap s') x = kind_at (r_heap s) x;
  rs_strs : extends (strs (r_heap s)) (strs (r_heap s'));
  rs_ids : deserializeObjIds (r_ids s) ⊆ deserializeObjIds (r_ids s')
}.
(** A record that is new since [s]. *)
Definition made (s s' : rstate) (x : Z) : Prop := hlive (r_heap s') x ∧ ¬ hlive (r_heap s) x.
Definition nothing (x : Z) : Prop := False.

Lemma referable_live h v : referable h v → hlive h v.
Proof. intros [H|H]; by eexists. Qed.
Lemma rstep_live X s s' n' rest x : rstep X s s' n' rest → hlive (r_heap s) x → hlive (r_heap s') x.
Proof. intros R Hx. pose proof (rs_kind _ _ _ _ _ R x Hx) as E. destruct Hx as (k & Hk & Hn). exists k. by rewrite E. Qed.
Lemma rstep_trans (X Y W : Z → Prop) s s1 s' n1 n' r1 rest : rstep X s s1 n1 r1 → rstep Y s1 s' n' rest →
  (∀ x, hlive (r_heap s) x → X x ∨ Y x → W x) → rstep W s s' n' rest.
Proof.
  intros R1 R2 HW. split; try apply R2.
  - intros x Hx Hn. eapply hsame_trans; [apply (rs_same _ _ _ _ _ R1 x Hx)|apply (rs_same _ _ _ _ _ R2)]; [|by eapply rstep_live|]; naive_solver.
  - intros x Hx. rewrite (rs_kind _ _ _ _ _ R2 x) by (by eapply rstep_live). by apply (rs_kind _ _ _ _ _ R1).
  - eapply extends_trans; [apply R1|apply R2].
  - etrans; [apply R1|apply R2].
Qed.
Lemma rstep_weaken (X W : Z → Prop) s s' n' rest : rstep X s s' n' rest → (∀ x, hlive (r_heap s) x → X x → W x) → rstep W s s' n' rest.
Proof. intros [R1 R2 R3 R4 R5 R6] HW. split; try done. intros x Hx Hn. apply R3; [done|]. naive_solver. Qed.

Lemma text_at_extends st st' v t : store_ok st → extends st st' → text_at fuel st v t → text_at fuel st' v t.
Proof.
  intros Hok He [(k & [Hc Hr] & Hk) Hl]. split; [|done]. exists k. split; [|done]. split; [by eapply extends_child|by eapply extends_reads].
Qed.
(** What is described stays described while other records are filled. *)
Lemma described_step X s s' n' rest m0 (P P' : Z → Prop) room it n ws n1 : rok s m0 → rstep X s s' n' rest →
  (∀ x, P x → hlive (r_heap s) x → P' x ∧ ¬ X x) →
  described fuel ty (r_heap s) (deserializeObjIds (r_ids s)) P room it n ws n1 →
  described fuel ty (r_heap s') (deserializeObjIds (r_ids s')) P' room it n ws n1.
Proof.
  intros K R HP. apply described_mono.
  - intros x Hx Hl. destruct (HP x Hx Hl). split; [done|]. by apply (rs_same _ _ _ _ _ R).
  - intros v Hv. pose proof (rs_kind _ _ _ _ _ R v (referable_live _ _ Hv)) as E. destruct Hv; [left|right]; by rewrite E.
  - intros v t. apply text_at_extends; [apply (hk_strs _ (rk_heap _ _ K))|apply R].
  - apply R.
Qed.

(** String handles fit the cells of a box. *)
Definition strings_small (st : StringStore) : Prop := ∀ x, in_use st x → x < 2 ^ 31.
Definition shows (s : rstate) (P : Z → Prop) (room : nat) (it : item) (n : Z) (ws : list wire) (n' : Z) : Prop :=
  strings_small (strs (r_heap s)) → described fuel ty (r_heap s) (deserializeObjIds (r_ids s)) P room it n ws n'.
Lemma strings_small_back X s s' n' rest : rstep X s s' n' rest → strings_small (strs (r_heap s')) → strings_small (strs (r_heap s)).
Proof. intros R H x Hx. apply H. by apply (rs_strs _ _ _ _ _ R). Qed.
Lemma shows_step X s s' n' rest m0 (P P' : Z → Prop) room it n ws n1 : rok s m0 → rstep X s s' n' rest →
  (∀ x, P x → hlive (r_heap s) x → P' x ∧ ¬ X x) → shows s P room it n ws n1 → shows s' P' room it n ws n1.
Proof. intros K R HP D Hs. eapply described_step; [done..|]. apply D. by eapply strings_small_back. Qed.
Lemma described_weaken s n (P P' : Z → Prop) room it n0 ws n1 : rok s n → (∀ x, P x → hlive (r_heap s) x → P' x) →
  described fuel ty (r_heap s) (deserializeObjIds (r_ids s)) P room it n0 ws n1 →
  described fuel ty (r_heap s) (deserializeObjIds (r_ids s)) P' room it n0 ws n1.
Proof.
  intros K HP. apply described_mono; [|done|done|done]. intros x Hx Hl. split; [by apply HP|done].
Qed.
Lemma shows_weaken s n (P P' : Z → Prop) room it n0 ws n1 : rok s n → (∀ x, P x → hlive (r_heap s) x → P' x) →
  shows s P room it n0 ws n1 → shows s P' room it n0 ws n1.
Proof. intros K HP D Hs. by eapply described_weaken, D. Qed.
Lemma made_before X s s1 s' n' rest x : rstep X s1 s' n' rest → made s s1 x → made s s' x.
Proof. intros R [H1 H2]. split; [by eapply rstep_live|done]. Qed.
Lemma made_after X s s1 s' n' rest x : rstep X s s1 n' rest → made s1 s' x → made s s' x.
Proof. intros R [H1 H2]. split; [done|]. intros Hx. by eapply H2, rstep_live. Qed.
Lemma rstep_rec X s s' n' rest x r : rstep X s s' n' rest → hlive (r_heap s) x → ¬ X x → rec_at (r_heap s) x = Some r → rec_at (r_heap s') x = Some r.
Proof. intros R Hl Hx Hr. by rewrite (proj1 (rs_same _ _ _ _ _ R x Hl Hx)). Qed.

(** *** Kinds of steps *)
Lemma rok_refs_step s n g (inp : bytes) : rok s n → heap_ok g → length (m_heapShards g) = length (m_heapShards (r_heap s)) →
  (∀ x, hlive (r_heap s) x → kind_at g x = kind_at (r_heap s) x) → rok (MkR g (r_ids s) inp) n.
Proof.
  intros [K1 K2 K3 K4 K5 K6] Hg Hl Hk. split; cbn; try done; [lia|].
  intros id v Hv. destruct (K5 id v Hv) as [? Hr]. split; [done|]. pose proof (Hk v (referable_live _ _ Hr)) as E.
  destruct Hr; [left|right]; by rewrite E.
Qed.
Lemma rstep_input s n inp : rok s n → rstep nothing s (MkR (r_heap s) (r_ids s) inp) n inp.
Proof.
  intros K. split; try done. apply rok_refs_step; try done; apply K.
Qed.
Lemma rstep_refl s n : rok s n → rstep nothing s s n (r_in s).
Proof. intros K. by split. Qed.
Lemma rstep_grows s n g inp : rok s n → grows (r_heap s) g → rstep nothing s (MkR g (r_ids s) inp) n inp.
Proof.
  intros K G. assert (∀ x, hlive (r_heap s) x → kind_at g x = kind_at (r_heap s) x) as Hk by (intros x Hx; by apply (gr_ext _ _ G)).
  split; cbn; try done; [|intros x Hx _; by apply (gr_ext _ _ G)|apply G]. apply rok_refs_step; try done; apply G.
Qed.
Lemma rstep_rewrote s n i r h' : rok s n → rewrote (r_heap s) i r h' → rstep (eq i) s (with_rheap h' s) n (r_in s).
Proof.
  intros K W. assert (∀ x, kind_at h' x = kind_at (r_heap s) x) as Hk.
  { intros x. destruct (decide (x = i)) as [->|Hx]; [apply (rw_kind _ _ _ _ W)|by destruct (rw_other _ _ _ _ W x Hx) as (_ & ? & _)]. }
  split; cbn; try done.
  - apply rok_refs_step; [done|apply W|by rewrite (rw_shards _ _ _ _ W)|by intros].
  - intros x _ Hx. apply (rw_other _ _ _ _ W). congruence.
  - rewrite (rw_strs _ _ _ _ W). apply extends_refl.
Qed.
(** A new object takes the next identity. *)
Lemma rstep_new s n g v inp : rok s n → grows (r_heap s) g → ¬ hlive (r_heap s) v → 0 < v → referable g v → 1 ≤ n → n + 1 < 2 ^ 32 →
  rstep nothing s (MkR g (add_read v (r_ids s)) inp) (n + 1) inp ∧ deserializeObjIds (add_read v (r_ids s)) !! n = Some v.
Proof.
  intros K G Hd Hv Hr H1 Hn. pose proof (rstep_grows s n g inp K G) as [[K1 K2 K3 K4 K5 K6] R2 R3 R4 R5 R6]. cbn in *.
  assert (deserializeObjIds (r_ids s) !! n = None) as Hnone.
  { destruct (deserializeObjIds (r_ids s) !! n) eqn:E; [|done]. assert (is_Some (deserializeObjIds (r_ids s) !! n)) as [_ ?]%K4 by (by rewrite E). lia. }
  assert (∀ id, deserializeObjIds (r_ids s) !! id ≠ Some v) as Hnew.
  { intros id Hid. apply Hd. eapply referable_live, (rk_refs _ _ K), Hid. }
  split; [|cbn; rewrite K3; apply lookup_insert_eq]. split; cbn; try done; [|rewrite K3; by apply insert_subseteq]. split; cbn; try done; rewrite ?K3.
  - apply (wrap_small 32). unfold is_uint. lia.
  - intros id. rewrite lookup_insert_is_Some, K4. destruct (decide (n = id)); naive_solver lia.
  - intros id u. rewrite lookup_insert_Some. intros [[_ <-]|[_ Hid]]; [done|by apply (K5 id)].
  - intros a b u. rewrite !lookup_insert_Some. intros [[<- <-]|[Ha Hia]] [[<- Hb]|[Hb Hib]]; try done; [|naive_solver|by eapply K6].
    exfalso. by eapply Hnew.
Qed.
End Steps.
