(* ===== verification/SerializeRead.v ===== *)
(** * Reading an encoded value

    The bytes of a tree are read back, in any heap, as a value that the tree describes, made
    of new records; what was alive is unchanged, and what follows in the stream is unread. *)
From S2P Require Import Prelude.
From S2P Require Import Bytecode Package Prims TypeDesc Shards Strings StringOps Layout Heap HeapGC Arrays ArrayElems Frames Objects ObjectSpec AllocGrow.
From S2P Require Import Serialize SerializeWire SerializeWrite SerializeStep.
Open Scope Z_scope.

Section Reader.
Context (fuel shard : nat) (ty : type_rows) (method : string).
Context (Hok : streams_ok fuel ty) (Hfuel : (1 ≤ fuel)%nat).
Abbreviation m := (rows_of ty).
Abbreviation tbl := (md (rows_of ty)).
Abbreviation rok := (rok shard).
Abbreviation rstep := (rstep shard).
Abbreviation shows := (shows fuel ty).

(** ** Primitive reads *)
Definition rest_of (inp : bytes) (s : rstate) : rstate := MkR (r_heap s) (r_ids s) inp.
Lemma read_app s bs rest : r_in s = bs ++ rest → read method (length bs) s = Ok (bs, rest_of rest s).
Proof.
  intros E. unfold read. rewrite E, length_app, decide_False by lia. by rewrite take_app_length, drop_app_length.
Qed.
Lemma read_uint_app n s v rest : r_in s = le_bytes n v ++ rest → is_uint (8 * Z.of_nat n) v →
  read_uint method n s = Ok (v, rest_of rest s).
Proof.
  intros E Hv. unfold read_uint. rewrite <- (length_le_bytes n v), (read_app _ _ _ E), bindE, le_value_bytes.
  by rewrite Z.mod_small.
Qed.
Lemma read_byte_app s b rest : r_in s = b :: rest → is_byte b → read_uint method 1 s = Ok (b, rest_of rest s).
Proof. intros E Hb. apply (read_uint_app 1); [|exact Hb]. rewrite E. cbn. f_equal. symmetry. change 255 with (Z.ones 8). rewrite Z.land_ones by lia. by apply Z.mod_small. Qed.
Lemma name_app s too_long t rest : r_in s = text_record t ++ rest → Z.of_nat (length t) ≤ MAX_STRING_LENGTH →
  read_name method too_long s = Ok (t, rest_of rest s).
Proof.
  intros E Hl. unfold read_name. unfold text_record in E. rewrite <- app_assoc in E.
  rewrite (read_uint_app 4 _ _ _ E), bindE, decide_False by (unfold is_uint, MAX_STRING_LENGTH in *; lia). rewrite Nat2Z.id.
  by rewrite (read_app (rest_of (t ++ rest) s) t rest).
Qed.
Lemma ReadText_app neg long s n t rest : r_in s = text_record t ++ rest → Z.of_nat (length t) ≤ MAX_STRING_LENGTH → rok s n →
  ∃ v s', ReadText shard method neg long s = Ok (v, s') ∧ rstep nothing s s' n rest ∧ text_at fuel (strs (r_heap s')) v t
    ∧ in_use (strs (r_heap s')) v.
Proof.
  intros E Hl K. unfold ReadText. unfold text_record in E. rewrite <- app_assoc in E.
  rewrite (read_uint_app 4 _ _ _ E), bindE by (unfold is_uint, MAX_STRING_LENGTH in *; lia).
  rewrite (swrap_small 32) by (unfold is_sint, MAX_STRING_LENGTH in *; lia). cbn zeta. rewrite decide_False, decide_False, Nat2Z.id by lia.
  rewrite (read_app (rest_of (t ++ rest) s) t rest), bindE by done. cbn [rest_of r_heap].
  destruct (MintNewString_grows (r_heap s) shard t (rk_heap _ _ _ K) (rk_shard _ _ _ K)) as (v & st & -> & G & Hu & Hr).
  rewrite bindE. eexists v, _. split; [done|]. split; [by apply (rstep_grows shard s n)|]. split; [|done].
  split; [|done]. exists 1%nat. split; [|done]. split; [by right|done].
Qed.

(** ** What it means that an item can be read *)
Definition struct_reads (room k : nat) (si n : Z) (ws : list wire) (n' : Z) : Prop := ∀ s v rest,
  rok s n → r_in s = encode_list ws ++ rest → struct_slot tbl (r_heap s) si v →
  ∃ s', de_struct (DeserializeAt fuel shard ty method k) v si s = Ok s' ∧ rstep (eq v) s s' n' rest
    ∧ shows s' (λ x, x = v ∨ made s s' x) room (IStruct v si) n ws n'.
Definition ref_reader (k : nat) (declared : option Z) : rstate → outcome (Z * rstate) :=
  match declared with
  | Some d => de_class (DeserializeAt fuel shard ty method k) d
  | None => de_array (DeserializeAt fuel shard ty method k)
  end.
Definition ref_reads (room k : nat) (declared : option Z) (n : Z) (w : wire) (n' : Z) : Prop := ∀ s rest,
  rok s n → r_in s = encode w ++ rest →
  ∃ v s', ref_reader k declared s = Ok (v, s') ∧ rstep nothing s s' n' rest
    ∧ shows s' (made s s') room (IRef declared v) n [w] n'.
Inductive field_reads (room k : nat) : frow → Z → wire → Z → Prop :=
  | fr_scalar kd si ci i row bs n : ScalarPrimIndexOfRtk (u8 kd) = Some (i, row) → length bs = slotWidth row →
      Forall is_byte bs → field_reads room k (kd, si, ci) n (WScalar bs) n
  | fr_text si ci t n : Z.of_nat (length t) ≤ MAX_STRING_LENGTH → field_reads room k (RTK_String, si, ci) n (WText t) n
  | fr_struct si ci ws n n' : si ≠ 65535 → is_Some (structs tbl !!z si) → struct_reads room k si n ws n' →
      field_reads room k (RTK_Struct, si, ci) n (WFields ws) n'
  | fr_class si ci w n n' : ci ≠ 65535 → ref_reads room k (Some ci) n w n' → field_reads room k (RTK_Class, si, ci) n w n'
  | fr_array si ci w n n' : ref_reads room k None n w n' → field_reads room k (RTK_Array, si, ci) n w n'.
Inductive rows_read (room k : nat) : list frow → Z → list wire → Z → Prop :=
  | rr_nil n : rows_read room k [] n [] n
  | rr_cons row rows w ws n n1 n' : field_reads room k row n w n1 → rows_read room k rows n1 ws n' →
      rows_read room k (row :: rows) n (w :: ws) n'.

(** ** A field *)
Definition field_reader (k : nat) (i : Z) (c : nat) (row : frow) (s : rstate) : outcome rstate :=
  let '(kd, si, ci) := row in
  DeserializeField fuel shard ty method (DeserializeAt fuel shard ty method k) i c kd (Ok si) (Ok ci) s.
(** The cells a row uses. *)
Definition row_cells (row : frow) : nat := Z.to_nat (ArrayElemCells (u8 row.1.1)).
Lemma row_cells_pos row : (1 ≤ row_cells row)%nat.
Proof. unfold row_cells. pose proof (ArrayElemCells_range (u8 row.1.1)). lia. Qed.
Lemma row_cells_scalar kd si ci i row : ScalarPrimIndexOfRtk (u8 kd) = Some (i, row) → row_cells (kd, si, ci) = scalar_cells (slotWidth row).
Proof. intros H. unfold row_cells, ArrayElemCells, scalar_cells. cbn [fst]. rewrite H. case_decide; lia. Qed.

(** [r'] differs from [r] in the cells of [row] at [c] only. *)
Definition filled (c n : nat) (r r' : list Z) : Prop :=
  length r' = length r ∧ ∀ j, (j < c ∨ c + n ≤ j)%nat → r' !! j = r !! j.
(** The record [i] is written the cell [c]. *)
Lemma set_field_step s n i r c v : rok s n → rec_at (r_heap s) i = Some r → (c < length r)%nat →
  ∃ s' r', set_field i c v s = Ok s' ∧ rstep (eq i) s s' n (r_in s) ∧ rec_at (r_heap s') i = Some r'
    ∧ filled c 1 r r' ∧ r' !! c = Some v.
Proof.
  intros K Hr Hc. destruct (set_cell_spec (r_heap s) i r c v (rk_heap _ _ _ K) Hr Hc) as (h' & E & H1 & H2 & H3 & H4 & H5 & H6 & H7).
  unfold set_field. rewrite E, bindE. eexists _, (<[c := v]> r). split; [done|]. split_and!.
  - eapply (rstep_rewrote shard s n i); [done|]. by split.
  - done.
  - split; [apply length_insert|]. intros j Hj. rewrite list_lookup_insert_ne; [done|lia].
  - by apply list_lookup_insert_eq.
Qed.

Lemma filled_more c n n' r r' : (n ≤ n')%nat → filled c n r r' → filled c n' r r'.
Proof. intros Hn [Hl H]. split; [done|]. intros j Hj. apply H. lia. Qed.
(** Storing a reference that was read. *)
Lemma ref_field_step room s s1 n n' i r c v row w declared rest : rok s n → rstep nothing s s1 n' rest →
  hlive (r_heap s) i → rec_at (r_heap s) i = Some r → (c + row_cells row ≤ length r)%nat →
  shows s1 (made s s1) room (IRef declared v) n [w] n' →
  (∀ h ids P r', r' !! c = Some v → described fuel ty h ids P room (IRef declared v) n [w] n' →
     described fuel ty h ids P room (IField r' c row) n [w] n') →
  ∃ s' r', set_field i c v s1 = Ok s' ∧ rstep (eq i) s s' n' rest ∧ rec_at (r_heap s') i = Some r'
    ∧ filled c (row_cells row) r r'
    ∧ shows s' (made s s') room (IField r' c row) n [w] n'.
Proof.
  intros K R1 Hi Hr Hc D Hd. pose proof (row_cells_pos row). pose proof (rstep_rec _ _ _ _ _ _ _ _ R1 Hi ltac:(by intros []) Hr) as Hr1.
  destruct (set_field_step s1 n' i r c v (rs_ok _ _ _ _ _ _ R1) Hr1 ltac:(lia)) as (s' & r' & -> & R2 & Hr' & F & Hv).
  rewrite (rs_in _ _ _ _ _ _ R1) in R2. exists s', r'. split_and!; [done|by eapply rstep_trans; [exact R1|exact R2|intros x _ [[]|?]; done]|done|by eapply filled_more|].
  intros Hsm. apply Hd; [done|]. eapply shows_step; [apply R1|exact R2| |exact D|done]. intros x Hx _. split; [by eapply made_before|].
  intros <-. by destruct Hx.
Qed.
Lemma field_step room k row n w n' : field_reads room k row n w n' → ∀ s i r c rest,
  rok s n → r_in s = encode w ++ rest → hlive (r_heap s) i → rec_at (r_heap s) i = Some r → (c + row_cells row ≤ length r)%nat →
  ∃ s' r', field_reader k i c row s = Ok s' ∧ rstep (eq i) s s' n' rest ∧ rec_at (r_heap s') i = Some r'
    ∧ filled c (row_cells row) r r'
    ∧ shows s' (made s s') room (IField r' c row) n [w] n'.
Proof.
  intros Hf s i r c rest K E Hi Hr Hc. pose proof (row_cells_pos row) as Hpos.
  destruct Hf as [kd si ci j row bs n Hrow Hl Hb|si ci t n Hl|si ci ws n n' Hsi [cs Hcs] H|si ci w n n' Hci H|si ci w n n' H];
    unfold field_reader, DeserializeField; cbn [encode] in E.
  - rewrite (row_cells_scalar _ _ _ _ _ Hrow) in *. rewrite Hrow, <- Hl, (read_app _ _ _ E), bindE. cbn [rest_of r_heap].
    destruct (put_scalar_spec (r_heap s) i c bs r (rk_heap _ _ _ K) Hr) as (h' & r' & -> & W & L & A & B);
      [rewrite Hl; by eapply registry_width|done|by rewrite Hl|]. rewrite bindE. eexists _, r'. split; [done|].
    pose proof (rstep_input shard s n rest K) as R1. pose proof (rstep_rewrote shard _ n i r' h' (rs_ok _ _ _ _ _ _ R1) W) as R2.
    split_and!; [eapply rstep_trans; [exact R1|exact R2|intros x _ [[]|?]; done]|apply W|by split|].
    intros _. eapply d_scalar; [done|by rewrite <- Hl].
  - no_scalar_row RTK_String. rewrite decide_True by done. unfold ReadFieldText.
    match goal with |- context [ReadText _ _ ?a ?b _] =>
      destruct (ReadText_app a b s n t rest E Hl K) as (v & s1 & -> & R1 & Ht & _) end. rewrite bindE.
    pose proof (rstep_rec _ _ _ _ _ _ _ _ R1 Hi ltac:(by intros []) Hr) as Hr1.
    destruct (set_field_step s1 n i r c v (rs_ok _ _ _ _ _ _ R1) Hr1 ltac:(lia)) as (s' & r' & -> & R2 & Hr' & F & Hv).
    exists s', r'. rewrite (rs_in _ _ _ _ _ _ R1) in R2. split_and!; [done|by eapply rstep_trans; [exact R1|exact R2|intros x _ [[]|?]; done]|done|by eapply filled_more|].
    intros _. eapply d_text; [done|]. eapply text_at_extends; [apply (hk_strs _ (rk_heap _ _ _ (rs_ok _ _ _ _ _ _ R1)))|apply R2|done].
  - no_scalar_row RTK_Struct. rewrite decide_False, decide_True, bindE, decide_False by done.
    destruct (AllocStruct_grows fuel tbl (r_heap s) shard si cs (so_tables _ _ Hok) (so_nests _ _ Hok si cs Hcs) Hcs)
      as (v & g & rv & -> & G & Hd & Hv & Kv & Rv & Lv); [apply K|apply K|]. rewrite bindE.
    pose proof (rstep_grows shard s n g (r_in s) K G) as R1. set (s1 := MkR g (r_ids s) (r_in s)) in *.
    change (with_rheap g s) with s1. assert (v ≠ i) as Hvi by (intros ->; done).
    pose proof (rstep_rec _ _ _ _ _ _ _ _ R1 Hi ltac:(by intros []) Hr) as Hr1.
    destruct (set_field_step s1 n i r c v (rs_ok _ _ _ _ _ _ R1) Hr1) as (s2 & r' & -> & R2 & Hr2 & F & Hv2);
      [lia|]. rewrite bindE.
    assert (hlive (r_heap s1) v) as Hl1 by (by exists RTK_Struct).
    destruct (H s2 v rest (rs_ok _ _ _ _ _ _ R2)) as (s' & -> & R3 & D); [by rewrite (rs_in _ _ _ _ _ _ R2)| |].
    { eapply struct_slot_same; [apply (rs_same _ _ _ _ _ _ R2 v Hl1); congruence|]. split; [done|]. split; [done|]. by exists cs, rv. }
    exists s', r'. assert (rstep (eq i) s s2 n (r_in s1)) as R12 by (eapply rstep_trans; [exact R1|exact R2|intros x _ [[]|?]; done]).
    assert (hlive (r_heap s2) i) as Hi2 by (by eapply rstep_live).
    split_and!; [done| |by eapply rstep_rec|by eapply filled_more|].
    + eapply rstep_trans; [exact R12|exact R3|]. intros x Hx [?|<-]; [done|by destruct Hd].
    + intros Hsm. eapply d_struct; [done|done|]. eapply shows_weaken; [apply R3| |exact D|done].
      intros x [->|Hx] _; [|by eapply made_after]. split; [|done].
      eapply rstep_live; [exact R3|]. by eapply rstep_live; [exact R2|].
  - no_scalar_row RTK_Class. do 2 rewrite decide_False by done. rewrite decide_True, bindE, decide_False by done.
    destruct (H s rest K E) as (v & s1 & E1 & R1 & D). cbn [ref_reader] in E1. rewrite E1, bindE.
    eapply ref_field_step; try done. intros h ids P r' Hr' Hd. by eapply d_class.
  - no_scalar_row RTK_Array. do 3 rewrite decide_False by done. rewrite decide_True by done.
    destruct (H s rest K E) as (v & s1 & E1 & R1 & D). cbn [ref_reader] in E1. rewrite E1, bindE.
    eapply ref_field_step; try done. intros h ids P r' Hr' Hd. by eapply d_array.
Qed.

(** ** Loops over fields *)
Lemma described_field_agree h ids P room r r' c row n ws n' : length r' = length r →
  (∀ j, (c ≤ j < c + row_cells row)%nat → r' !! j = r !! j) →
  described fuel ty h ids P room (IField r c row) n ws n' → described fuel ty h ids P room (IField r' c row) n ws n'.
Proof.
  intros Hl H D. pose proof (row_cells_pos row). assert (r' !! c = r !! c) as Hc by (apply H; lia).
  inversion D; subst; econstructor; eauto; try congruence.
  rewrite (scalar_bytes_agree r r'); [done|done|]. intros j Hj. apply H. by erewrite row_cells_scalar.
Qed.
Lemma fields_step room k i body step rows n ws n' : rows_read room k rows n ws n' →
  (∀ c row s s', row ∈ rows → field_reader k i c row s = Ok s' → body c row s = Ok s') →
  Forall (λ row, row_cells row ≤ step)%nat rows → ∀ s r c rest,
  rok s n → r_in s = encode_list ws ++ rest → hlive (r_heap s) i → rec_at (r_heap s) i = Some r →
  (c + step * length rows ≤ length r)%nat →
  ∃ s' r', walk_rows body c step rows s = Ok s' ∧ rstep (eq i) s s' n' rest ∧ rec_at (r_heap s') i = Some r'
    ∧ length r' = length r ∧ (∀ j, (j < c)%nat → r' !! j = r !! j)
    ∧ shows s' (made s s') room (IFields r' c step rows) n ws n'.
Proof.
  induction 1 as [n|row rows w ws n n1 n' Hf Hrows IH]; intros Hbody Hstep s r c rest K E Hi Hr Hc.
  - exists s, r. split_and!; [done| |done|done|done|intros _; by apply d_nil]. change (r_in s = rest) in E. rewrite <- E.
    eapply rstep_weaken; [by apply rstep_refl|done].
  - apply list.Forall_cons in Hstep as [Hs Hstep]. change (encode_list (w :: ws)) with (encode w ++ encode_list ws) in E.
    rewrite <- app_assoc in E. cbn [length] in Hc.
    destruct (field_step room k row n w n1 Hf s i r c _ K E Hi Hr) as (s1 & r1 & E1 & R1 & Hr1 & [Hl1 F1] & D1); [lia|].
    destruct (IH (λ c row s s' Hin, Hbody c row s s' (list_elem_of_further _ _ _ Hin)) Hstep s1 r1 (c + step)%nat rest)
      as (s' & r' & E2 & R2 & Hr2 & Hl2 & F2 & D2); [apply R1|apply R1|by eapply rstep_live|done|lia|].
    exists s', r'. cbn [walk_rows]. rewrite (Hbody _ _ _ _ (list_elem_of_here _ _) E1), bindE. split_and!; [done| |done|lia| |].
    + eapply rstep_trans; [exact R1|exact R2|]. by intros x _ [?|?].
    + intros j Hj. rewrite F2, F1 by lia. done.
    + intros Hsm. eapply d_cons.
      * eapply (described_field_agree _ _ _ _ r1); [lia|intros j Hj; apply F2; lia|].
        eapply shows_step; [apply R1|exact R2| |exact D1|done]. intros x Hx _. split; [by eapply made_before|]. intros <-. by destruct Hx.
      * eapply shows_weaken; [apply R2| |exact D2|done]. intros x Hx _. by eapply made_after.
Qed.
(** The elements of an array of structs are there already. *)
Lemma elements_step room k si rows n ws n' : rows_read room k rows n ws n' → ∀ s i r c vs rest,
  rows = replicate (length vs) (RTK_Struct, si, 65535) →
  rok s n → r_in s = encode_list ws ++ rest → hlive (r_heap s) i → rec_at (r_heap s) i = Some r →
  (∀ j v, vs !! j = Some v → r !! (c + j)%nat = Some v) → NoDup vs → ¬ (i ∈ vs) → Forall (struct_slot tbl (r_heap s) si) vs →
  ∃ s', walk_rows (λ c _ s, v ← get_cell (r_heap s) i c; de_struct (DeserializeAt fuel shard ty method k) v si s) c 1 rows s = Ok s'
    ∧ rstep (λ x, x ∈ vs) s s' n' rest
    ∧ shows s' (λ x, x ∈ vs ∨ made s s' x) room (IFields r c 1 rows) n ws n'.
Proof.
  induction 1 as [n|row rows w ws n n1 n' Hf Hrows IH]; intros s i r c vs rest Hrep K E Hi Hr Hvs Hnd Hni Hslots.
  - exists s. split_and!; [done| |intros _; by apply d_nil]. change (r_in s = rest) in E. rewrite <- E.
    eapply rstep_weaken; [by apply rstep_refl|done].
  - destruct vs as [|v vs]; [done|]. cbn [length replicate] in Hrep. injection Hrep as -> Hrep.
    apply list.Forall_cons in Hslots as [Hv Hslots]. apply list.NoDup_cons in Hnd as [Hnv Hnd].
    inversion Hf as [? ? ? ? ? ? ? Hrow| |? ? ws' ? ? Hsi Hex H| |]; subst; [done|].
    change (encode_list (WFields ws' :: ws)) with (encode_list ws' ++ encode_list ws) in E. rewrite <- app_assoc in E.
    pose proof (Hvs 0%nat v eq_refl) as Hcell. rewrite Nat.add_0_r in Hcell.
    assert (v ≠ i) as Hvi by (intros ->; apply Hni; left).
    destruct (H s v _ K E Hv) as (s1 & E1 & R1 & D1).
    destruct (IH s1 i r (c + 1)%nat vs rest eq_refl) as (s' & E2 & R2 & D2).
    { apply R1. } { apply R1. } { by eapply rstep_live. } { eapply rstep_rec; [exact R1|done|congruence|done]. }
    { intros j u Hu. rewrite <- Nat.add_assoc. by apply Hvs. }
    { done. } { intros ?. apply Hni. by right. }
    { apply list.Forall_forall. intros x Hx. rewrite list.Forall_forall in Hslots. pose proof (Hslots x Hx) as Hsx.
      eapply struct_slot_same; [|exact Hsx]. apply (rs_same _ _ _ _ _ _ R1); [by eapply struct_slot_live|]. by intros ->. }
    assert (hlive (r_heap s) v) as Hlv by (by eapply struct_slot_live).
    exists s'. cbn [walk_rows]. unfold get_cell. rewrite Hr, derefE, bindE, Hcell, derefE, bindE, E1, bindE. split_and!; [done| |].
    + eapply rstep_trans; [exact R1|exact R2|]. intros x _ [<-|?]; [left|by right].
    + intros Hsm. eapply d_cons.
      * eapply d_struct; [done|done|]. eapply shows_step; [apply R1|exact R2| |exact D1|done].
        intros x [->|Hx] Hlx; [split; [by left; left|done]|]. split; [right; by eapply made_before|].
        intros Hin. rewrite list.Forall_forall in Hslots. by destruct Hx as [_ []]; eapply struct_slot_live, Hslots.
      * eapply shows_weaken; [apply R2| |exact D2|done]. intros x [Hx|Hx] _; [left; by right|right; by eapply made_after].
Qed.

(** ** Records *)
Lemma row_cells_le rows : Forall (λ row, row_cells row ≤ 2)%nat rows.
Proof. apply list.Forall_forall. intros row _. unfold row_cells. pose proof (ArrayElemCells_range (u8 row.1.1)). lia. Qed.
Lemma struct_step room k si cs n ws n' : structs tbl !!z si = Some cs → rows_read room k (struct_rows ty si) n ws n' →
  struct_reads (S room) (S k) si n ws n'.
Proof.
  intros Hcs Hrows s v rest K E (Hv & Hk & cs' & r & Hcs' & Hr & Hl). rewrite Hcs in Hcs'. injection Hcs' as <-.
  destruct (struct_rows_spec fuel ty si cs Hok Hcs) as [Hlen Hrow].
  assert (hlive (r_heap s) v) as Hlive by (by exists RTK_Struct).
  destruct (fields_step room k v (field_reader k v) 2 _ _ _ _ Hrows ltac:(done) (row_cells_le _) s r 0 rest K E Hlive Hr)
    as (s' & r' & Ew & R & Hr' & Hl' & _ & D); [lia|].
  exists s'. split_and!; [|done|].
  - cbn [DeserializeAt de_struct]. unfold DeserializeStructFields.
    rewrite Hcs, decide_False by (rewrite Hr; intros [?|?]; [lia|done]). rewrite <- Hlen.
    rewrite (foldM_rows _ (field_reader k v) 2 (struct_rows ty si) 0 0); [exact Ew|].
    intros i [[kd s0] ci] st Hi. destruct (Hrow i kd s0 ci Hi) as (H1 & H2 & cls & H3 & H4).
    rewrite Nat.add_0_l, H1, derefE, bindE, H2, H3. cbn [deref mbind outcome_bind]. rewrite H4. unfold field_reader. f_equal. lia.
  - intros Hsm. eapply d_record; [done|done|by left|by rewrite (rs_kind _ _ _ _ _ _ R v Hlive)|done|congruence|].
    eapply shows_weaken; [apply R| |exact D|done]. intros x Hx _. by right.
Qed.
Lemma tag_app k s b rest : r_in s = b :: rest → is_byte b →
  de_array (DeserializeAt fuel shard ty method k) s = de_tagged (DeserializeAt fuel shard ty method k) b (rest_of rest s).
Proof.
  intros E Hb. destruct k; cbn [DeserializeAt de_array de_tagged]; unfold DeserializeArrayRecord;
    by rewrite (read_byte_app _ _ _ E Hb), bindE.
Qed.
Lemma object_step room k d c cc fields n ws n' : classes m !!z c = Some cc → layout tbl !!z c = Some fields → c < 2 ^ 15 →
  FindClass m (cls_name cc) = c → Z.of_nat (length (cls_name cc)) ≤ MAX_STRING_LENGTH → IsSubclassOf m c d = Ok true →
  1 ≤ n → n + 1 < 2 ^ 32 → rows_read room k (class_rows fields) (n + 1) ws n' →
  ref_reads (S room) (S k) (Some d) n (WObj (cls_name cc) ws) n'.
Proof.
  intros Hcc Hf Hc Hfind Hname Hsub H1 Hn Hrows s rest K E. cbn [ref_reader DeserializeAt de_class]. unfold DeserializeClassFields.
  cbn [encode] in E. rewrite <- !app_assoc in E. rewrite (read_byte_app _ _ _ E), bindE by (unfold is_byte; lia). cbn zeta.
  do 4 rewrite decide_False by done. rewrite decide_False by (intros H; by apply H).
  set (s0 := rest_of _ s). rewrite (name_app s0 _ (cls_name cc) (encode_list ws ++ rest) eq_refl Hname), bindE. cbn zeta.
  assert (0 ≤ c) as Hc0 by (by apply zlookup_Some_lt in Hcc as [? _]). rewrite Hfind, decide_False by lia.
  assert (u16 c = c) as Hu by (apply (wrap_small 16); unfold is_uint; lia). rewrite Hu, Hsub, bindE. unfold s0. cbn [negb rest_of r_heap r_ids r_in]. clear s0.
  destruct (AllocClass_grows fuel tbl (r_heap s) shard c fields (so_tables _ _ Hok) Hf (λ j x, so_fields _ _ Hok c fields j x Hf)
    (rk_heap _ _ _ K) (rk_shard _ _ _ K)) as (v & g & r & -> & G & Hd & Hv & Kv & Rv & Lv & R0).
  rewrite bindE, Hf, derefE, bindE.
  destruct (rstep_new shard s n g v (encode_list ws ++ rest) K G Hd Hv (or_introl Kv) H1 Hn) as [R1 Hid].
  set (s1 := MkR g _ _) in *.
  assert (hlive (r_heap s1) v) as Hlive by (by exists RTK_Class).
  destruct (fields_step room k v (field_reader k v) 2 _ _ _ _ Hrows ltac:(done) (row_cells_le _) s1 r 1 rest (rs_ok _ _ _ _ _ _ R1) eq_refl Hlive Rv)
    as (s' & r' & Ew & R2 & Hr' & Hl' & Hbelow & D); [unfold class_rows; rewrite length_fmap; lia|].
  assert (length fields = length (class_rows fields)) as Hlen by (symmetry; apply length_fmap).
  exists v, s'. split_and!.
  - rewrite Hlen, (foldM_rows _ (field_reader k v) 2 (class_rows fields) 1 0), Ew; [done|].
    intros i row st (f & Hfi & ->)%class_rows_spec. rewrite Nat.add_0_l, Hfi, derefE, bindE. unfold field_reader. f_equal. lia.
  - eapply rstep_trans; [exact R1|exact R2|]. intros x Hx [[]|<-]. by destruct Hd.
  - assert (made s s' v) by (split; [by eapply rstep_live|done]).
    intros Hsm. eapply d_obj; try done.
    + eapply lookup_weaken; [exact Hid|apply R2].
    + by rewrite (rs_kind _ _ _ _ _ _ R2 v Hlive).
    + by rewrite Hbelow by lia.
    + congruence.
    + eapply shows_weaken; [apply R2| |exact D|done]. intros x Hx _. by eapply made_after.
Qed.

(** ** Arrays *)
Lemma FindArray_found kind typeIdx rank t0 : arrayTypes tbl !!z u16 t0 = Some (MkArrayType kind typeIdx rank) →
  ∃ t, FindArrayTypeDef tbl kind typeIdx rank = Ok t ∧ is_uint 16 t ∧ arrayTypes tbl !!z t = Some (MkArrayType kind typeIdx rank).
Proof.
  intros H. pose proof (wrap_range 16 t0 ltac:(lia)) as Hu. unfold FindArrayTypeDef.
  assert (arrayTypes tbl !! Z.to_nat (u16 t0) = Some (MkArrayType kind typeIdx rank)) as Hl.
  { unfold zlookup in H. by case_decide. }
  destruct (list_find _ (arrayTypes tbl)) as [[i a]|] eqn:E.
  - apply list_find_Some in E as (Hi & (<- & <- & <-) & Hmin). assert (i ≤ Z.to_nat (u16 t0))%nat as Hle.
    { destruct (decide (i ≤ Z.to_nat (u16 t0))%nat); [done|]. exfalso. eapply (Hmin (Z.to_nat (u16 t0))); [exact Hl|lia|done]. }
    unfold is_uint in Hu. assert (u16 (Z.of_nat i) = Z.of_nat i) as -> by (apply (wrap_small 16); unfold is_uint; lia).
    exists (Z.of_nat i). split_and!; [done|unfold is_uint; lia|]. unfold zlookup. rewrite decide_True, Nat2Z.id by lia. rewrite Hi. by destruct a.
  - exfalso. eapply list_find_None in E. rewrite list.Forall_forall in E. eapply E; [by eapply list_elem_of_lookup_2|done].
Qed.
Lemma dims_app dims : ∀ acc a s rest, Forall in_cap dims → r_in s = concat (le_bytes 4 <$> dims) ++ rest →
  foldM (λ '(dims, s) _, '(d, s) ← read_uint method 4 s; Ok (dims ++ [i32 d], s)) (acc, s) (seq a (length dims))
    = Ok (acc ++ dims, rest_of rest s).
Proof.
  induction dims as [|d dims IH]; intros acc a s rest Hd E.
  - cbn. rewrite app_nil_r. cbn in E. rewrite <- E. by destruct s.
  - apply list.Forall_cons in Hd as [Hd Hds]. change (concat (le_bytes 4 <$> d :: dims)) with (le_bytes 4 d ++ concat (le_bytes 4 <$> dims)) in E.
    rewrite <- app_assoc in E. unfold in_cap, kMaxArrayElems in Hd. cbn [length seq foldM].
    rewrite (read_uint_app 4 _ _ _ E), !bindE by (unfold is_uint; lia).
    rewrite (swrap_small 32) by (unfold is_sint; lia). rewrite (IH _ _ (rest_of _ s) rest Hds eq_refl), <- app_assoc. done.
Qed.
Lemma header_app s r kind typeIdx ename dims size rest : array_at ty r kind typeIdx ename dims size →
  r_in s = ([kind] ++ (if decide (kind = RTK_Struct) then text_record ename else []) ++ [Z.of_nat (length dims)]
    ++ concat (le_bytes 4 <$> dims)) ++ rest →
  ReadArrayHeader ty method s = Ok (kind, typeIdx, dims, rest_of rest s).
Proof.
  intros [_ [_ Hr] [_ Hv] _ _ [Hk _] He] E. rewrite <- !app_assoc in E. cbn [app] in E. unfold ReadArrayHeader.
  rewrite (read_byte_app _ _ _ E), bindE by exact Hk.
  assert (Forall in_cap dims) as Hd.
  { destruct (ValidateArrayDims_cases dims) as [(z & _ & _ & _ & ?)|[Ev _]]; [done|]. by rewrite Ev in Hv. }
  match goal with |- context [mbind _ ?t] =>
    assert (t = Ok (typeIdx, rest_of (Z.of_nat (length dims) :: concat (le_bytes 4 <$> dims) ++ rest) s)) as -> end.
  { case_decide as Hs; [|by destruct He as [-> _]]. destruct He as (H1 & [cs Hcs] & Hn & Hf & Hl).
    rewrite (name_app (rest_of (text_record ename ++ Z.of_nat (length dims) :: concat (le_bytes 4 <$> dims) ++ rest) s) _ ename _ eq_refl Hl), bindE. cbn zeta. rewrite Hf. pose proof (zlookup_Some_lt _ _ _ Hn).
    rewrite decide_False by lia. do 2 f_equal. apply (wrap_small 16). pose proof (so_width _ _ Hok). unfold is_uint.
    apply zlookup_Some_lt in Hcs. lia. }
  rewrite bindE. rewrite (read_byte_app (rest_of (Z.of_nat (length dims) :: concat (le_bytes 4 <$> dims) ++ rest) s) _ _ eq_refl), bindE by (unfold is_byte, kMaxArrayRank in *; lia).
  change (rest_of (concat (le_bytes 4 <$> dims) ++ rest) (rest_of ?a s)) with (rest_of (concat (le_bytes 4 <$> dims) ++ rest) s).
  rewrite decide_False by lia. rewrite Nat2Z.id, (dims_app dims [] 0 (rest_of (concat (le_bytes 4 <$> dims) ++ rest) s) rest Hd eq_refl), bindE. done.
Qed.
Lemma array_at_record t at_ dims payload r size ename : arrayTypes tbl !!z t = Some at_ → is_uint 16 t →
  at_rank at_ = Z.of_nat (length dims) → 1 ≤ Z.of_nat (length dims) ≤ kMaxArrayRank → ValidateArrayDims dims = Ok size →
  length r = length (array_record t dims payload) →
  (∀ j, (j < HeaderCells (length dims))%nat → r !! j = array_record t dims payload !! j) →
  is_uint 8 (elemKind at_) ∧ (is_Some (ScalarPrimIndexOfRtk (elemKind at_)) ∨ elemKind at_ = RTK_String ∨ elemKind at_ = RTK_Struct) →
  (if decide (elemKind at_ = RTK_Struct)
   then elemTypeIdx at_ ≠ 65535 ∧ is_Some (structs tbl !!z elemTypeIdx at_) ∧ structNames ty !!z elemTypeIdx at_ = Some ename
        ∧ FindStruct ty ename = elemTypeIdx at_ ∧ Z.of_nat (length ename) ≤ MAX_STRING_LENGTH
   else elemTypeIdx at_ = 65535 ∧ ename = []) →
  array_at ty r (elemKind at_) (elemTypeIdx at_) ename dims size.
Proof.
  intros Hat Ht Hrank Hr Hv Hl Hlow Hk He. pose proof (header_cells (length dims)) as [Hh Hh4].
  destruct (array_record_fields t dims payload) as (G1 & G2 & G3 & G4 & G5 & _).
  destruct (ValidateArrayDims_cases dims) as [(z & E & Hp & _)|[E _]]; rewrite E in Hv; [injection Hv as ->|done]. subst size.
  assert (cells_at r 4 (length dims) = Ok dims) as Hdims.
  { unfold cells_at. rewrite <- (derefE dims), <- G4. apply (f_equal deref). unfold slice. rewrite Hl, !decide_True by lia. apply (f_equal Some).
    apply list_eq. intros i. destruct (decide (i < length dims)%nat); [|by rewrite !lookup_take_ge by lia].
    rewrite !lookup_take_lt, !lookup_drop by lia. apply Hlow. lia. }
  assert (r !! 2%nat = Some (Z.of_nat (length dims))) as Hr2 by (by rewrite Hlow by lia).
  split; try done.
  - exists t. rewrite Hlow, (wrap_small 16) by (done || lia). split; [done|]. rewrite Hat, <- Hrank. by destruct at_.
  - by rewrite Hlow by lia.
  - unfold ArrayPayloadBase. rewrite decide_False, Hr2, derefE, bindE, decide_False, decide_False by lia. done.
Qed.

(** The payload is read where the allocation put zeros or new structs. *)
Lemma ReadText_messages neg long neg' long' s o : ReadText shard method neg long s = Ok o → ReadText shard method neg' long' s = Ok o.
Proof.
  unfold ReadText. intros ([n s1] & E & H)%bind_Ok. rewrite E, bindE. cbn zeta in *. by do 2 (case_decide; [done|]).
Qed.
Lemma elements_read room k i kind typeIdx t dims payload size n ws n' s rest :
  rows_read room k (replicate (Z.to_nat size) (kind, typeIdx, 65535)) n ws n' →
  rok s n → r_in s = encode_list ws ++ rest → kind_at (r_heap s) i = Some RTK_Array →
  rec_at (r_heap s) i = Some (array_record t dims payload) → 1 ≤ Z.of_nat (length dims) ≤ kMaxArrayRank →
  is_uint 8 kind → length payload = Z.to_nat (size * ArrayElemCells kind) →
  is_Some (ScalarPrimIndexOfRtk kind) ∨ kind = RTK_String
    ∨ kind = RTK_Struct ∧ NoDup payload ∧ ¬ (i ∈ payload) ∧ Forall (struct_slot tbl (r_heap s) typeIdx) payload →
  ∃ s' r, ReadArrayElements shard method (DeserializeAt fuel shard ty method k) i kind typeIdx size s = Ok s'
    ∧ rstep (λ x, x = i ∨ kind = RTK_Struct ∧ x ∈ payload) s s' n' rest ∧ rec_at (r_heap s') i = Some r
    ∧ length r = length (array_record t dims payload)
    ∧ (∀ j, (j < HeaderCells (length dims))%nat → r !! j = array_record t dims payload !! j)
    ∧ shows s' (λ x, kind = RTK_Struct ∧ x ∈ payload ∨ made s s' x) room
        (IFields r (Z.to_nat (ArrayHeaderCells (Z.of_nat (length dims)))) (Z.to_nat (ArrayElemCells kind))
          (replicate (Z.to_nat size) (kind, typeIdx, 65535))) n ws n'.
Proof.
  intros Hrows K E Hk Hr Hrank Hu Hpl Hcase. destruct (array_record_fields t dims payload) as (G1 & G2 & G3 & G4 & G5 & G6).
  pose proof (header_cells (length dims)) as [Hh Hh4]. pose proof (ArrayElemCells_range kind) as Hcells.
  assert (hlive (r_heap s) i) as Hlive by (by exists RTK_Array).
  set (r := array_record t dims payload) in *. set (cells := Z.to_nat (ArrayElemCells kind)).
  set (base := Z.to_nat (ArrayHeaderCells (Z.of_nat (length dims)))).
  assert (base = HeaderCells (length dims)) as Hbase by (unfold base; lia).
  set (rows := replicate (Z.to_nat size) (kind, typeIdx, 65535)) in *.
  assert (@length frow rows = Z.to_nat size) as Hlen by apply length_replicate.
  destruct (decide (kind = RTK_Struct)) as [->|Hns].
  - destruct Hcase as [[? ?]|[?|(_ & Hnd & Hni & Hslots)]]; [done|done|].
    unfold ReadArrayElements, get_cell. rewrite Hr, derefE, bindE, G2, derefE, bindE, rank_u8 by lia. cbn zeta. fold base.
    change (ScalarPrimIndexOfRtk RTK_Struct) with (@None (nat * ScalarPrimInfo)). cbn iota. rewrite decide_False, decide_True by done.
    assert (length payload = Z.to_nat size) as Hpl' by (rewrite Hpl; change (ArrayElemCells RTK_Struct) with 1; lia).
    destruct (elements_step room k typeIdx rows n ws n' Hrows s i r base payload rest) as (s' & Ew & R & D); try done.
    { unfold rows. by rewrite Hpl'. }
    { intros j v Hv. by rewrite <- Hv, <- G6, lookup_drop, Hbase. }
    exists s', r. split_and!; [|by eapply rstep_weaken; [exact R|intros x _ ?; right]| |done|done|].
    + rewrite <- Hlen, (foldM_rows _ (λ c _ s, v ← get_cell (r_heap s) i c; de_struct (DeserializeAt fuel shard ty method k) v typeIdx s) 1 rows base 0); [exact Ew|].
      intros j row st _. rewrite Nat.mul_1_r. done.
    + eapply rstep_rec; [exact R|done|done|done].
    + eapply shows_weaken; [apply R| |exact D]. intros x [?|?] _; [by left|by right].
  - assert (∃ body, (∀ c row s s', row ∈ rows → field_reader k i c row s = Ok s' → body c row s = Ok s')
      ∧ ReadArrayElements shard method (DeserializeAt fuel shard ty method k) i kind typeIdx size s = walk_rows body base cells rows s) as (body & Hbody & Hrun).
    { unfold ReadArrayElements, get_cell. rewrite Hr, derefE, bindE, G2, derefE, bindE, rank_u8 by lia. cbn zeta. fold base.
      destruct (ScalarPrimIndexOfRtk kind) as [[j row]|] eqn:Hrow.
      - exists (field_reader k i). split; [done|]. rewrite <- Hlen. apply foldM_rows. intros x row' st Hx.
        apply lookup_replicate in Hx as [-> Hx]. unfold field_reader, DeserializeField. rewrite (wrap_small 8 kind Hu), Hrow.
        destruct (read method (slotWidth row) st) as [[bs st']|]; [|done]. rewrite !bindE, owner_cell, bindE by lia. do 2 f_equal. lia.
      - destruct Hcase as [[? ?]|[->|[? _]]]; [done| |done]. rewrite decide_True by done.
        exists (λ c _ s, '(v, s) ← ReadElementText shard method s; set_field i c v s). split.
        + intros c row' st st' [-> _]%elem_of_replicate. unfold field_reader, DeserializeField. rewrite (wrap_small 8 _ Hu), Hrow, decide_True by done.
          intros ([v st1] & Hv & Hs)%bind_Ok. unfold ReadElementText. by rewrite (ReadText_messages _ _ _ _ _ _ Hv), bindE.
        + rewrite <- Hlen. apply foldM_rows. intros x row' st _. change cells with 1%nat. by rewrite Nat.mul_1_r. }
    assert (∀ row, row ∈ rows → row_cells row = cells) as Hrc.
    { intros row [-> _]%elem_of_replicate. unfold row_cells. cbn [fst]. by rewrite (wrap_small 8 kind Hu). }
    destruct (fields_step room k i body cells rows n ws n' Hrows Hbody) with (s := s) (r := r) (c := base) (rest := rest)
      as (s' & r' & Ew & R & Hr' & Hl' & Hlow & D); try done.
    { apply list.Forall_forall. intros row Hin. by rewrite (Hrc row Hin). }
    { rewrite G5, Hpl, Hlen. unfold cells. lia. }
    exists s', r'. rewrite Hrun. split_and!; [done|by eapply rstep_weaken; [exact R|intros x _ <-; left]|done|done| |].
    + intros j Hj. apply Hlow. lia.
    + eapply shows_weaken; [apply R| |exact D]. intros x Hx _. by right.
Qed.
Lemma array_step room k kind typeIdx ename dims size r0 n ws n' : array_at ty r0 kind typeIdx ename dims size →
  1 ≤ n → n + 1 < 2 ^ 32 → rows_read room k (replicate (Z.to_nat size) (kind, typeIdx, 65535)) (n + 1) ws n' →
  ref_reads (S room) (S k) None n (WArr kind ename dims ws) n'.
Proof.
  intros Ha H1 Hn Hrows s rest K E. pose proof Ha as [(t0 & _ & Ht0) [_ Hr] [_ Hv] _ _ [Hu Hkind] He].
  set (hd := [kind] ++ (if decide (kind = RTK_Struct) then text_record ename else []) ++ [Z.of_nat (length dims)] ++ concat (le_bytes 4 <$> dims)).
  assert (r_in s = 3 :: (hd ++ (encode_list ws ++ rest))) as E'.
  { rewrite E. cbn [encode]. unfold hd. by rewrite <- !app_assoc. }
  cbn [ref_reader]. rewrite (tag_app (S k) s 3 _ E') by (unfold is_byte; lia). cbn [DeserializeAt de_tagged]. unfold DeserializeArrayRecordTagged.
  do 2 rewrite decide_False by done. rewrite decide_False by (intros H; by apply H).
  rewrite (header_app (rest_of (hd ++ (encode_list ws ++ rest)) s) r0 kind typeIdx ename dims size (encode_list ws ++ rest) Ha eq_refl), bindE.
  destruct (FindArray_found _ _ _ _ Ht0) as (t & -> & Htu & Hat). rewrite bindE. cbn [rest_of r_heap r_ids r_in].
  destruct (AllocArray_grows fuel tbl (r_heap s) shard t _ dims size (rk_heap _ _ _ K) (rk_shard _ _ _ K) Hat ltac:(lia) Hv)
    as (i & g & payload & -> & G & Hd & Hi & Ki & Ri & Hpl & Hel).
  { cbn [elemKind elemTypeIdx]. intros -> Hti. rewrite decide_True in He by done. destruct He as (_ & [cs Hcs] & _).
    split_and!; [apply Hok|by eapply so_nests|by exists cs]. }
  cbn [elemKind elemTypeIdx] in *. rewrite bindE.
  destruct (rstep_new shard s n g i (encode_list ws ++ rest) K G Hd Hi (or_intror Ki) H1 Hn) as [R1 Hid]. set (s1 := MkR g _ _) in *.
  assert (hlive (r_heap s1) i) as Hlive by (by exists RTK_Array).
  destruct (array_record_fields t dims payload) as (_ & _ & G3 & _).
  destruct (ValidateArrayDims_cases dims) as [(z & Ev & Hp & _)|[Ev _]]; rewrite Ev in Hv; [injection Hv as ->|done].
  unfold get_cell. rewrite Ri, derefE, bindE, G3, derefE, bindE, <- Hp.
  destruct (elements_read room k i kind typeIdx t dims payload size (n + 1) ws n' s1 rest Hrows) as (s' & r & Ew & R2 & Hr' & Hl & Hlow & D); try done.
  { apply R1. }
  { destruct Hkind as [?|[?|Hs]]; [by left|by right; left|right; right]. split; [done|]. rewrite decide_True in He by done.
    destruct (Hel Hs (proj1 He)) as (N1 & N2 & N3). split_and!; [done..|]. eapply list.Forall_impl; [exact N3|]. by intros x [? _]. }
  assert (∀ x, kind = RTK_Struct ∧ x ∈ payload → ¬ hlive (r_heap s) x ∧ hlive (r_heap s1) x) as Hnew.
  { intros x [Hs Hx]. rewrite decide_True in He by done. destruct (Hel Hs (proj1 He)) as (_ & _ & N3). rewrite list.Forall_forall in N3.
    destruct (N3 x Hx) as [N4 N5]. split; [done|]. by eapply struct_slot_live. }
  exists i, s'. rewrite Ew, bindE. split_and!; [done| |].
  - eapply rstep_trans; [exact R1|exact R2|]. intros x Hx [[]|[->|Hin]]; [done|]. by destruct (Hnew x Hin).
  - intros Hsm. eapply d_arr with (r := r) (typeIdx := typeIdx) (size := size); try done.
    + split; [by eapply rstep_live|done].
    + eapply lookup_weaken; [exact Hid|apply R2].
    + by rewrite (rs_kind _ _ _ _ _ _ R2 i Hlive).
    + apply (array_at_record t (MkArrayType kind typeIdx (Z.of_nat (length dims))) dims payload); try done.
    + eapply shows_weaken; [apply R2| |exact D|done]. intros x Hx Hlx.
      destruct Hx as [Hin|Hx]; [|by eapply made_after]. destruct (Hnew x Hin). by split.
Qed.

(** ** References of the other kinds *)
Lemma ref_null room k d n : ref_reads (S room) (S k) d n WNull n.
Proof.
  intros s rest K E. change (r_in s = 0 :: rest) in E. exists 0, (rest_of rest s).
  split_and!; [|by apply rstep_input|intros _; by apply d_null].
  destruct d as [d|]; cbn [ref_reader].
  - cbn [DeserializeAt de_class]. unfold DeserializeClassFields. by rewrite (read_byte_app _ _ _ E), bindE by (unfold is_byte; lia).
  - by rewrite (tag_app _ _ _ _ E) by (unfold is_byte; lia).
Qed.
Lemma back_app unknown s n id rest : rok s n → 1 ≤ id < n → n < 2 ^ 32 → r_in s = le_bytes 4 id ++ rest →
  ∃ v, read_back_reference method unknown s = Ok (v, rest_of rest s) ∧ deserializeObjIds (r_ids s) !! id = Some v.
Proof.
  intros K Hid Hn E. unfold read_back_reference. rewrite (read_uint_app 4 _ _ _ E), bindE by (unfold is_uint; lia). cbn [rest_of r_ids].
  apply (rk_ids _ _ _ K) in Hid as [v Hv]. rewrite Hv. by exists v.
Qed.
Lemma ref_back room k d n id : 1 ≤ id < n → n < 2 ^ 32 → ref_reads (S room) (S k) d n (WBack id) n.
Proof.
  intros Hid Hn s rest K E. change (r_in s = 2 :: (le_bytes 4 id ++ rest)) in E. set (s0 := rest_of (le_bytes 4 id ++ rest) s).
  pose proof (rstep_input shard s n (le_bytes 4 id ++ rest) K) as R0.
  assert (∃ v, ref_reader (S k) d s = Ok (v, rest_of rest s) ∧ deserializeObjIds (r_ids s) !! id = Some v) as (v & Er & Hv).
  { destruct d as [d|]; cbn [ref_reader].
    - cbn [DeserializeAt de_class]. unfold DeserializeClassFields. rewrite (read_byte_app _ _ _ E), bindE by (unfold is_byte; lia). cbn zeta.
      do 3 rewrite decide_False by done. rewrite decide_True by done. by apply (back_app _ s0 n id rest (rs_ok _ _ _ _ _ _ R0) Hid Hn eq_refl).
    - rewrite (tag_app _ _ _ _ E) by (unfold is_byte; lia). cbn [DeserializeAt de_tagged]. unfold DeserializeArrayRecordTagged.
      rewrite decide_False, decide_True by done. by apply (back_app _ s0 n id rest (rs_ok _ _ _ _ _ _ R0) Hid Hn eq_refl). }
  destruct (rk_refs _ _ _ K id v Hv) as [Hpos Href].
  exists v, (rest_of rest s). split_and!; [done|by apply rstep_input|intros _; by eapply d_back].
Qed.
(** A class position that may hold any object. *)
Lemma object_tag k s b rest : r_in s = b :: rest → b = 3 ∨ b = 4 →
  de_class (DeserializeAt fuel shard ty method (S k)) (ObjectRootClassIdx m) s
  = if decide (b = 3) then de_tagged (DeserializeAt fuel shard ty method k) 3 (rest_of rest s) else ReadBoxedRecord shard method (rest_of rest s).
Proof.
  intros E Hb. cbn [DeserializeAt de_class]. unfold DeserializeClassFields.
  rewrite (read_byte_app _ _ _ E), bindE by (unfold is_byte; lia). cbn zeta. rewrite bool_decide_true by done.
  by destruct Hb as [-> | ->].
Qed.
Lemma ref_array_object room k n kind ename dims ws n' : ref_reads room k None n (WArr kind ename dims ws) n' →
  ref_reads (S room) (S k) (Some (ObjectRootClassIdx m)) n (WArr kind ename dims ws) n'.
Proof.
  intros H s rest K E. destruct (H s rest K E) as (v & s' & Er & R & D). cbn [ref_reader] in *.
  cbn [encode] in E. rewrite <- !app_assoc in E. rewrite (tag_app _ _ _ _ E) in Er by (unfold is_byte; lia).
  exists v, s'. split_and!; [|done|intros Hsm; apply d_arr_obj; by apply D].
  rewrite (object_tag _ _ _ _ E) by (by left). by rewrite decide_True.
Qed.
Lemma box_new s n tag bits : rok s n → ∃ v g, AllocBoxedValue (r_heap s) shard tag bits = Ok (v, g)
  ∧ rstep nothing s (with_rheap g s) n (r_in s) ∧ 0 < v ∧ made s (with_rheap g s) v ∧ kind_at g v = Some RTK_Boxed
  ∧ rec_at g v = Some (box_record tag bits).
Proof.
  intros K. destruct (AllocBoxedValue_grows (r_heap s) shard tag bits (rk_heap _ _ _ K) (rk_shard _ _ _ K)) as (v & g & E & G & Hd & Hr & Hk).
  assert (hlive g v) as Hl by (by exists RTK_Boxed).
  exists v, g. split_and!; try done; [by apply rstep_grows|by apply (hlive_pos g v (gr_ok _ _ G))].
Qed.
Lemma ref_box_text room k n t : Z.of_nat (length t) ≤ MAX_STRING_LENGTH →
  ref_reads (S room) (S k) (Some (ObjectRootClassIdx m)) n (WBoxText t) n.
Proof.
  intros Hl s rest K E. change (r_in s = 4 :: RTK_String :: (text_record t ++ rest)) in E. cbn [ref_reader].
  rewrite (object_tag _ _ _ _ E), decide_False by (by right || done). unfold ReadBoxedRecord.
  rewrite (read_byte_app (rest_of (RTK_String :: (text_record t ++ rest)) s) RTK_String _ eq_refl), bindE, decide_True by (done || by vm_compute).
  unfold ReadBoxText. pose proof (rstep_input shard s n (text_record t ++ rest) K) as R0.
  match goal with |- context [ReadText _ _ ?a ?b ?x] => destruct (ReadText_app a b x n t rest eq_refl Hl (rs_ok _ _ _ _ _ _ R0)) as (h & s1 & -> & R1 & Ht & Hu) end.
  rewrite bindE. destruct (box_new s1 n RTK_String h (rs_ok _ _ _ _ _ _ R1)) as (v & g & -> & R2 & Hv & Hm & Hk & Hr).
  rewrite bindE. pose proof (rstep_trans _ _ _ nothing _ _ _ _ _ _ _ R0 R1 ltac:(by intros x _ [?|?])) as R01.
  rewrite (rs_in _ _ _ _ _ _ R1) in R2. exists v, (with_rheap g s1). split_and!; [done| |].
  - eapply rstep_trans; [exact R01|exact R2|]. by intros x _ [?|?].
  - intros Hsm. assert (h < 2 ^ 31) as Hh by (by apply (strings_small_back _ _ _ _ _ _ R2 Hsm)).
    assert (i32 h = h) as Hi. { apply (swrap_small 32); [lia|]. destruct Hu as [(? & ? & _) _]. unfold is_sint. lia. }
    eapply (d_box_text _ _ _ _ _ _ _ _ RTK_String (i32 h)); try done; [by eapply made_after|].
    rewrite Hi. eapply text_at_extends; [apply (hk_strs _ (rk_heap _ _ _ (rs_ok _ _ _ _ _ _ R1)))|apply R2|done].
Qed.
Lemma ref_box_scalar room k n kind i row bs : is_uint 8 kind → ScalarPrimIndexOfRtk kind = Some (i, row) → length bs = slotWidth row → Forall is_byte bs →
  ref_reads (S room) (S k) (Some (ObjectRootClassIdx m)) n (WBoxScalar kind bs) n.
Proof.
  intros Hu Hrow Hl Hb s rest K E. change (r_in s = 4 :: kind :: (bs ++ rest)) in E. cbn [ref_reader].
  rewrite (object_tag _ _ _ _ E), decide_False by (by right || done). unfold ReadBoxedRecord.
  rewrite (read_byte_app (rest_of (kind :: (bs ++ rest)) s) kind _ eq_refl), bindE by exact Hu.
  assert (u8 kind = kind) as Hk by (by apply (wrap_small 8)).
  rewrite decide_False by (intros ->; discriminate Hrow). rewrite Hrow. unfold read_uint. rewrite <- Hl.
  change (rest_of (bs ++ rest) (rest_of (kind :: bs ++ rest) s)) with (rest_of (bs ++ rest) s).
  rewrite (read_app (rest_of (bs ++ rest) s) bs rest eq_refl), !bindE.
  pose proof (rstep_input shard s n rest K) as R0. change (rest_of rest (rest_of (bs ++ rest) s)) with (rest_of rest s).
  destruct (box_new (rest_of rest s) n kind (le_value bs) (rs_ok _ _ _ _ _ _ R0)) as (v & g & -> & R2 & Hv & Hm & Hk' & Hr).
  rewrite bindE. exists v, (with_rheap g (rest_of rest s)). split_and!; [done| |].
  - eapply rstep_trans; [exact R0|exact R2|]. by intros x _ [?|?].
  - intros Hsm. rewrite <- Hk. eapply d_box_scalar with (tag := kind) (row := row); try done.
    + unfold box_record. by case_match.
    + by rewrite Hk.
    + by eapply box_scalar.
Qed.

(** ** Everything that is described can be read *)
Definition item_reads (room k : nat) (it : item) (n : Z) (ws : list wire) (n' : Z) : Prop :=
  match it with
  | IField r c row => ∃ w, ws = [w] ∧ field_reads room k row n w n'
  | IFields r c step rows => rows_read room k rows n ws n'
  | IStruct v si => struct_reads room k si n ws n'
  | IRef declared v => ∃ w, ws = [w] ∧ ref_reads room k declared n w n'
  end.
Lemma described_reads h ids P room it n ws n' : described fuel ty h ids P room it n ws n' → 1 ≤ n → n' < 2 ^ 32 →
  ∀ k, (room ≤ k)%nat → item_reads room k it n ws n'.
Proof.
  induction 1 as [room r c kd si ci i row bs n Hk Hb|room r c si ci v t n Hc Ht|room r c si ci v ws n n' Hsi Hc Hd IH
    |room r c si ci v w n n' Hci Hc Hd IH|room r c si ci v w n n' Hc Hd IH|room r c step n
    |room r c step row rows w ws n n1 n' Hd IH Hds IHs|room v si cs r ws n n' Hcs Hv HP Hkd Hr Hl Hd IH
    |room d v n Hv|room d v id n Hv Hid Hlt Href|room v r tag x t n Hv HP Hkd Hr Htag Hu Hs Ht
    |room v r tag i row bs n Hv HP Hkd Hr Htag Hrow Hb|room d v r c cc fields ws n n' Hv HP Hid Hkd Hr Hc Hcc Hf Hl Hlt Hfind Hcap Hsub Hd IH
    |room v r kd typeIdx ename dims size ws n n' Hv HP Hid Hkd Hr Ha Hd IH|room v kd ename dims ws n n' Hd IH];
    intros H1 Hn' k Hroom; cbn [item_reads] in *.
  - eexists. split; [done|]. destruct (scalar_bytes_Ok _ _ _ _ Hb) as (? & ? & _); [by eapply registry_width|]. by eapply fr_scalar.
  - eexists. split; [done|]. apply fr_text. apply Ht.
  - eexists. split; [done|]. apply fr_struct; [done| |by apply IH]. inversion Hd. by eexists.
  - eexists. split; [done|]. destruct (IH H1 Hn' k Hroom) as (w' & [= <-] & Hw). by apply fr_class.
  - eexists. split; [done|]. destruct (IH H1 Hn' k Hroom) as (w' & [= <-] & Hw). by apply fr_array.
  - apply rr_nil.
  - pose proof (described_le _ _ _ _ _ _ _ _ _ _ Hd). pose proof (described_le _ _ _ _ _ _ _ _ _ _ Hds).
    destruct (IH H1 ltac:(lia) k Hroom) as (w' & [= <-] & Hw). eapply rr_cons; [exact Hw|]. apply IHs; [lia|done|done].
  - destruct k as [|k]; [lia|]. eapply struct_step; [done|]. apply IH; [done|done|lia].
  - eexists. split; [done|]. destruct k as [|k]; [lia|]. apply ref_null.
  - eexists. split; [done|]. destruct k as [|k]; [lia|]. by apply ref_back.
  - eexists. split; [done|]. destruct k as [|k]; [lia|]. apply ref_box_text, Ht.
  - eexists. split; [done|]. destruct k as [|k]; [lia|].
    destruct (scalar_bytes_Ok _ _ _ _ Hb) as (? & ? & _); [by eapply registry_width|]. by eapply ref_box_scalar; [apply (wrap_range 8)|..].
  - eexists. split; [done|]. destruct k as [|k]; [lia|]. pose proof (described_le _ _ _ _ _ _ _ _ _ _ Hd).
    eapply object_step; try done; [lia|]. apply IH; lia.
  - eexists. split; [done|]. destruct k as [|k]; [lia|]. pose proof (described_le _ _ _ _ _ _ _ _ _ _ Hd).
    eapply array_step; try done; [lia|]. apply IH; lia.
  - eexists. split; [done|]. destruct k as [|k]; [lia|]. destruct (IH H1 Hn' k ltac:(lia)) as (w' & [= <-] & Hw). by apply ref_array_object.
Qed.
End Reader.
