(* ===== verification/SerializeSpec.v ===== *)
(** * Serialized graphs

    Writing an object graph and reading it back: the copy is described by the same tree, so
    it has the same shape, sharing and cycles included, and is made of new records. *)
From S2P Require Import Prelude.
From S2P Require Import Bytecode Package Prims TypeDesc Shards Strings StringOps Layout Heap HeapGC Arrays ArrayElems Frames Objects Containers ObjectSpec AllocGrow.
From S2P Require Import Serialize SerializeWire SerializeWrite SerializeStep SerializeRead.
From S2P Require Import Exec ExecTypes ContainerSpec ContainerSlots.
Open Scope Z_scope.

Section Copies.
Context (fuel : nat) (ty : type_rows) (Hok : streams_ok fuel ty) (Hfuel : (1 ≤ fuel)%nat).

(** No two identities name the same object. *)
Definition one_to_one (ids : gmap Z Z) : Prop := ∀ a b x, ids !! a = Some x → ids !! b = Some x → a = b.
Definition identities (ids : gmap Z Z) (n : Z) : Prop := one_to_one ids ∧ ∀ id, is_Some (ids !! id) ↔ 1 ≤ id < n.

(** The writer of a position, as the reader's. *)
Definition ref_writer (shard k : nat) (declared : option Z) : Z → wstate → outcome wstate :=
  match declared with
  | Some _ => ser_class (SerializeAt fuel shard ty k)
  | None => ser_array (SerializeAt fuel shard ty k)
  end.
Lemma start_wok h ids : vm_ok (strs h) → wok h ids (MkW h ClearObjIdState []) 1.
Proof.
  intros Hvm. split; try done; [apply same_contents_refl|]. intros v id. cbn. rewrite lookup_empty. split; [done|lia].
Qed.
Lemma start_rok shard g inp : heap_ok g → (shard < length (m_heapShards g))%nat → rok shard (MkR g ClearObjIdState inp) 1.
Proof.
  intros Hg Hsh. split; cbn; try done. intros id. rewrite lookup_empty. split; [intros [? ?]; done|lia].
Qed.

Lemma graph_written shard h ids P declared v w n' : vm_ok (strs h) → length (m_slotKinds h) = length (m_structHeap h) → one_to_one ids →
  described fuel ty h ids P STRUCT_SERIALIZE_DEPTH_LIMIT (IRef declared v) 1 [w] n' → n' < 2 ^ 32 →
  ∃ s, ref_writer shard STRUCT_SERIALIZE_DEPTH_LIMIT declared v (MkW h ClearObjIdState []) = Ok s ∧ w_out s = encode w
    ∧ wok h ids s n'.
Proof.
  intros Hvm Hl Hinj D Hn.
  pose proof (described_writes fuel shard ty Hok h ids P Hinj Hl _ _ _ _ _ D ltac:(lia) Hn _ _ (Nat.le_refl _) (start_wok h ids Hvm)) as H.
  destruct declared as [d|]; destruct H as (s & E & W & O); exists s; (split; [exact E|]); (split; [|exact W]); rewrite O; apply app_nil_r.
Qed.
Lemma graph_read shard method h ids P declared v w n' g rest :
  described fuel ty h ids P STRUCT_SERIALIZE_DEPTH_LIMIT (IRef declared v) 1 [w] n' → n' < 2 ^ 32 →
  heap_ok g → (shard < length (m_heapShards g))%nat →
  ∃ v' s, ref_reader fuel shard ty method STRUCT_SERIALIZE_DEPTH_LIMIT declared (MkR g ClearObjIdState (encode w ++ rest)) = Ok (v', s)
    ∧ rstep shard nothing (MkR g ClearObjIdState (encode w ++ rest)) s n' rest
    ∧ shows fuel ty s (made (MkR g ClearObjIdState (encode w ++ rest)) s) STRUCT_SERIALIZE_DEPTH_LIMIT (IRef declared v') 1 [w] n'.
Proof.
  intros D Hn Hg Hsh.
  destruct (described_reads fuel shard ty method Hok Hfuel h ids P _ _ _ _ _ D ltac:(lia) Hn _ (Nat.le_refl _)) as (w' & [= <-] & H).
  by apply H; [apply start_rok|].
Qed.

(** C18: A graph of records, arrays and boxes that a tree describes, at most
    [STRUCT_SERIALIZE_DEPTH_LIMIT] levels deep, is written as the encoding of the tree without
    changing a record; reading those bytes in any heap, whatever follows them, yields a graph
    that the same tree describes, made of new records under new identities of their own, with
    everything that was alive unchanged and the rest of the stream unread. *)
Theorem object_graph_roundtrip shard shard' method h ids P declared v w n' :
  vm_ok (strs h) → length (m_slotKinds h) = length (m_structHeap h) → one_to_one ids →
  described fuel ty h ids P STRUCT_SERIALIZE_DEPTH_LIMIT (IRef declared v) 1 [w] n' → n' < 2 ^ 32 →
  ∃ s, ref_writer shard STRUCT_SERIALIZE_DEPTH_LIMIT declared v (MkW h ClearObjIdState []) = Ok s
    ∧ w_out s = encode w ∧ m_structHeap (w_heap s) = m_structHeap h ∧ same_contents (strs h) (strs (w_heap s))
    ∧ ∀ g rest, heap_ok g → (shard' < length (m_heapShards g))%nat →
      ∃ v' r, ref_reader fuel shard' ty method STRUCT_SERIALIZE_DEPTH_LIMIT declared (MkR g ClearObjIdState (w_out s ++ rest)) = Ok (v', r)
        ∧ r_in r = rest ∧ heap_ok (r_heap r) ∧ hextends g (r_heap r) ∧ extends (strs g) (strs (r_heap r))
        ∧ identities (deserializeObjIds (r_ids r)) n'
        ∧ (strings_small (strs (r_heap r)) →
           described fuel ty (r_heap r) (deserializeObjIds (r_ids r)) (λ x, hlive (r_heap r) x ∧ ¬ hlive g x)
             STRUCT_SERIALIZE_DEPTH_LIMIT (IRef declared v') 1 [w] n').
Proof.
  intros Hvm Hl Hinj D Hn. destruct (graph_written shard h ids P declared v w n' Hvm Hl Hinj D Hn) as (s & E & O & W).
  exists s. split_and!; [done|done|apply W|apply W|]. intros g rest Hg Hsh. rewrite O.
  destruct (graph_read shard' method h ids P declared v w n' g rest D Hn Hg Hsh) as (v' & r & Er & R & S).
  exists v', r. split_and!; [done|apply R|apply R| |apply R| |exact S].
  - intros x Hx. apply (rs_same _ _ _ _ _ _ R x Hx). by intros [].
  - split; [intros a b x; apply (rk_inj _ _ _ (rs_ok _ _ _ _ _ _ R))|apply (rk_ids _ _ _ (rs_ok _ _ _ _ _ _ R))].
Qed.
End Copies.

(** ** Examples *)
(** A node with a number, a text, a link to itself and an array in an [Object] field. *)
Definition node_fields : list Entry :=
  [MkEntry "val" RTK_Int32 65535 65535; MkEntry "text" RTK_String 65535 65535;
   MkEntry "next" RTK_Class 65535 1; MkEntry "data" RTK_Class 65535 0].
Definition node_rows : type_rows :=
  MkTypeRows (MkModule [] [] [MkClassRow (bytes_of "Object") (-1) []; MkClassRow (bytes_of "Node") 0 []]
    (MkTables [] [[]; node_fields] [MkArrayType RTK_Int32 65535 1] []) [] []) [] [].
Definition node_rec : list Z := [1; 5; 0; 1; 0; 1; 0; 2; 0].
Definition data_rec : list Z := [RTK_Array; 0; 1; 2; 2; 0; 7; 8].
Definition node_heap : heap := hwith_slots demo_heap [[]; node_rec; data_rec] [0; RTK_Class; RTK_Array] [0; 0; 0].
Definition node_ids : gmap Z Z := {[1 := 1; 2 := 2]}.
Definition node_tree : wire :=
  WObj (bytes_of "Node") [WScalar [5; 0; 0; 0]; WText [104; 105]; WBack 1; WArr RTK_Int32 [] [2] [WScalar [7; 0; 0; 0]; WScalar [8; 0; 0; 0]]].

Lemma node_streams_ok : streams_ok 1 node_rows.
Proof.
  split.
  - by intros s cs [??]%zlookup_Some_lt%Z.lt_ge_cases || (intros s cs H; apply zlookup_Some_lt in H; simpl in H; lia).
  - by vm_compute.
  - intros s cs H. apply zlookup_Some_lt in H. simpl in H. lia.
  - intros s cs H. apply zlookup_Some_lt in H. simpl in H. lia.
  - intros c fields j s H. unfold zlookup in H. case_decide; [|done].
    change (layout (md (rows_of node_rows))) with [[]; node_fields] in H.
    destruct (Z.to_nat c) as [|[|x]]; [injection H as <-; by destruct j|injection H as <-|done].
    by destruct j as [|[|[|[|j]]]].
Qed.
Lemma demo_extends : extends demo (strs demo_heap).
Proof. by apply same_objs_extends. Qed.
Lemma node_vm_ok : vm_ok (strs node_heap).
Proof.
  split; [apply (hk_strs _ (proj1 demo_heap_ok))|]. destruct demo_vm_ok as [_ [Hu H]]. split; [by apply demo_extends|exact H].
Qed.
Lemma node_text : text_at 1 (strs node_heap) 1 [104; 105].
Proof.
  apply (text_at_extends 1 demo); [apply demo_ok|apply demo_extends|]. split; [|by vm_compute]. exists 1%nat.
  split; [|done]. destruct demo_ok as (_ & [U R]%constant_reads & _). split; [by right|done].
Qed.
Lemma data_described room P : P 2 → described 1 node_rows node_heap node_ids P (S room) (IRef None 2) 2
  [WArr RTK_Int32 [] [2] [WScalar [7; 0; 0; 0]; WScalar [8; 0; 0; 0]]] 3.
Proof.
  intros HP. eapply d_arr with (r := data_rec) (typeIdx := 65535) (size := 2); try done; try by vm_compute.
  - split; [by exists 0|by vm_compute|by vm_compute|done|done| |by vm_compute].
    split; [by vm_compute|]. left. by eexists.
  - repeat (eapply d_cons; [eapply d_scalar; [reflexivity|by vm_compute]|]). apply d_nil.
Qed.
Lemma node_described P : P 1 → P 2 →
  described 1 node_rows node_heap node_ids P STRUCT_SERIALIZE_DEPTH_LIMIT (IRef (Some 1) 1) 1 [node_tree] 3.
Proof.
  intros H1 H2. unfold node_tree. change (bytes_of "Node") with (cls_name (MkClassRow (bytes_of "Node") 0 [])).
  eapply d_obj with (r := node_rec) (c := 1) (fields := node_fields); try done; try by vm_compute.
  eapply d_cons; [eapply d_scalar; [reflexivity|by vm_compute]|].
  eapply d_cons; [by eapply d_text; [|apply node_text]|].
  eapply d_cons; [eapply d_class; [done|reflexivity|]; by eapply d_back; [..|left]|].
  eapply d_cons; [eapply d_class; [done|reflexivity|]|apply d_nil].
  eapply d_arr_obj. by apply data_described.
Qed.
Lemma node_one_to_one : one_to_one node_ids.
Proof.
  intros a b x. unfold node_ids. rewrite !lookup_insert_Some, !lookup_singleton_Some. naive_solver.
Qed.
Lemma object_graph_roundtrip_witness :
  ∃ s, ref_writer 1 node_rows 0 STRUCT_SERIALIZE_DEPTH_LIMIT (Some 1) 1 (MkW node_heap ClearObjIdState []) = Ok s
    ∧ w_out s = encode node_tree ∧ m_structHeap (w_heap s) = m_structHeap node_heap ∧ same_contents (strs node_heap) (strs (w_heap s))
    ∧ ∀ g rest, heap_ok g → (0 < length (m_heapShards g))%nat →
      ∃ v' r, ref_reader 1 0 node_rows "ReadObject" STRUCT_SERIALIZE_DEPTH_LIMIT (Some 1) (MkR g ClearObjIdState (w_out s ++ rest)) = Ok (v', r)
        ∧ r_in r = rest ∧ heap_ok (r_heap r) ∧ hextends g (r_heap r) ∧ extends (strs g) (strs (r_heap r))
        ∧ identities (deserializeObjIds (r_ids r)) 3
        ∧ (strings_small (strs (r_heap r)) →
           described 1 node_rows (r_heap r) (deserializeObjIds (r_ids r)) (λ x, hlive (r_heap r) x ∧ ¬ hlive g x)
             STRUCT_SERIALIZE_DEPTH_LIMIT (IRef (Some 1) v') 1 [node_tree] 3).
Proof.
  apply (object_graph_roundtrip 1 node_rows node_streams_ok (Nat.le_refl 1) 0 0 "ReadObject" node_heap node_ids (λ _, True));
    [apply node_vm_ok|reflexivity|apply node_one_to_one|by apply node_described|by vm_compute].
Defined.

(** The node's record: its own identity, the first of the stream, is 1. *)
Definition written (h : heap) (ids : obj_ids) (v : Z) : outcome (bytes * obj_ids) :=
  s ← ser_class (SerializeAt 1 0 node_rows STRUCT_SERIALIZE_DEPTH_LIMIT) v (MkW h ids []); Ok (w_out s, w_ids s).
Definition read_class (declared : Z) (s : rstate) : outcome (Z * rstate) :=
  de_class (DeserializeAt 1 0 node_rows "ReadObject" STRUCT_SERIALIZE_DEPTH_LIMIT) declared s.
Example first_identity_is_one :
  fst <$> written node_heap ClearObjIdState 1
  = Ok ([1; 4; 0; 0; 0; 78; 111; 100; 101; 5; 0; 0; 0; 2; 0; 0; 0; 104; 105; 2; 1; 0; 0; 0]
        ++ [3; 0; 1; 2; 0; 0; 0; 7; 0; 0; 0; 8; 0; 0; 0]).
Proof. vm_compute. reflexivity. Qed.

(** Sixty-three nodes, the last of which holds an array: the writer walks the array at the
    depth of the field, the reader one level deeper. *)
Definition chain_heap : heap :=
  let node (j : nat) := [1; 0; 0; 0; 0; (if decide (j < 63)%nat then Z.of_nat (S j) else 0); 0; (if decide (j < 63)%nat then 0 else 64); 0] in
  hwith_slots demo_heap ([[]] ++ (node <$> seq 1 63) ++ [data_rec]) ([0] ++ replicate 63 RTK_Class ++ [RTK_Array]) (replicate 65 0).
Example deep_array_written_not_read :
  match written chain_heap ClearObjIdState 1 with
  | Ok (bs, _) => (fst <$> read_class 1 (MkR demo_heap ClearObjIdState bs))
      = Raise (RuntimeError "NLang VM: struct serialize depth limit exceeded")
  | Raise _ => False
  end.
Proof. vm_compute. reflexivity. Qed.

(** A back reference is taken for any declared class: an array read before is handed out
    where a [Node] is declared. *)
Example array_read_as_node :
  match de_array (DeserializeAt 1 0 node_rows "ReadArray" STRUCT_SERIALIZE_DEPTH_LIMIT)
          (MkR demo_heap ClearObjIdState ([3; 0; 1; 2; 0; 0; 0; 7; 0; 0; 0; 8; 0; 0; 0] ++ [2; 1; 0; 0; 0])) with
  | Ok (i, s) => match read_class 1 s with
      | Ok (v, s) => v = i ∧ kind_at (r_heap s) v = Some RTK_Array ∧ r_in s = []
      | Raise _ => False
      end
  | Raise _ => False
  end.
Proof. vm_compute. done. Qed.

(** The identities outlive the objects: a record that takes the slot of a collected one
    is written as a reference to it. *)
Lemma known_slot_is_back_reference fuel shard ty k v id s : 0 < v → kind_at (w_heap s) v = Some RTK_Class →
  serializeObjIds (w_ids s) !! v = Some id → ser_class (SerializeAt fuel shard ty (S k)) v s = Ok (back_reference id s).
Proof.
  intros Hv Hk Hid. cbn [SerializeAt ser_class]. unfold SerializeClassFields. rewrite decide_False, Hk by lia.
  do 4 rewrite decide_False by (intros [=] || (by intros []) || done). by rewrite Hid.
Qed.
Definition swept_heap : heap := hwith_slots node_heap [[]; []; data_rec] [0; 0; RTK_Array] [0; 0; 0].
Example reused_slot_written_as_old :
  match written node_heap ClearObjIdState 1 with
  | Ok (_, ids) =>
      (* the object is collected, and a new one is put in its slot *)
      let h := set_slot swept_heap 1 [1; 6; 0; 0; 0; 0; 0; 0; 0] RTK_Class 0 in
      fst <$> written h ids 1 = Ok [2; 1; 0; 0; 0]
  | Raise _ => False
  end.
Proof. vm_compute. reflexivity. Qed.

(** A boxed byte of value -1 comes back as a box that does not equal it. *)
Example narrow_box_differs :
  let h := hwith_slots demo_heap [[]; box_record RTK_Byte (-1)] [0; RTK_Boxed] [0; 0] in
  match written h ClearObjIdState 1 with
  | Ok (bs, _) => match read_class 0 (MkR h ClearObjIdState bs) with
      | Ok (v, s) => rec_at (r_heap s) v = Some (box_record RTK_Byte 255) ∧ Containers.BoxedValuesEqual 1 (r_heap s) 1 v = Ok false
      | Raise _ => False
      end
  | Raise _ => False
  end.
Proof. vm_compute. done. Qed.

(** ** A list in a stream

    The one field of a list, as the compiler registers it, is its handle, a number.  Reading the written list back makes a second
    instance with the handle of the first: two live lists share one side slot. *)
Definition list_rows : type_rows :=
  MkTypeRows (MkModule [] [] [MkClassRow (bytes_of "List") (-1) []; MkClassRow (bytes_of "Dict") (-1) []]
    (MkTables [] [[MkEntry "__handle" RTK_Int32 65535 65535]; [MkEntry "__handle" RTK_Int32 65535 65535]] [] []) [] []) [] [].
Definition list_copied : outcome (Z * heap) :=
  s ← ser_class (SerializeAt 1 0 list_rows STRUCT_SERIALIZE_DEPTH_LIMIT) 1 (MkW added.1 ClearObjIdState []);
  '(v, r) ← de_class (DeserializeAt 1 0 list_rows "ReadObject" STRUCT_SERIALIZE_DEPTH_LIMIT) 0 (MkR added.1 ClearObjIdState (w_out s));
  Ok (v, r_heap r).
Lemma list_read_back_shares_slot : ∃ v h, list_copied = Ok (v, h) ∧ v ≠ 1 ∧ holds h 0 1 1 ∧ holds h 0 v 1 ∧ m_listStore added.2 = [[7]].
Proof.
  eexists _, _. split; [vm_compute; reflexivity|]. split; [done|].
  split; [|split; [|by vm_compute]]; (split; [by vm_compute|split; [done|]]); by exists [0; 1; 0], 0.
Qed.
