(* ===== verification/SerializeSafe.v ===== *)
(** * Reading any bytes

    Whatever a stream holds, a reader ends in an error of the machine or in a value: it never
    leaves the bounds of a record or of the stream, changes nothing that was alive, and only
    hands out identities it has given. *)
From S2P Require Import Prelude.
From S2P Require Import Bytecode Package Prims TypeDesc Shards Strings StringOps Layout Heap HeapGC Arrays ArrayElems Frames FramesSpec Objects ObjectSpec AllocGrow.
From S2P Require Import Serialize SerializeWire SerializeWrite SerializeStep SerializeRead SerializeSpec.
Open Scope Z_scope.

(** ** Outcomes without undefined behaviour *)
Definition vm_raised (e : vm_error) : Prop := match e with NlangExc _ _ | RuntimeError _ => True | _ => False end.
Definition safely {A} (Q : A → Prop) (o : outcome A) : Prop := match o with Ok a => Q a | Raise e => vm_raised e end.
Lemma safely_bind {A B} (Q : A → Prop) (R : B → Prop) (o : outcome A) f :
  safely Q o → (∀ a, Q a → safely R (f a)) → safely R (a ← o; f a).
Proof. destruct o; cbn; auto. Qed.
Lemma safely_weaken {A} (Q R : A → Prop) o : safely Q o → (∀ a, Q a → R a) → safely R o.
Proof. destruct o; cbn; auto. Qed.
Lemma safely_if {A} (Q : A → Prop) P `{Decision P} (a b : outcome A) :
  (P → safely Q a) → (¬ P → safely Q b) → safely Q (if decide P then a else b).
Proof. case_decide; auto. Qed.
Lemma host_error_safe {A} (Q : A → Prop) msg : safely Q (host_error msg).
Proof. done. Qed.
#[local] Hint Resolve host_error_safe : core.

Lemma foldM_safely {A S} (Inv : S → Prop) (f : S → A → outcome S) l : (∀ s a, a ∈ l → Inv s → safely Inv (f s a)) →
  ∀ s, Inv s → safely Inv (foldM f s l).
Proof.
  induction l as [|a l IH]; intros Hf s Hs; [done|]. cbn [foldM]. eapply safely_bind; [apply Hf; [by left|done]|].
  intros s' Hs'. apply IH; [|done]. intros s0 a0 Ha. apply Hf. by right.
Qed.

Lemma subclass_walk_supers m c l d : supers m c l → ∀ fuel, (length l < fuel)%nat → ∃ b, subclass_walk fuel m c d = Ok b.
Proof.
  induction 1 as [c row Hc Hs|c row l Hc Hs Hl IH]; intros [|fuel] Hf; cbn [length] in Hf; try lia; cbn [subclass_walk];
    (case_decide; [by eexists|]); (case_decide; [by eexists|]); rewrite Hc, derefE, bindE.
  - rewrite Hs. destruct fuel; [lia|]. by exists false.
  - apply IH. lia.
Qed.

Lemma nests_row n tables s : nests n tables s → is_Some (structs tables !!z s).
Proof. destruct n; [done|]. intros (cs & ? & _). by exists cs. Qed.
Lemma nests_nested n tables s cs i s' : nests n tables s → structs tables !!z s = Some cs → (i < sFieldCount cs)%nat →
  struct_field cs i = Ok (Some s') → is_Some (structs tables !!z s').
Proof.
  destruct n as [|n]; [done|]. intros (cs' & Hcs' & Hn) Hcs Hi Hf. simplify_eq. by eapply nests_row, Hn.
Qed.

(** ** The tables of a loaded program *)
Record reads_ok (fuel : nat) (ty : type_rows) : Prop := {
  ro_streams : streams_ok fuel ty;
  ro_names : length (structNames ty) = length (structs (md (rows_of ty)));
  ro_structs : Z.of_nat (length (structs (md (rows_of ty)))) < 65535;
  ro_classes : Z.of_nat (length (classes (rows_of ty))) ≤ 2 ^ 15;
  ro_layout : length (layout (md (rows_of ty))) = length (classes (rows_of ty));
  ro_arrays : Z.of_nat (length (arrayTypes (md (rows_of ty)))) ≤ 2 ^ 16;
  ro_chains : ∀ c row, classes (rows_of ty) !!z c = Some row → ∃ l, supers (rows_of ty) c l;
  ro_struct_rows : ∀ s k si ci, (k, si, ci) ∈ struct_rows ty s → ci ≠ 65535 → k = RTK_Class → is_Some (classes (rows_of ty) !!z ci);
  ro_class_rows : ∀ c fields k si ci, layout (md (rows_of ty)) !!z c = Some fields → (k, si, ci) ∈ class_rows fields →
    ci ≠ 65535 → k = RTK_Class → is_Some (classes (rows_of ty) !!z ci)
}.

Section Safe.
Context (fuel shard : nat) (ty : type_rows) (method : string).
Context (Hro : reads_ok fuel ty) (Hfuel : (1 ≤ fuel)%nat).
Abbreviation m := (rows_of ty).
Abbreviation tbl := (md (rows_of ty)).
Abbreviation Hok := (ro_streams _ _ Hro).

(** ** Steps *)
Definition next (s : rstate) : Z := nextObjId (r_ids s).
Definition left_ (s : rstate) : Z := Z.of_nat (length (r_in s)).
(** There are identities enough for the bytes that are left. *)
Definition sok (s : rstate) : Prop :=
  rok shard s (next s) ∧ 1 ≤ next s ∧ next s + left_ s < 2 ^ 32 ∧ Forall is_byte (r_in s).
Record rpost (X : Z → Prop) (s s' : rstate) : Prop := {
  rp_step : rstep shard X s s' (next s') (r_in s');
  rp_suffix : r_in s' `suffix_of` r_in s;
  rp_next : next s ≤ next s';
  rp_room : next s' + left_ s' ≤ next s + left_ s
}.
(** A byte was read that no identity was given for. *)
Definition spent (s s' : rstate) : Prop := rpost nothing s s' ∧ next s' + left_ s' + 1 ≤ next s + left_ s.
Lemma rpost_sok X s s' : sok s → rpost X s s' → sok s'.
Proof.
  intros (K & H1 & H2 & H3) [R1 R2 R3 R4]. split; [apply R1|]. split; [lia|]. split; [lia|].
  destruct R2 as [l E]. rewrite E in H3. by apply list.Forall_app in H3 as [_ ?].
Qed.
Lemma rpost_trans (X Y W : Z → Prop) s s1 s' : rpost X s s1 → rpost Y s1 s' → (∀ x, hlive (r_heap s) x → X x ∨ Y x → W x) → rpost W s s'.
Proof. intros [R1 R2 R3 R4] [Q1 Q2 Q3 Q4] HW. split; [by eapply rstep_trans|by etrans|lia|lia]. Qed.
Lemma rpost_then (W : Z → Prop) s s1 s' : rpost nothing s s1 → rpost W s1 s' → rpost W s s'.
Proof. intros H1 H2. eapply rpost_trans; [exact H1|exact H2|]. by intros x _ [[]|?]. Qed.
Lemma rpost_weaken (X W : Z → Prop) s s' : rpost X s s' → (∀ x, hlive (r_heap s) x → X x → W x) → rpost W s s'.
Proof. intros [R1 R2 R3 R4] HW. split; [by eapply rstep_weaken|done..]. Qed.
Lemma rpost_refl X s : sok s → rpost X s s.
Proof.
  intros (K & _). split; [|done|lia|lia]. eapply rstep_weaken; [by apply (rstep_refl shard s (next s))|done].
Qed.
Lemma spent_then (W : Z → Prop) s s1 s' : spent s s1 → rpost W s1 s' → rpost W s s'.
Proof. intros [H _]. by apply rpost_then. Qed.
Lemma spent_more s s1 s' : spent s s1 → rpost nothing s1 s' → spent s s'.
Proof. intros [H1 H2] H3. split; [by eapply rpost_then|]. pose proof (rp_room _ _ _ H3). lia. Qed.

(** *** Primitive steps *)
Lemma rpost_input s n : sok s → (n ≤ length (r_in s))%nat → rpost nothing s (rest_of (drop n (r_in s)) s).
Proof.
  intros (K & _) Hn. split; [by apply rstep_input| |done|].
  - exists (take n (r_in s)). symmetry. apply take_drop.
  - unfold left_, next. cbn. rewrite length_drop. lia.
Qed.
Lemma rpost_grows s g : sok s → grows (r_heap s) g → rpost nothing s (with_rheap g s).
Proof. intros (K & _) G. split; [by apply rstep_grows|done|done|done]. Qed.
Lemma rpost_new s s0 g v : sok s → spent s s0 → grows (r_heap s0) g → ¬ hlive (r_heap s0) v → 0 < v → referable g v →
  rpost nothing s (MkR g (add_read v (r_ids s0)) (r_in s0)).
Proof.
  intros K [R0 Hsp] G Hd Hv Hr. destruct (rpost_sok _ _ _ K R0) as (K0 & H1 & H2 & _). destruct K as (_ & _ & H3 & _).
  assert (0 ≤ left_ s0) by (unfold left_; lia).
  destruct (rstep_new shard s0 (next s0) g v (r_in s0) K0 G Hd Hv Hr) as [R1 _]; [lia|lia|].
  assert (next (MkR g (add_read v (r_ids s0)) (r_in s0)) = next s0 + 1) as Hnext by apply (rk_next _ _ _ (rs_ok _ _ _ _ _ _ R1)).
  pose proof (rp_next _ _ _ R0). split; rewrite ?Hnext.
  - eapply rstep_trans; [apply R0|exact R1|]. by intros x _ [?|?].
  - apply R0.
  - lia.
  - change (left_ (MkR g _ (r_in s0))) with (left_ s0). lia.
Qed.
Lemma read_safe n s : sok s → safely (λ '(bs, s'), s' = rest_of (drop n (r_in s)) s ∧ rpost nothing s s' ∧ length bs = n ∧ Forall is_byte bs
  ∧ next s' + left_ s' + Z.of_nat n ≤ next s + left_ s) (read method n s).
Proof.
  intros K. unfold read. apply safely_if; intros Hl; [done|]. cbn.
  split_and!; [done|by apply rpost_input; [|lia]|rewrite length_take; lia|by apply Forall_take, K|].
  unfold left_, next. cbn. rewrite length_drop. lia.
Qed.
Lemma read_uint_safe n s : sok s → (1 ≤ n)%nat → safely (λ '(v, s'), spent s s' ∧ is_uint (8 * Z.of_nat n) v) (read_uint method n s).
Proof.
  intros K Hn. unfold read_uint. eapply safely_bind; [by apply read_safe|]. intros [bs s'] (_ & R & Hl & Hb & Hr). cbn.
  split; [split; [done|lia]|]. rewrite <- Hl. by apply le_value_bound.
Qed.
Lemma ReadText_safe neg long s : sok s → safely (λ '(v, s'), rpost nothing s s') (ReadText shard method neg long s).
Proof.
  intros K. unfold ReadText. eapply safely_bind; [by apply read_uint_safe; [|lia]|]. intros [n s1] [[R1 _] _]. cbn zeta.
  apply safely_if; intros H1; [done|]. apply safely_if; intros H2; [done|].
  pose proof (rpost_sok _ _ _ K R1) as K1. eapply safely_bind; [by apply read_safe|]. intros [t s2] (_ & R2 & _).
  pose proof (rpost_sok _ _ _ K1 R2) as (K2 & _).
  destruct (MintNewString_grows (r_heap s2) shard t (rk_heap _ _ _ K2) (rk_shard _ _ _ K2)) as (v & st & -> & G & _).
  rewrite bindE. cbn. eapply rpost_then; [exact R1|]. eapply rpost_then; [exact R2|]. apply rpost_grows; [by eapply rpost_sok|done].
Qed.
Lemma name_safe long s : sok s → safely (λ '(_, s'), spent s s') (read_name method long s).
Proof.
  intros K. unfold read_name. eapply safely_bind; [by apply read_uint_safe; [|lia]|]. intros [n s1] [R1 _].
  apply safely_if; intros H1; [done|]. eapply safely_weaken; [apply read_safe; by eapply rpost_sok, R1|].
  intros [bs s2] (_ & R2 & _). by eapply spent_more.
Qed.
Lemma back_safe unknown s : sok s → safely (λ '(_, s'), rpost nothing s s') (read_back_reference method unknown s).
Proof.
  intros K. unfold read_back_reference. eapply safely_bind; [by apply read_uint_safe; [|lia]|]. intros [id s1] [[R1 _] _].
  by case_match.
Qed.
Lemma set_field_safe s i r c v : sok s → rec_at (r_heap s) i = Some r → (c < length r)%nat →
  safely (λ s', rpost (eq i) s s' ∧ ∃ r', rec_at (r_heap s') i = Some r' ∧ filled c 1 r r') (set_field i c v s).
Proof.
  intros (K & _) Hr Hc. destruct (set_field_step fuel shard Hfuel s (next s) i r c v K Hr Hc) as (s' & r' & E & R & Hr' & F & _).
  unfold set_field in *. destruct (set_cell _ _ _ _) as [h|]; [|done]. rewrite bindE in E |- *. injection E as <-. cbn.
  split; [|by exists r']. by split.
Qed.

(** ** What the readers of one depth promise *)
(** A reference that was read is null or alive. *)
Definition ref_ok (s' : rstate) (v : Z) : Prop := v = 0 ∨ hlive (r_heap s') v.
Definition reads_ref (s : rstate) (o : outcome (Z * rstate)) : Prop :=
  safely (λ '(v, s'), rpost nothing s s' ∧ ref_ok s' v) o.
Record readers_safe (d : readers) : Prop := {
  rs_struct : ∀ s v si, sok s → struct_slot tbl (r_heap s) si v →
    safely (λ s', rpost (eq v) s s' ∧ struct_slot tbl (r_heap s') si v) (de_struct d v si s);
  rs_class : ∀ s c, sok s → is_Some (classes m !!z c) → reads_ref s (de_class d c s);
  rs_array : ∀ s, sok s → reads_ref s (de_array d s);
  rs_tagged : ∀ s tag, sok s → reads_ref s (de_tagged d tag s)
}.
Lemma reads_ref_then s s1 o : rpost nothing s s1 → reads_ref s1 o → reads_ref s o.
Proof. intros R H. eapply safely_weaken; [exact H|]. intros [v s'] [R' Hv]. split; [by eapply rpost_then|done]. Qed.

(** *** A field *)
Definition row_ok (row : frow) : Prop :=
  (row.1.1 = RTK_Struct → row.1.2 ≠ 65535 → is_Some (structs tbl !!z row.1.2))
  ∧ (row.1.1 = RTK_Class → row.2 ≠ 65535 → is_Some (classes m !!z row.2)).
(** Record [i], of [len] cells, is filled. *)
Definition filling (i : Z) (len : nat) (s s' : rstate) : Prop :=
  rpost (eq i) s s' ∧ ∃ r, rec_at (r_heap s') i = Some r ∧ length r = len.
Definition fillable (i : Z) (len : nat) (s : rstate) : Prop :=
  sok s ∧ hlive (r_heap s) i ∧ ∃ r, rec_at (r_heap s) i = Some r ∧ length r = len.
Lemma filling_fillable i len s s' : fillable i len s → filling i len s s' → fillable i len s'.
Proof.
  intros (K & Hl & _) [R Hr]. split; [by eapply rpost_sok|]. split; [|done]. eapply rstep_live; [apply R|done].
Qed.
Lemma fillable_step i len s s1 : fillable i len s → rpost nothing s s1 → fillable i len s1.
Proof.
  intros (K & Hl & r & Hr & Hlen) R. split; [by eapply rpost_sok|]. split; [eapply rstep_live; [apply R|done]|].
  exists r. split; [|done]. eapply rstep_rec; [apply R|done|by intros []|done].
Qed.
Lemma filling_then i len s s1 s' : rpost nothing s s1 → filling i len s1 s' → filling i len s s'.
Proof. intros R [R' H]. split; [by eapply rpost_then|done]. Qed.
Lemma filling_trans i len s s1 s' : filling i len s s1 → filling i len s1 s' → filling i len s s'.
Proof. intros [R _] [R' H]. split; [|done]. eapply rpost_trans; [exact R|exact R'|]. by intros x _ [?|?]. Qed.
Lemma set_field_filling s i c v len : fillable i len s → (c < len)%nat → safely (filling i len s) (set_field i c v s).
Proof.
  intros (K & Hl & r & Hr & <-) Hc. eapply safely_weaken; [by eapply set_field_safe|].
  intros s' (R & r' & Hr' & Hlen & _). split; [done|]. by exists r'.
Qed.
(** A reference is read and stored. *)
Lemma store_ref s i c len o : fillable i len s → (c < len)%nat → safely (λ '(_, s'), rpost nothing s s') o →
  safely (filling i len s) ('(v, s) ← o; set_field i c v s).
Proof.
  intros F Hc Ho. eapply safely_bind; [exact Ho|]. intros [v s1] R. eapply safely_weaken; [apply set_field_filling; [by eapply fillable_step|done]|].
  intros s'. by apply filling_then.
Qed.
Lemma put_scalar_safe s i c n len : fillable i len s → (n ≤ 8)%nat → (c + scalar_cells n ≤ len)%nat →
  safely (filling i len s) ('(bs, s) ← read method n s; h ← put_scalar (r_heap s) i c bs; Ok (with_rheap h s)).
Proof.
  intros F Hn Hc. eapply safely_bind; [apply read_safe, F|]. intros [bs s1] (_ & R & Hl & Hb & _).
  pose proof (fillable_step _ _ _ _ F R) as ((K1 & _) & _ & r & Hr & Hlen).
  destruct (put_scalar_spec (r_heap s1) i c bs r (rk_heap _ _ _ K1) Hr) as (h' & r' & -> & W & L & _); [lia|done|rewrite Hl; lia|].
  rewrite bindE. cbn. eapply filling_then; [exact R|]. split.
  - split; [exact (rstep_rewrote shard s1 (next s1) i r' h' K1 W)|done|done|done].
  - exists r'. split; [apply W|lia].
Qed.
Lemma field_safe d i c kd si ci len s : readers_safe d → row_ok (kd, si, ci) → fillable i len s →
  (c + row_cells (kd, si, ci) ≤ len)%nat →
  safely (filling i len s) (DeserializeField fuel shard ty method d i c kd (Ok si) (Ok ci) s).
Proof.
  intros Hd [Hsi Hci] F Hc. cbn [fst snd] in *. pose proof (row_cells_pos fuel Hfuel (kd, si, ci)). unfold DeserializeField.
  destruct (ScalarPrimIndexOfRtk (u8 kd)) as [[j row]|] eqn:Hrow.
  { apply put_scalar_safe; [done|by eapply registry_width|]. by rewrite <- (row_cells_scalar fuel Hfuel kd si ci j row Hrow). }
  apply safely_if; intros H1; [apply store_ref; [done|lia|]; apply ReadText_safe, F|].
  apply safely_if; intros H2.
  { rewrite bindE. apply safely_if; intros H3; [done|]. destruct (Hsi H2 H3) as [cs Hcs]. pose proof F as ((K & HK) & Hl & _).
    destruct (AllocStruct_grows fuel tbl (r_heap s) shard si cs (so_tables _ _ Hok) (so_nests _ _ Hok si cs Hcs) Hcs)
      as (v & g & rv & -> & G & Hdead & Hv & Kv & Rv & Lv); [apply K|apply K|]. rewrite bindE.
    pose proof (rpost_grows s g ltac:(by split) G) as R1. pose proof (fillable_step _ _ _ _ F R1) as F1.
    eapply safely_bind; [apply (set_field_filling _ i c v len F1); lia|]. intros s2 Fi2.
    pose proof (filling_fillable _ _ _ _ F1 Fi2) as F2. assert (v ≠ i) as Hvi by (intros ->; done).
    assert (hlive (r_heap (with_rheap g s)) v) as Hlv by (by exists RTK_Struct).
    eapply safely_weaken; [apply (rs_struct d Hd); [apply F2|]|].
    - eapply struct_slot_same; [apply (rs_same _ _ _ _ _ _ (rp_step _ _ _ (proj1 Fi2)) v Hlv); congruence|].
      split; [done|]. split; [done|]. by exists cs, rv.
    - intros s' [R3 _]. destruct F2 as (K2 & Hl2 & r2 & Hr2 & Hlen2). split.
      + eapply rpost_trans; [eapply rpost_then; [exact R1|apply Fi2]|exact R3|]. intros x Hx [?|<-]; [done|by destruct Hdead].
      + exists r2. split; [|done]. eapply rstep_rec; [apply R3|done|done|done]. }
  apply safely_if; intros H3.
  { rewrite bindE. apply safely_if; intros H4; [done|]. apply store_ref; [done|lia|].
    eapply safely_weaken; [apply (rs_class d Hd); [apply F|by apply Hci]|]. by intros [v s'] [? _]. }
  apply safely_if; intros H4.
  { apply store_ref; [done|lia|]. eapply safely_weaken; [apply (rs_array d Hd), F|]. by intros [v s'] [? _]. }
  by apply safely_if.
Qed.

(** *** Records *)
Lemma struct_safe d s v si : readers_safe d → sok s → struct_slot tbl (r_heap s) si v →
  safely (λ s', rpost (eq v) s s' ∧ struct_slot tbl (r_heap s') si v) (DeserializeStructFields fuel shard ty method d v si s).
Proof.
  intros Hd K (Hv & Hk & cs & r & Hcs & Hr & Hl). destruct (struct_rows_spec fuel ty si cs Hok Hcs) as [Hlen Hrow].
  assert (fillable v (2 * sFieldCount cs) s) as F by (split; [done|]; split; [by exists RTK_Struct|by exists r]).
  unfold DeserializeStructFields. rewrite Hcs, decide_False by (rewrite Hr; intros [?|?]; [lia|done]).
  eapply safely_weaken; [apply (foldM_safely (filling v (2 * sFieldCount cs) s))|].
  - intros s1 i [_ Hi]%elem_of_seq Fi. destruct (struct_rows ty si !! i) as [[[kd s0] ci]|] eqn:E.
    2: { apply lookup_ge_None in E. lia. }
    destruct (Hrow i kd s0 ci E) as (H1 & H2 & cls & H3 & H4).
    rewrite H1, derefE, bindE, H2, H3. cbn [deref mbind outcome_bind]. rewrite H4.
    eapply safely_weaken; [eapply field_safe; [done| |by eapply filling_fillable|]|].
    + split; cbn [fst snd]; intros ->; intros ?.
      * eapply (nests_nested fuel tbl si cs i); [exact (so_nests _ _ Hok si cs Hcs)|done|lia|].
        unfold struct_field. rewrite H1, derefE, bindE, H2, derefE, bindE. unfold nested_struct. by rewrite decide_True.
      * apply (ro_struct_rows _ _ Hro si RTK_Class s0 ci); [by eapply list_elem_of_lookup_2|done|done].
    + pose proof (ArrayElemCells_range (u8 kd)). unfold row_cells. cbn [fst]. lia.
    + intros s'. by apply filling_trans.
  - split; [by apply rpost_refl|by exists r].
  - intros s' [R (r' & Hr' & Hl')]. split; [done|]. split; [done|]. split; [|by exists cs, r'].
    rewrite (rs_kind _ _ _ _ _ _ (rp_step _ _ _ R)); [done|]. by exists RTK_Struct.
Qed.
Lemma new_ref s s0 g v : sok s → spent s s0 → grows (r_heap s0) g → ¬ hlive (r_heap s0) v → 0 < v → referable g v →
  let s1 := MkR g (add_read v (r_ids s0)) (r_in s0) in rpost nothing s s1 ∧ sok s1 ∧ hlive (r_heap s1) v.
Proof.
  intros K Hsp G Hd Hv Hr s1. pose proof (rpost_new s s0 g v K Hsp G Hd Hv Hr) as R.
  split; [done|]. split; [by eapply rpost_sok|by apply referable_live].
Qed.
(** What is alive but was not before the object was made may be filled. *)
Lemma rpost_filled s s1 s' (X : Z → Prop) : rpost nothing s s1 → rpost X s1 s' → (∀ x, X x → ¬ hlive (r_heap s) x) → rpost nothing s s'.
Proof. intros R R' H. eapply rpost_trans; [exact R|exact R'|]. intros x Hx [[]|?]. by destruct (H x). Qed.
Lemma box_safe s s0 tag bits : rpost nothing s s0 → sok s0 →
  reads_ref s ('(i, h) ← AllocBoxedValue (r_heap s0) shard tag bits; Ok (i, with_rheap h s0)).
Proof.
  intros R (K & HK). destruct (AllocBoxedValue_grows (r_heap s0) shard tag bits (rk_heap _ _ _ K) (rk_shard _ _ _ K)) as (i & g & -> & G & _ & _ & Hk).
  rewrite bindE. cbn. split; [eapply rpost_then; [exact R|apply rpost_grows; [by split|done]]|]. right. by exists RTK_Boxed.
Qed.
Lemma ReadBoxedRecord_safe s : sok s → reads_ref s (ReadBoxedRecord shard method s).
Proof.
  intros K. unfold ReadBoxedRecord, reads_ref. eapply safely_bind; [by apply read_uint_safe; [|lia]|]. intros [inner s1] [[R1 _] _].
  pose proof (rpost_sok _ _ _ K R1) as K1. apply safely_if; intros H1.
  - eapply safely_bind; [by apply ReadText_safe|]. intros [v s2] R2. apply box_safe; [by eapply rpost_then|by eapply rpost_sok].
  - destruct (ScalarPrimIndexOfRtk inner) as [[j row]|] eqn:Hrow; [|done].
    assert (1 ≤ slotWidth row)%nat as Hw.
    { apply ScalarPrimIndexOfRtk_Some in Hrow as [Hin _]. revert row Hin. apply registry_cases. repeat constructor; simpl; lia. }
    eapply safely_bind; [by apply read_uint_safe|]. intros [bits s2] [[R2 _] _]. apply box_safe; [by eapply rpost_then|by eapply rpost_sok].
Qed.
Lemma back_ref s unknown : sok s → reads_ref s (read_back_reference method unknown s).
Proof.
  intros K. unfold read_back_reference, reads_ref. eapply safely_bind; [by apply read_uint_safe; [|lia]|]. intros [id s1] [[R1 _] _].
  destruct (deserializeObjIds (r_ids s1) !! id) as [v|] eqn:Hid; [|done]. split; [done|]. right.
  destruct (rpost_sok _ _ _ K R1) as (K1 & _). by eapply referable_live, (rk_refs _ _ _ K1).
Qed.
Lemma subclass_decides c d : is_Some (classes m !!z c) → ∃ b, IsSubclassOf m (u16 c) d = Ok b.
Proof.
  intros [row Hrow]. destruct (ro_chains _ _ Hro c row Hrow) as [l Hl]. pose proof (zlookup_Some_lt _ _ _ Hrow) as Hc.
  pose proof (ro_classes _ _ Hro). unfold IsSubclassOf. replace (i16 (u16 c)) with c.
  - eapply subclass_walk_supers; [exact Hl|]. pose proof (supers_length _ _ _ Hl). unfold walk_fuel. lia.
  - rewrite (wrap_small 16) by (unfold is_uint; lia). symmetry. apply (swrap_small 16); [lia|]. unfold is_sint. lia.
Qed.
Lemma FindClass_row name : ¬ FindClass m name < 0 → is_Some (classes m !!z FindClass m name).
Proof.
  unfold FindClass. destruct (list_find _ _) as [[i c]|] eqn:E; [|lia]. intros _. apply list_find_Some in E as (Hi & _).
  exists c. unfold zlookup. by rewrite decide_True, Nat2Z.id by lia.
Qed.
Lemma object_safe d s c : readers_safe d → sok s → is_Some (classes m !!z c) →
  reads_ref s (DeserializeClassFields fuel shard ty method d c s).
Proof.
  intros Hd K [declared Hdecl]. unfold DeserializeClassFields, reads_ref. eapply safely_bind; [by apply read_uint_safe; [|lia]|].
  intros [tag s1] [Sp1 _]. pose proof (proj1 Sp1) as R1. pose proof (rpost_sok _ _ _ K R1) as K1. cbn zeta.
  apply safely_if; intros H0; [by split; [|left]|].
  apply safely_if; intros H3.
  { destruct (bool_decide _); [|done]. eapply reads_ref_then; [exact R1|]. by apply (rs_tagged d Hd). }
  apply safely_if; intros H4.
  { destruct (bool_decide _); [|done]. eapply reads_ref_then; [exact R1|]. by apply ReadBoxedRecord_safe. }
  apply safely_if; intros H2; [eapply reads_ref_then; [exact R1|by apply back_ref]|].
  apply safely_if; intros H1; [done|].
  eapply safely_bind; [by apply name_safe|]. intros [name s2] [R2 _].
  pose proof (spent_more _ _ _ Sp1 R2) as Sp2. destruct (rpost_sok _ _ _ K1 R2) as (K2 & _).
  apply safely_if; intros Hneg; [done|]. pose proof (FindClass_row name Hneg) as [row Hrow]. set (ci := FindClass m name) in *.
  destruct (subclass_decides ci c ltac:(by exists row)) as [b ->]. rewrite bindE. destruct b; cbn [negb].
  2: { by rewrite Hdecl, derefE, bindE. }
  pose proof (zlookup_Some_lt _ _ _ Hrow) as Hci. pose proof (ro_classes _ _ Hro) as Hcl.
  rewrite (wrap_small 16) by (unfold is_uint; lia).
  assert (∃ fields, layout tbl !!z ci = Some fields) as [fields Hf].
  { apply zlookup_is_Some. rewrite (ro_layout _ _ Hro). lia. }
  destruct (AllocClass_grows fuel tbl (r_heap s2) shard ci fields (so_tables _ _ Hok) Hf (λ j x, so_fields _ _ Hok ci fields j x Hf)
    (rk_heap _ _ _ K2) (rk_shard _ _ _ K2)) as (v & g & r & -> & G & Hdead & Hv & Kv & Rv & Lv & _).
  rewrite bindE, Hf, derefE, bindE.
  destruct (new_ref s s2 g v K Sp2 G Hdead Hv (or_introl Kv)) as (R3 & K3 & Hl3). set (s3 := MkR g _ _) in *.
  assert (fillable v (1 + 2 * length fields) s3) as F by (split; [done|]; split; [done|by exists r]).
  eapply safely_bind; [apply (foldM_safely (filling v (1 + 2 * length fields) s3))|].
  - intros s4 i [_ Hi]%elem_of_seq Fi. destruct (fields !! i) as [f|] eqn:E. 2: { apply lookup_ge_None in E. lia. }
    rewrite derefE, bindE. eapply safely_weaken; [eapply field_safe; [done| |by eapply filling_fillable|]|].
    + split; cbn [fst snd]; intros Hkd; intros Hne.
      * eapply nests_row, (so_fields _ _ Hok ci fields i); [done|]. unfold cfield. rewrite E. cbn. unfold nested_struct.
        by rewrite decide_True.
      * apply (ro_class_rows _ _ Hro ci fields RTK_Class (Layout.structIdx f) (Layout.classIdx f)); [done| |done|done]. rewrite <- Hkd.
        eapply (list_elem_of_lookup_2 _ i). unfold class_rows. rewrite list_lookup_fmap, E. reflexivity.
    + pose proof (ArrayElemCells_range (u8 (Layout.kind f))). unfold row_cells. cbn [fst]. lia.
    + intros s'. by apply filling_trans.
  - split; [by apply rpost_refl|by exists r].
  - intros s' [R4 _]. cbn. split; [|right; eapply rstep_live; [apply R4|done]].
    eapply rpost_filled; [exact R3|exact R4|]. intros x <- Hx. apply Hdead. eapply rstep_live; [apply (proj1 Sp2)|done].
Qed.

(** *** Arrays *)
Lemma header_safe s : sok s → safely (λ '(kind, typeIdx, dims, s'), spent s s' ∧ is_uint 8 kind
    ∧ 1 ≤ Z.of_nat (length dims) ≤ kMaxArrayRank
    ∧ (kind = RTK_Struct → typeIdx ≠ 65535 ∧ is_Some (structs tbl !!z typeIdx))) (ReadArrayHeader ty method s).
Proof.
  intros K. unfold ReadArrayHeader. eapply safely_bind; [by apply read_uint_safe; [|lia]|]. intros [kind s1] [Sp1 Hkd].
  pose proof (rpost_sok _ _ _ K (proj1 Sp1)) as K1.
  eapply (safely_bind (λ '(typeIdx, s'), rpost nothing s1 s' ∧ (kind = RTK_Struct → typeIdx ≠ 65535 ∧ is_Some (structs tbl !!z typeIdx)))).
  { apply safely_if; intros Hs; [|by split; [apply rpost_refl|]].
    eapply safely_bind; [by apply name_safe|]. intros [name s2] [R2 _]. apply safely_if; intros Hneg; [done|]. split; [done|]. intros _.
    unfold FindStruct in *. destruct (list_find _ _) as [[i nm]|] eqn:E; [|lia]. apply list_find_Some in E as (Hi & _).
    apply lookup_lt_Some in Hi. rewrite (ro_names _ _ Hro) in Hi. pose proof (ro_structs _ _ Hro).
    rewrite (wrap_small 16) by (unfold is_uint; lia). split; [lia|]. apply zlookup_is_Some. lia. }
  intros [typeIdx s2] [R2 Hty]. pose proof (rpost_sok _ _ _ K1 R2) as K2.
  eapply safely_bind; [by apply read_uint_safe; [|lia]|]. intros [rank s3] [[R3 _] Hrank]. pose proof (rpost_sok _ _ _ K2 R3) as K3.
  apply safely_if; intros Hr; [done|].
  eapply (safely_bind (λ '(dims, s'), rpost nothing s3 s' ∧ length dims = Z.to_nat rank)).
  - cut (∀ n a acc s4, rpost nothing s3 s4 →
      safely (λ '(dims, s'), rpost nothing s3 s' ∧ length dims = (length acc + n)%nat)
        (foldM (λ '(dims, s) _, '(d, s) ← read_uint method 4 s; Ok (dims ++ [i32 d], s)) (acc, s4) (seq a n))).
    { intros H. apply (H _ _ [] s3). by apply rpost_refl. }
    induction n as [|n IH]; intros a acc s4 R4; [by split; [|cbn; lia]|]. cbn [seq foldM].
    pose proof (read_uint_safe 4 s4 (rpost_sok _ _ _ K3 R4) ltac:(lia)) as H. destruct (read_uint method 4 s4) as [[d s5]|]; [|done].
    rewrite !bindE. destruct H as [[R5 _] _]. eapply safely_weaken; [apply IH; by eapply rpost_then|].
    intros [dims s6] [? Hl]. split; [done|]. rewrite Hl, length_app. cbn. lia.
  - intros [dims s4] [R4 Hl]. cbn. split_and!; [|exact Hkd|lia|lia|by apply Hty].
    eapply spent_more; [exact Sp1|]. eapply rpost_then; [exact R2|]. by eapply rpost_then.
Qed.
(** The elements that are filled are the array's own cells, or structs made for it. *)
Definition filling_array (i : Z) (len : nat) (vs : list Z) (s s' : rstate) : Prop :=
  rpost (λ x, x = i ∨ x ∈ vs) s s' ∧ ∃ r, rec_at (r_heap s') i = Some r ∧ length r = len.
Lemma elements_filled i len vs s f n : fillable i len s →
  (∀ s1 k, (k < n)%nat → filling i len s s1 → safely (filling i len s1) (f s1 k)) →
  safely (filling_array i len vs s) (foldM f s (seq 0 n)).
Proof.
  intros F H. eapply safely_weaken; [apply (foldM_safely (filling i len s))|].
  - intros s1 k [_ Hk]%elem_of_seq Fi. eapply safely_weaken; [apply H; [lia|done]|]. intros s'. by apply filling_trans.
  - split; [apply rpost_refl, F|apply F].
  - intros s' [R Hr]. split; [|done]. eapply rpost_weaken; [exact R|]. intros x _ <-. by left.
Qed.
Lemma elements_safe d i kind typeIdx t dims payload s : readers_safe d → sok s → hlive (r_heap s) i →
  rec_at (r_heap s) i = Some (array_record t dims payload) → 1 ≤ Z.of_nat (length dims) ≤ kMaxArrayRank → 0 ≤ product dims →
  length payload = Z.to_nat (product dims * ArrayElemCells kind) → kind_at (r_heap s) i = Some RTK_Array →
  (kind = RTK_Struct → Forall (struct_slot tbl (r_heap s) typeIdx) payload) →
  safely (filling_array i (length (array_record t dims payload)) (if decide (kind = RTK_Struct) then payload else []) s)
    (ReadArrayElements shard method d i kind typeIdx (product dims) s).
Proof.
  intros Hd K Hi Hr Hrank Hp0 Hpl Hk Hs. destruct (array_record_fields t dims payload) as (_ & G2 & _ & _ & G5 & G6).
  pose proof (header_cells (length dims)) as [Hh Hh4]. pose proof (ArrayElemCells_range kind) as Hcells.
  set (r := array_record t dims payload) in *. set (base := Z.to_nat (ArrayHeaderCells (Z.of_nat (length dims)))).
  assert (base = HeaderCells (length dims)) as Hbase by (unfold base; lia).
  assert (fillable i (length r) s) as F by (split; [done|]; split; [done|by exists r]).
  unfold ReadArrayElements, get_cell. rewrite Hr, derefE, bindE, G2, derefE, bindE, rank_u8 by lia. cbn zeta. fold base.
  destruct (ScalarPrimIndexOfRtk kind) as [[j row]|] eqn:Hrow.
  - apply elements_filled; [done|]. intros s1 k Hlt Fi. pose proof (filling_fillable _ _ _ _ F Fi) as F1.
    assert (scalar_cells (slotWidth row) = Z.to_nat (ArrayElemCells kind)) as Hsc.
    { unfold scalar_cells, ArrayElemCells. rewrite Hrow. case_decide; lia. }
    pose proof (put_scalar_safe s1 i (Z.to_nat (ArrayHeaderCells (Z.of_nat (length dims)) + Z.of_nat k * ArrayElemCells kind)) (slotWidth row) (length r) F1
      ltac:(by eapply registry_width) ltac:(rewrite Hsc, G5, Hpl; nia)) as H.
    destruct (read method (slotWidth row) s1) as [[bs s2]|]; [|done]. rewrite !bindE in *. by rewrite owner_cell, bindE by lia.
  - apply safely_if; intros Hstr.
    { apply elements_filled; [done|]. intros s1 k Hlt Fi. pose proof (filling_fillable _ _ _ _ F Fi) as F1.
      apply store_ref; [done|rewrite G5, Hpl; nia|]. apply ReadText_safe, F1. }
    apply safely_if; intros Hst; [|done]. rewrite decide_True by done.
    assert (length payload = Z.to_nat (product dims)) as Hpl' by (rewrite Hpl, Hst; change (ArrayElemCells RTK_Struct) with 1; lia).
    specialize (Hs Hst).
    eapply safely_weaken; [apply (foldM_safely (λ s', rpost (λ x, x ∈ payload) s s' ∧ Forall (struct_slot tbl (r_heap s') typeIdx) payload))|].
    + intros s1 k [_ Hlt]%elem_of_seq [R1 Hs1]. destruct (lookup_lt_is_Some_2 payload k) as [v Hv]; [lia|].
      assert (¬ (i ∈ payload)) as Hni.
      { intros Hin. rewrite list.Forall_forall in Hs. destruct (Hs i Hin) as (_ & Hki & _). by rewrite Hk in Hki. }
      pose proof (rstep_rec _ _ _ _ _ _ _ _ (rp_step _ _ _ R1) Hi Hni Hr) as Hr1.
      rewrite Hr1, derefE, bindE, Hbase, <- lookup_drop, G6, Hv, derefE, bindE.
      assert (struct_slot tbl (r_heap s1) typeIdx v) as Hsv.
      { rewrite list.Forall_forall in Hs1. by eapply Hs1, list_elem_of_lookup_2. }
      eapply safely_weaken; [apply (rs_struct d Hd); [by eapply rpost_sok|exact Hsv]|].
      intros s' [R2 Hv']. split.
      * eapply rpost_trans; [exact R1|exact R2|]. intros x _ [?|<-]; [done|by eapply list_elem_of_lookup_2].
      * rewrite list.Forall_forall in Hs1 |- *. intros x Hx. destruct (decide (x = v)) as [->|Hne]; [done|].
        eapply struct_slot_same; [|by apply Hs1]. apply (rs_same _ _ _ _ _ _ (rp_step _ _ _ R2)); [|congruence].
        by eapply struct_slot_live, Hs1.
    + split; [by apply rpost_refl|done].
    + intros s' [R _]. split; [eapply rpost_weaken; [exact R|]; intros x _ ?; by right|].
      exists r. split; [|done]. eapply rstep_rec; [apply R|done| |done]. intros Hin. rewrite list.Forall_forall in Hs.
      destruct (Hs i Hin) as (_ & Hki & _). by rewrite Hk in Hki.
Qed.
Lemma FindArray_cases kind typeIdx rank : (∃ msg, FindArrayTypeDef tbl kind typeIdx rank = Raise (RuntimeError msg))
  ∨ ∃ t, FindArrayTypeDef tbl kind typeIdx rank = Ok t ∧ arrayTypes tbl !!z t = Some (MkArrayType kind typeIdx rank).
Proof.
  unfold FindArrayTypeDef. destruct (list_find _ _) as [[i a]|] eqn:E; [right|left; by eexists].
  apply list_find_Some in E as (Hi & (<- & <- & <-) & _). pose proof (lookup_lt_Some _ _ _ Hi). pose proof (ro_arrays _ _ Hro).
  eexists. split; [done|]. rewrite (wrap_small 16) by (unfold is_uint; lia). unfold zlookup. rewrite decide_True, Nat2Z.id, Hi by lia.
  by destruct a.
Qed.
Lemma tagged_safe d s tag : readers_safe d → sok s → reads_ref s (DeserializeArrayRecordTagged fuel shard ty method d tag s).
Proof.
  intros Hd K. unfold DeserializeArrayRecordTagged, reads_ref. apply safely_if; intros H0; [by split; [apply rpost_refl|left]|].
  apply safely_if; intros H2; [by apply back_ref|]. apply safely_if; intros H3; [done|].
  eapply safely_bind; [by apply header_safe|]. intros [[[kind typeIdx] dims] s1] (Sp & Hkd & Hrank & Hty).
  destruct (rpost_sok _ _ _ K (proj1 Sp)) as (K1 & _).
  destruct (FindArray_cases kind typeIdx (Z.of_nat (length dims))) as [[msg ->]|(t & -> & Hat)]; [done|]. rewrite bindE.
  destruct (ValidateArrayDims_cases dims) as [(size & Ev & Hsize & Hsz & _)|[Ev _]].
  2: { unfold AllocArrayOnHeap. rewrite Hat, Ev. done. }
  destruct (AllocArray_grows fuel tbl (r_heap s1) shard t _ dims size (rk_heap _ _ _ K1) (rk_shard _ _ _ K1) Hat ltac:(lia) Ev)
    as (i & g & payload & -> & G & Hdead & Hi & Ki & Ri & Hpl & Hel).
  { cbn [elemKind elemTypeIdx]. intros Hs _. destruct (Hty Hs) as (_ & [cs Hcs]). split_and!; [apply Hok|exact (so_nests _ _ Hok typeIdx cs Hcs)|by exists cs]. }
  cbn [elemKind elemTypeIdx] in *. rewrite bindE.
  destruct (new_ref s s1 g i K Sp G Hdead Hi (or_intror Ki)) as (R2 & K2 & Hl2). set (s2 := MkR g _ _) in *.
  destruct (array_record_fields t dims payload) as (_ & _ & G3 & _).
  unfold get_cell. rewrite Ri, derefE, bindE, G3, derefE, bindE. rewrite Hsize in Hpl, Hsz.
  assert (kind = RTK_Struct → Forall (λ v, struct_slot tbl g typeIdx v ∧ ¬ hlive (r_heap s1) v) payload) as Hnew.
  { intros Hs. by destruct (Hel Hs (proj1 (Hty Hs))) as (_ & _ & ?). }
  eapply safely_bind; [apply (elements_safe d i kind typeIdx t dims payload s2); try done; [lia|]|].
  { intros Hs. eapply list.Forall_impl; [by apply Hnew|]. by intros x [? _]. }
  intros s3 [R3 _]. cbn. split; [|right; eapply rstep_live; [apply R3|done]].
  eapply rpost_filled; [exact R2|exact R3|]. intros x Hx Hlx. apply (rstep_live _ _ _ _ _ _ x (rp_step _ _ _ (proj1 Sp))) in Hlx.
  destruct Hx as [->|Hx]; [done|]. case_decide as Hs; [|by apply not_elem_of_nil in Hx]. pose proof (Hnew Hs) as Hf.
  rewrite list.Forall_forall in Hf. by apply (Hf x).
Qed.

(** ** Every depth *)
Lemma readers_all_safe room : readers_safe (DeserializeAt fuel shard ty method room).
Proof.
  induction room as [|room IH]; cbn [DeserializeAt].
  - split; cbn; try done. intros s K. unfold DeserializeArrayRecord, reads_ref. eapply safely_bind; [by apply read_uint_safe; [|lia]|]. by intros [tag s1] _.
  - split; cbn [de_struct de_class de_array de_tagged].
    + intros s v si. by apply struct_safe.
    + intros s c. by apply object_safe.
    + intros s K. unfold DeserializeArrayRecord, reads_ref. eapply safely_bind; [by apply read_uint_safe; [|lia]|]. intros [tag s1] [[R _] _].
      eapply reads_ref_then; [exact R|]. apply tagged_safe; [done|by eapply rpost_sok].
    + intros s tag. by apply tagged_safe.
Qed.
End Safe.

(** C23: Whatever bytes a stream holds, and whatever it has been read before, reading a class
    instance or an array ends, within [STRUCT_SERIALIZE_DEPTH_LIMIT] levels, in an error that
    the machine reports or in a reference that is null or alive: no record or table is
    accessed out of bounds, what was alive and the strings in use are unchanged, the
    identities given before still name the same objects, the reader consumes the stream from
    the front, and its state is fit for the next read. *)
Theorem any_bytes_read_safely fuel shard ty method declared s : reads_ok fuel ty → (1 ≤ fuel)%nat →
  (∀ d, declared = Some d → is_Some (classes (rows_of ty) !!z d)) → sok shard s →
  match ref_reader fuel shard ty method STRUCT_SERIALIZE_DEPTH_LIMIT declared s with
  | Ok (v, s') => sok shard s' ∧ (v = 0 ∨ hlive (r_heap s') v) ∧ hextends (r_heap s) (r_heap s')
      ∧ extends (strs (r_heap s)) (strs (r_heap s')) ∧ r_in s' `suffix_of` r_in s
      ∧ deserializeObjIds (r_ids s) ⊆ deserializeObjIds (r_ids s')
  | Raise e => vm_raised e
  end.
Proof.
  intros Hro Hf Hd K. assert (reads_ref shard s (ref_reader fuel shard ty method STRUCT_SERIALIZE_DEPTH_LIMIT declared s)) as H.
  { destruct declared as [d|]; apply (readers_all_safe fuel shard ty method Hro Hf); [done|by apply Hd|done]. }
  unfold reads_ref, safely in H. destruct (ref_reader _ _ _ _ _ _ _) as [[v s']|]; [|done]. destruct H as [R Hv].
  split_and!; [by eapply rpost_sok|exact Hv| |apply R|apply R|apply R]. intros x Hx. apply (rs_same _ _ _ _ _ _ (rp_step _ _ _ _ R) x Hx); by intros [].
Qed.
Lemma node_reads_ok : reads_ok 1 node_rows.
Proof.
  split; [apply node_streams_ok|by vm_compute|by vm_compute|by vm_compute|by vm_compute|by vm_compute|..].
  - intros c row Hc. assert (c = 0 ∨ c = 1) as [-> | ->] by (apply zlookup_Some_lt in Hc; simpl in Hc; lia).
    + exists [0]. by apply (supers_root _ 0 (MkClassRow (bytes_of "Object") (-1) [])).
    + exists [1; 0]. apply (supers_link _ 1 (MkClassRow (bytes_of "Node") 0 [])); [done|done|].
      by apply (supers_root _ 0 (MkClassRow (bytes_of "Object") (-1) [])).
  - intros s k si ci Hin. unfold struct_rows in Hin. destruct (structs (md (rows_of node_rows)) !!z s) as [cs|] eqn:E;
      [apply zlookup_Some_lt in E; simpl in E; lia|by apply not_elem_of_nil in Hin].
  - intros c fields k si ci Hl Hin _ Hk. assert (c = 0 ∨ c = 1) as [-> | ->] by (apply zlookup_Some_lt in Hl; simpl in Hl; lia).
    + injection Hl as <-. by apply not_elem_of_nil in Hin.
    + injection Hl as <-. unfold class_rows in Hin. cbn in Hin.
      repeat (apply elem_of_cons in Hin as [[= -> -> ->]|Hin]; [first [discriminate Hk | by eexists]|]). by apply not_elem_of_nil in Hin.
Qed.
(** A record of a [Node] that is cut short. *)
Definition cut_short : rstate := MkR demo_heap ClearObjIdState [1; 4; 0; 0; 0; 78; 111; 100; 101; 5].
Lemma any_bytes_read_safely_witness :
  match ref_reader 1 0 node_rows "ReadObject" STRUCT_SERIALIZE_DEPTH_LIMIT (Some 1) cut_short with
  | Ok (v, s') => sok 0 s' ∧ (v = 0 ∨ hlive (r_heap s') v) ∧ hextends (r_heap cut_short) (r_heap s')
      ∧ extends (strs (r_heap cut_short)) (strs (r_heap s')) ∧ r_in s' `suffix_of` r_in cut_short
      ∧ deserializeObjIds (r_ids cut_short) ⊆ deserializeObjIds (r_ids s')
  | Raise e => vm_raised e
  end.
Proof.
  apply (any_bytes_read_safely 1 0 node_rows "ReadObject" (Some 1) cut_short node_reads_ok (Nat.le_refl 1)).
  - intros d [= <-]. by eexists.
  - split; [apply (start_rok 1); [done|apply demo_heap_ok|apply demo_heap_ok]|]. split; [done|]. split; [done|].
    repeat constructor; by vm_compute.
Defined.
