(* ===== verification/Channels.v ===== *)
(** * Channels

    Models [IntrinsicsChannel.cpp]: the slot of the side table, the registration
    sections of send, recv and close, the two rechecks, and the allocation.  A result
    pointer is a [nat]; what a section writes through such pointers is part of its
    result.  The exception objects that close builds are arguments. *)
From S2P Require Import Prelude Heap SchedState ParkIface SyncPrims.
Open Scope Z_scope.

Inductive ChanPhase := chPending | chValue | chClosed | chCommitted.
#[export] Instance ChanPhase_eq_dec : EqDecision ChanPhase.
Proof. solve_decision. Defined.

Record ChannelWaiter := { cw_contextId : nat; cw_resultPtr : nat; cw_phase : ChanPhase }.
Record PendingSend := { ps_value : Z; ps_senderId : nat; ps_phase : ChanPhase }.
Record ChannelSlot := {
  ch_buffered : list Z;
  ch_waiters : list ChannelWaiter;
  ch_closed : bool;
  ch_capacity : Z;
  ch_pending : list PendingSend;
}.

Definition kChannelUnboundedCapacity : Z := 0.

(** A new slot, with the capacity the allocator writes into it. *)
Definition ChannelSlot0 (capacity : Z) : ChannelSlot :=
  {| ch_buffered := []; ch_waiters := []; ch_closed := false; ch_capacity := capacity;
     ch_pending := [] |}.

(** The constructors refuse a negative capacity; the zero-argument one passes the
    unbounded constant. *)
Definition IntrinsicChannelCtorAlloc (h : heap) (t : SideTable ChannelSlot) (thisIdx capacity : Z) :
    outcome (heap * SideTable ChannelSlot) :=
  if decide (thisIdx ≤ 0 ∨ Z.of_nat (length (m_structHeap h)) ≤ thisIdx)
  then Raise (NlangExc ExcNullPtr "NLang VM: null reference in Channel constructor")
  else if decide (capacity < kChannelUnboundedCapacity)
  then Raise (NlangExc ExcBase "channel capacity must be 0 (unbounded) or at least 1")
  else
    let '(t, handle) := AllocHandle (ChannelSlot0 capacity) t in
    h ← set_cell h thisIdx 1 handle; Ok (h, t).
Definition IntrinsicChannelCtorUnbounded (h : heap) (t : SideTable ChannelSlot) (thisIdx : Z) :
    outcome (heap * SideTable ChannelSlot) :=
  IntrinsicChannelCtorAlloc h t thisIdx kChannelUnboundedCapacity.

(** What a section leaves to do after the release of the domain. *)
Record chan_result := {
  cr_writes : list (nat * Z);        (* values written through result pointers *)
  cr_wakes : list (nat * Z);         (* contexts to wake, with the exception to arm *)
  cr_park : bool;                    (* the caller is registered and must park *)
}.
Definition wake_of (o : option nat) : list (nat * Z) :=
  match o with Some c => [(c, 0)] | None => [] end.

(** [HandoffToLiveWaiter]: pointer written and context to wake. *)
Fixpoint HandoffToLiveWaiter (waiters : list ChannelWaiter) :
    list ChannelWaiter * option (nat * option nat) :=
  match waiters with
  | [] => ([], None)
  | w :: rest =>
      match cw_phase w with
      | chCommitted => (rest, Some (cw_resultPtr w, Some (cw_contextId w)))
      | chPending => ({| cw_contextId := cw_contextId w; cw_resultPtr := cw_resultPtr w;
                         cw_phase := chValue |} :: rest, Some (cw_resultPtr w, None))
      | _ => let '(rest, r) := HandoffToLiveWaiter rest in (w :: rest, r)
      end
  end.

(** [StagePendingSend]: the value moved into the buffer and the sender to wake. *)
Fixpoint StagePendingSend (pending : list PendingSend) :
    list PendingSend * option (Z * option nat) :=
  match pending with
  | [] => ([], None)
  | p :: rest =>
      match ps_phase p with
      | chPending => ({| ps_value := ps_value p; ps_senderId := ps_senderId p;
                         ps_phase := chValue |} :: rest, Some (ps_value p, None))
      | chCommitted => (rest, Some (ps_value p, Some (ps_senderId p)))
      | _ => let '(rest, r) := StagePendingSend rest in (p :: rest, r)
      end
  end.

Definition ChannelSend (selfId : nat) (value : Z) (allowed : bool) (s : ChannelSlot) :
    outcome (ChannelSlot * chan_result) :=
  if ch_closed s then Raise (NlangExc ExcChannelClosed "send on a closed channel") else
  match HandoffToLiveWaiter (ch_waiters s) with
  | (waiters, Some (ptr, wake)) =>
      Ok ({| ch_buffered := ch_buffered s; ch_waiters := waiters; ch_closed := ch_closed s;
             ch_capacity := ch_capacity s; ch_pending := ch_pending s |},
          {| cr_writes := [(ptr, value)]; cr_wakes := wake_of wake; cr_park := false |})
  | (_, None) =>
      if decide (0 < ch_capacity s ∧ ch_capacity s ≤ Z.of_nat (length (ch_buffered s))) then
        if allowed then
          Ok ({| ch_buffered := ch_buffered s; ch_waiters := ch_waiters s;
                 ch_closed := ch_closed s; ch_capacity := ch_capacity s;
                 ch_pending := ch_pending s ++ [{| ps_value := value; ps_senderId := selfId;
                                                   ps_phase := chPending |}] |},
              {| cr_writes := []; cr_wakes := []; cr_park := true |})
        else Raise SuspensionRefused
      else
        Ok ({| ch_buffered := ch_buffered s ++ [value]; ch_waiters := ch_waiters s;
               ch_closed := ch_closed s; ch_capacity := ch_capacity s;
               ch_pending := ch_pending s |},
            {| cr_writes := []; cr_wakes := []; cr_park := false |})
  end.

Definition ChannelRecv (selfId resultPtr : nat) (allowed : bool) (s : ChannelSlot) :
    outcome (ChannelSlot * chan_result) :=
  match ch_buffered s with
  | value :: buffered =>
      let '(pending, staged) := StagePendingSend (ch_pending s) in
      Ok ({| ch_buffered := buffered ++ match staged with Some (v, _) => [v] | None => [] end;
             ch_waiters := ch_waiters s; ch_closed := ch_closed s; ch_capacity := ch_capacity s;
             ch_pending := pending |},
          {| cr_writes := [(resultPtr, value)];
             cr_wakes := match staged with Some (_, w) => wake_of w | None => [] end;
             cr_park := false |})
  | [] =>
      if ch_closed s then Raise (NlangExc ExcChannelClosed "recv on a closed and drained channel")
      else if allowed then
        Ok ({| ch_buffered := []; ch_waiters := ch_waiters s ++ [{| cw_contextId := selfId;
                 cw_resultPtr := resultPtr; cw_phase := chPending |}];
               ch_closed := ch_closed s; ch_capacity := ch_capacity s;
               ch_pending := ch_pending s |},
            {| cr_writes := []; cr_wakes := []; cr_park := true |})
      else Raise SuspensionRefused
  end.

(** [CollectClosedRecvOutcomes]: what is left of the buffer and of the waiters, the
    writes, the waiters that got a value, and those that get the exception. *)
Fixpoint CollectClosedRecvOutcomes (buffered : list Z) (waiters : list ChannelWaiter) :
    list Z * list ChannelWaiter * list (nat * Z) * list nat * list nat :=
  match waiters with
  | [] => (buffered, [], [], [], [])
  | w :: rest =>
      match cw_phase w, buffered with
      | chCommitted, v :: buffered =>
          let '(b, ws, wr, valueWoken, closedRecvs) := CollectClosedRecvOutcomes buffered rest in
          (b, ws, (cw_resultPtr w, v) :: wr, cw_contextId w :: valueWoken, closedRecvs)
      | chCommitted, [] =>
          let '(b, ws, wr, valueWoken, closedRecvs) := CollectClosedRecvOutcomes [] rest in
          (b, ws, wr, valueWoken, cw_contextId w :: closedRecvs)
      | chPending, v :: buffered =>
          let '(b, ws, wr, valueWoken, closedRecvs) := CollectClosedRecvOutcomes buffered rest in
          (b, {| cw_contextId := cw_contextId w; cw_resultPtr := cw_resultPtr w;
                 cw_phase := chValue |} :: ws, (cw_resultPtr w, v) :: wr, valueWoken, closedRecvs)
      | chPending, [] =>
          let '(b, ws, wr, valueWoken, closedRecvs) := CollectClosedRecvOutcomes [] rest in
          (b, {| cw_contextId := cw_contextId w; cw_resultPtr := cw_resultPtr w;
                 cw_phase := chClosed |} :: ws, wr, valueWoken, closedRecvs)
      | _, _ =>
          let '(b, ws, wr, valueWoken, closedRecvs) := CollectClosedRecvOutcomes buffered rest in
          (b, w :: ws, wr, valueWoken, closedRecvs)
      end
  end.

Fixpoint CollectClosedSenders (pending : list PendingSend) : list PendingSend * list nat :=
  match pending with
  | [] => ([], [])
  | p :: rest =>
      let '(rest, closedSenders) := CollectClosedSenders rest in
      match ps_phase p with
      | chCommitted => (rest, ps_senderId p :: closedSenders)
      | chPending => ({| ps_value := ps_value p; ps_senderId := ps_senderId p;
                         ps_phase := chClosed |} :: rest, closedSenders)
      | _ => (p :: rest, closedSenders)
      end
  end.

(** The wakes come in the order of [WakeClosedWaiters] and of the loop after it. *)
Definition ChannelClose (recvExc sendExc : Z) (s : ChannelSlot) : ChannelSlot * chan_result :=
  if ch_closed s then (s, {| cr_writes := []; cr_wakes := []; cr_park := false |}) else
  let '(buffered, waiters, writes, valueWoken, closedRecvs) :=
    CollectClosedRecvOutcomes (ch_buffered s) (ch_waiters s) in
  let '(pending, closedSenders) := CollectClosedSenders (ch_pending s) in
  ({| ch_buffered := buffered; ch_waiters := waiters; ch_closed := true;
      ch_capacity := ch_capacity s; ch_pending := pending |},
   {| cr_writes := writes;
      cr_wakes := ((λ c, (c, recvExc)) <$> closedRecvs) ++ ((λ c, (c, sendExc)) <$> closedSenders)
                  ++ ((λ c, (c, 0)) <$> valueWoken);
      cr_park := false |}).

(** The rechecks: the park commits, or the stamp is consumed with its outcome. *)
Inductive abort_outcome := Commits | AbortValue | AbortClosed.
#[export] Instance abort_outcome_eq_dec : EqDecision abort_outcome.
Proof. solve_decision. Defined.

Definition stamp_outcome (p : ChanPhase) : abort_outcome :=
  if decide (p = chClosed) then AbortClosed else AbortValue.

Fixpoint recheck_waiters (selfId : nat) (waiters : list ChannelWaiter) :
    outcome (list ChannelWaiter * abort_outcome) :=
  match waiters with
  | [] => Raise (RuntimeError "NLang VM: channel waiter entry vanished")
  | w :: rest =>
      if decide (cw_contextId w ≠ selfId) then
        '(rest, r) ← recheck_waiters selfId rest; Ok (w :: rest, r)
      else if decide (cw_phase w = chPending) then
        Ok ({| cw_contextId := selfId; cw_resultPtr := cw_resultPtr w;
               cw_phase := chCommitted |} :: rest, Commits)
      else Ok (rest, stamp_outcome (cw_phase w))
  end.

Fixpoint recheck_pending (selfId : nat) (pending : list PendingSend) :
    outcome (list PendingSend * abort_outcome) :=
  match pending with
  | [] => Raise (RuntimeError "NLang VM: channel sender entry vanished")
  | p :: rest =>
      if decide (ps_senderId p ≠ selfId) then
        '(rest, r) ← recheck_pending selfId rest; Ok (p :: rest, r)
      else if decide (ps_phase p = chPending) then
        Ok ({| ps_value := ps_value p; ps_senderId := selfId; ps_phase := chCommitted |} :: rest,
            Commits)
      else Ok (rest, stamp_outcome (ps_phase p))
  end.

Definition CommitOrAbortChanRecv (selfId : nat) (s : ChannelSlot) :
    outcome (ChannelSlot * abort_outcome) :=
  '(waiters, r) ← recheck_waiters selfId (ch_waiters s);
  Ok ({| ch_buffered := ch_buffered s; ch_waiters := waiters; ch_closed := ch_closed s;
         ch_capacity := ch_capacity s; ch_pending := ch_pending s |}, r).

Definition CommitOrAbortChanSend (selfId : nat) (s : ChannelSlot) :
    outcome (ChannelSlot * abort_outcome) :=
  '(pending, r) ← recheck_pending selfId (ch_pending s);
  Ok ({| ch_buffered := ch_buffered s; ch_waiters := ch_waiters s; ch_closed := ch_closed s;
         ch_capacity := ch_capacity s; ch_pending := pending |}, r).
