(* ===== verification/ChannelSpec.v ===== *)
(** * Channels are bounded first-in first-out queues

    The mailboxes of a channel and what each section does to them, the slot invariant
    (nobody waits without cause), the instance of the parking interface, and the
    refinement: over any history, what was sent is what was received, then what is
    queued, then what close dropped. *)
From S2P Require Import Prelude Heap SchedState ParkIface SyncPrims Channels.
Open Scope Z_scope.

(** ** Mailboxes as an association list *)

Definition assoc_mail (l : list (nat * mail)) (c : nat) : option mail :=
  snd <$> (snd <$> list_find (λ e, e.1 = c) l).

Lemma assoc_mail_cons e l c :
  assoc_mail (e :: l) c = if decide (e.1 = c) then Some e.2 else assoc_mail l c.
Proof.
  unfold assoc_mail. simpl. case_decide; [done|]. by destruct (list_find _ l) as [[? ?]|].
Qed.
Lemma assoc_mail_None l c : assoc_mail l c = None ↔ (c ∉ l.*1).
Proof.
  induction l as [|e l IH]; [by split; [intros _ ?%not_elem_of_nil|]|].
  rewrite assoc_mail_cons, fmap_cons, not_elem_of_cons. case_decide; naive_solver.
Qed.
Lemma assoc_mail_Some l c m : NoDup l.*1 → (assoc_mail l c = Some m ↔ (c, m) ∈ l).
Proof.
  induction l as [|[d n] l IH]; [by split; [|intros ?%not_elem_of_nil]|].
  rewrite fmap_cons, assoc_mail_cons, elem_of_cons. cbn [fst snd].
  intros [Hd N]%list.NoDup_cons. destruct (decide (d = c)) as [->|Hne].
  - split; [intros [= ->]; by left|intros [[= ->]|Hin]; [done|]].
    destruct Hd. by apply (list_elem_of_fmap_2 fst) in Hin.
  - rewrite IH by done. naive_solver.
Qed.
Lemma assoc_mail_perm l l' c : NoDup l.*1 → l ≡ₚ l' → assoc_mail l c = assoc_mail l' c.
Proof.
  intros N E. assert (NoDup l'.*1) as N' by (by rewrite <- E).
  destruct (assoc_mail l' c) as [m|] eqn:Ha.
  - apply assoc_mail_Some in Ha; [|done]. apply assoc_mail_Some; [done|]. by rewrite E.
  - apply assoc_mail_None in Ha. apply assoc_mail_None. by rewrite E.
Qed.

Definition mail_phase (p : ChanPhase) : mail :=
  match p with chPending => MPending | chCommitted => MCommitted | _ => MStamped end.
Definition wmail (w : ChannelWaiter) : nat * mail := (cw_contextId w, mail_phase (cw_phase w)).
Definition pmail (p : PendingSend) : nat * mail := (ps_senderId p, mail_phase (ps_phase p)).
Definition mails (s : ChannelSlot) : list (nat * mail) :=
  (wmail <$> ch_waiters s) ++ (pmail <$> ch_pending s).

Definition dead (p : ChanPhase) : Prop := mail_phase p = MStamped.
#[export] Instance dead_dec p : Decision (dead p) := decide (mail_phase p = MStamped).
Definition dead_w (w : ChannelWaiter) : Prop := dead (cw_phase w).
Definition dead_p (p : PendingSend) : Prop := dead (ps_phase p).

(** The values of the senders in line, first come first. *)
Definition live_values (pending : list PendingSend) : list Z :=
  ps_value <$> filter (λ p, ¬ dead (ps_phase p)) pending.

Lemma live_values_app l1 l2 : live_values (l1 ++ l2) = live_values l1 ++ live_values l2.
Proof. unfold live_values. by rewrite list.filter_app, fmap_app. Qed.
Lemma live_values_cons p l :
  live_values (p :: l) = (if decide (dead (ps_phase p)) then [] else [ps_value p]) ++ live_values l.
Proof. unfold live_values. rewrite filter_cons. repeat case_decide; tauto. Qed.
Lemma live_values_dead l : Forall dead_p l → live_values l = [].
Proof. induction 1 as [|p l Hp _ IH]; [done|]. by rewrite live_values_cons, decide_True, IH. Qed.
Lemma live_values_nil l : live_values l = [] → Forall dead_p l.
Proof.
  induction l as [|p l IH]; [done|]. rewrite live_values_cons. case_decide; [|done].
  intros Hn. constructor; [done|by apply IH].
Qed.

(** ** The two hand-offs *)

Lemma HandoffToLiveWaiter_cases ws :
  (HandoffToLiveWaiter ws = (ws, None) ∧ Forall dead_w ws) ∨
  ∃ d w rest, ws = d ++ w :: rest ∧ Forall dead_w d ∧
    ((cw_phase w = chCommitted ∧
      HandoffToLiveWaiter ws = (d ++ rest, Some (cw_resultPtr w, Some (cw_contextId w)))) ∨
     (cw_phase w = chPending ∧
      HandoffToLiveWaiter ws =
        (d ++ {| cw_contextId := cw_contextId w; cw_resultPtr := cw_resultPtr w; cw_phase := chValue |}
           :: rest, Some (cw_resultPtr w, None)))).
Proof.
  induction ws as [|w ws IH]; [by left|]. cbn [HandoffToLiveWaiter].
  destruct (cw_phase w) eqn:Ew; [right; exists [], w, ws; naive_solver|..|right; exists [], w, ws; naive_solver].
  all: assert (dead_w w) as Hw by (unfold dead_w; by rewrite Ew).
  all: destruct IH as [[-> H]|(d & v & rest & -> & Hd & H)]; [left; by auto|right].
  all: exists (w :: d), v, rest; split_and!; [done|by constructor|].
  all: destruct H as [[? ->]|[? ->]]; [left|right]; done.
Qed.

Lemma StagePendingSend_cases ps :
  (StagePendingSend ps = (ps, None) ∧ Forall dead_p ps) ∨
  ∃ d p rest, ps = d ++ p :: rest ∧ Forall dead_p d ∧
    ((ps_phase p = chCommitted ∧
      StagePendingSend ps = (d ++ rest, Some (ps_value p, Some (ps_senderId p)))) ∨
     (ps_phase p = chPending ∧
      StagePendingSend ps =
        (d ++ {| ps_value := ps_value p; ps_senderId := ps_senderId p; ps_phase := chValue |} :: rest,
         Some (ps_value p, None)))).
Proof.
  induction ps as [|p ps IH]; [by left|]. cbn [StagePendingSend].
  destruct (ps_phase p) eqn:Ep; [right; exists [], p, ps; naive_solver|..|right; exists [], p, ps; naive_solver].
  all: assert (dead_p p) as Hp by (unfold dead_p; by rewrite Ep).
  all: destruct IH as [[-> H]|(d & v & rest & -> & Hd & H)]; [left; by auto|right].
  all: exists (p :: d), v, rest; split_and!; [done|by constructor|].
  all: destruct H as [[? ->]|[? ->]]; [left|right]; done.
Qed.

(** Staging takes the first value in line. *)
Lemma StagePendingSend_line ps :
  live_values ps = match (StagePendingSend ps).2 with Some (v, _) => [v] | None => [] end
                   ++ live_values (StagePendingSend ps).1.
Proof.
  destruct (StagePendingSend_cases ps) as [[-> _]|(d & p & rest & -> & Hd & [[Ep ->]|[Ep ->]])]; [done|..];
    simpl; rewrite !live_values_app, (live_values_dead d Hd), !live_values_cons, Ep; done.
Qed.

(** ** The slot invariant *)

Definition full (s : ChannelSlot) : Prop :=
  0 < ch_capacity s ≤ Z.of_nat (length (ch_buffered s)).
#[export] Instance full_dec s : Decision (full s).
Proof. unfold full. apply _. Defined.

Record chan_ok (s : ChannelSlot) : Prop := {
  (* receivers wait only on an empty buffer *)
  co_recv : ch_buffered s ≠ [] → Forall dead_w (ch_waiters s);
  (* senders wait only on a full one *)
  co_send : ¬ full s → Forall dead_p (ch_pending s);
  (* nobody waits on a closed channel *)
  co_closed : ch_closed s = true → Forall dead_w (ch_waiters s) ∧ Forall dead_p (ch_pending s);
  co_bound : 0 < ch_capacity s → Z.of_nat (length (ch_buffered s)) ≤ ch_capacity s;
}.

(** The abstract queue. *)
Definition queue (s : ChannelSlot) : list Z := ch_buffered s ++ live_values (ch_pending s).

Lemma chan_ok_empty s : chan_ok s → ch_buffered s = [] → queue s = [].
Proof.
  intros H E. unfold queue. rewrite E, live_values_dead; [done|]. apply H.
  unfold full. rewrite E. simpl. lia.
Qed.

Lemma send_ok c v al s s' r :
  chan_ok s → ChannelSend c v al s = Ok (s', r) →
  chan_ok s' ∧ ch_closed s = false ∧ ch_closed s' = false ∧
  match cr_writes r with
  | [] => queue s' = queue s ++ [v]
  | [(_, u)] => u = v ∧ queue s = [] ∧ queue s' = []
  | _ => False
  end.
Proof.
  intros I. unfold ChannelSend. destruct (ch_closed s) eqn:Ec; [done|].
  destruct (HandoffToLiveWaiter_cases (ch_waiters s)) as [[-> Hd]|(d & w & rest & E & Hd & H)].
  - case_decide as Hf.
    + destruct al; [|done]. intros [= <- <-]. simpl. split_and!; try done.
      * split; simpl; [done| |done|apply I]. intros []. exact Hf.
      * unfold queue. simpl. by rewrite live_values_app, app_assoc.
    + intros [= <- <-]. simpl. split_and!; try done.
      * assert (Forall dead_p (ch_pending s)) as Hp by (by apply I).
        split; simpl; [done|done|done|]. intros Hcap. rewrite length_app. simpl. lia.
      * unfold queue. simpl. rewrite live_values_dead, !app_nil_r; [done|by apply I].
  - assert (ch_buffered s = []) as Eb.
    { destruct (ch_buffered s) eqn:Eb; [done|]. exfalso.
      pose proof (co_recv s I) as Hr. rewrite Eb, E in Hr. specialize (Hr ltac:(done)).
      apply Forall_app in Hr as [_ Hr]. apply Forall_cons_1 in Hr as [Hr _].
      unfold dead_w, dead in Hr. destruct H as [[Ew _]|[Ew _]]; by rewrite Ew in Hr. }
    pose proof (chan_ok_empty s I Eb) as Eq.
    destruct H as [[Ew ->]|[Ew ->]]; intros [= <- <-]; simpl; (split_and!; try done).
    all: split; simpl; [by rewrite Eb|apply I|done|apply I].
Qed.

Lemma recv_ok c ptr al s s' r :
  chan_ok s → ChannelRecv c ptr al s = Ok (s', r) →
  chan_ok s' ∧ ch_closed s' = ch_closed s ∧
  match cr_writes r with
  | [] => queue s' = queue s ∧ queue s = [] ∧ ch_closed s = false
  | [(_, v)] => queue s = v :: queue s'
  | _ => False
  end.
Proof.
  intros I. unfold ChannelRecv. destruct (ch_buffered s) as [|v buffered] eqn:Eb.
  - destruct (ch_closed s) eqn:Ec; [done|]. destruct al; [|done]. intros [= <- <-]. simpl.
    pose proof (chan_ok_empty s I Eb) as Eq. split_and!; try done.
    + split; simpl; [done| |done|lia].
      intros Hf. apply I. intros []. apply Hf. unfold full in *. simpl. by rewrite Eb in *.
    + unfold queue in *. simpl. by rewrite Eb in *.
  - destruct (StagePendingSend (ch_pending s)) as [pending staged] eqn:Est. intros [= <- <-]. simpl.
    pose proof (StagePendingSend_line (ch_pending s)) as Hl. rewrite Est in Hl. cbn [fst snd] in Hl.
    assert (ch_closed s = true → staged = None ∧ Forall dead_p pending) as Hcl.
    { intros Ec. destruct (co_closed s I Ec) as [_ Hd]. rewrite (live_values_dead _ Hd) in Hl.
      destruct staged as [[? ?]|]; [done|]. split; [done|]. by apply live_values_nil. }
    split_and!; try done.
    + split; simpl.
      * intros _. apply (co_recv s I). by rewrite Eb.
      * intros Hf. apply live_values_nil.
        destruct (decide (full s)) as [Hfull|Hnf].
        -- unfold full in *. simpl in Hf. rewrite Eb in Hfull. simpl in Hfull.
           destruct staged as [[u w]|]; [rewrite length_app in Hf; simpl in Hf; lia|].
           destruct (StagePendingSend_cases (ch_pending s)) as [[E Hd]|(? & ? & ? & _ & _ & [[_ E]|[_ E]])];
             rewrite Est in E; simplify_eq. by apply live_values_dead.
        -- rewrite (live_values_dead _ (co_send s I Hnf)) in Hl. by destruct staged as [[? ?]|].
      * intros Ec. destruct (Hcl Ec). split; [apply (co_closed s I Ec)|done].
      * intros Hcap. pose proof (co_bound s I Hcap) as Hb. rewrite Eb in Hb. simpl in Hb.
        rewrite length_app. destruct staged as [[? ?]|]; simpl; lia.
    + unfold queue. simpl. rewrite Eb, Hl. cbn [app]. by rewrite app_assoc.
Qed.

(** ** Close *)

Definition committed (l : list (nat * mail)) : list nat :=
  omap (λ e, if decide (e.2 = MCommitted) then Some e.1 else None) l.
Definition sweep (l : list (nat * mail)) : list (nat * mail) :=
  omap (λ e, match e.2 with
             | MPending => Some (e.1, MStamped) | MStamped => Some e | MCommitted => None
             end) l.

Lemma sweep_dead l c m : (c, m) ∈ sweep l → m = MStamped.
Proof. intros ([d n] & _ & H)%list_elem_of_omap. by destruct n; simplify_eq/=. Qed.

Lemma CollectClosedRecvOutcomes_spec b ws :
  (b ≠ [] → Forall dead_w ws) →
  ∃ ws', CollectClosedRecvOutcomes b ws = (b, ws', [], [], committed (wmail <$> ws)) ∧
    Forall dead_w ws' ∧ wmail <$> ws' = sweep (wmail <$> ws).
Proof.
  induction ws as [|w ws IH]; intros Hb; [by exists []|].
  destruct IH as (ws' & E & Hd & Hm).
  { intros Hne. specialize (Hb Hne). by apply Forall_cons_1 in Hb as [_ ?]. }
  cbn [CollectClosedRecvOutcomes]. destruct (cw_phase w) eqn:Ew.
  - destruct b as [|v b].
    + rewrite E. eexists. split; [by unfold committed, wmail; simpl; rewrite Ew|].
      split; [by constructor|]. rewrite !fmap_cons, Hm. unfold sweep, wmail. simpl. by rewrite Ew.
    + exfalso. specialize (Hb ltac:(done)). apply Forall_cons_1 in Hb as [Hb _].
      unfold dead_w in Hb. by rewrite Ew in Hb.
  - rewrite E. eexists. split; [by unfold committed, wmail; simpl; rewrite Ew; destruct b|].
    split; [constructor; [unfold dead_w; by rewrite Ew|done]|].
    rewrite !fmap_cons, Hm. unfold sweep, wmail. simpl. by rewrite Ew.
  - rewrite E. eexists. split; [by unfold committed, wmail; simpl; rewrite Ew; destruct b|].
    split; [constructor; [unfold dead_w; by rewrite Ew|done]|].
    rewrite !fmap_cons, Hm. unfold sweep, wmail. simpl. by rewrite Ew.
  - destruct b as [|v b].
    + rewrite E. eexists. split; [by unfold committed, wmail; simpl; rewrite Ew|].
      split; [done|]. rewrite !fmap_cons, Hm. unfold sweep, wmail. simpl. by rewrite Ew.
    + exfalso. specialize (Hb ltac:(done)). apply Forall_cons_1 in Hb as [Hb _].
      unfold dead_w in Hb. by rewrite Ew in Hb.
Qed.

Lemma CollectClosedSenders_spec ps :
  ∃ ps', CollectClosedSenders ps = (ps', committed (pmail <$> ps)) ∧
    Forall dead_p ps' ∧ pmail <$> ps' = sweep (pmail <$> ps).
Proof.
  induction ps as [|p ps (ps' & E & Hd & Hm)]; [by exists []|].
  cbn [CollectClosedSenders]. rewrite E.
  destruct (ps_phase p) eqn:Ep; (eexists; split;
    [by unfold committed, pmail; simpl; rewrite Ep|split; [|rewrite ?fmap_cons, ?Hm; unfold sweep, pmail; simpl; by rewrite Ep]]).
  - by constructor.
  - constructor; [unfold dead_p; by rewrite Ep|done].
  - constructor; [unfold dead_p; by rewrite Ep|done].
  - done.
Qed.

Lemma close_ok re se s s' r :
  chan_ok s → ch_closed s = false → ChannelClose re se s = (s', r) →
  chan_ok s' ∧ ch_closed s' = true ∧ cr_writes r = [] ∧ ch_buffered s' = ch_buffered s ∧
  queue s' = ch_buffered s ∧ mails s' = sweep (mails s) ∧
  cr_wakes r = ((λ c, (c, re)) <$> committed (wmail <$> ch_waiters s)) ++
               ((λ c, (c, se)) <$> committed (pmail <$> ch_pending s)).
Proof.
  intros I Ec. unfold ChannelClose. rewrite Ec.
  destruct (CollectClosedRecvOutcomes_spec (ch_buffered s) (ch_waiters s) (co_recv s I)) as (ws' & -> & Hw & Hwm).
  destruct (CollectClosedSenders_spec (ch_pending s)) as (ps' & -> & Hp & Hpm).
  intros [= <- <-]. simpl. split_and!; try done.
  - split; simpl; [done|done|done|apply I].
  - unfold queue. simpl. by rewrite live_values_dead, app_nil_r.
  - unfold mails. simpl. rewrite Hwm, Hpm. unfold sweep. by rewrite omap_app.
  - by rewrite app_nil_r.
Qed.

(** ** The rechecks *)

Lemma recheck_waiters_cases c ws ws' o :
  recheck_waiters c ws = Ok (ws', o) →
  ∃ pre w post, ws = pre ++ w :: post ∧ cw_contextId w = c ∧ (c ∉ cw_contextId <$> pre) ∧
    ((cw_phase w = chPending ∧ o = Commits ∧
      ws' = pre ++ {| cw_contextId := c; cw_resultPtr := cw_resultPtr w; cw_phase := chCommitted |} :: post) ∨
     (cw_phase w ≠ chPending ∧ o = stamp_outcome (cw_phase w) ∧ ws' = pre ++ post)).
Proof.
  revert ws' o. induction ws as [|w ws IH]; intros ws' o; [done|]. cbn [recheck_waiters].
  destruct (decide (cw_contextId w ≠ c)) as [Hne|Heq].
  - intros H. monad_inv. edestruct IH as (pre & v & post & -> & Hv & Hn & H'); [done|].
    exists (w :: pre), v, post. split_and!; [done|done| |].
    + rewrite fmap_cons, not_elem_of_cons. naive_solver.
    + naive_solver.
  - apply dec_stable in Heq. intros H. exists [], w, ws.
    split_and!; [done|done|apply not_elem_of_nil|]. destruct (decide (cw_phase w = chPending)); naive_solver.
Qed.

Lemma recheck_pending_cases c ps ps' o :
  recheck_pending c ps = Ok (ps', o) →
  ∃ pre p post, ps = pre ++ p :: post ∧ ps_senderId p = c ∧ (c ∉ ps_senderId <$> pre) ∧
    ((ps_phase p = chPending ∧ o = Commits ∧
      ps' = pre ++ {| ps_value := ps_value p; ps_senderId := c; ps_phase := chCommitted |} :: post) ∨
     (ps_phase p ≠ chPending ∧ o = stamp_outcome (ps_phase p) ∧ ps' = pre ++ post)).
Proof.
  revert ps' o. induction ps as [|p ps IH]; intros ps' o; [done|]. cbn [recheck_pending].
  destruct (decide (ps_senderId p ≠ c)) as [Hne|Heq].
  - intros H. monad_inv. edestruct IH as (pre & v & post & -> & Hv & Hn & H'); [done|].
    exists (p :: pre), v, post. split_and!; [done|done| |].
    + rewrite fmap_cons, not_elem_of_cons. naive_solver.
    + naive_solver.
  - apply dec_stable in Heq. intros H. exists [], p, ps.
    split_and!; [done|done|apply not_elem_of_nil|]. destruct (decide (ps_phase p = chPending)); naive_solver.
Qed.

Lemma recheck_recv_ok c s s' o :
  chan_ok s → CommitOrAbortChanRecv c s = Ok (s', o) →
  chan_ok s' ∧ ch_closed s' = ch_closed s ∧ queue s' = queue s.
Proof.
  intros I. unfold CommitOrAbortChanRecv. intros H.
  apply bind_Ok in H as ([x o'] & H & [= <- <-]).
  apply recheck_waiters_cases in H as (pre & w & post & E & _ & _ & Hcase).
  split_and!; try done.
  assert (∀ P : Prop, (P → Forall dead_w (ch_waiters s)) → P → Forall dead_w x) as Hw.
  { intros P HP p. specialize (HP p). rewrite E in HP. apply Forall_app in HP as [H1 H2].
    apply Forall_cons_1 in H2 as [H2 H3].
    destruct Hcase as [(Ew & _ & ->)|(_ & _ & ->)]; [|by apply Forall_app].
    exfalso. unfold dead_w in H2. by rewrite Ew in H2. }
  split; simpl; [by apply Hw, I|apply I| |apply I].
  intros Ec. pose proof (co_closed s I Ec) as [H1 H2]. split; [|done]. by apply (Hw True).
Qed.

Lemma recheck_send_ok c s s' o :
  chan_ok s → ((c, MCommitted) ∉ pmail <$> ch_pending s) → CommitOrAbortChanSend c s = Ok (s', o) →
  chan_ok s' ∧ ch_closed s' = ch_closed s ∧ queue s' = queue s.
Proof.
  intros I Hn. unfold CommitOrAbortChanSend. intros H.
  apply bind_Ok in H as ([x o'] & H & [= <- <-]).
  apply recheck_pending_cases in H as (pre & p & post & E & Hid & _ & Hcase).
  assert (live_values x = live_values (ch_pending s)) as Hlv.
  { rewrite E. destruct Hcase as [(Ep & _ & ->)|(Hp & _ & ->)];
      rewrite !live_values_app, !live_values_cons; [by rewrite Ep|].
    destruct (ps_phase p) eqn:Ep; try done. exfalso. apply Hn. rewrite E, fmap_app, fmap_cons, elem_of_app.
    right. unfold pmail at 1. rewrite Ep, Hid. left. }
  split_and!; try done; [|unfold queue; simpl; by rewrite Hlv].
  split; simpl; [apply I| | |apply I].
  - intros Hf. apply live_values_nil. rewrite Hlv. by apply live_values_dead, I.
  - intros Ec. destruct (co_closed s I Ec). split; [done|]. apply live_values_nil.
    rewrite Hlv. by apply live_values_dead.
Qed.

(** ** Histories *)

Inductive ch_obs :=
  | OSent (v : Z)                          (* accepted: buffered, or its sender is in line *)
  | OPassed (v : Z)                        (* sent and handed to a receiver in line *)
  | OGot (v : Z)                           (* received from the buffer *)
  | OClosed (got dropped : list Z)         (* the first close *)
  | OOther.

(** Any calls and rechecks of any contexts; a context whose entry is committed is parked
    and rechecks nothing. *)
Inductive ch_step (s : ChannelSlot) : ch_obs → ChannelSlot → Prop :=
  | ch_send c v al s' r :
      ChannelSend c v al s = Ok (s', r) →
      ch_step s (match cr_writes r with [] => OSent v | _ => OPassed v end) s'
  | ch_recv c ptr al s' r :
      ChannelRecv c ptr al s = Ok (s', r) →
      ch_step s (match cr_writes r with [] => OOther | (_, v) :: _ => OGot v end) s'
  | ch_close re se s' r :
      ChannelClose re se s = (s', r) →
      ch_step s (if ch_closed s then OOther
                 else OClosed (cr_writes r).*2 (live_values (ch_pending s))) s'
  | ch_recheck_recv c s' o :
      CommitOrAbortChanRecv c s = Ok (s', o) → ch_step s OOther s'
  | ch_recheck_send c s' o :
      ((c, MCommitted) ∉ pmail <$> ch_pending s) →
      CommitOrAbortChanSend c s = Ok (s', o) → ch_step s OOther s'.

Inductive ch_runs (s : ChannelSlot) : list ch_obs → ChannelSlot → Prop :=
  | ch_runs_nil : ch_runs s [] s
  | ch_runs_snoc l s1 o s2 : ch_runs s l s1 → ch_step s1 o s2 → ch_runs s (l ++ [o]) s2.

Definition sent_in (l : list ch_obs) : list Z :=
  omap (λ o, match o with OSent v | OPassed v => Some v | _ => None end) l.
Definition got_in (l : list ch_obs) : list Z :=
  mjoin ((λ o, match o with OPassed v | OGot v => [v] | OClosed g _ => g | _ => [] end) <$> l).
Definition dropped_in (l : list ch_obs) : list Z :=
  mjoin ((λ o, match o with OClosed _ d => d | _ => [] end) <$> l).

Lemma chan_ok_new cap : 0 ≤ cap → chan_ok (ChannelSlot0 cap).
Proof. intros. split; simpl; try done. Qed.

Lemma ch_step_ok s o s' :
  chan_ok s → ch_step s o s' →
  chan_ok s' ∧
  (ch_closed s = true → ch_closed s' = true ∧ sent_in [o] = [] ∧ dropped_in [o] = []) ∧
  (ch_closed s' = false → dropped_in [o] = []) ∧
  queue s ++ sent_in [o] = got_in [o] ++ queue s' ++ dropped_in [o].
Proof.
  unfold sent_in, got_in, dropped_in. intros I Hstep.
  destruct Hstep as [c v al s' r H|c ptr al s' r H|re se s' r H|c s' o H|c s' o Hn H].
  - destruct (send_ok _ _ _ _ _ _ I H) as (I' & Ec & Ec' & Hr).
    destruct (cr_writes r) as [|[p u] [|]]; simpl; [|destruct Hr as (-> & Eq & Eq')|done].
    + split_and!; [done|by rewrite Ec|done|]. by rewrite Hr, app_nil_r.
    + split_and!; [done|by rewrite Ec|done|]. by rewrite Eq, Eq'.
  - destruct (recv_ok _ _ _ _ _ _ I H) as (I' & Ec & Hr).
    destruct (cr_writes r) as [|[p u] [|]]; simpl; [destruct Hr as (Eq & _ & _)| |done].
    + split_and!; [done|by rewrite Ec|done|]. by rewrite Eq.
    + split_and!; [done|by rewrite Ec|done|]. by rewrite Hr, !app_nil_r.
  - destruct (ch_closed s) eqn:Ec.
    + unfold ChannelClose in H. rewrite Ec in H. injection H as <- <-. simpl.
      by rewrite Ec, !app_nil_r.
    + destruct (close_ok _ _ _ _ _ I Ec H) as (I' & Ec' & Hw & Hb & Hq & _). simpl.
      rewrite Hw, Ec', Hq, !app_nil_r. done.
  - destruct (recheck_recv_ok _ _ _ _ I H) as (I' & Ec & Eq). simpl.
    rewrite Ec, Eq, !app_nil_r. done.
  - destruct (recheck_send_ok _ _ _ _ I Hn H) as (I' & Ec & Eq). simpl.
    rewrite Ec, Eq, !app_nil_r. done.
Qed.

(** C6: A channel is a first-in first-out queue that loses nothing but what close drops.
    Over any history of sends, receives, closes and rechecks by any contexts: the
    values sent, in order, are the values received, then the buffer, then the values of
    the senders in line, then what close dropped, which is nothing while the channel is
    open.  A bounded buffer stays within its capacity; receivers wait only while there
    is nothing to receive, senders only while the buffer is full, and nobody waits on a
    closed channel. *)
Theorem channel_fifo cap l s :
  0 ≤ cap → ch_runs (ChannelSlot0 cap) l s →
  sent_in l = got_in l ++ queue s ++ dropped_in l ∧
  (ch_closed s = false → dropped_in l = []) ∧
  (0 < ch_capacity s → Z.of_nat (length (ch_buffered s)) ≤ ch_capacity s) ∧
  (¬ Forall dead_w (ch_waiters s) → queue s = [] ∧ ch_closed s = false) ∧
  (¬ Forall dead_p (ch_pending s) → full s ∧ ch_closed s = false).
Proof.
  intros Hcap Hrun.
  assert (chan_ok s ∧ sent_in l = got_in l ++ queue s ++ dropped_in l ∧
          (ch_closed s = false → dropped_in l = [])) as (I & Heq & Hd).
  { induction Hrun as [|l s1 o s2 Hrun (I & Heq & Hd) Hstep]; [by split; [apply chan_ok_new|]|].
    destruct (ch_step_ok _ _ _ I Hstep) as (I' & Hcl & Hdo & Hq). split; [done|].
    unfold sent_in, got_in, dropped_in in *.
    rewrite omap_app, !fmap_app, !join_app. rewrite Heq. split.
    - destruct (ch_closed s1) eqn:Ec.
      + destruct (Hcl eq_refl) as (_ & Hs & Hdr). rewrite Hs, Hdr, !app_nil_r in *.
        rewrite Hq. by rewrite !app_assoc.
      + rewrite (Hd eq_refl), app_nil_l, app_nil_r, <- app_assoc, Hq. by rewrite !app_assoc.
    - intros Ec. rewrite Hdo by done. rewrite Hd; [done|].
      destruct (ch_closed s1) eqn:E; [|done]. destruct (Hcl eq_refl) as [? _]. congruence. }
  split_and!; [done|done|apply I|..].
  - intros Hl. split.
    + apply chan_ok_empty; [done|]. destruct (ch_buffered s) eqn:E; [done|].
      destruct Hl. apply I. by rewrite E.
    + destruct (ch_closed s) eqn:E; [|done]. destruct Hl. by apply (co_closed s I).
  - intros Hl. split.
    + destruct (decide (full s)) as [|Hf]; [done|]. destruct Hl. by apply I.
    + destruct (ch_closed s) eqn:E; [|done]. destruct Hl. by apply (co_closed s I).
Qed.

Lemma channel_fifo_witness :
  ∃ s, ch_runs (ChannelSlot0 1) [OSent 7; OSent 8; OGot 7] s ∧
       sent_in [OSent 7; OSent 8; OGot 7] = [7] ++ queue s.
Proof.
  set (p := {| ps_value := 8; ps_senderId := 2; ps_phase := chPending |}).
  set (s1 := {| ch_buffered := [7]; ch_waiters := []; ch_closed := false; ch_capacity := 1; ch_pending := [] |}).
  set (s2 := {| ch_buffered := [7]; ch_waiters := []; ch_closed := false; ch_capacity := 1; ch_pending := [p] |}).
  assert (∃ s3, ch_runs (ChannelSlot0 1) [OSent 7; OSent 8; OGot 7] s3) as [s3 R].
  { eexists. apply (ch_runs_snoc _ [OSent 7; OSent 8] s2).
    - apply (ch_runs_snoc _ [OSent 7] s1).
      + apply (ch_runs_snoc _ [] (ChannelSlot0 1)); [constructor|].
        exact (ch_send (ChannelSlot0 1) 1 7 true s1 _ eq_refl).
      + exact (ch_send s1 2 8 true s2 _ eq_refl).
    - exact (ch_recv s2 3 0 true _ _ eq_refl). }
  exists s3. split; [exact R|].
  destruct (channel_fifo 1 _ s3 ltac:(lia) R) as (H & Hd & _).
  rewrite H. simpl. by rewrite app_nil_r.
Defined.

(** ** The parking interface *)

Inductive ChanOp :=
  | OpSend (v : Z) (allowed : bool) | OpRecv (resultPtr : nat) (allowed : bool)
  | OpClose (recvExc sendExc : Z).

Definition chan_call_result (r : chan_result) : call_result :=
  if cr_park r then CallPark else CallDone (cr_wakes r) false.

(** A context is in at most one of the two lines; the recheck of the call it is in looks
    there. *)
#[export] Instance channel_prim : ParkPrim ChannelSlot ChanOp := {
  pp_mail s c := assoc_mail (mails s) c;
  pp_call s c op :=
    match op with
    | OpSend v allowed => '(s, r) ← ChannelSend c v allowed s; Ok (s, chan_call_result r)
    | OpRecv ptr allowed => '(s, r) ← ChannelRecv c ptr allowed s; Ok (s, chan_call_result r)
    | OpClose re se => let '(s, r) := ChannelClose re se s in Ok (s, chan_call_result r)
    end;
  pp_recheck s c :=
    '(s, o) ← (if decide (c ∈ ps_senderId <$> ch_pending s) then CommitOrAbortChanSend c s
               else CommitOrAbortChanRecv c s);
    Ok (s, bool_decide (o = Commits));
  pp_state _ op := match op with OpSend _ _ => ParkedChanSend | _ => ParkedChanRecv end;
  pp_wf s := NoDup (mails s).*1 ∧ chan_ok s;
  pp_grant _ _ := True;
  pp_acquires _ _ := false;
  pp_releases _ _ := false;
}.

(** An entry leaves, changes or joins, up to the order of the list. *)
Lemma assoc_mail_head l e r d :
  NoDup l.*1 → l ≡ₚ e :: r → assoc_mail l d = if decide (e.1 = d) then Some e.2 else assoc_mail r d.
Proof. intros N E. by rewrite (assoc_mail_perm l (e :: r)), assoc_mail_cons. Qed.

Lemma NoDup_entry (l : list (nat * mail)) e r : NoDup l.*1 → l ≡ₚ e :: r → NoDup r.*1 ∧ (e.1 ∉ r.*1).
Proof. intros N E. rewrite E, fmap_cons in N. by apply list.NoDup_cons in N as []. Qed.

Lemma handed_committed s s' n x :
  NoDup (mails s).*1 → mails s ≡ₚ (n, MCommitted) :: mails s' →
  NoDup (mails s').*1 ∧ (∀ c, pp_mail s c = None → pp_mail s' c = None) ∧
  ∀ d, handed (H := channel_prim) s s' [(n, x)] d.
Proof.
  intros N E. destruct (NoDup_entry _ _ _ N E) as [N' Hn]. cbn [fst] in Hn.
  assert (∀ d, assoc_mail (mails s) d = if decide (n = d) then Some MCommitted else assoc_mail (mails s') d) as Ha
    by (intros d; apply (assoc_mail_head _ _ _ d N E)).
  split; [done|]. split.
  - intros c. cbn. rewrite Ha. by case_decide.
  - intros d. unfold handed. cbn. rewrite Ha. rewrite !list_elem_of_singleton.
    destruct (decide (n = d)) as [->|Hne].
    + left. split_and!; try done. by apply assoc_mail_None.
    + right. right. by split; [congruence|].
Qed.

Lemma handed_stamped s s' n r :
  NoDup (mails s).*1 → mails s ≡ₚ (n, MPending) :: r → mails s' ≡ₚ (n, MStamped) :: r →
  NoDup (mails s').*1 ∧ (∀ c, pp_mail s c = None → pp_mail s' c = None) ∧
  ∀ d, handed (H := channel_prim) s s' [] d.
Proof.
  intros N E E'. destruct (NoDup_entry _ _ _ N E) as [Nr Hn].
  assert (NoDup (mails s').*1) as N' by (rewrite E', fmap_cons; by apply list.NoDup_cons).
  assert (∀ d, assoc_mail (mails s) d = if decide (n = d) then Some MPending else assoc_mail r d) as Ha
    by (intros d; apply (assoc_mail_head _ _ _ d N E)).
  assert (∀ d, assoc_mail (mails s') d = if decide (n = d) then Some MStamped else assoc_mail r d) as Ha'
    by (intros d; apply (assoc_mail_head _ _ _ d N' E')).
  split; [done|]. split.
  - intros c. cbn. rewrite Ha, Ha'. by case_decide.
  - intros d. unfold handed. cbn. rewrite Ha, Ha'. destruct (decide (n = d)) as [->|Hne].
    + right. left. split_and!; try done. apply not_elem_of_nil.
    + right. right. split; [apply not_elem_of_nil|done].
Qed.

Lemma handed_none s s' :
  mails s' = mails s → ∀ d, handed (H := channel_prim) s s' [] d.
Proof. intros E d. right. right. split; [apply not_elem_of_nil|]. cbn. by rewrite E. Qed.

Lemma close_handed s s' (ws : list (nat * Z)) :
  NoDup (mails s).*1 → mails s' = sweep (mails s) → ws.*1 = committed (mails s) →
  NoDup (mails s').*1 ∧ (∀ c, pp_mail s c = None → pp_mail s' c = None) ∧ NoDup ws.*1 ∧
  ∀ d, handed (H := channel_prim) s s' ws d.
Proof.
  intros N Es Ew. cbn.
  assert (∀ (l : list (nat * mail)) d, d ∈ (sweep l).*1 → d ∈ l.*1) as Hsub.
  { intros l d. induction l as [|[e m] l IH]; [done|]. unfold sweep. simpl. rewrite elem_of_cons.
    destruct m; rewrite ?fmap_cons, ?elem_of_cons; unfold sweep in IH; naive_solver. }
  assert (∀ (l : list (nat * mail)) d, d ∈ committed l → d ∈ l.*1) as Hsub'.
  { intros l d. induction l as [|[e m] l IH]; [done|]. unfold committed. simpl. rewrite elem_of_cons.
    destruct m; simpl; rewrite ?elem_of_cons; unfold committed in IH; naive_solver. }
  assert (∀ l : list (nat * mail), NoDup l.*1 → NoDup (sweep l).*1) as Hnd.
  { induction l as [|[e m] l IH]; [done|]. rewrite fmap_cons. intros [He Hl]%list.NoDup_cons.
    unfold sweep. simpl. destruct m; rewrite ?fmap_cons; try (by apply IH);
      (apply list.NoDup_cons; split; [intros ?%Hsub; done|by apply IH]). }
  assert (∀ l : list (nat * mail), NoDup l.*1 → NoDup (committed l)) as Hnd'.
  { induction l as [|[e m] l IH]; [intros; constructor|]. rewrite fmap_cons.
    intros [He Hl]%list.NoDup_cons. unfold committed. simpl. destruct m; simpl; try (by apply IH).
    apply list.NoDup_cons. split; [intros ?%Hsub'; done|by apply IH]. }
  rewrite Es. split; [by apply Hnd|]. split.
  { intros c. rewrite !assoc_mail_None. naive_solver. }
  split; [rewrite Ew; by apply Hnd'|]. intros d. unfold handed. cbn. rewrite Es, Ew. clear Es Ew.
  revert N. generalize (mails s). induction l as [|[e m] l IH].
  { intros _. right. right. split; [apply not_elem_of_nil|done]. }
  rewrite fmap_cons. intros [He Hl]%list.NoDup_cons. cbn [fst] in He.
  specialize (IH Hl). unfold sweep, committed in *. cbn [omap list_omap snd fst].
  rewrite (assoc_mail_cons (e, m)). cbn [fst snd].
  destruct (decide (e = d)) as [->|Hne].
  - assert (d ∉ omap (λ e, if decide (e.2 = MCommitted) then Some e.1 else None) l) as Hc
      by (intros ?%Hsub'; done).
    destruct m; simpl; rewrite ?assoc_mail_cons, ?decide_True by done; cbn [fst snd].
    + right. left. done.
    + right. right. done.
    + left. split; [by left|]. split_and!; try done. apply assoc_mail_None. by intros ?%Hsub.
  - destruct m; simpl; rewrite ?assoc_mail_cons, ?decide_False by done; cbn [fst snd]; [exact IH..|].
    rewrite elem_of_cons. naive_solver.
Qed.

(** What a call does to the mailboxes. *)
Definition mail_effect (s s' : ChannelSlot) (c : nat) (r : chan_result) : Prop :=
  (cr_park r = true ∧ mails s' ≡ₚ (c, MPending) :: mails s) ∨
  (cr_park r = false ∧ cr_wakes r = [] ∧ mails s' = mails s) ∨
  (cr_park r = false ∧ ∃ n, cr_wakes r = [(n, 0)] ∧ mails s ≡ₚ (n, MCommitted) :: mails s') ∨
  (cr_park r = false ∧ cr_wakes r = [] ∧
   ∃ n l, mails s ≡ₚ (n, MPending) :: l ∧ mails s' ≡ₚ (n, MStamped) :: l).

Lemma perm_mid {A} (d : list A) e r t : (d ++ e :: r) ++ t ≡ₚ e :: (d ++ r) ++ t.
Proof. by rewrite <- Permutation_middle. Qed.
Lemma perm_mid_r {A} (t d : list A) e r : t ++ (d ++ e :: r) ≡ₚ e :: t ++ (d ++ r).
Proof. by rewrite <- !Permutation_middle. Qed.

Lemma send_mails c v al s s' r : ChannelSend c v al s = Ok (s', r) → mail_effect s s' c r.
Proof.
  unfold ChannelSend, mail_effect. destruct (ch_closed s); [done|].
  destruct (HandoffToLiveWaiter_cases (ch_waiters s)) as [[-> _]|(d & w & rest & E & _ & H)].
  - case_decide; [destruct al; [|done]|]; intros [= <- <-]; simpl.
    + left. split; [done|]. unfold mails. simpl. rewrite fmap_app. simpl.
      rewrite app_assoc. by rewrite (Permutation_app_comm _ [_]).
    + right. left. done.
  - destruct H as [[Ew ->]|[Ew ->]]; intros [= <- <-]; right; right; simpl.
    + left. split; [done|]. eexists. split; [done|]. unfold mails. simpl.
      rewrite E, !fmap_app, fmap_cons, perm_mid.
      by replace (wmail w) with (cw_contextId w, MCommitted) by (unfold wmail; by rewrite Ew).
    + right. split_and!; [done..|]. exists (cw_contextId w), ((wmail <$> d ++ rest) ++ (pmail <$> ch_pending s)).
      unfold mails. simpl. rewrite E, !fmap_app, !fmap_cons, !perm_mid.
      by replace (wmail w) with (cw_contextId w, MPending) by (unfold wmail; by rewrite Ew).
Qed.

Lemma recv_mails c ptr al s s' r : ChannelRecv c ptr al s = Ok (s', r) → mail_effect s s' c r.
Proof.
  unfold ChannelRecv, mail_effect. destruct (ch_buffered s) as [|v buffered].
  - destruct (ch_closed s); [done|]. destruct al; [|done]. intros [= <- <-]. left. split; [done|].
    unfold mails. simpl. rewrite fmap_app. simpl. by rewrite perm_mid, app_nil_r.
  - destruct (StagePendingSend_cases (ch_pending s)) as [[-> _]|(d & p & rest & E & _ & H)].
    + intros [= <- <-]. right. left. done.
    + destruct H as [[Ep ->]|[Ep ->]]; intros [= <- <-]; right; right; simpl.
      * left. split; [done|]. eexists. split; [done|]. unfold mails. simpl.
        rewrite E, !fmap_app, fmap_cons, perm_mid_r.
        by replace (pmail p) with (ps_senderId p, MCommitted) by (unfold pmail; by rewrite Ep).
      * right. split_and!; [done..|]. exists (ps_senderId p), ((wmail <$> ch_waiters s) ++ (pmail <$> d ++ rest)).
        unfold mails. simpl. rewrite E, !fmap_app, !fmap_cons, !perm_mid_r.
        by replace (pmail p) with (ps_senderId p, MPending) by (unfold pmail; by rewrite Ep).
Qed.

(** A registration. *)
Lemma added_mail s s' c :
  NoDup (mails s).*1 → assoc_mail (mails s) c = None → mails s' ≡ₚ (c, MPending) :: mails s →
  NoDup (mails s').*1 ∧ assoc_mail (mails s') c = Some MPending ∧
  ∀ d, d ≠ c → assoc_mail (mails s') d = assoc_mail (mails s) d.
Proof.
  intros N Hc E. assert (NoDup (mails s').*1) as N'.
  { rewrite E, fmap_cons. apply list.NoDup_cons. split; [by apply assoc_mail_None|done]. }
  split; [done|]. split; [|intros d Hd]; rewrite (assoc_mail_head _ _ _ _ N' E).
  - by rewrite decide_True.
  - by rewrite decide_False by (simpl; congruence).
Qed.

(** The recheck of the caller's own entry. *)
Lemma rechecked_mail s s' c m (e' : option mail) r :
  NoDup (mails s).*1 → mails s ≡ₚ (c, m) :: r →
  mails s' ≡ₚ match e' with Some m' => (c, m') :: r | None => r end →
  NoDup (mails s').*1 ∧ assoc_mail (mails s') c = e' ∧
  ∀ d, d ≠ c → assoc_mail (mails s') d = assoc_mail (mails s) d.
Proof.
  intros N E E'. destruct (NoDup_entry _ _ _ N E) as [Nr Hc]. cbn [fst] in Hc.
  assert (NoDup (mails s').*1) as N'.
  { rewrite E'. destruct e'; [|done]. rewrite fmap_cons. by apply list.NoDup_cons. }
  split; [done|]. split.
  - destruct e' as [m'|].
    + rewrite (assoc_mail_head _ _ _ _ N' E'). by rewrite decide_True.
    + apply assoc_mail_None. by rewrite E'.
  - intros d Hd. rewrite (assoc_mail_head _ _ _ _ N E), decide_False by (simpl; congruence).
    destruct e' as [m'|].
    + by rewrite (assoc_mail_head _ _ _ _ N' E'), decide_False by (simpl; congruence).
    + by apply assoc_mail_perm.
Qed.

Lemma recheck_waiters_finds c ws :
  c ∈ cw_contextId <$> ws → is_Ok (recheck_waiters c ws).
Proof.
  induction ws as [|w ws IH]; [by intros ?%not_elem_of_nil|]. rewrite fmap_cons, elem_of_cons.
  intros Hin. cbn [recheck_waiters]. destruct (decide (cw_contextId w ≠ c)) as [Hne|].
  - assert (is_Ok (recheck_waiters c ws)) as H by (apply IH; destruct Hin; congruence || done).
    by destruct (recheck_waiters c ws) as [[? ?]|].
  - by case_decide.
Qed.
Lemma recheck_pending_finds c ps :
  c ∈ ps_senderId <$> ps → is_Ok (recheck_pending c ps).
Proof.
  induction ps as [|p ps IH]; [by intros ?%not_elem_of_nil|]. rewrite fmap_cons, elem_of_cons.
  intros Hin. cbn [recheck_pending]. destruct (decide (ps_senderId p ≠ c)) as [Hne|].
  - assert (is_Ok (recheck_pending c ps)) as H by (apply IH; destruct Hin; congruence || done).
    by destruct (recheck_pending c ps) as [[? ?]|].
  - by case_decide.
Qed.

Lemma pmail_ids ps : (pmail <$> ps).*1 = ps_senderId <$> ps.
Proof. by rewrite <- list_fmap_compose. Qed.
Lemma wmail_ids ws : (wmail <$> ws).*1 = cw_contextId <$> ws.
Proof. by rewrite <- list_fmap_compose. Qed.

Lemma stamp_not_commits p : stamp_outcome p ≠ Commits.
Proof. unfold stamp_outcome. by case_decide. Qed.

(** The caller's entry, and what the recheck makes of it. *)
Lemma rechecked_case s s' c m (p : ChanPhase) o r :
  NoDup (mails s).*1 → assoc_mail (mails s) c = Some m → m ≠ MCommitted →
  mails s ≡ₚ (c, mail_phase p) :: r →
  (p = chPending ∧ o = Commits ∧ mails s' ≡ₚ (c, MCommitted) :: r) ∨
  (p ≠ chPending ∧ o = stamp_outcome p ∧ mails s' ≡ₚ r) →
  bool_decide (o = Commits) = bool_decide (m = MPending) ∧ NoDup (mails s').*1 ∧
  assoc_mail (mails s') c = (if decide (m = MPending) then Some MCommitted else None) ∧
  (∀ d, d ≠ c → assoc_mail (mails s') d = assoc_mail (mails s) d).
Proof.
  intros N Hm Hne E Hcase.
  assert (m = mail_phase p) as ->.
  { rewrite (assoc_mail_head _ _ _ _ N E), decide_True in Hm by done. by injection Hm as <-. }
  destruct Hcase as [(-> & -> & E')|(Hp & -> & E')].
  - split; [done|]. by apply (rechecked_mail s s' c MPending (Some MCommitted) r).
  - assert (mail_phase p ≠ MPending) as Hmp by (by destruct p).
    rewrite (bool_decide_eq_false_2 (mail_phase p = MPending)), decide_False by done.
    rewrite bool_decide_eq_false_2 by apply stamp_not_commits. split; [done|].
    by apply (rechecked_mail s s' c (mail_phase p) None r).
Qed.

Lemma channel_recheck_spec s c m :
  NoDup (mails s).*1 → chan_ok s → assoc_mail (mails s) c = Some m → m ≠ MCommitted →
  ∃ s', pp_recheck (ParkPrim := channel_prim) s c = Ok (s', bool_decide (m = MPending)) ∧
    chan_ok s' ∧ NoDup (mails s').*1 ∧
    assoc_mail (mails s') c = (if decide (m = MPending) then Some MCommitted else None) ∧
    ∀ d, d ≠ c → assoc_mail (mails s') d = assoc_mail (mails s) d.
Proof.
  intros N I Hm Hne. cbn. pose proof (proj1 (assoc_mail_Some _ _ _ N) Hm) as Hin.
  destruct (decide (c ∈ ps_senderId <$> ch_pending s)) as [Hp|Hp].
  - pose proof (recheck_pending_finds _ _ Hp) as Hf.
    destruct (recheck_pending c (ch_pending s)) as [[ps' o]|] eqn:Er; [clear Hf|done].
    destruct (CommitOrAbortChanSend c s) as [[s' o']|] eqn:Hs;
      unfold CommitOrAbortChanSend in Hs; rewrite Er in Hs; [|done]. injection Hs as Hs <-.
    destruct (recheck_pending_cases _ _ _ _ Er) as (pre & p & post & E & Hid & _ & Hcase).
    edestruct (rechecked_case s s' c m (ps_phase p) o) as (H1 & H2 & H3 & H4); [done..| | |].
    + unfold mails. rewrite E, fmap_app, fmap_cons, perm_mid_r.
      by replace (pmail p) with (c, mail_phase (ps_phase p)) by (unfold pmail; by rewrite Hid).
    + subst s'. unfold mails. simpl. destruct Hcase as [(? & ? & ->)|(? & ? & ->)]; [left|right].
      * split_and!; [done..|]. by rewrite fmap_app, fmap_cons, perm_mid_r.
      * split_and!; [done..|]. by rewrite fmap_app.
    + exists s'. rewrite bindE, H1. split_and!; try done.
      eapply (recheck_send_ok c s s' o I).
      * intros Hc. assert (assoc_mail (mails s) c = Some MCommitted); [|congruence].
        apply assoc_mail_Some; [done|]. unfold mails. apply elem_of_app. by right.
      * unfold CommitOrAbortChanSend. rewrite Er. by subst s'.
  - assert (c ∈ cw_contextId <$> ch_waiters s) as Hw.
    { apply (list_elem_of_fmap_2 fst) in Hin. unfold mails in Hin.
      rewrite fmap_app, wmail_ids, pmail_ids, elem_of_app in Hin. by destruct Hin. }
    pose proof (recheck_waiters_finds _ _ Hw) as Hf.
    destruct (recheck_waiters c (ch_waiters s)) as [[ws' o]|] eqn:Er; [clear Hf|done].
    destruct (CommitOrAbortChanRecv c s) as [[s' o']|] eqn:Hs;
      unfold CommitOrAbortChanRecv in Hs; rewrite Er in Hs; [|done]. injection Hs as Hs <-.
    destruct (recheck_waiters_cases _ _ _ _ Er) as (pre & w & post & E & Hid & _ & Hcase).
    edestruct (rechecked_case s s' c m (cw_phase w) o) as (H1 & H2 & H3 & H4); [done..| | |].
    + unfold mails. rewrite E, fmap_app, fmap_cons, perm_mid.
      by replace (wmail w) with (c, mail_phase (cw_phase w)) by (unfold wmail; by rewrite Hid).
    + subst s'. unfold mails. simpl. destruct Hcase as [(? & ? & ->)|(? & ? & ->)]; [left|right].
      * split_and!; [done..|]. by rewrite fmap_app, fmap_cons, perm_mid.
      * split_and!; [done..|]. by rewrite fmap_app.
    + exists s'. rewrite bindE, H1. split_and!; try done.
      eapply (recheck_recv_ok c s s' o I).
      unfold CommitOrAbortChanRecv. rewrite Er. by subst s'.
Qed.

Lemma effect_done s s' c r ws acq :
  NoDup (mails s).*1 → assoc_mail (mails s) c = None → mail_effect s s' c r →
  chan_call_result r = CallDone ws acq →
  acq = false ∧ NoDup (mails s').*1 ∧ assoc_mail (mails s') c = None ∧ NoDup ws.*1 ∧
  ∀ d, handed (H := channel_prim) s s' ws d.
Proof.
  intros N Hc He. unfold chan_call_result.
  destruct He as [(Hp & _)|[(Hp & Hw & E)|[(Hp & n & Hw & E)|(Hp & Hw & n & l & E & E')]]];
    rewrite Hp; [done|..]; rewrite Hw; intros [= <- <-].
  - split_and!; [done|by rewrite E|by rewrite E|constructor|by apply handed_none].
  - destruct (handed_committed s s' n 0 N E) as (H1 & H2 & H3).
    split_and!; [done|done|by apply H2|apply NoDup_singleton|done].
  - destruct (handed_stamped s s' n l N E E') as (H1 & H2 & H3).
    split_and!; [done|done|by apply H2|constructor|done].
Qed.

Lemma effect_park s s' c r :
  NoDup (mails s).*1 → assoc_mail (mails s) c = None → mail_effect s s' c r →
  chan_call_result r = CallPark →
  NoDup (mails s').*1 ∧ assoc_mail (mails s') c = Some MPending ∧
  ∀ d, d ≠ c → assoc_mail (mails s') d = assoc_mail (mails s) d.
Proof.
  intros N Hc He. unfold chan_call_result.
  destruct He as [(Hp & E)|[(Hp & _)|[(Hp & _)|(Hp & _)]]]; rewrite Hp; [|done..].
  intros _. by apply added_mail.
Qed.

#[export] Instance channel_laws : ParkPrimLaws ChannelSlot ChanOp.
Proof.
  split.
  - intros s [v al|p al|re se]; by apply (bool_decide_unpack _).
  - intros s c op s' ws acq [N I] Hm Hcall. cbn in Hm, Hcall.
    assert (chan_ok s' ∧ acq = false ∧ NoDup (mails s').*1 ∧ assoc_mail (mails s') c = None ∧
            NoDup ws.*1 ∧ ∀ d, handed (H := channel_prim) s s' ws d) as (H1 & -> & H2 & H3 & H4 & H5).
    { destruct op as [v al|p al|re se].
      - apply bind_Ok in Hcall as ([s1 r] & Hs & [= <- Hr]).
        split; [apply (send_ok _ _ _ _ _ _ I Hs)|]. eapply effect_done; eauto using send_mails.
      - apply bind_Ok in Hcall as ([s1 r] & Hs & [= <- Hr]).
        split; [apply (recv_ok _ _ _ _ _ _ I Hs)|]. eapply effect_done; eauto using recv_mails.
      - destruct (ChannelClose re se s) as [s1 r] eqn:Hs. injection Hcall as <- Hr.
        destruct (ch_closed s) eqn:Ec.
        + unfold ChannelClose in Hs. rewrite Ec in Hs. injection Hs as <- <-. injection Hr as <- <-.
          split_and!; try done; [constructor|by apply handed_none].
        + pose proof (close_ok re se s s1 r I Ec Hs) as (I' & _ & _ & _ & _ & Hms & Hw).
          split; [done|]. unfold chan_call_result in Hr. destruct (cr_park r); [done|].
          injection Hr as <- <-. split; [done|].
          destruct (close_handed s s1 (cr_wakes r) N Hms) as (G1 & G2 & G3 & G4).
          { rewrite Hw, fmap_app, <- !list_fmap_compose. unfold mails, committed.
            rewrite omap_app. f_equal; apply list_fmap_id. }
          split_and!; [done|by apply G2|done|done]. }
    cbn. split_and!; done.
  - intros s c op s' [N I] Hm Hcall. cbn in Hm, Hcall.
    assert (chan_ok s' ∧ NoDup (mails s').*1 ∧ assoc_mail (mails s') c = Some MPending ∧
            ∀ d, d ≠ c → assoc_mail (mails s') d = assoc_mail (mails s) d) as (H1 & H2 & H3 & H4).
    { destruct op as [v al|p al|re se].
      - apply bind_Ok in Hcall as ([s1 r] & Hs & [= <- Hr]).
        split; [apply (send_ok _ _ _ _ _ _ I Hs)|]. eapply effect_park; eauto using send_mails.
      - apply bind_Ok in Hcall as ([s1 r] & Hs & [= <- Hr]).
        split; [apply (recv_ok _ _ _ _ _ _ I Hs)|]. eapply effect_park; eauto using recv_mails.
      - destruct (ChannelClose re se s) as [s1 r] eqn:Hs. injection Hcall as <- Hr.
        exfalso. unfold ChannelClose in Hs. destruct (ch_closed s); [by simplify_eq|].
        destruct (CollectClosedRecvOutcomes _ _) as [[[[? ?] ?] ?] ?].
        destruct (CollectClosedSenders _) as [? ?]. by simplify_eq. }
    cbn. split_and!; done.
  - intros s c m [N I] Hm Hne.
    destruct (channel_recheck_spec s c m N I Hm Hne) as (s' & H1 & H2 & H3 & H4 & H5).
    exists s'. by split_and!.
Qed.
