(* ===== verification/ParkProto.v ===== *)
(** * The parking protocol

    Contexts run on carriers, block on primitives, park, are woken and resume.  The
    code is a sequence of critical sections: those of the Sync domain (functions of a
    slot, behind [ParkIface.ParkPrim]) and those of the scheduler lock (the operations
    of [Sched]).  A [world] has the scheduler, the slots, and for every context how far
    it is between two sections; a [step] is one section of any context, so every
    interleaving of any number of carriers is a sequence of steps.

    The sequence of a blocking call ([IntrinsicMutexLock] and its siblings):
    register (Sync) -> [ParkFor*] (scheduler) -> recheck (Sync) -> either the
    park is requested and the stack leaves the carrier ([ParkContextFrames]), or a
    stamp is consumed and [AbortPark] makes the context run on. *)
From S2P Require Import Prelude SchedState Sched SchedSpec ParkIface.
From stdpp Require Import relations.
Open Scope Z_scope.

(** States whose wakers are not the primitives'. *)
Definition ext_states : list ContextState := [ParkedTimer; ParkedJoin; ParkedClassInit; ParkedIo].

(** ** What the pops do to the registry and the queue *)

Definition pop_effect (s s' : VmScheduler) (r : pop_result) : Prop :=
  m_nextId s' = m_nextId s ∧
  match r with
  | Dispatched i =>
      m_runQueue s ≡ₚ i :: m_runQueue s' ∧
      ∃ n, m_contexts s' = match Find s i with
                           | Some c => <[i := set_lastCarrier n c]> (m_contexts s)
                           | None => m_contexts s
                           end
  | _ => m_runQueue s' = m_runQueue s ∧ m_contexts s' = m_contexts s
  end.

Lemma nextId_held c v s : m_nextId (set_held c v s) = m_nextId s.
Proof. unfold set_held. by case_decide. Qed.
Lemma nextId_gate s : m_nextId (NotifyGateWaiters s) = m_nextId s.
Proof. unfold NotifyGateWaiters. by destruct (m_debugFocusContext s). Qed.
Lemma nextId_release s k i : m_nextId (ReleaseHeldIfCurrent s k i).1 = m_nextId s.
Proof. unfold ReleaseHeldIfCurrent. destruct (_ || _); [done|apply nextId_held]. Qed.
Lemma nextId_notify_all s : m_nextId (notify_all s) = m_nextId s.
Proof. done. Qed.
Lemma nextId_store i c s : m_nextId (store_ctx i c s) = m_nextId s.
Proof. done. Qed.
#[export] Hint Rewrite nextId_held nextId_gate nextId_release nextId_notify_all nextId_store : sched.

Lemma DispatchedToCarrier_effect s k i s' k' :
  DispatchedToCarrier s k i = Ok (s', k') →
  m_nextId s' = m_nextId s ∧ m_runQueue s' = m_runQueue s ∧
  ∃ n, m_contexts s' = match Find s i with
                       | Some c => <[i := set_lastCarrier n c]> (m_contexts s)
                       | None => m_contexts s
                       end.
Proof.
  unfold DispatchedToCarrier. destruct (installed k); [|done]. intros H. injection H as <- _.
  set (s2 := set_held _ _ _).
  assert (m_nextId s2 = m_nextId s ∧ m_runQueue s2 = m_runQueue s ∧ m_contexts s2 =
    match Find s i with
    | Some c => <[i := set_lastCarrier (u8 (carrierId k)) c]> (m_contexts s)
    | None => m_contexts s
    end) as (H1 & H2 & H3).
  { subst s2. autorewrite with sched. by destruct (Find s i). }
  case_decide; (split_and!; [done|done|by eexists]).
Qed.

Lemma affinity_scan_pos s k q : ∀ p0 pos i hit,
  affinity_scan s k q p0 = Ok (Some (pos, i, hit)) → (p0 ≤ pos)%nat ∧ q !! (pos - p0)%nat = Some i.
Proof.
  induction q as [|j q IH]; intros p0 pos i hit; simpl; [done|].
  assert (affinity_scan s k q (S p0) = Ok (Some (pos, i, hit)) →
          (p0 ≤ pos)%nat ∧ (j :: q) !! (pos - p0)%nat = Some i) as Hnext.
  { intros [? Hq]%IH. split; [lia|]. replace (pos - p0)%nat with (S (pos - S p0)) by lia. done. }
  destruct (pinnedAway _ _ _); [done|]. destruct (Find s j); simpl; [|done].
  destruct (_ || _); [|done]. intros [= <- <- _]. split; [lia|]. by rewrite Nat.sub_diag.
Qed.

Lemma pop_at (q : list nat) pos i : q !! pos = Some i → q ≡ₚ i :: delete pos q.
Proof. apply delete_Permutation. Qed.

Lemma PopAffinity_effect s k s' r :
  PopAffinity s k = Ok (s', r) →
  m_nextId s' = m_nextId s ∧ m_contexts s' = m_contexts s ∧
  match r with Some i => m_runQueue s ≡ₚ i :: m_runQueue s' | None => m_runQueue s' = m_runQueue s end.
Proof.
  unfold PopAffinity. destruct (installed k); [|done]. simpl check. rewrite bindE. intros H.
  apply bind_Ok in H as ([[[pos i] hit]|] & Hscan & H).
  - apply affinity_scan_pos in Hscan as [_ Hq]. rewrite Nat.sub_0_r in Hq.
    apply lookup_take_Some in Hq as [Hq _].
    injection H as <- <-. destruct hit; (split_and!; [done|done|by apply pop_at]).
  - destruct (list_find _ _) as [[pos i]|] eqn:E; injection H as <- <-; [|done].
    apply list_find_Some in E as [E _]. split_and!; [done|done|by apply pop_at].
Qed.

Lemma PopNextRunnable_effect s k s' k' r :
  PopNextRunnable s k = Ok (s', k', r) → pop_effect s s' r.
Proof.
  unfold PopNextRunnable. intros H.
  destruct (if decide (0 < m_debugFreezeDepth s) then cv_wait WaitFreeze s k else (s, None))
    as [s1 [r1|]] eqn:E.
  { injection H as <- _ <-. unfold cv_wait in E.
    destruct (decide (0 < m_debugFreezeDepth s)); [|done].
    destruct (wait_pred s WaitFreeze (pumpToken k)); by simplify_eq. }
  assert (s1 = s) as ->.
  { unfold cv_wait in E. destruct (decide (0 < m_debugFreezeDepth s)); [|by simplify_eq].
    destruct (wait_pred s WaitFreeze (pumpToken k)); by simplify_eq. }
  clear E. cbn zeta in H. destruct (match m_debugFocusContext s ≫= Find s with
    | Some c => bool_decide (state c = Runnable) | None => false end).
  - apply bind_Ok in H as ([[s2 k2] won] & Hsteal & H).
    assert (match won with Some i => pop_effect s s2 (Dispatched i) | None => s2 = s end) as Hs.
    { unfold TryStealFocusedRunnable in Hsteal.
      destruct (m_debugFocusContext s) as [f|]; [|by simplify_eq].
      destruct (Find s f) eqn:Ef; [|by simplify_eq].
      case_decide; [|by simplify_eq].
      destruct (list_find _ _) as [[pos j]|] eqn:Efind; [|by simplify_eq].
      apply bind_Ok in Hsteal as ([s3 k3] & Hd & Hsteal). simplify_eq.
      apply DispatchedToCarrier_effect in Hd as (H1 & H2 & n & H3).
      apply list_find_Some in Efind as (Hpos & -> & _). apply pop_at in Hpos.
      split; [exact H1|]. split; [by rewrite H2|]. exists n. exact H3. }
    destruct won as [i|]; [by simplify_eq|]. subst s2.
    unfold cv_wait in H. destruct (wait_pred s WaitFocus (pumpToken k2)); simplify_eq; [|done].
    by destruct (m_stopRequested s').
  - apply bind_Ok in H as ([s2 popped] & Hpop & H).
    assert (m_nextId s2 = m_nextId s ∧ m_contexts s2 = m_contexts s ∧
      match popped with Some i => m_runQueue s ≡ₚ i :: m_runQueue s2
                      | None => m_runQueue s2 = m_runQueue s end) as (H1 & H2 & H3).
    { case_decide; [by simplify_eq|]. by apply PopAffinity_effect in Hpop. }
    destruct popped as [i|].
    + apply bind_Ok in H as ([s3 k3] & Hd & H). simplify_eq.
      apply DispatchedToCarrier_effect in Hd as (G1 & G2 & n & G3).
      split; [congruence|]. split; [by rewrite G2|]. exists n. rewrite G3, H2.
      unfold Find. by rewrite H2.
    + apply bind_Ok in H as ([s3 r3] & Hw & H). simplify_eq.
      assert (m_nextId s' = m_nextId s2 ∧ m_runQueue s' = m_runQueue s2 ∧
              m_contexts s' = m_contexts s2 ∧ ∀ i, r ≠ Dispatched i) as (G1 & G2 & G3 & G4).
      { unfold WaitForWorkOrStop, cv_wait in Hw. destruct (m_stopRequested s2); [by simplify_eq|].
        destruct (deadlocked s2 k'); [done|].
        destruct (wait_pred s2 WaitWork (pumpToken k')); by simplify_eq. }
      split; [congruence|]. destruct r; try by rewrite G2, G3. by edestruct G4.
Qed.

(** A round of the pop loop, or a sleeping carrier that wakes up. *)
Inductive pop_round (s : VmScheduler) (k : CarrierState) (s' : VmScheduler) (k' : CarrierState)
    (r : pop_result) : Prop :=
  | round_pop : PopNextRunnable s k = Ok (s', k', r) → pop_round s k s' k' r
  | round_wake : cv_wake s k = Ok (s', k', r) → pop_round s k s' k' r.

Lemma pop_round_effect s k s' k' r : pop_round s k s' k' r → pop_effect s s' r.
Proof.
  destruct 1 as [H|H]; [by eapply PopNextRunnable_effect|].
  unfold cv_wake in H. apply bind_Ok in H as (w & _ & H). cbn zeta in H.
  destruct (wait_pred _ _ _); [|by simplify_eq].
  assert (∀ s' k' r,
    PopNextRunnable (put_sleepers (delete (threadId k) (m_sleepers s))
       (put_idleCarrierCount (m_idleCarrierCount s - idle_weight (sl_kind w) k) s)) k = Ok (s', k', r) →
    pop_effect s s' r) as Hp by (intros ? ? ? Hp; exact (PopNextRunnable_effect _ _ _ _ _ Hp)).
  destruct (sl_kind w); try by eapply Hp.
  destruct (m_stopRequested _); [by simplify_eq|by eapply Hp].
Qed.

(** ** Every other scheduler step rewrites one context and may queue it *)

Definition upd (s s' : VmScheduler) (c : nat) (x : ExecutionContext) (queued : list nat) : Prop :=
  m_contexts s' = <[c := x]> (m_contexts s) ∧ m_runQueue s' = m_runQueue s ++ queued ∧
  m_nextId s' = m_nextId s.

Lemma upd_ParkIn st s k c x :
  Find s c = Some x → upd s (ParkIn st s k c).1 c (set_state st x) [].
Proof.
  intros Hx. destruct (ParkIn_effect st s k c x Hx) as [H1 H2].
  split; [exact H1|]. rewrite app_nil_r. split; [exact H2|].
  unfold ParkIn. rewrite Hx.
  pose proof (nextId_release (store_ctx c (set_state st x) s) k c) as Hn.
  destruct (ReleaseHeldIfCurrent _ _ _) as [s1 k1]. simpl in *. autorewrite with sched. exact Hn.
Qed.

Lemma upd_wake s c exc x :
  Find s c = Some x →
  upd s (WakeForChanRecv s c exc) c (set_state Runnable (arm_exc exc x))
    (if framesParked x then [c] else []).
Proof.
  intros Hx. destruct (WakeForChanRecv_effect s c exc x Hx) as [H1 H2].
  split_and!; [exact H1|exact H2|]. unfold WakeForChanRecv. rewrite Hx. fold (arm_exc exc x).
  unfold make_runnable. by destruct (framesParked (arm_exc exc x)).
Qed.

Lemma upd_make_runnable s c x :
  upd s (notify_all (make_runnable c x s)) c (set_state Runnable x) (if framesParked x then [c] else []).
Proof.
  destruct (make_runnable_effect c x s) as [H1 H2]. split_and!; [exact H1|exact H2|].
  unfold make_runnable. by destruct (framesParked x).
Qed.

Lemma upd_AbortPark s k c x :
  Find s c = Some x → upd s (AbortPark s k c).1 c (set_state Runnable x) [].
Proof.
  intros Hx. destruct (AbortPark_effect s k c x Hx) as [H1 H2].
  split; [exact H1|]. rewrite app_nil_r. split; [exact H2|]. unfold AbortPark. rewrite Hx.
  destruct (negb _); simpl; by autorewrite with sched.
Qed.

Lemma upd_land s k c stack x :
  Find s c = Some x →
  upd s (ParkContextFrames s k c stack).1 c
    (if decide (state x = Runnable) then set_frames (frames x ++ stack) x
     else set_framesParked true (set_frames (frames x ++ stack) x))
    (if decide (state x = Runnable) then [c] else []).
Proof.
  intros Hx. pose proof (ParkContextFrames_effect s k c stack x Hx) as H. cbn zeta in H.
  assert (m_nextId (ParkContextFrames s k c stack).1 = m_nextId s) as Hn.
  { unfold ParkContextFrames. rewrite Hx. cbn zeta. autorewrite with sched.
    destruct (decide (state (set_frames (frames x ++ stack) x) = Runnable)); done. }
  destruct (decide (state x = Runnable)) as [E|E]; destruct H as [H1 H2]; split_and!; try done.
  by rewrite app_nil_r.
Qed.

Lemma upd_splice s c stack base x s' stack' exc resumed :
  Find s c = Some x → SpliceResumedFrames s c stack base = Ok (s', stack', exc, resumed) →
  ∃ x', upd s s' c x' [] ∧ state x' = state x ∧
        (frames x ≠ [] ∨ framesParked x = false → framesParked x' = false).
Proof.
  intros Hx. unfold SpliceResumedFrames. rewrite Hx, derefE, bindE.
  case_decide as Ef.
  { intros [= <- _ _ _]. exists x. unfold upd. rewrite app_nil_r. split_and!; try done.
    - by rewrite list_insert_id.
    - by intros [|]. }
  intros H. apply bind_Ok in H as ([x' e] & Harm & [= <- _ _ _]).
  exists x'. unfold upd. rewrite app_nil_r. split; [done|].
  unfold ArmResumeRethrow in Harm. cbn zeta in Harm. simpl in Harm.
  destruct (rethrowOnResume x); simpl in Harm; [|by simplify_eq].
  destruct (decide (0 < resumeExcHeapIdx x)); [by simplify_eq|].
  destruct (if decide (0 ≤ parkHandle x) then _ else _) as [t|]; [|done].
  destruct (decide (0 < failExcHeapIdx t)); by simplify_eq.
Qed.

Lemma upd_MarkFinished s k c v x :
  Find s c = Some x → upd s (MarkFinished s k c v).1 c (set_resultCell v (set_state Finished x)) [].
Proof.
  intros Hx. unfold MarkFinished, upd. rewrite Hx.
  pose proof (contexts_release (store_ctx c (set_resultCell v (set_state Finished x)) s) k c) as H1.
  pose proof (queue_release (store_ctx c (set_resultCell v (set_state Finished x)) s) k c) as H2.
  pose proof (nextId_release (store_ctx c (set_resultCell v (set_state Finished x)) s) k c) as H3.
  destruct (ReleaseHeldIfCurrent _ _ _) as [s2 k2]. rewrite app_nil_r. cbn [fst] in *.
  unfold stop_if_main. case_decide; simpl; autorewrite with sched; by rewrite ?H1, ?H2, ?H3.
Qed.

(** ** Worlds and steps *)

(** Where a context is between two critical sections.  [r] is the slot and operation a
    parked context waits for, if a primitive parked it. *)
Definition reason (Op : Type) : Type := option (nat * Op).
Inductive pc (Op : Type) :=
  | PRun                          (* running on a carrier *)
  | PReg (h : nat) (op : Op)      (* registered, state not yet migrated *)
  | PMig (h : nat) (op : Op)      (* state migrated, before the recheck *)
  | PAbort (h : nat) (op : Op)    (* stamp consumed, before [AbortPark] *)
  | PUnw (r : reason Op)          (* park requested, stack still on the carrier *)
  | POff (r : reason Op)          (* stack handed over *)
  | PSplice (r : reason Op)       (* popped, stack not yet back on a carrier *)
  | PWake (ws : list (nat * Z))   (* call done, contexts left to wake *)
  | PDone.
Arguments PRun {Op}.
Arguments PReg {Op}.
Arguments PMig {Op}.
Arguments PAbort {Op}.
Arguments PUnw {Op}.
Arguments POff {Op}.
Arguments PSplice {Op}.
Arguments PWake {Op}.
Arguments PDone {Op}.

Section Protocol.
  Context {S Op : Type} `{!ParkPrim S Op}.

Record world := {
  sch : VmScheduler;
  store : list S;
  pcs : list (pc Op);
  holds : list (nat * nat);     (* context, slot: acquired and not yet released *)
}.

Definition acquire (w : world) (c : nat) (r : reason Op) : list (nat * nat) :=
  match r with
  | Some (h, op) => match store w !! h with
                    | Some s => if pp_acquires s op then (c, h) :: holds w else holds w
                    | None => holds w
                    end
  | None => holds w
  end.

(** The calls without a scheduler or with a carrier slot [k] of any thread. *)
Inductive step (w : world) : world → Prop :=
  | st_spawn k root s' c :
      RegisterContext (sch w) k = (s', c) →
      step w {| sch := store_ctx c (set_frames root (ExecutionContext0 c)) s'; store := store w;
                pcs := pcs w ++ [POff None]; holds := holds w |}
  | st_new_slot s :
      pp_wf s → (∀ c, pp_mail s c = None) →
      step w {| sch := sch w; store := store w ++ [s]; pcs := pcs w; holds := holds w |}
  | st_preempt c :
      pcs w !! c = Some PRun →
      step w {| sch := sch w; store := store w; pcs := <[c := PUnw None]> (pcs w); holds := holds w |}
  | st_ext_park c st k :
      pcs w !! c = Some PRun → st ∈ ext_states →
      step w {| sch := (ParkIn st (sch w) k c).1; store := store w;
                pcs := <[c := PUnw None]> (pcs w); holds := holds w |}
  | st_ext_wake c x :
      Find (sch w) c = Some x → state x ∈ ext_states →
      step w {| sch := notify_all (make_runnable c x (sch w)); store := store w;
                pcs := pcs w; holds := holds w |}
  | st_call_done c h op s s' ws (acq : bool) :
      pcs w !! c = Some PRun → store w !! h = Some s → pp_call s c op = Ok (s', CallDone ws acq) →
      step w {| sch := sch w; store := <[h := s']> (store w); pcs := <[c := PWake ws]> (pcs w);
                holds := (if acq then [(c, h)] else []) ++
                         (if pp_releases s op then filter (λ e, e ≠ (c, h)) (holds w) else holds w) |}
  | st_call_park c h op s s' :
      pcs w !! c = Some PRun → store w !! h = Some s → pp_call s c op = Ok (s', CallPark) →
      step w {| sch := sch w; store := <[h := s']> (store w); pcs := <[c := PReg h op]> (pcs w);
                holds := holds w |}
  | st_migrate c h op s k :
      pcs w !! c = Some (PReg h op) → store w !! h = Some s →
      step w {| sch := (ParkIn (pp_state s op) (sch w) k c).1; store := store w;
                pcs := <[c := PMig h op]> (pcs w); holds := holds w |}
  | st_recheck c h op s s' (b : bool) :
      pcs w !! c = Some (PMig h op) → store w !! h = Some s → pp_recheck s c = Ok (s', b) →
      step w {| sch := sch w; store := <[h := s']> (store w);
                pcs := <[c := if b then PUnw (Some (h, op)) else PAbort h op]> (pcs w);
                holds := holds w |}
  | st_abort c h op k :
      pcs w !! c = Some (PAbort h op) →
      step w {| sch := (AbortPark (sch w) k c).1; store := store w; pcs := <[c := PRun]> (pcs w);
                holds := acquire w c (Some (h, op)) |}
  | st_land c r k stack :
      pcs w !! c = Some (PUnw r) → stack ≠ [] →
      step w {| sch := (ParkContextFrames (sch w) k c stack).1; store := store w;
                pcs := <[c := POff r]> (pcs w); holds := holds w |}
  | st_pop c r k s' k' :
      pop_round (sch w) k s' k' (Dispatched c) → pcs w !! c = Some (POff r) →
      step w {| sch := s'; store := store w; pcs := <[c := PSplice r]> (pcs w); holds := holds w |}
  | st_pop_idle k s' k' res :
      pop_round (sch w) k s' k' res → (∀ c, res ≠ Dispatched c) →
      step w {| sch := s'; store := store w; pcs := pcs w; holds := holds w |}
  | st_splice c r stack base s' stack' exc resumed :
      pcs w !! c = Some (PSplice r) →
      SpliceResumedFrames (sch w) c stack base = Ok (s', stack', exc, resumed) →
      step w {| sch := s'; store := store w; pcs := <[c := PRun]> (pcs w); holds := acquire w c r |}
  | st_wake c d exc ws :
      pcs w !! c = Some (PWake ((d, exc) :: ws)) →
      step w {| sch := WakeForChanRecv (sch w) d exc; store := store w;
                pcs := <[c := PWake ws]> (pcs w); holds := holds w |}
  | st_woken c :
      pcs w !! c = Some (PWake []) →
      step w {| sch := sch w; store := store w; pcs := <[c := PRun]> (pcs w); holds := holds w |}
  | st_finish c k v :
      pcs w !! c = Some PRun →
      step w {| sch := (MarkFinished (sch w) k c v).1; store := store w;
                pcs := <[c := PDone]> (pcs w); holds := holds w |}.

(** ** The invariant *)

Definition mail_at (w : world) (h c : nat) : option mail := s ← store w !! h; pp_mail s c.
Definition grant_at (w : world) (h c : nat) : Prop := ∃ s, store w !! h = Some s ∧ pp_grant s c.
Definition no_mail (w : world) (c : nat) : Prop := ∀ h, mail_at w h c = None.
Definition mail_only (w : world) (c h : nat) (m : mail) : Prop :=
  mail_at w h c = Some m ∧ ∀ h', h' ≠ h → mail_at w h' c = None.

(** [c] is on some running context's list of contexts to wake. *)
Definition pending (w : world) (c : nat) : Prop :=
  ∃ a ws, pcs w !! a = Some (PWake ws) ∧ c ∈ ws.*1.
Definition queued (w : world) (c : nat) : Prop := c ∈ m_runQueue (sch w).

(** Registered and not yet rechecked: nobody answered, or the answer is a grant. *)
Definition in_handshake (w : world) (c h : nat) : Prop :=
  mail_only w c h MPending ∨ (mail_only w c h MStamped ∧ grant_at w h c).

(** Parked on a primitive: nobody answered; or answered and the wake is on its way; or
    awake. *)
Definition waiting (w : world) (c h : nat) (st : ContextState) : Prop :=
  (st ∈ prim_states ∧ mail_only w c h MCommitted ∧ ¬ pending w c) ∨
  (st ∈ prim_states ∧ no_mail w c ∧ grant_at w h c ∧ pending w c) ∨
  (st = Runnable ∧ no_mail w c ∧ grant_at w h c ∧ ¬ pending w c).

Definition parked_ok (w : world) (c : nat) (r : reason Op) (st : ContextState) : Prop :=
  match r with
  | None => st ∈ Runnable :: ext_states ∧ no_mail w c ∧ ¬ pending w c
  | Some (h, _) => waiting w c h st
  end.

Definition granted (w : world) (c : nat) (r : reason Op) : Prop :=
  match r with None => True | Some (h, _) => grant_at w h c end.

Definition ctx_ok (w : world) (c : nat) (p : pc Op) (x : ExecutionContext) : Prop :=
  match p with
  | PRun | PWake _ =>
      state x = Runnable ∧ framesParked x = false ∧ ¬ queued w c ∧ no_mail w c ∧ ¬ pending w c
  | PReg h _ =>
      state x = Runnable ∧ framesParked x = false ∧ ¬ queued w c ∧ in_handshake w c h ∧ ¬ pending w c
  | PMig h _ =>
      state x ∈ prim_states ∧ framesParked x = false ∧ ¬ queued w c ∧ in_handshake w c h ∧
      ¬ pending w c
  | PAbort h _ =>
      state x ∈ prim_states ∧ framesParked x = false ∧ ¬ queued w c ∧ no_mail w c ∧
      grant_at w h c ∧ ¬ pending w c
  | PUnw r =>
      framesParked x = false ∧ ¬ queued w c ∧ parked_ok w c r (state x)
  | POff r =>
      (framesParked x = true → frames x ≠ []) ∧
      (state x = Runnable → queued w c) ∧ (state x ≠ Runnable → framesParked x = true ∧ ¬ queued w c) ∧
      parked_ok w c r (state x)
  | PSplice r =>
      state x = Runnable ∧ (framesParked x = true → frames x ≠ []) ∧ ¬ queued w c ∧
      no_mail w c ∧ ¬ pending w c ∧ granted w c r
  | PDone => state x = Finished ∧ ¬ queued w c ∧ no_mail w c ∧ ¬ pending w c
  end.

(** A context of the registry satisfies its clause; an id outside of it occurs nowhere. *)
Definition id_ok (w : world) (c : nat) : Prop :=
  match pcs w !! c with
  | Some p => ∃ x, Find (sch w) c = Some x ∧ ctx_ok w c p x
  | None => Find (sch w) c = None ∧ ¬ queued w c ∧ no_mail w c ∧ ¬ pending w c
  end.

Record Inv (w : world) : Prop := {
  inv_ids : ∀ c, id_ok w c;
  inv_next : m_nextId (sch w) = length (pcs w);
  inv_queue : NoDup (m_runQueue (sch w));
  inv_slots : ∀ h s, store w !! h = Some s → pp_wf s;
  inv_wakers : ∀ a b ws ws' d,
    pcs w !! a = Some (PWake ws) → pcs w !! b = Some (PWake ws') → d ∈ ws.*1 → d ∈ ws'.*1 → a = b;
  inv_wakers_NoDup : ∀ a ws, pcs w !! a = Some (PWake ws) → NoDup ws.*1;
  inv_holds : ∀ c h, (c, h) ∈ holds w → grant_at w h c;
}.

(** ** Frames: what a step leaves alone *)

Definition pc_wakes (p : pc Op) : list nat := match p with PWake ws => ws.*1 | _ => [] end.

Lemma pending_wakes w d : pending w d ↔ ∃ a p, pcs w !! a = Some p ∧ d ∈ pc_wakes p.
Proof.
  split.
  - intros (a & ws & Ha & Hd). by exists a, (PWake ws).
  - intros (a & p & Ha & Hd). destruct p; simpl in Hd; try by apply not_elem_of_nil in Hd.
    by eexists _, _.
Qed.

(** One program counter moves and nobody's list of wakes changes. *)
Lemma pending_move w w' c p p' d :
  pcs w !! c = Some p → pcs w' = <[c := p']> (pcs w) → pc_wakes p' = pc_wakes p →
  (pending w' d ↔ pending w d).
Proof.
  intros Hc Hp Hw. rewrite !pending_wakes, Hp. split; intros (a & q & Ha & Hd).
  - apply list_lookup_insert_Some in Ha as [(<- & <- & _)|[_ Ha]]; [|by eexists _, _].
    exists c, p. by rewrite <- Hw.
  - destruct (decide (a = c)) as [->|Hne].
    + exists c, p'. rewrite Hw. simplify_eq. split; [|done].
      apply list_lookup_insert_eq. by eapply lookup_lt_Some.
    + exists a, q. by rewrite list_lookup_insert_ne.
Qed.

Lemma id_ok_frame w w' d :
  id_ok w d → pcs w' !! d = pcs w !! d → Find (sch w') d = Find (sch w) d →
  (queued w' d ↔ queued w d) → (∀ h, mail_at w' h d = mail_at w h d) →
  (pending w' d ↔ pending w d) → (∀ h, grant_at w h d → grant_at w' h d) → id_ok w' d.
Proof.
  intros Hok Hpc Hf Hq Hm Hp Hg.
  assert (no_mail w' d ↔ no_mail w d) as Hnm by (unfold no_mail; by setoid_rewrite Hm).
  assert (∀ h m, mail_only w' d h m ↔ mail_only w d h m) as Hmo
    by (intros; unfold mail_only; by setoid_rewrite Hm).
  unfold id_ok in *. rewrite Hpc, Hf. destruct (pcs w !! d) as [p|]; [|by rewrite Hq, Hnm, Hp].
  destruct Hok as (x & Hx & Hok). exists x. split; [done|].
  assert (∀ h, in_handshake w d h → in_handshake w' d h) as Hih
    by (intros h; unfold in_handshake; rewrite !Hmo; naive_solver).
  assert (∀ r, parked_ok w d r (state x) → parked_ok w' d r (state x)) as Hpk.
  { intros [[h op]|]; simpl; [|by rewrite Hnm, Hp].
    unfold waiting. rewrite !Hmo, Hnm, Hp. naive_solver. }
  assert (∀ r, granted w d r → granted w' d r) as Hgr by (intros [[h op]|]; simpl; auto).
  destruct p; simpl in *; rewrite ?Hq, ?Hnm, ?Hp; naive_solver.
Qed.

Lemma inv_move w w' c p p' x' :
  Inv w → pcs w !! c = Some p → pcs w' = <[c := p']> (pcs w) → pc_wakes p' = pc_wakes p →
  (∀ d, d ≠ c → Find (sch w') d = Find (sch w) d ∧ (queued w' d ↔ queued w d)) →
  (∀ d h, d ≠ c → mail_at w' h d = mail_at w h d) →
  (∀ d h, grant_at w h d → grant_at w' h d) →
  NoDup (m_runQueue (sch w')) → m_nextId (sch w') = m_nextId (sch w) →
  (∀ h s, store w' !! h = Some s → pp_wf s) →
  (∀ a h, (a, h) ∈ holds w' → (a, h) ∈ holds w ∨ grant_at w' h a) →
  Find (sch w') c = Some x' → ctx_ok w' c p' x' → Inv w'.
Proof.
  intros I Hc Hp Hw Hd Hm Hg Hq Hn Hs Hh Hf Hok.
  assert (∀ a ws, pcs w' !! a = Some (PWake ws) → ∃ ws', pcs w !! a = Some (PWake ws') ∧ ws.*1 = ws'.*1 ∨ ws.*1 = []) as Hwk.
  { intros a ws Ha. rewrite Hp in Ha.
    apply list_lookup_insert_Some in Ha as [(<- & -> & _)|[_ Ha]]; [|exists ws; by left].
    simpl in Hw. destruct p; simpl in Hw; (try (exists []; by right)). by eexists; left. }
  split.
  - intros d. destruct (decide (d = c)) as [->|Hne].
    + unfold id_ok. rewrite Hp, list_lookup_insert_eq by (by eapply lookup_lt_Some). by exists x'.
    + destruct (Hd d Hne) as [H1 H2]. eapply id_ok_frame; [apply I|..]; eauto.
      * by rewrite Hp, list_lookup_insert_ne.
      * by eapply pending_move.
  - rewrite Hn, Hp, length_insert. apply I.
  - done.
  - done.
  - intros a b ws ws' d Ha Hb Hda Hdb.
    apply Hwk in Ha as (wa & [[Ha Ea]|Ea]); [|rewrite Ea in Hda; by apply not_elem_of_nil in Hda].
    apply Hwk in Hb as (wb & [[Hb Eb]|Eb]); [|rewrite Eb in Hdb; by apply not_elem_of_nil in Hdb].
    rewrite Ea in Hda. rewrite Eb in Hdb. eapply inv_wakers; eauto.
  - intros a ws Ha. apply Hwk in Ha as (wa & [[Ha ->]| ->]); [|constructor].
    by eapply inv_wakers_NoDup.
  - intros a h [Ha|Ha]%Hh; [|done]. apply Hg. by eapply inv_holds.
Qed.

(** A scheduler step of [c] only. *)
Lemma inv_sched w c p p' s' x x' q hs :
  Inv w → pcs w !! c = Some p → pc_wakes p' = pc_wakes p →
  upd (sch w) s' c x' q → Find (sch w) c = Some x → (q = [] ∨ q = [c] ∧ ¬ queued w c) →
  (∀ a h, (a, h) ∈ hs → (a, h) ∈ holds w ∨ grant_at w h a) →
  let w' := {| sch := s'; store := store w; pcs := <[c := p']> (pcs w); holds := hs |} in
  ((∀ d, pending w' d ↔ pending w d) → (queued w' c ↔ queued w c ∨ q = [c]) → ctx_ok w' c p' x') →
  Inv w'.
Proof.
  intros I Hc Hw (H1 & H2 & H3) Hx Hq Hh w' Hok.
  assert (∀ d, d ≠ c → (queued w' d ↔ queued w d)) as Hqd.
  { intros d Hd. unfold queued. simpl. rewrite H2, elem_of_app.
    destruct Hq as [->|[-> _]]; rewrite ?list_elem_of_singleton; [|tauto].
    split; [intros [?|?%not_elem_of_nil]; done|tauto]. }
  eapply (inv_move w w' c p p' x'); try done.
  - intros d Hd. split; [|by apply Hqd]. unfold Find. simpl. rewrite H1. by rewrite list_lookup_insert_ne.
  - simpl. rewrite H2. destruct Hq as [->|[-> Hnq]]; [rewrite app_nil_r; apply I|].
    apply list.NoDup_app. split_and!; [apply I| |apply NoDup_singleton].
    by intros d Hd ->%list_elem_of_singleton.
  - apply I.
  - unfold Find. simpl. rewrite H1. apply list_lookup_insert_eq. by eapply lookup_lt_Some.
  - apply Hok; [intros d; by eapply pending_move|]. unfold queued. simpl. rewrite H2, elem_of_app.
    destruct Hq as [->|[-> _]]; rewrite ?list_elem_of_singleton; [|tauto].
    split; [intros [?|?%not_elem_of_nil]; tauto|intros [?|?]; [tauto|done]].
Qed.

(** A critical section of slot [h] run by [c], which answers nobody. *)
Lemma inv_slot w c p p' h s s' :
  Inv w → pcs w !! c = Some p → pc_wakes p' = pc_wakes p →
  store w !! h = Some s → pp_wf s' →
  (∀ d, d ≠ c → pp_mail s' d = pp_mail s d) → (∀ d, pp_grant s d → pp_grant s' d) →
  let w' := {| sch := sch w; store := <[h := s']> (store w); pcs := <[c := p']> (pcs w);
               holds := holds w |} in
  ((∀ d, pending w' d ↔ pending w d) → (∀ h', mail_at w' h' c = if decide (h' = h) then pp_mail s' c
     else mail_at w h' c) → (∀ h' d, grant_at w h' d → grant_at w' h' d) →
   ∀ x, Find (sch w) c = Some x → ctx_ok w c p x → ctx_ok w' c p' x) →
  Inv w'.
Proof.
  intros I Hc Hw Hs Hwf Hm Hg w' Hok.
  assert (∀ h' d, grant_at w h' d → grant_at w' h' d) as Hgr.
  { intros h' d (t & Ht & Htg). unfold grant_at. simpl.
    destruct (decide (h' = h)) as [->|Hne].
    - exists s'. rewrite list_lookup_insert_eq by (by eapply lookup_lt_Some).
      split; [done|]. apply Hg. by simplify_eq.
    - exists t. by rewrite list_lookup_insert_ne. }
  assert (∀ h' d, mail_at w' h' d = if decide (h' = h) then pp_mail s' d else mail_at w h' d) as Hma.
  { intros h' d. unfold mail_at. simpl. case_decide as Hh.
    - subst. by rewrite list_lookup_insert_eq by (by eapply lookup_lt_Some).
    - by rewrite list_lookup_insert_ne. }
  pose proof (inv_ids w I c) as Hid. unfold id_ok in Hid. rewrite Hc in Hid. destruct Hid as (x & Hx & Hpx).
  eapply (inv_move w w' c p p' x); try done.
  - intros d h' Hd. rewrite Hma. case_decide as Hh; [|done]. subst. rewrite Hm by done.
    unfold mail_at. by rewrite Hs.
  - intros d h'. apply Hgr.
  - apply I.
  - intros h' t Ht. simpl in Ht. apply list_lookup_insert_Some in Ht as [(_ & <- & _)|[_ Ht]]; [done|].
    by eapply inv_slots.
  - by left.
  - apply Hok; try done. intros d. by eapply pending_move.
Qed.
End Protocol.
Arguments world : clear implicits.

(** ** Preservation *)
Section Preservation.
  Context {S Op : Type} `{!ParkPrim S Op} `{!ParkPrimLaws S Op}.
  Implicit Types w : world S Op.

Lemma ctx_of w c p : Inv w → pcs w !! c = Some p → ∃ x, Find (sch w) c = Some x ∧ ctx_ok w c p x.
Proof. intros I Hc. pose proof (inv_ids w I c) as H. unfold id_ok in H. by rewrite Hc in H. Qed.

Lemma prim_not_Runnable st : st ∈ prim_states → st ≠ Runnable.
Proof. intros H ->. unfold prim_states in H. set_unfold. naive_solver. Qed.
Lemma ext_not_Runnable st : st ∈ ext_states → st ≠ Runnable ∧ st ≠ Finished ∧ (st ∉ prim_states).
Proof. intros H. unfold ext_states, prim_states in *. set_unfold. naive_solver. Qed.

Lemma inv_preempt w c :
  Inv w → pcs w !! c = Some PRun →
  Inv {| sch := sch w; store := store w; pcs := <[c := PUnw None]> (pcs w); holds := holds w |}.
Proof.
  intros I Hc. destruct (ctx_of w c _ I Hc) as (x & Hx & H1 & H2 & H3 & H4 & H5).
  eapply (inv_sched w c PRun (PUnw None) (sch w) x x []); try done.
  - unfold upd. rewrite app_nil_r. split_and!; try done. by rewrite list_insert_id.
  - by left.
  - by left.
  - intros Hp Hq. simpl. rewrite Hp. split_and!; try done. rewrite H1. left.
Qed.

Lemma inv_ext_park w c st k :
  Inv w → pcs w !! c = Some PRun → st ∈ ext_states →
  Inv {| sch := (ParkIn st (sch w) k c).1; store := store w; pcs := <[c := PUnw None]> (pcs w);
         holds := holds w |}.
Proof.
  intros I Hc Hst. destruct (ctx_of w c _ I Hc) as (x & Hx & H1 & H2 & H3 & H4 & H5).
  eapply (inv_sched w c PRun (PUnw None)); try done; [by apply upd_ParkIn|by left|by left|].
  intros Hp Hq. simpl. rewrite Hp. split_and!; try done; [intros [?|?]%Hq; done|]. by right.
Qed.

Lemma inv_migrate w c h op s k :
  Inv w → pcs w !! c = Some (PReg h op) →
  Inv {| sch := (ParkIn (pp_state s op) (sch w) k c).1; store := store w;
         pcs := <[c := PMig h op]> (pcs w); holds := holds w |}.
Proof.
  intros I Hc. destruct (ctx_of w c _ I Hc) as (x & Hx & H1 & H2 & H3 & H4 & H5).
  eapply (inv_sched w c _ (PMig h op)); try done; [by apply upd_ParkIn|by left|by left|].
  intros Hp Hq. simpl. rewrite Hp. split_and!; try done; [apply pp_state_parked|intros [?|?]%Hq; done].
Qed.

Lemma acquire_in w c r a h :
  granted w c r → (a, h) ∈ acquire w c r → (a, h) ∈ holds w ∨ grant_at w h a.
Proof.
  destruct r as [[h' op]|]; simpl; [|by left]. intros Hg.
  destruct (store w !! h') as [s|]; [|by left]. destruct (pp_acquires s op); [|by left].
  rewrite elem_of_cons. intros [[= -> ->]|?]; [by right|by left].
Qed.

Lemma inv_abort w c h op k :
  Inv w → pcs w !! c = Some (PAbort h op) →
  Inv {| sch := (AbortPark (sch w) k c).1; store := store w; pcs := <[c := PRun]> (pcs w);
         holds := acquire w c (Some (h, op)) |}.
Proof.
  intros I Hc. destruct (ctx_of w c _ I Hc) as (x & Hx & H1 & H2 & H3 & H4 & H5 & H6).
  eapply (inv_sched w c _ PRun); try done; [by apply upd_AbortPark|by left|by intros a h'; apply acquire_in|].
  intros Hp Hq. simpl. rewrite Hp. split_and!; try done. intros [?|?]%Hq; done.
Qed.

Lemma inv_land w c r k stack :
  Inv w → pcs w !! c = Some (PUnw r) → stack ≠ [] →
  Inv {| sch := (ParkContextFrames (sch w) k c stack).1; store := store w;
         pcs := <[c := POff r]> (pcs w); holds := holds w |}.
Proof.
  intros I Hc Hst. destruct (ctx_of w c _ I Hc) as (x & Hx & H1 & H2 & H3).
  assert (frames x ++ stack ≠ []) as Hne by (intros [_ ?]%app_eq_nil; done).
  eapply (inv_sched w c _ (POff r)); try done; [by apply upd_land| |by left|].
  { case_decide; [by right|by left]. }
  intros Hp Hq.
  assert (parked_ok w c r (state x) → parked_ok {| sch := (ParkContextFrames (sch w) k c stack).1;
    store := store w; pcs := <[c := POff r]> (pcs w); holds := holds w |} c r (state x)) as Hpk.
  { destruct r as [[h op]|]; simpl; [unfold waiting|]; rewrite Hp; done. }
  destruct (decide (state x = Runnable)) as [E|E]; simpl; rewrite Hq; split_and!; try done; try (by apply Hpk).
  - by right.
  - intros _. split; [done|]. by intros [?|?].
Qed.

Lemma inv_splice w c r stack base s' stack' exc resumed :
  Inv w → pcs w !! c = Some (PSplice r) →
  SpliceResumedFrames (sch w) c stack base = Ok (s', stack', exc, resumed) →
  Inv {| sch := s'; store := store w; pcs := <[c := PRun]> (pcs w); holds := acquire w c r |}.
Proof.
  intros I Hc Hs. destruct (ctx_of w c _ I Hc) as (x & Hx & H1 & H2 & H3 & H4 & H5 & H6).
  destruct (upd_splice _ _ _ _ _ _ _ _ _ Hx Hs) as (x' & Hu & Hst & Hfp).
  eapply (inv_sched w c _ PRun); try done; [by left|by intros a h; apply acquire_in|].
  intros Hp Hq. simpl. rewrite Hp, Hst. split_and!; try done; [|tauto || (intros [?|?]%Hq; done)].
  apply Hfp. destruct (framesParked x); [left; auto|by right].
Qed.

Lemma inv_woken w c :
  Inv w → pcs w !! c = Some (PWake []) →
  Inv {| sch := sch w; store := store w; pcs := <[c := PRun]> (pcs w); holds := holds w |}.
Proof.
  intros I Hc. destruct (ctx_of w c _ I Hc) as (x & Hx & H1 & H2 & H3 & H4 & H5).
  eapply (inv_sched w c _ PRun (sch w) x x []); try done.
  - unfold upd. rewrite app_nil_r. split_and!; try done. by rewrite list_insert_id.
  - by left.
  - by left.
  - intros Hp Hq. simpl. rewrite Hp. split_and!; try done; tauto.
Qed.

Lemma inv_finish w c k v :
  Inv w → pcs w !! c = Some PRun →
  Inv {| sch := (MarkFinished (sch w) k c v).1; store := store w; pcs := <[c := PDone]> (pcs w);
         holds := holds w |}.
Proof.
  intros I Hc. destruct (ctx_of w c _ I Hc) as (x & Hx & H1 & H2 & H3 & H4 & H5).
  eapply (inv_sched w c _ PDone); try done; [by apply upd_MarkFinished|by left|by left|].
  intros Hp Hq. simpl. rewrite Hp. split_and!; try done. intros [?|?]%Hq; done.
Qed.

Lemma inv_call_park w c h op s s' :
  Inv w → pcs w !! c = Some PRun → store w !! h = Some s → pp_call s c op = Ok (s', CallPark) →
  Inv {| sch := sch w; store := <[h := s']> (store w); pcs := <[c := PReg h op]> (pcs w);
         holds := holds w |}.
Proof.
  intros I Hc Hs Hcall. destruct (ctx_of w c _ I Hc) as (x0 & Hx0 & _ & _ & _ & Hnm & _).
  assert (pp_mail s c = None) as Hm.
  { specialize (Hnm h). unfold mail_at in Hnm. by rewrite Hs in Hnm. }
  destruct (pp_call_park s c op s' (inv_slots w I h s Hs) Hm Hcall) as (G1 & G2 & G3 & G4).
  eapply (inv_slot w c PRun (PReg h op) h s s'); try done.
  intros Hp Hma Hg x Hx (H1 & H2 & H3 & H4 & H5). simpl. rewrite Hp. split_and!; try done.
  left. split; [by rewrite Hma, decide_True|]. intros h' Hne. by rewrite Hma, decide_False.
Qed.

Lemma inv_recheck w c h op s s' (b : bool) :
  Inv w → pcs w !! c = Some (PMig h op) → store w !! h = Some s → pp_recheck s c = Ok (s', b) →
  Inv {| sch := sch w; store := <[h := s']> (store w);
         pcs := <[c := if b then PUnw (Some (h, op)) else PAbort h op]> (pcs w); holds := holds w |}.
Proof.
  intros I Hc Hs Hre. destruct (ctx_of w c _ I Hc) as (x0 & Hx0 & _ & _ & _ & Hih & _).
  assert (∃ m, pp_mail s c = Some m ∧ m ≠ MCommitted ∧ (∀ h', h' ≠ h → mail_at w h' c = None) ∧
               (m = MStamped → grant_at w h c) ∧ (m = MPending ∨ m = MStamped))
    as (m & Hm & Hne & Hoth & Hgr & Hcase).
  { destruct Hih as [[Hm Ho]|[[Hm Ho] Hg]]; unfold mail_at in Hm; rewrite Hs in Hm;
      eexists; (split_and!; [exact Hm|done|done|done|tauto]). }
  destruct (pp_recheck_spec s c m (inv_slots w I h s Hs) Hm Hne) as (t & E & G1 & G2 & G3 & G4).
  rewrite E in Hre. injection Hre as <- <-.
  destruct Hcase as [->| ->].
  - change (bool_decide (MPending = MPending)) with true. simpl in G2.
    eapply (inv_slot w c _ _ h s t); try done.
    intros Hp Hma Hg x Hx (H1 & H2 & H3 & H4 & H5). simpl. split_and!; try done.
    left. rewrite Hp. split_and!; try done.
    split; [by rewrite Hma, decide_True|]. intros h' Hh. rewrite Hma, decide_False; auto.
  - change (bool_decide (MStamped = MPending)) with false. simpl in G2.
    eapply (inv_slot w c _ _ h s t); try done.
    intros Hp Hma Hg x Hx (H1 & H2 & H3 & H4 & H5). simpl. rewrite Hp. split_and!; try done; [|by auto].
    intros h'. rewrite Hma. destruct (decide (h' = h)); [exact G2|by apply Hoth].
Qed.

Lemma inv_pop w c r k s' k' :
  Inv w → pop_round (sch w) k s' k' (Dispatched c) → pcs w !! c = Some (POff r) →
  Inv {| sch := s'; store := store w; pcs := <[c := PSplice r]> (pcs w); holds := holds w |}.
Proof.
  intros I Hpop Hc. destruct (ctx_of w c _ I Hc) as (x & Hx & H1 & H2 & H3 & H4).
  apply pop_round_effect in Hpop as (Hn & Hq & n & Hctx). rewrite Hx in Hctx.
  pose proof (inv_queue w I) as N. rewrite Hq in N. apply list.NoDup_cons in N as [Hnc N].
  assert (queued w c) as Hqc by (unfold queued; rewrite Hq; left).
  assert (state x = Runnable) as Hst.
  { destruct (decide (state x = Runnable)) as [|Hne]; [done|]. by destruct (H3 Hne). }
  assert (no_mail w c ∧ ¬ pending w c ∧ granted w c r) as (G1 & G2 & G3).
  { destruct r as [[h op]|]; simpl in *; [|tauto].
    destruct H4 as [(Hp & _)|[(Hp & _)|H4]]; [by apply prim_not_Runnable in Hp..|tauto]. }
  eapply (inv_move w _ c _ _ (set_lastCarrier n x)); try done.
  - intros d Hd. split.
    + unfold Find. simpl. rewrite Hctx. by rewrite list_lookup_insert_ne.
    + unfold queued. simpl. rewrite Hq, elem_of_cons. tauto.
  - apply I.
  - by left.
  - unfold Find. simpl. rewrite Hctx. apply list_lookup_insert_eq. by eapply lookup_lt_Some.
  - simpl. split_and!; try done. rewrite pending_move; done.
Qed.

Lemma inv_pop_idle w k s' k' res :
  Inv w → pop_round (sch w) k s' k' res → (∀ c, res ≠ Dispatched c) →
  Inv {| sch := s'; store := store w; pcs := pcs w; holds := holds w |}.
Proof.
  intros I Hpop Hne. apply pop_round_effect in Hpop as (Hn & Hq).
  assert (m_runQueue s' = m_runQueue (sch w) ∧ m_contexts s' = m_contexts (sch w)) as [G1 G2]
    by (destruct res; try done; by edestruct Hne).
  split; try apply I.
  - intros d. eapply id_ok_frame; [apply I|..]; try done.
    + unfold Find. simpl. by rewrite G2.
    + unfold queued. simpl. by rewrite G1.
  - simpl. rewrite Hn. apply I.
  - simpl. rewrite G1. apply I.
Qed.

(** A waker of another kind finds only contexts that no primitive parked. *)
Lemma inv_ext_wake w c x :
  Inv w → Find (sch w) c = Some x → state x ∈ ext_states →
  Inv {| sch := notify_all (make_runnable c x (sch w)); store := store w; pcs := pcs w;
         holds := holds w |}.
Proof.
  intros I Hx Hst. apply ext_not_Runnable in Hst as Hst'. destruct Hst' as (N1 & N2 & N3).
  pose proof (inv_ids w I c) as Hid. unfold id_ok in Hid.
  destruct (pcs w !! c) as [p|] eqn:Hc; [|destruct Hid; congruence].
  destruct Hid as (x' & Hx' & Hok). rewrite Hx in Hx'. injection Hx' as <-.
  rewrite <- (list_insert_id (pcs w) c p Hc).
  destruct p as [|h op|h op|h op|r|r|r|ws|]; simpl in Hok;
    try (exfalso; destruct Hok as [? ?]; congruence).
  - destruct Hok as (H1 & H2 & H3). destruct r as [[h op]|].
    { exfalso. destruct H3 as [[? _]|[[? _]|[? _]]]; done. }
    eapply (inv_sched w c _ (PUnw None)); try done; [apply upd_make_runnable| |by left|].
    { rewrite H1. by left. }
    intros Hp Hq. rewrite H1 in Hq. simpl in *. rewrite Hp. split_and!; try tauto.
    + intros [?|?]%Hq; done.
    + left.
  - destruct Hok as (H1 & H2 & H3 & H4). destruct r as [[h op]|].
    { exfalso. destruct H4 as [[? _]|[[? _]|[? _]]]; done. }
    destruct (H3 N1) as [Hfp Hnq].
    eapply (inv_sched w c _ (POff None)); try done; [apply upd_make_runnable| |by left|].
    { rewrite Hfp. by right. }
    intros Hp Hq. rewrite Hfp in Hq. simpl in *. rewrite Hp. split_and!; try tauto; try done.
    left.
Qed.

Lemma inv_new_slot w s :
  Inv w → pp_wf s → (∀ c, pp_mail s c = None) →
  Inv {| sch := sch w; store := store w ++ [s]; pcs := pcs w; holds := holds w |}.
Proof.
  intros I Hwf Hm.
  assert (∀ h t, store w !! h = Some t → (store w ++ [s]) !! h = Some t) as Hl
    by (intros h t Ht; apply lookup_app_l_Some; done).
  assert (∀ h d, grant_at w h d →
    grant_at {| sch := sch w; store := store w ++ [s]; pcs := pcs w; holds := holds w |} h d) as Hg
    by (intros h d (t & Ht & Hg); exists t; split; [by apply Hl|done]).
  split; try apply I.
  - intros d. eapply id_ok_frame; [apply I|..]; try done.
    + intros h. unfold mail_at. simpl. destruct (store w !! h) as [t|] eqn:E; [by rewrite (Hl _ _ E)|].
      destruct ((store w ++ [s]) !! h) as [t|] eqn:E'; [|done]. simpl.
      apply lookup_app_Some in E' as [E'|[_ E']]; [congruence|].
      apply list_lookup_singleton_Some in E' as [_ <-]. apply Hm.
    + intros h. apply Hg.
  - intros h t Ht. simpl in Ht. apply lookup_app_Some in Ht as [Ht|[_ Ht]]; [by eapply inv_slots|].
    apply list_lookup_singleton_Some in Ht as [_ <-]. done.
  - intros c h Hc. apply Hg. by eapply inv_holds.
Qed.

Lemma inv_registry_length w : Inv w → length (m_contexts (sch w)) = length (pcs w).
Proof.
  intros I. apply Nat.le_antisymm.
  - destruct (decide (length (m_contexts (sch w)) ≤ length (pcs w))%nat) as [|Hlt]; [done|].
    pose proof (inv_ids w I (length (pcs w))) as H. unfold id_ok in H.
    rewrite lookup_ge_None_2 in H by done. destruct H as [H _]. apply lookup_ge_None_1 in H. lia.
  - destruct (decide (length (pcs w) ≤ length (m_contexts (sch w)))%nat) as [|Hlt]; [done|].
    destruct (lookup_lt_is_Some_2 (pcs w) (length (m_contexts (sch w)))) as [p Hp]; [lia|].
    destruct (ctx_of w _ p I Hp) as (x & Hx & _). apply lookup_lt_Some in Hx. lia.
Qed.

Lemma inv_spawn w k root s' c :
  Inv w → RegisterContext (sch w) k = (s', c) →
  Inv {| sch := store_ctx c (set_frames root (ExecutionContext0 c)) s'; store := store w;
         pcs := pcs w ++ [POff None]; holds := holds w |}.
Proof.
  intros I Hr. destruct (RegisterContext_effect (sch w) k) as (E1 & E2 & E3).
  assert (m_nextId s' = Datatypes.S (m_nextId (sch w))) as E4 by (unfold RegisterContext in Hr; by simplify_eq).
  rewrite Hr in E1, E2, E3. simpl in *. pose proof (inv_next w I) as Hn.
  pose proof (inv_registry_length w I) as Hlen. set (w' := {| sch := _ |}).
  assert (c = length (pcs w)) as -> by congruence. set (c := length (pcs w)) in *.
  assert (m_contexts (sch w') = m_contexts (sch w) ++ [set_frames root (ExecutionContext0 c)]) as Hctx.
  { simpl. rewrite E2, <- Hn. fold c. rewrite Hn. fold c.
    rewrite insert_app_r_alt by lia. by rewrite Hlen, Nat.sub_diag. }
  assert (m_runQueue (sch w') = m_runQueue (sch w) ++ [c]) as Hq by (simpl; by rewrite E3, Hn).
  assert (∀ d, pending w' d ↔ pending w d) as Hp.
  { intros d. rewrite !pending_wakes. simpl. split; intros (a & p & Ha & Hd).
    - apply lookup_app_Some in Ha as [Ha|[_ Ha]]; [by eexists _, _|].
      apply list_lookup_singleton_Some in Ha as [_ <-]. by apply not_elem_of_nil in Hd.
    - exists a, p. split; [by apply lookup_app_l_Some|done]. }
  assert (Find (sch w) c = None ∧ ¬ queued w c ∧ no_mail w c ∧ ¬ pending w c) as (F1 & F2 & F3 & F4).
  { pose proof (inv_ids w I c) as H. unfold id_ok in H. by rewrite lookup_ge_None_2 in H by (subst c; lia). }
  split.
  - intros d. destruct (decide (d = c)) as [->|Hd].
    + unfold id_ok. change (pcs w') with (pcs w ++ [POff (None : reason Op)]).
      rewrite lookup_app_r, Nat.sub_diag by (subst c; lia). cbn [lookup list_lookup].
      exists (set_frames root (ExecutionContext0 c)). split.
      { unfold Find. rewrite Hctx, lookup_app_r by lia. by rewrite Hlen, Nat.sub_diag. }
      simpl. rewrite Hp. split_and!; try done; [|left].
      intros _. unfold queued. rewrite Hq, elem_of_app, list_elem_of_singleton. by right.
    + eapply id_ok_frame; [apply I|..]; try done.
      * simpl. destruct (decide (d < c)%nat); [by apply lookup_app_l|].
        rewrite !lookup_ge_None_2; [done|subst c; lia|]. rewrite length_app. simpl. subst c. lia.
      * unfold Find. rewrite Hctx. destruct (decide (d < c)%nat); [apply lookup_app_l; lia|].
        rewrite !lookup_ge_None_2; [done|lia|]. rewrite length_app. simpl. lia.
      * unfold queued. rewrite Hq, elem_of_app, list_elem_of_singleton. tauto.
  - simpl. rewrite E4, length_app, Hn. simpl. lia.
  - rewrite Hq. apply list.NoDup_app. split_and!; [apply I| |apply NoDup_singleton].
    by intros d Hd ->%list_elem_of_singleton.
  - apply I.
  - intros a b ws ws' d Ha Hb. simpl in Ha, Hb.
    apply lookup_app_Some in Ha as [Ha|[_ Ha]]; [|by apply list_lookup_singleton_Some in Ha as [_ ?]].
    apply lookup_app_Some in Hb as [Hb|[_ Hb]]; [|by apply list_lookup_singleton_Some in Hb as [_ ?]].
    by eapply inv_wakers.
  - intros a ws Ha. simpl in Ha.
    apply lookup_app_Some in Ha as [Ha|[_ Ha]]; [|by apply list_lookup_singleton_Some in Ha as [_ ?]].
    by eapply inv_wakers_NoDup.
  - intros a h Ha. apply (inv_holds w I a h Ha).
Qed.

(** A wake: its target waits for exactly this, and leaves the list. *)
Lemma inv_wake w c d exc ws :
  Inv w → pcs w !! c = Some (PWake ((d, exc) :: ws)) →
  Inv {| sch := WakeForChanRecv (sch w) d exc; store := store w;
         pcs := <[c := PWake ws]> (pcs w); holds := holds w |}.
Proof.
  intros I Hc. set (w' := {| sch := _ |}).
  assert (pending w d) as Hpd by (exists c, ((d, exc) :: ws); split; [done|left]).
  pose proof (inv_wakers_NoDup w I c _ Hc) as N. simpl in N. apply list.NoDup_cons in N as [Hdw N].
  destruct (ctx_of w c _ I Hc) as (xc & Hxc & C1 & C2 & C3 & C4 & C5).
  assert (d ≠ c) as Hdc by (by intros ->).
  assert (∃ p x, pcs w !! d = Some p ∧ Find (sch w) d = Some x ∧ ctx_ok w d p x) as (p & x & Hp & Hx & Hok).
  { pose proof (inv_ids w I d) as H. unfold id_ok in H.
    destruct (pcs w !! d) as [p|]; [|by destruct H as (_ & _ & _ & ?)].
    destruct H as (x & Hx & Hok). by exists p, x. }
  assert (∀ e, pending w' e ↔ pending w e ∧ e ≠ d) as Hpend.
  { intros e. unfold pending. simpl. split.
    - intros (a & ws' & Ha & He). apply list_lookup_insert_Some in Ha as [(<- & [= ->] & _)|[Hne Ha]].
      + split; [|by intros ->]. eexists _, _. split; [exact Hc|by right].
      + split; [by eexists _, _|]. intros ->. apply Hne.
        eapply (inv_wakers w I c a _ _ d); [exact Hc|exact Ha|left|done].
    - intros [(a & ws' & Ha & He) Hne]. destruct (decide (a = c)) as [->|Hac].
      + exists c, ws. rewrite list_lookup_insert_eq by (by eapply lookup_lt_Some). split; [done|].
        simplify_eq. simpl in He. apply elem_of_cons in He as [?|?]; done.
      + exists a, ws'. by rewrite list_lookup_insert_ne. }
  destruct (upd_wake (sch w) d exc x Hx) as (U1 & U2 & U3).
  assert (∀ e, e ≠ d → Find (sch w') e = Find (sch w) e) as Hfe.
  { intros e He. unfold Find. simpl. rewrite U1. by rewrite list_lookup_insert_ne. }
  assert (Find (sch w') d = Some (set_state Runnable (arm_exc exc x))) as Hfd.
  { unfold Find. simpl. rewrite U1. apply list_lookup_insert_eq. by eapply lookup_lt_Some. }
  assert (∀ e, queued w' e ↔ queued w e ∨ (framesParked x = true ∧ e = d)) as Hqe.
  { intros e. unfold queued. simpl. rewrite U2, elem_of_app.
    destruct (framesParked x); rewrite ?list_elem_of_singleton; [tauto|].
    split; [intros [?|?%not_elem_of_nil]; tauto|intros [?|[? _]]; [tauto|done]]. }
  assert (¬ queued w d) as Hnq.
  { destruct p as [|? ?|? ?|? ?|r|r|r|?|]; simpl in Hok; try tauto.
    destruct Hok as (_ & _ & H3 & H4). destruct r as [[h op]|]; simpl in H4; [|tauto].
    destruct H4 as [(Hs & _)|[(Hs & _)|H4]]; [..|tauto]; by apply H3, prim_not_Runnable. }
  split.
  - intros e. destruct (decide (e = d)) as [->|Hed].
    + unfold id_ok. simpl. rewrite list_lookup_insert_ne, Hp by done. eexists. split; [exact Hfd|].
      assert (framesParked (arm_exc exc x) = framesParked x ∧ frames (arm_exc exc x) = frames x) as [A1 A2]
        by (unfold arm_exc; by case_decide).
      destruct p as [|? ?|? ?|? ?|r|r|r|?|]; simpl in Hok; try (exfalso; tauto).
      * destruct Hok as (H1 & H2 & H3). simpl. rewrite A1, Hqe, H1.
        split_and!; [done|by intros [?|[? _]]|].
        destruct r as [[h op]|]; simpl in H3; [|tauto].
        right. right. rewrite Hpend. destruct H3 as [?|[?|?]]; tauto.
      * destruct Hok as (H1 & H2 & H3 & H4). destruct r as [[h op]|]; simpl in H4; [|exfalso; tauto].
        assert (state x ≠ Runnable) as Hns by (destruct H4 as [(Hs & _)|[(Hs & _)|H4]];
          [by apply prim_not_Runnable..|tauto]).
        destruct (H3 Hns) as [Hfp _]. simpl. rewrite A1, A2, Hqe, Hfp.
        split_and!; try done; [by auto|by right|].
        right. right. rewrite Hpend. destruct H4 as [?|[?|?]]; tauto.
    + destruct (decide (e = c)) as [->|Hec].
      * unfold id_ok. simpl. rewrite list_lookup_insert_eq by (by eapply lookup_lt_Some).
        exists xc. rewrite Hfe by done. split; [done|]. simpl. rewrite Hqe, Hpend. split_and!; try done; tauto.
      * eapply id_ok_frame; [apply I|..]; try done.
        -- simpl. by rewrite list_lookup_insert_ne.
        -- by apply Hfe.
        -- rewrite Hqe. tauto.
        -- rewrite Hpend. tauto.
  - simpl. rewrite U3, length_insert. apply I.
  - simpl. rewrite U2. destruct (framesParked x); [|rewrite app_nil_r; apply I].
    apply list.NoDup_app. split_and!; [apply I| |apply NoDup_singleton].
    by intros e He ->%list_elem_of_singleton.
  - apply I.
  - assert (∀ a ws', pcs w' !! a = Some (PWake ws') → ∃ ws'', pcs w !! a = Some (PWake ws'') ∧ ws'.*1 ⊆ ws''.*1) as Hsub.
    { intros a ws' Ha. simpl in Ha. apply list_lookup_insert_Some in Ha as [(<- & [= ->] & _)|[_ Ha]]; [|by eexists].
      eexists. split; [exact Hc|]. intros e He. by right. }
    intros a b wa wb e Ha Hb Hea Heb. apply Hsub in Ha as (wa' & Ha & Sa). apply Hsub in Hb as (wb' & Hb & Sb).
    eapply (inv_wakers w I a b _ _ e); eauto.
  - intros a ws' Ha. simpl in Ha. apply list_lookup_insert_Some in Ha as [(<- & [= ->] & _)|[_ Ha]]; [done|].
    by eapply inv_wakers_NoDup.
  - apply I.
Qed.

(** A completed call: mailboxes it answers are answered with the resource. *)
Lemma inv_call_done w c h op s s' ws (acq : bool) :
  Inv w → pcs w !! c = Some PRun → store w !! h = Some s → pp_call s c op = Ok (s', CallDone ws acq) →
  Inv {| sch := sch w; store := <[h := s']> (store w); pcs := <[c := PWake ws]> (pcs w);
         holds := (if acq then [(c, h)] else []) ++
                  (if pp_releases s op then filter (λ e, e ≠ (c, h)) (holds w) else holds w) |}.
Proof.
  intros I Hc Hs Hcall. set (w' := {| sch := _ |}).
  destruct (ctx_of w c _ I Hc) as (xc & Hxc & C1 & C2 & C3 & C4 & C5).
  assert (pp_mail s c = None) as Hmc.
  { specialize (C4 h). unfold mail_at in C4. by rewrite Hs in C4. }
  destruct (pp_call_done s c op s' ws acq (inv_slots w I h s Hs) Hmc Hcall)
    as (G1 & G2 & G3 & G4 & G5 & G6).
  assert (store w' !! h = Some s') as Hs' by (apply list_lookup_insert_eq; by eapply lookup_lt_Some).
  assert (∀ h' d, mail_at w' h' d = if decide (h' = h) then pp_mail s' d else mail_at w h' d) as Hma.
  { intros h' d. unfold mail_at. destruct (decide (h' = h)) as [->|]; [by rewrite Hs'|].
    simpl. by rewrite list_lookup_insert_ne. }
  assert (∀ d, mail_at w h d = pp_mail s d) as Hmh by (intros d; unfold mail_at; by rewrite Hs).
  assert (∀ d, d ∈ ws.*1 → mail_at w h d = Some MCommitted) as Hws.
  { intros d Hd. rewrite Hmh. destruct (G4 d) as [?|[?|?]]; tauto. }
  assert (∀ d, pending w' d ↔ pending w d ∨ d ∈ ws.*1) as Hp.
  { intros d. unfold pending. simpl. split.
    - intros (a & ws' & Ha & Hd). apply list_lookup_insert_Some in Ha as [(<- & [= ->] & _)|[_ Ha]];
        [by right|]. left. by eexists _, _.
    - intros [(a & ws' & Ha & Hd)|Hd].
      + exists a, ws'. rewrite list_lookup_insert_ne; [done|congruence].
      + exists c, ws. rewrite list_lookup_insert_eq by (by eapply lookup_lt_Some). done. }
  assert (∀ h' d, (h' ≠ h ∨ d ≠ c ∨ pp_releases s op = false) → grant_at w h' d → grant_at w' h' d) as Hg.
  { intros h' d Hcase (t & Ht & Htg). destruct (decide (h' = h)) as [->|Hne].
    - exists s'. split; [done|]. simplify_eq. apply G6; [|done]. tauto.
    - exists t. split; [|done]. simpl. by rewrite list_lookup_insert_ne. }
  (* what a context with a committed entry is doing *)
  assert (∀ d p x, ctx_ok w d p x → mail_at w h d = Some MCommitted →
    ∃ op', (p = PUnw (Some (h, op')) ∨ p = POff (Some (h, op'))) ∧
      state x ∈ prim_states ∧ mail_only w d h MCommitted ∧ ¬ pending w d) as Hcom.
  { intros d p x Hok Hm.
    assert (no_mail w d → False) as Hno by (intros Hn; by rewrite (Hn h) in Hm).
    assert (∀ h' st, waiting w d h' st → h' = h ∧ st ∈ prim_states ∧ mail_only w d h MCommitted ∧
              ¬ pending w d) as Hwt.
    { intros h' st [(A & [B B'] & D)|[A|A]]; [|exfalso; tauto..].
      destruct (decide (h = h')) as [<-|Hne]; [done|]. by rewrite (B' h Hne) in Hm. }
    assert (∀ h', in_handshake w d h' → False) as Hih.
    { intros h' [[A B]|[[A B] _]]; (destruct (decide (h = h')) as [<-|Hne]; [congruence|];
        by rewrite (B h Hne) in Hm). }
    destruct p as [|h' ?|h' ?|h' ?|r|r|r|?|]; simpl in Hok; try (exfalso; tauto);
      try (exfalso; apply (Hih h'); apply Hok).
    - destruct r as [[h' op']|]; [|exfalso; simpl in Hok; tauto].
      destruct Hok as (_ & _ & Hw). destruct (Hwt h' _ Hw) as (-> & ? & ? & ?). exists op'. tauto.
    - destruct r as [[h' op']|]; [|exfalso; simpl in Hok; tauto].
      destruct Hok as (_ & _ & _ & Hw). destruct (Hwt h' _ Hw) as (-> & ? & ? & ?). exists op'. tauto. }
  (* what a context with a pending entry is doing *)
  assert (∀ d p x, ctx_ok w d p x → mail_at w h d = Some MPending →
    ∃ op', (p = PReg h op' ∨ p = PMig h op') ∧ mail_only w d h MPending) as Hpen.
  { intros d p x Hok Hm.
    assert (no_mail w d → False) as Hno by (intros Hn; by rewrite (Hn h) in Hm).
    assert (∀ h' st, waiting w d h' st → False) as Hwt.
    { intros h' st [(A & [B B'] & D)|[A|A]]; [|tauto..].
      destruct (decide (h = h')) as [<-|Hne]; [congruence|]. by rewrite (B' h Hne) in Hm. }
    assert (∀ h', in_handshake w d h' → h' = h ∧ mail_only w d h MPending) as Hih.
    { intros h' [[A B]|[[A B] _]]; (destruct (decide (h = h')) as [<-|Hne]; [|by rewrite (B h Hne) in Hm]).
      - done.
      - congruence. }
    destruct p as [|h' op'|h' op'|h' ?|r|r|r|?|]; simpl in Hok; try (exfalso; tauto).
    - destruct Hok as (_ & _ & _ & Hh & _). apply Hih in Hh as [-> ?]. exists op'. tauto.
    - destruct Hok as (_ & _ & _ & Hh & _). apply Hih in Hh as [-> ?]. exists op'. tauto.
    - destruct r as [[h' op']|]; simpl in Hok; [|exfalso; tauto]. exfalso. eapply Hwt. apply Hok.
    - destruct r as [[h' op']|]; simpl in Hok; [|exfalso; tauto]. exfalso. eapply Hwt. apply Hok. }
  assert (∀ d m, mail_only w d h m → ∀ h', h' ≠ h → mail_at w' h' d = None) as Hoth.
  { intros d m [_ Ho] h' Hne. rewrite Hma, decide_False by done. by apply Ho. }
  assert (∀ d, d ≠ c → pcs w' !! d = pcs w !! d) as Hpcs
    by (intros d Hd; simpl; by rewrite list_lookup_insert_ne).
  split.
  - intros d. destruct (decide (d = c)) as [->|Hdc].
    { unfold id_ok. simpl. rewrite list_lookup_insert_eq by (by eapply lookup_lt_Some).
      exists xc. split; [done|]. simpl. split_and!; try done.
      - intros h'. rewrite Hma. destruct (decide (h' = h)); [done|apply C4].
      - rewrite Hp. intros [?|Hin%Hws]; [done|]. by rewrite C4 in Hin. }
    pose proof (inv_ids w I d) as Hid.
    destruct (G4 d) as [(A1 & A2 & A3 & A4)|[(A1 & A2 & A3 & A4)|[A1 A2]]].
    + (* handed over, to be woken *)
      rewrite <- Hmh in A2. unfold id_ok in *. rewrite Hpcs by done.
      destruct (pcs w !! d) as [p|]; [|destruct Hid as (_ & _ & Hn & _); by rewrite Hn in A2].
      destruct Hid as (x & Hx & Hok). exists x. split; [done|].
      destruct (Hcom d p x Hok A2) as (op' & Hcase & B1 & B2 & B3).
      assert (waiting w' d h (state x)) as Hwt.
      { right. left. split_and!; [done| |by exists s'|by rewrite Hp; right].
        intros h'. destruct (decide (h' = h)) as [->|Hne]; [by rewrite Hma, decide_True|by eapply Hoth]. }
      destruct Hcase as [->| ->]; simpl in *; tauto.
    + (* handed over inside its handshake *)
      rewrite <- Hmh in A2. unfold id_ok in *. rewrite Hpcs by done.
      destruct (pcs w !! d) as [p|]; [|destruct Hid as (_ & _ & Hn & _); by rewrite Hn in A2].
      destruct Hid as (x & Hx & Hok). exists x. split; [done|].
      destruct (Hpen d p x Hok A2) as (op' & Hcase & B).
      assert (in_handshake w' d h) as Hih.
      { right. split; [|by exists s']. split; [by rewrite Hma, decide_True|]. by eapply Hoth. }
      assert (¬ pending w' d ↔ ¬ pending w d) as Hp' by (rewrite Hp; tauto).
      destruct Hcase as [->| ->]; simpl in *; rewrite Hp'; tauto.
    + eapply id_ok_frame; [exact Hid|by apply Hpcs|done|done|..].
      * intros h'. rewrite Hma. destruct (decide (h' = h)) as [->|]; [by rewrite Hmh|done].
      * rewrite Hp. tauto.
      * intros h'. apply Hg. tauto.
  - simpl. rewrite length_insert. apply I.
  - apply I.
  - intros h' t Ht. simpl in Ht. apply list_lookup_insert_Some in Ht as [(_ & <- & _)|[_ Ht]]; [done|].
    by eapply inv_slots.
  - assert (∀ a wa, pcs w' !! a = Some (PWake wa) → (a = c ∧ wa = ws) ∨ (a ≠ c ∧ pcs w !! a = Some (PWake wa))) as Hsplit.
    { intros a wa Ha. simpl in Ha. apply list_lookup_insert_Some in Ha as [(<- & [= ->] & _)|[? Ha]]; auto. }
    (* nobody else was about to wake a context whose entry is still committed *)
    assert (∀ a wa d, pcs w !! a = Some (PWake wa) → d ∈ wa.*1 → d ∈ ws.*1 → False) as Hfresh.
    { intros a wa d Ha Hda Hdw. apply Hws in Hdw.
      assert (pending w d) as Hpd by (by eexists _, _).
      pose proof (inv_ids w I d) as Hid. unfold id_ok in Hid.
      destruct (pcs w !! d) as [p|]; [|tauto]. destruct Hid as (x & _ & Hok).
      destruct (Hcom d p x Hok Hdw) as (? & _ & _ & _ & ?). done. }
    intros a b wa wb d Ha Hb Hda Hdb.
    apply Hsplit in Ha as [[-> ->]|[_ Ha]]; apply Hsplit in Hb as [[-> ->]|[_ Hb]]; try done;
      [by edestruct Hfresh..|by eapply (inv_wakers w I)].
  - intros a wa Ha. simpl in Ha. apply list_lookup_insert_Some in Ha as [(<- & [= ->] & _)|[_ Ha]]; [done|].
    by eapply inv_wakers_NoDup.
  - intros a h' Ha. simpl in Ha. apply elem_of_app in Ha as [Ha|Ha].
    { destruct acq; [|by apply not_elem_of_nil in Ha]. apply list_elem_of_singleton in Ha as [= -> ->].
      exists s'. split; [done|by apply G5]. }
    destruct (pp_releases s op) eqn:Erel.
    + apply list_elem_of_filter in Ha as [Hne Ha]. apply Hg; [|by eapply inv_holds].
      destruct (decide (h' = h)) as [->|]; [right; left; congruence|by left].
    + apply Hg; [tauto|by eapply inv_holds].
Qed.

(** Every step keeps the invariant. *)
Lemma step_inv w w' : Inv w → step w w' → Inv w'.
Proof.
  intros I. destruct 1.
  - by eapply inv_spawn.
  - by eapply inv_new_slot.
  - by eapply inv_preempt.
  - by eapply inv_ext_park.
  - by eapply inv_ext_wake.
  - by eapply inv_call_done.
  - by eapply inv_call_park.
  - by eapply inv_migrate.
  - by eapply inv_recheck.
  - by eapply inv_abort.
  - by eapply inv_land.
  - by eapply inv_pop.
  - by eapply inv_pop_idle.
  - by eapply inv_splice.
  - by eapply inv_wake.
  - by eapply inv_woken.
  - by eapply inv_finish.
Qed.

(** ** The handlers, uninterrupted

    [IntrinsicMutexLock], [IntrinsicSemaphoreAcquire], [IntrinsicChannelSend] and their
    siblings from start to end on one carrier, when no other context gets in between. *)
Definition with_pc (c : nat) (p : pc Op) (w : world S Op) : world S Op :=
  {| sch := sch w; store := store w; pcs := <[c := p]> (pcs w); holds := holds w |}.
Definition wake_all (ws : list (nat * Z)) (s : VmScheduler) : VmScheduler :=
  foldl (λ s e, WakeForChanRecv s e.1 e.2) s ws.

Definition blocking_call (w : world S Op) (c h : nat) (op : Op) (k : CarrierState) :
    outcome (world S Op) :=
  match store w !! h with
  | None => Raise (RuntimeError "call on an uninitialized instance")
  | Some s =>
      '(s1, r) ← pp_call s c op;
      match r with
      | CallDone ws acq =>
          Ok {| sch := wake_all ws (sch w); store := <[h := s1]> (store w); pcs := <[c := PRun]> (pcs w);
                holds := (if acq : bool then [(c, h)] else []) ++
                         (if pp_releases s op then filter (λ e, e ≠ (c, h)) (holds w) else holds w) |}
      | CallPark =>
          let sch1 := (ParkIn (pp_state s1 op) (sch w) k c).1 in
          '(s2, b) ← pp_recheck s1 c;
          let w2 := {| sch := sch1; store := <[h := s2]> (store w);
                       pcs := <[c := PUnw (Some (h, op))]> (pcs w); holds := holds w |} in
          if b : bool then Ok w2
          else Ok {| sch := (AbortPark sch1 k c).1; store := <[h := s2]> (store w);
                     pcs := <[c := PRun]> (pcs w); holds := acquire w2 c (Some (h, op)) |}
      end
  end.

Lemma wake_all_steps c ws : ∀ w,
  pcs w !! c = Some (PWake ws) →
  rtc step w {| sch := wake_all ws (sch w); store := store w; pcs := <[c := PRun]> (pcs w);
                holds := holds w |}.
Proof.
  induction ws as [|[d exc] ws IH]; intros w Hc.
  - apply rtc_once. by apply st_woken.
  - eapply rtc_l; [by eapply st_wake|].
    refine (eq_rect _ (rtc step _) (IH _ _) _ _).
    + simpl. apply list_lookup_insert_eq. by eapply lookup_lt_Some.
    + simpl. by rewrite list_insert_insert_eq.
Qed.

(** A blocking handler, run from start to end, is one of the runs of the protocol:
    its sections in their order, with the same final scheduler, slots, grants and
    program counter.  What holds of every run holds of it. *)
Theorem blocking_call_steps w c h op k w' :
  pcs w !! c = Some PRun → blocking_call w c h op k = Ok w' → rtc step w w'.
Proof.
  intros Hc. unfold blocking_call. destruct (store w !! h) as [s|] eqn:Hs; [|done].
  intros H. apply bind_Ok in H as ([s1 r] & Hcall & H).
  assert (∀ p p' : pc Op, <[c := p]> (<[c := p']> (pcs w)) = <[c := p]> (pcs w)) as Hpc
    by (intros; apply list_insert_insert_eq).
  assert (∀ p : pc Op, <[c := p]> (pcs w) !! c = Some p) as Hpl
    by (intros; apply list_lookup_insert_eq; by eapply lookup_lt_Some).
  assert (<[h := s1]> (store w) !! h = Some s1) as Hsl
    by (apply list_lookup_insert_eq; by eapply lookup_lt_Some).
  destruct r as [ws acq|].
  - injection H as <-. eapply rtc_l; [by eapply st_call_done|].
    refine (eq_rect _ (rtc step _) (wake_all_steps c ws _ _) _ _); [by simpl|].
    simpl. by rewrite Hpc.
  - cbn zeta in H. apply bind_Ok in H as ([s2 b] & Hre & H).
    eapply rtc_l; [by eapply st_call_park|].
    eapply rtc_l; [eapply (st_migrate _ c h op s1 k); by simpl|].
    eapply rtc_l; [eapply (st_recheck _ c h op s1 s2 b); [simpl; apply list_lookup_insert_eq;
      rewrite length_insert; by eapply lookup_lt_Some|by simpl|done]|].
    simpl. rewrite !list_insert_insert_eq. destruct b.
    + injection H as <-. apply rtc_refl.
    + injection H as <-. apply rtc_once.
      match goal with |- step ?w1 ?w2 => pose proof (st_abort w1 c h op k) as Hab end.
      simpl in Hab. rewrite Hpc in Hab. apply Hab. apply Hpl.
Qed.

(** The start of a run: no context, no slot. *)
Definition world0 (s : VmScheduler) : world S Op :=
  {| sch := Reset s; store := []; pcs := []; holds := [] |}.
Definition reachable (w : world S Op) : Prop := ∃ s, rtc step (world0 s) w.

Lemma world0_inv s : Inv (world0 s).
Proof.
  split; try done; [|constructor|by intros ? ? ?%not_elem_of_nil].
  intros c. unfold id_ok. simpl. split_and!; try done.
  - by intros ?%not_elem_of_nil.
  - by intros (a & ws & ? & _).
Qed.

Lemma reachable_inv w : reachable w → Inv w.
Proof.
  intros (s & H). pose proof (world0_inv s) as I. revert I. induction H; intros I; [done|].
  by eauto using step_inv.
Qed.
End Preservation.
