(* ===== verification/SyncCalls.v ===== *)
(** * The intrinsics of the blocking primitives, from the receiver to the scheduler

    Each handler reads the instance's handle, runs its section on the slot, then makes
    its scheduler calls: the whole of [IntrinsicMutexLock], [IntrinsicChannelRecv] and
    so on, on one carrier without interruption.  [ParkProto.blocking_call] is the same
    sequence over the interface; the handlers implement it. *)
From S2P Require Import Prelude Heap SchedState Sched SchedSpec ParkIface SyncPrims SyncSpec.
From S2P Require Import Channels ChannelSpec ParkProto.
Open Scope Z_scope.

(** [m_spScheduler->CurrentContextId()] inside a call: the context that runs. *)
Definition self (k : CarrierState) : outcome nat := deref (currentContextId k).

(** How a handler ends: it returns, or [RequestPark] leaves it for good. *)
Inductive call_end := Returns | Parks.

(** The state a handler leaves behind. *)
Definition handler_state (A : Type) : Type := SideTable A * VmScheduler * CarrierState.

(** Register, park the state, recheck; abort the park if the recheck found a stamp. *)
Definition two_phase {A R} (what : string) (handle : Z) (st : ContextState) (selfId : nat)
    (recheck : A → outcome (A * R)) (commits : R → bool) (x : handler_state A) :
    outcome (handler_state A * R) :=
  let '(t, s, k) := x in
  let '(s, k) := ParkIn st s k selfId in
  '(t, r) ← at_slot what t handle recheck;
  if commits r then Ok ((t, s, k), r)
  else let '(s, k) := AbortPark s k selfId in Ok ((t, s, k), r).

(** A blocking call of the [SyncWaiter] families. *)
Definition waiter_call {A} (what : string) (st : ContextState) (h : heap) (thisIdx : Z)
    (section : nat → A → outcome (A * bool)) (consume : nat → A → outcome (A * bool))
    (x : handler_state A) : outcome (handler_state A * call_end) :=
  let '(t, s, k) := x in
  handle ← ReadSyncPrimitiveHandle h thisIdx (what +:+ " call");
  selfId ← self k;
  '(t, mustPark) ← at_slot what t handle (section selfId);
  if mustPark : bool then
    '(x, commit) ← two_phase what handle st selfId (consume selfId) id (t, s, k);
    Ok (x, if commit : bool then Parks else Returns)
  else Ok ((t, s, k), Returns).

Definition IntrinsicMutexLock (h : heap) (thisIdx : Z) (allowed : bool) :=
  waiter_call "Mutex" ParkedMutex h thisIdx (λ c, MutexLock c allowed) ConsumeMutexParkStamp.
Definition IntrinsicReentrantMutexLock (h : heap) (thisIdx : Z) (allowed : bool) :=
  waiter_call "ReentrantMutex" ParkedMutex h thisIdx (λ c, RMutexLock c allowed) ConsumeRMutexParkStamp.
Definition IntrinsicSemaphoreAcquire (h : heap) (thisIdx : Z) (allowed : bool) :=
  waiter_call "Semaphore" ParkedSemaphore h thisIdx (λ c, SemaphoreAcquire c allowed)
    ConsumeSemaphoreParkStamp.

(** The calls that never park: their section, then the wake, if a committed entry was
    handed over.  The result is what they write to the result cell. *)
Definition plain_call {A R} (what : string) (h : heap) (thisIdx : Z)
    (section : nat → A → outcome (A * R)) (wake : R → option nat) (x : handler_state A) :
    outcome (handler_state A * R) :=
  let '(t, s, k) := x in
  handle ← ReadSyncPrimitiveHandle h thisIdx (what +:+ " call");
  selfId ← self k;
  '(t, r) ← at_slot what t handle (section selfId);
  Ok ((t, match wake r with Some n => WakeForMutex s n | None => s end, k), r).

Definition IntrinsicMutexTryLock (h : heap) (thisIdx : Z) :=
  plain_call "Mutex" h thisIdx MutexTryLock (λ _, None).
Definition IntrinsicMutexUnlock (h : heap) (thisIdx : Z) :=
  plain_call "Mutex" h thisIdx MutexUnlock id.
Definition IntrinsicReentrantMutexTryLock (h : heap) (thisIdx : Z) :=
  plain_call "ReentrantMutex" h thisIdx RMutexTryLock (λ _, None).
Definition IntrinsicReentrantMutexUnlock (h : heap) (thisIdx : Z) :=
  plain_call "ReentrantMutex" h thisIdx RMutexUnlock id.
Definition IntrinsicSemaphoreTryAcquire (h : heap) (thisIdx : Z) :=
  plain_call "Semaphore" h thisIdx (λ _ slot, Ok (SemaphoreTryAcquire slot)) (λ _, None).
Definition IntrinsicSemaphoreRelease (h : heap) (thisIdx : Z) :=
  plain_call "Semaphore" h thisIdx (λ _ slot, Ok (SemaphoreRelease slot)) id.

(** The constructors and lookups, class by class. *)
Definition IntrinsicMutexCtor := SyncCtor "Mutex" MutexSlot0.
Definition IntrinsicReentrantMutexCtor := SyncCtor "ReentrantMutex" RMutexSlot0.
Definition SyncMutexSlotAt : SideTable MutexSlot → Z → option MutexSlot := SlotAt.
Definition SyncRMutexSlotAt : SideTable RMutexSlot → Z → option RMutexSlot := SlotAt.
Definition SyncSemaphoreSlotAt : SideTable SemaphoreSlot → Z → option SemaphoreSlot := SlotAt.
Definition SyncAtomicSlotAt : SideTable Z → Z → option Z := SlotAt.
Definition SyncChannelSlotAt : SideTable ChannelSlot → Z → option ChannelSlot := SlotAt.
Definition AllocMutexHandle := AllocHandle MutexSlot0.
Definition AllocRMutexHandle := AllocHandle RMutexSlot0.
Definition AllocSemaphoreHandle (initialCount : Z) := AllocHandle (SemaphoreSlot0 initialCount).
Definition AllocAtomicHandle := AllocHandle (A := Z) 0.
Definition AllocChannelHandle (capacity : Z) := AllocHandle (ChannelSlot0 capacity).

(** ** Channels

    Their sections also yield the values written through result pointers. *)
Definition channel_result : Type := handler_state ChannelSlot * list (nat * Z) * call_end.

Definition IntrinsicChannelSend (h : heap) (thisIdx value : Z) (allowed : bool)
    (x : handler_state ChannelSlot) : outcome channel_result :=
  let '(t, s, k) := x in
  handle ← ReadSyncPrimitiveHandle h thisIdx "Channel call";
  selfId ← self k;
  '(t, r) ← at_slot "Channel" t handle (ChannelSend selfId value allowed);
  if cr_park r then
    '(x, o) ← two_phase "Channel" handle ParkedChanSend selfId (CommitOrAbortChanSend selfId)
                (λ o, bool_decide (o = Commits)) (t, s, k);
    match o with
    | Commits => Ok (x, [], Parks)
    | AbortValue => Ok (x, [], Returns)
    | AbortClosed => Raise (NlangExc ExcChannelClosed "send on a closed channel")
    end
  else Ok ((t, wake_all (cr_wakes r) s, k), cr_writes r, Returns).

Definition IntrinsicChannelRecv (h : heap) (thisIdx : Z) (resultPtr : nat) (allowed : bool)
    (x : handler_state ChannelSlot) : outcome channel_result :=
  let '(t, s, k) := x in
  handle ← ReadSyncPrimitiveHandle h thisIdx "Channel call";
  selfId ← self k;
  '(t, r) ← at_slot "Channel" t handle (ChannelRecv selfId resultPtr allowed);
  if cr_park r then
    '(x, o) ← two_phase "Channel" handle ParkedChanRecv selfId (CommitOrAbortChanRecv selfId)
                (λ o, bool_decide (o = Commits)) (t, s, k);
    match o with
    | Commits => Ok (x, [], Parks)
    | AbortValue => Ok (x, [], Returns)
    | AbortClosed => Raise (NlangExc ExcChannelClosed "recv on a closed and drained channel")
    end
  else Ok ((t, wake_all (cr_wakes r) s, k), cr_writes r, Returns).

(** [recvExc], [sendExc]: the exception objects that [WakeClosedWaiters] builds. *)
Definition IntrinsicChannelClose (h : heap) (thisIdx recvExc sendExc : Z)
    (x : handler_state ChannelSlot) : outcome channel_result :=
  let '(t, s, k) := x in
  handle ← ReadSyncPrimitiveHandle h thisIdx "Channel call";
  '(t, r) ← at_slot "Channel" t handle (λ slot, Ok (ChannelClose recvExc sendExc slot));
  Ok ((t, wake_all (cr_wakes r) s, k), cr_writes r, Returns).

(** ** The handlers are the protocol's blocking call *)

(** [WakeForMutex] is the wake of the protocol without an exception to arm. *)
Lemma WakeForMutex_wake s c : WakeForMutex s c = WakeForChanRecv s c 0.
Proof. unfold WakeForMutex, WakeForChanRecv. by destruct (Find s c). Qed.

(** The slot index of a handle. *)
Definition index (handle : Z) : nat := Z.to_nat (handle - 1).

Lemma SlotAt_index {A} (t : SideTable A) handle a :
  SlotAt t handle = Some a → st_slots t !! index handle = Some a.
Proof. unfold SlotAt, index. by case_decide. Qed.

Lemma at_slot_index {A B} what (t : SideTable A) handle (f : A → outcome (A * B)) t' b :
  at_slot what t handle f = Ok (t', b) →
  ∃ a a', st_slots t !! index handle = Some a ∧ f a = Ok (a', b) ∧
          st_slots t' = <[index handle := a']> (st_slots t) ∧ SlotAt t' handle = Some a'.
Proof.
  intros H. destruct (at_slot_spec _ _ _ _ _ _ H) as (a & a' & H1 & H2 & H3 & _).
  exists a, a'. split_and!; [by apply SlotAt_index|done| |done].
  unfold at_slot in H. rewrite H1, H2 in H. rewrite bindE in H. by injection H as <-.
Qed.

Lemma ParkIn_carrier st s k c :
  installed (ParkIn st s k c).2 = installed k ∧ carrierId (ParkIn st s k c).2 = carrierId k.
Proof.
  unfold ParkIn. destruct (Find s c) as [x|]; [|done].
  unfold ReleaseHeldIfCurrent. by destruct (_ || _).
Qed.

Lemma AbortPark_carrier s k k' c :
  installed k' = installed k → carrierId k' = carrierId k → (AbortPark s k' c).1 = (AbortPark s k c).1.
Proof.
  intros E1 E2. unfold AbortPark. destruct (Find s c); [|done]. rewrite E1, E2.
  by destruct (negb _).
Qed.

Section Refines.
  Context {A Op : Type} `{!ParkPrim A Op}.

(** [implements]: the handler's outcome is that of [blocking_call] on the same slots. *)
Definition implements (w : world A Op) (c : nat) (op : Op) (k : CarrierState) (handle : Z)
    (t' : SideTable A) (s' : VmScheduler) (e : call_end) : Prop :=
  ∃ w', blocking_call w c (index handle) op k = Ok w' ∧ sch w' = s' ∧ store w' = st_slots t' ∧
        pcs w' !! c = Some (match e with Returns => PRun | Parks => PUnw (Some (index handle, op)) end).

Lemma two_phase_implements {R} what (t t1 : SideTable A) s k handle st c op a a1
    (recheck : A → outcome (A * R)) commits x r (w : world A Op) :
  sch w = s → store w = st_slots t → pcs w !! c = Some PRun →
  st_slots t !! index handle = Some a → pp_call a c op = Ok (a1, CallPark) →
  st_slots t1 = <[index handle := a1]> (st_slots t) → SlotAt t1 handle = Some a1 →
  pp_state a1 op = st →
  pp_recheck a1 c = ('(b, r) ← recheck a1; Ok (b, commits r)) →
  two_phase what handle st c recheck commits (t1, s, k) = Ok (x, r) →
  implements w c op k handle x.1.1 x.1.2 (if commits r then Parks else Returns).
Proof.
  intros Es Et Hc Ha Hcall Et1 Ha1 Est Hre H. unfold two_phase in H.
  destruct (ParkIn st s k c) as [s1 k1] eqn:Ep.
  apply bind_Ok in H as ([t2 r'] & Hat & H).
  destruct (at_slot_index _ _ _ _ _ _ Hat) as (b & b' & Hb & Hf & Et2 & _).
  apply SlotAt_index in Ha1. simplify_eq. rewrite Hf in Hre. rewrite bindE in Hre.
  unfold implements, blocking_call. rewrite Et, Ha, Hcall, bindE. cbn zeta.
  rewrite Hre, bindE. rewrite Ep. cbn [fst].
  assert (<[index handle := b']> (st_slots t) = st_slots t2) as Est2
    by (by rewrite Et2, Et1, list_insert_insert_eq).
  destruct (commits r') eqn:Ecm.
  - simplify_eq. rewrite Ecm. eexists. split; [done|]. simpl. split_and!; [done|done|].
    apply list_lookup_insert_eq. by eapply lookup_lt_Some.
  - destruct (ParkIn_carrier (pp_state a1 op) (sch w) k c) as [K1 K2]. rewrite Ep in K1, K2. simpl in K1, K2.
    destruct (AbortPark s1 k1 c) as [s2 k2] eqn:Eab. simplify_eq. rewrite Ecm.
    eexists. split; [done|]. simpl. split_and!; [|done|].
    + rewrite <- (AbortPark_carrier s1 k k1 c K1 K2). by rewrite Eab.
    + apply list_lookup_insert_eq. by eapply lookup_lt_Some.
Qed.

Lemma done_implements (t t1 : SideTable A) s k handle c op a a1 ws acq (w : world A Op) :
  sch w = s → store w = st_slots t → pcs w !! c = Some PRun →
  st_slots t !! index handle = Some a → pp_call a c op = Ok (a1, CallDone ws acq) →
  st_slots t1 = <[index handle := a1]> (st_slots t) →
  implements w c op k handle t1 (wake_all ws s) Returns.
Proof.
  intros <- Et Hc Ha Hcall Et1. unfold implements, blocking_call. rewrite Et, Ha, Hcall, bindE.
  eexists. split; [done|]. simpl. split_and!; [done|done|].
  apply list_lookup_insert_eq. by eapply lookup_lt_Some.
Qed.

(** From any reachable world whose scheduler and slots are the handler's and whose current context
    runs, the handler's outcome is the protocol's. *)
Definition refines_call (handler : handler_state A → outcome (handler_state A * call_end)) (op : Op) : Prop :=
  ∀ t s k t' s' k' e (w : world A Op) c,
    handler (t, s, k) = Ok ((t', s', k'), e) → currentContextId k = Some c →
    Inv w → sch w = s → store w = st_slots t → pcs w !! c = Some PRun →
    ∃ handle, implements w c op k handle t' s' e.

Lemma waiter_call_refines what st h thisIdx section consume op :
  (∀ a c, pp_call a c op = '(a, p) ← section c a; Ok (a, if p : bool then CallPark else CallDone [] true)) →
  (∀ a, pp_state a op = st) → (∀ a c, pp_recheck a c = consume c a) →
  refines_call (waiter_call what st h thisIdx section consume) op.
Proof.
  intros Hcall Hst Hre t s k t' s' k' e w c H Hk I Es Et Hc. unfold waiter_call in H.
  apply bind_Ok in H as (handle & _ & H). unfold self in H. rewrite Hk, derefE, bindE in H.
  apply bind_Ok in H as ([t1 p] & Hat & H). exists handle.
  destruct (at_slot_index _ _ _ _ _ _ Hat) as (a & a1 & Ha & Hf & Et1 & Hs1).
  pose proof (Hcall a c) as Hp. rewrite Hf, bindE in Hp. destruct p.
  - apply bind_Ok in H as ([x b] & H2 & H). injection H as -> <-.
    apply (two_phase_implements what t t1 s k handle st c op a a1 (consume c) id (t', s', k') b w); try done.
    rewrite Hre. by destruct (consume c a1) as [[? ?]|].
  - simplify_eq. by eapply (done_implements t t' (sch w) k' handle c op a a1 [] true w).
Qed.

Lemma plain_call_refines {R} what h thisIdx (section : nat → A → outcome (A * R)) wake acq op :
  (∀ a c, pp_call a c op = '(a, r) ← section c a; Ok (a, CallDone (wake_list (wake r)) (acq r))) →
  refines_call (λ x, '(x, _) ← plain_call what h thisIdx section wake x; Ok (x, Returns)) op.
Proof.
  intros Hcall t s k t' s' k' e w c H Hk I Es Et Hc. apply bind_Ok in H as ([x r] & H & [= -> <-]).
  unfold plain_call in H.
  apply bind_Ok in H as (handle & _ & H). unfold self in H. rewrite Hk, derefE, bindE in H.
  apply bind_Ok in H as ([t1 r'] & Hat & H). exists handle.
  destruct (at_slot_index _ _ _ _ _ _ Hat) as (a & a1 & Ha & Hf & Et1 & Hs1).
  pose proof (Hcall a c) as Hp. rewrite Hf, bindE in Hp. simplify_eq.
  pose proof (done_implements t t' (sch w) k' handle c op a a1 (wake_list (wake r)) (acq r) w
    eq_refl Et Hc Ha Hp Et1) as Hd.
  destruct (wake r) as [n|]; [|done]. simpl in Hd. by rewrite WakeForMutex_wake.
Qed.
End Refines.

Definition returns {A R} (f : handler_state A → outcome (handler_state A * R))
    (x : handler_state A) : outcome (handler_state A * call_end) := '(x, _) ← f x; Ok (x, Returns).
Definition drop_writes (x : outcome channel_result) :
    outcome (handler_state ChannelSlot * call_end) :=
  '(x, _, e) ← x; Ok (x, e).

Lemma channel_two_phase_refines (t t1 : SideTable ChannelSlot) s k handle st c op a a1 recheck x wr e
    exc (w : world ChannelSlot ChanOp) :
  sch w = s → store w = st_slots t → pcs w !! c = Some PRun →
  st_slots t !! index handle = Some a → pp_call a c op = Ok (a1, CallPark) →
  st_slots t1 = <[index handle := a1]> (st_slots t) → SlotAt t1 handle = Some a1 →
  pp_state a1 op = st →
  pp_recheck a1 c = ('(b, o) ← recheck a1; Ok (b, bool_decide (o = Commits))) →
  ('(x, o) ← two_phase "Channel" handle st c recheck (λ o, bool_decide (o = Commits)) (t1, s, k);
    match o with
    | Commits => Ok (x, @nil (nat * Z), Parks)
    | AbortValue => Ok (x, @nil (nat * Z), Returns)
    | AbortClosed => Raise exc
    end) = Ok (x, wr, e) →
  implements w c op k handle x.1.1 x.1.2 e.
Proof.
  intros Es Et Hc Ha Hcall Et1 Hs1 Hst Hre H.
  apply bind_Ok in H as ([x1 o] & H & Ho).
  pose proof (two_phase_implements "Channel" t t1 s k handle st c op a a1 recheck
    (λ o, bool_decide (o = Commits)) x1 o w Es Et Hc Ha Hcall Et1 Hs1 Hst Hre H) as Hi.
  destruct o; simplify_eq; exact Hi.
Qed.

Lemma send_registers c v al s s' r :
  ChannelSend c v al s = Ok (s', r) → cr_park r = true → c ∈ ps_senderId <$> ch_pending s'.
Proof.
  unfold ChannelSend. destruct (ch_closed s); [done|].
  destruct (HandoffToLiveWaiter (ch_waiters s)) as [ws [[p o]|]]; [by intros [= <- <-]|].
  case_decide; [destruct al; [|done]|]; intros [= <- <-]; [|done]. intros _. simpl.
  rewrite fmap_app, elem_of_app. right. left.
Qed.

Lemma channel_send_refines h thisIdx v al :
  refines_call (λ x, drop_writes (IntrinsicChannelSend h thisIdx v al x)) (OpSend v al).
Proof.
  intros t s k t' s' k' e w c H Hk I Es Et Hc. unfold drop_writes, IntrinsicChannelSend in H.
  apply bind_Ok in H as ([[x0 wr] e0] & H & [= -> ->]).
  apply bind_Ok in H as (handle & _ & H). unfold self in H. rewrite Hk, derefE, bindE in H.
  apply bind_Ok in H as ([t1 r] & Hat & H). exists handle.
  destruct (at_slot_index _ _ _ _ _ _ Hat) as (a & a1 & Ha & Hf & Et1 & Hs1).
  assert (pp_call a c (OpSend v al) = Ok (a1, chan_call_result r)) as Hp by (cbn; by rewrite Hf).
  unfold chan_call_result in Hp. destruct (cr_park r) eqn:Epk.
  - apply (channel_two_phase_refines t t1 s k handle ParkedChanSend c (OpSend v al) a a1
      (CommitOrAbortChanSend c) (t', s', k') wr e (NlangExc ExcChannelClosed "send on a closed channel") w); try done.
    + cbn. by rewrite decide_True by (by eapply send_registers).
  - simplify_eq. by eapply (done_implements t t' (sch w) k' handle c _ a a1 _ false w).
Qed.

Lemma recv_registers c ptr al s s' r :
  ChannelRecv c ptr al s = Ok (s', r) → cr_park r = true → ch_pending s' = ch_pending s.
Proof.
  unfold ChannelRecv. destruct (ch_buffered s).
  - destruct (ch_closed s); [done|]. destruct al; [|done]. by intros [= <- <-].
  - destruct (StagePendingSend (ch_pending s)). by intros [= <- <-].
Qed.

Lemma channel_recv_refines h thisIdx ptr al :
  refines_call (λ x, drop_writes (IntrinsicChannelRecv h thisIdx ptr al x)) (OpRecv ptr al).
Proof.
  intros t s k t' s' k' e w c H Hk I Es Et Hc. unfold drop_writes, IntrinsicChannelRecv in H.
  apply bind_Ok in H as ([[x0 wr] e0] & H & [= -> ->]).
  apply bind_Ok in H as (handle & _ & H). unfold self in H. rewrite Hk, derefE, bindE in H.
  apply bind_Ok in H as ([t1 r] & Hat & H). exists handle.
  destruct (at_slot_index _ _ _ _ _ _ Hat) as (a & a1 & Ha & Hf & Et1 & Hs1).
  assert (pp_call a c (OpRecv ptr al) = Ok (a1, chan_call_result r)) as Hp by (cbn; by rewrite Hf).
  unfold chan_call_result in Hp. destruct (cr_park r) eqn:Epk.
  - apply (channel_two_phase_refines t t1 s k handle ParkedChanRecv c (OpRecv ptr al) a a1
      (CommitOrAbortChanRecv c) (t', s', k') wr e
      (NlangExc ExcChannelClosed "recv on a closed and drained channel") w); try done.
    cbn. rewrite decide_False; [done|]. rewrite (recv_registers _ _ _ _ _ _ Hf Epk).
    destruct (ctx_of w c _ I Hc) as (x & _ & _ & _ & _ & Hn & _).
    specialize (Hn (index handle)). unfold mail_at in Hn. rewrite Et, Ha in Hn.
    change (assoc_mail (mails a) c = None) in Hn. apply assoc_mail_None in Hn.
    unfold mails in Hn. rewrite fmap_app, wmail_ids, pmail_ids, not_elem_of_app in Hn. tauto.
  - simplify_eq. by eapply (done_implements t t' (sch w) k' handle c _ a a1 _ false w).
Qed.

Lemma channel_close_refines h thisIdx re se :
  refines_call (λ x, drop_writes (IntrinsicChannelClose h thisIdx re se x)) (OpClose re se).
Proof.
  intros t s k t' s' k' e w c H Hk I Es Et Hc. unfold drop_writes, IntrinsicChannelClose in H.
  apply bind_Ok in H as ([[x0 wr] e0] & H & [= -> ->]).
  apply bind_Ok in H as (handle & _ & H). unfold self in H.
  apply bind_Ok in H as ([t1 r] & Hat & H). exists handle.
  destruct (at_slot_index _ _ _ _ _ _ Hat) as (a & a1 & Ha & Hf & Et1 & Hs1).
  injection Hf as Hf. assert (cr_park r = false) as Epk.
  { unfold ChannelClose in Hf. destruct (ch_closed a); [by simplify_eq|].
    destruct (CollectClosedRecvOutcomes _ _) as [[[[? ?] ?] ?] ?].
    destruct (CollectClosedSenders _) as [? ?]. by simplify_eq. }
  assert (pp_call a c (OpClose re se) = Ok (a1, CallDone (cr_wakes r) false)) as Hp
    by (cbn; rewrite Hf; unfold chan_call_result; by rewrite Epk).
  simplify_eq. by eapply (done_implements t t' (sch w) k' handle c _ a a1 _ false w).
Qed.

(** The intrinsics implement the protocol.  Whatever the state in which a running
    context of a reachable world calls lock, tryLock, unlock, acquire, tryAcquire,
    release, send, receive or close on an instance, the handler's effect on the
    scheduler and on the side table, and whether it returns or parks, are those of the
    protocol's blocking call on the instance's slot. *)
Theorem intrinsics_implement_protocol h thisIdx al v ptr re se :
  refines_call (IntrinsicMutexLock h thisIdx al) (OpLock al) ∧
  refines_call (returns (IntrinsicMutexTryLock h thisIdx)) OpTryLock ∧
  refines_call (returns (IntrinsicMutexUnlock h thisIdx)) OpUnlock ∧
  refines_call (IntrinsicReentrantMutexLock h thisIdx al) (ROpLock al) ∧
  refines_call (returns (IntrinsicReentrantMutexTryLock h thisIdx)) ROpTryLock ∧
  refines_call (returns (IntrinsicReentrantMutexUnlock h thisIdx)) ROpUnlock ∧
  refines_call (IntrinsicSemaphoreAcquire h thisIdx al) (OpAcquire al) ∧
  refines_call (returns (IntrinsicSemaphoreTryAcquire h thisIdx)) OpTryAcquire ∧
  refines_call (returns (IntrinsicSemaphoreRelease h thisIdx)) OpRelease ∧
  refines_call (λ x, drop_writes (IntrinsicChannelSend h thisIdx v al x)) (OpSend v al) ∧
  refines_call (λ x, drop_writes (IntrinsicChannelRecv h thisIdx ptr al x)) (OpRecv ptr al) ∧
  refines_call (λ x, drop_writes (IntrinsicChannelClose h thisIdx re se x)) (OpClose re se).
Proof.
  split_and!.
  - by apply waiter_call_refines.
  - apply (plain_call_refines _ _ _ _ _ (λ r, bool_decide (r = 1))). done.
  - apply (plain_call_refines _ _ _ _ _ (λ _, false)). done.
  - by apply waiter_call_refines.
  - apply (plain_call_refines _ _ _ _ _ (λ r, bool_decide (r = 1))). done.
  - apply (plain_call_refines _ _ _ _ _ (λ _, false)). done.
  - by apply waiter_call_refines.
  - apply (plain_call_refines _ _ _ _ _ (λ r, bool_decide (r = 1))).
    intros a c. cbn. by destruct (SemaphoreTryAcquire a).
  - apply (plain_call_refines _ _ _ _ _ (λ _, false)).
    intros a c. cbn. by destruct (SemaphoreRelease a).
  - apply channel_send_refines.
  - apply channel_recv_refines.
  - apply channel_close_refines.
Qed.
