(* ===== verification/ParkSpec.v ===== *)
(** * Nobody is woken by mistake, nobody is forgotten

    The parking protocol of [ParkProto] with the primitives of the program in its slots:
    mutexes, reentrant mutexes, semaphores and channels.  The theorems hold in every
    world that any interleaving of any number of carriers and contexts reaches. *)
From S2P Require Import Prelude SchedState Sched SchedSpec ParkIface SyncPrims SyncSpec.
From S2P Require Import Channels ChannelSpec ParkProto.
From stdpp Require Import relations.
Open Scope Z_scope.

(** ** The slots of the program *)

Abbreviation prim_slot := (MutexSlot + (RMutexSlot + (SemaphoreSlot + ChannelSlot)))%type.
Abbreviation prim_op := (MutexOp + (RMutexOp + (SemOp + ChanOp)))%type.
Abbreviation pworld := (world prim_slot prim_op).

(** C13: The run queue holds exactly what may run.  No context is queued twice; a queued
    context is Runnable, its stack is with the scheduler and on no carrier, it is about
    to be woken by nobody, and if a primitive parked it, it has been granted what it
    waited for. *)
Theorem queue_sound (w : pworld) :
  reachable w →
  NoDup (m_runQueue (sch w)) ∧
  ∀ c, c ∈ m_runQueue (sch w) →
    ∃ x r, Find (sch w) c = Some x ∧ pcs w !! c = Some (POff r) ∧ state x = Runnable ∧
      (framesParked x = true → frames x ≠ []) ∧ no_mail w c ∧ ¬ pending w c ∧ granted w c r.
Proof.
  intros I%reachable_inv. split; [apply I|]. intros c Hq.
  pose proof (inv_ids w I c) as H. unfold id_ok in H. destruct (pcs w !! c) as [p|]; [|tauto].
  destruct H as (x & Hx & Hok).
  destruct p as [|? ?|? ?|? ?|r|r|r|?|]; simpl in Hok; try (exfalso; unfold queued in Hok; tauto).
  exists x, r. destruct Hok as (H1 & H2 & H3 & H4).
  destruct (decide (state x = Runnable)) as [E|E]; [|by destruct (H3 E)].
  assert (no_mail w c ∧ ¬ pending w c ∧ granted w c r) as (? & ? & ?).
  { destruct r as [[h op]|]; simpl in *; [|tauto]. rewrite E in H4.
    destruct H4 as [(Hs & _)|[(Hs & _)|?]]; [by apply prim_not_Runnable in Hs..|tauto]. }
  by split_and!.
Qed.

(** C3: Wakes do not stray.  Whenever a context is about to wake another, the target is
    still parked on the primitive that granted it, has no answer outstanding anywhere,
    nobody else is about to wake it, and the waker itself is another context. *)
Theorem wakes_land (w : pworld) a ws d :
  reachable w → pcs w !! a = Some (PWake ws) → d ∈ ws.*1 →
  d ≠ a ∧ (∀ b ws', pcs w !! b = Some (PWake ws') → d ∈ ws'.*1 → b = a) ∧
  ∃ x h op, Find (sch w) d = Some x ∧
    (pcs w !! d = Some (PUnw (Some (h, op))) ∨ pcs w !! d = Some (POff (Some (h, op)))) ∧
    state x ∈ prim_states ∧ no_mail w d ∧ grant_at w h d ∧ (d ∉ m_runQueue (sch w)).
Proof.
  intros I%reachable_inv Ha Hd.
  assert (pending w d) as Hp by (by eexists _, _). split_and!.
  - intros ->. destruct (ctx_of w a _ I Ha) as (x & _ & _ & _ & _ & _ & Hn). done.
  - intros b ws' Hb Hdb. by eapply (inv_wakers w I).
  - pose proof (inv_ids w I d) as H. unfold id_ok in H. destruct (pcs w !! d) as [p|]; [|tauto].
    destruct H as (x & Hx & Hok).
    destruct p as [|? ?|? ?|? ?|r|r|r|?|]; simpl in Hok; try (exfalso; tauto);
      (destruct r as [[h op]|]; simpl in Hok; [|exfalso; tauto]).
    + destruct Hok as (_ & Hq & Hw). exists x, h, op.
      destruct Hw as [(_ & _ & ?)|[(? & ? & ? & _)|(_ & _ & _ & ?)]]; [done| |done].
      split_and!; try done. by left.
    + destruct Hok as (_ & _ & Hq & Hw). exists x, h, op.
      destruct Hw as [(_ & _ & ?)|[(Hs & ? & ? & _)|(_ & _ & _ & ?)]]; [done| |done].
      split_and!; try done; [by right|]. by apply Hq, prim_not_Runnable.
Qed.

(** C2: No wakeup is lost.  A context that a primitive parked and that is not queued
    either still has its entry in the mailbox of that primitive, committed, or some
    other context is just about to wake it.  If its stack has left the carrier, the
    wake will queue it. *)
Theorem no_lost_wakeup (w : pworld) c h op :
  reachable w → pcs w !! c = Some (POff (Some (h, op))) → (c ∉ m_runQueue (sch w)) →
  ∃ x, Find (sch w) c = Some x ∧ state x ∈ prim_states ∧ framesParked x = true ∧ frames x ≠ [] ∧
    (mail_only w c h MCommitted ∨ (pending w c ∧ grant_at w h c)).
Proof.
  intros I%reachable_inv Hc Hq. destruct (ctx_of w c _ I Hc) as (x & Hx & H1 & H2 & H3 & H4).
  exists x. assert (state x ≠ Runnable) as Hns by (intros E; by destruct Hq; apply H2).
  destruct (H3 Hns) as [Hfp _].
  destruct H4 as [(Hs & Hm & _)|[(Hs & Hm & Hg & Hp)|(Hs & _)]]; [..|done]; split_and!; try done; auto.
Qed.

(** C1: Mutual exclusion.  At most one context at a time is inside a mutex or inside a
    reentrant mutex, and it is the recorded owner: from the moment a call, an answered
    park or a wake gave it the lock until its unlock. *)
Theorem mutual_exclusion (w : pworld) h c d :
  reachable w → (c, h) ∈ holds w → (d, h) ∈ holds w →
  match store w !! h with
  | Some (inl m) => c = d ∧ mx_ownerId m = Z.of_nat c
  | Some (inr (inl m)) => c = d ∧ rm_ownerId m = Z.of_nat c
  | _ => True
  end.
Proof.
  intros I%reachable_inv Hc Hd.
  destruct (inv_holds w I c h Hc) as (s & Hs & Gc). destruct (inv_holds w I d h Hd) as (s' & Hs' & Gd).
  rewrite Hs. rewrite Hs in Hs'. injection Hs' as <-.
  destruct s as [m|[m|?]]; simpl in Gc, Gd; [..|done]; (split; [lia|done]).
Qed.

(** The recheck always finds its entry.  A context between its migration and its
    recheck has an entry in the slot it registered in, so the recheck never reports a
    vanished waiter, whatever the others did in between; and it parks exactly if nobody
    has answered. *)
Theorem recheck_total (w : pworld) c h op :
  reachable w → pcs w !! c = Some (PMig h op) →
  ∃ s s' b, store w !! h = Some s ∧ pp_recheck s c = Ok (s', b) ∧
    (b = true ↔ pp_mail s c = Some MPending) ∧ (b = false → grant_at w h c).
Proof.
  intros I%reachable_inv Hc. destruct (ctx_of w c _ I Hc) as (x & Hx & _ & _ & _ & Hih & _).
  destruct Hih as [[Hm _]|[[Hm _] Hg]]; unfold mail_at in Hm;
    destruct (store w !! h) as [s|] eqn:Hs; try done.
  - change (pp_mail s c = Some MPending) in Hm.
    destruct (pp_recheck_spec s c MPending (inv_slots w I h s Hs) Hm) as (s' & E & _); [done|].
    exists s, s', true. split_and!; try done.
  - change (pp_mail s c = Some MStamped) in Hm.
    destruct (pp_recheck_spec s c MStamped (inv_slots w I h s Hs) Hm) as (s' & E & _); [done|].
    exists s, s', false. split_and!; try done. by rewrite Hm.
Qed.

(** Why a parked context has to wait, read off its slot. *)
Definition cause (s : prim_slot) (c : nat) : Prop :=
  match s with
  | inl m => 0 ≤ mx_ownerId m
  | inr (inl m) => 0 ≤ rm_ownerId m
  | inr (inr (inl m)) => sem_count m ≤ 0
  | inr (inr (inr m)) =>
      ch_closed m = false ∧
      ((c ∈ cw_contextId <$> ch_waiters m ∧ queue m = []) ∨
       (c ∈ ps_senderId <$> ch_pending m ∧ full m))
  end.

Lemma committed_cause s c :
  pp_wf s → pp_mail s c = Some MCommitted → cause s c.
Proof.
  destruct s as [m|[m|[m|m]]]; simpl.
  - intros (_ & Ho & Hf) Hm. assert (¬ Forall stamped (mx_waiters m)) by (by eapply live_stamped).
    destruct (decide (mx_ownerId m = -1)); [tauto|lia].
  - intros (_ & Ho & Hf) Hm. assert (¬ Forall stamped (rm_waiters m)) by (by eapply live_stamped).
    destruct (decide (rm_ownerId m = -1)); [tauto|lia].
  - intros (_ & Ho & Hf) Hm. assert (¬ Forall stamped (sem_waiters m)) by (by eapply live_stamped).
    destruct (decide (0 < sem_count m)); [tauto|lia].
  - intros [N I] Hm. apply assoc_mail_Some in Hm; [|done]. unfold mails in Hm.
    apply elem_of_app in Hm as [Hm|Hm].
    + apply list_elem_of_fmap in Hm as (w & [= -> Hp] & Hw).
      assert (¬ Forall dead_w (ch_waiters m)) as Hl.
      { intros Hd. rewrite Forall_forall in Hd. specialize (Hd w Hw). unfold dead_w, dead in Hd. congruence. }
      assert (ch_buffered m = []) as Hb.
      { destruct (ch_buffered m) eqn:E; [done|]. destruct Hl. apply I. by rewrite E. }
      split.
      * destruct (ch_closed m) eqn:E; [|done]. destruct Hl. by apply (co_closed m I).
      * left. split; [by apply list_elem_of_fmap_2|by apply chan_ok_empty].
    + apply list_elem_of_fmap in Hm as (p & [= -> Hp] & Hw).
      assert (¬ Forall dead_p (ch_pending m)) as Hl.
      { intros Hd. rewrite Forall_forall in Hd. specialize (Hd p Hw). unfold dead_p, dead in Hd. congruence. }
      split.
      * destruct (ch_closed m) eqn:E; [|done]. destruct Hl. by apply (co_closed m I).
      * right. split; [by apply list_elem_of_fmap_2|].
        destruct (decide (full m)); [done|]. destruct Hl. by apply I.
Qed.

(** When everything is still, everybody who waits has a reason.  If the queue is
    empty and every context is parked or done, a context parked on a primitive has its
    committed entry there, and the primitive is held, out of permits, or a channel that
    is open with nothing to receive or no room to send.  No interleaving leaves a
    context parked on a resource that is free. *)
Theorem stillness_is_deadlock (w : pworld) c h op :
  reachable w → m_runQueue (sch w) = [] →
  (∀ d p, pcs w !! d = Some p → p = PDone ∨ ∃ r, p = POff r) →
  pcs w !! c = Some (POff (Some (h, op))) →
  ∃ s, store w !! h = Some s ∧ pp_mail s c = Some MCommitted ∧ cause s c.
Proof.
  intros I%reachable_inv Hq Hstill Hc. destruct (ctx_of w c _ I Hc) as (x & Hx & H1 & H2 & H3 & H4).
  destruct H4 as [(Hs & [Hm _] & _)|[(Hs & _ & _ & a & ws & Ha & _)|(Hs & _)]].
  - unfold mail_at in Hm. destruct (store w !! h) as [s|] eqn:E; [|done]. exists s.
    split; [done|]. split; [done|]. apply committed_cause; [|done]. by eapply inv_slots.
  - destruct (Hstill a _ Ha) as [?|[? ?]]; done.
  - specialize (H2 Hs). unfold queued in H2. rewrite Hq in H2. by apply not_elem_of_nil in H2.
Qed.

(** ** A run

    Two carriers, two contexts, one mutex: 0 takes it, 1 parks on it, 0 unlocks and
    wakes 1. *)
Definition k1 : CarrierState := carrier 100 0 None.
Definition k2 : CarrierState := carrier 200 1 None.
Definition start : VmScheduler := sched_with [] [] None ∅.

Definition locked (waiters : list SyncWaiter) : prim_slot :=
  inl {| mx_ownerId := 0; mx_waiters := waiters |}.
Definition op_lock : prim_op := inl (OpLock true).
Definition op_unlock : prim_op := inl OpUnlock.
Definition root (c : nat) : ExecutionContext := set_frames [Z.of_nat c] (ExecutionContext0 c).

Definition spawn1 (s : VmScheduler) (c : nat) : VmScheduler :=
  store_ctx c (set_frames [Z.of_nat c] (ExecutionContext0 c)) (RegisterContext s k1).1.
Definition sch1 : VmScheduler := Eval vm_compute in spawn1 (Reset start) 0.
Definition sch2 : VmScheduler := Eval vm_compute in spawn1 sch1 1.
Definition popped (s : VmScheduler) (k : CarrierState) : VmScheduler :=
  match PopNextRunnable s k with Ok (s, _, _) => s | Raise _ => s end.
Definition spliced (s : VmScheduler) (c : nat) : VmScheduler :=
  match SpliceResumedFrames s c [] 0 with Ok (s, _, _, _) => s | Raise _ => s end.
Definition sch3 : VmScheduler := Eval vm_compute in popped sch2 k1.
Definition sch4 : VmScheduler := Eval vm_compute in spliced sch3 0.
Definition sch5 : VmScheduler := Eval vm_compute in popped sch4 k2.
Definition sch6 : VmScheduler := Eval vm_compute in spliced sch5 1.

Definition wreg : pworld :=
  {| sch := sch6; store := [locked [{| sw_contextId := 1; sw_phase := kPending |}]];
     pcs := [PRun; PReg 0 op_lock]; holds := [(0, 0)]%nat |}.

(** Both contexts run, 0 inside the mutex, 1 registered behind it. *)
Lemma run_registered : reachable wreg.
Proof.
  exists start.
  eapply rtc_l; [apply (st_new_slot _ (inl MutexSlot0)); [split_and!; [constructor|done|by constructor]|done]|].
  apply (rtc_l _ _ {| sch := sch1; store := [inl MutexSlot0]; pcs := [POff None]; holds := [] |}).
  { apply (st_spawn {| sch := Reset start; store := [inl MutexSlot0]; pcs := []; holds := [] |}
      k1 [0] (RegisterContext (Reset start) k1).1 0). vm_compute. reflexivity. }
  apply (rtc_l _ _ {| sch := sch2; store := [inl MutexSlot0]; pcs := [POff None; POff None]; holds := [] |}).
  { apply (st_spawn {| sch := sch1; store := [inl MutexSlot0]; pcs := [POff None]; holds := [] |}
      k1 [1] (RegisterContext sch1 k1).1 1). vm_compute. reflexivity. }
  apply (rtc_l _ _ {| sch := sch3; store := [inl MutexSlot0]; pcs := [PSplice None; POff None]; holds := [] |}).
  { apply (st_pop {| sch := sch2; store := [inl MutexSlot0]; pcs := [POff None; POff None]; holds := [] |}
      0 None k1 sch3 (carrier 100 0 (Some 0%nat))); [|reflexivity]. apply round_pop. vm_compute. reflexivity. }
  eapply rtc_l; [apply (st_splice _ 0 None [] 0 sch4 [0] NoRethrow true); reflexivity|].
  eapply rtc_l; [apply (st_call_done _ 0 0 op_lock (inl MutexSlot0) (locked []) [] true); reflexivity|].
  eapply rtc_l; [apply (st_woken _ 0); reflexivity|].
  eapply rtc_l; [apply (st_pop _ 1 None k2 sch5 (carrier 200 1 (Some 1%nat))); [|reflexivity]|].
  { apply round_pop. vm_compute. reflexivity. }
  eapply rtc_l; [apply (st_splice _ 1 None [] 0 sch6 [1] NoRethrow true); reflexivity|].
  apply rtc_once.
  apply (st_call_park {| sch := sch6; store := [locked []]; pcs := [PRun; PRun]; holds := [(0, 0)]%nat |}
    1 0 op_lock (locked []) (locked [{| sw_contextId := 1; sw_phase := kPending |}])); reflexivity.
Qed.

Definition k2at1 : CarrierState := carrier 200 1 (Some 1%nat).
Definition k1at0 : CarrierState := carrier 100 0 (Some 0%nat).
Definition one (p : WaiterPhase) : list SyncWaiter := [{| sw_contextId := 1; sw_phase := p |}].
Definition sch7 : VmScheduler := Eval vm_compute in (ParkIn ParkedMutex sch6 k2at1 1).1.
Definition sch8 : VmScheduler := Eval vm_compute in (ParkContextFrames sch7 k2at1 1 [1]).1.
Definition sch9 : VmScheduler := Eval vm_compute in WakeForChanRecv sch8 1 0.
Definition sch10 : VmScheduler := Eval vm_compute in (MarkFinished sch8 k1at0 0 0).1.

Definition wmig : pworld :=
  {| sch := sch7; store := [locked (one kPending)]; pcs := [PRun; PMig 0 op_lock]; holds := [(0, 0)]%nat |}.
Definition wparked : pworld :=
  {| sch := sch8; store := [locked (one kCommitted)]; pcs := [PRun; POff (Some (0%nat, op_lock))];
     holds := [(0, 0)]%nat |}.
Definition wwaking : pworld :=
  {| sch := sch8; store := [inl {| mx_ownerId := 1; mx_waiters := [] |}];
     pcs := [PWake [(1%nat, 0)]; POff (Some (0%nat, op_lock))]; holds := [] |}.
Definition wwoken : pworld :=
  {| sch := sch9; store := [inl {| mx_ownerId := 1; mx_waiters := [] |}];
     pcs := [PWake []; POff (Some (0%nat, op_lock))]; holds := [] |}.
Definition wstill : pworld :=
  {| sch := sch10; store := [locked (one kCommitted)]; pcs := [PDone; POff (Some (0%nat, op_lock))];
     holds := [(0, 0)]%nat |}.

Lemma reachable_step (w w' : pworld) : reachable w → step w w' → reachable w'.
Proof. intros (s & H) Hs. exists s. by eapply rtc_r. Qed.

Lemma run_migrated : reachable wmig.
Proof.
  apply (reachable_step wreg); [apply run_registered|].
  exact (st_migrate wreg 1 0 op_lock (locked (one kPending)) k2at1 eq_refl eq_refl).
Qed.
Lemma run_parked : reachable wparked.
Proof.
  apply (reachable_step {| sch := sch7; store := [locked (one kCommitted)];
    pcs := [PRun; PUnw (Some (0%nat, op_lock))]; holds := [(0, 0)]%nat |}).
  - apply (reachable_step wmig); [apply run_migrated|].
    exact (st_recheck wmig 1 0 op_lock (locked (one kPending)) (locked (one kCommitted)) true
             eq_refl eq_refl eq_refl).
  - by apply (st_land {| sch := sch7; store := [locked (one kCommitted)];
      pcs := [PRun; PUnw (Some (0%nat, op_lock))]; holds := [(0, 0)]%nat |} 1 (Some (0%nat, op_lock)) k2at1 [1]).
Qed.
Lemma run_waking : reachable wwaking.
Proof.
  apply (reachable_step wparked); [apply run_parked|].
  assert (pp_call (locked (one kCommitted)) 0%nat op_unlock =
    Ok (inl {| mx_ownerId := 1; mx_waiters := [] |}, CallDone [(1%nat, 0)] false)) as E
    by (vm_compute; reflexivity).
  apply (eq_ind _ (step wparked) (st_call_done wparked 0 0 op_unlock (locked (one kCommitted))
    (inl {| mx_ownerId := 1; mx_waiters := [] |}) [(1%nat, 0)] false eq_refl eq_refl E)).
  vm_compute. reflexivity.
Qed.
Lemma run_woken : reachable wwoken.
Proof.
  apply (reachable_step wwaking); [apply run_waking|].
  exact (st_wake wwaking 0 1 0 [] eq_refl).
Qed.
Lemma run_still : reachable wstill.
Proof.
  apply (reachable_step wparked); [apply run_parked|].
  exact (st_finish wparked 0 k1at0 0 eq_refl).
Qed.

Lemma queue_sound_witness :
  m_runQueue (sch wwoken) = [1%nat] ∧ granted wwoken 1 (Some (0%nat, op_lock)).
Proof.
  split; [reflexivity|].
  destruct (queue_sound wwoken run_woken) as [_ H].
  destruct (H 1%nat) as (x & r & _ & Hr & _ & _ & _ & _ & Hg); [left|].
  simpl in Hr. injection Hr as <-. exact Hg.
Defined.

Lemma wakes_land_witness :
  ∃ x, Find (sch wwaking) 1 = Some x ∧ state x ∈ prim_states ∧ (1%nat ∉ m_runQueue (sch wwaking)).
Proof.
  destruct (wakes_land wwaking 0 [(1%nat, 0)] 1 run_waking eq_refl) as (_ & _ & x & h & op & H1 & _ & H2 & _ & _ & H3);
    [left|]. exists x. split; [exact H1|]. split; [exact H2|exact H3].
Defined.

Lemma no_lost_wakeup_witness :
  mail_only wparked 1 0 MCommitted ∨ (pending wparked 1 ∧ grant_at wparked 0 1).
Proof.
  destruct (no_lost_wakeup wparked 1 0 op_lock run_parked eq_refl) as (x & _ & _ & _ & _ & H);
    [apply not_elem_of_nil|exact H].
Defined.

Lemma mutual_exclusion_witness : mx_ownerId {| mx_ownerId := 0; mx_waiters := one kPending |} = 0.
Proof.
  exact (proj2 (mutual_exclusion wreg 0 0 0 run_registered (list_elem_of_here _ _) (list_elem_of_here _ _))).
Defined.

Lemma recheck_total_witness :
  ∃ (s s' : prim_slot) b, store wmig !! 0%nat = Some s ∧ pp_recheck s 1%nat = Ok (s', b).
Proof.
  destruct (recheck_total wmig 1 0 op_lock run_migrated eq_refl) as (s & s' & b & H1 & H2 & _).
  exists s, s', b. split; [exact H1|exact H2].
Defined.

Lemma stillness_is_deadlock_witness : ∃ s, store wstill !! 0%nat = Some s ∧ cause s 1.
Proof.
  destruct (stillness_is_deadlock wstill 1 0 op_lock run_still eq_refl) as (s & H1 & _ & H2).
  - intros [|[|d]] p Hp; simplify_eq/=; [by left|right; by eexists].
  - reflexivity.
  - exists s. split; [exact H1|exact H2].
Defined.

Lemma blocking_call_steps_witness :
  let w : pworld := {| sch := sch6; store := [locked []]; pcs := [PRun; PRun]; holds := [(0, 0)]%nat |} in
  ∃ w', blocking_call w 1 0 op_lock k2at1 = Ok w' ∧ pcs w' = [PRun; PUnw (Some (0%nat, op_lock))] ∧
        rtc step w w'.
Proof.
  intros w. eexists. assert (blocking_call w 1 0 op_lock k2at1 =
    Ok {| sch := sch7; store := [locked (one kCommitted)]; pcs := [PRun; PUnw (Some (0%nat, op_lock))];
          holds := [(0, 0)]%nat |}) as E by (vm_compute; reflexivity).
  split; [exact E|]. split; [reflexivity|]. exact (blocking_call_steps w 1 0 op_lock k2at1 _ eq_refl E).
Defined.
